(* ===== verification/_CoqProject ===== *)
-Q . S2P
Prelude.v
Labels.v
GoHeap.v
Sorting.v
Iter.v
Postings.v
MemPostings.v
Shard.v
InvertedIndex.v
Dedup.v
Symbols.v
Delta.v
ProfilesIndex.v
Head.v
HeadQuery.v
HeadApi.v
Matchers.v
Encoding.v
IndexSymbols.v
IndexWriter.v
IndexReader.v
IndexRoundtrip.v
IndexFile.v
Chunks.v
Tree.v
FlameGraph.v
StackMerge.v
SelectMerge.v
QuerySeries.v
Querier.v
RowNumbers.v
QueryIters.v
Predicates.v
ColumnIter.v
UnionIter.v
BlockSelect.v
Repeated.v
MultiRepeated.v
RowTables.v
BlockMerge.v
BlockQuerier.v
PhlareDB.v
Pprof.v
Distributor.v
Bucket.v
Shipper.v
PprofWf.v
HeadIndex.v
HeadFlush.v
Heads.v
Ingester.v
Agent.v
Seed.v
