(* ===== verification/Prelude.v ===== *)
(** * Phlare: a verification development

    Phlare stores continuous profiles.  A pprof profile is pushed to an ingester, whose head block deduplicates
    its symbols, keeps its samples as deltas and indexes its series; the head is flushed to a block of parquet
    tables with an index file, which is shipped to a bucket, and queries select profiles by label matchers in heads and blocks, merge their
    stack traces or series, and merge once more in the querier across ingesters.  This library models that path
    and proves it correct.  Paths below are under [src/pkg/].

    ** Conventions

    - A Go struct is a [Record], an interface a [Class] on the type of its states whose methods return the new
      state, a method with effects a function that passes the state on.  What a component promises to its clients
      is a second class of laws ([PostingsOk], [SeekIteratorOk], ...); combinators are instances of it.
    - [outcome] is the result of code that may fail: [Ret], [Fail] with an error, [Panic] for a panic and for a
      loop that did not end within its fuel.  The fuel of every loop is computed from its state, and the theorems
      show results, so the fuel is enough; where the code itself does not end, a lemma shows that for all fuel.
    - Machine integers are [Z] or [N] wrapped by [i64], [u64], [u32]; strings are [string], bytes [list N].
      A Go map is a [gmap]; a loop over a map takes an order of its entries as a parameter.
    - Objects that Go shares by pointer and mutates (samples in [Delta], rows in [ProfilesIndex], function slices
      in [StackMerge]) live in a store and are referred to by position.
    - Code outside [src/] is a parameter with its documented behaviour as hypotheses: hashes, regular expressions
      and matchers, the PromQL parser, float arithmetic, the Prometheus byte encoding (with a concrete instance),
      parquet files, buckets and disks, the ring and RPC clients, the order in which concurrent calls end.

    ** Files

    - [Prelude]: tactics, hints, [outcome], widths, lemmas on lists, sorting and loops.  [GoHeap]: container/heap.
      [Sorting]: sort.Slice.
    - [Labels]: model/labels.go and profile.go.  Label sets, their hashes, encodings, order and builder.
    - [Iter]: iter/.  Slice, error, batched, time-ranged and merging iterators.
    - [Postings]: phlaredb/tsdb/index/postings.go.  [Intersect], [Merge], [Without] and big-endian lists refine
      operations on strictly increasing lists, and any nesting of them does.  [MemPostings]: the postings a
      writer collects, and the statistics of postingsstats.go.  [Shard]: fingerprint shards.
    - [InvertedIndex]: phlaredb/tsdb/index.go, bitprefix.go.  The sharded index of the head.
    - [Dedup], [Symbols]: phlaredb/deduplicating_slice.go, strings.go, functions.go, mappings.go, locations.go,
      stacktraces.go.  The tables of the head, also under interleaved callers, and the rewriting of references.
    - [Delta], [ProfilesIndex]: phlaredb/delta.go, profile_labels.go, profiles.go.
    - [Head], [HeadQuery], [HeadApi]: phlaredb/head.go.  Ingestion, merges and listings.
    - [Matchers]: phlaredb/querier.go.  Postings of matchers, over any index reader.
    - [Encoding], [IndexSymbols], [IndexWriter], [IndexReader], [IndexRoundtrip], [IndexFile], [Chunks]:
      phlaredb/tsdb/encoding, tsdb/index/index.go and chunk.go.  The index file from bytes to series and back.
    - [Tree], [FlameGraph]: querier/tree.go, flamegraph.go, stack.go.  Stacks to a tree to rows of bars.
    - [StackMerge], [SelectMerge], [QuerySeries], [Querier]: model/stacktraces.go, querier/select_merge.go,
      model/series.go, querier/querier.go, ingester_querier.go.  Selection and merging across ingesters.
    - [RowNumbers], [QueryIters], [Predicates], [ColumnIter], [UnionIter]: phlaredb/query/iters.go and predicates.go.  Row
      numbers, joins and unions of columns by row, the predicates that skip chunks and pages, and the
      column reader with its goroutine as a step relation.  [Repeated], [MultiRepeated]: query/repeated.go, the
      values of whole rows whatever pages and buffers cut them.
    - [BlockSelect], [RowTables], [BlockMerge], [BlockQuerier]: phlaredb/block_querier.go, sample_merge.go,
      block/metadata.go.  Selection of profiles, rows by number, merging of samples in a block, and the set of
      blocks that follows the bucket.  [PhlareDB]: phlaredb/phlaredb.go, the handlers that stream profiles to a
      querier, the change of heads, and the deletion of old blocks.
    - [Pprof], [PprofWf]: pprof/pprof.go, slices/slices.go.  Normalisation of a pushed profile, and why an
      ingester can store the outcome.  [Distributor]:
      distributor/distributor.go.  Tokens, placement on the ring, and the goroutines of a push as a step relation.
    - [Bucket]: objstore/objstore.go, bucket_util.go, phlaredb/block/block.go.  Views of a bucket under a prefix,
      uploads and removals of blocks.  [Shipper]: phlaredb/shipper/shipper.go.  What is uploaded, and recorded.
    - [HeadIndex], [HeadFlush]: phlaredb/profiles.go WriteTo, head.go, block/metadata.go.  The index file a head writes,
      its flush to a block over a directory that can fail at any call, and the loop that decides when it is due.
      [Heads]: phlaredb.go Head and Flush.  Pushes while a head is replaced, as a step relation.
    - [Ingester]: ingester/ingester.go, instance.go, tenant/.  Tenants of requests, the map of instances under its
      locks and the shutdown of an instance with its shipper, as step relations.
    - [Agent]: agent/target.go, profiles.go, agent.go, config.go.  Labels of scraped targets, what a sync starts and
      stops, the goroutine of a target, one scrape, and validation.  [Seed]: usagestats/seed.go, reporter.go.  The
      merge of seeds, the wait for a stable one, and what a leader and a follower do.
    ** Theorems

    - Refinements of specifications: postings combinators as list operations, [JoinIterator] as a join of lists,
      the profiles index as a filter of what was added, deltas as an abstract table, the labels builder as a map.
    - Functional correctness: postings of matchers, lookups of the inverted index, ingestion of a whole profile,
      merges by stack trace and by label in the head and across ingesters, trees, flame graphs, series by step.
    - Round trips: the index file, its symbols, adding and deleting postings.  Safety and invariants: symbols
      keep their meaning, concurrent ingestion, every profile kept, and once over
      sorted streams, no chunk skipped that holds a match, and
      a set of blocks that is the bucket's.
    - Blocks: selection gives the rows of any file, and both merges what the tables hold, for every cut into pages and buffers that the
      columns of the samples share; the
      background column reader yields the same rows under every schedule of its goroutine.
    - Liveness, termination and bounds: closing a column reader ends its goroutine, the clean-up of blocks ends,
      counters of inspected and kept values, the times of rebuilt metadata.
    - Writing: normalisation keeps sums, names and well-formedness; a push is answered once and truthfully in every interleaving, and
      it ends; at every moment of an upload a block that can be seen is complete, and recorded blocks are uploaded.
      [Bucket] states this of the contents the bucket has had, so that a crash in between is covered.
    - Heads to blocks: the reader finds in the index file the series and chunks a head wrote; a block in the directory of blocks is
      complete at every moment of a flush; profiles acknowledged before their head is replaced are kept
      unless its flush fails; a tenant has one instance, and [Stop] ends with a last run of the shipper.
    - Around the storage: a sync starts and stops exactly the targets that came and went, a stopped target scrapes
      no more; merged seeds converge in any order, and a leader only uses a seed that is in the file or that it wrote.
    - The two ends of the selection stream agree: [PhlareDB] shows that the ingester keeps the profiles that the
      merge iterator of [SelectMerge] read and flagged.
    - Errors and divergences of the code are stated as theorems too, where they are behaviour of interest.

    ** Not modelled

    The service framework, RPC, HTTP, configuration, metrics, tracing, files and the storage under a bucket, the parquet library
    and generated code; tools, tests and the dashboard plugin.  Pools that only recycle memory.  Calls of one
    [Ingest] are sequential (interleavings are the subject of [Dedup]).  Counters of a push are
    unbounded: fewer than 2^31 series are assumed.  [Postings] takes slices as values. *)

From stdpp Require Export prelude gmap strings sorting.
From Stdlib Require Export ZArith NArith Lia.

(** ** Scope, tactics and hint databases of the development *)

Declare Scope go_scope.
Delimit Scope go_scope with go.

Create HintDb phlare.
Create Rewrite HintDb phlare_rw.

(** Boolean comparisons of the code become propositions. *)
Ltac bool_prop :=
  repeat match goal with
  | H : (_ && _)%bool = true |- _ => apply andb_true_iff in H; destruct H
  | H : (_ || _)%bool = false |- _ => apply orb_false_iff in H; destruct H
  | H : negb _ = true |- _ => apply negb_true_iff in H
  | H : negb _ = false |- _ => apply negb_false_iff in H
  | H : (_ =? _)%N = true |- _ => apply N.eqb_eq in H
  | H : (_ =? _)%N = false |- _ => apply N.eqb_neq in H
  | H : (_ <? _)%N = true |- _ => apply N.ltb_lt in H
  | H : (_ <? _)%N = false |- _ => apply N.ltb_ge in H
  | H : (_ <=? _)%N = true |- _ => apply N.leb_le in H
  | H : (_ <=? _)%N = false |- _ => apply N.leb_gt in H
  | H : (_ =? _)%Z = true |- _ => apply Z.eqb_eq in H
  | H : (_ =? _)%Z = false |- _ => apply Z.eqb_neq in H
  | H : (_ <? _)%Z = true |- _ => apply Z.ltb_lt in H
  | H : (_ <? _)%Z = false |- _ => apply Z.ltb_ge in H
  | H : (_ <=? _)%Z = true |- _ => apply Z.leb_le in H
  | H : (_ <=? _)%Z = false |- _ => apply Z.leb_gt in H
  | H : (_ =? _)%nat = true |- _ => apply Nat.eqb_eq in H
  | H : (_ =? _)%nat = false |- _ => apply Nat.eqb_neq in H
  | H : (_ <? _)%nat = true |- _ => apply Nat.ltb_lt in H
  | H : (_ <? _)%nat = false |- _ => apply Nat.ltb_ge in H
  | H : (_ <=? _)%nat = true |- _ => apply Nat.leb_le in H
  | H : (_ <=? _)%nat = false |- _ => apply Nat.leb_gt in H
  end.

(** Case analysis on the test of the [if] or [match] in the goal, keeping the
    equation, then arithmetic. *)
Ltac case_if_eq :=
  match goal with
  | |- context [if ?b then _ else _] =>
      lazymatch type of b with
      | bool => let E := fresh "E" in destruct b eqn:E
      | _ => case_decide
      end
  end.

Ltac go_arith := bool_prop; lia.

(** ** Machine integers

    Unsigned Go integers are values of [N], signed ones of [Z]; the wrap-around
    of an operation that may leave the width is written with these functions. *)

Definition u32 (n : N) : N := (n `mod` 2 ^ 32)%N.
Definition u64 (n : N) : N := (n `mod` 2 ^ 64)%N.
Definition i64 (z : Z) : Z := ((z + 2 ^ 63) `mod` 2 ^ 64 - 2 ^ 63)%Z.
Definition max_uint64 : N := (2 ^ 64 - 1)%N.
Definition max_int64 : Z := (2 ^ 63 - 1)%Z.
Definition min_int64 : Z := (- 2 ^ 63)%Z.

Definition int64_range (z : Z) : Prop := (min_int64 ≤ z ≤ max_int64)%Z.

Lemma u32_small n : (n < 2 ^ 32)%N → u32 n = n.
Proof. intros H. unfold u32. by apply N.mod_small. Qed.

Lemma u64_small n : (n < 2 ^ 64)%N → u64 n = n.
Proof. intros H. unfold u64. by apply N.mod_small. Qed.

Lemma i64_range z : int64_range (i64 z).
Proof.
  unfold int64_range, i64, min_int64, max_int64.
  pose proof (Z.mod_pos_bound (z + 2 ^ 63) (2 ^ 64)). lia.
Qed.

Lemma i64_small z : int64_range z → i64 z = z.
Proof.
  unfold int64_range, i64, min_int64, max_int64. intros H.
  rewrite Z.mod_small; lia.
Qed.

Lemma i64_add_l a b : i64 (i64 a + b) = i64 (a + b).
Proof.
  unfold i64.
  replace ((a + 2 ^ 63) `mod` 2 ^ 64 - 2 ^ 63 + b + 2 ^ 63)%Z
    with ((a + 2 ^ 63) `mod` 2 ^ 64 + b)%Z by lia.
  rewrite Zplus_mod_idemp_l. do 2 f_equal. lia.
Qed.

Lemma i64_int_eq a b : (a mod 2 ^ 64 = b mod 2 ^ 64)%Z → i64 a = i64 b.
Proof.
  intros Hab. unfold i64. f_equal. rewrite (Z.add_mod a), (Z.add_mod b) by done. by rewrite Hab.
Qed.

Lemma i64_mod z : (i64 z mod 2 ^ 64 = z mod 2 ^ 64)%Z.
Proof.
  unfold i64. rewrite Zminus_mod, Zmod_mod, <- Zminus_mod. f_equal. lia.
Qed.

Lemma i64_add_r a b : i64 (a + i64 b) = i64 (a + b).
Proof. by rewrite Z.add_comm, i64_add_l, Z.add_comm. Qed.

Lemma i64_idem a : i64 (i64 a) = i64 a.
Proof. apply i64_small, i64_range. Qed.

#[export] Hint Rewrite u32_small u64_small i64_small using (unfold int64_range; lia) : phlare_rw.

(** Go's zero value of a type. *)
Class GoZero (A : Type) := zero : A.
Global Instance zero_N : GoZero N := 0%N.
Global Instance zero_Z : GoZero Z := 0%Z.
Global Instance zero_bool : GoZero bool := false.
Global Instance zero_string : GoZero string := EmptyString.
Global Instance zero_list {A} : GoZero (list A) := [].
Global Instance zero_option {A} : GoZero (option A) := None.
Global Instance zero_prod `{GoZero A, GoZero B} : GoZero (A * B) := (zero, zero).

(** ** Results of fallible code

    [Ret] is a normal return, [Fail] a returned Go error, [Panic] a run-time
    panic (index out of range, nil dereference, explicit panic). *)

Inductive outcome (A : Type) : Type :=
| Ret (a : A)
| Fail (e : string)
| Panic.
Arguments Ret {A} a.
Arguments Fail {A} e.
Arguments Panic {A}.

Definition obind {A B} (o : outcome A) (k : A → outcome B) : outcome B :=
  match o with
  | Ret a => k a
  | Fail e => Fail e
  | Panic => Panic
  end.

Definition of_option {A} (o : option A) : outcome A :=
  match o with Some a => Ret a | None => Panic end.

Notation "x ←! o ; k" := (obind o (λ x, k))
  (at level 20, o at level 100, k at level 200, right associativity) : go_scope.

Lemma obind_ret {A B} (o : outcome A) (k : A → outcome B) b :
  obind o k = Ret b ↔ ∃ a, o = Ret a ∧ k a = Ret b.
Proof.
  destruct o; simpl; split; [eauto| |done| |done|]; intros (?&?&?); by simplify_eq.
Qed.

Fixpoint omapM {A B} (f : A → outcome B) (l : list A) : outcome (list B) :=
  match l with
  | [] => Ret []
  | x :: l => obind (f x) (λ y, obind (omapM f l) (λ l', Ret (y :: l')))
  end.

Lemma omapM_ret {A B} (f : A → outcome B) l l' :
  omapM f l = Ret l' ↔ Forall2 (λ x y, f x = Ret y) l l'.
Proof.
  revert l'. induction l as [|x l IH]; intros l'; simpl.
  - split; [intros [= <-]; constructor | by inversion 1].
  - rewrite obind_ret. split.
    + intros (y & Hy & (l2 & ?%IH & [= <-])%obind_ret). by constructor.
    + inversion 1 as [|? y ? l2 Hy Hl]; subst. exists y; split; [done|].
      apply IH in Hl. rewrite Hl. done.
Qed.

(** ** Go's [sort.Search]

    [search n f] is the library's binary search on [[0, n)]; [n] iterations are
    enough because the interval shrinks in each. *)

Fixpoint search_loop (fuel : nat) (i j : nat) (f : nat → bool) : nat :=
  match fuel with
  | O => i
  | S fuel =>
      if (i <? j)%nat then
        let h := Nat.div2 (i + j) in
        if f h then search_loop fuel i h f else search_loop fuel (S h) j f
      else i
  end.

Definition search (n : nat) (f : nat → bool) : nat := search_loop n 0 n f.

Lemma div2_between i j : i < j → i ≤ Nat.div2 (i + j) < j.
Proof. rewrite Nat.div2_div. intros. split; [apply Nat.div_le_lower_bound|apply Nat.Div0.div_lt_upper_bound]; lia. Qed.

Lemma search_loop_spec fuel i j n f :
  j - i ≤ fuel → i ≤ j ≤ n →
  (i = 0 ∨ f (pred i) = false) → (j = n ∨ f j = true) →
  let r := search_loop fuel i j f in
  i ≤ r ≤ j ∧ (r = 0 ∨ f (pred r) = false) ∧ (r = n ∨ f r = true).
Proof.
  revert i j. induction fuel as [|fuel IH]; intros i j Hf Hij Hi Hj; simpl.
  - replace j with i in * by lia. auto.
  - destruct (Nat.ltb_spec i j) as [Hlt|]; [|replace j with i in * by lia; auto].
    pose proof (div2_between i j Hlt) as Hh.
    destruct (f (Nat.div2 (i + j))) eqn:E.
    + destruct (IH i (Nat.div2 (i + j))) as (?&?&?); auto; [lia..|].
      split_and!; auto; lia.
    + destruct (IH (S (Nat.div2 (i + j))) j) as (?&?&?); auto; [lia..|].
      split_and!; auto; lia.
Qed.

(** Whatever [f] is, the result is a boundary of it. *)
Lemma search_boundary n f :
  let r := search n f in
  r ≤ n ∧ (r = 0 ∨ f (pred r) = false) ∧ (r = n ∨ f r = true).
Proof.
  destruct (search_loop_spec n 0 n n f) as (?&?&?); auto; [lia..|].
  cbv zeta. unfold search. split_and!; auto; lia.
Qed.

(** For a monotone [f] it is the first index where [f] holds. *)
Lemma search_monotone n f :
  (∀ i j, i ≤ j → j < n → f i = true → f j = true) →
  let r := search n f in
  r ≤ n ∧ (∀ i, i < r → f i = false) ∧ (∀ i, r ≤ i → i < n → f i = true).
Proof.
  intros Hmono r. destruct (search_boundary n f) as (Hr & Hlo & Hhi). fold r in Hr, Hlo, Hhi.
  split_and!; [done| |].
  - intros i Hi. destruct Hlo as [?|Hlo]; [lia|].
    destruct (f i) eqn:E; [|done]. rewrite (Hmono i (pred r)) in Hlo; [done|lia..|done].
  - intros i Hri Hi. destruct Hhi as [?|Hhi]; [lia|]. by apply (Hmono r).
Qed.

Lemma search_loop_ext fuel i j f g :
  (∀ k, i ≤ k < j → f k = g k) → search_loop fuel i j f = search_loop fuel i j g.
Proof.
  revert i j. induction fuel as [|fuel IH]; intros i j Hfg; simpl; [done|].
  destruct (Nat.ltb_spec i j) as [Hij|]; [|done]. pose proof (div2_between i j Hij).
  rewrite (Hfg (Nat.div2 (i + j))) by lia.
  destruct (g _); apply IH; intros k Hk; apply Hfg; lia.
Qed.

Lemma search_ext n f g : (∀ k, k < n → f k = g k) → search n f = search n g.
Proof. intros Hfg. apply search_loop_ext. intros k Hk. apply Hfg. lia. Qed.

(** ** The byte-wise order of Go strings *)

Lemma str_compare_refl s : String.compare s s = Eq.
Proof.
  pose proof (String.compare_antisym s s) as H. by destruct (String.compare s s).
Qed.

Lemma str_trichotomy a b :
  (String.ltb a b = true ∧ String.ltb b a = false ∧ a ≠ b) ∨
  (String.ltb a b = false ∧ String.ltb b a = false ∧ a = b) ∨
  (String.ltb a b = false ∧ String.ltb b a = true ∧ a ≠ b).
Proof.
  unfold String.ltb. rewrite (String.compare_antisym b a).
  destruct (String.compare a b) eqn:E; simpl.
  - right; left. split_and!; auto. by apply String.compare_eq_iff.
  - left. split_and!; auto. intros ->. by rewrite str_compare_refl in E.
  - do 2 right. split_and!; auto. intros ->. by rewrite str_compare_refl in E.
Qed.

Lemma str_le_ltb a b : String.le a b ↔ String.ltb b a = false.
Proof.
  unfold String.le, String.leb, String.ltb. rewrite (String.compare_antisym b a).
  destruct (String.compare a b); simpl; naive_solver.
Qed.

Lemma str_ltb_irrefl a : String.ltb a a = false.
Proof. unfold String.ltb. by rewrite str_compare_refl. Qed.

Lemma str_ltb_le a b : String.ltb a b = true ↔ String.le a b ∧ a ≠ b.
Proof.
  rewrite str_le_ltb. destruct (str_trichotomy a b) as [(E1&E2&?)|[(E1&E2&?)|(E1&E2&?)]]; rewrite E1, E2; naive_solver.
Qed.

Lemma str_ltb_trans a b c : String.ltb a b = true → String.ltb b c = true → String.ltb a c = true.
Proof.
  rewrite !str_ltb_le. intros [H1 N1] [H2 N2]. split; [by transitivity b|].
  intros ->. apply N1. by apply (anti_symm String.le).
Qed.

(** Case analysis on the order of two strings. *)
Ltac str_cases a b :=
  let H1 := fresh "Hlt" in let H2 := fresh "Hgt" in let H3 := fresh "Heq" in
  destruct (str_trichotomy a b) as [(H1&H2&H3)|[(H1&H2&H3)|(H1&H2&H3)]];
  rewrite ?H1, ?H2 in *.

Lemma str_app_cons x (a b : string) : String x a +:+ b = String x (a +:+ b).
Proof. done. Qed.

Lemma str_app_assoc (a b c : string) : (a +:+ b) +:+ c = a +:+ (b +:+ c).
Proof. induction a as [|x a IH]; [done|]. by rewrite !str_app_cons, IH. Qed.

Lemma str_app_nil_r (a : string) : a +:+ EmptyString = a.
Proof. induction a as [|x a IH]; [done|]. by rewrite str_app_cons, IH. Qed.

Lemma str_length_app (a b : string) : String.length (a +:+ b) = String.length a + String.length b.
Proof. induction a as [|x a IH]; [done|]. rewrite str_app_cons. simpl. by rewrite IH. Qed.

(** ** Lists *)

Lemma filter_ext_in {A} (P Q : A → Prop) `{∀ x, Decision (P x), ∀ x, Decision (Q x)} (l : list A) :
  (∀ x, x ∈ l → P x ↔ Q x) → filter P l = filter Q l.
Proof.
  induction l as [|x l IH]; intros HPQ; [done|].
  rewrite !filter_cons. rewrite IH by set_solver.
  repeat case_decide; try done; exfalso; set_solver.
Qed.

Lemma filter_map {A B} (f : A → B) (Q : B → Prop) `{∀ x, Decision (Q x)} (l : list A) : filter Q (f <$> l) = f <$> filter (λ x, Q (f x)) l.
Proof. induction l as [|x l IH]; [done|]. csimpl. rewrite !filter_cons. case_decide; csimpl; by rewrite IH. Qed.

Lemma filter_none {A} (P : A → Prop) `{∀ x, Decision (P x)} (l : list A) :
  (∀ x, x ∈ l → ¬ P x) → filter P l = [].
Proof.
  induction l as [|x l IH]; intros HP; [done|].
  rewrite filter_cons_False by set_solver. apply IH. set_solver.
Qed.

Lemma filter_all {A} (P : A → Prop) `{∀ x, Decision (P x)} (l : list A) :
  (∀ x, x ∈ l → P x) → filter P l = l.
Proof.
  induction l as [|x l IH]; intros HP; [done|].
  rewrite filter_cons_True by set_solver. f_equal. apply IH. set_solver.
Qed.

(** The suffix of [l] from the first element that is at least [x]. *)
Fixpoint drop_lt (x : N) (l : list N) : list N :=
  match l with
  | y :: l' => if (y <? x)%N then drop_lt x l' else l
  | [] => []
  end.

Lemma StronglySorted_lookup {A} (R : relation A) (l : list A) i j a b :
  StronglySorted R l → i < j → l !! i = Some a → l !! j = Some b → R a b.
Proof.
  intros Hs. revert i j. induction Hs as [|x l Hs IH Hx]; intros i j Hij Ha Hb; [done|].
  destruct j as [|j]; [lia|]. destruct i as [|i]; simpl in *; [|apply (IH i j); [lia|done..]].
  simplify_eq. rewrite Forall_forall in Hx. apply Hx. by eapply list_elem_of_lookup_2.
Qed.

Lemma StronglySorted_filter {A} (R : relation A) (P : A → Prop) `{∀ x, Decision (P x)} (l : list A) :
  StronglySorted R l → StronglySorted R (filter P l).
Proof.
  induction 1 as [|x l Hs IH Hx]; [constructor|]. rewrite filter_cons. case_decide; [|done].
  constructor; [done|]. rewrite Forall_forall in Hx |- *. intros y [_ Hy]%list_elem_of_filter. auto.
Qed.

Lemma drop_lt_drop (x : N) (l : list N) r :
  (∀ i y, i < r → l !! i = Some y → (y < x)%N) → (∀ y, l !! r = Some y → (x ≤ y)%N) →
  drop r l = drop_lt x l.
Proof.
  revert r. induction l as [|z l IH]; intros r Hlo Hhi; [by destruct r|].
  destruct r as [|r]; simpl.
  - specialize (Hhi z eq_refl). by rewrite (proj2 (N.ltb_ge _ _)).
  - pose proof (Hlo 0 z ltac:(lia) eq_refl). rewrite (proj2 (N.ltb_lt _ _)) by done.
    apply IH; [|done]. intros i y Hi Hy. apply (Hlo (S i)); [lia|done].
Qed.

(** The test the code searches with, on a slice of references. *)
Definition ge_test (x : N) (l : list N) (p : nat) : bool :=
  match l !! p with Some y => (x <=? y)%N | None => true end.

(** On a sorted list the binary search of the code finds that suffix. *)
Lemma search_drop_lt (x : N) (l : list N) :
  StronglySorted N.le l → drop (search (length l) (ge_test x l)) l = drop_lt x l.
Proof.
  intros Hs. destruct (search_monotone (length l) (ge_test x l)) as (Hr & Hlo & Hhi).
  { intros i j Hij Hj. unfold ge_test. destruct (lookup_lt_is_Some_2 l i) as [a Ha]; [lia|].
    destruct (lookup_lt_is_Some_2 l j) as [b Hb]; [lia|]. rewrite Ha, Hb, !N.leb_le.
    destruct (decide (i = j)) as [->|]; [by simplify_eq|].
    pose proof (StronglySorted_lookup _ _ i j a b Hs ltac:(lia) Ha Hb). lia. }
  apply drop_lt_drop.
  - intros i y Hi Hy. apply Hlo in Hi. unfold ge_test at 1 in Hi. rewrite Hy in Hi. go_arith.
  - intros y Hy. apply lookup_lt_Some in Hy as Hlt. specialize (Hhi _ (Nat.le_refl _) Hlt).
    unfold ge_test at 1 in Hhi. rewrite Hy in Hhi. go_arith.
Qed.

Lemma drop_lt_elem x l y : StronglySorted N.le l → y ∈ drop_lt x l ↔ y ∈ l ∧ (x ≤ y)%N.
Proof.
  induction 1 as [|z l Hs IH Hz]; simpl; [set_solver|]. rewrite Forall_forall in Hz.
  destruct (N.ltb_spec z x).
  - rewrite IH, elem_of_cons. naive_solver lia.
  - split; [|naive_solver]. intros Hy. split; [done|].
    apply elem_of_cons in Hy as [->|Hy]; [done|]. apply Hz in Hy. lia.
Qed.

Lemma drop_lt_suffix x l : ∃ k, l = k ++ drop_lt x l.
Proof.
  induction l as [|z l [k IH]]; simpl; [by exists []|].
  destruct (z <? x)%N; [exists (z :: k); simpl; congruence|by exists []].
Qed.

Lemma drop_lt_sorted (R : relation N) x l : StronglySorted R l → StronglySorted R (drop_lt x l).
Proof.
  intros Hs. destruct (drop_lt_suffix x l) as [k Hk]. rewrite Hk in Hs. by apply StronglySorted_app_1_r in Hs.
Qed.

Lemma StronglySorted_lt_le (l : list N) : StronglySorted N.lt l → StronglySorted N.le l.
Proof. induction 1; constructor; [done|]. eapply Forall_impl; [done|]. simpl. lia. Qed.

Lemma StronglySorted_lt_NoDup (l : list N) : StronglySorted N.lt l → NoDup l.
Proof.
  induction 1 as [|x l Hs IH Hx]; constructor; [|done].
  intros Hin. rewrite Forall_forall in Hx. apply Hx in Hin. lia.
Qed.

(** Strictly sorted lists with the same elements are equal. *)
Lemma sorted_ext (l1 l2 : list N) :
  StronglySorted N.lt l1 → StronglySorted N.lt l2 → (∀ x, x ∈ l1 ↔ x ∈ l2) → l1 = l2.
Proof.
  intros H1. revert l2. induction H1 as [|x l1 H1 IH Hx]; intros l2 H2 Heq.
  - destruct l2 as [|y l2]; [done|]. exfalso. specialize (Heq y). set_solver.
  - destruct H2 as [|y l2 H2 Hy]; [exfalso; specialize (Heq x); set_solver|].
    rewrite Forall_forall in Hx, Hy.
    assert (x = y) as ->.
    { pose proof (proj1 (Heq x) ltac:(set_solver)) as Hxin. pose proof (proj2 (Heq y) ltac:(set_solver)) as Hyin.
      apply elem_of_cons in Hxin as [->|Hxin]; [done|]. apply elem_of_cons in Hyin as [->|Hyin]; [done|].
      apply Hy in Hxin. apply Hx in Hyin. lia. }
    f_equal. apply IH; [done|]. intros z. specialize (Heq z). rewrite !elem_of_cons in Heq. split; intros Hz.
    + destruct (proj1 Heq (or_intror Hz)) as [->|?]; [|done]. apply Hx in Hz. lia.
    + destruct (proj2 Heq (or_intror Hz)) as [->|?]; [|done]. apply Hy in Hz. lia.
Qed.

(** The prefix of the elements below [x]. *)
Fixpoint take_lt (x : N) (l : list N) : list N :=
  match l with
  | y :: l' => if (y <? x)%N then y :: take_lt x l' else []
  | [] => []
  end.

Lemma take_lt_elem x l y : StronglySorted N.le l → y ∈ take_lt x l ↔ y ∈ l ∧ (y < x)%N.
Proof.
  induction 1 as [|z l Hs IH Hz]; simpl; [set_solver|]. rewrite Forall_forall in Hz.
  destruct (N.ltb_spec z x) as [Hzx|Hzx].
  - rewrite !elem_of_cons, IH. naive_solver.
  - rewrite elem_of_nil, elem_of_cons. split; [done|]. intros [[->|Hy] ?]; [lia|]. apply Hz in Hy. lia.
Qed.

(** Go's [sort.Sort] on values whose order decides equality: the sorted list. *)
Fixpoint insert_sorted (x : N) (l : list N) : list N :=
  match l with
  | [] => [x]
  | y :: l' => if (x <=? y)%N then x :: l else y :: insert_sorted x l'
  end.
Definition sort_refs (l : list N) : list N := foldr insert_sorted [] l.

Lemma insert_sorted_perm x l : insert_sorted x l ≡ₚ x :: l.
Proof.
  induction l as [|y l IH]; simpl; [done|]. destruct (x <=? y)%N; [done|]. rewrite IH. apply Permutation_swap.
Qed.

Lemma insert_sorted_sorted x l : StronglySorted N.le l → StronglySorted N.le (insert_sorted x l).
Proof.
  induction 1 as [|y l Hs IH Hy]; simpl; [repeat constructor|].
  destruct (N.leb_spec x y).
  - constructor; [by constructor|]. constructor; [done|]. eapply Forall_impl; [done|]. simpl. lia.
  - constructor; [done|]. rewrite insert_sorted_perm. constructor; [lia|done].
Qed.

Lemma sort_refs_perm l : sort_refs l ≡ₚ l.
Proof. induction l as [|x l IH]; simpl; [done|]. by rewrite insert_sorted_perm, IH. Qed.

Lemma sort_refs_sorted l : StronglySorted N.le (sort_refs l).
Proof. induction l as [|x l IH]; simpl; [constructor|]. by apply insert_sorted_sorted. Qed.

(** ** Big-endian numbers (Go's [encoding/binary]); bytes are values of [N] below 256 *)

Definition be32 (x : N) : list N :=
  [(x / 2 ^ 24) `mod` 256; (x / 2 ^ 16) `mod` 256; (x / 2 ^ 8) `mod` 256; x `mod` 256]%N.

Definition of_be32 (b : list N) : N :=
  match b with
  | b0 :: b1 :: b2 :: b3 :: _ => b0 * 2 ^ 24 + b1 * 2 ^ 16 + b2 * 2 ^ 8 + b3
  | _ => 0
  end%N.

Lemma of_be32_be32 x rest : (x < 2 ^ 32)%N → of_be32 (be32 x ++ rest) = x.
Proof.
  intros Hx. unfold be32. simpl app. unfold of_be32.
  assert (H1 : (x / 2 ^ 16 = x / 2 ^ 8 / 2 ^ 8)%N) by (by rewrite N.Div0.div_div).
  assert (H2 : (x / 2 ^ 24 = x / 2 ^ 16 / 2 ^ 8)%N) by (by rewrite N.Div0.div_div).
  pose proof (N.div_mod x (2 ^ 8) ltac:(lia)). pose proof (N.div_mod (x / 2 ^ 8) (2 ^ 8) ltac:(lia)).
  pose proof (N.div_mod (x / 2 ^ 16) (2 ^ 8) ltac:(lia)).
  assert (x / 2 ^ 24 < 256)%N by (apply N.Div0.div_lt_upper_bound; lia).
  rewrite (N.mod_small (x / 2 ^ 24)) by lia. change 256%N with (2 ^ 8)%N in *. lia.
Qed.

Lemma be32_length x : length (be32 x) = 4.
Proof. done. Qed.

Lemma be32_enough x rest : (4 <=? length (be32 x ++ rest))%nat = true.
Proof. done. Qed.

Lemma drop_be32 x rest : drop 4 (be32 x ++ rest) = rest.
Proof. done. Qed.

Global Arguments be32 : simpl never.
Global Arguments of_be32 : simpl never.

Lemma sorted_le_lt (l : list N) : StronglySorted N.le l → NoDup l → StronglySorted N.lt l.
Proof.
  induction 1 as [|x l Hs IH Hx]; intros Hnd; constructor; apply NoDup_cons in Hnd as [Hnx Hnd]; [by apply IH|].
  rewrite Forall_forall in Hx |- *. intros y Hy. pose proof (Hx y Hy). assert (x ≠ y) by (by intros ->). lia.
Qed.

Lemma sort_refs_lt (l : list N) : NoDup l → StronglySorted N.lt (sort_refs l).
Proof. intros Hnd. apply sorted_le_lt; [apply sort_refs_sorted|]. by rewrite sort_refs_perm. Qed.

(** Every list has the same elements as a strictly sorted one. *)
Lemma sorted_set (k : list N) : ∃ l, StronglySorted N.lt l ∧ ∀ y, y ∈ l ↔ y ∈ k.
Proof.
  exists (sort_refs (remove_dups k)). split; [apply sort_refs_lt, NoDup_remove_dups|].
  intros y. rewrite sort_refs_perm. apply elem_of_remove_dups.
Qed.

Lemma elem_of_concat {A} (ls : list (list A)) (x : A) : x ∈ concat ls ↔ ∃ l, l ∈ ls ∧ x ∈ l.
Proof. rewrite list_elem_of_In, in_concat. by setoid_rewrite list_elem_of_In. Qed.

(** The lists of distinct keys are disjoint. *)
Lemma NoDup_concat_keyed {K A} (ks : list (K * list A)) :
  NoDup (fst <$> ks) → (∀ k l, (k, l) ∈ ks → NoDup l) →
  (∀ k l k' l' x, (k, l) ∈ ks → (k', l') ∈ ks → x ∈ l → x ∈ l' → k = k') → NoDup (concat (snd <$> ks)).
Proof.
  induction ks as [|[k l] ks IH]; intros Hk Hl Hd; csimpl; [constructor|]. csimpl in Hk. apply NoDup_cons in Hk as [Hk Hks].
  apply NoDup_app. split_and!; [apply (Hl k); left| |].
  - intros x Hx (l' & Hl' & Hx')%elem_of_concat. apply list_elem_of_fmap in Hl' as ([k' l2] & -> & Hin). simpl in Hx'.
    assert (k = k') as <- by (eapply (Hd k l k' l2 x); [left|by right|done|done]).
    apply Hk. apply list_elem_of_fmap. by exists (k, l2).
  - apply IH; [done| |].
    + intros k' l' Hin. apply (Hl k'). by right.
    + intros k1 l1 k2 l2 x H1 H2. eapply Hd; by right.
Qed.

(** ** Positions in a sorted slice *)

Lemma take_drop_lt x l : take_lt x l ++ drop_lt x l = l.
Proof. induction l as [|y l IH]; simpl; [done|]. destruct (y <? x)%N; simpl; by rewrite ?IH. Qed.

Lemma take_lt_Forall x l : Forall (λ y, y < x)%N (take_lt x l).
Proof. induction l as [|y l IH]; simpl; [done|]. destruct (N.ltb_spec y x); by constructor. Qed.

Lemma take_lt_app x l k : Forall (λ y, y < x)%N l → take_lt x (l ++ k) = l ++ take_lt x k.
Proof. induction 1 as [|y l Hy Hl IH]; simpl; [done|]. rewrite (proj2 (N.ltb_lt y x)) by done. by rewrite IH. Qed.

Lemma search_take_lt x l : StronglySorted N.le l → search (length l) (ge_test x l) = length (take_lt x l).
Proof.
  intros Hs. pose proof (search_drop_lt x l Hs) as Hd.
  apply (f_equal length) in Hd. rewrite length_drop in Hd.
  pose proof (f_equal length (take_drop_lt x l)) as Hl. rewrite length_app in Hl.
  destruct (search_boundary (length l) (ge_test x l)) as (Hr & _). lia.
Qed.

Lemma search_split x l :
  StronglySorted N.le l → let j := search (length l) (ge_test x l) in take j l = take_lt x l ∧ drop j l = drop_lt x l.
Proof.
  intros Hs j. split; [|by apply search_drop_lt]. unfold j. rewrite search_take_lt by done.
  rewrite <-(take_drop_lt x l) at 2. by rewrite take_app_length.
Qed.

(** The slice between two searched positions. *)
Lemma slice_between a b l :
  StronglySorted N.le l → (a ≤ b)%N →
  length (take_lt a l) ≤ length (take_lt b l) ≤ length l ∧
  take (length (take_lt b l) - length (take_lt a l)) (drop (length (take_lt a l)) l) = take_lt b (drop_lt a l).
Proof.
  intros Hs Hab.
  assert (Hb : take_lt b l = take_lt a l ++ take_lt b (drop_lt a l)).
  { rewrite <-(take_drop_lt a l) at 1. apply take_lt_app. eapply Forall_impl; [apply take_lt_Forall|]. simpl. lia. }
  assert (Hle : ∀ k, length (take_lt b k) ≤ length k).
  { intros k. rewrite <-(take_drop_lt b k) at 2. rewrite length_app. lia. }
  split; [split; [rewrite Hb, length_app; lia|apply Hle]|].
  rewrite <-(take_drop_lt a l) at 4. rewrite drop_app_length, Hb, length_app.
  replace (_ + _ - _) with (length (take_lt b (drop_lt a l))) by lia.
  rewrite <-(take_drop_lt b (drop_lt a l)) at 2. by rewrite take_app_length.
Qed.
