(* ===== verification/Labels.v ===== *)
(** * Label sets (src/pkg/model/labels.go, src/pkg/model/profile.go)

    [Labels] is the sorted slice of name/value pairs every series is identified
    by.  The file models its accessors, the three byte encodings that feed the
    hash functions, the comparison of label sets, the [LabelsBuilder], and the
    profile-type selector.  The xxhash library is a parameter of the hashing
    functions, with the documented equality of its streaming and one-shot forms
    as the only hypothesis. *)

From Stdlib Require Import Ascii.
From S2P Require Import Prelude.

(** ** Data *)

Record LabelPair := mkLabel { Name : string; Value : string }.

Global Instance LabelPair_eq_dec : EqDecision LabelPair.
Proof. solve_decision. Defined.

Abbreviation Labels := (list LabelPair).

(** [Less] of labels.go orders by name only. *)
Definition Less (a b : LabelPair) : bool := String.ltb (Name a) (Name b).
Definition label_le (a b : LabelPair) : Prop := String.le (Name a) (Name b).

Global Instance label_le_dec a b : Decision (label_le a b).
Proof. unfold label_le. apply _. Defined.
Global Instance label_le_total : Total label_le.
Proof. intros a b. unfold label_le. apply total, _. Qed.
Global Instance label_le_trans : Transitive label_le.
Proof. intros a b c. unfold label_le. apply transitivity. Qed.

(** [sort.Sort(labels)]. *)
Definition sort_labels : Labels → Labels := merge_sort label_le.

Definition names (ls : Labels) : list string := Name <$> ls.
Definition sorted_names (ls : Labels) : Prop := StronglySorted String.le (names ls).

(** ** Separators *)

Definition sep : string := String (Ascii.ascii_of_nat 255) EmptyString.
Definition labelSep : string := String (Ascii.ascii_of_nat 254) EmptyString.

(** The bytes of one label in the hashed encodings. *)
Definition encode_label (l : LabelPair) : string :=
  Name l +:+ sep +:+ Value l +:+ sep.

Definition encode_labels (ls : Labels) : string :=
  foldr (λ l acc, encode_label l +:+ acc) EmptyString ls.

Definition LabelNameMetricName : string := "__name__".
Definition LabelNameProfileType : string := "__profile_type__".
Definition LabelNameType : string := "__type__".
Definition LabelNameUnit : string := "__unit__".
Definition LabelNamePeriodType : string := "__period_type__".
Definition LabelNamePeriodUnit : string := "__period_unit__".

(** ** Hashing *)

Section Hashing.
(** xxhash: the one-shot [Sum64] and the streaming digest. *)
Context (Sum64 : string → N).
Context {Digest : Type} (New : Digest) (Write : Digest → string → Digest) (DSum64 : Digest → N).

Definition write_label (h : Digest) (v : LabelPair) : Digest :=
  Write (Write (Write (Write h (Name v)) sep) (Value v)) sep.

(** The loop of [Hash]: [b] is the buffer of capacity 1024; the first label
    that does not fit switches to the streaming digest. *)
Fixpoint Hash_loop (b : string) (ls : Labels) : N :=
  match ls with
  | [] => Sum64 b
  | v :: ls' =>
      if (1024 <=? String.length b + String.length (Name v) + String.length (Value v) + 2)%nat
      then DSum64 (foldl write_label (Write New b) ls)
      else Hash_loop (b +:+ Name v +:+ sep +:+ Value v +:+ sep) ls'
  end.

Definition Hash (ls : Labels) : N := Hash_loop EmptyString ls.

(** The two-cursor walk of [HashForLabels]. *)
Fixpoint for_labels_loop (b : string) (ls : Labels) : list string → string :=
  fix inner (ns : list string) : string :=
    match ls, ns with
    | l :: ls', n :: ns' =>
        if String.ltb n (Name l) then inner ns'
        else if String.ltb (Name l) n then for_labels_loop b ls' ns
        else for_labels_loop (b +:+ encode_label l) ls' ns'
    | _, _ => b
    end.

Definition HashForLabels (ls : Labels) (ns : list string) : N * string :=
  let b := for_labels_loop EmptyString ls ns in (Sum64 b, b).

(** The inner [for] of [HashWithoutLabels]. *)
Fixpoint skip_lt (ns : list string) (name : string) : list string :=
  match ns with
  | n :: ns' => if String.ltb n name then skip_lt ns' name else ns
  | [] => []
  end.

Fixpoint without_labels_loop (b : string) (ls : Labels) (ns : list string) : string :=
  match ls with
  | [] => b
  | l :: ls' =>
      let ns' := skip_lt ns (Name l) in
      let dropped := bool_decide (Name l = LabelNameMetricName) ||
                     match ns' with n :: _ => bool_decide (Name l = n) | [] => false end in
      without_labels_loop (if dropped then b else b +:+ encode_label l) ls' ns'
  end.

Definition HashWithoutLabels (ls : Labels) (ns : list string) : N * string :=
  let b := without_labels_loop EmptyString ls ns in (Sum64 b, b).
End Hashing.

(** [BytesWithLabels]: the buffer starts with [labelSep]. *)
Fixpoint bytes_with_labels_loop (b : string) (ls : Labels) : list string → string :=
  fix inner (ns : list string) : string :=
    match ls, ns with
    | l :: ls', n :: ns' =>
        if String.ltb n (Name l) then inner ns'
        else if String.ltb (Name l) n then bytes_with_labels_loop b ls' ns
        else
          let b' := if (1 <? String.length b)%nat then b +:+ sep else b in
          bytes_with_labels_loop (b' +:+ Name l +:+ sep +:+ Value l) ls' ns'
    | _, _ => b
    end.

Definition BytesWithLabels (ls : Labels) (ns : list string) : string :=
  bytes_with_labels_loop labelSep ls ns.

(** ** Accessors *)

Definition WithoutPrivateLabels (ls : Labels) : Labels :=
  filter (λ l, negb (String.prefix "__" (Name l)) = true) ls.

Definition WithLabels (ls : Labels) (ns : list string) : Labels :=
  let nameSet : gset string := list_to_set ns in
  filter (λ l, Name l ∈ nameSet) ls.

Fixpoint Get (ls : Labels) (name : string) : string :=
  match ls with
  | [] => ""
  | l :: ls => if bool_decide (Name l = name) then Value l else Get ls name
  end.

Definition Clone (ls : Labels) : Labels := (λ l, mkLabel (Name l) (Value l)) <$> ls.

Fixpoint pair_up (ss : list string) : Labels :=
  match ss with
  | n :: v :: ss => mkLabel n v :: pair_up ss
  | _ => []
  end.

Definition LabelsFromStrings (ss : list string) : outcome Labels :=
  if negb (length ss `mod` 2 =? 0)%nat then Panic else Ret (sort_labels (pair_up ss)).

(** [CompareLabelPairs]: an [int], negative, zero or positive. *)
Fixpoint compare_common (a b : Labels) : option Z :=
  match a, b with
  | x :: a, y :: b =>
      if negb (bool_decide (Name x = Name y)) then
        Some (if String.ltb (Name x) (Name y) then -1 else 1)%Z
      else if negb (bool_decide (Value x = Value y)) then
        Some (if String.ltb (Value x) (Value y) then -1 else 1)%Z
      else compare_common a b
  | _, _ => None
  end.

Definition CompareLabelPairs (a b : Labels) : Z :=
  match compare_common a b with
  | Some c => c
  | None => Z.of_nat (length a) - Z.of_nat (length b)
  end.

(** ** LabelsBuilder *)

Record LabelsBuilder := mkBuilder { b_base : Labels; b_del : list string; b_add : Labels }.

(** Names of the labels with an empty value, which [Reset] deletes. *)
Definition empty_names (ls : Labels) : list string :=
  names (filter (λ l, Value l = "") ls).

Definition Reset (b : LabelsBuilder) (bs : Labels) : LabelsBuilder :=
  mkBuilder bs (empty_names bs) [].

Definition NewLabelsBuilder (bs : Labels) : LabelsBuilder := Reset (mkBuilder [] [] []) bs.

(** One iteration of the loop of [Del] over [b.add]: the slice header is
    evaluated once, so [arr] keeps its length while [b.add], the first [n]
    elements of it, shrinks in place; slicing past [n] panics. *)
Definition del_step (name : string) (st : Labels * nat) (i : nat) : outcome (Labels * nat) :=
  let '(arr, n) := st in
  match arr !! i with
  | None => Ret st
  | Some a =>
      if bool_decide (Name a = name) then
        if (S i <=? n)%nat
        then Ret (take i arr ++ drop (S i) (take n arr) ++ drop (pred n) arr, pred n)
        else Panic
      else Ret st
  end.

Fixpoint del_loop (name : string) (st : Labels * nat) (idxs : list nat) : outcome (Labels * nat) :=
  match idxs with
  | [] => Ret st
  | i :: idxs => obind (del_step name st i) (λ st', del_loop name st' idxs)
  end.

Definition Del1 (b : LabelsBuilder) (n : string) : outcome LabelsBuilder :=
  obind (del_loop n (b_add b, length (b_add b)) (seq 0 (length (b_add b))))
    (λ '(arr, len), Ret (mkBuilder (b_base b) (b_del b ++ [n]) (take len arr))).

Fixpoint Del (b : LabelsBuilder) (ns : list string) : outcome LabelsBuilder :=
  match ns with
  | [] => Ret b
  | n :: ns => obind (Del1 b n) (λ b', Del b' ns)
  end.

(** The loop of [Set] that updates an added label in place. *)
Fixpoint set_add (ls : Labels) (n v : string) : option Labels :=
  match ls with
  | [] => None
  | a :: ls =>
      if bool_decide (Name a = n) then Some (mkLabel n v :: ls)
      else (a ::.) <$> set_add ls n v
  end.

Definition SetLabel (b : LabelsBuilder) (n v : string) : outcome LabelsBuilder :=
  if bool_decide (v = "") then Del b [n]
  else match set_add (b_add b) n v with
       | Some add' => Ret (mkBuilder (b_base b) (b_del b) add')
       | None => Ret (mkBuilder (b_base b) (b_del b) (b_add b ++ [mkLabel n v]))
       end.

(** [Labels()]: the kept labels of the base, then the added ones, sorted. *)
Definition kept (b : LabelsBuilder) : Labels :=
  filter (λ l, (Name l ∉ b_del b) ∧ (Name l ∉ names (b_add b))) (b_base b).

Definition BuilderLabels (b : LabelsBuilder) : Labels :=
  match b_del b, b_add b with
  | [], [] => b_base b
  | _, _ => sort_labels (kept b ++ b_add b)
  end.

(** ** Profile types (profile.go) *)

Record ProfileType := mkProfileType {
  PT_ID : string; PT_Name : string; SampleType : string; SampleUnit : string;
  PeriodType : string; PeriodUnit : string }.

(** [strings.Split(s, ":")]; [cur] is the part being read. *)
Fixpoint split_colon_aux (s : string) (cur : string) : list string :=
  match s with
  | EmptyString => [cur]
  | String c s' =>
      if bool_decide (c = ":"%char) then cur :: split_colon_aux s' ""
      else split_colon_aux s' (cur +:+ String c "")
  end.
Definition split_colon (s : string) : list string := split_colon_aux s "".

Definition ParseProfileTypeSelector (id : string) : outcome ProfileType :=
  match split_colon id with
  | [n; st; su; pt; pu] | [n; st; su; pt; pu; _] => Ret (mkProfileType id n st su pt pu)
  | _ => Fail "profile-type selection must be of the form <name>:<sample-type>:<sample-unit>:<period-type>:<period-unit>(:delta)"
  end.

(** The value of the matcher [SelectorFromProfileType] builds on the label
    [LabelNameProfileType]. *)
Definition SelectorFromProfileType (p : ProfileType) : LabelPair :=
  mkLabel LabelNameProfileType
    (PT_Name p +:+ ":" +:+ SampleType p +:+ ":" +:+ SampleUnit p +:+ ":" +:+ PeriodType p +:+ ":" +:+ PeriodUnit p).

(** [CompareProfile]: the difference of the timestamps is an [int64]. *)
Definition CompareProfile (ta : Z) (la : Labels) (tb : Z) (lb : Labels) : Z :=
  if (ta =? tb)%Z then CompareLabelPairs la lb else i64 (ta - tb).

(** * Lemmas *)

(** ** Sorting and lookup *)

Lemma sort_labels_perm ls : sort_labels ls ≡ₚ ls.
Proof. apply merge_sort_Permutation. Qed.

Lemma sort_labels_sorted ls : StronglySorted label_le (sort_labels ls).
Proof. apply StronglySorted_merge_sort; apply _. Qed.

Lemma sorted_names_sort ls : sorted_names (sort_labels ls).
Proof.
  unfold sorted_names, names. eapply StronglySorted_fmap, sort_labels_sorted. done.
Qed.

(** Without duplicate names the order of the sorted set is unique: whatever
    sorting algorithm the library uses, the result is [sort_labels]. *)
Lemma sort_labels_unique ls ls' :
  NoDup (names ls) → ls' ≡ₚ ls → StronglySorted label_le ls' → ls' = sort_labels ls.
Proof.
  intros Hnd Hp Hs.
  apply (StronglySorted_unique_strong label_le); [|done|apply sort_labels_sorted|by rewrite sort_labels_perm].
  intros x y Hx Hy Hxy Hyx.
  assert (Name x = Name y) as Hn by (by apply (anti_symm String.le)).
  assert (x ∈ ls) as Hx' by (by rewrite <-Hp).
  assert (y ∈ ls) as Hy' by (by rewrite <-(sort_labels_perm ls)).
  clear -Hnd Hn Hx' Hy'. induction ls as [|l ls IH]; [set_solver|].
  apply NoDup_cons in Hnd as [Hnl Hnd].
  apply elem_of_cons in Hx' as [->|Hx'], Hy' as [->|Hy']; auto;
    exfalso; apply Hnl; [rewrite Hn|rewrite <-Hn]; by apply list_elem_of_fmap_2.
Qed.

Lemma Get_elem_of ls l : NoDup (names ls) → l ∈ ls → Get ls (Name l) = Value l.
Proof.
  induction ls as [|a ls IH]; intros Hnd Hin; [set_solver|]. simpl.
  apply NoDup_cons in Hnd as [Hna Hnd]. case_bool_decide as E.
  - apply elem_of_cons in Hin as [->|Hin]; [done|].
    exfalso. apply Hna. rewrite E. by apply list_elem_of_fmap_2.
  - apply elem_of_cons in Hin as [->|Hin]; [done|auto].
Qed.

Lemma Get_not_elem_of ls n : n ∉ names ls → Get ls n = "".
Proof.
  induction ls as [|a ls IH]; intros Hn; [done|]. simpl.
  case_bool_decide as E; [set_solver|]. apply IH. set_solver.
Qed.

Lemma Get_app ls1 ls2 n :
  Get (ls1 ++ ls2) n = if decide (n ∈ names ls1) then Get ls1 n else Get ls2 n.
Proof.
  case_decide as Hn; induction ls1 as [|a ls1 IH]; simpl; [set_solver| |done|];
    case_bool_decide as E; try done; [|set_solver|]; apply IH; set_solver.
Qed.

Lemma names_perm ls1 ls2 : ls1 ≡ₚ ls2 → names ls1 ≡ₚ names ls2.
Proof. intros. by apply fmap_Permutation. Qed.

(** Lookup does not depend on the order when names are unique. *)
Lemma Get_perm ls1 ls2 n : NoDup (names ls1) → ls1 ≡ₚ ls2 → Get ls1 n = Get ls2 n.
Proof.
  intros Hnd Hp. pose proof (names_perm _ _ Hp) as Hpn.
  destruct (decide (n ∈ names ls1)) as [Hin|Hni].
  - apply list_elem_of_fmap in Hin as (l & -> & Hl).
    rewrite !Get_elem_of; auto; [by rewrite <-Hpn|by rewrite <-Hp].
  - rewrite !Get_not_elem_of; auto. by rewrite <-Hpn.
Qed.

(** ** The comparison of label sets *)

Lemma compare_common_sym a b :
  compare_common b a = (λ c, - c)%Z <$> compare_common a b.
Proof.
  revert b. induction a as [|x a IH]; intros [|y b]; simpl; try done.
  str_cases (Name x) (Name y);
    repeat case_bool_decide; simpl; try congruence; try done.
  str_cases (Value x) (Value y); simpl; congruence || done.
Qed.

Lemma CompareLabelPairs_opp a b : CompareLabelPairs b a = (- CompareLabelPairs a b)%Z.
Proof.
  unfold CompareLabelPairs. rewrite compare_common_sym.
  destruct (compare_common a b); simpl; lia.
Qed.

Lemma CompareLabelPairs_cons x a y b :
  CompareLabelPairs (x :: a) (y :: b) =
    if decide (Name x = Name y) then
      if decide (Value x = Value y) then CompareLabelPairs a b
      else if String.ltb (Value x) (Value y) then (-1)%Z else 1%Z
    else if String.ltb (Name x) (Name y) then (-1)%Z else 1%Z.
Proof.
  unfold CompareLabelPairs. simpl.
  repeat case_bool_decide; repeat case_decide; try done; simpl.
  destruct (compare_common a b); lia.
Qed.

Lemma CompareLabelPairs_zero a b : CompareLabelPairs a b = 0%Z ↔ a = b.
Proof.
  split.
  - revert b. induction a as [|[n v] a IH]; intros [|[n' v'] b]; try done.
    rewrite CompareLabelPairs_cons. simpl.
    case_decide; [|destruct (String.ltb _ _); done].
    case_decide; [|destruct (String.ltb _ _); done]. intros ?%IH. congruence.
  - intros <-. pose proof (CompareLabelPairs_opp a a). lia.
Qed.

(** The strict lexicographic order of pairs, by name and then by value. *)
Definition pair_lt (x y : LabelPair) : Prop :=
  String.ltb (Name x) (Name y) = true ∨
  (Name x = Name y ∧ String.ltb (Value x) (Value y) = true).

Lemma pair_lt_trans x y z : pair_lt x y → pair_lt y z → pair_lt x z.
Proof.
  intros [H1|[E1 H1]] [H2|[E2 H2]]; unfold pair_lt.
  - left. by eapply str_ltb_trans.
  - left. congruence.
  - left. congruence.
  - right. split; [congruence|by eapply str_ltb_trans].
Qed.

Lemma CompareLabelPairs_cons_lt x a y b :
  (CompareLabelPairs (x :: a) (y :: b) < 0)%Z ↔
    pair_lt x y ∨ (x = y ∧ (CompareLabelPairs a b < 0)%Z).
Proof.
  rewrite CompareLabelPairs_cons. unfold pair_lt. destruct x as [n v], y as [n' v']; simpl.
  case_decide; subst.
  - rewrite str_ltb_irrefl. case_decide; subst.
    + rewrite str_ltb_irrefl. naive_solver.
    + destruct (String.ltb v v'); naive_solver lia.
  - destruct (String.ltb n n'); naive_solver lia.
Qed.

Lemma CompareLabelPairs_trans a b c :
  (CompareLabelPairs a b < 0)%Z → (CompareLabelPairs b c < 0)%Z → (CompareLabelPairs a c < 0)%Z.
Proof.
  revert b c. induction a as [|x a IH]; intros [|y b] [|z c];
    try (unfold CompareLabelPairs; simpl; lia).
  rewrite !CompareLabelPairs_cons_lt.
  intros [H1|[-> H1]] [H2|[-> H2]]; eauto using pair_lt_trans.
Qed.

(** ** The encodings *)

Lemma encode_labels_app l1 l2 : encode_labels (l1 ++ l2) = encode_labels l1 +:+ encode_labels l2.
Proof.
  induction l1 as [|l l1 IH]; simpl; [done|]. by rewrite IH, str_app_assoc.
Qed.

(** The strictly increasing order of names that [Labels] promises. *)
Definition strict_names (ls : Labels) : Prop :=
  StronglySorted (λ a b, String.ltb a b = true) (names ls).

Lemma strict_names_cons l ls :
  strict_names (l :: ls) ↔ (∀ n, n ∈ names ls → String.ltb (Name l) n = true) ∧ strict_names ls.
Proof. unfold strict_names. csimpl. by rewrite StronglySorted_cons, Forall_forall. Qed.

(** Dropping a name smaller than every label does not change the selection. *)
Lemma WithLabels_skip n ns ls :
  n ∉ names ls → WithLabels ls (n :: ns) = WithLabels ls ns.
Proof.
  intros Hn. unfold WithLabels. apply filter_ext_in. intros l Hl. simpl.
  rewrite elem_of_union, elem_of_singleton. split; [|by right]. intros [Heq|?]; [|done].
  exfalso. apply Hn. rewrite <-Heq. by apply list_elem_of_fmap_2.
Qed.

Lemma for_labels_loop_spec b ls ns :
  strict_names ls → StronglySorted String.le ns →
  for_labels_loop b ls ns = b +:+ encode_labels (WithLabels ls ns).
Proof.
  revert b ns. induction ls as [|l ls IH]; intros b ns Hls Hns.
  { simpl. destruct ns; by rewrite str_app_nil_r. }
  induction ns as [|n ns IHn].
  { simpl. unfold WithLabels. rewrite filter_none by set_solver. by rewrite str_app_nil_r. }
  pose proof (proj1 (strict_names_cons _ _) Hls) as [Hlt Hls'].
  apply StronglySorted_cons in Hns as [Hn Hns]. rewrite Forall_forall in Hn.
  specialize (IHn Hns). simpl in IHn |- *.
  str_cases n (Name l).
  - rewrite IHn. rewrite WithLabels_skip; [done|]. csimpl. rewrite elem_of_cons.
    intros [->|Hin]; [done|]. apply Hlt in Hin. pose proof (str_ltb_trans _ _ _ Hlt0 Hin).
    rewrite str_ltb_irrefl in *. done.
  - rewrite IH; auto.
    unfold WithLabels at 2. rewrite filter_cons_True by set_solver. simpl.
    rewrite str_app_assoc. do 3 f_equal.
    subst n. rewrite <-(WithLabels_skip (Name l)); [done|].
    intros Hin. apply Hlt in Hin. by rewrite str_ltb_irrefl in Hin.
  - rewrite IH; auto; [|by apply StronglySorted_cons; rewrite Forall_forall].
    unfold WithLabels at 2. rewrite filter_cons_False; [done|].
    rewrite elem_of_list_to_set, elem_of_cons. intros [?|Hin]; [congruence|].
    apply Hn in Hin. apply str_le_ltb in Hin. congruence.
Qed.

Lemma skip_lt_spec ns name :
  StronglySorted String.le ns →
  StronglySorted String.le (skip_lt ns name) ∧
  (∀ n, n ∈ skip_lt ns name → n ∈ ns ∧ String.le name n) ∧
  (∀ n, n ∈ ns → String.le name n → n ∈ skip_lt ns name).
Proof.
  induction ns as [|n ns IH]; intros Hs; simpl; [set_solver|].
  apply StronglySorted_cons in Hs as [Hn Hs]. rewrite Forall_forall in Hn.
  destruct (String.ltb n name) eqn:E.
  - destruct (IH Hs) as (?&Hin&Hback). split_and!; [done|set_solver|].
    intros m [->|Hm]%elem_of_cons Hle; [|auto]. apply str_le_ltb in Hle. congruence.
  - apply str_le_ltb in E. split_and!; [by apply StronglySorted_cons; rewrite Forall_forall| |done].
    intros m [->|Hm]%elem_of_cons; [set_solver|]. split; [set_solver|].
    transitivity n; auto.
Qed.

(** The head of the advanced cursor is the label's name exactly when the name is listed. *)
Lemma skip_lt_head ns name :
  StronglySorted String.le ns →
  match skip_lt ns name with n :: _ => bool_decide (name = n) | [] => false end = bool_decide (name ∈ ns).
Proof.
  intros Hs. destruct (skip_lt_spec ns name Hs) as (Hs' & Hin & Hback).
  destruct (skip_lt ns name) as [|n r].
  - symmetry. apply bool_decide_eq_false. intros Hi. apply Hback in Hi; [set_solver|done].
  - apply bool_decide_ext. split.
    + intros ->. apply Hin. set_solver.
    + intros Hi. assert (name ∈ n :: r) as [->|Hr]%elem_of_cons by (by apply Hback); [done|].
      apply StronglySorted_cons in Hs' as [Hn _]. rewrite Forall_forall in Hn.
      apply (anti_symm String.le); [|by apply Hn]. apply Hin. set_solver.
Qed.

(** The labels [HashWithoutLabels] hashes. *)
Definition WithoutNames (ls : Labels) (ns : list string) : Labels :=
  filter (λ l, (Name l ≠ LabelNameMetricName) ∧ (Name l ∉ ns)) ls.

Lemma without_labels_loop_spec b ls ns :
  sorted_names ls → StronglySorted String.le ns →
  without_labels_loop b ls ns = b +:+ encode_labels (WithoutNames ls ns).
Proof.
  revert b ns. induction ls as [|l ls IH]; intros b ns Hls Hns; simpl; [by rewrite str_app_nil_r|].
  unfold sorted_names in Hls. csimpl in Hls. apply StronglySorted_cons in Hls as [Hl Hls].
  rewrite Forall_forall in Hl.
  destruct (skip_lt_spec ns (Name l) Hns) as (Hs' & Hin & Hback).
  rewrite IH, skip_lt_head by done.
  assert (WithoutNames ls (skip_lt ns (Name l)) = WithoutNames ls ns) as ->.
  { apply filter_ext_in. intros x Hx.
    assert (Name x ∈ skip_lt ns (Name l) ↔ Name x ∈ ns); [|naive_solver].
    split; [intros; by apply Hin|]. intros ?. apply Hback; [done|]. apply Hl. by apply list_elem_of_fmap_2. }
  unfold WithoutNames at 2. rewrite filter_cons.
  case_decide as Hd.
  - destruct Hd. rewrite !bool_decide_eq_false_2 by done. simpl. by rewrite str_app_assoc.
  - case_bool_decide; [done|]. rewrite bool_decide_eq_true_2; [done|].
    destruct (decide (Name l ∈ ns)); [done|]. by destruct Hd.
Qed.

(** [BytesWithLabels] writes the selected labels after [labelSep], separated. *)
Definition label_bytes (l : LabelPair) : string := Name l +:+ sep +:+ Value l.

Fixpoint join_labels (ls : Labels) : string :=
  match ls with
  | [] => EmptyString
  | [l] => label_bytes l
  | l :: ls => label_bytes l +:+ sep +:+ join_labels ls
  end.

(** The selection is written after a non-trivial buffer with a leading separator. *)
Definition join_after (ls : Labels) : string :=
  match ls with [] => EmptyString | _ => sep +:+ join_labels ls end.

Lemma join_labels_cons l ls : join_labels (l :: ls) = label_bytes l +:+ join_after ls.
Proof. destruct ls; simpl; [by rewrite str_app_nil_r|done]. Qed.

Lemma bytes_with_labels_step b ls ns :
  1 ≤ String.length b → strict_names ls → StronglySorted String.le ns →
  bytes_with_labels_loop b ls ns =
    b +:+ (if (1 <? String.length b)%nat then join_after (WithLabels ls ns) else join_labels (WithLabels ls ns)).
Proof.
  revert b ns. induction ls as [|l ls IH]; intros b ns Hb Hls Hns.
  { simpl. destruct ns, (1 <? String.length b)%nat; by rewrite str_app_nil_r. }
  induction ns as [|n ns IHn].
  { simpl. unfold WithLabels. rewrite filter_none by set_solver.
    destruct (1 <? String.length b)%nat; by rewrite str_app_nil_r. }
  pose proof (proj1 (strict_names_cons _ _) Hls) as [Hlt Hls'].
  apply StronglySorted_cons in Hns as [Hn Hns]. rewrite Forall_forall in Hn.
  specialize (IHn Hns). simpl in IHn |- *.
  str_cases n (Name l).
  - rewrite IHn. rewrite WithLabels_skip; [done|]. csimpl. rewrite elem_of_cons.
    intros [->|Hin]; [done|]. apply Hlt in Hin. pose proof (str_ltb_trans _ _ _ Hlt0 Hin).
    rewrite str_ltb_irrefl in *. done.
  - set (b' := if (1 <? String.length b)%nat then b +:+ sep else b).
    assert (1 < String.length (b' +:+ Name l +:+ sep +:+ Value l)) as Hb'.
    { unfold b'. destruct (1 <? String.length b)%nat; rewrite !str_length_app; simpl; lia. }
    rewrite IH by (auto; lia). apply Nat.ltb_lt in Hb'. rewrite Hb'. unfold b'.
    assert (WithLabels (l :: ls) (n :: ns) = l :: WithLabels ls ns) as ->.
    { unfold WithLabels at 1. rewrite filter_cons_True by set_solver. f_equal.
      subst n. apply (WithLabels_skip (Name l)).
      intros Hin. apply Hlt in Hin. by rewrite str_ltb_irrefl in Hin. }
    unfold join_after at 2. rewrite join_labels_cons. unfold label_bytes.
    destruct (1 <? String.length b)%nat; by rewrite !str_app_assoc.
  - rewrite IH; auto; [|by apply StronglySorted_cons; rewrite Forall_forall].
    assert (WithLabels (l :: ls) (n :: ns) = WithLabels ls (n :: ns)) as ->; [|done].
    unfold WithLabels. apply filter_cons_False.
    rewrite elem_of_list_to_set, elem_of_cons. intros [?|Hin]; [congruence|].
    apply Hn in Hin. apply str_le_ltb in Hin. congruence.
Qed.

(** ** Injectivity of the grouping key *)

(** No byte of [s] is [0xff]; it holds of every valid UTF-8 string. *)
Fixpoint no_sep (s : string) : bool :=
  match s with
  | EmptyString => true
  | String c s => negb (bool_decide (c = Ascii.ascii_of_nat 255)) && no_sep s
  end.

Definition label_no_sep (l : LabelPair) : Prop := no_sep (Name l) = true ∧ no_sep (Value l) = true.

Lemma no_sep_app_inj a b x y :
  no_sep a = true → no_sep b = true → a +:+ sep +:+ x = b +:+ sep +:+ y → a = b ∧ x = y.
Proof.
  revert b. induction a as [|c a IH]; intros [|d b] Ha Hb.
  - unfold sep. rewrite !str_app_cons. simpl. intros [= E]. by split.
  - unfold sep. rewrite !str_app_cons. simpl in Hb. intros [= <- _].
    apply andb_true_iff in Hb as [Hb _]. case_bool_decide; done.
  - unfold sep. rewrite !str_app_cons. simpl in Ha. intros [= -> _].
    apply andb_true_iff in Ha as [Ha _]. case_bool_decide; done.
  - rewrite !str_app_cons. intros [= -> E]. simpl in Ha, Hb.
    apply andb_true_iff in Ha as [_ Ha], Hb as [_ Hb].
    destruct (IH b Ha Hb E) as [-> ->]. done.
Qed.

Lemma no_sep_app_sep a b : no_sep (a +:+ sep +:+ b) = false.
Proof.
  induction a as [|c a IH]; [done|]. rewrite str_app_cons. simpl. rewrite IH. apply andb_false_r.
Qed.

Lemma join_after_inj ls ls' :
  Forall label_no_sep ls → Forall label_no_sep ls' → join_after ls = join_after ls' → ls = ls'.
Proof.
  intros Hls. revert ls'. induction Hls as [|[n v] ls [Hn Hv] Hls IH]; intros ls' Hls'.
  { destruct ls'; done. }
  destruct Hls' as [|[n' v'] ls' [Hn' Hv'] Hls']; [done|]. unfold join_after.
  intros E%(inj (String.append sep)). rewrite !join_labels_cons in E. unfold label_bytes in E.
  rewrite !str_app_assoc in E. simpl in *.
  apply no_sep_app_inj in E as [-> E]; [|done..].
  assert (v = v' ∧ join_after ls = join_after ls') as [-> ?].
  { destruct ls as [|l ls], ls' as [|l' ls']; unfold join_after in E |- *.
    - rewrite !str_app_nil_r in E. done.
    - rewrite str_app_nil_r in E. subst v. by rewrite no_sep_app_sep in Hv.
    - rewrite str_app_nil_r in E. subst v'. by rewrite no_sep_app_sep in Hv'.
    - apply no_sep_app_inj in E as [-> ->]; done. }
  f_equal. by apply IH.
Qed.

Lemma join_labels_inj ls ls' :
  Forall label_no_sep ls → Forall label_no_sep ls' → join_labels ls = join_labels ls' → ls = ls'.
Proof.
  intros Hls Hls' E. destruct ls as [|l ls], ls' as [|l' ls']; [done| | |].
  - exfalso. apply (f_equal no_sep) in E. revert E. rewrite join_labels_cons.
    unfold label_bytes. by rewrite !str_app_assoc, no_sep_app_sep.
  - exfalso. apply (f_equal no_sep) in E. revert E. rewrite join_labels_cons.
    unfold label_bytes. by rewrite !str_app_assoc, no_sep_app_sep.
  - apply join_after_inj; [done..|]. unfold join_after. by rewrite E.
Qed.

(** ** LabelsBuilder *)

Definition builder_wf (b : LabelsBuilder) : Prop :=
  NoDup (names (b_base b)) ∧ NoDup (names (b_add b)) ∧
  Forall (λ l, Value l ≠ "") (b_add b) ∧
  (∀ n, n ∈ empty_names (b_base b) → n ∈ b_del b).

(** What the builder stands for: the value each name will have. *)
Definition bview (b : LabelsBuilder) (n : string) : string :=
  if decide (n ∈ names (b_add b)) then Get (b_add b) n
  else if decide (n ∈ b_del b) then "" else Get (b_base b) n.

Lemma del_loop_none name arr n idxs :
  (∀ i a, i ∈ idxs → arr !! i = Some a → Name a ≠ name) →
  del_loop name (arr, n) idxs = Ret (arr, n).
Proof.
  induction idxs as [|i idxs IH]; intros Hn; simpl; [done|].
  destruct (arr !! i) as [a|] eqn:Ea.
  - rewrite bool_decide_eq_false_2 by (eapply Hn; [left|done]). simpl. apply IH. set_solver.
  - simpl. apply IH. set_solver.
Qed.

Lemma del_loop_app name st i1 i2 :
  del_loop name st (i1 ++ i2) = obind (del_loop name st i1) (λ st', del_loop name st' i2).
Proof.
  revert st. induction i1 as [|i i1 IH]; intros st; simpl; [done|].
  destruct (del_step name st i); simpl; auto.
Qed.

Lemma del_step_hit name arr n i a :
  arr !! i = Some a → Name a = name → S i ≤ n →
  del_step name (arr, n) i =
    Ret (take i arr ++ drop (S i) (take n arr) ++ drop (pred n) arr, pred n).
Proof.
  intros Ha Hn Hi. unfold del_step. rewrite Ha, bool_decide_eq_true_2 by done.
  by rewrite (proj2 (Nat.leb_le _ _) Hi).
Qed.

(** Names of [add] are unique, so the in-place loop removes at most one label
    and never slices out of range. *)
Lemma Del1_filter b n :
  NoDup (names (b_add b)) →
  Del1 b n = Ret (mkBuilder (b_base b) (b_del b ++ [n]) (filter (λ l, Name l ≠ n) (b_add b))).
Proof.
  intros Hnd. unfold Del1. destruct b as [bs dl ad]; simpl in *.
  destruct (decide (n ∈ names ad)) as [Hin|Hni].
  - apply list_elem_of_fmap in Hin as (x & -> & Hx).
    apply list_elem_of_split in Hx as (l1 & l2 & ->).
    unfold names in Hnd. rewrite fmap_app, fmap_cons in Hnd.
    apply NoDup_app in Hnd as (_ & Hd & [Hx2 _]%NoDup_cons).
    assert (Hx1 : Name x ∉ Name <$> l1) by (intros H%Hd; set_solver).
    rewrite length_app. cbn [length]. rewrite seq_app, del_loop_app. cbn [seq].
    rewrite del_loop_none.
    2:{ intros i a Hi Ha Hna. apply elem_of_seq in Hi. rewrite lookup_app_l in Ha by lia.
        apply Hx1. rewrite <-Hna. apply list_elem_of_fmap_2. by eapply list_elem_of_lookup_2. }
    cbn [obind del_loop Nat.add].
    rewrite (del_step_hit _ _ _ _ x) by (rewrite ?list_lookup_middle; done || lia).
    cbn [obind]. rewrite take_app_length.
    rewrite (firstn_all2 (n := length l1 + S (length l2))) by (rewrite length_app; simpl; lia).
    replace (drop (S (length l1)) (l1 ++ x :: l2)) with l2
      by (rewrite drop_app_ge by lia; by replace (S (length l1) - length l1) with 1 by lia).
    rewrite del_loop_none; simpl.
    + do 2 f_equal.
      rewrite (assoc_L (++) l1 l2 _).
      replace (pred (length l1 + S (length l2))) with (length (l1 ++ l2)) by (rewrite length_app; lia).
      rewrite take_app_length.
      rewrite filter_app, filter_cons_False by naive_solver.
      rewrite !filter_all; [done|intros y Hy ?..]; [apply Hx2|apply Hx1]; set_solver.
    + intros i a Hi Ha Hna. apply elem_of_seq in Hi. rewrite lookup_app_r in Ha by lia.
      assert (a ∈ l2); [|by apply Hx2; rewrite <-Hna; apply list_elem_of_fmap_2].
      destruct (decide (i - length l1 < length l2)).
      * rewrite lookup_app_l in Ha by done. by eapply list_elem_of_lookup_2.
      * rewrite lookup_app_r in Ha by lia. rewrite lookup_drop in Ha.
        rewrite lookup_app_r in Ha by lia.
        replace (_ - length l1) with (S (pred (length l2))) in Ha by lia.
        simpl in Ha. by eapply list_elem_of_lookup_2.
  - rewrite del_loop_none; simpl.
    + rewrite firstn_all. do 2 f_equal. symmetry. apply filter_all. intros x Hx Hnx.
      apply Hni. rewrite <-Hnx. by apply list_elem_of_fmap_2.
    + intros i a _ Ha Hna. apply Hni. rewrite <-Hna. apply list_elem_of_fmap_2.
      by eapply list_elem_of_lookup_2.
Qed.

Lemma names_filter_ne (ls : Labels) n m :
  m ∈ names (filter (λ l, Name l ≠ n) ls) ↔ m ∈ names ls ∧ m ≠ n.
Proof.
  unfold names. rewrite !list_elem_of_fmap. setoid_rewrite list_elem_of_filter. naive_solver.
Qed.

Lemma NoDup_names_filter (P : LabelPair → Prop) `{∀ l, Decision (P l)} ls :
  NoDup (names ls) → NoDup (names (filter P ls)).
Proof.
  intros Hnd. eapply sublist_NoDup; [done|]. unfold names. apply fmap_sublist, sublist_filter.
Qed.

Lemma Get_filter_ne (ls : Labels) n m :
  m ≠ n → Get (filter (λ l, Name l ≠ n) ls) m = Get ls m.
Proof.
  intros Hne. induction ls as [|l ls IH]; [done|]. rewrite filter_cons. simpl.
  case_decide; simpl; repeat case_bool_decide; congruence.
Qed.

Lemma empty_names_Get ls n : NoDup (names ls) → n ∈ names ls → Get ls n = "" → n ∈ empty_names ls.
Proof.
  intros Hnd (l & -> & Hl)%list_elem_of_fmap Hg. rewrite Get_elem_of in Hg by done.
  unfold empty_names, names. apply list_elem_of_fmap_2. by apply list_elem_of_filter.
Qed.

Lemma empty_names_value ls n : NoDup (names ls) → n ∈ empty_names ls → Get ls n = "".
Proof.
  intros Hnd (l & -> & [? ?]%list_elem_of_filter)%list_elem_of_fmap. by rewrite Get_elem_of.
Qed.

Lemma NewLabelsBuilder_wf bs : NoDup (names bs) → builder_wf (NewLabelsBuilder bs).
Proof. intros Hnd. split_and!; simpl; auto using NoDup_nil_2. Qed.

Lemma NewLabelsBuilder_view bs n : NoDup (names bs) → bview (NewLabelsBuilder bs) n = Get bs n.
Proof.
  intros Hnd. unfold bview, NewLabelsBuilder, Reset. simpl. case_decide as Hd; [|done].
  by rewrite empty_names_value.
Qed.

Lemma Del1_wf b n :
  builder_wf b →
  ∃ b', Del1 b n = Ret b' ∧ builder_wf b' ∧ b_base b' = b_base b ∧
    ∀ m, bview b' m = if decide (m = n) then "" else bview b m.
Proof.
  intros (Hb & Ha & Hv & He). rewrite Del1_filter by done. eexists; split; [done|].
  split_and!; simpl; auto using NoDup_names_filter.
  - split_and!; simpl; auto using NoDup_names_filter.
    + apply Forall_forall. intros l [_ Hl]%list_elem_of_filter.
      rewrite Forall_forall in Hv. by apply Hv.
    + intros m Hm%He. set_solver.
  - intros m. unfold bview. simpl. destruct (decide (m = n)) as [->|Hne].
    + rewrite decide_False by (rewrite names_filter_ne; naive_solver).
      by rewrite decide_True by set_solver.
    + destruct (decide (m ∈ names (b_add b))).
      * rewrite decide_True by (by rewrite names_filter_ne). by apply Get_filter_ne.
      * rewrite decide_False by (rewrite names_filter_ne; naive_solver).
        destruct (decide (m ∈ b_del b)); [rewrite decide_True by set_solver|rewrite decide_False by set_solver]; done.
Qed.

Lemma set_add_Some ls n v :
  n ∈ names ls →
  ∃ ls', set_add ls n v = Some ls' ∧ names ls' = names ls ∧
    (∀ m, Get ls' m = if decide (m = n) then v else Get ls m) ∧
    (v ≠ "" → Forall (λ l, Value l ≠ "") ls → Forall (λ l, Value l ≠ "") ls').
Proof.
  induction ls as [|a ls IH]; [set_solver|]. csimpl. intros Hin. case_bool_decide as E.
  - subst. eexists; split_and!; [done|done| |].
    + intros m. simpl. repeat case_bool_decide; case_decide; congruence.
    + intros ? [??]%Forall_cons. by apply Forall_cons.
  - apply elem_of_cons in Hin as [?|Hin]; [congruence|]. destruct (IH Hin) as (ls' & -> & Hn & Hg & Hf).
    simpl. eexists; split_and!; [done|csimpl; congruence| |].
    + intros m. simpl. rewrite Hg. repeat case_bool_decide; case_decide; congruence.
    + intros ? [??]%Forall_cons. apply Forall_cons; auto.
Qed.

Lemma set_add_None ls n v : n ∉ names ls → set_add ls n v = None.
Proof.
  induction ls as [|a ls IH]; [done|]. csimpl. intros Hni. rewrite bool_decide_eq_false_2 by set_solver.
  by rewrite IH by set_solver.
Qed.

Lemma SetLabel_wf b n v :
  builder_wf b →
  ∃ b', SetLabel b n v = Ret b' ∧ builder_wf b' ∧ b_base b' = b_base b ∧
    ∀ m, bview b' m = if decide (m = n) then v else bview b m.
Proof.
  intros Hwf. unfold SetLabel. case_bool_decide as Ev.
  { subst. simpl. destruct (Del1_wf b n Hwf) as (b' & -> & ?). by exists b'. }
  destruct Hwf as (Hb & Ha & Hv & He). destruct (decide (n ∈ names (b_add b))) as [Hin|Hni].
  - destruct (set_add_Some (b_add b) n v Hin) as (ls' & -> & Hn & Hg & Hf). eexists; split; [done|].
    split_and!; [split_and!; simpl; rewrite ?Hn; auto|done|]. intros m. unfold bview. simpl.
    rewrite Hn, Hg. destruct (decide (m = n)) as [->|]; [by rewrite decide_True|done].
  - rewrite set_add_None by done. eexists; split; [done|].
    assert (Hnames : names (b_add b ++ [mkLabel n v]) = names (b_add b) ++ [n])
      by (unfold names; by rewrite fmap_app).
    split_and!; [split_and!; simpl; auto|done|].
    + rewrite Hnames. apply NoDup_app. split_and!; [done|set_solver|apply NoDup_singleton].
    + apply Forall_app. by repeat constructor.
    + intros m. unfold bview. simpl. rewrite Hnames, Get_app.
      destruct (decide (m = n)) as [->|Hne].
      * rewrite decide_True by set_solver. rewrite decide_False by done. simpl.
        by rewrite bool_decide_eq_true_2.
      * destruct (decide (m ∈ names (b_add b))); [by rewrite decide_True by set_solver|].
        by rewrite decide_False by set_solver.
Qed.

(** A program over a builder: a sequence of [Set] and [Del] calls. *)
Inductive builder_op :=
| OpSet (n v : string)
| OpDel (ns : list string).

Definition run_op (b : LabelsBuilder) (o : builder_op) : outcome LabelsBuilder :=
  match o with OpSet n v => SetLabel b n v | OpDel ns => Del b ns end.

Fixpoint run_ops (b : LabelsBuilder) (os : list builder_op) : outcome LabelsBuilder :=
  match os with
  | [] => Ret b
  | o :: os => obind (run_op b o) (λ b', run_ops b' os)
  end.

(** The specification: a total map from names to values, [""] for absent. *)
Definition spec_op (f : string → string) (o : builder_op) : string → string :=
  match o with
  | OpSet n v => λ m, if decide (m = n) then v else f m
  | OpDel ns => λ m, if decide (m ∈ ns) then "" else f m
  end.

Lemma foldl_spec_op_ext os f g m :
  (∀ n, f n = g n) → foldl spec_op f os m = foldl spec_op g os m.
Proof.
  revert f g. induction os as [|o os IH]; intros f g Hfg; simpl; [done|].
  apply IH. intros k. destruct o; simpl; by rewrite Hfg.
Qed.

Lemma Del_wf ns b :
  builder_wf b →
  ∃ b', Del b ns = Ret b' ∧ builder_wf b' ∧ b_base b' = b_base b ∧
    ∀ m, bview b' m = if decide (m ∈ ns) then "" else bview b m.
Proof.
  revert b. induction ns as [|n ns IH]; intros b Hwf; simpl.
  { eexists; split_and!; try done. }
  destruct (Del1_wf b n Hwf) as (b1 & -> & Hwf1 & Hb1 & Hv1). simpl.
  destruct (IH b1 Hwf1) as (b2 & -> & Hwf2 & Hb2 & Hv2).
  exists b2; split_and!; [done|done|congruence|]. intros m. rewrite Hv2, Hv1.
  repeat case_decide; set_solver.
Qed.

Lemma run_ops_wf os b :
  builder_wf b →
  ∃ b', run_ops b os = Ret b' ∧ builder_wf b' ∧ b_base b' = b_base b ∧
    ∀ m, bview b' m = foldl spec_op (bview b) os m.
Proof.
  revert b. induction os as [|o os IH]; intros b Hwf; simpl.
  { eexists; split_and!; try done. }
  assert (∃ b', run_op b o = Ret b' ∧ builder_wf b' ∧ b_base b' = b_base b ∧
    ∀ m, bview b' m = spec_op (bview b) o m) as (b1 & -> & Hwf1 & Hb1 & Hv1)
    by (destruct o; eauto using SetLabel_wf, Del_wf).
  simpl. destruct (IH b1 Hwf1) as (b2 & -> & Hwf2 & Hb2 & Hv2).
  exists b2; split_and!; [done|done|congruence|]. intros m. rewrite Hv2.
  by apply foldl_spec_op_ext.
Qed.

(** What [Labels()] builds: unique sorted names with non-empty values, looked
    up as [bview] says. *)
Lemma kept_names b m :
  m ∈ names (kept b) ↔ m ∈ names (b_base b) ∧ (m ∉ b_del b) ∧ (m ∉ names (b_add b)).
Proof.
  unfold kept. split.
  - intros (l & -> & [[? ?] ?]%list_elem_of_filter)%list_elem_of_fmap.
    split_and!; [by apply list_elem_of_fmap_2|done..].
  - intros ((l & -> & ?)%list_elem_of_fmap & ? & ?).
    apply list_elem_of_fmap_2. by apply list_elem_of_filter.
Qed.

Lemma kept_Get b m : m ∉ b_del b → m ∉ names (b_add b) → Get (kept b) m = Get (b_base b) m.
Proof.
  intros Hd Ha. unfold kept. induction (b_base b) as [|l ls IH]; [done|]. rewrite filter_cons. simpl.
  case_decide as E; simpl; repeat case_bool_decide; try done; [].
  exfalso. apply E. naive_solver.
Qed.

Lemma kept_add_NoDup b : builder_wf b → NoDup (names (kept b ++ b_add b)).
Proof.
  intros (Hb & Ha & _ & _). unfold names. rewrite fmap_app. apply NoDup_app. split_and!; [|..|done].
  - by apply NoDup_names_filter.
  - intros m Hm. apply kept_names in Hm. apply Hm.
Qed.

Lemma BuilderLabels_Get b n : builder_wf b → Get (BuilderLabels b) n = bview b n.
Proof.
  intros Hwf. pose proof (kept_add_NoDup b Hwf) as Hnd.
  assert (Hs : Get (sort_labels (kept b ++ b_add b)) n = bview b n).
  { rewrite <-(Get_perm _ _ _ Hnd (symmetry (sort_labels_perm _))), Get_app. unfold bview.
    destruct (decide (n ∈ names (b_add b))) as [Hin|Hni].
    - rewrite decide_False; [done|]. rewrite kept_names. naive_solver.
    - rewrite (Get_not_elem_of (b_add b)) by done.
      destruct (decide (n ∈ b_del b)) as [Hd|Hd].
      + rewrite decide_False; [done|]. rewrite kept_names. naive_solver.
      + case_decide as Hk; [by apply kept_Get|]. symmetry. apply Get_not_elem_of.
        intros Hin. apply Hk. by rewrite kept_names. }
  unfold BuilderLabels. destruct (b_del b) eqn:Ed, (b_add b) eqn:Ea; try done.
  unfold bview. by rewrite Ed, Ea.
Qed.

Lemma strict_names_NoDup ls : strict_names ls → NoDup (names ls).
Proof.
  unfold strict_names. induction 1 as [|n ns _ IH Hn]; [by apply NoDup_nil_2|].
  apply NoDup_cons. split; [|done]. intros Hin. rewrite Forall_forall in Hn.
  apply Hn in Hin. by rewrite str_ltb_irrefl in Hin.
Qed.

Lemma strict_names_sorted ls : strict_names ls → sorted_names ls.
Proof.
  unfold strict_names, sorted_names. induction 1 as [|n ns _ IH Hn]; constructor; [done|].
  eapply Forall_impl; [done|]. intros m Hm. by apply str_ltb_le.
Qed.

Lemma BuilderLabels_shape b :
  builder_wf b → sorted_names (b_base b) →
  sorted_names (BuilderLabels b) ∧ NoDup (names (BuilderLabels b)) ∧
  Forall (λ l, Value l ≠ "") (BuilderLabels b).
Proof.
  intros Hwf Hs. pose proof (kept_add_NoDup b Hwf) as Hnd.
  destruct Hwf as (Hb & Ha & Hv & He).
  assert (Hval : Forall (λ l, Value l ≠ "") (kept b ++ b_add b)).
  { apply Forall_app. split; [|done]. apply Forall_forall.
    intros l [[Hd _] Hl]%list_elem_of_filter Ev. apply Hd, He.
    apply list_elem_of_fmap_2. by apply list_elem_of_filter. }
  assert (Hsorted : let r := sort_labels (kept b ++ b_add b) in
    sorted_names r ∧ NoDup (names r) ∧ Forall (λ l, Value l ≠ "") r).
  { simpl. split_and!; [apply sorted_names_sort| |by rewrite sort_labels_perm].
    by rewrite (names_perm _ _ (sort_labels_perm _)). }
  unfold BuilderLabels. destruct (b_del b) eqn:Ed, (b_add b) eqn:Ea; try done.
  split_and!; [done..|]. apply Forall_forall. intros l Hl Ev.
  assert (Name l ∈ ([] : list string)); [|set_solver]. apply He, list_elem_of_fmap_2.
  by apply list_elem_of_filter.
Qed.

(** Every sequence of [Set] and [Del] calls on a builder over a label set
    with unique sorted names runs without a panic, and the labels it returns
    are sorted by strictly increasing unique names, none with an empty value,
    with exactly the values the sequence of updates prescribes: the builder
    implements a map from names to values. *)
Theorem builder_refines_map (bs : Labels) (os : list builder_op) :
  strict_names bs →
  ∃ b, run_ops (NewLabelsBuilder bs) os = Ret b ∧
    sorted_names (BuilderLabels b) ∧ NoDup (names (BuilderLabels b)) ∧
    Forall (λ l, Value l ≠ "") (BuilderLabels b) ∧
    ∀ n, Get (BuilderLabels b) n = foldl spec_op (Get bs) os n.
Proof.
  intros Hbs. assert (Hnd : NoDup (names bs)) by by apply strict_names_NoDup.
  destruct (run_ops_wf os (NewLabelsBuilder bs)) as (b & Hrun & Hwf & Hb & Hv);
    [by apply NewLabelsBuilder_wf|].
  exists b. split; [done|].
  destruct (BuilderLabels_shape b) as (?&?&?); [done|by rewrite Hb; apply strict_names_sorted|].
  split_and!; [done..|]. intros n. rewrite BuilderLabels_Get, Hv by done.
  apply foldl_spec_op_ext. intros m. by apply NewLabelsBuilder_view.
Qed.

Definition example_base : Labels := [mkLabel "__name__" "memory"; mkLabel "pod" "a"].

Lemma builder_refines_map_witness :
  ∃ b, run_ops (NewLabelsBuilder example_base) [OpSet "env" "dev"; OpDel ["pod"]; OpSet "env" "prod"] = Ret b ∧
    BuilderLabels b = [mkLabel "__name__" "memory"; mkLabel "env" "prod"] ∧
    Get (BuilderLabels b) "env" = "prod".
Proof.
  destruct (builder_refines_map example_base [OpSet "env" "dev"; OpDel ["pod"]; OpSet "env" "prod"])
    as (b & Hrun & _ & _ & _ & Hg).
  { repeat constructor. }
  exists b. split; [done|]. split; [|by rewrite Hg].
  vm_compute in Hrun. injection Hrun as <-. vm_compute. reflexivity.
Defined.

(** [CompareLabelPairs] is a strict total order on label sets: it is zero
    only on equal sets, antisymmetric in sign and transitive. *)
Theorem CompareLabelPairs_total_order (a b c : Labels) :
  (CompareLabelPairs a b = 0%Z ↔ a = b) ∧
  CompareLabelPairs b a = (- CompareLabelPairs a b)%Z ∧
  ((CompareLabelPairs a b < 0)%Z → (CompareLabelPairs b c < 0)%Z → (CompareLabelPairs a c < 0)%Z).
Proof.
  split_and!; [apply CompareLabelPairs_zero|apply CompareLabelPairs_opp|apply CompareLabelPairs_trans].
Qed.

Lemma CompareLabelPairs_total_order_witness :
  (CompareLabelPairs [mkLabel "a" "1"] [mkLabel "a" "2"] < 0)%Z ∧
  (CompareLabelPairs [mkLabel "a" "1"] [mkLabel "b" "1"] < 0)%Z.
Proof.
  split; [vm_compute; reflexivity|].
  apply (CompareLabelPairs_total_order [mkLabel "a" "1"] [mkLabel "a" "2"] [mkLabel "b" "1"]);
    vm_compute; reflexivity.
Defined.

Section HashTheorems.
Context (Sum64 : string → N).
Context {Digest : Type} (New : Digest) (Write : Digest → string → Digest) (DSum64 : Digest → N).
(** The streaming digest returns the hash of everything written to it. *)
Context (digest_sum : ∀ bs : list string, DSum64 (foldl Write New bs) = Sum64 (foldr String.append "" bs)).

Lemma foldr_append_app (l1 l2 : list string) :
  foldr String.append "" (l1 ++ l2) = foldr String.append "" l1 +:+ foldr String.append "" l2.
Proof. induction l1 as [|s l1 IH]; simpl; [done|]. by rewrite IH, str_app_assoc. Qed.

Definition label_chunks (l : LabelPair) : list string := [Name l; sep; Value l; sep].

Lemma write_labels_chunks d ls :
  foldl (write_label Write) d ls = foldl Write d (concat (label_chunks <$> ls)).
Proof.
  revert d. induction ls as [|l ls IH]; intros d; csimpl; [done|]. by rewrite IH.
Qed.

Lemma foldr_chunks ls : foldr String.append "" (concat (label_chunks <$> ls)) = encode_labels ls.
Proof.
  induction ls as [|l ls IH]; csimpl; [done|]. rewrite IH. unfold encode_label. by rewrite !str_app_assoc.
Qed.

Lemma Hash_loop_encode b ls : Hash_loop Sum64 New Write DSum64 b ls = Sum64 (b +:+ encode_labels ls).
Proof.
  revert b. induction ls as [|l ls IH]; intros b; cbn [Hash_loop]; [by rewrite str_app_nil_r|].
  case_if_eq.
  - rewrite write_labels_chunks. change (Write New b) with (foldl Write New [b]).
    rewrite <-foldl_app, digest_sum. change ([b] ++ ?x) with (b :: x). cbn [foldr]. by rewrite foldr_chunks.
  - rewrite IH. f_equal. simpl. unfold encode_label. by rewrite !str_app_assoc.
Qed.
End HashTheorems.

(** The buffered and the streaming path of [Hash] agree: for every label
    set, of any length, the result is the xxhash of the same byte encoding;
    [HashForLabels] and [HashWithoutLabels], walking two sorted lists with two
    cursors, hash exactly the labels whose names are listed, respectively all
    but the listed names and the metric name. *)
Theorem hashes_encode_selection (Sum64 : string → N) (Digest : Type) (New : Digest)
    (Write : Digest → string → Digest) (DSum64 : Digest → N) (ls : Labels) (ns : list string) :
  (∀ bs : list string, DSum64 (foldl Write New bs) = Sum64 (foldr String.append "" bs)) →
  strict_names ls → StronglySorted String.le ns →
  Hash Sum64 New Write DSum64 ls = Sum64 (encode_labels ls) ∧
  HashForLabels Sum64 ls ns = (Sum64 (encode_labels (WithLabels ls ns)), encode_labels (WithLabels ls ns)) ∧
  HashWithoutLabels Sum64 ls ns = (Sum64 (encode_labels (WithoutNames ls ns)), encode_labels (WithoutNames ls ns)).
Proof.
  intros Hd Hls Hns. split_and!.
  - unfold Hash. by rewrite Hash_loop_encode.
  - unfold HashForLabels. by rewrite for_labels_loop_spec.
  - unfold HashWithoutLabels. by rewrite without_labels_loop_spec by auto using strict_names_sorted.
Qed.

Lemma hashes_encode_selection_witness :
  let Sum64 s := N.of_nat (String.length s) in
  Hash Sum64 "" String.append Sum64 example_base = 22%N ∧
  HashForLabels Sum64 example_base ["pod"; "zone"] = (6%N, encode_label (mkLabel "pod" "a")).
Proof.
  destruct (hashes_encode_selection (λ s, N.of_nat (String.length s)) string "" String.append
    (λ s, N.of_nat (String.length s)) example_base ["pod"; "zone"]) as (H1 & H2 & _).
  - intros bs. f_equal. f_equal. assert (H : ∀ d, foldl String.append d bs = d +:+ foldr String.append "" bs); [|apply H].
    induction bs as [|x bs IH]; intros d; simpl; [by rewrite str_app_nil_r|].
    by rewrite IH, str_app_assoc.
  - repeat constructor.
  - repeat constructor.
  - split; [etransitivity; [exact H1|vm_compute; reflexivity]|etransitivity; [exact H2|vm_compute; reflexivity]].
Defined.

(** The grouping key of a series is faithful: for label sets without the
    byte 0xff (every valid UTF-8 text), [BytesWithLabels] of two sets agree
    exactly when the sets have the same labels among the requested names. *)
Theorem BytesWithLabels_injective (ls ls' : Labels) (ns : list string) :
  strict_names ls → strict_names ls' → StronglySorted String.le ns →
  Forall label_no_sep ls → Forall label_no_sep ls' →
  BytesWithLabels ls ns = BytesWithLabels ls' ns ↔ WithLabels ls ns = WithLabels ls' ns.
Proof.
  intros Hls Hls' Hns Hf Hf'. unfold BytesWithLabels.
  rewrite !bytes_with_labels_step by (done || simpl; lia). simpl. split; [|by intros ->].
  intros E%(inj (String.append labelSep)). rewrite Forall_forall in Hf, Hf'.
  apply join_labels_inj; [..|done];
    apply Forall_forall; intros l [_ Hl]%list_elem_of_filter; auto.
Qed.

Lemma BytesWithLabels_injective_witness :
  BytesWithLabels example_base ["pod"] ≠ BytesWithLabels [mkLabel "pod" "b"] ["pod"].
Proof.
  intros H.
  apply (BytesWithLabels_injective example_base [mkLabel "pod" "b"] ["pod"]) in H;
    [vm_compute in H; discriminate H|repeat constructor..].
Defined.

(** ** Profile types *)

(** No byte of [s] is a colon. *)
Fixpoint no_colon (s : string) : bool :=
  match s with
  | EmptyString => true
  | String c s => negb (bool_decide (c = ":"%char)) && no_colon s
  end.

Lemma split_colon_part s rest cur :
  no_colon s = true →
  split_colon_aux (s +:+ ":" +:+ rest) cur = (cur +:+ s) :: split_colon_aux rest "".
Proof.
  revert cur. induction s as [|c s IH]; intros cur Hs; simpl in Hs.
  - rewrite str_app_nil_r. done.
  - apply andb_true_iff in Hs as [Hc Hs]. rewrite str_app_cons. simpl.
    rewrite (proj1 (negb_true_iff _) Hc). rewrite IH by done. by rewrite str_app_assoc.
Qed.

Lemma split_colon_last s cur : no_colon s = true → split_colon_aux s cur = [cur +:+ s].
Proof.
  revert cur. induction s as [|c s IH]; intros cur Hs; simpl in Hs |- *; [by rewrite str_app_nil_r|].
  apply andb_true_iff in Hs as [Hc Hs]. rewrite (proj1 (negb_true_iff _) Hc), IH by done.
  by rewrite str_app_assoc.
Qed.

Definition profile_type_ok (p : ProfileType) : Prop :=
  no_colon (PT_Name p) = true ∧ no_colon (SampleType p) = true ∧ no_colon (SampleUnit p) = true ∧
  no_colon (PeriodType p) = true ∧ no_colon (PeriodUnit p) = true.

(** The profile-type selector round trips: parsing the value of the matcher
    built from a profile type gives its five parts back, whatever its ID was,
    and the selector of the parsed type is the same matcher. *)
Theorem profile_type_roundtrip (p : ProfileType) :
  profile_type_ok p →
  let s := Value (SelectorFromProfileType p) in
  ∃ q, ParseProfileTypeSelector s = Ret q ∧ PT_ID q = s ∧
    (PT_Name q, SampleType q, SampleUnit q, PeriodType q, PeriodUnit q) =
    (PT_Name p, SampleType p, SampleUnit p, PeriodType p, PeriodUnit p) ∧
    SelectorFromProfileType q = SelectorFromProfileType p.
Proof.
  intros (H1&H2&H3&H4&H5). unfold ParseProfileTypeSelector, split_colon. simpl.
  rewrite !split_colon_part, split_colon_last by done. eexists; split_and!; done.
Qed.

Lemma profile_type_roundtrip_witness :
  ∃ q, ParseProfileTypeSelector "memory:alloc_space:bytes:space:bytes" = Ret q ∧ SampleType q = "alloc_space".
Proof.
  destruct (profile_type_roundtrip (mkProfileType "" "memory" "alloc_space" "bytes" "space" "bytes"))
    as (q & Hq & _ & E & _); [repeat split|].
  exists q. split; [exact Hq|]. by injection E.
Defined.
