(* ===== verification/GoHeap.v ===== *)
(** * Go's container/heap

    The binary heap that [SortIterator], [mergedPostings] and [skipDuplicates]
    are built on: [Push], [Pop], [Fix] and [Init] with the library's [up] and
    [down] loops, on the slice as a list.  [less] is the [Less] method of the
    element type.  For a strict weak order the operations keep the heap
    property, permute the elements, and leave a minimum in front. *)

From S2P Require Import Prelude.

Section Heap.
Context {A : Type} (less : A → A → bool).

(** [h.Swap(i, j)]. *)
Definition hswap (i j : nat) (l : list A) : list A :=
  match l !! i, l !! j with
  | Some a, Some b => <[i := b]> (<[j := a]> l)
  | _, _ => l
  end.

(** [h.Less(i, j)]; out of range it would panic, which the loops exclude. *)
Definition hless (l : list A) (i j : nat) : bool :=
  match l !! i, l !! j with
  | Some a, Some b => less a b
  | _, _ => false
  end.

(** The index of the parent of node [j] of the heap: [(j - 1) / 2]. *)
Definition parent (j : nat) : nat := Nat.div2 (j - 1).

Fixpoint heap_up (fuel : nat) (j : nat) (l : list A) : list A :=
  match fuel with
  | O => l
  | S fuel =>
      let i := parent j in
      if (i =? j)%nat || negb (hless l j i) then l else heap_up fuel i (hswap i j l)
  end.

Fixpoint heap_down (fuel : nat) (i n : nat) (l : list A) : list A * nat :=
  match fuel with
  | O => (l, i)
  | S fuel =>
      let j1 := 2 * i + 1 in
      if (n <=? j1)%nat then (l, i) else
      let j2 := j1 + 1 in
      let j := if (j2 <? n)%nat && hless l j2 j1 then j2 else j1 in
      if negb (hless l j i) then (l, i) else heap_down fuel j n (hswap i j l)
  end.

Definition heap_push (x : A) (l : list A) : list A :=
  let l' := l ++ [x] in heap_up (length l') (length l' - 1) l'.

(** [heap.Pop]: the popped element and the remaining heap. *)
Definition heap_pop (l : list A) : option (A * list A) :=
  let n := length l - 1 in
  let l' := (heap_down (length l) 0 n (hswap 0 n l)).1 in
  match last l' with
  | Some x => Some (x, take n l')
  | None => None
  end.

Definition heap_fix (i : nat) (l : list A) : list A :=
  let '(l', i') := heap_down (length l) i (length l) l in
  if (i <? i')%nat then l' else heap_up (length l) i l'.

(** The loop of [heap.Init] from node [i - 1] down to the root. *)
Fixpoint heap_init_loop (i : nat) (l : list A) : list A :=
  match i with
  | O => l
  | S i => heap_init_loop i (heap_down (length l) i (length l) l).1
  end.

Definition heap_init (l : list A) : list A := heap_init_loop (Nat.div2 (length l)) l.

(** ** Permutation *)

Lemma hswap_perm i j l : hswap i j l ≡ₚ l.
Proof.
  unfold hswap. destruct (l !! i) as [a|] eqn:Ei; [|done]. destruct (l !! j) as [b|] eqn:Ej; [|done].
  by apply Permutation_insert_swap.
Qed.

Lemma hswap_length i j l : length (hswap i j l) = length l.
Proof. by rewrite (Permutation_length (hswap_perm i j l)). Qed.

Lemma hswap_lookup i j l k :
  i < length l → j < length l →
  hswap i j l !! k = if decide (k = i) then l !! j else if decide (k = j) then l !! i else l !! k.
Proof.
  intros Hi Hj. unfold hswap.
  destruct (lookup_lt_is_Some_2 _ _ Hi) as [a Ha]. destruct (lookup_lt_is_Some_2 _ _ Hj) as [b Hb].
  rewrite Ha, Hb. repeat case_decide; subst.
  - rewrite list_lookup_insert_eq; [done|]. by rewrite length_insert.
  - rewrite list_lookup_insert_ne by done. by rewrite list_lookup_insert_eq.
  - rewrite !list_lookup_insert_ne by done. done.
Qed.

Lemma heap_up_perm fuel j l : heap_up fuel j l ≡ₚ l.
Proof.
  revert j l. induction fuel as [|fuel IH]; intros j l; simpl; [done|].
  destruct (_ || _); [done|]. by rewrite IH, hswap_perm.
Qed.

Lemma heap_down_perm fuel i n l : (heap_down fuel i n l).1 ≡ₚ l.
Proof.
  revert i l. induction fuel as [|fuel IH]; intros i l; cbn -[Nat.mul]; [done|].
  destruct (n <=? _)%nat; [done|]. destruct (negb _); [done|]. by rewrite IH, hswap_perm.
Qed.

Lemma heap_init_perm l : heap_init l ≡ₚ l.
Proof.
  unfold heap_init. generalize (Nat.div2 (length l)) as i. intros i. revert l.
  induction i as [|i IH]; intros l; simpl; [done|]. by rewrite IH, heap_down_perm.
Qed.

Lemma heap_push_perm x l : heap_push x l ≡ₚ x :: l.
Proof. unfold heap_push. rewrite heap_up_perm. by rewrite Permutation_app_comm. Qed.

Lemma heap_fix_perm i l : heap_fix i l ≡ₚ l.
Proof.
  unfold heap_fix. pose proof (heap_down_perm (length l) i (length l) l) as H.
  destruct (heap_down _ _ _ _) as [l' i']. destruct (_ <? _)%nat; simpl in H; [done|].
  by rewrite heap_up_perm.
Qed.

(** ** Order *)

(** [Less] is a strict weak order: its complement is a total preorder. *)
Definition hle (a b : A) : Prop := less b a = false.

Class WeakOrder : Prop := {
  hle_refl : ∀ a, hle a a;
  hle_trans : ∀ a b c, hle a b → hle b c → hle a c;
  hle_total : ∀ a b, hle a b ∨ hle b a
}.

Context {HW : WeakOrder}.

(** The value at node [p] is at most the value at node [k]. *)
Definition leAt (l : list A) (p k : nat) : Prop :=
  ∀ a b, l !! p = Some a → l !! k = Some b → hle a b.

(** The heap property for the first [n] nodes, below the nodes from [r] on. *)
Definition heap_from (r n : nat) (l : list A) : Prop :=
  ∀ k, 0 < k < n → r ≤ parent k → leAt l (parent k) k.

Definition is_heap (l : list A) : Prop := heap_from 0 (length l) l.

Lemma parent_bounds k : 0 < k → 2 * parent k + 1 ≤ k ≤ 2 * parent k + 2.
Proof. unfold parent. intros. pose proof (Nat.div2_odd (k - 1)). destruct (Nat.odd (k - 1)); simpl in *; lia. Qed.

Lemma parent_0 : parent 0 = 0.
Proof. done. Qed.

Lemma is_heap_nil : is_heap [].
Proof. intros k Hk. simpl in Hk. lia. Qed.

Lemma hless_leAt l i j : i < length l → j < length l → hless l i j = false → leAt l j i.
Proof.
  intros Hi Hj. unfold hless, leAt, hle.
  destruct (lookup_lt_is_Some_2 _ _ Hi) as [a Ha]. destruct (lookup_lt_is_Some_2 _ _ Hj) as [b Hb].
  rewrite Ha, Hb. intros. by simplify_eq.
Qed.

Lemma hless_lt l i j : hless l i j = true → leAt l i j.
Proof.
  unfold hless, leAt. intros H a b Ha Hb. rewrite Ha, Hb in H.
  destruct (hle_total a b) as [|Hba]; [done|]. unfold hle in Hba. congruence.
Qed.

Lemma leAt_trans l i j k : j < length l → leAt l i j → leAt l j k → leAt l i k.
Proof.
  intros Hj H1 H2 a c Ha Hc. destruct (lookup_lt_is_Some_2 _ _ Hj) as [b Hb].
  eapply hle_trans; eauto.
Qed.

Lemma hswap_leAt i j l p k :
  i < length l → j < length l →
  let s x := if decide (x = i) then j else if decide (x = j) then i else x in
  leAt (hswap i j l) p k ↔ leAt l (s p) (s k).
Proof.
  intros Hi Hj s. unfold leAt. rewrite !hswap_lookup by done. unfold s.
  repeat case_decide; done.
Qed.

(** Rewrites a [leAt] of a swapped list to the original one, deciding which of
    the two nodes are the swapped ones. *)
Ltac swap_case :=
  rewrite hswap_leAt by lia; cbv zeta; repeat (case_decide; try lia).

Lemma heap_up_spec fuel j l :
  j < fuel → j < length l →
  (∀ k, 0 < k < length l → k ≠ j → leAt l (parent k) k) →
  (∀ k, 0 < k < length l → parent k = j → 0 < j → leAt l (parent j) k) →
  is_heap (heap_up fuel j l).
Proof.
  revert j l. induction fuel as [|fuel IH]; intros j l Hf Hj Hok Hgp; [lia|]. simpl.
  destruct (Nat.eqb_spec (parent j) j) as [Ej|Ej]; simpl.
  { assert (j = 0) by (destruct j; [done|pose proof (parent_bounds (S j)); lia]). subst.
    intros k Hk _. apply Hok; lia. }
  assert (0 < j) as Hj0 by (destruct j; [done|lia]).
  pose proof (parent_bounds j Hj0) as Hp.
  destruct (hless l j (parent j)) eqn:El; simpl.
  - apply hless_lt in El.
    apply IH; rewrite ?hswap_length; [lia..| |].
    + intros k Hk Hki. pose proof (parent_bounds k ltac:(lia)) as Hpk.
      destruct (decide (k = j)) as [->|Hkj]; [by swap_case|].
      destruct (decide (parent k = j)) as [Epk|]; [swap_case; by apply Hgp|].
      destruct (decide (parent k = parent j)) as [Epk|]; [|swap_case; apply Hok; lia].
      swap_case. apply (leAt_trans _ _ (parent j)); [lia|done|].
      rewrite <-Epk. apply Hok; lia.
    + intros k Hk Epk H0. pose proof (parent_bounds k ltac:(lia)) as Hpk.
      pose proof (parent_bounds (parent j) H0) as Hpp.
      assert (leAt l (parent (parent j)) (parent j)) by (apply Hok; lia).
      destruct (decide (k = j)) as [->|Hkj]; [by swap_case|].
      swap_case. apply (leAt_trans _ _ (parent j)); [lia|done|]. rewrite <-Epk. apply Hok; lia.
  - apply hless_leAt in El; [|lia..].
    intros k Hk _. destruct (decide (k = j)) as [->|]; [done|]. apply Hok; lia.
Qed.

Lemma heap_down_spec fuel i n r l :
  n - i ≤ fuel → n ≤ length l → r ≤ i →
  (∀ k, 0 < k < n → r ≤ parent k → parent k ≠ i → leAt l (parent k) k) →
  (∀ k, 0 < k < n → parent k = i → 0 < i → r ≤ parent i → leAt l (parent i) k) →
  let l' := (heap_down fuel i n l).1 in
  heap_from r n l' ∧ (∀ k, n ≤ k → l' !! k = l !! k).
Proof.
  revert i l. induction fuel as [|fuel IH]; intros i l Hf Hn Hr Hok Hgp; cbn [heap_down fst negb andb].
  { split; [|done]. intros k Hk Hrk. apply Hok; [done|done|]. pose proof (parent_bounds k ltac:(lia)). lia. }
  destruct (Nat.leb_spec n (2 * i + 1)) as [Hstop|Hgo]; cbn [heap_down fst negb andb].
  { split; [|done]. intros k Hk Hrk. apply Hok; [done|done|]. pose proof (parent_bounds k ltac:(lia)). lia. }
  set (j := if ((2 * i + 1 + 1 <? n)%nat && hless l (2 * i + 1 + 1) (2 * i + 1)) then 2 * i + 1 + 1 else 2 * i + 1).
  assert (Hj : (j = 2 * i + 1 ∨ j = 2 * i + 2) ∧ j < n ∧
    (∀ k, 0 < k < n → parent k = i → k ≠ j → leAt l j k)).
  { unfold j. destruct (Nat.ltb_spec (2 * i + 1 + 1) n) as [H2|H2]; cbn [heap_down fst negb andb].
    - destruct (hless l (2 * i + 1 + 1) (2 * i + 1)) eqn:El; (split_and!; [lia..|]);
        intros k Hk Epk Hkj; pose proof (parent_bounds k ltac:(lia)).
      + replace k with (2 * i + 1) by lia. by apply hless_lt.
      + replace k with (2 * i + 1 + 1) by lia. apply hless_leAt; [lia..|done].
    - split_and!; [lia..|]. intros k Hk Epk Hkj. pose proof (parent_bounds k ltac:(lia)). lia. }
  clearbody j. destruct Hj as (Hj & Hjn & Hmin).
  assert (Hpj : parent j = i) by (pose proof (parent_bounds j ltac:(lia)); lia).
  destruct (hless l j i) eqn:El; cbn [heap_down fst negb andb].
  - apply hless_lt in El.
    destruct (IH j (hswap i j l)) as [Hh Hsuf]; rewrite ?hswap_length; [lia..| | |].
    + intros k Hk Hrk Hpkj. pose proof (parent_bounds k ltac:(lia)) as Hpk.
      destruct (decide (parent k = i)) as [Epk|Epk].
      * destruct (decide (k = j)) as [->|Hkj]; [by swap_case|]. swap_case. by apply Hmin.
      * destruct (decide (k = i)) as [->|Hki]; [swap_case; apply Hgp; lia|].
        swap_case. by apply Hok.
    + intros k Hk Epk _ Hrp. pose proof (parent_bounds k ltac:(lia)) as Hpk.
      rewrite Hpj. swap_case. rewrite <-Epk. apply Hok; lia.
    + split; [done|]. intros k Hk. rewrite Hsuf by done.
      rewrite hswap_lookup by lia. repeat (case_decide; try lia). done.
  - apply hless_leAt in El; [|lia..]. split; [|done].
    intros k Hk Hrk. destruct (decide (parent k = i)) as [Epk|]; [|by apply Hok].
    rewrite Epk. destruct (decide (k = j)) as [->|]; [done|].
    apply (leAt_trans _ _ j); [lia|done|by apply Hmin].
Qed.

Lemma heap_push_heap x l : is_heap l → is_heap (heap_push x l).
Proof.
  intros Hh. unfold heap_push. rewrite length_app. simpl.
  apply heap_up_spec; rewrite ?length_app; simpl; [lia..| |].
  - intros k Hk Hkj. pose proof (parent_bounds k ltac:(lia)).
    intros a b. rewrite !lookup_app_l by lia. apply Hh; lia.
  - intros k Hk Epk Hj. pose proof (parent_bounds k ltac:(lia)). lia.
Qed.

Lemma heap_init_heap l : is_heap (heap_init l).
Proof.
  unfold heap_init, is_heap.
  assert (H : ∀ i l, heap_from i (length l) l → heap_from 0 (length (heap_init_loop i l)) (heap_init_loop i l)).
  { clear l. intros i. induction i as [|i IH]; intros l Hl; simpl; [done|].
    pose proof (Permutation_length (heap_down_perm (length l) i (length l) l)) as Hlen.
    apply IH. rewrite Hlen. eapply heap_down_spec; [lia..| |].
    - intros k Hk Hr Hne. apply Hl; lia.
    - intros k Hk Epk H0 Hr. pose proof (parent_bounds i H0). lia. }
  apply H. intros k Hk Hr. pose proof (parent_bounds k ltac:(lia)).
  pose proof (Nat.div2_odd (length l)). destruct (Nat.odd (length l)); simpl in *; lia.
Qed.

(** The front of a heap is a minimum. *)
Lemma is_heap_min l a x : is_heap l → l !! 0 = Some a → x ∈ l → hle a x.
Proof.
  intros Hh Ha (k & Hk)%list_elem_of_lookup. revert x Hk.
  induction k as [k IH] using (well_founded_induction lt_wf). intros x Hk.
  destruct (decide (k = 0)) as [->|Hk0]; [simplify_eq; apply hle_refl|].
  pose proof (parent_bounds k ltac:(lia)). apply lookup_lt_Some in Hk as Hlt.
  destruct (lookup_lt_is_Some_2 l (parent k)) as [p Hp]; [lia|].
  apply (hle_trans _ p); [apply (IH (parent k)); [lia|done]|].
  apply (Hh k); [lia|lia|done|done].
Qed.

(** [Fix] at the root after its value changed. *)
Lemma heap_fix_heap x l : is_heap (x :: l) → ∀ y, is_heap (heap_fix 0 (y :: l)).
Proof.
  intros Hh y. unfold heap_fix.
  destruct (heap_down_spec (length (y :: l)) 0 (length (y :: l)) 0 (y :: l)) as [Hd _]; [lia..| | |].
  - intros k Hk _ Hne. intros a b Ha Hb.
    destruct (parent k) as [|p] eqn:Ep; [done|]. destruct k as [|k]; [lia|].
    apply (Hh (S k)); [done|lia| |done]. by rewrite Ep.
  - lia.
  - pose proof (Permutation_length (heap_down_perm (length (y :: l)) 0 (length (y :: l)) (y :: l))) as Hlen.
    destruct (heap_down _ _ _ _) as [l' i'] eqn:E. simpl in Hd, Hlen.
    destruct (Nat.ltb_spec 0 i'); unfold is_heap; simpl; by rewrite Hlen.
Qed.

(** [Pop] returns the root and leaves a heap of the others; the value of the
    root itself is never compared. *)
Lemma heap_pop_root l :
  (∀ k, 0 < k < length l → parent k ≠ 0 → leAt l (parent k) k) → l ≠ [] →
  ∃ a l', heap_pop l = Some (a, l') ∧ l !! 0 = Some a ∧ is_heap l' ∧ l ≡ₚ a :: l'.
Proof.
  intros Hh Hne. assert (Hlen : 0 < length l) by (destruct l; simpl; [done|lia]).
  destruct (lookup_lt_is_Some_2 l 0) as [a Ha]; [done|].
  destruct (heap_down_spec (length l) 0 (length l - 1) 0 (hswap 0 (length l - 1) l)) as [Hd Hsuf];
    rewrite ?hswap_length; [lia..| |lia|].
  { intros k Hk _ Hpk. pose proof (parent_bounds k ltac:(lia)). swap_case. apply Hh; [lia|done]. }
  set (l' := (heap_down (length l) 0 (length l - 1) (hswap 0 (length l - 1) l)).1) in *.
  assert (Hp : l' ≡ₚ l) by (unfold l'; by rewrite heap_down_perm, hswap_perm).
  assert (Hlast : last l' = Some a).
  { rewrite last_lookup, (Permutation_length Hp). replace (pred (length l)) with (length l - 1) by lia.
    rewrite Hsuf by done. rewrite hswap_lookup by lia. repeat case_decide; [congruence|done|lia]. }
  assert (Hsplit : l' = take (length l - 1) l' ++ [a]).
  { apply last_Some in Hlast as [l0 Hl0]. rewrite Hl0. f_equal.
    assert (length l = length l0 + 1) as -> by (rewrite <-(Permutation_length Hp), Hl0, length_app; done).
    rewrite take_app_le by lia. rewrite firstn_all2; [done|lia]. }
  exists a, (take (length l - 1) l'). split_and!; [|done| |].
  - unfold heap_pop. fold l'. by rewrite Hlast.
  - intros k Hk _. rewrite length_take in Hk. pose proof (parent_bounds k ltac:(lia)).
    intros x y. rewrite !lookup_take_lt by lia. apply Hd; lia.
  - rewrite <-Hp, Hsplit at 1. rewrite Permutation_app_comm. done.
Qed.

(** [Pop] of a heap returns a minimum. *)
Lemma heap_pop_spec l :
  is_heap l → l ≠ [] →
  ∃ a l', heap_pop l = Some (a, l') ∧ l !! 0 = Some a ∧ is_heap l' ∧ l ≡ₚ a :: l' ∧ (∀ x, x ∈ l → hle a x).
Proof.
  intros Hh Hne. destruct (heap_pop_root l) as (a & l' & ? & ? & ? & ?); [|done|].
  - intros k Hk _. apply Hh; lia.
  - exists a, l'. split_and!; try done. intros x Hx. by apply (is_heap_min l).
Qed.

(** [Pop] after the value of the root changed. *)
Lemma heap_pop_changed x y l :
  is_heap (x :: l) → ∃ l', heap_pop (y :: l) = Some (y, l') ∧ is_heap l' ∧ l' ≡ₚ l.
Proof.
  intros Hh. destruct (heap_pop_root (y :: l)) as (a & l' & Hpop & Ha & Hh' & Hp); [|done|].
  - intros k Hk Hpk a b Ha Hb. destruct (parent k) as [|p] eqn:Ep; [done|]. destruct k as [|k]; [lia|].
    apply (Hh (S k)); [done|lia| |done]. by rewrite Ep.
  - simpl in Ha. simplify_eq. exists l'. split_and!; [done|done|]. symmetry. by eapply Permutation_cons_inv.
Qed.

End Heap.

Global Arguments WeakOrder {A} less.
Global Arguments hle {A} less a b.
Global Arguments is_heap {A} less l.
