(* ===== verification/Sorting.v ===== *)
(** Go's [sort.Slice]: an insertion sort driven by a [less] function, with the facts every
    caller needs (the result is a permutation, and sorted when [less] is a weak order). *)
From S2P Require Import Prelude.

Lemma StronglySorted_weaken {A} (P Q : A → A → Prop) (l : list A) :
  (∀ x y, P x y → Q x y) → StronglySorted P l → StronglySorted Q l.
Proof.
  intros HPQ. induction 1 as [|x l Hs IH Hx]; constructor; [done|]. eapply Forall_impl; [exact Hx|]. simpl. auto.
Qed.

Section SortSlice.
Context {A : Type} (less : A → A → bool).

Fixpoint insert_by (x : A) (l : list A) : list A :=
  match l with
  | [] => [x]
  | y :: l => if less x y then x :: y :: l else y :: insert_by x l
  end.

(** A sort with [less]; where [sort.Slice] leaves the order open it is stable. *)
Definition sort_slice (l : list A) : list A := foldl (λ acc x, insert_by x acc) [] l.

Lemma insert_by_perm x l : insert_by x l ≡ₚ x :: l.
Proof. induction l as [|y l IH]; simpl; [done|]. destruct (less x y); [done|]. rewrite IH. apply Permutation_swap. Qed.

Lemma sort_slice_perm l : sort_slice l ≡ₚ l.
Proof.
  unfold sort_slice. enough (∀ acc, foldl (λ acc x, insert_by x acc) acc l ≡ₚ acc ++ l) as Hg by (by rewrite Hg).
  induction l as [|x l IH]; intros acc; simpl; [by rewrite (right_id_L [] (++))|].
  rewrite IH, insert_by_perm. by rewrite <- Permutation_middle.
Qed.

Context (not_less_trans : ∀ x y z, less y x = false → less z y = false → less z x = false).
Context (less_asym : ∀ x y, less x y = true → less y x = false).

Lemma insert_by_sorted x l :
  StronglySorted (λ a b, less b a = false) l → StronglySorted (λ a b, less b a = false) (insert_by x l).
Proof.
  induction 1 as [|y l Hs IH Hy]; simpl; [repeat constructor|]. destruct (less x y) eqn:E.
  - apply less_asym in E. constructor; [by constructor|]. constructor; [done|]. eapply Forall_impl; [exact Hy|].
    simpl. intros z Hz. by eapply not_less_trans.
  - constructor; [done|]. rewrite insert_by_perm. by constructor.
Qed.

Lemma sort_slice_sorted l : StronglySorted (λ a b, less b a = false) (sort_slice l).
Proof.
  unfold sort_slice. enough (∀ acc, StronglySorted (λ a b, less b a = false) acc →
    StronglySorted (λ a b, less b a = false) (foldl (λ acc x, insert_by x acc) acc l)) as Hg by (apply Hg; constructor).
  induction l as [|x l IH]; intros acc Hacc; simpl; [done|]. by apply IH, insert_by_sorted.
Qed.
End SortSlice.

