(* ===== verification/Iter.v ===== *)
(** * Iterators (src/pkg/iter)

    [Iterator] is Go's interface as a type class on a state type: every call
    returns the new state of the iterator.  [yields] is what a consumer observes
    of an iterator: the values of the successful [Next] calls and the state in
    which [Next] first returned false.  The combinators of the package are
    instances built from any instance, and their theorems are about [yields]. *)

From S2P Require Import Prelude Labels GoHeap.

Class Iterator (St A : Type) := {
  Next : St → bool * St;
  At : St → A;
  Err : St → option string;
  Close : St → option string * St;
  (** a bound on the number of [Next] calls that can still return true *)
  remaining : St → nat
}.

(** The bound is one: data behind an iterator is finite. *)
Class IteratorOk (St A : Type) `{Iterator St A} : Prop :=
  next_decreases : ∀ s s' : St, Next s = (true, s') → remaining s' < remaining s.

Section Yields.
Context {St A : Type} `{Iterator St A}.

Inductive yields : St → list A → St → Prop :=
| yields_nil s s' : Next s = (false, s') → yields s [] s'
| yields_cons s s' l s'' : Next s = (true, s') → yields s' l s'' → yields s (At s' :: l) s''.

Lemma yields_step s s' x l s'' :
  Next s = (true, s') → At s' = x → yields s' l s'' → yields s (x :: l) s''.
Proof. intros Hn <- Hy. by econstructor. Qed.

Lemma yields_det s l1 e1 l2 e2 : yields s l1 e1 → yields s l2 e2 → l1 = l2 ∧ e1 = e2.
Proof.
  intros H1. revert l2 e2. induction H1 as [s s' Hn|s s' l s'' Hn Hy IH]; intros l2 e2 H2;
    inversion H2; subst; try congruence.
  - split; congruence.
  - assert (s'0 = s') as -> by congruence.
    match goal with Hy2 : yields s' _ _ |- _ => destruct (IH _ _ Hy2) as [-> ->] end. done.
Qed.

Lemma yields_total `{!IteratorOk St A} s : ∃ l e, yields s l e.
Proof.
  remember (remaining s) as n eqn:En. revert s En.
  induction n as [n IH] using (well_founded_induction lt_wf). intros s ->.
  destruct (Next s) as [[] s'] eqn:E.
  - destruct (IH (remaining s')) with (s := s') as (l & e & Hy); [by apply next_decreases|done|].
    exists (At s' :: l), e. by econstructor.
  - exists [], s'. by constructor.
Qed.

Lemma yields_length `{!IteratorOk St A} s l e : yields s l e → length l ≤ remaining s.
Proof. induction 1 as [|s s' l e Hn Hy IH]; simpl; [lia|]. apply next_decreases in Hn. lia. Qed.
End Yields.

(** ** Error iterators *)

Record errIterator := mkErrIterator { ei_err : option string }.

Definition NewErrIterator (e : string) : errIterator := mkErrIterator (Some e).

Global Instance errIterator_iter `{GoZero A} : Iterator errIterator A := {|
  Next s := (false, s);
  At _ := zero;
  Err s := ei_err s;
  Close s := (None, s);
  remaining _ := 0
|}.

Global Instance errIterator_ok `{GoZero A} : IteratorOk errIterator A.
Proof. intros s s' [=]. Qed.

(** ** Slice iterators *)

Record sliceIterator (A : Type) := mkSliceIterator { sl_list : list A; sl_cur : A }.
Arguments mkSliceIterator {A} _ _.
Arguments sl_list {A} _.
Arguments sl_cur {A} _.

Definition NewSliceIterator `{GoZero A} (l : list A) : sliceIterator A := mkSliceIterator l zero.

Definition slice_next `{GoZero A} (i : sliceIterator A) : bool * sliceIterator A :=
  match sl_list i with
  | x :: l => (true, mkSliceIterator l x)
  | [] => (false, mkSliceIterator [] zero)
  end.

Global Instance sliceIterator_iter `{GoZero A} : Iterator (sliceIterator A) A := {|
  Next := slice_next;
  At := sl_cur;
  Err _ := None;
  Close s := (None, s);
  remaining s := length (sl_list s)
|}.

Global Instance sliceIterator_ok `{GoZero A} : IteratorOk (sliceIterator A) A.
Proof. intros [[|x l] c] s'; simpl; intros [= <-]; simpl; lia. Qed.

Lemma slice_yields `{GoZero A} (l : list A) c :
  yields (mkSliceIterator l c) l (mkSliceIterator [] zero).
Proof.
  revert c. induction l as [|x l IH]; intros c; [by constructor|].
  by apply (yields_step _ (mkSliceIterator l x)).
Qed.

(** [Seek] of [sliceSeekIterator], on ordered values: a binary search. *)
Definition slice_seek (i : sliceIterator N) (x : N) : bool * sliceIterator N :=
  if (x <=? sl_cur i)%N then (true, i)
  else match sl_list i with
  | [] => (false, i)
  | l =>
      let pos := search (length l) (ge_test x l) in
      match l !! pos with
      | Some y => (true, mkSliceIterator (drop (S pos) l) y)
      | None => (false, mkSliceIterator [] (sl_cur i))
      end
  end.

(** ** Consumers *)

(** [Slice]: the loop with the error the iterator ends with. *)
Fixpoint slice_loop {St A} `{Iterator St A} (fuel : nat) (s : St) (acc : list A) : list A * St :=
  match fuel with
  | O => (acc, s)
  | S fuel =>
      match Next s with
      | (true, s') => slice_loop fuel s' (acc ++ [At s'])
      | (false, s') => (acc, s')
      end
  end.

Definition IterSlice {St A} `{Iterator St A} (s : St) : list A * option string :=
  let '(l, s') := slice_loop (S (remaining s)) s [] in (l, Err s').

(** [CloneN]: a slice iterator is cloned from its remaining list, any other is
    drained first; an error of the drained iterator is returned. *)
Definition CloneN_slice `{GoZero A} (s : sliceIterator A) (n : nat) : list (sliceIterator A) :=
  replicate n (NewSliceIterator (sl_list s)).

Definition CloneN {St A} `{Iterator St A, GoZero A} (s : St) (n : nat) : outcome (list (sliceIterator A)) :=
  match IterSlice s with
  | (_, Some e) => Fail e
  | (l, None) => Ret (replicate n (NewSliceIterator l))
  end.

(** [ReadBatch]: [fn] is called with each batch, in a state of the caller. *)
Fixpoint build_batch {St A} `{Iterator St A} (fuel : nat) (size : nat) (s : St) (batch : list A) : list A * St :=
  match fuel with
  | O => (batch, s)
  | S fuel =>
      match Next s with
      | (true, s') =>
          let batch' := batch ++ [At s'] in
          if (size <=? length batch')%nat then (batch', s') else build_batch fuel size s' batch'
      | (false, s') => (batch, s')
      end
  end.

Fixpoint ReadBatch_loop {St A W} `{Iterator St A} (fuel : nat) (size : nat)
    (fn : W → list A → option string * W) (s : St) (w : W) : option string * W :=
  match fuel with
  | O => (None, w)
  | S fuel =>
      let '(batch, s') := build_batch (S (remaining s)) size s [] in
      match Err s' with
      | Some e => (Some e, w)
      | None =>
          match batch with
          | [] => (None, w)
          | _ =>
              match fn w batch with
              | (Some e, w') => (Some e, w')
              | (None, w') => ReadBatch_loop fuel size fn s' w'
              end
          end
      end
  end.

Definition ReadBatch {St A W} `{Iterator St A} (size : nat)
    (fn : W → list A → option string * W) (s : St) (w : W) : option string * W :=
  ReadBatch_loop (S (remaining s)) size fn s w.

(** ** TimeRangedIterator *)

Record TimeRanged (St : Type) := mkTimeRanged { tr_it : St; tr_min : Z; tr_max : Z }.
Arguments mkTimeRanged {St} _ _ _.
Arguments tr_it {St} _.
Arguments tr_min {St} _.
Arguments tr_max {St} _.

Section TimeRanged.
Context {St T : Type} `{Iterator St T} (Timestamp : T → Z).

Definition NewTimeRangedIterator (s : St) (mn mx : Z) : TimeRanged St := mkTimeRanged s mn mx.

Fixpoint ranged_loop (fuel : nat) (s : St) (mn mx : Z) : bool * St :=
  match fuel with
  | O => (false, s)
  | S fuel =>
      match Next s with
      | (false, s') => (false, s')
      | (true, s') =>
          if (Timestamp (At s') <? mn)%Z then ranged_loop fuel s' mn mx
          else if (mx <? Timestamp (At s'))%Z then (false, s')
          else (true, s')
      end
  end.

Definition ranged_next (t : TimeRanged St) : bool * TimeRanged St :=
  let '(b, s') := ranged_loop (S (remaining (tr_it t))) (tr_it t) (tr_min t) (tr_max t) in
  (b, mkTimeRanged s' (tr_min t) (tr_max t)).

Definition ranged_iter : Iterator (TimeRanged St) T := {|
  Next := ranged_next;
  At t := At (tr_it t);
  Err t := Err (tr_it t);
  Close t := let '(e, s') := Close (tr_it t) in (e, mkTimeRanged s' (tr_min t) (tr_max t));
  remaining t := remaining (tr_it t)
|}.
End TimeRanged.

(** ** SortIterator *)

(** A profile of the merge: what [Less] looks at. *)
Class Profile (P : Type) := { p_timestamp : P → Z; p_labels : P → Labels }.

Record SortIterator (St P : Type) := mkSortIterator { so_heap : list St; so_errs : list string; so_curr : P }.
Arguments mkSortIterator {St P} _ _ _.
Arguments so_heap {St P} _.
Arguments so_errs {St P} _.
Arguments so_curr {St P} _.

Section SortIterator.
Context {St P : Type} `{Iterator St P, Profile P, GoZero P}.
(** [multierror.New(errs...).Err()] of dskit. *)
Context (multierror : list string → option string).

(** [Less] on the profiles two iterators are at. *)
Definition profile_less (p1 p2 : P) : bool :=
  if (p_timestamp p1 =? p_timestamp p2)%Z
  then (CompareLabelPairs (p_labels p1) (p_labels p2) <? 0)%Z
  else (p_timestamp p1 <? p_timestamp p2)%Z.

Definition iter_less (s1 s2 : St) : bool := profile_less (At s1) (At s2).

Definition error_list (e : option string) : list string :=
  match e with Some e => [e] | None => [] end.

(** The errors of an iterator that is done: [Err] and then [Close]. *)
Definition done_errors (s : St) : list string := error_list (Err s) ++ error_list (Close s).1.

Definition requeue (h : list St) (errs : list string) (ei : St) : list St * list string :=
  match Next ei with
  | (true, ei') => (heap_push iter_less ei' h, errs)
  | (false, ei') => (h, errs ++ done_errors ei')
  end.

Fixpoint requeue_all (h : list St) (errs : list string) (iters : list St) : list St * list string :=
  match iters with
  | [] => (h, errs)
  | it :: iters => let '(h', errs') := requeue h errs it in requeue_all h' errs' iters
  end.

Definition NewSortProfileIterator (iters : list St) : SortIterator St P :=
  let '(h, errs) := requeue_all [] [] iters in mkSortIterator h errs zero.

Definition sort_next (s : SortIterator St P) : bool * SortIterator St P :=
  match heap_pop iter_less (so_heap s) with
  | None => (false, s)
  | Some (next, h) =>
      let '(h', errs') := requeue h (so_errs s) next in
      (true, mkSortIterator h' errs' (At next))
  end.

(** [Close] closes every queued iterator, ignoring what [Close] returns, and
    collects their errors. *)
Definition sort_close (s : SortIterator St P) : option string * SortIterator St P :=
  let closed := (λ it, (Close it).2) <$> so_heap s in
  let errs := so_errs s ++ concat ((λ it, error_list (Err it)) <$> closed) in
  (multierror errs, mkSortIterator closed errs (so_curr s)).

Definition sort_iter : Iterator (SortIterator St P) P := {|
  Next := sort_next;
  At := so_curr;
  Err s := multierror (so_errs s);
  Close := sort_close;
  remaining s := sum_list ((λ it, S (remaining it)) <$> so_heap s)
|}.
End SortIterator.

(** * Lemmas *)

Lemma slice_seek_spec (l : list N) (c x : N) :
  StronglySorted N.le l →
  slice_seek (mkSliceIterator l c) x =
    if (x <=? c)%N then (true, mkSliceIterator l c)
    else match drop_lt x l with
         | y :: l' => (true, mkSliceIterator l' y)
         | [] => (false, mkSliceIterator [] c)
         end.
Proof.
  intros Hs. unfold slice_seek. simpl. case_if_eq; [done|]. destruct l as [|z l]; [done|].
  rewrite <-(search_drop_lt x (z :: l) Hs).
  set (pos := search _ _). destruct ((z :: l) !! pos) as [y|] eqn:Ey.
  - by rewrite (drop_S _ _ _ Ey).
  - apply lookup_ge_None in Ey. by rewrite drop_ge.
Qed.

Section Consumers.
Context {St A : Type} `{Iterator St A, !IteratorOk St A}.

Lemma slice_loop_spec fuel s l e acc :
  yields s l e → length l < fuel → slice_loop fuel s acc = (acc ++ l, e).
Proof.
  intros Hy. revert fuel acc. induction Hy as [s s' Hn|s s' l e Hn Hy IH]; intros fuel acc Hf;
    destruct fuel as [|fuel]; simpl in *; try lia; rewrite Hn.
  - by rewrite (right_id_L [] (++)).
  - rewrite IH by lia. by rewrite <-(assoc_L (++)).
Qed.

Lemma IterSlice_spec s l e : yields s l e → IterSlice s = (l, Err e).
Proof.
  intros Hy. unfold IterSlice. erewrite slice_loop_spec; [|done|]; [done|].
  apply yields_length in Hy. lia.
Qed.

(** An iterator whose intermediate states carry no error. *)
Inductive clean : St → list A → St → Prop :=
| clean_nil s s' : Next s = (false, s') → clean s [] s'
| clean_cons s s' l s'' : Next s = (true, s') → Err s' = None → clean s' l s'' → clean s (At s' :: l) s''.

Lemma clean_yields s l e : clean s l e → yields s l e.
Proof. induction 1; by econstructor. Qed.


(** A batch is a prefix of what the iterator yields, and the iterator goes on
    after it. *)
Lemma build_batch_spec fuel size s l e acc :
  clean s l e → length l < fuel → length acc < size →
  ∃ k s', build_batch fuel size s acc = (acc ++ take k l, s') ∧
    ((k = size - length acc ∧ k ≤ length l ∧ Err s' = None ∧ clean s' (drop k l) e) ∨
     (length l < size - length acc ∧ k = length l ∧ s' = e)).
Proof.
  intros Hy. revert fuel acc. induction Hy as [s s' Hn|s s' l e Hn He Hy IH]; intros fuel acc Hf Hs;
    destruct fuel as [|fuel]; simpl in *; try lia; rewrite Hn.
  - exists 0, s'. simpl. rewrite (right_id_L [] (++)). split; [done|]. right. split_and!; [lia|done|done].
  - rewrite length_app. simpl. destruct (Nat.leb_spec size (length acc + 1)).
    + exists 1, s'. simpl. split; [done|]. left. split_and!; [lia|lia|done|done].
    + destruct (IH fuel (acc ++ [At s'])) as (k & s2 & -> & Hk); [lia|rewrite length_app; simpl; lia|].
      rewrite length_app in Hk. simpl in Hk.
      exists (S k), s2. simpl. rewrite <-(assoc_L (++)). split; [done|].
      destruct Hk as [(?&?&?&?)|(?&?&?)]; [left|right]; (split_and!; [lia|lia|done..]).
Qed.
End Consumers.

Lemma slice_clean `{GoZero A} (l : list A) c :
  clean (mkSliceIterator l c) l (mkSliceIterator [] zero).
Proof.
  revert c. induction l as [|x l IH]; intros c; [by constructor|].
  pose proof (clean_cons (mkSliceIterator (x :: l) c) (mkSliceIterator l x) l (mkSliceIterator [] zero)) as Hc.
  by apply Hc.
Qed.

(** The batches of a list, [size] elements each but the last. *)
Fixpoint chunks_aux {A} (fuel size : nat) (l : list A) : list (list A) :=
  match fuel, l with
  | S fuel, _ :: _ => take size l :: chunks_aux fuel size (drop size l)
  | _, _ => []
  end.
Definition chunks {A} (size : nat) (l : list A) : list (list A) := chunks_aux (length l) size l.

(** Only the complete batches. *)
Definition full_chunks {A} (size : nat) (l : list A) : list (list A) :=
  filter (λ b, length b = size) (chunks size l).

Lemma chunks_unfold {A} size (l : list A) :
  0 < size → l ≠ [] → chunks size l = take size l :: chunks size (drop size l).
Proof.
  intros Hs Hne. unfold chunks.
  assert (Hfuel : ∀ f1 f2 (k : list A), length k ≤ f1 → length k ≤ f2 → chunks_aux f1 size k = chunks_aux f2 size k).
  { intros f1. induction f1 as [|f1 IH]; intros f2 k H1 H2; destruct k as [|x k], f2 as [|f2]; simpl in *; try lia; try done.
    f_equal. apply IH; rewrite length_drop; simpl; lia. }
  destruct l as [|x l]; [done|]. simpl. f_equal. apply Hfuel; rewrite length_drop; simpl; lia.
Qed.

Lemma chunks_concat {A} size (l : list A) : 0 < size → concat (chunks size l) = l.
Proof.
  intros Hs. remember (length l) as n eqn:En. revert l En.
  induction n as [n IH] using (well_founded_induction lt_wf). intros l ->.
  destruct l as [|x l]; [done|]. rewrite chunks_unfold by done. cbn [concat].
  rewrite (IH (length (drop size (x :: l)))); [by rewrite take_drop| |done].
  rewrite length_drop. simpl. lia.
Qed.

(** Calls [fn] on successive batches until it fails. *)
Fixpoint feed {A W} (fn : W → list A → option string * W) (w : W) (bs : list (list A)) : option string * W :=
  match bs with
  | [] => (None, w)
  | b :: bs =>
      match fn w b with
      | (Some e, w') => (Some e, w')
      | (None, w') => feed fn w' bs
      end
  end.

(** [ReadBatch] reads an iterator to its end: it calls [fn] with the
    consecutive batches of exactly [size] elements (the last one shorter) until
    [fn] fails, whose error it returns; if the iterator ends with an error, that
    error is returned, after the complete batches and without the incomplete one. *)
Theorem ReadBatch_batches {St A W : Type} `{Iterator St A, !IteratorOk St A} (size : nat)
    (fn : W → list A → option string * W) (s : St) (l : list A) (e : St) (w : W) :
  0 < size → clean s l e → Next e = (false, e) →
  let batches := match Err e with None => chunks size l | Some _ => full_chunks size l end in
  ReadBatch size fn s w =
    match feed fn w batches with
    | (Some er, w') => (Some er, w')
    | (None, w') => (Err e, w')
    end.
Proof.
  intros Hsize Hc Hend. unfold ReadBatch.
  pose proof (yields_length _ _ _ (clean_yields _ _ _ Hc)) as Hlen.
  assert (Hfuel : length l < S (remaining s)) by lia. clear Hlen.
  revert Hc Hfuel. generalize (S (remaining s)) as fuel. intros fuel. revert s l w.
  induction fuel as [|fuel IH]; intros s l w Hc Hf; [lia|]. simpl.
  pose proof (yields_length _ _ _ (clean_yields _ _ _ Hc)) as Hlen.
  destruct (build_batch_spec (S (remaining s)) size s l e [] Hc) as (k & s' & Hb & Hk); [lia|simpl; lia|].
  simpl in Hb. rewrite Hb. simpl in Hk. rewrite Nat.sub_0_r in Hk.
  destruct Hk as [(-> & Hkl & He & Hc')|(Hlt & -> & ->)].
  - rewrite He. destruct l as [|x l]; [simpl in Hkl; lia|].
    assert (chunks size (x :: l) = take size (x :: l) :: chunks size (drop size (x :: l))) as Hch
      by (by apply chunks_unfold).
    assert (full_chunks size (x :: l) = take size (x :: l) :: full_chunks size (drop size (x :: l))) as Hfch.
    { unfold full_chunks. rewrite Hch, filter_cons_True; [done|]. rewrite length_take. lia. }
    specialize (IH s' (drop size (x :: l))). rewrite Hch, Hfch.
    destruct (take size (x :: l)) as [|y b] eqn:Et; [destruct size; simpl in Et; [lia|done]|].
    destruct (Err e); cbn [feed]; destruct (fn w (y :: b)) as [[er|] w']; try done;
      (rewrite IH; [done|done|rewrite length_drop; simpl in *; lia]).
  - rewrite firstn_all. destruct (Err e) as [er|] eqn:He.
    + assert (full_chunks size l = []) as ->; [|done].
      unfold full_chunks. destruct l as [|x l]; [done|].
      rewrite chunks_unfold by done. rewrite firstn_all2 by lia. rewrite drop_ge by lia.
      rewrite filter_cons_False by lia. done.
    + destruct l as [|x l]; [done|]. rewrite chunks_unfold by done.
      rewrite firstn_all2 by lia. rewrite drop_ge by lia. cbn [feed].
      destruct (fn w (x :: l)) as [[er|] w']; [done|].
      destruct fuel as [|fuel]; [simpl in Hf; lia|]. simpl. by rewrite Hend, He.
Qed.

Lemma ReadBatch_batches_witness :
  ReadBatch (A := N) 2 (λ w b, (None, w ++ [b])) (NewSliceIterator [1; 2; 3; 4; 5]%N) [] =
    (None, [[1; 2]; [3; 4]; [5]]%N).
Proof.
  etransitivity; [apply (ReadBatch_batches (A := N) 2 _ _ [1; 2; 3; 4; 5]%N (mkSliceIterator [] 0%N) []); [lia| |done]|done].
  apply slice_clean.
Defined.

(** ** Time ranges *)

Section TimeRangedLemmas.
Context {St T : Type} `{Iterator St T, !IteratorOk St T} (Timestamp : T → Z).

Definition in_range (mn mx : Z) (x : T) : Prop := (mn ≤ Timestamp x ≤ mx)%Z.

Global Instance in_range_dec mn mx x : Decision (in_range mn mx x).
Proof. unfold in_range. apply _. Defined.

(** The loop of [Next] ends before its fuel, on every branch. *)
Lemma ranged_loop_cases fuel s mn mx l e :
  yields s l e → length l < fuel →
  (∃ l1 x l2 s', l = l1 ++ x :: l2 ∧ Forall (λ y, (Timestamp y < mn)%Z) l1 ∧ in_range mn mx x ∧
     ranged_loop Timestamp fuel s mn mx = (true, s') ∧ At s' = x ∧ yields s' l2 e ∧ remaining s' < remaining s) ∨
  (∃ s', ranged_loop Timestamp fuel s mn mx = (false, s') ∧
     ∃ l1 l2, l = l1 ++ l2 ∧ Forall (λ y, (Timestamp y < mn)%Z) l1 ∧
       match l2 with [] => s' = e | x :: _ => (mn ≤ Timestamp x)%Z ∧ (mx < Timestamp x)%Z end).
Proof.
  intros Hy. revert fuel. induction Hy as [s s' Hn|s s' l e Hn Hy IH]; intros [|fuel] Hf; simpl in *; try lia; rewrite Hn.
  - right. exists s'. split; [done|]. by exists [], [].
  - pose proof (next_decreases _ _ Hn). destruct (Z.ltb_spec (Timestamp (At s')) mn).
    + destruct (IH fuel) as [(l1&x&l2&s2&->&Hl1&Hx&->&?&?&?)|(s2&->&l1&l2&->&Hl1&Hm)]; [lia|left|right].
      * exists (At s' :: l1), x, l2, s2. split_and!; auto. lia.
      * exists s2. split; [done|]. exists (At s' :: l1), l2. split_and!; auto.
    + destruct (Z.ltb_spec mx (Timestamp (At s'))); [right|left].
      * exists s'. split; [done|]. exists [], (At s' :: l). split_and!; auto.
      * exists [], (At s'), l, s'. unfold in_range. split_and!; auto.
Qed.

Lemma ranged_next_eq s mn mx b s' :
  ranged_loop Timestamp (S (remaining s)) s mn mx = (b, s') →
  ranged_next Timestamp (mkTimeRanged s mn mx) = (b, mkTimeRanged s' mn mx).
Proof. unfold ranged_next. cbn [tr_it tr_min tr_max]. by intros ->. Qed.

Lemma ranged_iter_ok : @IteratorOk (TimeRanged St) T (ranged_iter Timestamp).
Proof.
  intros [s mn mx] [s' mn' mx']. simpl. unfold ranged_next. simpl tr_it.
  destruct (yields_total s) as (l & e & Hy). pose proof (yields_length _ _ _ Hy).
  destruct (ranged_loop_cases (S (remaining s)) s mn mx l e Hy) as [(?&?&?&s2&_&_&_&Hr&_&_&?)|(s2&Hr&_)];
    [lia| |]; simpl tr_min; simpl tr_max; rewrite Hr; intros [=]; by subst.
Qed.
(** What precedes the first element later than [mx]. *)
Fixpoint until (mx : Z) (l : list T) : list T :=
  match l with
  | [] => []
  | x :: l => if (mx <? Timestamp x)%Z then [] else x :: until mx l
  end.

Lemma until_app mx l1 l2 : Forall (λ x, Timestamp x ≤ mx)%Z l1 → until mx (l1 ++ l2) = l1 ++ until mx l2.
Proof.
  induction 1 as [|x l1 Hx _ IH]; simpl; [done|]. destruct (Z.ltb_spec mx (Timestamp x)); [lia|]. by rewrite IH.
Qed.

Lemma until_sorted mx mn l :
  StronglySorted (λ x y, Timestamp x ≤ Timestamp y)%Z l →
  filter (in_range mn mx) (until mx l) = filter (in_range mn mx) l.
Proof.
  induction 1 as [|x l Hs IH Hx]; simpl; [done|]. destruct (Z.ltb_spec mx (Timestamp x)) as [Hlt|].
  - symmetry. apply filter_none. rewrite Forall_forall in Hx. unfold in_range.
    intros y [->|Hy]%elem_of_cons; [lia|]. apply Hx in Hy. lia.
  - rewrite !filter_cons. by rewrite IH.
Qed.

Lemma filter_skip_lt mn mx l1 l2 :
  Forall (λ x, Timestamp x < mn)%Z l1 → filter (in_range mn mx) (until mx (l1 ++ l2)) = filter (in_range mn mx) (until mx l2).
Proof.
  intros Hl1. destruct (decide (mn ≤ mx)%Z) as [Hmn|Hmn].
  2: { rewrite !filter_none; [done|..]; unfold in_range; lia. }
  rewrite until_app, filter_app.
  - rewrite (filter_none _ l1); [done|]. rewrite Forall_forall in Hl1. unfold in_range. intros y Hy. apply Hl1 in Hy. lia.
  - eapply Forall_impl; [done|]. simpl. lia.
Qed.

(** In any order: the elements in range before the first later one. *)
Lemma ranged_yields s l e mn mx :
  yields s l e →
  ∃ e', @yields _ _ (ranged_iter Timestamp) (NewTimeRangedIterator s mn mx) (filter (in_range mn mx) (until mx l)) e'.
Proof.
  remember (length l) as n eqn:En. revert s l En. induction n as [n IH] using (well_founded_induction lt_wf).
  intros s l -> Hy. pose proof (yields_length _ _ _ Hy).
  destruct (ranged_loop_cases (S (remaining s)) s mn mx l e Hy)
    as [(l1&x&l2&s'&->&Hl1&Hx&Hr&Hat&Hy2&_)|(s'&Hr&l1&l2&->&Hl1&Hl2)]; [lia| |].
  - destruct (IH (length l2)) with (s := s') (l := l2) as [e' He']; [rewrite length_app; simpl; lia|done|done|].
    exists e'. rewrite filter_skip_lt by done. simpl. destruct (Z.ltb_spec mx (Timestamp x)); [destruct Hx; lia|].
    rewrite filter_cons_True by done.
    eapply (yields_step _ (mkTimeRanged s' mn mx)); [by apply ranged_next_eq|exact Hat|exact He'].
  - exists (mkTimeRanged s' mn mx). rewrite filter_skip_lt by done.
    replace (filter (in_range mn mx) (until mx l2)) with (@nil T); [apply yields_nil; by apply ranged_next_eq|].
    destruct l2 as [|z l2]; [done|]. destruct Hl2 as [_ Hz]. simpl. destruct (Z.ltb_spec mx (Timestamp z)); [done|lia].
Qed.
End TimeRangedLemmas.

(** Over an iterator in ascending time, [TimeRangedIterator] yields exactly
    the elements whose timestamp lies between [min] and [max] inclusive, in
    order, skipping the earlier ones and stopping at the first later one; its
    inner loop always terminates. *)
Theorem TimeRanged_filters {St T : Type} `{Iterator St T, !IteratorOk St T} (Timestamp : T → Z)
    (s : St) (l : list T) (e : St) (mn mx : Z) :
  yields s l e → StronglySorted (λ x y, Timestamp x ≤ Timestamp y)%Z l →
  ∃ e', @yields _ _ (ranged_iter Timestamp) (NewTimeRangedIterator s mn mx)
    (filter (in_range Timestamp mn mx) l) e'.
Proof.
  intros Hy Hs. destruct (ranged_yields Timestamp s l e mn mx Hy) as [e' He'].
  exists e'. by rewrite <- (until_sorted Timestamp mx mn l Hs).
Qed.

Lemma TimeRanged_filters_witness :
  ∃ e', @yields _ _ (ranged_iter (St := sliceIterator Z) id)
    (NewTimeRangedIterator (NewSliceIterator [1; 3; 5; 7; 9]%Z) 3 7) [3; 5; 7]%Z e'.
Proof.
  apply (TimeRanged_filters (T := Z) id (NewSliceIterator [1; 3; 5; 7; 9]%Z) [1; 3; 5; 7; 9]%Z (mkSliceIterator [] 0%Z) 3 7).
  - apply slice_yields.
  - repeat constructor; simpl; lia.
Defined.

(** ** The k-way merge *)

Lemma CompareLabelPairs_le_trans a b c :
  (CompareLabelPairs a b ≤ 0)%Z → (CompareLabelPairs b c ≤ 0)%Z → (CompareLabelPairs a c ≤ 0)%Z.
Proof.
  intros H1 H2.
  destruct (decide (CompareLabelPairs a b = 0%Z)) as [->%CompareLabelPairs_zero|]; [done|].
  destruct (decide (CompareLabelPairs b c = 0%Z)) as [<-%CompareLabelPairs_zero|]; [done|].
  pose proof (CompareLabelPairs_trans a b c). lia.
Qed.

Lemma profile_hle `{Profile P} (a b : P) :
  hle profile_less a b ↔
    (p_timestamp a < p_timestamp b)%Z ∨
    (p_timestamp a = p_timestamp b ∧ (CompareLabelPairs (p_labels a) (p_labels b) ≤ 0)%Z).
Proof.
  unfold hle, profile_less. rewrite (CompareLabelPairs_opp (p_labels a)).
  destruct (Z.eqb_spec (p_timestamp b) (p_timestamp a)); rewrite Z.ltb_ge; lia.
Qed.

Global Instance profile_less_weak `{Profile P} : WeakOrder (profile_less (P := P)).
Proof.
  split.
  - intros a. apply profile_hle. right. split; [done|]. by rewrite (proj2 (CompareLabelPairs_zero _ _)).
  - intros a b c. rewrite !profile_hle. intros [?|[? Hab]] [?|[? Hbc]]; [left; lia..|].
    right. split; [lia|]. by eapply CompareLabelPairs_le_trans.
  - intros a b. rewrite !profile_hle, (CompareLabelPairs_opp (p_labels a) (p_labels b)). lia.
Qed.

Global Instance iter_less_weak `{Iterator St P, Profile P} : WeakOrder (iter_less (St := St) (P := P)).
Proof.
  split; unfold iter_less, hle.
  - intros a. apply (hle_refl profile_less).
  - intros a b c. apply (hle_trans profile_less).
  - intros a b. apply (hle_total profile_less).
Qed.

Section SortLemmas.
Context {St P : Type} `{Iterator St P, Profile P, GoZero P}.
Context (multierror : list string → option string).
(** Any transitive order the merge order refines: the full key, or the
    timestamp alone. *)
Context (R : relation P) `{!Transitive R} (R_le : ∀ a b : P, hle profile_less a b → R a b).

(** An input of the merge: its state, what it yields, and where it ends. *)
Record run := mkRun { r_it : St; r_list : list P; r_end : St }.

(** An iterator in the heap has been advanced: it is at its first value. *)
Definition positioned (r : run) : Prop :=
  StronglySorted R (r_list r) ∧
  match r_list r with
  | [] => False
  | x :: l => At (r_it r) = x ∧ yields (r_it r) l (r_end r)
  end.

Definition end_errors (rs : list run) : list string := concat ((λ r, done_errors (r_end r)) <$> rs).
Definition all_values (rs : list run) : list P := concat (r_list <$> rs).

Lemma all_values_perm rs1 rs2 : rs1 ≡ₚ rs2 → all_values rs1 ≡ₚ all_values rs2.
Proof. intros Hp. unfold all_values. by rewrite Hp. Qed.

Lemma end_errors_perm rs1 rs2 : rs1 ≡ₚ rs2 → end_errors rs1 ≡ₚ end_errors rs2.
Proof. intros Hp. unfold end_errors. by rewrite Hp. Qed.

(** One [requeue] of an iterator that will yield [l] keeps the heap, the values
    still to come and the errors still to be reported. *)
Lemma requeue_spec h rs errs s l e :
  is_heap iter_less h → h ≡ₚ r_it <$> rs → Forall positioned rs →
  yields s l e → StronglySorted R l →
  ∃ h' errs' rs', requeue h errs s = (h', errs') ∧ is_heap iter_less h' ∧ h' ≡ₚ r_it <$> rs' ∧
    Forall positioned rs' ∧ all_values rs' ≡ₚ l ++ all_values rs ∧
    errs' ++ end_errors rs' ≡ₚ errs ++ done_errors e ++ end_errors rs.
Proof.
  intros Hh Hp Hrs Hy Hs. unfold requeue. inversion Hy as [? ? Hn|? s' l' ? Hn Hy']; subst; rewrite Hn.
  - exists h, (errs ++ done_errors e), rs. split_and!; try done. by rewrite <-(assoc_L (++)).
  - exists (heap_push iter_less s' h), errs, (mkRun s' (At s' :: l') e :: rs).
    split_and!; [done|by apply heap_push_heap; [apply _|]| | |done|].
    + rewrite heap_push_perm, Hp. done.
    + constructor; [|done]. by split.
    + done.
Qed.

Lemma requeue_all_spec ins h errs rs :
  is_heap iter_less h → h ≡ₚ r_it <$> rs → Forall positioned rs →
  Forall (λ r, yields (r_it r) (r_list r) (r_end r) ∧ StronglySorted R (r_list r)) ins →
  ∃ h' errs' rs', requeue_all h errs (r_it <$> ins) = (h', errs') ∧ is_heap iter_less h' ∧ h' ≡ₚ r_it <$> rs' ∧
    Forall positioned rs' ∧ all_values rs' ≡ₚ all_values ins ++ all_values rs ∧
    errs' ++ end_errors rs' ≡ₚ errs ++ end_errors ins ++ end_errors rs.
Proof.
  revert h errs rs. induction ins as [|r ins IH]; intros h errs rs Hh Hp Hrs Hins; csimpl.
  { exists h, errs, rs. split_and!; done. }
  apply Forall_cons in Hins as [[Hy Hs] Hins].
  destruct (requeue_spec h rs errs _ _ _ Hh Hp Hrs Hy Hs) as (h1 & errs1 & rs1 & -> & Hh1 & Hp1 & Hrs1 & Hv1 & He1).
  destruct (IH h1 errs1 rs1 Hh1 Hp1 Hrs1 Hins) as (h2 & errs2 & rs2 & -> & Hh2 & Hp2 & Hrs2 & Hv2 & He2).
  exists h2, errs2, rs2. split_and!; try done.
  - rewrite Hv2, Hv1. unfold all_values at 3. csimpl. fold (all_values ins).
    rewrite !(assoc_L (++)). apply Permutation_app_tail, Permutation_app_comm.
  - rewrite He2. unfold end_errors at 3. csimpl. fold (end_errors ins).
    rewrite (Permutation_app_comm (end_errors ins)), (assoc_L (++) errs1), He1.
    rewrite <-!(assoc_L (++)). apply Permutation_app_head, Permutation_app_head, Permutation_app_comm.
Qed.

(** The merge from a heap of positioned iterators. *)
Lemma sort_run h rs errs curr :
  is_heap iter_less h → h ≡ₚ r_it <$> rs → Forall positioned rs →
  ∃ out e, @yields _ _ (sort_iter multierror) (mkSortIterator h errs curr) out e ∧
    out ≡ₚ all_values rs ∧ StronglySorted R out ∧ so_errs e ≡ₚ errs ++ end_errors rs.
Proof.
  remember (length (all_values rs)) as n eqn:En. revert h rs errs curr En.
  induction n as [n IH] using (well_founded_induction lt_wf). intros h rs errs curr -> Hh Hp Hrs.
  destruct (decide (h = [])) as [->|Hne].
  { destruct rs; [|by apply Permutation_nil_l in Hp].
    exists [], (mkSortIterator [] errs curr). split_and!; [by apply yields_nil|done|apply SSorted_nil|unfold end_errors; simpl; by rewrite (right_id_L [] (++))]. }
  destruct (heap_pop_spec iter_less h Hh Hne) as (a & h' & Hpop & _ & Hh' & Hph & Hmin).
  assert (∃ r rs', rs ≡ₚ r :: rs' ∧ r_it r = a ∧ h' = r_it <$> rs') as (r & rs' & Hprs & <- & ->).
  { rewrite Hph in Hp. apply Permutation_map_inv in Hp as ([|r rs'] & Heq & Hprs); [done|].
    simplify_eq/=. by exists r, rs'. }
  rewrite Hprs in Hrs. apply Forall_cons in Hrs as [[Hsr Hr] Hrs'].
  destruct (r_list r) as [|x l] eqn:Hl; [done|]. destruct Hr as [Hat Hy].
  pose proof Hsr as Hsr2. apply StronglySorted_cons in Hsr as [Hx Hsl].
  destruct (requeue_spec (r_it <$> rs') rs' errs _ _ _ Hh' (Permutation_refl _) Hrs' Hy Hsl)
    as (h2 & errs2 & rs2 & Hrq & Hh2 & Hp2 & Hrs2 & Hv2 & He2).
  assert (Hvals : all_values rs ≡ₚ x :: all_values rs2).
  { rewrite Hv2, (all_values_perm _ _ Hprs). unfold all_values. csimpl. by rewrite Hl. }
  destruct (IH (length (all_values rs2))) with (h := h2) (rs := rs2) (errs := errs2) (curr := x)
    as (out & e & Hyo & Hpo & Hso & Heo); [rewrite Hvals; simpl; lia|done..|].
  exists (x :: out), e. split_and!.
  - eapply (yields_step _ (mkSortIterator h2 errs2 x)); [|done|done].
    simpl. unfold sort_next. simpl. by rewrite Hpop, Hrq, Hat.
  - by rewrite Hpo, Hvals.
  - apply StronglySorted_cons. split; [|done]. rewrite Hpo, Hv2. apply Forall_app. split; [done|].
    apply Forall_concat, Forall_fmap. rewrite Forall_forall in Hrs' |- *. intros r' Hr'.
    destruct (Hrs' r' Hr') as [Hsr' Hr'2]. simpl. destruct (r_list r') as [|y l'] eqn:Hl'; [done|].
    destruct Hr'2 as [Hat' _].
    assert (R x y).
    { apply R_le. rewrite <-Hat, <-Hat'. apply (Hmin (r_it r')).
      rewrite Hph. right. by apply list_elem_of_fmap_2. }
    apply StronglySorted_cons in Hsr' as [Hyl' _]. constructor; [done|].
    eapply Forall_impl; [done|]. intros z Hz. by transitivity y.
  - rewrite Heo, He2, (end_errors_perm _ _ Hprs). done.
Qed.
End SortLemmas.

(** The orders the merge is used with: by timestamp, and by the whole key. *)
Definition by_time `{Profile P} (a b : P) : Prop := (p_timestamp a ≤ p_timestamp b)%Z.
Definition by_key `{Profile P} : relation P := hle profile_less.

Global Instance by_time_trans `{Profile P} : Transitive (by_time (P := P)).
Proof. intros a b c. unfold by_time. lia. Qed.

Global Instance by_key_trans `{Profile P} : Transitive (by_key (P := P)).
Proof. intros a b c. apply (hle_trans profile_less). Qed.

Lemma by_key_time `{Profile P} (a b : P) : by_key a b → by_time a b.
Proof. unfold by_key, by_time. rewrite profile_hle. lia. Qed.

Lemma sort_iter_run {St P : Type} `{Iterator St P, Profile P, GoZero P} multierror
    (R : relation P) `{!Transitive R} (R_le : ∀ a b : P, hle profile_less a b → R a b) (ins : list (run (St := St))) :
  Forall (λ r, yields (r_it r) (r_list r) (r_end r) ∧ StronglySorted R (r_list r)) ins →
  ∃ out e, @yields _ _ (sort_iter multierror) (NewSortProfileIterator (r_it <$> ins)) out e ∧
    out ≡ₚ all_values ins ∧ StronglySorted R out ∧ so_errs e ≡ₚ end_errors ins.
Proof.
  intros Hins.
  destruct (requeue_all_spec R ins [] [] []) as (h & errs & rs & Hrq & Hh & Hp & Hrs & Hv & He);
    [apply is_heap_nil|done|done|done|].
  destruct (sort_run multierror R R_le h rs errs zero Hh Hp Hrs) as (out & e & Hy & Ho & Hs & Heo).
  exists out, e. unfold NewSortProfileIterator. rewrite Hrq. split_and!; [done| |done|].
  - rewrite Ho, Hv. unfold all_values at 2. simpl. by rewrite (right_id_L [] (++)).
  - rewrite Heo, He. simpl. unfold end_errors at 2. simpl. by rewrite (right_id_L [] (++)).
Qed.

(** The heap-based [SortIterator] merges any number of iterators that each
    yield profiles in time order: it yields every profile of every input exactly
    once, in time order, ends, and then holds exactly the errors the inputs
    ended or closed with.  When the inputs are ordered by timestamp and labels,
    so is the output. *)
Theorem SortIterator_merges {St P : Type} `{Iterator St P, Profile P, GoZero P} multierror (ins : list (run (St := St))) :
  Forall (λ r, yields (r_it r) (r_list r) (r_end r) ∧ StronglySorted by_time (r_list r)) ins →
  ∃ out e, @yields _ _ (sort_iter multierror) (NewSortProfileIterator (r_it <$> ins)) out e ∧
    out ≡ₚ all_values ins ∧ StronglySorted by_time out ∧ so_errs e ≡ₚ end_errors ins ∧
    (Forall (λ r, StronglySorted by_key (r_list r)) ins → StronglySorted by_key out).
Proof.
  intros Hins. destruct (sort_iter_run multierror by_time by_key_time ins Hins) as (out & e & Hy & Ho & Hs & He).
  exists out, e. split_and!; try done. intros Hk.
  destruct (sort_iter_run multierror by_key (λ a b H, H) ins) as (out2 & e2 & Hy2 & _ & Hs2 & _).
  { rewrite Forall_forall in Hins, Hk |- *. intros r Hr. split; [by apply Hins|by apply Hk]. }
  destruct (@yields_det _ _ (sort_iter multierror) _ _ _ _ _ Hy Hy2) as [-> _]. done.
Qed.

(** Profiles of the witness: a timestamp and labels. *)
Global Instance pair_profile : Profile (Z * Labels) := {| p_timestamp := fst; p_labels := snd |}.

Lemma SortIterator_merges_witness :
  ∃ out e, @yields _ _ (sort_iter (St := sliceIterator (Z * Labels)) (λ es, head es))
      (NewSortProfileIterator [NewSliceIterator [(1, []); (4, [])]%Z; NewSliceIterator [(2, []); (3, [])]%Z]) out e ∧
    out ≡ₚ [(1, []); (4, []); (2, []); (3, [])]%Z ∧ StronglySorted by_time out.
Proof.
  destruct (SortIterator_merges (St := sliceIterator (Z * Labels)) (λ es, head es)
    [mkRun (NewSliceIterator [(1, []); (4, [])]%Z) [(1, []); (4, [])]%Z (mkSliceIterator [] zero);
     mkRun (NewSliceIterator [(2, []); (3, [])]%Z) [(2, []); (3, [])]%Z (mkSliceIterator [] zero)])
    as (out & e & Hy & Ho & Hs & _).
  - repeat constructor; try apply slice_yields; unfold by_time; simpl; lia.
  - exists out, e. split_and!; [exact Hy|exact Ho|exact Hs].
Defined.
