(* ===== verification/Postings.v ===== *)
(** * Postings iterators (src/pkg/phlaredb/tsdb/index/postings.go)

    A postings list is a strictly increasing list of series references, read
    through [Next] and [Seek].  [PostingsOk] states what the combinators rely on
    and what they promise in turn: where an iterator stands in its list, and what
    each call makes of it.  Slices, big-endian byte lists, [Intersect], [Merge]
    and [Without] are instances, so any nesting of them is correct. *)

From S2P Require Import Prelude Labels GoHeap Iter.

Class SeekIterator (St B : Type) := Seek : St → B → bool * St.

(** ** Slices and errors *)

Global Instance slice_seekable : SeekIterator (sliceIterator N) N := slice_seek.
Global Instance err_seekable : SeekIterator errIterator N := λ s _, (false, s).

Definition NewSliceSeekIterator (l : list N) : sliceIterator N := NewSliceIterator l.
Definition EmptyPostings : sliceIterator N := NewSliceSeekIterator [].
Definition ErrPostings (e : string) : errIterator := NewErrIterator e.

Definition ExpandPostings {St} `{Iterator St N} (p : St) : list N * option string :=
  let '(res, p') := slice_loop (S (remaining p)) p [] in (res, Err p').

(** ** Big-endian byte lists *)

Record bigEndianPostings := mkBigEndian { be_list : list N; be_cur : N }.

Definition newBigEndianPostings (l : list N) : bigEndianPostings := mkBigEndian l 0.

Definition be_next (it : bigEndianPostings) : bool * bigEndianPostings :=
  if (4 <=? length (be_list it))%nat
  then (true, mkBigEndian (drop 4 (be_list it)) (of_be32 (be_list it)))
  else (false, it).

Definition be_seek (it : bigEndianPostings) (x : N) : bool * bigEndianPostings :=
  if (x <=? be_cur it)%N then (true, it)
  else
    let num := (length (be_list it) / 4)%nat in
    let i := search num (λ i, (u32 x <=? of_be32 (drop (i * 4) (be_list it)))%N) in
    if (i <? num)%nat then
      let j := (i * 4)%nat in
      (true, mkBigEndian (drop (j + 4) (be_list it)) (of_be32 (drop j (be_list it))))
    else (false, mkBigEndian [] (be_cur it)).

Global Instance be_iter : Iterator bigEndianPostings N := {|
  Next := be_next;
  At := be_cur;
  Err _ := None;
  Close s := (None, s);
  remaining s := (length (be_list s) / 4)%nat
|}.
Global Instance be_seekable : SeekIterator bigEndianPostings N := be_seek.

(** ** Dynamic dispatch: a value of the interface is one of two implementations *)

Global Instance sum_iter {S1 S2 A} `{Iterator S1 A, Iterator S2 A} : Iterator (S1 + S2) A := {|
  Next s := match s with
            | inl s => let '(b, s') := Next s in (b, inl s')
            | inr s => let '(b, s') := Next s in (b, inr s')
            end;
  At s := match s with inl s => At s | inr s => At s end;
  Err s := match s with inl s => Err s | inr s => Err s end;
  Close s := match s with
             | inl s => let '(e, s') := Close s in (e, inl s')
             | inr s => let '(e, s') := Close s in (e, inr s')
             end;
  remaining s := match s with inl s => remaining s | inr s => remaining s end
|}.

Global Instance sum_seekable {S1 S2 B} `{SeekIterator S1 B, SeekIterator S2 B} : SeekIterator (S1 + S2) B := λ s x,
  match s with
  | inl s => let '(b, s') := Seek s x in (b, inl s')
  | inr s => let '(b, s') := Seek s x in (b, inr s')
  end.

(** ** Intersect *)

Record intersectPostings (St : Type) := mkIntersect { ip_arr : list St; ip_cur : N }.
Arguments mkIntersect {St} _ _.
Arguments ip_arr {St} _.
Arguments ip_cur {St} _.

Section Intersect.
Context {St : Type} `{Iterator St N, SeekIterator St N}.

Definition newIntersectPostings (its : list St) : intersectPostings St := mkIntersect its 0.

Inductive pass := Exhausted | Raised (c : N) | Agreed.

(** The inner loop of [doNext]. *)
Fixpoint seek_pass (cur : N) (arr : list St) : list St * pass :=
  match arr with
  | [] => ([], Agreed)
  | p :: arr =>
      match Seek p cur with
      | (false, p') => (p' :: arr, Exhausted)
      | (true, p') =>
          if (cur <? At p')%N then (p' :: arr, Raised (At p'))
          else let '(arr', r) := seek_pass cur arr in (p' :: arr', r)
      end
  end.

Fixpoint doNext (fuel : nat) (it : intersectPostings St) : bool * intersectPostings St :=
  match fuel with
  | O => (false, it)
  | S fuel =>
      match seek_pass (ip_cur it) (ip_arr it) with
      | (arr, Exhausted) => (false, mkIntersect arr (ip_cur it))
      | (arr, Raised c) => doNext fuel (mkIntersect arr c)
      | (arr, Agreed) => (true, mkIntersect arr (ip_cur it))
      end
  end.

(** Every [continue Loop] raises [cur] to a later reference of one of the
    lists; there are at most this many. *)
Definition intersect_fuel (arr : list St) : nat := S (sum_list ((λ p, S (remaining p)) <$> arr)).

Fixpoint next_pass (cur : N) (arr : list St) : bool * list St * N :=
  match arr with
  | [] => (true, [], cur)
  | p :: arr =>
      match Next p with
      | (false, p') => (false, p' :: arr, cur)
      | (true, p') =>
          let '(b, arr', cur') := next_pass (if (cur <? At p')%N then At p' else cur) arr in
          (b, p' :: arr', cur')
      end
  end.

Definition intersect_next (it : intersectPostings St) : bool * intersectPostings St :=
  match next_pass (ip_cur it) (ip_arr it) with
  | (false, arr, cur) => (false, mkIntersect arr cur)
  | (true, arr, cur) => doNext (intersect_fuel arr) (mkIntersect arr cur)
  end.

Definition intersect_seek (it : intersectPostings St) (id : N) : bool * intersectPostings St :=
  doNext (intersect_fuel (ip_arr it)) (mkIntersect (ip_arr it) id).

Definition intersect_err (it : intersectPostings St) : option string :=
  foldr (λ p r, match Err p with Some e => Some e | None => r end) None (ip_arr it).

Fixpoint close_all (arr : list St) : option string * list St :=
  match arr with
  | [] => (None, [])
  | p :: arr =>
      match Close p with
      | (Some e, p') => (Some e, p' :: arr)
      | (None, p') => let '(e, arr') := close_all arr in (e, p' :: arr')
      end
  end.

Definition intersect_close (it : intersectPostings St) : option string * intersectPostings St :=
  let '(e, arr) := close_all (ip_arr it) in (e, mkIntersect arr (ip_cur it)).

Global Instance intersect_iter : Iterator (intersectPostings St) N := {|
  Next := intersect_next;
  At := ip_cur;
  Err := intersect_err;
  Close := intersect_close;
  remaining it := match ip_arr it with [] => 0 | p :: _ => S (remaining p) end
|}.
Global Instance intersect_seekable : SeekIterator (intersectPostings St) N := intersect_seek.

(** [Intersect]: comparing with a fresh [EmptyPostings()] compares two distinct
    pointers, so the early return on it is never taken. *)
Definition Intersect (its : list St) : sliceIterator N + (St + intersectPostings St) :=
  match its with
  | [] => inl EmptyPostings
  | [p] => inr (inl p)
  | _ => inr (inr (newIntersectPostings its))
  end.
End Intersect.

(** ** Merge *)

Record mergedPostings (St : Type) := mkMerged { mp_h : list St; mp_initialized : bool; mp_cur : N; mp_err : option string }.
Arguments mkMerged {St} _ _ _ _.
Arguments mp_h {St} _.
Arguments mp_initialized {St} _.
Arguments mp_cur {St} _.
Arguments mp_err {St} _.

Section Merge.
Context {St : Type} `{Iterator St N, SeekIterator St N}.

Definition post_less (a b : St) : bool := (At a <? At b)%N.

Fixpoint new_merged_loop (ph : list St) (p : list St) : option (mergedPostings St) :=
  match p with
  | [] => match ph with [] => None | _ => Some (mkMerged ph false 0 None) end
  | it :: p =>
      match Next it with
      | (true, it') => new_merged_loop (ph ++ [it']) p
      | (false, it') =>
          match Err it' with
          | Some e => Some (mkMerged [] false 0 (Some e))
          | None => new_merged_loop ph p
          end
      end
  end.
Definition newMergedPostings (p : list St) : option (mergedPostings St) := new_merged_loop [] p.

(** [heap.Pop] where only the remaining heap is used. *)
Definition pop_rest (h : list St) : list St :=
  match heap_pop post_less h with Some (_, h') => h' | None => [] end.

Fixpoint merged_loop (fuel : nat) (h : list St) (c : N) : bool * mergedPostings St :=
  match fuel with
  | O => (false, mkMerged h true c None)
  | S fuel =>
      match h with
      | [] => (false, mkMerged h true c None)
      | cur :: rest =>
          let continue h' :=
            match h' with
            | [] => (false, mkMerged h' true c None)
            | top :: _ => if (At top =? c)%N then merged_loop fuel h' c else (true, mkMerged h' true (At top) None)
            end in
          match Next cur with
          | (false, cur') =>
              let h' := pop_rest (cur' :: rest) in
              match Err cur' with
              | Some e => (false, mkMerged h' true c (Some e))
              | None => continue h'
              end
          | (true, cur') => continue (heap_fix post_less 0 (cur' :: rest))
          end
      end
  end.

Definition heap_size (h : list St) : nat := sum_list ((λ p, S (remaining p)) <$> h).

Definition merged_next (it : mergedPostings St) : bool * mergedPostings St :=
  match mp_h it, mp_err it with
  | [], _ => (false, it)
  | _, Some _ => (false, it)
  | h, None =>
      if mp_initialized it then merged_loop (S (heap_size h)) h (mp_cur it)
      else let h' := heap_init post_less h in
        (true, mkMerged h' true (match h' with top :: _ => At top | [] => 0 end) None)
  end.

Fixpoint merged_seek_loop (fuel : nat) (h : list St) (c : N) (id : N) : bool * mergedPostings St :=
  if (c <? id)%N then
    match fuel with
    | O => (false, mkMerged h true c None)
    | S fuel =>
        match h with
        | [] => (false, mkMerged h true c None)
        | cur :: rest =>
            let continue h' :=
              match h' with
              | [] => (false, mkMerged h' true c None)
              | top :: _ => merged_seek_loop fuel h' (At top) id
              end in
            match Seek cur id with
            | (false, cur') =>
                let h' := pop_rest (cur' :: rest) in
                match Err cur' with
                | Some e => (false, mkMerged h' true c (Some e))
                | None => continue h'
                end
            | (true, cur') => continue (heap_fix post_less 0 (cur' :: rest))
            end
        end
    end
  else (true, mkMerged h true c None).

Definition merged_seek (it : mergedPostings St) (id : N) : bool * mergedPostings St :=
  match mp_h it, mp_err it with
  | [], _ => (false, it)
  | _, Some _ => (false, it)
  | h, None =>
      if mp_initialized it then merged_seek_loop (S (length h)) h (mp_cur it) id
      else match merged_next it with
        | (false, it') => (false, it')
        | (true, it') => merged_seek_loop (S (length (mp_h it'))) (mp_h it') (mp_cur it') id
        end
  end.

Global Instance merged_iter : Iterator (mergedPostings St) N := {|
  Next := merged_next;
  At := mp_cur;
  Err := mp_err;
  Close s := (None, s);
  remaining it := heap_size (mp_h it)
|}.
Global Instance merged_seekable : SeekIterator (mergedPostings St) N := merged_seek.

Definition Merge (its : list St) : sliceIterator N + (St + mergedPostings St) :=
  match its with
  | [] => inl EmptyPostings
  | [p] => inr (inl p)
  | _ => match newMergedPostings its with
         | Some p => inr (inr p)
         | None => inl EmptyPostings
         end
  end.
End Merge.

(** ** Without *)

Record removedPostings (SF SR : Type) := mkRemoved {
  rp_full : SF; rp_remove : SR; rp_cur : N; rp_initialized : bool; rp_fok : bool; rp_rok : bool }.
Arguments mkRemoved {SF SR} _ _ _ _ _ _.
Arguments rp_full {SF SR} _.
Arguments rp_remove {SF SR} _.
Arguments rp_cur {SF SR} _.
Arguments rp_initialized {SF SR} _.
Arguments rp_fok {SF SR} _.
Arguments rp_rok {SF SR} _.

Section Without.
Context {SF SR : Type} `{Iterator SF N, SeekIterator SF N, Iterator SR N, SeekIterator SR N}.

Definition newRemovedPostings (full : SF) (remove : SR) : removedPostings SF SR :=
  mkRemoved full remove 0 false false false.

Fixpoint removed_loop (fuel : nat) (full : SF) (remove : SR) (cur : N) (fok rok : bool) : bool * removedPostings SF SR :=
  match fuel with
  | O => (false, mkRemoved full remove cur true fok rok)
  | S fuel =>
      if negb fok then (false, mkRemoved full remove cur true fok rok)
      else if negb rok then
        let cur' := At full in
        let '(fok', full') := Next full in
        (true, mkRemoved full' remove cur' true fok' rok)
      else
        let fcur := At full in
        let rcur := At remove in
        if (fcur <? rcur)%N then
          let '(fok', full') := Next full in
          (true, mkRemoved full' remove fcur true fok' rok)
        else if (rcur <? fcur)%N then
          let '(rok', remove') := Seek remove fcur in
          removed_loop fuel full remove' cur fok rok'
        else
          let '(fok', full') := Next full in
          removed_loop fuel full' remove cur fok' rok
  end.

(** Each iteration that goes on skips a reference of [full], or brings [remove]
    to the current one. *)
Definition removed_fuel (full : SF) : nat := 2 * remaining full + 4.

Definition removed_next (rp : removedPostings SF SR) : bool * removedPostings SF SR :=
  if rp_initialized rp then
    removed_loop (removed_fuel (rp_full rp)) (rp_full rp) (rp_remove rp) (rp_cur rp) (rp_fok rp) (rp_rok rp)
  else
    let '(fok, full) := Next (rp_full rp) in
    let '(rok, remove) := Next (rp_remove rp) in
    removed_loop (removed_fuel full) full remove (rp_cur rp) fok rok.

Definition removed_seek (rp : removedPostings SF SR) (id : N) : bool * removedPostings SF SR :=
  if (id <=? rp_cur rp)%N then (true, rp)
  else
    let '(fok, full) := Seek (rp_full rp) id in
    let '(rok, remove) := Seek (rp_remove rp) id in
    removed_next (mkRemoved full remove (rp_cur rp) true fok rok).

Definition removed_err (rp : removedPostings SF SR) : option string :=
  match Err (rp_full rp) with Some e => Some e | None => Err (rp_remove rp) end.

Definition removed_close (rp : removedPostings SF SR) : option string * removedPostings SF SR :=
  match Close (rp_full rp) with
  | (Some e, full) => (Some e, mkRemoved full (rp_remove rp) (rp_cur rp) (rp_initialized rp) (rp_fok rp) (rp_rok rp))
  | (None, full) =>
      let '(e, remove) := Close (rp_remove rp) in
      (e, mkRemoved full remove (rp_cur rp) (rp_initialized rp) (rp_fok rp) (rp_rok rp))
  end.

Global Instance removed_iter : Iterator (removedPostings SF SR) N := {|
  Next := removed_next;
  At := rp_cur;
  Err := removed_err;
  Close := removed_close;
  remaining rp := S (remaining (rp_full rp))
|}.
Global Instance removed_seekable : SeekIterator (removedPostings SF SR) N := removed_seek.

(** [Without]: as in [Intersect], the comparisons with a fresh [EmptyPostings()]
    never succeed. *)
Definition Without (full : SF) (drop : SR) : removedPostings SF SR := newRemovedPostings full drop.
End Without.

(** ** ShardedPostings *)

Record ShardedPostings (St : Type) := mkSharded { sp_p : St; sp_minOffset : N; sp_maxOffset : N; sp_initialized : bool }.
Arguments mkSharded {St} _ _ _ _.
Arguments sp_p {St} _.
Arguments sp_minOffset {St} _.
Arguments sp_maxOffset {St} _.
Arguments sp_initialized {St} _.

Section Sharded.
Context {St : Type} `{Iterator St N, SeekIterator St N}.

(** The offsets are those of [FingerprintOffsets.Range] for the shard. *)
Definition NewShardedPostings (p : St) (range : N * N) : ShardedPostings St :=
  mkSharded p range.1 range.2 false.

Definition sharded_seek (sp : ShardedPostings St) (v : N) : bool * ShardedPostings St :=
  if (sp_maxOffset sp <=? v)%N then (false, sp)
  else
    let v' := if (v <? sp_minOffset sp)%N then sp_minOffset sp else v in
    let '(b, p') := Seek (sp_p sp) v' in
    (b, mkSharded p' (sp_minOffset sp) (sp_maxOffset sp) (sp_initialized sp)).

Definition sharded_next (sp : ShardedPostings St) : bool * ShardedPostings St :=
  match Next (sp_p sp) with
  | (ok, p') =>
      let sp' := mkSharded p' (sp_minOffset sp) (sp_maxOffset sp) true in
      if negb ok then (false, sp')
      else if sp_initialized sp then
        if (sp_maxOffset sp <=? At p')%N then (false, sp') else (true, sp')
      else sharded_seek sp' 0
  end.

Global Instance sharded_iter : Iterator (ShardedPostings St) N := {|
  Next := sharded_next;
  At sp := At (sp_p sp);
  Err sp := Err (sp_p sp);
  Close s := (None, s);
  remaining sp := remaining (sp_p sp)
|}.
Global Instance sharded_seekable : SeekIterator (ShardedPostings St) N := sharded_seek.
End Sharded.

(** * The contract of a postings iterator

    [ready s w c l]: the iterator [s] stands at [c] (0 before the first value)
    with [l] still to come, and calls of [Seek] with at least [w] may be made.
    [on s c l]: moreover its last call returned true at [c].  An iterator that
    is past its end may still answer [Seek] with its last value [f]: [l] is then
    empty and [f] is [c] or nothing. *)

Class PostingsOk (St : Type) `{Iterator St N, SeekIterator St N} := {
  limit : N;
  limit_pos : (0 < limit)%N;
  ready : St → N → N → list N → Prop;
  on : St → N → list N → Prop;
  on_ready s c l : on s c l → ready s 1 c l;
  on_at s c l : on s c l → At s = c ∧ (0 < c)%N;
  ready_sorted s w c l : ready s w c l → StronglySorted N.lt (c :: l);
  ready_limit s w c l : ready s w c l → Forall (λ x, x < limit)%N (c :: l);
  ready_len s w c l : ready s w c l → length l ≤ remaining s;
  ready_err s w c l : ready s w c l → Err s = None;
  next_some s c x l : ready s 1 c (x :: l) → ∃ s', Next s = (true, s') ∧ on s' x l;
  next_none s w c : ready s w c [] → ∃ s' f, Next s = (false, s') ∧ (f = 0%N ∨ f = c) ∧ ready s' w f [];
  stay_on s c l x : on s c l → (x ≤ c)%N → ∃ s', Seek s x = (true, s') ∧ on s' c l;
  seek_stay s w c l x : ready s w c l → (w ≤ x)%N → (0 < x ≤ c)%N → ∃ s', Seek s x = (true, s') ∧ on s' c l;
  seek_some s w c l x y l' : ready s w c l → (w ≤ x)%N → (c < x < limit)%N → drop_lt x l = y :: l' →
    ∃ s', Seek s x = (true, s') ∧ on s' y l';
  seek_none s w c l x : ready s w c l → (w ≤ x)%N → (c < x < limit)%N → drop_lt x l = [] →
    ∃ s' f, Seek s x = (false, s') ∧ (f = 0%N ∨ f = c) ∧ ready s' x f []
}.

(** Iterators whose [Seek] may be called with any value at any time. *)
Class PostingsRobust (St : Type) `{PostingsOk St} : Prop :=
  ready_robust s w c l : ready s w c l → ready s 1 c l.

Section Contract.
Context {St : Type} `{PostingsOk St}.

(** A consumer reads exactly the list. *)
Lemma ready_yields s c l : ready s 1 c l → ∃ e, yields s l e ∧ Err e = None.
Proof.
  revert s c. induction l as [|x l IH]; intros s c Hs.
  - destruct (next_none _ _ _ Hs) as (s' & f & Hn & _ & Hr). exists s'. split; [by constructor|].
    by eapply ready_err.
  - destruct (next_some _ _ _ _ Hs) as (s' & Hn & Hon).
    destruct (IH s' x (on_ready _ _ _ Hon)) as (e & Hy & He). exists e. split; [|done].
    eapply yields_step; [done|by apply on_at in Hon as [? _]|done].
Qed.

Lemma ready_expand s c l : ready s 1 c l → ExpandPostings s = (l, None).
Proof.
  intros Hs. destruct (ready_yields _ _ _ Hs) as (e & Hy & He). unfold ExpandPostings.
  erewrite slice_loop_spec; [|done|]; [by rewrite He|]. apply ready_len in Hs. lia.
Qed.

Lemma ready_lt s w c l y : ready s w c l → y ∈ l → (c < y)%N.
Proof.
  intros Hs Hy. apply ready_sorted, StronglySorted_cons in Hs as [Hc _].
  rewrite Forall_forall in Hc. by apply Hc.
Qed.

Lemma on_sorted s c l : on s c l → StronglySorted N.lt (c :: l).
Proof. intros Hs. by apply on_ready, ready_sorted in Hs. Qed.

Lemma on_limit s c l : on s c l → (c < limit)%N.
Proof. intros Hs. by apply on_ready, ready_limit, Forall_cons in Hs as [? _]. Qed.

(** [Seek] on what an iterator can still answer, [c :: l]: it goes to the first
    value that is at least [x]. *)
Lemma seek_cases s w c l x :
  ready s w c l → (w ≤ x)%N → (0 < x < limit)%N →
  (∃ s' y l', Seek s x = (true, s') ∧ on s' y l' ∧ y :: l' = drop_lt x (c :: l)) ∨
  (∃ s' f, Seek s x = (false, s') ∧ ready s' x f [] ∧ drop_lt x (c :: l) = [] ∧ (f = 0%N ∨ f = c)).
Proof.
  intros Hs Hw Hx. simpl. destruct (N.ltb_spec c x) as [Hc|Hc].
  - destruct (drop_lt x l) as [|y l'] eqn:E.
    + destruct (seek_none _ _ _ _ _ Hs Hw ltac:(lia) E) as (s' & f & ? & ? & ?). right. by exists s', f.
    + destruct (seek_some _ _ _ _ _ _ _ Hs Hw ltac:(lia) E) as (s' & ? & ?). left. by exists s', y, l'.
  - destruct (seek_stay _ _ _ _ x Hs Hw ltac:(lia)) as (s' & ? & ?). left. by exists s', c, l.
Qed.
End Contract.

(** The outcome of [Seek] as one statement gives the three laws about it. *)
Section SeekLaws.
Context {St : Type} `{SeekIterator St N} (lim : N) (rdy : St → N → N → list N → Prop) (on' : St → N → list N → Prop).

Definition seek_outcome (s : St) (c : N) (l : list N) (x : N) : Prop :=
  (∃ s' y l', Seek s x = (true, s') ∧ on' s' y l' ∧ y :: l' = drop_lt x (c :: l)) ∨
  (∃ s' f, Seek s x = (false, s') ∧ rdy s' x f [] ∧ drop_lt x (c :: l) = [] ∧ (f = 0%N ∨ f = c)).

Lemma outcome_stay s c l x :
  seek_outcome s c l x → (x ≤ c)%N → ∃ s', Seek s x = (true, s') ∧ on' s' c l.
Proof.
  intros Ho Hx. unfold seek_outcome in Ho. simpl in Ho. rewrite (proj2 (N.ltb_ge _ _)) in Ho by done.
  destruct Ho as [(s' & y & l' & ? & ? & ?)|(s' & f & ? & ? & ? & ?)]; simplify_eq. by exists s'.
Qed.

Lemma outcome_some s c l x y l' :
  seek_outcome s c l x → (c < x)%N → drop_lt x l = y :: l' → ∃ s', Seek s x = (true, s') ∧ on' s' y l'.
Proof.
  intros Ho Hx Hd. unfold seek_outcome in Ho. simpl in Ho. rewrite (proj2 (N.ltb_lt _ _)), Hd in Ho by done.
  destruct Ho as [(s' & y' & l2 & ? & ? & ?)|(s' & f & ? & ? & ? & ?)]; simplify_eq. by exists s'.
Qed.

Lemma outcome_none s c l x :
  seek_outcome s c l x → (c < x)%N → drop_lt x l = [] →
  ∃ s' f, Seek s x = (false, s') ∧ (f = 0%N ∨ f = c) ∧ rdy s' x f [].
Proof.
  intros Ho Hx Hd. unfold seek_outcome in Ho. simpl in Ho. rewrite (proj2 (N.ltb_lt _ _)), Hd in Ho by done.
  destruct Ho as [(s' & y' & l2 & ? & ? & ?)|(s' & f & ? & ? & ? & ?)]; simplify_eq. by exists s', f.
Qed.
End SeekLaws.

(** ** Slices *)

Definition slice_ready (s : sliceIterator N) (w c : N) (l : list N) : Prop :=
  s = mkSliceIterator l c ∧ StronglySorted N.lt (c :: l) ∧ Forall (λ x, x < 2 ^ 64)%N (c :: l).

Lemma slice_ready_nil w c : (c < 2 ^ 64)%N → slice_ready (mkSliceIterator [] c) w c [].
Proof. intros. split_and!; [done|repeat constructor|by repeat constructor]. Qed.

Global Instance slice_ok : PostingsOk (sliceIterator N).
Proof.
  refine {| limit := 2 ^ 64; ready := slice_ready;
            on := λ s c l, slice_ready s 1 c l ∧ (0 < c)%N |}.
  - done.
  - by intros s c l [].
  - by intros s c l [[-> _] ?].
  - by intros s w c l (_ & ? & _).
  - by intros s w c l (_ & _ & ?).
  - by intros s w c l (-> & _ & _).
  - done.
  - intros s c x l (-> & Hs & Hb). exists (mkSliceIterator l x). split; [done|].
    apply StronglySorted_cons in Hs as [Hc Hs]. apply Forall_cons in Hb as [_ Hb].
    apply Forall_cons in Hc as [? _]. split; [by split_and!|lia].
  - intros s w c (-> & Hs & Hb). exists (mkSliceIterator [] 0%N), 0%N. split_and!; [done|by left|].
    by apply slice_ready_nil.
  - intros s c l x [(-> & Hs & Hb) ?] Hx. exists (mkSliceIterator l c). unfold Seek, slice_seekable.
    unfold slice_seek. simpl. rewrite (proj2 (N.leb_le _ _)) by done. by split_and!.
  - intros s w c l x (-> & Hs & Hb) _ [? Hx]. exists (mkSliceIterator l c). unfold Seek, slice_seekable.
    unfold slice_seek. simpl. rewrite (proj2 (N.leb_le _ _)) by done. split_and!; try done. lia.
  - intros s w c l x y l' (-> & Hs & Hb) _ [Hcx _] Hd. pose proof Hs as [Hc Hl]%StronglySorted_cons.
    exists (mkSliceIterator l' y). unfold Seek, slice_seekable.
    rewrite slice_seek_spec by (by apply StronglySorted_lt_le).
    rewrite (proj2 (N.leb_gt _ _)), Hd by lia. split; [done|].
    destruct (drop_lt_suffix x l) as [k Hk]. rewrite Hd in Hk. subst l.
    apply Forall_cons in Hb as [_ [_ Hb]%Forall_app]. apply Forall_app in Hc as [_ [Hcy _]%Forall_cons].
    split; [split_and!; [done|by apply StronglySorted_app_1_r in Hl|done]|lia].
  - intros s w c l x (-> & Hs & Hb) _ [Hcx _] Hd. pose proof Hs as [Hc Hl]%StronglySorted_cons.
    exists (mkSliceIterator [] c), c. unfold Seek, slice_seekable.
    rewrite slice_seek_spec by (by apply StronglySorted_lt_le).
    rewrite (proj2 (N.leb_gt _ _)), Hd by lia. split_and!; [done|by right|].
    apply Forall_cons in Hb as [? _]. by apply slice_ready_nil.
Defined.

Global Instance slice_robust : PostingsRobust (sliceIterator N).
Proof. by intros s w c l Hs. Qed.

(** ** Big-endian lists *)

Definition be_bytes (l : list N) : list N := concat (be32 <$> l).

Lemma be_bytes_length l : length (be_bytes l) = 4 * length l.
Proof. induction l as [|x l IH]; [done|]. change (be_bytes (x :: l)) with (be32 x ++ be_bytes l). rewrite length_app, IH, be32_length. simpl. lia. Qed.

Lemma be_bytes_cons x l junk : be_bytes (x :: l) ++ junk = be32 x ++ be_bytes l ++ junk.
Proof. change (be_bytes (x :: l)) with (be32 x ++ be_bytes l). by rewrite <-(assoc_L (++)). Qed.

Lemma be_bytes_drop i l junk : i ≤ length l → drop (i * 4) (be_bytes l ++ junk) = be_bytes (drop i l) ++ junk.
Proof.
  revert i. induction l as [|x l IH]; intros i Hi; simpl in Hi; [by replace i with 0 by lia|].
  destruct i as [|i]; [done|]. rewrite be_bytes_cons. change (S i * 4) with (4 + i * 4).
  rewrite <-drop_drop, drop_be32. apply IH. lia.
Qed.

(** The stream of a list, followed by fewer bytes than a number. *)
Definition be_ready (s : bigEndianPostings) (w c : N) (l : list N) : Prop :=
  (∃ junk, length junk < 4 ∧ s = mkBigEndian (be_bytes l ++ junk) c) ∧
  StronglySorted N.lt (c :: l) ∧ Forall (λ x, x < 2 ^ 32)%N (c :: l).

Lemma be_seek_spec l junk c x :
  StronglySorted N.le l → Forall (λ x, x < 2 ^ 32)%N l → length junk < 4 → (x < 2 ^ 32)%N →
  be_seek (mkBigEndian (be_bytes l ++ junk) c) x =
    if (x <=? c)%N then (true, mkBigEndian (be_bytes l ++ junk) c)
    else match drop_lt x l with
         | y :: l' => (true, mkBigEndian (be_bytes l' ++ junk) y)
         | [] => (false, mkBigEndian [] c)
         end.
Proof.
  intros Hs Hb Hj Hx. unfold be_seek. cbn [be_cur be_list]. case_if_eq; [done|].
  assert ((length (be_bytes l ++ junk) / 4)%nat = length l) as ->.
  { rewrite length_app, be_bytes_length. symmetry. apply (Nat.div_unique _ _ _ (length junk)); lia. }
  rewrite (search_ext _ _ (ge_test x l)).
  - rewrite <-(search_drop_lt x l Hs). set (r := search _ _).
    destruct (Nat.ltb_spec r (length l)) as [Hr|Hr]; [|by rewrite drop_ge].
    destruct (lookup_lt_is_Some_2 l r Hr) as [y Hy].
    replace (r * 4 + 4)%nat with (S r * 4)%nat by lia. rewrite !be_bytes_drop by lia. rewrite (drop_S _ _ _ Hy).
    do 2 f_equal. rewrite be_bytes_cons. apply of_be32_be32.
    rewrite Forall_forall in Hb. apply Hb. by eapply list_elem_of_lookup_2.
  - intros k Hk. unfold ge_test. destruct (lookup_lt_is_Some_2 l k Hk) as [y Hy]. rewrite Hy.
    rewrite u32_small by done. rewrite be_bytes_drop by lia. rewrite (drop_S _ _ _ Hy).
    rewrite be_bytes_cons, of_be32_be32; [done|].
    rewrite Forall_forall in Hb. apply Hb. by eapply list_elem_of_lookup_2.
Qed.

Lemma be_ready_nil junk w c : length junk < 4 → (c < 2 ^ 32)%N → be_ready (mkBigEndian junk c) w c [].
Proof. intros. split_and!; [by exists junk|repeat constructor|by repeat constructor]. Qed.

Global Instance be_ok : PostingsOk bigEndianPostings.
Proof.
  refine {| limit := 2 ^ 32; ready := be_ready;
            on := λ s c l, be_ready s 1 c l ∧ (0 < c)%N |}.
  - done.
  - by intros s c l [].
  - by intros s c l [[(junk & _ & ->) _] ?].
  - by intros s w c l (_ & ? & _).
  - by intros s w c l (_ & _ & ?).
  - intros s w c l ((junk & Hj & ->) & _ & _). cbn [remaining be_iter be_list]. rewrite length_app, be_bytes_length.
    apply Nat.div_le_lower_bound; lia.
  - done.
  - intros s c x l ((junk & Hj & ->) & Hs & Hb). exists (mkBigEndian (be_bytes l ++ junk) x).
    apply StronglySorted_cons in Hs as [Hc Hs]. apply Forall_cons in Hb as [_ Hb].
    apply Forall_cons in Hc as [? _]. pose proof Hb as [Hxb _]%Forall_cons. split.
    + cbn [Next be_iter]. unfold be_next. cbn [be_list]. rewrite be_bytes_cons.
      by rewrite of_be32_be32, be32_enough, drop_be32.
    + split; [|lia]. split_and!; [by exists junk|done|done].
  - intros s w c ((junk & Hj & ->) & Hs & Hb). exists (mkBigEndian junk c), c. apply Forall_cons in Hb as [? _].
    split_and!; [|by right|by apply be_ready_nil]. cbn [Next be_iter]. unfold be_next. change (be_bytes [] ++ junk) with junk. cbn [be_list].
    by rewrite (proj2 (Nat.leb_gt 4 _)).
  - intros s c l x [((junk & Hj & ->) & Hs & Hb) ?] Hx. exists (mkBigEndian (be_bytes l ++ junk) c).
    unfold Seek, be_seekable, be_seek. cbn [be_cur]. rewrite (proj2 (N.leb_le _ _)) by done.
    split; [done|]. split; [|done]. split_and!; [by exists junk|done|done].
  - intros s w c l x ((junk & Hj & ->) & Hs & Hb) _ [? Hx]. exists (mkBigEndian (be_bytes l ++ junk) c).
    unfold Seek, be_seekable, be_seek. cbn [be_cur]. rewrite (proj2 (N.leb_le _ _)) by done.
    split; [done|]. split; [|lia]. split_and!; [by exists junk|done|done].
  - intros s w c l x y l' ((junk & Hj & ->) & Hs & Hb) _ [Hcx Hx] Hd. pose proof Hs as [Hc Hl]%StronglySorted_cons.
    pose proof Hb as [_ Hb2]%Forall_cons.
    exists (mkBigEndian (be_bytes l' ++ junk) y). unfold Seek, be_seekable.
    rewrite be_seek_spec by (done || by apply StronglySorted_lt_le).
    rewrite (proj2 (N.leb_gt _ _)), Hd by lia. split; [done|].
    destruct (drop_lt_suffix x l) as [k Hk]. rewrite Hd in Hk. subst l.
    apply Forall_app in Hb2 as [_ Hb2]. apply Forall_app in Hc as [_ [Hcy _]%Forall_cons].
    split; [split_and!; [by exists junk|by apply StronglySorted_app_1_r in Hl|done]|lia].
  - intros s w c l x ((junk & Hj & ->) & Hs & Hb) _ [Hcx Hx] Hd. pose proof Hs as [Hc Hl]%StronglySorted_cons.
    pose proof Hb as [? Hb2]%Forall_cons.
    exists (mkBigEndian [] c), c. unfold Seek, be_seekable.
    rewrite be_seek_spec by (done || by apply StronglySorted_lt_le).
    rewrite (proj2 (N.leb_gt _ _)), Hd by lia. split_and!; [done|by right|]. apply be_ready_nil; simpl; [lia|done].
Defined.

Global Instance be_robust : PostingsRobust bigEndianPostings.
Proof. by intros s w c l Hs. Qed.

(** ** Two implementations *)

Section Sum.
Context {S1 S2 : Type} `{PostingsOk S1, PostingsOk S2}.

Ltac sum_case s H :=
  destruct s as [s|s]; destruct H as [H ?]; simpl in *.

(** Both sides keep below the smaller limit. *)
Definition sum_limit : N := N.min (limit (St := S1)) (limit (St := S2)).
Definition below (x : N) : Prop := (x < sum_limit)%N.

Definition sum_ready (s : S1 + S2) (w c : N) (l : list N) : Prop :=
  match s with inl s => ready s w c l | inr s => ready s w c l end ∧ Forall below (c :: l).
Definition sum_on (s : S1 + S2) (c : N) (l : list N) : Prop :=
  match s with inl s => on s c l | inr s => on s c l end ∧ Forall below (c :: l).

Lemma below_drop x c l y l' : Forall below (c :: l) → drop_lt x l = y :: l' → Forall below (y :: l').
Proof.
  intros [_ Hl]%Forall_cons Hd. destruct (drop_lt_suffix x l) as [k Hk]. rewrite Hd in Hk. subst.
  by apply Forall_app in Hl as [_ ?].
Qed.

Lemma below_end c f l : Forall below (c :: l) → f = 0%N ∨ f = c → Forall below [f].
Proof. intros [Hc _]%Forall_cons [->| ->]; constructor; auto. unfold below in *. lia. Qed.

Global Instance sum_ok : PostingsOk (S1 + S2).
Proof.
  refine {| limit := sum_limit; ready := sum_ready; on := sum_on |}.
  - unfold sum_limit. pose proof (limit_pos (St := S1)). pose proof (limit_pos (St := S2)). lia.
  - intros s c l Hs. sum_case s Hs; (split; [by apply on_ready|done]).
  - intros s c l Hs. sum_case s Hs; by apply on_at in Hs.
  - intros s w c l Hs. sum_case s Hs; by apply ready_sorted in Hs.
  - by intros s w c l [_ Hs].
  - intros s w c l Hs. sum_case s Hs; by apply ready_len in Hs.
  - intros s w c l Hs. sum_case s Hs; by apply ready_err in Hs.
  - intros s c x l Hs. sum_case s Hs; (destruct (next_some _ _ _ _ Hs) as (s' & Hn & Ho); rewrite Hn; eexists;
      split; [done|]; split; [done|by apply Forall_cons in H5 as [_ ?]]).
  - intros s w c Hs. sum_case s Hs; (destruct (next_none _ _ _ Hs) as (s' & f & Hn & Hf & Ho); rewrite Hn;
      eexists _, f; split; [done|]; split; [done|]; split; [done|by eapply below_end]).
  - intros s c l x Hs Hx. unfold Seek, sum_seekable. sum_case s Hs; (destruct (stay_on _ _ _ x Hs Hx) as (s' & Hn & Ho);
      rewrite Hn; eexists; by split).
  - intros s w c l x Hs Hw Hx. unfold Seek, sum_seekable.
    sum_case s Hs; (destruct (seek_stay _ _ _ _ x Hs Hw Hx) as (s' & Hn & Ho); rewrite Hn; eexists; by split).
  - intros s w c l x y l' Hs Hw Hx Hd. unfold Seek, sum_seekable. unfold sum_limit in Hx.
    sum_case s Hs; (destruct (seek_some _ _ _ _ x y l' Hs Hw ltac:(lia) Hd) as (s' & Hn & Ho); rewrite Hn;
      eexists; split; [done|]; split; [done|by eapply below_drop]).
  - intros s w c l x Hs Hw Hx Hd. unfold Seek, sum_seekable. unfold sum_limit in Hx.
    sum_case s Hs; (destruct (seek_none _ _ _ _ x Hs Hw ltac:(lia) Hd) as (s' & f & Hn & Hf & Ho); rewrite Hn;
      eexists _, f; split; [done|]; split; [done|]; split; [done|by eapply below_end]).
Defined.

Global Instance sum_robust `{!PostingsRobust S1, !PostingsRobust S2} : PostingsRobust (S1 + S2).
Proof.
  intros s w c l Hs. simpl in *. unfold sum_ready in *. destruct s, Hs; split; try done; by eapply ready_robust.
Qed.
End Sum.

(** ** Intersect *)

(** One input of a combinator: its state, its position and what is to come. *)
Record prun (St : Type) := mkPrun { q_s : St; q_c : N; q_l : list N }.
Arguments mkPrun {St} _ _ _.
Arguments q_s {St} _.
Arguments q_c {St} _.
Arguments q_l {St} _.

Definition elems {St} (q : prun St) : list N := q_c q :: q_l q.

Section IntersectOk.
Context {St : Type} `{PostingsOk St, !PostingsRobust St}.

Definition run_ready (q : prun St) : Prop := ready (q_s q) 1 (q_c q) (q_l q).
Definition run_on (y : N) (q : prun St) : Prop := on (q_s q) y (q_l q) ∧ q_c q = y.

(** The references every input can still answer. *)
Definition common (qs : list (prun St)) (y : N) : Prop := (0 < y)%N ∧ ∀ q, q ∈ qs → y ∈ elems q.

(** What calls of [Seek] between [x0] and [x] make of an input. *)
Definition seek_step (x0 x : N) (q q' : prun St) : Prop :=
  (∀ z, z ∈ elems q' → z ∈ elems q ∨ z = 0%N) ∧
  (∀ z, (x ≤ z)%N → z ∈ elems q → z ∈ elems q') ∧
  (q_c q' = q_c q ∨ q_c q' = 0%N ∨ (x0 ≤ q_c q')%N).

Lemma seek_step_refl x0 x q : seek_step x0 x q q.
Proof. unfold seek_step. naive_solver. Qed.

Lemma seek_step_trans x0 x x' q1 q2 q3 :
  (x0 ≤ x ≤ x')%N → seek_step x0 x q1 q2 → seek_step x x' q2 q3 → seek_step x0 x' q1 q3.
Proof.
  intros Hx (Ha1 & Hb1 & Hc1) (Ha2 & Hb2 & Hc2). split_and!.
  - intros z Hz. destruct (Ha2 z Hz) as [?| ->]; auto.
  - intros z Hz Hq. apply Hb2; [done|]. apply Hb1; [lia|done].
  - destruct Hc2 as [->|[->|]]; auto. right. right. lia.
Qed.

(** References above [x] an input still has. *)
Definition ahead (x : N) (q : prun St) : nat := length (q_l q) + if (x <? q_c q)%N then 1 else 0.
Definition aheads (x : N) (qs : list (prun St)) : nat := sum_list (ahead x <$> qs).

Lemma ahead_mono x y q : (x ≤ y)%N → ahead y q ≤ ahead x q.
Proof. intros. unfold ahead. destruct (N.ltb_spec x (q_c q)), (N.ltb_spec y (q_c q)); lia. Qed.

Lemma aheads_mono x y qs : (x ≤ y)%N → aheads y qs ≤ aheads x qs.
Proof. intros Hxy. induction qs as [|q qs IH]; unfold aheads in *; csimpl; [done|]. pose proof (ahead_mono x y q Hxy). lia. Qed.

Lemma elems_sorted q : run_ready q → StronglySorted N.lt (elems q).
Proof. intros Hq. by eapply ready_sorted. Qed.

(** One [Seek] of the loop. *)
Lemma seek_run x q :
  run_ready q → (0 < x < limit)%N →
  (∃ q', Seek (q_s q) x = (true, q_s q') ∧ run_on (q_c q') q' ∧ (x ≤ q_c q')%N ∧ seek_step x x q q' ∧ ahead x q' ≤ ahead x q) ∨
  (∃ q', Seek (q_s q) x = (false, q_s q') ∧ run_ready q' ∧ seek_step x x q q' ∧ q_l q' = [] ∧
     (∀ z, z ∈ elems q → (z < x)%N)).
Proof.
  intros Hq Hx. pose proof (elems_sorted q Hq) as Hsort%StronglySorted_lt_le.
  destruct (seek_cases _ _ _ _ x Hq ltac:(lia) Hx) as [(s' & y & l' & Hsk & Hon & Hd)|(s' & f & Hsk & Hr & Hd & Hf)].
  - left. exists (mkPrun s' y l'). change (q_c q :: q_l q) with (elems q) in Hd.
    assert (He : ∀ z, z ∈ y :: l' ↔ z ∈ elems q ∧ (x ≤ z)%N) by (intros z; by rewrite Hd, drop_lt_elem).
    split_and!; [done|done|apply He; by left| |].
    + split_and!; [intros z Hz; left; by apply He|intros z Hz Hq'; by apply He|].
      right; right. simpl. apply He. by left.
    + unfold ahead, elems in *. simpl in *. destruct (N.ltb_spec (q_c q) x).
      * destruct (drop_lt_suffix x (q_l q)) as [k Hk]. rewrite Hk, <-Hd, length_app. simpl.
        destruct (x <? y)%N, (x <? q_c q)%N; lia.
      * simplify_eq. done.
  - right. exists (mkPrun s' f []). change (q_c q :: q_l q) with (elems q) in Hd.
    assert (Hz : ∀ z, z ∈ elems q → (z < x)%N).
    { intros z Hz. destruct (N.lt_ge_cases z x); [done|]. assert (z ∈ drop_lt x (elems q)) as Hin by (by apply drop_lt_elem).
      rewrite Hd in Hin. set_solver. }
    split_and!; [done|by eapply ready_robust| |done|done].
    split_and!; simpl.
    + intros z Hz'. apply list_elem_of_singleton in Hz' as ->. destruct Hf as [->| ->]; [by right|left; by left].
    + intros z Hxz Hzq. apply Hz in Hzq. lia.
    + naive_solver.
Qed.

Lemma seek_pass_spec x qs :
  Forall run_ready qs → (0 < x < limit)%N →
  ∃ qs' r, seek_pass x (q_s <$> qs) = (q_s <$> qs', r) ∧ Forall run_ready qs' ∧ Forall2 (seek_step x x) qs qs' ∧
    match r with
    | Exhausted => ∃ q q', q ∈ qs ∧ q' ∈ qs' ∧ q_l q' = [] ∧ (∀ z, z ∈ elems q → (z < x)%N) ∧ seek_step x x q q'
    | Raised c => (x < c < limit)%N ∧ aheads c qs' < aheads x qs ∧ ∃ q, q ∈ qs' ∧ q_c q = c
    | Agreed => Forall (run_on x) qs'
    end.
Proof.
  intros Hqs Hx. induction Hqs as [|q qs Hq Hqs IH].
  { exists [], Agreed. by repeat constructor. }
  csimpl. destruct (seek_run x q Hq Hx) as [(q' & -> & Hon & Hxq & Hst & Hah)|(q' & -> & Hr & Hst & Hl & Hz)].
  - pose proof (proj1 (on_at _ _ _ (proj1 Hon))) as Hat. rewrite Hat.
    assert (run_ready q') as Hr' by apply on_ready, Hon.
    destruct (N.ltb_spec x (q_c q')) as [Hlt|Hge].
    + exists (q' :: qs), (Raised (q_c q')). split_and!; [done|by constructor| |lia| | |].
      * constructor; [done|]. apply Forall2_same_length_lookup. split; [done|]. intros i a b Ha Hb. simplify_eq. apply seek_step_refl.
      * eapply on_limit. exact (proj1 Hon).
      * unfold aheads. csimpl. pose proof (aheads_mono x (q_c q') qs ltac:(lia)). unfold aheads in *.
        enough (ahead (q_c q') q' < ahead x q) by lia. eapply Nat.lt_le_trans; [|exact Hah].
        unfold ahead. rewrite N.ltb_irrefl, (proj2 (N.ltb_lt _ _)) by done. lia.
      * exists q'. split; [by left|done].
    + assert (q_c q' = x) as Hcx by lia. destruct IH as (qs' & r & -> & Hqs' & Hf2 & Hres).
      exists (q' :: qs'), r. split_and!; [done|by constructor|by constructor|].
      destruct r as [|c|].
      * destruct Hres as (q1 & q2 & ? & ? & ?). exists q1, q2. split_and!; [by right|by right|naive_solver..].
      * destruct Hres as (Hc & Ha & q1 & ? & ?). split_and!; [lia|lia| |].
        -- unfold aheads in *. csimpl. pose proof (ahead_mono x c q' ltac:(lia)). lia.
        -- exists q1. split; [by right|done].
      * constructor; [|done]. by rewrite <-Hcx.
  - exists (q' :: qs), Exhausted. split_and!; [done|by constructor| |].
    + constructor; [done|]. apply Forall2_same_length_lookup. split; [done|]. intros i a b Ha Hb. simplify_eq. apply seek_step_refl.
    + exists q, q'. split_and!; [by left|by left|done|done|done].
Qed.

(** An input that lost references. *)
Definition shrinks (q q' : prun St) : Prop := ∀ z, z ∈ elems q' → z ∈ elems q ∨ z = 0%N.

Lemma common_shrinks qs qs' z : Forall2 shrinks qs qs' → common qs' z → common qs z.
Proof.
  intros Hf [Hz Hc]. split; [done|]. intros q Hq.
  apply list_elem_of_lookup in Hq as [i Hi]. destruct (Forall2_lookup_l _ _ _ _ _ Hf Hi) as (q' & Hi' & Ha).
  destruct (Ha z) as [?| ->]; [|done|lia]. apply Hc. by eapply list_elem_of_lookup_2.
Qed.

Lemma steps_shrink x0 x qs qs' : Forall2 (seek_step x0 x) qs qs' → Forall2 shrinks qs qs'.
Proof. intros Hf. eapply Forall2_impl; [exact Hf|]. by intros q q' [? _]. Qed.

Lemma common_back x0 x qs qs' z : Forall2 (seek_step x0 x) qs qs' → common qs' z → common qs z.
Proof. intros Hf. by eapply common_shrinks, steps_shrink. Qed.

Lemma common_forth x0 x qs qs' z : Forall2 (seek_step x0 x) qs qs' → (x ≤ z)%N → common qs z → common qs' z.
Proof.
  intros Hf Hxz [Hz Hc]. split; [done|]. intros q' Hq'.
  apply list_elem_of_lookup in Hq' as [i Hi']. destruct (Forall2_lookup_r _ _ _ _ _ Hf Hi') as (q & Hi & _ & Hb & _).
  apply Hb; [done|]. apply Hc. by eapply list_elem_of_lookup_2.
Qed.

Lemma steps_trans x0 x x' qs1 qs2 qs3 :
  (x0 ≤ x ≤ x')%N → Forall2 (seek_step x0 x) qs1 qs2 → Forall2 (seek_step x x') qs2 qs3 →
  Forall2 (seek_step x0 x') qs1 qs3.
Proof.
  intros Hx Hf1. revert qs3. induction Hf1 as [|q1 q2 qs1 qs2 Hq Hf1 IH]; intros qs3; inversion 1; subst; constructor.
  - by eapply seek_step_trans.
  - by apply IH.
Qed.

Lemma run_on_ready y q : run_on y q → run_ready q.
Proof. intros [Ho Hc]. unfold run_ready. rewrite Hc. by apply on_ready. Qed.

(** [doNext] finds the least common reference that is at least [x], or ends. *)
Lemma doNext_spec fuel x qs :
  qs ≠ [] → Forall run_ready qs → (0 < x < limit)%N → aheads x qs < fuel →
  (∃ y qs', doNext fuel (mkIntersect (q_s <$> qs) x) = (true, mkIntersect (q_s <$> qs') y) ∧
     (x ≤ y)%N ∧ common qs y ∧ (∀ z, common qs z → (x ≤ z)%N → (y ≤ z)%N) ∧
     Forall (run_on y) qs' ∧ Forall2 (seek_step x y) qs qs') ∨
  (∃ qs' cur x', doNext fuel (mkIntersect (q_s <$> qs) x) = (false, mkIntersect (q_s <$> qs') cur) ∧
     (∀ z, common qs z → (z < x)%N) ∧ Forall run_ready qs' ∧
     (x ≤ x')%N ∧ Forall2 (seek_step x x') qs qs' ∧ ∃ q', q' ∈ qs' ∧ q_l q' = []).
Proof.
  revert x qs. induction fuel as [|fuel IH]; intros x qs Hne Hqs Hx Hf; [lia|]. cbn [doNext ip_arr ip_cur].
  destruct (seek_pass_spec x qs Hqs Hx) as (qs1 & r & -> & Hqs1 & Hst & Hr). destruct r as [|c|].
  - destruct Hr as (q & q' & Hq & Hq' & Hl & Hz & _). right. exists qs1, x, x. split_and!; [done| |done|lia|done|by exists q'].
    intros z [_ Hc]. by apply Hz, Hc.
  - destruct Hr as (Hc & Ha & q1 & Hq1 & Hqc).
    assert (qs1 ≠ []) as Hne1 by (intros ->; set_solver).
    assert (Hge : ∀ z, common qs1 z → (c ≤ z)%N).
    { intros z [_ Hz]. specialize (Hz q1 Hq1). rewrite Forall_forall in Hqs1.
      pose proof (elems_sorted q1 (Hqs1 q1 Hq1)) as [Hlt _]%StronglySorted_cons.
      apply elem_of_cons in Hz as [->|Hz]; [lia|]. rewrite Forall_forall in Hlt. apply Hlt in Hz. lia. }
    destruct (IH c qs1 Hne1 Hqs1 ltac:(lia) ltac:(lia)) as
      [(y & qs2 & -> & Hy & Hcy & Hmin & Hon & Hst2)|(qs2 & cur & x' & -> & Hno & Hr2 & Hx' & Hst2 & Hend)]; [left|right].
    + exists y, qs2. split_and!; [done|lia|by eapply common_back| |done|eapply steps_trans; [|done|]; [lia|]].
      * intros z Hz Hxz. pose proof (common_forth _ _ _ _ _ Hst Hxz Hz) as Hz1. apply Hmin; [done|]. by apply Hge.
      * eapply Forall2_impl; [exact Hst2|]. intros a b (?&?&?). split_and!; [done|done|]. intuition lia.
    + exists qs2, cur, x'. split_and!; [done| |done|lia|eapply steps_trans; [|done|]; [lia|]|done].
      * intros z Hz. destruct (N.lt_ge_cases z x) as [?|Hxz]; [done|].
        pose proof (common_forth _ _ _ _ _ Hst Hxz Hz) as Hz1. specialize (Hno z Hz1). specialize (Hge z Hz1). lia.
      * eapply Forall2_impl; [exact Hst2|]. intros a b (?&?&?). split_and!; [done|done|]. intuition lia.
  - left. exists x, qs1. split_and!; [done|lia| |lia|done|done].
    eapply common_back; [exact Hst|]. split; [lia|]. intros q Hq. rewrite Forall_forall in Hr.
    destruct (Hr q Hq) as [_ <-]. by left.
Qed.

(** Where an intersection stands: all inputs on its value, or one at its end. *)
Definition intersect_ready (s : intersectPostings St) (w c : N) (l : list N) : Prop :=
  ∃ qs, qs ≠ [] ∧ ip_arr s = q_s <$> qs ∧ Forall run_ready qs ∧ StronglySorted N.lt (c :: l) ∧
    (∀ y, common qs y ↔ (0 < y)%N ∧ y ∈ c :: l) ∧
    ((ip_cur s = c ∧ Forall (λ q, q_c q = c) qs) ∨ (l = [] ∧ ∃ q, q ∈ qs ∧ q_l q = [])).

Definition intersect_on (s : intersectPostings St) (c : N) (l : list N) : Prop :=
  ∃ qs, qs ≠ [] ∧ ip_arr s = q_s <$> qs ∧ ip_cur s = c ∧ Forall (run_on c) qs ∧
    StronglySorted N.lt (c :: l) ∧ (∀ y, common qs y ↔ (0 < y)%N ∧ y ∈ c :: l).

Lemma intersect_on_ready s c l : intersect_on s c l → intersect_ready s 1 c l.
Proof.
  intros (qs & ? & ? & ? & Hon & ? & ?). exists qs. split_and!; try done.
  - eapply Forall_impl; [done|]. intros q Hq. by eapply run_on_ready.
  - left. split; [done|]. eapply Forall_impl; [done|]. by intros q [_ ?].
Qed.

Lemma aheads_fuel x qs : Forall run_ready qs → aheads x qs < intersect_fuel (q_s <$> qs).
Proof.
  intros Hqs. unfold intersect_fuel, aheads. rewrite Nat.lt_succ_r. induction Hqs as [|q qs Hq Hqs IH]; csimpl; [done|].
  assert (ahead x q ≤ S (remaining (q_s q))); [|lia].
  unfold ahead. apply ready_len in Hq. destruct (x <? q_c q)%N; lia.
Qed.

(** From the outcome of [doNext] to the place in the intersection. *)
Lemma doNext_on x y qs qs' (l : list N) :
  Forall (run_on y) qs' → Forall2 (seek_step x y) qs qs' → qs ≠ [] → common qs y →
  StronglySorted N.lt l → (∀ z, common qs z ∧ (y ≤ z)%N ↔ z ∈ y :: l) → StronglySorted N.lt (y :: l) →
  intersect_on (mkIntersect (q_s <$> qs') y) y l.
Proof.
  intros Hon Hst Hne Hy Hl Hc Hs. exists qs'. split_and!; try done.
  - intros ->. inversion Hst. by subst.
  - intros z. rewrite <-Hc. split.
    + intros Hz. pose proof Hz as [? Hz0]. split; [done|]. split; [by eapply common_back|].
      destruct qs' as [|q' qs']; [inversion Hst; by subst|]. apply Forall_cons in Hon as [[Hq Hqc] _].
      specialize (Hz0 q' ltac:(left)). apply on_sorted, StronglySorted_cons in Hq as [Hlt _].
      unfold elems in Hz0. rewrite Hqc in Hz0. apply elem_of_cons in Hz0 as [->|Hz0]; [lia|].
      rewrite Forall_forall in Hlt. apply Hlt in Hz0. lia.
    + intros (_ & Hz & Hyz). by eapply common_forth.
Qed.

Lemma intersect_end qs qs' cur w c :
  Forall2 shrinks qs qs' → qs ≠ [] → Forall run_ready qs' → (∃ q', q' ∈ qs' ∧ q_l q' = []) →
  (∀ z, common qs' z → z = c) →
  ∃ f, (f = 0%N ∨ f = c) ∧ intersect_ready (mkIntersect (q_s <$> qs') cur) w f [].
Proof.
  intros Hsh Hne Hr Hend Hc.
  assert (qs' ≠ []) as Hne' by (intros ->; inversion Hsh; by subst).
  destruct (decide ((0 < c)%N ∧ Forall (λ q, c ∈ elems q) qs')) as [[Hc0 Hcc]|Hno].
  - exists c. split; [by right|]. exists qs'. split_and!; try done; [repeat constructor| |by right].
    intros y. rewrite list_elem_of_singleton. split; [|intros [_ ->]; split; [done|by apply Forall_forall]].
    intros Hy. split; [by destruct Hy|by apply Hc].
  - exists 0%N. split; [by left|]. exists qs'. split_and!; try done; [repeat constructor| |by right].
    intros y. rewrite list_elem_of_singleton. split; [|lia]. intros Hy. exfalso. apply Hno.
    pose proof (Hc y Hy) as <-. destruct Hy as [? Hy]. split; [done|by apply Forall_forall].
Qed.

Lemma next_pass_spec cur qs :
  Forall run_ready qs →
  (∃ qs' cur', next_pass cur (q_s <$> qs) = (true, q_s <$> qs', cur') ∧ Forall run_ready qs' ∧
     Forall2 (λ q q', elems q' = q_l q) qs qs' ∧ (cur ≤ cur')%N ∧
     (cur' = cur ∨ ∃ q', q' ∈ qs' ∧ q_c q' = cur') ∧ Forall (λ q', q_c q' ≤ cur')%N qs') ∨
  (∃ qs' cur', next_pass cur (q_s <$> qs) = (false, q_s <$> qs', cur') ∧ Forall run_ready qs' ∧
     Forall2 shrinks qs qs' ∧ (∃ q, q ∈ qs ∧ q_l q = []) ∧ ∃ q', q' ∈ qs' ∧ q_l q' = []).
Proof.
  intros Hqs. revert cur. induction Hqs as [|q qs Hq Hqs IH]; intros cur; csimpl.
  { left. exists [], cur. split_and!; try done. by left. }
  destruct (q_l q) as [|x l] eqn:Hl.
  - right. unfold run_ready in Hq. rewrite Hl in Hq. destruct (next_none _ _ _ Hq) as (s' & f & -> & Hf & Hr).
    exists (mkPrun s' f [] :: qs), cur. split_and!; [done|by constructor| |by exists q; split; [left|]|].
    + constructor; [|apply Forall2_same_length_lookup; split; [done|]; intros i a b Ha Hb; simplify_eq; by left].
      intros z Hz. unfold elems in Hz. apply list_elem_of_singleton in Hz as ->. simpl. destruct Hf as [->| ->]; [by right|left; by left].
    + exists (mkPrun s' f []). split; [by left|done].
  - unfold run_ready in Hq. rewrite Hl in Hq. destruct (next_some _ _ _ _ Hq) as (s' & -> & Hon).
    rewrite (proj1 (on_at _ _ _ Hon)). set (cur1 := if (cur <? x)%N then x else cur).
    assert (Hc1 : (cur ≤ cur1 ∧ x ≤ cur1)%N ∧ (cur1 = cur ∨ cur1 = x)).
    { unfold cur1. destruct (N.ltb_spec cur x); (split; [lia|auto]). }
    destruct (IH cur1) as [(qs' & cur' & -> & Hr & Hf2 & Hle & Hor & Hfa)|(qs' & cur' & -> & Hr & Hf2 & (q0 & ? & ?) & (q' & ? & ?))]; [left|right].
    + exists (mkPrun s' x l :: qs'), cur'. split_and!; [done| |by constructor|lia| |].
      * constructor; [|done]. by apply on_ready.
      * destruct Hor as [->|(q' & ? & ?)]; [|right; exists q'; split; [by right|done]].
        destruct Hc1 as [_ [->| ->]]; [by left|]. right. exists (mkPrun s' x l). split; [by left|done].
      * constructor; simpl; [lia|done].
    + exists (mkPrun s' x l :: qs'), cur'. split_and!; [done| | | |].
      * constructor; [|done]. by apply on_ready.
      * constructor; [|done]. intros z Hz. left. right. rewrite Hl. exact Hz.
      * exists q0. split; [by right|done].
      * exists q'. split; [by right|done].
Qed.

Lemma intersect_seek_outcome s w c l x :
  intersect_ready s w c l → (0 < x < limit)%N → seek_outcome intersect_ready intersect_on s c l x.
Proof.
  intros (qs & Hne & Harr & Hqs & Hsort & Hc & Hcase) Hx. unfold seek_outcome, Seek, intersect_seekable, intersect_seek.
  rewrite Harr. pose proof (StronglySorted_lt_le _ Hsort) as Hle.
  pose proof (drop_lt_sorted N.lt x (c :: l) Hsort) as Hds.
  pose proof (λ z, drop_lt_elem x (c :: l) z Hle) as Hde.
  destruct (doNext_spec (intersect_fuel (q_s <$> qs)) x qs Hne Hqs Hx (aheads_fuel x qs Hqs))
    as [(y & qs' & -> & Hxy & Hy & Hmin & Hon & Hst)|(qs' & cur & x' & -> & Hno & Hr & Hx' & Hst & q' & Hq' & Hl')].
  - left. assert (y ∈ drop_lt x (c :: l)) as Hyd by (apply Hde; split; [by apply Hc|done]).
    destruct (drop_lt x (c :: l)) as [|y' l'] eqn:Ed; [set_solver|]. pose proof Hds as [Hlt Hds']%StronglySorted_cons.
    rewrite Forall_forall in Hlt.
    assert (y' = y) as ->.
    { apply elem_of_cons in Hyd as [->|Hyd]; [done|]. apply Hlt in Hyd.
      destruct (proj1 (Hde y')) as [Hy'1 Hy'2]; [by left|].
      assert (common qs y') as Hy'c by (apply Hc; split; [lia|done]). specialize (Hmin y' Hy'c Hy'2). lia. }
    exists (mkIntersect (q_s <$> qs') y), y, l'. split_and!; [done| |done].
    eapply doNext_on; [done|done|done|done|done| |done].
    intros z. rewrite Hde, Hc. split; [intros [[??]?]; split; [done|lia]|].
    intros Hz. pose proof Hz as Hzd. rewrite <-Hde in Hzd. apply elem_of_cons in Hzd as [->|Hzd]; [|apply Hlt in Hzd];
      (split; [split; [lia|tauto]|lia]).
  - right.
    assert (drop_lt x (c :: l) = []) as Hd.
    { destruct (drop_lt x (c :: l)) as [|z d]; [done|]. destruct (proj1 (Hde z)) as [Hz1 Hz2]; [by left|].
      assert (common qs z) as Hz by (apply Hc; split; [lia|done]). apply Hno in Hz. lia. }
    destruct (intersect_end qs qs' cur x c) as (f & Hf & Hrf).
    + by eapply steps_shrink.
    + done.
    + done.
    + by exists q'.
    + intros z Hz. pose proof (common_back _ _ _ _ _ Hst Hz) as Hz0. pose proof (Hno z Hz0) as Hzx.
      destruct Hcase as [[_ Hall]|[-> _]]; [|by apply Hc in Hz0 as [_ ?%list_elem_of_singleton]].
      apply list_elem_of_lookup in Hq' as [i Hi]. destruct (Forall2_lookup_r _ _ _ _ _ Hst Hi) as (q & Hqi & _ & _ & Hqc).
      destruct Hz as [Hz00 Hz]. specialize (Hz q' (list_elem_of_lookup_2 _ _ _ Hi)). unfold elems in Hz. rewrite Hl' in Hz.
      apply list_elem_of_singleton in Hz as ->. rewrite Forall_forall in Hall.
      rewrite (Hall q (list_elem_of_lookup_2 _ _ _ Hqi)) in Hqc. lia.
    + exists (mkIntersect (q_s <$> qs') cur), f. split_and!; done.
Qed.

Lemma intersect_next_some s c x l :
  intersect_ready s 1 c (x :: l) → ∃ s', intersect_next s = (true, s') ∧ intersect_on s' x l.
Proof.
  intros (qs & Hne & Harr & Hqs & Hsort & Hc & Hcase). destruct Hcase as [[Hcur Hall]|[? _]]; [|done].
  unfold intersect_next. rewrite Harr, Hcur. pose proof Hsort as [Hlt Hxs]%StronglySorted_cons. rewrite Forall_forall in Hlt.
  assert (Hxl : ∀ z, z ∈ x :: l → ∀ q, q ∈ qs → z ∈ q_l q).
  { intros z Hz q Hq. apply Hlt in Hz as Hz'. destruct (proj2 (Hc z)) as [_ Hz2]; [split; [lia|by right]|].
    specialize (Hz2 q Hq). rewrite Forall_forall in Hall. unfold elems in Hz2. rewrite (Hall q Hq) in Hz2.
    apply elem_of_cons in Hz2 as [->|?]; [lia|done]. }
  destruct (next_pass_spec c qs Hqs) as
    [(qs' & cur' & -> & Hr & Hf2 & Hle & Hor & Hfa)|(qs' & cur' & -> & _ & _ & (q0 & Hq0 & Hl0) & _)].
  2: { exfalso. specialize (Hxl x ltac:(left) q0 Hq0). rewrite Hl0 in Hxl. set_solver. }
  assert (Hne' : qs' ≠ []) by (intros ->; inversion Hf2; by subst).
  assert (Hcc : ∀ z, common qs' z ↔ z ∈ x :: l).
  { intros z. split.
    - intros [Hz Hz']. assert (common qs z ∧ (c < z)%N) as [[_ Hzc]%Hc ?].
      { split; [split; [done|]|].
        - intros q Hq. apply list_elem_of_lookup in Hq as [i Hi]. destruct (Forall2_lookup_l _ _ _ _ _ Hf2 Hi) as (q' & Hi' & He).
          right. rewrite <-He. apply Hz'. by eapply list_elem_of_lookup_2.
        - destruct qs as [|q qs]; [done|]. inversion Hf2 as [|? q' ? ? He]; subst.
          apply Forall_cons in Hall as [<- _]. apply Forall_cons in Hqs as [Hq _]. eapply ready_lt; [exact Hq|].
          rewrite <-He. apply Hz'. by left. }
      apply elem_of_cons in Hzc as [->|?]; [lia|done].
    - intros Hz. pose proof (Hlt z Hz). split; [lia|]. intros q' Hq'. apply list_elem_of_lookup in Hq' as [i Hi'].
      destruct (Forall2_lookup_r _ _ _ _ _ Hf2 Hi') as (q & Hi & ->). apply Hxl; [done|]. by eapply list_elem_of_lookup_2. }
  assert (Hge : ∀ z q', common qs' z → q' ∈ qs' → (q_c q' ≤ z)%N).
  { intros z q' [_ Hz] Hq'. specialize (Hz q' Hq'). rewrite Forall_forall in Hr.
    pose proof (elems_sorted q' (Hr q' Hq')) as [Hl' _]%StronglySorted_cons. rewrite Forall_forall in Hl'.
    apply elem_of_cons in Hz as [->|Hz]; [lia|]. apply Hl' in Hz. lia. }
  assert (c < cur')%N as Hcur'.
  { destruct qs' as [|q' qs']; [done|]. destruct qs as [|q qs]; [done|]. inversion Hf2 as [|? ? ? ? He]; subst.
    apply Forall_cons in Hfa as [Hfa _]. apply Forall_cons in Hqs as [Hq _]. apply Forall_cons in Hall as [<- _].
    eapply N.lt_le_trans; [|exact Hfa]. eapply ready_lt; [exact Hq|]. rewrite <-He. by left. }
  destruct Hor as [->|(q' & Hq' & Hqc)]; [lia|].
  assert (Hlimq : (q_c q' < limit)%N).
  { rewrite Forall_forall in Hr. by apply Hr, ready_limit, Forall_cons in Hq' as [? _]. }
  destruct (doNext_spec (intersect_fuel (q_s <$> qs')) cur' qs' Hne' Hr ltac:(lia) (aheads_fuel cur' qs' Hr))
    as [(y & qs2 & -> & Hy & Hyc & Hmin & Hon & Hst)|(qs2 & cur2 & x' & _ & Hno & _)].
  2: { exfalso. assert (common qs' x) as Hx by (apply Hcc; left). pose proof (Hge x q' Hx Hq'). apply Hno in Hx. lia. }
  assert (y = x) as ->.
  { pose proof (proj1 (Hcc y) Hyc) as Hyl. assert (common qs' x) as Hx by (apply Hcc; left).
    pose proof (Hge x q' Hx Hq') as Hcx. rewrite Hqc in Hcx. specialize (Hmin x Hx Hcx).
    apply StronglySorted_cons in Hxs as [Hxl2 _]. rewrite Forall_forall in Hxl2.
    apply elem_of_cons in Hyl as [->|Hyl]; [done|]. apply Hxl2 in Hyl. lia. }
  exists (mkIntersect (q_s <$> qs2) x). split; [done|].
  apply (doNext_on cur' x qs' qs2 l); [done|done|done|done|by apply StronglySorted_cons in Hxs as [_ ?]| |done].
  intros z. rewrite Hcc. split; [tauto|]. intros Hz. split; [done|]. apply StronglySorted_cons in Hxs as [Hxl2 _].
  rewrite Forall_forall in Hxl2. apply elem_of_cons in Hz as [->|Hz]; [lia|]. apply Hxl2 in Hz. lia.
Qed.

Lemma intersect_next_none s w c :
  intersect_ready s w c [] →
  ∃ s' f, intersect_next s = (false, s') ∧ (f = 0%N ∨ f = c) ∧ intersect_ready s' w f [].
Proof.
  intros (qs & Hne & Harr & Hqs & Hsort & Hc & Hcase). unfold intersect_next. rewrite Harr.
  assert (Hcc : ∀ z, common qs z → z = c) by (intros z Hz; by apply Hc in Hz as [_ ?%list_elem_of_singleton]).
  destruct (next_pass_spec (ip_cur s) qs Hqs) as
    [(qs' & cur' & -> & Hr & Hf2 & Hle & Hor & Hfa)|(qs' & cur' & -> & Hr & Hsh & _ & Hend)].
  - destruct Hcase as [[Hcur Hall]|[_ (q & Hq & Hl)]].
    2: { exfalso. apply list_elem_of_lookup in Hq as [i Hi]. destruct (Forall2_lookup_l _ _ _ _ _ Hf2 Hi) as (q' & _ & He).
         rewrite Hl in He. done. }
    assert (Hsh : Forall2 shrinks qs qs').
    { eapply Forall2_impl; [exact Hf2|]. intros q q' He z Hz. rewrite He in Hz. left. by right. }
    assert (Hnoc : ∀ z, common qs' z → False).
    { intros z Hz. pose proof (Hcc z (common_shrinks _ _ _ Hsh Hz)) as ->. destruct Hz as [_ Hz].
      destruct qs as [|q qs]; [done|]. inversion Hf2 as [|? q' ? ? He]; subst. apply Forall_cons in Hall as [Hqc _].
      apply Forall_cons in Hqs as [Hq _]. specialize (Hz q' ltac:(left)). rewrite He in Hz. rewrite <-Hqc in Hz.
      apply (ready_lt _ _ _ _ _ Hq) in Hz. lia. }
    assert (Hne' : qs' ≠ []) by (intros ->; inversion Hf2; by subst).
    assert (0 < cur' < limit)%N as Hlim.
    { destruct Hor as [->|(q' & Hq' & <-)].
      - exfalso. destruct qs' as [|q' qs']; [done|]. destruct qs as [|q qs]; [done|]. inversion Hf2 as [|? ? ? ? He]; subst.
        apply Forall_cons in Hfa as [Hfa _]. apply Forall_cons in Hqs as [Hq _]. apply Forall_cons in Hall as [Hqc _].
        assert (q_c q < q_c q')%N; [|lia]. eapply ready_lt; [exact Hq|]. rewrite <-He. by left.
      - split; [|rewrite Forall_forall in Hr; by apply Hr, ready_limit, Forall_cons in Hq' as [? _]].
        apply list_elem_of_lookup in Hq' as [i Hi']. destruct (Forall2_lookup_r _ _ _ _ _ Hf2 Hi') as (q & Hi & He).
        rewrite Forall_forall in Hqs. apply list_elem_of_lookup_2 in Hi.
        assert (q_c q < q_c q')%N; [|lia]. eapply ready_lt; [by apply Hqs|]. rewrite <-He. by left. }
    destruct (doNext_spec (intersect_fuel (q_s <$> qs')) cur' qs' Hne' Hr Hlim (aheads_fuel cur' qs' Hr))
      as [(y & _ & _ & _ & Hyc & _)|(qs2 & cur2 & x' & -> & Hno & Hr2 & Hx' & Hst & Hend)].
    + exfalso. by eapply Hnoc.
    + destruct (intersect_end qs' qs2 cur2 w c) as (f & Hf & Hrf); [by eapply steps_shrink|done|done|done| |].
      * intros z Hz. exfalso. eapply Hnoc. by eapply common_back.
      * by exists (mkIntersect (q_s <$> qs2) cur2), f.
  - destruct (intersect_end qs qs' cur' w c) as (f & Hf & Hrf); [done..| |].
    + intros z Hz. apply Hcc. by eapply common_shrinks.
    + by exists (mkIntersect (q_s <$> qs') cur'), f.
Qed.

(** [Seek] below the current value. *)
Lemma intersect_stay_on s c l x :
  intersect_on s c l → (x ≤ c)%N → ∃ s', intersect_seek s x = (true, s') ∧ intersect_on s' c l.
Proof.
  intros Hon Hx. pose proof Hon as (qs & Hne & Harr & Hcur & Hqs & Hsort & Hc).
  assert (Hr : Forall run_ready qs) by (eapply Forall_impl; [exact Hqs|]; intros q; apply run_on_ready).
  destruct qs as [|q qs]; [done|]. apply Forall_cons in Hqs as [[Hq Hqc] Hqs].
  pose proof (on_limit _ _ _ Hq) as Hlim. destruct (on_at _ _ _ Hq) as [Hat Hc0].
  destruct (decide (x = 0%N)) as [->|Hx0].
  2: { change (intersect_seek s x) with (Seek s x). apply (outcome_stay intersect_ready intersect_on); [|done].
       eapply intersect_seek_outcome; [by apply intersect_on_ready|lia]. }
  destruct (stay_on _ _ _ 0 Hq Hx) as (s' & Hs & Hon').
  unfold intersect_seek. rewrite Harr. unfold intersect_fuel. csimpl. rewrite Hs, (proj1 (on_at _ _ _ Hon')).
  rewrite (proj2 (N.ltb_lt _ _)) by done.
  set (q1 := mkPrun s' c (q_l q)). change (s' :: (q_s <$> qs)) with (q_s <$> q1 :: qs).
  apply Forall_cons in Hr as [Hrq Hr].
  assert (Hr1 : Forall run_ready (q1 :: qs)) by (constructor; [by apply on_ready|done]).
  destruct (doNext_spec (S (remaining (q_s q)) + sum_list ((λ p, S (remaining p)) <$> (q_s <$> qs))) c (q1 :: qs))
    as [(y & qs2 & Hd & Hy & Hyc & Hmin & Hon2 & Hst)|(qs2 & cur2 & x' & _ & Hno & _)]; [done|done|lia| | |].
  - pose proof (aheads_fuel c qs Hr) as Hfu. unfold intersect_fuel, aheads in *. csimpl.
    unfold ahead at 1. simpl. rewrite N.ltb_irrefl. apply ready_len in Hrq. lia.
  - assert (Hcc : ∀ z, common (q1 :: qs) z ↔ (0 < z)%N ∧ z ∈ c :: l).
    { intros z. rewrite <-Hc. unfold common. f_equiv.
      assert (elems q1 = elems q) as He by (unfold elems; by rewrite Hqc).
      split; intros Hz q0 Hq0; apply elem_of_cons in Hq0 as [->|Hq0]; [rewrite <-He|..|rewrite He|];
        apply Hz; first [left|by right]. }
    assert (y = c) as ->.
    { assert (common (q1 :: qs) c) as Hc1 by (apply Hcc; split; [done|left]). specialize (Hmin c Hc1). lia. }
    eexists. split; [exact Hd|].
    apply (doNext_on c c (q1 :: qs) qs2 l); [done|done|done|done|by apply StronglySorted_cons in Hsort as [_ ?]| |done].
    intros z. rewrite Hcc. apply StronglySorted_cons in Hsort as [Hlt _]. rewrite Forall_forall in Hlt.
    split; [tauto|]. intros Hz. apply elem_of_cons in Hz as [->|Hz]; [split; [split; [done|left]|lia]|].
    pose proof (Hlt z Hz). split; [split; [lia|by right]|lia].
  - exfalso. assert (c < c)%N; [|lia]. apply Hno. split; [done|]. intros q0 Hq0. apply elem_of_cons in Hq0 as [->|Hq0]; [left|].
    rewrite Forall_forall in Hqs. destruct (Hqs q0 Hq0) as [_ <-]. left.
Qed.

Lemma intersect_ready_elem s w c l y :
  intersect_ready s w c l → (0 < y)%N → y ∈ c :: l → (y < limit)%N ∧ ∃ q0 qs, ip_arr s = q_s <$> q0 :: qs ∧ run_ready q0 ∧ y ∈ elems q0.
Proof.
  intros (qs & Hne & Harr & Hqs & Hsort & Hc & Hcase) Hy0 Hy. destruct qs as [|q0 qs]; [done|].
  destruct (proj2 (Hc y) (conj Hy0 Hy)) as [_ Hall]. specialize (Hall q0 ltac:(left)).
  apply Forall_cons in Hqs as [Hq0 _]. split; [|by exists q0, qs].
  pose proof (ready_limit _ _ _ _ Hq0) as Hl. rewrite Forall_forall in Hl. by apply Hl.
Qed.

Lemma intersect_len s w c l :
  intersect_ready s w c l → length l ≤ match ip_arr s with [] => 0 | p :: _ => S (remaining p) end.
Proof.
  intros Hs. pose proof Hs as (qs & Hne & Harr & Hqs & Hsort & Hc & Hcase). destruct qs as [|q0 qs]; [done|].
  rewrite Harr. csimpl. apply Forall_cons in Hqs as [Hq0 _]. apply ready_len in Hq0.
  pose proof Hsort as [Hlt Hl]%StronglySorted_cons. rewrite Forall_forall in Hlt.
  transitivity (length (elems q0)); [|simpl; lia]. apply submseteq_length, NoDup_submseteq.
  - by apply StronglySorted_lt_NoDup.
  - intros y Hy. apply Hlt in Hy as Hcy. destruct (proj2 (Hc y)) as [_ Hall]; [split; [lia|by right]|]. apply Hall. left.
Qed.

Global Instance intersect_ok : PostingsOk (intersectPostings St).
Proof.
  refine {| limit := limit (St := St); ready := intersect_ready; on := intersect_on |}.
  - apply limit_pos.
  - apply intersect_on_ready.
  - intros s c l (qs & Hne & _ & Hcur & Hqs & _). split; [done|]. destruct qs as [|q qs]; [done|].
    apply Forall_cons in Hqs as [[Hq _] _]. by apply on_at in Hq as [_ ?].
  - by intros s w c l (qs & _ & _ & _ & ? & _).
  - intros s w c l Hs. rewrite Forall_forall. intros y Hy. destruct (decide (y = 0%N)) as [->|].
    + destruct Hs as (qs & Hne & _ & Hqs & _). destruct qs as [|q qs]; [done|].
      apply Forall_cons in Hqs as [Hq _]. apply ready_limit, Forall_cons in Hq as [? _]. lia.
    + eapply intersect_ready_elem; [done| |done]. lia.
  - apply intersect_len.
  - intros s w c l (qs & _ & Harr & Hqs & _). simpl. unfold intersect_err. rewrite Harr. clear -Hqs.
    induction Hqs as [|q qs Hq Hqs IH]; csimpl; [done|]. by rewrite (ready_err _ _ _ _ Hq).
  - apply intersect_next_some.
  - apply intersect_next_none.
  - apply intersect_stay_on.
  - intros s w c l x Hs _ Hx. apply (outcome_stay intersect_ready intersect_on); [|lia].
    eapply intersect_seek_outcome; [done|]. split; [lia|]. eapply N.le_lt_trans; [apply Hx|].
    apply (intersect_ready_elem s w c l c); [done|lia|left].
  - intros s w c l x y l' Hs _ Hx Hd. apply (outcome_some intersect_ready intersect_on s c l); [|lia|done].
    eapply intersect_seek_outcome; [done|lia].
  - intros s w c l x Hs _ Hx Hd. apply (outcome_none intersect_ready intersect_on s c l); [|lia|done].
    eapply intersect_seek_outcome; [done|lia].
Defined.

Global Instance intersect_robust : PostingsRobust (intersectPostings St).
Proof. intros s w c l Hs. exact Hs. Qed.

(** A fresh intersection of inputs that have not been read. *)
Lemma newIntersect_ready (its : list St) (ls : list (list N)) (l : list N) :
  its ≠ [] → Forall2 (λ p li, ready p 1 0 li) its ls → StronglySorted N.lt l →
  (∀ y, y ∈ l ↔ ∀ li, li ∈ ls → y ∈ li) → ready (newIntersectPostings its) 1 0 l.
Proof.
  intros Hne Hf Hs Hl. exists (zip_with (λ p li, mkPrun p 0%N li) its ls).
  assert (Hlen := Forall2_length _ _ _ Hf).
  assert (Hin : ∀ q, q ∈ zip_with (λ p li, mkPrun p 0%N li) its ls → ready (q_s q) 1 0 (q_l q) ∧ q_c q = 0%N ∧ q_l q ∈ ls).
  { intros q Hq. apply elem_of_lookup_zip_with in Hq as (i & p & li & -> & Hp & Hli). simpl. split_and!; [|done|].
    - eapply Forall2_lookup_lr in Hf; [|done..]. done.
    - by eapply list_elem_of_lookup_2. }
  assert (Hpos : ∀ li y, li ∈ ls → y ∈ li → (0 < y)%N).
  { intros li y Hli Hy. apply list_elem_of_lookup in Hli as [i Hi]. destruct (Forall2_lookup_r _ _ _ _ _ Hf Hi) as (p & _ & Hp).
    by eapply ready_lt. }
  assert (Hls : ∃ li, li ∈ ls) by (destruct its, ls; simplify_eq/=; [eexists; left]).
  split_and!.
  - destruct its, ls; simplify_eq/=. done.
  - simpl. symmetry. clear -Hlen. revert ls Hlen. induction its as [|p its IH]; intros [|li ls] Hlen; simplify_eq/=; [done|].
    csimpl. f_equal. by apply IH.
  - apply Forall_forall. intros q Hq. destruct (Hin q Hq) as (? & Hc & _). unfold run_ready. by rewrite Hc.
  - constructor; [done|]. apply Forall_forall. intros y Hy. destruct Hls as [li Hli]. eapply Hpos; [done|]. by apply (proj1 (Hl y)).
  - intros y. split.
    + intros [Hy Hc]. split; [done|]. right. apply Hl. intros li Hli. apply list_elem_of_lookup in Hli as [i Hi].
      destruct (Forall2_lookup_r _ _ _ _ _ Hf Hi) as (p & Hp & _).
      assert (y ∈ elems (mkPrun p 0%N li)) as [?|?]%elem_of_cons; [|simpl in *; lia|done].
      apply Hc. apply elem_of_lookup_zip_with. by exists i, p, li.
    + intros [Hy Hyl]. apply elem_of_cons in Hyl as [?|Hyl]; [lia|]. split; [done|]. intros q Hq.
      destruct (Hin q Hq) as (_ & _ & Hq'). right. by apply (proj1 (Hl y)).
  - left. split; [done|]. apply Forall_forall. intros q Hq. by destruct (Hin q Hq) as (_ & ? & _).
Qed.
End IntersectOk.

(** ** Merge *)

Section MergeOk.
Context {St : Type} `{PostingsOk St}.

Global Instance post_less_weak : WeakOrder (post_less (St := St)).
Proof.
  split; unfold hle, post_less.
  - intros a. apply N.ltb_irrefl.
  - intros a b c. rewrite !N.ltb_ge. lia.
  - intros a b. rewrite !N.ltb_ge. lia.
Qed.

Definition queued (q : prun St) : Prop := on (q_s q) (q_c q) (q_l q).
Definition avail (qs : list (prun St)) (y : N) : Prop := ∃ q, q ∈ qs ∧ y ∈ elems q.

Lemma queued_at q : queued q → At (q_s q) = q_c q.
Proof. intros Hq. by apply on_at in Hq as [? _]. Qed.

Lemma queued_elems q y : queued q → y ∈ elems q → (q_c q ≤ y ∧ 0 < y < limit)%N.
Proof.
  intros Hq Hy. pose proof (on_ready _ _ _ Hq) as Hr. pose proof (ready_limit _ _ _ _ Hr) as Hl.
  rewrite Forall_forall in Hl. pose proof (Hl y Hy). destruct (on_at _ _ _ Hq) as [_ Hc].
  apply elem_of_cons in Hy as [->|Hy]; [lia|]. apply (ready_lt _ _ _ _ _ Hr) in Hy. lia.
Qed.

Lemma avail_perm qs qs' y : qs ≡ₚ qs' → avail qs y ↔ avail qs' y.
Proof. intros Hp. unfold avail. by setoid_rewrite Hp. Qed.

Lemma avail_cons q qs y : avail (q :: qs) y ↔ y ∈ elems q ∨ avail qs y.
Proof.
  unfold avail. split.
  - intros (q' & Hq & Hy). apply elem_of_cons in Hq as [->|Hq]; [by left|right; by exists q'].
  - intros [Hy|(q' & Hq & Hy)]; [exists q; split; [left|done]|exists q'; split; [by right|done]].
Qed.

(** A heap of inputs can be read as a list of runs in the same order. *)
Lemma heap_runs (h : list St) qs : h ≡ₚ q_s <$> qs → ∃ qs', qs' ≡ₚ qs ∧ h = q_s <$> qs'.
Proof. intros Hp. apply Permutation_map_inv in Hp as (qs' & ? & Hp). by exists qs'. Qed.

Lemma mheap_cons (h : list St) q qs : h = q_s <$> q :: qs → ∃ rest, h = q_s q :: rest ∧ rest = q_s <$> qs.
Proof. intros ->. by exists (q_s <$> qs). Qed.

(** The root of the heap is an input with the least value. *)
Definition mheap (h : list St) (qs : list (prun St)) : Prop :=
  h = q_s <$> qs ∧ is_heap post_less h ∧ Forall queued qs.

Lemma mheap_min h q qs y : mheap h (q :: qs) → avail (q :: qs) y → (q_c q ≤ y)%N.
Proof.
  intros (-> & Hh & Hqs) (q' & Hq' & Hy). rewrite Forall_forall in Hqs.
  pose proof (queued_elems _ _ (Hqs q' Hq') Hy) as [Hle _].
  assert (hle post_less (q_s q) (q_s q')) as Hm by (apply (is_heap_min post_less (q_s <$> q :: qs)); [done|done|by apply list_elem_of_fmap_2]).
  unfold hle, post_less in Hm. rewrite !queued_at in Hm by (apply Hqs; first [done|left]). go_arith.
Qed.

Lemma mheap_fix h q qs q' :
  mheap h (q :: qs) → queued q' →
  ∃ qs', mheap (heap_fix post_less 0 (q_s q' :: (q_s <$> qs))) qs' ∧ qs' ≡ₚ q' :: qs.
Proof.
  intros (-> & Hh & Hqs) Hq'. destruct (heap_runs (heap_fix post_less 0 (q_s q' :: (q_s <$> qs))) (q' :: qs)) as (qs' & Hp & He).
  { by rewrite heap_fix_perm. }
  exists qs'. split; [|done]. split_and!; [done|by apply (heap_fix_heap post_less (q_s q))|].
  rewrite Hp. apply Forall_cons in Hqs as [_ Hqs]. by constructor.
Qed.

Lemma mheap_pop h q qs p :
  mheap h (q :: qs) → ∃ qs', mheap (pop_rest (p :: (q_s <$> qs))) qs' ∧ qs' ≡ₚ qs.
Proof.
  intros (-> & Hh & Hqs). change (q_s <$> q :: qs) with (q_s q :: (q_s <$> qs)) in Hh.
  destruct (heap_pop_changed post_less _ p _ Hh) as (h' & Hpop & Hh' & Hp).
  destruct (heap_runs h' qs Hp) as (qs' & Hp' & ->). exists qs'. split; [|done]. unfold pop_rest. rewrite Hpop.
  split_and!; [done|done|]. rewrite Hp'. by apply Forall_cons in Hqs as [_ ?].
Qed.

Lemma avail_dec qs y : Decision (avail qs y).
Proof.
  refine (cast_if (decide (Exists (λ q, y ∈ elems q) qs))); unfold avail; rewrite Exists_exists in *; done.
Defined.

(** Values of the inputs that were not consumed. *)
Definition msize (qs : list (prun St)) : nat := sum_list ((λ q, S (length (q_l q))) <$> qs).

Lemma msize_perm qs qs' : qs ≡ₚ qs' → msize qs = msize qs'.
Proof. intros Hp. unfold msize. by rewrite Hp. Qed.

Lemma msize_cons q qs : msize (q :: qs) = S (length (q_l q)) + msize qs.
Proof. done. Qed.

(** The merge stands at [c], the value of its root. *)
Definition merged_at (h : list St) (c : N) (l : list N) : Prop :=
  ∃ q qs, mheap h (q :: qs) ∧ q_c q = c ∧ StronglySorted N.lt (c :: l) ∧ (∀ y, y ∈ l ↔ avail (q :: qs) y ∧ (c < y)%N).

Lemma head_unique l z (P : N → Prop) :
  StronglySorted N.lt l → (∀ y, y ∈ l ↔ P y) → P z → (∀ y, P y → (z ≤ y)%N) → ∃ l', l = z :: l'.
Proof.
  intros Hs Hl Hz Hmin. apply Hl in Hz. destruct l as [|x l]; [set_solver|]. exists l. f_equal.
  apply StronglySorted_cons in Hs as [Hlt _]. rewrite Forall_forall in Hlt.
  apply elem_of_cons in Hz as [->|Hz]; [done|]. apply Hlt in Hz. pose proof (Hmin x (proj1 (Hl x) ltac:(left))). lia.
Qed.

(** The loop of [Next]: past all inputs that are at [c], or to its end. *)
Lemma merged_loop_spec fuel h c l :
  merged_at h c l → (∀ q qs, mheap h (q :: qs) → msize (q :: qs) < fuel) →
  match l with
  | [] => merged_loop fuel h c = (false, mkMerged [] true c None)
  | x :: l' => ∃ h', merged_loop fuel h c = (true, mkMerged h' true x None) ∧ merged_at h' x l'
  end.
Proof.
  intros (q & qs & Hm & Hqc & Hs & Hl) Hf. specialize (Hf q qs Hm). revert h q qs Hm Hqc Hl Hf.
  induction fuel as [|fuel IH]; intros h q qs Hm Hqc Hl Hf; [lia|].
  pose proof Hm as (Hh & _ & Hqs). apply mheap_cons in Hh as (rest & -> & ->). cbn [merged_loop].
  (* what the loop does with the next heap *)
  assert (Hcont : ∀ h' qs', mheap h' qs' → (∀ y, y ∈ l ↔ avail qs' y ∧ (c < y)%N) → (∀ y, avail qs' y → (c ≤ y)%N) → msize qs' < fuel →
    let r := match h' with
             | [] => (false, mkMerged h' true c None)
             | top :: _ => if (At top =? c)%N then merged_loop fuel h' c else (true, mkMerged h' true (At top) None)
             end in
    match l with
    | [] => r = (false, mkMerged [] true c None)
    | x :: l' => ∃ h', r = (true, mkMerged h' true x None) ∧ merged_at h' x l'
    end).
  { intros h' qs' Hm' Hl' Hge Hf'. pose proof Hm' as (Hh' & _ & Hqs'). destruct qs' as [|q' qs'].
    - rewrite Hh'. simpl. destruct l as [|x l]; [done|]. exfalso. destruct (proj1 (Hl' x)) as [(q' & Hq' & _) _]; [left|set_solver].
    - apply mheap_cons in Hh' as (h0 & -> & _).
      apply Forall_cons in Hqs' as [Hq' _]. rewrite (queued_at q' Hq').
      destruct (N.eqb_spec (q_c q') c) as [Hc'|Hc'].
      + by apply (IH _ q' qs').
      + assert (c < q_c q')%N by (assert (c ≤ q_c q')%N by (apply Hge, avail_cons; left; left); lia).
        apply StronglySorted_cons in Hs as [Hlt Hs].
        destruct (head_unique l (q_c q') _ Hs Hl') as [l' ->].
        * split; [apply avail_cons; left; left|done].
        * intros y [Hy _]. by eapply mheap_min.
        * eexists. split; [done|]. exists q', qs'. split_and!; [done|done|done|].
          intros y. pose proof Hs as [Hlt' _]%StronglySorted_cons. rewrite Forall_forall in Hlt'. split.
          -- intros Hy. pose proof (Hlt' y Hy). split; [|done]. apply (Hl' y). by right.
          -- intros [Hy1 Hy2]. assert (y ∈ q_c q' :: l') as Hy3 by (apply Hl'; split; [done|lia]).
             apply elem_of_cons in Hy3 as [->|?]; [lia|done]. }
  apply Forall_cons in Hqs as [Hq Hqs]. pose proof (on_ready _ _ _ Hq) as Hr.
  assert (Hrest : ∀ y, avail qs y → (c ≤ y)%N) by (intros y Hy; rewrite <-Hqc; eapply mheap_min; [done|apply avail_cons; by right]).
  destruct (q_l q) as [|x0 l0] eqn:Hl0.
  - destruct (next_none _ _ _ Hr) as (s' & f & -> & _ & Hr'). rewrite (ready_err _ _ _ _ Hr').
    destruct (mheap_pop _ q qs s' Hm) as (qs' & Hm' & Hp). apply (Hcont _ qs' Hm').
    + intros y. rewrite Hl, (avail_perm _ _ y Hp), avail_cons. unfold elems. rewrite Hl0, list_elem_of_singleton.
      split; [|tauto]. intros [[->|?] ?]; [lia|done].
    + intros y. rewrite (avail_perm _ _ y Hp). apply Hrest.
    + rewrite (msize_perm _ _ Hp). rewrite msize_cons in Hf. lia.
  - destruct (next_some _ _ _ _ Hr) as (s' & -> & Hon).
    destruct (mheap_fix _ q qs (mkPrun s' x0 l0) Hm Hon) as (qs' & Hm' & Hp). apply (Hcont _ qs' Hm').
    + intros y. rewrite Hl, (avail_perm _ _ y Hp), !avail_cons. unfold elems. rewrite Hl0. cbn [q_c q_l].
      rewrite (elem_of_cons (x0 :: l0)). split; [|tauto]. intros [[[->|?]|?] ?]; [lia|tauto..].
    + intros y. rewrite (avail_perm _ _ y Hp), avail_cons. unfold elems. cbn [q_c q_l]. intros [Hy|?]; [|by apply Hrest].
      rewrite <-Hqc. apply N.lt_le_incl. by eapply ready_lt.
    + rewrite (msize_perm _ _ Hp). rewrite msize_cons, ?Hl0 in *. simpl in *. lia.
Qed.

Lemma merged_at_intro h q qs y l' :
  mheap h (q :: qs) → q_c q = y → StronglySorted N.lt (y :: l') →
  (∀ z, (y ≤ z)%N → z ∈ y :: l' ↔ avail (q :: qs) z) → merged_at h y l'.
Proof.
  intros Hm Hq Hs Hl. exists q, qs. split_and!; try done. intros z.
  apply StronglySorted_cons in Hs as [Hlt _]. rewrite Forall_forall in Hlt. split.
  - intros Hz. pose proof (Hlt z Hz). split; [|done]. apply Hl; [lia|by right].
  - intros [Hz Hyz]. apply Hl in Hz; [|lia]. apply elem_of_cons in Hz as [->|?]; [lia|done].
Qed.

(** The loop of [Seek]: [d] are the references from [id] on. *)
Lemma merged_seek_loop_spec fuel h q qs id d :
  mheap h (q :: qs) → StronglySorted N.lt d → (∀ y, y ∈ d ↔ avail (q :: qs) y ∧ (id ≤ y)%N) →
  length (filter (λ q, (q_c q < id)%N) (q :: qs)) < fuel → (0 < id < limit)%N →
  match d with
  | [] => ∃ c', merged_seek_loop fuel h (q_c q) id = (false, mkMerged [] true c' None)
  | y :: l' => ∃ h', merged_seek_loop fuel h (q_c q) id = (true, mkMerged h' true y None) ∧ merged_at h' y l'
  end.
Proof.
  intros Hm Hs Hd Hf Hid. revert h q qs Hm Hd Hf. induction fuel as [|fuel IH]; intros h q qs Hm Hd Hf; [lia|].
  pose proof Hm as (Hh & _ & Hqs). apply mheap_cons in Hh as (rest & -> & ->). cbn [merged_seek_loop].
  destruct (N.ltb_spec (q_c q) id) as [Hlt|Hge].
  2: { destruct (head_unique d (q_c q) _ Hs Hd) as [l' ->].
       - split; [apply avail_cons; left; left|done].
       - intros y [Hy _]. by eapply mheap_min.
       - eexists. split; [done|]. eapply merged_at_intro; [done|done|done|].
         intros z Hz. rewrite Hd. split; [tauto|]. intros. split; [done|lia]. }
  assert (Hcont : ∀ h' qs', mheap h' qs' → (∀ y, y ∈ d ↔ avail qs' y ∧ (id ≤ y)%N) →
    length (filter (λ q, (q_c q < id)%N) qs') < fuel →
    let r := match h' with
             | [] => (false, mkMerged h' true (q_c q) None)
             | top :: _ => merged_seek_loop fuel h' (At top) id
             end in
    match d with
    | [] => ∃ c', r = (false, mkMerged [] true c' None)
    | y :: l' => ∃ h', r = (true, mkMerged h' true y None) ∧ merged_at h' y l'
    end).
  { intros h' qs' Hm' Hd' Hf'. pose proof Hm' as (Hh' & _ & Hqs'). destruct qs' as [|q' qs'].
    - rewrite Hh'. simpl. destruct d as [|x d]; [by eexists|]. exfalso.
      destruct (proj1 (Hd' x)) as [(q' & Hq' & _) _]; [left|set_solver].
    - apply mheap_cons in Hh' as (h0 & -> & _). apply Forall_cons in Hqs' as [Hq' _]. rewrite (queued_at q' Hq').
      by apply (IH _ q' qs'). }
  apply Forall_cons in Hqs as [Hq Hqs]. pose proof (on_ready _ _ _ Hq) as Hr.
  rewrite filter_cons_True in Hf by done. simpl in Hf.
  pose proof (StronglySorted_lt_le _ (ready_sorted _ _ _ _ Hr)) as Hsq.
  pose proof (λ z, drop_lt_elem id (q_c q :: q_l q) z Hsq) as Hde.
  destruct (seek_cases _ _ _ _ id Hr ltac:(lia) Hid) as [(s' & y & l' & -> & Hon & Hdr)|(s' & f & -> & Hr' & Hdr & _)].
  - rewrite <-Hdr in Hde. destruct (mheap_fix _ q qs (mkPrun s' y l') Hm Hon) as (qs' & Hm' & Hp). apply (Hcont _ qs' Hm').
    + intros z. rewrite Hd, (avail_perm _ _ z Hp), !avail_cons. unfold elems. cbn [q_c q_l]. rewrite Hde. tauto.
    + rewrite Hp, filter_cons_False; [lia|]. simpl. apply N.nlt_ge, Hde. left.
  - rewrite (ready_err _ _ _ _ Hr'). rewrite Hdr in Hde. destruct (mheap_pop _ q qs s' Hm) as (qs' & Hm' & Hp).
    apply (Hcont _ qs' Hm').
    + intros z. rewrite Hd, (avail_perm _ _ z Hp), !avail_cons. specialize (Hde z). unfold elems. set_solver.
    + rewrite Hp. lia.
Qed.

Lemma sum_remaining qs : Forall queued qs → msize qs ≤ heap_size (q_s <$> qs).
Proof.
  induction 1 as [|q qs Hq Hqs IH]; [done|]. rewrite msize_cons. unfold heap_size. csimpl.
  apply on_ready, ready_len in Hq. unfold heap_size in IH. lia.
Qed.

Definition merged_on (s : mergedPostings St) (c : N) (l : list N) : Prop :=
  ∃ h, s = mkMerged h true c None ∧ merged_at h c l.

(** Before its first call, at a value, or past the end. *)
Definition merged_ready (s : mergedPostings St) (w c : N) (l : list N) : Prop :=
  merged_on s c l ∨
  (∃ qs, s = mkMerged (q_s <$> qs) false 0 None ∧ c = 0%N ∧ qs ≠ [] ∧ Forall queued qs ∧
     StronglySorted N.lt (c :: l) ∧ (∀ y, y ∈ l ↔ avail qs y)) ∨
  (∃ b c', s = mkMerged [] b c' None ∧ c = 0%N ∧ l = []).

Lemma merged_next_init qs l :
  qs ≠ [] → Forall queued qs → StronglySorted N.lt l → (∀ y, y ∈ l ↔ avail qs y) →
  ∃ h x l', l = x :: l' ∧ merged_next (mkMerged (q_s <$> qs) false 0 None) = (true, mkMerged h true x None) ∧ merged_at h x l'.
Proof.
  intros Hne Hqs Hs Hl. destruct (heap_runs (heap_init post_less (q_s <$> qs)) qs) as (qs' & Hp & Hh); [by rewrite heap_init_perm|].
  assert (Hm : mheap (heap_init post_less (q_s <$> qs)) qs') by (split_and!; [done|apply heap_init_heap; apply _|by rewrite Hp]).
  destruct qs' as [|q' qs']; [by apply Permutation_nil_l in Hp|].
  assert (Hl' : ∀ y, y ∈ l ↔ avail (q' :: qs') y) by (intros y; by rewrite Hl, (avail_perm _ _ y Hp)).
  destruct (head_unique l (q_c q') _ Hs Hl') as [l' ->]; [apply avail_cons; left; left|intros y Hy; by eapply mheap_min|].
  exists (heap_init post_less (q_s <$> qs)), (q_c q'), l'. split_and!; [done| |].
  - unfold merged_next. cbn [mp_h mp_err mp_initialized]. destruct qs as [|q qs]; [done|].
    change (q_s <$> q :: qs) with (q_s q :: (q_s <$> qs)) in *. cbv iota zeta. rewrite Hh. csimpl.
    destruct Hm as (_ & _ & [Hq _]%Forall_cons). by rewrite (queued_at _ Hq).
  - eapply merged_at_intro; [done|done|done|]. intros z _. by rewrite Hl'.
Qed.

Lemma merged_at_elems h c l :
  merged_at h c l → ∃ q qs, mheap h (q :: qs) ∧ q_c q = c ∧ ∀ y, y ∈ c :: l ↔ avail (q :: qs) y.
Proof.
  intros (q & qs & Hm & Hq & Hs & Hl). exists q, qs. split_and!; try done. intros y. rewrite elem_of_cons, Hl. split.
  - intros [->|[? _]]; [|done]. apply avail_cons. left. rewrite <-Hq. left.
  - intros Hy. pose proof (mheap_min _ _ _ _ Hm Hy). destruct (decide (y = c)); [by left|right]. split; [done|lia].
Qed.

Lemma merged_at_seek h c l id :
  merged_at h c l → (0 < id < limit)%N →
  (∃ h' y l', Seek (mkMerged h true c None) id = (true, mkMerged h' true y None) ∧ merged_at h' y l' ∧ y :: l' = drop_lt id (c :: l)) ∨
  (∃ c', Seek (mkMerged h true c None) id = (false, mkMerged [] true c' None) ∧ drop_lt id (c :: l) = []).
Proof.
  intros Hat Hid. destruct (merged_at_elems h c l Hat) as (q & qs & Hm & Hq & Hl).
  destruct Hat as (_ & _ & _ & _ & Hs & _).
  assert (Heq : Seek (mkMerged h true c None) id = merged_seek_loop (S (length h)) h (q_c q) id).
  { unfold Seek, merged_seekable, merged_seek. cbn [mp_h mp_err mp_initialized mp_cur]. rewrite Hq.
    destruct Hm as (Hh & _ & _). apply mheap_cons in Hh as (rest & -> & _). done. }
  rewrite Heq. pose proof (drop_lt_sorted N.lt id _ Hs) as Hds.
  pose proof (merged_seek_loop_spec (S (length h)) h q qs id (drop_lt id (c :: l)) Hm Hds) as Hsp.
  destruct (drop_lt id (c :: l)) as [|y l'] eqn:Ed.
  - right. destruct Hsp as [c' ->]; [| |done|].
    + intros y. rewrite <-Ed, drop_lt_elem by (by apply StronglySorted_lt_le). by rewrite Hl.
    + destruct Hm as (-> & _). rewrite length_fmap. apply Nat.lt_succ_r, length_filter.
    + by exists c'.
  - left. destruct Hsp as (h' & -> & Hat'); [| |done|].
    + intros z. rewrite <-Ed, drop_lt_elem by (by apply StronglySorted_lt_le). by rewrite Hl.
    + destruct Hm as (-> & _). rewrite length_fmap. apply Nat.lt_succ_r, length_filter.
    + by exists h', y, l'.
Qed.

Lemma merged_seek_outcome s w c l x :
  merged_ready s w c l → (0 < x < limit)%N → seek_outcome merged_ready merged_on s c l x.
Proof.
  assert (Hend : ∀ b c', merged_ready (mkMerged [] b c' None) x 0 []) by (intros b c'; right; right; by exists b, c').
  assert (Hx0 : ∀ l, (0 < x)%N → drop_lt x (0%N :: l) = drop_lt x l) by (intros l' ?; cbn [drop_lt]; by rewrite (proj2 (N.ltb_lt 0 x)) by lia).
  intros [(h & -> & Hat)|[(qs & -> & -> & Hne & Hqs & Hs & Hl)|(b & c' & -> & -> & ->)]] Hx.
  - destruct (merged_at_seek h c l x Hat Hx) as [(h' & y & l' & ? & ? & ?)|(c' & ? & ?)]; [left|right].
    + exists (mkMerged h' true y None), y, l'. split_and!; [done|by exists h'|done].
    + exists (mkMerged [] true c' None), 0%N. split_and!; [done|apply Hend|done|by left].
  - pose proof Hs as [Hlt Hs']%StronglySorted_cons.
    destruct (merged_next_init qs l Hne Hqs Hs' Hl) as (h & y & l' & -> & Hn & Hat).
    assert (Heq : Seek (mkMerged (q_s <$> qs) false 0 None) x = Seek (mkMerged h true y None) x).
    { unfold Seek, merged_seekable, merged_seek. rewrite Hn. cbn [mp_h mp_err mp_initialized mp_cur].
      destruct Hat as (q & qs2 & (Hh & _) & _). apply mheap_cons in Hh as (rest & -> & _).
      destruct qs as [|q1 qs]; [done|]. done. }
    unfold seek_outcome. rewrite Hx0, Heq by lia.
    destruct (merged_at_seek h y l' x Hat Hx) as [(h' & y' & l2 & ? & ? & ?)|(c' & ? & ?)]; [left|right].
    + exists (mkMerged h' true y' None), y', l2. split_and!; [done|by exists h'|done].
    + exists (mkMerged [] true c' None), 0%N. split_and!; [done|apply Hend|done|by left].
  - right. exists (mkMerged [] b c' None), 0%N. split_and!; [done|apply Hend|by rewrite Hx0 by lia|by left].
Qed.

Lemma avail_len qs l : StronglySorted N.lt l → (∀ y, y ∈ l → avail qs y) → length l ≤ msize qs.
Proof.
  intros Hs Hl. transitivity (length (concat (elems <$> qs))).
  - apply submseteq_length, NoDup_submseteq; [by apply StronglySorted_lt_NoDup|].
    intros y Hy. apply Hl in Hy as (q' & Hq' & Hy). apply list_elem_of_In, in_concat. exists (elems q').
    split; apply list_elem_of_In; [by apply list_elem_of_fmap_2|done].
  - rewrite length_concat. unfold msize. apply Nat.eq_le_incl. f_equal. by rewrite <-list_fmap_compose.
Qed.

Lemma merged_len s w c l : merged_ready s w c l → length l ≤ heap_size (mp_h s).
Proof.
  intros [(h & -> & q & qs & (-> & _ & Hqs) & _ & [_ Hs]%StronglySorted_cons & Hl)|
    [(qs & -> & -> & Hne & Hqs & [_ Hs]%StronglySorted_cons & Hl)|(b & c' & -> & -> & ->)]]; [| |simpl; lia].
  - etransitivity; [|by apply (sum_remaining (q :: qs))]. apply avail_len; [done|]. intros y Hy. by apply Hl.
  - etransitivity; [|by apply sum_remaining]. apply avail_len; [done|]. intros y Hy. by apply Hl.
Qed.

Lemma merged_at_range h c l y : merged_at h c l → y ∈ c :: l → (0 < y < limit)%N.
Proof.
  intros Hat Hy. destruct (merged_at_elems h c l Hat) as (q & qs & (_ & _ & Hqs) & _ & Hl).
  destruct (proj1 (Hl y) Hy) as (q' & Hq' & Hy'). rewrite Forall_forall in Hqs. by apply (queued_elems q' y (Hqs q' Hq')) in Hy' as [_ ?].
Qed.

Lemma merged_next_some s c x l :
  merged_ready s 1 c (x :: l) → ∃ s', merged_next s = (true, s') ∧ merged_on s' x l.
Proof.
  intros [(h & -> & Hat)|[(qs & -> & -> & Hne & Hqs & [_ Hs]%StronglySorted_cons & Hl)|(b & c' & -> & -> & ?)]]; [| |done].
  - destruct (merged_loop_spec (S (heap_size h)) h c (x :: l) Hat) as (h' & Hlo & Hat').
    { intros q qs (-> & _ & Hqs). apply Nat.lt_succ_r. by apply sum_remaining. }
    exists (mkMerged h' true x None). split; [|by exists h'].
    destruct Hat as (q & qs & (Hh & _) & _). apply mheap_cons in Hh as (rest & -> & _). exact Hlo.
  - destruct (merged_next_init qs (x :: l) Hne Hqs Hs Hl) as (h & y & l' & ? & Hn & Hat). simplify_eq.
    rewrite Hn. eexists. split; [done|]. by exists h.
Qed.

Lemma merged_next_none s w c :
  merged_ready s w c [] → ∃ s' f, merged_next s = (false, s') ∧ (f = 0%N ∨ f = c) ∧ merged_ready s' w f [].
Proof.
  intros [(h & -> & Hat)|[(qs & -> & -> & Hne & Hqs & [_ Hs]%StronglySorted_cons & Hl)|(b & c' & -> & -> & _)]].
  - pose proof (merged_loop_spec (S (heap_size h)) h c [] Hat) as Hlo.
    exists (mkMerged [] true c None), 0%N. split_and!; [|by left|right; right; by exists true, c].
    rewrite <-Hlo; [|intros q qs (-> & _ & Hqs); apply Nat.lt_succ_r; by apply sum_remaining].
    destruct Hat as (q & qs & (Hh & _) & _). apply mheap_cons in Hh as (rest & -> & _). done.
  - destruct (merged_next_init qs [] Hne Hqs Hs Hl) as (h & y & l' & ? & _). done.
  - exists (mkMerged [] b c' None), 0%N. split_and!; [done|by left|right; right; by exists b, c'].
Qed.

Global Instance merged_ok : PostingsOk (mergedPostings St).
Proof.
  refine {| limit := limit (St := St); ready := merged_ready; on := merged_on |}.
  - apply limit_pos.
  - intros s c l Hs. by left.
  - intros s c l (h & -> & Hat). split; [done|]. eapply merged_at_range; [done|left].
  - intros s w c l [(h & -> & q & qs & _ & _ & Hs & _)|[(qs & -> & -> & Hne & Hqs & Hs & Hl)|(b & c' & -> & -> & ->)]];
      [done|done|repeat constructor].
  - intros s w c l [(h & -> & Hat)|[(qs & -> & -> & Hne & Hqs & Hs & Hl)|(b & c' & -> & -> & ->)]].
    + apply Forall_forall. intros y Hy. by apply (merged_at_range h c l y).
    + constructor; [apply limit_pos|]. apply Forall_forall. intros y Hy. apply Hl in Hy as (q & Hq & Hy).
      rewrite Forall_forall in Hqs. by apply (queued_elems q y (Hqs q Hq)) in Hy as [_ [_ ?]].
    + repeat constructor. apply limit_pos.
  - apply merged_len.
  - intros s w c l [(h & -> & Hat)|[(qs & -> & _)|(b & c' & -> & -> & ->)]]; done.
  - apply merged_next_some.
  - apply merged_next_none.
  - intros s c l x (h & -> & Hat) Hx. exists (mkMerged h true c None). split; [|by exists h].
    unfold Seek, merged_seekable, merged_seek. cbn [mp_h mp_err mp_initialized mp_cur].
    destruct Hat as (q & qs & (Hh & _) & _). apply mheap_cons in Hh as (rest & -> & _).
    cbn [merged_seek_loop]. by rewrite (proj2 (N.ltb_ge _ _)).
  - intros s w c l x Hs _ Hx. apply (outcome_stay merged_ready merged_on); [|lia].
    eapply merged_seek_outcome; [done|]. destruct Hs as [(h & -> & Hat)|[(qs & -> & -> & _)|(b & c' & -> & -> & ->)]]; [|lia..].
    pose proof (merged_at_range h c l c Hat ltac:(left)). lia.
  - intros s w c l x y l' Hs _ Hx Hd. apply (outcome_some merged_ready merged_on s c l); [|lia|done].
    eapply merged_seek_outcome; [done|lia].
  - intros s w c l x Hs _ Hx Hd. apply (outcome_none merged_ready merged_on s c l); [|lia|done].
    eapply merged_seek_outcome; [done|lia].
Defined.

Global Instance merged_robust : PostingsRobust (mergedPostings St).
Proof. intros s w c l Hs. exact Hs. Qed.

(** [y] is in one of the lists. *)
Definition in_some (ls : list (list N)) (y : N) : Prop := ∃ li, li ∈ ls ∧ y ∈ li.

Lemma in_some_cons li ls y : in_some (li :: ls) y ↔ y ∈ li ∨ in_some ls y.
Proof.
  unfold in_some. split.
  - intros (l' & Hl & Hy). apply elem_of_cons in Hl as [->|Hl]; [by left|right; by exists l'].
  - intros [Hy|(l' & Hl & Hy)]; [exists li; split; [left|done]|exists l'; split; [by right|done]].
Qed.

Lemma new_merged_spec ph its ls :
  Forall queued ph → Forall2 (λ p li, ready p 1 0 li) its ls →
  ∃ qs, Forall queued qs ∧
    new_merged_loop (q_s <$> ph) its = match qs with [] => None | _ => Some (mkMerged (q_s <$> qs) false 0 None) end ∧
    ∀ y, avail qs y ↔ avail ph y ∨ in_some ls y.
Proof.
  intros Hph Hf. revert ph Hph. induction Hf as [|p li its ls Hp Hf IH]; intros ph Hph.
  - exists ph. split_and!; [done|by destruct ph|]. intros y. split; [by left|]. intros [?|(? & ?%elem_of_nil & _)]; done.
  - cbn [new_merged_loop]. destruct li as [|x l].
    + destruct (next_none _ _ _ Hp) as (s' & f & -> & _ & Hr). rewrite (ready_err _ _ _ _ Hr).
      destruct (IH ph Hph) as (qs & Hqs & -> & Hav). exists qs. split_and!; [done|done|].
      intros y. rewrite Hav, in_some_cons, elem_of_nil. tauto.
    + destruct (next_some _ _ _ _ Hp) as (s' & -> & Hon).
      destruct (IH (ph ++ [mkPrun s' x l])) as (qs & Hqs & Heq & Hav); [apply Forall_app; split; [done|by constructor]|].
      rewrite fmap_app in Heq. exists qs. split_and!; [done|exact Heq|].
      intros y. rewrite Hav, in_some_cons.
      rewrite (avail_perm _ (mkPrun s' x l :: ph)) by (by rewrite Permutation_app_comm). rewrite avail_cons.
      change (elems (mkPrun s' x l)) with (x :: l). tauto.
Qed.
End MergeOk.

(** ** Without *)

(** [Seek] of the second kind can be called with any reference of the first. *)
Class LimitLe (SF SR : Type) `{PostingsOk SF, PostingsOk SR} : Prop :=
  limit_le : (limit (St := SF) ≤ limit (St := SR))%N.

Global Instance limit_le_refl `{PostingsOk SF} : LimitLe SF SF.
Proof. unfold LimitLe. lia. Qed.

Section WithoutOk.
Context {SF SR : Type} `{PostingsOk SF, PostingsOk SR, !LimitLe SF SR}.

Abbreviation rps := (removedPostings SF SR).

(** [l] are the references of the first list that are not in the second. *)
Definition minus (l lf lr : list N) : Prop := ∀ y, y ∈ l ↔ y ∈ lf ∧ (y ∉ lr).

(** [full] is on its next candidate; [remove] is on a value, or past its end. *)
Definition remove_state (remove : SR) (rok : bool) (b r : N) (lr : list N) : Prop :=
  if rok then on remove r lr else lr = [] ∧ (r < b)%N ∧ ∃ wr, (wr ≤ b)%N ∧ ready remove wr r lr.

Definition live (s : rps) (c : N) (l : list N) : Prop :=
  rp_initialized s = true ∧ rp_cur s = c ∧ rp_fok s = true ∧
  ∃ f lf r lr, on (rp_full s) f lf ∧ (c < f)%N ∧ remove_state (rp_remove s) (rp_rok s) (c + 1) r lr ∧
    minus l (f :: lf) (r :: lr).

(** Past the end of [full]; from [b] on nothing is left that is not removed. *)
Definition over (s : rps) (b c : N) : Prop :=
  rp_initialized s = true ∧ rp_cur s = c ∧ rp_fok s = false ∧
  ∃ wf f wr r lr, ready (rp_full s) wf f [] ∧ ready (rp_remove s) wr r lr ∧ (wf ≤ b)%N ∧ (wr ≤ b)%N ∧
    ((f < b)%N ∨ f ∈ r :: lr).

Definition fresh (s : rps) (l : list N) : Prop :=
  rp_initialized s = false ∧ rp_cur s = 0%N ∧
  ∃ lf lr, ready (rp_full s) 1 0 lf ∧ ready (rp_remove s) 1 0 lr ∧ minus l lf lr.

Definition removed_on (s : rps) (c : N) (l : list N) : Prop :=
  StronglySorted N.lt (c :: l) ∧ (0 < c < limit (St := SF))%N ∧ (live s c l ∨ (l = [] ∧ over s (c + 1) c)).

Definition removed_ready (s : rps) (w c : N) (l : list N) : Prop :=
  StronglySorted N.lt (c :: l) ∧ (c < limit (St := SF))%N ∧
  (live s c l ∨ (l = [] ∧ over s (N.max (c + 1) w) c) ∨ (c = 0%N ∧ fresh s l)).

Lemma over_mono s b b' c : (b ≤ b')%N → over s b c → over s b' c.
Proof.
  intros Hb (? & ? & ? & wf & f & wr & r & lr & ? & ? & ? & ? & Hor). split_and!; try done.
  exists wf, f, wr, r, lr. split_and!; try done; [lia|lia|]. destruct Hor; [left; lia|by right].
Qed.

Lemma remove_state_ready remove rok b r lr :
  remove_state remove rok b r lr → (1 ≤ b)%N → ∃ wr, (wr ≤ b)%N ∧ ready remove wr r lr.
Proof.
  unfold remove_state. destruct rok; [|by intros (_ & _ & ?)]. intros Hon Hb. exists 1%N. split; [done|by apply on_ready].
Qed.

Lemma remove_state_sorted remove rok b r lr :
  remove_state remove rok b r lr → StronglySorted N.lt (r :: lr).
Proof.
  unfold remove_state. destruct rok; [apply on_sorted|]. intros (_ & _ & wr & _ & Hr). by eapply ready_sorted.
Qed.

Lemma sorted_head_le x l y : StronglySorted N.lt (x :: l) → y ∈ x :: l → (x ≤ y)%N.
Proof.
  intros [Hlt _]%StronglySorted_cons Hy. rewrite Forall_forall in Hlt.
  apply elem_of_cons in Hy as [->|Hy]; [lia|]. apply Hlt in Hy. lia.
Qed.

(** What is left after the candidate [f] was taken. *)
Lemma minus_take l f lf lr :
  StronglySorted N.lt (f :: lf) → StronglySorted N.lt l → minus l (f :: lf) lr → (f ∉ lr) →
  ∃ l', l = f :: l' ∧ minus l' lf lr.
Proof.
  intros Hs Hsl Hl Hf. destruct (head_unique l f _ Hsl Hl) as [l' ->].
  - split; [left|done].
  - intros y [Hy _]. by apply (sorted_head_le f lf).
  - exists l'. split; [done|]. intros y. specialize (Hl y). rewrite !elem_of_cons in Hl.
    apply StronglySorted_cons in Hs as [Hlt _], Hsl as [Hlt' _]. rewrite Forall_forall in Hlt, Hlt'.
    split; intros Hy.
    + destruct (proj1 Hl (or_intror Hy)) as [[->|?] ?]; [apply Hlt' in Hy; lia|done].
    + destruct Hy as [Hy1 Hy2]. destruct (proj2 Hl (conj (or_intror Hy1) Hy2)) as [->|?]; [apply Hlt in Hy1; lia|done].
Qed.

Lemma minus_skip l f lf lr : minus l (f :: lf) lr → f ∈ lr → minus l lf lr.
Proof. intros Hl Hf y. rewrite (Hl y), elem_of_cons. naive_solver. Qed.

(** Taking the candidate. *)
Lemma removed_take full f lf remove rok r lr l :
  on full f lf → remove_state remove rok (f + 1) r lr → (f ∉ r :: lr) → StronglySorted N.lt l → minus l (f :: lf) (r :: lr) →
  ∃ fok full' l', Next full = (fok, full') ∧ l = f :: l' ∧
    removed_on (mkRemoved full' remove f true fok rok) f l'.
Proof.
  intros Hon Hrem Hf Hs Hl. destruct (minus_take l f lf (r :: lr) (on_sorted _ _ _ Hon) Hs Hl Hf) as (l' & -> & Hl').
  destruct (on_at _ _ _ Hon) as [_ Hf0]. pose proof (on_limit _ _ _ Hon). pose proof (on_ready _ _ _ Hon) as Hr.
  destruct lf as [|f1 lf].
  - destruct (next_none _ _ _ Hr) as (full' & f' & Hn & Hf' & Hr'). exists false, full', l'.
    assert (l' = []) as -> by (destruct l' as [|y l']; [done|]; destruct (proj1 (Hl' y)) as [?%elem_of_nil _]; [left|done]).
    split_and!; [done|done|]. split_and!; [done|done|done|]. right. split; [done|]. split_and!; try done.
    destruct (remove_state_ready _ _ _ _ _ Hrem) as (wr & Hwr & Hrr); [lia|].
    exists 1%N, f', wr, r, lr. split_and!; try done; [lia|left; lia].
  - destruct (next_some _ _ _ _ Hr) as (full' & Hn & Hon'). exists true, full', l'. split_and!; [done|done|].
    split_and!; [done|done|done|]. left. split_and!; try done. exists f1, lf, r, lr. split_and!; try done.
    apply (ready_lt full 1 f (f1 :: lf)); [exact Hr|left].
Qed.

Lemma removed_loop_spec fuel full remove cur b f lf rok r lr l :
  on full f lf → (b ≤ f)%N → (cur < b)%N → remove_state remove rok f r lr →
  StronglySorted N.lt l → minus l (f :: lf) (r :: lr) →
  2 * length lf + (if rok then if (r <? f)%N then 3 else 2 else 1) ≤ fuel →
  match l with
  | [] => ∃ s', removed_loop fuel full remove cur true rok = (false, s') ∧ over s' b cur
  | y :: l' => ∃ s', removed_loop fuel full remove cur true rok = (true, s') ∧ removed_on s' y l'
  end.
Proof.
  revert full remove b f lf rok r lr. induction fuel as [|fuel IH]; intros full remove b f lf rok r lr Hon Hb Hcur Hrem Hs Hl Hfu.
  { destruct rok, (r <? f)%N; lia. }
  destruct (on_at _ _ _ Hon) as [Hat Hf0]. pose proof (remove_state_sorted _ _ _ _ _ Hrem) as Hsr.
  assert (Hmono : ∀ rok', rok' = rok → (f ∉ r :: lr) → remove_state remove rok' (f + 1) r lr).
  { intros rok' -> _. unfold remove_state in *. destruct rok; [done|]. destruct Hrem as (? & ? & wr & ? & ?).
    split_and!; [done|lia|]. exists wr. split; [lia|done]. }
  cbn [removed_loop negb]. destruct rok; cbn [negb].
  - destruct (on_at _ _ _ Hrem) as [Hrat Hr0]. rewrite Hat, Hrat.
    destruct (N.ltb_spec f r) as [Hfr|Hfr]; [|destruct (N.ltb_spec r f) as [Hrf|Hrf]].
    + assert (f ∉ r :: lr) as Hf by (intros Hin; apply (sorted_head_le r lr f Hsr) in Hin; lia).
      destruct (removed_take full f lf remove true r lr l Hon (Hmono true eq_refl Hf) Hf Hs Hl) as (fok & full' & l' & -> & -> & Ho).
      by eexists.
    + pose proof (on_limit _ _ _ Hon) as Hlim.
      pose proof (λ z, drop_lt_elem f (r :: lr) z (StronglySorted_lt_le _ Hsr)) as Hde.
      pose proof (limit_le (SF := SF) (SR := SR)).
      destruct (seek_cases _ _ _ _ f (on_ready _ _ _ Hrem) ltac:(lia) ltac:(lia)) as [(s' & y & l' & -> & Hon' & Hd)|(s' & f' & -> & Hr' & Hd & Hf')].
      * rewrite <-Hd in Hde. apply (IH full s' b f lf true y l'); try done.
        -- intros z. rewrite (Hl z). split; intros [Hz1 Hz2]; (split; [done|]); intros Hz3; apply Hz2; apply (Hde z); [done|].
           split; [done|]. by apply (sorted_head_le f lf z (on_sorted _ _ _ Hon)).
        -- assert (f ≤ y)%N by (apply Hde; left). rewrite (proj2 (N.ltb_ge y f)) by done. lia.
      * rewrite Hd in Hde. apply (IH full s' b f lf false f' []); try done.
        -- split_and!; [done|lia|]. by exists f.
        -- intros z. rewrite (Hl z). split; intros [Hz1 Hz2]; (split; [done|]);
             pose proof (sorted_head_le f lf z (on_sorted _ _ _ Hon) Hz1).
           ++ rewrite list_elem_of_singleton. lia.
           ++ intros Hz3. assert (z ∈ []) as ?%elem_of_nil by (apply Hde; by split). done.
        -- lia.
    + assert (f = r) as <- by lia. assert (f ∈ f :: lr) as Hin by left. pose proof (minus_skip l f lf _ Hl Hin) as Hl'.
      pose proof (on_ready _ _ _ Hon) as Hr. destruct lf as [|f1 lf].
      * assert (l = []) as -> by (destruct l as [|y l']; [done|]; destruct (proj1 (Hl' y)) as [?%elem_of_nil _]; [left|done]).
        destruct (next_none _ _ _ Hr) as (full' & f' & -> & Hf' & Hr'). destruct fuel as [|fuel]; [lia|]. simpl.
        eexists. split; [done|]. split_and!; try done. exists 1%N, f', 1%N, f, lr. split_and!; [done|by apply on_ready|lia|lia|].
        destruct Hf' as [->| ->]; [left; lia|by right].
      * destruct (next_some _ _ _ _ Hr) as (full' & -> & Hon').
        assert (f < f1)%N by (apply (ready_lt full 1 f (f1 :: lf)); [exact Hr|left]).
        apply (IH full' remove b f1 lf true f lr); try done; [lia|].
        rewrite (proj2 (N.ltb_lt f f1)) by done. simpl in Hfu. rewrite ?N.ltb_irrefl in Hfu. lia.
  - destruct Hrem as (-> & Hrf & Hrem). rewrite Hat.
    assert (f ∉ [r]) as Hf by (rewrite list_elem_of_singleton; lia).
    destruct (removed_take full f lf remove false r [] l Hon (Hmono false eq_refl Hf) Hf Hs Hl) as (fok & full' & l' & -> & -> & Ho).
    by eexists.
Qed.

Lemma removed_fuel_enough (full : SF) f lf (rok : bool) (r : N) :
  on full f lf → 2 * length lf + (if rok then if (r <? f)%N then 3 else 2 else 1) ≤ removed_fuel full.
Proof. intros Hon. apply on_ready, ready_len in Hon. unfold removed_fuel. destruct rok, (r <? f)%N; lia. Qed.

(** [Seek] beyond the current value: [d] are the references left from [x] on. *)
Lemma removed_seek_core (s : rps) wf f lf wr r lr x d :
  ready (rp_full s) wf f lf → ready (rp_remove s) wr r lr → (wf ≤ x)%N → (wr ≤ x)%N →
  (rp_cur s < x < limit (St := SF))%N →
  StronglySorted N.lt d → (∀ y, y ∈ d ↔ (y ∈ f :: lf ∧ (y ∉ r :: lr)) ∧ (x ≤ y)%N) →
  match d with
  | [] => ∃ s', removed_seek s x = (false, s') ∧ over s' x (rp_cur s)
  | y :: l' => ∃ s', removed_seek s x = (true, s') ∧ removed_on s' y l'
  end.
Proof.
  intros Hf Hr Hwf Hwr Hx Hs Hd. unfold removed_seek. rewrite (proj2 (N.leb_gt _ _)) by lia.
  pose proof (λ z, drop_lt_elem x (f :: lf) z (StronglySorted_lt_le _ (ready_sorted _ _ _ _ Hf))) as Hdf.
  pose proof (λ z, drop_lt_elem x (r :: lr) z (StronglySorted_lt_le _ (ready_sorted _ _ _ _ Hr))) as Hdr.
  assert (Hrem : ∃ rok remove' r' lr', Seek (rp_remove s) x = (rok, remove') ∧
    (∀ b, (x ≤ b)%N → remove_state remove' rok b r' lr') ∧ (∀ z, (x ≤ z)%N → z ∈ r' :: lr' ↔ z ∈ r :: lr)).
  { pose proof (limit_le (SF := SF) (SR := SR)). destruct (seek_cases _ _ _ _ x Hr Hwr ltac:(lia)) as [(s' & y & l' & -> & Hon & Hq)|(s' & f' & -> & Hr' & Hq & Hf')].
    - exists true, s', y, l'. split_and!; [done|done|]. intros z Hz. rewrite Hq, Hdr. tauto.
    - exists false, s', f', []. rewrite Hq in Hdr.
      assert (f' < x)%N.
      { destruct (N.lt_ge_cases f' x) as [?|Hge]; [done|]. destruct Hf' as [->| ->]; [lia|].
        assert (r ∈ []) as ?%elem_of_nil by (apply Hdr; split; [left|done]). done. }
      split_and!; [done| |].
      + intros b Hb. split_and!; [done|lia|]. by exists x.
      + intros z Hz. rewrite list_elem_of_singleton. split; [lia|]. intros Hz2.
        assert (z ∈ []) as ?%elem_of_nil by (apply Hdr; by split). done. }
  destruct Hrem as (rok & remove' & r' & lr' & Hsk & Hrst & Hrel).
  destruct (seek_cases _ _ _ _ x Hf Hwf ltac:(lia)) as [(full' & y & l' & -> & Hon & Hq)|(full' & f' & -> & Hf'r & Hq & Hf')]; rewrite Hsk.
  - unfold removed_next. cbn [rp_initialized rp_full rp_remove rp_cur rp_fok rp_rok].
    assert (x ≤ y)%N by (apply Hdf; rewrite <-Hq; left).
    apply (removed_loop_spec _ full' remove' (rp_cur s) x y l' rok r' lr' d); try done; [lia|by apply Hrst| |by apply removed_fuel_enough].
    intros z. rewrite Hd, Hq, Hdf. split.
    + intros [[? Hz] ?]. split; [done|]. by rewrite (Hrel z).
    + intros [[? Hz] Hn]. rewrite (Hrel z) in Hn by done. done.
  - rewrite Hq in Hdf.
    assert (d = []) as -> by (destruct d as [|z d]; [done|]; destruct (proj1 (Hd z)) as [[Hz _] ?]; [left|];
      assert (z ∈ []) as ?%elem_of_nil by (apply Hdf; by split); done).
    unfold removed_next. cbn [rp_initialized rp_full rp_remove rp_cur rp_fok rp_rok].
    unfold removed_fuel. rewrite Nat.add_comm. cbn [removed_loop negb Nat.add]. eexists. split; [done|]. split_and!; try done.
    destruct (remove_state_ready _ _ _ _ _ (Hrst x ltac:(lia))) as (wr' & ? & ?); [lia|].
    exists x, f', wr', r', lr'. split_and!; try done. left.
    destruct (N.lt_ge_cases f' x) as [?|Hge]; [done|]. destruct Hf' as [->| ->]; [lia|].
    assert (f ∈ []) as ?%elem_of_nil by (apply Hdf; split; [left|done]). done.
Qed.

Lemma removed_seek_gt s w c l x :
  removed_ready s w c l → (w ≤ x)%N → (c < x < limit (St := SF))%N → seek_outcome removed_ready removed_on s c l x.
Proof.
  intros (Hs & Hc & Hcase) Hw Hx. unfold seek_outcome.
  assert (Hcx : drop_lt x (c :: l) = drop_lt x l) by (cbn [drop_lt]; by rewrite (proj2 (N.ltb_lt c x)) by lia).
  rewrite Hcx. pose proof Hs as [_ Hsl]%StronglySorted_cons.
  pose proof (drop_lt_sorted N.lt x l Hsl) as Hds. pose proof (λ z, drop_lt_elem x l z (StronglySorted_lt_le _ Hsl)) as Hde.
  enough (Hcore : rp_cur s = c ∧ match drop_lt x l with
    | [] => ∃ s', removed_seek s x = (false, s') ∧ over s' x (rp_cur s)
    | y :: l' => ∃ s', removed_seek s x = (true, s') ∧ removed_on s' y l' end).
  { destruct Hcore as [Hcur Hcore]. destruct (drop_lt x l) as [|y l']; [right|left].
    - destruct Hcore as (s' & ? & Ho). rewrite Hcur in Ho. exists s', c. split_and!; [done| |done|by right].
      split_and!; [repeat constructor|done|]. right; left. split; [done|]. eapply over_mono; [|done]. lia.
    - destruct Hcore as (s' & ? & Ho). by exists s', y, l'. }
  destruct Hcase as [(Hi & Hcur & Hfok & f & lf & r & lr & Hon & Hcf & Hrem & Hl)|[[-> Hover]|[-> (Hi & Hcur & lf & lr & Hf & Hr & Hl)]]].
  - split; [done|]. destruct (remove_state_ready _ _ _ _ _ Hrem) as (wr & ? & ?); [lia|].
    apply (removed_seek_core s 1 f lf wr r lr x); try done; [by apply on_ready|lia|lia|lia|].
    intros y. by rewrite Hde, (Hl y).
  - destruct Hover as (Hi & Hcur & Hfok & wf & f & wr & r & lr & Hf & Hr & ? & ? & Hor). split; [done|].
    apply (removed_seek_core s wf f [] wr r lr x []); [done|done|lia|lia|lia|constructor|].
    intros y. rewrite elem_of_nil, list_elem_of_singleton. split; [done|]. intros [[-> Hn] Hy]. destruct Hor; [lia|done].
  - split; [done|]. apply (removed_seek_core s 1 0 lf 1 0 lr x (drop_lt x l)); [done|done|lia|lia|lia|done|].
    intros y. rewrite Hde, (Hl y), !elem_of_cons. split; [|intuition lia].
    intros [[? ?] ?]. split_and!; [by right| |done]. intros [->|?]; [lia|done].
Qed.

Lemma removed_next_spec s w c l :
  removed_ready s w c l →
  match l with
  | [] => ∃ s', removed_next s = (false, s') ∧ over s' (N.max (c + 1) w) c
  | y :: l' => ∃ s', removed_next s = (true, s') ∧ removed_on s' y l'
  end.
Proof.
  intros (Hs & Hc & Hcase). pose proof Hs as [_ Hsl]%StronglySorted_cons. unfold removed_next.
  assert (Hthin : ∀ s' : bool * rps, match l with [] => ∃ s2, s' = (false, s2) ∧ over s2 (c + 1) c | y :: l' => ∃ s2, s' = (true, s2) ∧ removed_on s2 y l' end →
    match l with [] => ∃ s2, s' = (false, s2) ∧ over s2 (N.max (c + 1) w) c | y :: l' => ∃ s2, s' = (true, s2) ∧ removed_on s2 y l' end).
  { intros s'. destruct l; [|done]. intros (s2 & ? & ?). exists s2. split; [done|]. eapply over_mono; [|done]. lia. }
  destruct Hcase as [(Hi & Hcur & Hfok & f & lf & r & lr & Hon & Hcf & Hrem & Hl)|[[-> Hover]|[-> (Hi & Hcur & lf & lr & Hf & Hr & Hl)]]].
  - rewrite Hi, Hcur, Hfok. apply Hthin.
    eapply (removed_loop_spec _ _ _ c (c + 1) f lf); try done; [lia|lia| |by apply removed_fuel_enough].
    unfold remove_state in *. destruct (rp_rok s); [done|]. destruct Hrem as (? & ? & wr & ? & ?). split_and!; [done|lia|].
    exists wr. split; [lia|done].
  - pose proof Hover as (Hi & Hcur & Hfok & _). rewrite Hi, Hfok. unfold removed_fuel. rewrite Nat.add_comm. cbn [removed_loop negb Nat.add].
    eexists. split; [done|]. destruct s as [full remove cur init fok rok]. simpl in *. by subst.
  - rewrite Hi, Hcur.
    assert (Hrem : ∃ rok remove' r', Next (rp_remove s) = (rok, remove') ∧ ∃ lr', (∀ b, (1 ≤ b)%N → remove_state remove' rok b r' lr') ∧
       (∀ z, (0 < z)%N → z ∈ r' :: lr' ↔ z ∈ lr)).
    { destruct lr as [|r1 lr].
      - destruct (next_none _ _ _ Hr) as (s' & f' & -> & Hf' & Hr'). exists false, s', f'. split; [done|]. exists []. split.
        + intros b Hb. split_and!; [done|lia|]. by exists 1%N.
        + intros z Hz. rewrite list_elem_of_singleton, elem_of_nil. lia.
      - destruct (next_some _ _ _ _ Hr) as (s' & -> & Hon). exists true, s', r1. split; [done|]. exists lr. done. }
    destruct Hrem as (rok & remove' & r' & Hn & lr' & Hst & Hrel). apply Hthin. destruct lf as [|f1 lf].
    + assert (l = []) as -> by (destruct l as [|y l']; [done|]; destruct (proj1 (Hl y)) as [?%elem_of_nil _]; [left|done]).
      destruct (next_none _ _ _ Hf) as (full' & f' & -> & Hf' & Hr'). rewrite Hn. unfold removed_fuel. rewrite Nat.add_comm.
      cbn [removed_loop negb Nat.add]. eexists. split; [done|]. split_and!; try done.
      destruct (remove_state_ready _ _ _ _ _ (Hst 1%N ltac:(lia))) as (wr' & ? & ?); [lia|].
      exists 1%N, f', wr', r', lr'. split_and!; try done. left. lia.
    + destruct (next_some _ _ _ _ Hf) as (full' & -> & Hon). rewrite Hn. destruct (on_at _ _ _ Hon) as [_ Hf1].
      apply (removed_loop_spec _ full' remove' 0 1 f1 lf rok r' lr' l);
        [done|lia|lia|apply Hst; lia|done| |by apply removed_fuel_enough].
      intros z. rewrite (Hl z). split; intros [Hz1 Hz2]; (split; [done|]);
        pose proof (sorted_head_le f1 lf z (on_sorted _ _ _ Hon) Hz1); [by rewrite (Hrel z) by lia|by rewrite <-(Hrel z) by lia].
Qed.

Lemma removed_elem s w c l y : removed_ready s w c l → y ∈ l → (y < limit (St := SF))%N.
Proof.
  intros (Hs & Hc & [(_ & _ & _ & f & lf & r & lr & Hon & _ & _ & Hl)|[[-> _]|[-> (_ & _ & lf & lr & Hf & _ & Hl)]]]) Hy.
  - apply (Hl y) in Hy as [Hy _]. apply on_ready, ready_limit in Hon. rewrite Forall_forall in Hon. by apply Hon.
  - by apply elem_of_nil in Hy.
  - apply (Hl y) in Hy as [Hy _]. apply ready_limit in Hf. rewrite Forall_forall in Hf. apply Hf. by right.
Qed.

Lemma removed_len s w c l : removed_ready s w c l → length l ≤ S (remaining (rp_full s)).
Proof.
  intros (Hs & Hc & Hcase). apply StronglySorted_cons in Hs as [_ Hs]. apply StronglySorted_lt_NoDup in Hs.
  destruct Hcase as [(_ & _ & _ & f & lf & r & lr & Hon & _ & _ & Hl)|[[-> _]|[-> (_ & _ & lf & lr & Hf & _ & Hl)]]]; [|simpl; lia|].
  - transitivity (length (f :: lf)); [|apply on_ready, ready_len in Hon; simpl; lia].
    apply submseteq_length, NoDup_submseteq; [done|]. intros y Hy. by apply (Hl y).
  - transitivity (length lf); [|apply ready_len in Hf; lia].
    apply submseteq_length, NoDup_submseteq; [done|]. intros y Hy. by apply (Hl y).
Qed.

Lemma removed_no_err s w c l : removed_ready s w c l → removed_err s = None.
Proof.
  unfold removed_err.
  intros (Hs & Hc & [(_ & _ & _ & f & lf & r & lr & Hon & _ & Hrem & Hl)|[[-> Ho]|[-> (_ & _ & lf & lr & Hf & Hr & Hl)]]]).
  - rewrite (ready_err _ _ _ _ (on_ready _ _ _ Hon)). destruct (remove_state_ready _ _ _ _ _ Hrem) as (wr & _ & Hr); [lia|].
    by apply ready_err in Hr.
  - destruct Ho as (_ & _ & _ & wf & f & wr & r & lr & Hf & Hr & _). rewrite (ready_err _ _ _ _ Hf). by apply ready_err in Hr.
  - rewrite (ready_err _ _ _ _ Hf). by apply ready_err in Hr.
Qed.

Global Instance removed_ok : PostingsOk rps.
Proof.
  refine {| limit := limit (St := SF); ready := removed_ready; on := removed_on |}.
  - apply limit_pos.
  - intros s c l (Hs & Hc & Ho). split_and!; [done|lia|]. destruct Ho as [?|[-> Ho]]; [by left|right; left].
    split; [done|]. eapply over_mono; [|done]. lia.
  - intros s c l (Hs & Hc & [(_ & ? & _)|[-> (_ & ? & _)]]); (split; [done|lia]).
  - by intros s w c l (? & _).
  - intros s w c l Hs. constructor; [by destruct Hs as (_ & ? & _)|]. apply Forall_forall. intros y Hy.
    by apply (removed_elem s w c l y).
  - apply removed_len.
  - apply removed_no_err.
  - intros s c x l Hs. by apply removed_next_spec in Hs.
  - intros s w c Hs. pose proof Hs as (? & ? & _). apply removed_next_spec in Hs as (s' & ? & ?). exists s', c.
    split_and!; [done|by right|]. split_and!; [done|done|]. right; by left.
  - intros s c l x Hs Hx. exists s. split; [|done]. unfold Seek, removed_seekable, removed_seek.
    assert (rp_cur s = c) as -> by (destruct Hs as (_ & _ & [(_ & ? & _)|[-> (_ & ? & _)]]); done).
    by rewrite (proj2 (N.leb_le _ _)).
  - intros s w c l x (Hs & Hc & Ho) Hw Hx.
    assert (rp_cur s = c ∧ removed_on s c l) as [Hcur Hon].
    { destruct Ho as [Ho|[[-> Ho]|[-> _]]]; [| |lia].
      - split; [by destruct Ho as (_ & ? & _)|]. split_and!; [done|lia|done|by left].
      - split; [by destruct Ho as (_ & ? & _)|]. split_and!; [done|lia|done|right]. split; [done|]. by rewrite N.max_l in Ho by lia. }
    exists s. split; [|done]. unfold Seek, removed_seekable, removed_seek. by rewrite Hcur, (proj2 (N.leb_le _ _)) by lia.
  - intros s w c l x y l' Hs Hw Hx Hd. apply (outcome_some removed_ready removed_on s c l); [|lia|done].
    eapply removed_seek_gt; [done|done|lia].
  - intros s w c l x Hs Hw Hx Hd. apply (outcome_none removed_ready removed_on s c l); [|lia|done].
    eapply removed_seek_gt; [done|done|lia].
Defined.

Lemma Without_ready (full : SF) (remove : SR) lf lr l :
  ready full 1 0 lf → ready remove 1 0 lr → StronglySorted N.lt l → (∀ y, y ∈ l ↔ y ∈ lf ∧ (y ∉ lr)) →
  ready (Without full remove) 1 0 l.
Proof.
  intros Hf Hr Hs Hl. split_and!; [|apply limit_pos|].
  - constructor; [done|]. apply Forall_forall. intros y Hy. apply Hl in Hy as [Hy _]. by apply (ready_lt full 1 0 lf).
  - right; right. split; [done|]. split_and!; try done. by exists lf, lr.
Qed.
End WithoutOk.

(** * Properties *)

(** Elements of a combinator's result stay below the limits of its parts. *)
Lemma sum_ready_r {S1 S2} `{PostingsOk S1, PostingsOk S2} (s : S2) w c l :
  (limit (St := S2) ≤ limit (St := S1))%N → ready s w c l → ready (inr s : S1 + S2) w c l.
Proof.
  intros Hle Hs. split; [done|]. pose proof (ready_limit _ _ _ _ Hs) as Hl. eapply Forall_impl; [exact Hl|].
  intros y Hy. unfold below, sum_limit. simpl in Hy. lia.
Qed.

Lemma sum_ready_l {S1 S2} `{PostingsOk S1, PostingsOk S2} (s : S1) w c l :
  (limit (St := S1) ≤ limit (St := S2))%N → ready s w c l → ready (inl s : S1 + S2) w c l.
Proof.
  intros Hle Hs. split; [done|]. pose proof (ready_limit _ _ _ _ Hs) as Hl. eapply Forall_impl; [exact Hl|].
  intros y Hy. unfold below, sum_limit. simpl in Hy. lia.
Qed.

Lemma empty_ready `{PostingsOk St} : ready (inl EmptyPostings : sliceIterator N + St) 1 0 [].
Proof.
  split; [by apply slice_ready_nil|]. repeat constructor. unfold below, sum_limit.
  pose proof (limit_pos (St := St)). simpl. lia.
Qed.

Section Properties.
Context {St : Type} `{PostingsOk St} (Hlim : (limit (St := St) ≤ 2 ^ 64)%N).

Lemma inner_ready {S1 S2} `{PostingsOk S1, PostingsOk S2} (s : S1 + S2) l :
  (limit (St := S1 + S2) ≤ 2 ^ 64)%N → ready s 1 0 l → ready (inr s : sliceIterator N + (S1 + S2)) 1 0 l.
Proof. intros Hle Hs. apply sum_ready_r; [exact Hle|done]. Qed.

Lemma Intersect_ready `{!PostingsRobust St} (its : list St) (ls : list (list N)) (l : list N) :
  its ≠ [] → Forall2 (λ p li, ready p 1 0 li) its ls → StronglySorted N.lt l →
  (∀ y, y ∈ l ↔ ∀ li, li ∈ ls → y ∈ li) → ready (Intersect its) 1 0 l.
Proof.
  intros Hne Hf Hs Hl. destruct Hf as [|p li its ls Hp Hf]; [done|]. destruct Hf as [|p2 li2 its ls Hp2 Hf].
  - apply inner_ready; [simpl; unfold sum_limit; simpl; lia|]. apply sum_ready_l; [done|].
    replace l with li; [done|]. apply sorted_ext; [by apply ready_sorted, StronglySorted_cons in Hp as [_ ?]|done|].
    intros y. rewrite Hl. split; [intros Hy li' ->%list_elem_of_singleton; done|]. intros Hy. apply Hy. left.
  - apply inner_ready; [simpl; unfold sum_limit; simpl; lia|]. apply sum_ready_r; [done|].
    apply (newIntersect_ready (p :: p2 :: its) (li :: li2 :: ls)); [done|by repeat constructor|done|done].
Qed.

Lemma Merge_ready (its : list St) (ls : list (list N)) (l : list N) :
  Forall2 (λ p li, ready p 1 0 li) its ls → StronglySorted N.lt l →
  (∀ y, y ∈ l ↔ in_some ls y) → ready (Merge its) 1 0 l.
Proof.
  intros Hf Hs Hl. destruct Hf as [|p li its ls Hp Hf].
  - replace l with (@nil N); [apply empty_ready|]. destruct l as [|y l]; [done|].
    destruct (proj1 (Hl y)) as (? & ?%elem_of_nil & _); [left|done].
  - destruct Hf as [|p2 li2 its ls Hp2 Hf].
    + apply inner_ready; [simpl; unfold sum_limit; simpl; lia|]. apply sum_ready_l; [done|].
      replace l with li; [done|]. apply sorted_ext; [by apply ready_sorted, StronglySorted_cons in Hp as [_ ?]|done|].
      intros y. rewrite Hl, in_some_cons. split; [by left|]. intros [?|(? & ?%elem_of_nil & _)]; done.
    + assert (Forall2 (λ p li, ready p 1 0 li) (p :: p2 :: its) (li :: li2 :: ls)) as Hf' by (by repeat constructor).
      destruct (new_merged_spec [] _ _ (Forall_nil_2 _) Hf') as (qs & Hqs & Hnew & Hav). unfold Merge, newMergedPostings.
      change (q_s <$> []) with (@nil St) in Hnew. rewrite Hnew.
      assert (Hav' : ∀ y, y ∈ l ↔ avail qs y).
      { intros y. rewrite Hl, Hav. split; [by right|]. intros [(? & ?%elem_of_nil & _)|?]; done. }
      destruct qs as [|q qs].
      * replace l with (@nil N); [apply empty_ready|]. destruct l as [|y l]; [done|].
        destruct (proj1 (Hav' y)) as (? & ?%elem_of_nil & _); [left|done].
      * apply inner_ready; [simpl; unfold sum_limit; simpl; lia|]. apply sum_ready_r; [done|].
        right; left. exists (q :: qs). split_and!; try done. constructor; [done|]. apply Forall_forall. intros y Hy.
        apply Hav' in Hy as (q' & Hq' & Hy). rewrite Forall_forall in Hqs. by apply (queued_elems q' y (Hqs q' Hq')) in Hy as [_ [? _]].
Qed.
End Properties.

Lemma ready_in {St} `{PostingsOk St} (its : list St) ls li y :
  Forall2 (λ p li, ready p 1 0 li) its ls → li ∈ ls → y ∈ li → (0 < y)%N.
Proof.
  intros Hf [i Hi]%list_elem_of_lookup Hy. destruct (Forall2_lookup_r _ _ _ _ _ Hf Hi) as (p & _ & Hp). by eapply ready_lt.
Qed.

(** A sorted list of the references in all of the lists exists. *)
Lemma intersection_list (ls : list (list N)) :
  ls ≠ [] → ∃ l, StronglySorted N.lt l ∧ ∀ y, y ∈ l ↔ ∀ li, li ∈ ls → y ∈ li.
Proof.
  intros Hne. destruct ls as [|k ls]; [done|].
  destruct (sorted_set (filter (λ y, Forall (λ li, y ∈ li) ls) k)) as (l & Hs & Hl). exists l. split; [done|].
  intros y. rewrite Hl, list_elem_of_filter, Forall_forall. split.
  - intros [Hall Hy] li Hli. apply elem_of_cons in Hli as [->|Hli]; [done|by apply Hall].
  - intros Hall. split; [|apply Hall; left]. intros li Hli. apply Hall. by right.
Qed.

Lemma union_list (ls : list (list N)) : ∃ l, StronglySorted N.lt l ∧ ∀ y, y ∈ l ↔ in_some ls y.
Proof.
  destruct (sorted_set (concat ls)) as (l & Hs & Hl). exists l. split; [done|]. intros y. rewrite Hl. unfold in_some.
  rewrite list_elem_of_In, in_concat. split; intros (li & H1 & H2); exists li; by rewrite !list_elem_of_In in *.
Qed.

Lemma difference_list (lf lr : list N) :
  StronglySorted N.lt lf → ∃ l, StronglySorted N.lt l ∧ ∀ y, y ∈ l ↔ y ∈ lf ∧ (y ∉ lr).
Proof.
  intros Hs. exists (filter (λ y, y ∉ lr) lf). split; [by apply StronglySorted_filter|].
  intros y. rewrite list_elem_of_filter. tauto.
Qed.

(** [Intersect] of any number of postings lists yields, in order, exactly the
    references that are in all of them, ends without an error, and again meets
    the contract of a postings list, so that it can be an input of the other
    combinators; none of its loops runs out of fuel. *)
Theorem Intersect_correct {St : Type} `{PostingsOk St, !PostingsRobust St} (its : list St) (ls : list (list N)) :
  (limit (St := St) ≤ 2 ^ 64)%N → its ≠ [] → Forall2 (λ p li, ready p 1 0 li) its ls →
  ∃ l, ExpandPostings (Intersect its) = (l, None) ∧ StronglySorted N.lt l ∧
    (∀ y, y ∈ l ↔ ∀ li, li ∈ ls → y ∈ li) ∧ ready (Intersect its) 1 0 l.
Proof.
  intros Hlim Hne Hf. destruct (intersection_list ls) as (l & Hs & Hl); [by intros ->; inversion Hf; subst|].
  assert (ready (Intersect its) 1 0 l) by (by eapply Intersect_ready).
  exists l. split_and!; [by eapply ready_expand|done..].
Qed.

(** Slices of the witnesses. *)
Lemma slice_start (l : list N) :
  StronglySorted N.lt (0%N :: l) → Forall (λ x, x < 2 ^ 64)%N l → ready (NewSliceSeekIterator l) 1 0 l.
Proof. intros Hs Hb. split_and!; [done|done|by constructor]. Qed.

Lemma slice_start_closed (l : list N) :
  forallb (λ p, p.1 <? p.2)%N (zip (0%N :: l) l) = true → forallb (λ x, x <? 2 ^ 64)%N l = true →
  ready (NewSliceSeekIterator l) 1 0 l.
Proof.
  intros Hs Hb. apply slice_start.
  - apply Sorted_StronglySorted; [intros ???; lia|]. clear Hb. revert Hs. generalize 0%N. induction l as [|x l IH]; intros z Hs.
    + repeat constructor.
    + cbn [zip zip_with forallb] in Hs. apply andb_true_iff in Hs as [Hx Hs]. simpl in Hx. constructor; [by apply IH|]. constructor. go_arith.
  - apply Forall_forall. intros y Hy. apply list_elem_of_In in Hy. apply forallb_forall with (x := y) in Hb; [|done]. go_arith.
Qed.

Lemma Intersect_correct_witness :
  ∃ l, ExpandPostings (Intersect [NewSliceSeekIterator [1; 2; 5; 7]; NewSliceSeekIterator [2; 3; 7; 9]]%N) = (l, None) ∧
    StronglySorted N.lt l ∧ (∀ y, y ∈ l ↔ ∀ li, li ∈ [[1; 2; 5; 7]; [2; 3; 7; 9]]%N → y ∈ li).
Proof.
  destruct (Intersect_correct [NewSliceSeekIterator [1; 2; 5; 7]; NewSliceSeekIterator [2; 3; 7; 9]]%N
    [[1; 2; 5; 7]; [2; 3; 7; 9]]%N) as (l & He & Hs & Hl & _).
  - reflexivity || done.
  - discriminate.
  - repeat constructor; apply slice_start_closed; reflexivity.
  - exists l. split; [exact He|]. split; [exact Hs|exact Hl].
Defined.

(** [Merge] of any number of postings lists yields, in order and once each,
    exactly the references of their union, and again meets the contract of a
    postings list; its heap loops end. *)
Theorem Merge_correct {St : Type} `{PostingsOk St} (its : list St) (ls : list (list N)) :
  (limit (St := St) ≤ 2 ^ 64)%N → Forall2 (λ p li, ready p 1 0 li) its ls →
  ∃ l, ExpandPostings (Merge its) = (l, None) ∧ StronglySorted N.lt l ∧
    (∀ y, y ∈ l ↔ in_some ls y) ∧ ready (Merge its) 1 0 l.
Proof.
  intros Hlim Hf. destruct (union_list ls) as (l & Hs & Hl).
  assert (ready (Merge its) 1 0 l) by (by eapply Merge_ready).
  exists l. split_and!; [by eapply ready_expand|done..].
Qed.

Lemma Merge_correct_witness :
  ∃ l, ExpandPostings (Merge [NewSliceSeekIterator [1; 4; 5]; NewSliceSeekIterator []; NewSliceSeekIterator [2; 4; 9]]%N) = (l, None) ∧
    StronglySorted N.lt l ∧ (∀ y, y ∈ l ↔ in_some [[1; 4; 5]; []; [2; 4; 9]]%N y).
Proof.
  destruct (Merge_correct [NewSliceSeekIterator [1; 4; 5]; NewSliceSeekIterator []; NewSliceSeekIterator [2; 4; 9]]%N
    [[1; 4; 5]; []; [2; 4; 9]]%N) as (l & He & Hs & Hl & _).
  - done.
  - repeat constructor; apply slice_start_closed; reflexivity.
  - exists l. split; [exact He|]. split; [exact Hs|exact Hl].
Defined.

(** [Without] yields, in order, exactly the references of [full] that are
    not in [drop], and again meets the contract of a postings list. *)
Theorem Without_correct {SF SR : Type} `{PostingsOk SF, PostingsOk SR, !LimitLe SF SR} (full : SF) (drop : SR) (lf lr : list N) :
  ready full 1 0 lf → ready drop 1 0 lr →
  ExpandPostings (Without full drop) = (filter (λ y, y ∉ lr) lf, None) ∧
  ready (Without full drop) 1 0 (filter (λ y, y ∉ lr) lf).
Proof.
  intros Hf Hr. assert (StronglySorted N.lt lf) by (by apply ready_sorted, StronglySorted_cons in Hf as [_ ?]).
  assert (ready (Without full drop) 1 0 (filter (λ y, y ∉ lr) lf)).
  { eapply Without_ready; [done|done|by apply StronglySorted_filter|]. intros y. rewrite list_elem_of_filter. tauto. }
  split; [by eapply ready_expand|done].
Qed.

Lemma Without_correct_witness :
  ExpandPostings (Without (NewSliceSeekIterator [1; 3; 4; 8; 9]%N) (NewSliceSeekIterator [2; 3; 9]%N)) =
    (filter (λ y, y ∉ [2; 3; 9]%N) [1; 3; 4; 8; 9]%N, None).
Proof.
  apply (Without_correct (NewSliceSeekIterator [1; 3; 4; 8; 9]%N) (NewSliceSeekIterator [2; 3; 9]%N)
    [1; 3; 4; 8; 9]%N [2; 3; 9]%N); apply slice_start_closed; reflexivity.
Defined.

(** C1: a matcher query as the index reader builds it,
    [Without(Intersect(its...), Merge(nots...))] over big-endian postings of the
    index file, returns exactly the series that every positive matcher selects
    and no negative one does, in increasing order. *)
Theorem postings_query_correct (its nots : list (list N)) :
  its ≠ [] → Forall (λ l, StronglySorted N.lt (0%N :: l) ∧ Forall (λ x, x < 2 ^ 32)%N l) (its ++ nots) →
  let be l := newBigEndianPostings (be_bytes l) in
  ∃ l, ExpandPostings (Without (Intersect (be <$> its)) (Merge (be <$> nots))) = (l, None) ∧
    StronglySorted N.lt l ∧ ∀ y, y ∈ l ↔ (∀ li, li ∈ its → y ∈ li) ∧ ¬ in_some nots y.
Proof.
  intros Hne [Hi Hn]%Forall_app be.
  assert (Hbe : ∀ k, Forall (λ l, StronglySorted N.lt (0%N :: l) ∧ Forall (λ x, x < 2 ^ 32)%N l) k →
    Forall2 (λ p li, ready p 1 0 li) (be <$> k) k).
  { intros k. induction 1 as [|l k [Hs Hb] Hk IH]; csimpl; constructor; [|done]. split_and!; [|done|by constructor].
    exists []. split; [simpl; lia|]. unfold be, newBigEndianPostings. by rewrite (right_id_L [] (++)). }
  destruct (intersection_list its Hne) as (li & Hsi & Hli). destruct (union_list nots) as (ln & Hsn & Hln).
  assert (Hri : ready (Intersect (be <$> its)) 1 0 li).
  { eapply Intersect_ready; [done| |by apply Hbe|done|done]. by destruct its. }
  assert (Hrn : ready (Merge (be <$> nots)) 1 0 ln) by (eapply Merge_ready; [done|by apply Hbe|done|done]).
  assert (LimitLe (sliceIterator N + (bigEndianPostings + intersectPostings bigEndianPostings))
    (sliceIterator N + (bigEndianPostings + mergedPostings bigEndianPostings))) by (by unfold LimitLe).
  destruct (difference_list li ln Hsi) as (l & Hs & Hl). exists l. split_and!; [|done|].
  - eapply (ready_expand _ 0). eapply (Without_ready _ _ li ln l Hri Hrn); done.
  - intros y. by rewrite Hl, Hli, Hln.
Qed.

Lemma postings_query_correct_witness :
  ∃ l, ExpandPostings (Without (Intersect [newBigEndianPostings (be_bytes [1; 2; 5; 7]); newBigEndianPostings (be_bytes [2; 5; 7; 300])])
      (Merge [newBigEndianPostings (be_bytes [5; 8])]))%N = (l, None) ∧ StronglySorted N.lt l ∧
    ∀ y, y ∈ l ↔ (∀ li, li ∈ [[1; 2; 5; 7]; [2; 5; 7; 300]]%N → y ∈ li) ∧ ¬ in_some [[5; 8]]%N y.
Proof.
  apply (postings_query_correct [[1; 2; 5; 7]; [2; 5; 7; 300]]%N [[5; 8]]%N).
  - discriminate.
  - repeat constructor; lia.
Defined.
