(* ===== verification/MemPostings.v ===== *)
(** * In-memory postings (MemPostings and maxHeap of
    src/pkg/phlaredb/tsdb/index/postings.go and postingsstats.go)

    The postings of each label pair as a slice of series references, kept sorted
    once [ordered] is set.  A loop over a map visits it in the order [range].
    Each operation is taken as atomic; the slices handed out by [Get] are values,
    not views of the arrays that later calls of [Add] shift in place. *)

From S2P Require Import Prelude Labels GoHeap Iter Postings.

Abbreviation pmap := (gmap string (gmap string (list N))).

Record MemPostings := mkMemPostings { mem_m : pmap; mem_ordered : bool }.

Definition NewMemPostings : MemPostings := mkMemPostings ∅ true.
Definition NewUnorderedMemPostings : MemPostings := mkMemPostings ∅ false.

Definition allPostingsKey : LabelPair := mkLabel EmptyString EmptyString.

(** The repair loop of [addFor], from the appended element down. *)
Fixpoint repair (i : nat) (l : list N) : list N :=
  match i with
  | O => l
  | S i' =>
      match l !! i, l !! i' with
      | Some a, Some b => if (b <=? a)%N then l else repair i' (<[i := b]> (<[i' := a]> l))
      | _, _ => l
      end
  end.

Definition addFor (id : N) (p : MemPostings) (l : LabelPair) : MemPostings :=
  let nm := default ∅ (mem_m p !! Name l) in
  let lst := default [] (nm !! Value l) ++ [id] in
  let lst' := if mem_ordered p then repair (length lst - 1) lst else lst in
  mkMemPostings (<[Name l := <[Value l := lst']> nm]> (mem_m p)) (mem_ordered p).

Definition Add (p : MemPostings) (id : N) (lset : Labels) : MemPostings :=
  addFor id (foldl (addFor id) p lset) allPostingsKey.

(** The workers of [EnsureOrder] sort disjoint batches of the slices. *)
Definition EnsureOrder (p : MemPostings) : MemPostings :=
  if mem_ordered p then p else mkMemPostings (fmap (M := gmap string) sort_refs <$> mem_m p) true.

Definition mem_get (p : MemPostings) (n v : string) : list N :=
  match mem_m p !! n with Some l => default [] (l !! v) | None => [] end.

(** [Get]: a missing list is the empty iterator; both are slice iterators. *)
Definition GetPostings (p : MemPostings) (n v : string) : sliceIterator N :=
  match mem_m p !! n with
  | Some l => match l !! v with Some lp => NewSliceSeekIterator lp | None => EmptyPostings end
  | None => EmptyPostings
  end.

Definition All (p : MemPostings) : sliceIterator N := GetPostings p (Name allPostingsKey) (Value allPostingsKey).

Section Range.
Context (range : ∀ A : Type, gmap string A → list (string * A)).

(** One postings list of [Delete]. *)
Definition delete_list (deleted : gset N) (n : string) (m : pmap) (v : string) : pmap :=
  let lst := match m !! n with Some l => default [] (l !! v) | None => [] end in
  if existsb (λ id, bool_decide (id ∈ deleted)) lst then
    let repl := filter (λ id, id ∉ deleted) lst in
    let nm := default ∅ (m !! n) in
    match repl with
    | [] => <[n := base.delete v nm]> m
    | _ => <[n := <[v := repl]> nm]> m
    end
  else m.

(** One label name: its lists, and the entry itself when none is left. *)
Definition delete_name (deleted : gset N) (m : pmap) (n : string) : pmap :=
  let vals := fst <$> range _ (default ∅ (m !! n)) in
  let m' := foldl (delete_list deleted n) m vals in
  match m' !! n with
  | Some nm => if (size nm =? 0)%nat then base.delete n m' else m'
  | None => m'
  end.

Definition Delete (p : MemPostings) (deleted : gset N) : MemPostings :=
  mkMemPostings (foldl (delete_name deleted) (mem_m p) (fst <$> range _ (mem_m p))) (mem_ordered p).

Definition sort_strings (l : list string) : list string := merge_sort String.le l.

Definition Symbols (p : MemPostings) : sliceIterator string :=
  let symbols := foldl (λ (s : gset string) e, foldl (λ s v, {[v.1]} ∪ s) ({[e.1]} ∪ s) (range _ e.2)) ∅ (range _ (mem_m p)) in
  NewSliceIterator (sort_strings (fst <$> range _ (gset_to_gmap tt symbols))).

(** The order of [sort.Slice]: by name, then value. *)
Definition key_le (a b : LabelPair) : Prop :=
  if decide (Name a = Name b) then String.le (Value a) (Value b) else String.le (Name a) (Name b).
Global Instance key_le_dec : RelDecision key_le.
Proof. intros a b. unfold key_le. case_decide; apply _. Defined.

Definition SortedKeys (p : MemPostings) : Labels :=
  merge_sort key_le (concat ((λ e, (λ v, mkLabel e.1 v.1) <$> range _ e.2) <$> range _ (mem_m p))).

Definition LabelNames (p : MemPostings) : list string :=
  filter (λ n, n ≠ Name allPostingsKey) (fst <$> range _ (mem_m p)).

Definition LabelValues (p : MemPostings) (name : string) : list string :=
  fst <$> range _ (default ∅ (mem_m p !! name)).

(** [Iter]: [f] is called with each list in a state of the caller, until it fails. *)
Fixpoint iter_values {W} (f : W → LabelPair → sliceIterator N → option string * W) (n : string) (w : W) (vs : list (string * list N)) : option string * W :=
  match vs with
  | [] => (None, w)
  | (v, l) :: vs =>
      match f w (mkLabel n v) (NewSliceSeekIterator l) with
      | (Some e, w') => (Some e, w')
      | (None, w') => iter_values f n w' vs
      end
  end.

Fixpoint iter_names {W} (f : W → LabelPair → sliceIterator N → option string * W) (w : W) (ns : list (string * gmap string (list N))) : option string * W :=
  match ns with
  | [] => (None, w)
  | (n, e) :: ns =>
      match iter_values f n w (range _ e) with
      | (Some er, w') => (Some er, w')
      | (None, w') => iter_names f w' ns
      end
  end.

Definition MemIter {W} (p : MemPostings) (f : W → LabelPair → sliceIterator N → option string * W) (w : W) : option string * W :=
  iter_names f w (range _ (mem_m p)).
End Range.

(** ** Statistics *)

Record Stat := mkStat { st_name : string; st_count : N }.

Record maxHeap := mkMaxHeap { mh_maxLength : nat; mh_minValue : N; mh_minIndex : nat; mh_items : list Stat }.

Definition heap_start (len : nat) : maxHeap := mkMaxHeap len max_uint64 0 [].

(** The loop over the items after a replacement. *)
Fixpoint min_scan (i : nat) (items : list Stat) (mv : N) (mi : nat) : N * nat :=
  match items with
  | [] => (mv, mi)
  | s :: items => if (st_count s <? mv)%N then min_scan (S i) items (st_count s) i else min_scan (S i) items mv mi
  end.

Definition heap_put (m : maxHeap) (item : Stat) : maxHeap :=
  if (length (mh_items m) <? mh_maxLength m)%nat then
    let '(mv, mi) := if (st_count item <? mh_minValue m)%N then (st_count item, length (mh_items m)) else (mh_minValue m, mh_minIndex m) in
    mkMaxHeap (mh_maxLength m) mv mi (mh_items m ++ [item])
  else if (st_count item <? mh_minValue m)%N then m
  else
    let items := <[mh_minIndex m := item]> (mh_items m) in
    let '(mv, mi) := min_scan 0 items (st_count item) (mh_minIndex m) in
    mkMaxHeap (mh_maxLength m) mv mi items.

Definition count_ge (a b : Stat) : Prop := (st_count b ≤ st_count a)%N.
Global Instance count_ge_dec : RelDecision count_ge.
Proof. intros a b. unfold count_ge. apply _. Defined.
Global Instance count_ge_total : Total count_ge.
Proof. intros a b. unfold count_ge. lia. Qed.
Global Instance count_ge_trans : Transitive count_ge.
Proof. intros a b c. unfold count_ge. lia. Qed.

(** [get]: by descending count; the order of equal counts is not specified. *)
Definition heap_get (m : maxHeap) : list Stat := merge_sort count_ge (mh_items m).

Record PostingsStats := mkPostingsStats {
  ps_metrics : list Stat; ps_labels : list Stat; ps_valueLength : list Stat; ps_valuePairs : list Stat; ps_numPairs : nat }.

Section Stats.
Context (range : ∀ A : Type, gmap string A → list (string * A)).

Definition stats_value (label n : string) (st : maxHeap * maxHeap * N) (kv : string * list N) : maxHeap * maxHeap * N :=
  let '(metrics, pairs, size) := st in
  let count := N.of_nat (length kv.2) in
  let metrics' := if decide (n = label) then heap_put metrics (mkStat kv.1 count) else metrics in
  (metrics', heap_put pairs (mkStat (n +:+ "=" +:+ kv.1) count), u64 (size + N.of_nat (String.length kv.1))).

Definition stats_name (label : string) (st : maxHeap * maxHeap * maxHeap * maxHeap * nat) (e : string * gmap string (list N)) :=
  let '(metrics, labels, vlen, pairs, num) := st in
  if decide (e.1 = EmptyString) then st
  else
    let labels' := heap_put labels (mkStat e.1 (N.of_nat (size e.2))) in
    let '(metrics', pairs', sz) := foldl (stats_value label e.1) (metrics, pairs, 0%N) (range _ e.2) in
    (metrics', labels', heap_put vlen (mkStat e.1 sz), pairs', (num + size e.2)%nat).

Definition Stats (p : MemPostings) (label : string) : PostingsStats :=
  let h := heap_start 10 in
  let '(metrics, labels, vlen, pairs, num) := foldl (stats_name label) (h, h, h, h, 0%nat) (range _ (mem_m p)) in
  mkPostingsStats (heap_get metrics) (heap_get labels) (heap_get vlen) (heap_get pairs) num.
End Stats.

(** * Sorted insertion *)

Lemma repair_spec l1 x l2 :
  StronglySorted N.le (l1 ++ l2) → Forall (λ y, x ≤ y)%N l2 →
  StronglySorted N.le (repair (length l1) (l1 ++ x :: l2)) ∧ repair (length l1) (l1 ++ x :: l2) ≡ₚ x :: l1 ++ l2.
Proof.
  revert l2. induction l1 as [|b k IH] using rev_ind; intros l2 Hs Hx.
  { simpl in *. split; [by constructor|done]. }
  rewrite length_app. simpl length. rewrite Nat.add_1_r. rewrite <-(assoc_L (++)) in *. simpl app in *. cbn [repair].
  assert ((k ++ b :: x :: l2) !! S (length k) = Some x) as ->.
  { rewrite lookup_app_r by lia. by replace (S (length k) - length k) with 1 by lia. }
  assert ((k ++ b :: x :: l2) !! length k = Some b) as -> by (by rewrite list_lookup_middle).
  pose proof Hs as Hs0. apply StronglySorted_app in Hs0 as (Hkb & Hk & [Hb Hl2]%StronglySorted_cons).
  destruct (N.leb_spec b x) as [Hbx|Hbx].
  - split; [|change (k ++ b :: x :: l2) with (k ++ [b] ++ x :: l2); by rewrite (assoc_L (++)), <-Permutation_middle, <-(assoc_L (++))].
    apply StronglySorted_app. split_and!; [|done|].
    + intros y z Hy Hz. apply elem_of_cons in Hz as [->|[->|Hz]%elem_of_cons].
      * apply Hkb; [done|left].
      * transitivity b; [apply Hkb; [done|left]|done].
      * apply Hkb; [done|by right].
    + constructor; [by constructor|]. by constructor.
  - assert (<[S (length k):=b]> (<[length k:=x]> (k ++ b :: x :: l2)) = k ++ x :: b :: l2) as ->.
    { rewrite insert_app_r_alt by lia. rewrite Nat.sub_diag. simpl. rewrite insert_app_r_alt by lia.
      by replace (S (length k) - length k) with 1 by lia. }
    destruct (IH (b :: l2)) as [Hs2 Hp2]; [done|constructor; [lia|]|].
    + rewrite Forall_forall in Hb, Hx |- *. intros y Hy. by apply Hx.
    + split; [done|]. rewrite Hp2. by rewrite <-?(assoc_L (++)).
Qed.

Lemma repair_insert l x :
  StronglySorted N.le l →
  StronglySorted N.le (repair (length (l ++ [x]) - 1) (l ++ [x])) ∧ repair (length (l ++ [x]) - 1) (l ++ [x]) ≡ₚ x :: l.
Proof.
  intros Hs. rewrite length_app. simpl. replace (length l + 1 - 1) with (length l) by lia.
  destruct (repair_spec l x []) as [H1 H2]; [by rewrite (right_id_L [] (++))|done|]. by rewrite (right_id_L [] (++)) in H2.
Qed.

(** * The content of the postings *)

Definition pget (m : pmap) (n v : string) : list N :=
  match m !! n with Some l => default [] (l !! v) | None => [] end.

(** No name without values, no empty list. *)
Definition pwf (m : pmap) : Prop :=
  map_Forall (λ _ nm, nm ≠ ∅ ∧ map_Forall (λ _ l, l ≠ []) nm) m.

Definition minv (p : MemPostings) : Prop :=
  pwf (mem_m p) ∧ (mem_ordered p = true → ∀ n v, StronglySorted N.le (mem_get p n v)).

Lemma pget_insert m n v l nm n' v' :
  default ∅ (m !! n) = nm →
  pget (<[n := <[v := l]> nm]> m) n' v' = if decide (n' = n ∧ v' = v) then l else pget m n' v'.
Proof.
  intros Hnm. unfold pget. destruct (decide (n' = n)) as [->|Hn].
  - rewrite lookup_insert_eq. destruct (decide (v' = v)) as [->|Hv].
    + by rewrite lookup_insert_eq, decide_True.
    + rewrite lookup_insert_ne by done. rewrite decide_False by tauto. subst nm. destruct (m !! n); [done|]. simpl. by rewrite lookup_empty.
  - rewrite lookup_insert_ne by done. by rewrite decide_False by tauto.
Qed.

Lemma pwf_insert m n v l nm :
  pwf m → l ≠ [] → default ∅ (m !! n) = nm → pwf (<[n := <[v := l]> nm]> m).
Proof.
  intros Hwf Hl Hnm n' nm' Hn'. apply lookup_insert_Some in Hn' as [[<- <-]|[_ Hn']]; [|by apply Hwf in Hn']. split.
  - apply insert_non_empty.
  - intros v' l' Hv'. apply lookup_insert_Some in Hv' as [[<- <-]|[_ Hv']]; [done|]. subst nm.
    destruct (m !! n) as [nm|] eqn:E; [|simpl in Hv'; by rewrite lookup_empty in Hv']. destruct (Hwf _ _ E) as [_ Hm]. by eapply Hm.
Qed.

Lemma addFor_spec id p l :
  minv p →
  minv (addFor id p l) ∧ mem_ordered (addFor id p l) = mem_ordered p ∧
  ∀ n v, mem_get (addFor id p l) n v ≡ₚ (if decide (mkLabel n v = l) then [id] else []) ++ mem_get p n v.
Proof.
  intros [Hwf Hs]. destruct p as [m o]. destruct l as [ln lv]. unfold addFor. cbn [mem_m mem_ordered Name Value].
  set (nm := default ∅ (m !! ln)). set (lst := default [] (nm !! lv)).
  assert (Hlst : lst = pget m ln lv).
  { unfold lst, nm, pget. destruct (m !! ln); simpl; [done|]. by rewrite lookup_empty. }
  set (lst' := if o then _ else _).
  assert (lst' ≡ₚ id :: lst ∧ (o = true → StronglySorted N.le lst')) as [Hp Hsl].
  { unfold lst'. destruct o; [|split; [by rewrite Permutation_app_comm|done]].
    destruct (repair_insert lst id) as [H1 H2]; [|by split]. rewrite Hlst. by apply (Hs eq_refl ln lv). }
  assert (Hne : lst' ≠ []) by (intros He; rewrite He in Hp; by apply Permutation_nil_l in Hp).
  assert (Hget : ∀ n v, mem_get (mkMemPostings (<[ln := <[lv := lst']> nm]> m) o) n v = if decide (n = ln ∧ v = lv) then lst' else pget m n v).
  { intros n v. by apply pget_insert. }
  split; [split|split; [done|]].
  - by apply pwf_insert.
  - intros Ho n v. rewrite Hget. case_decide; [by apply Hsl|by apply (Hs Ho)].
  - intros n v. rewrite Hget. destruct (decide (n = ln ∧ v = lv)) as [[-> ->]|Hn].
    + rewrite decide_True by done. rewrite Hp, Hlst. done.
    + rewrite decide_False by naive_solver. done.
Qed.

(** How often a pair occurs in a label set. *)
Definition occurrences (n v : string) (ls : Labels) : nat := length (filter (λ l, mkLabel n v = l) ls).

Lemma addFor_loop id p ls :
  minv p →
  minv (foldl (addFor id) p ls) ∧ mem_ordered (foldl (addFor id) p ls) = mem_ordered p ∧
  ∀ n v, mem_get (foldl (addFor id) p ls) n v ≡ₚ replicate (occurrences n v ls) id ++ mem_get p n v.
Proof.
  revert p. induction ls as [|l ls IH]; intros p Hp; [done|]. cbn [foldl].
  destruct (addFor_spec id p l Hp) as (H1 & H2 & H3). destruct (IH _ H1) as (H4 & H5 & H6).
  split_and!; [done|congruence|]. intros n v. rewrite H6, H3. unfold occurrences. rewrite filter_cons.
  case_decide; [|done]. simpl. by rewrite <-Permutation_middle.
Qed.

Lemma Add_spec p id ls :
  minv p →
  minv (Add p id ls) ∧ mem_ordered (Add p id ls) = mem_ordered p ∧
  ∀ n v, mem_get (Add p id ls) n v ≡ₚ replicate (occurrences n v (ls ++ [allPostingsKey])) id ++ mem_get p n v.
Proof.
  intros Hp. assert (Add p id ls = foldl (addFor id) p (ls ++ [allPostingsKey])) as ->.
  { unfold Add. by rewrite foldl_app. }
  by apply addFor_loop.
Qed.

Lemma EnsureOrder_spec p :
  minv p →
  minv (EnsureOrder p) ∧ mem_ordered (EnsureOrder p) = true ∧ ∀ n v, mem_get (EnsureOrder p) n v ≡ₚ mem_get p n v.
Proof.
  intros [Hwf Hs]. unfold EnsureOrder. destruct (mem_ordered p) eqn:Ho; [split_and!; [split; [done|by rewrite Ho]|done|done]|].
  assert (Hget : ∀ n v, mem_get (mkMemPostings (fmap (M := gmap string) sort_refs <$> mem_m p) true) n v = sort_refs (mem_get p n v)).
  { intros n v. unfold mem_get. cbn [mem_m]. rewrite lookup_fmap. destruct (mem_m p !! n) as [nm|]; [|done]. simpl.
    rewrite lookup_fmap. by destruct (nm !! v). }
  split; [split|split; [done|]].
  - intros n nm Hn. cbn [mem_m] in Hn. rewrite lookup_fmap in Hn. apply fmap_Some in Hn as (nm0 & Hn & ->). destruct (Hwf _ _ Hn) as [Hne Hm].
    split; [by rewrite fmap_empty_iff|]. intros v l Hv. rewrite lookup_fmap in Hv. apply fmap_Some in Hv as (l0 & Hv & ->).
    apply Hm in Hv. intros He. apply Hv. symmetry. apply Permutation_nil_l. by rewrite <-He, sort_refs_perm.
  - intros _ n v. rewrite Hget. apply sort_refs_sorted.
  - intros n v. rewrite Hget. apply sort_refs_perm.
Qed.

Section Delete.
Context (range : ∀ A : Type, gmap string A → list (string * A)).
Context (range_perm : ∀ (A : Type) (m : gmap string A), range A m ≡ₚ map_to_list m).

Lemma range_keys {A} (m : gmap string A) k : k ∈ fst <$> range A m ↔ is_Some (m !! k).
Proof.
  rewrite list_elem_of_fmap. split.
  - intros ([k' a] & -> & Hin). rewrite range_perm in Hin. apply elem_of_map_to_list in Hin. by eexists.
  - intros [a Ha]. exists (k, a). split; [done|]. rewrite range_perm. by apply elem_of_map_to_list.
Qed.

(** Lists are not empty; only the entry of [n] may have become so. *)
Definition pwf_but (n : string) (m : pmap) : Prop :=
  map_Forall (λ n' nm, (n' ≠ n → nm ≠ ∅) ∧ map_Forall (λ _ l, l ≠ []) nm) m.

Lemma delete_list_spec D n m v :
  pwf_but n m →
  pwf_but n (delete_list D n m v) ∧
  ∀ n' v', pget (delete_list D n m v) n' v' = if decide (n' = n ∧ v' = v) then filter (λ id, id ∉ D) (pget m n' v') else pget m n' v'.
Proof.
  intros Hwf. unfold delete_list. fold (pget m n v). destruct (existsb _ (pget m n v)) eqn:Ex.
  - destruct (m !! n) as [nm|] eqn:En; [|unfold pget in Ex; by rewrite En in Ex]. cbn [default from_option].
    destruct (Hwf _ _ En) as [_ Hm]. destruct (filter (λ id, id ∉ D) (pget m n v)) as [|r rs] eqn:Er.
    + split.
      * intros n' nm' Hn'. apply lookup_insert_Some in Hn' as [[<- <-]|[_ Hn']]; [|by apply Hwf in Hn']. split; [done|].
        intros v' l' Hv'. apply lookup_delete_Some in Hv' as [_ Hv']. by eapply Hm.
      * intros n' v'. unfold pget at 1. destruct (decide (n' = n)) as [->|Hn].
        -- rewrite lookup_insert_eq. destruct (decide (v' = v)) as [->|Hv].
           ++ rewrite lookup_delete_eq, decide_True by done. simpl. by rewrite Er.
           ++ rewrite lookup_delete_ne by done. rewrite decide_False by tauto. unfold pget. by rewrite En.
        -- rewrite lookup_insert_ne by done. by rewrite decide_False by tauto.
    + split.
      * intros n' nm' Hn'. apply lookup_insert_Some in Hn' as [[<- <-]|[_ Hn']]; [|by apply Hwf in Hn']. split; [done|].
        intros v' l' Hv'. apply lookup_insert_Some in Hv' as [[<- <-]|[_ Hv']]; [done|by eapply Hm].
      * intros n' v'. rewrite pget_insert by (by rewrite En). case_decide as Hd; [|done]. destruct Hd as [-> ->]. done.
  - split; [done|]. intros n' v'. case_decide as Hd; [|done]. destruct Hd as [-> ->]. symmetry. apply filter_all.
    intros id Hid HD. apply not_true_iff_false in Ex. apply Ex, existsb_exists. exists id. split; [by apply list_elem_of_In|].
    by apply bool_decide_eq_true_2.
Qed.

Lemma delete_lists_spec D n m vs :
  pwf_but n m →
  pwf_but n (foldl (delete_list D n) m vs) ∧
  ∀ n' v', pget (foldl (delete_list D n) m vs) n' v' =
    if decide (n' = n ∧ v' ∈ vs) then filter (λ id, id ∉ D) (pget m n' v') else pget m n' v'.
Proof.
  revert m. induction vs as [|v vs IH]; intros m Hwf; cbn [foldl].
  { split; [done|]. intros n' v'. rewrite decide_False; [done|]. intros [_ ?%elem_of_nil]. done. }
  destruct (delete_list_spec D n m v Hwf) as [H1 H2]. destruct (IH _ H1) as [H3 H4]. split; [done|].
  intros n' v'. rewrite H4, H2. destruct (decide (n' = n)) as [->|Hn].
  - destruct (decide (v' = v)) as [->|Hv].
    + rewrite (decide_True (P := n = n ∧ v = v)) by done. rewrite (decide_True (P := n = n ∧ v ∈ v :: vs)) by (split; [done|left]).
      case_decide; [|done]. rewrite list_filter_filter. apply filter_ext_in. intros; tauto.
    + rewrite (decide_False (P := n = n ∧ v' = v)) by tauto. destruct (decide (v' ∈ vs)).
      * rewrite !decide_True; [done|split; [done|by right]|done].
      * rewrite !decide_False; [done| |tauto]. intros [_ [->|?]%elem_of_cons]; done.
  - rewrite !decide_False by tauto. done.
Qed.

Lemma delete_name_spec D m n :
  pwf m →
  pwf (delete_name range D m n) ∧
  ∀ n' v', pget (delete_name range D m n) n' v' = if decide (n' = n) then filter (λ id, id ∉ D) (pget m n' v') else pget m n' v'.
Proof.
  intros Hwf. unfold delete_name. set (vals := fst <$> range _ (default ∅ (m !! n))).
  assert (Hb : pwf_but n m) by (intros n' nm' Hn'; destruct (Hwf _ _ Hn'); done).
  destruct (delete_lists_spec D n m vals Hb) as [H1 H2]. set (m' := foldl _ m vals) in *.
  assert (Hget : ∀ n' v', pget m' n' v' = if decide (n' = n) then filter (λ id, id ∉ D) (pget m n' v') else pget m n' v').
  { intros n' v'. rewrite H2. destruct (decide (n' = n)) as [->|Hn]; [|by rewrite decide_False by tauto].
    case_decide as Hd; [done|]. assert (pget m n v' = []) as ->; [|done].
    unfold pget. destruct (m !! n) as [nm|] eqn:En; [|done]. destruct (nm !! v') as [l|] eqn:Ev; [|done].
    exfalso. apply Hd. split; [done|]. unfold vals. apply range_keys. simpl. by eexists. }
  destruct (m' !! n) as [nm|] eqn:En; [destruct (Nat.eqb_spec (size nm) 0) as [Hz|Hz]|].
  - apply map_size_empty_inv in Hz as ->. split.
    + intros n' nm' Hn'. apply lookup_delete_Some in Hn' as [Hne Hn']. destruct (H1 _ _ Hn') as [H3 H4]. split; [by apply H3|done].
    + intros n' v'. rewrite <-Hget. unfold pget. destruct (decide (n' = n)) as [->|Hn].
      * rewrite lookup_delete_eq, En. simpl. by rewrite lookup_empty.
      * by rewrite lookup_delete_ne.
  - split; [|done]. intros n' nm' Hn'. destruct (H1 _ _ Hn') as [H3 H4]. split; [|done]. destruct (decide (n' = n)) as [->|Hn]; [|by apply H3].
    rewrite En in Hn'. simplify_eq. intros ->. by rewrite map_size_empty in Hz.
  - split; [|done]. intros n' nm' Hn'. destruct (H1 _ _ Hn') as [H3 H4]. split; [|done]. apply H3. intros ->. by rewrite En in Hn'.
Qed.

Lemma delete_names_spec D m ns :
  pwf m →
  pwf (foldl (delete_name range D) m ns) ∧
  ∀ n v, pget (foldl (delete_name range D) m ns) n v = if decide (n ∈ ns) then filter (λ id, id ∉ D) (pget m n v) else pget m n v.
Proof.
  revert m. induction ns as [|n0 ns IH]; intros m Hwf; cbn [foldl].
  { split; [done|]. intros n v. by rewrite decide_False by apply not_elem_of_nil. }
  destruct (delete_name_spec D m n0 Hwf) as [H1 H2]. destruct (IH _ H1) as [H3 H4]. split; [done|].
  intros n v. rewrite H4, H2. destruct (decide (n = n0)) as [->|Hn].
  - rewrite (decide_True (P := n0 ∈ n0 :: ns)) by left. case_decide; [|done].
    rewrite list_filter_filter. apply filter_ext_in. intros; tauto.
  - destruct (decide (n ∈ ns)); [by rewrite decide_True by (by right)|].
    rewrite decide_False; [done|]. intros [?|?]%elem_of_cons; done.
Qed.

Lemma Delete_spec p D :
  minv p →
  minv (Delete range p D) ∧ mem_ordered (Delete range p D) = mem_ordered p ∧
  ∀ n v, mem_get (Delete range p D) n v = filter (λ id, id ∉ D) (mem_get p n v).
Proof.
  intros [Hwf Hs]. unfold Delete. destruct (delete_names_spec D (mem_m p) (fst <$> range _ (mem_m p)) Hwf) as [H1 H2].
  assert (Hget : ∀ n v, mem_get (mkMemPostings (foldl (delete_name range D) (mem_m p) (fst <$> range _ (mem_m p))) (mem_ordered p)) n v =
    filter (λ id, id ∉ D) (mem_get p n v)).
  { intros n v. unfold mem_get at 1. cbn [mem_m]. fold (pget (foldl (delete_name range D) (mem_m p) (fst <$> range _ (mem_m p))) n v).
    rewrite H2. case_decide as Hd; [done|]. unfold mem_get, pget. destruct (mem_m p !! n) as [nm|] eqn:E; [|done].
    exfalso. apply Hd, range_keys. by eexists. }
  split; [split|split; [done|done]].
  - done.
  - intros Ho n v. rewrite Hget. by apply StronglySorted_filter, Hs.
Qed.
End Delete.

(** * Properties *)

(** Calls that change the postings. *)
Inductive mem_op :=
| OpAdd (id : N) (ls : Labels)
| OpDelete (deleted : gset N)
| OpEnsureOrder.

Definition mem_step (range : ∀ A : Type, gmap string A → list (string * A)) (p : MemPostings) (op : mem_op) : MemPostings :=
  match op with
  | OpAdd id ls => Add p id ls
  | OpDelete D => Delete range p D
  | OpEnsureOrder => EnsureOrder p
  end.

(** What the calls mean for the references of one label pair. *)
Definition spec_step (n v : string) (l : list N) (op : mem_op) : list N :=
  match op with
  | OpAdd id ls => replicate (occurrences n v (ls ++ [allPostingsKey])) id ++ l
  | OpDelete D => filter (λ id, id ∉ D) l
  | OpEnsureOrder => l
  end.

Lemma spec_step_perm n v op : Proper ((≡ₚ) ==> (≡ₚ)) (λ l, spec_step n v l op).
Proof. intros l l' Hl. destruct op; simpl; by rewrite Hl. Qed.

Lemma mem_step_ok range p op :
  (∀ (A : Type) (m : gmap string A), range A m ≡ₚ map_to_list m) → minv p →
  minv (mem_step range p op) ∧ ∀ n v, mem_get (mem_step range p op) n v ≡ₚ spec_step n v (mem_get p n v) op.
Proof.
  intros Hr Hp. destruct op as [id ls|D|]; simpl.
  - destruct (Add_spec p id ls Hp) as (? & _ & ?). done.
  - destruct (Delete_spec range Hr p D Hp) as (? & _ & He). split; [done|]. intros n v. by rewrite He.
  - destruct (EnsureOrder_spec p Hp) as (? & _ & ?). done.
Qed.

Lemma mem_run_ok range p ops :
  (∀ (A : Type) (m : gmap string A), range A m ≡ₚ map_to_list m) → minv p →
  minv (foldl (mem_step range) p ops) ∧
  ∀ n v, mem_get (foldl (mem_step range) p ops) n v ≡ₚ foldl (spec_step n v) (mem_get p n v) ops.
Proof.
  intros Hr. revert p. induction ops as [|op ops IH]; intros p Hp; [done|]. cbn [foldl].
  destruct (mem_step_ok range p op Hr Hp) as [H1 H2]. destruct (IH _ H1) as [H3 H4]. split; [done|].
  intros n v. rewrite H4. clear -H2. specialize (H2 n v). revert H2. generalize (mem_get (mem_step range p op) n v).
  generalize (spec_step n v (mem_get p n v) op). induction ops as [|op' ops IH]; intros l l' Hl; [done|]. cbn [foldl].
  apply IH. by apply spec_step_perm.
Qed.

(** The iterator of [Get] reads the slice. *)
Lemma GetPostings_slice p n v : GetPostings p n v = NewSliceSeekIterator (mem_get p n v).
Proof. unfold GetPostings, mem_get. destruct (mem_m p !! n) as [l|]; [|done]. by destruct (l !! v). Qed.

(** After any sequence of [Add], [Delete] and [EnsureOrder] calls on new
    postings, for any map iteration order: [Get] iterates over exactly the
    references that were added under the pair and not deleted since, in sorted
    order once the postings are ordered; [All] over all of them; and the label
    names are exactly those of the remaining references. *)
Theorem MemPostings_refines (range : ∀ A : Type, gmap string A → list (string * A)) (ordered : bool) (ops : list mem_op) :
  (∀ (A : Type) (m : gmap string A), range A m ≡ₚ map_to_list m) →
  let p := foldl (mem_step range) (if ordered then NewMemPostings else NewUnorderedMemPostings) ops in
  (∀ n v, ∃ l, ExpandPostings (GetPostings p n v) = (l, None) ∧ l ≡ₚ foldl (spec_step n v) [] ops ∧
     (mem_ordered p = true → StronglySorted N.le l)) ∧
  (∀ n, n ∈ LabelNames range p ↔ n ≠ Name allPostingsKey ∧ ∃ v, foldl (spec_step n v) [] ops ≠ []).
Proof.
  intros Hr p.
  assert (Hp0 : minv (if ordered then NewMemPostings else NewUnorderedMemPostings)).
  { destruct ordered; split; try apply map_Forall_empty; [|done]. intros _ n v. unfold mem_get. simpl. rewrite lookup_empty. constructor. }
  destruct (mem_run_ok range _ ops Hr Hp0) as [[Hwf Hs] Hget]. fold p in Hwf, Hs, Hget.
  assert (H0 : ∀ n v, mem_get (if ordered then NewMemPostings else NewUnorderedMemPostings) n v = []).
  { intros n v. unfold mem_get. by destruct ordered; simpl; rewrite lookup_empty. }
  split.
  - intros n v. exists (mem_get p n v). split_and!.
    + rewrite GetPostings_slice. unfold ExpandPostings. erewrite slice_loop_spec; [|apply slice_yields|simpl; lia]. done.
    + by rewrite Hget, H0.
    + intros Ho. by apply Hs.
  - intros n. unfold LabelNames. rewrite list_elem_of_filter, (range_keys range Hr). f_equiv. split.
    + intros [nm Hn]. destruct (Hwf _ _ Hn) as [Hne Hm]. apply map_choose in Hne as (v & l & Hv). exists v.
      intros He. pose proof (Hget n v) as Hg. rewrite H0, He in Hg. apply Permutation_nil_r in Hg.
      unfold mem_get in Hg. rewrite Hn, Hv in Hg. by apply (Hm _ _ Hv).
    + intros [v Hv]. unfold is_Some. destruct (mem_m p !! n) as [nm|] eqn:E; [by eexists|]. exfalso. apply Hv.
      pose proof (Hget n v) as Hg. rewrite H0 in Hg. unfold mem_get in Hg. rewrite E in Hg. by apply Permutation_nil_l in Hg.
Qed.

Lemma MemPostings_refines_witness :
  let p := foldl (mem_step (λ A m, map_to_list m)) NewMemPostings
    [OpAdd 7 [mkLabel "app" "a"]; OpAdd 3 [mkLabel "app" "a"]; OpDelete {[ 7%N ]}] in
  ∃ l, ExpandPostings (GetPostings p "app" "a") = (l, None) ∧
    l ≡ₚ foldl (spec_step "app" "a") [] [OpAdd 7 [mkLabel "app" "a"]; OpAdd 3 [mkLabel "app" "a"]; OpDelete {[ 7%N ]}] ∧
    (mem_ordered p = true → StronglySorted N.le l).
Proof.
  apply (MemPostings_refines (λ A m, map_to_list m) true [OpAdd 7 [mkLabel "app" "a"]; OpAdd 3 [mkLabel "app" "a"]; OpDelete {[ 7%N ]}]).
  done.
Defined.

(** ** The largest statistics *)

Lemma min_scan_spec i items mv mi :
  (∀ s, s ∈ items → ((min_scan i items mv mi).1 ≤ st_count s)%N) ∧ ((min_scan i items mv mi).1 ≤ mv)%N ∧
  (((min_scan i items mv mi) = (mv, mi)) ∨
   ∃ j s, items !! j = Some s ∧ min_scan i items mv mi = (st_count s, i + j)).
Proof.
  revert i mv mi. induction items as [|s items IH]; intros i mv mi; cbn [min_scan].
  { split_and!; [set_solver|simpl; lia|by left]. }
  destruct (N.ltb_spec (st_count s) mv) as [Hlt|Hge].
  - destruct (IH (S i) (st_count s) i) as (H1 & H2 & H3). split_and!; [|lia|].
    + intros s' [->|Hs]%elem_of_cons; [done|by apply H1].
    + right. destruct H3 as [->|(j & s' & Hj & ->)]; [exists 0, s; split; [done|f_equal; lia]|].
      exists (S j), s'. split; [done|]. f_equal. lia.
  - destruct (IH (S i) mv mi) as (H1 & H2 & H3). split_and!; [|done|].
    + intros s' [->|Hs]%elem_of_cons; [lia|by apply H1].
    + destruct H3 as [->|(j & s' & Hj & ->)]; [by left|right]. exists (S j), s'. split; [done|]. f_equal. lia.
Qed.

(** The items and the least of them; the others are no larger. *)
Definition heap_inv (m : maxHeap) (dropped pushed : list Stat) : Prop :=
  mh_items m ++ dropped ≡ₚ pushed ∧ length (mh_items m) ≤ mh_maxLength m ∧
  (length (mh_items m) < mh_maxLength m → dropped = []) ∧
  (∀ x y, x ∈ mh_items m → y ∈ dropped → (st_count y ≤ st_count x)%N) ∧
  (∀ x, x ∈ mh_items m → (mh_minValue m ≤ st_count x)%N) ∧
  (mh_items m ≠ [] → ∃ x, mh_items m !! mh_minIndex m = Some x ∧ st_count x = mh_minValue m).

Lemma heap_put_inv m dropped pushed item :
  0 < mh_maxLength m → (st_count item ≤ max_uint64)%N → (mh_items m = [] → mh_minValue m = max_uint64 ∧ mh_minIndex m = 0) →
  heap_inv m dropped pushed →
  mh_maxLength (heap_put m item) = mh_maxLength m ∧ mh_items (heap_put m item) ≠ [] ∧
  ∃ dropped', heap_inv (heap_put m item) dropped' (pushed ++ [item]).
Proof.
  intros Hmax Hc Hnil (Hp & Hlen & Hfull & Hle & Hmin & Hidx). unfold heap_put.
  destruct (Nat.ltb_spec (length (mh_items m)) (mh_maxLength m)) as [Hlt|Hge].
  - specialize (Hfull Hlt). subst dropped. rewrite (right_id_L [] (++)) in Hp.
    destruct (N.ltb_spec (st_count item) (mh_minValue m)) as [Hv|Hv].
    + split_and!; [done|simpl; by destruct (mh_items m)|]. exists []. split_and!; simpl.
      * by rewrite (right_id_L [] (++)), Hp.
      * rewrite length_app. simpl. lia.
      * done.
      * intros x y _ ?%elem_of_nil. done.
      * intros x [Hx|Hx%list_elem_of_singleton]%elem_of_app; [apply Hmin in Hx; lia|subst; lia].
      * intros _. exists item. split; [by rewrite list_lookup_middle|done].
    + split_and!; [done|simpl; by destruct (mh_items m)|]. exists []. split_and!; simpl.
      * by rewrite (right_id_L [] (++)), Hp.
      * rewrite length_app. simpl. lia.
      * done.
      * intros x y _ ?%elem_of_nil. done.
      * intros x [Hx|Hx%list_elem_of_singleton]%elem_of_app; [by apply Hmin|by subst].
      * intros _. destruct (decide (mh_items m = [])) as [He|He].
        -- destruct (Hnil He) as [Hmv ->]. rewrite He. exists item. split; [done|]. lia.
        -- destruct (Hidx He) as (x & Hx & ?). exists x. split; [|done]. by apply lookup_app_l_Some.
  - assert (mh_items m ≠ []) as Hne by (intros He; rewrite He in Hge; simpl in Hge; lia).
    destruct (Hidx Hne) as (x0 & Hx0 & Hc0). destruct (N.ltb_spec (st_count item) (mh_minValue m)) as [Hv|Hv].
    + split_and!; [done|done|]. exists (dropped ++ [item]). split_and!; [by rewrite (assoc_L (++)), Hp|done|lia| |done|done].
      intros x y Hx [Hy|Hy%list_elem_of_singleton]%elem_of_app; [by apply Hle|]. subst. apply Hmin in Hx. lia.
    + set (items := <[mh_minIndex m := item]> (mh_items m)).
      pose proof (min_scan_spec 0 items (st_count item) (mh_minIndex m)) as (H1 & H2 & H3).
      destruct (min_scan 0 items (st_count item) (mh_minIndex m)) as [mv mi]. simpl in H1, H2.
      assert (Hlen' : length items = length (mh_items m)) by apply length_insert.
      assert (Hat : items !! mh_minIndex m = Some item) by (apply list_lookup_insert_eq; by eapply lookup_lt_Some).
      assert (Hperm : x0 :: items ≡ₚ item :: mh_items m).
      { unfold items. apply lookup_lt_Some in Hx0 as Hi. rewrite insert_take_drop by done.
        rewrite <-(take_drop_middle (mh_items m) _ _ Hx0) at 3. rewrite <-!Permutation_middle. apply Permutation_swap. }
      split_and!; [done|simpl; intros He; rewrite He in Hlen'; by destruct (mh_items m)|]. exists (x0 :: dropped). split_and!; simpl.
      * rewrite <-Permutation_middle. change (x0 :: items ++ dropped) with ((x0 :: items) ++ dropped). rewrite Hperm. simpl. rewrite Hp.
        by rewrite Permutation_app_comm.
      * lia.
      * lia.
      * intros x y Hx Hy.
        assert (mh_minValue m ≤ st_count x)%N as Hx'.
        { assert (x ∈ item :: mh_items m) as [->|Hin]%elem_of_cons by (rewrite <-Hperm; by right); [lia|by apply Hmin]. }
        apply elem_of_cons in Hy as [->|Hy]; [lia|]. assert (st_count y ≤ st_count x0)%N; [|lia].
        apply Hle; [by eapply list_elem_of_lookup_2|done].
      * intros x Hx. by apply H1.
      * intros _. destruct H3 as [He|(j & s & Hj & He)]; simplify_eq.
        -- by exists item.
        -- by exists s.
Qed.

(** A [maxHeap] of length [k] that was given any sequence of statistics keeps
    the [k] largest of them: what it keeps and what it dropped is exactly what
    it was given, nothing dropped is larger than anything kept, something is
    dropped only when it is full, and [get] returns the kept ones in descending
    order of count. *)
Theorem maxHeap_keeps_largest (k : nat) (pushed : list Stat) :
  0 < k → Forall (λ s, st_count s ≤ max_uint64)%N pushed →
  let m := foldl heap_put (heap_start k) pushed in
  ∃ dropped, heap_get m ++ dropped ≡ₚ pushed ∧ length (heap_get m) ≤ k ∧
    (length (heap_get m) < k → dropped = []) ∧
    (∀ x y, x ∈ heap_get m → y ∈ dropped → (st_count y ≤ st_count x)%N) ∧ StronglySorted count_ge (heap_get m).
Proof.
  intros Hk Hc m.
  assert (Hinv : mh_maxLength m = k ∧ (mh_items m = [] → mh_minValue m = max_uint64 ∧ mh_minIndex m = 0) ∧ ∃ dropped, heap_inv m dropped pushed).
  { unfold m. clear m. induction pushed as [|s pushed IH] using rev_ind.
    - split_and!; [done|done|]. exists []. split_and!; simpl; try done; [lia|set_solver|set_solver].
    - rewrite foldl_app. cbn [foldl]. apply Forall_app in Hc as [Hc Hs]. apply Forall_cons in Hs as [Hs _].
      destruct (IH Hc) as (Hl & Hnil & dropped & Hd).
      destruct (heap_put_inv _ dropped pushed s ltac:(rewrite Hl; lia) Hs Hnil Hd) as (Hl' & Hne & Hd'). split_and!; [congruence|done|done]. }
  destruct Hinv as (Hl & _ & dropped & Hp & Hlen & Hfull & Hle & _ & _).
  assert (Hg : heap_get m ≡ₚ mh_items m) by apply merge_sort_Permutation.
  exists dropped. rewrite (Permutation_length Hg), Hl in *. split_and!; [by rewrite Hg|done|done| |].
  - intros x y Hx. rewrite Hg in Hx. by apply Hle.
  - apply (StronglySorted_merge_sort count_ge).
Qed.

Lemma maxHeap_keeps_largest_witness :
  let m := foldl heap_put (heap_start 2) [mkStat "a" 3; mkStat "b" 9; mkStat "c" 5] in
  ∃ dropped, heap_get m ++ dropped ≡ₚ [mkStat "a" 3; mkStat "b" 9; mkStat "c" 5] ∧ length (heap_get m) ≤ 2 ∧
    (length (heap_get m) < 2 → dropped = []) ∧
    (∀ x y, x ∈ heap_get m → y ∈ dropped → (st_count y ≤ st_count x)%N) ∧ StronglySorted count_ge (heap_get m).
Proof.
  apply (maxHeap_keeps_largest 2 [mkStat "a" 3; mkStat "b" 9; mkStat "c" 5]); [lia|].
  repeat constructor; unfold max_uint64; simpl; lia.
Defined.
