(* ===== verification/Shard.v ===== *)
(** * Shards of the fingerprint space
    (src/pkg/phlaredb/tsdb/index/shard.go, fingerprint.go and tsdb/shard/shard.go)

    A shard [i] of [2^k] holds the fingerprints whose [k] leading bits are [i].
    The file relates the bit test [Match], the interval [Bounds] and the range
    of series references [Range] computes from sampled fingerprints, and shows
    that reading a postings list through [ShardedPostings] loses no series of
    the shard. *)

From S2P Require Import Prelude Labels GoHeap Iter Postings.

Local Open Scope N_scope.

(** ** index.ShardAnnotation: uint32 fields *)

Record ShardAnnotation := mkShard { sh_shard : N; sh_of : N }.

Definition NewShard (x o : N) : ShardAnnotation := mkShard x o.

(** [uint64(math.Log2(float64(shard.Of)))]: the truncated logarithm of a positive
    32-bit number. *)
Definition RequiredBits (s : ShardAnnotation) : N := N.log2 (sh_of s).

(** The comparison is one of uint64 values: for a single shard [1 << 64] is 0. *)
Definition Match (s : ShardAnnotation) (fp : N) : bool :=
  let requiredBits := RequiredBits s in
  let prefix := u64 (N.shiftl (sh_shard s) (64 - requiredBits)) in
  N.lxor prefix fp <? u64 (N.shiftl 1 (64 - requiredBits)).

Definition Bounds (s : ShardAnnotation) : N * N :=
  let requiredBits := RequiredBits s in
  let from := u64 (N.shiftl (sh_shard s) (64 - requiredBits)) in
  if u32 (sh_shard s + 1) =? sh_of s then (from, max_uint64)
  else (from, u64 (N.shiftl (u32 (sh_shard s + 1)) (64 - requiredBits))).

(** ** FingerprintOffsets: (series reference, fingerprint) samples *)

Definition fp_test (xs : list (N * N)) (b : N) (i : nat) : bool :=
  match xs !! i with Some x => b <=? x.2 | None => true end.

Definition Range (xs : list (N * N)) (s : ShardAnnotation) : N * N :=
  let '(from, through) := Bounds s in
  let lower := search (length xs) (fp_test xs from) in
  let minOffset :=
    if ((lower <? length xs)%nat && (0 <? lower)%nat)%bool
    then match xs !! (lower - 1)%nat with Some x => x.1 | None => 0 end
    else 0 in
  let upper := search (length xs) (fp_test xs through) in
  let maxOffset :=
    if (upper =? length xs)%nat then max_uint64
    else match xs !! upper with Some x => x.1 | None => 0 end in
  (minOffset, maxOffset).

(** ** shard.Annotation: Go ints *)

Record Annotation := mkAnnotation { an_shard : Z; an_of : Z }.

Definition TSDB (a : Annotation) : ShardAnnotation :=
  NewShard (u32 (Z.to_N (an_shard a `mod` 2 ^ 64))) (u32 (Z.to_N (an_of a `mod` 2 ^ 64))).

(** Shard membership of the modulo scheme, on the 64-bit patterns of the fields. *)
Definition an_match (a : Annotation) (fp : N) : bool :=
  fp `mod` Z.to_N (an_of a `mod` 2 ^ 64) =? Z.to_N (an_shard a `mod` 2 ^ 64).

(** * Bit prefixes *)

(** The shards the code is meant for: a power of two of them, at least two. *)
Definition valid_shard (s : ShardAnnotation) (k : N) : Prop :=
  1 ≤ k < 32 ∧ sh_of s = 2 ^ k ∧ sh_shard s < 2 ^ k.

Lemma valid_bits s k : valid_shard s k → RequiredBits s = k.
Proof. intros (Hk & Ho & _). unfold RequiredBits. rewrite Ho. apply N.log2_pow2. lia. Qed.

Lemma pow_split k : k ≤ 64 → 2 ^ k * 2 ^ (64 - k) = 2 ^ 64.
Proof. intros Hk. rewrite <-N.pow_add_r. f_equal. lia. Qed.

Lemma pow_pos a : 0 < 2 ^ a.
Proof. apply N.neq_0_lt_0, N.pow_nonzero. lia. Qed.

(** The prefix of a shard fits 64 bits. *)
Lemma shift_fits k x : k ≤ 64 → x < 2 ^ k → u64 (N.shiftl x (64 - k)) = x * 2 ^ (64 - k).
Proof.
  intros Hk Hx. rewrite N.shiftl_mul_pow2. apply u64_small. rewrite <-(pow_split k Hk).
  pose proof (pow_pos (64 - k)). nia.
Qed.

Lemma u32_fits k x : k < 32 → x ≤ 2 ^ k → u32 x = x.
Proof.
  intros Hk Hx. apply u32_small. eapply N.le_lt_trans; [exact Hx|]. apply N.pow_lt_mono_r; lia.
Qed.

Lemma lxor_lt_prefix a m fp : N.lxor (a * 2 ^ m) fp < 2 ^ m ↔ fp / 2 ^ m = a.
Proof.
  assert (Hs : N.lxor (a * 2 ^ m) fp / 2 ^ m = N.lxor a (fp / 2 ^ m)).
  { rewrite <-!N.shiftr_div_pow2, N.shiftr_lxor. f_equal.
    rewrite N.shiftr_div_pow2, N.div_mul; [done|apply N.pow_nonzero; lia]. }
  pose proof (pow_pos m). rewrite <-(N.div_small_iff _ (2 ^ m)) by (apply N.pow_nonzero; lia). rewrite Hs, N.lxor_eq_0_iff. split; congruence.
Qed.

(** [Match] compares the leading bits. *)
Lemma Match_prefix s k fp : valid_shard s k → Match s fp = true ↔ fp / 2 ^ (64 - k) = sh_shard s.
Proof.
  intros Hv. pose proof Hv as (Hk & Ho & Hs). unfold Match. rewrite (valid_bits s k Hv).
  rewrite (shift_fits k) by lia. rewrite N.shiftl_mul_pow2, N.mul_1_l, u64_small by (apply N.pow_lt_mono_r; lia).
  rewrite N.ltb_lt. apply lxor_lt_prefix.
Qed.

Lemma Bounds_pow i k :
  k < 32 → i < 2 ^ k →
  Bounds (NewShard i (2 ^ k)) = (i * 2 ^ (64 - k), if i + 1 =? 2 ^ k then max_uint64 else (i + 1) * 2 ^ (64 - k)).
Proof.
  intros Hk Hi. unfold Bounds, RequiredBits. cbn [NewShard sh_shard sh_of]. rewrite N.log2_pow2 by lia.
  rewrite (shift_fits k i) by lia. rewrite (u32_fits k (i + 1)) by lia.
  destruct (N.eqb_spec (i + 1) (2 ^ k)) as [He|He]; [done|]. f_equal. apply shift_fits; lia.
Qed.

Lemma Bounds_eq s k :
  valid_shard s k →
  Bounds s = (sh_shard s * 2 ^ (64 - k),
    if sh_shard s + 1 =? 2 ^ k then max_uint64 else (sh_shard s + 1) * 2 ^ (64 - k)).
Proof. destruct s as [i o]. intros (Hk & Ho & Hs). simpl in *. subst o. apply Bounds_pow; lia. Qed.

Lemma div_interval fp m a : fp / 2 ^ m = a ↔ a * 2 ^ m ≤ fp < (a + 1) * 2 ^ m.
Proof.
  pose proof (pow_pos m) as Hp. assert (2 ^ m ≠ 0) as Hn by lia. split.
  - intros <-. pose proof (N.div_mod fp (2 ^ m) Hn) as Hd. rewrite N.mul_comm in Hd. pose proof (N.mod_lt fp (2 ^ m) Hn) as Hm.
    remember (fp / 2 ^ m) as q. remember (fp mod 2 ^ m) as r. remember (2 ^ m) as b. rewrite N.mul_add_distr_r, N.mul_1_l. lia.
  - revert Hn. generalize (2 ^ m). intros b Hn [Hlo Hhi]. symmetry. apply (N.div_unique _ _ _ (fp - a * b)); nia.
Qed.

(** The bit test and the interval of a shard agree: a fingerprint below the
    maximal one matches a shard iff it lies in the half-open interval of
    [Bounds], and every fingerprint matches exactly one of the [2^k] shards. *)
Theorem Match_iff_Bounds (k fp : N) :
  1 ≤ k < 32 → fp < 2 ^ 64 →
  (∀ i, i < 2 ^ k → fp < max_uint64 →
    Match (NewShard i (2 ^ k)) fp = true ↔ (Bounds (NewShard i (2 ^ k))).1 ≤ fp < (Bounds (NewShard i (2 ^ k))).2) ∧
  ∃ i, i < 2 ^ k ∧ ∀ j, j < 2 ^ k → Match (NewShard j (2 ^ k)) fp = true ↔ j = i.
Proof.
  intros Hk Hfp. split.
  - intros i Hi Hmax. assert (Hv : valid_shard (NewShard i (2 ^ k)) k) by done.
    rewrite (Match_prefix _ k) by done. rewrite (Bounds_eq _ k) by done. simpl. rewrite div_interval.
    destruct (N.eqb_spec (i + 1) (2 ^ k)) as [He|He]; [|done].
    rewrite He, pow_split by lia. unfold max_uint64 in *. lia.
  - exists (fp / 2 ^ (64 - k)). split.
    + apply N.Div0.div_lt_upper_bound. rewrite N.mul_comm, pow_split by lia. done.
    + intros j Hj. rewrite (Match_prefix _ k) by done. simpl. split; congruence.
Qed.

Lemma Match_iff_Bounds_witness :
  Match (NewShard 2 (2 ^ 2)) (2 ^ 63 + 5) = true ↔
    (Bounds (NewShard 2 (2 ^ 2))).1 ≤ 2 ^ 63 + 5 < (Bounds (NewShard 2 (2 ^ 2))).2.
Proof.
  apply (Match_iff_Bounds 2 (2 ^ 63 + 5)); [split; reflexivity || discriminate|reflexivity|reflexivity|reflexivity].
Defined.

(** For a single shard [1 << (64 - requiredBits)] overflows to 0, so [Match]
    rejects every fingerprint although [Bounds] spans the whole space. *)
Theorem single_shard_matches_nothing (fp : N) :
  Match (NewShard 0 1) fp = false ∧ Bounds (NewShard 0 1) = (0, max_uint64).
Proof. split; [|reflexivity]. unfold Match. simpl. apply N.ltb_ge. apply N.le_0_l. Qed.

(** ** Sampled offsets *)

(** The order of the series section: references and fingerprints increase together. *)
Definition series_order (x y : N * N) : Prop := x.1 < y.1 ∧ x.2 ≤ y.2.

Lemma fp_search xs b :
  StronglySorted series_order xs →
  let r := search (length xs) (fp_test xs b) in
  (r ≤ length xs)%nat ∧ (∀ i x, (i < r)%nat → xs !! i = Some x → x.2 < b) ∧
  (∀ i x, (r ≤ i)%nat → xs !! i = Some x → b ≤ x.2).
Proof.
  intros Hs. destruct (search_monotone (length xs) (fp_test xs b)) as (Hr & Hlo & Hhi).
  { intros i j Hij Hj. unfold fp_test. destruct (lookup_lt_is_Some_2 xs i) as [a Ha]; [lia|].
    destruct (lookup_lt_is_Some_2 xs j) as [c Hc]; [lia|]. rewrite Ha, Hc, !N.leb_le.
    destruct (decide (i = j)) as [->|]; [by simplify_eq|].
    pose proof (StronglySorted_lookup _ _ i j a c Hs ltac:(lia) Ha Hc) as [_ ?]. lia. }
  split_and!; [done| |].
  - intros i x Hi Hx. specialize (Hlo i Hi). unfold fp_test in Hlo. rewrite Hx in Hlo. go_arith.
  - intros i x Hi Hx. apply lookup_lt_Some in Hx as Hlt. specialize (Hhi i Hi Hlt). unfold fp_test in Hhi. rewrite Hx in Hhi. go_arith.
Qed.

(** Two series of the section are ordered alike by both components. *)
Lemma series_order_lt series x y :
  StronglySorted series_order series → x ∈ series → y ∈ series → x.2 < y.2 → x.1 < y.1.
Proof.
  intros Hs (i & Hi)%list_elem_of_lookup (j & Hj)%list_elem_of_lookup Hlt.
  destruct (Nat.lt_trichotomy i j) as [Hij|[->|Hji]]; [|simplify_eq; lia|].
  - by destruct (StronglySorted_lookup _ _ i j x y Hs Hij Hi Hj).
  - destruct (StronglySorted_lookup _ _ j i y x Hs Hji Hj Hi). lia.
Qed.

(** Every series of the shard lies in the range of references. *)
Lemma Range_covers series xs s k ref fp :
  StronglySorted series_order series → StronglySorted series_order xs → (∀ x, x ∈ xs → x ∈ series) →
  valid_shard s k → (ref, fp) ∈ series → Match s fp = true → ref < max_uint64 → fp < max_uint64 →
  (Range xs s).1 ≤ ref < (Range xs s).2.
Proof.
  intros Hser Hxs Hsub Hv Hin Hm Href Hfp. unfold Range.
  assert (Hb : (Bounds s).1 ≤ fp < (Bounds s).2).
  { destruct s as [i o]. pose proof Hv as (Hk & Ho & Hi). simpl in Ho, Hi. subst o.
    apply Match_iff_Bounds; [done|unfold max_uint64 in *; lia|done|done|done]. }
  destruct (Bounds s) as [from through]. simpl in Hb.
  pose proof (fp_search xs from Hxs) as (_ & Hlo & _). pose proof (fp_search xs through Hxs) as (Hu & _ & Hhi). simpl.
  split.
  - destruct (_ && _)%bool eqn:E; [|lia]. bool_prop. destruct (xs !! _) as [x|] eqn:Ex; [|lia].
    apply N.lt_le_incl. apply (series_order_lt series x (ref, fp)); [done|apply Hsub; by eapply list_elem_of_lookup_2|done|].
    simpl. eapply N.lt_le_trans; [|apply Hb]. eapply Hlo; [|exact Ex]. lia.
  - destruct (Nat.eqb_spec (search (length xs) (fp_test xs through)) (length xs)) as [E|E]; [done|].
    destruct (lookup_lt_is_Some_2 xs (search (length xs) (fp_test xs through))) as [x Hx]; [lia|]. rewrite Hx.
    apply (series_order_lt series (ref, fp) x); [done|done|apply Hsub; by eapply list_elem_of_lookup_2|].
    simpl. eapply N.lt_le_trans; [apply Hb|]. eapply Hhi; [|exact Hx]. done.
Qed.

(** ** Reading through ShardedPostings *)

(** The references it returns: from the lower offset on, up to the upper one;
    the first reference is not tested against the upper offset. *)
Definition sharded_list (mn mx : N) (l : list N) : list N :=
  if mx =? 0 then []
  else match drop_lt mn l with [] => [] | y :: d => y :: take_lt mx d end.

Section ShardedLemmas.
Context {St : Type} `{PostingsOk St}.

Lemma sharded_tail (p : St) c l mn mx :
  on p c l → ∃ e, yields (mkSharded p mn mx true) (take_lt mx l) e ∧ Err e = None.
Proof.
  revert p c. induction l as [|x l IH]; intros p c Hp; apply on_ready in Hp.
  - destruct (next_none _ _ _ Hp) as (p' & f & Hn & _ & Hr). exists (mkSharded p' mn mx true).
    split; [apply yields_nil; simpl; unfold sharded_next; simpl; by rewrite Hn|exact (ready_err _ _ _ _ Hr)].
  - destruct (next_some _ _ _ _ Hp) as (p' & Hn & Hon). pose proof (proj1 (on_at _ _ _ Hon)) as Hat.
    cbn [take_lt]. destruct (N.ltb_spec x mx) as [Hx|Hx].
    + destruct (IH p' x Hon) as (e & Hy & He). exists e. split; [|done].
      apply (yields_step _ (mkSharded p' mn mx true)); [|done|done].
      simpl. unfold sharded_next. simpl. rewrite Hn, Hat, (proj2 (N.leb_gt _ _)) by done. done.
    + exists (mkSharded p' mn mx true). split; [|exact (ready_err _ _ _ _ (on_ready _ _ _ Hon))].
      apply yields_nil. simpl. unfold sharded_next. simpl. rewrite Hn, Hat, (proj2 (N.leb_le _ _)) by done. done.
Qed.

Lemma sharded_yields (p : St) l mn mx :
  ready p 1 0 l → mn < limit (St := St) →
  ∃ e, yields (NewShardedPostings p (mn, mx)) (sharded_list mn mx l) e ∧ Err e = None.
Proof.
  intros Hp Hmn. unfold NewShardedPostings, sharded_list. cbn [fst snd].
  assert (Hsn : ∀ ok p', Next p = (ok, p') → sharded_next (mkSharded p mn mx false) =
    if negb ok then (false, mkSharded p' mn mx true) else sharded_seek (mkSharded p' mn mx true) 0).
  { intros ok p' Hn. unfold sharded_next. simpl. rewrite Hn. by destruct ok. }
  destruct l as [|x l].
  { destruct (next_none _ _ _ Hp) as (p' & f & Hn & _ & Hr). exists (mkSharded p' mn mx true).
    split; [|exact (ready_err _ _ _ _ Hr)]. simpl. destruct (mx =? 0); (apply yields_nil; exact (Hsn _ _ Hn)). }
  destruct (next_some _ _ _ _ Hp) as (p' & Hn & Hon). specialize (Hsn _ _ Hn). simpl in Hsn.
  unfold sharded_seek in Hsn. cbn [sp_maxOffset sp_minOffset sp_p sp_initialized] in Hsn.
  destruct (N.eqb_spec mx 0) as [->|Hmx].
  { exists (mkSharded p' mn 0 true). split; [|exact (ready_err _ _ _ _ (on_ready _ _ _ Hon))]. apply yields_nil. exact Hsn. }
  rewrite (proj2 (N.leb_gt mx 0)) in Hsn by lia.
  assert (Hseek : ∃ s', match drop_lt mn (x :: l) with
     | [] => Seek p' (if 0 <? mn then mn else 0) = (false, s') ∧ Err s' = None
     | y :: d => Seek p' (if 0 <? mn then mn else 0) = (true, s') ∧ on s' y d end).
  { destruct (N.ltb_spec 0 mn) as [Hm0|Hm0].
    - destruct (seek_cases _ _ _ _ mn (on_ready _ _ _ Hon) ltac:(lia) ltac:(lia)) as
        [(s' & y & d & ? & ? & Hd)|(s' & f & ? & Hr & Hd & _)]; exists s'; rewrite <-?Hd, ?Hd; [done|].
      split; [done|exact (ready_err _ _ _ _ Hr)].
    - assert (mn = 0) as -> by lia. destruct (stay_on _ _ _ 0 Hon) as (s' & ? & ?); [lia|]. exists s'.
      cbn [drop_lt]. by rewrite (proj2 (N.ltb_ge x 0)) by lia. }
  destruct Hseek as (s' & Hseek). destruct (drop_lt mn (x :: l)) as [|y d]; destruct Hseek as [Hs Hs']; rewrite Hs in Hsn.
  - exists (mkSharded s' mn mx true). split; [|done]. by apply yields_nil.
  - destruct (sharded_tail s' y d mn mx Hs') as (e & Hy & He). exists e. split; [|done].
    eapply (yields_step _ (mkSharded s' mn mx true)); [exact Hsn|by apply on_at in Hs' as [? _]|done].
Qed.

Lemma sharded_list_length mn mx l : (length (sharded_list mn mx l) ≤ length l)%nat.
Proof.
  unfold sharded_list. destruct (mx =? 0); [simpl; lia|]. destruct (drop_lt_suffix mn l) as [k Hk].
  assert (length (drop_lt mn l) ≤ length l)%nat by (rewrite Hk at 2; rewrite length_app; lia).
  destruct (drop_lt mn l) as [|y d]; simpl in *; [lia|].
  assert (length (take_lt mx d) ≤ length d)%nat; [|lia]. clear. induction d as [|z d IH]; simpl; [lia|].
  destruct (z <? mx); simpl; lia.
Qed.
End ShardedLemmas.

(** Reading a postings list through [ShardedPostings] of a shard, with the
    offsets [Range] finds in the sampled fingerprints of the series section,
    yields a sublist of it that contains every series the shard matches (below
    the maximal fingerprint): no series of the shard is lost. *)
Theorem ShardedPostings_complete {St : Type} `{PostingsOk St} (p : St) (l : list N)
    (series xs : list (N * N)) (s : ShardAnnotation) (k : N) :
  ready p 1 0 l → StronglySorted series_order series → StronglySorted series_order xs →
  (∀ x, x ∈ xs → x ∈ series) → Forall (λ x, x.1 < limit (St := St))%N xs → valid_shard s k →
  ∃ r, ExpandPostings (NewShardedPostings p (Range xs s)) = (r, None) ∧
    (∀ ref, ref ∈ r → ref ∈ l) ∧
    (∀ ref fp, ref ∈ l → (ref, fp) ∈ series → Match s fp = true → ref < max_uint64 → fp < max_uint64 → ref ∈ r).
Proof.
  intros Hp Hser Hxs Hsub Hlim Hv. set (mn := (Range xs s).1). set (mx := (Range xs s).2).
  assert (Hmn : mn < limit (St := St)).
  { unfold mn, Range. destruct (Bounds s) as [from through]. simpl. destruct (_ && _)%bool; [|apply limit_pos].
    destruct (xs !! _) as [x|] eqn:Ex; [|apply limit_pos]. rewrite Forall_forall in Hlim. apply Hlim. by eapply list_elem_of_lookup_2. }
  destruct (sharded_yields p l mn mx Hp Hmn) as (e & Hy & He).
  pose proof (ready_sorted _ _ _ _ Hp) as [_ Hsl]%StronglySorted_cons.
  pose proof (StronglySorted_lt_le _ Hsl) as Hle.
  exists (sharded_list mn mx l). split_and!.
  - unfold ExpandPostings. replace (Range xs s) with (mn, mx) by (unfold mn, mx; by destruct (Range xs s)).
    erewrite slice_loop_spec; [by rewrite He|done|]. simpl. pose proof (sharded_list_length mn mx l). apply ready_len in Hp. lia.
  - intros ref Hr. unfold sharded_list in Hr. destruct (mx =? 0); [by apply elem_of_nil in Hr|].
    apply (drop_lt_elem mn l ref Hle). destruct (drop_lt mn l) as [|y d] eqn:Ed; [done|].
    apply elem_of_cons in Hr as [->|Hr]; [left|right]. apply take_lt_elem in Hr; [tauto|].
    pose proof (drop_lt_sorted N.le mn l Hle) as Hds. rewrite Ed in Hds. by apply StronglySorted_cons in Hds as [_ ?].
  - intros ref fp Hr Hin Hm Href Hfp.
    pose proof (Range_covers series xs s k ref fp Hser Hxs Hsub Hv Hin Hm Href Hfp) as [Hlo Hhi].
    fold mn in Hlo. fold mx in Hhi. unfold sharded_list. rewrite (proj2 (N.eqb_neq mx 0)) by lia.
    assert (Hd : ref ∈ drop_lt mn l) by (by apply drop_lt_elem).
    pose proof (drop_lt_sorted N.le mn l Hle) as Hds.
    destruct (drop_lt mn l) as [|y d]; [by apply elem_of_nil in Hd|]. apply StronglySorted_cons in Hds as [_ Hds].
    apply elem_of_cons in Hd as [->|Hd]; [left|right]. by apply take_lt_elem.
Qed.

Lemma ShardedPostings_complete_witness :
  ∃ r, ExpandPostings (NewShardedPostings (NewSliceSeekIterator [1; 2; 3; 4]) (Range [(1, 5); (3, 2 ^ 63)] (NewShard 1 2))) = (r, None) ∧
    (∀ ref, ref ∈ r → ref ∈ [1; 2; 3; 4]) ∧
    (∀ ref fp, ref ∈ [1; 2; 3; 4] → (ref, fp) ∈ [(1, 5); (2, 9); (3, 2 ^ 63); (4, 2 ^ 63 + 1)] →
      Match (NewShard 1 2) fp = true → ref < max_uint64 → fp < max_uint64 → ref ∈ r).
Proof.
  apply (ShardedPostings_complete (NewSliceSeekIterator [1; 2; 3; 4]) [1; 2; 3; 4]
    [(1, 5); (2, 9); (3, 2 ^ 63); (4, 2 ^ 63 + 1)] [(1, 5); (3, 2 ^ 63)] (NewShard 1 2) 1).
  - apply slice_start_closed; reflexivity.
  - repeat constructor; simpl; lia.
  - repeat constructor; simpl; lia.
  - intros x. rewrite !elem_of_cons, elem_of_nil. tauto.
  - repeat constructor; simpl; lia.
  - split_and!; simpl; lia.
Defined.
