(* ===== verification/InvertedIndex.v ===== *)
(** * The inverted index of the ingester
    (src/pkg/phlaredb/tsdb/index.go and bitprefix.go)

    Shards map a label name and value to the sorted fingerprints that carry the
    pair.  A Go map is a [gmap]; a loop over one visits its entries in the order
    [range], of which only that it is an enumeration of the map is known. *)

From S2P Require Import Prelude Labels GoHeap Iter Postings Shard.
From Stdlib Require Import Ascii.

(** ** Matchers (github.com/prometheus/prometheus/model/labels) *)

Inductive MatchType := MatchEqual | MatchNotEqual | MatchRegexp | MatchNotRegexp.

Record Matcher := mkMatcher { m_type : MatchType; m_name : string; m_value : string }.

(** ** Sets in regular expressions *)

(** The bitmap [init] fills from the meta characters. *)
Definition meta_chars : list N :=
  (λ c, N_of_ascii c) <$> String.list_ascii_of_string ".+*?()|[]{}^$".

Definition regexMetaCharacterBytes : list N :=
  foldl (λ bm b, alter (λ x, N.lor x (N.shiftl 1 (b / 16))) (N.to_nat (b `mod` 16)%N) bm) (replicate 16 0%N) meta_chars.

Definition isRegexMetaCharacter (c : ascii) : bool :=
  let b := N_of_ascii c in
  (b <? 128)%N && negb (N.land (default 0%N (regexMetaCharacterBytes !! N.to_nat (b `mod` 16)%N)) (N.shiftl 1 (b / 16)) =? 0)%N.

Definition backslash : ascii := "\"%char.
Definition bar : ascii := "|"%char.

(** The loop over the alternatives: the finished ones, the one being read, and
    whether the previous byte was an unescaped backslash. *)
Fixpoint set_loop (escaped : bool) (sets : list (list ascii)) (cur : list ascii) (body : list ascii) : option (list (list ascii)) :=
  match body with
  | [] => Some (sets ++ [cur])
  | c :: body =>
      if escaped then
        if isRegexMetaCharacter c then set_loop false sets (cur ++ [c]) body
        else if Ascii.eqb c backslash then set_loop false sets (cur ++ [backslash]) body
        else None
      else if isRegexMetaCharacter c then
        if Ascii.eqb c bar then set_loop false (sets ++ [cur]) [] body else None
      else if Ascii.eqb c backslash then set_loop true sets cur body
      else set_loop false sets (cur ++ [c]) body
  end.

Definition FindSetMatches (pattern : string) : list string :=
  let p := String.list_ascii_of_string pattern in
  let n := length p in
  if ((n <? 6)%nat || negb (String.eqb (String.string_of_list_ascii (take 4 p)) "^(?:") ||
      negb (String.eqb (String.string_of_list_ascii (drop (n - 2) p)) ")$"))%bool then []
  else match set_loop false [] [] (take (n - 6) (drop 4 p)) with
       | None => []
       | Some sets => String.string_of_list_ascii <$> filter (λ s, s ≠ []) sets
       end.

(** ** Sorted slices *)

(** [intersect]: [None] is Go's nil slice. *)
Fixpoint intersect_loop (fuel : nat) (a b : list N) : list N :=
  match fuel with
  | O => []
  | S fuel =>
      match a, b with
      | x :: a', y :: b' =>
          (if (x =? y)%N then [x] else []) ++
          (if (x <? y)%N then intersect_loop fuel a' b else intersect_loop fuel a b')
      | _, _ => []
      end
  end.

Definition intersect (a : option (list N)) (b : list N) : list N :=
  match a with
  | None => b
  | Some a => intersect_loop (length a + length b) a b
  end.

Fixpoint merge_two_loop (fuel : nat) (a b : list string) : list string :=
  match fuel with
  | O => a ++ b
  | S fuel =>
      match a, b with
      | x :: a', y :: b' =>
          if String.ltb x y then x :: merge_two_loop fuel a' b
          else if String.ltb y x then y :: merge_two_loop fuel a b'
          else x :: merge_two_loop fuel a' b'
      | _, _ => a ++ b
      end
  end.
Definition mergeTwoStringSlices (a b : list string) : list string := merge_two_loop (length a + length b) a b.

(** The recursion halves the list; its length is enough fuel. *)
Fixpoint merge_slices_loop (fuel : nat) (ss : list (list string)) : list string :=
  match fuel with
  | O => []
  | S fuel =>
      match ss with
      | [] => []
      | [s] => s
      | [s1; s2] => mergeTwoStringSlices s1 s2
      | _ =>
          let halfway := (length ss / 2)%nat in
          mergeTwoStringSlices (merge_slices_loop fuel (take halfway ss)) (merge_slices_loop fuel (drop halfway ss))
      end
  end.
Definition mergeStringSlices (ss : list (list string)) : list string := merge_slices_loop (length ss) ss.

(** ** One shard *)

Record indexValueEntry := mkValueEntry { iv_value : string; iv_fps : list N }.
Record indexEntry := mkEntry { ie_name : string; ie_fps : gmap string indexValueEntry }.
Record indexShard := mkIndexShard { is_shard : N; is_idx : gmap string indexEntry }.

(** [sort.Search], [append], [copy] and the store at [j]. *)
Definition insert_fp (fps : list N) (fp : N) : list N :=
  let j := search (length fps) (ge_test fp fps) in take j fps ++ fp :: drop j fps.

Definition add_pair (idx : gmap string indexEntry) (p : LabelPair) (fp : N) : gmap string indexEntry * LabelPair :=
  let values := default (mkEntry (Name p) ∅) (idx !! Name p) in
  let fingerprints := default (mkValueEntry (Value p) []) (ie_fps values !! Value p) in
  let fingerprints' := mkValueEntry (iv_value fingerprints) (insert_fp (iv_fps fingerprints) fp) in
  let values' := mkEntry (ie_name values) (<[iv_value fingerprints := fingerprints']> (ie_fps values)) in
  (<[ie_name values := values']> idx, mkLabel (ie_name values) (iv_value fingerprints)).

Fixpoint add_loop (idx : gmap string indexEntry) (metric : Labels) (fp : N) (interned : Labels) : gmap string indexEntry * Labels :=
  match metric with
  | [] => (idx, interned)
  | p :: metric => let '(idx', l) := add_pair idx p fp in add_loop idx' metric fp (interned ++ [l])
  end.

Definition add (shard : indexShard) (metric : Labels) (fp : N) : indexShard * Labels :=
  let '(idx, interned) := add_loop (is_idx shard) metric fp [] in
  (mkIndexShard (is_shard shard) idx, sort_labels interned).

Definition delete_pair (fp : N) (idx : gmap string indexEntry) (p : LabelPair) : gmap string indexEntry :=
  match idx !! Name p with
  | None => idx
  | Some values =>
      match ie_fps values !! Value p with
      | None => idx
      | Some fingerprints =>
          let fps := iv_fps fingerprints in
          let j := search (length fps) (ge_test fp fps) in
          if decide (fps !! j = Some fp) then
            let fps' := take j fps ++ drop (S j) fps in
            let m := match fps' with
                     | [] => base.delete (Value p) (ie_fps values)
                     | _ => <[Value p := mkValueEntry (iv_value fingerprints) fps']> (ie_fps values)
                     end in
            if (size m =? 0)%nat then base.delete (Name p) idx
            else <[Name p := mkEntry (ie_name values) m]> idx
          else idx
      end
  end.

Definition delete (shard : indexShard) (labels : Labels) (fp : N) : indexShard :=
  mkIndexShard (is_shard shard) (foldl (delete_pair fp) (is_idx shard) labels).

Section Range.
(** The order in which a loop visits a map. *)
Context (range : ∀ A : Type, gmap string A → list (string * A)).
(** [Matcher.Matches] of the Prometheus library. *)
Context (Matches : Matcher → string → bool).

Definition fps_of (values : indexEntry) (value : string) : list N :=
  match ie_fps values !! value with Some fps => iv_fps fps | None => [] end.

Definition toIntersect (m : Matcher) (values : indexEntry) : list N :=
  match m_type m, FindSetMatches (m_value m) with
  | MatchEqual, _ => fps_of values (m_value m)
  | MatchRegexp, (_ :: _) as set => sort_refs (concat (fps_of values <$> set))
  | _, _ => sort_refs (concat ((λ kv, if Matches m kv.1 then iv_fps kv.2 else []) <$> range _ (ie_fps values)))
  end.

Fixpoint lookup_loop (idx : gmap string indexEntry) (result : option (list N)) (matchers : list Matcher) : list N :=
  match matchers with
  | [] => default [] result
  | m :: matchers =>
      match idx !! m_name m with
      | None => []
      | Some values =>
          match intersect result (toIntersect m values) with
          | [] => []
          | r => lookup_loop idx (Some r) matchers
          end
      end
  end.
Definition lookup_fps (shard : indexShard) (matchers : list Matcher) : list N := lookup_loop (is_idx shard) None matchers.

(** Keeps the first occurrences. *)
Fixpoint dedup (seen : gset N) (l : list N) : list N :=
  match l with
  | [] => []
  | x :: l => if decide (x ∈ seen) then dedup seen l else x :: dedup ({[x]} ∪ seen) l
  end.

Definition allFPs (shard : indexShard) : list N :=
  dedup ∅ (concat ((λ e, concat ((λ v, iv_fps v.2) <$> range _ (ie_fps e.2))) <$> range _ (is_idx shard))).

Definition sort_strings (l : list string) : list string := merge_sort String.le l.

Definition labelNames (extractor : option (gmap string indexEntry → list string)) (shard : indexShard) : list string :=
  sort_strings (match extractor with
                | Some f => f (is_idx shard)
                | None => fst <$> range _ (is_idx shard)
                end).

Definition labelValues (name : string) (extractor : option (indexEntry → list string)) (shard : indexShard) : list string :=
  match is_idx shard !! name with
  | None => []
  | Some values =>
      match extractor with
      | None => sort_strings (fst <$> range _ (ie_fps values))
      | Some f => f values
      end
  end.

(** ** BitPrefixInvertedIndex *)

Record BitPrefixInvertedIndex := mkBitPrefix { bp_totalShards : N; bp_shards : list indexShard }.

Definition factor_error : string := "Incompatible inverted index shard factor on ingester: It must be a power of two".
Definition shard_error : string := "Shard factor must be a power of two".

Definition ValidateBitPrefixShardFactor (factor : N) : option string :=
  if (u32 (N.shiftl 1 (RequiredBits (NewShard 0 factor))) =? factor)%N then None else Some factor_error.

Definition NewBitPrefixWithShards (totalShards : N) : outcome BitPrefixInvertedIndex :=
  match ValidateBitPrefixShardFactor totalShards with
  | Some e => Fail e
  | None => Ret (mkBitPrefix totalShards ((λ i, mkIndexShard (N.of_nat i) ∅) <$> seq 0 (N.to_nat totalShards)))
  end.

Definition local_bits (ii : BitPrefixInvertedIndex) : N :=
  RequiredBits (NewShard 0 (u32 (N.of_nat (length (bp_shards ii))))).

(** [s[lo:hi]] of a slice whose capacity is its length. *)
Definition go_slice {A} (l : list A) (lo hi : N) : outcome (list A) :=
  if ((lo <=? hi)%N && (hi <=? N.of_nat (length l))%N)%bool
  then Ret (take (N.to_nat (hi - lo)) (drop (N.to_nat lo) l)) else Panic.

(** The comparison of the shifted index with the bound is one of 64-bit ints,
    that is of their bit patterns. *)
Definition getShards (ii : BitPrefixInvertedIndex) (shard : option Annotation) : outcome (list indexShard * bool) :=
  match shard with
  | None => Ret (bp_shards ii, false)
  | Some a =>
      let filter := (Z.of_nat (length (bp_shards ii)) <? an_of a)%Z in
      let '(minFp, maxFp) := Bounds (TSDB a) in
      let requiredBits := local_bits ii in
      let lowerIdx := N.shiftr minFp (64 - requiredBits) in
      let upperIdx := N.shiftr maxFp (64 - requiredBits) in
      let upperIdx' := if (u64 (N.shiftl upperIdx (64 - requiredBits)) =? maxFp)%N then upperIdx else (upperIdx + 1)%N in
      obind (go_slice (bp_shards ii) lowerIdx upperIdx') (λ shards, Ret (shards, filter))
  end.

Definition shardForFP (ii : BitPrefixInvertedIndex) (fp : N) : N := N.shiftr fp (64 - local_bits ii).

Definition validateShard (shard : option Annotation) : option string :=
  match shard with
  | None => None
  | Some a => if (Z.of_N (N.shiftl 1 (RequiredBits (TSDB a))) =? an_of a)%Z then None else Some shard_error
  end.

Definition bp_Add (ii : BitPrefixInvertedIndex) (labels : Labels) (fp : N) : outcome (BitPrefixInvertedIndex * Labels) :=
  let i := N.to_nat (shardForFP ii fp) in
  match bp_shards ii !! i with
  | None => Panic
  | Some sh =>
      let '(sh', interned) := add sh labels fp in
      Ret (mkBitPrefix (bp_totalShards ii) (<[i := sh']> (bp_shards ii)), interned)
  end.

Definition bp_Delete (ii : BitPrefixInvertedIndex) (labels : Labels) (fp : N) : outcome BitPrefixInvertedIndex :=
  let i := N.to_nat (shardForFP ii fp) in
  match bp_shards ii !! i with
  | None => Panic
  | Some sh => Ret (mkBitPrefix (bp_totalShards ii) (<[i := delete sh labels fp]> (bp_shards ii)))
  end.

Definition bp_Lookup (ii : BitPrefixInvertedIndex) (matchers : list Matcher) (shard : option Annotation) : outcome (list N) :=
  match validateShard shard with
  | Some e => Fail e
  | None =>
      obind (getShards ii shard) (λ '(shards, filter),
        let result := match matchers with
                      | [] => concat (allFPs <$> shards)
                      | _ => concat ((λ sh, lookup_fps sh matchers) <$> shards)
                      end in
        match filter, shard with
        | true, Some a =>
            let '(minFP, maxFP) := Bounds (TSDB a) in
            let minIdx := search (length result) (ge_test minFP result) in
            let maxIdx := search (length result) (ge_test maxFP result) in
            go_slice result (N.of_nat minIdx) (N.of_nat maxIdx)
        | _, _ => Ret result
        end)
  end.

(** The extractor of [LabelNames]: names with a fingerprint of the shard. *)
Definition names_in_shard (s : ShardAnnotation) (x : gmap string indexEntry) : list string :=
  fst <$> filter (λ e, existsb (λ v, existsb (Match s) (iv_fps v.2)) (range _ (ie_fps e.2)) = true) (range _ x).

Definition values_in_shard (s : ShardAnnotation) (x : indexEntry) : list string :=
  fst <$> filter (λ v, existsb (Match s) (iv_fps v.2) = true) (range _ (ie_fps x)).

Definition bp_LabelNames (ii : BitPrefixInvertedIndex) (shard : option Annotation) : outcome (list string) :=
  match validateShard shard with
  | Some e => Fail e
  | None =>
      obind (getShards ii shard) (λ '(shards, filter),
        let extractor := match filter, shard with
                         | true, Some a => Some (names_in_shard (TSDB a))
                         | _, _ => None
                         end in
        Ret (mergeStringSlices (labelNames extractor <$> shards)))
  end.

Definition bp_LabelValues (ii : BitPrefixInvertedIndex) (name : string) (shard : option Annotation) : outcome (list string) :=
  match validateShard shard with
  | Some e => Fail e
  | None =>
      obind (getShards ii shard) (λ '(shards, filter),
        let extractor := match filter, shard with
                         | true, Some a => Some (values_in_shard (TSDB a))
                         | _, _ => None
                         end in
        Ret (mergeStringSlices (labelValues name extractor <$> shards)))
  end.

(** ** InvertedIndex: shards by a hash of the labels, modulo their number *)

Record InvertedIndex := mkInverted { in_totalShards : N; in_shards : list indexShard }.

(** [labelsSeriesIDHash]: SHA-256 and base64 of the printed labels. *)
Context (labelsSeriesIDHash : Labels → N).

Definition NewWithShards (totalShards : N) : InvertedIndex :=
  mkInverted totalShards ((λ i, mkIndexShard (N.of_nat i) ∅) <$> seq 0 (N.to_nat totalShards)).

Definition query_error : string := "incompatible index shard query".

Definition in_validateShard (ii : InvertedIndex) (shard : option Annotation) : outcome unit :=
  match shard with
  | None => Ret tt
  | Some a =>
      if (an_of a =? 0)%Z then Panic
      else if (negb (Z.rem (Z.of_N (in_totalShards ii)) (an_of a) =? 0)%Z || (in_totalShards ii <? u32 (Z.to_N (an_of a `mod` 2 ^ 64)))%N)%bool
      then Fail query_error else Ret tt
  end.

Definition in_getShards (ii : InvertedIndex) (shard : option Annotation) : outcome (list indexShard) :=
  match shard with
  | None => Ret (in_shards ii)
  | Some a =>
      let totalRequested := (Z.of_N (in_totalShards ii) ÷ an_of a)%Z in
      if (totalRequested <? 0)%Z then Panic
      else omapM (λ i,
        let subShard := (an_shard a + Z.of_nat i * an_of a)%Z in
        if (subShard <? 0)%Z then Panic else of_option (in_shards ii !! Z.to_nat subShard)) (seq 0 (Z.to_nat totalRequested))
  end.

Definition in_shard_of (ii : InvertedIndex) (labels : Labels) : nat :=
  N.to_nat (labelsSeriesIDHash labels `mod` in_totalShards ii)%N.

Definition in_Add (ii : InvertedIndex) (labels : Labels) (fp : N) : outcome (InvertedIndex * Labels) :=
  match in_shards ii !! in_shard_of ii labels with
  | None => Panic
  | Some sh =>
      let '(sh', interned) := add sh labels fp in
      Ret (mkInverted (in_totalShards ii) (<[in_shard_of ii labels := sh']> (in_shards ii)), interned)
  end.

Definition in_Delete (ii : InvertedIndex) (labels : Labels) (fp : N) : outcome InvertedIndex :=
  match in_shards ii !! in_shard_of ii labels with
  | None => Panic
  | Some sh => Ret (mkInverted (in_totalShards ii) (<[in_shard_of ii labels := delete sh labels fp]> (in_shards ii)))
  end.

Definition in_Lookup (ii : InvertedIndex) (matchers : list Matcher) (shard : option Annotation) : outcome (list N) :=
  obind (in_validateShard ii shard) (λ _,
    obind (in_getShards ii shard) (λ shards,
      Ret (match matchers with
           | [] => concat (allFPs <$> shards)
           | _ => concat ((λ sh, lookup_fps sh matchers) <$> shards)
           end))).

Definition in_LabelNames (ii : InvertedIndex) (shard : option Annotation) : outcome (list string) :=
  obind (in_validateShard ii shard) (λ _,
    obind (in_getShards ii shard) (λ shards, Ret (mergeStringSlices (labelNames None <$> shards)))).

Definition in_LabelValues (ii : InvertedIndex) (name : string) (shard : option Annotation) : outcome (list string) :=
  obind (in_validateShard ii shard) (λ _,
    obind (in_getShards ii shard) (λ shards, Ret (mergeStringSlices (labelValues name None <$> shards)))).
End Range.

(** * Sets in regular expressions *)

(** [regexp.QuoteMeta], byte by byte. *)
Definition quote_char (c : ascii) : list ascii :=
  if (isRegexMetaCharacter c || Ascii.eqb c backslash)%bool then [backslash; c] else [c].
Definition quote (v : list ascii) : list ascii := concat (quote_char <$> v).

(** The pattern of [=~] for a list of values, in the wrapper Prometheus adds. *)
Fixpoint join_bar (vs : list (list ascii)) : list ascii :=
  match vs with
  | [] => []
  | [v] => quote v
  | v :: vs => quote v ++ bar :: join_bar vs
  end.

Definition set_pattern (vs : list string) : string :=
  String.string_of_list_ascii (String.list_ascii_of_string "^(?:" ++ join_bar (String.list_ascii_of_string <$> vs) ++ String.list_ascii_of_string ")$").

Lemma isRegexMetaCharacter_spec (c : ascii) :
  isRegexMetaCharacter c = existsb (λ b, (b =? N_of_ascii c)%N) meta_chars.
Proof. destruct c as [b0 b1 b2 b3 b4 b5 b6 b7]. by destruct b0, b1, b2, b3, b4, b5, b6, b7; vm_compute. Qed.

Lemma set_loop_quote v sets cur rest :
  set_loop false sets cur (quote v ++ rest) = set_loop false sets (cur ++ v) rest.
Proof.
  revert cur. induction v as [|c v IH]; intros cur; [by rewrite (right_id_L [] (++))|].
  assert (quote (c :: v) = quote_char c ++ quote v) as -> by done. unfold quote_char.
  replace (cur ++ c :: v) with ((cur ++ [c]) ++ v) by (by rewrite <-(assoc_L (++))).
  destruct (isRegexMetaCharacter c) eqn:Em; cbn [orb].
  - cbn [app set_loop]. change (isRegexMetaCharacter backslash) with false. cbn iota.
    change (Ascii.eqb backslash backslash) with true. cbn iota. rewrite Em. apply IH.
  - destruct (Ascii.eqb_spec c backslash) as [->|Hc].
    + cbn [app set_loop]. change (isRegexMetaCharacter backslash) with false. cbn iota.
      change (Ascii.eqb backslash backslash) with true. cbn iota. apply IH.
    + cbn [app set_loop]. rewrite Em. cbn iota. destruct (Ascii.eqb_spec c backslash); [done|]. apply IH.
Qed.

Lemma set_loop_join vs sets :
  vs ≠ [] → set_loop false sets [] (join_bar vs) = Some (sets ++ vs).
Proof.
  revert sets. induction vs as [|v vs IH]; intros sets Hne; [done|]. destruct vs as [|v2 vs].
  - cbn [join_bar]. rewrite <-(right_id_L [] (++) (quote v)), set_loop_quote. done.
  - change (join_bar (v :: v2 :: vs)) with (quote v ++ bar :: join_bar (v2 :: vs)). rewrite set_loop_quote.
    cbn [set_loop]. change (isRegexMetaCharacter bar) with true. cbn iota. change (Ascii.eqb bar bar) with true. cbn iota.
    rewrite IH by done. by rewrite <-(assoc_L (++)).
Qed.

(** Whether a regular expression ends within an escape, which no valid one does. *)
Fixpoint dangling (escaped : bool) (body : list ascii) : bool :=
  match body with
  | [] => escaped
  | c :: body => dangling (negb escaped && Ascii.eqb c backslash) body
  end.

(** What the loop accepts is an alternation of quoted literals. *)
Lemma set_loop_inv body : ∀ escaped sets cur sets', set_loop escaped sets cur body = Some sets' → dangling escaped body = false →
  ∃ first rest, sets' = sets ++ (cur ++ first) :: rest ∧ (if escaped then backslash :: body else body) = join_bar (first :: rest).
Proof.
  assert (∀ c first rest, join_bar ((c :: first) :: rest) = quote_char c ++ join_bar (first :: rest)) as Hcons.
  { intros c first [|r rest]; cbn [join_bar]; [done|]. change (quote (c :: first)) with (quote_char c ++ quote first). by rewrite <- (assoc_L (++)). }
  assert (isRegexMetaCharacter backslash = false) as Hback by done.
  induction body as [|c body IH]; intros escaped sets cur sets'; cbn [set_loop dangling].
  { intros [= <-] ->. exists [], []. by rewrite (right_id_L [] (++)). }
  assert (∀ c', set_loop false sets (cur ++ [c']) body = Some sets' → dangling false body = false →
    ∃ first rest, sets' = sets ++ (cur ++ c' :: first) :: rest ∧ quote_char c' ++ body = join_bar ((c' :: first) :: rest)) as Hlit.
  { intros c' Hl Hd. destruct (IH _ _ _ _ Hl Hd) as (first & rest & -> & Hb). exists first, rest. rewrite <- (assoc_L (++)). split; [done|]. by rewrite Hcons, Hb. }
  destruct escaped; cbn [negb andb].
  - destruct (isRegexMetaCharacter c) eqn:Em.
    + intros Hl Hd. destruct (Hlit c Hl Hd) as (first & rest & -> & Hb). unfold quote_char in Hb. rewrite Em in Hb. by exists (c :: first), rest.
    + destruct (Ascii.eqb_spec c backslash) as [->|]; [|done]. intros Hl Hd. destruct (Hlit _ Hl Hd) as (first & rest & -> & Hb). by exists (backslash :: first), rest.
  - destruct (isRegexMetaCharacter c) eqn:Em.
    + destruct (Ascii.eqb_spec c bar) as [->|]; [|done]. intros Hl Hd. destruct (IH _ _ _ _ Hl Hd) as (first & rest & -> & Hb).
      exists [], (first :: rest). rewrite (right_id_L [] (++)), <- (assoc_L (++)). split; [done|]. change (join_bar ([] :: first :: rest)) with (bar :: join_bar (first :: rest)). by rewrite <- Hb.
    + destruct (Ascii.eqb_spec c backslash) as [->|Hne]; intros Hl Hd.
      * destruct (IH _ _ _ _ Hl Hd) as (first & rest & -> & Hb). by exists first, rest.
      * destruct (Hlit c Hl Hd) as (first & rest & -> & Hb). exists (c :: first), rest. split; [done|]. rewrite <- Hb. unfold quote_char. rewrite Em. by destruct (Ascii.eqb_spec c backslash).
Qed.

(** The expression of a list of literals, and the wrapper of a matcher. *)
Definition alternation (vs : list string) : string := String.string_of_list_ascii (join_bar (String.list_ascii_of_string <$> vs)).
Definition wrapped (v : string) : string := "^(?:" +:+ v +:+ ")$".

Lemma list_ascii_app a b : String.list_ascii_of_string (a +:+ b) = String.list_ascii_of_string a ++ String.list_ascii_of_string b.
Proof. induction a as [|c a IH]; [done|]. rewrite str_app_cons. cbn [String.list_ascii_of_string app]. by rewrite IH. Qed.

Lemma FindSetMatches_wrapped v set : FindSetMatches (wrapped v) = set → set ≠ [] → dangling false (String.list_ascii_of_string v) = false →
  ∃ alts, v = alternation alts ∧ set = filter (λ a, a ≠ "") alts.
Proof.
  intros <- Hne Hd. unfold FindSetMatches in *.
  assert (String.list_ascii_of_string (wrapped v) = String.list_ascii_of_string "^(?:" ++ String.list_ascii_of_string v ++ String.list_ascii_of_string ")$") as Hp.
  { unfold wrapped. by rewrite !list_ascii_app. }
  rewrite Hp in Hne |- *. set (body := String.list_ascii_of_string v) in *. set (p := _ ++ body ++ _) in *.
  assert (length p = 6 + length body) as Hn by (unfold p; rewrite !length_app; cbn; lia). rewrite Hn in Hne |- *.
  replace (take (6 + length body - 6) (drop 4 p)) with body in Hne |- *.
  2: { replace (drop 4 p) with (body ++ String.list_ascii_of_string ")$") by done. rewrite take_app_length'; [done|lia]. }
  destruct (_ || _)%bool; [done|]. destruct (set_loop false [] [] body) as [sets|] eqn:El; [|done].
  destruct (set_loop_inv _ _ _ _ _ El Hd) as (first & rest & -> & Hb). exists (String.string_of_list_ascii <$> (first :: rest)). cbn [app]. split.
  - unfold alternation. rewrite <- list_fmap_compose. rewrite (list_fmap_ext _ id) by (intros i a _; apply String.list_ascii_of_string_of_list_ascii).
    rewrite list_fmap_id, <- Hb. unfold body. by rewrite String.string_of_list_ascii_of_string.
  - generalize (first :: rest). intros l. clear. induction l as [|a l IH]; [done|]. rewrite fmap_cons. destruct a as [|c a].
    + rewrite !filter_cons_False by (intros H; by apply H). exact IH.
    + rewrite !filter_cons_True by done. by rewrite fmap_cons, IH.
Qed.

(** [FindSetMatches] reads back exactly the values of a pattern that is an
    alternation of quoted non-empty literals in the wrapper Prometheus puts
    around a regular expression. *)
Theorem FindSetMatches_roundtrip (vs : list string) :
  vs ≠ [] → Forall (λ v, v ≠ EmptyString) vs → FindSetMatches (set_pattern vs) = vs.
Proof.
  intros Hne Hvs. unfold FindSetMatches, set_pattern. rewrite String.list_ascii_of_string_of_list_ascii.
  set (body := join_bar _). set (p := _ ++ body ++ _).
  assert (Hn : length p = (6 + length body)%nat) by (unfold p; rewrite !length_app; simpl; lia). rewrite Hn.
  rewrite (proj2 (Nat.ltb_ge _ 6)) by lia. cbn [orb].
  replace (take 4 p) with (String.list_ascii_of_string "^(?:") by done.
  replace (drop (6 + length body - 2) p) with (String.list_ascii_of_string ")$").
  2: { unfold p. rewrite (assoc_L (++)), drop_app_length'; [done|]. rewrite length_app. simpl. lia. }
  replace (take (6 + length body - 6) (drop 4 p)) with body.
  2: { replace (drop 4 p) with (body ++ String.list_ascii_of_string ")$") by done. rewrite take_app_length'; [done|lia]. }
  change (_ || _)%bool with false. cbn iota. unfold body. rewrite set_loop_join by (by destruct vs).
  rewrite filter_all.
  - cbn [app]. rewrite <-list_fmap_compose. rewrite <-(list_fmap_id vs) at 2. apply list_fmap_ext.
    intros i v _. apply String.string_of_list_ascii_of_string.
  - cbn [app]. intros v (s & -> & Hs)%list_elem_of_fmap. rewrite Forall_forall in Hvs. specialize (Hvs s Hs). by destruct s.
Qed.

Lemma FindSetMatches_roundtrip_witness :
  FindSetMatches (set_pattern ["a.b"; "c|d"; "e"]) = ["a.b"; "c|d"; "e"].
Proof. apply (FindSetMatches_roundtrip ["a.b"; "c|d"; "e"]); [discriminate|repeat constructor; discriminate]. Defined.

(** * Sorted slices *)

Lemma intersect_loop_spec fuel a b :
  StronglySorted N.lt a → StronglySorted N.lt b → length a + length b ≤ fuel →
  intersect_loop fuel a b = filter (λ x, x ∈ b) a.
Proof.
  revert a b. induction fuel as [|fuel IH]; intros a b Ha Hb Hf.
  { destruct a; [done|]. simpl in Hf. lia. }
  destruct a as [|x a]; [done|]. destruct b as [|y b].
  { simpl. symmetry. apply filter_none. set_solver. }
  pose proof Ha as [Hxa Ha']%StronglySorted_cons. pose proof Hb as [Hyb Hb']%StronglySorted_cons.
  rewrite Forall_forall in Hxa, Hyb. cbn [intersect_loop]. simpl in Hf.
  destruct (N.ltb_spec x y) as [Hxy|Hxy].
  - rewrite (proj2 (N.eqb_neq x y)) by lia. cbn [app]. rewrite IH by (done || simpl; lia).
    rewrite filter_cons_False; [done|]. intros [->|Hin]%elem_of_cons; [lia|]. apply Hyb in Hin. lia.
  - rewrite IH by (done || simpl; lia). destruct (N.eqb_spec x y) as [->|Hne].
    + rewrite (filter_cons_True (λ x, x ∈ y :: b)) by left. cbn [app].
      rewrite (filter_cons_False (λ x, x ∈ b)) by (intros Hin; apply Hyb in Hin; lia).
      f_equal. apply filter_ext_in. intros z Hz. apply Hxa in Hz. rewrite elem_of_cons. naive_solver lia.
    + cbn [app]. apply filter_ext_in. intros z Hz. rewrite elem_of_cons. split; [by right|]. intros [->|?]; [|done].
      apply elem_of_cons in Hz as [->|Hz]; [done|]. apply Hxa in Hz. lia.
Qed.

(** [intersect] of sorted lists: those of the first that are in the second. *)
Lemma intersect_spec a b :
  StronglySorted N.lt a → StronglySorted N.lt b → intersect (Some a) b = filter (λ x, x ∈ b) a.
Proof. intros. by apply intersect_loop_spec. Qed.

Definition str_lt (a b : string) : Prop := String.ltb a b = true.

Global Instance str_lt_trans : Transitive str_lt.
Proof. intros a b c. apply str_ltb_trans. Qed.

Lemma merge_two_spec fuel a b :
  StronglySorted str_lt a → StronglySorted str_lt b → length a + length b ≤ fuel →
  StronglySorted str_lt (merge_two_loop fuel a b) ∧ ∀ x, x ∈ merge_two_loop fuel a b ↔ x ∈ a ∨ x ∈ b.
Proof.
  revert a b. induction fuel as [|fuel IH]; intros a b Ha Hb Hf.
  { destruct a, b; simpl in Hf; try lia. split; [constructor|set_solver]. }
  destruct a as [|x a]; [simpl; split; [done|set_solver]|].
  destruct b as [|y b]; [cbn [merge_two_loop]; rewrite (right_id_L [] (++)); split; [done|set_solver]|].
  pose proof Ha as [Hxa Ha']%StronglySorted_cons. pose proof Hb as [Hyb Hb']%StronglySorted_cons.
  cbn [merge_two_loop]. simpl in Hf. destruct (str_trichotomy x y) as [(E1&E2&_)|[(E1&E2&->)|(E1&E2&_)]]; rewrite E1, ?E2.
  - destruct (IH a (y :: b) Ha' Hb) as [Hs He]; [simpl; lia|]. split; [|intros z; rewrite !elem_of_cons, He, ?elem_of_cons; tauto].
    apply StronglySorted_cons. split; [|done]. apply Forall_forall. intros z Hz. apply He in Hz as [Hz|[->|Hz]%elem_of_cons].
    + rewrite Forall_forall in Hxa. by apply Hxa.
    + done.
    + rewrite Forall_forall in Hyb. by transitivity y; [|apply Hyb].
  - destruct (IH a b Ha' Hb') as [Hs He]; [simpl; lia|]. split; [|intros z; rewrite !elem_of_cons, He, ?elem_of_cons; tauto].
    apply StronglySorted_cons. split; [|done]. apply Forall_forall. intros z Hz. rewrite Forall_forall in Hxa, Hyb.
    apply He in Hz as [Hz|Hz]; auto.
  - destruct (IH (x :: a) b Ha Hb') as [Hs He]; [simpl; lia|]. split; [|intros z; rewrite !elem_of_cons, He, ?elem_of_cons; tauto].
    apply StronglySorted_cons. split; [|done]. apply Forall_forall. intros z Hz. apply He in Hz as [[->|Hz]%elem_of_cons|Hz].
    + done.
    + rewrite Forall_forall in Hxa. by transitivity x; [|apply Hxa].
    + rewrite Forall_forall in Hyb. by apply Hyb.
Qed.

Lemma merge_slices_spec fuel ss :
  Forall (StronglySorted str_lt) ss → length ss ≤ fuel →
  StronglySorted str_lt (merge_slices_loop fuel ss) ∧ ∀ x, x ∈ merge_slices_loop fuel ss ↔ ∃ s, s ∈ ss ∧ x ∈ s.
Proof.
  revert ss. induction fuel as [|fuel IH]; intros ss Hs Hf.
  { destruct ss; [|simpl in Hf; lia]. split; [constructor|set_solver]. }
  destruct ss as [|s1 [|s2 [|s3 ss]]].
  - split; [constructor|set_solver].
  - apply Forall_cons in Hs as [Hs _]. split; [exact Hs|]. cbn [merge_slices_loop]. set_solver.
  - apply Forall_cons in Hs as [H1 [H2 _]%Forall_cons]. destruct (merge_two_spec (length s1 + length s2) s1 s2 H1 H2) as [Hm He]; [lia|].
    split; [done|]. intros x. cbn [merge_slices_loop]. unfold mergeTwoStringSlices. rewrite He. set_solver.
  - set (l := s1 :: s2 :: s3 :: ss) in *. cbn [merge_slices_loop].
    assert (Hlen : (2 ≤ length l)%nat) by (simpl; lia). change (match l with [] => _ | _ => _ end) with
      (mergeTwoStringSlices (merge_slices_loop fuel (take (length l / 2) l)) (merge_slices_loop fuel (drop (length l / 2) l))).
    assert (Hh : (0 < length l / 2 < length l)%nat) by (split; [apply Nat.div_str_pos; lia|apply Nat.div_lt; lia]).
    rewrite <-(take_drop (length l / 2) l), Forall_app in Hs. destruct Hs as [Ht Hd].
    destruct (IH _ Ht) as [Hst Het]; [rewrite length_take; lia|].
    destruct (IH _ Hd) as [Hsd Hed]; [rewrite length_drop; lia|].
    destruct (merge_two_spec _ _ _ Hst Hsd (Nat.le_refl _)) as [Hm He]. split; [done|].
    intros x. unfold mergeTwoStringSlices. rewrite He, Het, Hed.
    assert (Hel : ∀ s, s ∈ l ↔ s ∈ take (length l / 2) l ∨ s ∈ drop (length l / 2) l) by (intros s; by rewrite <-elem_of_app, take_drop).
    setoid_rewrite Hel. naive_solver.
Qed.

(** * The content of a shard *)

(** The fingerprints a label pair has. *)
Definition fps_at (idx : gmap string indexEntry) (n v : string) : list N :=
  match idx !! n with Some e => fps_of e v | None => [] end.

(** Keys are the interned names, nothing is empty, slices are sorted. *)
Definition wf_entry (n : string) (e : indexEntry) : Prop :=
  ie_name e = n ∧ ie_fps e ≠ ∅ ∧
  map_Forall (λ v ve, iv_value ve = v ∧ iv_fps ve ≠ [] ∧ StronglySorted N.le (iv_fps ve)) (ie_fps e).
Definition wf_idx (idx : gmap string indexEntry) : Prop := map_Forall wf_entry idx.

Lemma wf_sorted idx n v : wf_idx idx → StronglySorted N.le (fps_at idx n v).
Proof.
  intros Hwf. unfold fps_at, fps_of. destruct (idx !! n) as [e|] eqn:En; [|constructor].
  destruct (ie_fps e !! v) as [ve|] eqn:Ev; [|constructor]. destruct (Hwf _ _ En) as (_ & _ & Hm). by destruct (Hm _ _ Ev) as (_ & _ & ?).
Qed.

(** A well-formed index is determined by its content. *)
Lemma idx_ext idx1 idx2 :
  wf_idx idx1 → wf_idx idx2 → (∀ n v, fps_at idx1 n v = fps_at idx2 n v) → idx1 = idx2.
Proof.
  intros H1 H2 Heq.
  assert (Hne : ∀ idx n e, wf_idx idx → idx !! n = Some e → ∃ v, fps_at idx n v ≠ []).
  { intros idx n e Hwf En. destruct (Hwf _ _ En) as (_ & Hn & Hm). apply map_choose in Hn as (v & ve & Ev).
    exists v. unfold fps_at, fps_of. rewrite En, Ev. by destruct (Hm _ _ Ev) as (_ & ? & _). }
  apply map_eq. intros n. destruct (idx1 !! n) as [e1|] eqn:E1, (idx2 !! n) as [e2|] eqn:E2; [|exfalso|exfalso|done].
  - f_equal. destruct (H1 _ _ E1) as (Hn1 & _ & Hm1), (H2 _ _ E2) as (Hn2 & _ & Hm2).
    assert (Hv : ∀ v, fps_of e1 v = fps_of e2 v) by (intros v; specialize (Heq n v); unfold fps_at in Heq; by rewrite E1, E2 in Heq).
    destruct e1 as [n1 m1], e2 as [n2 m2]. simpl in *. f_equal; [congruence|]. apply map_eq. intros v. specialize (Hv v).
    unfold fps_of in Hv. simpl in Hv. specialize (Hm1 v). specialize (Hm2 v).
    destruct (m1 !! v) as [[v1 f1]|], (m2 !! v) as [[v2 f2]|]; simpl in *; try done.
    + destruct (Hm1 _ eq_refl) as (? & _), (Hm2 _ eq_refl) as (? & _). simpl in *. by subst.
    + by destruct (Hm1 _ eq_refl) as (_ & ? & _).
    + by destruct (Hm2 _ eq_refl) as (_ & ? & _).
  - destruct (Hne idx1 n e1 H1 E1) as [v Hv]. apply Hv. rewrite Heq. unfold fps_at. by rewrite E2.
  - destruct (Hne idx2 n e2 H2 E2) as [v Hv]. apply Hv. rewrite <-Heq. unfold fps_at. by rewrite E1.
Qed.

(** What [delete] leaves of a slice. *)
Definition remove_fp (fps : list N) (fp : N) : list N :=
  let j := search (length fps) (ge_test fp fps) in
  if decide (fps !! j = Some fp) then take j fps ++ drop (S j) fps else fps.

Lemma insert_fp_eq fps fp : StronglySorted N.le fps → insert_fp fps fp = take_lt fp fps ++ fp :: drop_lt fp fps.
Proof. intros Hs. unfold insert_fp. by destruct (search_split fp fps Hs) as [-> ->]. Qed.

Lemma insert_fp_perm fps fp : StronglySorted N.le fps → insert_fp fps fp ≡ₚ fp :: fps.
Proof. intros Hs. rewrite insert_fp_eq by done. rewrite <-Permutation_middle. by rewrite take_drop_lt. Qed.

Lemma insert_fp_sorted fps fp : StronglySorted N.le fps → StronglySorted N.le (insert_fp fps fp).
Proof.
  intros Hs. rewrite insert_fp_eq by done. induction Hs as [|y l Hs IH Hy]; simpl; [repeat constructor|].
  destruct (N.ltb_spec y fp) as [Hlt|Hge]; simpl.
  - constructor; [done|]. rewrite <-Permutation_middle, take_drop_lt. constructor; [lia|done].
  - constructor; [by constructor|]. constructor; [done|]. eapply Forall_impl; [done|]. simpl. lia.
Qed.

Lemma remove_insert fps fp : StronglySorted N.le fps → remove_fp (insert_fp fps fp) fp = fps.
Proof.
  intros Hs. unfold remove_fp. rewrite search_take_lt by (by apply insert_fp_sorted). rewrite insert_fp_eq by done.
  rewrite take_lt_app by apply take_lt_Forall. cbn [take_lt]. rewrite N.ltb_irrefl, (right_id_L [] (++)).
  rewrite lookup_app_r, Nat.sub_diag by done. rewrite decide_True by done.
  rewrite take_app_length. rewrite drop_app_ge by lia. replace (S _ - _)%nat with 1%nat by lia. apply take_drop_lt.
Qed.

Lemma remove_fp_sorted fps fp : StronglySorted N.le fps → StronglySorted N.le (remove_fp fps fp).
Proof.
  intros Hs. unfold remove_fp. case_decide; [|done]. set (j := search _ _).
  assert (Hsub : sublist (take j fps ++ drop (S j) fps) fps).
  { rewrite <-(take_drop j fps) at 3. apply sublist_app; [done|].
    replace (drop (S j) fps) with (drop 1 (drop j fps)) by (rewrite drop_drop; f_equal; lia). apply sublist_drop. }
  clear -Hs Hsub. induction Hsub as [|x k l Hsub IH|x k l Hsub IH]; [constructor| |].
  - apply StronglySorted_cons in Hs as [Hx Hs]. constructor; [by apply IH|]. rewrite Forall_forall in Hx |- *.
    intros y Hy. apply Hx. by eapply elem_of_submseteq, sublist_submseteq.
  - apply StronglySorted_cons in Hs as [_ Hs]. by apply IH.
Qed.

(** One label pair of a series, as a key. *)
Definition at_pair (p : LabelPair) (n v : string) : Prop := n = Name p ∧ v = Value p.
Global Instance at_pair_dec p n v : Decision (at_pair p n v).
Proof. unfold at_pair. apply _. Defined.

Lemma add_pair_spec idx p fp :
  wf_idx idx →
  ∃ idx', add_pair idx p fp = (idx', p) ∧ wf_idx idx' ∧
    ∀ n v, fps_at idx' n v = if decide (at_pair p n v) then insert_fp (fps_at idx n v) fp else fps_at idx n v.
Proof.
  intros Hwf. destruct p as [pn pv]. unfold add_pair. cbn [Name Value].
  set (values := default (mkEntry pn ∅) (idx !! pn)).
  assert (Hname : ie_name values = pn).
  { unfold values. destruct (idx !! pn) as [e|] eqn:E; [|done]. by destruct (Hwf _ _ E) as (? & _). }
  assert (Hvals : ∀ v ve, ie_fps values !! v = Some ve → iv_value ve = v ∧ iv_fps ve ≠ [] ∧ StronglySorted N.le (iv_fps ve)).
  { unfold values. destruct (idx !! pn) as [e|] eqn:E; [|intros v ve; simpl; by rewrite lookup_empty].
    destruct (Hwf _ _ E) as (_ & _ & Hm). apply Hm. }
  assert (Hat : ∀ v, fps_of values v = fps_at idx pn v).
  { intros v. unfold fps_at, values. by destruct (idx !! pn). }
  set (fingerprints := default (mkValueEntry pv []) (ie_fps values !! pv)).
  assert (Hval : iv_value fingerprints = pv).
  { unfold fingerprints. destruct (ie_fps values !! pv) eqn:E; [|done]. by destruct (Hvals _ _ E). }
  assert (Hfps : iv_fps fingerprints = fps_at idx pn pv).
  { rewrite <-Hat. unfold fps_of, fingerprints. by destruct (ie_fps values !! pv). }
  rewrite Hname, Hval, Hfps. eexists. split; [done|]. split.
  - intros n e He. apply lookup_insert_Some in He as [[<- <-]|[Hne He]]; [|by apply Hwf]. split_and!; simpl; [done| |].
    + intros Hemp. apply (f_equal (.!! pv)) in Hemp. by rewrite lookup_insert_eq, lookup_empty in Hemp.
    + intros v ve Hve. apply lookup_insert_Some in Hve as [[<- <-]|[Hne Hve]]; [|by apply Hvals]. simpl.
      pose proof (wf_sorted idx pn pv Hwf) as Hs. split_and!; [done| |by apply insert_fp_sorted].
      intros Hnil. pose proof (insert_fp_perm (fps_at idx pn pv) fp Hs) as Hp. rewrite Hnil in Hp. by apply Permutation_nil_l in Hp.
  - intros n v. unfold fps_at at 1. destruct (decide (n = pn)) as [->|Hn].
    + rewrite lookup_insert_eq. unfold fps_of. simpl. destruct (decide (v = pv)) as [->|Hv].
      * rewrite lookup_insert_eq, decide_True by done. done.
      * rewrite lookup_insert_ne by done. rewrite decide_False by (unfold at_pair; simpl; tauto). apply Hat.
    + rewrite lookup_insert_ne by done. rewrite decide_False by (unfold at_pair; simpl; tauto). done.
Qed.

Lemma delete_pair_spec idx p fp :
  wf_idx idx →
  wf_idx (delete_pair fp idx p) ∧
    ∀ n v, fps_at (delete_pair fp idx p) n v = if decide (at_pair p n v) then remove_fp (fps_at idx n v) fp else fps_at idx n v.
Proof.
  intros Hwf. destruct p as [pn pv]. unfold delete_pair. cbn [Name Value].
  assert (Hsame : remove_fp (fps_at idx pn pv) fp = fps_at idx pn pv → wf_idx idx ∧
    ∀ n v, fps_at idx n v = if decide (at_pair (mkLabel pn pv) n v) then remove_fp (fps_at idx n v) fp else fps_at idx n v).
  { intros Hr. split; [done|]. intros n v. case_decide as Hd; [|done]. by destruct Hd as [-> ->]. }
  destruct (idx !! pn) as [values|] eqn:En; [|apply Hsame; unfold fps_at; by rewrite En].
  destruct (Hwf _ _ En) as (Hname & _ & Hm).
  destruct (ie_fps values !! pv) as [fingerprints|] eqn:Ev; [|apply Hsame; unfold fps_at, fps_of; by rewrite En, Ev].
  destruct (Hm _ _ Ev) as (Hval & Hne & Hs).
  assert (Hat : fps_at idx pn pv = iv_fps fingerprints) by (unfold fps_at, fps_of; by rewrite En, Ev).
  set (j := search _ _). destruct (decide (iv_fps fingerprints !! j = Some fp)) as [Hj|Hj].
  2: { apply Hsame. rewrite Hat. unfold remove_fp. fold j. by rewrite decide_False. }
  assert (Hrem : remove_fp (fps_at idx pn pv) fp = take j (iv_fps fingerprints) ++ drop (S j) (iv_fps fingerprints)).
  { rewrite Hat. unfold remove_fp. fold j. by rewrite decide_True. }
  set (fps' := take j _ ++ drop (S j) _) in *. clear Hsame.
  set (m := match fps' with [] => base.delete pv (ie_fps values) | _ => _ end).
  assert (Hmv : ∀ v, match m !! v with Some ve => iv_fps ve | None => [] end =
     if decide (v = pv) then fps' else fps_of values v).
  { intros v. unfold m. case_decide as Hv; [subst v|].
    - destruct fps'; [by rewrite lookup_delete_eq|by rewrite lookup_insert_eq].
    - unfold fps_of. destruct fps'; [by rewrite lookup_delete_ne|by rewrite lookup_insert_ne]. }
  assert (Hmwf : map_Forall (λ v ve, iv_value ve = v ∧ iv_fps ve ≠ [] ∧ StronglySorted N.le (iv_fps ve)) m).
  { assert (StronglySorted N.le fps') as Hsf by (rewrite <-Hrem; apply remove_fp_sorted; by rewrite Hat).
    unfold m. destruct fps' as [|f fs].
    - intros v ve Hve. apply lookup_delete_Some in Hve as [_ Hve]. by apply Hm.
    - intros v ve Hve. apply lookup_insert_Some in Hve as [[<- <-]|[_ Hve]]; [done|by apply Hm]. }
  assert (Hfin : ∀ idx', (∀ v, fps_at idx' pn v = match m !! v with Some ve => iv_fps ve | None => [] end) →
    (∀ n v, n ≠ pn → fps_at idx' n v = fps_at idx n v) →
    ∀ n v, fps_at idx' n v = if decide (at_pair (mkLabel pn pv) n v) then remove_fp (fps_at idx n v) fp else fps_at idx n v).
  { intros idx' H1 H2 n v. destruct (decide (n = pn)) as [->|Hn].
    - rewrite H1, Hmv. destruct (decide (v = pv)) as [->|Hv]; [by rewrite decide_True, Hrem by done|].
      rewrite (decide_False (P := at_pair _ _ _)) by (unfold at_pair; simpl; tauto). unfold fps_at. by rewrite En.
    - rewrite H2 by done. by rewrite decide_False by (unfold at_pair; simpl; tauto). }
  destruct (Nat.eqb_spec (size m) 0) as [Hz|Hz].
  - apply map_size_empty_inv in Hz. split; [intros n e He; apply lookup_delete_Some in He as [_ He]; by apply Hwf|].
    apply Hfin.
    + intros v. unfold fps_at. by rewrite lookup_delete_eq, Hz, lookup_empty.
    + intros n v Hn. unfold fps_at. by rewrite lookup_delete_ne.
  - split.
    + intros n e He. apply lookup_insert_Some in He as [[<- <-]|[_ He]]; [|by apply Hwf].
      split_and!; [done| |done]. simpl. intros Hemp. apply Hz. by rewrite Hemp, map_size_empty.
    + apply Hfin.
      * intros v. unfold fps_at. by rewrite lookup_insert_eq.
      * intros n v Hn. unfold fps_at. by rewrite lookup_insert_ne.
Qed.

Lemma add_loop_spec idx ls fp interned :
  wf_idx idx → NoDup ls →
  ∃ idx', add_loop idx ls fp interned = (idx', interned ++ ls) ∧ wf_idx idx' ∧
    ∀ n v, fps_at idx' n v = if decide (mkLabel n v ∈ ls) then insert_fp (fps_at idx n v) fp else fps_at idx n v.
Proof.
  intros Hwf Hnd. revert idx interned Hwf. induction ls as [|p ls IH]; intros idx interned Hwf.
  { exists idx. rewrite (right_id_L [] (++)). split_and!; [done|done|]. intros n v. by rewrite decide_False by apply not_elem_of_nil. }
  apply NoDup_cons in Hnd as [Hp Hnd]. cbn [add_loop].
  destruct (add_pair_spec idx p fp Hwf) as (idx1 & -> & Hwf1 & H1).
  destruct (IH Hnd idx1 (interned ++ [p]) Hwf1) as (idx2 & -> & Hwf2 & H2).
  exists idx2. rewrite <-(assoc_L (++)). split_and!; [done|done|]. intros n v. rewrite H2, H1.
  destruct p as [pn pv]. unfold at_pair. simpl.
  destruct (decide (n = pn ∧ v = pv)) as [[-> ->]|Hne].
  - rewrite decide_False by done. by rewrite decide_True by left.
  - destruct (decide (mkLabel n v ∈ ls)) as [Hin|Hin]; [by rewrite decide_True by (by right)|].
    rewrite decide_False; [done|]. intros [?|?]%elem_of_cons; [naive_solver|done].
Qed.

Lemma delete_loop_spec idx ls fp :
  wf_idx idx → NoDup ls →
  wf_idx (foldl (delete_pair fp) idx ls) ∧
    ∀ n v, fps_at (foldl (delete_pair fp) idx ls) n v = if decide (mkLabel n v ∈ ls) then remove_fp (fps_at idx n v) fp else fps_at idx n v.
Proof.
  intros Hwf Hnd. revert idx Hwf. induction ls as [|p ls IH]; intros idx Hwf.
  { split; [done|]. intros n v. by rewrite decide_False by apply not_elem_of_nil. }
  apply NoDup_cons in Hnd as [Hp Hnd]. cbn [foldl]. destruct (delete_pair_spec idx p fp Hwf) as [Hwf1 H1].
  destruct (IH Hnd _ Hwf1) as [Hwf2 H2]. split; [done|]. intros n v. rewrite H2, H1.
  destruct p as [pn pv]. unfold at_pair. simpl.
  destruct (decide (n = pn ∧ v = pv)) as [[-> ->]|Hne].
  - rewrite decide_False by done. by rewrite decide_True by left.
  - destruct (decide (mkLabel n v ∈ ls)) as [Hin|Hin]; [by rewrite decide_True by (by right)|].
    rewrite decide_False; [done|]. intros [?|?]%elem_of_cons; [naive_solver|done].
Qed.

Lemma add_wf sh ls fp : wf_idx (is_idx sh) → NoDup ls → wf_idx (is_idx (add sh ls fp).1).
Proof.
  intros Hwf Hnd. unfold add. by destruct (add_loop_spec (is_idx sh) ls fp [] Hwf Hnd) as (idx & -> & ? & _).
Qed.

(** Adding a series to a shard keeps the index well-formed (interned keys,
    no empty entries, sorted fingerprints), inserts the fingerprint under exactly
    its label pairs and returns the labels sorted; deleting the series again
    restores the index exactly. *)
Theorem add_delete_roundtrip (sh : indexShard) (ls : Labels) (fp : N) :
  wf_idx (is_idx sh) → NoDup ls →
  let '(sh', interned) := add sh ls fp in
  wf_idx (is_idx sh') ∧ interned = sort_labels ls ∧
  (∀ n v, fps_at (is_idx sh') n v ≡ₚ (if decide (mkLabel n v ∈ ls) then [fp] else []) ++ fps_at (is_idx sh) n v) ∧
  delete sh' ls fp = sh.
Proof.
  intros Hwf Hnd. unfold add. destruct (add_loop_spec (is_idx sh) ls fp [] Hwf Hnd) as (idx & -> & Hwf' & Hat).
  split_and!; [done|done| |].
  - intros n v. simpl. rewrite Hat. case_decide; [|done]. by apply insert_fp_perm, wf_sorted.
  - unfold delete. simpl. destruct (delete_loop_spec idx ls fp Hwf' Hnd) as [Hwf2 Hat2]. destruct sh as [i idx0]. f_equal. simpl in *.
    apply idx_ext; [done|done|]. intros n v. rewrite Hat2, Hat. case_decide; [|done]. by apply remove_insert, wf_sorted.
Qed.

Lemma add_delete_roundtrip_witness :
  let '(sh', interned) := add (mkIndexShard 0 ∅) [mkLabel "pod" "p1"; mkLabel "app" "a"] 7 in
  interned = sort_labels [mkLabel "pod" "p1"; mkLabel "app" "a"] ∧
  delete sh' [mkLabel "pod" "p1"; mkLabel "app" "a"] 7 = mkIndexShard 0 ∅.
Proof.
  pose proof (add_delete_roundtrip (mkIndexShard 0 ∅) [mkLabel "pod" "p1"; mkLabel "app" "a"] 7) as Hr.
  destruct (add _ _ _) as [sh' interned]. destruct Hr as (_ & Hi & _ & Hd).
  - apply map_Forall_empty.
  - apply (bool_decide_unpack _). vm_compute. exact I.
  - split; [exact Hi|exact Hd].
Defined.

(** * Lookups *)

Section Lookup.
Context (range : ∀ A : Type, gmap string A → list (string * A)).
Context (range_perm : ∀ (A : Type) (m : gmap string A), range A m ≡ₚ map_to_list m).
Context (Matches : Matcher → string → bool).

(** The values a matcher selects: a set pattern selects its alternatives. *)
Definition selects (m : Matcher) (v : string) : Prop :=
  match m_type m, FindSetMatches (m_value m) with
  | MatchEqual, _ => v = m_value m
  | MatchRegexp, (_ :: _) as set => v ∈ set
  | _, _ => Matches m v = true
  end.

(** A series has one value per label name and is in the index once. *)
Definition consistent (idx : gmap string indexEntry) : Prop :=
  (∀ n v, NoDup (fps_at idx n v)) ∧
  (∀ n v v' fp, fp ∈ fps_at idx n v → fp ∈ fps_at idx n v' → v = v').

Definition good_matcher (m : Matcher) : Prop := NoDup (FindSetMatches (m_value m)).

Lemma toIntersect_spec idx m values :
  wf_idx idx → consistent idx → good_matcher m → idx !! m_name m = Some values →
  StronglySorted N.lt (toIntersect range Matches m values) ∧
  ∀ fp, fp ∈ toIntersect range Matches m values ↔ ∃ v, selects m v ∧ fp ∈ fps_at idx (m_name m) v.
Proof.
  intros Hwf [Hnd Hdis] Hgood Hv.
  assert (Hat : ∀ v, fps_of values v = fps_at idx (m_name m) v) by (intros v; unfold fps_at; by rewrite Hv).
  (* the general scan *)
  assert (Hscan : let l := concat ((λ kv, if Matches m kv.1 then iv_fps kv.2 else []) <$> range _ (ie_fps values)) in
    StronglySorted N.lt (sort_refs l) ∧ ∀ fp, fp ∈ sort_refs l ↔ ∃ v, Matches m v = true ∧ fp ∈ fps_at idx (m_name m) v).
  { cbv zeta. set (ks := (λ kv, (kv.1, if Matches m kv.1 then iv_fps kv.2 else [])) <$> range _ (ie_fps values)).
    assert ((λ kv : string * indexValueEntry, if Matches m kv.1 then iv_fps kv.2 else []) <$> range _ (ie_fps values) = snd <$> ks) as ->
      by (unfold ks; by rewrite <-list_fmap_compose).
    assert (Hks : ∀ k l, (k, l) ∈ ks ↔ ∃ ve, ie_fps values !! k = Some ve ∧ l = if Matches m k then iv_fps ve else []).
    { intros k l. unfold ks. rewrite list_elem_of_fmap. split.
      - intros ([k' ve] & ? & Hin). simplify_eq/=. rewrite range_perm in Hin. apply elem_of_map_to_list in Hin. by exists ve.
      - intros (ve & Hve & ->). exists (k, ve). split; [done|]. rewrite range_perm. by apply elem_of_map_to_list. }
    assert (Hsub : ∀ k ve x, ie_fps values !! k = Some ve → x ∈ (if Matches m k then iv_fps ve else []) → x ∈ fps_at idx (m_name m) k).
    { intros k ve x Hve Hx. rewrite <-Hat. unfold fps_of. rewrite Hve. by destruct (Matches m k); [|apply elem_of_nil in Hx]. }
    split.
    - apply sort_refs_lt, NoDup_concat_keyed.
      + unfold ks. rewrite <-list_fmap_compose. rewrite range_perm. apply NoDup_fst_map_to_list.
      + intros k l (ve & Hve & ->)%Hks. destruct (Matches m k); [|constructor]. specialize (Hnd (m_name m) k).
        rewrite <-Hat in Hnd. unfold fps_of in Hnd. by rewrite Hve in Hnd.
      + intros k l k' l' x (ve & Hve & ->)%Hks (ve' & Hve' & ->)%Hks Hx Hx'. eapply Hdis; eauto.
    - intros fp. rewrite sort_refs_perm, elem_of_concat. split.
      + intros (l & ([k l2] & -> & Hin)%list_elem_of_fmap & Hfp). apply Hks in Hin as (ve & Hve & ->). simpl in Hfp.
        exists k. split; [by destruct (Matches m k); [|apply elem_of_nil in Hfp]|by eapply Hsub].
      + intros (v & Hm & Hfp). rewrite <-Hat in Hfp. unfold fps_of in Hfp. destruct (ie_fps values !! v) as [ve|] eqn:Ev; [|by apply elem_of_nil in Hfp].
        exists (iv_fps ve). split; [|done]. apply list_elem_of_fmap. exists (v, iv_fps ve). split; [done|]. apply Hks. exists ve. by rewrite Hm. }
  unfold toIntersect, selects. destruct (m_type m).
  - rewrite Hat. split; [by apply sorted_le_lt; [apply wf_sorted|]|]. intros fp. split; [intros ?; by eexists|]. by intros (v & -> & ?).
  - exact Hscan.
  - unfold good_matcher in Hgood. destruct (FindSetMatches (m_value m)) as [|v0 set]; [exact Hscan|].
    set (vs := v0 :: set) in *. set (ks := (λ v, (v, fps_at idx (m_name m) v)) <$> vs).
    assert (fps_of values <$> vs = snd <$> ks) as Heq.
    { unfold ks. rewrite <-list_fmap_compose. apply list_fmap_ext. intros i v _. simpl. apply Hat. }
    rewrite Heq. split.
    + apply sort_refs_lt, NoDup_concat_keyed.
      * unfold ks. rewrite <-list_fmap_compose. by rewrite list_fmap_id.
      * intros k l (v & ? & _)%list_elem_of_fmap. by simplify_eq.
      * intros k l k' l' x (v & ? & _)%list_elem_of_fmap (v' & ? & _)%list_elem_of_fmap Hx Hx'. simplify_eq. eapply Hdis; eauto.
    + intros fp. rewrite sort_refs_perm, elem_of_concat. split.
      * intros (l & ([k l2] & -> & Hin)%list_elem_of_fmap & Hfp). apply list_elem_of_fmap in Hin as (v & ? & Hv'). simplify_eq. by exists v.
      * intros (v & Hv' & Hfp). exists (fps_at idx (m_name m) v). split; [|done]. apply list_elem_of_fmap.
        exists (v, fps_at idx (m_name m) v). split; [done|]. apply list_elem_of_fmap. by exists v.
  - exact Hscan.
Qed.

(** [fp] is selected by every matcher. *)
Definition selected (idx : gmap string indexEntry) (ms : list Matcher) (fp : N) : Prop :=
  ∀ m, m ∈ ms → ∃ v, selects m v ∧ fp ∈ fps_at idx (m_name m) v.

Lemma lookup_loop_spec idx ms r0 :
  wf_idx idx → consistent idx → Forall good_matcher ms →
  match r0 with None => ms ≠ [] | Some r => StronglySorted N.lt r end →
  StronglySorted N.lt (lookup_loop range Matches idx r0 ms) ∧
  ∀ fp, fp ∈ lookup_loop range Matches idx r0 ms ↔ match r0 with None => True | Some r => fp ∈ r end ∧ selected idx ms fp.
Proof.
  intros Hwf Hcons. revert r0. induction ms as [|m ms IH]; intros r0 Hms Hr0.
  { destruct r0 as [r|]; [|done]. simpl. split; [done|]. intros fp. unfold selected. set_solver. }
  apply Forall_cons in Hms as [Hm Hms]. cbn [lookup_loop].
  destruct (idx !! m_name m) as [values|] eqn:Ev.
  2: { split; [constructor|]. intros fp. rewrite elem_of_nil. split; [done|]. intros [_ Hsel].
       destruct (Hsel m ltac:(left)) as (v & _ & Hfp). unfold fps_at in Hfp. rewrite Ev in Hfp. by apply elem_of_nil in Hfp. }
  destruct (toIntersect_spec idx m values Hwf Hcons Hm Ev) as [Hts Hte].
  assert (Hi : StronglySorted N.lt (intersect r0 (toIntersect range Matches m values)) ∧
     ∀ fp, fp ∈ intersect r0 (toIntersect range Matches m values) ↔
       match r0 with None => True | Some r => fp ∈ r end ∧ ∃ v, selects m v ∧ fp ∈ fps_at idx (m_name m) v).
  { destruct r0 as [r|].
    - rewrite intersect_spec by done. split; [by apply StronglySorted_filter|]. intros fp. rewrite list_elem_of_filter, Hte. tauto.
    - simpl. split; [done|]. intros fp. rewrite Hte. tauto. }
  destruct Hi as [His Hie].
  assert (Hsc : ∀ fp, selected idx (m :: ms) fp ↔ (∃ v, selects m v ∧ fp ∈ fps_at idx (m_name m) v) ∧ selected idx ms fp).
  { intros fp. unfold selected. split.
    - intros Hs. split; [apply Hs; left|]. intros m' Hm'. apply Hs. by right.
    - intros [H1 H2] m' [->|Hm']%elem_of_cons; [done|by apply H2]. }
  destruct (intersect r0 (toIntersect range Matches m values)) as [|x r] eqn:Er.
  - split; [constructor|]. intros fp. specialize (Hie fp). rewrite Hsc. rewrite elem_of_nil in *. tauto.
  - destruct (IH (Some (x :: r)) Hms His) as [Hs He]. split; [done|]. intros fp. rewrite He, Hie, Hsc. tauto.
Qed.
End Lookup.

(** [indexShard.lookup] returns, strictly sorted, exactly the fingerprints
    that every matcher selects (equality, set pattern or general matcher),
    whatever order the maps are visited in. *)
Theorem lookup_correct (range : ∀ A : Type, gmap string A → list (string * A)) (Matches : Matcher → string → bool)
    (sh : indexShard) (ms : list Matcher) :
  (∀ (A : Type) (m : gmap string A), range A m ≡ₚ map_to_list m) →
  wf_idx (is_idx sh) → consistent (is_idx sh) → Forall good_matcher ms → ms ≠ [] →
  StronglySorted N.lt (lookup_fps range Matches sh ms) ∧
  ∀ fp, fp ∈ lookup_fps range Matches sh ms ↔ selected Matches (is_idx sh) ms fp.
Proof.
  intros Hr Hwf Hc Hg Hne. destruct (lookup_loop_spec range Hr Matches (is_idx sh) ms None Hwf Hc Hg Hne) as [Hs He].
  split; [done|]. intros fp. unfold lookup_fps. rewrite He. tauto.
Qed.

Lemma lookup_correct_witness :
  (7%N ∈ lookup_fps (λ A m, map_to_list m) (λ _ _, false) (add (mkIndexShard 0 ∅) [mkLabel "app" "a"] 7).1 [mkMatcher MatchEqual "app" "a"]) ↔
    selected (λ _ _, false) (is_idx (add (mkIndexShard 0 ∅) [mkLabel "app" "a"] 7).1) [mkMatcher MatchEqual "app" "a"] 7.
Proof.
  pose (sh := (add (mkIndexShard 0 ∅) [mkLabel "app" "a"] 7).1). pose (ms := [mkMatcher MatchEqual "app" "a"]).
  assert (Hwf : wf_idx (is_idx sh)).
  { apply add_wf; [apply map_Forall_empty|]. repeat constructor. apply not_elem_of_nil. }
  assert (Hat : ∀ n v, fps_at (is_idx sh) n v = if decide (n = "app" ∧ v = "a") then [7%N] else []).
  { intros n v. unfold sh, fps_at. simpl. unfold add_pair. simpl. destruct (decide (n = "app")) as [->|Hn].
    - rewrite lookup_insert_eq. unfold fps_of. simpl. destruct (decide (v = "a")) as [->|Hv]; [by rewrite lookup_insert_eq|].
      rewrite lookup_insert_ne, lookup_empty by done. by rewrite decide_False by tauto.
    - rewrite lookup_insert_ne, lookup_empty by done. by rewrite decide_False by tauto. }
  refine (proj2 (lookup_correct (λ A m, map_to_list m) (λ _ _, false) sh ms _ Hwf _ _ _) 7%N).
  - done.
  - split.
    + intros n v. rewrite Hat. case_decide; repeat constructor. apply not_elem_of_nil.
    + intros n v v' fp. rewrite !Hat. repeat case_decide; try (intros []%elem_of_nil); try (intros _ []%elem_of_nil). naive_solver.
  - repeat constructor.
  - discriminate.
Defined.

(** * The bit-prefix index *)

(** A power of two of shards; each holds well-formed entries of the fingerprints
    with its prefix. *)
Definition bp_wf (ii : BitPrefixInvertedIndex) (k : N) : Prop :=
  (k < 32)%N ∧ N.of_nat (length (bp_shards ii)) = (2 ^ k)%N ∧
  ∀ i sh, bp_shards ii !! i = Some sh → wf_idx (is_idx sh) ∧
    ∀ n v fp, fp ∈ fps_at (is_idx sh) n v → (fp < 2 ^ 64 ∧ fp / 2 ^ (64 - k) = N.of_nat i)%N.

Lemma bp_bits ii k : bp_wf ii k → local_bits ii = k.
Proof.
  intros (Hk & Hl & _). unfold local_bits, RequiredBits. cbn [NewShard sh_of]. rewrite Hl, (u32_fits k) by lia. apply N.log2_pow2. lia.
Qed.

Lemma bp_shard_for ii k fp : bp_wf ii k → shardForFP ii fp = (fp / 2 ^ (64 - k))%N.
Proof. intros Hwf. unfold shardForFP. rewrite (bp_bits ii k Hwf). apply N.shiftr_div_pow2. Qed.

Lemma bp_shard_lt ii k fp : bp_wf ii k → (fp < 2 ^ 64)%N → (fp / 2 ^ (64 - k) < 2 ^ k)%N.
Proof. intros (Hk & _) Hfp. apply N.Div0.div_lt_upper_bound. rewrite N.mul_comm, pow_split by lia. done. Qed.

(** The prefix interval of a requested shard, with its true upper end. *)
Definition upper_end (i j : N) : N := ((i + 1) * 2 ^ (64 - j))%N.

(** Rounding up to a multiple of [2^m]. *)
Definition ceil_div (x m : N) : N := (if x / 2 ^ m * 2 ^ m =? x then x / 2 ^ m else x / 2 ^ m + 1)%N.

Lemma ceil_div_gt x m y : (y < x)%N → (y / 2 ^ m < ceil_div x m)%N.
Proof.
  intros Hlt. unfold ceil_div. pose proof (proj1 (div_interval x m _) eq_refl) as [Hx1 Hx2].
  pose proof (proj1 (div_interval y m _) eq_refl) as [Hy1 Hy2].
  remember (x / 2 ^ m)%N as qx. remember (y / 2 ^ m)%N as qy. remember (2 ^ m)%N as b. clear Heqqx Heqqy Heqb.
  assert (Hmono : ∀ u v, (u ≤ v)%N → (u * b ≤ v * b)%N) by (intros; by apply N.mul_le_mono_r).
  destruct (N.eqb_spec (qx * b) x) as [He|He]; (apply N.nle_gt; intros Hle; apply Hmono in Hle; lia).
Qed.

Lemma ceil_div_mult q m : ceil_div (q * 2 ^ m) m = q.
Proof. unfold ceil_div. rewrite N.div_mul by (apply N.pow_nonzero; lia). by rewrite N.eqb_refl. Qed.

Lemma ceil_div_le x m q : (x < q * 2 ^ m)%N → (ceil_div x m ≤ q)%N.
Proof.
  intros Hx. assert (x / 2 ^ m < q)%N by (apply N.Div0.div_lt_upper_bound; lia).
  unfold ceil_div. destruct (_ =? _)%N; lia.
Qed.

Lemma bp_range ii k a i j :
  bp_wf ii k → (j < 32)%N → (i < 2 ^ j)%N → a = mkAnnotation (Z.of_N i) (Z.of_N (2 ^ j)) →
  ∃ lo hi, (lo ≤ hi ≤ 2 ^ k)%N ∧
    getShards ii (Some a) = Ret (take (N.to_nat (hi - lo)) (drop (N.to_nat lo) (bp_shards ii)), (2 ^ k <? 2 ^ j)%N) ∧
    TSDB a = NewShard i (2 ^ j) ∧
    (∀ fp, (i * 2 ^ (64 - j) ≤ fp < upper_end i j)%N → (lo ≤ fp / 2 ^ (64 - k) < hi)%N) ∧
    ((j ≤ k)%N → ∀ fp, (lo ≤ fp / 2 ^ (64 - k) < hi)%N → (i * 2 ^ (64 - j) ≤ fp < upper_end i j)%N).
Proof.
  intros Hwf Hj Hi ->. pose proof Hwf as (Hk & Hlen & _).
  assert (Hb : (2 ^ j < 2 ^ 32)%N) by (apply N.pow_lt_mono_r; lia).
  assert (HT : TSDB (mkAnnotation (Z.of_N i) (Z.of_N (2 ^ j))) = NewShard i (2 ^ j)).
  { unfold TSDB. cbn [an_shard an_of].
    assert (Hz : ∀ x, (x < 2 ^ 32)%N → u32 (Z.to_N (Z.of_N x `mod` 2 ^ 64)) = x).
    { intros x Hx. rewrite Z.mod_small by lia. rewrite N2Z.id. by apply u32_small. }
    rewrite !Hz by lia. done. }
  unfold getShards. rewrite HT, Bounds_pow by lia. rewrite (bp_bits ii k Hwf). cbn [an_of].
  set (m := (64 - k)%N). rewrite !N.shiftr_div_pow2, N.shiftl_mul_pow2.
  set (maxFp := if (i + 1 =? 2 ^ j)%N then max_uint64 else ((i + 1) * 2 ^ (64 - j))%N).
  assert (Hmax : (maxFp < 2 ^ 64)%N).
  { unfold maxFp. destruct (N.eqb_spec (i + 1) (2 ^ j)); [unfold max_uint64; lia|].
    rewrite <-(pow_split j) by lia. apply N.mul_lt_mono_pos_r; [apply pow_pos|lia]. }
  rewrite (u64_small (maxFp / 2 ^ m * 2 ^ m)) by (eapply N.le_lt_trans; [|exact Hmax]; apply (div_interval maxFp m); done).
  change (if (maxFp / 2 ^ m * 2 ^ m =? maxFp)%N then maxFp / 2 ^ m else (maxFp / 2 ^ m + 1)%N)%N with (ceil_div maxFp m).
  assert (Hm1 : (2 ^ 1 ≤ 2 ^ m)%N) by (apply N.pow_le_mono_r; unfold m; lia).
  assert (Hkm : (2 ^ k * 2 ^ m = 2 ^ 64)%N) by (apply pow_split; lia).
  assert (Hlast : (ceil_div maxFp m ≤ 2 ^ k)%N) by (apply ceil_div_le; by rewrite Hkm).
  assert (Htop : (i + 1 = 2 ^ j)%N → ceil_div maxFp m = (2 ^ k)%N ∧ upper_end i j = (2 ^ k * 2 ^ m)%N).
  { intros He. unfold maxFp, upper_end. rewrite (proj2 (N.eqb_eq _ _) He). rewrite He, Hkm, pow_split by lia. split; [|done].
    apply (anti_symm N.le); [apply ceil_div_le; by rewrite Hkm|].
    assert (2 ^ k - 1 ≤ (max_uint64 - 1) / 2 ^ m)%N.
    { apply N.div_le_lower_bound; [lia|]. rewrite N.mul_sub_distr_l, N.mul_1_r, N.mul_comm, Hkm. unfold max_uint64. lia. }
    pose proof (ceil_div_gt max_uint64 m (max_uint64 - 1) ltac:(unfold max_uint64; lia)). lia. }
  assert (Hend : ∀ y, (y < upper_end i j)%N → (y / 2 ^ m < ceil_div maxFp m)%N).
  { intros y Hy. destruct (decide (i + 1 = 2 ^ j)%N) as [He|He].
    - destruct (Htop He) as [-> Hu]. rewrite Hu in Hy. apply N.Div0.div_lt_upper_bound. lia.
    - apply ceil_div_gt. unfold maxFp. by rewrite (proj2 (N.eqb_neq _ _) He). }
  assert (Hend2 : (j ≤ k)%N → ∀ y, (y / 2 ^ m < ceil_div maxFp m)%N → (y < upper_end i j)%N).
  { intros Hjk y Hy. assert (upper_end i j = ceil_div maxFp m * 2 ^ m)%N as ->.
    - destruct (decide (i + 1 = 2 ^ j)%N) as [He|He]; [by destruct (Htop He) as [-> ->]|].
      unfold maxFp, upper_end. rewrite (proj2 (N.eqb_neq _ _) He).
      assert (2 ^ (64 - j) = 2 ^ (k - j) * 2 ^ m)%N as -> by (unfold m; rewrite <-N.pow_add_r; f_equal; lia).
      by rewrite N.mul_assoc, ceil_div_mult.
    - pose proof (proj1 (div_interval y m _) eq_refl) as [_ Hy2]. eapply N.lt_le_trans; [exact Hy2|]. apply N.mul_le_mono_r. lia. }
  assert (Hlo : (i * 2 ^ (64 - j) / 2 ^ m < ceil_div maxFp m)%N).
  { apply Hend. unfold upper_end. apply N.mul_lt_mono_pos_r; [apply pow_pos|lia]. }
  exists (i * 2 ^ (64 - j) / 2 ^ m)%N, (ceil_div maxFp m). split_and!; [lia|lia| |done| |].
  - unfold go_slice. rewrite (proj2 (N.leb_le _ _)) by lia. rewrite (proj2 (N.leb_le _ (N.of_nat _))) by lia. cbn [andb obind].
    do 3 f_equal. rewrite <-nat_N_Z, Hlen. destruct (N.ltb_spec (2 ^ k) (2 ^ j)), (Z.ltb_spec (Z.of_N (2 ^ k)) (Z.of_N (2 ^ j))); lia || done.
  - intros fp [Hf1 Hf2]. split; [by apply N.Div0.div_le_mono|by apply Hend].
  - intros Hjk fp [Hf1 Hf2]. split; [|by apply Hend2].
    assert (2 ^ (64 - j) = 2 ^ (k - j) * 2 ^ m)%N as Hsplit by (unfold m; rewrite <-N.pow_add_r; f_equal; lia).
    rewrite Hsplit, N.mul_assoc, N.div_mul in Hf1 by (apply N.pow_nonzero; lia).
    pose proof (proj1 (div_interval fp m _) eq_refl) as [Hfm _]. rewrite Hsplit, N.mul_assoc.
    etransitivity; [|exact Hfm]. by apply N.mul_le_mono_r.
Qed.

Lemma sorted_concat_by (f : N → N) (lo : N) (ls : list (list N)) :
  (∀ x y, (f x < f y)%N → (x < y)%N) → Forall (StronglySorted N.lt) ls →
  (∀ t l x, ls !! t = Some l → x ∈ l → f x = (lo + N.of_nat t)%N) → StronglySorted N.lt (concat ls).
Proof.
  intros Hf Hs. revert lo. induction Hs as [|l ls Hl Hs IH]; intros lo Ht; csimpl; [constructor|].
  apply StronglySorted_app. split_and!; [|done|].
  - intros x y Hx (l' & (t & Ht')%list_elem_of_lookup & Hy)%elem_of_concat. apply Hf.
    rewrite (Ht 0%nat l x eq_refl Hx), (Ht (S t) l' y Ht' Hy). lia.
  - apply (IH (lo + 1)%N). intros t l' x Ht' Hx. rewrite (Ht (S t) l' x Ht' Hx). lia.
Qed.

(** A requested shard [i] of [2^j]. *)
Definition request (i j : N) : Annotation := mkAnnotation (Z.of_N i) (Z.of_N (2 ^ j)).

Section BpLookup.
Context (range : ∀ A : Type, gmap string A → list (string * A)).
Context (range_perm : ∀ (A : Type) (m : gmap string A), range A m ≡ₚ map_to_list m).
Context (Matches : Matcher → string → bool).
Context (ii : BitPrefixInvertedIndex) (k : N) (ms : list Matcher).
Context (Hwf : bp_wf ii k) (Hcons : ∀ s sh, bp_shards ii !! s = Some sh → consistent (is_idx sh)).
Context (Hgood : Forall good_matcher ms) (Hms : ms ≠ []).

(** A series of the index that every matcher selects. *)
Definition bp_selected (fp : N) : Prop := ∃ s sh, bp_shards ii !! s = Some sh ∧ selected Matches (is_idx sh) ms fp.

Lemma selected_prefix s sh fp :
  bp_shards ii !! s = Some sh → selected Matches (is_idx sh) ms fp → (fp < 2 ^ 64 ∧ fp / 2 ^ (64 - k) = N.of_nat s)%N.
Proof.
  intros Hsh Hsel. destruct ms as [|m ms']; [done|]. destruct (Hsel m ltac:(left)) as (v & _ & Hfp).
  destruct Hwf as (_ & _ & Hp). destruct (Hp s sh Hsh) as [_ Hpre]. by eapply Hpre.
Qed.

(** The concatenated results of consecutive shards. *)
Lemma bp_concat lo hi :
  (lo ≤ hi ≤ 2 ^ k)%N →
  let l := concat ((λ sh, lookup_fps range Matches sh ms) <$> take (N.to_nat (hi - lo)) (drop (N.to_nat lo) (bp_shards ii))) in
  StronglySorted N.lt l ∧ ∀ fp, fp ∈ l ↔ bp_selected fp ∧ (lo ≤ fp / 2 ^ (64 - k) < hi)%N.
Proof.
  intros Hlo l. pose proof Hwf as (_ & Hlen & Hp).
  set (shs := take (N.to_nat (hi - lo)) (drop (N.to_nat lo) (bp_shards ii))) in *.
  assert (Hget : ∀ t sh, shs !! t = Some sh ↔ (t < N.to_nat (hi - lo))%nat ∧ bp_shards ii !! (N.to_nat lo + t)%nat = Some sh).
  { intros t sh. unfold shs. rewrite lookup_take_Some, lookup_drop. tauto. }
  assert (Hlk : ∀ t sh, shs !! t = Some sh → StronglySorted N.lt (lookup_fps range Matches sh ms) ∧
    ∀ fp, fp ∈ lookup_fps range Matches sh ms ↔ selected Matches (is_idx sh) ms fp).
  { intros t sh [_ Hsh]%Hget. destruct (Hp _ _ Hsh) as [Hw _]. unfold lookup_fps.
    destruct (lookup_loop_spec range range_perm Matches (is_idx sh) ms None Hw (Hcons _ _ Hsh) Hgood Hms) as [Hs He].
    split; [done|]. intros fp. rewrite He. tauto. }
  split.
  - apply (sorted_concat_by (λ x, x / 2 ^ (64 - k))%N lo).
    + intros x y Hxy. apply N.nle_gt. intros Hle. apply (N.Div0.div_le_mono y x (2 ^ (64 - k))) in Hle. lia.
    + apply Forall_fmap, Forall_lookup. intros t sh Ht. by destruct (Hlk t sh Ht).
    + intros t l' x Ht Hx. apply list_lookup_fmap_Some in Ht as (sh & -> & Ht). destruct (Hlk t sh Ht) as [_ He].
      apply He in Hx. apply Hget in Ht as [_ Ht]. destruct (selected_prefix _ _ _ Ht Hx) as [_ ->]. lia.
  - intros fp. unfold l. rewrite elem_of_concat. split.
    + intros (l' & (sh & -> & (t & Ht)%list_elem_of_lookup)%list_elem_of_fmap & Hfp).
      destruct (Hlk t sh Ht) as [_ He]. apply He in Hfp. apply Hget in Ht as [Hlt Ht].
      destruct (selected_prefix _ _ _ Ht Hfp) as [_ ->]. split; [by exists (N.to_nat lo + t)%nat, sh|lia].
    + intros [(s & sh & Hsh & Hsel) Hr]. destruct (selected_prefix _ _ _ Hsh Hsel) as [_ Hpre]. rewrite Hpre in Hr.
      assert (Ht : shs !! (s - N.to_nat lo)%nat = Some sh).
      { apply Hget. replace (N.to_nat lo + (s - N.to_nat lo))%nat with s by lia. split; [lia|done]. }
      exists (lookup_fps range Matches sh ms). split; [|by apply (Hlk _ _ Ht)].
      apply list_elem_of_fmap. exists sh. split; [done|]. by eapply list_elem_of_lookup_2.
Qed.
End BpLookup.

(** A sharded lookup in the bit-prefix index never panics on a valid request
    and returns, in increasing order, exactly the series (below the maximal
    fingerprint) that all matchers select and that lie in the requested shard,
    whether the request is coarser or finer than the shards of the index. *)
Theorem bp_Lookup_correct (range : ∀ A : Type, gmap string A → list (string * A)) (Matches : Matcher → string → bool)
    (ii : BitPrefixInvertedIndex) (k : N) (ms : list Matcher) (i j : N) :
  (∀ (A : Type) (m : gmap string A), range A m ≡ₚ map_to_list m) →
  bp_wf ii k → (∀ s sh, bp_shards ii !! s = Some sh → consistent (is_idx sh)) →
  Forall good_matcher ms → ms ≠ [] → (j < 32)%N → (i < 2 ^ j)%N →
  let '(from, through) := Bounds (NewShard i (2 ^ j)) in
  ∃ l, bp_Lookup range Matches ii ms (Some (request i j)) = Ret l ∧ StronglySorted N.lt l ∧
    ∀ fp, (fp < max_uint64)%N → fp ∈ l ↔ bp_selected Matches ii ms fp ∧ (from ≤ fp < through)%N.
Proof.
  intros Hr Hwf Hcons Hgood Hms Hj Hi. rewrite Bounds_pow by done.
  destruct (bp_range ii k (request i j) i j Hwf Hj Hi eq_refl) as (lo & hi & Hlh & Hget & HT & Hin & Hback).
  destruct (bp_concat range Hr Matches ii k ms Hwf Hcons Hgood Hms lo hi Hlh) as [Hs He].
  set (l := concat _) in Hs, He. set (through := if (i + 1 =? 2 ^ j)%N then max_uint64 else ((i + 1) * 2 ^ (64 - j))%N).
  assert (Hbnd : ∀ fp, (fp < max_uint64)%N → (i * 2 ^ (64 - j) ≤ fp < upper_end i j ↔ i * 2 ^ (64 - j) ≤ fp < through)%N).
  { intros fp Hfp. unfold upper_end, through. destruct (N.eqb_spec (i + 1) (2 ^ j)) as [Hl|Hl]; [|done].
    rewrite Hl, pow_split by lia. unfold max_uint64 in *. lia. }
  assert (Hv : validateShard (Some (request i j)) = None).
  { unfold validateShard. rewrite HT. unfold RequiredBits. cbn [NewShard sh_of request an_of].
    rewrite N.log2_pow2, N.shiftl_mul_pow2, N.mul_1_l by lia. by rewrite Z.eqb_refl. }
  assert (Hres : bp_Lookup range Matches ii ms (Some (request i j)) =
     if (2 ^ k <? 2 ^ j)%N then
       go_slice l (N.of_nat (search (length l) (ge_test (i * 2 ^ (64 - j))%N l))) (N.of_nat (search (length l) (ge_test through l)))
     else Ret l).
  { unfold bp_Lookup. rewrite Hv, Hget. cbn [obind]. destruct ms as [|m ms']; [done|]. fold l.
    destruct (2 ^ k <? 2 ^ j)%N; [|done]. rewrite HT, Bounds_pow by done. fold through. done. }
  rewrite Hres. destruct (N.ltb_spec (2 ^ k) (2 ^ j)) as [Hkj|Hkj].
  - assert (Hle : (i * 2 ^ (64 - j) ≤ through)%N).
    { unfold through. destruct (N.eqb_spec (i + 1) (2 ^ j)); [|apply N.mul_le_mono_r; lia].
      assert (i * 2 ^ (64 - j) < 2 ^ j * 2 ^ (64 - j))%N by (apply N.mul_lt_mono_pos_r; [apply pow_pos|lia]).
      rewrite pow_split in * by lia. unfold max_uint64. lia. }
    pose proof (StronglySorted_lt_le _ Hs) as Hsl.
    destruct (slice_between _ through l Hsl Hle) as [[Hp1 Hp2] Hsl2].
    exists (take_lt through (drop_lt (i * 2 ^ (64 - j)) l)). split_and!.
    + rewrite !search_take_lt by done. unfold go_slice.
      rewrite !(proj2 (N.leb_le _ _)) by lia. cbn [andb]. rewrite <-Hsl2. do 2 f_equal; [lia|]. by rewrite Nat2N.id.
    + pose proof (drop_lt_sorted N.lt (i * 2 ^ (64 - j))%N l Hs) as Hd.
      rewrite <-(take_drop_lt through (drop_lt _ l)) in Hd. by apply StronglySorted_app_1_l in Hd.
    + intros fp Hfp. rewrite take_lt_elem by (by apply drop_lt_sorted). rewrite drop_lt_elem, He by done.
      split; [tauto|]. intros [Hsel Hb]. pose proof (Hin fp (proj2 (Hbnd fp Hfp) Hb)). tauto.
  - exists l. split_and!; [done|done|]. intros fp Hfp. rewrite He, <-(Hbnd fp Hfp). split; intros [Hsel Hb]; (split; [done|]).
    + apply Hback; [|done]. destruct (N.le_gt_cases j k) as [?|Hgt]; [done|].
      assert (2 ^ k < 2 ^ j)%N by (apply N.pow_lt_mono_r; lia). lia.
    + by apply Hin.
Qed.

(** One series in an index of two shards. *)
Definition sample_shard : indexShard := (add (mkIndexShard 1 ∅) [mkLabel "app" "a"] (2 ^ 63 + 5)).1.
Definition bp_sample : BitPrefixInvertedIndex := mkBitPrefix 2 [mkIndexShard 0 ∅; sample_shard].

Lemma sample_lookup s sh :
  bp_shards bp_sample !! s = Some sh → (s = 0 ∧ sh = mkIndexShard 0 ∅) ∨ (s = 1 ∧ sh = sample_shard).
Proof.
  intros Hs. destruct s as [|[|s]]; [left|right|by destruct s].
  - change (Some (mkIndexShard 0 ∅) = Some sh) in Hs. by apply (inj Some) in Hs.
  - change (Some sample_shard = Some sh) in Hs. by apply (inj Some) in Hs.
Qed.

Lemma sample_fps n v :
  fps_at (is_idx sample_shard) n v =
    if decide (n = "app" ∧ v = "a") then [(2 ^ 63 + 5)%N] else [].
Proof.
  unfold fps_at, sample_shard. simpl. unfold add_pair. simpl. destruct (decide (n = "app")) as [->|Hn].
  - rewrite lookup_insert_eq. unfold fps_of. simpl. destruct (decide (v = "a")) as [->|Hv]; [by rewrite lookup_insert_eq|].
    rewrite lookup_insert_ne, lookup_empty by done. by rewrite decide_False by tauto.
  - rewrite lookup_insert_ne, lookup_empty by done. by rewrite decide_False by tauto.
Qed.

Lemma sample_wf : bp_wf bp_sample 1.
Proof.
  split_and!; [done|done|]. intros s sh [[-> ->]|[-> ->]]%sample_lookup.
  - split; [apply map_Forall_empty|]. intros n v fp Hfp. unfold fps_at in Hfp. simpl in Hfp. rewrite lookup_empty in Hfp. by apply elem_of_nil in Hfp.
  - split.
    + apply add_wf; [apply map_Forall_empty|]. repeat constructor. apply not_elem_of_nil.
    + intros n v fp Hfp. rewrite sample_fps in Hfp. case_decide; [|by apply elem_of_nil in Hfp].
      apply list_elem_of_singleton in Hfp as ->. by vm_compute.
Qed.

Lemma bp_Lookup_correct_witness :
  ∃ l, bp_Lookup (λ A m, map_to_list m) (λ _ _, false) bp_sample [mkMatcher MatchEqual "app" "a"] (Some (request 2 2)) = Ret l ∧
    StronglySorted N.lt l ∧
    ∀ fp, (fp < max_uint64)%N → fp ∈ l ↔
      bp_selected (λ _ _, false) bp_sample [mkMatcher MatchEqual "app" "a"] fp ∧ (2 ^ 63 ≤ fp < 2 ^ 63 + 2 ^ 62)%N.
Proof.
  refine (bp_Lookup_correct (λ A m, map_to_list m) (λ _ _, false) bp_sample 1 [mkMatcher MatchEqual "app" "a"] 2 2 _ _ _ _ _ _ _).
  - done.
  - apply sample_wf.
  - intros s sh [[-> ->]|[-> ->]]%sample_lookup; split.
    + intros n v. unfold fps_at. simpl. rewrite lookup_empty. constructor.
    + intros n v v' fp Hfp. unfold fps_at in Hfp. simpl in Hfp. rewrite lookup_empty in Hfp. by apply elem_of_nil in Hfp.
    + intros n v. rewrite sample_fps. case_decide; repeat constructor. apply not_elem_of_nil.
    + intros n v v' fp. rewrite !sample_fps. repeat case_decide; try (intros []%elem_of_nil); try (intros _ []%elem_of_nil). naive_solver.
  - repeat constructor.
  - discriminate.
  - reflexivity.
  - reflexivity.
Defined.
