(* ===== verification/Dedup.v ===== *)
(** * The deduplicating tables of the head

    [pkg/phlaredb/deduplicating_slice.go]: the generic slice with a lookup map
    from keys to slots, parameterised by a [Helper] that knows how an element is
    rewritten, keyed, identified, cloned and measured.  [ingest] is modelled with
    the point between its read-locked and its write-locked pass explicit, so that
    the theorems also cover concurrent callers; [Flush] writes the rows that are
    not on disk yet in row groups. *)

From S2P Require Import Prelude.

(** ** Conversion between [int64] and [uint64] *)

Definition to_i64 (n : N) : Z := i64 (Z.of_N n).
Definition to_u64 (z : Z) : N := Z.to_N (z `mod` 2 ^ 64).

Lemma to_u64_small z : (0 ≤ z < 2 ^ 64)%Z → to_u64 z = Z.to_N z.
Proof. intros ?. unfold to_u64. by rewrite Z.mod_small. Qed.

Lemma to_i64_inj a b : (a < 2 ^ 64)%N → (b < 2 ^ 64)%N → to_i64 a = to_i64 b → a = b.
Proof.
  unfold to_i64, i64. intros Ha Hb Hab.
  assert (Hm : (((Z.of_N a + 2 ^ 63) `mod` 2 ^ 64 = (Z.of_N b + 2 ^ 63) `mod` 2 ^ 64))%Z) by lia.
  apply (f_equal (λ z, ((z - 2 ^ 63) `mod` 2 ^ 64)%Z)) in Hm.
  rewrite !Zminus_mod_idemp_l in Hm.
  replace (Z.of_N a + 2 ^ 63 - 2 ^ 63)%Z with (Z.of_N a) in Hm by lia.
  replace (Z.of_N b + 2 ^ 63 - 2 ^ 63)%Z with (Z.of_N b) in Hm by lia.
  rewrite !Z.mod_small in Hm by lia. lia.
Qed.

Lemma to_i64_small n : (n < 2 ^ 63)%N → to_i64 n = Z.of_N n.
Proof. intros ?. unfold to_i64. apply i64_small. unfold int64_range, min_int64, max_int64. lia. Qed.

(** ** The rewriter: from the references of one profile to those of the head *)

Abbreviation stringConversionTable := (list Z) (only parsing).
Abbreviation idConversionTable := (gmap Z Z) (only parsing).

Record rewriter := mkRewriter {
  r_strings : stringConversionTable;
  r_functions : idConversionTable;
  r_mappings : idConversionTable;
  r_locations : idConversionTable;
  r_stacktraces : idConversionTable }.

Definition new_rewriter : rewriter := mkRewriter [] ∅ ∅ ∅ ∅.

(** An index outside the table panics. *)
Definition string_rewrite (t : stringConversionTable) (idx : Z) : outcome Z :=
  if (idx <? 0)%Z then Panic else of_option (t !! Z.to_nat idx).

Definition id_rewrite (t : idConversionTable) (idx : Z) : outcome Z := of_option (t !! idx).

Definition rewriteUint64 (t : idConversionTable) (idx : N) : outcome N :=
  obind (of_option (t !! to_i64 idx)) (λ v, Ret (to_u64 v)).

(** ** Helpers *)

(** [setID pos new e] is the identifier the element had ([pos] when it has none of
    its own) and the element with its new one; [h_noKey] holds of the helper
    whose key type is [noKey]. *)
Class Helper (M K : Type) := {
  h_key : M → K;
  h_addToRewriter : rewriter → idConversionTable → outcome rewriter;
  h_rewrite : rewriter → M → outcome M;
  h_setID : N → N → M → N * M;
  h_size : M → N;
  h_clone : M → M;
  h_noKey : bool }.

(** What the tables rely on: the key is untouched by [setID] and [clone], and the
    old identifier does not depend on the new one. *)
Class HelperOk (M K : Type) `{Helper M K} : Prop := {
  key_setID : ∀ pos new e, h_key (h_setID pos new e).2 = h_key e;
  key_clone : ∀ e, h_key (h_clone e) = h_key e;
  setID_clone : ∀ pos new e, (h_setID pos new (h_clone e)).1 = (h_setID pos new e).1;
  setID_old : ∀ pos new new' e, (h_setID pos new e).1 = (h_setID pos new' e).1 }.

Record dslice (M K : Type) `{Countable K} := mkDslice {
  d_slice : list M;
  d_size : N;
  d_lookup : gmap K Z;
  d_rowsFlushed : nat }.
Arguments mkDslice {M K _ _} _ _ _ _.
Arguments d_slice {M K _ _} _.
Arguments d_size {M K _ _} _.
Arguments d_lookup {M K _ _} _.
Arguments d_rowsFlushed {M K _ _} _.

Definition Init {M K} `{Countable K} : dslice M K := mkDslice [] 0 ∅ 0.

Section Ingest.
Context {M K : Type} `{Countable K} `{!Helper M K}.
Implicit Types (s : dslice M K) (rm : idConversionTable).

Definition isDeduplicating : bool := negb h_noKey.

Definition getIndex s (k : K) : option Z := d_lookup s !! k.

(** The identifier under which the element at [pos] is entered in the rewriting map. *)
Definition old_id (pos : nat) (e : M) : Z := to_i64 (h_setID (N.of_nat pos) 0 e).1.

Fixpoint append_all s (elems : list M) : dslice M K :=
  match elems with
  | [] => s
  | e :: elems =>
      append_all (mkDslice (d_slice s ++ [h_clone e]) (u64 (d_size s + h_size e)) (d_lookup s) (d_rowsFlushed s)) elems
  end.

(** The pass under the read lock: the elements whose key has a slot get its
    number, the positions of the others are collected. *)
Fixpoint find_existing (lookup : gmap K Z) (pos : nat) (elems : list M) rm (missing : list nat)
    : list M * idConversionTable * list nat :=
  match elems with
  | [] => ([], rm, missing)
  | e :: elems =>
      match lookup !! h_key e with
      | Some posSlice =>
          let '(old, e') := h_setID (N.of_nat pos) (to_u64 posSlice) e in
          let '(es, rm', ms) := find_existing lookup (S pos) elems (<[to_i64 old := posSlice]> rm) missing in
          (e' :: es, rm', ms)
      | None =>
          let '(es, rm', ms) := find_existing lookup (S pos) elems rm (missing ++ [pos]) in
          (e :: es, rm', ms)
      end
  end.

(** The pass under the write lock.  [clone] returns the element it is given
    (pointer types) or a value [setID] does not change (strings), so the slot holds
    what [setID] leaves. *)
Fixpoint append_missing (missing : list nat) s (posSlice : Z) (elems : list M) rm
    : outcome (dslice M K * list M * idConversionTable) :=
  match missing with
  | [] => Ret (s, elems, rm)
  | pos :: missing =>
      obind (of_option (elems !! pos)) (λ e,
        match d_lookup s !! h_key e with
        | Some p =>
            let '(old, e') := h_setID (N.of_nat pos) (to_u64 p) e in
            append_missing missing s posSlice (<[pos := e']> elems) (<[to_i64 old := p]> rm)
        | None =>
            let '(old, e') := h_setID (N.of_nat pos) (to_u64 posSlice) (h_clone e) in
            append_missing missing
              (mkDslice (d_slice s ++ [e']) (u64 (d_size s + h_size e'))
                 (<[h_key e := posSlice]> (d_lookup s)) (d_rowsFlushed s))
              (posSlice + 1)%Z (<[pos := e']> elems) (<[to_i64 old := posSlice]> rm)
        end)
  end.

(** [ingest_locked s1 s2]: the table is [s1] when the read lock is held and [s2]
    when the write lock is held; the result carries the elements as the caller
    sees them afterwards. *)
Definition ingest_locked s1 s2 (elems : list M) (r : rewriter) : outcome (dslice M K * list M * rewriter) :=
  obind (omapM (h_rewrite r) elems) (λ elems,
    if isDeduplicating then
      let '(elems, rm, missing) := find_existing (d_lookup s1) 0 elems ∅ [] in
      obind (match missing with
             | [] => Ret (s2, elems, rm)
             | _ => append_missing missing s2 (Z.of_nat (length (d_slice s2))) elems rm
             end) (λ '(s, elems, rm),
        obind (h_addToRewriter r rm) (λ r', Ret (s, elems, r')))
    else Ret (append_all s2 elems, elems, r)).

Definition ingest s (elems : list M) (r : rewriter) : outcome (dslice M K * list M * rewriter) :=
  ingest_locked s s elems r.
End Ingest.

(** ** Invariant and specification of [ingest] *)

Section IngestSpec.
Context {M K : Type} `{Countable K} `{!Helper M K}.
Implicit Types (s : dslice M K) (rm : idConversionTable).

(** The lookup map and the slice describe the same finite bijection between keys
    and slots. *)
Definition table_ok s : Prop :=
  ∀ k p, d_lookup s !! k = Some p ↔ ∃ e, (0 ≤ p)%Z ∧ d_slice s !! Z.to_nat p = Some e ∧ h_key e = k.

Definition total_size (l : list M) : N := foldr (λ e n, h_size e + n)%N 0%N l.

(** The accounted size is the sum of the sizes of the slots. *)
Definition size_ok s : Prop := d_size s = u64 (total_size (d_slice s)).

(** Slots are only ever appended. *)
Definition extends s s' : Prop :=
  d_slice s `prefix_of` d_slice s' ∧ d_rowsFlushed s' = d_rowsFlushed s.

Global Instance extends_preorder : PreOrder extends.
Proof.
  split; [split; done|]. intros s1 s2 s3 [??] [??]. split; [by etrans|congruence].
Qed.

(** The slot the rewriting map gives for the element at [pos] holds an element
    with the same key. *)
Definition resolved s rm (pos : nat) (e : M) : Prop :=
  ∃ p e', rm !! old_id pos e = Some p ∧ (0 ≤ p)%Z ∧ d_slice s !! Z.to_nat p = Some e' ∧ h_key e' = h_key e.

(** The identifiers of the elements at the positions that satisfy [P] differ. *)
Definition ids_distinct (P : nat → Prop) (elems : list M) : Prop :=
  ∀ i j ei ej, P i → P j → elems !! i = Some ei → elems !! j = Some ej → old_id i ei = old_id j ej → i = j.

(** [e'] is [e] up to what [setID] and [clone] change. *)
Definition same_elem (e e' : M) : Prop :=
  ∀ (X : Type) (F : M → X),
    (∀ pos new x, F (h_setID pos new x).2 = F x) → (∀ x, F (h_clone x) = F x) → F e' = F e.

Definition same_elems (elems es : list M) : Prop := Forall2 same_elem elems es.

Lemma same_elem_refl e : same_elem e e.
Proof. by intros X F. Qed.

Lemma same_elem_trans e1 e2 e3 : same_elem e1 e2 → same_elem e2 e3 → same_elem e1 e3.
Proof. intros H1 H2 X F Hs Hc. rewrite (H2 X F Hs Hc). by apply H1. Qed.

Lemma same_elem_setID pos new e : same_elem e (h_setID pos new e).2.
Proof. intros X F Hs Hc. apply Hs. Qed.

Lemma same_elem_clone e : same_elem e (h_clone e).
Proof. intros X F Hs Hc. apply Hc. Qed.

Lemma table_ok_Init : table_ok (Init : dslice M K).
Proof. intros k p. simpl. rewrite lookup_empty. naive_solver. Qed.

Lemma table_ok_keys s i j ei ej :
  table_ok s → d_slice s !! i = Some ei → d_slice s !! j = Some ej → h_key ei = h_key ej → i = j.
Proof.
  intros Hok Hi Hj Hk.
  assert (E1 : d_lookup s !! h_key ei = Some (Z.of_nat i)).
  { apply Hok. exists ei. rewrite Nat2Z.id. split_and!; auto; lia. }
  assert (E2 : d_lookup s !! h_key ei = Some (Z.of_nat j)).
  { apply Hok. exists ej. rewrite Nat2Z.id. split_and!; auto; lia. }
  simplify_eq. lia.
Qed.

Lemma lookup_mono s s' k p :
  table_ok s → table_ok s' → extends s s' → d_lookup s !! k = Some p → d_lookup s' !! k = Some p.
Proof.
  intros Hok Hok' [Hpre _] (e & ? & Hp & ?)%Hok. apply Hok'. exists e.
  split_and!; auto. by eapply prefix_lookup_Some.
Qed.

Lemma resolved_mono s s' rm pos e : extends s s' → resolved s rm pos e → resolved s' rm pos e.
Proof.
  intros [Hpre _] (p & e' & ? & ? & ? & ?). exists p, e'. split_and!; auto.
  by eapply prefix_lookup_Some.
Qed.

Lemma table_ok_lookup s k p :
  table_ok s → d_lookup s !! k = Some p → ∃ e, (0 ≤ p)%Z ∧ d_slice s !! Z.to_nat p = Some e ∧ h_key e = k.
Proof. intros Hok ?. by apply Hok. Qed.

(** Appending an element with a fresh key keeps the bijection. *)
Lemma table_ok_append s k e z :
  table_ok s → d_lookup s !! k = None → h_key e = k →
  table_ok (mkDslice (d_slice s ++ [e]) z (<[k := Z.of_nat (length (d_slice s))]> (d_lookup s)) (d_rowsFlushed s)).
Proof.
  intros Hok Hnone Hk k' p. simpl. destruct (decide (k' = k)) as [->|Hne].
  - rewrite lookup_insert_eq. split.
    + intros [= <-]. exists e. rewrite Nat2Z.id, lookup_app_r, Nat.sub_diag by lia. split_and!; auto; lia.
    + intros (e' & Hp & Hl & Hk'). apply lookup_app_Some in Hl as [Hl|[Hge Hl]].
      * assert (Hs : d_lookup s !! k = Some p) by (apply Hok; eauto). congruence.
      * apply list_lookup_singleton_Some in Hl as [Hl _]. f_equal. lia.
  - rewrite lookup_insert_ne by done. rewrite (Hok k' p). split.
    + intros (e' & ? & Hl & ?). exists e'. split_and!; auto. by apply lookup_app_l_Some.
    + intros (e' & Hp & Hl & Hk'). apply lookup_app_Some in Hl as [Hl|[Hge Hl]]; [eauto|].
      apply list_lookup_singleton_Some in Hl as [_ ->]. congruence.
Qed.

Lemma total_size_app l l' : total_size (l ++ l') = (total_size l + total_size l')%N.
Proof. induction l as [|e l IH]; simpl; [done|]. fold (total_size (l ++ l')). fold (total_size l). lia. Qed.

Lemma size_ok_append s e lk rf :
  size_ok s → size_ok (mkDslice (d_slice s ++ [e]) (u64 (d_size s + h_size e)) lk rf).
Proof.
  unfold size_ok. simpl. intros ->. rewrite total_size_app. unfold u64. simpl.
  rewrite N.Div0.add_mod_idemp_l. f_equal. lia.
Qed.

(** *** The read-locked pass *)

Context `{!HelperOk M K}.

Lemma old_id_setID pos new e : to_i64 (h_setID (N.of_nat pos) new e).1 = old_id pos e.
Proof. unfold old_id. by rewrite (setID_old _ new 0%N). Qed.

Record find_spec (lookup : gmap K Z) (pos : nat) (elems : list M) rm (missing : list nat)
    (out : list M * idConversionTable * list nat) : Prop := {
  find_elems : same_elems elems out.1.1;
  find_kept : ∀ i e, elems !! i = Some e → lookup !! h_key e = None → out.1.1 !! i = Some e;
  find_missing : ∀ q, q ∈ out.2 ↔ q ∈ missing ∨
    ∃ i e, q = pos + i ∧ elems !! i = Some e ∧ lookup !! h_key e = None;
  find_nodup : NoDup missing → Forall (λ q, q < pos) missing → NoDup out.2;
  find_other : ∀ id, (∀ i e, elems !! i = Some e → lookup !! h_key e ≠ None → old_id (pos + i) e ≠ id) →
    out.1.2 !! id = rm !! id;
  find_found : (∀ i j ei ej, elems !! i = Some ei → elems !! j = Some ej →
      old_id (pos + i) ei = old_id (pos + j) ej → i = j) →
    ∀ i e p, elems !! i = Some e → lookup !! h_key e = Some p → out.1.2 !! old_id (pos + i) e = Some p;
  find_dom : ∀ id p, out.1.2 !! id = Some p → rm !! id = Some p ∨
    ∃ i e, elems !! i = Some e ∧ old_id (pos + i) e = id ∧ lookup !! h_key e = Some p }.

Lemma same_elem_key e e' : same_elem e e' → h_key e' = h_key e.
Proof. intros He. apply He; [apply key_setID|apply key_clone]. Qed.

(** Distinct identifiers from [pos] on. *)
Lemma ids_tail pos e (elems : list M) :
  (∀ i j ei ej, (e :: elems) !! i = Some ei → (e :: elems) !! j = Some ej →
     old_id (pos + i) ei = old_id (pos + j) ej → i = j) →
  ∀ i j ei ej, elems !! i = Some ei → elems !! j = Some ej → old_id (S pos + i) ei = old_id (S pos + j) ej → i = j.
Proof.
  intros Hinj i j ei ej Hi Hj Hij. enough (S i = S j) by lia.
  apply (Hinj _ _ ei ej); [done..|]. by rewrite <- !plus_n_Sm.
Qed.

Lemma find_spec_hit lookup pos e e' elems rm missing p out :
  lookup !! h_key e = Some p → same_elem e e' →
  find_spec lookup (S pos) elems (<[old_id pos e := p]> rm) missing out →
  find_spec lookup pos (e :: elems) rm missing (e' :: out.1.1, out.1.2, out.2).
Proof.
  intros Ep Hkey [I1 I2 I3 I4 I5 I6 I7]. destruct out as [[es rm'] ms]. simpl in *. split; simpl.
  - by constructor.
  - intros [|i] x Hi Hn; simpl in *; [congruence|eauto].
  - intros q. rewrite I3. split; (intros [?|(i & x & -> & Hi & Hn)]; [by left|right]).
    + exists (S i), x. split_and!; auto; lia.
    + destruct i as [|i]; simpl in *; [congruence|]. exists i, x. split_and!; auto; lia.
  - intros Hnd Hlt. apply I4; [done|]. eapply Forall_impl; [done|]. simpl. lia.
  - intros id Hid. rewrite I5.
    + apply lookup_insert_ne. intros Hid'. apply (Hid 0 e); [done|congruence|by rewrite Nat.add_0_r].
    + intros i x Hi Hx. rewrite plus_n_Sm. by apply (Hid (S i)).
  - intros Hinj [|i] x q Hi Hx; simpl in *.
    + simplify_eq. rewrite Nat.add_0_r, I5; [by rewrite lookup_insert_eq; congruence|].
      intros i y Hy _ Heq. enough (0 = S i) by done.
      apply (Hinj _ _ x y); [done..|]. by rewrite Nat.add_0_r, <- plus_n_Sm.
    + rewrite <- plus_n_Sm. apply I6; [by eapply ids_tail|done..].
  - intros id q Hq. destruct (I7 id q Hq) as [Hr|(i & x & ? & ? & ?)].
    + apply lookup_insert_Some in Hr as [[<- ->]|[_ ?]]; [right; exists 0, e; rewrite Nat.add_0_r; auto|auto].
    + right. exists (S i), x. rewrite <- plus_n_Sm. auto.
Qed.

Lemma find_spec_miss lookup pos e elems rm missing out :
  lookup !! h_key e = None →
  find_spec lookup (S pos) elems rm (missing ++ [pos]) out →
  find_spec lookup pos (e :: elems) rm missing (e :: out.1.1, out.1.2, out.2).
Proof.
  intros Ep [I1 I2 I3 I4 I5 I6 I7]. destruct out as [[es rm'] ms]. simpl in *. split; simpl.
  - by constructor.
  - intros [|i] x Hi Hn; simpl in *; [congruence|eauto].
  - intros q. rewrite I3, elem_of_app, list_elem_of_singleton. split.
    + intros [[?| ->]|(i & x & -> & Hi & Hn)]; [by left|right; exists 0, e; split_and!; auto; lia|].
      right. exists (S i), x. split_and!; auto; lia.
    + intros [?|(i & x & -> & Hi & Hn)]; [by left; left|].
      destruct i as [|i]; simpl in *; [left; right; lia|]. right. exists i, x. split_and!; auto; lia.
  - intros Hnd Hlt. rewrite Forall_forall in Hlt. apply I4.
    + apply NoDup_app. split_and!; [done| |apply NoDup_singleton].
      intros q Hq ->%list_elem_of_singleton. apply Hlt in Hq. lia.
    + apply Forall_app. split; [|repeat constructor; lia].
      apply Forall_forall. intros q Hq. apply Hlt in Hq. lia.
  - intros id Hid. apply I5. intros i x Hi Hx. rewrite plus_n_Sm. by apply (Hid (S i)).
  - intros Hinj [|i] x q Hi Hx; simpl in *; [congruence|].
    rewrite <- plus_n_Sm. apply I6; [by eapply ids_tail|done..].
  - intros id q Hq. destruct (I7 id q Hq) as [Hr|(i & x & ? & ? & ?)]; [auto|].
    right. exists (S i), x. rewrite <- plus_n_Sm. auto.
Qed.

Lemma find_existing_spec lookup elems : ∀ pos rm missing,
  find_spec lookup pos elems rm missing (find_existing lookup pos elems rm missing).
Proof.
  induction elems as [|e elems IH]; intros pos rm missing; simpl.
  - split; simpl; [constructor|done| |done|done|done|auto].
    intros q. split; [auto|]. intros [?|(i & e & _ & Hi & _)]; [done|by rewrite lookup_nil in Hi].
  - destruct (lookup !! h_key e) as [p|] eqn:Ep.
    + destruct (h_setID (N.of_nat pos) (to_u64 p) e) as [old e'] eqn:Es.
      assert (Hold : to_i64 old = old_id pos e) by (rewrite <- (old_id_setID pos (to_u64 p)); by rewrite Es).
      assert (Hkey : same_elem e e') by (pose proof (same_elem_setID (N.of_nat pos) (to_u64 p) e); by rewrite Es in *).
      rewrite Hold. specialize (IH (S pos) (<[old_id pos e := p]> rm) missing).
      destruct (find_existing _ _ _ _ _) as [[es rm'] ms]. by apply (find_spec_hit _ _ _ _ _ _ _ p _ Ep Hkey) in IH.
    + specialize (IH (S pos) rm (missing ++ [pos])).
      destruct (find_existing _ _ _ _ _) as [[es rm'] ms]. by apply (find_spec_miss _ _ _ _ _ _ _ Ep) in IH.
Qed.

(** *** The write-locked pass *)

Record append_spec (missing : list nat) s (elems : list M) rm s' (es : list M) rm' : Prop := {
  app_ok : table_ok s';
  app_size : size_ok s → size_ok s';
  app_ext : extends s s';
  app_elems : same_elems elems es;
  app_kept : ∀ i, (i ∉ missing) → es !! i = elems !! i;
  app_resolved : ids_distinct (.∈ missing) elems →
    ∀ pos e, pos ∈ missing → elems !! pos = Some e → resolved s' rm' pos e;
  app_other : ∀ id, (∀ pos e, pos ∈ missing → elems !! pos = Some e → old_id pos e ≠ id) → rm' !! id = rm !! id;
  app_dom : ∀ id p, rm' !! id = Some p → rm !! id = Some p ∨
    (∃ pos e, pos ∈ missing ∧ elems !! pos = Some e ∧ old_id pos e = id) ∧ (0 ≤ p < Z.of_nat (length (d_slice s')))%Z;
  app_new : ∀ i e', length (d_slice s) ≤ i → d_slice s' !! i = Some e' →
    ∃ pos e, pos ∈ missing ∧ elems !! pos = Some e ∧
      e' = (h_setID (N.of_nat pos) (to_u64 (Z.of_nat i)) (h_clone e)).2;
  app_len : length (d_slice s') ≤ length (d_slice s) + length missing }.

Lemma ids_distinct_mono (P Q : nat → Prop) elems :
  (∀ i, P i → Q i) → ids_distinct Q elems → ids_distinct P elems.
Proof. intros HPQ Hd i j ei ej ????. apply Hd; auto. Qed.

Lemma ids_distinct_insert pos e (missing : list nat) elems :
  (pos ∉ missing) → ids_distinct (.∈ missing) elems → ids_distinct (.∈ missing) (<[pos := e]> elems).
Proof.
  intros Hpos Hd i j ei ej Hi Hj. rewrite !list_lookup_insert_ne by (by intros ->). by apply Hd.
Qed.
(** One element whose key appeared in the meantime. *)
Lemma append_spec_hit pos missing s elems rm e p e' s' es rm' :
  table_ok s → (pos ∉ missing) → elems !! pos = Some e → d_lookup s !! h_key e = Some p → same_elem e e' →
  append_spec missing s (<[pos := e']> elems) (<[old_id pos e := p]> rm) s' es rm' →
  append_spec (pos :: missing) s elems rm s' es rm'.
Proof.
  intros Hok Hpos He Hp Hkey [J1 J2 J3 J4 J5 J6 J7 J8 J9 J10].
  assert (Hne : ∀ q x, q ∈ missing → elems !! q = Some x → <[pos := e']> elems !! q = Some x).
  { intros q x Hq Hx. by rewrite list_lookup_insert_ne by (by intros ->). }
  assert (Hne' : ∀ q x, q ∈ missing → <[pos := e']> elems !! q = Some x → elems !! q = Some x).
  { intros q x Hq. by rewrite list_lookup_insert_ne by (by intros ->). }
  split; auto.
  - apply Forall2_same_length_lookup. split.
    { apply Forall2_length in J4. by rewrite length_insert in J4. }
    intros i x y Hx Hy. destruct (decide (i = pos)) as [->|Hi].
    + assert (x = e) as -> by congruence. apply (same_elem_trans _ e'); [done|].
      eapply (Forall2_lookup_lr _ _ _ _ _ _ J4); [|done]. apply list_lookup_insert_eq. by eapply lookup_lt_Some.
    + eapply (Forall2_lookup_lr _ _ _ _ _ _ J4); [|done]. by rewrite list_lookup_insert_ne by done.
  - intros i Hi. apply not_elem_of_cons in Hi as [Hi1 Hi2]. rewrite J5 by done. by rewrite list_lookup_insert_ne.
  - intros Hd q x [->|Hq]%elem_of_cons Hx.
    + assert (x = e) as -> by congruence. apply (resolved_mono s); [done|].
      destruct (table_ok_lookup _ _ _ Hok Hp) as (e0 & ? & ? & ?). exists p, e0. split_and!; auto.
      rewrite J7; [by rewrite lookup_insert_eq|]. intros q x Hq Hx' Heq. apply Hpos.
      enough (q = pos) by congruence.
      apply (Hd _ _ x e); [set_solver|set_solver|by apply Hne'|done|done].
    + apply J6; [|done|by apply Hne]. apply ids_distinct_insert; [done|].
      eapply ids_distinct_mono; [|done]. set_solver.
  - intros id Hid. rewrite J7.
    + apply lookup_insert_ne. apply Hid; [set_solver|done].
    + intros q x Hq Hx. apply Hid; [set_solver|]. by apply Hne'.
  - intros id q Hq. destruct (J8 _ _ Hq) as [Hr|[(a & x & Ha & Hx & ?) ?]].
    + apply lookup_insert_Some in Hr as [[<- <-]|[_ ?]]; [|auto]. right. split; [exists pos, e; set_solver|].
      destruct (table_ok_lookup _ _ _ Hok Hp) as (e0 & ? & Hl%lookup_lt_Some & ?).
      destruct J3 as [J3%prefix_length _]. lia.
    + right. split; [|done]. exists a, x. split_and!; [set_solver|by apply Hne'|done].
  - intros i y Hi Hy. destruct (J9 i y Hi Hy) as (q & x & Hq & Hx & ?).
    exists q, x. split_and!; [set_solver|by apply Hne'|done].
  - simpl. lia.
Qed.

(** One element that gets a new slot. *)
Lemma append_spec_grow missing s elems rm s' es rm' pos e e' :
  (length (d_slice s') ≤ length (d_slice s) + length missing) → pos ∈ missing → elems !! pos = Some e →
  e' = (h_setID (N.of_nat pos) (to_u64 (Z.of_nat (length (d_slice s)))) (h_clone e)).2 →
  append_spec missing
    (mkDslice (d_slice s ++ [e']) (u64 (d_size s + h_size e'))
       (<[h_key e := Z.of_nat (length (d_slice s))]> (d_lookup s)) (d_rowsFlushed s)) elems rm s' es rm' →
  append_spec missing s elems rm s' es rm'.
Proof.
  intros Hlen Hpos He He' [J1 J2 J3 J4 J5 J6 J7 J8 J9 J10]. split; auto.
  - intros Hs. apply J2. by apply size_ok_append.
  - etrans; [|done]. split; [by eexists|done].
  - intros i y Hi Hy. simpl in J9. rewrite length_app in J9. simpl in J9.
    destruct (decide (i = length (d_slice s))) as [->|]; [|apply J9; [lia|done]].
    exists pos, e. split_and!; auto. rewrite <- He'.
    enough (d_slice s' !! length (d_slice s) = Some e') by congruence.
    destruct J3 as [J3 _]. eapply prefix_lookup_Some; [|done]. simpl. by apply list_lookup_middle.
Qed.

Lemma append_missing_spec missing : ∀ s elems rm,
  table_ok s → NoDup missing → (∀ q, q ∈ missing → q < length elems) →
  ∃ s' es rm', append_missing missing s (Z.of_nat (length (d_slice s))) elems rm = Ret (s', es, rm') ∧
    append_spec missing s elems rm s' es rm'.
Proof.
  induction missing as [|pos missing IH]; intros s elems rm Hok Hnd Hlt; simpl.
  - exists s, elems, rm. split; [done|]. split; auto; [done| |set_solver| |];
      [apply Forall_Forall2_diag, Forall_forall; intros; apply same_elem_refl| |].
    { intros i e' Hi ?%lookup_lt_Some. lia. } simpl. lia.
  - apply NoDup_cons in Hnd as [Hpos Hnd].
    destruct (lookup_lt_is_Some_2 elems pos) as [e He]; [apply Hlt; set_solver|]. rewrite He. simpl.
    destruct (d_lookup s !! h_key e) as [p|] eqn:Ep.
    + destruct (h_setID (N.of_nat pos) (to_u64 p) e) as [old e'] eqn:Es.
      assert (Hold : to_i64 old = old_id pos e) by (rewrite <- (old_id_setID pos (to_u64 p)); by rewrite Es).
      assert (Hkey : same_elem e e') by (pose proof (same_elem_setID (N.of_nat pos) (to_u64 p) e); by rewrite Es in *).
      rewrite Hold. destruct (IH s (<[pos := e']> elems) (<[old_id pos e := p]> rm)) as (s' & es & rm' & -> & HA); [done..| |].
      { intros q Hq. rewrite length_insert. apply Hlt. set_solver. }
      do 3 eexists. split; [done|]. by eapply append_spec_hit.
    + set (ps := Z.of_nat (length (d_slice s))).
      destruct (h_setID (N.of_nat pos) (to_u64 ps) (h_clone e)) as [old e'] eqn:Es.
      assert (Hold : to_i64 old = old_id pos e).
      { rewrite <- (old_id_setID pos (to_u64 ps)), <- setID_clone. by rewrite Es. }
      assert (Hse : same_elem e e').
      { apply (same_elem_trans _ (h_clone e)); [apply same_elem_clone|].
        pose proof (same_elem_setID (N.of_nat pos) (to_u64 ps) (h_clone e)). by rewrite Es in *. }
      pose proof (same_elem_key _ _ Hse) as Hkey.
      rewrite Hold. set (s1 := mkDslice _ _ _ _).
      assert (Hok1 : table_ok s1) by (by apply table_ok_append).
      destruct (IH s1 (<[pos := e']> elems) (<[old_id pos e := ps]> rm)) as (s' & es & rm' & Heq & HA); [done..| |].
      { intros q Hq. rewrite length_insert. apply Hlt. set_solver. }
      replace (Z.of_nat (length (d_slice s1))) with (ps + 1)%Z in Heq
        by (unfold s1, ps; simpl; rewrite length_app; simpl; lia).
      rewrite Heq. do 3 eexists. split; [done|].
      apply (append_spec_grow _ _ _ _ _ _ _ pos e e'); [|set_solver|done|by unfold ps in Es; rewrite Es|].
      { pose proof (app_len _ _ _ _ _ _ _ HA) as Hlen. unfold s1 in Hlen. simpl in Hlen.
        rewrite length_app in Hlen. simpl in *. lia. }
      eapply (append_spec_hit _ _ _ _ _ _ ps); [done|done|done| |done|done]. apply lookup_insert_eq.
Qed.

(** *** Both passes *)

Record ingest_spec s (elems : list M) s' (es : list M) rm : Prop := {
  ing_ok : table_ok s';
  ing_size : size_ok s → size_ok s';
  ing_ext : extends s s';
  ing_elems : same_elems elems es;
  ing_resolved : ∀ i e, elems !! i = Some e → resolved s' rm i e;
  ing_dom : ∀ id p, rm !! id = Some p →
    (∃ i e, elems !! i = Some e ∧ old_id i e = id) ∧ (0 ≤ p < Z.of_nat (length (d_slice s')))%Z;
  ing_new : ∀ i e', length (d_slice s) ≤ i → d_slice s' !! i = Some e' →
    ∃ pos e, elems !! pos = Some e ∧ e' = (h_setID (N.of_nat pos) (to_u64 (Z.of_nat i)) (h_clone e)).2;
  ing_len : length (d_slice s') ≤ length (d_slice s) + length elems }.

Lemma passes_spec s0 s elems es rm missing s' es' rm' :
  table_ok s0 → table_ok s → extends s0 s → ids_distinct (λ _, True) elems →
  find_spec (d_lookup s0) 0 elems ∅ [] (es, rm, missing) →
  append_spec missing s es rm s' es' rm' →
  ingest_spec s elems s' es' rm'.
Proof.
  intros Hok0 Hok Hext Hd [I1 I2 I3 I4 I5 I6 I7] [J1 J2 J3 J4 J5 J6 J7 J8 J9 J10]. simpl in *.
  assert (Hmiss : ∀ q, q ∈ missing → ∃ e, elems !! q = Some e ∧ es !! q = Some e ∧ d_lookup s0 !! h_key e = None).
  { intros q [Hq|(i & e & -> & He & Hn)]%I3; [set_solver|]. eauto. }
  assert (Hids : ∀ i j ei ej, elems !! i = Some ei → elems !! j = Some ej → old_id i ei = old_id j ej → i = j).
  { intros i j ei ej. by apply Hd. }
  split; auto.
  - apply Forall2_same_length_lookup. split; [apply Forall2_length in I1, J4; congruence|].
    intros i x z Hx Hz. destruct (Forall2_lookup_l _ _ _ _ _ I1 Hx) as (y & Hy & Hxy).
    apply (same_elem_trans _ y _ Hxy). by eapply (Forall2_lookup_lr _ _ _ _ _ _ J4).
  - intros i e He. destruct (d_lookup s0 !! h_key e) as [p|] eqn:Ep.
    + destruct (table_ok_lookup _ _ _ Hok0 Ep) as (e0 & ? & ? & ?). apply (resolved_mono s0); [by etrans|].
      exists p, e0. split_and!; auto. rewrite J7; [by apply (I6 Hids)|].
      intros q x Hq Hx Heq. destruct (Hmiss q Hq) as (x' & Hx' & ? & Hn).
      assert (x' = x) as -> by congruence. assert (q = i) as -> by (by eapply Hids). congruence.
    + assert (Hq : i ∈ missing) by (apply I3; right; eauto). apply J6; [|done|by apply I2].
      intros a b ea eb Ha Hb Hea Heb. destruct (Hmiss a Ha) as (? & ? & ? & _), (Hmiss b Hb) as (? & ? & ? & _).
      simplify_eq. eauto.
  - intros id q Hq. destruct (J8 _ _ Hq) as [Hr|[(a & x & Ha & Hx & ?) ?]].
    + destruct (I7 _ _ Hr) as [Hr'|(i & e & ? & ? & Hp)]; [by rewrite lookup_empty in Hr'|]. split; [eauto|].
      destruct (table_ok_lookup _ _ _ Hok0 Hp) as (e0 & ? & Hl%lookup_lt_Some & ?).
      destruct Hext as [?%prefix_length _], J3 as [?%prefix_length _]. lia.
    + split; [|done]. destruct (Hmiss a Ha) as (x' & ? & ? & _). simplify_eq. eauto.
  - intros i y Hi Hy. destruct (J9 i y Hi Hy) as (q & x & Hq & Hx & ?).
    destruct (Hmiss q Hq) as (x' & ? & ? & _). simplify_eq. eauto.
  - enough (length missing ≤ length elems) by lia.
    rewrite <- (length_seq (length elems) 0). apply submseteq_length, NoDup_submseteq; [apply I4; constructor|].
    intros q Hq. destruct (Hmiss q Hq) as (e & He%lookup_lt_Some & _). apply elem_of_seq. lia.
Qed.

Lemma missing_in_range s elems es rm missing :
  find_spec (d_lookup s) 0 elems ∅ [] (es, rm, missing) → NoDup missing ∧ ∀ q, q ∈ missing → q < length es.
Proof.
  intros [I1 _ I3 I4 _ _ _]. simpl in *. split; [apply I4; constructor|].
  intros q [Hq|(i & e & -> & He%lookup_lt_Some & _)]%I3; [set_solver|]. apply Forall2_length in I1. lia.
Qed.

(** [ingest_locked] rewrites, then runs both passes. *)
Lemma ingest_locked_spec s1 s2 elems elems' r :
  isDeduplicating (M := M) (K := K) = true →
  table_ok s1 → table_ok s2 → extends s1 s2 →
  omapM (h_rewrite r) elems = Ret elems' → ids_distinct (λ _, True) elems' →
  ∃ s' es rm, ingest_spec s2 elems' s' es rm ∧
    ingest_locked s1 s2 elems r = obind (h_addToRewriter r rm) (λ r', Ret (s', es, r')).
Proof.
  intros Hded Hok1 Hok2 Hext Hrw Hd. unfold ingest_locked. rewrite Hrw, Hded. simpl.
  pose proof (find_existing_spec (d_lookup s1) elems' 0 ∅ []) as Hfind.
  destruct (find_existing (d_lookup s1) 0 elems' ∅ []) as [[es rm] missing].
  destruct (missing_in_range _ _ _ _ _ Hfind) as [Hnd Hlt].
  destruct (append_missing_spec missing s2 es rm Hok2 Hnd Hlt) as (s' & es' & rm' & Heq & HA).
  exists s', es', rm'. split; [exact (passes_spec _ _ _ _ _ _ _ _ _ Hok1 Hok2 Hext Hd Hfind HA)|].
  destruct missing as [|q missing]; [by injection Heq as <- <- <-|]. by rewrite Heq.
Qed.

(** *** Interleaved callers

    Each caller is before, between or after its two passes; a step lets one caller
    run its next pass on the shared table. *)

Inductive caller :=
| Before (elems : list M)
| Between (elems es : list M) (rm : idConversionTable) (missing : list nat)
| After (elems : list M) (rm : idConversionTable).

Inductive caller_step : dslice M K * list caller → dslice M K * list caller → Prop :=
| step_find s cs c elems es rm missing :
    cs !! c = Some (Before elems) → find_existing (d_lookup s) 0 elems ∅ [] = (es, rm, missing) →
    caller_step (s, cs) (s, <[c := Between elems es rm missing]> cs)
| step_append s cs c elems es rm missing s' es' rm' :
    cs !! c = Some (Between elems es rm missing) →
    append_missing missing s (Z.of_nat (length (d_slice s))) es rm = Ret (s', es', rm') →
    caller_step (s, cs) (s', <[c := After elems rm']> cs).

(** What is known of a caller when the table is [s]. *)
Definition caller_ok s (c : caller) : Prop :=
  match c with
  | Before elems => ids_distinct (λ _, True) elems
  | Between elems es rm missing => ids_distinct (λ _, True) elems ∧
      ∃ s0, table_ok s0 ∧ extends s0 s ∧ find_spec (d_lookup s0) 0 elems ∅ [] (es, rm, missing)
  | After elems rm => ∀ i e, elems !! i = Some e → resolved s rm i e
  end.

Lemma caller_ok_mono s s' c : extends s s' → caller_ok s c → caller_ok s' c.
Proof.
  intros Hext. destruct c as [elems|elems es rm missing|elems rm]; simpl; [done| |].
  - intros (? & s0 & ? & ? & ?). split; [done|]. exists s0. split_and!; auto. by etrans.
  - intros Hr i e He. eapply resolved_mono; eauto.
Qed.

Definition callers_ok (st : dslice M K * list caller) : Prop :=
  table_ok st.1 ∧ size_ok st.1 ∧ Forall (caller_ok st.1) st.2.

Lemma Forall_insert_caller s (cs : list caller) c x :
  Forall (caller_ok s) cs → caller_ok s x → Forall (caller_ok s) (<[c := x]> cs).
Proof. intros. by apply Forall_insert. Qed.

Lemma caller_step_ok st st' : caller_step st st' → callers_ok st → callers_ok st' ∧ extends st.1 st'.1.
Proof.
  intros Hstep (Hok & Hsz & Hall); simpl in *. destruct Hstep as
    [s cs c elems es rm missing Hc Hf|s cs c elems es rm missing s' es' rm' Hc Ha]; simpl in *;
    pose proof (Forall_lookup_1 _ _ _ _ Hall Hc) as Hcok; simpl in Hcok.
  - split; [|done]. split_and!; auto. apply Forall_insert_caller; [done|]. split; [done|]. exists s.
    rewrite <- Hf. split_and!; [done..|]. apply find_existing_spec.
  - destruct Hcok as (Hd & s0 & Hok0 & Hext & Hfind).
    destruct (missing_in_range _ _ _ _ _ Hfind) as [Hnd Hlt].
    destruct (append_missing_spec missing s es rm Hok Hnd Hlt) as (t & et & rt & Heq & HA).
    rewrite Ha in Heq. injection Heq as <- <- <-.
    pose proof (passes_spec _ _ _ _ _ _ _ _ _ Hok0 Hok Hext Hd Hfind HA) as [I1 I2 I3 I4 I5 I6 I7 _].
    split; [|done]. split_and!; auto. apply Forall_insert_caller; [|done].
    eapply Forall_impl; [done|]. intros x. by apply caller_ok_mono.
Qed.

Lemma callers_reach st st' : rtc caller_step st st' → callers_ok st → callers_ok st' ∧ extends st.1 st'.1.
Proof.
  induction 1 as [st|st1 st2 st3 Hstep _ IH]; intros Hok; [done|].
  destruct (caller_step_ok _ _ Hstep Hok) as [Hok2 Hext]. destruct (IH Hok2) as [? ?]. split; [done|by etrans].
Qed.
End IngestSpec.

(** C27: concurrent ingestion into one deduplicating table is correct under every
    interleaving of the callers' read-locked and write-locked passes.  From the
    empty table, in every reachable state: no two slots hold elements with the same
    key and the lookup map finds exactly the slots; the accounted size is the sum
    of the sizes; the rewriting map of each caller that has finished sends the
    identifier of each of its elements to a slot with an element of the same key,
    and no later step changes a slot; and a caller between its passes can always
    take its second one. *)
Theorem ingest_interleavings {M K : Type} `{Countable K} `{!Helper M K, !HelperOk M K}
    (inputs : list (list M)) (s : dslice M K) (cs : list caller) :
  Forall (ids_distinct (λ _, True)) inputs →
  rtc caller_step (Init, Before <$> inputs) (s, cs) →
  table_ok s ∧ size_ok s ∧
  (∀ c elems rm, cs !! c = Some (After elems rm) → ∀ i e, elems !! i = Some e → resolved s rm i e) ∧
  (∀ c elems es rm missing, cs !! c = Some (Between elems es rm missing) →
     ∃ s' rm', caller_step (s, cs) (s', <[c := After elems rm']> cs)) ∧
  (∀ s' cs', rtc caller_step (s, cs) (s', cs') → d_slice s `prefix_of` d_slice s').
Proof.
  intros Hin Hreach.
  assert (Hinit : callers_ok (Init : dslice M K, Before <$> inputs)).
  { split_and!; [apply table_ok_Init|done|]. by apply Forall_fmap. }
  destruct (callers_reach _ _ Hreach Hinit) as [Hok _]. pose proof Hok as (Htab & Hsz & Hall). simpl in *.
  split_and!; [done|done| | |].
  - intros c elems rm Hc. exact (Forall_lookup_1 _ _ _ _ Hall Hc).
  - intros c elems es rm missing Hc.
    destruct (Forall_lookup_1 _ _ _ _ Hall Hc) as (_ & s0 & _ & _ & Hfind).
    destruct (missing_in_range _ _ _ _ _ Hfind) as [Hnd Hlt].
    destruct (append_missing_spec missing s es rm Htab Hnd Hlt) as (t & et & rt & Heq & _).
    exists t, rt. by eapply step_append.
  - intros s' cs' Hr. by destruct (callers_reach _ _ Hr Hok) as [_ [? _]].
Qed.

(** ** Flushing to parquet row groups *)

Record ParquetConfig := mkParquetConfig { MaxBufferRowCount : Z; MaxRowGroupBytes : N; MaxBlockBytes : N }.

Definition defaultParquetConfig : ParquetConfig :=
  mkParquetConfig 100000 (128 * 1024 * 1024) (10 * 128 * 1024 * 1024).

Section Flush.
Context {M K : Type} `{Countable K}.
(** The persister's row of an element, the parquet buffer (what it holds after
    [WriteRows], and its sort) and the parquet writer. *)
Context {Row W : Type} (Deconstruct : N → M → Row).
Context (WriteRows : list Row → outcome (list Row)) (sort_buffer : list Row → list Row).
Context (WriteRowGroup : W → list Row → outcome W).
Implicit Types (s : dslice M K).

(** A division by zero panics. *)
Definition maxRowsPerRowGroup (cfg : ParquetConfig) s : outcome Z :=
  match d_slice s with
  | [] => Ret 1%Z
  | _ =>
      let bytesPerRow := (d_size s `div` N.of_nat (length (d_slice s)))%N in
      if (bytesPerRow =? 0)%N then Panic
      else
        let maxRows := (MaxRowGroupBytes cfg `div` bytesPerRow)%N in
        if (maxRows <=? 0)%N then Ret 1%Z else Ret (to_i64 maxRows)
  end.

Definition cap (cfg : ParquetConfig) (maxRows rowsToFlush : Z) : Z :=
  let r := if (rowsToFlush >? maxRows)%Z then maxRows else rowsToFlush in
  if (r >? MaxBufferRowCount cfg)%Z then MaxBufferRowCount cfg else r.

(** The rows of [n] elements from slot [from] on. *)
Definition rows_at s (from n : nat) : list Row :=
  imap (λ pos e, Deconstruct (N.of_nat (pos + from)) e) (take n (drop from (d_slice s))).

(** [None] when the fuel does not suffice. *)
Fixpoint flush_loop (fuel : nat) (cfg : ParquetConfig) (maxRows : Z) s (w : W) (rowGroups rowsFlushed : N)
    : option (outcome (dslice M K * W * (N * N))) :=
  match fuel with
  | O => None
  | S fuel =>
      let rowsToFlush := (Z.of_nat (length (d_slice s)) - Z.of_nat (d_rowsFlushed s))%Z in
      if (rowsToFlush =? 0)%Z then Some (Ret (s, w, (rowsFlushed, rowGroups)))
      else
        let n := cap cfg maxRows rowsToFlush in
        if (n <? 0)%Z then Some Panic
        else
          match obind (WriteRows (rows_at s (d_rowsFlushed s) (Z.to_nat n))) (λ b, WriteRowGroup w (sort_buffer b)) with
          | Ret w' =>
              flush_loop fuel cfg maxRows
                (mkDslice (d_slice s) (d_size s) (d_lookup s) (d_rowsFlushed s + Z.to_nat n))
                w' (rowGroups + 1) (rowsFlushed + Z.to_N n)
          | Fail e => Some (Fail e)
          | Panic => Some Panic
          end
  end.

Definition Flush (fuel : nat) (cfg : ParquetConfig) s (w : W) : option (outcome (dslice M K * W * (N * N))) :=
  match maxRowsPerRowGroup cfg s with
  | Ret maxRows => flush_loop fuel cfg maxRows s w 0 0
  | Fail e => Some (Fail e)
  | Panic => Some Panic
  end.
End Flush.

Section FlushSpec.
Context {M K : Type} `{Countable K} {Row : Type} (Deconstruct : N → M → Row).
Context (WriteRows : list Row → outcome (list Row)) (sort_buffer : list Row → list Row).
Context (WriteRowGroup : list (list Row) → list Row → outcome (list (list Row))).
(** The buffer takes the rows it is given, sorting permutes them, and the writer
    appends a row group. *)
Context (write_rows : ∀ l, WriteRows l = Ret l).
Context (sort_perm : ∀ l, sort_buffer l ≡ₚ l).
Context (write_group : ∀ w b, WriteRowGroup w b = Ret (w ++ [b])).
Implicit Types (s : dslice M K).

Lemma cap_bounds cfg m r : (0 < m)%Z → (0 < MaxBufferRowCount cfg)%Z → (0 < r)%Z →
  (1 ≤ cap cfg m r ≤ r)%Z ∧ (cap cfg m r ≤ m)%Z ∧ (cap cfg m r ≤ MaxBufferRowCount cfg)%Z.
Proof.
  intros. unfold cap. cbv zeta.
  destruct (Z.gtb_spec r m); [destruct (Z.gtb_spec m (MaxBufferRowCount cfg))|destruct (Z.gtb_spec r (MaxBufferRowCount cfg))]; lia.
Qed.

Lemma maxRows_pos cfg s m :
  (MaxRowGroupBytes cfg < 2 ^ 63)%N → maxRowsPerRowGroup cfg s = Ret m → (0 < m)%Z.
Proof.
  intros Hb. unfold maxRowsPerRowGroup. destruct (d_slice s) as [|e l]; [by intros [= <-]|]. cbv zeta.
  set (bpr := (d_size s `div` _)%N). destruct (bpr =? 0)%N eqn:E; [done|].
  destruct (MaxRowGroupBytes cfg `div` bpr <=? 0)%N eqn:E2; [by intros [= <-]|]. intros [= <-]. bool_prop.
  assert ((MaxRowGroupBytes cfg `div` bpr)%N ≤ MaxRowGroupBytes cfg)%N by (apply N.Div0.div_le_upper_bound; nia).
  rewrite to_i64_small by lia. lia.
Qed.

Lemma rows_at_length s from n : from + n ≤ length (d_slice s) → length (rows_at Deconstruct s from n) = n.
Proof. intros. unfold rows_at. rewrite length_imap, length_take, length_drop. lia. Qed.

Lemma rows_at_split s from a b :
  from + a ≤ length (d_slice s) →
  rows_at Deconstruct s from (a + b) = rows_at Deconstruct s from a ++ rows_at Deconstruct s (from + a) b.
Proof.
  intros Hle. unfold rows_at. rewrite <- (take_take_drop (drop from (d_slice s)) a b), imap_app.
  rewrite length_take, length_drop, drop_drop. f_equal. apply imap_ext. intros i x _. simpl.
  do 2 f_equal. lia.
Qed.

Lemma flush_loop_spec cfg m : ∀ fuel s w g n,
  (0 < m)%Z → (0 < MaxBufferRowCount cfg)%Z →
  d_rowsFlushed s ≤ length (d_slice s) → length (d_slice s) - d_rowsFlushed s < fuel →
  ∃ groups,
    flush_loop Deconstruct WriteRows sort_buffer WriteRowGroup fuel cfg m s w g n =
      Some (Ret (mkDslice (d_slice s) (d_size s) (d_lookup s) (length (d_slice s)), w ++ groups,
        (n + N.of_nat (length (d_slice s) - d_rowsFlushed s), g + N.of_nat (length groups))%N)) ∧
    concat groups ≡ₚ rows_at Deconstruct s (d_rowsFlushed s) (length (d_slice s) - d_rowsFlushed s) ∧
    Forall (λ b, 1 ≤ Z.of_nat (length b) ≤ Z.min m (MaxBufferRowCount cfg))%Z groups.
Proof.
  induction fuel as [|fuel IH]; intros s w g n Hm Hc Hle Hf; [lia|]. simpl.
  destruct (Z.of_nat (length (d_slice s)) - Z.of_nat (d_rowsFlushed s) =? 0)%Z eqn:E; bool_prop.
  - replace (length (d_slice s) - d_rowsFlushed s) with 0 by lia. exists []. rewrite app_nil_r. simpl.
    replace (length (d_slice s)) with (d_rowsFlushed s) by lia. destruct s; simpl.
    split_and!; [by rewrite !N.add_0_r|done|constructor].
  - set (rest := (Z.of_nat (length (d_slice s)) - Z.of_nat (d_rowsFlushed s))%Z) in *.
    destruct (cap_bounds cfg m rest Hm Hc) as (Hb1 & Hb2 & Hb3); [lia|]. set (c := cap cfg m rest) in *.
    destruct (Z.ltb_spec c 0); [lia|]. rewrite write_rows. simpl. rewrite write_group.
    set (s1 := mkDslice _ _ _ _).
    destruct (IH s1 (w ++ [sort_buffer (rows_at Deconstruct s (d_rowsFlushed s) (Z.to_nat c))])
                (g + 1)%N (n + Z.to_N c)%N) as (gs & -> & Hperm & Hall); [done|done|simpl; lia|simpl; lia|].
    exists (sort_buffer (rows_at Deconstruct s (d_rowsFlushed s) (Z.to_nat c)) :: gs). simpl. split_and!.
    + rewrite <- app_assoc. simpl. do 3 f_equal; f_equal; lia.
    + rewrite sort_perm, Hperm. simpl.
      replace (length (d_slice s) - d_rowsFlushed s)
        with (Z.to_nat c + (length (d_slice s) - (d_rowsFlushed s + Z.to_nat c))) by lia.
      by rewrite rows_at_split by lia.
    + constructor; [|done]. rewrite sort_perm, rows_at_length by lia. lia.
Qed.
End FlushSpec.

(** [Flush] terminates and writes each row that is not on disk yet exactly
    once, with the slot number of its element: with an average row of at least one
    byte, the row groups it appends to the writer are, together, a permutation of
    the rows of the unflushed slots, none is empty and none exceeds the rows per
    group that the byte limit allows nor the buffer's capacity; the two counts it
    returns are those of the rows and of the groups, every slot counts as flushed
    afterwards, and a second [Flush] writes nothing. *)
Theorem Flush_complete {M K Row : Type} `{Countable K} (Deconstruct : N → M → Row)
    (WriteRows : list Row → outcome (list Row)) (sort_buffer : list Row → list Row)
    (WriteRowGroup : list (list Row) → list Row → outcome (list (list Row)))
    (cfg : ParquetConfig) (s : dslice M K) (w : list (list Row)) (fuel : nat) :
  (∀ l, WriteRows l = Ret l) → (∀ l, sort_buffer l ≡ₚ l) → (∀ w b, WriteRowGroup w b = Ret (w ++ [b])) →
  (0 < MaxBufferRowCount cfg)%Z → (MaxRowGroupBytes cfg < 2 ^ 63)%N →
  d_rowsFlushed s ≤ length (d_slice s) → (N.of_nat (length (d_slice s)) ≤ d_size s)%N →
  length (d_slice s) < fuel →
  ∃ maxRows s' groups,
    let todo := length (d_slice s) - d_rowsFlushed s in
    maxRowsPerRowGroup cfg s = Ret maxRows ∧
    Flush Deconstruct WriteRows sort_buffer WriteRowGroup fuel cfg s w =
      Some (Ret (s', w ++ groups, (N.of_nat todo, N.of_nat (length groups)))) ∧
    concat groups ≡ₚ rows_at Deconstruct s (d_rowsFlushed s) todo ∧
    Forall (λ b, 1 ≤ Z.of_nat (length b) ≤ Z.min maxRows (MaxBufferRowCount cfg))%Z groups ∧
    d_slice s' = d_slice s ∧ d_lookup s' = d_lookup s ∧ d_rowsFlushed s' = length (d_slice s) ∧
    Flush Deconstruct WriteRows sort_buffer WriteRowGroup fuel cfg s' (w ++ groups) =
      Some (Ret (s', w ++ groups, (0, 0)%N)).
Proof.
  intros Hw Hs Hg Hc Hb Hle Hsz Hf.
  assert (Hmax : ∃ m, maxRowsPerRowGroup cfg s = Ret m).
  { unfold maxRowsPerRowGroup. destruct (d_slice s) as [|e l]; [eauto|]. cbv zeta.
    destruct (_ =? 0)%N eqn:E; [|case_match; eauto]. bool_prop. apply N.div_small_iff in E; simpl in *; lia. }
  destruct Hmax as [m Hmax]. pose proof (maxRows_pos _ _ _ Hb Hmax) as Hm.
  destruct (flush_loop_spec Deconstruct WriteRows sort_buffer WriteRowGroup Hw Hs Hg cfg m fuel s w 0 0)
    as (groups & Heq & Hp & Hall); [done|done|done|lia|].
  eexists m, _, groups. cbv zeta. split; [done|]. unfold Flush at 1. rewrite Hmax, Heq.
  split_and!; [done..|]. unfold Flush, maxRowsPerRowGroup in *. simpl in *. rewrite Hmax.
  destruct fuel; [lia|]. simpl. by rewrite Z.sub_diag.
Qed.

Definition flush_example : dslice string string := mkDslice ["alloc"; "main"; "run"; "sys"; "x"] 16 ∅ 1.

Lemma Flush_complete_witness :
  ∃ maxRows s' groups,
    maxRowsPerRowGroup (mkParquetConfig 2 100 1000) flush_example = Ret maxRows ∧
    Flush (λ i e, (i, e)) Ret reverse (λ w b, Ret (w ++ [b])) 6 (mkParquetConfig 2 100 1000) flush_example [] =
      Some (Ret (s', groups, (4, N.of_nat (length groups))%N)) ∧
    concat groups ≡ₚ [(1, "main"); (2, "run"); (3, "sys"); (4, "x")]%N.
Proof.
  destruct (Flush_complete (λ i e, (i, e)) Ret reverse (λ w b, Ret (w ++ [b])) (mkParquetConfig 2 100 1000)
    flush_example [] 6) as (m & s' & g & Hm & Hfl & Hp & _).
  - done.
  - intros l. apply reverse_Permutation.
  - done.
  - done.
  - done.
  - simpl; lia.
  - by vm_compute.
  - simpl; lia.
  - exists m, s', g. split_and!; [exact Hm|exact Hfl|exact Hp].
Defined.
