(* ===== verification/Symbols.v ===== *)
(** * The symbol tables of the head

    The messages of a pprof profile ([pkg/gen/google/v1]) and the helpers of the
    head's tables: [strings.go], [functions.go], [mappings.go], [locations.go] and
    [stacktraces.go] of [pkg/phlaredb].  The theorem: whatever the tables already
    hold, ingesting the symbols of a profile leaves every reference pointing at
    the same symbol.  The xxhash digest and the sizes of the Go structs are
    parameters. *)

From S2P Require Import Prelude Dedup.

(** ** Messages *)

Record Function := mkFunction {
  fn_Id : N; fn_Name : Z; fn_SystemName : Z; fn_Filename : Z; fn_StartLine : Z }.

Record Mapping := mkMapping {
  mp_Id : N; mp_MemoryStart : N; mp_MemoryLimit : N; mp_FileOffset : N;
  mp_Filename : Z; mp_BuildId : Z;
  mp_HasFunctions : bool; mp_HasFilenames : bool; mp_HasLineNumbers : bool; mp_HasInlineFrames : bool }.

Record Line := mkLine { ln_FunctionId : N; ln_Line : Z }.

Record Location := mkLocation {
  lc_Id : N; lc_MappingId : N; lc_Address : N; lc_Line : list Line; lc_IsFolded : bool }.

Record Stacktrace := mkStacktrace { st_LocationIDs : list N }.

(** ** Keys *)

Record functionsKey := mkFunctionsKey { fk_Name : Z; fk_SystemName : Z; fk_Filename : Z; fk_StartLine : Z }.

Record mappingsKey := mkMappingsKey {
  mk_MemoryStart : N; mk_MemoryLimit : N; mk_FileOffset : N; mk_Filename : Z; mk_BuildId : Z;
  mk_HasFunctions : bool; mk_HasFilenames : bool; mk_HasLineNumbers : bool; mk_HasInlineFrames : bool }.

Record locationsKey := mkLocationsKey { lk_MappingId : N; lk_Address : N; lk_LinesHash : N }.

Global Instance functionsKey_eq : EqDecision functionsKey.
Proof. solve_decision. Defined.
Global Instance functionsKey_countable : Countable functionsKey.
Proof.
  apply (inj_countable' (λ k, (fk_Name k, fk_SystemName k, fk_Filename k, fk_StartLine k))
    (λ '(a, b, c, d), mkFunctionsKey a b c d)). by intros [].
Defined.

Global Instance mappingsKey_eq : EqDecision mappingsKey.
Proof. solve_decision. Defined.
Global Instance mappingsKey_countable : Countable mappingsKey.
Proof.
  apply (inj_countable' (λ k, (mk_MemoryStart k, mk_MemoryLimit k, mk_FileOffset k, mk_Filename k, mk_BuildId k,
      (mk_HasFunctions k, mk_HasFilenames k, mk_HasLineNumbers k, mk_HasInlineFrames k)))
    (λ '(a, b, c, d, e, (f, g, h, i)), mkMappingsKey a b c d e f g h i)). by intros [].
Defined.

Global Instance locationsKey_eq : EqDecision locationsKey.
Proof. solve_decision. Defined.
Global Instance locationsKey_countable : Countable locationsKey.
Proof.
  apply (inj_countable' (λ k, (lk_MappingId k, lk_Address k, lk_LinesHash k))
    (λ '(a, b, c), mkLocationsKey a b c)). by intros [].
Defined.

(** ** Parameters: struct sizes and the xxhash digest *)

Class Sizeof := {
  functionSize : N; mappingSize : N; lineSize : N; locationSize : N; stacktraceSize : N;
  profileSize : N; sampleSize : N; labelSize : N }.

(** A digest is written with 8-byte words ([binary.LittleEndian.PutUint64]). *)
Class Hasher := { Digest : Type; hNew : Digest; hWrite : Digest → list N → Digest; hSum64 : Digest → N }.

Fixpoint le_bytes (n : nat) (x : N) : list N :=
  match n with
  | O => []
  | S n => (x `mod` 256)%N :: le_bytes n (x `div` 256)%N
  end.

(** [binary.LittleEndian.PutUint64]. *)
Definition PutUint64 (x : N) : list N := le_bytes 8 x.

Definition hash_words `{Hasher} (ws : list N) : N :=
  hSum64 (foldl (λ h w, hWrite h (PutUint64 w)) hNew ws).

(** ** Helpers *)

Definition max_id (m : idConversionTable) : Z :=
  foldl (λ acc '(id, _), if (id >? acc)%Z then id else acc) 0%Z (map_to_list m).

(** [t[x] = y] panics outside the table. *)
Fixpoint fill (t : stringConversionTable) (m : list (Z * Z)) : outcome stringConversionTable :=
  match m with
  | [] => Ret t
  | (x, y) :: m =>
      if ((0 <=? x) && (x <? Z.of_nat (length t)))%Z then fill (<[Z.to_nat x := y]> t) m else Panic
  end.

Definition strings_addToRewriter (r : rewriter) (m : idConversionTable) : outcome rewriter :=
  obind (fill (replicate (Z.to_nat (max_id m + 1)) 0%Z) (map_to_list m)) (λ t,
    Ret (mkRewriter t (r_functions r) (r_mappings r) (r_locations r) (r_stacktraces r))).

Global Instance stringsHelper : Helper string string := {|
  h_key := λ s, s;
  h_addToRewriter := strings_addToRewriter;
  h_rewrite := λ _ s, Ret s;
  h_setID := λ oldID _ s, (oldID, s);
  h_size := λ s, N.of_nat (String.length s);
  h_clone := λ s, s;
  h_noKey := false |}.

Definition function_key (f : Function) : functionsKey :=
  mkFunctionsKey (fn_Name f) (fn_SystemName f) (fn_Filename f) (fn_StartLine f).

Definition function_rewrite (r : rewriter) (f : Function) : outcome Function :=
  obind (string_rewrite (r_strings r) (fn_Filename f)) (λ file,
  obind (string_rewrite (r_strings r) (fn_Name f)) (λ name,
  obind (string_rewrite (r_strings r) (fn_SystemName f)) (λ sys,
    Ret (mkFunction (fn_Id f) name sys file (fn_StartLine f))))).

Definition function_setID (newID : N) (f : Function) : N * Function :=
  (fn_Id f, mkFunction newID (fn_Name f) (fn_SystemName f) (fn_Filename f) (fn_StartLine f)).

Global Instance functionsHelper `{Sizeof} : Helper Function functionsKey := {|
  h_key := function_key;
  h_addToRewriter := λ r m, Ret (mkRewriter (r_strings r) m (r_mappings r) (r_locations r) (r_stacktraces r));
  h_rewrite := function_rewrite;
  h_setID := λ _, function_setID;
  h_size := λ _, functionSize;
  h_clone := λ f, f;
  h_noKey := false |}.

(** As the code has it, the key takes [HasFunctions] for [HasLineNumbers]. *)
Definition mapping_key (m : Mapping) : mappingsKey :=
  mkMappingsKey (mp_MemoryStart m) (mp_MemoryLimit m) (mp_FileOffset m) (mp_Filename m) (mp_BuildId m)
    (mp_HasFunctions m) (mp_HasFilenames m) (mp_HasFunctions m) (mp_HasInlineFrames m).

Definition mapping_rewrite (r : rewriter) (m : Mapping) : outcome Mapping :=
  obind (string_rewrite (r_strings r) (mp_Filename m)) (λ file,
  obind (string_rewrite (r_strings r) (mp_BuildId m)) (λ build,
    Ret (mkMapping (mp_Id m) (mp_MemoryStart m) (mp_MemoryLimit m) (mp_FileOffset m) file build
           (mp_HasFunctions m) (mp_HasFilenames m) (mp_HasLineNumbers m) (mp_HasInlineFrames m)))).

Definition mapping_setID (newID : N) (m : Mapping) : N * Mapping :=
  (mp_Id m, mkMapping newID (mp_MemoryStart m) (mp_MemoryLimit m) (mp_FileOffset m) (mp_Filename m) (mp_BuildId m)
              (mp_HasFunctions m) (mp_HasFilenames m) (mp_HasLineNumbers m) (mp_HasInlineFrames m)).

Global Instance mappingsHelper `{Sizeof} : Helper Mapping mappingsKey := {|
  h_key := mapping_key;
  h_addToRewriter := λ r m, Ret (mkRewriter (r_strings r) (r_functions r) m (r_locations r) (r_stacktraces r));
  h_rewrite := mapping_rewrite;
  h_setID := λ _, mapping_setID;
  h_size := λ _, mappingSize;
  h_clone := λ m, m;
  h_noKey := false |}.

(** The words hashed for a location: [FunctionId] and [Line] of each line. *)
Definition line_words (ls : list Line) : list N :=
  concat ((λ l, [ln_FunctionId l; to_u64 (ln_Line l)]) <$> ls).

Definition location_key `{Hasher} (l : Location) : locationsKey :=
  mkLocationsKey (lc_MappingId l) (lc_Address l) (hash_words (line_words (lc_Line l))).

Definition line_rewrite (r : rewriter) (l : Line) : outcome Line :=
  obind (rewriteUint64 (r_functions r) (ln_FunctionId l)) (λ id, Ret (mkLine id (ln_Line l))).

Definition location_rewrite (r : rewriter) (l : Location) : outcome Location :=
  obind (if (lc_MappingId l =? 0)%N then Ret 0%N else rewriteUint64 (r_mappings r) (lc_MappingId l)) (λ mid,
  obind (omapM (line_rewrite r) (lc_Line l)) (λ lines,
    Ret (mkLocation (lc_Id l) mid (lc_Address l) lines (lc_IsFolded l)))).

Definition location_setID (newID : N) (l : Location) : N * Location :=
  (lc_Id l, mkLocation newID (lc_MappingId l) (lc_Address l) (lc_Line l) (lc_IsFolded l)).

Global Instance locationsHelper `{Sizeof, Hasher} : Helper Location locationsKey := {|
  h_key := location_key;
  h_addToRewriter := λ r m, Ret (mkRewriter (r_strings r) (r_functions r) (r_mappings r) m (r_stacktraces r));
  h_rewrite := location_rewrite;
  h_setID := λ _, location_setID;
  h_size := λ l, u64 (N.of_nat (length (lc_Line l)) * lineSize + locationSize);
  h_clone := λ l, l;
  h_noKey := false |}.

Definition stacktrace_key `{Hasher} (s : Stacktrace) : N := hash_words (st_LocationIDs s).

Definition stacktrace_rewrite (r : rewriter) (s : Stacktrace) : outcome Stacktrace :=
  obind (omapM (rewriteUint64 (r_locations r)) (st_LocationIDs s)) (λ ids, Ret (mkStacktrace ids)).

Global Instance stacktracesHelper `{Sizeof, Hasher} : Helper Stacktrace N := {|
  h_key := stacktrace_key;
  h_addToRewriter := λ r m, Ret (mkRewriter (r_strings r) (r_functions r) (r_mappings r) (r_locations r) m);
  h_rewrite := stacktrace_rewrite;
  h_setID := λ oldID _ s, (oldID, s);
  h_size := λ s, u64 (stacktraceSize + N.of_nat (length (st_LocationIDs s)) * 8);
  h_clone := λ s, mkStacktrace (st_LocationIDs s);
  h_noKey := false |}.

Global Instance stringsHelper_ok : HelperOk string string.
Proof. by split. Qed.
Global Instance functionsHelper_ok `{Sizeof} : HelperOk Function functionsKey.
Proof. by split. Qed.
Global Instance mappingsHelper_ok `{Sizeof} : HelperOk Mapping mappingsKey.
Proof. by split. Qed.
Global Instance locationsHelper_ok `{Sizeof, Hasher} : HelperOk Location locationsKey.
Proof. by split. Qed.
Global Instance stacktracesHelper_ok `{Sizeof, Hasher} : HelperOk Stacktrace N.
Proof. by split. Qed.

(** ** The tables and the ingestion of a profile's symbols *)

Record symbols := mkSymbols {
  sy_strings : dslice string string;
  sy_mappings : dslice Mapping mappingsKey;
  sy_functions : dslice Function functionsKey;
  sy_locations : dslice Location locationsKey;
  sy_stacktraces : dslice Stacktrace N }.

Definition new_symbols : symbols := mkSymbols Init Init Init Init Init.

(** The symbol part of a pprof profile: [StringTable], [Mapping], [Function],
    [Location] and the [LocationId]s of its samples. *)
Record psymbols := mkPsymbols {
  ps_strings : list string;
  ps_mappings : list Mapping;
  ps_functions : list Function;
  ps_locations : list Location;
  ps_stacks : list Stacktrace }.

Section Tables.
Context `{Sizeof, Hasher}.

(** [Head.Ingest] up to the samples: the four tables in this order, each with the
    rewriter as the tables before left it. *)
Definition ingest_tables (h : symbols) (p : psymbols) : outcome (symbols * psymbols * rewriter) :=
  obind (ingest (sy_strings h) (ps_strings p) new_rewriter) (λ '(ss, sl, r),
  obind (ingest (sy_mappings h) (ps_mappings p) r) (λ '(ms, ml, r),
  obind (ingest (sy_functions h) (ps_functions p) r) (λ '(fs, fl, r),
  obind (ingest (sy_locations h) (ps_locations p) r) (λ '(ls, ll, r),
    Ret (mkSymbols ss ms fs ls (sy_stacktraces h), mkPsymbols sl ml fl ll (ps_stacks p), r))))).

(** The ingestion of the stack traces in [convertSamples]. *)
Definition ingest_stacks (h : symbols) (p : psymbols) (r : rewriter) : outcome (symbols * psymbols * rewriter) :=
  obind (ingest (sy_stacktraces h) (ps_stacks p) r) (λ '(ts, tl, r),
    Ret (mkSymbols (sy_strings h) (sy_mappings h) (sy_functions h) (sy_locations h) ts,
         mkPsymbols (ps_strings p) (ps_mappings p) (ps_functions p) (ps_locations p) tl, r)).

Definition ingest_symbols (h : symbols) (p : psymbols) : outcome (symbols * psymbols * rewriter) :=
  obind (ingest_tables h p) (λ '(h, p, r), ingest_stacks h p r).
End Tables.

(** ** What a reference means

    The views resolve every index: to the strings of a function, to the functions
    and line numbers of a location, to the locations of a stack trace.  [fun_of],
    [map_of] and [loc_of] say how an identifier is looked up: by [Id] in a profile, by
    slot in the head.  A line number is read as the [int64] it is. *)

Definition str (T : list string) (i : Z) : option string :=
  if (i <? 0)%Z then None else T !! Z.to_nat i.

Record fview := mkFview { v_name : string; v_system : string; v_file : string; v_start : Z }.

Definition fn_view (T : list string) (f : Function) : option fview :=
  name ← str T (fn_Name f); sys ← str T (fn_SystemName f); file ← str T (fn_Filename f);
  Some (mkFview name sys file (fn_StartLine f)).

(** All of a mapping but [HasLineNumbers], which its key does not keep apart. *)
Definition mp_view (T : list string) (m : Mapping) : option (N * N * N * string * string * (bool * bool * bool)) :=
  file ← str T (mp_Filename m); build ← str T (mp_BuildId m);
  Some (mp_MemoryStart m, mp_MemoryLimit m, mp_FileOffset m, file, build,
        (mp_HasFunctions m, mp_HasFilenames m, mp_HasInlineFrames m)).

Definition line_view (T : list string) (fun_of : N → option Function) (l : Line) : option (fview * Z) :=
  f ← fun_of (ln_FunctionId l); v ← fn_view T f; Some (v, i64 (ln_Line l)).

Definition loc_view (T : list string) (fun_of : N → option Function) (l : Location) : option (N * list (fview * Z)) :=
  lines ← mapM (line_view T fun_of) (lc_Line l); Some (lc_Address l, lines).

Definition stack_view (T : list string) (fun_of : N → option Function) (loc_of : N → option Location)
    (s : Stacktrace) : option (list (N * list (fview * Z))) :=
  mapM (λ id, l ← loc_of id; loc_view T fun_of l) (st_LocationIDs s).

Definition find_id {A} (id_of : A → N) (l : list A) (id : N) : option A :=
  snd <$> list_find (λ x, id_of x = id) l.

Definition slot {A} (l : list A) (id : N) : option A := l !! N.to_nat id.

Arguments find_id : simpl never.
Arguments slot : simpl never.

Definition p_stack_view (p : psymbols) (s : Stacktrace) : option (list (N * list (fview * Z))) :=
  stack_view (ps_strings p) (find_id fn_Id (ps_functions p)) (find_id lc_Id (ps_locations p)) s.

Definition h_stack_view (h : symbols) (s : Stacktrace) : option (list (N * list (fview * Z))) :=
  stack_view (d_slice (sy_strings h)) (slot (d_slice (sy_functions h))) (slot (d_slice (sy_locations h))) s.

(** A profile is well formed when its identifiers are distinct 64-bit numbers and
    its references resolve. *)
Definition distinct_ids {A} (id_of : A → N) (l : list A) : Prop :=
  NoDup (id_of <$> l) ∧ Forall (λ x, id_of x < 2 ^ 64)%N l.

Record psymbols_wf (p : psymbols) : Prop := {
  wf_strings : (N.of_nat (length (ps_strings p)) < 2 ^ 63)%N;
  wf_stacks_len : (N.of_nat (length (ps_stacks p)) < 2 ^ 63)%N;
  wf_mapping_ids : distinct_ids mp_Id (ps_mappings p);
  wf_mappings : Forall (λ m, is_Some (mp_view (ps_strings p) m)) (ps_mappings p);
  wf_function_ids : distinct_ids fn_Id (ps_functions p);
  wf_functions : Forall (λ f, is_Some (fn_view (ps_strings p) f)) (ps_functions p);
  wf_location_ids : distinct_ids lc_Id (ps_locations p);
  wf_locations : Forall (λ l, is_Some (loc_view (ps_strings p) (find_id fn_Id (ps_functions p)) l) ∧
    (lc_MappingId l ≠ 0%N → is_Some (find_id mp_Id (ps_mappings p) (lc_MappingId l)))) (ps_locations p);
  wf_stacks : Forall (λ s, is_Some (p_stack_view p s)) (ps_stacks p) }.

(** The invariant of the head's tables. *)
Record symbols_ok `{Sizeof, Hasher} (h : symbols) : Prop := {
  ok_strings : table_ok (sy_strings h);
  ok_mappings : table_ok (sy_mappings h);
  ok_functions : table_ok (sy_functions h);
  ok_locations : table_ok (sy_locations h);
  ok_stacktraces : table_ok (sy_stacktraces h) }.

(** ** Lemmas on the views *)

Lemma str_prefix T T' i s : T `prefix_of` T' → str T i = Some s → str T' i = Some s.
Proof. intros Hpre. unfold str. case_if_eq; [done|]. intros. by eapply prefix_lookup_Some. Qed.

Lemma fn_view_Some T f v :
  fn_view T f = Some v ↔ str T (fn_Name f) = Some (v_name v) ∧ str T (fn_SystemName f) = Some (v_system v) ∧
    str T (fn_Filename f) = Some (v_file v) ∧ fn_StartLine f = v_start v.
Proof.
  unfold fn_view. destruct v as [a b c d]; simpl.
  destruct (str T (fn_Name f)), (str T (fn_SystemName f)), (str T (fn_Filename f)); simpl; naive_solver.
Qed.

Lemma fn_view_prefix T T' f v : T `prefix_of` T' → fn_view T f = Some v → fn_view T' f = Some v.
Proof. rewrite !fn_view_Some. intros ? (?&?&?&?). split_and!; eauto using str_prefix. Qed.

Lemma mapM_impl {A B C} (f : A → option C) (g : B → option C) (R : A → B → Prop) l k v :
  (∀ a b c, R a b → f a = Some c → g b = Some c) → Forall2 R l k → mapM f l = Some v → mapM g k = Some v.
Proof.
  intros Hfg Hl. rewrite !mapM_Some. revert v. induction Hl as [|a b l k Hab Hl IH]; intros v Hv.
  - by inversion Hv.
  - inversion Hv; subst. constructor; [by eapply Hfg|by apply IH].
Qed.

Lemma mapM_mono {A C} (f g : A → option C) l v :
  (∀ a c, a ∈ l → f a = Some c → g a = Some c) → mapM f l = Some v → mapM g l = Some v.
Proof.
  intros Hfg. apply (mapM_impl f g (λ a b, a = b ∧ a ∈ l)); [by intros a b c [<- ?]; apply Hfg|].
  apply Forall2_same_length_lookup. split; [done|]. intros i x y Hx Hy. split; [congruence|by eapply list_elem_of_lookup_2].
Qed.

Lemma find_id_Some {A} (id_of : A → N) l id x : find_id id_of l id = Some x → x ∈ l ∧ id_of x = id.
Proof.
  unfold find_id. intros ([i y] & Hy & ->)%fmap_Some. apply list_find_Some in Hy as (Hl & ? & _). simpl.
  split; [by eapply list_elem_of_lookup_2|done].
Qed.

Lemma slot_prefix {A} (l l' : list A) id x : l `prefix_of` l' → slot l id = Some x → slot l' id = Some x.
Proof. intros. by eapply prefix_lookup_Some. Qed.

(** A reference that resolves in the head still does after more has been appended,
    and to the same symbol. *)
Lemma stack_view_prefix T T' (F F' : list Function) (L L' : list Location) s v :
  T `prefix_of` T' → F `prefix_of` F' → L `prefix_of` L' →
  stack_view T (slot F) (slot L) s = Some v → stack_view T' (slot F') (slot L') s = Some v.
Proof.
  intros HT HF HL. apply mapM_mono. intros id c _ Hc. apply bind_Some in Hc as (l & Hl & Hc).
  rewrite (slot_prefix L L' _ _ HL Hl). simpl. unfold loc_view in *.
  apply bind_Some in Hc as (lines & Hlines & [= <-]).
  rewrite (mapM_mono (line_view T (slot F)) (line_view T' (slot F')) _ lines); [done| |done].
  intros ln x _ Hx. unfold line_view in *. apply bind_Some in Hx as (f & Hf & (fv & Hfv & [= <-])%bind_Some).
  rewrite (slot_prefix F F' _ _ HF Hf). simpl. by rewrite (fn_view_prefix T T' _ _ HT Hfv).
Qed.

(** ** The string conversion table *)

Lemma fill_spec m : ∀ t,
  NoDup m.*1 → (∀ x y, (x, y) ∈ m → 0 ≤ x < Z.of_nat (length t))%Z →
  ∃ t', fill t m = Ret t' ∧ length t' = length t ∧
    (∀ x y, (x, y) ∈ m → t' !! Z.to_nat x = Some y) ∧
    (∀ i, (Z.of_nat i ∉ m.*1) → t' !! i = t !! i).
Proof.
  induction m as [|[x y] m IH]; intros t Hnd Hr; simpl in *.
  - exists t. split_and!; [done..|set_solver|done].
  - apply NoDup_cons in Hnd as [Hx Hnd]. pose proof (Hr x y ltac:(set_solver)) as Hxr.
    destruct ((0 <=? x) && (x <? Z.of_nat (length t)))%Z eqn:E; [|apply andb_false_iff in E; lia].
    destruct (IH (<[Z.to_nat x := y]> t) Hnd) as (t' & -> & Hlen & Hin & Hout).
    { intros a b Hab. rewrite length_insert. apply (Hr a b). set_solver. }
    rewrite length_insert in Hlen. exists t'. split_and!; [done..| |].
    + intros a b [[= -> ->]|Hab]%elem_of_cons; [|by apply Hin].
      rewrite Hout by (rewrite Z2Nat.id by lia; done). apply list_lookup_insert_eq. lia.
    + intros i Hi. rewrite Hout by set_solver. apply list_lookup_insert_ne. intros Heq. set_solver by lia.
Qed.

Lemma max_id_fold l : ∀ acc,
  let r := foldl (λ acc '(id, _), if (id >? acc)%Z then id else acc) acc l in
  (acc ≤ r)%Z ∧ ∀ id v, ((id : Z), (v : Z)) ∈ l → (id ≤ r)%Z.
Proof.
  induction l as [|[id v] l IH]; intros acc; simpl; [split; [done|set_solver]|].
  destruct (IH (if (id >? acc)%Z then id else acc)) as [H1 H2]. split.
  - destruct (Z.gtb_spec id acc); lia.
  - intros id' v' [[= -> ->]|Hin]%elem_of_cons; [|by eapply H2]. destruct (Z.gtb_spec id acc); lia.
Qed.

Lemma strings_addToRewriter_spec r (m : idConversionTable) :
  (∀ id p, m !! id = Some p → 0 ≤ id)%Z →
  ∃ t, strings_addToRewriter r m =
      Ret (mkRewriter t (r_functions r) (r_mappings r) (r_locations r) (r_stacktraces r)) ∧
    ∀ id p, m !! id = Some p → t !! Z.to_nat id = Some p.
Proof.
  intros Hpos. unfold strings_addToRewriter.
  destruct (max_id_fold (map_to_list m) 0%Z) as [H0 Hmax]. fold (max_id m) in H0, Hmax.
  destruct (fill_spec (map_to_list m) (replicate (Z.to_nat (max_id m + 1)) 0%Z)) as (t & -> & _ & Hin & _).
  - apply NoDup_fst_map_to_list.
  - intros x y Hxy. rewrite length_replicate. pose proof (Hmax x y Hxy).
    apply elem_of_map_to_list in Hxy. apply Hpos in Hxy. lia.
  - exists t. split; [done|]. intros id p Hid. apply Hin. by apply elem_of_map_to_list.
Qed.

(** Every string of [T] is in the head at the index the table gives for it. *)
Definition strings_map (T : list string) (t : stringConversionTable) (T' : list string) : Prop :=
  ∀ i s, str T i = Some s → ∃ j, string_rewrite t i = Ret j ∧ str T' j = Some s.

Lemma positions_distinct {M K} `{Countable K} `{!Helper M K} (elems : list M) :
  (∀ pos new e, (h_setID pos new e).1 = pos) → (N.of_nat (length elems) < 2 ^ 63)%N →
  ids_distinct (λ _, True) elems ∧ ∀ i e, elems !! i = Some e → old_id i e = Z.of_nat i.
Proof.
  intros Hset Hlen.
  assert (Hid : ∀ i e, elems !! i = Some e → old_id i e = Z.of_nat i).
  { intros i e Hi%lookup_lt_Some. unfold old_id. rewrite Hset, to_i64_small; lia. }
  split; [|done]. intros i j ei ej _ _ Hi Hj. rewrite (Hid _ _ Hi), (Hid _ _ Hj). lia.
Qed.

Lemma omapM_Ret_id {A} (l : list A) : omapM (λ x, Ret x) l = Ret l.
Proof. induction l as [|x l IH]; simpl; [done|]. by rewrite IH. Qed.

Lemma ingest_strings (s : dslice string string) T r :
  table_ok s → (N.of_nat (length T) < 2 ^ 63)%N →
  ∃ s' t, ingest s T r = Ret (s', T, mkRewriter t (r_functions r) (r_mappings r) (r_locations r) (r_stacktraces r)) ∧
    table_ok s' ∧ extends s s' ∧ strings_map T t (d_slice s').
Proof.
  intros Hok Hlen. destruct (positions_distinct (K := string) T) as [Hd Hid]; [done|done|].
  destruct (ingest_locked_spec s s T T r) as (s' & es & rm & [I1 _ I2 I3 I4 I5 _ I8] & Heq); [done..| | |].
  { apply omapM_Ret_id. } { done. }
  assert (es = T) as ->.
  { apply list_eq_Forall2, Forall2_flip. eapply Forall2_impl; [exact I3|]. intros x y Hxy.
    exact (same_elem_key _ _ Hxy). }
  destruct (strings_addToRewriter_spec r rm) as (t & Ht & Htab).
  { intros id p Hp. destruct (I5 _ _ Hp) as [(i & e & Hi & <-) _]. rewrite (Hid _ _ Hi). lia. }
  exists s', t. unfold ingest. rewrite Heq. simpl. rewrite Ht. split_and!; [done..|].
  intros i x Hx. unfold str in Hx. destruct (i <? 0)%Z eqn:Ei; [done|]. bool_prop.
  destruct (I4 _ _ Hx) as (p & y & Hp & Hp0 & Hy & Hk). rewrite (Hid _ _ Hx), Z2Nat.id in Hp by lia.
  exists p. unfold string_rewrite, str. destruct (Z.ltb_spec i 0); [lia|]. rewrite (Htab _ _ Hp).
  destruct (Z.ltb_spec p 0); [lia|]. simpl in Hk. subst y. done.
Qed.

(** ** One table

    If every element can be rewritten, each ends up at a slot whose element has the
    key of the rewritten one. *)

Record rewritten_spec {M K : Type} `{Countable K} `{!Helper M K} (r : rewriter)
    (s : dslice M K) (elems : list M) (s' : dslice M K) (es : list M) (rm : idConversionTable) : Prop := {
  rw_ok : table_ok s';
  rw_ext : extends s s';
  rw_len : length (d_slice s') ≤ length (d_slice s) + length elems;
  rw_elem : ∀ i e, elems !! i = Some e → ∃ e' y p g,
    h_rewrite r e = Ret e' ∧ es !! i = Some y ∧ same_elem e' y ∧
    rm !! old_id i e = Some p ∧ (0 ≤ p)%Z ∧ d_slice s' !! Z.to_nat p = Some g ∧ h_key g = h_key e' }.

Lemma ingest_rewritten {M K : Type} `{Countable K} `{!Helper M K, !HelperOk M K}
    (s : dslice M K) (elems : list M) (r : rewriter) :
  isDeduplicating (M := M) (K := K) = true → table_ok s → ids_distinct (λ _, True) elems →
  (∀ i e, elems !! i = Some e → ∃ e', h_rewrite r e = Ret e' ∧ old_id i e' = old_id i e) →
  ∃ s' es rm, ingest s elems r = obind (h_addToRewriter r rm) (λ r', Ret (s', es, r')) ∧
    rewritten_spec r s elems s' es rm.
Proof.
  intros Hded Hok Hd Hrw.
  assert (Hel : ∃ elems', omapM (h_rewrite r) elems = Ret elems').
  { assert (Hall : Forall (λ e, ∃ e', h_rewrite r e = Ret e') elems).
    { apply Forall_lookup. intros i e (e' & ? & _)%Hrw. eauto. }
    clear Hrw Hd. induction Hall as [|e l (e' & He) _ (l' & Hl)]; simpl; [eauto|]. rewrite He. simpl. rewrite Hl. eauto. }
  destruct Hel as [elems' Hel]. pose proof (proj1 (omapM_ret _ _ _) Hel) as Hf2.
  assert (Hback : ∀ i e', elems' !! i = Some e' → ∃ e, elems !! i = Some e ∧ h_rewrite r e = Ret e' ∧ old_id i e' = old_id i e).
  { intros i e' He'. destruct (Forall2_lookup_r _ _ _ _ _ Hf2 He') as (e & He & Hre).
    destruct (Hrw _ _ He) as (e2 & Hre2 & ?). assert (e2 = e') as -> by congruence. eauto. }
  destruct (ingest_locked_spec s s elems elems' r Hded Hok Hok) as (s' & es & rm & [I1 _ I2 I3 I4 _ _ I7] & Heq); [done..| |].
  { intros i j ei ej _ _ Hi Hj Hij. destruct (Hback _ _ Hi) as (? & ? & _ & ?), (Hback _ _ Hj) as (? & ? & _ & ?).
    eapply Hd; [done..|]. congruence. }
  exists s', es, rm. split; [done|]. split; [done|done|by rewrite (Forall2_length _ _ _ Hf2)|].
  intros i e He. destruct (Forall2_lookup_l _ _ _ _ _ Hf2 He) as (e' & He' & _).
  destruct (Hback _ _ He') as (e0 & He0 & Hre & Hid). assert (e0 = e) as -> by congruence.
  destruct (Forall2_lookup_l _ _ _ _ _ I3 He') as (y & Hy & Hsame).
  destruct (I4 _ _ He') as (p & g & ? & ? & ? & ?). exists e', y, p, g. rewrite <- Hid. split_and!; done.
Qed.

Lemma distinct_ids_old {M K} `{Countable K} `{!Helper M K} (id_of : M → N) (l : list M) :
  (∀ pos new e, (h_setID pos new e).1 = id_of e) → distinct_ids id_of l → ids_distinct (λ _, True) l.
Proof.
  intros Hset [Hnd Hlt] i j ei ej _ _ Hi Hj. unfold old_id. rewrite !Hset. intros Hij.
  rewrite Forall_forall in Hlt.
  apply to_i64_inj in Hij; [|apply Hlt; by eapply list_elem_of_lookup_2..].
  eapply (NoDup_lookup _ _ _ _ Hnd); rewrite list_lookup_fmap; [by rewrite Hi|by rewrite Hj; simpl; rewrite Hij].
Qed.

Lemma rewrite_slot {A} (l : list A) (t : idConversionTable) id p g :
  (N.of_nat (length l) < 2 ^ 63)%N → t !! to_i64 id = Some p → (0 ≤ p)%Z → l !! Z.to_nat p = Some g →
  rewriteUint64 t id = Ret (Z.to_N p) ∧ slot l (Z.to_N p) = Some g.
Proof.
  intros Hlen Ht Hp Hg. unfold rewriteUint64, slot. rewrite Ht. simpl.
  apply lookup_lt_Some in Hg as Hlt. rewrite to_u64_small by lia.
  rewrite Z_N_nat. done.
Qed.

(** *** Functions and mappings *)

Section Steps.
Context `{Sizeof, Hasher}.

(** An identifier of the profile is rewritten to a slot that means the same. *)
Definition ids_map {A X} (id_of : A → N) (l : list A) (V V' : A → option X) (t : idConversionTable) (slots : list A) : Prop :=
  ∀ x v, x ∈ l → V x = Some v → ∃ q g, rewriteUint64 t (id_of x) = Ret q ∧ slot slots q = Some g ∧ V' g = Some v.

Lemma function_rewrite_view T r T' f v :
  strings_map T (r_strings r) T' → fn_view T f = Some v →
  ∃ f', function_rewrite r f = Ret f' ∧ fn_Id f' = fn_Id f ∧ fn_view T' f' = Some v.
Proof.
  intros Hmap (Hn & Hs & Hf & Hl)%fn_view_Some. unfold function_rewrite.
  destruct (Hmap _ _ Hf) as (a & -> & Ha), (Hmap _ _ Hn) as (b & -> & Hb), (Hmap _ _ Hs) as (c & -> & Hc). simpl.
  eexists. split; [done|]. split; [done|]. by apply fn_view_Some.
Qed.

Lemma fn_view_key T f g : function_key f = function_key g → fn_view T f = fn_view T g.
Proof. unfold fn_view. by intros [= -> -> -> ->]. Qed.

Lemma ingest_functions (s : dslice Function functionsKey) (fs : list Function) r T T' :
  table_ok s → distinct_ids fn_Id fs → (N.of_nat (length (d_slice s) + length fs) < 2 ^ 63)%N →
  strings_map T (r_strings r) T' → Forall (λ f, is_Some (fn_view T f)) fs →
  ∃ s' es t, ingest s fs r = Ret (s', es, mkRewriter (r_strings r) t (r_mappings r) (r_locations r) (r_stacktraces r)) ∧
    table_ok s' ∧ extends s s' ∧ ids_map fn_Id fs (fn_view T) (fn_view T') t (d_slice s').
Proof.
  intros Hok Hids Hlen Hmap Hviews.
  destruct (ingest_rewritten s fs r) as (s' & es & t & Heq & [I1 I2 I3 I4]); [done|done| | |].
  { by apply (distinct_ids_old fn_Id). }
  { intros i f Hf. destruct (Forall_lookup_1 _ _ _ _ Hviews Hf) as [v Hv].
    destruct (function_rewrite_view T r T' f v Hmap Hv) as (f' & ? & Hid & ?). exists f'.
    split; [done|]. unfold old_id. simpl. by rewrite Hid. }
  exists s', es, t. split_and!; [exact Heq|done|done|].
  intros f v (i & Hi)%list_elem_of_lookup Hv. destruct (I4 _ _ Hi) as (e' & y & p & g & Hre & _ & _ & Hp & Hp0 & Hg & Hk).
  destruct (function_rewrite_view T r T' f v Hmap Hv) as (e2 & Hre2 & _ & Hv2).
  assert (e2 = e') as -> by (simpl in Hre; congruence).
  destruct (rewrite_slot (d_slice s') t (fn_Id f) p g) as [Hr Hs]; [lia|exact Hp|done|done|].
  exists (Z.to_N p), g. split_and!; [done|done|]. by rewrite (fn_view_key T' g e' Hk).
Qed.

Lemma mapping_rewrite_view T r T' m v :
  strings_map T (r_strings r) T' → mp_view T m = Some v →
  ∃ m', mapping_rewrite r m = Ret m' ∧ mp_Id m' = mp_Id m ∧ mp_view T' m' = Some v.
Proof.
  intros Hmap (file & Hf & (build & Hb & [= <-])%bind_Some)%bind_Some. unfold mapping_rewrite.
  destruct (Hmap _ _ Hf) as (a & -> & Ha), (Hmap _ _ Hb) as (b & -> & Hb'). simpl.
  eexists. split; [done|]. split; [done|]. unfold mp_view. simpl. by rewrite Ha, Hb'.
Qed.

Lemma mp_view_key T m m' : mapping_key m = mapping_key m' → mp_view T m = mp_view T m'.
Proof.
  destruct m, m'. unfold mapping_key, mp_view. simpl. intros Hk. injection Hk. intros. subst.
  reflexivity.
Qed.

Lemma ingest_mappings (s : dslice Mapping mappingsKey) (ms : list Mapping) r T T' :
  table_ok s → distinct_ids mp_Id ms → (N.of_nat (length (d_slice s) + length ms) < 2 ^ 63)%N →
  strings_map T (r_strings r) T' → Forall (λ m, is_Some (mp_view T m)) ms →
  ∃ s' es t, ingest s ms r = Ret (s', es, mkRewriter (r_strings r) (r_functions r) t (r_locations r) (r_stacktraces r)) ∧
    table_ok s' ∧ extends s s' ∧ ids_map mp_Id ms (mp_view T) (mp_view T') t (d_slice s').
Proof.
  intros Hok Hids Hlen Hmap Hviews.
  destruct (ingest_rewritten s ms r) as (s' & es & t & Heq & [I1 I2 I3 I4]); [done|done| | |].
  { by apply (distinct_ids_old mp_Id). }
  { intros i m Hm. destruct (Forall_lookup_1 _ _ _ _ Hviews Hm) as [v Hv].
    destruct (mapping_rewrite_view T r T' m v Hmap Hv) as (m' & ? & Hid & ?). exists m'.
    split; [done|]. unfold old_id. simpl. by rewrite Hid. }
  exists s', es, t. split_and!; [exact Heq|done|done|].
  intros m v (i & Hi)%list_elem_of_lookup Hv. destruct (I4 _ _ Hi) as (e' & y & p & g & Hre & _ & _ & Hp & Hp0 & Hg & Hk).
  destruct (mapping_rewrite_view T r T' m v Hmap Hv) as (e2 & Hre2 & _ & Hv2).
  assert (e2 = e') as -> by (simpl in Hre; congruence).
  destruct (rewrite_slot (d_slice s') t (mp_Id m) p g) as [Hr Hs]; [lia|exact Hp|done|done|].
  exists (Z.to_N p), g. split_and!; [done|done|]. by rewrite (mp_view_key T' g e' Hk).
Qed.

(** *** Locations *)

Lemma to_u64_i64 a b : to_u64 a = to_u64 b → i64 a = i64 b.
Proof.
  unfold to_u64, i64. intros Hab.
  pose proof (Z.mod_pos_bound a (2 ^ 64) eq_refl). pose proof (Z.mod_pos_bound b (2 ^ 64) eq_refl).
  assert (Hm : (a `mod` 2 ^ 64 = b `mod` 2 ^ 64)%Z) by lia.
  by rewrite <- (Zplus_mod_idemp_l a), <- (Zplus_mod_idemp_l b), Hm.
Qed.

Lemma line_words_inj (a b : list Line) :
  line_words a = line_words b →
  Forall2 (λ x y, ln_FunctionId x = ln_FunctionId y ∧ i64 (ln_Line x) = i64 (ln_Line y)) a b.
Proof.
  revert b. induction a as [|x a IH]; intros [|y b]; unfold line_words; simpl; try done.
  intros [= Hf Hl Hr]. constructor; [split; [done|by apply to_u64_i64]|by apply IH].
Qed.

(** The lines of no two locations in play collide under the hash. *)
Definition lines_hash_ok (ys slots : list Location) : Prop :=
  ∀ y g, y ∈ ys → g ∈ slots →
    hash_words (line_words (lc_Line y)) = hash_words (line_words (lc_Line g)) →
    line_words (lc_Line y) = line_words (lc_Line g).

Lemma loc_view_words T fun_of l l' :
  lc_Address l = lc_Address l' → line_words (lc_Line l) = line_words (lc_Line l') →
  loc_view T fun_of l = loc_view T fun_of l'.
Proof.
  intros Ha Hw%line_words_inj. unfold loc_view. rewrite Ha. f_equal.
  induction Hw as [|x y a b [Hf Hl] _ IH]; [done|]. simpl. rewrite IH. unfold line_view. by rewrite Hf, Hl.
Qed.

Definition mapping_id (r : rewriter) (l : Location) : option N :=
  if (lc_MappingId l =? 0)%N then Some 0%N
  else match rewriteUint64 (r_mappings r) (lc_MappingId l) with Ret x => Some x | _ => None end.

(** A location of the profile, its mapping already a slot of the head. *)
Definition p_loc (T : list string) (fs : list Function) (r : rewriter) (l : Location) : option (N * list (fview * Z) * N) :=
  v ← loc_view T (find_id fn_Id fs) l; m ← mapping_id r l; Some (v, m).

Definition h_loc (T : list string) (F : list Function) (l : Location) : option (N * list (fview * Z) * N) :=
  v ← loc_view T (slot F) l; Some (v, lc_MappingId l).

Lemma lines_rewrite_view T fs r T' F' ls v :
  ids_map fn_Id fs (fn_view T) (fn_view T') (r_functions r) F' →
  mapM (line_view T (find_id fn_Id fs)) ls = Some v →
  ∃ ls', omapM (line_rewrite r) ls = Ret ls' ∧ mapM (line_view T' (slot F')) ls' = Some v.
Proof.
  intros Hmap. revert v. induction ls as [|l ls IH]; intros v Hv; simpl in *.
  - exists []. done.
  - apply bind_Some in Hv as (x & Hx & (xs & Hxs & [= <-])%bind_Some).
    apply bind_Some in Hx as (f & Hf & (fv & Hfv & [= <-])%bind_Some).
    apply find_id_Some in Hf as [Hin Hid]. destruct (Hmap _ _ Hin Hfv) as (q & g & Hq & Hs & Hg).
    destruct (IH _ Hxs) as (ls' & -> & Hls'). exists (mkLine q (ln_Line l) :: ls'). unfold line_rewrite.
    rewrite <- Hid, Hq. split; [done|]. apply mapM_Some. constructor; [|by apply mapM_Some].
    unfold line_view. simpl. rewrite Hs. simpl. by rewrite Hg.
Qed.

Lemma location_rewrite_view T fs r T' F' l v :
  ids_map fn_Id fs (fn_view T) (fn_view T') (r_functions r) F' →
  p_loc T fs r l = Some v →
  ∃ l', location_rewrite r l = Ret l' ∧ lc_Id l' = lc_Id l ∧ h_loc T' F' l' = Some v.
Proof.
  intros Hmap Hp. unfold p_loc, mapping_id, loc_view in Hp.
  apply bind_Some in Hp as (lv & (lines & Hlines & [= <-])%bind_Some & (m & Hm & [= <-])%bind_Some).
  destruct (lines_rewrite_view _ _ _ _ _ _ _ Hmap Hlines) as (ls' & Hls' & Hv'). unfold location_rewrite.
  destruct (lc_MappingId l =? 0)%N eqn:E; [|destruct (rewriteUint64 _ _); [|done..]]; injection Hm as <-;
    simpl; rewrite Hls'; simpl; (eexists; split; [done|]; split; [done|]); unfold h_loc, loc_view; simpl; by rewrite Hv'.
Qed.

Lemma ingest_locations (s : dslice Location locationsKey) (ls : list Location) r T fs T' F' :
  table_ok s → distinct_ids lc_Id ls → (N.of_nat (length (d_slice s) + length ls) < 2 ^ 63)%N →
  ids_map fn_Id fs (fn_view T) (fn_view T') (r_functions r) F' → Forall (λ l, is_Some (p_loc T fs r l)) ls →
  ∃ s' es t, ingest s ls r = Ret (s', es, mkRewriter (r_strings r) (r_functions r) (r_mappings r) t (r_stacktraces r)) ∧
    table_ok s' ∧ extends s s' ∧
    (∀ l, l ∈ ls → ∃ q, rewriteUint64 t (lc_Id l) = Ret q) ∧
    (lines_hash_ok es (d_slice s') → ids_map lc_Id ls (p_loc T fs r) (h_loc T' F') t (d_slice s')).
Proof.
  intros Hok Hids Hlen Hmap Hviews.
  destruct (ingest_rewritten s ls r) as (s' & es & t & Heq & [I1 I2 I3 I4]); [done|done| | |].
  { by apply (distinct_ids_old lc_Id). }
  { intros i l Hl. destruct (Forall_lookup_1 _ _ _ _ Hviews Hl) as [v Hv].
    destruct (location_rewrite_view T fs r T' F' l v Hmap Hv) as (l' & ? & Hid & ?). exists l'.
    split; [done|]. unfold old_id. simpl. by rewrite Hid. }
  assert (Hslot : ∀ l i, ls !! i = Some l → ∃ e' y p g, location_rewrite r l = Ret e' ∧ y ∈ es ∧ same_elem e' y ∧
    g ∈ d_slice s' ∧ location_key g = location_key e' ∧
    rewriteUint64 t (lc_Id l) = Ret (Z.to_N p) ∧ slot (d_slice s') (Z.to_N p) = Some g).
  { intros l i Hi. destruct (I4 _ _ Hi) as (e' & y & p & g & Hre & Hy & Hsame & Hp & Hp0 & Hg & Hk).
    destruct (rewrite_slot (d_slice s') t (lc_Id l) p g) as [Hr Hs]; [lia|exact Hp|done|done|].
    exists e', y, p, g. split_and!; try done; by eapply list_elem_of_lookup_2. }
  exists s', es, t. split_and!; [exact Heq|done|done| |].
  - intros l (i & Hi)%list_elem_of_lookup. destruct (Hslot _ _ Hi) as (? & ? & p & ? & ? & ? & ? & ? & ? & ? & ?). eauto.
  - intros Hhash l v (i & Hi)%list_elem_of_lookup Hv.
    destruct (Hslot _ _ Hi) as (e' & y & p & g & Hre & Hy & Hsame & Hg & Hk & Hr & Hs).
    destruct (location_rewrite_view T fs r T' F' l v Hmap Hv) as (e2 & Hre2 & _ & Hv2).
    assert (e2 = e') as -> by congruence. exists (Z.to_N p), g. split_and!; [done|done|].
    assert (Hlines : lc_Line y = lc_Line e') by (apply Hsame; done).
    injection Hk as Hk1 Hk2 Hk3. rewrite <- Hlines in Hk3.
    rewrite <- Hv2. unfold h_loc. rewrite Hk1, (loc_view_words _ _ g e'); [done|done|].
    rewrite <- Hlines. symmetry. by apply Hhash.
Qed.

(** *** Stack traces *)

(** No two stack traces in play collide under the hash. *)
Definition stacks_hash_ok (ys slots : list Stacktrace) : Prop :=
  ∀ y g, y ∈ ys → g ∈ slots → stacktrace_key y = stacktrace_key g → st_LocationIDs y = st_LocationIDs g.

Lemma omapM_total {A B} (f : A → outcome B) l : (∀ x, x ∈ l → ∃ y, f x = Ret y) → ∃ l', omapM f l = Ret l'.
Proof.
  induction l as [|x l IH]; intros Hf; simpl; [eauto|].
  destruct (Hf x) as [y ->]; [set_solver|]. destruct IH as [l' ->]; [set_solver|]. simpl. eauto.
Qed.

Lemma stack_rewrite_view T fs ls r T' F' L' st v st' :
  ids_map lc_Id ls (p_loc T fs r) (h_loc T' F') (r_locations r) L' →
  (∀ l, l ∈ ls → is_Some (p_loc T fs r l)) →
  stack_view T (find_id fn_Id fs) (find_id lc_Id ls) st = Some v →
  stacktrace_rewrite r st = Ret st' → stack_view T' (slot F') (slot L') st' = Some v.
Proof.
  intros Hmap Hloc Hv Hre. unfold stacktrace_rewrite in Hre.
  apply obind_ret in Hre as (ids & Hids & [= <-]). unfold stack_view in *. simpl.
  eapply (mapM_impl _ _ (λ a b, rewriteUint64 (r_locations r) a = Ret b)); [|by apply omapM_ret|exact Hv].
  intros a b c Hab Hc. apply bind_Some in Hc as (l & [Hin Hid]%find_id_Some & Hc).
  destruct (Hloc _ Hin) as [x Hx]. destruct (Hmap _ _ Hin Hx) as (q & g & Hq & Hs & Hg).
  assert (q = b) as -> by congruence. rewrite Hs. simpl.
  unfold p_loc, h_loc in *. rewrite Hc in Hx. simpl in Hx. apply bind_Some in Hx as (m & _ & [= <-]).
  by apply bind_Some in Hg as (y & Hy & [= -> _]).
Qed.

Lemma ingest_stacktraces (s : dslice Stacktrace N) (sts : list Stacktrace) r T fs ls T' F' L' :
  table_ok s → (N.of_nat (length sts) < 2 ^ 63)%N → (N.of_nat (length (d_slice s) + length sts) < 2 ^ 63)%N →
  (∀ l, l ∈ ls → is_Some (p_loc T fs r l)) → (∀ l, l ∈ ls → ∃ q, rewriteUint64 (r_locations r) (lc_Id l) = Ret q) →
  Forall (λ st, is_Some (stack_view T (find_id fn_Id fs) (find_id lc_Id ls) st)) sts →
  ∃ s' es t, ingest s sts r = Ret (s', es, mkRewriter (r_strings r) (r_functions r) (r_mappings r) (r_locations r) t) ∧
    table_ok s' ∧ extends s s' ∧
    ∀ i st, sts !! i = Some st → ∃ p g, t !! Z.of_nat i = Some p ∧ (0 ≤ p < 2 ^ 63)%Z ∧ slot (d_slice s') (Z.to_N p) = Some g ∧
      (stacks_hash_ok es (d_slice s') → ids_map lc_Id ls (p_loc T fs r) (h_loc T' F') (r_locations r) L' →
       stack_view T' (slot F') (slot L') g = stack_view T (find_id fn_Id fs) (find_id lc_Id ls) st).
Proof.
  intros Hok Hlen1 Hlen Hloc Hrw Hviews.
  destruct (positions_distinct (K := N) sts) as [Hd Hid]; [done|done|].
  destruct (ingest_rewritten s sts r) as (s' & es & t & Heq & [I1 I2 I3 I4]); [done|done|done| |].
  { intros i st Hst. destruct (Forall_lookup_1 _ _ _ _ Hviews Hst) as [v Hv].
    destruct (omapM_total (rewriteUint64 (r_locations r)) (st_LocationIDs st)) as [ids Hids].
    { intros id (j & Hj)%list_elem_of_lookup. apply mapM_Some in Hv.
      destruct (Forall2_lookup_l _ _ _ _ _ Hv Hj) as (x & _ & (l & [Hin <-]%find_id_Some & _)%bind_Some). auto. }
    exists (mkStacktrace ids). simpl. unfold stacktrace_rewrite. by rewrite Hids. }
  exists s', es, t. split_and!; [exact Heq|done|done|].
  intros i st Hi. destruct (I4 _ _ Hi) as (e' & y & p & g & Hre & Hy & Hsame & Hp & Hp0 & Hg & Hk).
  rewrite (Hid _ _ Hi) in Hp. apply lookup_lt_Some in Hg as Hlt. exists p, g. split_and!; [done|done|lia| |].
  { unfold slot. by rewrite Z_N_nat. }
  intros Hhash Hmap. destruct (Forall_lookup_1 _ _ _ _ Hviews Hi) as [v Hv]. rewrite Hv.
  rewrite <- (stack_rewrite_view _ _ _ _ _ _ _ _ _ _ Hmap Hloc Hv Hre). unfold stack_view. f_equal.
  assert (Hy' : st_LocationIDs y = st_LocationIDs e') by (apply Hsame; done).
  rewrite <- Hy'. symmetry. apply Hhash; [by eapply list_elem_of_lookup_2..|].
  unfold stacktrace_key. rewrite Hy'. symmetry. exact Hk.
Qed.
End Steps.

(** ** The whole chain *)

Section Chain.
Context `{Sizeof, Hasher}.

(** The slots fit in an [int64]. *)
Record fits (h : symbols) (p : psymbols) : Prop := {
  fits_mappings : (N.of_nat (length (d_slice (sy_mappings h)) + length (ps_mappings p)) < 2 ^ 63)%N;
  fits_functions : (N.of_nat (length (d_slice (sy_functions h)) + length (ps_functions p)) < 2 ^ 63)%N;
  fits_locations : (N.of_nat (length (d_slice (sy_locations h)) + length (ps_locations p)) < 2 ^ 63)%N;
  fits_stacks : (N.of_nat (length (d_slice (sy_stacktraces h)) + length (ps_stacks p)) < 2 ^ 63)%N }.

Record symbols_extends (h h' : symbols) : Prop := {
  ext_strings : extends (sy_strings h) (sy_strings h');
  ext_mappings : extends (sy_mappings h) (sy_mappings h');
  ext_functions : extends (sy_functions h) (sy_functions h');
  ext_locations : extends (sy_locations h) (sy_locations h');
  ext_stacktraces : extends (sy_stacktraces h) (sy_stacktraces h') }.

Global Instance symbols_extends_preorder : PreOrder symbols_extends.
Proof.
  split; [split; done|]. intros h1 h2 h3 [] []. split; by etrans.
Qed.

(** No hash of the symbols [p'] (as the tables leave them) collides with one in the
    tables. *)
Definition no_collision (h' : symbols) (p' : psymbols) : Prop :=
  lines_hash_ok (ps_locations p') (d_slice (sy_locations h')) ∧
  stacks_hash_ok (ps_stacks p') (d_slice (sy_stacktraces h')).

Lemma h_stack_view_extends h h' g v :
  symbols_extends h h' → h_stack_view h g = Some v → h_stack_view h' g = Some v.
Proof. intros [[? _] _ [? _] [? _] _]. by apply stack_view_prefix. Qed.

Record tables_spec (h : symbols) (p : psymbols) (h' : symbols) (p' : psymbols) (r : rewriter) : Prop := {
  tb_ok : symbols_ok h';
  tb_ext : symbols_extends h h';
  tb_stacktraces : sy_stacktraces h' = sy_stacktraces h;
  tb_strings : ps_strings p' = ps_strings p;
  tb_stacks : ps_stacks p' = ps_stacks p;
  tb_strings_map : strings_map (ps_strings p) (r_strings r) (d_slice (sy_strings h'));
  tb_mappings_map : ids_map mp_Id (ps_mappings p) (mp_view (ps_strings p)) (mp_view (d_slice (sy_strings h')))
    (r_mappings r) (d_slice (sy_mappings h'));
  tb_locs : ∀ l, l ∈ ps_locations p → is_Some (p_loc (ps_strings p) (ps_functions p) r l);
  tb_locations_rw : ∀ l, l ∈ ps_locations p → ∃ q, rewriteUint64 (r_locations r) (lc_Id l) = Ret q;
  tb_locations_map : lines_hash_ok (ps_locations p') (d_slice (sy_locations h')) →
    ids_map lc_Id (ps_locations p) (p_loc (ps_strings p) (ps_functions p) r)
      (h_loc (d_slice (sy_strings h')) (d_slice (sy_functions h'))) (r_locations r) (d_slice (sy_locations h')) }.

Lemma p_loc_wf p r T' F' l :
  psymbols_wf p → ids_map mp_Id (ps_mappings p) (mp_view (ps_strings p)) (mp_view T') (r_mappings r) F' →
  l ∈ ps_locations p → is_Some (p_loc (ps_strings p) (ps_functions p) r l).
Proof.
  intros Hwf Hmap Hl. destruct (proj1 (Forall_forall _ _) (wf_locations p Hwf) l Hl) as [[v Hv] Hm].
  unfold p_loc, mapping_id. rewrite Hv. simpl. destruct (lc_MappingId l =? 0)%N eqn:E; [by eexists|]. bool_prop.
  destruct (Hm E) as [m [Hin Hid]%find_id_Some].
  destruct (proj1 (Forall_forall _ _) (wf_mappings p Hwf) m Hin) as [mv Hmv].
  destruct (Hmap _ _ Hin Hmv) as (q & g & Hq & _). rewrite <- Hid, Hq. by eexists.
Qed.

Lemma ingest_tables_spec h p :
  symbols_ok h → psymbols_wf p → fits h p →
  ∃ h' p' r, ingest_tables h p = Ret (h', p', r) ∧ tables_spec h p h' p' r.
Proof.
  intros [O1 O2 O3 O4 O5] Hwf [F1 F2 F3 F4]. unfold ingest_tables.
  destruct (ingest_strings (sy_strings h) (ps_strings p) new_rewriter O1 (wf_strings p Hwf)) as (ss & t & -> & A1 & A2 & A3).
  simpl. set (r1 := mkRewriter t _ _ _ _).
  destruct (ingest_mappings (sy_mappings h) (ps_mappings p) r1 (ps_strings p) (d_slice ss) O2
    (wf_mapping_ids p Hwf) F1 A3 (wf_mappings p Hwf)) as (ms & ml & tm & -> & B1 & B2 & B3).
  simpl. set (r2 := mkRewriter _ _ tm _ _).
  destruct (ingest_functions (sy_functions h) (ps_functions p) r2 (ps_strings p) (d_slice ss) O3
    (wf_function_ids p Hwf) F2 A3 (wf_functions p Hwf)) as (fs & fl & tf & -> & C1 & C2 & C3).
  simpl. set (r3 := mkRewriter _ tf _ _ _).
  assert (Hloc : ∀ l, l ∈ ps_locations p → is_Some (p_loc (ps_strings p) (ps_functions p) r3 l)).
  { intros l Hl. by eapply p_loc_wf. }
  destruct (ingest_locations (sy_locations h) (ps_locations p) r3 (ps_strings p) (ps_functions p) (d_slice ss) (d_slice fs) O4
    (wf_location_ids p Hwf) F3 C3) as (ls & ll & tl & -> & D1 & D2 & D3 & D4); [by apply Forall_forall|].
  simpl. do 3 eexists. split; [done|]. split; simpl; try done; by split.
Qed.

Lemma ingest_symbols_spec h p :
  symbols_ok h → psymbols_wf p → fits h p →
  ∃ h' p' r, ingest_symbols h p = Ret (h', p', r) ∧ symbols_ok h' ∧ symbols_extends h h' ∧
    ∀ i st, ps_stacks p !! i = Some st → ∃ sid g,
      r_stacktraces r !! Z.of_nat i = Some sid ∧ (0 ≤ sid < 2 ^ 63)%Z ∧
      slot (d_slice (sy_stacktraces h')) (to_u64 sid) = Some g ∧
      (no_collision h' p' → h_stack_view h' g = p_stack_view p st).
Proof.
  intros Hok Hwf Hfit. destruct (ingest_tables_spec h p Hok Hwf Hfit) as (h1 & p1 & r1 & Heq & Ht).
  unfold ingest_symbols. rewrite Heq. simpl. destruct Ht as [T1 T2 T3 T4 T5 T6 T7 T8 T9 T10]. unfold ingest_stacks.
  rewrite T5, T3.
  destruct (ingest_stacktraces (sy_stacktraces h) (ps_stacks p) r1 (ps_strings p) (ps_functions p) (ps_locations p)
      (d_slice (sy_strings h1)) (d_slice (sy_functions h1)) (d_slice (sy_locations h1))) as (s' & es & t & -> & E1 & E2 & E3).
  { apply Hok. } { apply Hwf. } { apply Hfit. } { done. } { done. } { apply Hwf. }
  simpl. do 3 eexists. split; [done|]. destruct T1, T2. split_and!; [by split|by split|].
  intros i st Hi. destruct (E3 i st Hi) as (sid & g & Hsid & Hr & Hg & Hview). exists sid, g.
  rewrite to_u64_small by lia. split_and!; [done|lia|lia|done|].
  intros [Hl Hs]. simpl in *. apply Hview; auto.
Qed.
End Chain.

(** C20: ingesting a profile's symbols keeps their meaning.  For tables that
    satisfy their invariant and any well-formed profile, the ingestion succeeds,
    keeps the invariant and only appends to the tables, so that every stack trace
    already stored still resolves to what it did.  Each stack trace of the profile
    gets the number of a slot, and unless an xxhash collides, the stack trace in
    that slot resolves, through the head's location, function and string tables, to
    exactly the addresses, line numbers, function names, system names, file names
    and start lines that it had in the profile; this stays so in every later state
    of the tables. *)
Theorem ingest_symbols_keep_meaning `{Sizeof, Hasher} (h : symbols) (p : psymbols) :
  symbols_ok h → psymbols_wf p → fits h p →
  ∃ h' p' r, ingest_symbols h p = Ret (h', p', r) ∧ symbols_ok h' ∧ symbols_extends h h' ∧
    (∀ g v, h_stack_view h g = Some v → h_stack_view h' g = Some v) ∧
    ∀ i st, ps_stacks p !! i = Some st → ∃ sid g,
      r_stacktraces r !! Z.of_nat i = Some sid ∧ (0 ≤ sid < 2 ^ 63)%Z ∧
      (no_collision h' p' → ∀ h'', symbols_extends h' h'' →
         slot (d_slice (sy_stacktraces h'')) (to_u64 sid) = Some g ∧
         h_stack_view h'' g = p_stack_view p st).
Proof.
  intros Hok Hwf Hfit. destruct (ingest_symbols_spec h p Hok Hwf Hfit) as (h' & p' & r & Heq & Hok' & Hext & Hst).
  exists h', p', r. split_and!; [done..| |].
  - intros g v. by apply h_stack_view_extends.
  - intros i st Hi. destruct (Hst i st Hi) as (sid & g & Hsid & Hr & Hslot & Hview). exists sid, g.
    split_and!; [done|lia|lia|]. intros Hc h'' Hext'. specialize (Hview Hc).
    destruct (proj1 (Forall_forall _ _) (wf_stacks p Hwf) st) as [v Hv]; [by eapply list_elem_of_lookup_2|].
    split; [|rewrite Hv in *; by apply (h_stack_view_extends h')].
    destruct (ext_stacktraces h' h'' Hext') as [Hpre _]. by apply (slot_prefix _ _ _ _ Hpre).
Qed.

Section SymbolsExample.
Local Instance example_sizes : Sizeof := {|
  functionSize := 80; mappingSize := 96; lineSize := 48; locationSize := 96; stacktraceSize := 24;
  profileSize := 160; sampleSize := 40; labelSize := 72 |}%N.

(** A digest that adds the bytes with weights. *)
Local Instance example_hasher : Hasher := {|
  Digest := N; hNew := 7%N; hWrite := foldl (λ d b, d * 31 + b)%N; hSum64 := λ d, d |}.

(** Two inlined functions at one address, a second location and two samples. *)
Definition example_psymbols : psymbols := mkPsymbols
  [""; "main.go"; "main"; "run"]
  [mkMapping 1 4096 8192 0 1 0 true true true false]
  [mkFunction 5 2 2 1 10; mkFunction 9 3 3 1 20]
  [mkLocation 3 1 4100 [mkLine 9 21; mkLine 5 11] false; mkLocation 8 0 77 [] false]
  [mkStacktrace [3; 8]; mkStacktrace [8]]%N.

Lemma example_wf : psymbols_wf example_psymbols.
Proof.
  split; try done; try (split; [by apply (bool_decide_unpack _)|by repeat constructor]);
    try (repeat constructor; vm_compute; naive_solver eauto).
Qed.

(** The view of the first stack trace after the ingestion into empty tables. *)
Lemma ingest_symbols_witness :
  ∃ h' p' r sid g, ingest_symbols new_symbols example_psymbols = Ret (h', p', r) ∧
    r_stacktraces r !! 0%Z = Some sid ∧
    (no_collision h' p' → slot (d_slice (sy_stacktraces h')) (to_u64 sid) = Some g ∧
      h_stack_view h' g = Some [(4100, [(mkFview "run" "run" "main.go" 20, 21); (mkFview "main" "main" "main.go" 10, 11)]%Z);
                                (77, [])]%N).
Proof.
  destruct (ingest_symbols_keep_meaning new_symbols example_psymbols) as (h' & p' & r & Heq & Hok & Hext & _ & Hst).
  - split; apply table_ok_Init.
  - apply example_wf.
  - by split.
  - destruct (Hst 0 (mkStacktrace [3; 8]%N)) as (sid & g & Hsid & _ & Hv); [done|].
    exists h', p', r, sid, g. split_and!; [done|done|]. intros Hc. exact (Hv Hc h' (reflexivity h')).
Defined.
End SymbolsExample.

(** Two callers that both miss the string ["b"] in their first pass. *)
Lemma ingest_interleavings_witness :
  ∃ s cs, rtc caller_step (Init : dslice string string, Before <$> [["a"; "b"]; ["b"; "c"]]) (s, cs) ∧
    d_slice s = ["a"; "b"; "c"] ∧ table_ok s ∧
    (∀ c elems rm, cs !! c = Some (After elems rm) → ∀ i e, elems !! i = Some e → resolved s rm i e).
Proof.
  eassert (Hrun : rtc caller_step (Init : dslice string string, Before <$> [["a"; "b"]; ["b"; "c"]]) (_, _)).
  { eapply rtc_l; [apply (step_find _ _ 0); reflexivity|].
    eapply rtc_l; [apply (step_find _ _ 1); reflexivity|].
    eapply rtc_l; [eapply (step_append _ _ 0); reflexivity|].
    eapply rtc_l; [eapply (step_append _ _ 1); reflexivity|]. apply rtc_refl. }
  destruct (ingest_interleavings [["a"; "b"]; ["b"; "c"]] _ _ ltac:(repeat constructor; by apply (positions_distinct (K := string))) Hrun)
    as (Hok & _ & Hres & _).
  eexists _, _. split_and!; [exact Hrun|reflexivity|exact Hok|exact Hres].
Defined.
