(* ===== verification/Delta.v ===== *)
(** * Delta profiles and the pprof label cache

    [pkg/phlaredb/delta.go] and [pkg/phlaredb/profile_labels.go].  Samples are
    shared by pointer between the profiles of the head and the cumulative samples
    kept per series, so they live in an explicit store and profiles hold
    references into it. *)

From S2P Require Import Prelude Labels Dedup Symbols.

(** ** Samples and profiles of the head *)

(** [profilev1.Label]: string references and a number. *)
Record PLabel := mkPLabel { pl_Key : Z; pl_Str : Z; pl_Num : Z; pl_NumUnit : Z }.

Global Instance PLabel_eq : EqDecision PLabel.
Proof. solve_decision. Defined.

(** [schemav1.Sample]. *)
Record Sample := mkSample { sa_StacktraceID : N; sa_Value : Z; sa_Labels : list PLabel }.

(** A reference is an address of the store; allocation appends. *)
Abbreviation ref := nat (only parsing).
Abbreviation store := (list Sample) (only parsing).

Definition set_value (H : store) (r : ref) (v : Z) : store :=
  alter (λ s, mkSample (sa_StacktraceID s) v (sa_Labels s)) r H.

Definition deref (H : store) (r : ref) : outcome Sample := of_option (H !! r).

(** [schemav1.Profile]. *)
Record SProfile := mkSProfile {
  sp_ID : string; sp_SeriesIndex : N; sp_SeriesFingerprint : N; sp_Samples : list ref;
  sp_DropFrames : Z; sp_KeepFrames : Z; sp_TimeNanos : Z; sp_DurationNanos : Z; sp_Period : Z;
  sp_Comments : list Z; sp_DefaultSampleType : Z }.

Definition with_samples (p : SProfile) (rs : list ref) : SProfile :=
  mkSProfile (sp_ID p) (sp_SeriesIndex p) (sp_SeriesFingerprint p) rs (sp_DropFrames p) (sp_KeepFrames p)
    (sp_TimeNanos p) (sp_DurationNanos p) (sp_Period p) (sp_Comments p) (sp_DefaultSampleType p).

(** ** [deltaSamples] *)

(** [stacktraces[h.StacktraceID] = h] for each [h]; the last one wins. *)
Fixpoint index_stacks (H : store) (highest : list ref) (m : gmap N ref) : outcome (gmap N ref) :=
  match highest with
  | [] => Ret m
  | h :: highest => obind (deref H h) (λ s, index_stacks H highest (<[sa_StacktraceID s := h]> m))
  end.

Fixpoint delta_loop (m : gmap N ref) (H : store) (highest new : list ref) : outcome (store * list ref) :=
  match new with
  | [] => Ret (H, highest)
  | n :: new =>
      obind (deref H n) (λ nv,
        match m !! sa_StacktraceID nv with
        | Some s =>
            obind (deref H s) (λ sv,
              let H' :=
                if (sa_Value sv <=? sa_Value nv)%Z then
                  let newMax := sa_Value nv in
                  set_value (set_value H n (i64 (sa_Value nv - sa_Value sv))) s newMax
                else set_value H s (sa_Value nv) in
              delta_loop m H' highest new)
        | None => delta_loop m H (highest ++ [n]) new
        end)
  end.

Definition deltaSamples (H : store) (highest new : list ref) : outcome (store * list ref) :=
  obind (index_stacks H highest ∅) (λ m, delta_loop m H highest new).

(** ** [computeDelta] *)

Definition memoryProfileName : string := "memory".
Definition allocObjectTypeName : string := "alloc_objects".
Definition allocSpaceTypeName : string := "alloc_space".

Definition isDelta (lbs : Labels) : bool :=
  if String.eqb (Get lbs LabelNameMetricName) memoryProfileName then
    let ty := Get lbs LabelNameType in
    String.eqb ty allocObjectTypeName || String.eqb ty allocSpaceTypeName
  else false.

(** [highestSamples], by series fingerprint. *)
Abbreviation deltaProfiles := (gmap N (list ref)) (only parsing).

Fixpoint nonzero (H : store) (rs : list ref) : outcome (list ref) :=
  match rs with
  | [] => Ret []
  | r :: rs =>
      obind (deref H r) (λ s,
      obind (nonzero H rs) (λ rs', Ret (if (sa_Value s =? 0)%Z then rs' else r :: rs')))
  end.

(** [None] is the nil profile: nothing is ingested. *)
Definition computeDelta (d : deltaProfiles) (H : store) (ps : SProfile) (lbs : Labels)
    : outcome (deltaProfiles * store * option SProfile) :=
  if isDelta lbs then
    match d !! sp_SeriesFingerprint ps with
    | None => Ret (<[sp_SeriesFingerprint ps := sp_Samples ps]> d, H, None)
    | Some [] => Ret (d, H, Some ps)
    | Some lastSamples =>
        obind (deltaSamples H lastSamples (sp_Samples ps)) (λ '(H', highest),
        obind (nonzero H' (sp_Samples ps)) (λ rs,
          Ret (<[sp_SeriesFingerprint ps := highest]> d, H', Some (with_samples ps rs))))
    end
  else Ret (d, H, Some ps).

(** ** The label cache *)

Record labelKey := mkLabelKey { k_Key : Z; k_Str : Z; k_Num : Z; k_NumUnit : Z }.

Global Instance labelKey_eq : EqDecision labelKey.
Proof. solve_decision. Defined.
Global Instance labelKey_countable : Countable labelKey.
Proof.
  apply (inj_countable' (λ k, (k_Key k, k_Str k, k_Num k, k_NumUnit k)) (λ '(a, b, c, d), mkLabelKey a b c d)).
  by intros [].
Defined.

Record labelCache := mkLabelCache { lcache : gmap labelKey PLabel; lc_size : N }.

Definition label_init : labelCache := mkLabelCache ∅ 0.

Definition label_key (t : stringConversionTable) (l : PLabel) : outcome labelKey :=
  obind (string_rewrite t (pl_Key l)) (λ k,
  obind (string_rewrite t (pl_NumUnit l)) (λ u,
  obind (string_rewrite t (pl_Str l)) (λ s, Ret (mkLabelKey k s (pl_Num l) u)))).

Fixpoint rewriteLabels `{Sizeof} (lc : labelCache) (t : stringConversionTable) (ls : list PLabel)
    : outcome (labelCache * list PLabel) :=
  match ls with
  | [] => Ret (lc, [])
  | l :: ls =>
      obind (label_key t l) (λ k,
        let '(lc', l') :=
          match lcache lc !! k with
          | Some l' => (lc, l')
          | None =>
              let l' := mkPLabel (k_Key k) (k_Str k) (k_Num k) (k_NumUnit k) in
              (mkLabelCache (<[k := l']> (lcache lc)) (u64 (lc_size lc + labelSize)), l')
          end in
        obind (rewriteLabels lc' t ls) (λ '(lc'', out), Ret (lc'', l' :: out)))
  end.

(** ** Specification: cumulative values per stack trace *)

(** The references [rs] hold one sample per stack trace, with the values [cum]. *)
Record rep (H : store) (rs : list ref) (cum : gmap N Z) : Prop := {
  rep_alive : ∀ r, r ∈ rs → is_Some (H !! r);
  rep_inj : ∀ r r' s s', r ∈ rs → r' ∈ rs → H !! r = Some s → H !! r' = Some s' →
    sa_StacktraceID s = sa_StacktraceID s' → r = r';
  rep_values : ∀ sid v, cum !! sid = Some v ↔
    ∃ r s, r ∈ rs ∧ H !! r = Some s ∧ sa_StacktraceID s = sid ∧ sa_Value s = v }.

(** The value a sample keeps: the growth since the last cumulative value, or its own
    value after a reset or for a new stack trace. *)
Definition delta_of (cum : gmap N Z) (s : Sample) : Z :=
  match cum !! sa_StacktraceID s with
  | Some h => if (h <=? sa_Value s)%Z then i64 (sa_Value s - h) else sa_Value s
  | None => sa_Value s
  end.

Definition observe (cum : gmap N Z) (ss : list Sample) : gmap N Z :=
  foldl (λ c s, <[sa_StacktraceID s := sa_Value s]> c) cum ss.

Definition with_value (s : Sample) (v : Z) : Sample := mkSample (sa_StacktraceID s) v (sa_Labels s).

Lemma set_value_eq H r s v : H !! r = Some s → set_value H r v !! r = Some (with_value s v).
Proof. intros Hr. unfold set_value. by rewrite list_lookup_alter_eq, Hr. Qed.

Lemma set_value_ne H r r' v : r ≠ r' → set_value H r v !! r' = H !! r'.
Proof. intros. by apply list_lookup_alter_ne. Qed.

(** Writing the value of one stack trace. *)
Lemma rep_set H rs cum r s v :
  rep H rs cum → r ∈ rs → H !! r = Some s → rep (set_value H r v) rs (<[sa_StacktraceID s := v]> cum).
Proof.
  intros [R1 R2 R3] Hr Hs.
  assert (Hstack : ∀ q s', set_value H r v !! q = Some s' → ∃ s0, H !! q = Some s0 ∧ sa_StacktraceID s' = sa_StacktraceID s0).
  { intros q s'. destruct (decide (r = q)) as [->|Hne]; [rewrite (set_value_eq _ _ s) by done; intros [= <-]; eauto|].
    rewrite set_value_ne by done. eauto. }
  split.
  - intros q Hq. unfold set_value. destruct (decide (r = q)) as [->|Hne]; [rewrite list_lookup_alter_eq, Hs; by eexists|].
    rewrite list_lookup_alter_ne by done. by apply R1.
  - intros q q' a a' Hq Hq' (b & Hb & ->)%Hstack (b' & Hb' & ->)%Hstack. by apply R2.
  - intros sid w. destruct (decide (sid = sa_StacktraceID s)) as [->|Hne].
    + rewrite lookup_insert_eq. split.
      * intros [= ->]. exists r, (with_value s w). split_and!; [done|by apply set_value_eq|done|done].
      * intros (q & a & Hq & Ha & Hst & <-). destruct (Hstack _ _ Ha) as (b & Hb & Hab).
        assert (q = r) as -> by (apply (R2 q r b s); congruence).
        rewrite (set_value_eq _ _ s) in Ha by done. by injection Ha as <-.
    + rewrite lookup_insert_ne, R3 by done. split; intros (q & a & Hq & Ha & Hst & <-); exists q, a;
        (assert (r ≠ q) by (intros ->; destruct (decide (q = q)); [|done]; try rewrite (set_value_eq _ _ s) in Ha by done; simplify_eq; simpl in *; congruence));
        [rewrite set_value_ne by done|rewrite set_value_ne in Ha by done]; auto.
Qed.

Lemma rep_ext H H' rs cum : (∀ r, r ∈ rs → H' !! r = H !! r) → rep H rs cum → rep H' rs cum.
Proof.
  intros Heq [R1 R2 R3]. split.
  - intros r Hr. rewrite Heq by done. by apply R1.
  - intros r r' s s' Hr Hr'. rewrite !Heq by done. by apply R2.
  - intros sid v. rewrite R3. split; intros (r & s & Hr & Hs & ?); exists r, s; [rewrite Heq by done|rewrite Heq in Hs by done]; auto.
Qed.

Lemma rep_append H rs cum r s :
  rep H rs cum → H !! r = Some s → cum !! sa_StacktraceID s = None →
  rep H (rs ++ [r]) (<[sa_StacktraceID s := sa_Value s]> cum).
Proof.
  intros [R1 R2 R3] Hs Hnone.
  assert (Hfresh : ∀ q a, q ∈ rs → H !! q = Some a → sa_StacktraceID a ≠ sa_StacktraceID s).
  { intros q a Hq Ha Heq. assert (Hc : cum !! sa_StacktraceID s = Some (sa_Value a)) by (apply R3; eauto 10). congruence. }
  split.
  - intros q [Hq| ->%list_elem_of_singleton]%elem_of_app; [by apply R1|eauto].
  - intros q q' a a' [Hq| ->%list_elem_of_singleton]%elem_of_app [Hq'| ->%list_elem_of_singleton]%elem_of_app Ha Ha' Heq;
      [by eapply R2| | |done]; simplify_eq.
    + by destruct (Hfresh _ _ Hq Ha).
    + by destruct (Hfresh _ _ Hq' Ha').
  - intros sid v. destruct (decide (sid = sa_StacktraceID s)) as [->|Hne].
    + rewrite lookup_insert_eq. split.
      * intros [= <-]. exists r, s. set_solver.
      * intros (q & a & [Hq| ->%list_elem_of_singleton]%elem_of_app & Ha & Hst & <-); [|congruence].
        by destruct (Hfresh _ _ Hq Ha).
    + rewrite lookup_insert_ne, R3 by done. split; intros (q & a & Hq & Ha & Hst & <-); exists q, a.
      * split_and!; [set_solver|done..].
      * apply elem_of_app in Hq as [Hq| ->%list_elem_of_singleton]; [done|]. congruence.
Qed.

Lemma index_stacks_spec H rs : ∀ m,
  (∀ r, r ∈ rs → is_Some (H !! r)) →
  (∀ r r' s s', r ∈ rs → r' ∈ rs → H !! r = Some s → H !! r' = Some s' → sa_StacktraceID s = sa_StacktraceID s' → r = r') →
  ∃ m', index_stacks H rs m = Ret m' ∧
    (∀ sid r, m' !! sid = Some r → m !! sid = Some r ∨ r ∈ rs ∧ ∃ s, H !! r = Some s ∧ sa_StacktraceID s = sid) ∧
    (∀ r s, r ∈ rs → H !! r = Some s → m' !! sa_StacktraceID s = Some r) ∧
    (∀ sid, (∀ r s, r ∈ rs → H !! r = Some s → sa_StacktraceID s ≠ sid) → m' !! sid = m !! sid).
Proof.
  induction rs as [|x rs IH]; intros m Halive Hinj; simpl.
  - exists m. split_and!; [done|auto|set_solver|done].
  - destruct (Halive x ltac:(set_solver)) as [a Ha]. unfold deref. rewrite Ha. simpl.
    destruct (IH (<[sa_StacktraceID a := x]> m)) as (m' & -> & Hfrom & Hin & Hout).
    { intros r Hr. apply Halive. set_solver. }
    { intros r r' s s' Hr Hr'. apply Hinj; set_solver. }
    exists m'. split_and!; [done| | |].
    + intros sid r Hr. destruct (Hfrom _ _ Hr) as [Hi|[? ?]]; [|right; set_solver].
      apply lookup_insert_Some in Hi as [[<- <-]|[_ ?]]; [right; split; [set_solver|eauto]|auto].
    + intros r s Hr Hs. destruct (decide (r ∈ rs)) as [Hr'|Hn]; [by apply Hin|].
      assert (r = x) as -> by set_solver. assert (s = a) as -> by congruence.
      rewrite Hout; [apply lookup_insert_eq|]. intros q b Hq Hb Heq. apply Hn.
      assert (q = x) as <- by (apply (Hinj q x b a); set_solver). done.
    + intros sid Hsid. rewrite Hout by (intros r s Hr; apply Hsid; set_solver).
      apply lookup_insert_ne. apply (Hsid x a); [set_solver|done].
Qed.

(** The state before the samples [new] are processed: [m] indexes references of
    [highest], and the new samples are elsewhere. *)
Record loop_pre (m : gmap N ref) (H : store) (highest new : list ref) (ns : list Sample) (cum : gmap N Z) : Prop := {
  lp_rep : rep H highest cum;
  lp_index : ∀ sid r, m !! sid = Some r → r ∈ highest ∧ ∃ s, H !! r = Some s ∧ sa_StacktraceID s = sid;
  lp_new : Forall2 (λ n s, H !! n = Some s) new ns;
  lp_nodup : NoDup new;
  lp_fresh : ∀ n, n ∈ new → (n ∉ highest);
  lp_stacks : NoDup (sa_StacktraceID <$> ns);
  lp_missing : ∀ s, s ∈ ns → m !! sa_StacktraceID s = None → cum !! sa_StacktraceID s = None }.

(** What one sample [n] with the content [a] leads to. *)
Record step_post (m : gmap N ref) (n : ref) (a : Sample) (new : list ref) (ns : list Sample)
    (H : store) (highest : list ref) (cum : gmap N Z) (H1 : store) (hi1 : list ref) : Prop := {
  so_pre : loop_pre m H1 hi1 new ns (<[sa_StacktraceID a := sa_Value a]> cum);
  so_value : H1 !! n = Some (with_value a (delta_of cum a));
  so_frame : ∀ r, r ≠ n → (∀ sid, m !! sid ≠ Some r) → H1 !! r = H !! r;
  so_prefix : highest `prefix_of` hi1;
  so_from : ∀ r, r ∈ hi1 → r ∈ highest ∨ r = n }.

Lemma Forall2_impl_in {A B} (P Q : A → B → Prop) l k :
  Forall2 P l k → (∀ x y, x ∈ l → y ∈ k → P x y → Q x y) → Forall2 Q l k.
Proof. induction 1; constructor; set_solver. Qed.

Section Step.
Context (m : gmap N ref) (H : store) (highest new : list ref) (n : ref) (a : Sample) (ns : list Sample) (cum : gmap N Z).
Context (Hpre : loop_pre m H highest (n :: new) (a :: ns) cum).

Lemma step_head : H !! n = Some a ∧ (n ∉ highest) ∧ (n ∉ new) ∧
  (∀ s, s ∈ ns → sa_StacktraceID s ≠ sa_StacktraceID a).
Proof.
  destruct Hpre as [_ _ Hnew [Hn _]%NoDup_cons Hfresh [Hast _]%NoDup_cons _].
  inversion Hnew; subst. split_and!; [done|apply Hfresh; set_solver|done|].
  intros s Hs Heq. apply Hast. apply list_elem_of_fmap. eauto.
Qed.

(** The remaining samples after any change that keeps them and the index. *)
Lemma step_pre H1 hi1 :
  rep H1 hi1 (<[sa_StacktraceID a := sa_Value a]> cum) → highest `prefix_of` hi1 →
  (∀ r, r ∈ hi1 → r ∈ highest ∨ r = n) → (∀ r, r ∈ new → H1 !! r = H !! r) →
  (∀ r s, r ∈ highest → H !! r = Some s → ∃ s', H1 !! r = Some s' ∧ sa_StacktraceID s' = sa_StacktraceID s) →
  loop_pre m H1 hi1 new ns (<[sa_StacktraceID a := sa_Value a]> cum).
Proof.
  intros Hrep Hp Hfrom Hkeep Hstack. destruct step_head as (_ & _ & Hnn & Hothers).
  destruct Hpre as [_ Hidx Hnew [_ Hnd]%NoDup_cons Hfresh [_ Hst]%NoDup_cons Hmiss]. inversion Hnew; subst. split; auto.
  - intros sid r Hr. destruct (Hidx _ _ Hr) as (Hh & s & Hs & <-). destruct (Hstack _ _ Hh Hs) as (s' & ? & ?).
    split; [|eauto]. destruct Hp as [k ->]. set_solver.
  - eapply Forall2_impl_in; [done|]. intros x y Hx _ Hy. simpl in *. by rewrite Hkeep.
  - intros r Hr Hhi. destruct (Hfrom _ Hhi) as [?| ->]; [|done]. by apply (Hfresh r); [set_solver|].
  - intros s Hs Hms. rewrite lookup_insert_ne by (symmetry; by apply Hothers). apply Hmiss; [set_solver|done].
Qed.

(** A stack trace seen before, whatever is written to [n]. *)
Lemma step_hit sr sv x :
  m !! sa_StacktraceID a = Some sr → H !! sr = Some sv → x = delta_of cum a →
  step_post m n a new ns H highest cum (set_value (set_value H n x) sr (sa_Value a)) highest.
Proof.
  intros Em Hsv ->. destruct step_head as (Ha & Hnh & Hnn & _).
  destruct (lp_index _ _ _ _ _ _ Hpre _ _ Em) as (Hsr & s & Hs & Hsid). assert (s = sv) as -> by congruence.
  assert (Hne : sr ≠ n) by (by intros ->).
  assert (Hkeep : ∀ r, r ≠ n → r ≠ sr → set_value (set_value H n (delta_of cum a)) sr (sa_Value a) !! r = H !! r).
  { intros r ??. by rewrite !set_value_ne. }
  split; [apply step_pre; auto| | |done|auto].
  - rewrite <- Hsid. apply (rep_set _ _ _ sr sv); [|done|by rewrite set_value_ne].
    eapply rep_ext; [|apply Hpre]. intros r Hr. apply set_value_ne. by intros ->.
  - intros r Hr. apply Hkeep; [by intros ->|]. intros ->. by apply (lp_fresh _ _ _ _ _ _ Hpre sr); [set_solver|].
  - intros r b Hr Hb. destruct (decide (r = sr)) as [->|Hr1]; [|rewrite Hkeep by (done || by intros ->); eauto].
    eexists. split; [by apply set_value_eq; rewrite set_value_ne|]. simpl. congruence.
  - rewrite set_value_ne by done. by apply set_value_eq.
  - intros r Hrn Hm. apply Hkeep; [done|]. intros ->. by apply (Hm _ Em).
Qed.

(** A new stack trace. *)
Lemma step_miss :
  m !! sa_StacktraceID a = None → step_post m n a new ns H highest cum H (highest ++ [n]).
Proof.
  intros Em. destruct step_head as (Ha & Hnh & Hnn & _).
  assert (Hnone : cum !! sa_StacktraceID a = None) by (apply (lp_missing _ _ _ _ _ _ Hpre); [set_solver|done]).
  assert (Hfrom : ∀ r, r ∈ highest ++ [n] → r ∈ highest ∨ r = n) by set_solver.
  split; [apply step_pre| |done|by eexists|done].
  - apply rep_append; [apply Hpre|done|done].
  - by eexists.
  - done.
  - done.
  - eauto.
  - rewrite Ha. unfold delta_of, with_value. rewrite Hnone. by destruct a.
Qed.
End Step.

Lemma set_value_same H n a : H !! n = Some a → set_value H n (sa_Value a) = H.
Proof.
  intros Ha. apply list_eq. intros i. destruct (decide (n = i)) as [<-|]; [|by apply set_value_ne].
  rewrite (set_value_eq _ _ a), Ha by done. by destruct a.
Qed.

Lemma delta_loop_spec m new : ∀ H highest ns cum,
  loop_pre m H highest new ns cum →
  ∃ H' highest', delta_loop m H highest new = Ret (H', highest') ∧
    rep H' highest' (observe cum ns) ∧
    Forall2 (λ n s, H' !! n = Some (with_value s (delta_of cum s))) new ns ∧
    (∀ r, (r ∉ new) → (∀ sid, m !! sid ≠ Some r) → H' !! r = H !! r) ∧
    highest `prefix_of` highest' ∧ (∀ r, r ∈ highest' → r ∈ highest ∨ r ∈ new).
Proof.
  induction new as [|n new IH]; intros H highest ns cum Hpre; pose proof (lp_new _ _ _ _ _ _ Hpre) as Hnew.
  { inversion Hnew; subst. simpl. exists H, highest. split_and!; [done|apply Hpre|constructor|done|done|auto]. }
  destruct ns as [|a ns]; [by inversion Hnew|]. clear Hnew.
  destruct (step_head _ _ _ _ _ _ _ _ Hpre) as (Ha & Hnh & Hnn & Hothers). simpl. unfold deref at 1. rewrite Ha. simpl.
  assert (Hstep : ∃ H1 hi1, step_post m n a new ns H highest cum H1 hi1 ∧
    match m !! sa_StacktraceID a with
    | Some s => obind (deref H s) (λ sv, delta_loop m
        (if (sa_Value sv <=? sa_Value a)%Z then set_value (set_value H n (i64 (sa_Value a - sa_Value sv))) s (sa_Value a)
         else set_value H s (sa_Value a)) highest new)
    | None => delta_loop m H (highest ++ [n]) new
    end = delta_loop m H1 hi1 new).
  { destruct (m !! sa_StacktraceID a) as [sr|] eqn:Em; [|eexists _, _; split; [by apply step_miss|done]].
    destruct (lp_index _ _ _ _ _ _ Hpre _ _ Em) as (Hsr & sv & Hsv & Hsid). unfold deref. rewrite Hsv. simpl.
    assert (Hcum : cum !! sa_StacktraceID a = Some (sa_Value sv)).
    { apply (rep_values _ _ _ (lp_rep _ _ _ _ _ _ Hpre)). eauto 10. }
    eexists _, _. split; [by eapply step_hit|]. unfold delta_of. rewrite Hcum.
    destruct (sa_Value sv <=? sa_Value a)%Z; [done|]. by rewrite (set_value_same H n a). }
  destruct Hstep as (H1 & hi1 & [Hp1 Hv1 Hf1 Hx1 Hh1] & ->).
  destruct (IH H1 hi1 ns _ Hp1) as (H' & hi' & -> & Hr' & Hv' & Hf' & Hp' & Hh').
  exists H', hi'. split_and!; [done|done| | |by etrans|].
  - constructor.
    + rewrite Hf'; [done|done|]. intros sid Hsid. by apply (lp_index _ _ _ _ _ _ Hpre) in Hsid as [? _].
    + eapply Forall2_impl_in; [exact Hv'|]. intros x s _ Hs ->. do 2 f_equal. unfold delta_of.
      by rewrite lookup_insert_ne by (symmetry; by apply Hothers).
  - intros r [Hrn Hr]%not_elem_of_cons Hm. rewrite Hf' by done. by apply Hf1.
  - intros r Hr. destruct (Hh' _ Hr) as [[?| ->]%Hh1|?]; set_solver.
Qed.

Lemma deltaSamples_spec H highest new ns cum :
  rep H highest cum → Forall2 (λ n s, H !! n = Some s) new ns → NoDup new →
  (∀ n, n ∈ new → (n ∉ highest)) → NoDup (sa_StacktraceID <$> ns) →
  ∃ H' highest', deltaSamples H highest new = Ret (H', highest') ∧
    rep H' highest' (observe cum ns) ∧
    Forall2 (λ n s, H' !! n = Some (with_value s (delta_of cum s))) new ns ∧
    (∀ r, (r ∉ new) → (r ∉ highest) → H' !! r = H !! r) ∧
    highest `prefix_of` highest' ∧ (∀ r, r ∈ highest' → r ∈ highest ∨ r ∈ new).
Proof.
  intros Hrep Hnew Hnd Hfresh Hst. unfold deltaSamples.
  destruct (index_stacks_spec H highest ∅) as (m & -> & Hfrom & Hin & _); [apply Hrep..|]. simpl.
  assert (Hidx : ∀ sid r, m !! sid = Some r → r ∈ highest ∧ ∃ s, H !! r = Some s ∧ sa_StacktraceID s = sid).
  { intros sid r Hr. by destruct (Hfrom _ _ Hr) as [?|?]. }
  destruct (delta_loop_spec m new H highest ns cum) as (H' & hi' & Heq & Hr & Hv & Hf & Hp & Hh).
  { split; auto. intros s Hs Hn. destruct (cum !! sa_StacktraceID s) as [v|] eqn:E; [|done].
    apply (rep_values _ _ _ Hrep) in E as (r & s' & Hr' & Hs' & Hsid & _). pose proof (Hin _ _ Hr' Hs'). congruence. }
  exists H', hi'. split_and!; auto. intros r Hr1 Hr2. apply Hf; [done|]. intros sid Hsid. by apply Hidx in Hsid as [? _].
Qed.

Lemma nonzero_spec H rs ss :
  Forall2 (λ r s, H !! r = Some s) rs ss →
  ∃ rs', nonzero H rs = Ret rs' ∧ rs' `sublist_of` rs ∧
    Forall2 (λ r s, H !! r = Some s) rs' (filter (λ s, sa_Value s ≠ 0%Z) ss).
Proof.
  induction 1 as [|r s rs ss Hr _ (rs' & Heq & Hsub & Hrs')]; simpl; [exists []; done|].
  unfold deref at 1. rewrite Hr. simpl. rewrite Heq. simpl. rewrite filter_cons. destruct (sa_Value s =? 0)%Z eqn:E; bool_prop.
  - exists rs'. rewrite decide_False by (intros ?; done). split_and!; [done|by apply sublist_cons|done].
  - exists (r :: rs'). rewrite decide_True by done. split_and!; [done|by apply sublist_skip|by constructor].
Qed.

(** C37: [computeDelta] turns a cumulative profile into the growth since the last
    one.  When the series has a previous state in which one sample per stack trace
    holds its last cumulative value, and the new samples are fresh and have distinct
    stack traces, the profile that is returned holds, in order and without the
    zero ones, a sample per stack trace with the difference to that value (its own
    value where the counter went back or the stack trace is new); the state kept
    for the series then holds the new cumulative values, and no other sample of
    the store has changed. *)
Theorem computeDelta_refines (d : deltaProfiles) (H : store) (ps : SProfile) (lbs : Labels)
    (last : list ref) (cum : gmap N Z) (ns : list Sample) :
  isDelta lbs = true → d !! sp_SeriesFingerprint ps = Some last → last ≠ [] → rep H last cum →
  Forall2 (λ n s, H !! n = Some s) (sp_Samples ps) ns → NoDup (sp_Samples ps) →
  (∀ n, n ∈ sp_Samples ps → (n ∉ last)) → NoDup (sa_StacktraceID <$> ns) →
  ∃ H' highest rs, computeDelta d H ps lbs =
      Ret (<[sp_SeriesFingerprint ps := highest]> d, H', Some (with_samples ps rs)) ∧
    rep H' highest (observe cum ns) ∧
    Forall2 (λ r s, H' !! r = Some s) rs
      (filter (λ s, sa_Value s ≠ 0%Z) ((λ s, with_value s (delta_of cum s)) <$> ns)) ∧
    rs `sublist_of` sp_Samples ps ∧
    (∀ r, (r ∉ sp_Samples ps) → (r ∉ last) → H' !! r = H !! r).
Proof.
  intros Hd Hlast Hne Hrep Hns Hnd Hfresh Hst. unfold computeDelta. rewrite Hd, Hlast.
  destruct last as [|x last]; [done|]. clear Hne.
  destruct (deltaSamples_spec H (x :: last) (sp_Samples ps) ns cum Hrep Hns Hnd Hfresh Hst)
    as (H' & hi & -> & Hr & Hv & Hf & _ & _). simpl.
  destruct (nonzero_spec H' (sp_Samples ps) ((λ s, with_value s (delta_of cum s)) <$> ns)) as (rs & -> & Hsub & Hrs).
  { by apply Forall2_fmap_r. }
  exists H', hi, rs. by split_and!.
Qed.

(** ** The example of the witness, and stored samples that change *)

Definition alloc_labels : Labels := [mkLabel "__name__" "memory"; mkLabel "__type__" "alloc_space"].

Definition alloc_profile (rs : list ref) : SProfile := mkSProfile "id" 0 1 rs 0 0 0 0 0 [] 0.

(** Stack trace 1 with 10; stack traces 1 and 2 with 15 and 3; stack trace 2 with 7. *)
Definition alloc_store : store := [mkSample 1 10 []; mkSample 1 15 []; mkSample 2 3 []; mkSample 2 7 []].

Lemma computeDelta_refines_witness :
  ∃ H' highest rs, computeDelta {[1%N := [0]]} alloc_store (alloc_profile [1; 2]) alloc_labels =
      Ret (<[1%N := highest]> {[1%N := [0]]}, H', Some (with_samples (alloc_profile [1; 2]) rs)) ∧
    Forall2 (λ r s, H' !! r = Some s) rs [mkSample 1 5 []; mkSample 2 3 []].
Proof.
  destruct (computeDelta_refines {[1%N := [0]]} alloc_store (alloc_profile [1; 2]) alloc_labels [0] {[1%N := 10%Z]}
    [mkSample 1 15 []; mkSample 2 3 []]) as (H' & hi & rs & Heq & _ & Hrs & _).
  - reflexivity.
  - reflexivity.
  - done.
  - split.
    + intros r ->%list_elem_of_singleton. by eexists.
    + intros r r' s s' ->%list_elem_of_singleton ->%list_elem_of_singleton. done.
    + intros sid v. rewrite lookup_singleton_Some. split.
      * intros [<- <-]. exists 0, (mkSample 1 10 []). by rewrite list_elem_of_singleton.
      * intros (r & s & ->%list_elem_of_singleton & [= <-] & <- & <-). done.
  - repeat constructor.
  - by apply (bool_decide_unpack _).
  - intros n Hn. apply elem_of_cons in Hn as [->| ->%list_elem_of_singleton]; set_solver.
  - by apply (bool_decide_unpack _).
  - exists H', hi, rs. split; [exact Heq|exact Hrs].
Defined.

(** The samples kept as the last cumulative values are shared with stored
    profiles.  A stack trace that first appears in the second profile of a series
    is kept by reference; when a third profile arrives, the value of that sample
    in the second, already stored profile is overwritten: 3 when it was stored, it
    reads 7 afterwards. *)
Theorem computeDelta_overwrites_stored :
  ∃ d1 H1 d2 H2 p2 d3 H3 p3,
    computeDelta ∅ alloc_store (alloc_profile [0]) alloc_labels = Ret (d1, H1, None) ∧
    computeDelta d1 H1 (alloc_profile [1; 2]) alloc_labels = Ret (d2, H2, Some p2) ∧
    omapM (deref H2) (sp_Samples p2) = Ret [mkSample 1 5 []; mkSample 2 3 []] ∧
    computeDelta d2 H2 (alloc_profile [3]) alloc_labels = Ret (d3, H3, Some p3) ∧
    omapM (deref H3) (sp_Samples p2) = Ret [mkSample 1 5 []; mkSample 2 7 []].
Proof. do 8 eexists. split_and!; reflexivity. Qed.

(** ** The label cache *)

Definition cache_ok (lc : labelCache) : Prop :=
  ∀ k l, lcache lc !! k = Some l → l = mkPLabel (k_Key k) (k_Str k) (k_Num k) (k_NumUnit k).

(** The label with its references rewritten means what it meant. *)
Definition label_means (T T' : list string) (l l' : PLabel) : Prop :=
  str T' (pl_Key l') = str T (pl_Key l) ∧ str T' (pl_Str l') = str T (pl_Str l) ∧
  str T' (pl_NumUnit l') = str T (pl_NumUnit l) ∧ pl_Num l' = pl_Num l.

Definition label_wf (T : list string) (l : PLabel) : Prop :=
  is_Some (str T (pl_Key l)) ∧ is_Some (str T (pl_Str l)) ∧ is_Some (str T (pl_NumUnit l)).

Lemma rewriteLabels_spec `{Sizeof} T t T' ls : ∀ lc,
  cache_ok lc → strings_map T t T' → Forall (label_wf T) ls →
  ∃ lc' out, rewriteLabels lc t ls = Ret (lc', out) ∧ cache_ok lc' ∧ Forall2 (label_means T T') ls out.
Proof.
  induction ls as [|l ls IH]; intros lc Hok Hmap Hwf; simpl.
  { exists lc, []. by split_and!. }
  apply Forall_cons in Hwf as [([a Ha] & [b Hb] & [c Hc]) Hwf]. unfold label_key.
  destruct (Hmap _ _ Ha) as (ka & -> & Ha'), (Hmap _ _ Hb) as (kb & Eb & Hb'), (Hmap _ _ Hc) as (kc & -> & Hc').
  simpl. rewrite Eb. simpl. set (k := mkLabelKey ka kb (pl_Num l) kc). set (l' := mkPLabel ka kb (pl_Num l) kc).
  assert (Hm : label_means T T' l l') by (unfold label_means; simpl; by rewrite Ha, Hb, Hc).
  destruct (lcache lc !! k) as [l0|] eqn:E.
  - assert (l0 = l') as -> by (by apply Hok in E).
    destruct (IH lc Hok Hmap Hwf) as (lc' & out & -> & ? & ?). exists lc', (l' :: out). split_and!; [done|done|by constructor].
  - destruct (IH (mkLabelCache (<[k := l']> (lcache lc)) (u64 (lc_size lc + labelSize)))) as (lc' & out & -> & ? & ?);
      [|done|done|exists lc', (l' :: out); split_and!; [done|done|by constructor]].
    intros k' x. simpl. intros [[<- <-]|[_ Hx]]%lookup_insert_Some; [done|by apply Hok].
Qed.
