(* ===== verification/ProfilesIndex.v ===== *)
(** * The profiles index of the head

    [pkg/phlaredb/profiles.go]: the series of the head by fingerprint, on top of the
    bit-prefix inverted index, and the selection of profiles by matchers and time.
    Profiles are shared by pointer with the head's profiles table, so a series
    holds references into that table.  [Matcher.Matches] and
    [model.TimeFromUnixNano] of the Prometheus libraries are parameters. *)

From S2P Require Import Prelude Labels GoHeap Iter Shard InvertedIndex Dedup Symbols Delta.

Record profileLabels := mkProfileLabels { pf_lbs : Labels; pf_fp : N; pf_profiles : list ref }.

Record profilesIndex := mkProfilesIndex {
  px_ix : BitPrefixInvertedIndex;
  px_perFP : gmap N profileLabels;
  px_totalProfiles : Z;
  px_totalSeries : Z }.

Definition newProfileIndex (totalShards : N) : outcome profilesIndex :=
  obind (NewBitPrefixWithShards totalShards) (λ ix, Ret (mkProfilesIndex ix ∅ 0 0)).

(** [Add] of the profile at reference [r]. *)
Definition px_Add (pi : profilesIndex) (r : ref) (fp : N) (lbs : Labels) : outcome profilesIndex :=
  match px_perFP pi !! fp with
  | Some pl =>
      Ret (mkProfilesIndex (px_ix pi)
             (<[fp := mkProfileLabels (pf_lbs pl) (pf_fp pl) (pf_profiles pl ++ [r])]> (px_perFP pi))
             (i64 (px_totalProfiles pi + 1)) (px_totalSeries pi))
  | None =>
      obind (bp_Add (px_ix pi) lbs fp) (λ '(ix, lbs'),
        Ret (mkProfilesIndex ix (<[fp := mkProfileLabels lbs' fp [r]]> (px_perFP pi))
               (i64 (px_totalProfiles pi + 1)) (i64 (px_totalSeries pi + 1))))
  end.

(** ** Selected profiles *)

Record ProfileWithLabels := mkPWL { pw_profile : SProfile; pw_lbs : Labels; pw_fp : N }.

Global Instance SProfile_zero : GoZero SProfile := mkSProfile "" 0 0 [] 0 0 0 0 0 [] 0.
Global Instance PWL_zero : GoZero ProfileWithLabels := mkPWL zero [] 0.

Section Select.
Context (range : ∀ A : Type, gmap string A → list (string * A)).
Context (Matches : Matcher → string → bool).
Context (TimeFromUnixNano : Z → Z).

(** [Timestamp] of a profile. *)
Definition sp_Timestamp (p : SProfile) : Z := TimeFromUnixNano (sp_TimeNanos p).

Global Instance PWL_profile : Profile ProfileWithLabels :=
  {| p_timestamp p := sp_Timestamp (pw_profile p); p_labels := pw_lbs |}.

(** Empty matchers are filters. *)
Fixpoint SplitFiltersAndMatchers (ms : list Matcher) : list Matcher * list Matcher :=
  match ms with
  | [] => ([], [])
  | m :: ms =>
      let '(filters, matchers) := SplitFiltersAndMatchers ms in
      if Matches m "" then (m :: filters, matchers) else (filters, m :: matchers)
  end.

Definition passes (filters : list Matcher) (lbs : Labels) : bool :=
  forallb (λ f, Matches f (Get lbs (m_name f))) filters.

(** The loop all selections share: the series of the looked-up fingerprints that
    are still in the head and pass the filters. *)
Definition series_of (pi : profilesIndex) (filters : list Matcher) (ids : list N) : list (N * profileLabels) :=
  omap (λ fp, pl ← px_perFP pi !! fp; if passes filters (pf_lbs pl) then Some (fp, pl) else None) ids.

Definition matching_series (pi : profilesIndex) (ms : list Matcher) : outcome (list (N * profileLabels)) :=
  let '(filters, matchers) := SplitFiltersAndMatchers ms in
  obind (bp_Lookup range Matches (px_ix pi) matchers None) (λ ids, Ret (series_of pi filters ids)).

(** The calls of [fn] on the first error. *)
Fixpoint for_each {A S : Type} (fn : A → S → outcome S) (l : list A) (s : S) : outcome S :=
  match l with
  | [] => Ret s
  | x :: l => obind (fn x s) (for_each fn l)
  end.

Definition forMatchingProfiles {S : Type} (profiles : list SProfile) (pi : profilesIndex) (ms : list Matcher)
    (fn : Labels * N * SProfile → S → outcome S) (s : S) : outcome S :=
  obind (matching_series pi ms) (λ series, for_each (λ '(fp, pl) s,
    for_each (λ r s,
      obind (of_option (profiles !! r)) (λ p,
        if (sp_SeriesFingerprint p =? fp)%N then fn (pf_lbs pl, pf_fp pl, p) s else Ret s)) (pf_profiles pl) s) series s).

Definition forMatchingLabels {S : Type} (pi : profilesIndex) (ms : list Matcher)
    (fn : Labels * N → S → outcome S) (s : S) : outcome S :=
  obind (matching_series pi ms) (λ series, for_each (λ '(fp, pl) s, fn (pf_lbs pl, fp) s) series s).

(** *** SeriesIterator *)

Record SeriesIterator (St : Type) := mkSeries {
  se_it : St; se_curr : ProfileWithLabels; se_fp : N; se_lbs : Labels }.
Global Arguments mkSeries {St} _ _ _ _.
Global Arguments se_it {St} _.
Global Arguments se_curr {St} _.
Global Arguments se_fp {St} _.
Global Arguments se_lbs {St} _.

Definition NewSeriesIterator {St : Type} (labels : Labels) (fp : N) (it : St) : SeriesIterator St :=
  mkSeries it zero fp labels.

Definition series_next `{Iterator St SProfile} (s : SeriesIterator St) : bool * SeriesIterator St :=
  match Next (se_it s) with
  | (false, it) => (false, mkSeries it (se_curr s) (se_fp s) (se_lbs s))
  | (true, it) => (true, mkSeries it (mkPWL (At it) (se_lbs s) (se_fp s)) (se_fp s) (se_lbs s))
  end.

Definition series_iter `{Iterator St SProfile} : Iterator (SeriesIterator St) ProfileWithLabels := {|
  Next := series_next;
  At := se_curr;
  Err s := Err (se_it s);
  Close s := let '(e, it) := Close (se_it s) in (e, mkSeries it (se_curr s) (se_fp s) (se_lbs s));
  remaining s := remaining (se_it s)
|}.

(** The iterators of [SelectProfiles]: a series iterator over a time range of a
    slice of profiles. *)
Definition head_ranged : Iterator (TimeRanged (sliceIterator SProfile)) SProfile := ranged_iter sp_Timestamp.
Definition head_series : Iterator (SeriesIterator (TimeRanged (sliceIterator SProfile))) ProfileWithLabels :=
  @series_iter _ head_ranged.

Definition series_iterator (profiles : list SProfile) (mn mx : Z) (e : N * profileLabels)
    : outcome (SeriesIterator (TimeRanged (sliceIterator SProfile))) :=
  obind (omapM (λ r, of_option (profiles !! r)) (pf_profiles e.2)) (λ ps,
    Ret (NewSeriesIterator (pf_lbs e.2) (pf_fp e.2) (NewTimeRangedIterator (NewSliceIterator ps) mn mx))).

Definition SelectProfiles (profiles : list SProfile) (pi : profilesIndex) (ms : list Matcher) (mn mx : Z)
    : outcome (SortIterator (SeriesIterator (TimeRanged (sliceIterator SProfile))) ProfileWithLabels) :=
  obind (matching_series pi ms) (λ series,
  obind (omapM (series_iterator profiles mn mx) series) (λ its,
    Ret (@NewSortProfileIterator _ _ head_series _ _ its))).
End Select.

(** ** Writing the index *)

Definition minmax_step (acc : Z * Z) (t : Z) : Z * Z :=
  (if (t <? acc.1)%Z then t else acc.1, if (t >? acc.2)%Z then t else acc.2).

(** Of the [TimeNanos] of the profiles. *)
Definition minmax (ts : list Z) : Z * Z :=
  match ts with
  | [] => (0, 0)%Z
  | [t] => (t, t)
  | t :: ts => foldl minmax_step (t, t) ts
  end.

(** [allProfiles]: the first profile with each ID, the series in the order in which the map
    is visited. *)
Fixpoint uniq_profiles (seen : gset string) (ps : list SProfile) : list SProfile :=
  match ps with
  | [] => []
  | p :: ps => if decide (sp_ID p ∈ seen) then uniq_profiles seen ps else p :: uniq_profiles ({[sp_ID p]} ∪ seen) ps
  end.

Definition allProfiles (visit : gmap N profileLabels → list (N * profileLabels)) (profiles : list SProfile) (pi : profilesIndex)
    : outcome (list SProfile) :=
  obind (omapM (λ r, of_option (profiles !! r)) (concat ((λ e, pf_profiles e.2) <$> visit (px_perFP pi)))) (λ ps,
    Ret (uniq_profiles ∅ ps)).

(** *** The profiles helper *)

Inductive noKey := NoKey.
Global Instance noKey_eq : EqDecision noKey.
Proof. intros [] []. by left. Defined.
Global Instance noKey_countable : Countable noKey.
Proof. apply (inj_countable' (λ _, tt) (λ _, NoKey)). by intros []. Defined.

Definition profile_rewrite (r : rewriter) (p : SProfile) : outcome SProfile :=
  obind (omapM (string_rewrite (r_strings r)) (sp_Comments p)) (λ cs,
  obind (string_rewrite (r_strings r) (sp_DropFrames p)) (λ d,
  obind (string_rewrite (r_strings r) (sp_KeepFrames p)) (λ k,
    Ret (mkSProfile (sp_ID p) (sp_SeriesIndex p) (sp_SeriesFingerprint p) (sp_Samples p) d k
           (sp_TimeNanos p) (sp_DurationNanos p) (sp_Period p) cs (sp_DefaultSampleType p))))).

Definition sizeOfSample `{Sizeof} : N := (sampleSize + 8)%N.

Definition profile_size `{Sizeof} (p : SProfile) : N :=
  foldl (λ sz _, u64 (sz + sizeOfSample)) (u64 (profileSize + 8 + N.of_nat (length (sp_Comments p)) * 8)) (sp_Samples p).

Global Instance profilesHelper `{Sizeof} : Helper SProfile noKey := {|
  h_key := λ _, NoKey;
  h_addToRewriter := λ r m, Ret (mkRewriter (r_strings r) (r_functions r) (r_mappings r) m (r_stacktraces r));
  h_rewrite := profile_rewrite;
  h_setID := λ oldID _ p, (oldID, p);
  h_size := profile_size;
  h_clone := λ p, p;
  h_noKey := true |}.

(** ** Invariant of the index *)

(** The fingerprint is indexed under the label pair. *)
Definition indexed (ii : BitPrefixInvertedIndex) (n v : string) (fp : N) : Prop :=
  ∃ s sh, bp_shards ii !! s = Some sh ∧ fp ∈ fps_at (is_idx sh) n v.

(** The inverted index holds exactly the labels of the series of the map. *)
Record px_inv (pi : profilesIndex) (k : N) : Prop := {
  pi_wf : bp_wf (px_ix pi) k;
  pi_once : ∀ s sh n v, bp_shards (px_ix pi) !! s = Some sh → NoDup (fps_at (is_idx sh) n v);
  pi_series : ∀ fp pl, px_perFP pi !! fp = Some pl → pf_fp pl = fp ∧ (fp < 2 ^ 64)%N ∧ NoDup (names (pf_lbs pl));
  pi_labels : ∀ n v fp, indexed (px_ix pi) n v fp ↔ ∃ pl, px_perFP pi !! fp = Some pl ∧ mkLabel n v ∈ pf_lbs pl }.

Lemma names_NoDup_labels (ls : Labels) : NoDup (names ls) → NoDup ls.
Proof. apply NoDup_fmap_1. Qed.

Lemma px_consistent pi k s sh :
  px_inv pi k → bp_shards (px_ix pi) !! s = Some sh → consistent (is_idx sh).
Proof.
  intros [Hwf Honce Hser Hlab] Hsh. split; [eauto|]. intros n v v' fp Hv Hv'.
  destruct (proj1 (Hlab n v fp)) as (pl & Hpl & Hin); [by exists s, sh|].
  destruct (proj1 (Hlab n v' fp)) as (pl' & Hpl' & Hin'); [by exists s, sh|].
  assert (pl' = pl) as -> by congruence. destruct (Hser _ _ Hpl) as (_ & _ & Hnd).
  pose proof (Get_elem_of _ _ Hnd Hin) as E. pose proof (Get_elem_of _ _ Hnd Hin') as E'. simpl in *. congruence.
Qed.

(** A new series in the inverted index. *)
Lemma bp_Add_spec ii k lbs fp :
  bp_wf ii k → (fp < 2 ^ 64)%N → NoDup lbs →
  (∀ s sh n v, bp_shards ii !! s = Some sh → NoDup (fps_at (is_idx sh) n v)) → (∀ n v, ¬ indexed ii n v fp) →
  ∃ ii', bp_Add ii lbs fp = Ret (ii', sort_labels lbs) ∧ bp_wf ii' k ∧
    (∀ s sh n v, bp_shards ii' !! s = Some sh → NoDup (fps_at (is_idx sh) n v)) ∧
    ∀ n v q, indexed ii' n v q ↔ indexed ii n v q ∨ q = fp ∧ mkLabel n v ∈ lbs.
Proof.
  intros Hwf Hfp Hnd Honce Hnew. pose proof Hwf as (Hk & Hlen & Hsh).
  pose proof (bp_shard_lt ii k fp Hwf Hfp) as Hlt. unfold bp_Add. rewrite (bp_shard_for ii k fp Hwf).
  set (i := N.to_nat (fp / 2 ^ (64 - k))). destruct (lookup_lt_is_Some_2 (bp_shards ii) i) as [sh Hi]; [lia|].
  rewrite Hi. destruct (Hsh _ _ Hi) as [Hwi Hpre]. unfold add.
  destruct (add_loop_spec (is_idx sh) lbs fp [] Hwi Hnd) as (idx & -> & Hwf' & Hat). simpl.
  set (sh' := mkIndexShard (is_shard sh) idx).
  assert (Hat' : ∀ n v q, q ∈ fps_at idx n v ↔ q ∈ fps_at (is_idx sh) n v ∨ q = fp ∧ mkLabel n v ∈ lbs).
  { intros n v q. rewrite Hat. case_decide; [|naive_solver].
    rewrite (insert_fp_perm _ _ (wf_sorted _ _ _ Hwi)), elem_of_cons. naive_solver. }
  assert (Hil : i < length (bp_shards ii)) by (by eapply lookup_lt_Some).
  assert (Hget : ∀ s x, <[i := sh']> (bp_shards ii) !! s = Some x ↔ s = i ∧ x = sh' ∨ s ≠ i ∧ bp_shards ii !! s = Some x).
  { intros s x. rewrite list_lookup_insert_Some. naive_solver. }
  exists (mkBitPrefix (bp_totalShards ii) (<[i := sh']> (bp_shards ii))). split_and!; [done| | |].
  - split_and!; [done|simpl; by rewrite length_insert|]. simpl. intros s x [[-> ->]|[_ Hx]]%Hget; [|by apply Hsh].
    split; [done|]. intros n v q [Hq|[-> _]]%Hat'; [by eapply Hpre|]. split; [done|]. unfold i. lia.
  - simpl. intros s x n v [[-> ->]|[_ Hx]]%Hget; [|by eapply Honce]. simpl. rewrite Hat. case_decide; [|by eapply Honce].
    rewrite (insert_fp_perm _ _ (wf_sorted _ _ _ Hwi)). apply NoDup_cons. split; [|by eapply Honce].
    intros Hin. apply (Hnew n v). by exists i, sh.
  - intros n v q. unfold indexed. simpl. split.
    + intros (s & x & [[-> ->]|[_ Hx]]%Hget & Hq); [|left; eauto]. apply Hat' in Hq as [Hq|?]; [left; eauto|by right].
    + intros [(s & x & Hx & Hq)|[-> Hin]].
      * destruct (decide (s = i)) as [->|Hne]; [|exists s, x; split; [apply Hget; auto|done]].
        assert (x = sh) as -> by congruence. exists i, sh'. split; [apply Hget; auto|]. apply Hat'. auto.
      * exists i, sh'. split; [apply Hget; auto|]. apply Hat'. auto.
Qed.

(** The series after an addition: labels of the first profile, references in
    order of arrival. *)
Definition added (perFP : gmap N profileLabels) (r : ref) (fp : N) (lbs : Labels) : gmap N profileLabels :=
  <[fp := match perFP !! fp with
          | Some pl => mkProfileLabels (pf_lbs pl) (pf_fp pl) (pf_profiles pl ++ [r])
          | None => mkProfileLabels (sort_labels lbs) fp [r]
          end]> perFP.

Lemma px_Add_spec pi k r fp lbs :
  px_inv pi k → (fp < 2 ^ 64)%N → NoDup (names lbs) →
  ∃ pi', px_Add pi r fp lbs = Ret pi' ∧ px_inv pi' k ∧ px_perFP pi' = added (px_perFP pi) r fp lbs ∧
    px_totalProfiles pi' = i64 (px_totalProfiles pi + 1).
Proof.
  intros [Hwf Honce Hser Hlab] Hfp Hnd. unfold px_Add, added. destruct (px_perFP pi !! fp) as [pl|] eqn:E.
  - eexists. split; [done|]. split; [|done]. destruct (Hser _ _ E) as (? & ? & ?). split; simpl; auto.
    + intros q pl' [[<- <-]|[_ Hq]]%lookup_insert_Some; [done|by apply Hser].
    + intros n v q. rewrite Hlab. split; intros (pl' & Hq & Hin).
      * destruct (decide (q = fp)) as [->|Hne]; [|exists pl'; by rewrite lookup_insert_ne].
        eexists. rewrite lookup_insert_eq. split; [done|]. simpl. congruence.
      * apply lookup_insert_Some in Hq as [[<- <-]|[_ Hq]]; [by exists pl|by exists pl'].
  - destruct (bp_Add_spec (px_ix pi) k lbs fp Hwf Hfp (names_NoDup_labels _ Hnd) Honce) as (ii' & -> & Hwf' & Honce' & Hidx).
    { intros n v (pl & Hpl & _)%Hlab. congruence. }
    simpl. eexists. split; [done|]. split; [|done]. split; simpl; auto.
    + intros q pl' [[<- <-]|[_ Hq]]%lookup_insert_Some; [|by apply Hser]. simpl. split_and!; [done|done|].
      by rewrite (names_perm _ _ (sort_labels_perm lbs)).
    + intros n v q. rewrite Hidx, Hlab. split.
      * intros [(pl' & Hq & Hin)|[-> Hin]].
        -- exists pl'. rewrite lookup_insert_ne by congruence. done.
        -- eexists. rewrite lookup_insert_eq. split; [done|]. simpl. by rewrite sort_labels_perm.
      * intros (pl' & [[<- <-]|[_ Hq]]%lookup_insert_Some & Hin); [right|by left; exists pl'].
        simpl in Hin. by rewrite sort_labels_perm in Hin.
Qed.

(** ** Selection *)

Section SelectSpec.
Context (range : ∀ A : Type, gmap string A → list (string * A)).
Context (range_perm : ∀ (A : Type) (m : gmap string A), range A m ≡ₚ map_to_list m).
Context (Matches : Matcher → string → bool).
(** What Prometheus documents of [Matcher]: equality compares, and a regexp that is a
    plain alternation matches its alternatives. *)
Context (matches_selects : ∀ m v, Matches m "" = false → selects Matches m v ↔ Matches m v = true).
Context (TimeFromUnixNano : Z → Z).

(** All matchers accept the series. *)
Definition accepted (ms : list Matcher) (lbs : Labels) : Prop :=
  ∀ m, m ∈ ms → Matches m (Get lbs (m_name m)) = true.

Lemma split_spec ms filters matchers :
  SplitFiltersAndMatchers Matches ms = (filters, matchers) →
  (∀ m, m ∈ ms ↔ m ∈ filters ∨ m ∈ matchers) ∧ Forall (λ m, Matches m "" = false) matchers ∧
  (∀ m, m ∈ matchers ↔ m ∈ ms ∧ Matches m "" = false).
Proof.
  revert filters matchers. induction ms as [|m ms IH]; intros fs rs; simpl; [intros [= <- <-]; set_solver|].
  destruct (SplitFiltersAndMatchers Matches ms) as [fs0 rs0]. destruct (IH _ _ eq_refl) as (H1 & H2 & H3).
  destruct (Matches m "") eqn:E; intros [= <- <-]; split_and!.
  - intros x. rewrite !elem_of_cons, H1. tauto.
  - done.
  - intros x. rewrite elem_of_cons, H3. split; [naive_solver|]. intros [[->|?] ?]; [congruence|auto].
  - intros x. rewrite !elem_of_cons, H1. tauto.
  - by constructor.
  - intros x. rewrite !elem_of_cons, H3. split; [|naive_solver]. intros [->|?]; naive_solver.
Qed.

(** A matcher that rejects the empty value selects through the index exactly the
    series it accepts. *)
Lemma selects_label pi k m fp :
  px_inv pi k → Matches m "" = false →
  (∃ v, selects Matches m v ∧ indexed (px_ix pi) (m_name m) v fp) ↔
  ∃ pl, px_perFP pi !! fp = Some pl ∧ Matches m (Get (pf_lbs pl) (m_name m)) = true.
Proof.
  intros Hinv Hemp. split.
  - intros (v & Hsel%(matches_selects _ _ Hemp) & (pl & Hpl & Hin)%(pi_labels _ _ Hinv)). exists pl. split; [done|].
    destruct (pi_series _ _ Hinv _ _ Hpl) as (_ & _ & Hnd). pose proof (Get_elem_of _ _ Hnd Hin) as E. simpl in E.
    by rewrite E.
  - intros (pl & Hpl & Hm). exists (Get (pf_lbs pl) (m_name m)). split; [by apply (matches_selects _ _ Hemp)|].
    apply (pi_labels _ _ Hinv). exists pl. split; [done|]. destruct (pi_series _ _ Hinv _ _ Hpl) as (_ & _ & Hnd).
    destruct (decide (m_name m ∈ names (pf_lbs pl))) as [Hin|Hin].
    + apply list_elem_of_fmap in Hin as ([n v] & Hn & Hl). simpl in Hn. rewrite Hn.
      pose proof (Get_elem_of _ _ Hnd Hl) as E. simpl in E. by rewrite E.
    + rewrite Get_not_elem_of in Hm by done. congruence.
Qed.

Lemma bp_selected_indexed ii k ms fp :
  bp_wf ii k → ms ≠ [] →
  bp_selected Matches ii ms fp ↔ ∀ m, m ∈ ms → ∃ v, selects Matches m v ∧ indexed ii (m_name m) v fp.
Proof.
  intros Hwf Hne. split.
  - intros (s & sh & Hsh & Hsel) m Hm. destruct (Hsel m Hm) as (v & ? & ?). exists v. split; [done|]. by exists s, sh.
  - intros Hall. destruct ms as [|m0 ms]; [done|]. destruct (Hall m0 ltac:(left)) as (v0 & _ & s0 & sh0 & Hsh0 & Hfp0).
    exists s0, sh0. split; [done|]. intros m Hm. destruct (Hall m Hm) as (v & Hv & s & sh & Hsh & Hfp).
    exists v. split; [done|]. destruct Hwf as (_ & _ & Hp).
    destruct (Hp _ _ Hsh0) as [_ Hp0], (Hp _ _ Hsh) as [_ Hp1].
    destruct (Hp0 _ _ _ Hfp0) as [_ E0], (Hp1 _ _ _ Hfp) as [_ E1]. assert (s = s0) as -> by lia. congruence.
Qed.

Lemma lookup_unsharded pi k ms :
  px_inv pi k → Forall good_matcher ms → ms ≠ [] → Forall (λ m, Matches m "" = false) ms →
  ∃ ids, bp_Lookup range Matches (px_ix pi) ms None = Ret ids ∧ StronglySorted N.lt ids ∧
    ∀ fp, fp ∈ ids ↔ ∃ pl, px_perFP pi !! fp = Some pl ∧ accepted ms (pf_lbs pl).
Proof.
  intros Hinv Hgood Hne Hemp. pose proof (pi_wf _ _ Hinv) as Hwf. pose proof Hwf as (Hk & Hlen & _).
  destruct (bp_concat range range_perm Matches (px_ix pi) k ms Hwf (λ s sh, px_consistent pi k s sh Hinv) Hgood Hne 0 (2 ^ k))
    as [Hs He]; [lia|].
  assert (Hall : take (N.to_nat (2 ^ k - 0)) (drop (N.to_nat 0) (bp_shards (px_ix pi))) = bp_shards (px_ix pi)).
  { rewrite take_ge; [done|]. rewrite length_drop. lia. }
  rewrite Hall in Hs, He. exists (concat ((λ sh, lookup_fps range Matches sh ms) <$> bp_shards (px_ix pi))).
  split; [unfold bp_Lookup; simpl; by destruct ms|]. split; [done|].
  intros fp. rewrite He. rewrite (bp_selected_indexed _ k) by done. rewrite Forall_forall in Hemp. split.
  - intros [Hsel _]. destruct ms as [|m0 ms]; [done|].
    destruct (proj1 (selects_label pi k m0 fp Hinv (Hemp m0 ltac:(left))) (Hsel m0 ltac:(left))) as (pl & Hpl & _).
    exists pl. split; [done|]. intros m Hm.
    destruct (proj1 (selects_label pi k m fp Hinv (Hemp m Hm)) (Hsel m Hm)) as (pl' & Hpl' & ?). congruence.
  - intros (pl & Hpl & Hacc). split.
    + intros m Hm. apply (selects_label pi k m fp Hinv (Hemp m Hm)). exists pl. auto.
    + destruct (pi_series _ _ Hinv _ _ Hpl) as (_ & Hfp & _). split; [apply N.le_0_l|]. by apply (bp_shard_lt (px_ix pi)).
Qed.

Lemma passes_iff filters lbs : passes Matches filters lbs = true ↔ accepted filters lbs.
Proof. unfold passes, accepted. rewrite forallb_forall. split; intros Hf m Hm; apply Hf; by apply list_elem_of_In. Qed.

Lemma matching_series_spec pi k ms :
  px_inv pi k → Forall good_matcher ms → (∃ m, m ∈ ms ∧ Matches m "" = false) →
  ∃ series, matching_series range Matches pi ms = Ret series ∧ NoDup series.*1 ∧
    ∀ fp pl, (fp, pl) ∈ series ↔ px_perFP pi !! fp = Some pl ∧ accepted ms (pf_lbs pl).
Proof.
  intros Hinv Hgood (m0 & Hm0 & Hemp0). unfold matching_series.
  destruct (SplitFiltersAndMatchers Matches ms) as [filters matchers] eqn:E.
  destruct (split_spec _ _ _ E) as (Hall & Hemp & Hmat).
  destruct (lookup_unsharded pi k matchers Hinv) as (ids & -> & Hs & Hids); [|intros ->; by apply (not_elem_of_nil m0), Hmat|done|].
  { rewrite Forall_forall in Hgood |- *. intros m Hm. apply Hgood. rewrite Hall. auto. }
  simpl. eexists. split; [done|].
  assert (Hin : ∀ fp pl, (fp, pl) ∈ series_of Matches pi filters ids ↔
      fp ∈ ids ∧ px_perFP pi !! fp = Some pl ∧ accepted filters (pf_lbs pl)).
  { intros fp pl. unfold series_of. rewrite list_elem_of_omap. split.
    - intros (q & Hq & (pl' & Hpl' & Hif)%bind_Some). destruct (passes Matches filters (pf_lbs pl')) eqn:Ep; [|done].
      simplify_eq. by rewrite <- passes_iff.
    - intros (Hq & Hpl & Hp%passes_iff). exists fp. split; [done|]. rewrite Hpl. simpl. by rewrite Hp. }
  split.
  - apply StronglySorted_lt_NoDup in Hs. unfold series_of. clear -Hs. induction Hs as [|x l Hx _ IH]; [constructor|].
    simpl. destruct (px_perFP pi !! x) as [pl|]; simpl; [|done]. destruct (passes Matches filters (pf_lbs pl)); simpl; [|done].
    constructor; [|done]. intros ([q pl'] & Hq & Hin)%list_elem_of_fmap. apply Hx. simpl in Hq. subst q.
    apply list_elem_of_omap in Hin as (y & Hy & (pl2 & _ & Hif)%bind_Some). destruct (passes _ _ _); by simplify_eq.
  - intros fp pl. rewrite Hin, Hids. split.
    + intros ((pl' & Hpl' & Hacc) & Hpl & Hf). split; [done|]. assert (pl' = pl) as -> by congruence.
      intros m [?|?]%Hall; auto.
    + intros (Hpl & Hacc). split_and!; [|done|].
      * exists pl. split; [done|]. intros m Hm. apply Hacc, Hall. auto.
      * intros m Hm. apply Hacc, Hall. auto.
Qed.

(** *** The iterator of the selection *)

Lemma series_yields {St : Type} `{Iterator St SProfile} (it : St) ps e lbs fp c :
  yields it ps e →
  ∃ e', @yields _ _ series_iter (mkSeries it c fp lbs) ((λ p, mkPWL p lbs fp) <$> ps) e'.
Proof.
  intros Hy. revert c. induction Hy as [it it' Hn|it it' l e Hn _ IH]; intros c; simpl.
  - eexists. apply yields_nil. simpl. unfold series_next. simpl. by rewrite Hn.
  - destruct (IH (mkPWL (At it') lbs fp)) as [e' He']. exists e'.
    eapply (@yields_step _ _ series_iter _ (mkSeries it' (mkPWL (At it') lbs fp) fp lbs)); [|done|done].
    simpl. unfold series_next. simpl. by rewrite Hn.
Qed.

Definition ts := sp_Timestamp TimeFromUnixNano.

(** What the iterator of one series yields: the profiles in range before the first
    later one. *)
Definition series_profiles (profiles : list SProfile) (mn mx : Z) (e : N * profileLabels) : list ProfileWithLabels :=
  (λ p, mkPWL p (pf_lbs e.2) (pf_fp e.2)) <$>
    filter (in_range ts mn mx) (until ts mx (omap (profiles !!.) (pf_profiles e.2))).

Lemma omapM_lookup {A} (l : list A) rs :
  Forall (λ r, is_Some (l !! r)) rs → omapM (λ r, of_option (l !! r)) rs = Ret (omap (l !!.) rs).
Proof.
  induction 1 as [|r rs [x Hx] _ IH]; simpl; [done|]. by rewrite Hx, IH.
Qed.

Lemma until_sorted_in mx l (R : relation SProfile) : StronglySorted R l → StronglySorted R (until ts mx l).
Proof.
  induction 1 as [|x l Hs IH Hx]; simpl; [constructor|]. destruct (mx <? ts x)%Z; constructor; [done|].
  rewrite Forall_forall in Hx |- *. intros y Hy. apply Hx. clear -Hy. induction l as [|z l IHl]; simpl in Hy; [set_solver|].
  destruct (mx <? ts z)%Z; set_solver.
Qed.

(** A series whose references are alive and whose profiles are in time order. *)
Definition series_ok (profiles : list SProfile) (pl : profileLabels) : Prop :=
  Forall (λ r, is_Some (profiles !! r)) (pf_profiles pl) ∧
  StronglySorted (λ a b, ts a ≤ ts b)%Z (omap (profiles !!.) (pf_profiles pl)).

Lemma series_iterator_run profiles mn mx e :
  Forall (λ r, is_Some (profiles !! r)) (pf_profiles e.2) →
  ∃ it e', series_iterator profiles mn mx e = Ret it ∧
    @yields _ _ (head_series TimeFromUnixNano) it (series_profiles profiles mn mx e) e'.
Proof.
  intros Halive. unfold series_iterator. rewrite omapM_lookup by done. simpl.
  destruct (ranged_yields ts (NewSliceIterator (omap (profiles !!.) (pf_profiles e.2))) _ _ mn mx (slice_yields _ _)) as [e1 He1].
  destruct (series_yields (H := head_ranged TimeFromUnixNano) _ _ _ (pf_lbs e.2) (pf_fp e.2) zero He1) as [e2 He2].
  eexists _, e2. split; [done|]. exact He2.
Qed.

Lemma SelectProfiles_spec profiles pi k ms mn mx multierror :
  px_inv pi k → Forall good_matcher ms → (∃ m, m ∈ ms ∧ Matches m "" = false) →
  map_Forall (λ _ pl, series_ok profiles pl) (px_perFP pi) →
  ∃ it series out e, SelectProfiles range Matches TimeFromUnixNano profiles pi ms mn mx = Ret it ∧
    NoDup series.*1 ∧ (∀ fp pl, (fp, pl) ∈ series ↔ px_perFP pi !! fp = Some pl ∧ accepted ms (pf_lbs pl)) ∧
    @yields _ _ (@sort_iter _ _ (head_series TimeFromUnixNano) (PWL_profile TimeFromUnixNano) multierror) it out e ∧
    out ≡ₚ concat (series_profiles profiles mn mx <$> series) ∧
    StronglySorted (@by_time _ (PWL_profile TimeFromUnixNano)) out.
Proof.
  intros Hinv Hgood Hm Hser. destruct (matching_series_spec pi k ms Hinv Hgood Hm) as (series & Heq & Hnd & Hin).
  unfold SelectProfiles. rewrite Heq. simpl.
  assert (Hruns : ∃ ins, omapM (series_iterator profiles mn mx) series = Ret (r_it <$> ins) ∧
    r_list <$> ins = series_profiles profiles mn mx <$> series ∧
    Forall (λ r, @yields _ _ (head_series TimeFromUnixNano) (r_it r) (r_list r) (r_end r) ∧
      StronglySorted (@by_time _ (PWL_profile TimeFromUnixNano)) (r_list r)) ins).
  { assert (Hok : Forall (λ e, series_ok profiles e.2) series).
    { apply Forall_forall. intros [fp pl] [Hpl _]%Hin. by apply (Hser fp). }
    clear -Hok. induction Hok as [|e series [Halive Hs] _ (ins & Hi & Hl & Hall)]; [by exists []|].
    destruct (series_iterator_run profiles mn mx e Halive) as (it & e' & Hit & Hy).
    exists (mkRun it (series_profiles profiles mn mx e) e' :: ins). simpl. rewrite Hit. simpl. rewrite Hi. simpl.
    split_and!; [done|by f_equal|]. constructor; [|done]. split; [done|]. simpl. unfold series_profiles.
    eapply StronglySorted_fmap; [|by apply StronglySorted_filter, until_sorted_in]. done. }
  destruct Hruns as (ins & -> & Hl & Hall). simpl.
  destruct (sort_iter_run multierror (@by_time _ (PWL_profile TimeFromUnixNano)) by_key_time ins Hall)
    as (out & e & Hy & Hperm & Hsorted & _).
  eexists _, series, out, e. split_and!; [done|done|done|exact Hy| |done].
  rewrite Hperm. unfold all_values. by rewrite Hl.
Qed.
End SelectSpec.

(** ** The index as an abstract collection of labelled profiles *)

(** Additions in order; the profile at position [i] of the table is the [i]-th one. *)
Fixpoint add_all (pi : profilesIndex) (r : ref) (adds : list (SProfile * Labels)) : outcome profilesIndex :=
  match adds with
  | [] => Ret pi
  | (p, l) :: adds => obind (px_Add pi r (sp_SeriesFingerprint p) l) (λ pi', add_all pi' (S r) adds)
  end.

Definition of_series (fp : N) (a : SProfile * Labels) : Prop := sp_SeriesFingerprint a.1 = fp.
Global Instance of_series_dec fp a : Decision (of_series fp a).
Proof. unfold of_series. apply _. Defined.

Fixpoint refs_of (fp : N) (r : ref) (adds : list (SProfile * Labels)) : list ref :=
  match adds with
  | [] => []
  | a :: adds => if decide (of_series fp a) then r :: refs_of fp (S r) adds else refs_of fp (S r) adds
  end.

(** The entry of a series after more additions. *)
Definition series_after (o : option profileLabels) (fp : N) (r : ref) (adds : list (SProfile * Labels)) : option profileLabels :=
  match o with
  | Some pl => Some (mkProfileLabels (pf_lbs pl) (pf_fp pl) (pf_profiles pl ++ refs_of fp r adds))
  | None =>
      a ← head (filter (of_series fp) adds);
      Some (mkProfileLabels (sort_labels a.2) fp (refs_of fp r adds))
  end.

Lemma add_all_spec k adds : ∀ pi r,
  px_inv pi k → Forall (λ a, (sp_SeriesFingerprint a.1 < 2 ^ 64)%N ∧ NoDup (names a.2)) adds →
  ∃ pi', add_all pi r adds = Ret pi' ∧ px_inv pi' k ∧
    ∀ fp, px_perFP pi' !! fp = series_after (px_perFP pi !! fp) fp r adds.
Proof.
  induction adds as [|[p l] adds IH]; intros pi r Hinv Hok; simpl.
  { exists pi. split_and!; [done|done|]. intros fp. unfold series_after. simpl.
    destruct (px_perFP pi !! fp) as [[]|]; simpl; [by rewrite (right_id_L [] (++))|done]. }
  apply Forall_cons in Hok as [[Hfp Hnd] Hok]. simpl in *.
  destruct (px_Add_spec pi k r (sp_SeriesFingerprint p) l Hinv Hfp Hnd) as (pi1 & -> & Hinv1 & Hper & _). simpl.
  destruct (IH pi1 (S r) Hinv1 Hok) as (pi' & -> & Hinv' & Hper'). exists pi'. split_and!; [done|done|].
  intros fp. rewrite Hper', Hper. unfold added, series_after. cbn [refs_of]. rewrite filter_cons.
  destruct (decide (of_series fp (p, l))) as [E|Hne]; unfold of_series in *; simpl in *.
  - subst fp. rewrite lookup_insert_eq. destruct (px_perFP pi !! sp_SeriesFingerprint p) as [pl|]; simpl; [|done].
    by rewrite <- (assoc_L (++)).
  - rewrite lookup_insert_ne by done. done.
Qed.

Lemma refs_of_profiles fp (adds : list (SProfile * Labels)) : ∀ pre : list SProfile,
  Forall (λ r, is_Some ((pre ++ adds.*1) !! r)) (refs_of fp (length pre) adds) ∧
  omap ((pre ++ adds.*1) !!.) (refs_of fp (length pre) adds) = (filter (of_series fp) adds).*1.
Proof.
  induction adds as [|a adds IH]; intros pre; csimpl; [done|].
  destruct (IH (pre ++ [a.1])) as [H1 H2]. rewrite length_app, <- (assoc_L (++)) in H1, H2. simpl in H1, H2.
  rewrite Nat.add_1_r in H1, H2. rewrite filter_cons. case_decide; csimpl; [|done].
  assert (Hmid : (pre ++ a.1 :: adds.*1) !! length pre = Some a.1) by (by apply list_lookup_middle).
  split; [constructor; [by rewrite Hmid|done]|]. simpl. rewrite Hmid. simpl. by rewrite H2.
Qed.

(** Grouping by a key and concatenating the groups is a permutation. *)
Lemma concat_groups {A K} `{EqDecision K} (f : A → K) (ks : list K) (l : list A) :
  NoDup ks → concat ((λ k, filter (λ x, f x = k) l) <$> ks) ≡ₚ filter (λ x, f x ∈ ks) l.
Proof.
  induction 1 as [|k ks Hk _ IH]; simpl.
  { rewrite filter_none; [done|]. set_solver. }
  rewrite IH. clear IH. induction l as [|x l IHl]; [done|]. rewrite !filter_cons.
  destruct (decide (f x = k)) as [<-|Hne].
  - rewrite (decide_True (P := f x ∈ f x :: ks)) by set_solver. rewrite decide_False by done. simpl. by rewrite IHl.
  - destruct (decide (f x ∈ ks)).
    + rewrite (decide_True (P := f x ∈ k :: ks)) by set_solver. rewrite <- Permutation_middle. by rewrite IHl.
    + rewrite (decide_False (P := f x ∈ k :: ks)) by set_solver. done.
Qed.

Lemma concat_fmap_map {A B K} (g : A → B) (F : K → list A) (ks : list K) :
  concat ((λ k, g <$> F k) <$> ks) = g <$> concat (F <$> ks).
Proof. induction ks as [|k ks IH]; csimpl; [done|]. by rewrite IH, fmap_app. Qed.

(** The index of the head: 32 empty shards. *)
Lemma newProfileIndex_inv : ∃ pi, newProfileIndex 32 = Ret pi ∧ px_inv pi 5 ∧ px_perFP pi = ∅.
Proof.
  set (shards := (λ i, mkIndexShard (N.of_nat i) ∅) <$> seq 0 32).
  exists (mkProfilesIndex (mkBitPrefix 32 shards) ∅ 0 0). split; [reflexivity|]. split; [|done].
  assert (Hemp : ∀ s sh n v, shards !! s = Some sh → fps_at (is_idx sh) n v = []).
  { intros s sh n v Hs. apply list_lookup_fmap_Some in Hs as (i & -> & _). done. }
  split; simpl.
  - split_and!; [done|done|]. simpl. intros i sh Hi. split.
    + apply list_lookup_fmap_Some in Hi as (j & -> & _). apply map_Forall_empty.
    + intros n v fp Hfp. rewrite (Hemp _ _ n v Hi) in Hfp. set_solver.
  - intros s sh n v Hs. rewrite (Hemp _ _ n v Hs). constructor.
  - intros fp pl. by rewrite lookup_empty.
  - intros n v fp. split; [|intros (pl & Hpl & _); by rewrite lookup_empty in Hpl].
    intros (s & sh & Hs & Hfp). simpl in Hs. rewrite (Hemp _ _ n v Hs) in Hfp. set_solver.
Qed.

Section Collection.
Context (range : ∀ A : Type, gmap string A → list (string * A)).
Context (Matches : Matcher → string → bool).
Context (TimeFromUnixNano : Z → Z).

(** What the head accepts: a fingerprint is a 64-bit number that determines the
    labels, and label names are distinct. *)
Definition adds_ok (adds : list (SProfile * Labels)) : Prop :=
  Forall (λ a, (sp_SeriesFingerprint a.1 < 2 ^ 64)%N ∧ NoDup (names a.2)) adds ∧
  ∀ a b, a ∈ adds → b ∈ adds → sp_SeriesFingerprint a.1 = sp_SeriesFingerprint b.1 → a.2 ≡ₚ b.2.

(** Profiles arrive in time order within each series. *)
Definition in_order (adds : list (SProfile * Labels)) : Prop :=
  ∀ fp, StronglySorted (λ a b, sp_Timestamp TimeFromUnixNano a ≤ sp_Timestamp TimeFromUnixNano b)%Z
    (filter (of_series fp) adds).*1.

Definition labelled (a : SProfile * Labels) : ProfileWithLabels :=
  mkPWL a.1 (sort_labels a.2) (sp_SeriesFingerprint a.1).

Definition wanted (ms : list Matcher) (mn mx : Z) (a : SProfile * Labels) : Prop :=
  passes Matches ms a.2 = true ∧ (mn ≤ sp_Timestamp TimeFromUnixNano a.1 ≤ mx)%Z.

Global Instance wanted_dec ms mn mx a : Decision (wanted ms mn mx a).
Proof. unfold wanted. apply _. Defined.

Lemma sort_labels_perm_eq (l l' : Labels) : NoDup (names l) → l ≡ₚ l' → sort_labels l = sort_labels l'.
Proof.
  intros Hnd Hp. symmetry. apply sort_labels_unique; [done|by rewrite sort_labels_perm|apply sort_labels_sorted].
Qed.

Lemma passes_perm ms (l l' : Labels) : NoDup (names l) → l ≡ₚ l' → passes Matches ms l = passes Matches ms l'.
Proof.
  intros Hnd Hp. unfold passes. induction ms as [|m ms IH]; simpl; [done|]. by rewrite IH, (Get_perm l l').
Qed.

(** The profiles of one series of the built index. *)
Lemma series_profiles_adds adds mn mx fp pl :
  adds_ok adds → in_order adds → series_after None fp 0 adds = Some pl →
  series_profiles TimeFromUnixNano adds.*1 mn mx (fp, pl) =
    labelled <$> filter (λ a, sp_SeriesFingerprint a.1 = fp)
      (filter (λ a, mn ≤ sp_Timestamp TimeFromUnixNano a.1 ≤ mx)%Z adds).
Proof.
  intros [Hok Hdet] Hord Hpl. unfold series_after in Hpl. apply bind_Some in Hpl as (a0 & Ha0 & [= <-]).
  destruct (refs_of_profiles fp adds []) as [_ Hrefs]. simpl in Hrefs. unfold series_profiles. simpl. rewrite Hrefs.
  rewrite until_sorted by apply Hord.
  assert (Hin0 : a0 ∈ adds ∧ of_series fp a0).
  { apply head_Some in Ha0 as [l Hl]. assert (a0 ∈ filter (of_series fp) adds) by (rewrite Hl; left). by apply list_elem_of_filter in H as [??]. }
  destruct Hin0 as [Hin0 Hfp0]. clear Ha0 Hrefs Hord. rewrite !list_filter_filter.
  assert (Hsub : ∀ a, a ∈ adds → of_series fp a → labelled a = mkPWL a.1 (sort_labels a0.2) fp).
  { intros a Ha Hfp. unfold labelled. rewrite Hfp. f_equal. apply sort_labels_perm_eq.
    - rewrite Forall_forall in Hok. by apply Hok.
    - apply Hdet; [done|done|]. unfold of_series in *. congruence. }
  clear Hok Hdet Hin0. induction adds as [|a adds IH]; [done|]. rewrite !filter_cons.
  specialize (IH ltac:(intros; apply Hsub; set_solver)). unfold in_range, ts in *.
  destruct (decide (of_series fp a)) as [E|E]; csimpl;
    destruct (decide (mn ≤ sp_Timestamp TimeFromUnixNano a.1 ≤ mx)%Z) as [E2|E2].
  - rewrite filter_cons_True by done. rewrite decide_True by done. csimpl. rewrite IH. f_equal.
    symmetry. apply Hsub; [set_solver|done].
  - rewrite filter_cons_False by done. rewrite decide_False by tauto. done.
  - rewrite decide_False by (unfold of_series in E; tauto). done.
  - rewrite decide_False by tauto. done.
Qed.

(** A profile's series is in the built index, with the labels of the profile. *)
Lemma series_after_in adds a :
  adds_ok adds → a ∈ adds → ∃ pl, series_after None (sp_SeriesFingerprint a.1) 0 adds = Some pl ∧
    ∀ ms, passes Matches ms (pf_lbs pl) = passes Matches ms a.2.
Proof.
  intros [Hwf Hdet] Ha. assert (Hin : a ∈ filter (of_series (sp_SeriesFingerprint a.1)) adds) by (by apply list_elem_of_filter).
  unfold series_after. destruct (filter (of_series (sp_SeriesFingerprint a.1)) adds) as [|a0 l] eqn:E; [set_solver|].
  simpl. eexists. split; [done|]. intros ms. simpl.
  assert (Hin0 : a0 ∈ filter (of_series (sp_SeriesFingerprint a.1)) adds) by (rewrite E; left).
  apply list_elem_of_filter in Hin0 as [Hfp0 Hin0]. rewrite Forall_forall in Hwf.
  symmetry. apply passes_perm; [by apply Hwf|]. rewrite sort_labels_perm. by apply Hdet.
Qed.
End Collection.

(** C21: the head's index is a collection of labelled profiles.  After any
    additions to a new index in which a fingerprint determines the labels and the
    profiles of a series arrive in time order, [SelectProfiles] with matchers of
    which at least one rejects the empty value yields, in time order and each
    exactly once, the profiles added whose labels all matchers accept and whose
    timestamp lies in the range, with their sorted labels. *)
Theorem SelectProfiles_correct (range : ∀ A : Type, gmap string A → list (string * A)) (Matches : Matcher → string → bool)
    (TimeFromUnixNano : Z → Z) (multierror : list string → option string) (adds : list (SProfile * Labels))
    (ms : list Matcher) (mn mx : Z) :
  (∀ (A : Type) (m : gmap string A), range A m ≡ₚ map_to_list m) →
  (∀ m v, Matches m "" = false → selects Matches m v ↔ Matches m v = true) →
  adds_ok adds → in_order TimeFromUnixNano adds →
  Forall good_matcher ms → (∃ m, m ∈ ms ∧ Matches m "" = false) →
  ∃ pi it out e, obind (newProfileIndex 32) (λ pi, add_all pi 0 adds) = Ret pi ∧
    SelectProfiles range Matches TimeFromUnixNano adds.*1 pi ms mn mx = Ret it ∧
    @yields _ _ (@sort_iter _ _ (head_series TimeFromUnixNano) (PWL_profile TimeFromUnixNano) multierror) it out e ∧
    out ≡ₚ labelled <$> filter (wanted Matches TimeFromUnixNano ms mn mx) adds ∧
    StronglySorted (@by_time _ (PWL_profile TimeFromUnixNano)) out.
Proof.
  intros Hr Hsel Hok Hord Hgood Hm. destruct newProfileIndex_inv as (pi0 & -> & Hinv0 & Hemp). simpl.
  pose proof Hok as [Hwf Hdet].
  destruct (add_all_spec 5 adds pi0 0 Hinv0 Hwf) as (pi & -> & Hinv & Hper).
  setoid_rewrite Hemp in Hper. setoid_rewrite lookup_empty in Hper.
  assert (Hser : map_Forall (λ _ pl, series_ok TimeFromUnixNano adds.*1 pl) (px_perFP pi)).
  { intros fp pl Hpl. rewrite Hper in Hpl. unfold series_after in Hpl. apply bind_Some in Hpl as (a0 & _ & [= <-]).
    destruct (refs_of_profiles fp adds []) as [H1 H2]. simpl in H1, H2. split; simpl; [done|]. rewrite H2. apply Hord. }
  destruct (SelectProfiles_spec range Hr Matches Hsel TimeFromUnixNano adds.*1 pi 5 ms mn mx multierror Hinv Hgood Hm Hser)
    as (it & series & out & e & Heq & Hnd & Hin & Hy & Hperm & Hs).
  exists pi, it, out, e. split_and!; [done|done|done| |done]. rewrite Hperm.
  set (inr := filter (λ a : SProfile * Labels, mn ≤ sp_Timestamp TimeFromUnixNano a.1 ≤ mx)%Z adds).
  assert (Hmap : series_profiles TimeFromUnixNano adds.*1 mn mx <$> series =
    (λ fp, labelled <$> filter (λ a, sp_SeriesFingerprint a.1 = fp) inr) <$> series.*1).
  { rewrite <- list_fmap_compose. apply Forall_fmap_ext, Forall_forall. intros [fp pl] [Hpl _]%Hin. simpl.
    apply series_profiles_adds; [done|done|]. by rewrite <- Hper. }
  rewrite Hmap, concat_fmap_map. apply fmap_Permutation.
  etrans; [exact (concat_groups (λ a : SProfile * Labels, sp_SeriesFingerprint a.1) series.*1 inr Hnd)|].
  unfold inr. rewrite list_filter_filter.
  rewrite (filter_ext_in _ (wanted Matches TimeFromUnixNano ms mn mx)); [done|].
  intros a Ha. unfold wanted. apply and_iff_compat_r. rewrite list_elem_of_fmap.
  destruct (series_after_in Matches adds a Hok Ha) as (pl & Hpl & Hpass). rewrite <- Hper in Hpl. split.
  - intros ([fp pl'] & Hfp & [Hpl' Hacc]%Hin). simpl in Hfp. subst fp. assert (pl' = pl) as -> by congruence.
    rewrite <- Hpass. by apply passes_iff.
  - intros Hp. exists (sp_SeriesFingerprint a.1, pl). split; [done|]. apply Hin. split; [done|].
    apply passes_iff. by rewrite Hpass.
Qed.

(** A memory profile and a cpu profile of one pod, and a later cpu profile. *)
Definition select_profile (fp : N) (t : Z) : SProfile := mkSProfile "id" 0 fp [] 0 0 t 0 0 [] 0.
Definition select_adds : list (SProfile * Labels) :=
  [(select_profile 5 10, [mkLabel "type" "cpu"; mkLabel "pod" "a"]);
   (select_profile 9 11, [mkLabel "type" "mem"; mkLabel "pod" "a"]);
   (select_profile 5 20, [mkLabel "type" "cpu"; mkLabel "pod" "a"])].
(** Matchers that compare, or look the value up among the alternatives. *)
Definition set_matches (m : Matcher) (v : string) : bool :=
  match m_type m, FindSetMatches (m_value m) with
  | MatchEqual, _ => String.eqb v (m_value m)
  | MatchRegexp, (_ :: _) as set => bool_decide (v ∈ set)
  | _, _ => false
  end.

Lemma set_matches_selects m v : selects set_matches m v ↔ set_matches m v = true.
Proof.
  unfold selects. destruct (m_type m) eqn:Em; try done; unfold set_matches; rewrite Em; [by rewrite String.eqb_eq|].
  destruct (FindSetMatches (m_value m)); [done|]. by rewrite bool_decide_eq_true.
Qed.

Lemma select_adds_filter fp : filter (of_series fp) select_adds =
  if decide (fp = 5%N) then [(select_profile 5 10, [mkLabel "type" "cpu"; mkLabel "pod" "a"]); (select_profile 5 20, [mkLabel "type" "cpu"; mkLabel "pod" "a"])]
  else if decide (fp = 9%N) then [(select_profile 9 11, [mkLabel "type" "mem"; mkLabel "pod" "a"])] else [].
Proof.
  unfold select_adds. rewrite !filter_cons, filter_nil. unfold of_series. simpl.
  destruct (decide (fp = 5%N)) as [->|H5]; [done|]. destruct (decide (fp = 9%N)) as [->|H9]; [done|].
  by rewrite !decide_False by congruence.
Qed.

Lemma SelectProfiles_correct_witness :
  ∃ pi it out e, obind (newProfileIndex 32) (λ pi, add_all pi 0 select_adds) = Ret pi ∧
    SelectProfiles (λ _ m, map_to_list m) set_matches id select_adds.*1 pi [mkMatcher MatchEqual "type" "cpu"] 0 15 = Ret it ∧
    @yields _ _ (@sort_iter _ _ (head_series id) (PWL_profile id) head) it out e ∧
    out ≡ₚ [mkPWL (select_profile 5 10) [mkLabel "pod" "a"; mkLabel "type" "cpu"] 5].
Proof.
  destruct (SelectProfiles_correct (λ _ m, map_to_list m) set_matches id head select_adds [mkMatcher MatchEqual "type" "cpu"] 0 15)
    as (pi & it & out & e & Hpi & Hit & Hy & Hperm & _).
  - done.
  - intros m v _. apply set_matches_selects.
  - split.
    + repeat constructor; try (by apply (bool_decide_unpack _)).
    + intros a b Ha Hb. unfold select_adds in Ha, Hb. rewrite !elem_of_cons in Ha, Hb.
      by destruct Ha as [->|[->|[->|[]%elem_of_nil]]], Hb as [->|[->|[->|[]%elem_of_nil]]].
  - intros fp. rewrite select_adds_filter. destruct (decide (fp = 5%N)); [|destruct (decide (fp = 9%N))]; csimpl.
    + apply SSorted_cons; [apply SSorted_cons; [apply SSorted_nil|done]|]. constructor; [by vm_compute|done].
    + apply SSorted_cons; [apply SSorted_nil|done].
    + apply SSorted_nil.
  - repeat constructor.
  - exists (mkMatcher MatchEqual "type" "cpu"). split; [left|reflexivity].
  - exists pi, it, out, e. split_and!; [exact Hpi|exact Hit|exact Hy|exact Hperm].
Defined.

(** Two profiles of one series that arrive out of order. *)
Definition late_adds : list (SProfile * Labels) :=
  [(select_profile 5 100, [mkLabel "type" "cpu"]); (select_profile 5 50, [mkLabel "type" "cpu"])].

(** A profile that arrives after a later one of its series is not found.  The
    time range of a series stops at the first profile after its end, and the
    profiles are kept in order of arrival: with a profile at 100 and then one at 50,
    a selection of the range from 0 to 60 yields nothing. *)
Theorem SelectProfiles_misses_late :
  ∃ pi it e, obind (newProfileIndex 32) (λ pi, add_all pi 0 late_adds) = Ret pi ∧
    SelectProfiles (λ _ m, map_to_list m) set_matches id late_adds.*1 pi [mkMatcher MatchEqual "type" "cpu"] 0 60 = Ret it ∧
    @yields _ _ (@sort_iter _ _ (head_series id) (PWL_profile id) head) it [] e ∧
    (0 ≤ sp_Timestamp id (select_profile 5 50) ≤ 60)%Z.
Proof.
  eexists _, _, _. split_and!; [vm_compute; reflexivity|vm_compute; reflexivity| |vm_compute; congruence|vm_compute; congruence].
  apply yields_nil. vm_compute. reflexivity.
Qed.
