(* ===== verification/Head.v ===== *)
(** * The head block

    [pkg/phlaredb/head.go]: ingestion of a pprof profile into the symbol tables, the
    profiles table, the delta state and the index, and the queries that aggregate
    selected profiles.  The calls of one [Ingest] are sequential here; the
    interleaving of concurrent callers inside a table is the subject of the
    deduplicating tables. *)

From S2P Require Import Prelude Labels GoHeap Iter Shard InvertedIndex Dedup Symbols Delta ProfilesIndex.

(** ** The profile that is ingested ([pkg/gen/google/v1]) *)

Record ValueType := mkValueType { vt_Type : Z; vt_Unit : Z }.

Record GSample := mkGSample { gs_LocationId : list N; gs_Value : list Z; gs_Label : list PLabel }.

Record GProfile := mkGProfile {
  gp_SampleType : list ValueType; gp_Sample : list GSample; gp_Mapping : list Mapping;
  gp_Location : list Location; gp_Function : list Function; gp_StringTable : list string;
  gp_DropFrames : Z; gp_KeepFrames : Z; gp_TimeNanos : Z; gp_DurationNanos : Z;
  gp_PeriodType : option ValueType; gp_Period : Z; gp_Comment : list Z; gp_DefaultSampleType : Z }.

Definition psymbols_of (p : GProfile) : psymbols :=
  mkPsymbols (gp_StringTable p) (gp_Mapping p) (gp_Function p) (gp_Location p)
    ((λ s, mkStacktrace (gs_LocationId s)) <$> gp_Sample p).

(** ** Labels of the series of a profile *)

Definition str_at (T : list string) (i : Z) : outcome string :=
  if (i <? 0)%Z then Panic else of_option (T !! Z.to_nat i).

Section LabelsForProfile.
(** The hash of the label set, [Labels.Hash]. *)
Context (hash : Labels → N).

Fixpoint labels_loop (T : list string) (metricName periodType periodUnit : string) (lbls : LabelsBuilder)
    (types : list ValueType) : outcome (list (Labels * N)) :=
  match types with
  | [] => Ret []
  | ty :: types =>
      obind (str_at T (vt_Type ty)) (λ sampleType,
      obind (SetLabel lbls LabelNameType sampleType) (λ lbls,
      obind (str_at T (vt_Unit ty)) (λ sampleUnit,
      obind (SetLabel lbls LabelNameUnit sampleUnit) (λ lbls,
        let t := metricName +:+ ":" +:+ sampleType +:+ ":" +:+ sampleUnit +:+ ":" +:+ periodType +:+ ":" +:+ periodUnit in
      obind (SetLabel lbls LabelNameProfileType t) (λ lbls,
        let lbs := Clone (BuilderLabels lbls) in
      obind (labels_loop T metricName periodType periodUnit lbls types) (λ rest,
        Ret ((lbs, hash lbs) :: rest)))))))
  end.

Definition labelsForProfile (p : GProfile) (externalLabels : Labels) : outcome (list (Labels * N)) :=
  let lbls := NewLabelsBuilder externalLabels in
  let metricName := Get externalLabels LabelNameMetricName in
  let T := gp_StringTable p in
  match gp_PeriodType p with
  | Some pt =>
      obind (str_at T (vt_Type pt)) (λ periodType,
      obind (SetLabel lbls LabelNamePeriodType periodType) (λ lbls,
      obind (str_at T (vt_Unit pt)) (λ periodUnit,
      obind (SetLabel lbls LabelNamePeriodUnit periodUnit) (λ lbls,
        labels_loop T metricName periodType periodUnit lbls (gp_SampleType p)))))
  | None => labels_loop T metricName "" "" lbls (gp_SampleType p)
  end.
End LabelsForProfile.

(** ** State *)

Record Head := mkHead {
  hd_symbols : symbols;
  hd_profiles : dslice SProfile noKey;
  hd_samples : list Sample;
  hd_index : profilesIndex;
  hd_delta : gmap N (list ref);
  hd_labels : labelCache;
  hd_min : Z;
  hd_max : Z;
  hd_totalSamples : N }.

(** [block.NewMeta]: the time bounds start at the extremes. *)
Definition NewHead : outcome Head :=
  obind (newProfileIndex 32) (λ ix,
    Ret (mkHead new_symbols Init [] ix ∅ label_init max_int64 0 0)).

Section Ingest.
Context `{Sizeof, Hasher}.
Context (hash : Labels → N) (TimeFromUnixNano : Z → Z).

(** *** [convertSamples] *)

(** The labels of each sample, rewritten in order. *)
Fixpoint rewrite_all (lc : labelCache) (t : stringConversionTable) (ss : list GSample) : outcome (labelCache * list (list PLabel)) :=
  match ss with
  | [] => Ret (lc, [])
  | s :: ss =>
      obind (rewriteLabels lc t (gs_Label s)) (λ '(lc, ls),
      obind (rewrite_all lc t ss) (λ '(lc, lss), Ret (lc, ls :: lss)))
  end.

(** The samples of one type: the value at [idxType], the labels, and the number of the
    stack trace ([0] when the rewriter has none). *)
Definition samples_of (r : rewriter) (ss : list GSample) (lss : list (list PLabel)) (idxType : nat) : outcome (list Sample) :=
  omapM (λ '(idxSample, (s, ls)),
    obind (of_option (gs_Value s !! idxType)) (λ v,
      Ret (mkSample (to_u64 (default 0%Z (r_stacktraces r !! Z.of_nat idxSample))) v ls)))
    (imap (λ i x, (i, x)) (zip ss lss)).

Definition convertSamples (h : Head) (p : psymbols) (r : rewriter) (ss : list GSample)
    : outcome (Head * psymbols * rewriter * list (list Sample)) :=
  match ss with
  | [] => Ret (h, p, r, [])
  | s0 :: _ =>
      obind (rewrite_all (hd_labels h) (r_strings r) ss) (λ '(lc, lss),
      obind (ingest_stacks (hd_symbols h) p r) (λ '(sy, p, r),
      obind (omapM (samples_of r ss lss) (seq 0 (length (gs_Value s0)))) (λ out,
        Ret (mkHead sy (hd_profiles h) (hd_samples h) (hd_index h) (hd_delta h) lc (hd_min h) (hd_max h) (hd_totalSamples h),
             p, r, out))))
  end.

(** *** [Ingest] *)

(** One sample type: build the profile, compute the delta, store and index it. *)
Definition ingest_type (h : Head) (r : rewriter) (p : GProfile) (id : string) (lbs : Labels) (fp : N) (samples : list Sample)
    : outcome (Head * bool) :=
  let refs := seq (length (hd_samples h)) (length samples) in
  let store := hd_samples h ++ samples in
  let profile := mkSProfile id 0 fp refs (gp_DropFrames p) (gp_KeepFrames p) (gp_TimeNanos p) (gp_DurationNanos p) 0
                   (gp_Comment p) (gp_DefaultSampleType p) in
  obind (computeDelta (hd_delta h) store profile lbs) (λ '(d, store, o),
    match o with
    | None =>
        Ret (mkHead (hd_symbols h) (hd_profiles h) store (hd_index h) d (hd_labels h) (hd_min h) (hd_max h) (hd_totalSamples h), false)
    | Some profile =>
        obind (ingest (hd_profiles h) [profile] r) (λ '(ps, _, _),
        obind (px_Add (hd_index h) (length (d_slice (hd_profiles h))) fp lbs) (λ ix,
          Ret (mkHead (hd_symbols h) ps store ix d (hd_labels h) (hd_min h) (hd_max h) (hd_totalSamples h), true)))
    end).

(** The loop over the types; [labels[idxType]] panics when there are more values than
    sample types. *)
Fixpoint ingest_types (h : Head) (r : rewriter) (p : GProfile) (id : string) (labels : list (Labels * N))
    (samplesPerType : list (list Sample)) (ingested : bool) : outcome (Head * bool) :=
  match samplesPerType, labels with
  | [], _ => Ret (h, ingested)
  | samples :: rest, (lbs, fp) :: labels =>
      obind (ingest_type h r p id lbs fp samples) (λ '(h, b), ingest_types h r p id labels rest (ingested || b))
  | _ :: _, [] => Panic
  end.

(** The result carries the symbols of the profile as the call leaves them. *)
Definition Ingest (h : Head) (p : GProfile) (id : string) (externalLabels : Labels) : outcome (Head * psymbols) :=
  obind (labelsForProfile hash p externalLabels) (λ labels,
  obind (ingest_tables (hd_symbols h) (psymbols_of p)) (λ '(sy, p', r),
    let h := mkHead sy (hd_profiles h) (hd_samples h) (hd_index h) (hd_delta h) (hd_labels h) (hd_min h) (hd_max h) (hd_totalSamples h) in
  obind (convertSamples h p' r (gp_Sample p)) (λ '(h, p', r, samplesPerType),
  obind (ingest_types h r p id labels samplesPerType false) (λ '(h, profileIngested),
    if profileIngested then
      let v := TimeFromUnixNano (gp_TimeNanos p) in
      Ret (mkHead (hd_symbols h) (hd_profiles h) (hd_samples h) (hd_index h) (hd_delta h) (hd_labels h)
             (if (v <? hd_min h)%Z then v else hd_min h) (if (v >? hd_max h)%Z then v else hd_max h)
             (u64 (hd_totalSamples h + sampleSize)), p')
    else Ret (h, p'))))).
End Ingest.

(** ** The labels of a profile *)

Lemma Clone_id (ls : Labels) : Clone ls = ls.
Proof. induction ls as [|[n v] ls IH]; [done|]. unfold Clone in *. csimpl. by rewrite IH. Qed.

Lemma str_at_spec T i s : str T i = Some s → str_at T i = Ret s.
Proof. unfold str, str_at. destruct (i <? 0)%Z; [done|]. by intros ->. Qed.

Definition profile_type_name (metric ty unit pty punit : string) : string :=
  metric +:+ ":" +:+ ty +:+ ":" +:+ unit +:+ ":" +:+ pty +:+ ":" +:+ punit.

(** The labels of one series: those of the builder, and the labels of the type. *)
Record type_labels (hash : Labels → N) (T : list string) (metric pty punit : string) (base : string → string)
    (ty : ValueType) (lf : Labels * N) : Prop := {
  tl_nodup : NoDup (names lf.1);
  tl_hash : lf.2 = hash lf.1;
  tl_type : str T (vt_Type ty) = Some (Get lf.1 LabelNameType);
  tl_unit : str T (vt_Unit ty) = Some (Get lf.1 LabelNameUnit);
  tl_profile : Get lf.1 LabelNameProfileType =
    profile_type_name metric (Get lf.1 LabelNameType) (Get lf.1 LabelNameUnit) pty punit;
  tl_other : ∀ n, n ≠ LabelNameType → n ≠ LabelNameUnit → n ≠ LabelNameProfileType → Get lf.1 n = base n }.

Definition type_wf (T : list string) (ty : ValueType) : Prop := is_Some (str T (vt_Type ty)) ∧ is_Some (str T (vt_Unit ty)).

Lemma labels_loop_spec hash T metric pty punit base types : ∀ b,
  builder_wf b → sorted_names (b_base b) →
  (∀ n, n ≠ LabelNameType → n ≠ LabelNameUnit → n ≠ LabelNameProfileType → bview b n = base n) →
  Forall (type_wf T) types →
  ∃ out, labels_loop hash T metric pty punit b types = Ret out ∧
    Forall2 (type_labels hash T metric pty punit base) types out.
Proof.
  induction types as [|ty types IH]; intros b Hwf Hs Hbase Hok; simpl; [by exists []|].
  apply Forall_cons in Hok as [[[sty Hty] [sun Hun]] Hok].
  rewrite (str_at_spec _ _ _ Hty), (str_at_spec _ _ _ Hun). simpl.
  destruct (SetLabel_wf b LabelNameType sty Hwf) as (b1 & -> & Hwf1 & Hb1 & Hv1). simpl.
  destruct (SetLabel_wf b1 LabelNameUnit sun Hwf1) as (b2 & -> & Hwf2 & Hb2 & Hv2). simpl.
  destruct (SetLabel_wf b2 LabelNameProfileType (profile_type_name metric sty sun pty punit) Hwf2) as (b3 & E3 & Hwf3 & Hb3 & Hv3).
  unfold profile_type_name in E3. rewrite E3. simpl. rewrite Clone_id.
  assert (Hs3 : sorted_names (b_base b3)) by congruence.
  destruct (IH b3 Hwf3 Hs3) as (out & -> & Hall); [|done|].
  { intros n N1 N2 N3. rewrite Hv3, Hv2, Hv1, !decide_False by done. by apply Hbase. }
  simpl. eexists. split; [done|]. constructor; [|done].
  assert (Hget : ∀ n, Get (BuilderLabels b3) n = bview b3 n) by (intros n; by apply BuilderLabels_Get).
  destruct (BuilderLabels_shape b3 Hwf3 Hs3) as (_ & Hnd & _).
  assert (Ety : Get (BuilderLabels b3) LabelNameType = sty).
  { rewrite Hget, Hv3, decide_False, Hv2, decide_False, Hv1, decide_True by done. done. }
  assert (Eun : Get (BuilderLabels b3) LabelNameUnit = sun).
  { rewrite Hget, Hv3, decide_False, Hv2, decide_True by done. done. }
  split; simpl; [done|done|..].
  - by rewrite Ety.
  - by rewrite Eun.
  - rewrite Ety, Eun, Hget, Hv3. by rewrite decide_True.
  - intros n N1 N2 N3. rewrite Hget, Hv3, Hv2, Hv1, !decide_False by done. by apply Hbase.
Qed.

Lemma labelsForProfile_spec hash p ext :
  strict_names ext → Forall (type_wf (gp_StringTable p)) (gp_SampleType p) →
  match gp_PeriodType p with Some pt => type_wf (gp_StringTable p) pt | None => True end →
  ∃ out pty punit base, labelsForProfile hash p ext = Ret out ∧
    Forall2 (type_labels hash (gp_StringTable p) (Get ext LabelNameMetricName) pty punit base) (gp_SampleType p) out ∧
    ∀ n, n ≠ LabelNamePeriodType → n ≠ LabelNamePeriodUnit → base n = Get ext n.
Proof.
  intros Hext Hty Hpt. pose proof (strict_names_NoDup _ Hext) as Hnd. pose proof (NewLabelsBuilder_wf _ Hnd) as Hwf.
  assert (Hview : ∀ n, bview (NewLabelsBuilder ext) n = Get ext n) by (intros n; by apply NewLabelsBuilder_view).
  pose proof (strict_names_sorted _ Hext) as Hs. unfold labelsForProfile. destruct (gp_PeriodType p) as [pt|].
  - destruct Hpt as [[pty Hpty] [pun Hpun]]. rewrite (str_at_spec _ _ _ Hpty), (str_at_spec _ _ _ Hpun). simpl.
    destruct (SetLabel_wf _ LabelNamePeriodType pty Hwf) as (b1 & -> & Hwf1 & Hb1 & Hv1). simpl.
    destruct (SetLabel_wf _ LabelNamePeriodUnit pun Hwf1) as (b2 & -> & Hwf2 & Hb2 & Hv2). simpl.
    destruct (labels_loop_spec hash (gp_StringTable p) (Get ext LabelNameMetricName) pty pun (bview b2) (gp_SampleType p) b2)
      as (out & -> & Hout); [done|by rewrite Hb2, Hb1|done|done|].
    exists out, pty, pun, (bview b2). split_and!; [done|done|]. intros n N1 N2. by rewrite Hv2, Hv1, !decide_False.
  - destruct (labels_loop_spec hash (gp_StringTable p) (Get ext LabelNameMetricName) "" "" (Get ext) (gp_SampleType p) (NewLabelsBuilder ext))
      as (out & -> & Hout); [done|done|auto|done|]. by exists out, "", "", (Get ext).
Qed.

(** ** Storing the profiles *)

(** Later states of the head keep what is stored. *)
Record head_le (h h' : Head) : Prop := {
  le_profiles : d_slice (hd_profiles h) `prefix_of` d_slice (hd_profiles h');
  le_samples : hd_samples h `prefix_of` hd_samples h';
  le_series : ∀ fp pl, px_perFP (hd_index h) !! fp = Some pl → ∃ pl', px_perFP (hd_index h') !! fp = Some pl' ∧
    pf_lbs pl' = pf_lbs pl ∧ pf_profiles pl `prefix_of` pf_profiles pl' }.

Global Instance head_le_preorder : PreOrder head_le.
Proof.
  split; [intros h; split; [done|done|]; intros fp pl Hpl; by exists pl|].
  intros h1 h2 h3 [A1 A2 A3] [B1 B2 B3]. split; [by etrans|by etrans|].
  intros fp pl (pl2 & Hpl2 & ? & ?)%A3. destruct (B3 _ _ Hpl2) as (pl3 & ? & ? & ?).
  exists pl3. split_and!; [done|congruence|by etrans].
Qed.

(** The profile of one sample type is stored, indexed and holds its samples. *)
Definition stored (h : Head) (p : GProfile) (id : string) (lf : Labels * N) (samples : list Sample) : Prop :=
  ∃ r prof pl, d_slice (hd_profiles h) !! r = Some prof ∧
    sp_ID prof = id ∧ sp_SeriesFingerprint prof = lf.2 ∧ sp_TimeNanos prof = gp_TimeNanos p ∧
    sp_DurationNanos prof = gp_DurationNanos p ∧
    Forall2 (λ r s, hd_samples h !! r = Some s) (sp_Samples prof) samples ∧
    px_perFP (hd_index h) !! lf.2 = Some pl ∧ r ∈ pf_profiles pl.

Lemma stored_mono h h' p id lf ss : head_le h h' → stored h p id lf ss → stored h' p id lf ss.
Proof.
  intros [L1 L2 L3] (r & prof & pl & Hr & ? & ? & ? & ? & Hss & Hpl & Hin).
  destruct (L3 _ _ Hpl) as (pl' & ? & _ & Hpre). exists r, prof, pl'. split_and!; try done.
  - by eapply prefix_lookup_Some.
  - eapply Forall2_impl; [exact Hss|]. intros x s Hx. exact (prefix_lookup_Some _ _ _ _ Hx L2).
  - destruct Hpre as [k ->]. set_solver.
Qed.

Section IngestSpec.
Context `{Sizeof, Hasher}.

(** The string references of the profile message itself. *)
Definition refs_wf (p : GProfile) : Prop :=
  let T := gp_StringTable p in
  is_Some (str T (gp_DropFrames p)) ∧ is_Some (str T (gp_KeepFrames p)) ∧
  Forall (λ c, is_Some (str T c)) (gp_Comment p).

Lemma ingest_profile T' r p id fp refs (s : dslice SProfile noKey) :
  strings_map (gp_StringTable p) (r_strings r) T' → refs_wf p →
  ∃ prof s' es r', ingest s [mkSProfile id 0 fp refs (gp_DropFrames p) (gp_KeepFrames p) (gp_TimeNanos p) (gp_DurationNanos p) 0
                   (gp_Comment p) (gp_DefaultSampleType p)] r = Ret (s', es, r') ∧
    d_slice s' = d_slice s ++ [prof] ∧ sp_ID prof = id ∧ sp_SeriesFingerprint prof = fp ∧ sp_Samples prof = refs ∧
    sp_TimeNanos prof = gp_TimeNanos p ∧ sp_DurationNanos prof = gp_DurationNanos p.
Proof.
  intros Hmap ([d Hd] & [k Hk] & Hcs).
  assert (Hcomm : ∃ cs, omapM (string_rewrite (r_strings r)) (gp_Comment p) = Ret cs).
  { apply omapM_total. intros c Hc. rewrite Forall_forall in Hcs. destruct (Hcs c Hc) as [x Hx].
    destruct (Hmap _ _ Hx) as (j & ? & _). eauto. }
  destruct Hcomm as [cs Hcomm], (Hmap _ _ Hd) as (d' & Ed & _), (Hmap _ _ Hk) as (k' & Ek & _).
  unfold ingest, ingest_locked. simpl. unfold profile_rewrite. simpl. rewrite Hcomm, Ed. simpl. rewrite Ek. simpl.
  do 4 eexists. split; [done|]. simpl. split_and!; done.
Qed.

Lemma ingest_type_spec h r p id lbs fp samples T' k :
  strings_map (gp_StringTable p) (r_strings r) T' → refs_wf p → isDelta lbs = false →
  px_inv (hd_index h) k → (fp < 2 ^ 64)%N → NoDup (names lbs) →
  ∃ h', ingest_type h r p id lbs fp samples = Ret (h', true) ∧ head_le h h' ∧
    hd_symbols h' = hd_symbols h ∧ hd_labels h' = hd_labels h ∧ hd_min h' = hd_min h ∧ hd_max h' = hd_max h ∧
    hd_delta h' = hd_delta h ∧ px_inv (hd_index h') k ∧ stored h' p id (lbs, fp) samples.
Proof.
  intros Hmap Hrefs Hdelta Hinv Hfp Hnd. unfold ingest_type, computeDelta. rewrite Hdelta. simpl.
  destruct (ingest_profile T' r p id fp (seq (length (hd_samples h)) (length samples)) (hd_profiles h) Hmap Hrefs)
    as (prof & s' & es & r' & -> & Hs' & Hid & Hpf & Hsa & Ht & Hdn). simpl.
  destruct (px_Add_spec (hd_index h) k (length (d_slice (hd_profiles h))) fp lbs Hinv Hfp Hnd) as (ix & -> & Hinv' & Hper & _).
  simpl. eexists. split; [done|].
  assert (Hser : ∃ pl, px_perFP ix !! fp = Some pl ∧ length (d_slice (hd_profiles h)) ∈ pf_profiles pl).
  { rewrite Hper. unfold added. rewrite lookup_insert_eq. eexists. split; [done|].
    destruct (px_perFP (hd_index h) !! fp); simpl; set_solver. }
  split_and!; try done.
  - split; simpl; [rewrite Hs'; by eexists|by eexists|]. intros q pl Hq. rewrite Hper. unfold added.
    destruct (decide (q = fp)) as [->|Hne]; [|exists pl; by rewrite lookup_insert_ne].
    rewrite lookup_insert_eq, Hq. eexists. split; [done|]. split; [done|]. by eexists.
  - destruct Hser as (pl & Hpl & Hin). exists (length (d_slice (hd_profiles h))), prof, pl. simpl.
    rewrite Hs', Hsa. split_and!; try done; [by apply list_lookup_middle|].
    apply Forall2_same_length_lookup. rewrite length_seq. split; [done|]. intros i x y Hx Hy.
    apply lookup_seq in Hx as [-> _]. rewrite lookup_app_r by lia. by replace (length (hd_samples h) + i - length (hd_samples h)) with i by lia.
Qed.

Lemma ingest_types_spec T' k r p id : strings_map (gp_StringTable p) (r_strings r) T' → refs_wf p →
  ∀ labels spt h b,
  Forall (λ lf, isDelta lf.1 = false ∧ (lf.2 < 2 ^ 64)%N ∧ NoDup (names lf.1)) labels →
  length spt ≤ length labels → px_inv (hd_index h) k →
  ∃ h', ingest_types h r p id labels spt b = Ret (h', b || bool_decide (spt ≠ [])) ∧ head_le h h' ∧
    hd_symbols h' = hd_symbols h ∧ hd_labels h' = hd_labels h ∧ hd_min h' = hd_min h ∧ hd_max h' = hd_max h ∧
    hd_delta h' = hd_delta h ∧ px_inv (hd_index h') k ∧
    ∀ t lf ss, labels !! t = Some lf → spt !! t = Some ss → stored h' p id lf ss.
Proof.
  intros Hmap Hrefs. induction labels as [|[lbs fp] labels IH]; intros [|ss spt] h b Hok Hlen Hinv; simpl in *; try lia;
    [exists h; rewrite orb_false_r; split_and!; try done; intros ? ? ? _; by rewrite lookup_nil..|].
  apply Forall_cons in Hok as [(Hd & Hfp & Hnd) Hok]. simpl in *.
  destruct (ingest_type_spec h r p id lbs fp ss T' k Hmap Hrefs Hd Hinv Hfp Hnd)
    as (h1 & -> & Hle1 & E1 & E2 & E3 & E4 & E5 & Hinv1 & Hst1). simpl.
  destruct (IH spt h1 (b || true)%bool Hok) as (h2 & -> & Hle2 & F1 & F2 & F3 & F4 & F5 & Hinv2 & Hst2); [lia|done|].
  exists h2. rewrite !orb_true_r. simpl. split_and!; [done|by etrans|congruence..|done|].
  intros [|t] lf ss' Hlf Hss; simpl in *; [|by eapply Hst2]. simplify_eq. by eapply stored_mono.
Qed.

(** ** [convertSamples] *)

Lemma rewrite_all_spec T t T' ss : ∀ lc,
  cache_ok lc → strings_map T t T' → Forall (λ s, Forall (label_wf T) (gs_Label s)) ss →
  ∃ lc' lss, rewrite_all lc t ss = Ret (lc', lss) ∧ cache_ok lc' ∧
    Forall2 (λ s ls, Forall2 (label_means T T') (gs_Label s) ls) ss lss.
Proof.
  induction ss as [|s ss IH]; intros lc Hok Hmap Hwf; simpl; [by exists lc, []|].
  apply Forall_cons in Hwf as [Hs Hwf].
  destruct (rewriteLabels_spec T t T' (gs_Label s) lc Hok Hmap Hs) as (lc1 & ls & -> & Hok1 & Hm). simpl.
  destruct (IH lc1 Hok1 Hmap Hwf) as (lc2 & lss & -> & Hok2 & Hall). simpl. exists lc2, (ls :: lss). split_and!; auto.
Qed.

Lemma samples_of_spec r ss lss t n :
  length lss = length ss → Forall (λ s, length (gs_Value s) = n) ss → t < n →
  ∃ out, samples_of r ss lss t = Ret out ∧ length out = length ss ∧
    ∀ i s ls, ss !! i = Some s → lss !! i = Some ls → ∃ v, gs_Value s !! t = Some v ∧
      out !! i = Some (mkSample (to_u64 (default 0%Z (r_stacktraces r !! Z.of_nat i))) v ls).
Proof.
  intros Hlen Hvals Ht. unfold samples_of. set (items := imap (λ i x, (i, x)) (zip ss lss)).
  assert (Hit : ∀ i s ls, ss !! i = Some s → lss !! i = Some ls → items !! i = Some (i, (s, ls))).
  { intros i s ls Hs Hls. unfold items. rewrite list_lookup_imap, lookup_zip_with, Hs, Hls. done. }
  assert (Hil : length items = length ss).
  { unfold items. rewrite length_imap, length_zip_with. lia. }
  destruct (omapM_total (λ '(idxSample, (s, ls)),
    obind (of_option (gs_Value s !! t)) (λ v,
      Ret (mkSample (to_u64 (default 0%Z (r_stacktraces r !! Z.of_nat idxSample))) v ls))) items) as [out Hout].
  { intros [i [s ls]] (j & Hj)%list_elem_of_lookup. unfold items in Hj. rewrite list_lookup_imap, lookup_zip_with in Hj.
    destruct (ss !! j) as [s0|] eqn:Es; [|done]. destruct (lss !! j) as [l0|] eqn:El; [|done]. simpl in Hj.
    injection Hj as <- <- <-. pose proof (Forall_lookup_1 _ _ _ _ Hvals Es) as Hn. simpl in Hn.
    destruct (lookup_lt_is_Some_2 (gs_Value s0) t) as [v Hv]; [lia|]. rewrite Hv. simpl. eauto. }
  exists out. pose proof (proj1 (omapM_ret _ _ _) Hout) as Hf2. split_and!; [done|by rewrite <- (Forall2_length _ _ _ Hf2)|].
  intros i s ls Hs Hls. destruct (Forall2_lookup_l _ _ _ _ _ Hf2 (Hit _ _ _ Hs Hls)) as (sa & Hsa & He). simpl in He.
  apply obind_ret in He as (v & Hv & [= <-]). destruct (gs_Value s !! t) as [v'|] eqn:E; [|done].
  simpl in Hv. injection Hv as ->. eauto.
Qed.

(** The samples of every type: value, labels and stack trace of each sample. *)
Definition converted (T T' : list string) (r : rewriter) (ss : list GSample) (t : nat) (out : list Sample) : Prop :=
  length out = length ss ∧
  ∀ i s, ss !! i = Some s → ∃ v ls, gs_Value s !! t = Some v ∧ Forall2 (label_means T T') (gs_Label s) ls ∧
    out !! i = Some (mkSample (to_u64 (default 0%Z (r_stacktraces r !! Z.of_nat i))) v ls).

Lemma samples_per_type T T' r ss lss n :
  Forall2 (λ s ls, Forall2 (label_means T T') (gs_Label s) ls) ss lss → Forall (λ s, length (gs_Value s) = n) ss →
  ∃ out, omapM (samples_of r ss lss) (seq 0 n) = Ret out ∧ length out = n ∧
    ∀ t os, out !! t = Some os → converted T T' r ss t os.
Proof.
  intros Hls Hvals. pose proof (Forall2_length _ _ _ Hls) as Hlen.
  destruct (omapM_total (samples_of r ss lss) (seq 0 n)) as [out Hout].
  { intros t [_ Ht]%elem_of_seq. destruct (samples_of_spec r ss lss t n) as (o & Ho & _); [done|done|lia|]. eauto. }
  exists out. pose proof (proj1 (omapM_ret _ _ _) Hout) as Hf2. pose proof (Forall2_length _ _ _ Hf2) as Hl.
  rewrite length_seq in Hl. split_and!; [done|done|]. intros t os Hos.
  destruct (Forall2_lookup_r _ _ _ _ _ Hf2 Hos) as (t' & Ht' & He). apply lookup_seq in Ht' as [-> Ht]. simpl in He.
  destruct (samples_of_spec r ss lss t n) as (o & Ho & Hol & Hget); [done|done|lia|]. assert (o = os) as -> by congruence.
  split; [done|]. intros i s Hs. destruct (Forall2_lookup_l _ _ _ _ _ Hls Hs) as (ls & Hl2 & Hm).
  destruct (Hget _ _ _ Hs Hl2) as (v & ? & ?). eauto 10.
Qed.
End IngestSpec.

(** ** [Ingest] *)

(** A well-formed pprof profile with at least one sample. *)
Record gprofile_wf (p : GProfile) : Prop := {
  gw_symbols : psymbols_wf (psymbols_of p);
  gw_types : Forall (type_wf (gp_StringTable p)) (gp_SampleType p);
  gw_period : match gp_PeriodType p with Some pt => type_wf (gp_StringTable p) pt | None => True end;
  gw_refs : refs_wf p;
  gw_labels : Forall (λ s, Forall (label_wf (gp_StringTable p)) (gs_Label s)) (gp_Sample p);
  gw_values : Forall (λ s, length (gs_Value s) = length (gp_SampleType p)) (gp_Sample p);
  gw_samples : gp_Sample p ≠ [];
  gw_some_type : gp_SampleType p ≠ [] }.

Record head_ok `{Sizeof, Hasher} (h : Head) : Prop := {
  ho_symbols : symbols_ok (hd_symbols h);
  ho_index : px_inv (hd_index h) 5;
  ho_labels : cache_ok (hd_labels h) }.

Lemma ingest_symbols_split `{Sizeof, Hasher} h p h2 p2 r2 :
  ingest_symbols h p = Ret (h2, p2, r2) →
  ∃ h1 p1 r1, ingest_tables h p = Ret (h1, p1, r1) ∧ ingest_stacks h1 p1 r1 = Ret (h2, p2, r2).
Proof. unfold ingest_symbols. intros ([[h1 p1] r1] & ? & ?)%obind_ret. eauto 10. Qed.

Lemma ingest_stacks_strings `{Sizeof, Hasher} h p r h' p' r' :
  ingest_stacks h p r = Ret (h', p', r') → sy_strings h' = sy_strings h ∧ r_strings r' = r_strings r.
Proof.
  unfold ingest_stacks, ingest, ingest_locked. intros ([[ts tl] r1] & (els & _ & Hin)%obind_ret & [= <- _ <-])%obind_ret.
  simpl in *. destruct (find_existing _ _ _ _ _) as [[es rm] ms].
  apply obind_ret in Hin as ([[s e] m] & _ & [= _ _ <-]). done.
Qed.

Lemma isDelta_other lbs : Get lbs LabelNameMetricName ≠ memoryProfileName → isDelta lbs = false.
Proof. intros Hne. unfold isDelta. destruct (String.eqb_spec (Get lbs LabelNameMetricName) memoryProfileName); done. Qed.

Section IngestTheorem.
Context `{Sizeof, Hasher}.

(** What the head holds of the [i]-th sample in the profile of the [t]-th type: the
    value, the labels with the same strings, and a stack trace that resolves to the
    one of the sample. *)
Definition sample_kept (h' : Head) (p' : psymbols) (p : GProfile) (t : nat) (s : GSample) (sa : Sample) : Prop :=
  gs_Value s !! t = Some (sa_Value sa) ∧
  Forall2 (label_means (gp_StringTable p) (d_slice (sy_strings (hd_symbols h')))) (gs_Label s) (sa_Labels sa) ∧
  ∃ g, slot (d_slice (sy_stacktraces (hd_symbols h'))) (sa_StacktraceID sa) = Some g ∧
    (no_collision (hd_symbols h') p' →
     h_stack_view (hd_symbols h') g = p_stack_view (psymbols_of p) (mkStacktrace (gs_LocationId s))).

(** The head after [convertSamples], and the samples of every type. *)
Lemma convert_spec h p :
  head_ok h → gprofile_wf p → fits (hd_symbols h) (psymbols_of p) →
  ∃ sy p1 r1 h2 p2 r2 spt,
    ingest_tables (hd_symbols h) (psymbols_of p) = Ret (sy, p1, r1) ∧
    convertSamples (mkHead sy (hd_profiles h) (hd_samples h) (hd_index h) (hd_delta h) (hd_labels h) (hd_min h) (hd_max h) (hd_totalSamples h))
      p1 r1 (gp_Sample p) = Ret (h2, p2, r2, spt) ∧
    head_ok h2 ∧ symbols_extends (hd_symbols h) (hd_symbols h2) ∧ head_le h h2 ∧
    hd_index h2 = hd_index h ∧ hd_min h2 = hd_min h ∧ hd_max h2 = hd_max h ∧
    strings_map (gp_StringTable p) (r_strings r2) (d_slice (sy_strings (hd_symbols h2))) ∧
    length spt = length (gp_SampleType p) ∧
    ∀ t ss i s, spt !! t = Some ss → gp_Sample p !! i = Some s → length ss = length (gp_Sample p) ∧
      ∃ sa, ss !! i = Some sa ∧ ∀ h3, hd_symbols h3 = hd_symbols h2 → sample_kept h3 p2 p t s sa.
Proof.
  intros [Hsy Hix Hlc] Hwf Hfit.
  destruct (ingest_symbols_spec _ _ Hsy (gw_symbols p Hwf) Hfit) as (sy2 & p2 & r2 & Heq & Hsy2 & Hext & Hst).
  destruct (ingest_symbols_split _ _ _ _ _ Heq) as (sy1 & p1 & r1 & Htab & Hstk).
  destruct (ingest_tables_spec _ _ Hsy (gw_symbols p Hwf) Hfit) as (sy1' & p1' & r1' & Htab' & Hspec).
  rewrite Htab in Htab'. injection Htab' as <- <- <-.
  destruct (ingest_stacks_strings _ _ _ _ _ _ Hstk) as [Hstr Hrs].
  pose proof (tb_strings_map _ _ _ _ _ Hspec) as Hmap. simpl in Hmap. rewrite <- Hstr in Hmap.
  exists sy1, p1, r1. unfold convertSamples. simpl.
  destruct (rewrite_all_spec (gp_StringTable p) (r_strings r1) (d_slice (sy_strings sy2)) (gp_Sample p) (hd_labels h) Hlc Hmap (gw_labels p Hwf))
    as (lc & lss & Erw & Hlc2 & Hlss). rewrite Erw. simpl. rewrite Hstk. simpl.
  destruct (samples_per_type (gp_StringTable p) (d_slice (sy_strings sy2)) r2 (gp_Sample p) lss _ Hlss (gw_values p Hwf))
    as (spt & Espt & Hlen & Hconv).
  destruct (gp_Sample p) as [|s0 ss0] eqn:Ess; [by destruct (gw_samples p Hwf)|].
  assert (Hv0 : length (gs_Value s0) = length (gp_SampleType p)).
  { pose proof (gw_values p Hwf) as Hv. rewrite Ess in Hv. by apply Forall_cons in Hv as [? _]. }
  rewrite Hv0, Espt. simpl. do 4 eexists. split_and!; [done|done|by split|done| |done|done|done|by rewrite Hrs|done|].
  { split; simpl; [done|done|]. intros fp pl Hpl. by exists pl. }
  intros t ss i s Hss Hs. destruct (Hconv t ss Hss) as [Hl Hget]. split; [done|].
  destruct (Hget i s Hs) as (v & ls & Hv & Hls & Hsa). eexists. split; [exact Hsa|]. intros h3 Hh3.
  destruct (Hst i (mkStacktrace (gs_LocationId s))) as (sid & g & Hsid & _ & Hslot & Hview).
  { simpl. rewrite Ess, list_lookup_fmap, Hs. done. }
  unfold sample_kept. rewrite Hh3. simpl. rewrite Hsid. simpl. split_and!; [done|done|]. by exists g.
Qed.
End IngestTheorem.


(** A profile with two sample types and two samples, one with a label. *)
Definition example_profile : GProfile := mkGProfile
  [mkValueType 4 5; mkValueType 6 7]
  [mkGSample [3; 8]%N [1; 200]%Z [mkPLabel 2 3 0 0]; mkGSample [8]%N [4; 500]%Z []]
  (ps_mappings example_psymbols) (ps_locations example_psymbols) (ps_functions example_psymbols)
  [""; "main.go"; "main"; "run"; "samples"; "count"; "cpu"; "nanoseconds"]
  0 0 1000 10 (Some (mkValueType 6 7)) 0 [2]%Z 0.

Lemma example_profile_wf : gprofile_wf example_profile.
Proof.
  split; try done.
  - split; simpl; try done; try (split; [by apply (bool_decide_unpack _)|by repeat constructor]);
      repeat constructor; vm_compute; naive_solver eauto.
  - repeat constructor; vm_compute; eauto.
  - split; vm_compute; eauto.
  - repeat constructor; vm_compute; eauto.
  - repeat constructor.
Qed.

Lemma NewHead_ok `{Sizeof, Hasher} : ∃ h, NewHead = Ret h ∧ head_ok h ∧
  sy_mappings (hd_symbols h) = Init ∧ sy_functions (hd_symbols h) = Init ∧ sy_locations (hd_symbols h) = Init ∧
  sy_stacktraces (hd_symbols h) = Init.
Proof.
  unfold NewHead. destruct newProfileIndex_inv as (pi & -> & Hinv & _). simpl. eexists. split; [done|].
  split_and!; try done. split; simpl; [split; apply table_ok_Init|done|]. intros k l. simpl. by rewrite lookup_empty.
Qed.

