(* ===== verification/HeadQuery.v ===== *)
(** * Queries on the head block

    The aggregations of [pkg/phlaredb/head.go] over selected profiles: the merge of
    samples by stack trace with their function names, the merge into series by
    labels, and the label and series listings.  The conversion of an [int64] to
    [float64] is a parameter. *)

From S2P Require Import Sorting Prelude Labels GoHeap Iter Shard InvertedIndex Dedup Symbols Delta ProfilesIndex Head.

(** ** Loops over iterators *)

(** [for rows.Next() { body }]: the state after the loop and the iterator where
    [Next] returned false; a failing body ends the loop. *)
Fixpoint iter_fold {St A S : Type} `{Iterator St A} (fuel : nat) (body : A → S → outcome S) (it : St) (s : S) : outcome (St * S) :=
  match fuel with
  | O => Ret (it, s)
  | S fuel =>
      match Next it with
      | (false, it') => Ret (it', s)
      | (true, it') => obind (body (At it') s) (iter_fold fuel body it')
      end
  end.

Definition for_rows {St A S : Type} `{Iterator St A} (body : A → S → outcome S) (it : St) (s : S) : outcome (St * S) :=
  iter_fold (Datatypes.S (remaining it)) body it s.

Fixpoint fold_outcome {A S : Type} (body : A → S → outcome S) (l : list A) (s : S) : outcome S :=
  match l with
  | [] => Ret s
  | x :: l => obind (body x s) (fold_outcome body l)
  end.

Lemma iter_fold_yields {St A S : Type} `{Iterator St A} (body : A → S → outcome S) it l e :
  yields it l e → ∀ fuel s, length l < fuel →
  iter_fold fuel body it s = obind (fold_outcome body l s) (λ s', Ret (e, s')).
Proof.
  induction 1 as [it it' Hn|it it' l e Hn _ IH]; intros [|fuel] s Hf; simpl in *; try lia; rewrite Hn; [done|].
  destruct (body (At it') s); simpl; [|done|done]. apply IH. lia.
Qed.

Lemma for_rows_yields {St A S : Type} `{Iterator St A, !IteratorOk St A} (body : A → S → outcome S) it l e s :
  yields it l e → for_rows body it s = obind (fold_outcome body l s) (λ s', Ret (e, s')).
Proof. intros Hy. apply iter_fold_yields; [done|]. pose proof (yields_length _ _ _ Hy). lia. Qed.

(** An invariant of the state indexed by what has been visited. *)
Lemma fold_outcome_inv {A S : Type} (body : A → S → outcome S) (I : list A → S → Prop) l : ∀ done s,
  I done s → (∀ pre x s, x ∈ l → I pre s → ∃ s', body x s = Ret s' ∧ I (pre ++ [x]) s') →
  ∃ s', fold_outcome body l s = Ret s' ∧ I (done ++ l) s'.
Proof.
  induction l as [|x l IH]; intros pre s HI Hstep; simpl.
  - exists s. by rewrite (right_id_L [] (++)).
  - destruct (Hstep pre x s ltac:(left) HI) as (s1 & -> & HI1). simpl.
    destruct (IH (pre ++ [x]) s1 HI1) as (s' & -> & HI'); [intros pre' y s2 Hy; apply Hstep; by right|].
    exists s'. split; [done|]. by rewrite <- (assoc_L (++)) in HI'.
Qed.

(** ** MergeByStacktraces *)

Definition i32 (z : Z) : Z := ((z + 2 ^ 31) `mod` 2 ^ 32 - 2 ^ 31)%Z.

(** [ingestv1.StacktraceSample]. *)
Record StacktraceSample := mkStacktraceSample { ss_FunctionIds : list Z; ss_Value : Z }.

Record merge_state := mkMerge {
  mg_samples : gmap N StacktraceSample;
  mg_names : list string;
  mg_functions : gmap Z nat }.

(** Indexing a slice with an [int64]. *)
Definition at_i64 {A} (l : list A) (i : Z) : outcome A :=
  if (i <? 0)%Z then Panic else of_option (l !! Z.to_nat i).

Definition resolve_line (h : symbols) (line : Line) (acc : list Z * list string * gmap Z nat)
    : outcome (list Z * list string * gmap Z nat) :=
  let '(fnIds, names, functions) := acc in
  obind (of_option (slot (d_slice (sy_functions h)) (ln_FunctionId line))) (λ fn,
    match functions !! fn_Name fn with
    | None =>
        obind (at_i64 (d_slice (sy_strings h)) (fn_Name fn)) (λ name,
          Ret (fnIds ++ [i32 (Z.of_nat (length names))], names ++ [name], <[fn_Name fn := length names]> functions))
    | Some pos => Ret (fnIds ++ [i32 (Z.of_nat pos)], names, functions)
    end).

Definition resolve_loc (h : symbols) (loc : N) (acc : list Z * list string * gmap Z nat)
    : outcome (list Z * list string * gmap Z nat) :=
  obind (of_option (slot (d_slice (sy_locations h)) loc)) (λ l, fold_outcome (resolve_line h) (lc_Line l) acc).

Definition merge_sample (h : symbols) (s : Sample) (m : merge_state) : outcome merge_state :=
  if (sa_Value s =? 0)%Z then Ret m
  else
    match mg_samples m !! sa_StacktraceID s with
    | Some existing =>
        Ret (mkMerge (<[sa_StacktraceID s := mkStacktraceSample (ss_FunctionIds existing) (i64 (ss_Value existing + sa_Value s))]> (mg_samples m))
               (mg_names m) (mg_functions m))
    | None =>
        obind (of_option (slot (d_slice (sy_stacktraces h)) (sa_StacktraceID s))) (λ st,
        obind (fold_outcome (resolve_loc h) (st_LocationIDs st) ([], mg_names m, mg_functions m)) (λ '(fnIds, names, functions),
          Ret (mkMerge (<[sa_StacktraceID s := mkStacktraceSample fnIds (sa_Value s)]> (mg_samples m)) names functions)))
    end.

Definition merge_profile (h : Head) (p : ProfileWithLabels) (m : merge_state) : outcome merge_state :=
  fold_outcome (λ r m, obind (deref (hd_samples h) r) (λ s, merge_sample (hd_symbols h) s m)) (sp_Samples (pw_profile p)) m.

(** The map of samples, whose values are returned in unspecified order, and the names. *)
Definition MergeByStacktraces {St : Type} `{Iterator St ProfileWithLabels} (h : Head) (rows : St)
    : outcome (gmap N StacktraceSample * list string) :=
  obind (for_rows (merge_profile h) rows (mkMerge ∅ [] ∅)) (λ '(rows, m),
    match Err rows with
    | Some e => Fail e
    | None => Ret (mg_samples m, mg_names m)
    end).

(** *** Specification *)

(** The function names of a resolved stack trace, inlined frames first. *)
Definition loc_names (lv : N * list (fview * Z)) : list string := (λ fl, v_name fl.1) <$> lv.2.
Definition stack_names (v : list (N * list (fview * Z))) : list string := concat (loc_names <$> v).

(** The 32-bit identifier stands for the name. *)
Definition points (names : list string) (id : Z) (s : string) : Prop :=
  ∃ pos, id = i32 (Z.of_nat pos) ∧ names !! pos = Some s.

Definition names_ok (T : list string) (names : list string) (functions : gmap Z nat) : Prop :=
  ∀ fid pos, functions !! fid = Some pos → ∃ s, names !! pos = Some s ∧ str T fid = Some s.

Definition sum_of (sid : N) (ss : list Sample) : Z :=
  foldr (λ s z, if decide (sa_StacktraceID s = sid) then (sa_Value s + z)%Z else z) 0%Z ss.

Lemma points_prefix names names' ids ss :
  names `prefix_of` names' → Forall2 (points names) ids ss → Forall2 (points names') ids ss.
Proof.
  intros Hp Hf. eapply Forall2_impl; [exact Hf|]. intros id s (pos & -> & Hpos). exists pos. split; [done|].
  exact (prefix_lookup_Some _ _ _ _ Hpos Hp).
Qed.

Lemma names_ok_prefix T names names' fs : names `prefix_of` names' → names_ok T names fs → names_ok T names' fs.
Proof.
  intros Hp Hok fid pos (s & Hs & ?)%Hok. exists s. split; [|done]. exact (prefix_lookup_Some _ _ _ _ Hs Hp).
Qed.

(** What a step that resolves names does to the accumulator. *)
Record resolved_to (T : list string) (names : list string) (out : list string) (ids : list Z)
    (acc : outcome (list Z * list string * gmap Z nat)) : Prop := {
  rs_result : ∃ new names' fs', acc = Ret (ids ++ new, names', fs') ∧ names `prefix_of` names' ∧ names_ok T names' fs' ∧
    Forall2 (points names') new out }.

Lemma resolve_line_spec h line v ids names fs :
  names_ok (d_slice (sy_strings h)) names fs →
  line_view (d_slice (sy_strings h)) (slot (d_slice (sy_functions h))) line = Some v →
  resolved_to (d_slice (sy_strings h)) names [v_name v.1] ids (resolve_line h line (ids, names, fs)).
Proof.
  intros Hok (fn & Hfn & (fv & Hfv & [= <-])%bind_Some)%bind_Some. unfold resolve_line. rewrite Hfn. simpl.
  apply fn_view_Some in Hfv as (Hn & _). constructor. destruct (fs !! fn_Name fn) as [pos|] eqn:E.
  - destruct (Hok _ _ E) as (s & Hs & Hstr). assert (s = v_name fv) as -> by congruence.
    eexists _, _, _. split; [done|]. split_and!; [done|done|]. repeat constructor. by exists pos.
  - unfold at_i64. unfold str in Hn. destruct (fn_Name fn <? 0)%Z eqn:Ez; [done|]. rewrite Hn. simpl.
    eexists _, _, _. split; [done|]. split_and!; [by eexists| |].
    + intros fid pos [[<- <-]|[_ Hp]]%lookup_insert_Some.
      * exists (v_name fv). rewrite list_lookup_middle by done. unfold str. by rewrite Ez.
      * destruct (Hok _ _ Hp) as (s & Hs & ?). exists s. split; [by apply lookup_app_l_Some|done].
    + repeat constructor. exists (length names). split; [done|]. by apply list_lookup_middle.
Qed.

(** Resolving one item after another. *)
Lemma fold_resolved {A B} T (body : A → list Z * list string * gmap Z nat → outcome (list Z * list string * gmap Z nat))
    (view : A → option B) (out : B → list string) l : ∀ vs ids names fs,
  (∀ x v ids names fs, x ∈ l → names_ok T names fs → view x = Some v → resolved_to T names (out v) ids (body x (ids, names, fs))) →
  names_ok T names fs → mapM view l = Some vs →
  resolved_to T names (concat (out <$> vs)) ids (fold_outcome body l (ids, names, fs)).
Proof.
  induction l as [|x l IH]; intros vs ids names fs Hbody Hok Hvs; simpl in *.
  - injection Hvs as <-. constructor. exists [], names, fs. rewrite (right_id_L [] (++)). split_and!; [done|done|done|constructor].
  - apply bind_Some in Hvs as (v & Hv & (vs' & Hvs' & [= <-])%bind_Some).
    destruct (Hbody x v ids names fs ltac:(left) Hok Hv) as [(new & names1 & fs1 & -> & Hp1 & Hok1 & Hn1)]. simpl.
    destruct (IH vs' (ids ++ new) names1 fs1) as [(new2 & names2 & fs2 & -> & Hp2 & Hok2 & Hn2)]; [|done|done|].
    { intros y w ids' n' f' Hy. apply Hbody. by right. }
    constructor. exists (new ++ new2), names2, fs2. rewrite (assoc_L (++)). split_and!; [done|by etrans|done|].
    csimpl. apply Forall2_app; [by eapply points_prefix|done].
Qed.

Lemma resolve_stack_spec h st v names fs :
  names_ok (d_slice (sy_strings h)) names fs → h_stack_view h st = Some v →
  resolved_to (d_slice (sy_strings h)) names (stack_names v) []
    (fold_outcome (resolve_loc h) (st_LocationIDs st) ([], names, fs)).
Proof.
  intros Hok Hv. unfold stack_names.
  apply (fold_resolved _ _ (λ id, l ← slot (d_slice (sy_locations h)) id; loc_view (d_slice (sy_strings h)) (slot (d_slice (sy_functions h))) l)
    loc_names); [|done|exact Hv].
  clear. intros id lv ids names fs _ Hok (l & Hl & Hlv)%bind_Some. unfold resolve_loc. rewrite Hl. simpl.
  unfold loc_view in Hlv. apply bind_Some in Hlv as (lines & Hlines & [= <-]). unfold loc_names. simpl.
  assert (Hc : (λ fl : fview * Z, v_name fl.1) <$> lines = concat ((λ fl, [v_name fl.1]) <$> lines)).
  { clear. induction lines as [|x lines IH]; csimpl; [done|]. by rewrite IH. }
  rewrite Hc. apply (fold_resolved _ _ (line_view (d_slice (sy_strings h)) (slot (d_slice (sy_functions h)))) (λ fl, [v_name fl.1])); [|done|done].
  intros line v ids' n' f' _. apply resolve_line_spec.
Qed.

(** The state of the merge after the samples [ss]. *)
Record merged (h : symbols) (ss : list Sample) (m : merge_state) : Prop := {
  me_names : names_ok (d_slice (sy_strings h)) (mg_names m) (mg_functions m);
  me_none : ∀ sid, mg_samples m !! sid = None → ∀ s, s ∈ ss → sa_StacktraceID s = sid → sa_Value s = 0%Z;
  me_some : ∀ sid e, mg_samples m !! sid = Some e →
    (∃ s, s ∈ ss ∧ sa_StacktraceID s = sid ∧ sa_Value s ≠ 0%Z) ∧ ss_Value e = i64 (sum_of sid ss) ∧
    ∃ st v, slot (d_slice (sy_stacktraces h)) sid = Some st ∧ h_stack_view h st = Some v ∧
      Forall2 (points (mg_names m)) (ss_FunctionIds e) (stack_names v) }.

(** A sample whose stack trace resolves. *)
Definition sample_ok (h : symbols) (s : Sample) : Prop :=
  int64_range (sa_Value s) ∧
  ∃ st v, slot (d_slice (sy_stacktraces h)) (sa_StacktraceID s) = Some st ∧ h_stack_view h st = Some v.

Lemma sum_of_app sid l k : sum_of sid (l ++ k) = (sum_of sid l + sum_of sid k)%Z.
Proof. induction l as [|s l IH]; simpl; [done|]. case_decide; rewrite IH; lia. Qed.

Lemma sum_of_zero sid l : (∀ s, s ∈ l → sa_StacktraceID s = sid → sa_Value s = 0%Z) → sum_of sid l = 0%Z.
Proof.
  induction l as [|s l IH]; intros Hz; simpl; [done|]. rewrite IH by (intros; apply Hz; set_solver).
  case_decide; [|done]. rewrite (Hz s) by set_solver. done.
Qed.

Lemma merge_sample_spec h ss s m :
  sample_ok h s → merged h ss m → ∃ m', merge_sample h s m = Ret m' ∧ merged h (ss ++ [s]) m'.
Proof.
  intros [Hrange (st & v & Hst & Hv)] [M1 M2 M3]. unfold merge_sample.
  destruct (sa_Value s =? 0)%Z eqn:Ez; bool_prop.
  { exists m. split; [done|]. split; [done| |].
    - intros sid Hn x [Hx| ->%list_elem_of_singleton]%elem_of_app Hsid; [by eapply M2|done].
    - intros sid e He. destruct (M3 _ _ He) as ((x & ? & ? & ?) & Hval & Hst'). split_and!; [exists x; set_solver| |done].
      rewrite sum_of_app, Hval. simpl. case_decide; rewrite ?Ez; f_equal; lia. }
  destruct (mg_samples m !! sa_StacktraceID s) as [e|] eqn:Ee.
  - eexists. split; [done|]. split; simpl; [done| |].
    + intros sid [Hsid Hn]%lookup_insert_None x [Hx| ->%list_elem_of_singleton]%elem_of_app Hxs; [by eapply M2|congruence].
    + intros sid e' [[<- <-]|[Hne He']]%lookup_insert_Some.
      * destruct (M3 _ _ Ee) as ((x & ? & ? & ?) & Hval & Hst'). split_and!; [exists x; set_solver| |done]. simpl.
        rewrite Hval, i64_add_l, sum_of_app. simpl. rewrite decide_True by done. f_equal. lia.
      * destruct (M3 _ _ He') as ((x & ? & ? & ?) & Hval & Hst'). split_and!; [exists x; set_solver| |done].
        rewrite sum_of_app. simpl. by rewrite decide_False, Z.add_0_r by done.
  - rewrite Hst. simpl. destruct (resolve_stack_spec h st v (mg_names m) (mg_functions m) M1 Hv) as [(new & names' & fs' & -> & Hp & Hok' & Hpts)].
    simpl. eexists. split; [done|]. split; simpl; [done| |].
    + intros sid [Hsid Hn]%lookup_insert_None x [Hx| ->%list_elem_of_singleton]%elem_of_app Hxs; [by eapply M2|congruence].
    + intros sid e' [[<- <-]|[Hne He']]%lookup_insert_Some.
      * split_and!; [exists s; set_solver| |exists st, v; done]. simpl.
        rewrite sum_of_app, (sum_of_zero _ ss) by (by apply M2). simpl. rewrite decide_True by done.
        rewrite Z.add_0_r, Z.add_0_l. symmetry. by apply i64_small.
      * destruct (M3 _ _ He') as ((x & ? & ? & ?) & Hval & (st' & v' & ? & ? & Hpts')). split_and!; [exists x; set_solver| |].
        -- rewrite sum_of_app. simpl. by rewrite decide_False, Z.add_0_r by done.
        -- exists st', v'. split_and!; [done|done|by eapply points_prefix].
Qed.

Definition all_samples (h : Head) (l : list ProfileWithLabels) : list Sample :=
  concat ((λ p, omap (hd_samples h !!.) (sp_Samples (pw_profile p))) <$> l).

Definition profile_ok (h : Head) (p : ProfileWithLabels) : Prop :=
  Forall (λ r, ∃ s, hd_samples h !! r = Some s ∧ sample_ok (hd_symbols h) s) (sp_Samples (pw_profile p)).

Lemma merge_profile_spec h p ss m :
  profile_ok h p → merged (hd_symbols h) ss m →
  ∃ m', merge_profile h p m = Ret m' ∧ merged (hd_symbols h) (ss ++ omap (hd_samples h !!.) (sp_Samples (pw_profile p))) m'.
Proof.
  intros Hok Hm. unfold merge_profile.
  destruct (fold_outcome_inv (λ r m, obind (deref (hd_samples h) r) (λ s, merge_sample (hd_symbols h) s m))
    (λ rs m, merged (hd_symbols h) (ss ++ omap (hd_samples h !!.) rs) m) (sp_Samples (pw_profile p)) [] m) as (m' & Hm' & HI).
  - simpl. by rewrite (right_id_L [] (++)).
  - intros pre r m0 Hr HI. unfold profile_ok in Hok. rewrite Forall_forall in Hok. destruct (Hok r Hr) as (s & Hs & Hsok).
    unfold deref. rewrite Hs. simpl. destruct (merge_sample_spec _ _ s m0 Hsok HI) as (m1 & Hm1 & HI1).
    exists m1. split; [done|]. rewrite omap_app. simpl. rewrite Hs. simpl. by rewrite (assoc_L (++)).
  - eauto.
Qed.

(** The name an identifier stands for. *)
Definition name_at (names : list string) (id : Z) : option string := if (id <? 0)%Z then None else names !! Z.to_nat id.

Lemma points_name names ids ss :
  (Z.of_nat (length names) < 2 ^ 31)%Z → Forall2 (points names) ids ss → mapM (name_at names) ids = Some ss.
Proof.
  intros Hlen Hf. apply mapM_Some. eapply Forall2_impl; [exact Hf|]. intros id s (pos & -> & Hpos).
  apply lookup_lt_Some in Hpos as Hlt. unfold name_at, i32. rewrite Z.mod_small by lia.
  destruct (Z.ltb_spec (Z.of_nat pos + 2 ^ 31 - 2 ^ 31) 0); [lia|].
  by replace (Z.to_nat (Z.of_nat pos + 2 ^ 31 - 2 ^ 31)) with pos by lia.
Qed.

(** C34: [MergeByStacktraces] aggregates the samples of the selected profiles by
    stack trace.  When the iterator ends without an error and the stack traces of the
    samples resolve in the head, the merge succeeds; it has an entry for exactly the
    stack traces with a non-zero sample, the entry's value is the (wrapping 64-bit) sum of
    the values of that stack trace over all profiles, and its function identifiers,
    looked up in the table of names returned, are the function names of the stack
    trace, frame by frame with inlined functions, as long as the names fit 31 bits. *)
Theorem MergeByStacktraces_correct {St : Type} `{Iterator St ProfileWithLabels, !IteratorOk St ProfileWithLabels}
    (h : Head) (rows : St) (l : list ProfileWithLabels) (e : St) :
  yields rows l e → Err e = None → Forall (profile_ok h) l →
  let ss := all_samples h l in
  ∃ res names, MergeByStacktraces h rows = Ret (res, names) ∧
    (∀ sid, is_Some (res !! sid) ↔ ∃ s, s ∈ ss ∧ sa_StacktraceID s = sid ∧ sa_Value s ≠ 0%Z) ∧
    ∀ sid x, res !! sid = Some x → ss_Value x = i64 (sum_of sid ss) ∧
      ∃ st v, slot (d_slice (sy_stacktraces (hd_symbols h))) sid = Some st ∧ h_stack_view (hd_symbols h) st = Some v ∧
        ((Z.of_nat (length names) < 2 ^ 31)%Z → mapM (name_at names) (ss_FunctionIds x) = Some (stack_names v)).
Proof.
  intros Hy Herr Hok ss. unfold MergeByStacktraces. rewrite (for_rows_yields _ _ _ _ _ Hy).
  destruct (fold_outcome_inv (merge_profile h) (λ ps m, merged (hd_symbols h) (all_samples h ps) m) l [] (mkMerge ∅ [] ∅))
    as (m & -> & [M1 M2 M3]).
  - split; simpl; [intros fid pos; by rewrite lookup_empty|set_solver|intros sid x; by rewrite lookup_empty].
  - intros pre p m0 Hp HI. rewrite Forall_forall in Hok. destruct (merge_profile_spec h p _ m0 (Hok p Hp) HI) as (m1 & ? & HI1).
    exists m1. split; [done|]. unfold all_samples in *. rewrite fmap_app, concat_app. simpl. by rewrite (right_id_L [] (++)).
  - simpl in *. rewrite Herr. eexists _, _. split; [done|]. split.
    + intros sid. split; [intros [x Hx]; by apply M3 in Hx as [? _]|]. intros (s & Hs & Hsid & Hv).
      destruct (mg_samples m !! sid) eqn:E; [by eexists|]. destruct Hv. by eapply M2.
    + intros sid x (_ & Hval & st & v & Hst & Hv & Hpts)%M3. split; [done|]. exists st, v. split_and!; [done|done|].
      intros Hlen. by apply points_name.
Qed.

Definition merge_example_head : Head :=
  mkHead (mkSymbols (mkDslice ["main"] 4 ∅ 0) Init (mkDslice [mkFunction 0 0 0 0 0] 0 ∅ 0)
            (mkDslice [mkLocation 0 0 1 [mkLine 0 1] false] 0 ∅ 0) (mkDslice [mkStacktrace [0%N]] 0 ∅ 0))
    Init [mkSample 0 5 []; mkSample 0 7 []] (mkProfilesIndex (mkBitPrefix 0 []) ∅ 0 0) ∅ label_init 0 0 0.

Global Instance slice_iter_ok `{GoZero A} : IteratorOk (sliceIterator A) A.
Proof. intros [l c] s'. simpl. unfold slice_next. simpl. destruct l; [done|]. intros [= <-]. simpl. lia. Qed.

Lemma MergeByStacktraces_witness :
  ∃ res names, MergeByStacktraces merge_example_head (NewSliceIterator [mkPWL (select_profile 5 1) [] 5; mkPWL (mkSProfile "b" 0 5 [0; 1] 0 0 2 0 0 [] 0) [] 5]) = Ret (res, names) ∧
    ∀ x, res !! 0%N = Some x → ss_Value x = 12%Z.
Proof.
  destruct (MergeByStacktraces_correct merge_example_head
    (NewSliceIterator [mkPWL (select_profile 5 1) [] 5; mkPWL (mkSProfile "b" 0 5 [0; 1] 0 0 2 0 0 [] 0) [] 5])
    [mkPWL (select_profile 5 1) [] 5; mkPWL (mkSProfile "b" 0 5 [0; 1] 0 0 2 0 0 [] 0) [] 5] (mkSliceIterator [] zero))
    as (res & names & Heq & _ & Hval).
  - apply slice_yields.
  - reflexivity.
  - assert (Hok : ∀ v, int64_range v → sample_ok (hd_symbols merge_example_head) (mkSample 0 v [])).
    { intros v Hv. split; [exact Hv|]. exists (mkStacktrace [0%N]), [(1%N, [(mkFview "main" "main" "main" 0, 1%Z)])].
      split; reflexivity. }
    apply Forall_cons. split; [apply Forall_nil; exact I|]. apply Forall_cons. split; [|apply Forall_nil; exact I].
    apply Forall_cons. split; [exists (mkSample 0 5 []); split; [reflexivity|apply Hok; split; discriminate]|].
    apply Forall_cons. split; [exists (mkSample 0 7 []); split; [reflexivity|apply Hok; split; discriminate]|].
    apply Forall_nil. exact I.
  - exists res, names. split; [exact Heq|]. intros x Hx. exact (proj1 (Hval _ _ Hx)).
Defined.

(** ** MergeByLabels *)

Section MergeByLabels.
(** [float64] and the conversion to it, [TimeFromUnixNano], and the order in which
    [lo.Values] visits a map. *)
Context {F : Type} (to_float : Z → F) (TimeFromUnixNano : Z → Z).

Record Series := mkSeriesOf { sr_Labels : Labels; sr_Points : list (Z * F) }.

Context (values : gmap string Series → list Series).

(** [Profile.Total]. *)
Definition Total (H : store) (p : SProfile) : outcome Z :=
  obind (omapM (deref H) (sp_Samples p)) (λ ss, Ret (foldl (λ t s, i64 (t + sa_Value s)) 0%Z ss)).

(** A point is added to the series of the labels asked for, which is looked up by the fingerprint. *)
Definition add_point (by_ : list string) (fp : N) (lbs : Labels) (point : Z * F) (st : gmap N string * gmap string Series)
    : outcome (gmap N string * gmap string Series) :=
  let '(byFP, series) := st in
  let add key s := <[key := mkSeriesOf (sr_Labels s) (sr_Points s ++ [point])]> series in
  match byFP !! fp with
  | Some key => obind (of_option (series !! key)) (λ s, Ret (byFP, add key s))
  | None =>
      let key := BytesWithLabels lbs by_ in
      let byFP := <[fp := key]> byFP in
      match series !! key with
      | None => Ret (byFP, <[key := mkSeriesOf (WithLabels lbs by_) [point]]> series)
      | Some s => Ret (byFP, add key s)
      end
  end.

Definition merge_labels_body (H : store) (by_ : list string) (p : ProfileWithLabels)
    (st : gmap N string * gmap string Series) : outcome (gmap N string * gmap string Series) :=
  obind (Total H (pw_profile p)) (λ total, add_point by_ (pw_fp p) (pw_lbs p) (sp_Timestamp TimeFromUnixNano (pw_profile p), to_float total) st).

Definition point_less (a b : Z * F) : bool := (a.1 <? b.1)%Z.
Definition series_less (a b : Series) : bool := (CompareLabelPairs (sr_Labels a) (sr_Labels b) <? 0)%Z.

(** The series by their labels, the points of each by time. *)
Definition sorted_series (series : gmap string Series) : list Series :=
  (λ s, mkSeriesOf (sr_Labels s) (sort_slice point_less (sr_Points s))) <$> sort_slice series_less (values series).

Definition MergeByLabels {St : Type} `{Iterator St ProfileWithLabels} (H : store) (rows : St) (by_ : list string)
    : outcome (list Series) :=
  obind (for_rows (merge_labels_body H by_) rows (∅, ∅)) (λ '(rows, (_, series)),
    match Err rows with
    | Some e => Fail e
    | None => Ret (sorted_series series)
    end).
End MergeByLabels.

Lemma series_less_order {F : Type} :
  (∀ x y z : Series (F := F), series_less y x = false → series_less z y = false → series_less z x = false) ∧
  (∀ x y : Series (F := F), series_less x y = true → series_less y x = false).
Proof.
  unfold series_less. split.
  - intros x y z Hxy Hyz. bool_prop. apply Z.ltb_ge.
    pose proof (CompareLabelPairs_opp (sr_Labels x) (sr_Labels y)). pose proof (CompareLabelPairs_opp (sr_Labels y) (sr_Labels z)).
    pose proof (CompareLabelPairs_opp (sr_Labels x) (sr_Labels z)).
    pose proof (CompareLabelPairs_le_trans (sr_Labels x) (sr_Labels y) (sr_Labels z)). lia.
  - intros x y Hxy. bool_prop. apply Z.ltb_ge. pose proof (CompareLabelPairs_opp (sr_Labels x) (sr_Labels y)). lia.
Qed.

Lemma point_less_order {F : Type} :
  (∀ x y z : Z * F, point_less y x = false → point_less z y = false → point_less z x = false) ∧
  (∀ x y : Z * F, point_less x y = true → point_less y x = false).
Proof. unfold point_less. split; intros; bool_prop; apply Z.ltb_ge; lia. Qed.

Section SeriesSpec.
Context {F : Type} (by_ : list string).

(** What is merged: a fingerprint, labels and a point. *)
Abbreviation labeled_point := (N * Labels * (Z * F))%type (only parsing).
Implicit Types (e q : N * Labels * (Z * F)) (es : list (N * Labels * (Z * F))).

Definition group_of e : string := BytesWithLabels e.1.2 by_.

Record grouped es (st : gmap N string * gmap string (Series (F := F))) : Prop := {
  gr_fp : ∀ e, e ∈ es → st.1 !! e.1.1 = Some (group_of e);
  gr_fp_from : ∀ fp k, st.1 !! fp = Some k → ∃ e, e ∈ es ∧ e.1.1 = fp;
  gr_none : ∀ k, st.2 !! k = None → ∀ e, e ∈ es → group_of e ≠ k;
  gr_some : ∀ k s, st.2 !! k = Some s → sr_Points s = snd <$> filter (λ e, group_of e = k) es ∧
    ∃ e, e ∈ es ∧ group_of e = k ∧ sr_Labels s = WithLabels e.1.2 by_ }.

Lemma grouped_nil : grouped [] (∅, ∅).
Proof. split; simpl; [set_solver|intros ? ?; by rewrite lookup_empty|set_solver|intros ? ?; by rewrite lookup_empty]. Qed.

(** A point is added to the series of a group. *)
Lemma grouped_add es e byFP series s :
  grouped es (byFP, series) → series !! group_of e = Some s →
  (∀ q, q ∈ es ++ [e] → <[e.1.1 := group_of e]> byFP !! q.1.1 = Some (group_of q)) →
  grouped (es ++ [e]) (<[e.1.1 := group_of e]> byFP, <[group_of e := mkSeriesOf (sr_Labels s) (sr_Points s ++ [e.2])]> series).
Proof.
  intros [G1 G2 G3 G4] Hs Hfp. split; simpl in *.
  - done.
  - intros fp k [[<- _]|[_ Hk]]%lookup_insert_Some; [exists e; set_solver|]. destruct (G2 _ _ Hk) as (q & ? & ?). exists q. set_solver.
  - intros k [Hk Hne]%lookup_insert_None q [Hq| ->%list_elem_of_singleton]%elem_of_app; [by eapply G3|congruence].
  - intros k s' [[<- <-]|[Hne Hk]]%lookup_insert_Some.
    + destruct (G4 _ _ Hs) as (Hp & q & Hq & Hgq & Hl). simpl. rewrite filter_app, fmap_app, Hp. split.
      * rewrite filter_cons_True by done. by rewrite filter_nil.
      * exists q. set_solver.
    + destruct (G4 _ _ Hk) as (Hp & q & Hq & Hgq & Hl). rewrite filter_app, fmap_app, <- Hp.
      rewrite filter_cons_False by congruence. rewrite filter_nil. simpl. rewrite (right_id_L [] (++)).
      split; [done|]. exists q. set_solver.
Qed.

Lemma add_point_spec es e st : (∀ q, q ∈ es → q.1.1 = e.1.1 → q.1.2 = e.1.2) → grouped es st →
  ∃ st', add_point by_ e.1.1 e.1.2 e.2 st = Ret st' ∧ grouped (es ++ [e]) st'.
Proof.
  intros Hdet Hg. destruct st as [byFP series]. pose proof Hg as [G1 G2 G3 G4]. simpl in *.
  assert (Hfp : ∀ q, q ∈ es ++ [e] → <[e.1.1 := group_of e]> byFP !! q.1.1 = Some (group_of q)).
  { intros q [Hq| ->%list_elem_of_singleton]%elem_of_app; [|by rewrite lookup_insert_eq].
    destruct (decide (q.1.1 = e.1.1)) as [E|E]; [|rewrite lookup_insert_ne by done; by apply G1].
    rewrite E, lookup_insert_eq. unfold group_of. by rewrite (Hdet q). }
  unfold add_point. fold (group_of e). destruct (byFP !! e.1.1) as [k|] eqn:Ek.
  - destruct (G2 _ _ Ek) as (q & Hq & Hqf). pose proof (G1 _ Hq) as Hgq. rewrite Hqf, Ek in Hgq. injection Hgq as ->.
    assert (Egp : group_of q = group_of e) by (unfold group_of; by rewrite (Hdet q)).
    destruct (series !! group_of q) as [s|] eqn:Es; [|by destruct (G3 _ Es q Hq)]. simpl. eexists. split; [done|].
    rewrite <- (insert_id byFP e.1.1 (group_of e)) by (by rewrite Ek, Egp). rewrite Egp in *. by apply grouped_add.
  - destruct (series !! group_of e) as [s|] eqn:Es; eexists; (split; [done|]); [by apply grouped_add|]. split; simpl.
    + done.
    + intros fp k [[<- _]|[_ Hk]]%lookup_insert_Some; [exists e; set_solver|]. destruct (G2 _ _ Hk) as (q & ? & ?). exists q. set_solver.
    + intros k [Hk Hne]%lookup_insert_None q [Hq| ->%list_elem_of_singleton]%elem_of_app; [by eapply G3|congruence].
    + intros k s' [[<- <-]|[Hne Hk]]%lookup_insert_Some.
      * simpl. rewrite filter_app, (filter_none _ es) by (intros q Hq; by apply (G3 _ Es)). simpl.
        rewrite filter_cons_True by done. rewrite filter_nil. split; [done|]. exists e. set_solver.
      * destruct (G4 _ _ Hk) as (Hp & q & Hq & Hgq & Hl). rewrite filter_app, fmap_app, <- Hp.
        rewrite filter_cons_False by congruence. rewrite filter_nil. simpl. rewrite (right_id_L [] (++)).
        split; [done|]. exists q. set_solver.
Qed.

(** The result: a series per group, with its points by time. *)
Lemma sorted_series_spec (values : gmap string Series → list Series) es byFP series : (∀ m, values m ≡ₚ (map_to_list m).*2) → grouped es (byFP, series) →
  ∃ keys, NoDup keys ∧ (∀ k, k ∈ keys ↔ ∃ e, e ∈ es ∧ group_of e = k) ∧
    Forall2 (λ k s, sr_Points s ≡ₚ snd <$> filter (λ e, group_of e = k) es ∧ StronglySorted (λ a b, (a.1 ≤ b.1)%Z) (sr_Points s) ∧
      ∃ e, e ∈ es ∧ group_of e = k ∧ sr_Labels s = WithLabels e.1.2 by_) keys (sorted_series values series) ∧
    StronglySorted (λ a b, (CompareLabelPairs (sr_Labels a) (sr_Labels b) ≤ 0)%Z) (sorted_series values series).
Proof.
  intros Hvalues [G1 G2 G3 G4]. simpl in *. unfold sorted_series. destruct (series_less_order (F := F)) as [St1 St2], (point_less_order (F := F)) as [Pt1 Pt2].
  assert (Hperm : (map_to_list series).*2 ≡ₚ sort_slice series_less (values series)) by (by rewrite sort_slice_perm, Hvalues).
  symmetry in Hperm. apply Permutation_map_inv in Hperm as (kl & Hkl & Hp). exists kl.*1.
  assert (Hin : ∀ k s, (k, s) ∈ kl ↔ series !! k = Some s) by (intros k s; by rewrite <- Hp, elem_of_map_to_list).
  split_and!.
  - rewrite <- Hp. apply NoDup_fst_map_to_list.
  - intros k. rewrite list_elem_of_fmap. split.
    + intros ([k' s] & -> & Hks%Hin). destruct (G4 _ _ Hks) as (_ & p & ? & ? & _). eauto.
    + intros (p & Hpl & <-). destruct (series !! group_of p) as [s|] eqn:E; [|by destruct (G3 _ E p Hpl)].
      exists (group_of p, s). split; [done|]. by apply Hin.
  - rewrite Hkl. clear Hkl Hp. rewrite <- list_fmap_compose. apply Forall2_fmap, Forall_Forall2_diag, Forall_forall.
    intros [k s] Hks%Hin. destruct (G4 _ _ Hks) as (Hpts & p & ? & ? & Hl). simpl. split_and!.
    + by rewrite sort_slice_perm, Hpts.
    + eapply StronglySorted_weaken; [|by apply sort_slice_sorted]. intros a b. unfold point_less. simpl. intros ?. bool_prop. lia.
    + eauto.
  - eapply StronglySorted_fmap; [|by apply sort_slice_sorted]. intros a b. unfold series_less. simpl. intros Hab. bool_prop.
    rewrite CompareLabelPairs_opp. lia.
Qed.
End SeriesSpec.

Section MergeByLabelsSpec.
Context {F : Type} (to_float : Z → F) (TimeFromUnixNano : Z → Z).
Context (H : store) (by_ : list string).

(** The group of a profile, and the point it contributes. *)
Definition group (p : ProfileWithLabels) : string := BytesWithLabels (pw_lbs p) by_.

Definition total_of (p : SProfile) : Z := match Total H p with Ret t => t | _ => 0%Z end.

Definition point_of (p : ProfileWithLabels) : Z * F :=
  (sp_Timestamp TimeFromUnixNano (pw_profile p), to_float (total_of (pw_profile p))).

Definition alive (p : ProfileWithLabels) : Prop := Forall (λ r, is_Some (H !! r)) (sp_Samples (pw_profile p)).

Definition labeled (p : ProfileWithLabels) : N * Labels * (Z * F) := (pw_fp p, pw_lbs p, point_of p).

Lemma Total_alive p : alive p → Total H (pw_profile p) = Ret (total_of (pw_profile p)).
Proof.
  intros Ha. unfold total_of, Total. destruct (omapM_total (deref H) (sp_Samples (pw_profile p))) as [ss ->]; [|done].
  intros r Hr. unfold alive in Ha. rewrite Forall_forall in Ha. destruct (Ha r Hr) as [s Hs]. exists s. unfold deref. by rewrite Hs.
Qed.

Lemma merge_labels_step ps p st :
  alive p → (∀ q, q ∈ ps → pw_fp q = pw_fp p → pw_lbs q = pw_lbs p) → grouped by_ (labeled <$> ps) st →
  ∃ st', merge_labels_body to_float TimeFromUnixNano H by_ p st = Ret st' ∧ grouped by_ (labeled <$> ps ++ [p]) st'.
Proof.
  intros Ha Hdet Hg. unfold merge_labels_body. rewrite (Total_alive p Ha), fmap_app. simpl. apply (add_point_spec by_ _ (labeled p)); [|done].
  intros q (r & -> & Hr)%list_elem_of_fmap. by apply Hdet.
Qed.
End MergeByLabelsSpec.

(** [MergeByLabels] groups the selected profiles by the labels asked for.  When
    the iterator ends without an error and a fingerprint determines the labels, the
    result has exactly one series per group of profiles with the same encoding of
    those labels; the series carries these labels, and its points are, sorted by time, exactly
    one per profile of the group with the profile's timestamp and the wrapping sum of its values; the
    series are sorted by their labels. *)
Theorem MergeByLabels_correct {F St : Type} `{Iterator St ProfileWithLabels, !IteratorOk St ProfileWithLabels}
    (to_float : Z → F) (TimeFromUnixNano : Z → Z) (values : gmap string Series → list Series)
    (HS : store) (rows : St) (by_ : list string) (l : list ProfileWithLabels) (e : St) :
  (∀ m, values m ≡ₚ (map_to_list m).*2) → yields rows l e → Err e = None → Forall (alive HS) l →
  (∀ p q, p ∈ l → q ∈ l → pw_fp p = pw_fp q → pw_lbs p = pw_lbs q) →
  ∃ out keys, MergeByLabels to_float TimeFromUnixNano values HS rows by_ = Ret out ∧ NoDup keys ∧
    (∀ k, k ∈ keys ↔ ∃ p, p ∈ l ∧ group by_ p = k) ∧
    Forall2 (λ k s, sr_Points s ≡ₚ point_of to_float TimeFromUnixNano HS <$> filter (λ p, group by_ p = k) l ∧
      StronglySorted (λ a b, (a.1 ≤ b.1)%Z) (sr_Points s) ∧
      ∃ p, p ∈ l ∧ group by_ p = k ∧ sr_Labels s = WithLabels (pw_lbs p) by_) keys out ∧
    StronglySorted (λ a b, (CompareLabelPairs (sr_Labels a) (sr_Labels b) ≤ 0)%Z) out.
Proof.
  intros Hvalues Hy Herr Ha Hdet. unfold MergeByLabels. rewrite (for_rows_yields _ _ _ _ _ Hy).
  destruct (fold_outcome_inv (merge_labels_body to_float TimeFromUnixNano HS by_)
    (λ ps st, (∀ q, q ∈ ps → q ∈ l) ∧ grouped by_ (labeled to_float TimeFromUnixNano HS <$> ps) st) l [] (∅, ∅)) as ([byFP series] & -> & _ & HG).
  - split; [set_solver|]. apply grouped_nil.
  - intros pre p st Hp [Hsub Hg]. rewrite Forall_forall in Ha.
    destruct (merge_labels_step to_float TimeFromUnixNano HS by_ pre p st (Ha p Hp)) as (st' & ? & ?); [|done|].
    { intros q Hq E. by apply Hdet; [apply Hsub| |]. }
    exists st'. split; [done|]. split; [|done]. set_solver.
  - simpl in *. rewrite Herr. destruct (sorted_series_spec by_ values _ _ _ Hvalues HG) as (keys & Hnd & Hk & Hf & Hs). exists (sorted_series values series), keys.
    split_and!; [done|done| | |done].
    + intros k. rewrite Hk. split; [intros (x & (p & -> & Hp)%list_elem_of_fmap & Hx); by exists p|intros (p & Hp & Hx)].
      exists (labeled to_float TimeFromUnixNano HS p). split; [by apply list_elem_of_fmap_2|done].
    + eapply Forall2_impl; [exact Hf|]. intros k s (Hpts & Hst & x & (p & -> & Hp)%list_elem_of_fmap & Hx & Hl). split_and!; [|done|by exists p].
      by rewrite Hpts, filter_map, <- list_fmap_compose.
Qed.

Lemma MergeByLabels_witness :
  ∃ out keys, MergeByLabels id id (λ m, (map_to_list m).*2) (hd_samples merge_example_head)
      (NewSliceIterator [mkPWL (mkSProfile "b" 0 5 [0; 1] 0 0 2 0 0 [] 0) [mkLabel "pod" "a"] 5; mkPWL (select_profile 7 1) [mkLabel "pod" "a"] 7]) ["pod"] = Ret out ∧
    length keys = length out ∧ ∀ k, k ∈ keys → k = BytesWithLabels [mkLabel "pod" "a"] ["pod"].
Proof.
  destruct (MergeByLabels_correct (F := Z) id id (λ m, (map_to_list m).*2) (hd_samples merge_example_head)
    (NewSliceIterator [mkPWL (mkSProfile "b" 0 5 [0; 1] 0 0 2 0 0 [] 0) [mkLabel "pod" "a"] 5; mkPWL (select_profile 7 1) [mkLabel "pod" "a"] 7])
    ["pod"] [mkPWL (mkSProfile "b" 0 5 [0; 1] 0 0 2 0 0 [] 0) [mkLabel "pod" "a"] 5; mkPWL (select_profile 7 1) [mkLabel "pod" "a"] 7]
    (mkSliceIterator [] zero)) as (out & keys & Heq & _ & Hkeys & Hf & _).
  - intros m. reflexivity.
  - apply slice_yields.
  - reflexivity.
  - repeat constructor; eexists; reflexivity.
  - intros p q. rewrite !elem_of_cons, !elem_of_nil. by intros [->|[->|[]]] [->|[->|[]]].
  - exists out, keys. split_and!; [exact Heq|exact (Forall2_length _ _ _ Hf)|].
    intros k (p & Hp & <-)%Hkeys. rewrite !elem_of_cons, elem_of_nil in Hp. by destruct Hp as [->|[->|[]]].
Defined.
