(* ===== verification/HeadApi.v ===== *)
(** * Listings of the head block

    The read-only queries of [pkg/phlaredb/head.go] that answer from the index alone:
    label names and values, profile types, series, the time range, and the selection of
    profiles by a query string.  The PromQL parser is a parameter. *)

From S2P Require Import Sorting Prelude Labels GoHeap Iter Shard InvertedIndex Dedup Symbols Delta ProfilesIndex Head HeadQuery.

Section Api.
Context (range : ∀ A : Type, gmap string A → list (string * A)).
Context (Matches : Matcher → string → bool).
Context (TimeFromUnixNano : Z → Z).
(** [parser.ParseMetricSelector]: the matchers of a selector, or its error. *)
Context (ParseMetricSelector : string → list Matcher + string).

Definition HeadLabelValues (h : Head) (name : string) : outcome (list string) :=
  bp_LabelValues range (px_ix (hd_index h)) name None.

Definition HeadLabelNames (h : Head) : outcome (list string) :=
  obind (bp_LabelNames range (px_ix (hd_index h)) None) (λ values, Ret (sort_strings values)).

Definition ProfileTypes (h : Head) : outcome (list ProfileType) :=
  obind (bp_LabelValues range (px_ix (hd_index h)) LabelNameProfileType None) (λ values,
    omapM ParseProfileTypeSelector (sort_strings values)).

(** [block.InRange]: the closed intervals meet. *)
Definition InRange (mn mx start end_ : Z) : bool :=
  if (start >? mx)%Z then false else if (end_ <? mn)%Z then false else true.

Definition HeadInRange (h : Head) (start end_ : Z) : bool := InRange (hd_min h) (hd_max h) start end_.

Definition select_error : string := "failed to parse label selectors: ".

Definition profile_type_matcher (ty : ProfileType) : Matcher :=
  let l := SelectorFromProfileType ty in mkMatcher MatchEqual (Name l) (Value l).

Definition SelectMatchingProfiles (h : Head) (labelSelector : string) (ty : ProfileType) (start end_ : Z)
    : outcome (SortIterator (SeriesIterator (TimeRanged (sliceIterator SProfile))) ProfileWithLabels) :=
  match ParseMetricSelector labelSelector with
  | inr e => Fail (select_error +:+ e)
  | inl selectors =>
      SelectProfiles range Matches TimeFromUnixNano (d_slice (hd_profiles h)) (hd_index h)
        (selectors ++ [profile_type_matcher ty]) start end_
  end.

Definition series_error : string := "failed to label selector".

Fixpoint parse_all (ms : list string) : outcome (list (list Matcher)) :=
  match ms with
  | [] => Ret []
  | m :: ms =>
      match ParseMetricSelector m with
      | inr _ => Fail series_error
      | inl s => obind (parse_all ms) (λ ss, Ret (s :: ss))
      end
  end.

(** The callback: the first label set seen of each fingerprint is appended. *)
Definition add_series (e : Labels * N) (acc : gset N * list Labels) : outcome (gset N * list Labels) :=
  if decide (e.2 ∈ acc.1) then Ret acc else Ret ({[e.2]} ∪ acc.1, acc.2 ++ [e.1]).

Definition labels_less (a b : Labels) : bool := (CompareLabelPairs a b <? 0)%Z.

Definition HeadSeries (h : Head) (ms : list string) : outcome (list Labels) :=
  obind (parse_all ms) (λ selectors,
  obind (for_each (λ selector acc, forMatchingLabels range Matches (hd_index h) selector add_series acc) selectors (∅, [])) (λ '(_, lss),
    Ret (sort_slice labels_less lss))).
End Api.

(** ** Names and values *)

Section Listing.
Context (range : ∀ A : Type, gmap string A → list (string * A)).
Context (range_perm : ∀ (A : Type) (m : gmap string A), range A m ≡ₚ map_to_list m).

Lemma sort_strings_perm l : sort_strings l ≡ₚ l.
Proof. apply merge_sort_Permutation. Qed.

Lemma sort_strings_lt l : NoDup l → StronglySorted str_lt (sort_strings l).
Proof.
  intros Hnd. pose proof (StronglySorted_merge_sort String.le l) as Hs.
  fold (sort_strings l) in Hs. rewrite <- (sort_strings_perm l) in Hnd. induction Hs as [|x k Hs IH Hx]; [constructor|].
  apply NoDup_cons in Hnd as [Hnx Hnd]. constructor; [by apply IH|]. rewrite Forall_forall in Hx |- *. intros y Hy.
  apply str_ltb_le. split; [by apply Hx|]. by intros ->.
Qed.

Lemma listed_keys {A} (m : gmap string A) x : x ∈ fst <$> range A m ↔ is_Some (m !! x).
Proof.
  rewrite range_perm, list_elem_of_fmap. split.
  - intros ([k v] & -> & Hkv%elem_of_map_to_list). by eexists.
  - intros [v Hv]. exists (x, v). split; [done|]. by apply elem_of_map_to_list.
Qed.

Lemma listed_keys_sorted {A} (m : gmap string A) : StronglySorted str_lt (sort_strings (fst <$> range A m)).
Proof. apply sort_strings_lt. rewrite range_perm. apply NoDup_fst_map_to_list. Qed.

Lemma fps_at_value idx n v :
  wf_idx idx → (∃ fp, fp ∈ fps_at idx n v) ↔ ∃ e, idx !! n = Some e ∧ is_Some (ie_fps e !! v).
Proof.
  intros Hwf. unfold fps_at, fps_of. split.
  - intros [fp Hfp]. destruct (idx !! n) as [e|] eqn:En; [|set_solver]. exists e. split; [done|].
    destruct (ie_fps e !! v); [by eexists|set_solver].
  - intros (e & En & [ve Hv]). rewrite En, Hv. destruct (Hwf _ _ En) as (_ & _ & Hm). destruct (Hm _ _ Hv) as (_ & Hne & _).
    destruct (iv_fps ve) as [|fp l]; [done|]. exists fp. left.
Qed.

Lemma fps_at_name idx n : wf_idx idx → (∃ v fp, fp ∈ fps_at idx n v) ↔ is_Some (idx !! n).
Proof.
  intros Hwf. split.
  - intros (v & fp & Hfp). destruct (proj1 (fps_at_value idx n v Hwf)) as (e & ? & _); [by exists fp|by exists e].
  - intros [e He]. destruct (Hwf _ _ He) as (_ & Hne & _). apply map_choose in Hne as (v & ve & Hv). exists v.
    apply fps_at_value; [done|]. exists e. split; [done|]. by eexists.
Qed.

(** The values some series of the index has for a name. *)
Definition has_value (pi : profilesIndex) (n v : string) : Prop :=
  ∃ fp pl, px_perFP pi !! fp = Some pl ∧ mkLabel n v ∈ pf_lbs pl.

Lemma merged_shards {A} (f : A → list string) (P : A → string → Prop) (shards : list A) :
  (∀ sh, sh ∈ shards → StronglySorted str_lt (f sh) ∧ ∀ x, x ∈ f sh ↔ P sh x) →
  StronglySorted str_lt (mergeStringSlices (f <$> shards)) ∧
  ∀ x, x ∈ mergeStringSlices (f <$> shards) ↔ ∃ sh, sh ∈ shards ∧ P sh x.
Proof.
  intros Hf. destruct (merge_slices_spec (length (f <$> shards)) (f <$> shards)) as [Hs He]; [|done|].
  - apply Forall_fmap, Forall_forall. intros sh Hsh. by apply Hf.
  - split; [done|]. intros x. unfold mergeStringSlices. rewrite He. split.
    + intros (s & (sh & -> & Hsh)%list_elem_of_fmap & Hx). exists sh. split; [done|]. by apply (Hf sh Hsh).
    + intros (sh & Hsh & Hx). exists (f sh). split; [by apply list_elem_of_fmap_2|]. by apply (Hf sh Hsh).
Qed.

Lemma has_value_shard pi k n v :
  px_inv pi k → has_value pi n v ↔ ∃ sh, sh ∈ bp_shards (px_ix pi) ∧ ∃ fp, fp ∈ fps_at (is_idx sh) n v.
Proof.
  intros Hinv. split.
  - intros (fp & pl & Hpl & Hin). destruct (proj2 (pi_labels _ _ Hinv n v fp)) as (s & sh & Hsh & Hfp); [by exists pl|].
    exists sh. split; [by eapply list_elem_of_lookup_2|]. by exists fp.
  - intros (sh & [s Hsh]%list_elem_of_lookup & fp & Hfp). destruct (proj1 (pi_labels _ _ Hinv n v fp)) as (pl & ? & ?).
    + by exists s, sh.
    + by exists fp, pl.
Qed.

Lemma bp_LabelValues_spec pi k n :
  px_inv pi k → ∃ vs, bp_LabelValues range (px_ix pi) n None = Ret vs ∧ StronglySorted str_lt vs ∧ ∀ v, v ∈ vs ↔ has_value pi n v.
Proof.
  intros Hinv. unfold bp_LabelValues. simpl. eexists. split; [done|].
  destruct (merged_shards (labelValues range n None) (λ sh v, ∃ fp, fp ∈ fps_at (is_idx sh) n v) (bp_shards (px_ix pi))) as [Hs He].
  - intros sh [s Hsh]%list_elem_of_lookup. destruct (pi_wf _ _ Hinv) as (_ & _ & Hp). destruct (Hp _ _ Hsh) as [Hwf _].
    unfold labelValues. destruct (is_idx sh !! n) as [e|] eqn:E.
    + split; [apply listed_keys_sorted|]. intros v. rewrite sort_strings_perm, listed_keys, (fps_at_value _ _ _ Hwf). naive_solver.
    + split; [constructor|]. intros v. rewrite (fps_at_value _ _ _ Hwf), E. set_solver.
  - split; [done|]. intros v. by rewrite He, (has_value_shard pi k).
Qed.

Lemma bp_LabelNames_spec pi k :
  px_inv pi k → ∃ ns, bp_LabelNames range (px_ix pi) None = Ret ns ∧ StronglySorted str_lt ns ∧ ∀ n, n ∈ ns ↔ ∃ v, has_value pi n v.
Proof.
  intros Hinv. unfold bp_LabelNames. simpl. eexists. split; [done|].
  destruct (merged_shards (labelNames range None) (λ sh n, ∃ v fp, fp ∈ fps_at (is_idx sh) n v) (bp_shards (px_ix pi))) as [Hs He].
  - intros sh [s Hsh]%list_elem_of_lookup. destruct (pi_wf _ _ Hinv) as (_ & _ & Hp). destruct (Hp _ _ Hsh) as [Hwf _].
    unfold labelNames. split; [apply listed_keys_sorted|]. intros n. by rewrite sort_strings_perm, listed_keys, (fps_at_name _ _ Hwf).
  - split; [done|]. intros n. rewrite He. setoid_rewrite (has_value_shard pi k); [|done]. naive_solver.
Qed.

Lemma sort_strings_id l : StronglySorted str_lt l → sort_strings l = l.
Proof.
  intros Hs. apply (StronglySorted_unique String.le); [apply StronglySorted_merge_sort; apply _| |apply sort_strings_perm].
  eapply StronglySorted_weaken; [|exact Hs]. intros x y [??]%str_ltb_le. done.
Qed.
End Listing.

Lemma parse_id v t : ParseProfileTypeSelector v = Ret t → PT_ID t = v.
Proof.
  unfold ParseProfileTypeSelector. destruct (split_colon v) as [|? [|? [|? [|? [|? [|? [|]]]]]]]; try done; by intros [= <-].
Qed.

(** The first failing element decides. *)
Lemma omapM_fail {A B} (f : A → outcome B) l x e :
  (∀ y, y ∈ l → f y ≠ Panic) → x ∈ l → f x = Fail e → ∃ e', omapM f l = Fail e'.
Proof.
  intros Hp Hx Hf. induction l as [|y l IH]; [set_solver|]. simpl. destruct (f y) as [b|e'|] eqn:E.
  - simpl. apply elem_of_cons in Hx as [->|Hx]; [congruence|].
    destruct IH as [e' ->]; [intros z Hz; apply Hp; by right|done|by exists e'].
  - by exists e'.
  - by destruct (Hp y ltac:(left)).
Qed.

(** C39: the listings of the head answer from the labels of its series.  Label names
    and the values of a name are listed in strictly increasing order, exactly those some
    series has.  The profile types are the parsed values of the profile-type label, in
    strictly increasing order, each parsed type carrying its value as ID; when some value is not of the form
    of a profile type the call fails, and it never panics. *)
Theorem listings_correct (range : ∀ A : Type, gmap string A → list (string * A)) (h : Head) (k : N) :
  (∀ (A : Type) (m : gmap string A), range A m ≡ₚ map_to_list m) → px_inv (hd_index h) k →
  (∃ ns, HeadLabelNames range h = Ret ns ∧ StronglySorted str_lt ns ∧ ∀ n, n ∈ ns ↔ ∃ v, has_value (hd_index h) n v) ∧
  (∀ n, ∃ vs, HeadLabelValues range h n = Ret vs ∧ StronglySorted str_lt vs ∧ ∀ v, v ∈ vs ↔ has_value (hd_index h) n v) ∧
  ((∃ types, ProfileTypes range h = Ret types ∧ StronglySorted str_lt (PT_ID <$> types) ∧
      Forall (λ t, ParseProfileTypeSelector (PT_ID t) = Ret t) types ∧
      ∀ v, v ∈ PT_ID <$> types ↔ has_value (hd_index h) LabelNameProfileType v) ∨
   ∃ e v e', ProfileTypes range h = Fail e ∧ has_value (hd_index h) LabelNameProfileType v ∧ ParseProfileTypeSelector v = Fail e').
Proof.
  intros Hr Hinv. split_and!.
  - destruct (bp_LabelNames_spec range Hr _ _ Hinv) as (ns & Heq & Hs & He). unfold HeadLabelNames. rewrite Heq. simpl.
    rewrite sort_strings_id by done. by exists ns.
  - intros n. by apply (bp_LabelValues_spec range Hr _ k).
  - destruct (bp_LabelValues_spec range Hr _ k LabelNameProfileType Hinv) as (vs & Heq & Hs & He). unfold ProfileTypes.
    rewrite Heq. simpl. rewrite sort_strings_id by done.
    assert (Hcases : Forall (λ v, is_Some (match ParseProfileTypeSelector v with Ret t => Some t | _ => None end)) vs ∨
      ∃ v e, v ∈ vs ∧ ParseProfileTypeSelector v = Fail e).
    { clear. induction vs as [|v vs IH]; [by left|]. destruct (ParseProfileTypeSelector v) as [t|e|] eqn:E.
      - destruct IH as [IH|(v' & e & ? & ?)]; [left|right; exists v', e; set_solver].
        constructor; [rewrite E; by eexists|done].
      - right. exists v, e. set_solver.
      - unfold ParseProfileTypeSelector in E. destruct (split_colon v) as [|? [|? [|? [|? [|? [|? [|]]]]]]]; done. }
    destruct Hcases as [Hall|(v & e & Hv & Hf)].
    + left. assert (∃ types, omapM ParseProfileTypeSelector vs = Ret types ∧ PT_ID <$> types = vs ∧
        Forall (λ t, ParseProfileTypeSelector (PT_ID t) = Ret t) types) as (types & -> & Hid & Hok).
      { clear -Hall. induction Hall as [|v vs [t Ht] _ (types & IH1 & IH2 & IH3)]; [by exists []|].
        destruct (ParseProfileTypeSelector v) as [t'|e|] eqn:E; try done. pose proof (parse_id _ _ E) as Hid.
        exists (t' :: types). simpl. rewrite E. simpl. rewrite IH1. split_and!; [done|by f_equal|].
        constructor; [by rewrite Hid|done]. }
      exists types. by rewrite Hid.
    + right. destruct (omapM_fail ParseProfileTypeSelector vs v e) as [e' ->]; [|done|done|].
      * intros y _. unfold ParseProfileTypeSelector. by destruct (split_colon y) as [|? [|? [|? [|? [|? [|? [|]]]]]]].
      * exists e', v, e. split_and!; [done|by apply He|done].
Qed.

(** ** Series *)

Section SeriesSpec.
Context (range : ∀ A : Type, gmap string A → list (string * A)).
Context (range_perm : ∀ (A : Type) (m : gmap string A), range A m ≡ₚ map_to_list m).
Context (Matches : Matcher → string → bool).
Context (matches_selects : ∀ m v, Matches m "" = false → selects Matches m v ↔ Matches m v = true).
Context (pi : profilesIndex) (k : N) (Hinv : px_inv pi k).

(** The fingerprints collected are those of [P], and the label sets theirs. *)
Definition collected (P : N → Prop) (acc : gset N * list Labels) : Prop :=
  (∀ fp, fp ∈ acc.1 ↔ P fp) ∧
  ∃ fps, NoDup fps ∧ (∀ fp, fp ∈ fps ↔ P fp) ∧ Forall2 (λ fp lbs, ∃ pl, px_perFP pi !! fp = Some pl ∧ lbs = pf_lbs pl) fps acc.2.

Lemma collected_iff (P Q : N → Prop) acc : (∀ fp, P fp ↔ Q fp) → collected P acc → collected Q acc.
Proof.
  intros Hpq (H1 & fps & H2 & H3 & H4). split; [intros fp; by rewrite H1|]. exists fps. split_and!; [done| |done].
  intros fp. by rewrite H3.
Qed.

Lemma collected_add P acc fp pl :
  px_perFP pi !! fp = Some pl → collected P acc →
  ∃ acc', add_series (pf_lbs pl, fp) acc = Ret acc' ∧ collected (λ q, P q ∨ q = fp) acc'.
Proof.
  intros Hpl Hcol. unfold add_series. simpl. destruct (decide (fp ∈ acc.1)) as [Hin|Hin].
  - exists acc. split; [done|]. pose proof (proj1 Hcol fp) as [HP _]. specialize (HP Hin).
    apply (collected_iff P); [|done]. intros q. split; [by left|]. by intros [?| ->].
  - eexists. split; [done|]. destruct Hcol as (H1 & fps & H2 & H3 & H4). split; simpl.
    + intros q. rewrite elem_of_union, elem_of_singleton, H1. tauto.
    + exists (fps ++ [fp]). split_and!.
      * apply NoDup_app. split_and!; [done| |apply NoDup_singleton]. intros q Hq ->%list_elem_of_singleton. by apply Hin, H1, H3.
      * intros q. rewrite elem_of_app, list_elem_of_singleton, H3. done.
      * apply Forall2_app; [done|]. constructor; [by exists pl|constructor].
Qed.

Lemma for_each_collects (series : list (N * profileLabels)) : ∀ P acc,
  (∀ fp pl, (fp, pl) ∈ series → px_perFP pi !! fp = Some pl) → collected P acc →
  ∃ acc', for_each (λ '(fp, pl) s, add_series (pf_lbs pl, fp) s) series acc = Ret acc' ∧
    collected (λ fp, P fp ∨ fp ∈ series.*1) acc'.
Proof.
  induction series as [|[fp pl] series IH]; intros P acc Hser Hcol; cbn [for_each].
  - exists acc. split; [done|]. apply (collected_iff P); [|done]. intros q. split; [by left|]. by intros [?|?%elem_of_nil].
  - destruct (collected_add P acc fp pl) as (acc1 & -> & Hcol1); [apply Hser; left|done|]. cbn [obind].
    destruct (IH _ acc1 (λ q p Hq, Hser q p (list_elem_of_further _ _ _ Hq)) Hcol1) as (acc' & -> & Hcol').
    exists acc'. split; [done|]. eapply collected_iff; [|exact Hcol']. intros q. csimpl. rewrite elem_of_cons. tauto.
Qed.

Definition good_selector (ms : list Matcher) : Prop := Forall good_matcher ms ∧ ∃ m, m ∈ ms ∧ Matches m "" = false.

Definition chosen (selectors : list (list Matcher)) (fp : N) : Prop :=
  ∃ ms pl, ms ∈ selectors ∧ px_perFP pi !! fp = Some pl ∧ accepted Matches ms (pf_lbs pl).

Lemma selectors_collect selectors : Forall good_selector selectors → ∀ P acc, collected P acc →
  ∃ acc', for_each (λ selector acc, forMatchingLabels range Matches pi selector add_series acc) selectors acc = Ret acc' ∧
    collected (λ fp, P fp ∨ chosen selectors fp) acc'.
Proof.
  induction 1 as [|ms selectors [Hgood Hm] _ IH]; intros P acc Hcol; simpl.
  - exists acc. split; [done|]. apply (collected_iff P); [|done]. intros fp. split; [by left|].
    intros [?|(? & ? & ?%elem_of_nil & _)]; done.
  - unfold forMatchingLabels at 1.
    destruct (matching_series_spec range range_perm Matches matches_selects pi k ms Hinv Hgood Hm) as (series & -> & _ & Hin). simpl.
    destruct (for_each_collects series P acc) as (acc1 & -> & Hcol1); [by intros fp pl [? _]%Hin|done|]. simpl.
    destruct (IH _ _ Hcol1) as (acc' & -> & Hcol'). exists acc'. split; [done|]. eapply collected_iff; [|exact Hcol']. intros fp. unfold chosen. setoid_rewrite elem_of_cons. rewrite list_elem_of_fmap. split.
    + intros [[?|([q pl] & -> & [? ?]%Hin)]|(ms' & pl & ? & ? & ?)]; [by left|right..].
      * by exists ms, pl; auto.
      * exists ms', pl. auto.
    + intros [?|(ms' & pl & [->|?] & ? & ?)]; [by left; left| |right; by exists ms', pl].
      left. right. exists (fp, pl). split; [done|]. by apply Hin.
Qed.
End SeriesSpec.

(** [Series] lists label sets by selectors.  When every selector parses and has a
    matcher that rejects the empty value, the result has exactly one label set for each
    series of the head that all matchers of some selector accept, however many selectors
    accept it, sorted by its labels; when a selector does not parse, the call fails with
    the invalid-argument error and lists nothing. *)
Theorem HeadSeries_correct (range : ∀ A : Type, gmap string A → list (string * A)) (Matches : Matcher → string → bool)
    (parse : string → list Matcher + string) (h : Head) (k : N) (ms : list string) :
  (∀ (A : Type) (m : gmap string A), range A m ≡ₚ map_to_list m) →
  (∀ m v, Matches m "" = false → selects Matches m v ↔ Matches m v = true) →
  px_inv (hd_index h) k → (∀ m s, m ∈ ms → parse m = inl s → good_selector Matches s) →
  (Exists (λ m, ∃ e, parse m = inr e) ms ∧ HeadSeries range Matches parse h ms = Fail series_error) ∨
  ∃ selectors out fps, Forall2 (λ m s, parse m = inl s) ms selectors ∧
    HeadSeries range Matches parse h ms = Ret out ∧
    StronglySorted (λ a b, (CompareLabelPairs a b ≤ 0)%Z) out ∧
    NoDup fps ∧ (∀ fp, fp ∈ fps ↔ chosen Matches (hd_index h) selectors fp) ∧
    out ≡ₚ omap (λ fp, pf_lbs <$> px_perFP (hd_index h) !! fp) fps.
Proof.
  intros Hr Hsel Hinv Hgood.
  assert (Hp : (Exists (λ m, ∃ e, parse m = inr e) ms ∧ parse_all parse ms = Fail series_error) ∨
    ∃ ss, Forall2 (λ m s, parse m = inl s) ms ss ∧ parse_all parse ms = Ret ss ∧ Forall (good_selector Matches) ss).
  { clear -Hgood. induction ms as [|m ms IH]; [right; by exists []|]. simpl. destruct (parse m) as [s|e] eqn:E.
    - destruct IH as [[? ->]|(ss & ? & -> & ?)]; [intros m' s' ?; apply Hgood; by right|left; by split; [right|]|right].
      exists (s :: ss). split_and!; [by constructor|done|]. constructor; [|done]. apply (Hgood m); [left|done].
    - left. split; [left; by exists e|done]. }
  unfold HeadSeries. destruct Hp as [[? ->]|(ss & Hf & -> & Hss)]; [by left|right]. simpl.
  destruct (selectors_collect range Hr Matches Hsel (hd_index h) k Hinv ss Hss (λ _, False) (∅, [])) as ([seen lss] & -> & _ & fps & Hnd & Hfp & Hl).
  { split; [intros fp; simpl; by rewrite elem_of_empty|]. exists []. split_and!; [constructor|intros fp; by rewrite elem_of_nil|constructor]. }
  simpl in *. exists ss, (sort_slice labels_less lss), fps. split_and!; [done|done| |done| |].
  - unfold labels_less. eapply StronglySorted_weaken; [|apply sort_slice_sorted].
    + intros a b Hab. simpl in Hab. bool_prop. rewrite CompareLabelPairs_opp. lia.
    + intros x y z Hxy Hyz. bool_prop. apply Z.ltb_ge. pose proof (CompareLabelPairs_opp x y). pose proof (CompareLabelPairs_opp y z).
      pose proof (CompareLabelPairs_opp x z). pose proof (CompareLabelPairs_le_trans x y z). lia.
    + intros x y Hxy. bool_prop. apply Z.ltb_ge. pose proof (CompareLabelPairs_opp x y). lia.
  - intros fp. rewrite Hfp. tauto.
  - rewrite sort_slice_perm. clear -Hl. induction Hl as [|fp lbs fps lss (pl & Hpl & ->) _ IH]; simpl; [done|].
    rewrite Hpl. simpl. by constructor.
Qed.

(** A head with the given index. *)
Definition api_head (pi : profilesIndex) : Head := mkHead new_symbols Init [] pi ∅ label_init 0 0 0.

Lemma select_index : ∃ pi, obind (newProfileIndex 32) (λ pi, add_all pi 0 select_adds) = Ret pi ∧ px_inv pi 5 ∧
  ∀ fp, px_perFP pi !! fp = series_after None fp 0 select_adds.
Proof.
  destruct newProfileIndex_inv as (pi0 & -> & Hinv0 & Hemp). simpl.
  destruct (add_all_spec 5 select_adds pi0 0 Hinv0) as (pi & E & Hinv & Hper).
  - repeat constructor; try (by apply (bool_decide_unpack _)).
  - exists pi. split_and!; [done|done|]. intros fp. by rewrite Hper, Hemp, lookup_empty.
Qed.

Lemma listings_correct_witness :
  ∃ pi ns, px_inv pi 5 ∧ HeadLabelNames (λ _ m, map_to_list m) (api_head pi) = Ret ns ∧ ("pod" ∈ ns) ∧ ("pid" ∉ ns).
Proof.
  destruct select_index as (pi & _ & Hinv & Hper).
  destruct (listings_correct (λ _ m, map_to_list m) (api_head pi) 5 (λ A m, reflexivity _) Hinv) as ((ns & Hns & _ & Hin) & _).
  exists pi, ns. split_and!; [exact Hinv|exact Hns| |].
  - apply Hin. exists "a", 5%N. eexists. simpl. rewrite Hper. unfold series_after. rewrite select_adds_filter. simpl. split; [done|].
    simpl. rewrite sort_labels_perm. right. left.
  - intros (v & fp & pl & Hpl & Hv)%Hin. simpl in Hpl. rewrite Hper in Hpl. unfold series_after in Hpl. rewrite select_adds_filter in Hpl.
    repeat case_decide; simpl in Hpl; simplify_eq; simpl in Hv; rewrite sort_labels_perm in Hv;
      rewrite !elem_of_cons, elem_of_nil in Hv; by destruct Hv as [?|[?|[]]].
Defined.

Lemma HeadSeries_correct_witness :
  ∃ pi out, HeadSeries (λ _ m, map_to_list m) set_matches (λ s, if String.eqb s "{" then inr "eof" else inl [mkMatcher MatchEqual "type" s])
      (api_head pi) ["cpu"; "cpu"] = Ret out ∧ length out ≠ 2.
Proof.
  destruct select_index as (pi & _ & Hinv & Hper).
  destruct (HeadSeries_correct (λ _ m, map_to_list m) set_matches
    (λ s, if String.eqb s "{" then inr "eof" else inl [mkMatcher MatchEqual "type" s]) (api_head pi) 5 ["cpu"; "cpu"])
    as [[Hex _]|(ss & out & fps & Hss & Hout & _ & Hnd & Hfps & Hp)].
  - reflexivity.
  - intros m v _. apply set_matches_selects.
  - exact Hinv.
  - intros m s Hm. rewrite !elem_of_cons, elem_of_nil in Hm. destruct Hm as [->|[->|[]]]; simpl; intros [= <-];
      (split; [repeat constructor|exists (mkMatcher MatchEqual "type" "cpu"); split; [left|reflexivity]]).
  - exfalso. rewrite !Exists_cons, Exists_nil in Hex. simpl in Hex. naive_solver.
  - exists pi, out. split; [exact Hout|]. intros Hlen.
    apply Forall2_cons_inv_l in Hss as (s1 & ? & E1 & (s2 & ? & E2 & ->%Forall2_nil_inv_l & ->)%Forall2_cons_inv_l & ->).
    simpl in E1, E2. injection E1 as <-. injection E2 as <-.
    assert (Hone : ∀ fp, fp ∈ fps → fp = 5%N).
    { intros fp (ms & pl & Hms & Hpl & Hacc)%Hfps. simpl in Hpl. rewrite Hper in Hpl. unfold series_after in Hpl.
      rewrite select_adds_filter in Hpl. destruct (decide (fp = 5%N)) as [|H5]; [done|]. simpl in Hpl.
      destruct (decide (fp = 9%N)) as [|H9]; [|done]. simpl in Hpl. simplify_eq. exfalso.
      specialize (Hacc (mkMatcher MatchEqual "type" "cpu")). rewrite !elem_of_cons in Hms.
      assert (ms = [mkMatcher MatchEqual "type" "cpu"]) as -> by (destruct Hms as [?|[?|?%elem_of_nil]]; done).
      specialize (Hacc ltac:(left)). by vm_compute in Hacc. }
    destruct fps as [|a [|b fps]]; simpl in Hp.
    + by apply Permutation_nil_r in Hp as ->.
    + apply Permutation_length in Hp. rewrite Hlen in Hp. by destruct (pf_lbs <$> px_perFP pi !! a).
    + rewrite (Hone a), (Hone b) in Hnd by set_solver. apply NoDup_cons in Hnd as [Hn _]. apply Hn. left.
Defined.
