(* ===== verification/Matchers.v ===== *)
(** * Postings of matchers (src/pkg/phlaredb/querier.go)

    [PostingsForMatchers] turns label matchers into one postings iterator over the
    index of a block, through the interface [IndexReader].  The interface is a class of
    which the code uses two methods; [index_reads] is what it documents of them. *)

From S2P Require Import Prelude Labels GoHeap Iter Postings Shard InvertedIndex ProfilesIndex.

(** The two methods of [IndexReader] the matchers need; [P] is the type of the postings
    the reader returns. *)
Class IndexReader (R P : Type) := {
  ix_Postings : R → string → option ShardAnnotation → list string → outcome P;
  ix_LabelValues : R → string → outcome (list string) }.

(** A value of the interface [index.Postings]: some type with its methods. *)
Record PostingsValue := mkPostings {
  pv_type : Type; pv_iter : Iterator pv_type N; pv_seek : SeekIterator pv_type N; pv_value : pv_type }.

Definition pv_expand (a : PostingsValue) : list N * option string := @ExpandPostings _ (pv_iter a) (pv_value a).

Section Matchers.
Context {R P : Type} `{Iterator P N, SeekIterator P N, IndexReader R P}.
(** [Matcher.Matches], [Matcher.Inverse] and [Matcher.GetRegexString] of the Prometheus library. *)
Context (Matches : Matcher → string → bool) (Inverse : Matcher → outcome Matcher) (GetRegexString : Matcher → string).

(** The postings of one matcher: the reader's, or [EmptyPostings]. *)
Abbreviation posts := (sliceIterator N + P)%type (only parsing).

(** The loop over label values: the kept ones and whether they came in order. *)
Fixpoint keep_values (keep : string → bool) (vals res : list string) (lastVal : string) (isSorted : bool) : list string * bool :=
  match vals with
  | [] => (res, isSorted)
  | val :: vals =>
      if keep val then
        keep_values keep vals (res ++ [val]) val (if isSorted && String.ltb val lastVal then false else isSorted)
      else keep_values keep vals res lastVal isSorted
  end.

Definition read_postings (ix : R) (shard : option ShardAnnotation) (name : string) (values : list string) : outcome posts :=
  obind (ix_Postings ix name shard values) (λ p, Ret (inr p)).

Definition postingsForMatcher (ix : R) (shard : option ShardAnnotation) (m : Matcher) : outcome posts :=
  let by_values :=
    obind (ix_LabelValues ix (m_name m)) (λ vals,
      let '(res, isSorted) := keep_values (Matches m) vals [] "" true in
      match res with
      | [] => Ret (inl EmptyPostings)
      | _ => read_postings ix shard (m_name m) (if isSorted then res else sort_strings res)
      end) in
  match m_type m, FindSetMatches (GetRegexString m) with
  | MatchEqual, _ => read_postings ix shard (m_name m) [m_value m]
  | MatchRegexp, (_ :: _) as setMatches => read_postings ix shard (m_name m) (sort_strings setMatches)
  | _, _ => by_values
  end.

Definition inversePostingsForMatcher (ix : R) (shard : option ShardAnnotation) (m : Matcher) : outcome posts :=
  obind (ix_LabelValues ix (m_name m)) (λ vals,
    let '(res, isSorted) := keep_values (λ v, negb (Matches m v)) vals [] "" true in
    read_postings ix shard (m_name m) (if isSorted then res else sort_strings res)).

Definition labelMustBeSet (ms : list Matcher) (name : string) : bool :=
  existsb (λ m, String.eqb (m_name m) name && negb (Matches m "")) ms.

Definition isNot (m : Matcher) : bool :=
  match m_type m with MatchNotEqual | MatchNotRegexp => true | _ => false end.

(** One matcher is intersected ([true]) or subtracted ([false]). *)
Definition matcher_postings (ix : R) (shard : option ShardAnnotation) (must : bool) (m : Matcher) : outcome (bool * posts) :=
  let positive b o := obind o (λ it, Ret (b, it)) in
  if must then
    let matchesEmpty := Matches m "" in
    if isNot m && matchesEmpty then
      obind (Inverse m) (λ inverse, positive false (postingsForMatcher ix shard inverse))
    else if isNot m && negb matchesEmpty then
      obind (Inverse m) (λ inverse, positive true (inversePostingsForMatcher ix shard inverse))
    else positive true (postingsForMatcher ix shard m)
  else positive false (inversePostingsForMatcher ix shard m).

Fixpoint split_postings (ix : R) (shard : option ShardAnnotation) (must : string → bool) (ms : list Matcher)
    (its notIts : list posts) : outcome (list posts * list posts) :=
  match ms with
  | [] => Ret (its, notIts)
  | m :: ms =>
      obind (matcher_postings ix shard (must (m_name m)) m) (λ '(b, it),
        if b then split_postings ix shard must ms (its ++ [it]) notIts
        else split_postings ix shard must ms its (notIts ++ [it]))
  end.

(** [it = Without(it, n)] for each subtracted postings: the type of the iterator grows. *)
Fixpoint without_all (notIts : list posts) : ∀ T : Type, Iterator T N → SeekIterator T N → T → PostingsValue :=
  match notIts with
  | [] => mkPostings
  | n :: notIts => λ T _ _ it, without_all notIts (removedPostings T posts) removed_iter removed_seekable (Without it n)
  end.

Definition AllPostingsKey : string * string := ("", "").

Definition PostingsForMatchers (ix : R) (shard : option ShardAnnotation) (ms : list Matcher) : outcome PostingsValue :=
  obind (split_postings ix shard (labelMustBeSet ms) ms [] []) (λ '(its, notIts),
  obind (match its, notIts with
         | [], _ :: _ => let '(k, v) := AllPostingsKey in obind (read_postings ix shard k [v]) (λ p, Ret [p])
         | _, _ => Ret its
         end) (λ its,
    Ret (without_all notIts _ _ _ (Intersect its)))).
End Matchers.

(** ** What the library promises *)

(** A regular expression that compiles does not end within an escape. *)
Definition valid_matcher (m : Matcher) : Prop :=
  match m_type m with
  | MatchRegexp | MatchNotRegexp => dangling false (String.list_ascii_of_string (m_value m)) = false
  | _ => True
  end.

Definition inverse_type (t : MatchType) : MatchType :=
  match t with
  | MatchEqual => MatchNotEqual | MatchNotEqual => MatchEqual
  | MatchRegexp => MatchNotRegexp | MatchNotRegexp => MatchRegexp
  end.

(** What Prometheus documents of matchers: equality compares; a regular expression is kept in its wrapper, and accepts exactly the literals
    if it is an alternation of literals; and the inverse is of the other type and negates. *)
Record matcher_laws (Matches : Matcher → string → bool) (Inverse : Matcher → outcome Matcher) (GetRegexString : Matcher → string) : Prop := {
  ml_equal : ∀ m v, m_type m = MatchEqual → Matches m v = String.eqb v (m_value m);
  ml_string : ∀ m, m_type m = MatchRegexp → GetRegexString m = wrapped (m_value m);
  ml_literals : ∀ m alts v, m_type m = MatchRegexp → alts ≠ [] → m_value m = alternation alts → Matches m v = bool_decide (v ∈ alts);
  ml_inverse : ∀ m, Inverse m = Ret (mkMatcher (inverse_type (m_type m)) (m_name m) (m_value m));
  ml_negates : ∀ m v, Matches (mkMatcher (inverse_type (m_type m)) (m_name m) (m_value m)) v = negb (Matches m v) }.

(** The set of a regular expression has the values it accepts, the empty one apart. *)
Lemma set_accepts Matches Inverse GetRegexString m v : matcher_laws Matches Inverse GetRegexString → valid_matcher m → m_type m = MatchRegexp →
  FindSetMatches (GetRegexString m) ≠ [] → v ≠ "" → v ∈ FindSetMatches (GetRegexString m) ↔ Matches m v = true.
Proof.
  intros Hl Hd Ht Hne Hv. unfold valid_matcher in Hd. rewrite Ht in Hd. rewrite (ml_string _ _ _ Hl m Ht) in Hne |- *.
  destruct (FindSetMatches_wrapped _ _ eq_refl Hne Hd) as (alts & Ha & Hf). rewrite Hf in Hne |- *.
  rewrite (ml_literals _ _ _ Hl m alts v Ht) by (done || by intros ->). rewrite bool_decide_eq_true, list_elem_of_filter. tauto.
Qed.

(** ** What the reader promises *)

(** Through the reader, a shard holds the series by reference: [Postings] gives the
    references of the series with one of the sorted values, the key of all postings those of all
    series, and [LabelValues] at least the values they have. *)
Record index_reads {R P : Type} `{IndexReader R P, PostingsOk P} (ix : R) (shard : option ShardAnnotation) (series : gmap N Labels) : Prop := {
  ir_labels : ∀ ref lbs, series !! ref = Some lbs → NoDup (names lbs) ∧ Forall (λ l, Value l ≠ "") lbs;
  ir_postings : ∀ name values, name ≠ "" → StronglySorted String.le values →
    ∃ p l, ix_Postings ix name shard values = Ret p ∧ ready p 1 0 l ∧
      ∀ y, y ∈ l ↔ ∃ lbs v, series !! y = Some lbs ∧ v ∈ values ∧ mkLabel name v ∈ lbs;
  ir_all : ∃ p l, ix_Postings ix AllPostingsKey.1 shard [AllPostingsKey.2] = Ret p ∧ ready p 1 0 l ∧
    ∀ y, y ∈ l ↔ is_Some (series !! y);
  ir_values : ∀ name, ∃ vs, ix_LabelValues ix name = Ret vs ∧
    ∀ y lbs v, series !! y = Some lbs → mkLabel name v ∈ lbs → v ∈ vs }.

Section Spec.
Context {R P : Type} `{PostingsOk P, !PostingsRobust P, IndexReader R P}.
Context (Matches : Matcher → string → bool) (Inverse : Matcher → outcome Matcher).
Context (ix : R) (shard : option ShardAnnotation) (series : gmap N Labels) (Hix : index_reads ix shard series).
Context (Hlim : (limit (St := P) ≤ 2 ^ 64)%N).
Context (GetRegexString : Matcher → string) (Hlaws : matcher_laws Matches Inverse GetRegexString).

Abbreviation posts := (sliceIterator N + P)%type (only parsing).

Lemma keep_values_spec keep vals : ∀ res lastVal isSorted,
  (isSorted = true → StronglySorted String.le res ∧ Forall (λ v, String.le v lastVal) res) →
  let '(out, s) := keep_values keep vals res lastVal isSorted in
  out = res ++ filter (λ v, keep v = true) vals ∧ (s = true → StronglySorted String.le out).
Proof.
  induction vals as [|val vals IH]; intros res lastVal isSorted Hs; simpl.
  - split; [by rewrite filter_nil, (right_id_L [] (++))|]. intros ->. by apply Hs.
  - rewrite filter_cons. destruct (keep val) eqn:Ek; simpl.
    + specialize (IH (res ++ [val]) val (if isSorted && String.ltb val lastVal then false else isSorted)).
      destruct (keep_values _ _ _ _ _) as [out s]. destruct IH as [-> Hout]; [|split; [by rewrite <- (assoc_L (++))|done]].
      destruct isSorted; [|done]. simpl. destruct (String.ltb val lastVal) eqn:El; [done|]. intros _.
      apply str_le_ltb in El. destruct (Hs eq_refl) as [Hs1 Hs2].
      assert (Hle : Forall (λ v, String.le v val) res) by (eapply Forall_impl; [exact Hs2|]; simpl; intros v Hv; by transitivity lastVal).
      split.
      * apply StronglySorted_app. split_and!; [|done|repeat constructor]. intros x y Hx ->%list_elem_of_singleton.
        rewrite Forall_forall in Hle. by apply Hle.
      * apply Forall_app. split; [done|]. repeat constructor. reflexivity.
    + by apply IH.
Qed.

(** The references of the series with a value the test keeps. *)
Definition having (name : string) (keep : string → Prop) (y : N) : Prop :=
  ∃ lbs v, series !! y = Some lbs ∧ mkLabel name v ∈ lbs ∧ keep v.

Definition holds (p : posts) (Q : N → Prop) : Prop := ∃ l, ready p 1 0 l ∧ ∀ y, y ∈ l ↔ Q y.

Lemma having_ext name K K' y : (∀ v, v ≠ "" → K v ↔ K' v) → having name K y ↔ having name K' y.
Proof.
  intros HK. unfold having. split; intros (lbs & v & Hs & Hin & Hv); exists lbs, v; (split_and!; [done|done|]);
    destruct (ir_labels _ _ _ Hix _ _ Hs) as [_ Hne]; rewrite Forall_forall in Hne; apply (HK v); try done; by apply (Hne _ Hin).
Qed.

Lemma holds_ext p Q Q' : (∀ y, Q y ↔ Q' y) → holds p Q → holds p Q'.
Proof. intros HQ (l & ? & Hl). exists l. split; [done|]. intros y. by rewrite Hl. Qed.

(** A label of a series is its value under [Get]. *)
Lemma having_Get name K y lbs :
  series !! y = Some lbs → having name K y ↔ Get lbs name ≠ "" ∧ K (Get lbs name).
Proof.
  intros Hs. destruct (ir_labels _ _ _ Hix _ _ Hs) as [Hnd Hne]. rewrite Forall_forall in Hne. split.
  - intros (lbs' & v & ? & Hin & Hv). simplify_eq. pose proof (Get_elem_of _ _ Hnd Hin) as E. simpl in E. rewrite E.
    split; [by apply (Hne _ Hin)|done].
  - intros [HG HK]. exists lbs, (Get lbs name). split_and!; [done| |done].
    destruct (decide (name ∈ names lbs)) as [Hin|Hin]; [|by rewrite Get_not_elem_of in HG].
    apply list_elem_of_fmap in Hin as ([n v] & -> & Hl). pose proof (Get_elem_of _ _ Hnd Hl) as E. simpl in E. simpl. by rewrite E.
Qed.

Lemma read_postings_spec name values :
  name ≠ "" → StronglySorted String.le values →
  ∃ p, read_postings ix shard name values = Ret p ∧ holds p (having name (λ v, v ∈ values)).
Proof.
  intros Hn Hs. destruct (ir_postings _ _ _ Hix name values Hn Hs) as (p & l & Heq & Hr & Hl).
  unfold read_postings. rewrite Heq. simpl. eexists. split; [done|]. exists l. split; [by apply sum_ready_r|].
  intros y. rewrite Hl. unfold having. naive_solver.
Qed.

Lemma kept_postings_spec name keep (res : list string) (isSorted : bool) vals :
  name ≠ "" → (∀ y lbs v, series !! y = Some lbs → mkLabel name v ∈ lbs → v ∈ vals) →
  keep_values keep vals [] "" true = (res, isSorted) →
  ∃ p, read_postings ix shard name (if isSorted then res else sort_strings res) = Ret p ∧
    holds p (having name (λ v, keep v = true)).
Proof.
  intros Hn Hvals Hkeep. pose proof (keep_values_spec keep vals [] "" true) as Hk. rewrite Hkeep in Hk.
  destruct Hk as [-> Hs]; [intros _; split; constructor|]. simpl.
  destruct (read_postings_spec name (if isSorted then filter (λ v, keep v = true) vals else sort_strings (filter (λ v, keep v = true) vals)) Hn)
    as (p & -> & Hp).
  { destruct isSorted; [by apply Hs|apply StronglySorted_merge_sort; apply _]. }
  exists p. split; [done|]. eapply holds_ext; [|exact Hp]. intros y. unfold having.
  assert (Hin : ∀ v, v ∈ (if isSorted then filter (λ v, keep v = true) vals else sort_strings (filter (λ v, keep v = true) vals)) ↔
    keep v = true ∧ v ∈ vals).
  { intros v. destruct isSorted; [|unfold sort_strings; rewrite merge_sort_Permutation]; by rewrite list_elem_of_filter. }
  setoid_rewrite Hin. naive_solver.
Qed.

Lemma inverse_spec m : m_name m ≠ "" →
  ∃ p, inversePostingsForMatcher Matches ix shard m = Ret p ∧ holds p (having (m_name m) (λ v, Matches m v = false)).
Proof.
  intros Hn. destruct (ir_values _ _ _ Hix (m_name m)) as (vals & Hv & Hvals). unfold inversePostingsForMatcher. rewrite Hv. simpl.
  destruct (keep_values _ _ _ _ _) as [res isSorted] eqn:E.
  destruct (kept_postings_spec _ _ _ _ _ Hn Hvals E) as (p & -> & Hp). exists p. split; [done|].
  eapply holds_ext; [|exact Hp]. intros y. apply having_ext. intros v _. by rewrite negb_true_iff.
Qed.

Lemma holds_empty Q : (∀ y, ¬ Q y) → holds (inl EmptyPostings) Q.
Proof. intros HQ. exists []. split; [apply empty_ready|]. intros y. rewrite elem_of_nil. split; [done|]. by intros ?%HQ. Qed.

Lemma postings_spec m : m_name m ≠ "" → valid_matcher m →
  ∃ p, postingsForMatcher Matches GetRegexString ix shard m = Ret p ∧ holds p (having (m_name m) (λ v, Matches m v = true)).
Proof.
  intros Hn Hvalid. unfold postingsForMatcher.
  assert (Hby : ∃ p, obind (ix_LabelValues ix (m_name m)) (λ vals,
      let '(res, isSorted) := keep_values (Matches m) vals [] "" true in
      match res with
      | [] => Ret (inl EmptyPostings)
      | _ => read_postings ix shard (m_name m) (if isSorted then res else sort_strings res)
      end) = Ret p ∧ holds p (having (m_name m) (λ v, Matches m v = true))).
  { destruct (ir_values _ _ _ Hix (m_name m)) as (vals & -> & Hvals). simpl.
    destruct (keep_values _ _ _ _ _) as [res isSorted] eqn:E.
    destruct (kept_postings_spec _ _ _ _ _ Hn Hvals E) as (p & Hp & Hh). destruct res as [|v res]; [|by exists p].
    exists (inl EmptyPostings). split; [done|]. apply holds_empty. intros y (lbs & v & Hs & Hin & Hk).
    pose proof (keep_values_spec (Matches m) vals [] "" true) as Hkv. rewrite E in Hkv.
    destruct Hkv as [Hf _]; [intros _; split; constructor|]. simpl in Hf. apply (not_elem_of_nil v). rewrite Hf.
    apply list_elem_of_filter. split; [done|]. by eapply Hvals. }
  destruct (m_type m) eqn:Et; [|done| |done].
  - destruct (read_postings_spec (m_name m) [m_value m] Hn) as (p & -> & Hp); [repeat constructor|]. exists p.
    split; [done|]. eapply holds_ext; [|exact Hp]. intros y. apply having_ext. intros v _. by rewrite list_elem_of_singleton, (ml_equal _ _ _ Hlaws m v Et), String.eqb_eq.
  - assert (∀ v, v ≠ "" → FindSetMatches (GetRegexString m) ≠ [] → v ∈ FindSetMatches (GetRegexString m) ↔ Matches m v = true) as Hset by (intros v Hv Hne; by eapply set_accepts).
    destruct (FindSetMatches (GetRegexString m)) as [|s0 set]; [done|].
    destruct (read_postings_spec (m_name m) (sort_strings (s0 :: set)) Hn) as (p & -> & Hp); [apply StronglySorted_merge_sort; apply _|].
    exists p. split; [done|]. eapply holds_ext; [|exact Hp]. intros y. apply having_ext. intros v Hv. rewrite <- Hset by done.
    unfold sort_strings. by rewrite merge_sort_Permutation.
Qed.

(** What a matcher contributes. *)
Definition positive (must : bool) (m : Matcher) : bool := must && negb (isNot m && Matches m "").

Lemma matcher_postings_spec must m : m_name m ≠ "" → valid_matcher m → (must = false → Matches m "" = true) →
  ∃ p, matcher_postings Matches Inverse GetRegexString ix shard must m = Ret (positive must m, p) ∧
    holds p (having (m_name m) (λ v, Matches m v = positive must m)) ∧
    (positive must m = false → Matches m "" = true).
Proof.
  intros Hn Hvalid Hmust. unfold matcher_postings, positive. destruct must; simpl.
  - destruct (isNot m) eqn:Enot; simpl.
    + rewrite (ml_inverse _ _ _ Hlaws m). set (m' := mkMatcher _ _ _). assert (∀ v, Matches m' v = negb (Matches m v)) as Hneg by (intros v; apply (ml_negates _ _ _ Hlaws)).
      assert (valid_matcher m') as Hvalid' by (unfold valid_matcher in Hvalid |- *; unfold m'; simpl; by destruct (m_type m)).
      destruct (Matches m "") eqn:Ee; simpl.
      * destruct (postings_spec m' Hn Hvalid') as (p & -> & Hp). exists p. split_and!; [done| |done].
        eapply holds_ext; [|exact Hp]. intros y. apply having_ext. intros v _. rewrite Hneg. by rewrite negb_true_iff.
      * destruct (inverse_spec m' Hn) as (p & -> & Hp). exists p. split_and!; [done| |done].
        eapply holds_ext; [|exact Hp]. intros y. apply having_ext. intros v _. rewrite Hneg. by rewrite negb_false_iff.
    + destruct (postings_spec m Hn Hvalid) as (p & -> & Hp). by exists p.
  - destruct (inverse_spec m Hn) as (p & -> & Hp). exists p. split_and!; [done|done|auto].
Qed.

Definition all_of (ps : list posts) (Q : N → Prop) : Prop :=
  ∃ ls, Forall2 (λ p li, ready p 1 0 li) ps ls ∧ ∀ y, (∀ li, li ∈ ls → y ∈ li) ↔ Q y.
Definition some_of (ps : list posts) (Q : N → Prop) : Prop :=
  ∃ ls, Forall2 (λ p li, ready p 1 0 li) ps ls ∧ ∀ y, in_some ls y ↔ Q y.

Lemma all_of_snoc ps p Q Q' : all_of ps Q → holds p Q' → all_of (ps ++ [p]) (λ y, Q y ∧ Q' y).
Proof.
  intros (ls & Hf & Hl) (l & Hr & Hl'). exists (ls ++ [l]). split; [apply Forall2_app; [done|]; constructor; [done|constructor]|].
  intros y. rewrite <- Hl, <- Hl'. setoid_rewrite elem_of_app. setoid_rewrite list_elem_of_singleton. naive_solver.
Qed.

Lemma some_of_snoc ps p Q Q' : some_of ps Q → holds p Q' → some_of (ps ++ [p]) (λ y, Q y ∨ Q' y).
Proof.
  intros (ls & Hf & Hl) (l & Hr & Hl'). exists (ls ++ [l]). split; [apply Forall2_app; [done|]; constructor; [done|constructor]|].
  intros y. rewrite <- Hl, <- Hl'. unfold in_some. setoid_rewrite elem_of_app. setoid_rewrite list_elem_of_singleton. naive_solver.
Qed.

Lemma split_postings_spec (must : string → bool) ms : Forall (λ m, m_name m ≠ "" ∧ valid_matcher m ∧ (must (m_name m) = false → Matches m "" = true)) ms →
  ∀ its nots A B, all_of its A → some_of nots B →
  ∃ its' nots', split_postings Matches Inverse GetRegexString ix shard must ms its nots = Ret (its', nots') ∧
    length its' + length nots' = length its + length nots + length ms ∧
    (its' = its ∨ ∃ m, m ∈ ms ∧ positive (must (m_name m)) m = true) ∧
    all_of its' (λ y, A y ∧ ∀ m, m ∈ ms → positive (must (m_name m)) m = true → having (m_name m) (λ v, Matches m v = true) y) ∧
    some_of nots' (λ y, B y ∨ ∃ m, m ∈ ms ∧ positive (must (m_name m)) m = false ∧ Matches m "" = true ∧
      having (m_name m) (λ v, Matches m v = false) y).
Proof.
  induction 1 as [|m ms (Hn & Hvalid & Hmust) _ IH]; intros its nots A B HA HB; simpl.
  - exists its, nots. split_and!; [done|lia|by left| |].
    + destruct HA as (ls & ? & Hl). exists ls. split; [done|]. intros y. rewrite Hl. split; [|by intros []].
      intros ?. split; [done|]. by intros m ?%elem_of_nil.
    + destruct HB as (ls & ? & Hl). exists ls. split; [done|]. intros y. rewrite Hl. split; [by left|].
      by intros [?|(m & ?%elem_of_nil & _)].
  - destruct (matcher_postings_spec (must (m_name m)) m Hn Hvalid Hmust) as (p & -> & Hp & Hemp). simpl.
    destruct (positive (must (m_name m)) m) eqn:Epos.
    + destruct (IH _ _ _ _ (all_of_snoc _ _ _ _ HA Hp) HB) as (its' & nots' & -> & Hlen & Hpos & HA' & HB').
      exists its', nots'. split_and!; [done|rewrite length_app in Hlen; simpl in Hlen; lia|right; exists m; by split; [left|]| |].
      * destruct HA' as (ls & ? & Hl). exists ls. split; [done|]. intros y. rewrite Hl. setoid_rewrite elem_of_cons. split.
        -- intros [[? ?] ?]. split; [done|]. intros m0 [->|?]; auto.
        -- intros [? Hall]. split; [split; [done|]|]; auto.
      * destruct HB' as (ls & ? & Hl). exists ls. split; [done|]. intros y. rewrite Hl. setoid_rewrite elem_of_cons. split.
        -- intros [?|(m0 & ? & ?)]; [by left|]. right. exists m0. auto.
        -- intros [?|(m0 & [->|?] & ? & ?)]; [by left|congruence|]. right. by exists m0.
    + destruct (IH _ _ _ _ HA (some_of_snoc _ _ _ _ HB Hp)) as (its' & nots' & -> & Hlen & Hpos & HA' & HB').
      exists its', nots'. split_and!; [done|rewrite length_app in Hlen; simpl in Hlen; lia|destruct Hpos as [->|(m0 & ? & ?)]; [by left|right; exists m0; by split; [right|]]| |].
      * destruct HA' as (ls & ? & Hl). exists ls. split; [done|]. intros y. rewrite Hl. setoid_rewrite elem_of_cons. split.
        -- intros [? ?]. split; [done|]. intros m0 [->|?]; [congruence|auto].
        -- intros [? Hall]. split; [done|]. auto.
      * destruct HB' as (ls & ? & Hl). exists ls. split; [done|]. intros y. rewrite Hl. setoid_rewrite elem_of_cons. split.
        -- intros [[?|?]|(m0 & ? & ?)]; [by left|right; exists m; auto|right; exists m0; auto].
        -- intros [?|(m0 & [->|?] & ? & ?)]; [by left; left|left; right; naive_solver|]. right. by exists m0.
Qed.

Lemma without_all_spec nots ls : Forall2 (λ p li, ready p 1 0 li) nots ls →
  ∀ (T : Type) (I : Iterator T N) (S : SeekIterator T N) (O : PostingsOk T) (it : T) l,
  ready it 1 0 l → (limit (St := T) ≤ limit (St := posts))%N →
  ∃ l', pv_expand (without_all nots T I S it) = (l', None) ∧ StronglySorted N.lt l' ∧ ∀ y, y ∈ l' ↔ y ∈ l ∧ ¬ in_some ls y.
Proof.
  induction 1 as [|n ln nots ls Hn _ IH]; intros T I S O it l Hr Hle; simpl.
  - exists l. split_and!; [by eapply ready_expand|by apply ready_sorted, StronglySorted_cons in Hr as [_ ?]|].
    intros y. split; [|by intros []]. intros ?. split; [done|]. by intros (? & ?%elem_of_nil & _).
  - assert (Hs : StronglySorted N.lt l) by (by apply ready_sorted, StronglySorted_cons in Hr as [_ ?]).
    assert (LimitLe T posts) by exact Hle.
    assert (Hw : ready (Without it n) 1 0 (filter (λ y, y ∉ ln) l)).
    { eapply Without_ready; [exact Hr|exact Hn|by apply StronglySorted_filter|]. intros y. rewrite list_elem_of_filter. tauto. }
    destruct (IH _ _ _ _ _ _ Hw Hle) as (l' & Heq & Hs' & Hl'). exists l'. split_and!; [exact Heq|done|].
    intros y. rewrite Hl', list_elem_of_filter, in_some_cons. tauto.
Qed.

Lemma must_spec ms name : labelMustBeSet Matches ms name = true ↔ ∃ m, m ∈ ms ∧ m_name m = name ∧ Matches m "" = false.
Proof.
  unfold labelMustBeSet. rewrite existsb_exists. split.
  - intros (m & Hm%list_elem_of_In & [E1%String.eqb_eq E2%negb_true_iff]%andb_true_iff). by exists m.
  - intros (m & Hm%list_elem_of_In & <- & E). exists m. split; [done|]. by rewrite String.eqb_refl, E.
Qed.

Lemma holds_sorted p Q : holds p Q → ∃ l, StronglySorted N.lt l ∧ ready p 1 0 l ∧ ∀ y, y ∈ l ↔ Q y.
Proof. intros (l & Hr & Hl). exists l. split_and!; [by apply ready_sorted, StronglySorted_cons in Hr as [_ ?]|done|done]. Qed.
End Spec.

Lemma PostingsForMatchers_spec {R P : Type} `{PostingsOk P, !PostingsRobust P, IndexReader R P}
    (Matches : Matcher → string → bool) (Inverse : Matcher → outcome Matcher) (GetRegexString : Matcher → string)
    (ix : R) (shard : option ShardAnnotation) (series : gmap N Labels) (ms : list Matcher) :
  (limit (St := P) ≤ 2 ^ 64)%N →
  matcher_laws Matches Inverse GetRegexString →
  index_reads ix shard series → ms ≠ [] → Forall (λ m, m_name m ≠ "" ∧ valid_matcher m) ms →
  ∃ p l, PostingsForMatchers Matches Inverse GetRegexString ix shard ms = Ret p ∧ pv_expand p = (l, None) ∧ StronglySorted N.lt l ∧
    ∀ y, y ∈ l ↔ ∃ lbs, series !! y = Some lbs ∧ accepted Matches ms lbs.
Proof.
  intros Hlim Hlaws Hix Hne Hnames. unfold PostingsForMatchers.
  destruct (split_postings_spec Matches Inverse ix shard series Hix Hlim GetRegexString Hlaws (labelMustBeSet Matches ms) ms) with (its := @nil (sliceIterator N + P)%type) (nots := @nil (sliceIterator N + P)%type) (A := λ _ : N, True) (B := λ _ : N, False)
    as (its & nots & -> & Hlen & Hpos & HA & HB).
  { rewrite Forall_forall in Hnames |- *. intros m Hm. destruct (Hnames m Hm). split; [done|]. split; [done|]. intros Hmust. destruct (Matches m "") eqn:E; [done|].
    assert (labelMustBeSet Matches ms (m_name m) = true) by (apply must_spec; by exists m). congruence. }
  { exists []. split; [constructor|]. intros y. split; [done|]. by intros _ ? ?%elem_of_nil. }
  { exists []. split; [constructor|]. intros y. split; [|done]. by intros (? & ?%elem_of_nil & _). }
  simpl in Hlen |- *.
  assert (Hmid : ∃ its', match its, nots with
     | [], _ :: _ => obind (read_postings ix shard AllPostingsKey.1 [AllPostingsKey.2]) (λ p, Ret [p])
     | _, _ => Ret its end = Ret its' ∧ its' ≠ [] ∧
     ∃ ls, Forall2 (λ p li, ready p 1 0 li) its' ls ∧ ∀ y, (∀ li, li ∈ ls → y ∈ li) ↔ is_Some (series !! y) ∧
       ∀ m, m ∈ ms → positive Matches (labelMustBeSet Matches ms (m_name m)) m = true → having series (m_name m) (λ v, Matches m v = true) y).
  { destruct HA as (ls & Hf & Hls). destruct its as [|p0 its0].
    - destruct nots as [|n nots]; [destruct ms; simpl in *; [done|lia]|].
      destruct (ir_all _ _ _ Hix) as (p & l & Hp & Hr & Hl). unfold read_postings. rewrite Hp. simpl. eexists. split; [done|]. split; [done|].
      exists [l]. split; [constructor; [by apply sum_ready_r|constructor]|]. intros y. apply Forall2_nil_inv_l in Hf as ->.
      assert (Hall : ∀ li, li ∈ [l] → y ∈ li ↔ is_Some (series !! y)) by (by intros li ->%list_elem_of_singleton).
      split; [|intros [Hy _] li Hli; by apply (Hall li Hli)]. intros Hy. split; [apply (Hall l); [left|apply Hy; left]|].
      apply (proj1 (Hls y)). by intros ? ?%elem_of_nil.
    - exists (p0 :: its0). split; [by destruct nots|]. split; [done|]. exists ls. split; [done|]. intros y. rewrite Hls.
      destruct Hpos as [?|(m0 & Hm0 & Hpos0)]; [done|]. split; [|tauto]. intros [_ Hall]. split; [|done].
      destruct (Hall m0 Hm0 Hpos0) as (lbs & v & -> & _). by eexists. }
  destruct Hmid as (its' & Heq & Hne' & ls & Hf & Hls). unfold AllPostingsKey in Heq. simpl in Heq. simpl. rewrite Heq. clear Heq. simpl.
  destruct (intersection_list ls) as (li & Hsi & Hli); [by intros ->; apply Forall2_nil_inv_r in Hf|].
  assert (Hplim : (limit (St := sliceIterator N + P) ≤ 2 ^ 64)%N) by (simpl; unfold sum_limit; simpl; lia).
  assert (Hri : ready (Intersect its') 1 0 li) by (by eapply Intersect_ready).
  destruct HB as (lsN & HfN & HlsN).
  destruct (without_all_spec nots lsN HfN _ _ _ _ _ _ Hri) as (l & Hexp & Hsl & Hl); [etrans; [exact (N.le_min_r _ _)|exact (N.le_min_l _ _)]|].
  eexists _, l. split_and!; [done|exact Hexp|done|]. intros y. rewrite Hl, Hli, Hls, HlsN. split.
  - intros [[[lbs Hs] Hpos'] Hneg]. exists lbs. split; [done|]. intros m Hm.
    destruct (Matches m (Get lbs (m_name m))) eqn:Em; [done|exfalso].
    destruct (positive Matches (labelMustBeSet Matches ms (m_name m)) m) eqn:Epos.
    + destruct (proj1 (having_Get _ _ _ Hix _ _ _ _ Hs) (Hpos' m Hm Epos)) as [_ ?]. congruence.
    + apply Hneg. right. exists m. assert (Matches m "" = true) as Hemp.
      { unfold positive in Epos. destruct (labelMustBeSet Matches ms (m_name m)) eqn:Emust.
        - simpl in Epos. apply negb_false_iff, andb_true_iff in Epos as [_ ?]. done.
        - destruct (Matches m "") eqn:E; [done|]. assert (labelMustBeSet Matches ms (m_name m) = true) by (apply must_spec; by exists m). congruence. }
      split_and!; [done|done|done|]. apply (having_Get _ _ _ Hix _ _ _ _ Hs). split; [|done]. intros E. congruence.
  - intros (lbs & Hs & Hacc). split; [split; [by eexists|]|].
    + intros m Hm Epos. apply (having_Get _ _ _ Hix _ _ _ _ Hs). split; [|by apply Hacc]. intros E.
      unfold positive in Epos. apply andb_true_iff in Epos as [(m' & Hm' & Hn' & Hemp')%must_spec _].
      specialize (Hacc m' Hm'). rewrite Hn', E in Hacc. congruence.
    + intros [[]|(m & Hm & _ & _ & Hh)]. apply (having_Get _ _ _ Hix _ _ _ _ Hs) in Hh as [_ Hh]. rewrite (Hacc m Hm) in Hh. congruence.
Qed.

(** C24: postings for matchers.  Against any index reader that keeps its contract, and
    matchers with names, [PostingsForMatchers] succeeds and its iterator, without error, yields in increasing
    order and exactly once the references of the series of the shard whose labels every
    matcher accepts, where a label a series does not have is the empty string; this
    covers the matchers that are read from the index, those that are subtracted and the case where
    only subtracted ones are given. *)
Theorem PostingsForMatchers_correct {R P : Type} `{PostingsOk P, !PostingsRobust P, IndexReader R P}
    (Matches : Matcher → string → bool) (Inverse : Matcher → outcome Matcher) (GetRegexString : Matcher → string)
    (ix : R) (shard : option ShardAnnotation) (series : gmap N Labels) (ms : list Matcher) :
  (limit (St := P) ≤ 2 ^ 64)%N →
  matcher_laws Matches Inverse GetRegexString →
  index_reads ix shard series → ms ≠ [] → Forall (λ m, m_name m ≠ "" ∧ valid_matcher m) ms →
  ∃ p l, PostingsForMatchers Matches Inverse GetRegexString ix shard ms = Ret p ∧ pv_expand p = (l, None) ∧ StronglySorted N.lt l ∧
    ∀ y, y ∈ l ↔ ∃ lbs, series !! y = Some lbs ∧ accepted Matches ms lbs.
Proof. exact (PostingsForMatchers_spec Matches Inverse GetRegexString ix shard series ms). Qed.

(** ** A reader over a map of series *)

Definition has_pair (name : string) (values : list string) (lbs : Labels) : Prop :=
  name = "" ∨ Exists (λ l, Name l = name ∧ (Value l ∈ values)) lbs.

Global Instance has_pair_dec name values lbs : Decision (has_pair name values lbs).
Proof. unfold has_pair. apply _. Defined.

Definition map_refs (m : gmap N Labels) (name : string) (values : list string) : list N :=
  sort_refs (filter (λ e : N * Labels, has_pair name values e.2) (map_to_list m)).*1.

Global Instance map_reader : IndexReader (gmap N Labels) (sliceIterator N) := {|
  ix_Postings m name _ values := Ret (NewSliceSeekIterator (map_refs m name values));
  ix_LabelValues m name := Ret ((λ e : N * Labels, Get e.2 name) <$> map_to_list m) |}.

Lemma map_refs_elem m name values y : y ∈ map_refs m name values ↔ ∃ lbs, m !! y = Some lbs ∧ has_pair name values lbs.
Proof.
  unfold map_refs. rewrite sort_refs_perm, list_elem_of_fmap. split.
  - intros ([k lbs] & -> & [Hh Hk%elem_of_map_to_list]%list_elem_of_filter). by exists lbs.
  - intros (lbs & Hs & Hh). exists (y, lbs). split; [done|]. apply list_elem_of_filter. split; [done|]. by apply elem_of_map_to_list.
Qed.

Lemma map_refs_ready m name values : map_Forall (λ k _, 0 < k < 2 ^ 64)%N m → ready (NewSliceSeekIterator (map_refs m name values)) 1 0 (map_refs m name values).
Proof.
  intros Hb. assert (Hall : ∀ y, y ∈ map_refs m name values → (0 < y < 2 ^ 64)%N).
  { intros y (lbs & Hs & _)%map_refs_elem. by apply (Hb y lbs). }
  apply slice_start.
  - constructor; [|apply Forall_forall; intros y Hy; by apply Hall]. apply sort_refs_lt.
    assert (Hnd : NoDup (map_to_list m).*1) by apply NoDup_fst_map_to_list. revert Hnd. generalize (map_to_list m).
    intros l. induction l as [|e l IH]; csimpl; [constructor|]. intros [Hn Hnd]%NoDup_cons. rewrite filter_cons.
    case_decide; csimpl; [|by apply IH]. constructor; [|by apply IH]. intros (x & Hx & [_ Hin]%list_elem_of_filter)%list_elem_of_fmap.
    apply Hn. rewrite Hx. by apply list_elem_of_fmap_2.
  - apply Forall_forall. intros y Hy. by apply Hall.
Qed.

Lemma map_reads m shard :
  map_Forall (λ k lbs, (0 < k < 2 ^ 64)%N ∧ NoDup (names lbs) ∧ Forall (λ l, Value l ≠ "") lbs) m → index_reads m shard m.
Proof.
  intros Hm. assert (Hb : map_Forall (λ k _, 0 < k < 2 ^ 64)%N m) by (intros k lbs Hk; by apply (Hm k lbs)). split.
  - intros ref lbs Hs. by destruct (Hm _ _ Hs) as (_ & ? & ?).
  - intros name values Hn _. eexists _, _. split; [done|]. split; [by apply map_refs_ready|]. intros y. rewrite map_refs_elem.
    unfold has_pair. setoid_rewrite Exists_exists. split.
    + intros (lbs & Hs & [?|([n v] & Hin & <- & Hv)]); [done|]. by exists lbs, v.
    + intros (lbs & v & Hs & Hv & Hin). exists lbs. split; [done|]. right. by exists (mkLabel name v).
  - eexists _, _. split; [done|]. split; [by apply map_refs_ready|]. intros y. rewrite map_refs_elem. unfold has_pair, is_Some.
    naive_solver.
  - intros name. eexists. split; [done|]. intros y lbs v Hs Hin. apply list_elem_of_fmap. exists (y, lbs).
    destruct (Hm _ _ Hs) as (_ & Hnd & _). pose proof (Get_elem_of _ _ Hnd Hin) as E. simpl in *.
    split; [done|]. by apply elem_of_map_to_list.
Qed.

(** Matchers of comparisons and of alternations of literals, and their inverses. *)
Definition literals (v : string) : list string :=
  if set_loop false [] [] (String.list_ascii_of_string v) is Some sets then String.string_of_list_ascii <$> sets else [].

Definition plain_matches (m : Matcher) (v : string) : bool :=
  match m_type m with
  | MatchEqual => String.eqb v (m_value m)
  | MatchNotEqual => negb (String.eqb v (m_value m))
  | MatchRegexp => bool_decide (v ∈ literals (m_value m))
  | MatchNotRegexp => negb (bool_decide (v ∈ literals (m_value m)))
  end.

Definition plain_inverse (m : Matcher) : outcome Matcher := Ret (mkMatcher (inverse_type (m_type m)) (m_name m) (m_value m)).

Lemma literals_alternation alts : alts ≠ [] → literals (alternation alts) = alts.
Proof.
  intros Hne. unfold literals, alternation. rewrite String.list_ascii_of_string_of_list_ascii, set_loop_join by (by destruct alts). cbn [app].
  rewrite <- list_fmap_compose. rewrite <- (list_fmap_id alts) at 2. apply list_fmap_ext. intros i v _. apply String.string_of_list_ascii_of_string.
Qed.

Lemma plain_laws : matcher_laws plain_matches plain_inverse (λ m, wrapped (m_value m)).
Proof.
  split; unfold plain_matches.
  - by intros m v ->.
  - done.
  - intros m alts v -> Hne ->. by rewrite literals_alternation.
  - done.
  - intros m v. cbn. destruct (m_type m); cbn; by rewrite ?negb_involutive.
Qed.

Definition map_example : gmap N Labels :=
  {[ 5%N := [mkLabel "app" "a"; mkLabel "job" "x"]; 7%N := [mkLabel "app" "b"; mkLabel "job" "x"]; 9%N := [mkLabel "job" "x"]; 11%N := [mkLabel "app" "a"; mkLabel "job" "y.z"] ]}.

(** [{app!="b", job=~"x|y\.z", job!~"y\.z"}]: a set that is read from the index, and two matchers whose inverses are subtracted or read. *)
Definition example_matchers : list Matcher := [mkMatcher MatchNotEqual "app" "b"; mkMatcher MatchRegexp "job" "x|y\.z"; mkMatcher MatchNotRegexp "job" "y\.z"].

Lemma PostingsForMatchers_witness :
  FindSetMatches (wrapped "x|y\.z") = ["x"; "y.z"] ∧
  ∃ p, PostingsForMatchers (P := sliceIterator N) plain_matches plain_inverse (λ m, wrapped (m_value m)) map_example None example_matchers = Ret p ∧
    pv_expand p = ([5; 9]%N, None).
Proof.
  split; [vm_compute; reflexivity|].
  destruct (PostingsForMatchers_correct (P := sliceIterator N) plain_matches plain_inverse (λ m, wrapped (m_value m)) map_example None map_example example_matchers) as (p & l & Hp & Hexp & Hs & Hl).
  - reflexivity.
  - apply plain_laws.
  - apply map_reads. apply (bool_decide_unpack _). vm_compute. exact I.
  - discriminate.
  - repeat constructor; discriminate.
  - exists p. split; [exact Hp|]. rewrite Hexp. do 2 f_equal.
    apply sorted_ext; [exact Hs|apply (bool_decide_unpack _); vm_compute; exact I|]. intros y. rewrite Hl.
    split.
    + intros (lbs & Hlbs & Hacc). unfold map_example in Hlbs.
      apply lookup_insert_Some in Hlbs as [[<- <-]|[_ Hlbs]]; [left|].
      apply lookup_insert_Some in Hlbs as [[<- <-]|[_ Hlbs]]; [|].
      * specialize (Hacc (mkMatcher MatchNotEqual "app" "b") ltac:(left)). discriminate Hacc.
      * apply lookup_insert_Some in Hlbs as [[<- <-]|[_ Hlbs]]; [right; left|].
        apply lookup_singleton_Some in Hlbs as [<- <-]. specialize (Hacc (mkMatcher MatchNotRegexp "job" "y\.z") ltac:(do 2 right; left)). vm_compute in Hacc. discriminate Hacc.
    + rewrite !elem_of_cons, elem_of_nil. intros [->|[->|[]]]; eexists; (split; [reflexivity|]);
        intros m; unfold example_matchers; rewrite !elem_of_cons, elem_of_nil; intros [->|[->|[->|[]]]]; vm_compute; reflexivity.
Defined.
