(* ===== verification/Encoding.v ===== *)
(** * Byte encoding of the TSDB index

    [pkg/phlaredb/tsdb/encoding] over the buffers of the Prometheus package
    [tsdb/encoding].  That package is a parameter: [TsdbEnc] has the primitives the
    index uses, [TsdbEncOk] what they document (what is put is got back, fixed-size
    numbers have their size, a section is found by its length and checksum).  Bytes are
    numbers; [go_enc] is an instance with the varints of Go's [encoding/binary]. *)

From Stdlib Require Import Ascii.
From S2P Require Import Prelude.

Abbreviation bytes := (list N) (only parsing).

(** ** Buffers *)

(** A reader takes a value off the front of a buffer, or reports a size error. *)
Abbreviation getter A := (bytes → option (A * bytes)) (only parsing).

Class TsdbEnc := {
  PutByte : N → bytes;
  PutBE32 : N → bytes;
  PutBE64 : N → bytes;
  PutUvarint64 : N → bytes;
  PutVarint64 : Z → bytes;
  PutUvarintStr : string → bytes;
  get_be32 : getter N;
  get_be64 : getter N;
  get_uvarint : getter N;
  get_varint : getter Z;
  get_bytes : getter string;
  skip : N → bytes → option bytes;
  ConsumePadding : bytes → bytes;
  Crc32 : bytes → N;
  section_at : bytes → N → bool → bytes + string;
  section_uvarint_at : bytes → N → bytes + string }.

Record Decbuf := mkDecbuf { db_B : bytes; db_E : option string }.

Definition ErrInvalidSize : string := "invalid size".
Definition DecWith (b : bytes) : Decbuf := mkDecbuf b None.

Section Ops.
Context `{TsdbEnc}.

(** The error of a buffer is sticky: later reads return the zero value. *)
Definition dec_op {A} `{GoZero A} (f : getter A) (d : Decbuf) : A * Decbuf :=
  match db_E d with
  | Some _ => (zero, d)
  | None =>
      match f (db_B d) with
      | Some (x, b) => (x, mkDecbuf b None)
      | None => (zero, mkDecbuf (db_B d) (Some ErrInvalidSize))
      end
  end.

Definition d_Be32 : Decbuf → N * Decbuf := dec_op get_be32.
Definition d_Be64 : Decbuf → N * Decbuf := dec_op get_be64.
Definition d_Uvarint64 : Decbuf → N * Decbuf := dec_op get_uvarint.
Definition d_Varint64 : Decbuf → Z * Decbuf := dec_op get_varint.
Definition d_UvarintStr : Decbuf → string * Decbuf := dec_op get_bytes.
Definition d_Len (d : Decbuf) : nat := length (db_B d).

Definition d_Skip (n : N) (d : Decbuf) : Decbuf :=
  match db_E d with
  | Some _ => d
  | None => match skip n (db_B d) with Some b => mkDecbuf b None | None => mkDecbuf (db_B d) (Some ErrInvalidSize) end
  end.

(** [NewDecbufAt] with or without a checksum table, and [NewDecbufUvarintAt]. *)
Definition NewDecbufAt (bs : bytes) (off : N) (check : bool) : Decbuf :=
  match section_at bs off check with inl b => DecWith b | inr e => mkDecbuf [] (Some e) end.
Definition NewDecbufUvarintAt (bs : bytes) (off : N) : Decbuf :=
  match section_uvarint_at bs off with inl b => DecWith b | inr e => mkDecbuf [] (Some e) end.

(** [Encbuf.PutString] and [Decbuf.Bytes] of the package itself. *)
Definition PutString (b : bytes) (s : bytes) : bytes := b ++ s.

Definition Bytes (n : Z) (d : Decbuf) : outcome (bytes * Decbuf) :=
  match db_E d with
  | Some _ => Ret ([], d)
  | None =>
      if (Z.of_nat (length (db_B d)) <? n)%Z then Ret ([], mkDecbuf (db_B d) (Some ErrInvalidSize))
      else if (n <? 0)%Z then Panic
      else Ret (take (Z.to_nat n) (db_B d), mkDecbuf (drop (Z.to_nat n) (db_B d)) None)
  end.
End Ops.

(** ** What the primitives promise *)

Class TsdbEncOk `{TsdbEnc} : Prop := {
  be32_get x r : (x < 2 ^ 32)%N → get_be32 (PutBE32 x ++ r) = Some (x, r);
  be64_get x r : (x < 2 ^ 64)%N → get_be64 (PutBE64 x ++ r) = Some (x, r);
  uvarint_get x r : (x < 2 ^ 64)%N → get_uvarint (PutUvarint64 x ++ r) = Some (x, r);
  varint_get x r : int64_range x → get_varint (PutVarint64 x ++ r) = Some (x, r);
  str_get s r : (N.of_nat (String.length s) < 2 ^ 63)%N → get_bytes (PutUvarintStr s ++ r) = Some (s, r);
  byte_put c : PutByte c = [c];
  be32_of x r : (x < 2 ^ 32)%N → of_be32 (PutBE32 x ++ r) = x;
  be32_len x : length (PutBE32 x) = 4;
  be64_len x : length (PutBE64 x) = 8;
  uvarint_len x : 1 ≤ length (PutUvarint64 x);
  str_len s : 1 ≤ length (PutUvarintStr s);
  crc_lt b : (Crc32 b < 2 ^ 32)%N;
  skip_ok n b : n ≤ length b → skip (N.of_nat n) b = Some (drop n b);
  section_get pre body post check :
    (N.of_nat (length body) < 2 ^ 32)%N →
    section_at (pre ++ PutBE32 (N.of_nat (length body)) ++ body ++ PutBE32 (Crc32 body) ++ post) (N.of_nat (length pre)) check = inl body;
  section_uvarint_get pre body post :
    (N.of_nat (length body) < 2 ^ 32)%N →
    section_uvarint_at (pre ++ PutUvarint64 (N.of_nat (length body)) ++ body ++ PutBE32 (Crc32 body) ++ post) (N.of_nat (length pre)) = inl body }.

(** Reading what was put, on a buffer without error. *)
Section Gets.
Context `{TsdbEncOk}.

Lemma d_Be32_put x r : (x < 2 ^ 32)%N → d_Be32 (DecWith (PutBE32 x ++ r)) = (x, DecWith r).
Proof. intros Hx. unfold d_Be32, dec_op. simpl. by rewrite be32_get. Qed.
Lemma d_Be64_put x r : (x < 2 ^ 64)%N → d_Be64 (DecWith (PutBE64 x ++ r)) = (x, DecWith r).
Proof. intros Hx. unfold d_Be64, dec_op. simpl. by rewrite be64_get. Qed.
Lemma d_Uvarint64_put x r : (x < 2 ^ 64)%N → d_Uvarint64 (DecWith (PutUvarint64 x ++ r)) = (x, DecWith r).
Proof. intros Hx. unfold d_Uvarint64, dec_op. simpl. by rewrite uvarint_get. Qed.
Lemma d_Varint64_put x r : int64_range x → d_Varint64 (DecWith (PutVarint64 x ++ r)) = (x, DecWith r).
Proof. intros Hx. unfold d_Varint64, dec_op. simpl. by rewrite varint_get. Qed.
Lemma d_UvarintStr_put s r : (N.of_nat (String.length s) < 2 ^ 63)%N → d_UvarintStr (DecWith (PutUvarintStr s ++ r)) = (s, DecWith r).
Proof. intros Hs. unfold d_UvarintStr, dec_op. simpl. by rewrite str_get. Qed.
Lemma d_Skip_app pre r : d_Skip (N.of_nat (length pre)) (DecWith (pre ++ r)) = DecWith r.
Proof. unfold d_Skip. simpl. rewrite skip_ok by (rewrite length_app; lia). by rewrite drop_app_length. Qed.
End Gets.

(** ** The encoding of Go *)

Definition of_bytes (b : bytes) : string := String.string_of_list_ascii (ascii_of_N <$> b).
Definition to_bytes (s : string) : bytes := N_of_ascii <$> String.list_ascii_of_string s.

Definition be64 (x : N) : bytes := be32 (x / 2 ^ 32) ++ be32 (x `mod` 2 ^ 32).

(** [binary.PutUvarint]: seven bits a byte, ten bytes at most. *)
Fixpoint put_uvarint (fuel : nat) (x : N) : bytes :=
  match fuel with
  | O => []
  | S fuel => if (x <? 128)%N then [x] else (x `mod` 128 + 128)%N :: put_uvarint fuel (x / 128)
  end.

Fixpoint uvarint (fuel : nat) (b : bytes) : option (N * bytes) :=
  match fuel, b with
  | S fuel, c :: b =>
      if (c <? 128)%N then Some (c, b)
      else '(x, r) ← uvarint fuel b; Some ((c - 128) + 128 * x, r)%N
  | _, _ => None
  end.

Lemma uvarint_put fuel x r : 0 < fuel → (x < 128 ^ N.of_nat fuel)%N → uvarint fuel (put_uvarint fuel x ++ r) = Some (x, r).
Proof.
  revert x. induction fuel as [|fuel IH]; intros x Hf Hx; [lia|]. cbn [put_uvarint].
  destruct (N.ltb_spec x 128) as [Hs|Hs]; cbn [uvarint app]; [by rewrite (proj2 (N.ltb_lt _ _))|].
  rewrite (proj2 (N.ltb_ge (x `mod` 128 + 128) 128)) by apply N.le_add_l. rewrite Nat2N.inj_succ, N.pow_succ_r' in Hx.
  assert (Hlt : (x / 128 < 128 ^ N.of_nat fuel)%N) by (apply N.Div0.div_lt_upper_bound; exact Hx).
  assert (0 < x / 128)%N by (apply N.div_str_pos; split; [done|exact Hs]).
  rewrite IH; [|destruct fuel; [change (128 ^ N.of_nat 0)%N with 1%N in Hlt; lia|apply Nat.lt_0_succ]|done].
  cbn [mbind option_bind]. rewrite N.add_sub, N.add_comm, <- N.div_mod by done. done.
Qed.

Lemma put_uvarint_len fuel x : 0 < fuel → 1 ≤ length (put_uvarint fuel x).
Proof. destruct fuel; [lia|]. intros _. simpl. destruct (x <? 128)%N; simpl; lia. Qed.

(** Zig-zag, as [binary.PutVarint]. *)
Definition zigzag (x : Z) : N := Z.to_N (if (x <? 0)%Z then - 2 * x - 1 else 2 * x)%Z.
Definition unzigzag (n : N) : Z := if N.even n then (Z.of_N n / 2)%Z else (- (Z.of_N n + 1) / 2)%Z.

Lemma unzigzag_zigzag x : unzigzag (zigzag x) = x.
Proof.
  unfold unzigzag, zigzag. destruct (Z.ltb_spec x 0) as [Hx|Hx].
  - assert (N.even (Z.to_N (-2 * x - 1)) = false) as ->.
    { rewrite <- N.negb_odd. apply negb_false_iff, N.odd_spec. exists (Z.to_N (- x - 1)). lia. }
    rewrite Z2N.id by lia. replace (- (-2 * x - 1 + 1))%Z with (x * 2)%Z by lia. by apply Z.div_mul.
  - assert (N.even (Z.to_N (2 * x)) = true) as ->.
    { apply N.even_spec. exists (Z.to_N x). lia. }
    rewrite Z2N.id by lia. replace (2 * x)%Z with (x * 2)%Z by lia. by apply Z.div_mul.
Qed.

Definition go_be32 : getter N := λ b, if (4 <=? length b)%nat then Some (of_be32 b, drop 4 b) else None.
Definition go_be64 : getter N := λ b,
  '(h, b) ← go_be32 b; '(l, b) ← go_be32 b; Some (h * 2 ^ 32 + l, b)%N.
Definition go_uvarint : getter N := uvarint 10.
Definition go_varint : getter Z := λ b, '(n, b) ← go_uvarint b; Some (unzigzag n, b).
Definition go_bytes : getter string := λ b,
  '(n, b) ← go_uvarint b;
  if (N.of_nat (length b) <? n)%N then None else Some (of_bytes (take (N.to_nat n) b), drop (N.to_nat n) b).
Definition go_skip (n : N) (b : bytes) : option bytes :=
  if (N.of_nat (length b) <? n)%N then None else Some (drop (N.to_nat n) b).

Fixpoint go_padding (b : bytes) : bytes :=
  match b with
  | 0%N :: ((_ :: _) as b') => go_padding b'
  | _ => b
  end.

(** A checksum for examples: the format only needs that it fits 32 bits. *)
Definition go_crc (b : bytes) : N := foldl (λ h c, ((h * 31 + c) `mod` 2 ^ 32)%N) 7%N b.

Definition go_section (check : bool) (len : N) (b : bytes) : bytes + string :=
  let body := take (N.to_nat len) b in
  let tail := drop (N.to_nat len) b in
  if (N.of_nat (length b) <? len + 4)%N then inr ErrInvalidSize
  else if check && negb (of_be32 tail =? go_crc body)%N then inr "invalid checksum"
  else inl body.

Definition go_section_at (bs : bytes) (off : N) (check : bool) : bytes + string :=
  match go_be32 (drop (N.to_nat off) bs) with
  | None => inr ErrInvalidSize
  | Some (len, b) => go_section check len b
  end.

Definition go_section_uvarint_at (bs : bytes) (off : N) : bytes + string :=
  match go_uvarint (drop (N.to_nat off) bs) with
  | None => inr "invalid uvarint"
  | Some (len, b) => go_section true len b
  end.

Global Instance go_enc : TsdbEnc := {|
  PutByte c := [c];
  PutBE32 := be32;
  PutBE64 := be64;
  PutUvarint64 := put_uvarint 10;
  PutVarint64 x := put_uvarint 10 (zigzag x);
  PutUvarintStr s := put_uvarint 10 (N.of_nat (String.length s)) ++ to_bytes s;
  get_be32 := go_be32;
  get_be64 := go_be64;
  get_uvarint := go_uvarint;
  get_varint := go_varint;
  get_bytes := go_bytes;
  skip := go_skip;
  ConsumePadding := go_padding;
  Crc32 := go_crc;
  section_at := go_section_at;
  section_uvarint_at := go_section_uvarint_at |}.

Lemma go_be32_put x r : (x < 2 ^ 32)%N → go_be32 (be32 x ++ r) = Some (x, r).
Proof. intros Hx. unfold go_be32. by rewrite be32_enough, of_be32_be32, drop_be32. Qed.

Lemma go_uvarint_put x r : (x < 2 ^ 64)%N → go_uvarint (put_uvarint 10 x ++ r) = Some (x, r).
Proof. intros Hx. apply uvarint_put; [lia|]. eapply N.lt_trans; [exact Hx|]. done. Qed.

Lemma of_to_bytes s : of_bytes (to_bytes s) = s.
Proof.
  unfold of_bytes, to_bytes. rewrite <- list_fmap_compose. rewrite (list_fmap_ext _ id); [by rewrite list_fmap_id, String.string_of_list_ascii_of_string|].
  intros _ c _. apply ascii_N_embedding.
Qed.

Lemma to_bytes_len s : length (to_bytes s) = String.length s.
Proof. unfold to_bytes. rewrite length_fmap. induction s; simpl; congruence. Qed.

Lemma go_crc_lt b : (go_crc b < 2 ^ 32)%N.
Proof. unfold go_crc. destruct b as [|c b] using rev_ind; [done|]. rewrite foldl_app. by apply N.mod_upper_bound. Qed.

Lemma go_section_ok check body post :
  (N.of_nat (length body) < 2 ^ 32)%N →
  go_section check (N.of_nat (length body)) (body ++ be32 (go_crc body) ++ post) = inl body.
Proof.
  intros Hb. unfold go_section. rewrite (proj2 (N.ltb_ge _ _)) by (rewrite !length_app, be32_length; lia).
  rewrite Nat2N.id, take_app_length, drop_app_length, of_be32_be32 by apply go_crc_lt. by rewrite N.eqb_refl, andb_false_r.
Qed.

Lemma go_be64_put x r : (x < 2 ^ 64)%N → go_be64 (be64 x ++ r) = Some (x, r).
Proof.
  intros Hx. unfold go_be64, be64. rewrite <- (assoc_L (++)), go_be32_put by (apply N.Div0.div_lt_upper_bound; exact Hx).
  cbn [mbind option_bind]. rewrite go_be32_put by (by apply N.mod_upper_bound). cbn [mbind option_bind]. do 2 f_equal.
  rewrite (N.mul_comm (x / 2 ^ 32)). symmetry. by apply N.div_mod.
Qed.

Lemma zigzag_lt x : int64_range x → (zigzag x < 2 ^ 64)%N.
Proof. unfold zigzag, int64_range, min_int64, max_int64. intros Hx. destruct (Z.ltb_spec x 0); lia. Qed.

Lemma go_varint_put x r : int64_range x → go_varint (put_uvarint 10 (zigzag x) ++ r) = Some (x, r).
Proof.
  intros Hx. unfold go_varint. rewrite go_uvarint_put by (by apply zigzag_lt). cbn [mbind option_bind]. by rewrite unzigzag_zigzag.
Qed.

Lemma go_bytes_put s r : (N.of_nat (String.length s) < 2 ^ 63)%N →
  go_bytes ((put_uvarint 10 (N.of_nat (String.length s)) ++ to_bytes s) ++ r) = Some (s, r).
Proof.
  intros Hs. unfold go_bytes. rewrite <- (assoc_L (++)), go_uvarint_put by lia. cbn [mbind option_bind].
  rewrite (proj2 (N.ltb_ge _ _)) by (rewrite length_app, to_bytes_len; lia).
  rewrite Nat2N.id, <- to_bytes_len, take_app_length, drop_app_length. by rewrite of_to_bytes.
Qed.


Lemma go_section_at_ok pre body post check : (N.of_nat (length body) < 2 ^ 32)%N →
  go_section_at (pre ++ be32 (N.of_nat (length body)) ++ body ++ be32 (go_crc body) ++ post) (N.of_nat (length pre)) check = inl body.
Proof.
  intros Hb. unfold go_section_at. rewrite Nat2N.id, drop_app_length, go_be32_put by done. by apply go_section_ok.
Qed.

Lemma go_section_uvarint_ok pre body post : (N.of_nat (length body) < 2 ^ 32)%N →
  go_section_uvarint_at (pre ++ put_uvarint 10 (N.of_nat (length body)) ++ body ++ be32 (go_crc body) ++ post) (N.of_nat (length pre)) = inl body.
Proof.
  intros Hb. unfold go_section_uvarint_at. rewrite Nat2N.id, drop_app_length, go_uvarint_put by lia. by apply go_section_ok.
Qed.

Global Instance go_enc_ok : TsdbEncOk.
Proof.
  split.
  - exact go_be32_put.
  - exact go_be64_put.
  - exact go_uvarint_put.
  - exact go_varint_put.
  - exact go_bytes_put.
  - done.
  - exact of_be32_be32.
  - exact be32_length.
  - intros x. exact (eq_refl : length (be64 x) = 8).
  - intros x. apply (put_uvarint_len 10). lia.
  - intros s. change (1 ≤ length (put_uvarint 10 (N.of_nat (String.length s)) ++ to_bytes s)). rewrite length_app.
    pose proof (put_uvarint_len 10 (N.of_nat (String.length s)) (Nat.lt_0_succ _)) as Hl. by apply Nat.le_trans with (1 := Hl), Nat.le_add_r.
  - exact go_crc_lt.
  - intros n b Hn. change (go_skip (N.of_nat n) b = Some (drop n b)). unfold go_skip. by rewrite (proj2 (N.ltb_ge _ _)), Nat2N.id by lia.
  - exact go_section_at_ok.
  - exact go_section_uvarint_ok.
Qed.
