(* ===== verification/IndexSymbols.v ===== *)
(** * The symbol table of the TSDB index (src/pkg/phlaredb/tsdb/index/index.go)

    [Symbols]: the sorted strings of an index file, found by number through every 32nd
    offset and by value through a binary search over these. *)

From S2P Require Import Prelude Encoding.

Definition FormatV1 : N := 1.
Definition FormatV2 : N := 2.
Definition symbolFactor : nat := 32.

Record Symbols := mkSymbolTable { s_bs : bytes; s_version : N; s_off : N; s_offsets : list N; s_seen : nat }.

Section Symbols.
Context `{TsdbEnc}.

(** The loop of [NewSymbols]: [cnt] entries, the offset of every 32nd. *)
Fixpoint symbols_loop (cnt seen : nat) (base : N) (origLen : nat) (offsets : list N) (d : Decbuf) : list N * nat * Decbuf :=
  match db_E d, cnt with
  | None, S cnt =>
      let offsets := if (seen mod symbolFactor =? 0)%nat then offsets ++ [base + N.of_nat (origLen - d_Len d)]%N else offsets in
      symbols_loop cnt (S seen) base origLen offsets (d_UvarintStr d).2
  | _, _ => (offsets, seen, d)
  end.

Definition NewSymbols (bs : bytes) (version off : N) : outcome Symbols :=
  let d := NewDecbufAt bs off true in
  let origLen := d_Len d in
  let '(cnt, d) := d_Be32 d in
  let '(offsets, seen, d) := symbols_loop (N.to_nat cnt) 0 (off + 4) origLen [] d in
  match db_E d with
  | Some e => Fail e
  | None => Ret (mkSymbolTable bs version off offsets seen)
  end.

Fixpoint walk (n : nat) (d : Decbuf) : Decbuf :=
  match n with O => d | S n => walk n (d_UvarintStr d).2 end.

Definition unknown_offset : string := "unknown symbol offset".
Definition unknown_symbol : string := "unknown symbol".

Definition symbol_at (d : Decbuf) : outcome string :=
  let '(sym, d) := d_UvarintStr d in
  match db_E d with Some e => Fail e | None => Ret sym end.

Definition SymLookup (s : Symbols) (o : N) : outcome string :=
  let d := DecWith (s_bs s) in
  if (s_version s =? FormatV2)%N then
    if (N.of_nat (s_seen s) <=? o)%N then Fail unknown_offset
    else
      obind (of_option (s_offsets s !! N.to_nat (o / N.of_nat symbolFactor))) (λ off,
        symbol_at (walk (N.to_nat (o mod N.of_nat symbolFactor)) (d_Skip off d)))
  else symbol_at (d_Skip o d).

(** The scan from a sampled symbol on: the symbol read last, the length before it, its
    number, and the buffer. *)
Fixpoint reverse_scan (fuel : nat) (seen : nat) (sym : string) (res lastLen : nat) (last : string) (d : Decbuf) : nat * nat * string * Decbuf :=
  match fuel with
  | O => (res, lastLen, last, d)
  | S fuel =>
      match db_E d with
      | Some _ => (res, lastLen, last, d)
      | None =>
          if (res <=? seen)%nat then
            let lastLen := d_Len d in
            let '(last, d) := d_UvarintStr d in
            if negb (String.ltb last sym) then (res, lastLen, last, d)
            else reverse_scan fuel seen sym (S res) lastLen last d
          else (res, lastLen, last, d)
      end
  end.

Definition sample_gt (s : Symbols) (sym : string) (i : nat) : bool :=
  match s_offsets s !! i with
  | Some off => String.ltb sym (d_UvarintStr (d_Skip off (DecWith (s_bs s)))).1
  | None => false
  end.

Definition ReverseLookup (s : Symbols) (sym : string) : outcome N :=
  match s_offsets s with
  | [] => Fail unknown_symbol
  | _ =>
      let i := search (length (s_offsets s)) (sample_gt s sym) in
      let i := if (0 <? i)%nat then (i - 1)%nat else i in
      obind (of_option (s_offsets s !! i)) (λ off,
        let '(res, lastLen, last, d) :=
          reverse_scan (s_seen s + 2) (s_seen s) sym (i * symbolFactor) 0 "" (d_Skip off (DecWith (s_bs s))) in
        match db_E d with
        | Some e => Fail e
        | None =>
            if negb (String.eqb last sym) then Fail unknown_symbol
            else if (s_version s =? FormatV2)%N then Ret (u32 (N.of_nat res))
            else Ret (u32 (N.of_nat (length (s_bs s) - lastLen)))
        end)
  end.

(** *** [symbolsIter]: the values [Iter] yields and the error it ends with. *)
Fixpoint symbols_iter (cnt : nat) (d : Decbuf) : list string * option string :=
  match cnt with
  | O => ([], None)
  | S cnt =>
      let '(cur, d) := d_UvarintStr d in
      match db_E d with
      | Some e => ([], Some e)
      | None => let '(l, e) := symbols_iter cnt d in (cur :: l, e)
      end
  end.

Definition SymIter (s : Symbols) : list string * option string :=
  let '(cnt, d) := d_Be32 (NewDecbufAt (s_bs s) (s_off s) true) in symbols_iter (N.to_nat cnt) d.
End Symbols.

(** ** A written table *)

Section SymbolsSpec.
Context `{TsdbEncOk}.

Definition enc_syms (l : list string) : bytes := concat (PutUvarintStr <$> l).

(** The section: its count and entries, between its length and checksum. *)
Definition sym_body (l : list string) : bytes := PutBE32 (N.of_nat (length l)) ++ enc_syms l.
Definition sym_section (l : list string) : bytes :=
  PutBE32 (N.of_nat (length (sym_body l))) ++ sym_body l ++ PutBE32 (Crc32 (sym_body l)).

Definition fits (l : list string) : Prop :=
  (N.of_nat (length (sym_body l)) < 2 ^ 32)%N ∧ Forall (λ s, N.of_nat (String.length s) < 2 ^ 63)%N l.

Lemma enc_syms_cons s l : enc_syms (s :: l) = PutUvarintStr s ++ enc_syms l.
Proof. done. Qed.

Lemma enc_syms_app l l' : enc_syms (l ++ l') = enc_syms l ++ enc_syms l'.
Proof. unfold enc_syms. by rewrite fmap_app, concat_app. Qed.

Lemma enc_syms_len l : length l ≤ length (enc_syms l).
Proof.
  induction l as [|s l IH]; [done|]. rewrite enc_syms_cons, length_app. pose proof (str_len s). simpl. lia.
Qed.

(** The sampled offsets of the first [n] symbols of a table that starts at [base]. *)
Definition offs_ok (syms : list string) (base : N) (n : nat) (offsets : list N) : Prop :=
  ∀ k, offsets !! k = if decide (symbolFactor * k < n) then Some (base + N.of_nat (4 + length (enc_syms (take (symbolFactor * k) syms))))%N else None.

Lemma offs_ok_len syms base n offsets : offs_ok syms base n offsets → ∀ k, k < length offsets ↔ symbolFactor * k < n.
Proof.
  intros Ho k. rewrite <- lookup_lt_is_Some, Ho. case_decide; (split; intros Hx; [done || by destruct Hx|done || by eexists]).
Qed.

Lemma offs_ok_step syms base pre s l offsets :
  syms = pre ++ s :: l → offs_ok syms base (length pre) offsets →
  offs_ok syms base (S (length pre))
    (if (length pre mod symbolFactor =? 0)%nat then offsets ++ [base + N.of_nat (4 + length (enc_syms pre))]%N else offsets).
Proof.
  intros Hsyms Ho k. pose proof (Nat.div_mod_eq (length pre) symbolFactor) as Hdm.
  pose proof (Nat.mod_upper_bound (length pre) symbolFactor ltac:(done)) as Hub. pose proof (offs_ok_len _ _ _ _ Ho) as Hlen.
  unfold symbolFactor in *. destruct (Nat.eqb_spec (length pre mod 32) 0) as [E|E].
  - assert (Hl : length offsets = length pre / 32).
    { destruct (Nat.lt_trichotomy (length offsets) (length pre / 32)) as [Hlt|[?|Hgt]]; [|done|].
      - exfalso. apply (Nat.lt_irrefl (length offsets)), Hlen. lia.
      - apply Hlen in Hgt. lia. }
    destruct (decide (k = length offsets)) as [->|Hk].
    + rewrite list_lookup_middle by done. rewrite decide_True by lia. do 4 f_equal.
      rewrite Hsyms, take_app_le by lia. by rewrite take_ge by lia.
    + destruct (decide (k < length offsets)) as [Hlt|Hge].
      * rewrite lookup_app_l by done. rewrite Ho. apply Hlen in Hlt. unfold symbolFactor. rewrite !decide_True by lia. done.
      * rewrite lookup_ge_None_2 by (rewrite length_app; simpl; lia). rewrite decide_False; [done|]. lia.
  - rewrite Ho. unfold symbolFactor. repeat case_decide; done || lia.
Qed.

Lemma symbols_loop_spec syms base : ∀ l pre offsets,
  syms = pre ++ l → Forall (λ s, N.of_nat (String.length s) < 2 ^ 63)%N l → offs_ok syms base (length pre) offsets →
  ∃ offsets', symbols_loop (length l) (length pre) base (4 + length (enc_syms syms)) offsets (DecWith (enc_syms l)) =
    (offsets', length syms, DecWith []) ∧ offs_ok syms base (length syms) offsets'.
Proof.
  induction l as [|s l IH]; intros pre offsets Hsyms Hl Ho.
  - rewrite (right_id_L [] (++)) in Hsyms. subst. by exists offsets.
  - apply Forall_cons in Hl as [Hs Hl].
    destruct (IH (pre ++ [s]) (if (length pre mod symbolFactor =? 0)%nat then offsets ++ [base + N.of_nat (4 + length (enc_syms pre))]%N else offsets))
      as (offsets' & Heq & Ho'); [by rewrite <- (assoc_L (++))|done| |].
    { rewrite length_app, Nat.add_1_r. by eapply offs_ok_step. }
    exists offsets'. split; [|done]. rewrite <- Heq. cbn [length symbols_loop db_E DecWith]. rewrite length_app, Nat.add_1_r.
    replace (4 + length (enc_syms syms) - d_Len (DecWith (enc_syms (s :: l)))) with (4 + length (enc_syms pre)).
    + rewrite enc_syms_cons, d_UvarintStr_put by done. done.
    + subst syms. rewrite enc_syms_app, length_app. unfold d_Len. simpl. lia.
Qed.

(** A loaded table. *)
Record table_ok (syms : list string) (s : Symbols) : Prop := {
  tb_version : s_version s = FormatV2;
  tb_seen : s_seen s = length syms;
  tb_bytes : ∃ pre post, s_bs s = pre ++ sym_section syms ++ post ∧ s_off s = N.of_nat (length pre);
  tb_offsets : offs_ok syms (s_off s + 4) (length syms) (s_offsets s) }.

Lemma NewSymbols_spec syms pre post :
  fits syms → ∃ s, NewSymbols (pre ++ sym_section syms ++ post) FormatV2 (N.of_nat (length pre)) = Ret s ∧ table_ok syms s.
Proof.
  intros [Hb Hs]. unfold NewSymbols, NewDecbufAt. unfold sym_section. rewrite <- !(assoc_L (++)), section_get by done.
  assert (Hn : (N.of_nat (length syms) < 2 ^ 32)%N).
  { unfold sym_body in Hb. rewrite length_app, be32_len in Hb. pose proof (enc_syms_len syms). lia. }
  replace (d_Len (DecWith (sym_body syms))) with (4 + length (enc_syms syms)) by (unfold d_Len, sym_body; simpl; by rewrite length_app, be32_len).
  change (DecWith (sym_body syms)) with (DecWith (PutBE32 (N.of_nat (length syms)) ++ enc_syms syms)).
  rewrite d_Be32_put by done. rewrite Nat2N.id.
  destruct (symbols_loop_spec syms (N.of_nat (length pre) + 4) syms [] []) as (offsets & Heq & Ho); [done|done| |].
  { intros k. rewrite lookup_nil, decide_False by (simpl; lia). done. }
  change (length (@nil string)) with 0 in Heq. rewrite Heq. simpl. eexists. split; [done|]. split; simpl; [done|done| |done].
  exists pre, post. unfold sym_section. by rewrite <- !(assoc_L (++)).
Qed.

(** The buffer at the [n]-th symbol, and what follows the table. *)
Definition rest_at (syms : list string) (n : nat) (tail : bytes) : Decbuf := DecWith (enc_syms (drop n syms) ++ tail).

Lemma table_skip syms s : table_ok syms s → ∃ tail, ∀ k off, s_offsets s !! k = Some off →
  symbolFactor * k < length syms ∧ d_Skip off (DecWith (s_bs s)) = rest_at syms (symbolFactor * k) tail.
Proof.
  intros [_ _ (pre & post & Hbs & Hoff) Hofs]. exists (PutBE32 (Crc32 (sym_body syms)) ++ post). intros k off Hk.
  rewrite Hofs in Hk. case_decide as Hlt; [|done]. simplify_eq. split; [done|]. unfold rest_at.
  assert (Hsplit : s_bs s = (pre ++ PutBE32 (N.of_nat (length (sym_body syms))) ++ PutBE32 (N.of_nat (length syms)) ++
      enc_syms (take (symbolFactor * k) syms)) ++ enc_syms (drop (symbolFactor * k) syms) ++ PutBE32 (Crc32 (sym_body syms)) ++ post).
  { rewrite Hbs. unfold sym_section. replace (sym_body syms) with (PutBE32 (N.of_nat (length syms)) ++
      enc_syms (take (symbolFactor * k) syms) ++ enc_syms (drop (symbolFactor * k) syms)) at 2
      by (unfold sym_body; by rewrite <- enc_syms_app, take_drop). by rewrite <- !(assoc_L (++)). }
  rewrite Hsplit, Hoff. match goal with |- d_Skip ?n (DecWith (?A ++ _)) = _ => replace n with (N.of_nat (length A)) end.
  - apply d_Skip_app.
  - rewrite !length_app, !be32_len. lia.
Qed.

Lemma walk_spec syms tail n k : Forall (λ s, N.of_nat (String.length s) < 2 ^ 63)%N syms → k + n ≤ length syms →
  walk n (rest_at syms k tail) = rest_at syms (k + n) tail.
Proof.
  intros Hs. revert k. induction n as [|n IH]; intros k Hk; simpl; [by rewrite Nat.add_0_r|].
  destruct (lookup_lt_is_Some_2 syms k) as [x Hx]; [lia|]. unfold rest_at at 1. rewrite (drop_S _ _ _ Hx), enc_syms_cons, <- (assoc_L (++)).
  rewrite Forall_forall in Hs. rewrite d_UvarintStr_put by (apply Hs; by eapply list_elem_of_lookup_2). simpl.
  change (DecWith (enc_syms (drop (S k) syms) ++ tail)) with (rest_at syms (S k) tail). rewrite IH by lia. f_equal. lia.
Qed.

Lemma rest_at_read syms tail n x : Forall (λ s, N.of_nat (String.length s) < 2 ^ 63)%N syms → syms !! n = Some x →
  d_UvarintStr (rest_at syms n tail) = (x, rest_at syms (S n) tail).
Proof.
  intros Hs Hx. unfold rest_at. rewrite (drop_S _ _ _ Hx), enc_syms_cons, <- (assoc_L (++)).
  rewrite Forall_forall in Hs. by rewrite d_UvarintStr_put by (apply Hs; by eapply list_elem_of_lookup_2).
Qed.

Lemma SymLookup_spec syms s i x :
  table_ok syms s → fits syms → syms !! N.to_nat i = Some x → SymLookup s i = Ret x.
Proof.
  intros Hok [_ Hs] Hx. pose proof (table_skip _ _ Hok) as (tail & Hskip). pose proof Hok as [Hv Hseen _ Hofs].
  pose proof (lookup_lt_Some _ _ _ Hx) as Hlt. unfold SymLookup. rewrite Hv, Hseen. simpl.
  rewrite (proj2 (N.leb_gt _ _)) by lia. pose proof (N.div_mod i (N.of_nat symbolFactor) ltac:(done)) as Hdm.
  set (k := N.to_nat (i / N.of_nat symbolFactor)). set (m := N.to_nat (i mod N.of_nat symbolFactor)).
  assert (Hi : N.to_nat i = symbolFactor * k + m) by (unfold k, m; lia).
  destruct (s_offsets s !! k) as [off|] eqn:Eo; [|exfalso; rewrite Hofs in Eo; rewrite decide_True in Eo by lia; done].
  simpl. destruct (Hskip _ _ Eo) as [_ ->]. rewrite walk_spec by (done || lia). unfold symbol_at.
  rewrite (rest_at_read _ _ _ x) by (done || by rewrite <- Hi). done.
Qed.

Lemma SymLookup_out syms s i : table_ok syms s → (N.of_nat (length syms) ≤ i)%N → SymLookup s i = Fail unknown_offset.
Proof. intros [Hv Hseen _ _] Hi. unfold SymLookup. rewrite Hv, Hseen. simpl. by rewrite (proj2 (N.leb_le _ _)). Qed.

(** *** Reverse lookup *)

Definition str_lt (a b : string) : Prop := String.ltb a b = true.

Lemma sorted_lt syms i j a b : StronglySorted str_lt syms → syms !! i = Some a → syms !! j = Some b → i < j → str_lt a b.
Proof. intros Hs Ha Hb Hij. by eapply (StronglySorted_lookup str_lt syms i j). Qed.

(** The scan stops at the first symbol that is not below the one sought. *)
Lemma reverse_scan_spec syms tail sym p : Forall (λ s, N.of_nat (String.length s) < 2 ^ 63)%N syms →
  ∀ n fuel k lastLen last, p = k + n → n < fuel → (∀ j y, k ≤ j < p → syms !! j = Some y → String.ltb y sym = true) →
  ∀ y, syms !! p = Some y → String.ltb y sym = false →
  ∃ lastLen', reverse_scan fuel (length syms) sym k lastLen last (rest_at syms k tail) = (p, lastLen', y, rest_at syms (S p) tail).
Proof.
  intros Hs. induction n as [|n IH]; intros [|fuel] k lastLen last -> Hf Hlow y Hy Hge; try lia; simpl.
  - rewrite Nat.add_0_r in Hy |- *. pose proof (lookup_lt_Some _ _ _ Hy). rewrite (proj2 (Nat.leb_le _ _)) by lia.
    rewrite (rest_at_read _ _ _ _ Hs Hy). rewrite Hge. simpl. by eexists.
  - pose proof (lookup_lt_Some _ _ _ Hy). destruct (lookup_lt_is_Some_2 syms k) as [x Hx]; [lia|]. rewrite (proj2 (Nat.leb_le _ _)) by lia.
    rewrite (rest_at_read _ _ _ _ Hs Hx), (Hlow k x) by (done || lia). simpl.
    apply (IH fuel (S k) _ x); [lia|lia| |done|done]. intros j z Hj. apply Hlow. lia.
Qed.

Lemma sample_gt_spec syms s sym k : table_ok syms s → fits syms → k < length (s_offsets s) →
  ∃ x, syms !! (symbolFactor * k) = Some x ∧ sample_gt s sym k = String.ltb sym x.
Proof.
  intros Hok [_ Hs] Hk. pose proof (table_skip _ _ Hok) as (tail & Hskip). unfold sample_gt.
  destruct (lookup_lt_is_Some_2 _ _ Hk) as [off Hoff]. rewrite Hoff. destruct (Hskip _ _ Hoff) as [Hlt ->].
  destruct (lookup_lt_is_Some_2 _ _ Hlt) as [x Hx]. exists x. split; [done|]. by rewrite (rest_at_read _ _ _ _ Hs Hx).
Qed.

(** The position the search finds: the first symbol that is not below. *)
Lemma ReverseLookup_scan syms s sym p y :
  table_ok syms s → fits syms → StronglySorted str_lt syms → syms !! p = Some y → String.ltb y sym = false →
  (∀ j z, j < p → syms !! j = Some z → String.ltb z sym = true) →
  ReverseLookup s sym = if negb (String.eqb y sym) then Fail unknown_symbol else Ret (u32 (N.of_nat p)).
Proof.
  intros Hok Hfit Hsort Hp Hge Hlow. pose proof Hfit as [_ Hs]. pose proof (table_skip _ _ Hok) as (tail & Hskip).
  pose proof Hok as [Hv Hseen _ Hofs]. pose proof (offs_ok_len _ _ _ _ Hofs) as Hlen. pose proof (lookup_lt_Some _ _ _ Hp) as Hplt.
  assert (Hpos : 0 < length (s_offsets s)) by (apply Hlen; lia).
  unfold ReverseLookup. replace (match s_offsets s with [] => Fail unknown_symbol | _ => _ end) with
    (let i0 := search (length (s_offsets s)) (sample_gt s sym) in let i := if (0 <? i0)%nat then i0 - 1 else i0 in
      obind (of_option (s_offsets s !! i)) (λ off,
        let '(res, lastLen, last, d) :=
          reverse_scan (s_seen s + 2) (s_seen s) sym (i * symbolFactor) 0 "" (d_Skip off (DecWith (s_bs s))) in
        match db_E d with
        | Some e => Fail e
        | None =>
            if negb (String.eqb last sym) then Fail unknown_symbol
            else if (s_version s =? FormatV2)%N then Ret (u32 (N.of_nat res))
            else Ret (u32 (N.of_nat (length (s_bs s) - lastLen)))
        end)) by (by destruct (s_offsets s); [simpl in Hpos; lia|]). cbv zeta.
  destruct (search_boundary (length (s_offsets s)) (sample_gt s sym)) as (Hi & Hlo & _).
  set (i0 := search (length (s_offsets s)) (sample_gt s sym)) in *. set (i := if (0 <? i0)%nat then i0 - 1 else i0).
  assert (Hilt : i < length (s_offsets s)).
  { unfold i. destruct (Nat.ltb_spec 0 i0); lia. }
  assert (Hile : symbolFactor * i ≤ p).
  { unfold i. destruct (Nat.ltb_spec 0 i0) as [Hi0|Hi0]; [|lia]. destruct Hlo as [?|Hlo]; [lia|]. replace (pred i0) with (i0 - 1) in Hlo by lia.
    destruct (sample_gt_spec syms s sym (i0 - 1) Hok Hfit) as (x & Hx & Hsx); [lia|]. rewrite Hsx in Hlo.
    destruct (decide (symbolFactor * (i0 - 1) ≤ p)) as [|Hn]; [done|exfalso].
    assert (Hyx : str_lt y x) by (eapply sorted_lt; [exact Hsort|exact Hp|exact Hx|lia]).
    unfold str_lt in Hyx. apply str_le_ltb in Hlo. destruct (proj1 (str_ltb_le y x) Hyx) as [Hle Hne].
    assert (Hys : String.le y sym) by (by transitivity x). assert (String.ltb y sym = true); [|congruence]. apply str_ltb_le.
    split; [done|]. intros ->. apply Hne. by apply (anti_symm String.le). }
  destruct (lookup_lt_is_Some_2 _ _ Hilt) as [off Hoff]. rewrite Hoff. simpl. destruct (Hskip _ _ Hoff) as [_ ->].
  rewrite Hseen, (Nat.mul_comm i). destruct (reverse_scan_spec syms tail sym p Hs (p - symbolFactor * i) (length syms + 2) (symbolFactor * i) 0 "")
    with (y := y) as (lastLen' & ->); [lia|lia| |done|done|].
  { intros j z Hj. apply Hlow. lia. }
  simpl. rewrite Hv. done.
Qed.

Lemma str_ltb_asym a b : String.ltb a b = true → String.ltb b a = false.
Proof. intros Hab. destruct (str_trichotomy a b) as [(?&?&?)|[(?&?&?)|(?&?&?)]]; congruence. Qed.

Lemma ReverseLookup_spec syms s i x :
  table_ok syms s → fits syms → StronglySorted str_lt syms → syms !! N.to_nat i = Some x → (i < 2 ^ 32)%N → ReverseLookup s x = Ret i.
Proof.
  intros Hok Hfit Hsort Hx Hi. rewrite (ReverseLookup_scan syms s x (N.to_nat i) x); [|done..|apply str_ltb_irrefl|].
  - rewrite String.eqb_refl. simpl. by rewrite N2Nat.id, u32_small.
  - intros j z Hj Hz. by eapply sorted_lt.
Qed.
End SymbolsSpec.
