(* ===== verification/IndexWriter.v ===== *)
(** * Writing the TSDB index (src/pkg/phlaredb/tsdb/index/index.go, [Writer])

    An index file is a header, the symbols, the series, label indices, postings, offset
    tables and a table of contents.  The writer goes through stages; the two temporary
    files and the main one are byte lists, and an error ends the use of the writer. *)

From S2P Require Import Prelude Labels Encoding IndexSymbols.

(** ** Files *)

(** A [FileWriter] is what has been written; its position is the length. *)
Definition fw_Pos (f : bytes) : N := N.of_nat (length f).

Definition size_error : string := "exceeding max size of 64GiB".
Definition max_uint32 : N := (2 ^ 32 - 1)%N.

Fixpoint fw_Write (f : bytes) (bufs : list bytes) : outcome bytes :=
  match bufs with
  | [] => Ret f
  | b :: bufs =>
      let f := f ++ b in
      if (16 * max_uint32 <? fw_Pos f)%N then Fail size_error else fw_Write f bufs
  end.

Definition fw_WriteAt (f : bytes) (buf : bytes) (pos : N) : bytes :=
  take (N.to_nat pos) f ++ buf ++ drop (N.to_nat pos + length buf) f.

Definition fw_AddPadding (f : bytes) (size : N) : outcome bytes :=
  let p := (fw_Pos f mod size)%N in
  if (p =? 0)%N then Ret f else fw_Write f [replicate (N.to_nat (size - p)) 0%N].

(** ** State *)

Inductive indexWriterStage := idxStageNone | idxStageSymbols | idxStageSeries | idxStageDone.

Definition stage_num (s : indexWriterStage) : nat :=
  match s with idxStageNone => 0 | idxStageSymbols => 1 | idxStageSeries => 2 | idxStageDone => 3 end.

Record symbolCacheEntry := mkSymbolCacheEntry { sc_index : N; sc_lastValue : string; sc_lastValueIndex : N }.

Record Metadata := mkMetadata { md_From : Z; md_Through : Z; md_Checksum : N }.

Record TOC := mkTOC {
  t_Symbols : N; t_Series : N; t_LabelIndices : N; t_LabelIndicesTable : N; t_Postings : N; t_PostingsTable : N;
  t_FingerprintOffsets : N; t_Metadata : Metadata }.

Definition EnsureBounds (m : Metadata) (from through : Z) : Metadata :=
  mkMetadata (if (md_From m =? 0)%Z || (from <? md_From m)%Z then from else md_From m)
    (if (md_Through m =? 0)%Z || (through >? md_Through m)%Z then through else md_Through m) (md_Checksum m).

Record ChunkMeta := mkChunkMeta { c_Checksum : N; c_MinTime : Z; c_MaxTime : Z; c_KB : N; c_SeriesIndex : N }.

Record labelIndexHashEntry := mkLabelIndexHashEntry { li_keys : list string; li_offset : N }.

Record Writer := mkWriter {
  w_f : bytes; w_fP : bytes; w_fPO : bytes; w_cntPO : N;
  w_toc : TOC; w_stage : indexWriterStage; w_postingsStart : N;
  w_numSymbols : N; w_symbols : option Symbols; w_lastSymbol : string; w_symbolCache : gmap string symbolCacheEntry;
  w_labelIndexes : list labelIndexHashEntry; w_labelNames : gmap string N; w_fingerprintOffsets : list (N * N);
  w_lastSeries : Labels; w_lastSeriesHash : N; w_lastRef : N }.

Definition toc0 : TOC := mkTOC 0 0 0 0 0 0 0 (mkMetadata 0 0 0).

(** Field updates. *)
Definition set_f (w : Writer) (f : bytes) : Writer :=
  mkWriter f (w_fP w) (w_fPO w) (w_cntPO w) (w_toc w) (w_stage w) (w_postingsStart w) (w_numSymbols w) (w_symbols w) (w_lastSymbol w)
    (w_symbolCache w) (w_labelIndexes w) (w_labelNames w) (w_fingerprintOffsets w) (w_lastSeries w) (w_lastSeriesHash w) (w_lastRef w).
Definition set_toc (w : Writer) (t : TOC) : Writer :=
  mkWriter (w_f w) (w_fP w) (w_fPO w) (w_cntPO w) t (w_stage w) (w_postingsStart w) (w_numSymbols w) (w_symbols w) (w_lastSymbol w)
    (w_symbolCache w) (w_labelIndexes w) (w_labelNames w) (w_fingerprintOffsets w) (w_lastSeries w) (w_lastSeriesHash w) (w_lastRef w).
Definition set_stage (w : Writer) (s : indexWriterStage) : Writer :=
  mkWriter (w_f w) (w_fP w) (w_fPO w) (w_cntPO w) (w_toc w) s (w_postingsStart w) (w_numSymbols w) (w_symbols w) (w_lastSymbol w)
    (w_symbolCache w) (w_labelIndexes w) (w_labelNames w) (w_fingerprintOffsets w) (w_lastSeries w) (w_lastSeriesHash w) (w_lastRef w).
Definition set_symbol (w : Writer) (n : N) (sym : string) : Writer :=
  mkWriter (w_f w) (w_fP w) (w_fPO w) (w_cntPO w) (w_toc w) (w_stage w) (w_postingsStart w) n (w_symbols w) sym
    (w_symbolCache w) (w_labelIndexes w) (w_labelNames w) (w_fingerprintOffsets w) (w_lastSeries w) (w_lastSeriesHash w) (w_lastRef w).
Definition set_symbols (w : Writer) (s : Symbols) : Writer :=
  mkWriter (w_f w) (w_fP w) (w_fPO w) (w_cntPO w) (w_toc w) (w_stage w) (w_postingsStart w) (w_numSymbols w) (Some s) (w_lastSymbol w)
    (w_symbolCache w) (w_labelIndexes w) (w_labelNames w) (w_fingerprintOffsets w) (w_lastSeries w) (w_lastSeriesHash w) (w_lastRef w).
Definition set_postings (w : Writer) (fP fPO : bytes) (cnt : N) : Writer :=
  mkWriter (w_f w) fP fPO cnt (w_toc w) (w_stage w) (w_postingsStart w) (w_numSymbols w) (w_symbols w) (w_lastSymbol w)
    (w_symbolCache w) (w_labelIndexes w) (w_labelNames w) (w_fingerprintOffsets w) (w_lastSeries w) (w_lastSeriesHash w) (w_lastRef w).
Definition set_postingsStart (w : Writer) (p : N) : Writer :=
  mkWriter (w_f w) (w_fP w) (w_fPO w) (w_cntPO w) (w_toc w) (w_stage w) p (w_numSymbols w) (w_symbols w) (w_lastSymbol w)
    (w_symbolCache w) (w_labelIndexes w) (w_labelNames w) (w_fingerprintOffsets w) (w_lastSeries w) (w_lastSeriesHash w) (w_lastRef w).
Definition set_labelIndexes (w : Writer) (l : list labelIndexHashEntry) : Writer :=
  mkWriter (w_f w) (w_fP w) (w_fPO w) (w_cntPO w) (w_toc w) (w_stage w) (w_postingsStart w) (w_numSymbols w) (w_symbols w) (w_lastSymbol w)
    (w_symbolCache w) l (w_labelNames w) (w_fingerprintOffsets w) (w_lastSeries w) (w_lastSeriesHash w) (w_lastRef w).
Definition set_series (w : Writer) (t : TOC) (cache : gmap string symbolCacheEntry) (names : gmap string N) (fps : list (N * N))
    (last : Labels) (hash ref : N) : Writer :=
  mkWriter (w_f w) (w_fP w) (w_fPO w) (w_cntPO w) t (w_stage w) (w_postingsStart w) (w_numSymbols w) (w_symbols w) (w_lastSymbol w)
    cache (w_labelIndexes w) names fps last hash ref.

(** [uint64(x)] of an [int64]. *)
Definition u64_of (z : Z) : N := Z.to_N (z `mod` 2 ^ 64).

Definition MagicIndex : N := 0xBAAAD700.
Definition fingerprintInterval : N := 1024.
(** The placeholders ["alen"], ["blen"] and ["hash"]. *)
Definition alen : bytes := [97; 108; 101; 110]%N.
Definition blen : bytes := [98; 108; 101; 110]%N.
Definition hash_placeholder : bytes := [104; 97; 115; 104]%N.

Section Writer.
Context `{TsdbEnc}.
(** The error of the writer's context, if it is done. *)
Context (ctx_Err : option string).

Definition PutUvarint (n : nat) : bytes := PutUvarint64 (N.of_nat n).
Definition PutBE32int (n : N) : bytes := PutBE32 (u32 n).

Definition w_write (w : Writer) (bufs : list bytes) : outcome Writer :=
  obind (fw_Write (w_f w) bufs) (λ f, Ret (set_f w f)).

Definition writeMeta (w : Writer) : outcome Writer := w_write w [PutBE32 MagicIndex ++ PutByte FormatV2].

Definition NewWriter : outcome Writer :=
  writeMeta (mkWriter [] [] [] 0 toc0 idxStageNone 0 0 None "" ∅ [] ∅ [] [] 0 0).

(** *** Symbols *)

Definition startSymbols (w : Writer) : outcome Writer := w_write w [alen ++ blen].

Definition symbols_size_error : string := "symbol table size exceeds 4 bytes".

(** The length and the count are patched in, the checksum is of the file's bytes. *)
Definition finishSymbols (w : Writer) : outcome Writer :=
  let symbolTableSize := (fw_Pos (w_f w) - t_Symbols (w_toc w) - 4)%N in
  if (max_uint32 <? symbolTableSize)%N then Fail symbols_size_error
  else
    let f := fw_WriteAt (w_f w) (PutBE32int symbolTableSize ++ PutBE32int (w_numSymbols w)) (t_Symbols (w_toc w)) in
    let hashPos := fw_Pos f in
    obind (fw_Write f [hash_placeholder]) (λ f,
      let from := N.to_nat (t_Symbols (w_toc w) + 4) in
      let hash := Crc32 (drop from (take (N.to_nat hashPos) f)) in
      let f := fw_WriteAt f (PutBE32 hash) hashPos in
      obind (NewSymbols f FormatV2 (t_Symbols (w_toc w))) (λ s, Ret (set_symbols (set_f w f) s))).

(** *** Postings *)

Definition no_symbols : string := "unknown symbol - no symbols".
Definition w_ReverseLookup (w : Writer) (sym : string) : outcome N :=
  obind (of_option (w_symbols w)) (λ s, ReverseLookup s sym).

Definition d_ConsumePadding (d : Decbuf) : Decbuf := mkDecbuf (ConsumePadding (db_B d)) (db_E d).

Definition posting_size_error : string := "posting size exceeds 4 bytes".

Definition writePosting (w : Writer) (name value : string) (offs : list N) : outcome Writer :=
  obind (fw_AddPadding (w_fP w) 4) (λ fP,
    let entry := PutUvarint 2 ++ PutUvarintStr name ++ PutUvarintStr value ++ PutUvarint64 (fw_Pos fP) in
    obind (fw_Write (w_fPO w) [entry]) (λ fPO,
      let buf := PutBE32int (N.of_nat (length offs)) ++ concat (PutBE32 <$> offs) in
      if (max_uint32 <? N.of_nat (length buf))%N then Fail posting_size_error
      else
        obind (fw_Write fP [PutBE32int (N.of_nat (length buf)); buf ++ PutBE32 (Crc32 buf)]) (λ fP,
          Ret (set_postings w fP fPO (w_cntPO w + 1))))).

Definition aligned_error : string := "series not 16-byte aligned".

(** The positions of all series, in units of 16 bytes. *)
Fixpoint all_offsets (fuel : nat) (limit : N) (d : Decbuf) (offsets : list N) : outcome (list N) :=
  match fuel with
  | O => Ret offsets
  | S fuel =>
      if (d_Len d =? 0)%nat then Ret offsets
      else
        let d := d_ConsumePadding d in
        let startPos := (limit - N.of_nat (d_Len d))%N in
        if negb (startPos mod 16 =? 0)%N then Fail aligned_error
        else
          let '(x, d) := d_Uvarint64 d in
          let d := d_Skip (x + 4) d in
          match db_E d with
          | Some e => Fail e
          | None => all_offsets fuel limit d (offsets ++ [u32 (startPos / 16)])
          end
  end.

(** The labels of one series: its position is appended under the name and value of
    those that are wanted. *)
Fixpoint series_labels (n : nat) (want : gset N) (pos : N) (d : Decbuf) (postings : gmap N (gmap N (list N))) : Decbuf * gmap N (gmap N (list N)) :=
  match n with
  | O => (d, postings)
  | S n =>
      let '(lno, d) := d_Uvarint64 d in
      let '(lvo, d) := d_Uvarint64 d in
      let lno := u32 lno in let lvo := u32 lvo in
      let postings :=
        if decide (lno ∈ want) then
          let m := default ∅ (postings !! lno) in
          <[lno := <[lvo := default [] (m !! lvo) ++ [pos]]> m]> postings
        else postings in
      series_labels n want pos d postings
  end.

Fixpoint scan_series (fuel : nat) (limit : N) (want : gset N) (d : Decbuf) (postings : gmap N (gmap N (list N)))
    : outcome (gmap N (gmap N (list N))) :=
  match fuel with
  | O => Ret postings
  | S fuel =>
      if (d_Len d =? 0)%nat then Ret postings
      else
        let d := d_ConsumePadding d in
        let startPos := (limit - N.of_nat (d_Len d))%N in
        let '(l, d) := d_Uvarint64 d in
        let startLen := d_Len d in
        let '(_, d) := d_Be64 d in
        let '(numLabels, d) := d_Uvarint64 d in
        let '(d, postings) := series_labels (N.to_nat numLabels) want (u32 (startPos / 16)) d postings in
        let d := d_Skip (l - N.of_nat (startLen - d_Len d) + 4) d in
        match db_E d with
        | Some e => Fail e
        | None => scan_series fuel limit want d postings
        end
  end.

(** The names of a batch: as many as together occur no more often than there are series. *)
Fixpoint take_batch (labelNames : gmap string N) (maxPostings c : N) (names : list string) : list string * list string :=
  match names with
  | [] => ([], [])
  | n :: rest =>
      let k := default 0%N (labelNames !! n) in
      if (maxPostings <? k + c)%N then ([], names)
      else let '(batch, rest) := take_batch labelNames maxPostings (c + k) rest in (n :: batch, rest)
  end.

Fixpoint write_values (w : Writer) (s : Symbols) (name : string) (m : gmap N (list N)) (values : list N) : outcome Writer :=
  match values with
  | [] => Ret w
  | v :: values =>
      obind (SymLookup s v) (λ value,
      obind (writePosting w name value (default [] (m !! v))) (λ w, write_values w s name m values))
  end.

Fixpoint write_names (w : Writer) (s : Symbols) (postings : gmap N (gmap N (list N))) (batch : list string) : outcome Writer :=
  match batch with
  | [] => Ret w
  | name :: batch =>
      obind (ReverseLookup s name) (λ sid,
        let m := default ∅ (postings !! sid) in
        obind (write_values w s name m (sort_refs (map_to_list m).*1)) (λ w, write_names w s postings batch))
  end.

(** The loop over batches; a batch without names would not end in the code, and is a panic
    here. *)
Fixpoint write_batches (fuel : nat) (w : Writer) (s : Symbols) (start : Decbuf) (limit maxPostings : N) (names : list string) : outcome Writer :=
  match names, fuel with
  | [], _ => Ret w
  | _, O => Panic
  | _, S fuel =>
      let '(batch, rest) := take_batch (w_labelNames w) maxPostings 0 names in
      obind (omapM (ReverseLookup s) batch) (λ sids,
      obind (scan_series (S (d_Len start)) limit (list_to_set sids) start ∅) (λ postings,
      obind (write_names w s postings batch) (λ w,
        match ctx_Err with
        | Some e => Fail e
        | None => write_batches fuel w s start limit maxPostings rest
        end)))
  end.

Definition writePostingsToTmpFiles (w : Writer) : outcome Writer :=
  let names := merge_sort String.le (map_to_list (w_labelNames w)).*1 in
  let limit := t_LabelIndices (w_toc w) in
  let d := d_Skip (t_Series (w_toc w)) (DecWith (take (N.to_nat limit) (w_f w))) in
  obind (all_offsets (S (d_Len d)) limit d []) (λ offsets,
  obind (writePosting w "" "" offsets) (λ w,
    match names with
    | [] => Ret w
    | _ => obind (of_option (w_symbols w)) (λ s, write_batches (length names) w s d limit (N.of_nat (length offsets)) names)
    end)).

(** *** Tables *)

Definition table_size_error : string := "size exceeds 4 bytes".

(** A table: a placeholder for the length, the parts, then the length patched in and the
    checksum of the parts. *)
Definition write_table (f : bytes) (parts : list bytes) : outcome bytes :=
  let startPos := fw_Pos f in
  obind (fw_Write f (alen :: parts)) (λ f,
    let l := (fw_Pos f - startPos - 4)%N in
    if (max_uint32 <? l)%N then Fail table_size_error
    else fw_Write (fw_WriteAt f (PutBE32int l) startPos) [PutBE32 (Crc32 (concat parts))]).

Definition writeLabelIndex (w : Writer) (name : string) (values : list N) : outcome Writer :=
  obind (fw_AddPadding (w_f w) 4) (λ f,
    let w := set_labelIndexes w (w_labelIndexes w ++ [mkLabelIndexHashEntry [name] (fw_Pos f)]) in
    obind (write_table f ((PutBE32int 1 ++ PutBE32int (N.of_nat (length values))) :: (PutBE32 <$> values))) (λ f, Ret (set_f w f))).

(** The loop over the temporary offset table; the pending name and the numbers of its values. *)
Fixpoint label_indices_loop (cnt : nat) (w : Writer) (d : Decbuf) (current : string) (values : list N) : outcome Writer :=
  match db_E d, cnt with
  | None, S cnt =>
      let '(_, d) := d_Uvarint64 d in
      let '(name, d) := d_UvarintStr d in
      let '(value, d) := d_UvarintStr d in
      let '(_, d) := d_Uvarint64 d in
      if (String.length name =? 0)%nat then label_indices_loop cnt w d current values
      else
        let flush := negb (String.eqb name current) && negb (length values =? 0)%nat in
        obind (if flush then writeLabelIndex w current values else Ret w) (λ w,
        obind (w_ReverseLookup w value) (λ sid,
          label_indices_loop cnt w d name ((if flush then [] else values) ++ [sid])))
  | Some e, _ => Fail e
  | None, O => match values with [] => Ret w | _ => writeLabelIndex w current values end
  end.

Definition writeLabelIndices (w : Writer) : outcome Writer :=
  label_indices_loop (N.to_nat (w_cntPO w)) w (DecWith (w_fPO w)) "" [].

Definition writePostings (w : Writer) : outcome Writer :=
  obind (fw_AddPadding (w_f w) 4) (λ f, Ret (set_postingsStart (set_f w (f ++ w_fP w)) (fw_Pos f))).

Definition writeLabelIndexesOffsetTable (w : Writer) : outcome Writer :=
  let entry e := PutUvarint (length (li_keys e)) ++ concat (PutUvarintStr <$> li_keys e) ++ PutUvarint64 (li_offset e) in
  obind (write_table (w_f w) (PutBE32int (N.of_nat (length (w_labelIndexes w))) :: (entry <$> w_labelIndexes w))) (λ f, Ret (set_f w f)).

(** The entries of the temporary table with their offsets moved. *)
Fixpoint moved_entries (cnt : nat) (adjustment : N) (d : Decbuf) : list bytes * Decbuf :=
  match db_E d, cnt with
  | None, S cnt =>
      let '(keys, d) := d_Uvarint64 d in
      let '(name, d) := d_UvarintStr d in
      let '(value, d) := d_UvarintStr d in
      let '(off, d) := d_Uvarint64 d in
      let '(l, d) := moved_entries cnt adjustment d in
      ((PutUvarint64 keys ++ PutUvarintStr name ++ PutUvarintStr value ++ PutUvarint64 (u64 (off + adjustment))) :: l, d)
  | _, _ => ([], d)
  end.

Definition writePostingsOffsetTable (w : Writer) : outcome Writer :=
  let '(entries, d) := moved_entries (N.to_nat (w_cntPO w)) (w_postingsStart w) (DecWith (w_fPO w)) in
  match db_E d with
  | Some e => Fail e
  | None => obind (write_table (w_f w) (PutBE32int (w_cntPO w) :: entries)) (λ f, Ret (set_f w f))
  end.

Definition writeFingerprintOffsetsTable (w : Writer) : outcome Writer :=
  let buf := PutBE32int (N.of_nat (length (w_fingerprintOffsets w))) ++
    concat ((λ x : N * N, PutBE64 x.1 ++ PutBE64 x.2) <$> w_fingerprintOffsets w) in
  w_write w [PutBE32int (N.of_nat (length buf)); buf ++ PutBE32 (Crc32 buf)].

Definition toc_bytes (t : TOC) : bytes :=
  PutBE64 (t_Symbols t) ++ PutBE64 (t_Series t) ++ PutBE64 (t_LabelIndices t) ++ PutBE64 (t_LabelIndicesTable t) ++
  PutBE64 (t_Postings t) ++ PutBE64 (t_PostingsTable t) ++ PutBE64 (t_FingerprintOffsets t) ++
  PutBE64 (u64_of (md_From (t_Metadata t))) ++ PutBE64 (u64_of (md_Through (t_Metadata t))).

Definition writeTOC (w : Writer) : outcome Writer :=
  let buf := toc_bytes (w_toc w) in w_write w [buf ++ PutBE32 (Crc32 buf)].

(** *** Stages *)

Definition toc_at (w : Writer) (f : TOC → N → TOC) : Writer := set_toc w (f (w_toc w) (fw_Pos (w_f w))).

(** The work on entering a stage, with the start of the sections in the table of contents. *)
Definition enter_stage (w : Writer) (s : indexWriterStage) : outcome Writer :=
  match s with
  | idxStageNone => Ret w
  | idxStageSymbols =>
      startSymbols (toc_at w (λ t p, mkTOC p (t_Series t) (t_LabelIndices t) (t_LabelIndicesTable t) (t_Postings t) (t_PostingsTable t) (t_FingerprintOffsets t) (t_Metadata t)))
  | idxStageSeries =>
      obind (finishSymbols w) (λ w,
        Ret (toc_at w (λ t p, mkTOC (t_Symbols t) p (t_LabelIndices t) (t_LabelIndicesTable t) (t_Postings t) (t_PostingsTable t) (t_FingerprintOffsets t) (t_Metadata t))))
  | idxStageDone =>
      obind (writePostingsToTmpFiles (toc_at w (λ t p, mkTOC (t_Symbols t) (t_Series t) p (t_LabelIndicesTable t) (t_Postings t) (t_PostingsTable t) (t_FingerprintOffsets t) (t_Metadata t)))) (λ w,
      obind (writeLabelIndices w) (λ w,
      obind (writePostings (toc_at w (λ t p, mkTOC (t_Symbols t) (t_Series t) (t_LabelIndices t) (t_LabelIndicesTable t) p (t_PostingsTable t) (t_FingerprintOffsets t) (t_Metadata t)))) (λ w,
      obind (writeLabelIndexesOffsetTable (toc_at w (λ t p, mkTOC (t_Symbols t) (t_Series t) (t_LabelIndices t) p (t_Postings t) (t_PostingsTable t) (t_FingerprintOffsets t) (t_Metadata t)))) (λ w,
      obind (writePostingsOffsetTable (toc_at w (λ t p, mkTOC (t_Symbols t) (t_Series t) (t_LabelIndices t) (t_LabelIndicesTable t) (t_Postings t) p (t_FingerprintOffsets t) (t_Metadata t)))) (λ w,
      obind (writeFingerprintOffsetsTable (toc_at w (λ t p, mkTOC (t_Symbols t) (t_Series t) (t_LabelIndices t) (t_LabelIndicesTable t) (t_Postings t) (t_PostingsTable t) p (t_Metadata t)))) (λ w,
        writeTOC w))))))
  end.

Definition stage_error : string := "invalid stage".

Definition stage_of (n : nat) : indexWriterStage :=
  match n with 0 => idxStageNone | 1 => idxStageSymbols | 2 => idxStageSeries | _ => idxStageDone end.

(** By the number of the stage; a stage that is skipped is entered first.  No caller asks for
    the initial stage. *)
Fixpoint ensure (n : nat) (w : Writer) : outcome Writer :=
  match ctx_Err with
  | Some e => Fail e
  | None =>
      if (stage_num (w_stage w) =? n)%nat then Ret w
      else
        match n with
        | O => Fail stage_error
        | S n' =>
            obind (if (stage_num (w_stage w) <? n')%nat then ensure n' w else Ret w) (λ w,
              if (n <? stage_num (w_stage w))%nat then Fail stage_error
              else obind (enter_stage w (stage_of n)) (λ w, Ret (set_stage w (stage_of n))))
        end
  end.

Definition ensureStage (w : Writer) (s : indexWriterStage) : outcome Writer := ensure (stage_num s) w.

Definition order_error : string := "symbol out-of-order".

Definition AddSymbol (w : Writer) (sym : string) : outcome Writer :=
  obind (ensureStage w idxStageSymbols) (λ w,
    if (negb (w_numSymbols w =? 0)%N && negb (String.ltb (w_lastSymbol w) sym))%bool then Fail order_error
    else w_write (set_symbol w (w_numSymbols w + 1) sym) [PutUvarintStr sym]).

(** *** Series *)

Definition ref_error : string := "series with greater reference already added".

(** The label entries: symbol numbers from the cache or the table. *)
Fixpoint put_labels (s : Symbols) (lset : Labels) (cache : gmap string symbolCacheEntry) (names : gmap string N) (buf : bytes)
    : outcome (gmap string symbolCacheEntry * gmap string N * bytes) :=
  match lset with
  | [] => Ret (cache, names, buf)
  | l :: lset =>
      let entry := cache !! Name l in
      obind (match entry with Some e => Ret (sc_index e) | None => ReverseLookup s (Name l) end) (λ nameIndex,
        let names := <[Name l := (default 0 (names !! Name l) + 1)%N]> names in
        let cached := match entry with Some e => if String.eqb (sc_lastValue e) (Value l) then Some (sc_lastValueIndex e) else None | None => None end in
        obind (match cached with
               | Some i => Ret (i, cache)
               | None => obind (ReverseLookup s (Value l)) (λ i, Ret (i, <[Name l := mkSymbolCacheEntry nameIndex (Value l) i]> cache))
               end) (λ '(valueIndex, cache),
          put_labels s lset cache names (buf ++ PutUvarint64 nameIndex ++ PutUvarint64 valueIndex)))
  end.

Fixpoint put_chunks (t0 : Z) (chunks : list ChunkMeta) (m : Metadata) (buf : bytes) : Metadata * bytes :=
  match chunks with
  | [] => (m, buf)
  | c :: chunks =>
      put_chunks (c_MaxTime c) chunks (EnsureBounds m (c_MinTime c) (c_MaxTime c))
        (buf ++ PutVarint64 (i64 (c_MinTime c - t0)) ++ PutUvarint64 (u64_of (c_MaxTime c - c_MinTime c)) ++ PutUvarint64 (c_KB c) ++
         PutUvarint64 (c_SeriesIndex c) ++ PutBE32 (c_Checksum c))
  end.

Definition AddSeries (w : Writer) (ref : N) (lset : Labels) (fp : N) (chunks : list ChunkMeta) : outcome Writer :=
  obind (ensureStage w idxStageSeries) (λ w,
    if ((ref <? w_lastRef w)%N && negb (length (w_lastSeries w) =? 0)%nat)%bool then Fail ref_error
    else
      obind (fw_AddPadding (w_f w) 16) (λ f,
      obind (of_option (w_symbols w)) (λ s,
      obind (put_labels s lset (w_symbolCache w) (w_labelNames w) (PutBE64 fp ++ PutUvarint (length lset))) (λ '(cache, names, buf),
        let '(m, buf) := put_chunks 0 chunks (t_Metadata (w_toc w)) (buf ++ PutUvarint (length chunks)) in
        let t := w_toc w in
        let toc := mkTOC (t_Symbols t) (t_Series t) (t_LabelIndices t) (t_LabelIndicesTable t) (t_Postings t) (t_PostingsTable t) (t_FingerprintOffsets t) m in
        let fps := if (ref mod fingerprintInterval =? 0)%N then w_fingerprintOffsets w ++ [(fw_Pos f / 16, fp)%N] else w_fingerprintOffsets w in
        w_write (set_series (set_f w f) toc cache names fps lset fp ref)
          [PutUvarint (length buf); buf ++ PutBE32 (Crc32 buf)])))).

(** [Close] writes the rest of the file. *)
Definition Close (w : Writer) : outcome Writer := ensureStage w idxStageDone.
End Writer.
