(* ===== verification/IndexReader.v ===== *)
(** * Reading the TSDB index (src/pkg/phlaredb/tsdb/index/index.go, [Reader] and [Decoder])

    The reader loads the table of contents, the symbols, every 32nd label value of the postings
    offset table and the fingerprint offsets, and answers label, postings and series
    queries from the bytes. *)

From S2P Require Import Prelude Labels GoHeap Iter Postings Shard Encoding IndexSymbols IndexWriter.

Record postingOffset := mkPostingOffset { po_value : string; po_off : N }.

Record Reader := mkReader {
  r_b : bytes; r_toc : TOC; r_postings : gmap string (list postingOffset); r_postingsV1 : gmap string (gmap string N);
  r_symbols : Symbols; r_nameSymbols : gmap N string; r_fingerprintOffsets : list (N * N); r_version : N }.

(** [int64(x)] of a [uint64]. *)
Definition i64_of (n : N) : Z := i64 (Z.of_N n).

Section Reader.
Context `{TsdbEnc}.

(** ** Tables *)

Definition indexTOCLen : nat := 8 * 9 + 4.
Definition ErrInvalidChecksum : string := "invalid checksum".

Definition d_Be64int64 (d : Decbuf) : Z * Decbuf := let '(x, d) := d_Be64 d in (i64_of x, d).

Definition NewTOCFromByteSlice (bs : bytes) : outcome TOC :=
  if (length bs <? indexTOCLen)%nat then Fail ErrInvalidSize
  else
    let b := drop (length bs - indexTOCLen) bs in
    let body := take (length b - 4) b in
    let expCRC := of_be32 (drop (length b - 4) b) in
    if negb (Crc32 body =? expCRC)%N then Fail ErrInvalidChecksum
    else
      let '(a1, d) := d_Be64 (DecWith body) in
      let '(a2, d) := d_Be64 d in
      let '(a3, d) := d_Be64 d in
      let '(a4, d) := d_Be64 d in
      let '(a5, d) := d_Be64 d in
      let '(a6, d) := d_Be64 d in
      let '(a7, d) := d_Be64 d in
      let '(from, d) := d_Be64int64 d in
      let '(through, d) := d_Be64int64 d in
      Ret (mkTOC a1 a2 a3 a4 a5 a6 a7 (mkMetadata from through expCRC)).

Fixpoint read_keys (n : nat) (d : Decbuf) : list string * Decbuf :=
  match n with
  | O => ([], d)
  | S n =>
      let '(k, d) := d_UvarintStr d in
      let '(ks, d) := read_keys n d in (k :: ks, d)
  end.

(** The loop of [ReadOffsetTable], with the state of the callback. *)
Fixpoint offset_loop {S : Type} (cnt : nat) (startLen : nat) (f : list string → N → N → S → outcome S) (d : Decbuf) (s : S) : outcome S :=
  match db_E d with
  | Some e => Fail e
  | None =>
      match cnt with
      | O => Ret s
      | Datatypes.S cnt =>
          if (d_Len d =? 0)%nat then Ret s
          else
            let offsetPos := N.of_nat (startLen - d_Len d) in
            let '(keyCount, d) := d_Uvarint64 d in
            let '(keys, d) := read_keys (N.to_nat keyCount) d in
            let '(o, d) := d_Uvarint64 d in
            match db_E d with
            | Some e => Fail e
            | None => obind (f keys o offsetPos s) (offset_loop cnt startLen f d)
            end
      end
  end.

Definition ReadOffsetTable {S : Type} (bs : bytes) (off : N) (f : list string → N → N → S → outcome S) (s : S) : outcome S :=
  let d := NewDecbufAt bs off true in
  let startLen := d_Len d in
  let '(cnt, d) := d_Be32 d in
  offset_loop (N.to_nat cnt) startLen f d s.

Fixpoint fp_offsets_loop (cnt : nat) (d : Decbuf) (res : list (N * N)) : outcome (list (N * N)) :=
  match db_E d with
  | Some e => Fail e
  | None =>
      match cnt with
      | O => Ret res
      | S cnt =>
          if (d_Len d =? 0)%nat then Ret res
          else
            let '(a, d) := d_Be64 d in
            let '(b, d) := d_Be64 d in
            fp_offsets_loop cnt d (res ++ [(a, b)])
      end
  end.

Definition readFingerprintOffsetsTable (bs : bytes) (off : N) : outcome (list (N * N)) :=
  let '(cnt, d) := d_Be32 (NewDecbufAt bs off true) in fp_offsets_loop (N.to_nat cnt) d [].

(** ** Opening *)

Definition key_error : string := "unexpected key length for posting table".

Definition read_v1_entry (keys : list string) (off _ : N) (s : gmap string (gmap string N) * gmap string (list postingOffset))
    : outcome (gmap string (gmap string N) * gmap string (list postingOffset)) :=
  match keys with
  | [n; v] =>
      let '(v1, postings) := s in
      let postings := match v1 !! n with Some _ => postings | None => <[n := []]> postings end in
      Ret (<[n := <[v := off]> (default ∅ (v1 !! n))]> v1, postings)
  | _ => Fail key_error
  end.

(** While the table of format 2 is read: the samples so far, the last entry that is not a sample with
    its offset, and the number of values of the current name. *)
Record sampling := mkSampling { sm_postings : gmap string (list postingOffset); sm_last : option (string * string); sm_lastOff : N; sm_count : nat }.

Definition push (m : gmap string (list postingOffset)) (n : string) (o : postingOffset) : gmap string (list postingOffset) :=
  <[n := default [] (m !! n) ++ [o]]> m.

Definition push_last (s : sampling) : gmap string (list postingOffset) :=
  match sm_last s with
  | Some (n, v) => push (sm_postings s) n (mkPostingOffset v (sm_lastOff s))
  | None => sm_postings s
  end.

Definition read_v2_entry (keys : list string) (_ off : N) (s : sampling) : outcome sampling :=
  match keys with
  | [n; v] =>
      let s := match sm_postings s !! n with
               | Some _ => s
               | None => mkSampling (push_last (mkSampling (<[n := []]> (sm_postings s)) (sm_last s) (sm_lastOff s) (sm_count s))) None (sm_lastOff s) 0
               end in
      if (sm_count s mod symbolFactor =? 0)%nat
      then Ret (mkSampling (push (sm_postings s) n (mkPostingOffset v off)) None (sm_lastOff s) (S (sm_count s)))
      else Ret (mkSampling (sm_postings s) (Some (n, v)) off (S (sm_count s)))
  | _ => Fail key_error
  end.

(** The names' symbol numbers; the keys of the map, in no particular order. *)
Fixpoint name_symbols (s : Symbols) (names : list string) (m : gmap N string) : outcome (gmap N string) :=
  match names with
  | [] => Ret m
  | n :: names =>
      if (String.length n =? 0)%nat then name_symbols s names m
      else obind (ReverseLookup s n) (λ off, name_symbols s names (<[off := n]> m))
  end.

Definition header_error : string := "index header".
Definition magic_error : string := "invalid magic number".
Definition version_error : string := "unknown index file version".

Definition NewReader (b : bytes) : outcome Reader :=
  if (length b <? 5)%nat then Fail header_error
  else if negb (of_be32 b =? MagicIndex)%N then Fail magic_error
  else
    let version := default 0%N (b !! 4) in
    if negb ((version =? FormatV1)%N || (version =? FormatV2)%N)%bool then Fail version_error
    else
      obind (NewTOCFromByteSlice b) (λ toc,
      obind (NewSymbols b version (t_Symbols toc)) (λ symbols,
      obind (if (version =? FormatV1)%N
             then ReadOffsetTable b (t_PostingsTable toc) read_v1_entry (∅, ∅)
             else obind (ReadOffsetTable b (t_PostingsTable toc) read_v2_entry (mkSampling ∅ None 0 0)) (λ s, Ret (∅, push_last s)))
        (λ '(v1, postings),
      obind (name_symbols symbols (map_to_list postings).*1 ∅) (λ nameSymbols,
      obind (readFingerprintOffsetsTable b (t_FingerprintOffsets toc)) (λ fps,
        Ret (mkReader b toc postings v1 symbols nameSymbols fps version)))))).

(** ** Lookups *)

Definition lookupSymbol (r : Reader) (o : N) : outcome string :=
  match r_nameSymbols r !! o with
  | Some s => Ret s
  | None => SymLookup (r_symbols r) o
  end.

Definition r_Bounds (r : Reader) : Z * Z := (md_From (t_Metadata (r_toc r)), md_Through (t_Metadata (r_toc r))).
Definition r_Checksum (r : Reader) : N := md_Checksum (t_Metadata (r_toc r)).

(** Keycount and name are skipped as bytes after the first entry. *)
Definition skip_key (skip : nat) (d : Decbuf) : nat * Decbuf :=
  if (skip =? 0)%nat then
    let before := d_Len d in
    let '(_, d) := d_Uvarint64 d in
    let '(_, d) := d_UvarintStr d in
    (before - d_Len d, d)
  else (skip, d_Skip (N.of_nat skip) d).

Fixpoint values_loop (fuel : nat) (skip : nat) (lastVal : string) (d : Decbuf) (values : list string) : list string * Decbuf :=
  match fuel, db_E d with
  | S fuel, None =>
      let '(skip, d) := skip_key skip d in
      let '(s, d) := d_UvarintStr d in
      let values := values ++ [s] in
      if String.eqb s lastVal then (values, d)
      else let '(_, d) := d_Uvarint64 d in values_loop fuel skip lastVal d values
  | _, _ => (values, d)
  end.

(** With no matchers; with some the call fails. *)
Definition LabelValues (range : ∀ A : Type, gmap string A → list (string * A)) (r : Reader) (name : string) : outcome (list string) :=
  if (r_version r =? FormatV1)%N then
    Ret (match r_postingsV1 r !! name with Some e => fst <$> range _ e | None => [] end)
  else
    match r_postings r !! name with
    | None | Some [] => Ret []
    | Some ((e0 :: _) as e) =>
        let d := d_Skip (po_off e0) (NewDecbufAt (r_b r) (t_PostingsTable (r_toc r)) false) in
        obind (of_option (last e)) (λ el,
          let '(values, d) := values_loop (S (d_Len d)) 0 (po_value el) d [] in
          match db_E d with Some e => Fail e | None => Ret values end)
    end.

Definition SortedLabelValues (range : ∀ A : Type, gmap string A → list (string * A)) (r : Reader) (name : string) : outcome (list string) :=
  obind (LabelValues range r name) (λ values,
    Ret (if (r_version r =? FormatV1)%N then merge_sort String.le values else values)).

Definition LabelNames (r : Reader) : list string :=
  merge_sort String.le (filter (λ n, n ≠ "") (map_to_list (r_postings r)).*1).

(** ** Series *)

(** The symbols are looked up label by label. *)
Fixpoint read_labels (lookup : N → outcome string) (n : nat) (d : Decbuf) : outcome (Labels * Decbuf) :=
  match n with
  | O => Ret ([], d)
  | S n =>
      let '(lno, d) := d_Uvarint64 d in
      let '(lvo, d) := d_Uvarint64 d in
      match db_E d with
      | Some e => Fail e
      | None =>
          obind (lookup (u32 lno)) (λ ln,
          obind (lookup (u32 lvo)) (λ lv,
          obind (read_labels lookup n d) (λ '(ls, d), Ret (mkLabel ln lv :: ls, d))))
      end
  end.

Definition read_chunk (t0 : Z) (d : Decbuf) : ChunkMeta * Decbuf :=
  let '(delta, d) := d_Varint64 d in
  let mint := i64 (delta + t0) in
  let '(len, d) := d_Uvarint64 d in
  let maxt := i64 (i64_of len + mint) in
  let '(kb, d) := d_Uvarint64 d in
  let '(entries, d) := d_Uvarint64 d in
  let '(checksum, d) := d_Be32 d in
  (mkChunkMeta checksum mint maxt (u32 kb) (u32 entries), d).

Fixpoint read_chunks (n : nat) (t0 : Z) (d : Decbuf) : outcome (list ChunkMeta * Decbuf) :=
  match n with
  | O => Ret ([], d)
  | S n =>
      let '(c, d) := read_chunk t0 d in
      match db_E d with
      | Some e => Fail e
      | None => obind (read_chunks n (c_MaxTime c) d) (λ '(cs, d), Ret (c :: cs, d))
      end
  end.

(** [Decoder.Series]: the fingerprint, labels and chunks; the first chunk is kept before any error
    is checked, and a series without chunks has the fingerprint 0. *)
Definition dec_Series (lookup : N → outcome string) (b : bytes) : outcome (N * Labels * list ChunkMeta) :=
  let '(fprint, d) := d_Be64 (DecWith b) in
  let '(k, d) := d_Uvarint64 d in
  obind (read_labels lookup (N.to_nat k) d) (λ '(lbls, d),
    let '(k, d) := d_Uvarint64 d in
    if (k =? 0)%N then match db_E d with Some e => Fail e | None => Ret (0%N, lbls, []) end
    else
      let '(c, d) := read_chunk 0 d in
      obind (read_chunks (N.to_nat k - 1) (c_MaxTime c) d) (λ '(cs, d),
        match db_E d with Some e => Fail e | None => Ret (fprint, lbls, c :: cs) end)).

Definition series_offset (r : Reader) (id : N) : N := if (r_version r =? FormatV2)%N then u64 (id * 16) else id.

Definition r_Series (r : Reader) (id : N) : outcome (N * Labels * list ChunkMeta) :=
  let d := NewDecbufUvarintAt (r_b r) (series_offset r id) in
  match db_E d with
  | Some e => Fail e
  | None => dec_Series (lookupSymbol r) (db_B d)
  end.

Fixpoint label_value_loop (lookup : N → outcome string) (label : string) (n : nat) (d : Decbuf) : outcome string :=
  match n with
  | O => match db_E d with Some e => Fail e | None => Ret "" end
  | S n =>
      let '(lno, d) := d_Uvarint64 d in
      let '(lvo, d) := d_Uvarint64 d in
      match db_E d with
      | Some e => Fail e
      | None =>
          obind (lookup (u32 lno)) (λ ln,
            if String.eqb ln label then lookup (u32 lvo) else label_value_loop lookup label n d)
      end
  end.

Definition ErrNotFound : string := "not found".

Definition LabelValueFor (r : Reader) (id : N) (label : string) : outcome string :=
  let d := NewDecbufUvarintAt (r_b r) (series_offset r id) in
  match db_E d with
  | Some e => Fail e
  | None =>
      let '(_, d) := d_Be64 (DecWith (db_B d)) in
      let '(k, d) := d_Uvarint64 d in
      match label_value_loop (lookupSymbol r) label (N.to_nat k) d with
      | Ret value => if String.eqb value "" then Fail ErrNotFound else Ret value
      | Fail _ => Fail ErrNotFound
      | Panic => Panic
      end
  end.

(** The numbers of the names of a series. *)
Fixpoint name_offsets (n : nat) (d : Decbuf) : outcome (list N) :=
  match n with
  | O => match db_E d with Some e => Fail e | None => Ret [] end
  | S n =>
      let '(lno, d) := d_Uvarint64 d in
      let '(_, d) := d_Uvarint64 d in
      match db_E d with Some e => Fail e | None => obind (name_offsets n d) (λ l, Ret (u32 lno :: l)) end
  end.

Definition LabelNamesOffsetsFor (b : bytes) : outcome (list N) :=
  let '(_, d) := d_Be64 (DecWith b) in
  let '(k, d) := d_Uvarint64 d in
  name_offsets (N.to_nat k) d.

Fixpoint gather_offsets (r : Reader) (ids : list N) (m : gset N) : outcome (gset N) :=
  match ids with
  | [] => Ret m
  | id :: ids =>
      let d := NewDecbufUvarintAt (r_b r) (series_offset r id) in
      match db_E d with
      | Some e => Fail e
      | None => obind (LabelNamesOffsetsFor (db_B d)) (λ offsets, gather_offsets r ids (m ∪ list_to_set offsets))
      end
  end.

Definition LabelNamesFor (r : Reader) (ids : list N) : outcome (list string) :=
  obind (gather_offsets r ids ∅) (λ m, obind (omapM (lookupSymbol r) (elements m)) (λ names, Ret (merge_sort String.le names))).

(** ** Postings *)

(** The byte ranges of all postings lists. *)
Definition add_range (b : bytes) (keys : list string) (off _ : N) (m : gmap (string * string) (Z * Z)) : outcome (gmap (string * string) (Z * Z)) :=
  match keys with
  | [n; v] =>
      let d := NewDecbufAt b off true in
      match db_E d with
      | Some e => Fail e
      | None => Ret (<[(n, v) := (i64 (i64_of off + 4), i64 (i64_of off + 4 + Z.of_nat (d_Len d)))%Z]> m)
      end
  | _ => Fail key_error
  end.

Definition PostingsRanges (r : Reader) : outcome (gmap (string * string) (Z * Z)) :=
  ReadOffsetTable (r_b r) (t_PostingsTable (r_toc r)) (add_range (r_b r)) ∅.

Definition SymbolTableSize (r : Reader) : N := N.of_nat (length (s_offsets (r_symbols r)) * 8).

Definition length_error : string := "unexpected postings length".

Definition dec_Postings (b : bytes) : outcome (N * bigEndianPostings) :=
  let '(n, d) := d_Be32 (DecWith b) in
  match db_E d with
  | Some e => Fail e
  | None =>
      if negb (N.of_nat (d_Len d) =? 4 * n)%N then Fail length_error
      else Ret (n, newBigEndianPostings (db_B d))
  end.

Definition read_postings_at (r : Reader) (off : N) : outcome bigEndianPostings :=
  obind (dec_Postings (db_B (NewDecbufAt (r_b r) off true))) (λ '(_, p), Ret p).

(** The values the entry decides: those not above it, of which an equal one has these postings. *)
Fixpoint take_values (r : Reader) (v : string) (postingsOff : N) (values : list string) (res : list bigEndianPostings)
    : outcome (list string * list bigEndianPostings) :=
  match values with
  | value :: rest =>
      if String.ltb v value then Ret (values, res)
      else if String.eqb v value then obind (read_postings_at r postingsOff) (λ p, take_values r v postingsOff rest (res ++ [p]))
      else take_values r v postingsOff rest res
  | [] => Ret ([], res)
  end.

(** The entries from a sampled one on, until the next sample (if any) or the values end. *)
Fixpoint entries_loop (fuel : nat) (r : Reader) (next : option string) (skip : nat) (d : Decbuf) (values : list string) (res : list bigEndianPostings)
    : outcome (nat * list string * list bigEndianPostings * Decbuf) :=
  match fuel, db_E d with
  | S fuel, None =>
      let '(skip, d) := skip_key skip d in
      let '(v, d) := d_UvarintStr d in
      let '(postingsOff, d) := d_Uvarint64 d in
      obind (take_values r v postingsOff values res) (λ '(values, res),
        match values, next with
        | [], _ => Ret (skip, [], res, d)
        | _, None => Ret (skip, values, res, d)
        | value :: _, Some nv => if String.ltb value nv then entries_loop fuel r next skip d values res else Ret (skip, values, res, d)
        end)
  | _, _ => Ret (skip, values, res, d)
  end.

Definition ge_value (e : list postingOffset) (value : string) (i : nat) : bool :=
  match e !! i with Some p => negb (String.ltb (po_value p) value) | None => false end.

Fixpoint lookup_values (fuel : nat) (r : Reader) (e : list postingOffset) (skip : nat) (values : list string) (res : list bigEndianPostings)
    : outcome (list bigEndianPostings) :=
  match fuel, values with
  | S fuel, value :: _ =>
      let i := search (length e) (ge_value e value) in
      if (i =? length e)%nat then Ret res
      else
        obind (of_option (e !! i)) (λ p,
          let i := if (0 <? i)%nat && negb (String.eqb (po_value p) value) then (i - 1)%nat else i in
          obind (of_option (e !! i)) (λ p,
            let d := d_Skip (po_off p) (NewDecbufAt (r_b r) (t_PostingsTable (r_toc r)) false) in
            obind (entries_loop (S (d_Len d)) r (po_value <$> e !! S i) skip d values res) (λ '(skip, values, res, d),
              match db_E d with
              | Some e => Fail e
              | None => lookup_values fuel r e skip values res
              end)))
  | _, _ => Ret res
  end.

Fixpoint drop_below (v : string) (values : list string) : list string :=
  match values with
  | value :: rest => if String.ltb value v then drop_below v rest else values
  | [] => []
  end.

Fixpoint postings_v1 (r : Reader) (e : gmap string N) (values : list string) : outcome (list bigEndianPostings) :=
  match values with
  | [] => Ret []
  | v :: values =>
      match e !! v with
      | None => postings_v1 r e values
      | Some off => obind (read_postings_at r off) (λ p, obind (postings_v1 r e values) (λ ps, Ret (p :: ps)))
      end
  end.

(** The postings a reader returns: none, merged, or those of a shard. *)
Abbreviation merged_be := (sliceIterator N + (bigEndianPostings + mergedPostings bigEndianPostings))%type (only parsing).

Definition r_Postings (r : Reader) (name : string) (shard : option ShardAnnotation) (values : list string)
    : outcome (merged_be + ShardedPostings merged_be) :=
  if (r_version r =? FormatV1)%N then
    match r_postingsV1 r !! name with
    | None => Ret (inl (inl EmptyPostings))
    | Some e => obind (postings_v1 r e values) (λ res, Ret (inl (Merge res)))
    end
  else
    match r_postings r !! name, values with
    | None, _ | _, [] => Ret (inl (inl EmptyPostings))
    | Some e, _ =>
        obind (of_option (head e)) (λ e0,
        obind (lookup_values (length values) r e 0 (drop_below (po_value e0) values) []) (λ res,
          let merged := Merge res in
          Ret (match shard with
               | Some s => inr (NewShardedPostings merged (Range (r_fingerprintOffsets r) s))
               | None => inl merged
               end)))
    end.
End Reader.
