(* ===== verification/IndexRoundtrip.v ===== *)
(** * What the index writer writes, the reader reads

    Symbols: after any strictly increasing strings are added, the loaded table numbers
    them in order.  Series: an added series is read back from the finished file, because
    from then on the file only grows. *)

From S2P Require Import Prelude Labels Encoding IndexSymbols IndexWriter IndexReader.

(** ** Files *)

Definition max_size : N := (16 * max_uint32)%N.

Lemma fw_Write_spec f bufs : (N.of_nat (length (f ++ concat bufs)) ≤ max_size)%N → fw_Write f bufs = Ret (f ++ concat bufs).
Proof.
  revert f. induction bufs as [|b bufs IH]; intros f Hl; simpl; [by rewrite (right_id_L [] (++))|].
  unfold fw_Pos, max_size in *. simpl in Hl. rewrite (assoc_L (++)) in Hl |- *.
  rewrite (proj2 (N.ltb_ge _ _)) by (rewrite length_app in Hl; lia). by apply IH.
Qed.

Lemma fw_Write_prefix f bufs f' : fw_Write f bufs = Ret f' → f' = f ++ concat bufs.
Proof.
  revert f. induction bufs as [|b bufs IH]; intros f; simpl; [intros [= <-]; by rewrite (right_id_L [] (++))|].
  destruct (_ <? _)%N; [done|]. intros ->%IH. by rewrite (assoc_L (++)).
Qed.

Lemma fw_WriteAt_mid pre old new post :
  length new = length old → fw_WriteAt (pre ++ old ++ post) new (N.of_nat (length pre)) = pre ++ new ++ post.
Proof.
  intros Hl. unfold fw_WriteAt. rewrite Nat2N.id, take_app_length, Hl. f_equal. f_equal.
  by rewrite drop_app_add, drop_app_length.
Qed.

Lemma fw_AddPadding_spec f n f' : (n ≠ 0)%N → fw_AddPadding f n = Ret f' → ∃ k, f' = f ++ replicate k 0%N ∧ (N.of_nat k < n)%N ∧ (fw_Pos f' mod n = 0)%N.
Proof.
  intros Hn. unfold fw_AddPadding, fw_Pos. destruct (N.eqb_spec (N.of_nat (length f) mod n) 0) as [E|E].
  - intros [= <-]. exists 0. simpl. split_and!; [by rewrite (right_id_L [] (++))|lia|done].
  - intros ->%fw_Write_prefix. simpl. rewrite (right_id_L [] (++)). exists (N.to_nat (n - N.of_nat (length f) mod n)).
    pose proof (N.mod_upper_bound (N.of_nat (length f)) n Hn) as Hu.
    split_and!; [done|revert E Hu; generalize (N.of_nat (length f) mod n)%N; lia|].
    rewrite length_app, length_replicate, Nat2N.inj_add, N2Nat.id.
    rewrite <- N.Div0.add_mod_idemp_l. replace (N.of_nat (length f) mod n + (n - N.of_nat (length f) mod n))%N with n
      by (revert Hu; generalize (N.of_nat (length f) mod n)%N; lia).
    by apply N.Div0.mod_same.
Qed.

Lemma fw_Write_size f bufs f' : fw_Write f bufs = Ret f' → (fw_Pos f ≤ max_size)%N → (fw_Pos f' ≤ max_size)%N.
Proof.
  revert f. induction bufs as [|b bufs IH]; intros f; simpl; [by intros [= <-]|].
  destruct (N.ltb_spec (16 * max_uint32) (fw_Pos (f ++ b))); [done|]. intros Hw _. by apply (IH (f ++ b)).
Qed.

Lemma fw_AddPadding_size f n f' : fw_AddPadding f n = Ret f' → (fw_Pos f ≤ max_size)%N → (fw_Pos f' ≤ max_size)%N.
Proof. unfold fw_AddPadding. destruct (_ =? _)%N; [by intros [= <-]|]. apply fw_Write_size. Qed.

Lemma fw_AddPadding_ok f n : (n ≠ 0)%N → (fw_Pos f + n ≤ max_size)%N → ∃ f', fw_AddPadding f n = Ret f'.
Proof.
  intros Hn Hl. unfold fw_AddPadding. destruct (_ =? _)%N; [by eexists|]. rewrite fw_Write_spec; [by eexists|].
  simpl. rewrite (right_id_L [] (++)), length_app, length_replicate. unfold fw_Pos in *.
  revert Hl. generalize (N.of_nat (length f) mod n)%N. lia.
Qed.

Local Arguments fw_Write : simpl never.
Local Arguments fw_WriteAt : simpl never.

(** ** Symbols *)

Section SymbolsWritten.
Context `{TsdbEncOk}.

Definition header : bytes := PutBE32 MagicIndex ++ PutByte FormatV2.

(** Nothing of the later sections is there yet. *)
Definition fresh_tail (w : Writer) : Prop :=
  w_fP w = [] ∧ w_fPO w = [] ∧ w_cntPO w = 0%N ∧ w_fingerprintOffsets w = [] ∧ w_labelNames w = ∅ ∧ w_symbolCache w = ∅.

(** The writer after the symbols [l]. *)
Record sym_writer (l : list string) (w : Writer) : Prop := {
  sw_f : w_f w = header ++ alen ++ blen ++ enc_syms l;
  sw_toc : t_Symbols (w_toc w) = N.of_nat (length header);
  sw_stage : w_stage w = idxStageSymbols;
  sw_num : w_numSymbols w = N.of_nat (length l);
  sw_last : last l = None ∨ last l = Some (w_lastSymbol w);
  sw_rest : fresh_tail w }.

Lemma NewWriter_ok : (N.of_nat (length header) + 8 ≤ max_size)%N →
  ∃ w, NewWriter = Ret w ∧ ∃ w', ensureStage None w idxStageSymbols = Ret w' ∧ sym_writer [] w'.
Proof.
  intros Hl. unfold NewWriter, writeMeta, w_write. rewrite fw_Write_spec.
  - simpl. eexists. split; [done|]. unfold ensureStage. simpl. unfold startSymbols, w_write. simpl.
    rewrite fw_Write_spec.
    + simpl. eexists. split; [done|]. split; simpl; [|unfold fw_Pos, header; by rewrite (right_id_L [] (++))|done|done|by left|done]. unfold header. by rewrite !(right_id_L [] (++)).
    + unfold header in Hl. simpl. rewrite !(right_id_L [] (++)), length_app. simpl. lia.
  - simpl. rewrite (right_id_L [] (++)). fold header. lia.
Qed.

Lemma AddSymbol_ok l w x :
  sym_writer l w → (∀ y, last l = Some y → String.ltb y x = true) →
  (N.of_nat (length (header ++ alen ++ blen ++ enc_syms (l ++ [x]))) ≤ max_size)%N →
  ∃ w', AddSymbol None w x = Ret w' ∧ sym_writer (l ++ [x]) w'.
Proof.
  intros [Hf Ht Hs Hn Hlast Hrest] Hord Hsize. unfold AddSymbol, ensureStage. simpl. rewrite Hs. simpl.
  assert ((negb (w_numSymbols w =? 0)%N && negb (String.ltb (w_lastSymbol w) x))%bool = false) as ->.
  { destruct Hlast as [Hl|Hl].
    - apply last_None in Hl as ->. by rewrite Hn.
    - rewrite (Hord _ Hl). by rewrite andb_false_r. }
  unfold w_write. simpl. rewrite enc_syms_app in Hsize. rewrite Hf, fw_Write_spec.
  - simpl. eexists. split; [done|]. split; simpl; [|done|done| | |].
    + by rewrite enc_syms_app, <- !(assoc_L (++)).
    + rewrite Hn, length_app. simpl. lia.
    + right. by rewrite last_snoc.
    + done.
  - simpl. rewrite <- !(assoc_L (++)). done.
Qed.

Definition add_symbols (w : Writer) (l : list string) : outcome Writer := foldl (λ o x, obind o (λ w, AddSymbol None w x)) (Ret w) l.

Lemma add_symbols_ok l : ∀ pre w,
  sym_writer pre w → StronglySorted str_lt (pre ++ l) → (N.of_nat (length (header ++ alen ++ blen ++ enc_syms (pre ++ l))) ≤ max_size)%N →
  ∃ w', add_symbols w l = Ret w' ∧ sym_writer (pre ++ l) w'.
Proof.
  induction l as [|x l IH]; intros pre w Hw Hs Hl; [rewrite (right_id_L [] (++)) in *; by exists w|].
  destruct (AddSymbol_ok pre w x Hw) as (w1 & Hadd & Hw1).
  - intros y Hy. apply last_Some in Hy as [k ->]. rewrite <- (assoc_L (++)) in Hs.
    apply StronglySorted_app in Hs as (_ & _ & Hs). eapply (StronglySorted_inv) in Hs as [_ Hs]. rewrite Forall_forall in Hs. apply Hs. set_solver.
  - eapply N.le_trans; [|exact Hl]. replace (pre ++ x :: l) with ((pre ++ [x]) ++ l) by (by rewrite <- (assoc_L (++))).
    rewrite (enc_syms_app (pre ++ [x])), !length_app. lia.
  - replace (pre ++ x :: l) with ((pre ++ [x]) ++ l) in Hs, Hl |- * by (by rewrite <- (assoc_L (++))). destruct (IH _ _ Hw1 Hs Hl) as (w' & Heq & ?). exists w'. split; [|done].
    unfold add_symbols. simpl. by rewrite Hadd.
Qed.

(** Symbols are finished: the section is complete and the table loaded. *)
Lemma finishSymbols_ok l w : sym_writer l w → fits l → (N.of_nat (length (header ++ sym_section l)) ≤ max_size)%N →
  ∃ w', ensureStage None w idxStageSeries = Ret w' ∧ w_f w' = header ++ sym_section l ∧ w_stage w' = idxStageSeries ∧
    (t_Symbols (w_toc w') = N.of_nat (length header) ∧ t_Series (w_toc w') = fw_Pos (w_f w') ∧ fresh_tail w') ∧
    ∃ s, w_symbols w' = Some s ∧ table_ok l s.
Proof.
  intros [Hf Ht Hs Hn _ Hrest] Hfit Hsize. pose proof Hfit as [Hb _].
  assert (Hnl : (N.of_nat (length l) < 2 ^ 32)%N).
  { unfold sym_body in Hb. rewrite length_app, be32_len in Hb. pose proof (enc_syms_len l). lia. }
  unfold ensureStage. simpl. rewrite Hs. simpl. rewrite Hs. simpl. unfold finishSymbols, fw_Pos. rewrite Hf, Ht, Hn.
  replace (N.of_nat (length (header ++ alen ++ blen ++ enc_syms l)) - N.of_nat (length header) - 4)%N with (N.of_nat (length (sym_body l))).
  2:{ unfold sym_body. rewrite !length_app, be32_len. simpl. lia. }
  unfold max_uint32. rewrite (proj2 (N.ltb_ge _ _)) by lia.
  rewrite (assoc_L (++) alen), fw_WriteAt_mid by (unfold PutBE32int; rewrite length_app, !be32_len; done).
  unfold PutBE32int. rewrite (u32_small (N.of_nat (length (sym_body l)))), (u32_small (N.of_nat (length l))) by done.
  rewrite <- (assoc_L (++) (PutBE32 (N.of_nat (length (sym_body l))))). fold (sym_body l).
  set (pre := header ++ PutBE32 (N.of_nat (length (sym_body l)))). rewrite !(assoc_L (++) header). fold pre.
  rewrite fw_Write_spec.
  2:{ eapply N.le_trans; [|exact Hsize]. unfold sym_section, pre. simpl. rewrite !length_app, !be32_len. simpl. lia. }
  change (concat [hash_placeholder]) with hash_placeholder. cbn [obind].
  replace (take (N.to_nat (N.of_nat (length (pre ++ sym_body l)))) ((pre ++ sym_body l) ++ hash_placeholder)) with (pre ++ sym_body l)
    by (by rewrite Nat2N.id, take_app_length).
  replace (drop (N.to_nat (N.of_nat (length header) + 4)) (pre ++ sym_body l)) with (sym_body l).
  2:{ replace (N.to_nat (N.of_nat (length header) + 4)) with (length pre) by (unfold pre; rewrite length_app, be32_len; lia). by rewrite drop_app_length. }
  replace ((pre ++ sym_body l) ++ hash_placeholder) with ((pre ++ sym_body l) ++ hash_placeholder ++ []) by (by rewrite (right_id_L [] (++))).
  rewrite fw_WriteAt_mid by (by rewrite be32_len). rewrite (right_id_L [] (++)).
  replace ((pre ++ sym_body l) ++ PutBE32 (Crc32 (sym_body l))) with (header ++ sym_section l ++ [])
    by (unfold pre, sym_section; by rewrite (right_id_L [] (++)), <- !(assoc_L (++))).
  destruct (NewSymbols_spec l header [] Hfit) as (s & -> & Htab). simpl. eexists. split; [done|]. simpl.
  split_and!; [by rewrite (right_id_L [] (++))|done|done|done|done|]. by exists s.
Qed.

Lemma add_symbols_start w w' l : ensureStage None w idxStageSymbols = Ret w' → w_stage w' = idxStageSymbols → w_stage w = idxStageNone →
  obind (add_symbols w l) (λ w, ensureStage None w idxStageSeries) = obind (add_symbols w' l) (λ w, ensureStage None w idxStageSeries).
Proof.
  intros He Hs Hn0. destruct l as [|x l].
  - unfold add_symbols, ensureStage in *. simpl in *. rewrite Hn0, Hs in *. simpl in *. by rewrite He.
  - unfold add_symbols. simpl. unfold AddSymbol. rewrite He. by replace (ensureStage None w' idxStageSymbols) with (Ret w') by (unfold ensureStage; simpl; by rewrite Hs).
Qed.

(** From a new writer to the series. *)
Lemma symbols_file syms : StronglySorted str_lt syms → fits syms →
  ∃ w w', NewWriter = Ret w ∧ obind (add_symbols w syms) (λ w, ensureStage None w idxStageSeries) = Ret w' ∧
    w_f w' = header ++ sym_section syms ∧ w_stage w' = idxStageSeries ∧
    (t_Symbols (w_toc w') = N.of_nat (length header) ∧ t_Series (w_toc w') = fw_Pos (w_f w') ∧ fresh_tail w') ∧
    ∃ s, w_symbols w' = Some s ∧ table_ok syms s.
Proof.
  intros Hsort Hfit. pose proof Hfit as [Hb _]. assert (Hh : length header = 5) by (unfold header; by rewrite length_app, be32_len, byte_put).
  assert (Hs2 : (N.of_nat (length (header ++ sym_section syms)) ≤ max_size)%N).
  { unfold sym_section. rewrite !length_app, !be32_len, Hh. unfold max_size, max_uint32. lia. }
  assert (Hs1 : (N.of_nat (length (header ++ alen ++ blen ++ enc_syms syms)) ≤ max_size)%N).
  { eapply N.le_trans; [|exact Hs2]. unfold sym_section, sym_body. rewrite !length_app, !be32_len. simpl. lia. }
  destruct NewWriter_ok as (w & Hw & w1 & Hw1 & Hsw); [rewrite Hh; unfold max_size, max_uint32; lia|].
  destruct (add_symbols_ok syms [] w1 Hsw Hsort Hs1) as (w2 & Hadd & Hsw2).
  destruct (finishSymbols_ok syms w2 Hsw2 Hfit Hs2) as (w' & Hen & Hf & Hst & Htoc & s & Hs & Htab).
  exists w, w'. split_and!; [done| |done..|apply Htoc|apply Htoc|apply Htoc|by exists s].
  rewrite (add_symbols_start w w1); [by rewrite Hadd|done|by destruct Hsw|].
  unfold NewWriter, writeMeta, w_write in Hw. destruct (fw_Write _ _); simpl in Hw; by simplify_eq.
Qed.
End SymbolsWritten.

(** The symbol table round trips.  When strictly increasing strings that fit the format are
    added to a new writer and the series are started, every call succeeds, the file is the
    header and the complete section, and the table the writer loads numbers the strings in
    order: looking a number up gives its string, looking the string up, through the sampled
    offsets and the binary search, gives its number back, and numbers beyond are errors. *)
Theorem symbols_written `{TsdbEncOk} (syms : list string) :
  StronglySorted str_lt syms → fits syms →
  ∃ w w' s, NewWriter = Ret w ∧ obind (add_symbols w syms) (λ w, ensureStage None w idxStageSeries) = Ret w' ∧
    w_f w' = header ++ sym_section syms ∧ w_stage w' = idxStageSeries ∧ w_symbols w' = Some s ∧
    (∀ i x, syms !! N.to_nat i = Some x → SymLookup s i = Ret x ∧ ReverseLookup s x = Ret i) ∧
    (∀ i, (N.of_nat (length syms) ≤ i)%N → SymLookup s i = Fail unknown_offset).
Proof.
  intros Hsort Hfit. destruct (symbols_file syms Hsort Hfit) as (w & w' & Hw & Hw' & Hf & Hst & _ & s & Hs & Htab).
  exists w, w', s. split_and!; [done..| |].
  - intros i x Hx. split; [by eapply SymLookup_spec|]. eapply ReverseLookup_spec; try done.
    apply lookup_lt_Some in Hx. destruct Hfit as [Hb _]. unfold sym_body in Hb. rewrite length_app in Hb. pose proof (enc_syms_len syms). lia.
  - intros i Hi. by eapply SymLookup_out.
Qed.

Lemma symbols_written_witness :
  ∃ w' s, w_symbols w' = Some s ∧ SymLookup s 1 = Ret "app" ∧ ReverseLookup s "app" = Ret 1%N ∧
    obind NewWriter (λ w, obind (add_symbols w ["a"; "app"; "b"]) (λ w, ensureStage None w idxStageSeries)) = Ret w'.
Proof.
  destruct (symbols_written ["a"; "app"; "b"]) as (w & w' & s & Hw & Hw' & _ & _ & Hs & Hlook & _).
  - repeat constructor.
  - split; [reflexivity|repeat constructor].
  - exists w', s. destruct (Hlook 1%N "app" eq_refl) as [H1 H2]. split_and!; [exact Hs|exact H1|exact H2|]. rewrite Hw. exact Hw'.
Defined.

(** ** Series *)

Lemma u64_of_lt z : (u64_of z < 2 ^ 64)%N.
Proof. unfold u64_of. pose proof (Z.mod_pos_bound z (2 ^ 64)). lia. Qed.

(** Differences come back modulo 2^64. *)
Lemma i64_delta a t : int64_range a → i64 (i64 (a - t) + t) = a.
Proof.
  intros Ha. rewrite <- (i64_small a) at 2 by done. apply i64_int_eq. rewrite Z.add_mod, i64_mod, <- Z.add_mod by done. f_equal. lia.
Qed.

Lemma i64_span a b : int64_range a → i64 (i64_of (u64_of (a - b)) + b) = a.
Proof.
  intros Ha. rewrite <- (i64_small a) at 2 by done. apply i64_int_eq. unfold i64_of, u64_of. rewrite Z.add_mod, i64_mod by done.
  pose proof (Z.mod_pos_bound (a - b) (2 ^ 64) ltac:(done)). rewrite Z2N.id by lia. rewrite Zmod_mod, <- Z.add_mod by done. f_equal. lia.
Qed.

Section SeriesWritten.
Context `{TsdbEncOk}.
Context (syms : list string) (Hfit : fits syms) (Hsort : StronglySorted str_lt syms).

(** The number of a symbol. *)
Definition sym_no (x : string) : N := match list_find (x =.) syms with Some (i, _) => N.of_nat i | None => 0 end.

Lemma sym_no_spec x : x ∈ syms → syms !! N.to_nat (sym_no x) = Some x.
Proof.
  intros Hx. unfold sym_no. destruct (list_find (x =.) syms) as [[i y]|] eqn:E.
  - apply list_find_Some in E as (Hi & <- & _). by rewrite Nat2N.id.
  - exfalso. apply list_find_None in E. rewrite Forall_forall in E. by apply (E x).
Qed.

Lemma sym_no_lt x : x ∈ syms → (sym_no x < 2 ^ 32)%N.
Proof.
  intros Hx%sym_no_spec%lookup_lt_Some. destruct Hfit as [Hb _]. unfold sym_body in Hb. rewrite length_app in Hb. pose proof (enc_syms_len syms). lia.
Qed.

Lemma reverse_no s x : table_ok syms s → x ∈ syms → ReverseLookup s x = Ret (sym_no x).
Proof. intros Htab Hx. eapply ReverseLookup_spec; [done..|by apply sym_no_spec|by apply sym_no_lt]. Qed.

Definition label_bytes (l : LabelPair) : bytes := PutUvarint64 (sym_no (Name l)) ++ PutUvarint64 (sym_no (Value l)).
Definition labels_bytes (ls : Labels) : bytes := concat (label_bytes <$> ls).

Definition chunk_bytes (t0 : Z) (c : ChunkMeta) : bytes :=
  PutVarint64 (i64 (c_MinTime c - t0)) ++ PutUvarint64 (u64_of (c_MaxTime c - c_MinTime c)) ++ PutUvarint64 (c_KB c) ++
  PutUvarint64 (c_SeriesIndex c) ++ PutBE32 (c_Checksum c).

Fixpoint chunks_bytes (t0 : Z) (cs : list ChunkMeta) : bytes :=
  match cs with [] => [] | c :: cs => chunk_bytes t0 c ++ chunks_bytes (c_MaxTime c) cs end.

Definition series_body (lset : Labels) (fp : N) (cs : list ChunkMeta) : bytes :=
  PutBE64 fp ++ PutUvarint (length lset) ++ labels_bytes lset ++ PutUvarint (length cs) ++ chunks_bytes 0 cs.

Definition series_entry (lset : Labels) (fp : N) (cs : list ChunkMeta) : bytes :=
  PutUvarint (length (series_body lset fp cs)) ++ series_body lset fp cs ++ PutBE32 (Crc32 (series_body lset fp cs)).

Lemma labels_bytes_len lset : length lset ≤ length (labels_bytes lset).
Proof.
  unfold labels_bytes. induction lset as [|l lset IH]; [done|]. csimpl. rewrite length_app. unfold label_bytes at 1. rewrite length_app.
  pose proof (uvarint_len (sym_no (Name l))). lia.
Qed.

Lemma chunks_bytes_len cs : ∀ t0, length cs ≤ length (chunks_bytes t0 cs).
Proof.
  induction cs as [|c cs IH]; intros t0; [done|]. cbn [chunks_bytes length]. rewrite length_app. specialize (IH (c_MaxTime c)).
  unfold chunk_bytes. rewrite !length_app, be32_len. lia.
Qed.

Lemma series_counts lset fp cs : length lset ≤ length (series_body lset fp cs) ∧ length cs ≤ length (series_body lset fp cs).
Proof.
  unfold series_body. rewrite !length_app. pose proof (labels_bytes_len lset). pose proof (chunks_bytes_len cs 0). lia.
Qed.

(** *** Writing *)

Definition cache_ok (cache : gmap string symbolCacheEntry) : Prop :=
  ∀ n e, cache !! n = Some e → sc_index e = sym_no n ∧ sc_lastValueIndex e = sym_no (sc_lastValue e).

Definition names_ok (names : gmap string N) : Prop := ∀ n k, names !! n = Some k → n ∈ syms.

Definition in_syms (lset : Labels) : Prop := Forall (λ l, (Name l ∈ syms) ∧ (Value l ∈ syms)) lset.

Lemma put_labels_spec s lset : table_ok syms s → in_syms lset → ∀ cache names buf, cache_ok cache → names_ok names →
  ∃ cache' names', put_labels s lset cache names buf = Ret (cache', names', buf ++ labels_bytes lset) ∧ cache_ok cache' ∧ names_ok names'.
Proof.
  intros Htab. induction 1 as [|l lset [Hn Hv] _ IH]; intros cache names buf Hc Hm; simpl.
  - exists cache, names. split; [|done]. unfold labels_bytes. simpl. by rewrite (right_id_L [] (++)).
  - assert (Hname : match cache !! Name l with Some e => Ret (sc_index e) | None => ReverseLookup s (Name l) end = Ret (sym_no (Name l))).
    { destruct (cache !! Name l) as [e|] eqn:E; [by destruct (Hc _ _ E) as [-> _]|by apply reverse_no]. }
    rewrite Hname. simpl.
    set (cached := match cache !! Name l with Some e => if String.eqb (sc_lastValue e) (Value l) then Some (sc_lastValueIndex e) else None | None => None end).
    assert (Hcached : ∀ i, cached = Some i → i = sym_no (Value l)).
    { unfold cached. intros i Hi. destruct (cache !! Name l) as [e|] eqn:E; [|done]. destruct (String.eqb_spec (sc_lastValue e) (Value l)) as [Ev|]; [|done].
      simplify_eq. destruct (Hc _ _ E) as [_ ->]. by rewrite Ev. }
    assert (Hstep : ∃ cache1, match cached with
        | Some i => Ret (i, cache)
        | None => obind (ReverseLookup s (Value l)) (λ i, Ret (i, <[Name l := mkSymbolCacheEntry (sym_no (Name l)) (Value l) i]> cache))
        end = Ret (sym_no (Value l), cache1) ∧ cache_ok cache1).
    { destruct cached as [i|]; [rewrite (Hcached i eq_refl); by exists cache|]. rewrite (reverse_no s) by done. simpl. eexists. split; [done|].
      intros n e [[<- <-]|[_ Hl]]%lookup_insert_Some; [done|by apply Hc]. }
    destruct Hstep as (cache1 & -> & Hc1). simpl.
    destruct (IH cache1 (<[Name l := (default 0 (names !! Name l) + 1)%N]> names) (buf ++ label_bytes l) Hc1) as (cache' & names' & Heq & Hc').
    { intros n k [[<- _]|[_ Hl]]%lookup_insert_Some; [done|by eapply Hm]. }
    exists cache', names'. split; [|done]. unfold label_bytes in Heq at 1. rewrite Heq. unfold labels_bytes. csimpl. by rewrite (assoc_L (++)).
Qed.

Lemma put_chunks_spec cs : ∀ t0 m buf, ∃ m', put_chunks t0 cs m buf = (m', buf ++ chunks_bytes t0 cs).
Proof.
  induction cs as [|c cs IH]; intros t0 m buf; simpl; [exists m; by rewrite (right_id_L [] (++))|].
  destruct (IH (c_MaxTime c) (EnsureBounds m (c_MinTime c) (c_MaxTime c)) (buf ++ chunk_bytes t0 c)) as [m' Heq]. exists m'.
  unfold chunk_bytes in Heq at 1. rewrite Heq. by rewrite (assoc_L (++)).
Qed.

(** The writer among series, with at most [n] fingerprint offsets. *)
Record ser_writer (n : nat) (w : Writer) : Prop := {
  rw_stage : w_stage w = idxStageSeries;
  rw_symbols : ∃ s, w_symbols w = Some s ∧ table_ok syms s;
  rw_cache : cache_ok (w_symbolCache w);
  rw_names : names_ok (w_labelNames w);
  rw_file : ∃ x, w_f w = header ++ sym_section syms ++ x;
  rw_toc : t_Symbols (w_toc w) = N.of_nat (length header) ∧ (t_Series (w_toc w) ≤ max_size)%N;
  rw_tmp : w_fP w = [] ∧ w_fPO w = [] ∧ w_cntPO w = 0%N;
  rw_size : (fw_Pos (w_f w) ≤ max_size)%N;
  rw_fps : Forall (λ x : N * N, x.1 < 2 ^ 64 ∧ x.2 < 2 ^ 64)%N (w_fingerprintOffsets w) ∧ length (w_fingerprintOffsets w) ≤ n }.

(** An added series is at the end of the file, on a multiple of 16. *)
Lemma AddSeries_inv n w ref lset fp cs w' :
  AddSeries None w ref lset fp cs = Ret w' → ser_writer n w → in_syms lset → (fp < 2 ^ 64)%N →
  ∃ k, w_f w' = w_f w ++ replicate k 0%N ++ series_entry lset fp cs ∧
    (N.of_nat (length (w_f w ++ replicate k 0%N)) mod 16 = 0)%N ∧ ser_writer (S n) w'.
Proof.
  intros Hadd [Hst (s & Hs & Htab) Hc Hm [x Hx] Htoc Htmp Hsize [Hfps Hlen]] Hin Hfp. unfold AddSeries, ensureStage in Hadd. simpl in Hadd.
  rewrite Hst in Hadd. simpl in Hadd. destruct (_ && _)%bool; [done|]. apply obind_ret in Hadd as (f & Hpad & Hadd).
  pose proof (fw_AddPadding_size _ _ _ Hpad Hsize) as Hfsize. apply fw_AddPadding_spec in Hpad as (k & -> & Hk & Hmod); [|done]. rewrite Hs in Hadd. simpl in Hadd.
  destruct (put_labels_spec s lset Htab Hin (w_symbolCache w) (w_labelNames w) (PutBE64 fp ++ PutUvarint (length lset)) Hc Hm) as (cache' & names' & Heq & Hc' & Hm').
  rewrite Heq in Hadd. simpl in Hadd. clear Heq.
  destruct (put_chunks_spec cs 0 (t_Metadata (w_toc w)) (((PutBE64 fp ++ PutUvarint (length lset)) ++ labels_bytes lset) ++ PutUvarint (length cs))) as [m' Heq].
  rewrite Heq in Hadd. clear Heq.
  replace ((((PutBE64 fp ++ PutUvarint (length lset)) ++ labels_bytes lset) ++ PutUvarint (length cs)) ++ chunks_bytes 0 cs) with (series_body lset fp cs) in Hadd
    by (unfold series_body; by rewrite <- !(assoc_L (++))).
  unfold w_write in Hadd. simpl in Hadd. apply obind_ret in Hadd as (f & Hw & [= <-]). pose proof (fw_Write_size _ _ _ Hw Hfsize) as Hsize'.
  apply fw_Write_prefix in Hw as ->. simpl in *. rewrite (right_id_L [] (++)) in *. exists k. split_and!; [by rewrite <- !(assoc_L (++))|done|].
  split; simpl; [done|by exists s|done|done| |done|done|done|].
  - rewrite Hx, <- !(assoc_L (++)). by eexists.
  - destruct (_ =? 0)%N; [|split; [done|lia]]. rewrite length_app. simpl. split; [|lia]. apply Forall_app; split; [done|].
    constructor; [|done]. split; [|done]. simpl. unfold max_size, max_uint32 in Hfsize. apply N.Div0.div_lt_upper_bound. lia.
Qed.

(** *** Reading *)

Context (lookup : N → outcome string) (Hlookup : ∀ i x, syms !! N.to_nat i = Some x → lookup i = Ret x).

Lemma read_labels_spec lset r : in_syms lset → read_labels lookup (length lset) (DecWith (labels_bytes lset ++ r)) = Ret (lset, DecWith r).
Proof.
  induction 1 as [|l lset [Hn Hv] _ IH]; [done|]. unfold labels_bytes. csimpl. unfold label_bytes at 1. rewrite <- !(assoc_L (++)).
  pose proof (sym_no_lt _ Hn). pose proof (sym_no_lt _ Hv). rewrite d_Uvarint64_put by lia. rewrite d_Uvarint64_put by lia. simpl.
  rewrite !u32_small by done. rewrite (Hlookup _ _ (sym_no_spec _ Hn)). simpl. rewrite (Hlookup _ _ (sym_no_spec _ Hv)). simpl.
  fold (labels_bytes lset). rewrite IH. simpl. by destruct l.
Qed.

Definition chunk_ok (c : ChunkMeta) : Prop :=
  int64_range (c_MinTime c) ∧ int64_range (c_MaxTime c) ∧ (c_KB c < 2 ^ 32)%N ∧ (c_SeriesIndex c < 2 ^ 32)%N ∧ (c_Checksum c < 2 ^ 32)%N.

Lemma read_chunk_spec t0 c r : chunk_ok c → read_chunk t0 (DecWith (chunk_bytes t0 c ++ r)) = (c, DecWith r).
Proof.
  intros (Hmin & Hmax & Hkb & Hidx & Hsum). unfold read_chunk, chunk_bytes. rewrite <- !(assoc_L (++)).
  rewrite d_Varint64_put by apply i64_range. rewrite d_Uvarint64_put by apply u64_of_lt. rewrite d_Uvarint64_put by lia.
  rewrite d_Uvarint64_put by lia. rewrite d_Be32_put by done. rewrite !u32_small by done. rewrite i64_delta by done. rewrite i64_span by done. by destruct c.
Qed.

Lemma read_chunks_spec cs r : Forall chunk_ok cs → ∀ t0, read_chunks (length cs) t0 (DecWith (chunks_bytes t0 cs ++ r)) = Ret (cs, DecWith r).
Proof.
  induction 1 as [|c cs Hc _ IH]; intros t0; [done|]. cbn [length read_chunks chunks_bytes]. rewrite <- (assoc_L (++)), read_chunk_spec by done.
  simpl. by rewrite IH.
Qed.

Lemma dec_Series_spec lset fp cs :
  in_syms lset → (fp < 2 ^ 64)%N → Forall chunk_ok cs → (N.of_nat (length lset) < 2 ^ 64)%N → (N.of_nat (length cs) < 2 ^ 64)%N →
  dec_Series lookup (series_body lset fp cs) = Ret (if (length cs =? 0)%nat then 0%N else fp, lset, cs).
Proof.
  intros Hin Hfp Hcs Hl Hc. unfold dec_Series, series_body. rewrite d_Be64_put by done. unfold PutUvarint. rewrite d_Uvarint64_put by done.
  rewrite Nat2N.id, read_labels_spec by done. simpl. rewrite d_Uvarint64_put by done. destruct cs as [|c cs]; [done|].
  apply Forall_cons in Hcs as [Hc0 Hcs]. rewrite (proj2 (N.eqb_neq _ _)) by (simpl; lia). cbn [chunks_bytes]. rewrite read_chunk_spec by done.
  replace (N.to_nat (N.of_nat (length (c :: cs))) - 1) with (length cs) by (simpl; lia).
  pose proof (read_chunks_spec cs [] Hcs (c_MaxTime c)) as Hr. rewrite (right_id_L [] (++)) in Hr. by rewrite Hr.
Qed.
End SeriesWritten.
