(* ===== verification/IndexFile.v ===== *)
(** * The finished index file

    Closing the writer appends the label indices, postings, offset tables and the table of
    contents.  Whatever it wrote, the reader opens: the tables it loads are found by the
    table of contents, and symbols and series read back as they were added. *)

From S2P Require Import Prelude Labels Encoding IndexSymbols IndexWriter IndexReader IndexRoundtrip.

(** A series to add: reference, labels, fingerprint and chunks. *)
Abbreviation series_in := (N * Labels * N * list ChunkMeta)%type (only parsing).

Local Arguments fw_Write : simpl never.

Section Finished.
Context `{TsdbEncOk}.
Context (syms : list string) (Hfit : fits syms) (Hsort : StronglySorted str_lt syms).

(** ** The temporary table *)

(** A written entry: name, value, offset. *)
Definition po_entry (e : string * string * N) : bytes :=
  PutUvarint 2 ++ PutUvarintStr e.1.1 ++ PutUvarintStr e.1.2 ++ PutUvarint64 e.2.

Definition short (x : string) : Prop := (N.of_nat (String.length x) < 2 ^ 63)%N.

(** Entries that can be read back; names are symbols or empty. *)
Definition entry_ok (e : string * string * N) : Prop :=
  (e.1.1 = "" ∨ e.1.1 ∈ syms) ∧ short e.1.2 ∧ (e.2 < 2 ^ 64)%N.

Lemma short_sym x : x ∈ syms → short x.
Proof. destruct Hfit as [_ Hf]. rewrite Forall_forall in Hf. apply Hf. Qed.

Lemma entry_name_short e : entry_ok e → short e.1.1.
Proof. intros [[->|Hin] _]; [done|by apply short_sym]. Qed.

Lemma SymLookup_inv s i x : table_ok syms s → SymLookup s i = Ret x → syms !! N.to_nat i = Some x.
Proof.
  intros Htab Hl. destruct (decide (N.to_nat i < length syms)) as [Hi|Hi].
  - destruct (lookup_lt_is_Some_2 _ _ Hi) as [y Hy]. rewrite (SymLookup_spec syms s i y) in Hl by done. congruence.
  - rewrite (SymLookup_out syms) in Hl by (done || lia). done.
Qed.

(** The writer with the temporary table of [es]; only the temporary files differ from [w0]. *)
Record tmp_writer (w0 : Writer) (es : list (string * string * N)) (w : Writer) : Prop := {
  tw_same : ∃ fP, w = set_postings w0 fP (concat (po_entry <$> es)) (N.of_nat (length es));
  tw_size : (fw_Pos (w_fP w) ≤ max_size)%N;
  tw_es : Forall entry_ok es }.

Lemma writePosting_inv w0 es w name value offs w' :
  writePosting w name value offs = Ret w' → tmp_writer w0 es w → name = "" ∨ name ∈ syms → short value →
  ∃ o, tmp_writer w0 (es ++ [(name, value, o)]) w'.
Proof.
  intros Hw [[fP ->] Hs Hes] Hn Hv. unfold writePosting in Hw. simpl in Hw, Hs. apply obind_ret in Hw as (fP1 & Hpad & Hw).
  pose proof (fw_AddPadding_size _ _ _ Hpad Hs) as Hs1. exists (fw_Pos fP1). apply obind_ret in Hw as (fPO & Hpo & Hw). apply fw_Write_prefix in Hpo as ->.
  destruct (_ <? _)%N; [done|]. apply obind_ret in Hw as (fP2 & Hw & [= <-]). split; simpl.
  - exists fP2. unfold set_postings. simpl. f_equal; [|rewrite length_app; simpl; lia]. rewrite fmap_app, concat_app. simpl. done.
  - by eapply fw_Write_size.
  - apply Forall_app; split; [done|]. constructor; [|done]. split_and!; [done|done|]. simpl. unfold max_size, max_uint32 in Hs1. lia.
Qed.

(** The writes of the temporary files, one after another. *)
Lemma write_values_inv s name m w0 : table_ok syms s → name ∈ syms → ∀ values es w w',
  write_values w s name m values = Ret w' → tmp_writer w0 es w → ∃ es', tmp_writer w0 es' w'.
Proof.
  intros Htab Hn. induction values as [|v values IH]; intros es w w' Hw Ht; simpl in Hw; [simplify_eq; by exists es|].
  apply obind_ret in Hw as (value & Hv & Hw). apply obind_ret in Hw as (w1 & Hp & Hw).
  destruct (writePosting_inv _ _ _ _ _ _ _ Hp Ht) as [o Ht1]; [by right| |by eapply IH].
  eapply short_sym, list_elem_of_lookup_2. by eapply SymLookup_inv.
Qed.

Lemma write_names_inv s postings w0 : table_ok syms s → ∀ batch es w w',
  write_names w s postings batch = Ret w' → Forall (λ n, n ∈ syms) batch → tmp_writer w0 es w → ∃ es', tmp_writer w0 es' w'.
Proof.
  intros Htab. induction batch as [|n batch IH]; intros es w w' Hw Hb Ht; simpl in Hw; [simplify_eq; by exists es|].
  apply Forall_cons in Hb as [Hn Hb]. apply obind_ret in Hw as (sid & _ & Hw). apply obind_ret in Hw as (w1 & Hv & Hw).
  destruct (write_values_inv _ _ _ w0 Htab Hn _ _ _ _ Hv Ht) as [es1 Ht1]. by eapply IH.
Qed.

Lemma take_batch_app names labelNames maxp : ∀ c batch rest, take_batch labelNames maxp c names = (batch, rest) → names = batch ++ rest.
Proof.
  induction names as [|n names IH]; intros c batch rest; simpl; [by intros [= <- <-]|].
  destruct (_ <? _)%N; [by intros [= <- <-]|]. destruct (take_batch _ _ _ names) as [b r] eqn:E. intros [= <- <-]. by rewrite (IH _ _ _ E).
Qed.

Lemma write_batches_inv s start limit maxp w0 : table_ok syms s → ∀ fuel names es w w',
  write_batches None fuel w s start limit maxp names = Ret w' → Forall (λ n, n ∈ syms) names → tmp_writer w0 es w → ∃ es', tmp_writer w0 es' w'.
Proof.
  intros Htab. induction fuel as [|fuel IH]; intros names es w w' Hw Hn Ht.
  - destruct names; simpl in Hw; [simplify_eq; by exists es|done].
  - destruct names as [|n names]; [simpl in Hw; simplify_eq; by exists es|]. cbn [write_batches] in Hw.
    destruct (take_batch _ _ _ _) as [batch rest] eqn:Eb. apply take_batch_app in Eb. rewrite Eb in Hn. apply Forall_app in Hn as [Hn1 Hn2].
    apply obind_ret in Hw as (sids & _ & Hw). apply obind_ret in Hw as (postings & _ & Hw). apply obind_ret in Hw as (w1 & Hw1 & Hw).
    destruct (write_names_inv s postings w0 Htab _ _ _ _ Hw1 Hn1 Ht) as [es1 Ht1]. by eapply IH.
Qed.

Lemma writePostingsToTmpFiles_inv w s w' :
  writePostingsToTmpFiles None w = Ret w' → w_symbols w = Some s → table_ok syms s → names_ok syms (w_labelNames w) →
  w_fPO w = [] → w_cntPO w = 0%N → w_fP w = [] → ∃ es, tmp_writer w es w'.
Proof.
  intros Hw Hs Htab Hn Hpo Hc HfP. unfold writePostingsToTmpFiles in Hw. apply obind_ret in Hw as (offs & _ & Hw). apply obind_ret in Hw as (w1 & Hp & Hw).
  destruct (writePosting_inv w [] _ _ _ _ _ Hp) as [o Ht]; [|by left|done|].
  { split; [exists (w_fP w); destruct w; simpl in *; by subst|rewrite HfP; done|done]. }
  assert (Hsym : w_symbols w1 = Some s) by (destruct Ht as [[fP ->] _ _]; done).
  assert (Hnames : Forall (λ n, n ∈ syms) (merge_sort String.le (map_to_list (w_labelNames w)).*1)).
  2:{ destruct (merge_sort _ _) as [|n names]; [simplify_eq; by eexists|]. rewrite Hsym in Hw. cbn [of_option obind] in Hw.
      eapply write_batches_inv; [done|exact Hw|done|exact Ht]. }
  apply Forall_forall. intros x Hx. rewrite merge_sort_Permutation in Hx.
  apply list_elem_of_fmap in Hx as ([n' k] & -> & Hx%elem_of_map_to_list). by eapply Hn.
Qed.

(** ** The sections of the main file *)

(** The main file is appended to; what the last sections need is kept. *)
Record grown (w w' : Writer) : Prop := {
  gr_f : w_f w `prefix_of` w_f w';
  gr_fPO : w_fPO w' = w_fPO w;
  gr_cnt : w_cntPO w' = w_cntPO w;
  gr_toc : w_toc w' = w_toc w;
  gr_fps : w_fingerprintOffsets w' = w_fingerprintOffsets w;
  gr_symbols : w_symbols w' = w_symbols w }.

#[local] Instance grown_preorder : PreOrder grown.
Proof.
  split; [by intros w; split|]. intros w1 w2 w3 [? ? ? ? ? ?] [? ? ? ? ? ?]. split; etrans; eassumption.
Qed.

(** A section between its length and its checksum. *)
Definition section_bytes (body : bytes) : bytes := PutBE32 (N.of_nat (length body)) ++ body ++ PutBE32 (Crc32 body).

Lemma write_table_inv f parts f' : write_table f parts = Ret f' →
  f' = f ++ section_bytes (concat parts) ∧ (N.of_nat (length (concat parts)) < 2 ^ 32)%N.
Proof.
  unfold write_table. intros Hw. apply obind_ret in Hw as (f1 & Hw1 & Hw). apply fw_Write_prefix in Hw1 as ->. rewrite concat_cons in Hw.
  replace (fw_Pos (f ++ alen ++ concat parts) - fw_Pos f - 4)%N with (N.of_nat (length (concat parts))) in Hw
    by (unfold fw_Pos; rewrite !length_app; simpl; lia).
  unfold max_uint32 in Hw. destruct (N.ltb_spec (2 ^ 32 - 1) (N.of_nat (length (concat parts)))) as [|Hl]; [done|].
  apply fw_Write_prefix in Hw as ->. unfold fw_Pos. rewrite fw_WriteAt_mid by (unfold PutBE32int; by rewrite be32_len).
  unfold PutBE32int, section_bytes. rewrite u32_small by lia. simpl. rewrite (right_id_L [] (++)), <- !(assoc_L (++)). split; [done|lia].
Qed.

Lemma set_f_grown w f : w_f w `prefix_of` f → grown w (set_f w f).
Proof. by split. Qed.

Lemma writeLabelIndex_inv w name values w' : writeLabelIndex w name values = Ret w' → grown w w'.
Proof.
  unfold writeLabelIndex. intros Hw. apply obind_ret in Hw as (f & Hpad & Hw). apply fw_AddPadding_spec in Hpad as (k & -> & _); [|done].
  apply obind_ret in Hw as (f & Hw & [= <-]). apply write_table_inv in Hw as [-> _]. split; simpl; [|done..].
  rewrite <- (assoc_L (++)). by eexists.
Qed.

Lemma label_indices_loop_inv cnt : ∀ w d cur values w', label_indices_loop cnt w d cur values = Ret w' → grown w w'.
Proof.
  induction cnt as [|cnt IH]; intros w d cur values w'; simpl.
  - destruct (db_E d); [done|]. destruct values; [by intros [= <-]|apply writeLabelIndex_inv].
  - destruct (db_E d); [done|]. destruct (d_Uvarint64 d) as [? d1]. destruct (d_UvarintStr d1) as [name d2]. destruct (d_UvarintStr d2) as [value d3].
    destruct (d_Uvarint64 d3) as [? d4]. destruct (_ =? 0)%nat; [apply IH|]. intros (w1 & Hf & (sid & _ & Hw)%obind_ret)%obind_ret.
    apply IH in Hw. etrans; [|exact Hw]. destruct (_ && _)%bool; [by eapply writeLabelIndex_inv|by simplify_eq].
Qed.

Lemma writePostings_inv w w' : writePostings w = Ret w' → grown w w'.
Proof.
  unfold writePostings. intros (f & Hpad & [= <-])%obind_ret. apply fw_AddPadding_spec in Hpad as (k & -> & _); [|done].
  split; simpl; [|done..]. rewrite <- (assoc_L (++)). by eexists.
Qed.

Lemma writeLabelIndexesOffsetTable_inv w w' : writeLabelIndexesOffsetTable w = Ret w' → grown w w'.
Proof.
  unfold writeLabelIndexesOffsetTable. intros (f & Hw & [= <-])%obind_ret. apply write_table_inv in Hw as [-> _]. apply set_f_grown. by eexists.
Qed.

Definition moved (start : N) (e : string * string * N) : string * string * N := (e.1, u64 (e.2 + start)).

Lemma moved_ok start e : entry_ok e → entry_ok (moved start e).
Proof. intros (Hn & Hv & _). split_and!; [done|done|by apply N.mod_upper_bound]. Qed.

Lemma po_entry_read e r : entry_ok e →
  d_Uvarint64 (DecWith (po_entry e ++ r)) = (2%N, DecWith (PutUvarintStr e.1.1 ++ PutUvarintStr e.1.2 ++ PutUvarint64 e.2 ++ r)) ∧
  d_UvarintStr (DecWith (PutUvarintStr e.1.1 ++ PutUvarintStr e.1.2 ++ PutUvarint64 e.2 ++ r)) = (e.1.1, DecWith (PutUvarintStr e.1.2 ++ PutUvarint64 e.2 ++ r)) ∧
  d_UvarintStr (DecWith (PutUvarintStr e.1.2 ++ PutUvarint64 e.2 ++ r)) = (e.1.2, DecWith (PutUvarint64 e.2 ++ r)) ∧
  d_Uvarint64 (DecWith (PutUvarint64 e.2 ++ r)) = (e.2, DecWith r).
Proof.
  intros He. pose proof (entry_name_short _ He). destruct He as (_ & Hv & Ho). unfold po_entry, PutUvarint. rewrite <- !(assoc_L (++)).
  split_and!; [by rewrite d_Uvarint64_put|by rewrite d_UvarintStr_put|by rewrite d_UvarintStr_put|by rewrite d_Uvarint64_put].
Qed.

(** The offsets of the temporary table, moved by the start of the postings. *)
Lemma moved_entries_spec start es : Forall entry_ok es → ∀ r,
  moved_entries (length es) start (DecWith (concat (po_entry <$> es) ++ r)) = (po_entry ∘ moved start <$> es, DecWith r).
Proof.
  induction 1 as [|e es He _ IH]; intros r; [done|]. rewrite fmap_cons, concat_cons, <- (assoc_L (++)). cbn [length moved_entries db_E DecWith].
  destruct (po_entry_read e (concat (po_entry <$> es) ++ r) He) as (-> & -> & -> & ->). by rewrite IH.
Qed.
(** The bytes of the offset tables. *)
Definition po_table (es : list (string * string * N)) : bytes := PutBE32 (N.of_nat (length es)) ++ concat (po_entry <$> es).
Definition fp_table (fps : list (N * N)) : bytes :=
  PutBE32 (N.of_nat (length fps)) ++ concat ((λ x : N * N, PutBE64 x.1 ++ PutBE64 x.2) <$> fps).

Lemma po_entries_len es : length es ≤ length (concat (po_entry <$> es)).
Proof.
  induction es as [|e es IH]; [done|]. csimpl. rewrite length_app. unfold po_entry at 1, PutUvarint. rewrite length_app.
  pose proof (uvarint_len (N.of_nat 2)). lia.
Qed.

Lemma fp_table_len fps : length (fp_table fps) = 4 + 16 * length fps.
Proof.
  unfold fp_table. rewrite length_app, be32_len. f_equal.
  induction fps as [|x fps IH]; [done|]. rewrite fmap_cons, concat_cons, !length_app, !be64_len, IH. cbn [length]. lia.
Qed.

Lemma writePostingsOffsetTable_inv w w' es :
  writePostingsOffsetTable w = Ret w' → w_fPO w = concat (po_entry <$> es) → w_cntPO w = N.of_nat (length es) → Forall entry_ok es →
  let body := po_table (moved (w_postingsStart w) <$> es) in
  w_f w' = w_f w ++ section_bytes body ∧ (N.of_nat (length body) < 2 ^ 32)%N ∧ w_toc w' = w_toc w ∧ w_fingerprintOffsets w' = w_fingerprintOffsets w.
Proof.
  intros Hw Hpo Hc Hes. unfold writePostingsOffsetTable in Hw. rewrite Hpo, Hc, Nat2N.id in Hw.
  pose proof (moved_entries_spec (w_postingsStart w) es Hes []) as Hm. rewrite (right_id_L [] (++)) in Hm. rewrite Hm in Hw. clear Hm.
  cbn [db_E DecWith] in Hw. apply obind_ret in Hw as (f & Hw & [= <-]). apply write_table_inv in Hw as [-> Hl]. rewrite concat_cons in Hl |- *.
  rewrite list_fmap_compose in Hl |- *. pose proof (po_entries_len (moved (w_postingsStart w) <$> es)) as Hle. rewrite length_fmap in Hle.
  rewrite length_app in Hl. unfold PutBE32int in *. assert (N.of_nat (length es) < 2 ^ 32)%N by lia. rewrite u32_small in * by done.
  simpl. unfold po_table. rewrite length_fmap, length_app. done.
Qed.

Lemma writeFingerprintOffsetsTable_inv w w' :
  writeFingerprintOffsetsTable w = Ret w' → (N.of_nat (length (fp_table (w_fingerprintOffsets w))) < 2 ^ 32)%N →
  w_f w' = w_f w ++ section_bytes (fp_table (w_fingerprintOffsets w)) ∧ w_toc w' = w_toc w.
Proof.
  intros Hw Hl. unfold writeFingerprintOffsetsTable, w_write in Hw. apply obind_ret in Hw as (f & Hw & [= <-]). apply fw_Write_prefix in Hw as ->.
  pose proof Hl as Hl'. rewrite fp_table_len in Hl'. unfold PutBE32int.
  rewrite (u32_small (N.of_nat (length (w_fingerprintOffsets w)))) by lia. fold (fp_table (w_fingerprintOffsets w)).
  rewrite u32_small by done. cbn [concat]. by rewrite (right_id_L [] (++)).
Qed.

Lemma fw_Write_max f b bufs f' : fw_Write f (b :: bufs) = Ret f' → (fw_Pos f' ≤ max_size)%N.
Proof.
  intros Hw. unfold fw_Write in Hw. fold fw_Write in Hw. destruct (N.ltb_spec (16 * max_uint32) (fw_Pos (f ++ b))); [done|].
  by eapply fw_Write_size.
Qed.

Lemma writeTOC_inv w w' : writeTOC w = Ret w' →
  w_f w' = w_f w ++ toc_bytes (w_toc w) ++ PutBE32 (Crc32 (toc_bytes (w_toc w))) ∧ (fw_Pos (w_f w') ≤ max_size)%N.
Proof.
  unfold writeTOC, w_write. intros (f & Hw & [= <-])%obind_ret. pose proof (fw_Write_max _ _ _ _ Hw). apply fw_Write_prefix in Hw as ->.
  cbn [concat] in *. by rewrite (right_id_L [] (++)) in *.
Qed.

(** ** The whole file *)

Definition toc_ok (t : TOC) : Prop :=
  (t_Symbols t ≤ max_size ∧ t_Series t ≤ max_size ∧ t_LabelIndices t ≤ max_size ∧ t_LabelIndicesTable t ≤ max_size ∧
   t_Postings t ≤ max_size ∧ t_PostingsTable t ≤ max_size ∧ t_FingerprintOffsets t ≤ max_size)%N.

(** What is after [f0]: other sections, the postings offset table, the fingerprint offset table,
    and the table of contents, which knows where they are. *)
Record finished (f0 f : bytes) (es : list (string * string * N)) (fps : list (N * N)) (t : TOC) : Prop := {
  fi_f : ∃ mid, f = (f0 ++ mid) ++ section_bytes (po_table es) ++ section_bytes (fp_table fps) ++ toc_bytes t ++ PutBE32 (Crc32 (toc_bytes t)) ∧
    t_PostingsTable t = N.of_nat (length (f0 ++ mid)) ∧
    t_FingerprintOffsets t = N.of_nat (length ((f0 ++ mid) ++ section_bytes (po_table es)));
  fi_po : (N.of_nat (length (po_table es)) < 2 ^ 32)%N;
  fi_es : Forall entry_ok es;
  fi_fps : (N.of_nat (length (fp_table fps)) < 2 ^ 32)%N;
  fi_toc : toc_ok t }.

Lemma Close_inv n w w' :
  Close None w = Ret w' → ser_writer syms n w → (N.of_nat n < 2 ^ 27)%N →
  ∃ es t, finished (w_f w) (w_f w') es (w_fingerprintOffsets w) t ∧ t_Symbols t = t_Symbols (w_toc w).
Proof.
  intros Hc [Hst (s & Hs & Htab) _ Hn _ [Hts Htser] (HfP & HfPO & Hcnt) _ [_ Hfps]] Hsmall. unfold Close, ensureStage in Hc. simpl in Hc.
  rewrite Hst in Hc. cbn in Hc. rewrite Hst in Hc. cbn [stage_num] in Hc. apply obind_ret in Hc as (w7 & Hc & [= <-]).
  apply obind_ret in Hc as (w1 & H1 & Hc). apply obind_ret in Hc as (w2 & H2 & Hc). apply obind_ret in Hc as (w3 & H3 & Hc).
  apply obind_ret in Hc as (w4 & H4 & Hc). apply obind_ret in Hc as (w5 & H5 & Hc). apply obind_ret in Hc as (w6 & H6 & H7).
  eapply writePostingsToTmpFiles_inv in H1 as [es [[fP ->] _ Hes]]; [|done..].
  apply label_indices_loop_inv in H2 as [[x2 F2] P2 C2 T2 O2 _]. apply writePostings_inv in H3 as [[x3 F3] P3 C3 T3 O3 _].
  apply writeLabelIndexesOffsetTable_inv in H4 as [[x4 F4] P4 C4 T4 O4 _]. simpl in *.
  eapply (writePostingsOffsetTable_inv _ _ es) in H5 as (F5 & L5 & T5 & O5); [|simpl; congruence..|done]. simpl in *.
  apply writeFingerprintOffsetsTable_inv in H6 as (F6 & T6); [|simpl; rewrite fp_table_len; rewrite O5, O4, O3, O2; lia]. simpl in *.
  apply writeTOC_inv in H7 as [F7 S7]. assert (Hfp : w_fingerprintOffsets w5 = w_fingerprintOffsets w) by congruence. rewrite Hfp in F6.
  exists (moved (w_postingsStart w4) <$> es), (w_toc w6). rewrite T6, T5, T4, T3, T2 in *. simpl in *. unfold fw_Pos in *.
  set (po := section_bytes (po_table (moved (w_postingsStart w4) <$> es))) in *. set (fp := section_bytes (fp_table (w_fingerprintOffsets w))) in *.
  set (tb := toc_bytes _) in *. split; [|done]. rewrite F7, F6, F5, F4, F3, F2 in S7. rewrite !length_app in S7. split; simpl.
  - exists (x2 ++ x3 ++ x4). unfold tb, po, fp in *. rewrite F7, F6, F5, F4, F3, F2, <- !(assoc_L (++)). done.
  - done.
  - apply Forall_fmap. eapply Forall_impl; [exact Hes|]. intros e. apply moved_ok.
  - rewrite fp_table_len. lia.
  - unfold toc_ok. simpl. rewrite Hts, F5, F4, F3, F2, !length_app. split_and!; try lia.
    unfold header, max_size, max_uint32. rewrite length_app, be32_len, byte_put. simpl. lia.
Qed.
(** ** Opening the file *)

Lemma toc_bytes_len t : length (toc_bytes t) = 72.
Proof. unfold toc_bytes. by rewrite !length_app, !be64_len. Qed.

(** The table as it is read: times through 64 bits, and the checksum. *)
Definition toc_read (t : TOC) : TOC :=
  mkTOC (t_Symbols t) (t_Series t) (t_LabelIndices t) (t_LabelIndicesTable t) (t_Postings t) (t_PostingsTable t) (t_FingerprintOffsets t)
    (mkMetadata (i64_of (u64_of (md_From (t_Metadata t)))) (i64_of (u64_of (md_Through (t_Metadata t)))) (Crc32 (toc_bytes t))).

Lemma d_Be64_end x : (x < 2 ^ 64)%N → d_Be64 (DecWith (PutBE64 x)) = (x, DecWith []).
Proof. intros Hx. pose proof (d_Be64_put x [] Hx) as Hd. by rewrite (right_id_L [] (++)) in Hd. Qed.

Lemma NewTOC_spec pre t : toc_ok t → NewTOCFromByteSlice (pre ++ toc_bytes t ++ PutBE32 (Crc32 (toc_bytes t))) = Ret (toc_read t).
Proof.
  intros (h1 & h2 & h3 & h4 & h5 & h6 & h7). unfold NewTOCFromByteSlice, indexTOCLen. pose proof (toc_bytes_len t) as Hl.
  set (tail := toc_bytes t ++ PutBE32 (Crc32 (toc_bytes t))). assert (Htl : length tail = 76) by (unfold tail; rewrite length_app, Hl, be32_len; done).
  rewrite length_app, Htl. rewrite (proj2 (Nat.ltb_ge _ _)) by lia. replace (length pre + 76 - (8 * 9 + 4)) with (length pre) by lia.
  rewrite drop_app_length, Htl. change (76 - 4) with 72. unfold tail. rewrite <- Hl, take_app_length, drop_app_length.
  rewrite <- (right_id_L [] (++) (PutBE32 (Crc32 (toc_bytes t)))), be32_of by apply crc_lt. rewrite N.eqb_refl. cbn [negb].
  unfold d_Be64int64, max_size, max_uint32 in *. unfold toc_bytes at 1. do 7 (rewrite d_Be64_put by lia).
  rewrite d_Be64_put by apply u64_of_lt. by rewrite d_Be64_end by apply u64_of_lt.
Qed.

(** Folding a callback over the entries of the table, at their positions. *)
Fixpoint offset_fold {S : Type} (f : list string → N → N → S → outcome S) (pos : nat) (es : list (string * string * N)) (s : S) : outcome S :=
  match es with
  | [] => Ret s
  | e :: es => obind (f [e.1.1; e.1.2] e.2 (N.of_nat pos) s) (offset_fold f (pos + length (po_entry e)) es)
  end.

Lemma offset_loop_spec {S : Type} (f : list string → N → N → S → outcome S) startLen es : Forall entry_ok es → ∀ pos s,
  pos + length (concat (po_entry <$> es)) = startLen →
  offset_loop (length es) startLen f (DecWith (concat (po_entry <$> es))) s = offset_fold f pos es s.
Proof.
  induction 1 as [|e es He _ IH]; intros pos s Hp; [done|]. rewrite fmap_cons, concat_cons in Hp |- *. rewrite length_app in Hp.
  cbn [length offset_loop db_E DecWith offset_fold]. unfold d_Len. cbn [db_B DecWith]. rewrite length_app.
  pose proof (po_entries_len [e]) as Hl. simpl in Hl. rewrite (right_id_L [] (++)) in Hl. rewrite (proj2 (Nat.eqb_neq _ 0)) by lia.
  destruct (po_entry_read e (concat (po_entry <$> es)) He) as (-> & H1 & H2 & H3). change (N.to_nat 2) with 2. cbn [read_keys]. rewrite H1, H2, H3. cbn [db_E DecWith].
  replace (startLen - (length (po_entry e) + length (concat (po_entry <$> es)))) with pos by lia. destruct (f _ _ _ s) as [s'| |]; [|done..]. apply IH. lia.
Qed.

Lemma ReadOffsetTable_spec {S : Type} (f : list string → N → N → S → outcome S) pre es post s :
  Forall entry_ok es → (N.of_nat (length (po_table es)) < 2 ^ 32)%N →
  ReadOffsetTable (pre ++ section_bytes (po_table es) ++ post) (N.of_nat (length pre)) f s = offset_fold f 4 es s.
Proof.
  intros Hes Hl. unfold ReadOffsetTable, NewDecbufAt, section_bytes. rewrite <- !(assoc_L (++)), section_get by done.
  unfold po_table, d_Len in *. cbn [db_B DecWith]. rewrite length_app, be32_len in *. pose proof (po_entries_len es).
  rewrite d_Be32_put by lia. rewrite Nat2N.id. by apply offset_loop_spec.
Qed.

Lemma fp_offsets_loop_spec fps : Forall (λ x : N * N, x.1 < 2 ^ 64 ∧ x.2 < 2 ^ 64)%N fps → ∀ res,
  fp_offsets_loop (length fps) (DecWith (concat ((λ x : N * N, PutBE64 x.1 ++ PutBE64 x.2) <$> fps))) res = Ret (res ++ fps).
Proof.
  induction 1 as [|x fps [H1 H2] _ IH]; intros res; [simpl; by rewrite (right_id_L [] (++))|]. rewrite fmap_cons, concat_cons, <- (assoc_L (++)).
  cbn [length fp_offsets_loop db_E DecWith]. unfold d_Len. cbn [db_B DecWith]. rewrite length_app, be64_len. cbn [Nat.eqb plus].
  rewrite d_Be64_put by done. rewrite d_Be64_put by done. rewrite IH, <- (assoc_L (++)). by destruct x.
Qed.

Lemma readFingerprintOffsetsTable_spec pre fps post :
  Forall (λ x : N * N, x.1 < 2 ^ 64 ∧ x.2 < 2 ^ 64)%N fps → (N.of_nat (length (fp_table fps)) < 2 ^ 32)%N →
  readFingerprintOffsetsTable (pre ++ section_bytes (fp_table fps) ++ post) (N.of_nat (length pre)) = Ret fps.
Proof.
  intros Hf Hl. unfold readFingerprintOffsetsTable, NewDecbufAt, section_bytes. rewrite <- !(assoc_L (++)), section_get by done.
  pose proof Hl as Hl'. rewrite fp_table_len in Hl'. unfold fp_table. rewrite d_Be32_put by lia. rewrite Nat2N.id. by apply fp_offsets_loop_spec.
Qed.

(** The names under which the reader samples. *)
Definition known (n : string) : Prop := n = "" ∨ n ∈ syms.
Definition sampled_ok (s : sampling) : Prop :=
  (∀ n l, sm_postings s !! n = Some l → known n) ∧ (∀ n v, sm_last s = Some (n, v) → known n).

Lemma push_known m n o : (∀ n l, m !! n = Some l → known n) → known n → ∀ k l, push m n o !! k = Some l → known k.
Proof. unfold push. intros Hm Hn k l [[<- _]|[_ Hk]]%lookup_insert_Some; [done|by eapply Hm]. Qed.

Lemma push_last_known s : sampled_ok s → ∀ k l, push_last s !! k = Some l → known k.
Proof.
  intros [Hm Hl]. unfold push_last. destruct (sm_last s) as [[n v]|] eqn:E; [|done]. apply push_known; [done|by eapply Hl].
Qed.

Lemma read_v2_entry_ok s n v o pos : sampled_ok s → known n → ∃ s', read_v2_entry [n; v] o pos s = Ret s' ∧ sampled_ok s'.
Proof.
  intros Hs Hn. unfold read_v2_entry.
  set (s1 := match sm_postings s !! n with Some _ => s | None => _ end). assert (Hs1 : sampled_ok s1).
  { unfold s1. destruct (sm_postings s !! n); [done|]. split; simpl; [|done]. apply push_last_known. destruct Hs as [Hm Hl]. split; simpl; [|done].
    intros k l [[<- _]|[_ Hk]]%lookup_insert_Some; [done|by eapply Hm]. }
  destruct Hs1 as [Hm Hl]. destruct (_ =? 0)%nat; (eexists; split; [done|]); split; simpl; [by apply push_known|done|done|by intros ? ? [= <- <-]].
Qed.

Lemma offset_fold_ok es : Forall entry_ok es → ∀ pos s, sampled_ok s → ∃ s', offset_fold read_v2_entry pos es s = Ret s' ∧ sampled_ok s'.
Proof.
  induction 1 as [|e es He _ IH]; intros pos s Hs; cbn [offset_fold]; [by exists s|].
  destruct (read_v2_entry_ok s e.1.1 e.1.2 e.2 (N.of_nat pos) Hs) as (s1 & -> & Hs1); [by destruct He|]. by apply IH.
Qed.

Lemma name_symbols_ok s names : table_ok syms s → Forall known names → ∀ m, (∀ o n, m !! o = Some n → syms !! N.to_nat o = Some n) →
  ∃ m', name_symbols s names m = Ret m' ∧ ∀ o n, m' !! o = Some n → syms !! N.to_nat o = Some n.
Proof.
  intros Htab. induction 1 as [|n names Hn _ IH]; intros m Hm; simpl; [by exists m|].
  destruct (Nat.eqb_spec (String.length n) 0) as [E|E]; [by apply IH|]. destruct Hn as [->|Hn]; [done|].
  rewrite (reverse_no syms) by done. simpl. apply IH. intros o x [[<- <-]|[_ Ho]]%lookup_insert_Some; [by apply sym_no_spec|by apply Hm].
Qed.

(** What the opened reader has. *)
Record opened (f : bytes) (fps : list (N * N)) (r : Reader) : Prop := {
  op_b : r_b r = f;
  op_version : r_version r = FormatV2;
  op_symbols : table_ok syms (r_symbols r);
  op_names : ∀ o n, r_nameSymbols r !! o = Some n → syms !! N.to_nat o = Some n;
  op_fps : r_fingerprintOffsets r = fps }.

Lemma NewReader_ok x f es fps t :
  finished (header ++ sym_section syms ++ x) f es fps t → t_Symbols t = N.of_nat (length header) →
  Forall (λ x : N * N, x.1 < 2 ^ 64 ∧ x.2 < 2 ^ 64)%N fps → ∃ r, NewReader f = Ret r ∧ opened f fps r.
Proof.
  intros [(mid & Hf & Hpo & Hfp) Hlpo Hes Hlfp Htoc] Hsyms Hfps.
  assert (Hhd : ∃ rest, f = header ++ sym_section syms ++ rest) by (rewrite Hf, <- !(assoc_L (++)); by eexists). destruct Hhd as [rest Hhd].
  assert (Hh5 : length header = 5) by (unfold header; by rewrite length_app, be32_len, byte_put).
  unfold NewReader. rewrite (proj2 (Nat.ltb_ge _ _)) by (rewrite Hhd, length_app; lia).
  assert (of_be32 f = MagicIndex) as -> by (rewrite Hhd; unfold header; rewrite <- !(assoc_L (++)); by apply be32_of).
  assert (f !! 4 = Some FormatV2) as ->.
  { rewrite Hhd. unfold header. rewrite lookup_app_l by (rewrite length_app, be32_len, byte_put; simpl; lia).
    rewrite lookup_app_r by (rewrite be32_len; lia). by rewrite be32_len, byte_put. }
  rewrite N.eqb_refl. change (default 0%N (Some FormatV2)) with FormatV2. change (FormatV2 =? FormatV1)%N with false.
  change (FormatV2 =? FormatV2)%N with true. cbn [negb orb].
  assert (NewTOCFromByteSlice f = Ret (toc_read t)) as ->. { rewrite Hf, !(assoc_L (++)), <- (assoc_L (++) _ (toc_bytes t)). by apply NewTOC_spec. }
  cbn [obind toc_read t_Symbols t_PostingsTable t_FingerprintOffsets]. rewrite Hsyms, Hpo, Hfp.
  destruct (NewSymbols_spec syms header rest Hfit) as (s & Hnew & Htab). rewrite <- Hhd in Hnew. rewrite Hnew. cbn [obind].
  destruct (offset_fold_ok es Hes 4 (mkSampling ∅ None 0 0)) as (sm & Hfold & Hsm); [by split|].
  assert (Hread : ReadOffsetTable f (N.of_nat (length ((header ++ sym_section syms ++ x) ++ mid))) read_v2_entry (mkSampling ∅ None 0 0) = Ret sm)
    by (rewrite Hf, ReadOffsetTable_spec by done; done).
  rewrite Hread. cbn [obind]. destruct (name_symbols_ok s (map_to_list (push_last sm)).*1 Htab) with (m := ∅ : gmap N string) as (ns & -> & Hns).
  { apply Forall_forall. intros k Hk. apply list_elem_of_fmap in Hk as ([k' l] & -> & Hk%elem_of_map_to_list). by eapply push_last_known. }
  { done. }
  cbn [obind]. assert (readFingerprintOffsetsTable f (N.of_nat (length (((header ++ sym_section syms ++ x) ++ mid) ++ section_bytes (po_table es)))) = Ret fps) as ->.
  { rewrite Hf, (assoc_L (++) _ (section_bytes (po_table es))). by apply readFingerprintOffsetsTable_spec. }
  cbn [obind]. eexists. split; [done|]. by split.
Qed.
(** ** Series *)

Definition series_ok (x : series_in) : Prop :=
  let '(_, lset, fp, cs) := x in
  in_syms syms lset ∧ (fp < 2 ^ 64)%N ∧ Forall chunk_ok cs ∧ (N.of_nat (length (series_body syms lset fp cs)) < 2 ^ 32)%N.

Definition write_series (w : Writer) (l : list series_in) : outcome Writer :=
  foldl (λ o (x : series_in), let '(ref, lset, fp, cs) := x in obind o (λ w, AddSeries None w ref lset fp cs)) (Ret w) l.

(** The series is in the file at [16 * id]. *)
Definition series_at (f : bytes) (x : series_in) (id : N) : Prop :=
  let '(_, lset, fp, cs) := x in
  ∃ pre post, f = pre ++ series_entry syms lset fp cs ++ post ∧ N.of_nat (length pre) = (16 * id)%N ∧ (16 * id ≤ max_size)%N.

Lemma series_at_prefix f f' x id : f `prefix_of` f' → series_at f x id → series_at f' x id.
Proof.
  intros [k ->]. destruct x as [[[ref lset] fp] cs]. intros (pre & post & -> & Hl & Hm). exists pre, (post ++ k).
  by rewrite <- !(assoc_L (++)).
Qed.

Lemma write_series_fail l : ∀ w' o, (∀ w, o ≠ Ret w) →
  foldl (λ o (x : series_in), let '(ref, lset, fp, cs) := x in obind o (λ w, AddSeries None w ref lset fp cs)) o l ≠ Ret w'.
Proof.
  induction l as [|[[[ref lset] fp] cs] l IH]; intros w' o Ho; simpl; [apply Ho|]. apply IH. intros w (w1 & Hw1 & _)%obind_ret. by apply (Ho w1).
Qed.

Lemma write_series_cons w ref lset fp cs l : write_series w ((ref, lset, fp, cs) :: l) = obind (AddSeries None w ref lset fp cs) (λ w, write_series w l).
Proof.
  unfold write_series at 1. simpl. destruct (AddSeries None w ref lset fp cs) as [w1|e|]; [done|..]; simpl.
  - clear. induction l as [|[[[ref lset] fp] cs] l IH]; [done|apply IH].
  - clear. induction l as [|[[[ref lset] fp] cs] l IH]; [done|apply IH].
Qed.

(** Each added series has its place, in the order in which they are added. *)
Lemma write_series_inv l : ∀ n w w', write_series w l = Ret w' → ser_writer syms n w → Forall series_ok l →
  ∃ ids, Forall2 (series_at (w_f w')) l ids ∧ StronglySorted N.lt ids ∧ Forall (λ id, fw_Pos (w_f w) ≤ 16 * id)%N ids ∧
    w_f w `prefix_of` w_f w' ∧ ser_writer syms (n + length l) w'.
Proof.
  induction l as [|[[[ref lset] fp] cs] l IH]; intros n w w' Hw Hser Hl.
  - injection Hw as <-. exists []. split_and!; [done|constructor|done|done|by rewrite Nat.add_0_r].
  - rewrite write_series_cons in Hw. apply obind_ret in Hw as (w1 & Hadd & Hw). apply Forall_cons in Hl as [(Hin & Hfp & Hcs & _) Hl].
    destruct (AddSeries_inv syms Hfit Hsort _ _ _ _ _ _ _ Hadd Hser Hin Hfp) as (k & Hf & Hmod & Hser1).
    destruct (IH _ _ _ Hw Hser1 Hl) as (ids & Hat & Hids & Hge & Hpre & Hser'). pose proof (rw_size _ _ _ Hser1) as Hsize.
    set (pos := N.of_nat (length (w_f w ++ replicate k 0%N))) in *. assert (Hpos : pos = (16 * (pos / 16))%N).
    { pose proof (N.div_mod pos 16 ltac:(done)) as Hdm. rewrite Hmod in Hdm. lia. }
    assert (Hlen : (fw_Pos (w_f w1) = pos + N.of_nat (length (series_entry syms lset fp cs)))%N).
    { unfold fw_Pos, pos. rewrite Hf, !length_app. lia. }
    assert (Hent : 0 < length (series_entry syms lset fp cs)) by (unfold series_entry; rewrite !length_app, be32_len; lia).
    assert (Hge0 : (fw_Pos (w_f w) ≤ pos)%N) by (unfold fw_Pos, pos; rewrite length_app; lia).
    exists ((pos / 16)%N :: ids). split_and!.
    + constructor; [|done]. apply (series_at_prefix (w_f w1)); [done|]. exists (w_f w ++ replicate k 0%N), [].
      rewrite Hf, (right_id_L [] (++)), <- !(assoc_L (++)). split_and!; [done| |]; unfold pos in *; lia.
    + constructor; [done|]. eapply Forall_impl; [exact Hge|]. simpl. intros id Hid. lia.
    + constructor; [by rewrite <- Hpos|]. eapply Forall_impl; [exact Hge|]. simpl. intros id Hid. lia.
    + etrans; [|exact Hpre]. rewrite Hf. by eexists.
    + simpl. by rewrite Nat.add_succ_r.
Qed.

(** Reading a series at its place. *)
Lemma r_Series_at f fps r ref lset fp cs id : opened f fps r → series_at f (ref, lset, fp, cs) id → series_ok (ref, lset, fp, cs) →
  r_Series r id = Ret (if (length cs =? 0)%nat then 0%N else fp, lset, cs).
Proof.
  intros [Hb Hv Htab Hns _] (pre & post & Hf & Hl & Hmax) (Hin & Hfp & Hcs & Hlen). unfold r_Series, series_offset. rewrite Hv. simpl.
  unfold NewDecbufUvarintAt. rewrite Hb, Hf. rewrite u64_small by (unfold max_size, max_uint32 in Hmax; lia).
  replace (id * 16)%N with (N.of_nat (length pre)) by lia. unfold series_entry. rewrite <- !(assoc_L (++)). unfold PutUvarint.
  rewrite section_uvarint_get by done. cbn [db_E DecWith db_B]. pose proof (series_counts syms lset fp cs) as [Hl1 Hl2].
  apply (dec_Series_spec syms); [done| |done..|lia|lia]. intros i x Hx. unfold lookupSymbol.
  destruct (r_nameSymbols r !! i) as [y|] eqn:E; [apply Hns in E; congruence|by eapply SymLookup_spec].
Qed.

Lemma r_Series_all f0 f fps r l ids : opened f fps r → f0 `prefix_of` f → Forall2 (series_at f0) l ids → Forall series_ok l →
  Forall2 (λ (x : series_in) id, let '(_, lset, fp, cs) := x in r_Series r id = Ret (if (length cs =? 0)%nat then 0%N else fp, lset, cs)) l ids.
Proof.
  intros Hop Hpre. induction 1 as [|[[[ref lset] fp] cs] id l ids Hid _ IH]; intros Hl; constructor; apply Forall_cons in Hl as [Hx Hl].
  - eapply r_Series_at; [exact Hop| |exact Hx]. by eapply series_at_prefix.
  - by apply IH.
Qed.

(** The whole file: symbols, series, the rest. *)
Definition write_index (l : list series_in) : outcome Writer :=
  obind NewWriter (λ w, obind (add_symbols w syms) (λ w, obind (write_series w l) (Close None))).

Lemma ensure_S n w : ensure None (S n) w =
  if (stage_num (w_stage w) =? S n)%nat then Ret w
  else obind (if (stage_num (w_stage w) <? n)%nat then ensure None n w else Ret w) (λ w,
    if (S n <? stage_num (w_stage w))%nat then Fail stage_error
    else obind (enter_stage None w (stage_of (S n))) (λ w, Ret (set_stage w (stage_of (S n))))).
Proof. done. Qed.

Lemma write_series_start w w' l : ensureStage None w idxStageSeries = Ret w' → w_stage w' = idxStageSeries →
  obind (write_series w l) (Close None) = obind (write_series w' l) (Close None).
Proof.
  intros He Hs. destruct l as [|[[[ref lset] fp] cs] l].
  - unfold write_series, Close, ensureStage in *. simpl foldl. cbn [obind stage_num] in *. rewrite !(ensure_S 2), Hs. cbn [stage_num Nat.eqb Nat.ltb Nat.leb].
    destruct (w_stage w) eqn:E; cbn [stage_num Nat.eqb Nat.ltb Nat.leb]; [by rewrite He..| |].
    + rewrite (ensure_S 1), E in He. simpl in He. injection He as ->. done.
    + rewrite (ensure_S 1), E in He. simpl in He. by rewrite E in He.
  - rewrite !write_series_cons. f_equal. unfold AddSeries. rewrite He. by replace (ensureStage None w' idxStageSeries) with (Ret w') by (unfold ensureStage; simpl; by rewrite Hs).
Qed.
End Finished.

(** The reader opens what the writer closed, and finds the symbols and the series. *)
Lemma write_index_reads `{TsdbEncOk} (syms : list string) (l : list series_in) (w : Writer) :
  StronglySorted str_lt syms → fits syms → Forall (series_ok syms) l → (N.of_nat (length l) < 2 ^ 27)%N →
  write_index syms l = Ret w →
  ∃ r ids, NewReader (w_f w) = Ret r ∧ (∀ i x, syms !! N.to_nat i = Some x → lookupSymbol r i = Ret x) ∧ StronglySorted N.lt ids ∧
    Forall2 (λ (x : series_in) id, let '(_, lset, fp, cs) := x in r_Series r id = Ret (if (length cs =? 0)%nat then 0%N else fp, lset, cs)) l ids.
Proof.
  intros Hsort Hfit Hl Hsmall Hw. destruct (symbols_file syms Hsort Hfit) as (w0 & w1 & Hw0 & Hw1 & Hf & Hst & (Ht1 & Ht2 & HfP & HfPO & Hcnt & Hfps & Hn & Hc) & Hsy).
  unfold write_index in Hw. rewrite Hw0 in Hw. cbn [obind] in Hw. apply obind_ret in Hw1 as (wa & Ha & Hw1). rewrite Ha in Hw. cbn [obind] in Hw.
  rewrite (write_series_start wa w1) in Hw by done. apply obind_ret in Hw as (w2 & Hs & Hclose).
  assert (Hsize : (fw_Pos (w_f w1) ≤ max_size)%N).
  { unfold fw_Pos. rewrite Hf. unfold header, sym_section. rewrite !length_app, !be32_len, byte_put. destruct Hfit as [Hb _]. unfold max_size, max_uint32. simpl. lia. }
  destruct (write_series_inv syms Hfit Hsort l 0 w1 w2 Hs) as (ids & Hat & Hids & _ & Hpre & Hser); [|done|].
  { split; [done|done|by rewrite Hc|by rewrite Hn|exists []; by rewrite (right_id_L [] (++))|by rewrite Ht2|done|done|by rewrite Hfps]. }
  destruct (rw_file _ _ _ Hser) as [x Hx]. destruct (Close_inv syms Hfit _ _ _ Hclose Hser) as (es & t & Hfin & Hts); [done|].
  assert (Hpre2 : w_f w2 `prefix_of` w_f w) by (destruct Hfin as [(mid & -> & _) _ _ _ _]; rewrite <- !(assoc_L (++)); by eexists).
  rewrite Hx in Hfin. destruct (rw_fps _ _ _ Hser) as [Hfok _]. destruct (rw_toc _ _ _ Hser) as [Hts2 _].
  destruct (NewReader_ok syms Hfit Hsort x _ _ _ _ Hfin) as (r & Hr & Hop); [by rewrite Hts|done|].
  exists r, ids. split_and!; [done| |done|].
  - intros i y Hy. destruct Hop as [_ _ Htab Hns _]. unfold lookupSymbol. destruct (r_nameSymbols r !! i) as [z|] eqn:E; [apply Hns in E; congruence|by eapply SymLookup_spec].
  - eapply r_Series_all; [done..|exact Hop|exact Hpre2|exact Hat|exact Hl].
Qed.

(** C16: what is written is read.  When sorted symbols and any series over them (with 64-bit
    fingerprints, chunks in range and bodies under 4 GiB) are written and the writer closes,
    the reader opens the file: the table of contents, symbols, offset tables are found and
    checked; symbols resolve; and at increasing references, in the order of the calls, each series
    reads back with its labels, chunks and fingerprint (0 if it has no chunks). *)
Theorem index_series_roundtrip `{TsdbEncOk} (syms : list string) (l : list series_in) (w : Writer) :
  StronglySorted str_lt syms → fits syms → Forall (series_ok syms) l → (N.of_nat (length l) < 2 ^ 27)%N →
  write_index syms l = Ret w →
  ∃ r ids, NewReader (w_f w) = Ret r ∧ (∀ i x, syms !! N.to_nat i = Some x → lookupSymbol r i = Ret x) ∧ StronglySorted N.lt ids ∧
    Forall2 (λ (x : series_in) id, let '(_, lset, fp, cs) := x in r_Series r id = Ret (if (length cs =? 0)%nat then 0%N else fp, lset, cs)) l ids.
Proof. apply write_index_reads. Qed.

Definition example_series : list series_in :=
  [(0%N, [mkLabel "a" "x"], 5%N, [mkChunkMeta 7 (-3) 9 1 2; mkChunkMeta 8 10 20 1 3]);
   (1%N, [mkLabel "a" "y"; mkLabel "b" "x"], 6%N, [])].

Lemma index_series_roundtrip_witness :
  ∃ w r ids, write_index ["a"; "b"; "x"; "y"] example_series = Ret w ∧ NewReader (w_f w) = Ret r ∧
    Forall2 (λ (x : series_in) id, let '(_, lset, fp, cs) := x in r_Series r id = Ret (if (length cs =? 0)%nat then 0%N else fp, lset, cs)) example_series ids.
Proof.
  set (o := write_index ["a"; "b"; "x"; "y"] example_series). assert (Ho : match o with Ret _ => True | _ => False end) by (vm_compute; exact I).
  destruct o as [w|e|] eqn:E; [|destruct Ho..]. exists w.
  destruct (index_series_roundtrip ["a"; "b"; "x"; "y"] example_series w) as (r & ids & Hr & _ & _ & Hids); [| | | |exact E|].
  - repeat constructor.
  - split; [reflexivity|repeat constructor].
  - repeat constructor; vm_compute; reflexivity || discriminate.
  - reflexivity.
  - exists r, ids. split; [reflexivity|]. split; [exact Hr|exact Hids].
Defined.
