(* ===== verification/Chunks.v ===== *)
(** * Chunk references of a series (src/pkg/phlaredb/tsdb/index/chunk.go)

    The references are ordered by start, end and checksum; [Finalize] sorts them and drops
    those that repeat the one before. *)

From S2P Require Import Prelude Sorting IndexWriter.

(** ** Operations *)

Definition Bounds (c : list ChunkMeta) : Z * Z :=
  match c, last c with
  | c0 :: _, Some cl =>
      foldl (λ '(mint, maxt) chk,
        (if (mint >? c_MinTime chk)%Z then c_MinTime chk else mint, if (maxt <? c_MaxTime chk)%Z then c_MaxTime chk else maxt))
        (c_MinTime c0, c_MaxTime cl) c
  | _, _ => (0, 0)%Z
  end.

Definition Less (a b : ChunkMeta) : bool :=
  if negb (c_MinTime a =? c_MinTime b)%Z then (c_MinTime a <? c_MinTime b)%Z
  else if negb (c_MaxTime a =? c_MaxTime b)%Z then (c_MaxTime a <? c_MaxTime b)%Z
  else (c_Checksum a <? c_Checksum b)%N.

Definition same_chunk (x prior : ChunkMeta) : bool :=
  ((c_MinTime x =? c_MinTime prior)%Z && (c_MaxTime x =? c_MaxTime prior)%Z && (c_Checksum x =? c_Checksum prior)%N)%bool.

(** [c[lo:hi]]. *)
Definition reslice {A} (c : list A) (lo hi : nat) : list A := take (hi - lo) (drop lo c).

(** The loop from [i]; [start] is the index after the last duplicate. *)
Fixpoint dedupe (c : list ChunkMeta) (i : nat) (rest : list ChunkMeta) (prior : ChunkMeta) (start : nat) (res : list ChunkMeta) : nat * list ChunkMeta :=
  match rest with
  | [] => (start, res)
  | x :: rest =>
      if same_chunk x prior then dedupe c (S i) rest x (S i) (res ++ reslice c start i)
      else dedupe c (S i) rest x start res
  end.

Definition Finalize (c : list ChunkMeta) : list ChunkMeta :=
  let c := sort_slice Less c in
  match c with
  | [] => c
  | c0 :: rest =>
      let '(start, res) := dedupe c 1 rest c0 0 [] in
      match res with
      | [] => c
      | _ => res ++ drop start c
      end
  end.

(** ** Reference *)

(** The elements that do not repeat the one before. *)
Fixpoint uniq (prior : ChunkMeta) (l : list ChunkMeta) : list ChunkMeta :=
  match l with
  | [] => []
  | x :: l => if same_chunk x prior then uniq x l else x :: uniq x l
  end.

Definition chunk_key (c : ChunkMeta) : Z * Z * N := (c_MinTime c, c_MaxTime c, c_Checksum c).

Lemma same_chunk_key a b : same_chunk a b = true ↔ chunk_key a = chunk_key b.
Proof.
  unfold same_chunk, chunk_key. rewrite !andb_true_iff, !Z.eqb_eq, N.eqb_eq. split; [intros [[-> ->] ->]; done|intros [= -> -> ->]; done].
Qed.

(** The loop has copied what is kept before the last duplicate; the rest is [reslice c start i]. *)
Lemma dedupe_spec c : ∀ rest pre prior start res kept,
  c = pre ++ rest → start ≤ length pre → res ++ drop start pre = kept →
  let '(start', res') := dedupe c (length pre) rest prior start res in
  res' ++ drop start' c = kept ++ uniq prior rest ∧ (res' = [] → (res = [] ∧ start' = start) ∨ (drop start pre = [] ∧ res = [])).
Proof.
  induction rest as [|x rest IH]; intros pre prior start res kept Hc Hs Hk; simpl.
  - rewrite (right_id_L [] (++)) in Hc. subst. rewrite (right_id_L [] (++)). split; [done|]. by left.
  - replace (pre ++ x :: rest) with ((pre ++ [x]) ++ rest) in Hc by (by rewrite <- (assoc_L (++))).
    assert (Hlen : length (pre ++ [x]) = S (length pre)) by (rewrite length_app; simpl; lia).
    destruct (same_chunk x prior).
    + assert (Hsl : reslice c start (length pre) = drop start pre).
      { unfold reslice. rewrite Hc, <- (assoc_L (++)), drop_app_le by done. rewrite take_app_le by (rewrite length_drop; lia).
        by rewrite take_ge by (rewrite length_drop; lia). }
      rewrite Hsl. specialize (IH (pre ++ [x]) x (S (length pre)) (res ++ drop start pre) kept Hc). rewrite Hlen in IH.
      destruct (dedupe c (S (length pre)) rest x (S (length pre)) (res ++ drop start pre)) as [start' res'].
      destruct IH as [Heq Hnil]; [lia|rewrite (drop_ge (pre ++ [x])) by lia; by rewrite (right_id_L [] (++))|]. split; [done|].
      intros Hr. right. destruct (Hnil Hr) as [[Happ _]|[_ Happ]]; apply app_eq_nil in Happ as [-> ?]; done.
    + specialize (IH (pre ++ [x]) x start res (kept ++ [x]) Hc). rewrite Hlen in IH.
      destruct (dedupe c (S (length pre)) rest x start res) as [start' res'].
      destruct IH as [Heq Hnil]; [lia|rewrite drop_app_le by done; by rewrite (assoc_L (++)), Hk|]. split; [by rewrite Heq, <- (assoc_L (++))|].
      intros Hr. destruct (Hnil Hr) as [?|[Hd ?]]; [by left|]. rewrite drop_app_le in Hd by done. by apply app_eq_nil in Hd as [_ ?].
Qed.

Lemma Finalize_uniq c : Finalize c = match sort_slice Less c with [] => [] | c0 :: rest => c0 :: uniq c0 rest end.
Proof.
  unfold Finalize. destruct (sort_slice Less c) as [|c0 rest]; [done|].
  pose proof (dedupe_spec (c0 :: rest) rest [c0] c0 0 [] [c0] eq_refl (Nat.le_0_l _) eq_refl) as Hd. simpl length in Hd.
  destruct (dedupe (c0 :: rest) 1 rest c0 0 []) as [start res]. destruct Hd as [Heq Hnil]. destruct res as [|y res].
  - destruct (Hnil eq_refl) as [[_ ->]|[? _]]; done.
  - done.
Qed.

(** *** The order *)

Lemma Less_total a b : Less a b = false → Less b a = false → chunk_key a = chunk_key b.
Proof.
  unfold Less, chunk_key. destruct (Z.eqb_spec (c_MinTime a) (c_MinTime b)) as [E|E], (Z.eqb_spec (c_MinTime b) (c_MinTime a)); simpl; try lia.
  destruct (Z.eqb_spec (c_MaxTime a) (c_MaxTime b)) as [E2|E2], (Z.eqb_spec (c_MaxTime b) (c_MaxTime a)); simpl; try lia.
  intros ?%N.ltb_ge ?%N.ltb_ge. assert (c_Checksum a = c_Checksum b) by lia. congruence.
Qed.

Lemma Less_asym a b : Less a b = true → Less b a = false.
Proof.
  unfold Less. destruct (Z.eqb_spec (c_MinTime a) (c_MinTime b)), (Z.eqb_spec (c_MinTime b) (c_MinTime a)); simpl; try lia.
  destruct (Z.eqb_spec (c_MaxTime a) (c_MaxTime b)), (Z.eqb_spec (c_MaxTime b) (c_MaxTime a)); simpl; try lia.
  rewrite N.ltb_lt, N.ltb_ge. lia.
Qed.

Lemma not_Less_trans a b c : Less b a = false → Less c b = false → Less c a = false.
Proof.
  unfold Less. repeat match goal with |- context [(?x =? ?y)%Z] => destruct (Z.eqb_spec x y); simpl end; try lia.
  rewrite !N.ltb_ge. lia.
Qed.

Lemma uniq_sorted prior l : StronglySorted (λ a b, Less b a = false) (prior :: l) → StronglySorted (λ a b, Less a b = true) (prior :: uniq prior l).
Proof.
  revert prior. induction l as [|x l IH]; intros prior Hs; simpl; [repeat constructor|].
  apply StronglySorted_inv in Hs as [Hs Hp]. apply Forall_cons in Hp as [Hx Hp]. destruct (same_chunk x prior) eqn:E.
  - apply same_chunk_key in E. specialize (IH _ Hs). apply StronglySorted_inv in IH as [IH1 IH2]. constructor; [done|].
    eapply Forall_impl; [exact IH2|]. simpl. intros y. unfold Less. unfold chunk_key in E. injection E as -> -> ->. done.
  - specialize (IH _ Hs). constructor; [done|]. assert (Hlt : Less prior x = true).
    { destruct (Less prior x) eqn:El; [done|]. pose proof (Less_total _ _ Hx El) as Hk. apply same_chunk_key in Hk. congruence. }
    constructor; [done|]. apply StronglySorted_inv in IH as [_ IH]. eapply Forall_impl; [exact IH|]. simpl. intros y Hy.
    destruct (Less prior y) eqn:Ey; [done|]. pose proof (Less_asym _ _ Hy) as Hy'. 
    pose proof (not_Less_trans _ _ _ Hy' Ey). congruence.
Qed.

Lemma uniq_keys prior l k : k ∈ chunk_key <$> (prior :: uniq prior l) ↔ k ∈ chunk_key <$> (prior :: l).
Proof.
  revert prior. induction l as [|x l IH]; intros prior; [done|]. cbn [uniq]. destruct (same_chunk x prior) eqn:E.
  - apply same_chunk_key in E. specialize (IH x). rewrite !fmap_cons in IH |- *. rewrite <- E. cbn [list_fmap fmap] in *. rewrite !elem_of_cons in *. tauto.
  - specialize (IH x). rewrite !fmap_cons in IH |- *. cbn [list_fmap fmap] in *. rewrite !elem_of_cons in *. tauto.
Qed.

(** Finalised chunk references are strictly increasing by (start, end, checksum), hence without
    duplicates, all of the input, and no key of the input is lost. *)
Theorem Finalize_spec (c : list ChunkMeta) :
  StronglySorted (λ a b, Less a b = true) (Finalize c) ∧ (∀ x, x ∈ Finalize c → x ∈ c) ∧
  (∀ x, x ∈ c → ∃ y, y ∈ Finalize c ∧ chunk_key y = chunk_key x).
Proof.
  rewrite Finalize_uniq. pose proof (sort_slice_perm Less c) as Hp.
  pose proof (sort_slice_sorted Less not_Less_trans Less_asym c) as Hs. destruct (sort_slice Less c) as [|c0 rest].
  - split_and!; [constructor|set_solver|]. intros x. rewrite <- Hp. set_solver.
  - split_and!; [by apply uniq_sorted| |].
    + intros x. rewrite <- Hp. clear. revert c0. induction rest as [|y rest IH]; intros c0; [done|]. cbn [uniq]. specialize (IH y).
      destruct (same_chunk y c0); set_solver.
    + intros x. rewrite <- Hp. intros Hx. pose proof (uniq_keys c0 rest (chunk_key x)) as [_ Hk].
      destruct (proj1 (list_elem_of_fmap _ _ _) (Hk (proj2 (list_elem_of_fmap _ _ _) (ex_intro _ x (conj eq_refl Hx))))) as (y & Hy & Hin). by exists y.
Qed.
