(* ===== verification/Tree.v ===== *)
(** * Trees of stack traces (src/pkg/querier/tree.go)

    The querier sums stack traces in a tree whose nodes are function names.  Nodes own their
    children; the parent pointers are only followed upwards to the root, which is the path on
    which a node was found.  Values are 64-bit. *)

From S2P Require Import Prelude.

(** ** Data *)

Inductive node := Node (name : string) (self total : Z) (children : list node).

Definition n_name (n : node) : string := match n with Node x _ _ _ => x end.
Definition n_self (n : node) : Z := match n with Node _ s _ _ => s end.
Definition n_total (n : node) : Z := match n with Node _ _ t _ => t end.
Definition n_children (n : node) : list node := match n with Node _ _ _ c => c end.

(** A tree is its roots. *)
Abbreviation tree := (list node) (only parsing).

Record stacktraces := mkStack { st_locations : list string; st_value : Z }.

(** ** Operations *)

Definition emptyTree : tree := [].

(** A stack is listed from the leaf; the parents are wrapped around it. *)
Definition stackToTree (stack : stacktraces) : tree :=
  match st_locations stack with
  | [] => emptyTree
  | l0 :: remaining =>
      [foldl (λ current name, Node name 0 (n_total current) [current]) (Node l0 (st_value stack) (st_value stack) []) remaining]
  end.

(** Down a list of siblings to the one of that name, which [here] ends or continues. *)
Fixpoint scan_for {A} (name : string) (here : nat → node → A) (none : A) (i : nat) (remaining : list node) : A :=
  match remaining with
  | [] => none
  | n :: rest => if String.eqb (n_name n) name then here i n else scan_for name here none (S i) rest
  end.

(** The path to the node found, or to the last common parent, and what remains to be merged. *)
Fixpoint findNodeOrParent (root : list node) (new : node) {struct new} : list nat * bool * node :=
  scan_for (n_name new)
    (λ i n,
      match n_children new with
      | [] => ([i], true, new)
      | c :: _ => let '(path, found, toMerge) := findNodeOrParent (n_children n) c in (i :: path, found, toMerge)
      end)
    ([], false, new) 0 root.

(** [f] at the end of the path, [up] on the nodes above it. *)
Fixpoint at_path (up f : node → node) (path : list nat) (l : list node) : list node :=
  match path with
  | [] => l
  | [i] => alter f i l
  | i :: path =>
      alter (λ n, up (Node (n_name n) (n_self n) (n_total n) (at_path up f path (n_children n)))) i l
  end.

Definition add_total (v : Z) (n : node) : node := Node (n_name n) (n_self n) (i64 (n_total n + v)) (n_children n).

Definition merge_node (dst : tree) (rootNode : node) : tree :=
  let '(path, found, toMerge) := findNodeOrParent dst rootNode in
  if found then
    at_path (add_total (n_total toMerge))
      (λ n, Node (n_name n) (i64 (n_self n + n_self toMerge)) (i64 (n_total n + n_self toMerge)) (n_children n)) path dst
  else
    match path with
    | [] => dst ++ [toMerge]
    | _ =>
        at_path (add_total (n_total toMerge))
          (λ n, add_total (n_total toMerge) (Node (n_name n) (n_self n) (n_total n) (n_children n ++ [toMerge]))) path dst
    end.

Definition mergeTree (dst src : tree) : tree := foldl merge_node dst src.

(** The tree is never nil, so every stack is merged. *)
Definition newTree (stacks : list stacktraces) : tree :=
  foldl (λ t stack, if (st_value stack =? 0)%Z then t else mergeTree t (stackToTree stack)) emptyTree stacks.

Definition tree_Add (t : tree) (name : string) (self total : Z) : tree := t ++ [Node name self total []].
Definition node_Add (n : node) (name : string) (self total : Z) : node :=
  Node (n_name n) (n_self n) (n_total n) (n_children n ++ [Node name self total []]).

Example newTree_example :
  newTree [mkStack ["blip"; "buz"; "bar"] 1; mkStack ["blap"; "blop"; "buz"; "bar"] 2; mkStack ["buz"; "bar"] 4] =
  [Node "bar" 0 7 [Node "buz" 4 7 [Node "blip" 1 1 []; Node "blop" 0 2 [Node "blap" 2 2 []]]]].
Proof. reflexivity. Qed.

(** ** Insertion of one stack *)

(** A stack from the root. *)
Fixpoint chain (x : string) (q : list string) (v : Z) : node :=
  match q with
  | [] => Node x v v []
  | y :: q => Node x 0 v [chain y q v]
  end.

Lemma chain_snoc q x y v : Node x 0 (n_total (chain y q v)) [chain y q v] = chain x (y :: q) v.
Proof. simpl. f_equal. by destruct q. Qed.

Lemma stackToTree_chain s : stackToTree s = match rev (st_locations s) with [] => [] | x :: q => [chain x q (st_value s)] end.
Proof.
  unfold stackToTree. destruct (st_locations s) as [|l0 l]; [done|]. set (v := st_value s).
  enough (∀ x q, [foldl (λ current name, Node name 0 (n_total current) [current]) (chain x q v) l] =
    match rev l ++ x :: q with [] => [] | y :: r => [chain y r v] end) as Hg by (change (Node l0 v v []) with (chain l0 [] v); by rewrite Hg).
  induction l as [|y l IH]; intros x q; [done|]. simpl foldl. rewrite chain_snoc, IH. simpl. by rewrite <- (assoc_L (++)).
Qed.

(** The first sibling of that name is changed, or a new one appended. *)
Fixpoint insert_for (name : string) (f : node → node) (new : node) (l : list node) : list node :=
  match l with
  | [] => [new]
  | n :: rest => if String.eqb (n_name n) name then f n :: rest else n :: insert_for name f new rest
  end.

(** The reference: descend while there is a child of that name. *)
Fixpoint insert (x : string) (q : list string) (v : Z) (l : list node) {struct q} : list node :=
  insert_for x
    (λ n, match q with
          | [] => Node (n_name n) (i64 (n_self n + v)) (i64 (n_total n + v)) (n_children n)
          | y :: q => Node (n_name n) (n_self n) (i64 (n_total n + v)) (insert y q v (n_children n))
          end)
    (chain x q v) l.

Lemma chain_total x q v : n_total (chain x q v) = v.
Proof. by destruct q. Qed.
Lemma chain_name x q v : n_name (chain x q v) = x.
Proof. by destruct q. Qed.
Lemma chain_children x y q v : n_children (chain x (y :: q) v) = [chain y q v].
Proof. done. Qed.

(** What [merge_node] does with the result of the search. *)
Definition merge_at (r : list nat * bool * node) (dst : tree) : tree :=
  let '(path, found, toMerge) := r in
  if found then
    at_path (add_total (n_total toMerge))
      (λ n, Node (n_name n) (i64 (n_self n + n_self toMerge)) (i64 (n_total n + n_self toMerge)) (n_children n)) path dst
  else
    match path with
    | [] => dst ++ [toMerge]
    | _ =>
        at_path (add_total (n_total toMerge))
          (λ n, add_total (n_total toMerge) (Node (n_name n) (n_self n) (n_total n) (n_children n ++ [toMerge]))) path dst
    end.

Lemma alter_app_length (f : node → node) pre n l : alter f (length pre) (pre ++ n :: l) = pre ++ f n :: l.
Proof. by rewrite alter_app_r_alt, Nat.sub_diag by lia. Qed.

(** A search below index [i] changes that node only. *)
Definition nested (i : nat) (r : list nat * bool * node) : list nat * bool * node :=
  let '(path, found, toMerge) := r in (i :: path, found, toMerge).

Lemma merge_at_nested i r l :
  merge_at (nested i r) l = alter (λ n, Node (n_name n) (n_self n) (i64 (n_total n + n_total r.2)) (merge_at r (n_children n))) i l ∨
  r.1 = ([], true).
Proof.
  destruct r as [[path found] m]. unfold merge_at, nested. simpl. destruct found.
  - destruct path as [|j path]; [by right|]. left. done.
  - left. destruct path as [|j path]; done.
Qed.

Lemma scan_for_app {A} name (here : nat → node → A) none l : ∀ i pre,
  (∀ n, n ∈ pre → n_name n ≠ name) → scan_for name here none i (pre ++ l) = scan_for name here none (i + length pre) l.
Proof.
  intros i pre. revert i. induction pre as [|n pre IH]; intros i Hn; simpl; [by rewrite Nat.add_0_r|].
  destruct (String.eqb_spec (n_name n) name) as [E|]; [by destruct (Hn n ltac:(set_solver))|].
  rewrite IH by set_solver. f_equal. lia.
Qed.

Lemma insert_for_app name f new l pre : (∀ n, n ∈ pre → n_name n ≠ name) → insert_for name f new (pre ++ l) = pre ++ insert_for name f new l.
Proof.
  induction pre as [|n pre IH]; intros Hn; [done|]. simpl.
  destruct (String.eqb_spec (n_name n) name) as [E|]; [by destruct (Hn n ltac:(set_solver))|]. rewrite IH by set_solver. done.
Qed.

(** The siblings before the first of a name. *)
Lemma split_name name (l : list node) :
  (∀ n, n ∈ l → n_name n ≠ name) ∨ ∃ pre n rest, l = pre ++ n :: rest ∧ n_name n = name ∧ (∀ n, n ∈ pre → n_name n ≠ name).
Proof.
  induction l as [|n l IH]; [left; set_solver|]. destruct (decide (n_name n = name)) as [E|E].
  - right. exists [], n, l. split_and!; [done|done|set_solver].
  - destruct IH as [IH|(pre & m & rest & -> & Hm & Hpre)]; [left; set_solver|]. right. exists (n :: pre), m, rest. split_and!; [done|done|set_solver].
Qed.

Lemma find_total q v : ∀ x l, n_total (findNodeOrParent l (chain x q v)).2 = v.
Proof.
  induction q as [|y q IH]; intros x l; cbn [findNodeOrParent chain n_name n_children].
  - generalize 0. induction l as [|n l IHl]; intros i; simpl; [done|]. destruct (String.eqb _ _); [done|apply IHl].
  - generalize 0. induction l as [|n l IHl]; intros i; simpl; [done|]. destruct (String.eqb _ _); [|apply IHl].
    specialize (IH y (n_children n)). destruct (findNodeOrParent (n_children n) (chain y q v)) as [[path found] m]. done.
Qed.

Lemma find_path q v : ∀ x l, (findNodeOrParent l (chain x q v)).1 ≠ ([], true).
Proof.
  intros x l. destruct q as [|y q]; cbn [findNodeOrParent chain n_name n_children]; generalize 0.
  - induction l as [|n l IHl]; intros i; simpl; [done|]. destruct (String.eqb _ _); [done|apply IHl].
  - induction l as [|n l IHl]; intros i; simpl; [done|]. destruct (String.eqb _ _); [|apply IHl].
    by destruct (findNodeOrParent (n_children n) (chain y q v)) as [[path found] m].
Qed.

(** Merging a stack is inserting it. *)
Lemma merge_chain q v : ∀ x l, merge_node l (chain x q v) = insert x q v l.
Proof.
  intros x l. change (merge_node l (chain x q v)) with (merge_at (findNodeOrParent l (chain x q v)) l). revert x l.
  induction q as [|y q IH]; intros x l; cbn [findNodeOrParent chain n_name n_children insert]; destruct (split_name x l) as [Hl|(pre & n & rest & -> & Hn & Hpre)].
  - rewrite <- (right_id_L [] (++) l) at 1 3. rewrite scan_for_app, insert_for_app by done. done.
  - rewrite scan_for_app, insert_for_app by done. simpl. rewrite Hn, String.eqb_refl. simpl. by rewrite alter_app_length, Hn.
  - rewrite <- (right_id_L [] (++) l) at 1 3. rewrite scan_for_app, insert_for_app by done. done.
  - rewrite scan_for_app, insert_for_app by done. simpl. rewrite Hn, String.eqb_refl.
    specialize (IH y (n_children n)). pose proof (find_total q v y (n_children n)) as Ht. pose proof (find_path q v y (n_children n)) as Hp.
    set (r := findNodeOrParent (n_children n) (chain y q v)) in *. change (let '(path, found, toMerge) := r in (length pre :: path, found, toMerge)) with (nested (length pre) r).
    destruct (merge_at_nested (length pre) r (pre ++ n :: rest)) as [->|?]; [|done]. by rewrite alter_app_length, Ht, IH, Hn.
Qed.

(** ** What a tree says of a path *)

(** The node at a path of names from the root. *)
Fixpoint get (l : list node) (x : string) (q : list string) {struct q} : option node :=
  n ← snd <$> list_find (λ n, n_name n = x) l;
  match q with
  | [] => Some n
  | y :: q => get (n_children n) y q
  end.

Definition child (x : string) (l : list node) : option node := snd <$> list_find (λ n, n_name n = x) l.

Definition self_at (l : list node) (x : string) (q : list string) : Z := match get l x q with Some n => n_self n | None => 0 end.
Definition total_at (l : list node) (x : string) (q : list string) : Z := match get l x q with Some n => n_total n | None => 0 end.

Lemma get_child l x q : get l x q = n ← child x l; match q with [] => Some n | y :: q => get (n_children n) y q end.
Proof. by destruct q. Qed.

Lemma child_cons x n l : child x (n :: l) = if decide (n_name n = x) then Some n else child x l.
Proof.
  unfold child. simpl. destruct (decide (n_name n = x)); [done|]. by destruct (list_find _ l) as [[i m]|].
Qed.

Lemma child_name x l n : child x l = Some n → n_name n = x ∧ n ∈ l.
Proof.
  induction l as [|m l IH]; [done|]. rewrite child_cons. case_decide; [intros [= <-]; set_solver|]. intros [? ?]%IH. set_solver.
Qed.

Lemma child_insert_for x f new l z : (∀ n, n_name (f n) = n_name n) → n_name new = x →
  child z (insert_for x f new l) = if decide (z = x) then Some (match child x l with Some n => f n | None => new end) else child z l.
Proof.
  intros Hf Hnew. induction l as [|n l IH].
  - simpl. rewrite child_cons, Hnew. case_decide as E; case_decide; congruence.
  - simpl. destruct (String.eqb_spec (n_name n) x) as [E|E]; rewrite !child_cons, ?Hf.
    + destruct (decide (z = x)) as [->|Hz]; [by rewrite !decide_True|by rewrite !decide_False by congruence].
    + rewrite IH. case_decide as E1; case_decide as E2; try done; [congruence|]. by rewrite decide_False.
Qed.

Definition kids (x : string) (l : list node) : list node := match child x l with Some n => n_children n | None => [] end.

Lemma get_nil x q : get [] x q = None.
Proof. by destruct q. Qed.

Lemma get_here l x : get l x [] = child x l.
Proof. rewrite get_child. by destruct (child x l). Qed.

Lemma get_below l x w r : get l x (w :: r) = get (kids x l) w r.
Proof. rewrite get_child. unfold kids. destruct (child x l); [done|]. by rewrite get_nil. Qed.

Lemma child_insert x q v l z : child z (insert x q v l) =
  if decide (z = x) then
    Some (match child x l with
          | Some n =>
              match q with
              | [] => Node (n_name n) (i64 (n_self n + v)) (i64 (n_total n + v)) (n_children n)
              | y :: q => Node (n_name n) (n_self n) (i64 (n_total n + v)) (insert y q v (n_children n))
              end
          | None => chain x q v
          end)
  else child z l.
Proof. destruct q; cbn [insert]; by rewrite child_insert_for by (done || apply chain_name). Qed.

Lemma kids_insert x q v l : kids x (insert x q v l) = match q with [] => kids x l | y :: q => insert y q v (kids x l) end.
Proof.
  unfold kids. rewrite child_insert, decide_True by done. destruct (child x l); [by destruct q|]. destruct q as [|y q]; [done|]. by destruct q.
Qed.

Lemma kids_insert_ne x q v l z : z ≠ x → kids z (insert x q v l) = kids z l.
Proof. intros Hz. unfold kids. by rewrite child_insert, decide_False. Qed.

(** Both values at once, and which paths exist. *)
Definition inserted (v : Z) (x : string) (q : list string) (l : list node) (z : string) (r : list string) : Prop :=
  i64 (self_at (insert x q v l) z r) = i64 (self_at l z r + if decide (z :: r = x :: q) then v else 0) ∧
  i64 (total_at (insert x q v l) z r) = i64 (total_at l z r + if decide (z :: r `prefix_of` x :: q) then v else 0) ∧
  (is_Some (get (insert x q v l) z r) ↔ is_Some (get l z r) ∨ z :: r `prefix_of` x :: q).

Lemma inserted_other v x q l z r : z ≠ x → inserted v x q l z r.
Proof.
  intros Hz. assert (Hget : get (insert x q v l) z r = get l z r).
  { destruct r; rewrite ?get_here, ?get_below, ?kids_insert_ne by done; [|done]. by rewrite child_insert, decide_False. }
  unfold inserted, self_at, total_at. rewrite Hget, decide_False, decide_False by (congruence || by intros ?%prefix_cons_inv_1).
  rewrite !Z.add_0_r. split_and!; [done|done|]. split; [by left|]. by intros [?|?%prefix_cons_inv_1].
Qed.

Lemma get_insert v q : ∀ x l z r, inserted v x q l z r.
Proof.
  induction q as [|y q IH]; intros x l z r; (destruct (decide (z = x)) as [->|Hz]; [|by apply inserted_other]);
    destruct r as [|w r]; unfold inserted, self_at, total_at; rewrite ?get_here, ?get_below, ?kids_insert, ?child_insert.
  - rewrite !decide_True by done. destruct (child x l) as [n|]; simpl; rewrite ?i64_idem; split_and!; try done; (split; [by right|by eexists]).
  - assert (¬ x :: w :: r `prefix_of` [x]) by (intros ?%prefix_length; simpl in *; lia). rewrite !decide_False by done. rewrite !Z.add_0_r.
    split_and!; [done|done|]. split; [by left|by intros [?|?]].
  - rewrite (decide_True (P := x = x)) by done. rewrite decide_False, decide_True by (done || by apply prefix_cons, prefix_nil).
    destruct (child x l) as [n|]; simpl; rewrite ?i64_idem, ?Z.add_0_r; split_and!; try done; (split; [intros _; right; by apply prefix_cons, prefix_nil|by eexists]).
  - destruct (IH y (kids x l) w r) as (IH1 & IH2 & IH3). unfold self_at, total_at in IH1, IH2. rewrite IH1, IH2, IH3. clear.
    assert (Hp : x :: w :: r `prefix_of` x :: y :: q ↔ w :: r `prefix_of` y :: q) by (split; [apply prefix_cons_inv_2|apply prefix_cons]).
    split_and!; [do 2 f_equal; apply decide_ext; split; congruence|do 2 f_equal; by apply decide_ext|by rewrite Hp].
Qed.

(** ** Well-formed trees *)

Definition totals (l : list node) : Z := foldr (λ n acc, n_total n + acc)%Z 0%Z l.

(** Siblings have different names, values fit 64 bits, and the total of a node is its own value
    and the totals below it. *)
Inductive wf : node → Prop :=
  | wf_node x s t cs :
      int64_range s → int64_range t → t = i64 (s + totals cs) → NoDup (n_name <$> cs) → (∀ c, c ∈ cs → wf c) → wf (Node x s t cs).

Definition tree_ok (l : tree) : Prop := NoDup (n_name <$> l) ∧ ∀ n, n ∈ l → wf n.

Lemma totals_app l k : totals (l ++ k) = (totals l + totals k)%Z.
Proof. induction l as [|n l IH]; simpl; [done|]. rewrite IH. lia. Qed.

Lemma chain_wf q v : int64_range v → ∀ x, wf (chain x q v).
Proof.
  intros Hv. induction q as [|y q IH]; intros x; cbn [chain]; constructor; try done; cbn [totals foldr].
  - by rewrite Z.add_0_r, i64_small.
  - constructor.
  - intros c Hc. by apply not_elem_of_nil in Hc.
  - rewrite chain_total, Z.add_0_r, i64_small by done. done.
  - repeat constructor. set_solver.
  - intros c ->%list_elem_of_singleton. apply IH.
Qed.

(** Replacing a sibling by one of the same name. *)
Lemma tree_ok_replace pre n n' rest : tree_ok (pre ++ n :: rest) → n_name n' = n_name n → wf n' → tree_ok (pre ++ n' :: rest).
Proof.
  intros [Hnd Hwf] Hn Hn'. split.
  - rewrite fmap_app, fmap_cons in Hnd |- *. by rewrite Hn.
  - intros m. rewrite elem_of_app, elem_of_cons. intros [?|[->|?]]; [apply Hwf; set_solver|done|apply Hwf; set_solver].
Qed.

Lemma tree_ok_snoc l n : tree_ok l → wf n → (∀ m, m ∈ l → n_name m ≠ n_name n) → tree_ok (l ++ [n]).
Proof.
  intros [Hnd Hwf] Hn Hno. split.
  - rewrite fmap_app. apply NoDup_app. split_and!; [done| |apply NoDup_singleton].
    intros ? (m & -> & Hm)%list_elem_of_fmap Hx%list_elem_of_singleton. by apply (Hno m).
  - intros m [?| ->%list_elem_of_singleton]%elem_of_app; [by apply Hwf|done].
Qed.

(** The node after the insertion of the rest of a path. *)
Definition updated (q : list string) (v : Z) (n : node) : node :=
  match q with
  | [] => Node (n_name n) (i64 (n_self n + v)) (i64 (n_total n + v)) (n_children n)
  | y :: q => Node (n_name n) (n_self n) (i64 (n_total n + v)) (insert y q v (n_children n))
  end.

Lemma insert_absent x q v l : (∀ n, n ∈ l → n_name n ≠ x) → insert x q v l = l ++ [chain x q v].
Proof.
  intros Hl. rewrite <- (right_id_L [] (++) l) at 1. destruct q; cbn [insert]; by rewrite insert_for_app.
Qed.

Lemma insert_present x q v pre n rest : n_name n = x → (∀ n, n ∈ pre → n_name n ≠ x) → insert x q v (pre ++ n :: rest) = pre ++ updated q v n :: rest.
Proof. intros Hn Hpre. destruct q; cbn [insert]; rewrite insert_for_app by done; simpl; by rewrite Hn, String.eqb_refl. Qed.

Lemma updated_name q v n : n_name (updated q v n) = n_name n.
Proof. by destruct q. Qed.
Lemma updated_total q v n : n_total (updated q v n) = i64 (n_total n + v).
Proof. by destruct q. Qed.

Lemma insert_ok v q : int64_range v → ∀ x l, tree_ok l → tree_ok (insert x q v l) ∧ i64 (totals (insert x q v l)) = i64 (totals l + v).
Proof.
  intros Hv. induction q as [|y q IH]; intros x l Hl; destruct (split_name x l) as [Hno|(pre & n & rest & -> & Hn & Hpre)].
  1,3: rewrite insert_absent by done; rewrite totals_app; cbn [totals foldr]; rewrite chain_total, Z.add_0_r; split; [|done];
    apply tree_ok_snoc; [done|by apply chain_wf|by rewrite chain_name].
  all: rewrite insert_present by done; rewrite !totals_app; cbn [totals foldr]; fold (totals rest); rewrite updated_total; split;
    [|rewrite (Z.add_comm (i64 _)), Z.add_assoc, i64_add_r; f_equal; lia].
  all: eapply tree_ok_replace; [exact Hl|apply updated_name|]; pose proof Hl as [_ Hwf]; specialize (Hwf n ltac:(set_solver));
    inversion Hwf as [x' s t cs Hs Ht Hbal Hnd Hcs]; subst n; simpl in *; constructor; try done; try apply i64_range.
  - rewrite Hbal, !i64_add_l. f_equal. lia.
  - rewrite Hbal, i64_add_l. destruct (IH y cs) as [_ Htot]; [by split|]. symmetry. by rewrite <- i64_add_r, Htot, i64_add_r, Z.add_assoc.
  - destruct (IH y cs) as [[? _] _]; [by split|done].
  - destruct (IH y cs) as [[_ Hw] _]; [by split|]. apply Hw.
Qed.

Lemma get_wf q : ∀ l x n, tree_ok l → get l x q = Some n → wf n.
Proof.
  induction q as [|y q IH]; intros l x n Hl; [rewrite get_here|rewrite get_below]; destruct Hl as [Hnd Hwf].
  - intros [_ Hn]%child_name. by apply Hwf.
  - unfold kids. destruct (child x l) as [m|] eqn:Em; [|by rewrite get_nil]. apply child_name in Em as [_ Hm]. apply Hwf in Hm.
    apply IH. by inversion Hm.
Qed.

Lemma wf_self n : wf n → int64_range (n_self n).
Proof. by inversion 1. Qed.
Lemma wf_total n : wf n → int64_range (n_total n).
Proof. by inversion 1. Qed.

(** *** The tree of a list of stacks *)

Definition sum_where (P : list string → bool) (stacks : list stacktraces) : Z :=
  foldr (λ s acc, (if P (rev (st_locations s)) then st_value s else 0) + acc)%Z 0%Z stacks.

Lemma sum_where_snoc P l s : sum_where P (l ++ [s]) = (sum_where P l + if P (rev (st_locations s)) then st_value s else 0)%Z.
Proof. induction l as [|x l IH]; simpl; [lia|]. rewrite IH. lia. Qed.

Definition is_path (p r : list string) : bool := bool_decide (r = p).
Definition through (p r : list string) : bool := bool_decide (p `prefix_of` r).

(** What a tree says of every path is what the stacks sum to. *)
Definition tree_of (stacks : list stacktraces) (t : tree) : Prop :=
  tree_ok t ∧ ∀ x q,
    i64 (self_at t x q) = i64 (sum_where (is_path (x :: q)) stacks) ∧
    i64 (total_at t x q) = i64 (sum_where (through (x :: q)) stacks) ∧
    (is_Some (get t x q) ↔ ∃ s, s ∈ stacks ∧ st_value s ≠ 0%Z ∧ x :: q `prefix_of` rev (st_locations s)).

Lemma tree_of_snoc stacks t s : tree_of stacks t → int64_range (st_value s) →
  tree_of (stacks ++ [s]) (if (st_value s =? 0)%Z then t else mergeTree t (stackToTree s)).
Proof.
  intros [Hok Ht] Hv. destruct (Z.eqb_spec (st_value s) 0) as [E|E].
  - split; [done|]. intros x q. rewrite !sum_where_snoc, E. destruct (Ht x q) as (-> & -> & ->).
    split_and!; [by destruct (is_path _ _); rewrite Z.add_0_r|by destruct (through _ _); rewrite Z.add_0_r|].
    split; [intros (s' & ? & ?); exists s'; set_solver|]. intros (s' & [?| ->%list_elem_of_singleton]%elem_of_app & ? & ?); [by exists s'|done].
  - rewrite stackToTree_chain. destruct (rev (st_locations s)) as [|y r] eqn:Er; unfold mergeTree; cbn [foldl].
    + split; [done|]. intros x q. rewrite !sum_where_snoc, Er. destruct (Ht x q) as (-> & -> & ->). unfold is_path, through.
      rewrite (bool_decide_eq_false_2 ([] = x :: q)) by done. rewrite bool_decide_eq_false_2 by (by intros ?%prefix_nil_inv). rewrite !Z.add_0_r.
      split_and!; [done|done|]. split; [intros (s' & ? & ?); exists s'; set_solver|].
      intros (s' & [?| ->%list_elem_of_singleton]%elem_of_app & ? & Hp); [by exists s'|]. rewrite Er in Hp. by apply prefix_nil_inv in Hp.
    + rewrite merge_chain. split; [by apply insert_ok|]. intros x q. rewrite !sum_where_snoc, Er. unfold is_path, through.
      destruct (get_insert (st_value s) r y t x q) as (-> & -> & ->). destruct (Ht x q) as (H1 & H2 & ->).
      rewrite <- (i64_add_l (self_at _ _ _)), <- (i64_add_l (total_at _ _ _)), H1, H2, !i64_add_l. split_and!.
      * do 2 f_equal. case_decide as Ed; [by rewrite bool_decide_eq_true_2|by rewrite bool_decide_eq_false_2 by congruence].
      * do 2 f_equal. case_decide as Ed; [by rewrite bool_decide_eq_true_2|by rewrite bool_decide_eq_false_2].
      * split.
        -- intros [(s' & ? & ?)|Hp]; [exists s'; set_solver|]. exists s. rewrite Er. set_solver.
        -- intros (s' & [?| ->%list_elem_of_singleton]%elem_of_app & ? & Hp); [left; by exists s'|right]. by rewrite Er in Hp.
Qed.

Lemma newTree_of stacks : (∀ s, s ∈ stacks → int64_range (st_value s)) → tree_of stacks (newTree stacks).
Proof.
  unfold newTree. induction stacks as [|s stacks IH] using rev_ind; intros Hs.
  - split; [split; [constructor|set_solver]|]. intros x q. unfold self_at, total_at. simpl. rewrite get_nil. split_and!; [done|done|].
    split; [by intros [? ?]|set_solver].
  - rewrite foldl_app. simpl. apply tree_of_snoc; [apply IH; set_solver|apply Hs; set_solver].
Qed.

(** The tree of a list of stacks sums them by path.  Siblings have distinct names and totals
    balance; a path from the root exists iff some stack with a non-zero value runs through it; its own
    value is the sum of the stacks that are exactly this path and its total the sum of those
    through it, modulo 2^64. *)
Theorem newTree_correct (stacks : list stacktraces) :
  (∀ s, s ∈ stacks → int64_range (st_value s)) →
  tree_ok (newTree stacks) ∧ ∀ x q,
    (is_Some (get (newTree stacks) x q) ↔ ∃ s, s ∈ stacks ∧ st_value s ≠ 0%Z ∧ x :: q `prefix_of` rev (st_locations s)) ∧
    ∀ n, get (newTree stacks) x q = Some n →
      n_self n = i64 (sum_where (is_path (x :: q)) stacks) ∧ n_total n = i64 (sum_where (through (x :: q)) stacks).
Proof.
  intros Hs. destruct (newTree_of stacks Hs) as [Hok Ht]. split; [done|]. intros x q. destruct (Ht x q) as (H1 & H2 & H3). split; [done|].
  intros n Hn. pose proof (get_wf _ _ _ _ Hok Hn) as Hwf. unfold self_at, total_at in *. rewrite Hn in H1, H2.
  by rewrite <- H1, <- H2, !i64_small by (by apply wf_self || by apply wf_total).
Qed.

Lemma newTree_correct_witness :
  let stacks := [mkStack ["b"; "a"] 3; mkStack ["a"] (-1); mkStack ["c"; "b"; "a"] max_int64; mkStack ["b"; "a"] 3] in
  ∃ n, get (newTree stacks) "a" ["b"] = Some n ∧ n_self n = 6%Z ∧ n_total n = i64 (max_int64 + 6).
Proof.
  intros stacks. destruct (newTree_correct stacks) as [_ Ht].
  - unfold stacks, int64_range, min_int64, max_int64. intros s Hs. repeat (apply elem_of_cons in Hs as [->|Hs]; [simpl; lia|]). by apply not_elem_of_nil in Hs.
  - destruct (Ht "a" ["b"]) as [_ Hn]. eexists. split; [reflexivity|]. destruct (Hn _ eq_refl) as [H1 H2]. split; [exact H1|exact H2].
Defined.
