(* ===== verification/FlameGraph.v ===== *)
(** * Flame graphs (src/pkg/querier/flamegraph.go, src/pkg/querier/stack.go)

    A tree is laid out in rows of bars: a bar starts after the own value of its parent and the
    totals of its left siblings.  The code walks the tree with an explicit stack, collects
    each row on a stack of numbers, and encodes the starts as gaps. *)

From S2P Require Import Prelude Tree.

(** ** Stacks *)

(** The slice behind a stack; the top is its end. *)
Definition Push {T} (s : list T) (v : T) : list T := s ++ [v].
Definition Pop {T} (s : list T) : option (T * list T) := v ← last s; Some (v, take (length s - 1) s).
Definition Slice {T} (s : list T) : list T := reverse s.
Definition Reset {T} (s : list T) : list T := [].

Lemma Pop_Push {T} (s : list T) v : Pop (Push s v) = Some (v, s).
Proof. unfold Pop, Push. rewrite last_snoc. simpl. by rewrite length_app, Nat.add_sub, take_app_length. Qed.

(** ** The flame graph *)

Record stackNode := mkStackNode { xOffset : Z; level : nat; sn_node : node }.

Record FlameGraph := mkFlameGraph { fg_Names : list string; fg_Levels : list (list Z); fg_Total : Z; fg_MaxSelf : Z }.

(** The variables of the loop. *)
Record walk_state := mkWalk { wk_max : Z; wk_names : list string; wk_cache : gmap string nat; wk_res : list (list Z) }.

(** The index of a name; the first one is called "total". *)
Definition name_index (st : walk_state) (name : string) : nat * list string * gmap string nat :=
  match wk_cache st !! name with
  | Some i => (i, wk_names st, wk_cache st)
  | None =>
      let i := length (wk_names st) in
      let name := if (i =? 0)%nat then "total" else name in
      (i, wk_names st ++ [name], <[name := i]> (wk_cache st))
  end.

(** One iteration but for the children. *)
Definition visit_one (st : walk_state) (current : stackNode) : walk_state :=
  let n := sn_node current in
  let max := if (n_self n >? wk_max st)%Z then n_self n else wk_max st in
  let '(i, names, cache) := name_index st (n_name n) in
  let res := if (level current =? length (wk_res st))%nat then wk_res st ++ [Reset []] else wk_res st in
  mkWalk max names cache
    (alter (λ l, Push (Push (Push (Push l (Z.of_nat i)) (n_self n)) (n_total n)) (xOffset current)) (level current) res).

(** The children are pushed from left to right, each after the one before. *)
Fixpoint push_children (x : Z) (lvl : nat) (children : list node) (stack : list stackNode) : list stackNode :=
  match children with
  | [] => stack
  | c :: children => push_children (i64 (x + n_total c)) lvl children (Push stack (mkStackNode x lvl c))
  end.

Fixpoint walk_loop (fuel : nat) (stack : list stackNode) (st : walk_state) : walk_state :=
  match fuel, Pop stack with
  | S fuel, Some (current, stack) =>
      let n := sn_node current in
      walk_loop fuel (push_children (i64 (xOffset current + n_self n)) (S (level current)) (n_children n) stack) (visit_one st current)
  | _, _ => st
  end.

(** The starts become gaps to the end of the bar before; a row is made of groups of four. *)
Fixpoint delta_encode (prev : Z) (l : list Z) : list Z :=
  match l with
  | x :: total :: self :: i :: l =>
      let gap := i64 (x - prev) in
      gap :: total :: self :: i :: delta_encode (i64 (prev + i64 (gap + total))) l
  | _ => l
  end.

(** The number of nodes, which bounds the iterations. *)
Fixpoint node_size (n : node) : nat :=
  match n with Node _ _ _ cs => S ((fix go cs := match cs with [] => 0 | c :: cs => node_size c + go cs end) cs) end.

Definition NewFlameGraph (t : tree) : FlameGraph :=
  let total := foldl (λ acc n, i64 (acc + n_total n)) 0%Z t in
  let root := Node "" 0 total t in
  let st := walk_loop (S (node_size root)) (Push [] (mkStackNode 0 0 root)) (mkWalk 0 [] ∅ []) in
  mkFlameGraph (wk_names st) ((delta_encode 0 ∘ Slice) <$> wk_res st) total (wk_max st).

Example NewFlameGraph_example :
  NewFlameGraph (newTree [mkStack ["foo"; "bar"; "buz"] 1; mkStack ["buz"] 2; mkStack ["bar"; "buz"] 1; mkStack ["total"] 5]) =
  mkFlameGraph ["total"; "buz"; "bar"; "foo"] [[0; 9; 0; 0]; [0; 4; 2; 1; 0; 5; 5; 0]; [2; 2; 1; 2]; [3; 1; 1; 3]]%Z 9 5.
Proof. reflexivity. Qed.

(** *** Export *)

Record Flamebearer := mkFlamebearer {
  fb_Names : list string; fb_NumTicks : Z; fb_MaxSelf : Z; fb_Levels : list (list Z);
  fb_Units : string; fb_Name : string; fb_SampleRate : N }.

(** The units of the metadata package, as their strings. *)
Definition ObjectsUnits : string := "objects".
Definition SamplesUnits : string := "samples".

Definition ExportToFlamebearer (fg : FlameGraph) (sampleType sampleUnit : string) : Flamebearer :=
  let '(unit, rate) :=
    if decide (sampleType ∈ ["inuse_objects"; "alloc_objects"; "goroutine"; "samples"]) then (ObjectsUnits, 100%N)
    else if String.eqb sampleType "cpu" then (SamplesUnits, 100000000%N)
    else (sampleUnit, 100%N) in
  mkFlamebearer (fg_Names fg) (fg_Total fg) (fg_MaxSelf fg) (fg_Levels fg) unit sampleType rate.

(** ** The walk *)

(** The nodes in the order of the visits: the last child first. *)
Fixpoint visit (lvl : nat) (x : Z) (n : node) : list stackNode :=
  mkStackNode x lvl n ::
  match n with
  | Node _ self _ cs =>
      (fix go (x : Z) (cs : list node) : list stackNode :=
        match cs with
        | [] => []
        | c :: cs => go (i64 (x + n_total c)) cs ++ visit (S lvl) x c
        end) (i64 (x + self)) cs
  end.

Definition visit_children (lvl : nat) : Z → list node → list stackNode :=
  fix go (x : Z) (cs : list node) : list stackNode :=
    match cs with
    | [] => []
    | c :: cs => go (i64 (x + n_total c)) cs ++ visit lvl x c
    end.

Lemma visit_unfold lvl x n : visit lvl x n = mkStackNode x lvl n :: visit_children (S lvl) (i64 (x + n_self n)) (n_children n).
Proof. by destruct n. Qed.

Definition sizes (l : list node) : nat := foldr (λ n acc, node_size n + acc) 0 l.
Lemma node_size_unfold n : node_size n = S (sizes (n_children n)).
Proof. by destruct n. Qed.

(** The rest of the visits of a stack, top first. *)
Definition visit_stack (stack : list stackNode) : list stackNode :=
  foldr (λ sn acc, acc ++ visit (level sn) (xOffset sn) (sn_node sn)) [] stack.
Definition stack_size (stack : list stackNode) : nat := foldr (λ sn acc, node_size (sn_node sn) + acc) 0 stack.

Lemma visit_stack_snoc stack sn : visit_stack (stack ++ [sn]) = visit (level sn) (xOffset sn) (sn_node sn) ++ visit_stack stack.
Proof. induction stack as [|s stack IH]; simpl; [by rewrite (right_id_L [] (++))|]. by rewrite IH, (assoc_L (++)). Qed.
Lemma stack_size_snoc stack sn : stack_size (stack ++ [sn]) = node_size (sn_node sn) + stack_size stack.
Proof. induction stack as [|s stack IH]; simpl; [lia|]. rewrite IH. lia. Qed.

Lemma push_children_spec lvl cs : ∀ x stack,
  visit_stack (push_children x lvl cs stack) = visit_children lvl x cs ++ visit_stack stack ∧
  stack_size (push_children x lvl cs stack) = sizes cs + stack_size stack.
Proof.
  induction cs as [|c cs IH]; intros x stack; simpl; [done|]. destruct (IH (i64 (x + n_total c)) (Push stack (mkStackNode x lvl c))) as [-> ->].
  unfold Push. rewrite visit_stack_snoc, stack_size_snoc. simpl. split; [by rewrite (assoc_L (++))|lia].
Qed.

Lemma walk_loop_spec fuel : ∀ stack st, stack_size stack < fuel → walk_loop fuel stack st = foldl visit_one st (visit_stack stack).
Proof.
  induction fuel as [|fuel IH]; intros stack st Hf; [lia|]. cbn [walk_loop]. destruct stack as [|sn stack] using rev_ind; [done|].
  change (stack ++ [sn]) with (Push stack sn). rewrite Pop_Push. unfold Push. rewrite stack_size_snoc, node_size_unfold in Hf.
  destruct (push_children_spec (S (level sn)) (n_children (sn_node sn)) (i64 (xOffset sn + n_self (sn_node sn))) stack) as [Hv Hs].
  rewrite IH by lia. rewrite Hv, visit_stack_snoc, visit_unfold. destruct sn as [x lvl n]. done.
Qed.

(** ** Rows *)

(** The nodes from left to right, as they are laid out. *)
Fixpoint layout (lvl : nat) (x : Z) (n : node) : list stackNode :=
  mkStackNode x lvl n ::
  match n with
  | Node _ self _ cs =>
      (fix go (x : Z) (cs : list node) : list stackNode :=
        match cs with
        | [] => []
        | c :: cs => layout (S lvl) x c ++ go (i64 (x + n_total c)) cs
        end) (i64 (x + self)) cs
  end.

Definition layout_children (lvl : nat) : Z → list node → list stackNode :=
  fix go (x : Z) (cs : list node) : list stackNode :=
    match cs with
    | [] => []
    | c :: cs => layout lvl x c ++ go (i64 (x + n_total c)) cs
    end.

Lemma layout_unfold lvl x n : layout lvl x n = mkStackNode x lvl n :: layout_children (S lvl) (i64 (x + n_self n)) (n_children n).
Proof. by destruct n. Qed.

(** The row of a level. *)
Definition row (d : nat) (l : list stackNode) : list stackNode := filter (λ sn, level sn = d) l.

Lemma row_app d l k : row d (l ++ k) = row d l ++ row d k.
Proof. apply filter_app. Qed.

(** Induction over the nodes of a tree. *)
Lemma node_forest_ind (P : node → Prop) (Q : list node → Prop) :
  (∀ x s t cs, Q cs → P (Node x s t cs)) → Q [] → (∀ c cs, P c → Q cs → Q (c :: cs)) → (∀ n, P n) ∧ (∀ l, Q l).
Proof.
  intros HN Hnil Hcons. assert (HP : ∀ n, P n).
  { fix F 1. intros [x s t cs]. apply HN. induction cs as [|c cs IH]; [exact Hnil|]. apply Hcons; [apply F|exact IH]. }
  split; [exact HP|]. induction l as [|c l IH]; [exact Hnil|by apply Hcons].
Qed.

Lemma layout_levels : (∀ n lvl x sn, sn ∈ layout lvl x n → lvl ≤ level sn) ∧ (∀ l lvl x sn, sn ∈ layout_children lvl x l → lvl ≤ level sn).
Proof.
  apply node_forest_ind.
  - intros x0 s t cs IH lvl x sn. rewrite layout_unfold. intros [->|Hsn]%elem_of_cons; [done|]. apply IH in Hsn. lia.
  - intros lvl x sn Hsn. by apply not_elem_of_nil in Hsn.
  - intros c cs IHc IHcs lvl x sn. simpl. intros [?|?]%elem_of_app; eauto.
Qed.

(** The walk visits each row from right to left. *)
Lemma row_visit : (∀ n lvl x d, row d (visit lvl x n) = reverse (row d (layout lvl x n))) ∧
  (∀ l lvl x d, row d (visit_children lvl x l) = reverse (row d (layout_children lvl x l))).
Proof.
  apply node_forest_ind.
  - intros x0 s t cs IH lvl x d. rewrite visit_unfold, layout_unfold. unfold row in *. rewrite !filter_cons. simpl n_children.
    case_decide as Hd; [|apply IH]. rewrite IH, reverse_cons. simpl in Hd. subst d.
    rewrite (filter_none _ (layout_children _ _ _)); [done|]. intros sn Hl Hsn. apply layout_levels in Hl. lia.
  - done.
  - intros c cs IHc IHcs lvl x d. simpl. by rewrite !row_app, reverse_app, IHc, IHcs.
Qed.

(** ** The state after a walk *)

Definition label (sn : stackNode) : string := if (level sn =? 0)%nat then "total" else n_name (sn_node sn).

(** A bar with its index. *)
Definition quad (b : stackNode * nat) : list Z := [Z.of_nat b.2; n_self (sn_node b.1); n_total (sn_node b.1); xOffset b.1].

(** After the visits [vis], each with the index it was given. *)
Record walked (vis : list (stackNode * nat)) (st : walk_state) : Prop := {
  wd_empty : vis = [] → wk_names st = [];
  wd_res : ∀ d, wk_res st !! d = match filter (λ b : stackNode * nat, level b.1 = d) vis with [] => None | r => Some (concat (quad <$> r)) end;
  wd_names : ∀ b, b ∈ vis → wk_names st !! b.2 = Some (label b.1);
  wd_cache : ∀ name i, wk_cache st !! name = Some i → wk_names st !! i = Some name;
  wd_max : (0 ≤ wk_max st)%Z ∧ (∀ b, b ∈ vis → n_self (sn_node b.1) ≤ wk_max st)%Z ∧ (wk_max st = 0%Z ∨ ∃ b, b ∈ vis ∧ n_self (sn_node b.1) = wk_max st) }.

Lemma name_index_spec vis st sn i names cache : walked vis st → (level sn = 0 ↔ vis = []) →
  name_index st (n_name (sn_node sn)) = (i, names, cache) →
  wk_names st `prefix_of` names ∧ names !! i = Some (label sn) ∧ (∀ name j, cache !! name = Some j → names !! j = Some name).
Proof.
  intros [Hempty _ Hnames Hcache _] Hroot. unfold name_index, label. destruct (wk_cache st !! n_name (sn_node sn)) as [j|] eqn:Ec.
  - intros [= <- <- <-]. apply Hcache in Ec. split_and!; [done| |done]. destruct (Nat.eqb_spec (level sn) 0) as [E|E]; [|done].
    rewrite Hempty in Ec by (by apply Hroot). done.
  - assert (Hiff : length (wk_names st) = 0 ↔ level sn = 0).
    { rewrite Hroot. split; [|intros Hv; by rewrite Hempty]. intros Hn. destruct vis as [|b vis]; [done|].
      specialize (Hnames b ltac:(set_solver)). apply lookup_lt_Some in Hnames. lia. }
    intros [= <- <- <-]. rewrite list_lookup_middle by done. destruct (Nat.eqb_spec (length (wk_names st)) 0) as [E1|E1], (Nat.eqb_spec (level sn) 0) as [E2|E2];
      [|by apply Hiff in E1|by apply Hiff in E2|].
    all: split_and!; [by eexists|done|]; intros name j [[<- <-]|[_ Hj]]%lookup_insert_Some; [by rewrite list_lookup_middle|by apply lookup_app_l_Some, Hcache].
Qed.

(** Appending to a row of a table that may have to grow by one row. *)
Lemma grow_lookup (res : list (list Z)) lvl q d : lvl ≤ length res →
  alter (λ l, l ++ q) lvl (if (lvl =? length res)%nat then res ++ [[]] else res) !! d =
    if decide (d = lvl) then Some (default [] (res !! lvl) ++ q) else res !! d.
Proof.
  intros Hl. destruct (Nat.eqb_spec lvl (length res)) as [->|Hne]; case_decide as Hd.
  - subst. rewrite list_lookup_alter_eq, list_lookup_middle by done. by rewrite (lookup_ge_None_2 res).
  - rewrite list_lookup_alter_ne by done. destruct (decide (d < length res)); [by rewrite lookup_app_l|].
    by rewrite !lookup_ge_None_2 by (rewrite ?length_app; simpl; lia).
  - subst. rewrite list_lookup_alter_eq. destruct (lookup_lt_is_Some_2 res lvl) as [l Hlk]; [lia|]. by rewrite Hlk.
  - by rewrite list_lookup_alter_ne.
Qed.

Lemma visit_one_walked vis st sn : walked vis st → level sn ≤ length (wk_res st) → (level sn = 0 ↔ vis = []) →
  ∃ i, walked (vis ++ [(sn, i)]) (visit_one st sn) ∧ length (wk_res st) ≤ length (wk_res (visit_one st sn)) ∧ level sn < length (wk_res (visit_one st sn)).
Proof.
  intros Hw Hl Hroot. unfold visit_one. destruct (name_index st (n_name (sn_node sn))) as [[i names] cache] eqn:En.
  destruct (name_index_spec _ _ _ _ _ _ Hw Hroot En) as (Hpre & Hi & Hcache). destruct Hw as [Hempty Hres Hnames _ (Hm0 & Hmax & Hex)].
  assert (Hpush : ∀ (lvl : nat) (res : list (list Z)), alter (λ l, Push (Push (Push (Push l (Z.of_nat i)) (n_self (sn_node sn))) (n_total (sn_node sn))) (xOffset sn)) lvl res =
    alter (λ l, l ++ quad (sn, i)) lvl res).
  { intros lvl res. apply list_alter_ext; [|done]. intros l _. unfold Push. by rewrite <- !(assoc_L (++)). }
  exists i. split; [split; simpl; rewrite ?Hpush; unfold Reset|].
  - intros Hv. by apply app_nil in Hv as [_ ?].
  - intros d. rewrite grow_lookup, filter_app, filter_cons, filter_nil by done. cbn [fst]. case_decide as Hd.
    + rewrite decide_True by done. rewrite Hres, <- Hd. destruct (filter _ vis) as [|b r] eqn:Ef; [done|].
      change ((b :: r) ++ [(sn, i)]) with (b :: (r ++ [(sn, i)])). rewrite !fmap_cons, !concat_cons, fmap_app, concat_app.
      simpl. done.
    + rewrite decide_False by done. rewrite (right_id_L [] (++)). apply Hres.
  - intros b [Hb| ->%list_elem_of_singleton]%elem_of_app; [|done]. eapply prefix_lookup_Some; [by apply Hnames|done].
  - done.
  - split_and!.
    + destruct (_ >? _)%Z eqn:E; lia.
    + intros b [Hb| ->%list_elem_of_singleton]%elem_of_app; simpl; destruct (Z.gtb_spec (n_self (sn_node sn)) (wk_max st)); try lia; specialize (Hmax b Hb); lia.
    + destruct (Z.gtb_spec (n_self (sn_node sn)) (wk_max st)) as [E|E].
      * right. exists (sn, i). split; [set_solver|done].
      * destruct Hex as [?|(b & ? & ?)]; [by left|]. right. exists b. split; [set_solver|done].
  - simpl. rewrite Hpush, length_alter. destruct (Nat.eqb_spec (level sn) (length (wk_res st))); rewrite ?length_app; simpl; lia.
Qed.

(** A subtree that is visited from a good state. *)
Definition walks (l : list stackNode) (vis : list (stackNode * nat)) (st : walk_state) : Prop :=
  ∃ ixs, walked (vis ++ ixs) (foldl visit_one st l) ∧ ixs.*1 = l ∧ length (wk_res st) ≤ length (wk_res (foldl visit_one st l)).

Lemma walks_app l k vis st : walks l vis st → (∀ ixs st', walked (vis ++ ixs) st' → ixs.*1 = l → length (wk_res st) ≤ length (wk_res st') → walks k (vis ++ ixs) st') →
  walks (l ++ k) vis st.
Proof.
  intros (ixs & Hw & Hl & Hlen) Hk. destruct (Hk ixs _ Hw Hl Hlen) as (ixs' & Hw' & Hl' & Hlen'). exists (ixs ++ ixs').
  rewrite foldl_app, (assoc_L (++)), fmap_app. split_and!; [done|congruence|lia].
Qed.

Lemma visit_walks :
  (∀ n lvl x vis st, walked vis st → lvl ≤ length (wk_res st) → (lvl = 0 ↔ vis = []) → walks (visit lvl x n) vis st) ∧
  (∀ cs lvl x vis st, walked vis st → S lvl ≤ length (wk_res st) → vis ≠ [] → walks (visit_children (S lvl) x cs) vis st).
Proof.
  apply node_forest_ind.
  - intros x0 s t cs IH lvl x vis st Hw Hl Hroot. rewrite visit_unfold.
    destruct (visit_one_walked vis st (mkStackNode x lvl (Node x0 s t cs)) Hw Hl Hroot) as (i & Hw' & Hl1 & Hl2). simpl in Hl2.
    destruct (IH lvl (i64 (x + s)) _ _ Hw') as (ixs & Hw'' & His & Hl3); [simpl; lia|by intros [_ ?]%app_nil|].
    exists ((mkStackNode x lvl (Node x0 s t cs), i) :: ixs). cbn [foldl n_self n_children]. rewrite <- (assoc_L (++)) in Hw''. split_and!; [done| |lia].
    by rewrite fmap_cons, His.
  - intros lvl x vis st Hw _ _. exists []. by rewrite (right_id_L [] (++)).
  - intros c cs IHc IHcs lvl x vis st Hw Hl Hv. simpl. apply walks_app; [by apply IHcs|]. intros ixs st' Hw' _ Hl'.
    apply IHc; [done|lia|]. split; [lia|]. by intros [? _]%app_nil.
Qed.

(** ** Encoding of a row *)

(** Groups of four, with the gaps summed up again. *)
Fixpoint bars (prev : Z) (l : list Z) : list (Z * Z * Z * Z) :=
  match l with
  | gap :: total :: self :: i :: l => let x := i64 (prev + gap) in (x, total, self, i) :: bars (i64 (x + total)) l
  | _ => []
  end.

(** A bar of a node: its start, total, own value and the index of its name. *)
Definition bar (b : stackNode * nat) : Z * Z * Z * Z := (xOffset b.1, n_total (sn_node b.1), n_self (sn_node b.1), Z.of_nat b.2).

Lemma Slice_quads r : Slice (concat (quad <$> r)) = concat ((λ b, reverse (quad b)) <$> reverse r).
Proof.
  unfold Slice. induction r as [|b r IH]; [done|]. rewrite fmap_cons, concat_cons, reverse_app, IH, reverse_cons, fmap_app, concat_app. simpl. done.
Qed.

Lemma bars_delta r : Forall (λ b : stackNode * nat, int64_range (xOffset b.1)) r → ∀ prev,
  bars prev (delta_encode prev (concat ((λ b, reverse (quad b)) <$> r))) = bar <$> r.
Proof.
  induction 1 as [|b r Hb _ IH]; intros prev; [done|]. simpl. unfold bar at 1.
  assert (Hx : i64 (prev + i64 (xOffset b.1 - prev)) = xOffset b.1) by (rewrite i64_add_r, Zplus_minus; by apply i64_small).
  rewrite Hx. f_equal. replace (i64 (prev + i64 (i64 (xOffset b.1 - prev) + n_total (sn_node b.1)))) with (i64 (xOffset b.1 + n_total (sn_node b.1))); [apply IH|].
  symmetry. rewrite i64_add_r, Z.add_assoc, <- i64_add_l, Hx. done.
Qed.

Lemma layout_ranged :
  (∀ n lvl x, int64_range x → Forall (λ sn, int64_range (xOffset sn)) (layout lvl x n)) ∧
  (∀ cs lvl x, int64_range x → Forall (λ sn, int64_range (xOffset sn)) (layout_children lvl x cs)).
Proof.
  apply node_forest_ind.
  - intros x0 s t cs IH lvl x Hx. rewrite layout_unfold. constructor; [done|]. apply IH, i64_range.
  - constructor.
  - intros c cs IHc IHcs lvl x Hx. simpl. apply Forall_app. split; [by apply IHc|apply IHcs, i64_range].
Qed.

(** Filtering what is paired with something. *)
Lemma filter_fst d (vis : list (stackNode * nat)) : (filter (λ b : stackNode * nat, level b.1 = d) vis).*1 = row d vis.*1.
Proof. unfold row. induction vis as [|b vis IH]; [done|]. rewrite fmap_cons, !filter_cons. case_decide; [|done]. by rewrite fmap_cons, IH. Qed.

(** What is read off a flame graph agrees with a bar of the layout. *)
Definition bar_of (names : list string) (sn : stackNode) (b : Z * Z * Z * Z) : Prop :=
  let '(x, total, self, i) := b in
  x = xOffset sn ∧ total = n_total (sn_node sn) ∧ self = n_self (sn_node sn) ∧ (0 ≤ i)%Z ∧ names !! Z.to_nat i = Some (label sn).

(** The root that the walk starts from. *)
Definition flame_root (t : tree) : node := Node "" 0 (foldl (λ acc n, i64 (acc + n_total n)) 0%Z t) t.

(** C38: a flame graph shows its tree.  Row by row, from left to right, its bars (the gaps summed up)
    are the nodes at that depth where the layout puts them, each with its total, its own value and
    an index under which its name is found ("total" for the root); there are no other rows, the
    total is that of the roots and the maximum is the largest own value. *)
Theorem NewFlameGraph_correct (t : tree) :
  let fg := NewFlameGraph t in
  let nodes := layout 0 0 (flame_root t) in
  fg_Total fg = n_total (flame_root t) ∧
  (∀ d, match fg_Levels fg !! d with
        | None => row d nodes = []
        | Some l => row d nodes ≠ [] ∧ Forall2 (bar_of (fg_Names fg)) (row d nodes) (bars 0 l)
        end) ∧
  (∀ sn, sn ∈ nodes → (n_self (sn_node sn) ≤ fg_MaxSelf fg)%Z) ∧ (fg_MaxSelf fg = 0%Z ∨ ∃ sn, sn ∈ nodes ∧ n_self (sn_node sn) = fg_MaxSelf fg).
Proof.
  intros fg nodes. set (root := flame_root t). set (st0 := mkWalk 0 [] ∅ []).
  destruct (proj1 visit_walks root 0 0%Z [] st0) as (ixs & Hw & Hixs & _); [|done|done|].
  { split; simpl; [done|done|set_solver|done|split_and!; [done|set_solver|by left]]. }
  rewrite (left_id_L [] (++)) in Hw. assert (Hfg : fg = mkFlameGraph (wk_names (foldl visit_one st0 (visit 0 0 root))) ((delta_encode 0 ∘ Slice) <$> wk_res (foldl visit_one st0 (visit 0 0 root)))
    (n_total root) (wk_max (foldl visit_one st0 (visit 0 0 root)))).
  { unfold fg, NewFlameGraph. fold (flame_root t). fold root st0. rewrite walk_loop_spec by (unfold Push; rewrite stack_size_snoc; simpl; lia).
    unfold Push. rewrite visit_stack_snoc. change (visit_stack []) with (@nil stackNode). by rewrite (right_id_L [] (++)). }
  rewrite Hfg. set (st := foldl visit_one st0 (visit 0 0 root)) in *. destruct Hw as [_ Hres Hnames _ (Hm & Hmax & Hex)].
  assert (Hin : ∀ sn, sn ∈ nodes ↔ ∃ b, b ∈ ixs ∧ b.1 = sn).
  { intros sn. transitivity (sn ∈ visit 0 0 root).
    - pose proof (proj1 row_visit root 0 0%Z (level sn)) as Hr. unfold row in Hr.
      assert (sn ∈ filter (λ s, level s = level sn) (visit 0 0 root) ↔ sn ∈ filter (λ s, level s = level sn) nodes) as Hiff by (rewrite Hr; apply elem_of_reverse).
      rewrite !list_elem_of_filter in Hiff. naive_solver.
    - rewrite <- Hixs, list_elem_of_fmap. naive_solver. }
  split; [done|]. split; [|split].
  - intros d. simpl. rewrite list_lookup_fmap, Hres. pose proof (filter_fst d ixs) as Hf. rewrite Hixs, (proj1 row_visit) in Hf. fold nodes in Hf.
    set (r := filter _ ixs) in *. assert (Hrow : row d nodes = (reverse r).*1) by (rewrite fmap_reverse, Hf; by rewrite reverse_involutive).
    assert (Hbars : Forall2 (bar_of (wk_names st)) (row d nodes) (bar <$> reverse r)).
    { rewrite Hrow. apply Forall2_fmap, Forall_Forall2_diag, Forall_forall. intros b Hb. rewrite elem_of_reverse in Hb.
      apply list_elem_of_filter in Hb as [_ Hb]. apply Hnames in Hb. unfold bar_of, bar. rewrite Nat2Z.id. split_and!; done || lia. }
    assert (Hrange : Forall (λ b : stackNode * nat, int64_range (xOffset b.1)) (reverse r)).
    { apply Forall_forall. intros b Hb. assert (Hb' : b.1 ∈ row d nodes) by (rewrite Hrow; by apply list_elem_of_fmap_2).
      pose proof (proj1 layout_ranged root 0 0%Z ltac:(done)) as Hl. rewrite Forall_forall in Hl. apply Hl. by apply list_elem_of_filter in Hb' as [_ ?]. }
    rewrite <- (bars_delta _ Hrange 0), <- Slice_quads in Hbars. destruct r as [|b r'] eqn:Er; simpl; [done|]. split; [|exact Hbars].
    rewrite Hrow, reverse_cons, fmap_app. by intros [_ ?]%app_nil.
  - intros sn [b [Hb <-]]%Hin. by apply Hmax.
  - destruct Hex as [?|(b & Hb & <-)]; [by left|]. right. exists b.1. split; [apply Hin; by exists b|done].
Qed.
