(* ===== verification/StackMerge.v ===== *)
(** * Merging the stack traces of responses (src/pkg/model/stacktraces.go, and
    mergeProfilesStacktracesResult in src/pkg/querier/select_merge.go)

    Responses name the functions of their stacks by indices into their own list.  The merge
    rewrites the indices in place, in slices that samples may share: the slices are in a
    store, and a sample refers to its slice.  The hash of a slice is a parameter. *)

From S2P Require Import Prelude Sorting Tree.

(** ** Data *)

Definition i32 (z : Z) : Z := ((z + 2 ^ 31) `mod` 2 ^ 32 - 2 ^ 31)%Z.

(** Slices by identity. *)
Abbreviation slices := (gmap nat (list Z)) (only parsing).

Record StackSample := mkStackSample { sp_FunctionIds : nat; sp_Value : Z }.

Record MergeResult := mkMergeResult { mr_Stacktraces : list StackSample; mr_FunctionNames : list string }.

(** The result so far: its samples are found by hash, the map of names is built when the second
    response comes. *)
Record merging := mkMerging {
  mg_result : MergeResult; mg_posByName : option (gmap string Z); mg_stacktraces : gmap N nat }.

Section Merge.
Context (Hashes : list Z → N).

Definition ids_of (H : slices) (s : StackSample) : list Z := default [] (H !! sp_FunctionIds s).

(** ** Operations *)

(** The first response is the result; of samples with the same hash the last one is found. *)
Definition first_result (H : slices) (resp : MergeResult) : merging :=
  mkMerging resp None
    (foldl (λ m '(i, s), <[Hashes (ids_of H s) := i]> m) ∅ (imap (λ i s, (i, s)) (mr_Stacktraces resp))).

Definition build_positions (names : list string) : gmap string Z :=
  foldl (λ m '(idx, n), <[n := i32 (Z.of_nat idx)]> m) ∅ (imap (λ i n, (i, n)) names).

(** The new index of every name; names that are not found are added to the list, but not to the
    map. *)
Fixpoint rewrite_table (posByName : gmap string Z) (names : list string) (l : list string) : list Z * list string :=
  match l with
  | [] => ([], names)
  | n :: l =>
      match posByName !! n with
      | Some p => let '(t, names) := rewrite_table posByName names l in (p :: t, names)
      | None =>
          let p := i32 (Z.of_nat (length names)) in
          let '(t, names) := rewrite_table posByName (names ++ [n]) l in (p :: t, names)
      end
  end.

(** [rewrite[functionID]]. *)
Definition rewritten (table : list Z) (id : Z) : outcome Z :=
  if (id <? 0)%Z then Panic else of_option (table !! Z.to_nat id).

(** Each slice that occurs is rewritten once. *)
Definition used_slices (H : slices) (samples : list StackSample) : list nat :=
  remove_dups (sp_FunctionIds <$> filter (λ s, ids_of H s ≠ []) samples).

Fixpoint rewrite_slices (H : slices) (table : list Z) (refs : list nat) : outcome slices :=
  match refs with
  | [] => Ret H
  | r :: refs =>
      obind (omapM (rewritten table) (default [] (H !! r))) (λ ids, rewrite_slices (<[r := ids]> H) table refs)
  end.

Definition add_value (v : Z) (s : StackSample) : StackSample := mkStackSample (sp_FunctionIds s) (i64 (sp_Value s + v)).

(** A sample is merged into the one of the same hash, or added. *)
Definition merge_sample (H : slices) (st : list StackSample * gmap N nat) (s : StackSample) : list StackSample * gmap N nat :=
  match ids_of H s with
  | [] => st
  | ids =>
      let '(result, byHash) := st in
      let hash := Hashes ids in
      match byHash !! hash with
      | Some i => (alter (add_value (sp_Value s)) i result, byHash)
      | None => (result ++ [s], <[hash := length result]> byHash)
      end
  end.

Definition merge_response (H : slices) (mg : merging) (resp : MergeResult) : outcome (slices * merging) :=
  let res := mg_result mg in
  let posByName := default (build_positions (mr_FunctionNames res)) (mg_posByName mg) in
  let '(table, names) := rewrite_table posByName (mr_FunctionNames res) (mr_FunctionNames resp) in
  obind (rewrite_slices H table (used_slices H (mr_Stacktraces resp))) (λ H,
    let '(samples, byHash) := foldl (merge_sample H) (mr_Stacktraces res, mg_stacktraces mg) (mr_Stacktraces resp) in
    Ret (H, mkMerging (mkMergeResult samples names) (Some posByName) byHash)).

Fixpoint merge_responses (H : slices) (mg : option merging) (resps : list (option MergeResult)) : outcome (slices * option merging) :=
  match resps with
  | [] => Ret (H, mg)
  | None :: resps => merge_responses H mg resps
  | Some resp :: resps =>
      match mr_Stacktraces resp, mg with
      | [], _ => merge_responses H mg resps
      | _, None => merge_responses H (Some (first_result H resp)) resps
      | _, Some mg => obind (merge_response H mg resp) (λ '(H, mg), merge_responses H (Some mg) resps)
      end
  end.

Definition function_name (names : list string) (id : Z) : string := default EmptyString (names !! Z.to_nat id).

(** The comparison of [sortStacktraces]: equal stacks are less than each other. *)
Fixpoint stack_less (names : list string) (a b : list Z) : bool :=
  match a, b with
  | [], _ => true
  | _, [] => false
  | x :: a, y :: b =>
      match String.compare (function_name names x) (function_name names y) with
      | Lt => true
      | Gt => false
      | Eq => stack_less names a b
      end
  end.

Definition sortStacktraces (H : slices) (r : MergeResult) : MergeResult :=
  mkMergeResult (sort_slice (λ s s', stack_less (mr_FunctionNames r) (ids_of H s) (ids_of H s')) (mr_Stacktraces r)) (mr_FunctionNames r).

Definition MergeBatchMergeStacktraces (H : slices) (responses : list (option MergeResult)) : outcome (slices * MergeResult) :=
  obind (merge_responses H None responses) (λ '(H, mg),
    Ret (H, sortStacktraces H (match mg with Some mg => mg_result mg | None => mkMergeResult [] [] end))).

(** [merge.FunctionNames[id]]. *)
Definition location (names : list string) (id : Z) : outcome string :=
  if (id <? 0)%Z then Panic else of_option (names !! Z.to_nat id).

Definition mergeProfilesStacktracesResult (H : slices) (results : list (option MergeResult)) : outcome (list stacktraces) :=
  obind (MergeBatchMergeStacktraces H results) (λ '(H, merge),
    omapM (λ s, obind (omapM (location (mr_FunctionNames merge)) (ids_of H s)) (λ locs, Ret (mkStack locs (sp_Value s))))
      (mr_Stacktraces merge)).
End Merge.

(** ** What a result means *)

Definition names_of (names : list string) (ids : list Z) : list string := function_name names <$> ids.

(** The stacks of a result, with the names of their functions. *)
Definition stacks_of (H : slices) (r : MergeResult) : list stacktraces :=
  (λ s, mkStack (names_of (mr_FunctionNames r) (ids_of H s)) (sp_Value s)) <$> mr_Stacktraces r.

Definition in_range (n : nat) (id : Z) : Prop := (0 ≤ id)%Z ∧ Z.to_nat id < n.
Definition in_names (names : list string) : Z → Prop := in_range (length names).

(** Indices are of functions of the result. *)
Definition sample_ok (H : slices) (names : list string) (s : StackSample) : Prop :=
  is_Some (H !! sp_FunctionIds s) ∧ Forall (in_names names) (ids_of H s).

Definition result_ok (H : slices) (r : MergeResult) : Prop := ∀ s, s ∈ mr_Stacktraces r → sample_ok H (mr_FunctionNames r) s.

Definition refs_of (r : MergeResult) : list nat := sp_FunctionIds <$> mr_Stacktraces r.

Lemma i32_small z : (0 ≤ z < 2 ^ 31)%Z → i32 z = z.
Proof. intros Hz. unfold i32. rewrite Z.mod_small; lia. Qed.

Lemma names_of_prefix names names' ids : names `prefix_of` names' → Forall (in_names names) ids → names_of names' ids = names_of names ids.
Proof.
  intros [k ->] Hids. unfold names_of. apply list_fmap_ext. intros i id Hi. rewrite Forall_forall in Hids.
  destruct (Hids id) as [_ Hlt]; [by eapply list_elem_of_lookup_2|]. unfold function_name. by rewrite lookup_app_l.
Qed.

Lemma in_names_prefix names names' ids : names `prefix_of` names' → Forall (in_names names) ids → Forall (in_names names') ids.
Proof. intros [k ->] Hids. eapply Forall_impl; [exact Hids|]. intros id [? ?]. split; [done|]. rewrite length_app. lia. Qed.

(** *** Names *)

Definition positions_ok (pos : gmap string Z) (names : list string) : Prop := ∀ n i, pos !! n = Some i → (0 ≤ i)%Z ∧ names !! Z.to_nat i = Some n.

Lemma build_positions_ok names : (Z.of_nat (length names) < 2 ^ 31)%Z → positions_ok (build_positions names) names.
Proof.
  intros Hl. unfold build_positions. enough (∀ k l m, names = k ++ l → positions_ok m names →
    positions_ok (foldl (λ m '(idx, n), <[n := i32 (Z.of_nat idx)]> m) m (imap (λ i n, (length k + i, n)) l)) names) as Hg by (by apply (Hg [] names ∅)).
  intros k l. revert k. induction l as [|n l IH]; intros k m Hk Hm; [done|]. cbn [imap foldl]. rewrite Nat.add_0_r.
  replace (imap ((λ i n, (length k + i, n)) ∘ S) l) with (imap (λ i y, (length (k ++ [n]) + i, y)) l)
    by (apply imap_ext; intros i x _; simpl; f_equal; rewrite length_app; simpl; lia).
  apply IH; [by rewrite <- (assoc_L (++))|]. intros x i [[<- <-]|[_ Hx]]%lookup_insert_Some; [|by apply Hm].
  assert (length k < length names) by (rewrite Hk, length_app; simpl; lia). rewrite i32_small by lia. split; [lia|]. by rewrite Nat2Z.id, Hk, list_lookup_middle.
Qed.

Lemma positions_ok_prefix pos names names' : names `prefix_of` names' → positions_ok pos names → positions_ok pos names'.
Proof. intros Hp Hpos n i [? ?]%Hpos. split; [done|]. by eapply prefix_lookup_Some. Qed.

Lemma rewrite_table_spec pos l : ∀ names t names', rewrite_table pos names l = (t, names') → positions_ok pos names →
  (Z.of_nat (length names + length l) < 2 ^ 31)%Z →
  names `prefix_of` names' ∧ length names' ≤ length names + length l ∧ Forall2 (λ n i, (0 ≤ i)%Z ∧ names' !! Z.to_nat i = Some n) l t.
Proof.
  induction l as [|n l IH]; intros names t names'; cbn [rewrite_table length]; [intros [= <- <-] _ _; split_and!; [done|lia|constructor]|].
  intros Heq Hpos Hlen. destruct (pos !! n) as [p|] eqn:Ep.
  - destruct (rewrite_table pos names l) as [t1 names1] eqn:E. injection Heq as <- <-. destruct (IH _ _ _ E Hpos) as (Hpre & Hl & Ht); [lia|].
    split_and!; [done|lia|]. constructor; [|done]. apply Hpos in Ep as [? ?]. split; [done|]. by eapply prefix_lookup_Some.
  - destruct (rewrite_table pos (names ++ [n]) l) as [t1 names1] eqn:E. injection Heq as <- <-.
    assert (Hpre0 : names `prefix_of` names ++ [n]) by (by eexists).
    destruct (IH _ _ _ E) as (Hpre & Hl & Ht); [by eapply positions_ok_prefix|rewrite length_app; simpl; lia|]. rewrite length_app in Hl. simpl in Hl.
    split_and!; [by etrans|lia|]. constructor; [|done]. rewrite i32_small by lia. split; [lia|]. rewrite Nat2Z.id. eapply prefix_lookup_Some; [|done]. by apply list_lookup_middle.
Qed.

(** *** Slices *)

Definition rewritten_ids (table : list Z) (ids : list Z) : list Z := (λ id, default 0%Z (table !! Z.to_nat id)) <$> ids.

Lemma rewritten_spec (table : list Z) ids : Forall (in_range (length table)) ids → omapM (rewritten table) ids = Ret (rewritten_ids table ids).
Proof.
  induction 1 as [|id ids [H0 H1] _ IH]; [done|]. cbn [omapM]. unfold rewritten at 1. rewrite (proj2 (Z.ltb_ge _ _)) by done.
  destruct (lookup_lt_is_Some_2 table (Z.to_nat id)) as [x Hx]; [lia|]. rewrite Hx. simpl. rewrite IH. simpl. by rewrite Hx.
Qed.

Lemma rewrite_slices_spec table refs : NoDup refs → ∀ H, (∀ r ids, r ∈ refs → H !! r = Some ids → Forall (in_range (length table)) ids) →
  (∀ r, r ∈ refs → is_Some (H !! r)) →
  ∃ H', rewrite_slices H table refs = Ret H' ∧ ∀ r, H' !! r = if decide (r ∈ refs) then rewritten_ids table <$> H !! r else H !! r.
Proof.
  induction 1 as [|r refs Hr Hnd IH]; intros H Hok Hsome; [by exists H|]. cbn [rewrite_slices].
  destruct (Hsome r) as [ids Hids]; [set_solver|]. rewrite Hids. simpl. rewrite rewritten_spec by (eapply Hok; [|done]; set_solver). simpl.
  destruct (IH (<[r := rewritten_ids table ids]> H)) as (H' & -> & HH').
  - intros r' ids' Hr' Hl. rewrite lookup_insert_ne in Hl by (intros ->; done). eapply Hok; [|done]. set_solver.
  - intros r' Hr'. rewrite lookup_insert_ne by (intros ->; done). apply Hsome. set_solver.
  - exists H'. split; [done|]. intros r'. rewrite HH'. destruct (decide (r' = r)) as [->|Hne].
    + rewrite decide_False by done. rewrite (decide_True (P := r ∈ r :: refs)) by set_solver. by rewrite lookup_insert_eq, Hids.
    + rewrite lookup_insert_ne by done. apply decide_ext. set_solver.
Qed.

(** *** Sums *)

Definition sum_samples (P : list string → bool) (names : list string) (H : slices) (l : list StackSample) : Z :=
  foldr (λ s acc, (if P (rev (names_of names (ids_of H s))) then sp_Value s else 0) + acc)%Z 0%Z l.

Lemma sum_stacks_of P H r : sum_where P (stacks_of H r) = sum_samples P (mr_FunctionNames r) H (mr_Stacktraces r).
Proof. unfold stacks_of. induction (mr_Stacktraces r) as [|s l IH]; [done|]. csimpl. by rewrite IH. Qed.

Lemma sum_samples_snoc P names H l s :
  sum_samples P names H (l ++ [s]) = (sum_samples P names H l + if P (rev (names_of names (ids_of H s))) then sp_Value s else 0)%Z.
Proof. induction l as [|x l IH]; simpl; [lia|]. rewrite IH. lia. Qed.

Lemma sum_samples_ext P names names' H H' l :
  (∀ s, s ∈ l → names_of names' (ids_of H' s) = names_of names (ids_of H s)) → sum_samples P names' H' l = sum_samples P names H l.
Proof. induction l as [|s l IH]; intros Hl; [done|]. simpl. rewrite IH, Hl by set_solver. done. Qed.

Lemma sum_samples_add P names H v l : ∀ i s, l !! i = Some s →
  i64 (sum_samples P names H (alter (add_value v) i l)) = i64 (sum_samples P names H l + if P (rev (names_of names (ids_of H s))) then v else 0).
Proof.
  induction l as [|x l IH]; intros [|i] s Hi; [done|done|..].
  - injection Hi as ->. change (alter (add_value v) 0 (s :: l)) with (add_value v s :: l). simpl. change (ids_of H (add_value v s)) with (ids_of H s).
    destruct (P _); [|by rewrite Z.add_0_r]. rewrite i64_add_l. f_equal. lia.
  - change (alter (add_value v) (S i) (x :: l)) with (x :: alter (add_value v) i l). simpl. rewrite <- i64_add_r, (IH _ _ Hi), i64_add_r. f_equal. lia.
Qed.

Section MergeSpec.
Context (Hashes : list Z → N).

Definition byhash_ok (H : slices) (result : list StackSample) (byHash : gmap N nat) : Prop :=
  ∀ h i, byHash !! h = Some i → ∃ s, result !! i = Some s ∧ Hashes (ids_of H s) = h.

(** Different slices of the samples have different hashes. *)
Definition no_collision (H : slices) (l : list StackSample) : Prop :=
  ∀ s s', s ∈ l → s' ∈ l → Hashes (ids_of H s) = Hashes (ids_of H s') → ids_of H s = ids_of H s'.

Lemma merge_stack_spec H result byHash s : byhash_ok H result byHash →
  let '(result', byHash') := merge_sample Hashes H (result, byHash) s in
  byhash_ok H result' byHash' ∧ (∀ x, x ∈ result' → ∃ y, y ∈ result ++ [s] ∧ sp_FunctionIds x = sp_FunctionIds y) ∧
  (∀ P names, P [] = false → no_collision H (result ++ [s]) →
    i64 (sum_samples P names H result') = i64 (sum_samples P names H result + sum_samples P names H [s])).
Proof.
  intros Hok. unfold merge_sample. destruct (ids_of H s) as [|id ids] eqn:Eids.
  - split_and!; [done|intros x Hx; exists x; set_solver|]. intros P names HP _. simpl. rewrite Eids. simpl. by rewrite HP, !Z.add_0_r.
  - rewrite <- Eids. destruct (byHash !! Hashes (ids_of H s)) as [i|] eqn:Ei.
    + destruct (Hok _ _ Ei) as (s0 & Hs0 & Hh). split_and!.
      * intros h j Hj. destruct (Hok h j Hj) as (x & Hx & Hhx). destruct (decide (i = j)) as [->|Hne].
        -- exists (add_value (sp_Value s) x). by rewrite list_lookup_alter_eq, Hx.
        -- exists x. by rewrite list_lookup_alter_ne.
      * intros x [j Hj]%list_elem_of_lookup. destruct (decide (i = j)) as [->|Hne].
        -- rewrite list_lookup_alter_eq, Hs0 in Hj. simplify_eq/=. exists s0. split; [|done]. apply elem_of_app. left. by eapply list_elem_of_lookup_2.
        -- rewrite list_lookup_alter_ne in Hj by done. exists x. split; [|done]. apply elem_of_app. left. by eapply list_elem_of_lookup_2.
      * intros P names HP Hnc. rewrite (sum_samples_add _ _ _ _ _ _ _ Hs0). simpl. rewrite Z.add_0_r. do 2 f_equal.
        rewrite (Hnc s0 s); [done| |set_solver|done]. apply elem_of_app. left. by eapply list_elem_of_lookup_2.
    + split_and!.
      * intros h j [[<- <-]|[_ Hj]]%lookup_insert_Some; [exists s; by rewrite list_lookup_middle|].
        destruct (Hok _ _ Hj) as (x & Hx & ?). exists x. split; [by apply lookup_app_l_Some|done].
      * intros x Hx. by exists x.
      * intros P names HP _. rewrite sum_samples_snoc. simpl. by rewrite Z.add_0_r.
Qed.

Lemma no_collision_sub H l l' : (∀ x, x ∈ l → ∃ y, y ∈ l' ∧ ids_of H x = ids_of H y) → no_collision H l' → no_collision H l.
Proof. intros Hl Hnc x y Hx Hy. destruct (Hl x Hx) as (x' & Hx' & ->), (Hl y Hy) as (y' & Hy' & ->). by apply Hnc. Qed.

Lemma merge_samples_spec H samples : ∀ result byHash, byhash_ok H result byHash →
  let '(result', byHash') := foldl (merge_sample Hashes H) (result, byHash) samples in
  byhash_ok H result' byHash' ∧ (∀ x, x ∈ result' → ∃ y, y ∈ result ++ samples ∧ sp_FunctionIds x = sp_FunctionIds y) ∧
  (∀ P names, P [] = false → no_collision H (result ++ samples) →
    i64 (sum_samples P names H result') = i64 (sum_samples P names H result + sum_samples P names H samples)).
Proof.
  induction samples as [|s samples IH]; intros result byHash Hok.
  - simpl. rewrite (right_id_L [] (++)). split_and!; [done|intros x Hx; by exists x|]. intros P names _ _. by rewrite Z.add_0_r.
  - cbn [foldl]. pose proof (merge_stack_spec H result byHash s Hok) as Hs. destruct (merge_sample Hashes H (result, byHash) s) as [r1 b1].
    destruct Hs as (Hok1 & Hin1 & Hsum1). specialize (IH r1 b1 Hok1). destruct (foldl _ (r1, b1) samples) as [r2 b2]. destruct IH as (Hok2 & Hin2 & Hsum2).
    assert (Hsub : ∀ y, y ∈ result ++ [s] → y ∈ result ++ s :: samples) by (intros y; rewrite !elem_of_app, !elem_of_cons, elem_of_nil; tauto).
    assert (Hids : ∀ x, x ∈ r1 ++ samples → ∃ y, y ∈ result ++ s :: samples ∧ sp_FunctionIds x = sp_FunctionIds y).
    { intros x [Hx|Hx]%elem_of_app; [destruct (Hin1 x Hx) as (y & Hy%Hsub & Hr); by exists y|].
      exists x. split; [|done]. rewrite elem_of_app, elem_of_cons. tauto. }
    split_and!; [done| |].
    + intros x Hx. destruct (Hin2 x Hx) as (y & Hy & ->). by apply Hids.
    + intros P names HP Hnc. rewrite Hsum2, <- i64_add_l, Hsum1, i64_add_l; [simpl; f_equal; lia|done|..|done|]; (eapply no_collision_sub; [|exact Hnc]).
      * intros x Hx. exists x. split; [by apply Hsub|done].
      * intros x (y & Hy & Hr)%Hids. exists y. split; [done|]. unfold ids_of. by rewrite Hr.
Qed.

Record merging_ok (H : slices) (mg : merging) : Prop := {
  mk_result : result_ok H (mg_result mg);
  mk_pos : ∀ pos, mg_posByName mg = Some pos → positions_ok pos (mr_FunctionNames (mg_result mg));
  mk_hash : byhash_ok H (mr_Stacktraces (mg_result mg)) (mg_stacktraces mg) }.

Lemma elem_used H samples r : r ∈ used_slices H samples ↔ ∃ s, s ∈ samples ∧ sp_FunctionIds s = r ∧ ids_of H s ≠ [].
Proof.
  unfold used_slices. rewrite elem_of_remove_dups, list_elem_of_fmap. split.
  - intros (s & -> & [Hs Hin]%list_elem_of_filter). by exists s.
  - intros (s & Hin & <- & Hs). exists s. split; [done|]. by apply list_elem_of_filter.
Qed.

(** The rewriting of the slices of a response. *)
Lemma rewrite_response H names table l resp :
  result_ok H resp → mr_FunctionNames resp = l → Forall2 (λ n i, (0 ≤ i)%Z ∧ names !! Z.to_nat i = Some n) l table →
  ∃ H', rewrite_slices H table (used_slices H (mr_Stacktraces resp)) = Ret H' ∧ (∀ r, r ∉ refs_of resp → H' !! r = H !! r) ∧
    (∀ s, s ∈ mr_Stacktraces resp → sample_ok H' names s ∧ names_of names (ids_of H' s) = names_of l (ids_of H s)).
Proof.
  intros Hok Hl Ht. pose proof (Forall2_length _ _ _ Ht) as Hlen.
  destruct (rewrite_slices_spec table (used_slices H (mr_Stacktraces resp)) (NoDup_remove_dups _) H) as (H' & Heq & HH').
  - intros r ids (s & Hs & <- & _)%elem_used Hr. destruct (Hok s Hs) as [_ Hids]. unfold ids_of in Hids. rewrite Hr in Hids. simpl in Hids.
    unfold in_names in Hids. by rewrite Hl, Hlen in Hids.
  - intros r (s & Hs & <- & _)%elem_used. by destruct (Hok s Hs).
  - exists H'. split; [done|]. split.
    + intros r Hr. rewrite HH', decide_False; [done|]. intros (s & Hs & <- & _)%elem_used. apply Hr. by apply list_elem_of_fmap_2.
    + intros s Hs. destruct (Hok s Hs) as [[ids Hids] Hin]. unfold sample_ok, ids_of in *. rewrite HH', Hids in *. simpl in Hin.
      case_decide as Hu; simpl.
      * split; [split; [by eexists|]|].
        -- apply Forall_fmap. eapply Forall_impl; [exact Hin|]. intros id [H0 H1]. simpl. rewrite Hl in H1.
           destruct (lookup_lt_is_Some_2 l _ H1) as [n Hn]. destruct (Forall2_lookup_l _ _ _ _ _ Ht Hn) as (i & Hi & Hi0 & Hi1). rewrite Hi. simpl.
           split; [done|]. by eapply lookup_lt_Some.
        -- unfold names_of, rewritten_ids. rewrite <- list_fmap_compose. apply list_fmap_ext. intros j id Hj. simpl.
           rewrite Forall_forall in Hin. destruct (Hin id) as [H0 H1]; [by eapply list_elem_of_lookup_2|]. rewrite Hl in H1.
           destruct (lookup_lt_is_Some_2 l _ H1) as [n Hn]. destruct (Forall2_lookup_l _ _ _ _ _ Ht Hn) as (i & Hi & Hi0 & Hi1). rewrite Hi. simpl.
           unfold function_name. by rewrite Hn, Hi1.
      * destruct ids as [|id ids]; [split; [split; [by eexists|constructor]|done]|].
        exfalso. apply Hu, elem_used. exists s. split_and!; [done|done|]. unfold ids_of. by rewrite Hids.
Qed.

Definition apart (a b : MergeResult) : Prop := ∀ r, r ∈ refs_of a → r ∉ refs_of b.

Lemma merge_response_spec H mg resp :
  merging_ok H mg → result_ok H resp → apart (mg_result mg) resp →
  (Z.of_nat (length (mr_FunctionNames (mg_result mg)) + length (mr_FunctionNames resp)) < 2 ^ 31)%Z →
  ∃ H' mg', merge_response Hashes H mg resp = Ret (H', mg') ∧ merging_ok H' mg' ∧ (∀ r, r ∉ refs_of resp → H' !! r = H !! r) ∧
    length (mr_FunctionNames (mg_result mg')) ≤ length (mr_FunctionNames (mg_result mg)) + length (mr_FunctionNames resp) ∧
    (∀ r, r ∈ refs_of (mg_result mg') → r ∈ refs_of (mg_result mg) ∨ r ∈ refs_of resp) ∧
    (∀ s, s ∈ mr_Stacktraces (mg_result mg) ++ mr_Stacktraces resp → is_Some (H' !! sp_FunctionIds s)) ∧
    (no_collision H' (mr_Stacktraces (mg_result mg) ++ mr_Stacktraces resp) → ∀ P, P [] = false →
      i64 (sum_where P (stacks_of H' (mg_result mg'))) = i64 (sum_where P (stacks_of H (mg_result mg)) + sum_where P (stacks_of H resp))).
Proof.
  intros [Hres Hpos Hhash] Hok Hap Hlen. unfold merge_response. set (res := mg_result mg) in *.
  assert (Hp : positions_ok (default (build_positions (mr_FunctionNames res)) (mg_posByName mg)) (mr_FunctionNames res)).
  { destruct (mg_posByName mg) as [pos|]; [by apply Hpos|]. apply build_positions_ok. lia. }
  set (pos := default _ _) in *. destruct (rewrite_table pos (mr_FunctionNames res) (mr_FunctionNames resp)) as [table names] eqn:Et.
  destruct (rewrite_table_spec _ _ _ _ _ Et Hp Hlen) as (Hpre & Hlen' & Htab).
  destruct (rewrite_response H names table _ resp Hok eq_refl Htab) as (H' & -> & Hframe & Hresp). simpl.
  assert (Hsame : ∀ s, s ∈ mr_Stacktraces res → H' !! sp_FunctionIds s = H !! sp_FunctionIds s).
  { intros s Hs. apply Hframe, Hap. by apply list_elem_of_fmap_2. }
  assert (Hids : ∀ s, s ∈ mr_Stacktraces res → ids_of H' s = ids_of H s) by (intros s Hs; unfold ids_of; by rewrite Hsame).
  assert (Hbh : byhash_ok H' (mr_Stacktraces res) (mg_stacktraces mg)).
  { intros h i Hi. destruct (Hhash h i Hi) as (s & Hs & <-). exists s. split; [done|]. by rewrite Hids by (by eapply list_elem_of_lookup_2). }
  pose proof (merge_samples_spec H' (mr_Stacktraces resp) _ _ Hbh) as Hm. destruct (foldl _ _ _) as [samples byHash]. destruct Hm as (Hbh' & Hin & Hsum).
  assert (Hall : ∀ s, s ∈ mr_Stacktraces res ++ mr_Stacktraces resp → sample_ok H' names s).
  { intros s [Hs|Hs]%elem_of_app; [|by apply Hresp]. destruct (Hres s Hs) as [? ?]. split; [by rewrite Hsame|]. rewrite Hids by done. by eapply in_names_prefix. }
  eexists H', _. split; [done|]. simpl. split_and!; [|done|done| |intros s Hs; by destruct (Hall s Hs)|].
  - split; simpl; [|by intros ? [= <-]; eapply positions_ok_prefix|done]. intros s Hs. destruct (Hin s Hs) as (y & Hy & Hr).
    destruct (Hall y Hy) as [? ?]. unfold sample_ok, ids_of in *. by rewrite Hr.
  - intros r (s & -> & Hs)%list_elem_of_fmap. destruct (Hin s Hs) as (y & [Hy|Hy]%elem_of_app & ->); [left|right]; by apply list_elem_of_fmap_2.
  - intros Hnc P HP. rewrite !sum_stacks_of. simpl. rewrite Hsum by done. f_equal. f_equal; apply sum_samples_ext.
    + intros s Hs. rewrite Hids by done. apply names_of_prefix; [done|]. by destruct (Hres s Hs).
    + intros s Hs. by apply Hresp.
Qed.

(** All later responses. *)
Definition some_resps (resps : list (option MergeResult)) : list MergeResult := omap (λ x, x) resps.

Fixpoint apart_all (l : list MergeResult) : Prop :=
  match l with [] => True | r :: l => (∀ r', r' ∈ l → apart r r') ∧ apart_all l end.

Definition names_count (l : list MergeResult) : nat := foldr (λ r n, length (mr_FunctionNames r) + n) 0 l.
Definition sum_resps (P : list string → bool) (H : slices) (l : list MergeResult) : Z := foldr (λ r acc, sum_where P (stacks_of H r) + acc)%Z 0%Z l.

Lemma sum_resps_ext P H H' l : (∀ r s, r ∈ l → s ∈ mr_Stacktraces r → ids_of H' s = ids_of H s) → sum_resps P H' l = sum_resps P H l.
Proof.
  induction l as [|r l IH]; intros Hl; [done|]. simpl. rewrite IH by (intros; eapply Hl; [right|]; done). rewrite !sum_stacks_of.
  rewrite (sum_samples_ext P (mr_FunctionNames r) (mr_FunctionNames r) H H'); [done|]. intros s Hs. by rewrite (Hl r s) by (by left || done).
Qed.

(** No two different slices of the store have the same hash. *)
Definition collision_free (H : slices) : Prop := ∀ r r' a b, H !! r = Some a → H !! r' = Some b → Hashes a = Hashes b → a = b.

Lemma collision_free_samples H H' l : collision_free H → (∀ s, s ∈ l → is_Some (H' !! sp_FunctionIds s) ∧ H !! sp_FunctionIds s = H' !! sp_FunctionIds s) → no_collision H' l.
Proof.
  intros Hcf Hl s s' Hs Hs'. destruct (Hl s Hs) as [[a Ha] Hsa], (Hl s' Hs') as [[b Hb] Hsb]. unfold ids_of. rewrite Ha, Hb. simpl.
  rewrite Ha in Hsa. rewrite Hb in Hsb. by apply (Hcf (sp_FunctionIds s) (sp_FunctionIds s')).
Qed.

(** What the rest of the responses must be for a state. *)
Record rest_ok (H : slices) (mg : merging) (l : list MergeResult) : Prop := {
  ro_ok : ∀ r, r ∈ l → result_ok H r ∧ apart (mg_result mg) r;
  ro_apart : apart_all l;
  ro_names : (Z.of_nat (length (mr_FunctionNames (mg_result mg)) + names_count l) < 2 ^ 31)%Z }.

Lemma rest_ok_step H mg resp l H' mg' :
  rest_ok H mg (resp :: l) → (∀ r, r ∉ refs_of resp → H' !! r = H !! r) →
  length (mr_FunctionNames (mg_result mg')) ≤ length (mr_FunctionNames (mg_result mg)) + length (mr_FunctionNames resp) →
  (∀ r, r ∈ refs_of (mg_result mg') → r ∈ refs_of (mg_result mg) ∨ r ∈ refs_of resp) →
  rest_ok H' mg' l ∧ ∀ r s, r ∈ l → s ∈ mr_Stacktraces r → H' !! sp_FunctionIds s = H !! sp_FunctionIds s.
Proof.
  intros [Hok [Hap1 Hap] Hn] Hframe Hlen Hrefs. simpl in Hn.
  assert (Hsame : ∀ r s, r ∈ l → s ∈ mr_Stacktraces r → H' !! sp_FunctionIds s = H !! sp_FunctionIds s).
  { intros r s Hr Hs. apply Hframe. intros Hin. apply (Hap1 r Hr _ Hin). by apply list_elem_of_fmap_2. }
  split; [split; [|done|lia]|done]. intros r Hr. destruct (Hok r) as [Hrok Hra]; [by right|]. split.
  - intros s Hs. destruct (Hrok s Hs) as [? ?]. unfold sample_ok, ids_of in *. by rewrite (Hsame r s).
  - intros x [Hx|Hx]%Hrefs; [by apply Hra|by apply (Hap1 r)].
Qed.

Lemma merge_responses_spec resps : ∀ H mg, merging_ok H mg → rest_ok H mg (some_resps resps) →
  ∃ Hf mg', merge_responses Hashes H (Some mg) resps = Ret (Hf, Some mg') ∧ merging_ok Hf mg' ∧
    (∀ r, (∀ x, x ∈ some_resps resps → r ∉ refs_of x) → Hf !! r = H !! r) ∧
    (collision_free Hf → ∀ P, P [] = false →
      i64 (sum_where P (stacks_of Hf (mg_result mg'))) = i64 (sum_where P (stacks_of H (mg_result mg)) + sum_resps P H (some_resps resps))).
Proof.
  induction resps as [|[resp|] resps IH]; intros H mg Hmg Hrest.
  - exists H, mg. split_and!; [done|done|done|]. intros _ P _. simpl. by rewrite Z.add_0_r.
  - change (some_resps (Some resp :: resps)) with (resp :: some_resps resps) in *.
    destruct (mr_Stacktraces resp) as [|s0 samples] eqn:Es.
    + destruct Hrest as [Hok [_ Hap] Hn]. simpl in Hn. destruct (IH H mg Hmg) as (Hf & mg' & Heq & Hmg' & Hframe & Hsum).
      { split; [intros r Hr; apply Hok; by right|done|lia]. }
      exists Hf, mg'. cbn [merge_responses]. rewrite Es. split_and!; [done|done|intros r Hr; apply Hframe; intros x Hx; apply Hr; by right|].
      intros Hcf P HP. rewrite Hsum by done. simpl. by rewrite (sum_stacks_of P H resp), Es.
    + destruct (ro_ok _ _ _ Hrest resp) as [Hrok Hra]; [by left|].
      destruct (merge_response_spec H mg resp Hmg Hrok Hra) as (H1 & mg1 & Heq & Hmg1 & Hf1 & Hlen1 & Hrefs1 & Hsome1 & Hsum1).
      { destruct Hrest as [_ _ Hn]. simpl in Hn. lia. }
      destruct (rest_ok_step _ _ _ _ _ _ Hrest Hf1 Hlen1 Hrefs1) as [Hrest1 Hsame].
      destruct (IH H1 mg1 Hmg1 Hrest1) as (Hf & mg' & Heq' & Hmg' & Hframe & Hsum). exists Hf, mg'.
      assert (merge_responses Hashes H (Some mg) (Some resp :: resps) = Ret (Hf, Some mg')) as ->.
      { cbn [merge_responses]. rewrite Es. cbn [obind]. rewrite Heq. exact Heq'. }
      split_and!; [done|done| |].
      * intros r Hr. rewrite Hframe by (intros x Hx; apply Hr; by right). apply Hf1, Hr. by left.
      * intros Hcf P HP. rewrite Hsum by done. rewrite <- i64_add_l, Hsum1, i64_add_l; [|..|done].
        -- f_equal. simpl. rewrite (sum_resps_ext P H H1); [lia|]. intros r s Hr Hs. unfold ids_of. by rewrite (Hsame r s).
        -- apply (collision_free_samples Hf); [done|]. intros s Hs. split; [by apply Hsome1|]. apply Hframe. intros x Hx Hin.
           destruct Hrest as [Hok [Hap1 _] _]. apply elem_of_app in Hs as [Hs|Hs].
           ++ destruct (Hok x) as [_ Ha]; [by right|]. apply (Ha (sp_FunctionIds s)); [by apply list_elem_of_fmap_2|done].
           ++ apply (Hap1 x Hx (sp_FunctionIds s)); [by apply list_elem_of_fmap_2|done].
  - by apply IH.
Qed.

Lemma first_result_ok H resp : result_ok H resp → merging_ok H (first_result Hashes H resp).
Proof.
  intros Hok. split; simpl; [done|done|]. enough (∀ k l m, mr_Stacktraces resp = k ++ l → byhash_ok H (mr_Stacktraces resp) m →
    byhash_ok H (mr_Stacktraces resp) (foldl (λ m '(i, s), <[Hashes (ids_of H s) := i]> m) m (imap (λ i s, (length k + i, s)) l))) as Hg
    by (apply (Hg [] _ ∅ eq_refl); done).
  intros k l. revert k. induction l as [|s l IH]; intros k m Hk Hm; [done|]. cbn [imap foldl]. rewrite Nat.add_0_r.
  replace (imap ((λ i s, (length k + i, s)) ∘ S) l) with (imap (λ i y, (length (k ++ [s]) + i, y)) l)
    by (apply imap_ext; intros i x _; simpl; f_equal; rewrite length_app; simpl; lia).
  apply IH; [by rewrite <- (assoc_L (++))|]. intros h i [[<- <-]|[_ Hi]]%lookup_insert_Some; [|by apply Hm].
  exists s. split; [|done]. by rewrite Hk, list_lookup_middle.
Qed.

Definition final_result (mg : option merging) : MergeResult := match mg with Some mg => mg_result mg | None => mkMergeResult [] [] end.

Lemma merge_all_spec resps H : (∀ r, r ∈ some_resps resps → result_ok H r) → apart_all (some_resps resps) →
  (Z.of_nat (names_count (some_resps resps)) < 2 ^ 31)%Z →
  ∃ Hf mg, merge_responses Hashes H None resps = Ret (Hf, mg) ∧ result_ok Hf (final_result mg) ∧
    (collision_free Hf → ∀ P, P [] = false → i64 (sum_where P (stacks_of Hf (final_result mg))) = i64 (sum_resps P H (some_resps resps))).
Proof.
  induction resps as [|[resp|] resps IH]; intros Hok Hap Hn.
  - exists H, None. split_and!; [done|intros s Hs; by apply not_elem_of_nil in Hs|done].
  - change (some_resps (Some resp :: resps)) with (resp :: some_resps resps) in *. destruct Hap as [Hap1 Hap]. simpl in Hn.
    cbn [merge_responses]. destruct (mr_Stacktraces resp) as [|s0 samples] eqn:Es.
    + destruct IH as (Hf & mg & Heq & Hr & Hsum); [intros r Hr; apply Hok; by right|done|lia|]. exists Hf, mg. split_and!; [done|done|].
      intros Hcf P HP. rewrite Hsum by done. simpl. by rewrite (sum_stacks_of P H resp), Es.
    + destruct (merge_responses_spec resps H (first_result Hashes H resp)) as (Hf & mg & Heq & Hmg & _ & Hsum).
      { apply first_result_ok, Hok. by left. }
      { split; [intros r Hr; split; [apply Hok; by right|by apply Hap1]|done|simpl; lia]. }
      exists Hf, (Some mg). split_and!; [done|by destruct Hmg|]. intros Hcf P HP. by rewrite Hsum.
  - by apply IH.
Qed.

Lemma sum_samples_perm P names H l l' : l ≡ₚ l' → sum_samples P names H l = sum_samples P names H l'.
Proof. induction 1 as [|s l l' _ IH|s s' l|l l' l'' _ IH1 _ IH2]; simpl; [done|by rewrite IH|lia|congruence]. Qed.

Lemma locations_spec H names s : sample_ok H names s →
  obind (omapM (location names) (ids_of H s)) (λ locs, Ret (mkStack locs (sp_Value s))) = Ret (mkStack (names_of names (ids_of H s)) (sp_Value s)).
Proof.
  intros [_ Hin]. replace (omapM (location names) (ids_of H s)) with (Ret (names_of names (ids_of H s))); [done|]. symmetry. apply omapM_ret.
  unfold names_of. rewrite <- (list_fmap_id (ids_of H s)) at 1. apply Forall2_fmap, Forall_Forall2_diag. eapply Forall_impl; [exact Hin|].
  intros id [H0 H1]. unfold location, function_name. simpl. rewrite (proj2 (Z.ltb_ge _ _)) by done. by destruct (lookup_lt_is_Some_2 _ _ H1) as [n ->].
Qed.
End MergeSpec.

(** The sums of the merged stacks. *)
Lemma merged_stacks_sum (Hashes : list Z → N) (H : slices) (resps : list (option MergeResult)) :
  (∀ r, r ∈ some_resps resps → result_ok H r) → apart_all (some_resps resps) → (Z.of_nat (names_count (some_resps resps)) < 2 ^ 31)%Z →
  ∃ H' m stacks, MergeBatchMergeStacktraces Hashes H resps = Ret (H', m) ∧ mergeProfilesStacktracesResult Hashes H resps = Ret stacks ∧
    (collision_free Hashes H' → ∀ P, P [] = false → i64 (sum_where P stacks) = i64 (sum_resps P H (some_resps resps))).
Proof.
  intros Hok Hap Hn. destruct (merge_all_spec Hashes resps H Hok Hap Hn) as (Hf & mg & Heq & Hr & Hsum).
  exists Hf, (sortStacktraces Hf (final_result mg)), (stacks_of Hf (sortStacktraces Hf (final_result mg))).
  assert (Hm : MergeBatchMergeStacktraces Hashes H resps = Ret (Hf, sortStacktraces Hf (final_result mg))) by (unfold MergeBatchMergeStacktraces; by rewrite Heq).
  split; [done|]. unfold mergeProfilesStacktracesResult. rewrite Hm. cbn [obind].
  pose proof (sort_slice_perm (λ s s', stack_less (mr_FunctionNames (final_result mg)) (ids_of Hf s) (ids_of Hf s')) (mr_Stacktraces (final_result mg))) as Hperm. split.
  - apply omapM_ret. unfold stacks_of, sortStacktraces in *. simpl in *. apply Forall2_fmap_r, Forall_Forall2_diag, Forall_forall.
    intros s Hs. rewrite Hperm in Hs. by apply locations_spec, Hr.
  - intros Hcf P HP. rewrite <- Hsum by done. rewrite !sum_stacks_of. simpl. by rewrite (sum_samples_perm _ _ _ _ _ Hperm).
Qed.

(** Merging responses keeps what their stacks sum to.  When the indices of every response are of its own
    functions and responses do not share slices, the merge succeeds whatever names they
    share, and, if no two different slices of the result have the same hash, every set of
    non-empty stacks (told by the names of the functions, root first) has in the merged
    stacks the sum it has in all responses together, modulo 2^64. *)
Theorem merge_stacktraces_correct (Hashes : list Z → N) (H : slices) (resps : list (option MergeResult)) :
  (∀ r, r ∈ some_resps resps → result_ok H r) → apart_all (some_resps resps) → (Z.of_nat (names_count (some_resps resps)) < 2 ^ 31)%Z →
  ∃ H' m stacks, MergeBatchMergeStacktraces Hashes H resps = Ret (H', m) ∧ mergeProfilesStacktracesResult Hashes H resps = Ret stacks ∧
    (collision_free Hashes H' → ∀ P, P [] = false → i64 (sum_where P stacks) = i64 (sum_resps P H (some_resps resps))).
Proof. apply merged_stacks_sum. Qed.

Definition example_slices : slices := {[0 := [0; 1]%Z; 1 := [1]%Z; 2 := [0; 1]%Z; 3 := [1; 0]%Z]}.
Definition example_responses : list (option MergeResult) :=
  [Some (mkMergeResult [mkStackSample 0 3; mkStackSample 1 4] ["f"; "g"]); None;
   Some (mkMergeResult [mkStackSample 2 5; mkStackSample 2 6; mkStackSample 3 1] ["g"; "h"])].
Definition example_hash (l : list Z) : N := foldl (λ h x, 100 * h + Z.to_N x + 1)%N 0%N l.

Lemma merge_stacktraces_witness :
  ∃ stacks, mergeProfilesStacktracesResult example_hash example_slices example_responses = Ret stacks ∧
    i64 (sum_where (is_path ["h"; "g"]) stacks) = 11%Z.
Proof.
  destruct (merge_stacktraces_correct example_hash example_slices example_responses) as (H' & m & stacks & Hm & Hs & Hsum).
  - intros r Hr. repeat (apply elem_of_cons in Hr as [->|Hr]; [intros s Hs; repeat (apply elem_of_cons in Hs as [->|Hs];
      [split; [by eexists|repeat constructor; simpl; lia]|]); by apply not_elem_of_nil in Hs|]). by apply not_elem_of_nil in Hr.
  - split; [|split; [|exact I]].
    + intros r Hr. apply list_elem_of_singleton in Hr as ->. intros x Hx Hy. set_solver.
    + intros r Hr. by apply not_elem_of_nil in Hr.
  - reflexivity.
  - exists stacks. split; [exact Hs|]. rewrite Hsum; [reflexivity| |reflexivity].
    assert (Hl : map_to_list H' = [(2, [1; 2]%Z); (3, [2; 1]%Z); (1, [1]%Z); (0, [0; 1]%Z)]) by (vm_compute in Hm; injection Hm as <- _; vm_compute; reflexivity).
    clear Hm Hsum. intros r r' x y Hx Hy. apply elem_of_map_to_list in Hx, Hy. rewrite Hl in Hx, Hy.
    repeat (apply elem_of_cons in Hx as [[= -> ->]|Hx]; [repeat (apply elem_of_cons in Hy as [[= -> ->]|Hy];
      [intros E; first [reflexivity|vm_compute in E; discriminate E]|]); by apply not_elem_of_nil in Hy|]); by apply not_elem_of_nil in Hx.
Defined.
