(* ===== verification/SelectMerge.v ===== *)
(** * Selecting profiles across ingesters (src/pkg/querier/select_merge.go)

    Every ingester streams its profiles in batches; the querier answers each batch with the
    profiles to keep.  [skipDuplicates] walks all streams in order and keeps one of the
    profiles that several ingesters have.  An iterator is owned by the heap, by the tuples
    that were popped, or is done. *)

From S2P Require Import Prelude Labels GoHeap.

(** ** Interfaces *)

Record QProfile := mkQProfile { q_Timestamp : Z; q_Labels : Labels; q_IngesterAddr : string }.

Class MergeIterator (It : Type) := {
  mi_Next : It → bool * It;
  mi_At : It → QProfile;
  mi_Keep : It → It;
  mi_Close : It → option string * It;
  mi_Err : It → option string }.

(** ** Skipping duplicates *)

Section Skip.
Context {It : Type} `{MergeIterator It}.
(** [multierror.MultiError], and the order in which concurrent calls end. *)
Context (multi : list string → string) (orders : nat → list It → list It).

(** [ProfileIteratorHeap.Less]. *)
Definition it_less (a b : It) : bool :=
  let p1 := mi_At a in let p2 := mi_At b in
  if (q_Timestamp p1 =? q_Timestamp p2)%Z then (CompareLabelPairs (q_Labels p1) (q_Labels p2) <? 0)%Z
  else (q_Timestamp p1 <? q_Timestamp p2)%Z.

(** The iterators advance; those that are done are closed, the others are pushed. *)
Fixpoint requeue (h done eis : list It) : list It * list It :=
  match eis with
  | [] => (h, done)
  | ei :: eis =>
      let '(more, ei) := mi_Next ei in
      if more then requeue (heap_push it_less ei h) done eis else requeue h (done ++ [(mi_Close ei).2]) eis
  end.

(** The error that the call for one iterator sends. *)
Definition requeue_err (ei : It) : option string :=
  let '(more, ei) := mi_Next ei in if more then None else mi_Err (mi_Close ei).2.

Definition requeueAsync (n : nat) (h done : list It) (eis : list It) : outcome (list It * list It) :=
  match omap requeue_err eis with [] => Ret (requeue h done (orders n eis)) | errs => Fail (multi errs) end.

Definition other_profile (a b : QProfile) : bool :=
  negb (q_Timestamp a =? q_Timestamp b)%Z || negb (CompareLabelPairs (q_Labels a) (q_Labels b) =? 0)%Z.

(** The inner loop: the iterators that are at the same profile as the first. *)
Fixpoint collect (fuel : nat) (h tuples : list It) : list It * list It :=
  match fuel, h with
  | S fuel, next :: _ =>
      let stop := match tuples with t :: _ => other_profile (mi_At t) (mi_At next) | [] => false end in
      if stop then (h, tuples)
      else match heap_pop it_less h with Some (_, h) => collect fuel h (tuples ++ [next]) | None => (h, tuples) end
  | _, _ => (h, tuples)
  end.

(** The outer loop; the single last iterator is not closed. *)
Fixpoint skip_loop (fuel n : nat) (h done : list It) : outcome (list It) :=
  match fuel with
  | O => Panic
  | S fuel =>
      match h with
      | [] => Ret done
      | [it] =>
          let '(more, it) := mi_Next (mi_Keep it) in
          if more then skip_loop fuel n [it] done else skip_loop fuel n [] (done ++ [it])
      | _ =>
          let '(h, tuples) := collect (length h) h [] in
          match tuples with
          | [] => Panic
          | t :: ts => obind (requeueAsync n h done (mi_Keep t :: ts)) (λ '(h, done), skip_loop fuel (S n) h done)
          end
      end
  end.

(** The iterators as they are left. *)
Definition skipDuplicates (fuel : nat) (its : list It) : outcome (list It) :=
  obind (requeueAsync 0 [] [] its) (λ '(h, done), skip_loop fuel 1 h done).
End Skip.

(** ** The merge iterator *)

Record SeriesProfile := mkSeriesProfile { sp_LabelIndex : Z; sp_ts : Z }.
Record ProfileSets := mkProfileSets { ps_LabelsSets : list Labels; ps_Profiles : list SeriesProfile }.

(** A bidirectional stream: a request carries the profiles to keep of a batch, a response a batch or the result. *)
Class BidiClientMerge (B R : Type) := {
  bidi_Send : B → list bool → option string * B;
  bidi_Receive : B → (option ProfileSets * R + string) * B;
  bidi_CloseRequest : B → option string * B;
  bidi_CloseResponse : B → option string * B }.

Record mergeIterator (B : Type) := mkMergeIterator {
  mi_bidi : B; mi_addr : string; mi_err : option string; mi_curr : option ProfileSets; mi_currIdx : nat; mi_keep : list bool; mi_keepSent : bool }.
Arguments mkMergeIterator {B} _ _ _ _ _ _ _.
Arguments mi_bidi {B} _. Arguments mi_addr {B} _. Arguments mi_err {B} _. Arguments mi_curr {B} _.
Arguments mi_currIdx {B} _. Arguments mi_keep {B} _. Arguments mi_keepSent {B} _.

Section MergeIter.
Context {B R : Type} `{BidiClientMerge B R}.

Definition NewMergeIterator (addr : string) (b : B) : mergeIterator B := mkMergeIterator b addr None None 0 [] true.

Definition set_bidi (s : mergeIterator B) (b : B) (err : option string) : mergeIterator B :=
  mkMergeIterator b (mi_addr s) err (mi_curr s) (mi_currIdx s) (mi_keep s) (mi_keepSent s).

(** The end of the batch: the selection is sent and the next batch is received. *)
Definition next_batch (s : mergeIterator B) : bool * mergeIterator B :=
  let '(err, b) := if mi_keepSent s then (None, mi_bidi s) else bidi_Send (mi_bidi s) (mi_keep s) in
  match err with
  | Some e => (false, set_bidi s b (Some e))
  | None =>
      match bidi_Receive b with
      | (inr e, b) => (false, set_bidi s b (Some e))
      | (inl (None, _), b) => (false, set_bidi s b (mi_err s))
      | (inl (Some ps, _), b) =>
          match ps_Profiles ps with
          | [] => (false, set_bidi s b (mi_err s))
          | _ => (true, mkMergeIterator b (mi_addr s) (mi_err s) (Some ps) 0 (replicate (length (ps_Profiles ps)) false) false)
          end
      end
  end.

Definition merge_Next (s : mergeIterator B) : bool * mergeIterator B :=
  match mi_curr s with
  | None => next_batch s
  | Some ps =>
      if (length (ps_Profiles ps) - 1 <=? mi_currIdx s)%nat then next_batch s
      else (true, mkMergeIterator (mi_bidi s) (mi_addr s) (mi_err s) (mi_curr s) (S (mi_currIdx s)) (mi_keep s) (mi_keepSent s))
  end.

(** [keep[currIdx]] and [At] panic where there is no current profile. *)
Definition merge_Keep (s : mergeIterator B) : outcome (mergeIterator B) :=
  if decide (mi_currIdx s < length (mi_keep s)) then
    Ret (mkMergeIterator (mi_bidi s) (mi_addr s) (mi_err s) (mi_curr s) (mi_currIdx s) (<[mi_currIdx s := true]> (mi_keep s)) (mi_keepSent s))
  else Panic.

Definition profile_of (addr : string) (ps : ProfileSets) (p : SeriesProfile) : option QProfile :=
  if (sp_LabelIndex p <? 0)%Z then None else (λ lbs, mkQProfile (sp_ts p) lbs addr) <$> ps_LabelsSets ps !! Z.to_nat (sp_LabelIndex p).

Definition merge_At (s : mergeIterator B) : outcome QProfile :=
  of_option (ps ← mi_curr s; p ← ps_Profiles ps !! mi_currIdx s; profile_of (mi_addr s) ps p).

Definition merge_Result (s : mergeIterator B) : (R + string) * mergeIterator B :=
  match bidi_Receive (mi_bidi s) with
  | (inr e, b) => (inr e, set_bidi s b (Some e))
  | (inl (_, result), b) =>
      let '(err, b) := bidi_CloseResponse b in
      (inl result, set_bidi s b (match err with Some e => Some e | None => mi_err s end))
  end.

Definition merge_Close (s : mergeIterator B) : option string * mergeIterator B :=
  let '(err, b) := bidi_CloseRequest (mi_bidi s) in (err, set_bidi s b (mi_err s)).

(** The interface; where the code panics, a value that the laws below never use. *)
#[export] Instance merge_iterator : MergeIterator (mergeIterator B) := {|
  mi_Next := merge_Next;
  mi_At s := match merge_At s with Ret p => p | _ => mkQProfile 0 [] "" end;
  mi_Keep s := match merge_Keep s with Ret s => s | _ => s end;
  mi_Close := merge_Close;
  mi_Err := mi_err |}.
End MergeIter.

(** ** What an iterator promises *)

(** [mi_view it kept cur todo]: what has been kept so far, the profile that may be kept, and what is
    still to come; [mi_ended it kept]: the iterator is done. *)
Class MergeIteratorOk (It : Type) `{MergeIterator It} := {
  mi_view : It → list QProfile → option QProfile → list QProfile → Prop;
  mi_ended : It → list QProfile → Prop;
  mi_next_some it kept cur x todo : mi_view it kept cur (x :: todo) → ∃ it', mi_Next it = (true, it') ∧ mi_view it' kept (Some x) todo;
  mi_next_none it kept cur : mi_view it kept cur [] →
    ∃ it', mi_Next it = (false, it') ∧ mi_ended it' kept ∧ mi_ended (mi_Close it').2 kept ∧ mi_Err (mi_Close it').2 = None;
  mi_at_view it kept x todo : mi_view it kept (Some x) todo → mi_At it = x;
  mi_keep_view it kept x todo : mi_view it kept (Some x) todo → mi_view (mi_Keep it) (kept ++ [x]) None todo }.

(** The key of a profile, and its order. *)
Definition q_key (p : QProfile) : Z * Labels := (q_Timestamp p, q_Labels p).
Definition key_lt (a b : Z * Labels) : Prop := (a.1 < b.1)%Z ∨ a.1 = b.1 ∧ (CompareLabelPairs a.2 b.2 < 0)%Z.

Lemma key_lt_irrefl a : ¬ key_lt a a.
Proof. intros [?|[_ Hc]]; [lia|]. rewrite (proj2 (CompareLabelPairs_zero a.2 a.2) eq_refl) in Hc. lia. Qed.

Lemma key_lt_trans a b c : key_lt a b → key_lt b c → key_lt a c.
Proof. intros [?|[? ?]] [?|[? ?]]; [left; lia|left; lia|left; lia|right; split; [lia|by eapply CompareLabelPairs_trans]]. Qed.

Lemma key_trichotomy a b : key_lt a b ∨ a = b ∨ key_lt b a.
Proof.
  destruct a as [ta la], b as [tb lb]. unfold key_lt. simpl. destruct (Z.lt_trichotomy ta tb) as [?|[->|?]]; [by do 2 left| |by right; right; left].
  pose proof (CompareLabelPairs_opp la lb) as Ho. destruct (Z.lt_trichotomy (CompareLabelPairs la lb) 0) as [?|[Hz|?]].
  - left. by right.
  - right. left. apply CompareLabelPairs_zero in Hz. by subst.
  - right. right. right. split; [done|lia].
Qed.

Lemma other_profile_key a b : other_profile a b = false ↔ q_key a = q_key b.
Proof.
  unfold other_profile, q_key. rewrite orb_false_iff, !negb_false_iff, !Z.eqb_eq, CompareLabelPairs_zero.
  split; [intros [-> ->]; done|intros [= -> ->]; done].
Qed.

Lemma it_less_key {It} `{MergeIterator It} (a b : It) : it_less a b = true ↔ key_lt (q_key (mi_At a)) (q_key (mi_At b)).
Proof.
  unfold it_less, key_lt, q_key. simpl. destruct (Z.eqb_spec (q_Timestamp (mi_At a)) (q_Timestamp (mi_At b))) as [E|E]; rewrite Z.ltb_lt; [|lia].
  split; [by right|intros [?|[_ ?]]; [lia|done]].
Qed.

(** ** Each profile is kept once *)

Global Instance it_less_weak {It} `{MergeIterator It} : WeakOrder (it_less (It := It)).
Proof.
  assert (Hle : ∀ a b : It, hle it_less a b ↔ ¬ key_lt (q_key (mi_At b)) (q_key (mi_At a))) by (intros a b; unfold hle; rewrite <- it_less_key; by destruct (it_less b a)).
  split.
  - intros a. apply Hle, key_lt_irrefl.
  - intros a b c Hab%Hle Hbc%Hle. apply Hle. intros Hca. destruct (key_trichotomy (q_key (mi_At a)) (q_key (mi_At b))) as [Hl|[He|Hl]]; [|congruence|done].
    apply Hbc. by eapply key_lt_trans.
  - intros a b. rewrite !Hle. destruct (key_trichotomy (q_key (mi_At a)) (q_key (mi_At b))) as [Hl|[He|Hl]].
    + left. intros Hc. by apply (key_lt_irrefl (q_key (mi_At a))), (key_lt_trans _ _ _ Hl).
    + left. rewrite He. apply key_lt_irrefl.
    + right. intros Hc. by apply (key_lt_irrefl (q_key (mi_At a))), (key_lt_trans _ _ _ Hc).
Qed.

(** How often a key is in a list of profiles. *)
Definition count (k : Z * Labels) (l : list QProfile) : nat := length (filter (λ p, q_key p = k) l).

Lemma count_app k l l' : count k (l ++ l') = count k l + count k l'.
Proof. unfold count. by rewrite filter_app, length_app. Qed.

Lemma count_pos k l : 0 < count k l ↔ k ∈ q_key <$> l.
Proof.
  unfold count. rewrite list_elem_of_fmap. split.
  - destruct (filter _ l) as [|p l'] eqn:E; cbn; [lia|]. intros _. exists p. assert (p ∈ filter (λ p, q_key p = k) l) as [<- ?]%list_elem_of_filter by (rewrite E; left). done.
  - intros (p & -> & Hp). assert (p ∈ filter (λ p', q_key p' = q_key p) l) as Hin by by apply list_elem_of_filter. destruct (filter _ l); [by apply not_elem_of_nil in Hin|cbn; lia].
Qed.

Section SkipSpec.
Context {It : Type} `{MergeIteratorOk It}.
Context (multi : list string → string) (orders : nat → list It → list It) (Hord : ∀ n l, orders n l ≡ₚ l).

(** Whether the streams are known to be sorted and without repetition. *)
Context (sorted : Prop).

(** An iterator with its view. *)
Record ghost := mkGhost { g_it : It; g_kept : list QProfile; g_cur : option QProfile; g_todo : list QProfile }.

Definition g_ok (g : ghost) : Prop := mi_view (g_it g) (g_kept g) (g_cur g) (g_todo g) ∧ (sorted → StronglySorted key_lt (q_key <$> g_todo g)).

(** On the heap: at a profile, which is before the rest of a sorted stream. *)
Definition at_profile (g : ghost) (x : QProfile) : Prop :=
  g_ok g ∧ g_cur g = Some x ∧ (sorted → Forall (λ y, key_lt (q_key x) (q_key y)) (g_todo g)).

Definition g_keys (g : ghost) : list (Z * Labels) := q_key <$> match g_cur g with Some x => x :: g_todo g | None => g_todo g end.

Definition on_heap (g : ghost) : Prop := ∃ x, at_profile g x.

(** A done iterator with what it kept. *)
Definition kept_count (k : Z * Labels) (gh : list ghost) (gd : list (It * list QProfile)) : nat :=
  sum_list_with (λ g, count k (g_kept g)) gh + sum_list_with (λ d, count k d.2) gd.

Definition all_ended (done : list It) (gd : list (It * list QProfile)) : Prop := done = gd.*1 ∧ Forall (λ d, mi_ended d.1 d.2) gd.

Lemma on_heap_at g x : at_profile g x → mi_At (g_it g) = x.
Proof. intros ([Hv _] & Hc & _). rewrite Hc in Hv. by eapply mi_at_view. Qed.

(** *** Advancing *)

(** The ghosts that are still there after a step, and the ones that are done. *)
(** What a step does with the counts, the keys and the sizes, and what it leaves behind, from iterators
    [ge] that advance and a heap [gh]. *)
Definition moved (ge gh : list ghost) (gd : list (It * list QProfile)) gh' gd' : Prop :=
  (∀ k, kept_count k gh' gd' = kept_count k (ge ++ gh) gd) ∧
  (∀ k, (∃ g, g ∈ gh' ∧ k ∈ g_keys g) ↔ (∃ g, g ∈ ge ∧ k ∈ q_key <$> g_todo g) ∨ (∃ g, g ∈ gh ∧ k ∈ g_keys g)) ∧
  sum_list_with (λ g, length (g_keys g)) gh' = sum_list_with (λ g, length (g_todo g)) ge + sum_list_with (λ g, length (g_keys g)) gh.

Definition stepped (ge gh : list ghost) (gd : list (It * list QProfile)) (h' done' : list It) : Prop :=
  ∃ gh' gd', h' ≡ₚ g_it <$> gh' ∧ is_heap it_less h' ∧ Forall on_heap gh' ∧ all_ended done' gd' ∧ moved ge gh gd gh' gd'.

Lemma next_on_heap g x todo : g_ok g → g_todo g = x :: todo →
  ∃ it', mi_Next (g_it g) = (true, it') ∧ at_profile (mkGhost it' (g_kept g) (Some x) todo) x.
Proof.
  intros [Hv Hsort] Et. rewrite Et in Hv, Hsort. destruct (mi_next_some _ _ _ _ _ Hv) as (it' & Hn & Hv'). exists it'. split; [done|].
  rewrite fmap_cons in Hsort. split_and!; [split; [done|]|done|]; intros Hs; specialize (Hsort Hs); apply StronglySorted_inv in Hsort as [Hsort Hx]; [done|]. by rewrite Forall_fmap in Hx.
Qed.

Lemma next_done g : g_ok g → g_todo g = [] →
  ∃ it', mi_Next (g_it g) = (false, it') ∧ mi_ended it' (g_kept g) ∧ mi_ended (mi_Close it').2 (g_kept g) ∧ mi_Err (mi_Close it').2 = None.
Proof. intros [Hv _] Et. rewrite Et in Hv. by eapply mi_next_none. Qed.

Lemma requeue_all_done ge : ∀ gh gd h done, Forall g_ok ge → h ≡ₚ g_it <$> gh → is_heap it_less h → Forall on_heap gh → all_ended done gd →
  ∃ h' done', requeue h done (g_it <$> ge) = (h', done') ∧ stepped ge gh gd h' done'.
Proof.
  induction ge as [|g ge IH]; intros gh gd h done Hge Hh Hheap Hgh Hd.
  - exists h, done. split; [done|]. exists gh, gd. unfold moved. split_and!; try done. intros k. split; [by right|]. intros [(g & Hg & _)|?]; [by apply not_elem_of_nil in Hg|done].
  - apply Forall_cons in Hge as [Hg Hge]. rewrite fmap_cons. cbn [requeue]. destruct (g_todo g) as [|x todo] eqn:Et.
    + destruct (next_done g Hg Et) as (it' & -> & _ & He & _).
      destruct (IH gh (gd ++ [((mi_Close it').2, g_kept g)]) h (done ++ [(mi_Close it').2]) Hge Hh Hheap Hgh) as (h' & done' & -> & gh' & gd' & Hh' & Hheap' & Hgh' & Hd' & Hk & Hocc & Hlen).
      { destruct Hd as [-> Hd]. split; [by rewrite fmap_app|]. apply Forall_app. by repeat constructor. }
      exists h', done'. split; [done|]. exists gh', gd'. unfold moved. split_and!; try done.
      * intros k. rewrite Hk. unfold kept_count. rewrite !sum_list_with_app. simpl. lia.
      * intros k. rewrite Hocc. split; (intros [(y & Hy & Hk')|?]; [left|by right]).
        -- exists y. split; [by right|done].
        -- apply elem_of_cons in Hy as [->|Hy]; [rewrite Et in Hk'; by apply not_elem_of_nil in Hk'|by exists y].
      * rewrite Hlen. simpl. by rewrite Et.
    + destruct (next_on_heap g x todo Hg Et) as (it' & -> & Hx). set (g' := mkGhost it' (g_kept g) (Some x) todo) in *.
      destruct (IH (g' :: gh) gd (heap_push it_less it' h) done Hge) as (h' & done' & -> & gh' & gd' & Hh' & Hheap' & Hgh' & Hd' & Hk & Hocc & Hlen).
      { by rewrite heap_push_perm, Hh. }
      { by apply heap_push_heap; [apply _|]. }
      { constructor; [by exists x|done]. }
      { done. }
      exists h', done'. split; [done|]. exists gh', gd'. unfold moved. split_and!; try done.
      * intros k. rewrite Hk. unfold kept_count. rewrite !sum_list_with_app. simpl. lia.
      * intros k. rewrite Hocc. split.
        -- intros [(y & Hy & Hk')|(y & [->|Hy]%elem_of_cons & Hk')]; [left; exists y; split; [by right|done]|left; exists g; split; [by left|by rewrite Et]|right; by exists y].
        -- intros [(y & [->|Hy]%elem_of_cons & Hk')|(y & Hy & Hk')]; [right; exists g'; split; [by left|by rewrite Et in Hk']|left; by exists y|right; exists y; split; [by right|done]].
      * rewrite Hlen. simpl. rewrite Et. simpl. rewrite length_fmap. lia.
Qed.

Lemma requeue_no_err ge : Forall g_ok ge → omap requeue_err (g_it <$> ge) = [].
Proof.
  induction 1 as [|g ge Hg Hge IH]; [done|]. csimpl. unfold requeue_err at 1. destruct (g_todo g) as [|x todo] eqn:Et.
  - destruct (next_done g Hg Et) as (it' & -> & _ & _ & ->). done.
  - destruct (next_on_heap g x todo Hg Et) as (it' & -> & _). done.
Qed.

Lemma requeueAsync_spec n ge gh gd h done : Forall g_ok ge → h ≡ₚ g_it <$> gh → is_heap it_less h → Forall on_heap gh → all_ended done gd →
  ∃ h' done', requeueAsync multi orders n h done (g_it <$> ge) = Ret (h', done') ∧ stepped ge gh gd h' done'.
Proof.
  intros Hge Hh Hheap Hgh Hd. destruct (Permutation_map_inv _ _ (Hord n (g_it <$> ge))) as (ge' & Heq & Hp).
  unfold requeueAsync. rewrite requeue_no_err by done.
  destruct (requeue_all_done ge' gh gd h done) as (h' & done' & Hr & gh' & gd' & Hs1 & Hs2 & Hs3 & Hs4 & Hk & Hocc & Hlen); [by rewrite <- Hp|done..|].
  change (g_it <$> ge') with (map g_it ge') in Hr. rewrite <- Heq in Hr. exists h', done'. split; [by f_equal|]. exists gh', gd'. unfold moved. split_and!; try done.
  - intros k. rewrite Hk. unfold kept_count. by rewrite Hp.
  - intros k. rewrite Hocc. split; (intros [(y & Hy & ?)|?]; [left; exists y; split; [|done]; by rewrite Hp in Hy || rewrite Hp|by right]).
  - rewrite Hlen. by rewrite Hp.
Qed.

(** *** The tuples of one profile *)

Definition at_key (m : Z * Labels) (g : ghost) : Prop := ∃ x, at_profile g x ∧ q_key x = m.
Definition after_key (m : Z * Labels) (g : ghost) : Prop := ∃ x, at_profile g x ∧ key_lt m (q_key x).

Lemma heap_front (h : list It) gh : h ≡ₚ g_it <$> gh → is_heap it_less h → gh ≠ [] →
  ∃ g gh' h1 hr, h = g_it g :: hr ∧ heap_pop it_less h = Some (g_it g, h1) ∧ gh ≡ₚ g :: gh' ∧ h1 ≡ₚ g_it <$> gh' ∧ is_heap it_less h1 ∧
    (∀ y, y ∈ gh' → ¬ key_lt (q_key (mi_At (g_it y))) (q_key (mi_At (g_it g)))).
Proof.
  intros Hh Hheap Hne. destruct (heap_pop_spec it_less h Hheap) as (a & h1 & Hpop & Ha & Hheap1 & Hp & Hmin).
  { intros ->. apply Permutation_nil_l in Hh. symmetry in Hh; by apply fmap_nil_inv in Hh. }
  destruct h as [|a' hr]; [done|]. injection Ha as ->. assert (Hin : a ∈ g_it <$> gh) by (rewrite <- Hh; left).
  apply list_elem_of_fmap in Hin as (g & -> & Hg). apply list_elem_of_split in Hg as (l1 & l2 & ->).
  assert (Hgp : l1 ++ g :: l2 ≡ₚ g :: (l1 ++ l2)) by (by rewrite Permutation_middle).
  exists g, (l1 ++ l2), h1, hr. split_and!; try done.
  - apply (Permutation_cons_inv (a := g_it g)). by rewrite <- Hp, Hh, Hgp.
  - intros y Hy Hlt. apply it_less_key in Hlt. specialize (Hmin (g_it y)). unfold hle in Hmin. rewrite Hmin in Hlt; [done|].
    rewrite Hh, Hgp. apply list_elem_of_fmap. exists y. split; [done|]. by right.
Qed.

Lemma collect_spec g m : at_key m g → ∀ fuel g1 gh h, length gh ≤ fuel → h ≡ₚ g_it <$> gh → is_heap it_less h →
  Forall (λ g, at_key m g ∨ after_key m g) gh →
  ∃ h' gh1 gh2, collect fuel h (g_it <$> g :: g1) = (h', g_it <$> g :: g1 ++ gh1) ∧ gh ≡ₚ gh1 ++ gh2 ∧ h' ≡ₚ g_it <$> gh2 ∧ is_heap it_less h' ∧
    Forall (at_key m) gh1 ∧ Forall (after_key m) gh2.
Proof.
  intros (x & Hx & Hkx) fuel. induction fuel as [|fuel IH]; intros g1 gh h Hf Hh Hheap Hgh.
  { destruct gh; [|simpl in Hf; lia]. exists h, [], []. rewrite (right_id_L [] (++)). by split_and!. }
  destruct (decide (gh = [])) as [->|Hne].
  { apply Permutation_nil_r in Hh as ->. exists [], [], []. rewrite (right_id_L [] (++)). by split_and!. }
  destruct (heap_front h gh Hh Hheap Hne) as (gn & gh' & h1 & hr & -> & Hpop & Hp & Hh1 & Hheap1 & Hmin).
  rewrite Hp in Hgh. apply Forall_cons in Hgh as [Hgn Hgh']. assert (Hgx : ∃ xn, at_profile gn xn) by (destruct Hgn as [(? & ? & _)|(? & ? & _)]; eauto).
  destruct Hgx as [xn Hxn]. change (g_it <$> g :: g1) with (g_it g :: (g_it <$> g1)). cbn [collect]. rewrite (on_heap_at _ _ Hx), (on_heap_at _ _ Hxn).
  destruct (other_profile x xn) eqn:Eo.
  - exists (g_it gn :: hr), [], gh. rewrite (right_id_L [] (++)). split_and!; try done.
    assert (Haft : after_key m gn).
    { destruct Hgn as [(y & Hy & Hky)|?]; [|done]. assert (y = xn) as -> by (destruct Hy as (_ & Hc & _), Hxn as (_ & Hc' & _); congruence).
      exfalso. assert (other_profile x xn = false) by (apply other_profile_key; congruence). congruence. }
    rewrite Hp. constructor; [done|]. rewrite Forall_forall in Hgh' |- *. intros y Hy. destruct (Hgh' y Hy) as [(z & Hz & Hkz)|?]; [|done].
    exfalso. apply (Hmin y Hy). rewrite (on_heap_at _ _ Hz), (on_heap_at _ _ Hxn), Hkz.
    destruct Haft as (w & Hw & Hlt). assert (w = xn) as -> by (destruct Hw as (_ & Hc & _), Hxn as (_ & Hc' & _); congruence). done.
  - rewrite Hpop. apply other_profile_key in Eo.
    destruct (IH (g1 ++ [gn]) gh' h1) as (h' & gh1 & gh2 & Hcol & Hp' & Hh' & Hheap' & Hat & Haft); [|done..|].
    { rewrite Hp in Hf. simpl in Hf. lia. }
    exists h', (gn :: gh1), gh2. split_and!; try done.
    + rewrite fmap_cons, fmap_app in Hcol. simpl in Hcol |- *. etransitivity; [exact Hcol|]. by rewrite <- (assoc_L (++)).
    + by rewrite Hp, Hp'.
    + constructor; [|done]. exists xn. split; [done|congruence].
Qed.

Lemma collect_first gh h : gh ≠ [] → h ≡ₚ g_it <$> gh → is_heap it_less h → Forall on_heap gh →
  ∃ m h' g gh1 gh2, collect (length h) h [] = (h', g_it <$> g :: gh1) ∧ gh ≡ₚ g :: gh1 ++ gh2 ∧ h' ≡ₚ g_it <$> gh2 ∧ is_heap it_less h' ∧
    at_key m g ∧ Forall (at_key m) gh1 ∧ Forall (after_key m) gh2.
Proof.
  intros Hne Hh Hheap Hgh. destruct (heap_front h gh Hh Hheap Hne) as (g & gh' & h1 & hr & -> & Hpop & Hp & Hh1 & Hheap1 & Hmin).
  rewrite Hp in Hgh. apply Forall_cons in Hgh as [(x & Hx) Hgh]. assert (Hg : at_key (q_key x) g) by (by exists x).
  cbn [length collect]. rewrite Hpop.
  destruct (collect_spec g (q_key x) Hg (length hr) [] gh' h1) as (h' & gh1 & gh2 & Hcol & Hp' & Hh' & Hheap' & Hat & Haft); [|done..| |].
  { apply Permutation_length in Hh, Hp. rewrite length_fmap in Hh. simpl in *. lia. }
  { rewrite Forall_forall in Hgh |- *. intros y Hy. destruct (Hgh y Hy) as (z & Hz). specialize (Hmin y Hy).
    rewrite (on_heap_at _ _ Hx), (on_heap_at _ _ Hz) in Hmin. destruct (key_trichotomy (q_key x) (q_key z)) as [?|[?|?]]; [right|left|done]; by exists z. }
  exists (q_key x), h', g, gh1, gh2. split_and!; try done. by rewrite Hp, Hp'.
Qed.

(** *** The loop *)

Definition keep_ghost (g : ghost) (x : QProfile) : ghost := mkGhost (mi_Keep (g_it g)) (g_kept g ++ [x]) None (g_todo g).

Lemma keep_ok g x : at_profile g x → g_ok (keep_ghost g x).
Proof. intros ([Hv Hs] & Hc & _). rewrite Hc in Hv. split; [by apply mi_keep_view|done]. Qed.

Lemma at_keys g x k : at_profile g x → k ∈ g_keys g ↔ k = q_key x ∨ k ∈ q_key <$> g_todo g.
Proof. intros (_ & Hc & _). unfold g_keys. rewrite Hc, fmap_cons. apply elem_of_cons. Qed.

Lemma at_length g x : at_profile g x → length (g_keys g) = S (length (g_todo g)).
Proof. intros (_ & Hc & _). unfold g_keys. by rewrite Hc, length_fmap. Qed.

Lemma todo_after g x : sorted → at_profile g x → q_key x ∉ q_key <$> g_todo g.
Proof.
  intros Hs (_ & _ & Hf) (y & Hy & Hin)%list_elem_of_fmap. specialize (Hf Hs). rewrite Forall_forall in Hf. apply Hf in Hin. rewrite Hy in Hin. by apply key_lt_irrefl in Hin.
Qed.

(** Whether a key is still to come. *)
Definition occurs (k : Z * Labels) (gh : list ghost) : nat := if decide (Exists (λ g, k ∈ g_keys g) gh) then 1 else 0.

Lemma occurs_iff k gh gh' : ((∃ g, g ∈ gh ∧ k ∈ g_keys g) ↔ (∃ g, g ∈ gh' ∧ k ∈ g_keys g)) → occurs k gh = occurs k gh'.
Proof. intros Hi. unfold occurs. do 2 case_decide; try done; rewrite Exists_exists in *; naive_solver. Qed.

Lemma occurs_yes k gh g : g ∈ gh → k ∈ g_keys g → occurs k gh = 1.
Proof. intros Hg Hk. unfold occurs. rewrite decide_True; [done|]. apply Exists_exists. eauto. Qed.

Lemma occurs_no k gh : (∀ g, g ∈ gh → (k ∉ g_keys g)) → occurs k gh = 0.
Proof. intros Hn. unfold occurs. rewrite decide_False; [done|]. intros (g & Hg & Hk)%Exists_exists. by apply (Hn g). Qed.

Lemma count_one k x : count k [x] = if decide (q_key x = k) then 1 else 0.
Proof. unfold count. rewrite filter_cons. by case_decide. Qed.

(** One profile is kept, and counted once more: no key is forgotten, and in sorted streams its key no longer occurs. *)
Lemma advance_once g x gh gh1 gh2 gd gh' gd' : at_profile g x → Forall (at_key (q_key x)) gh1 → Forall (after_key (q_key x)) gh2 →
  gh ≡ₚ g :: gh1 ++ gh2 → moved (keep_ghost g x :: gh1) gh2 gd gh' gd' →
  (∀ k, (0 < kept_count k gh' gd' + occurs k gh' ↔ 0 < kept_count k gh gd + occurs k gh) ∧
    (sorted → kept_count k gh' gd' + occurs k gh' = kept_count k gh gd + occurs k gh)) ∧
  sum_list_with (λ g, length (g_keys g)) gh' < sum_list_with (λ g, length (g_keys g)) gh.
Proof.
  intros Hx H1 H2 Hp (Hk & Hocc & Hlen). rewrite Forall_forall in H1, H2. split.
  - intros k. rewrite Hk. assert (Hc : kept_count k ((keep_ghost g x :: gh1) ++ gh2) gd = kept_count k gh gd + (if decide (q_key x = k) then 1 else 0)).
    { unfold kept_count. rewrite Hp. simpl. rewrite count_app, count_one. lia. }
    rewrite Hc. destruct (decide (q_key x = k)) as [<-|Hne].
    + rewrite (occurs_yes _ gh g); [|rewrite Hp; left|apply (at_keys _ x); [done|by left]]. split; [lia|]. intros Hs. rewrite (occurs_no _ gh'); [lia|].
      intros y Hy Hky. destruct (proj1 (Hocc (q_key x)) (ex_intro _ y (conj Hy Hky))) as [(z & Hz & Hkz)|(z & Hz & Hkz)].
      * apply elem_of_cons in Hz as [->|Hz]; [by apply (todo_after g x)|]. destruct (H1 z Hz) as (w & Hw & Hkw). apply (todo_after z w Hs Hw). by rewrite Hkw.
      * destruct (H2 z Hz) as (w & Hw & Hlt). destruct (proj1 (at_keys z w _ Hw) Hkz) as [Hkz'|Hkz'].
        -- rewrite Hkz' in Hlt. by apply key_lt_irrefl in Hlt.
        -- apply list_elem_of_fmap in Hkz' as (v & Hv & Hin). destruct Hw as (_ & _ & Hf). specialize (Hf Hs). rewrite Forall_forall in Hf. apply Hf in Hin.
           rewrite Hv in Hlt. by apply (key_lt_irrefl (q_key w)), (key_lt_trans _ (q_key v)).
    + rewrite Nat.add_0_r. replace (occurs k gh') with (occurs k gh); [done|]. symmetry. apply occurs_iff. rewrite Hocc. split.
      * intros [(z & [->|Hz]%elem_of_cons & Hkz)|(z & Hz & Hkz)].
        -- exists g. split; [rewrite Hp; left|apply (at_keys _ x); [done|by right]].
        -- exists z. destruct (H1 z Hz) as (w & Hw & _). split; [rewrite Hp; right; apply elem_of_app; by left|apply (at_keys _ w); [done|by right]].
        -- exists z. split; [rewrite Hp; right; apply elem_of_app; by right|done].
      * intros (z & Hz & Hkz). rewrite Hp in Hz. apply elem_of_cons in Hz as [->|[Hz|Hz]%elem_of_app].
        -- destruct (proj1 (at_keys g x _ Hx) Hkz) as [->|Hkz']; [done|]. left. exists (keep_ghost g x). split; [by left|done].
        -- destruct (H1 z Hz) as (w & Hw & Hkw). destruct (proj1 (at_keys z w _ Hw) Hkz) as [->|Hkz']; [congruence|]. left. exists z. split; [by right|done].
        -- right. by exists z.
  - rewrite Hlen, Hp. simpl. rewrite (at_length _ _ Hx), sum_list_with_app.
    assert (Hle : sum_list_with (λ g, length (g_todo g)) gh1 ≤ sum_list_with (λ g, length (g_keys g)) gh1); [|lia].
    clear -H1. induction gh1 as [|z gh1 IH]; [done|]. simpl. destruct (H1 z) as (w & Hw & _); [by left|]. rewrite (at_length _ _ Hw).
    assert (sum_list_with (λ g, length (g_todo g)) gh1 ≤ sum_list_with (λ g, length (g_keys g)) gh1) by (apply IH; intros y Hy; apply H1; by right). lia.
Qed.

(** The last iterator keeps its profile and advances. *)
Lemma last_step g x gd done : at_profile g x → all_ended done gd → ∃ gh' gd' more it, mi_Next (mi_Keep (g_it g)) = (more, it) ∧
  (if more then [it] else []) = g_it <$> gh' ∧ Forall on_heap gh' ∧ all_ended (if more then done else done ++ [it]) gd' ∧ moved [keep_ghost g x] [] gd gh' gd'.
Proof.
  intros Hx [-> Hd]. pose proof (keep_ok g x Hx) as Hok. destruct (g_todo g) as [|y todo] eqn:Et.
  - destruct (next_done _ Hok Et) as (it & Hn & He & _). simpl in Hn. exists [], (gd ++ [(it, g_kept g ++ [x])]), false, it.
    split_and!; [done|done|constructor|split; [by rewrite fmap_app|apply Forall_app; by repeat constructor]|]. unfold moved, kept_count. simpl. rewrite Et. split_and!; [|split|done].
    + intros k. rewrite sum_list_with_app. simpl. lia.
    + intros (z & Hz & _). by apply not_elem_of_nil in Hz.
    + intros [(z & ->%list_elem_of_singleton & Hk)|(z & Hz & _)]; [simpl in Hk; rewrite Et in Hk|]; by apply not_elem_of_nil in Hk || apply not_elem_of_nil in Hz.
  - destruct (next_on_heap _ y todo Hok Et) as (it & Hn & Hy). simpl in Hn, Hy. exists [mkGhost it (g_kept g ++ [x]) (Some y) todo], gd, true, it.
    split_and!; try done; [constructor; [by exists y|constructor]|]. unfold moved, kept_count. simpl. rewrite Et. split_and!; [done|split|unfold g_keys; simpl; by rewrite length_fmap].
    + intros (z & ->%list_elem_of_singleton & Hk). left. exists (keep_ghost g x). split; [by left|]. simpl. by rewrite Et.
    + intros [(z & ->%list_elem_of_singleton & Hk)|(z & Hz & _)]; [|by apply not_elem_of_nil in Hz]. simpl in Hk. rewrite Et in Hk. eexists. split; [by left|done].
Qed.

Lemma skip_loop_spec fuel : ∀ n gh gd h done, sum_list_with (λ g, length (g_keys g)) gh < fuel → h ≡ₚ g_it <$> gh → is_heap it_less h →
  Forall on_heap gh → all_ended done gd →
  ∃ done' gd', skip_loop multi orders fuel n h done = Ret done' ∧ all_ended done' gd' ∧
    ∀ k, (0 < kept_count k [] gd' ↔ 0 < kept_count k gh gd + occurs k gh) ∧ (sorted → kept_count k [] gd' = kept_count k gh gd + occurs k gh).
Proof.
  induction fuel as [|fuel IH]; intros n gh gd h done Hf Hh Hheap Hgh Hd; [lia|]. cbn [skip_loop]. destruct h as [|i1 [|i2 h]].
  - apply Permutation_nil_l in Hh. symmetry in Hh. apply fmap_nil_inv in Hh as ->. exists done, gd. split_and!; [done..|]. intros k. rewrite occurs_no; [split; lia|]. intros g Hg. by apply not_elem_of_nil in Hg.
  - apply Permutation_singleton_l in Hh. symmetry in Hh. destruct gh as [|g [|]]; simplify_eq/=. apply Forall_singleton in Hgh as [x Hx].
    destruct (last_step g x gd done Hx Hd) as (gh' & gd' & more & it & -> & Hi & Hgh' & Hd' & Hm).
    destruct (advance_once g x [g] [] [] gd gh' gd' Hx) as [Hk Hlt]; [constructor|constructor|done|done|].
    destruct (IH n gh' gd' (if more then [it] else []) (if more then done else done ++ [it])) as (d & gd'' & Hl & Hd'' & Hk'); [simpl in *; lia|by rewrite Hi|destruct more; [intros j Hj; simpl in Hj; lia|apply is_heap_nil]|done..|].
    exists d, gd''. split_and!; [by destruct more|done|]. intros k. destruct (Hk k) as [Hk1 Hk2], (Hk' k) as [Hk1' Hk2']. split; [by rewrite Hk1', Hk1|intros Hs; by rewrite (Hk2' Hs), (Hk2 Hs)].
  - set (hh := i1 :: i2 :: h) in *. destruct (collect_first gh hh) as (m & h' & g & gh1 & gh2 & Hcol & Hp & Hh' & Hheap' & (x & Hx & <-) & H1 & H2); try done.
    { intros ->. by apply Permutation_nil_r in Hh. }
    rewrite Hcol, fmap_cons. destruct (requeueAsync_spec n (keep_ghost g x :: gh1) gh2 gd h' done) as (h2 & d2 & Hr & gh' & gd' & Hh2 & Hheap2 & Hgh' & Hd' & Hm); try done.
    { constructor; [by apply keep_ok|]. eapply Forall_impl; [exact H1|]. by intros z (w & [Hw _] & _). }
    { eapply Forall_impl; [exact H2|]. intros z (w & Hw & _). by exists w. }
    change (g_it <$> keep_ghost g x :: gh1) with (mi_Keep (g_it g) :: (g_it <$> gh1)) in Hr. rewrite Hr. cbn [obind].
    destruct (advance_once g x gh gh1 gh2 gd gh' gd' Hx H1 H2 Hp Hm) as [Hk Hlt].
    destruct (IH (S n) gh' gd' h2 d2) as (d & gd'' & Hl & Hd'' & Hk'); [lia|done..|].
    exists d, gd''. split_and!; [done..|]. intros k. destruct (Hk k) as [Hk1 Hk2], (Hk' k) as [Hk1' Hk2']. split; [by rewrite Hk1', Hk1|intros Hs; by rewrite (Hk2' Hs), (Hk2 Hs)].
Qed.

Lemma skip_all ge fuel : Forall g_ok ge → Forall (λ g, g_cur g = None) ge → sum_list_with (λ g, length (g_todo g)) ge < fuel →
  ∃ done gd, skipDuplicates multi orders fuel (g_it <$> ge) = Ret done ∧ all_ended done gd ∧
    ∀ k, (0 < kept_count k [] gd ↔ 0 < kept_count k ge [] + occurs k ge) ∧ (sorted → kept_count k [] gd = kept_count k ge [] + occurs k ge).
Proof.
  intros Hge Hnone Hf. unfold skipDuplicates. destruct (requeueAsync_spec 0 ge [] [] [] []) as (h & d & -> & gh & gd & Hh & Hheap & Hgh & Hd & Hk & Hocc & Hlen); try done.
  cbn [obind]. destruct (skip_loop_spec fuel 1 gh gd h d) as (d' & gd' & Hl & Hd' & Hk'); [simpl in Hlen; lia|done..|].
  exists d', gd'. split_and!; [done..|]. intros k. specialize (Hk' k). rewrite Hk, (right_id_L [] (++)) in Hk'. replace (occurs k ge) with (occurs k gh); [done|]. apply occurs_iff. rewrite Hocc. rewrite Forall_forall in Hnone. split.
  - intros [(g & Hg & Hkg)|(g & Hg & _)]; [|by apply not_elem_of_nil in Hg]. exists g. split; [done|]. unfold g_keys. by rewrite (Hnone g Hg).
  - intros (g & Hg & Hkg). left. exists g. split; [done|]. unfold g_keys in Hkg. by rewrite (Hnone g Hg) in Hkg.
Qed.
End SkipSpec.

(** ** The merge iterator keeps its promise *)

(** A stream [b] that sends the batches [all]: [n] of them were received, and [sent] are the selections. *)
Class BidiOk (B R : Type) `{BidiClientMerge B R} := {
  bd_view : B → list ProfileSets → list (list bool) → nat → Prop;
  bd_send b all sent n keep : bd_view b all sent n → ∃ b', bidi_Send b keep = (None, b') ∧ bd_view b' all (sent ++ [keep]) n;
  bd_receive b all sent n ps : bd_view b all sent n → all !! n = Some ps →
    ∃ r b', bidi_Receive b = (inl (Some ps, r), b') ∧ bd_view b' all sent (S n);
  bd_end b all sent n : bd_view b all sent n → all !! n = None → ∃ r b', bidi_Receive b = (inl (None, r), b') ∧ bd_view b' all sent n;
  bd_close b all sent n : bd_view b all sent n → bd_view (bidi_CloseRequest b).2 all sent n }.

(** The profiles of a batch, and the selected ones of all batches. *)
Definition profiles_of (addr : string) (ps : ProfileSets) : list QProfile := omap (profile_of addr ps) (ps_Profiles ps).
Definition selected {A} (l : list A) (mask : list bool) : list A := (filter (λ p, p.2 = true) (zip l mask)).*1.
Definition kept_profiles (addr : string) (all : list ProfileSets) (sent : list (list bool)) : list QProfile :=
  concat (zip_with (λ ps mask, selected (profiles_of addr ps) mask) all sent).

Definition batch_ok (addr : string) (ps : ProfileSets) : Prop :=
  ps_Profiles ps ≠ [] ∧ Forall (λ p, is_Some (profile_of addr ps p)) (ps_Profiles ps).

Lemma selected_app {A} (l l' : list A) m m' : length l = length m → selected (l ++ l') (m ++ m') = selected l m ++ selected l' m'.
Proof. intros Hl. unfold selected. by rewrite zip_with_app, filter_app, fmap_app by done. Qed.

Lemma selected_none {A} (l : list A) k : selected l (replicate k false) = [].
Proof.
  revert k. induction l as [|x l IH]; intros [|k]; [done..|]. unfold selected in *. simpl. rewrite filter_cons_False by done. apply IH.
Qed.

(** Selecting the current element, when none after it is selected. *)
Lemma selected_insert {A} (l : list A) m x : l !! length m = Some x → ∀ k, k = length l - S (length m) →
  selected l (m ++ true :: replicate k false) = selected l (m ++ false :: replicate k false) ++ [x].
Proof.
  intros Hx k Hk. assert (Hlt := lookup_lt_Some _ _ _ Hx). rewrite <- (take_drop_middle l (length m) x Hx).
  rewrite !selected_app by (rewrite length_take; lia). rewrite <- (assoc_L (++)). f_equal. unfold selected. cbn [zip_with].
  rewrite filter_cons_True by done. rewrite filter_cons_False by (by intros [=]). rewrite fmap_cons. pose proof (selected_none (drop (S (length m)) l) k) as Hn. unfold selected in Hn. by rewrite !Hn.
Qed.

Lemma profiles_of_lookup addr ps i p : batch_ok addr ps → ps_Profiles ps !! i = Some p → profiles_of addr ps !! i = profile_of addr ps p.
Proof.
  intros [_ Hall]. unfold profiles_of. revert i. induction Hall as [|q l [x Hx] _ IH]; intros i Hi; [done|]. csimpl. rewrite Hx.
  destruct i as [|i]; [by injection Hi as ->|by apply IH].
Qed.

Lemma profiles_of_length addr ps : batch_ok addr ps → length (profiles_of addr ps) = length (ps_Profiles ps).
Proof. intros [_ Hall]. unfold profiles_of. induction Hall as [|q l [x Hx] _ IH]; [done|]. csimpl. rewrite Hx. simpl. by f_equal. Qed.

Section MergeIterOk.
Context {B R : Type} `{BidiOk B R}.

(** The batch at hand: the selection is of profiles before [k], and not sent yet. *)
Definition in_batch (s : mergeIterator B) (all : list ProfileSets) (sent : list (list bool)) (ps : ProfileSets) (k : nat) : Prop :=
  mi_curr s = Some ps ∧ all !! length sent = Some ps ∧ mi_keepSent s = false ∧
  ∃ m, length m = k ∧ mi_keep s = m ++ replicate (length (ps_Profiles ps) - k) false.

Definition merge_view (s : mergeIterator B) (kept : list QProfile) (cur : option QProfile) (todo : list QProfile) : Prop :=
  mi_err s = None ∧ ∃ all sent, Forall (batch_ok (mi_addr s)) all ∧
    ((mi_curr s = None ∧ mi_keepSent s = true ∧ sent = [] ∧ bd_view (mi_bidi s) all [] 0 ∧ kept = [] ∧ cur = None ∧
      todo = concat (profiles_of (mi_addr s) <$> all)) ∨
     (∃ ps, bd_view (mi_bidi s) all sent (S (length sent)) ∧ mi_currIdx s < length (ps_Profiles ps) ∧
      in_batch s all sent ps (match cur with Some _ => mi_currIdx s | None => S (mi_currIdx s) end) ∧
      kept = kept_profiles (mi_addr s) all (sent ++ [mi_keep s]) ∧
      (∀ x, cur = Some x → merge_At s = Ret x) ∧
      todo = drop (S (mi_currIdx s)) (profiles_of (mi_addr s) ps) ++ concat (profiles_of (mi_addr s) <$> drop (S (length sent)) all))).

(** The selections that were sent are those of the kept profiles. *)
Definition merge_ended (s : mergeIterator B) (kept : list QProfile) : Prop :=
  ∃ all sent, bd_view (mi_bidi s) all sent (length all) ∧ length sent = length all ∧ kept = kept_profiles (mi_addr s) all sent.

Lemma merge_At_batch s all sent ps k : Forall (batch_ok (mi_addr s)) all → in_batch s all sent ps k → mi_currIdx s < length (ps_Profiles ps) →
  ∃ x, merge_At s = Ret x ∧ profiles_of (mi_addr s) ps !! mi_currIdx s = Some x.
Proof.
  intros Hall (Hc & Hps & _ & _) Hi. destruct (lookup_lt_is_Some_2 _ _ Hi) as [p Hp]. rewrite Forall_lookup in Hall.
  pose proof (Hall _ _ Hps) as Hok. destruct Hok as [Hne Hsome]. rewrite Forall_lookup in Hsome. destruct (Hsome _ _ Hp) as [x Hx].
  exists x. split; [unfold merge_At; rewrite Hc; simpl; rewrite Hp; simpl; by rewrite Hx|]. by rewrite (profiles_of_lookup _ _ _ p (Hall _ _ Hps) Hp).
Qed.

(** The next batch comes, or the stream has ended. *)
Lemma next_batch_spec s all sent n : mi_err s = None → Forall (batch_ok (mi_addr s)) all → bd_view (mi_bidi s) all sent n →
  (mi_keepSent s = true ∧ length sent = n ∨ mi_keepSent s = false ∧ S (length sent) = n) →
  let sent' := if mi_keepSent s then sent else sent ++ [mi_keep s] in
  match all !! n with
  | Some ps => ∃ b, next_batch s = (true, mkMergeIterator b (mi_addr s) None (Some ps) 0 (replicate (length (ps_Profiles ps)) false) false) ∧
      bd_view b all sent' (S n) ∧ ps_Profiles ps ≠ [] ∧ length sent' = n
  | None => ∃ b, next_batch s = (false, set_bidi s b None) ∧ bd_view b all sent' n ∧ length sent' = n
  end.
Proof.
  intros Herr Hall Hv Hs sent'. unfold next_batch.
  assert (Hsend : ∃ b, (if mi_keepSent s then (None, mi_bidi s) else bidi_Send (mi_bidi s) (mi_keep s)) = (None, b) ∧ bd_view b all sent' n ∧ length sent' = n).
  { unfold sent'. destruct Hs as [[-> <-]|[-> <-]]; [by exists (mi_bidi s)|]. destruct (bd_send _ _ _ _ (mi_keep s) Hv) as (b & -> & Hb). exists b.
    rewrite length_app. simpl. split_and!; [done|done|lia]. }
  destruct Hsend as (b & -> & Hb & Hlen). destruct (all !! n) as [ps|] eqn:Eps.
  - destruct (bd_receive _ _ _ _ _ Hb Eps) as (r & b' & -> & Hb'). exists b'. rewrite Forall_lookup in Hall. destruct (Hall _ _ Eps) as [Hne _].
    destruct (ps_Profiles ps) eqn:Ep; [done|]. rewrite Herr. done.
  - destruct (bd_end _ _ _ _ Hb Eps) as (r & b' & -> & Hb'). exists b'. by rewrite Herr.
Qed.
(** What is kept does not change when an empty selection is added, or when no batch is left. *)
Lemma kept_profiles_none addr all sent k : kept_profiles addr all (sent ++ [replicate k false]) = kept_profiles addr all sent.
Proof.
  revert all. induction sent as [|m sent IH]; intros [|ps all]; try done; unfold kept_profiles in *; csimpl.
  - rewrite selected_none. by destruct all.
  - f_equal. apply IH.
Qed.

(** Where the iterator stands, however it got there. *)
Lemma merge_view_state s kept cur todo : merge_view s kept cur todo →
  ∃ all sent n, Forall (batch_ok (mi_addr s)) all ∧ bd_view (mi_bidi s) all sent n ∧
    (mi_keepSent s = true ∧ length sent = n ∨ mi_keepSent s = false ∧ S (length sent) = n) ∧ n ≤ length all ∧
    kept = kept_profiles (mi_addr s) all (if mi_keepSent s then sent else sent ++ [mi_keep s]) ∧
    todo = match mi_curr s with Some ps => drop (S (mi_currIdx s)) (profiles_of (mi_addr s) ps) | None => [] end ++ concat (profiles_of (mi_addr s) <$> drop n all).
Proof.
  intros (_ & all & sent & Hall & [(Hc & Hk & -> & Hv & -> & _ & ->)|(ps & Hv & Hi & (Hc & Hps & Hk & _) & -> & _ & ->)]).
  - exists all, [], 0. rewrite Hc, Hk. split_and!; [done|done|by left|lia|by destruct all|done].
  - exists all, sent, (S (length sent)). rewrite Hc, Hk. split_and!; [done|done|by right|by apply lookup_lt_Some in Hps|done|done].
Qed.

Lemma next_batch_view s kept cur todo : merge_view s kept cur todo → (∀ ps, mi_curr s = Some ps → length (ps_Profiles ps) - 1 ≤ mi_currIdx s) →
  match todo with
  | x :: todo => ∃ s', next_batch s = (true, s') ∧ merge_view s' kept (Some x) todo
  | [] => ∃ s', next_batch s = (false, s') ∧ merge_ended s' kept ∧ mi_err s' = None
  end.
Proof.
  intros Hview Hlast. pose proof Hview as [Herr _]. destruct (merge_view_state _ _ _ _ Hview) as (all & sent & n & Hall & Hv & Hs & Hn & -> & Htodo).
  assert (Ht : todo = concat (profiles_of (mi_addr s) <$> drop n all)).
  { rewrite Htodo. destruct (mi_curr s) as [ps|] eqn:Ec; [|done]. rewrite drop_ge; [done|]. destruct Hview as (_ & all' & sent' & Hall' & [(Hc & _)|(ps' & _ & _ & (Hc & Hps & _) & _)]); [congruence|].
    assert (ps' = ps) as -> by congruence. rewrite Forall_lookup in Hall'. rewrite (profiles_of_length _ _ (Hall' _ _ Hps)). specialize (Hlast ps eq_refl). lia. }
  clear Htodo. pose proof (next_batch_spec s all sent n Herr Hall Hv Hs) as Hb. simpl in Hb. set (sent' := if mi_keepSent s then sent else sent ++ [mi_keep s]) in *.
  destruct (all !! n) as [ps|] eqn:Eps.
  - destruct Hb as (b & Hnb & Hbv & Hne & Hlen). pose proof (proj1 (Forall_lookup _ _) Hall _ _ Eps) as Hok. rewrite (drop_S _ _ _ Eps), fmap_cons in Ht. simpl in Ht.
    set (s' := mkMergeIterator b (mi_addr s) None (Some ps) 0 (replicate (length (ps_Profiles ps)) false) false) in *.
    assert (Hin : in_batch s' all sent' ps 0) by (split_and!; [done|by rewrite Hlen|done|exists []; by rewrite Nat.sub_0_r]).
    assert (Hlt0 : mi_currIdx s' < length (ps_Profiles ps)) by (simpl; destruct (ps_Profiles ps); [done|simpl; lia]).
    destruct (merge_At_batch s' all sent' ps 0 Hall Hin Hlt0) as (x & Hat & Hx). simpl in Hx. destruct (profiles_of (mi_addr s) ps) as [|y l] eqn:El; [done|]. injection Hx as ->.
    rewrite Ht. simpl. exists s'. split; [done|]. split; [done|]. exists all, sent'. split; [done|]. right. exists ps. rewrite Hlen. split_and!; try done.
    + unfold s'. cbn [mi_keep mi_addr]. by rewrite kept_profiles_none.
    + by intros z [= <-].
    + simpl. by rewrite El.
  - destruct Hb as (b & Hnb & Hbv & Hlen). apply lookup_ge_None in Eps. rewrite drop_ge in Ht by done. rewrite Ht. simpl.
    exists (set_bidi s b None). split; [done|]. split; [|done]. exists all, sent'. assert (n = length all) as -> by lia. split_and!; done.
Qed.

Lemma view_next s kept cur todo : merge_view s kept cur todo →
  match todo with
  | x :: todo => ∃ s', merge_Next s = (true, s') ∧ merge_view s' kept (Some x) todo
  | [] => ∃ s', merge_Next s = (false, s') ∧ merge_ended s' kept ∧ mi_err s' = None
  end.
Proof.
  intros Hview. unfold merge_Next. destruct (mi_curr s) as [ps|] eqn:Ec; [|apply (next_batch_view s kept cur todo Hview); congruence].
  destruct (Nat.leb_spec (length (ps_Profiles ps) - 1) (mi_currIdx s)) as [Hle|Hlt].
  { apply (next_batch_view s kept cur todo Hview). intros ps' Hps'. rewrite Ec in Hps'. by injection Hps' as <-. }
  destruct Hview as (Herr & all & sent & Hall & [(Hc & _)|(ps' & Hv & Hi & Hin & -> & _ & ->)]); [congruence|].
  assert (ps' = ps) as -> by (destruct Hin as (Hc & _); congruence). set (s' := mkMergeIterator _ _ _ _ (S (mi_currIdx s)) _ _).
  assert (Hin' : in_batch s' all sent ps (S (mi_currIdx s))).
  { destruct Hin as (? & ? & ? & m & Hm & Hk). split_and!; try done. destruct cur as [x|]; [|by exists m]. exists (m ++ [false]). rewrite length_app. simpl.
    split; [lia|]. rewrite <- (assoc_L (++)). simpl. rewrite Hk. f_equal. replace (length (ps_Profiles ps) - mi_currIdx s) with (S (length (ps_Profiles ps) - S (mi_currIdx s))) by lia. done. }
  destruct (merge_At_batch s' all sent ps _ Hall Hin') as (x & Hat & Hx); [simpl; lia|]. simpl in Hx. rewrite (drop_S _ _ _ Hx). simpl.
  exists s'. split; [done|]. split; [done|]. exists all, sent. split; [done|]. right. exists ps. split_and!; try done; [simpl; lia|by intros z [= <-]].
Qed.
Lemma kept_profiles_snoc addr all sent ps k : all !! length sent = Some ps →
  kept_profiles addr all (sent ++ [k]) = kept_profiles addr all sent ++ selected (profiles_of addr ps) k.
Proof.
  revert all. induction sent as [|m sent IH]; intros [|q all] Hps; try done; unfold kept_profiles in *; simpl in *.
  - injection Hps as ->. destruct all; simpl; by rewrite (right_id_L [] (++)).
  - rewrite (IH all) by done. by rewrite (assoc_L (++)).
Qed.

Lemma view_keep s kept x todo : merge_view s kept (Some x) todo → ∃ s', merge_Keep s = Ret s' ∧ merge_view s' (kept ++ [x]) None todo.
Proof.
  intros (Herr & all & sent & Hall & [(_ & _ & _ & _ & _ & ? & _)|(ps & Hv & Hi & Hin & -> & Hat & ->)]); [done|].
  destruct (merge_At_batch s all sent ps _ Hall Hin Hi) as (y & Hy & Hx). rewrite (Hat x eq_refl) in Hy. injection Hy as <-.
  destruct Hin as (Hc & Hps & Hks & m & Hm & Hk). unfold merge_Keep. rewrite decide_True by (rewrite Hk, length_app, length_replicate; lia).
  eexists. split; [done|]. split; [done|]. exists all, sent. split; [done|]. right. exists ps.
  assert (Hrep : replicate (length (ps_Profiles ps) - mi_currIdx s) false = false :: replicate (length (ps_Profiles ps) - S (mi_currIdx s)) false)
    by (replace (length (ps_Profiles ps) - mi_currIdx s) with (S (length (ps_Profiles ps) - S (mi_currIdx s))) by lia; done).
  rewrite Hrep in Hk. assert (Hins : <[mi_currIdx s := true]> (mi_keep s) = m ++ true :: replicate (length (ps_Profiles ps) - S (mi_currIdx s)) false)
    by (rewrite Hk, insert_app_r_alt by lia; by rewrite Hm, Nat.sub_diag).
  cbn [mi_bidi mi_addr mi_err mi_curr mi_currIdx mi_keep mi_keepSent]. rewrite Hins. split_and!; try done.
  - split_and!; try done. exists (m ++ [true]). rewrite length_app. simpl. rewrite <- (assoc_L (++)). split; [lia|done].
  - rewrite !(kept_profiles_snoc _ _ _ ps) by done. rewrite <- (assoc_L (++)). f_equal. rewrite Hk. pose proof (proj1 (Forall_lookup _ _) Hall _ _ Hps) as Hok.
    symmetry; apply selected_insert; [by rewrite Hm|]. by rewrite Hm, (profiles_of_length _ _ Hok).
Qed.

#[export] Instance merge_iterator_ok : MergeIteratorOk (mergeIterator B).
Proof.
  refine {| mi_view := merge_view; mi_ended := merge_ended |}.
  - intros s kept cur x todo Hv. exact (view_next s kept cur (x :: todo) Hv).
  - intros s kept cur Hv. destruct (view_next s kept cur [] Hv) as (s' & Hn & (all & sent & Hb & Hl & ->) & Herr). exists s'.
    split; [done|]. split; [by exists all, sent|]. pose proof (bd_close _ _ _ _ Hb) as Hc. simpl. unfold merge_Close. destruct (bidi_CloseRequest _) as [e b]. split; [by exists all, sent|done].
  - intros s kept x todo (_ & all & sent & _ & [(_ & _ & _ & _ & _ & ? & _)|(ps & _ & _ & _ & _ & Hat & _)]); [done|]. simpl. by rewrite (Hat x eq_refl).
  - intros s kept x todo Hv. destruct (view_keep s kept x todo Hv) as (s' & Hk & Hv'). simpl. by rewrite Hk.
Defined.

Lemma new_view addr b all : Forall (batch_ok addr) all → bd_view b all [] 0 →
  merge_view (NewMergeIterator addr b) [] None (concat (profiles_of addr <$> all)).
Proof. intros Hall Hv. split; [done|]. exists all, []. split; [done|]. by left. Qed.
End MergeIterOk.

(** ** The theorem *)

Lemma kept_count_concat {It} k (gd : list (It * list QProfile)) : sum_list_with (λ d, count k d.2) gd = count k (concat gd.*2).
Proof. induction gd as [|d gd IH]; [done|]. csimpl. by rewrite count_app, IH. Qed.

(** An ingester's address, its stream and the batches that it sends. *)
Record ingester_stream (B : Type) := mkStream { is_addr : string; is_bidi : B; is_all : list ProfileSets }.
Arguments mkStream {B} _ _ _. Arguments is_addr {B} _. Arguments is_bidi {B} _. Arguments is_all {B} _.

Definition is_profiles {B} (i : ingester_stream B) : list QProfile := concat (profiles_of (is_addr i) <$> is_all i).

(** A stream that has not begun and will not fail; and one whose profiles are in order of time and labels, each one once. *)
Definition stream_open {B R} `{BidiOk B R} (i : ingester_stream B) : Prop :=
  bd_view (is_bidi i) (is_all i) [] 0 ∧ Forall (batch_ok (is_addr i)) (is_all i).
Definition stream_sorted {B} (i : ingester_stream B) : Prop := StronglySorted key_lt (q_key <$> is_profiles i).

Definition stream_ghost {B R} `{BidiOk B R} (i : ingester_stream B) : ghost (It := mergeIterator B) :=
  mkGhost (NewMergeIterator (is_addr i) (is_bidi i)) [] None (is_profiles i).

Lemma occurs_streams {B R} `{BidiOk B R} (streams : list (ingester_stream B)) k :
  occurs k (stream_ghost <$> streams) = if decide (k ∈ q_key <$> concat (is_profiles <$> streams)) then 1 else 0.
Proof.
  unfold occurs. apply decide_ext. rewrite Exists_exists. split.
  - intros (g & (i & -> & Hi)%list_elem_of_fmap & Hk). unfold g_keys in Hk. simpl in Hk. apply list_elem_of_fmap in Hk as (p & -> & Hp).
    apply list_elem_of_fmap. exists p. split; [done|]. apply list_elem_of_In, in_concat. exists (is_profiles i). rewrite <- !list_elem_of_In. split; [apply list_elem_of_fmap; by exists i|done].
  - intros (p & -> & Hp)%list_elem_of_fmap. apply list_elem_of_In, in_concat in Hp as (l & Hl & Hp). rewrite <- list_elem_of_In in Hl. rewrite <- list_elem_of_In in Hp.
    apply list_elem_of_fmap in Hl as (i & -> & Hi). exists (stream_ghost i). split; [apply list_elem_of_fmap; by exists i|]. unfold g_keys. simpl. apply list_elem_of_fmap. by exists p.
Qed.

(** [skipDuplicates] over the streams of ingesters, in whatever order concurrent calls end: it ends without error; what was selected over
    all streams has every key that some stream has, and no other, and has it once if the streams are sorted; and the
    selections that were sent are the ones that [kept_profiles] reads. *)
Lemma skip_streams {B R} `{BidiOk B R} multi orders fuel (streams : list (ingester_stream B)) :
  (∀ n l, orders n l ≡ₚ l) → Forall stream_open streams → length (concat (is_profiles <$> streams)) < fuel →
  ∃ done kepts, skipDuplicates multi orders fuel ((λ i, NewMergeIterator (is_addr i) (is_bidi i)) <$> streams) = Ret done ∧
    Forall2 merge_ended done kepts ∧
    ∀ k, (k ∈ q_key <$> concat kepts ↔ k ∈ q_key <$> concat (is_profiles <$> streams)) ∧
      (Forall stream_sorted streams → count k (concat kepts) ≤ 1).
Proof.
  intros Hord Hok Hf. set (sorted := Forall stream_sorted streams). assert (Hg : Forall (g_ok sorted) (stream_ghost <$> streams)).
  { apply Forall_fmap, Forall_forall. intros i Hi. rewrite Forall_forall in Hok. destruct (Hok i Hi) as (Hv & Hb). split; [by apply new_view|]. intros Hs. subst sorted. rewrite Forall_forall in Hs. by apply Hs. }
  destruct (skip_all multi orders Hord sorted (stream_ghost <$> streams) fuel Hg) as (done & gd & Hs & [-> He] & Hk).
  - apply Forall_fmap, Forall_true. done.
  - clear -Hf. rewrite length_concat in Hf. eapply Nat.le_lt_trans; [|exact Hf]. apply Nat.eq_le_incl. clear Hf. induction streams as [|i l IH]; [done|]. csimpl. by rewrite IH.
  - rewrite <- list_fmap_compose in Hs. exists gd.*1, gd.*2. split; [exact Hs|]. split.
    + apply Forall2_fmap. apply Forall_Forall2_diag. exact He.
    + intros k. specialize (Hk k). unfold kept_count in Hk. simpl in Hk. rewrite kept_count_concat, occurs_streams in Hk.
      assert (Hz : sum_list_with (λ g, count k (g_kept g)) (stream_ghost <$> streams) = 0) by (clear; induction streams; done). rewrite Hz, Nat.add_0_r, Nat.add_0_l in Hk.
      destruct Hk as [Hk1 Hk2]. split; [|intros Hsort; rewrite (Hk2 Hsort); case_decide; lia]. rewrite <- count_pos, Hk1. case_decide; [split; [done|lia]|split; [lia|done]].
Qed.

(** *** A stream from a script *)

Record script (R : Type) := mkScript { sc_all : list ProfileSets; sc_sent : list (list bool); sc_n : nat; sc_result : R }.
Arguments mkScript {R} _ _ _ _. Arguments sc_all {R} _. Arguments sc_sent {R} _. Arguments sc_n {R} _. Arguments sc_result {R} _.

#[export] Instance script_bidi {R} : BidiClientMerge (script R) R := {|
  bidi_Send b keep := (None, mkScript (sc_all b) (sc_sent b ++ [keep]) (sc_n b) (sc_result b));
  bidi_Receive b :=
    match sc_all b !! sc_n b with
    | Some ps => (inl (Some ps, sc_result b), mkScript (sc_all b) (sc_sent b) (S (sc_n b)) (sc_result b))
    | None => (inl (None, sc_result b), b)
    end;
  bidi_CloseRequest b := (None, b);
  bidi_CloseResponse b := (None, b) |}.

#[export] Instance script_ok {R} : BidiOk (script R) R.
Proof.
  refine {| bd_view b all sent n := sc_all b = all ∧ sc_sent b = sent ∧ sc_n b = n |}.
  - intros b all sent n keep (<- & <- & <-). eexists. by split.
  - intros b all sent n ps (<- & <- & <-) Hps. simpl. rewrite Hps. by do 2 eexists.
  - intros b all sent n (<- & <- & <-) Hps. simpl. rewrite Hps. by do 2 eexists.
  - intros b all sent n (<- & <- & <-). done.
Defined.

Definition example_batch (l : list Z) : ProfileSets := mkProfileSets [[mkLabel "job" "a"]] (mkSeriesProfile 0 <$> l).
Definition example_stream {R} (addr : string) (l : list (list Z)) (r : R) : ingester_stream (script R) :=
  mkStream addr (mkScript (example_batch <$> l) [] 0 r) (example_batch <$> l).
Definition example_streams : list (ingester_stream (script string)) := [example_stream "i1" [[1; 3]; [4]] "done"; example_stream "i2" [[2]; [3; 4]] "done"]%Z.

(** The first stream has an older block after its head, so it is not sorted: a key is kept twice. *)
Example unsorted_kept_twice : let its := (λ i, NewMergeIterator (is_addr i) (is_bidi i)) <$> [example_stream "i1" [[100]; [50]]%Z "done"; example_stream "i2" [[50]; [100]]%Z "done"] in
  ∃ done, skipDuplicates (default "" ∘ head) (λ _ l, l) 10 its = Ret done ∧ (λ it, (mi_addr it, sc_sent (mi_bidi it))) <$> done = [("i2", [[true]; [false]]); ("i1", [[true]; [true]])].
Proof. eexists. split; vm_compute; reflexivity. Qed.

(** *** The last iterator's error *)

(** A stream that breaks after its first batch. *)
Record broken := mkBroken { br_first : ProfileSets; br_n : nat }.

#[export] Instance broken_bidi : BidiClientMerge broken string := {|
  bidi_Send b _ := (None, b);
  bidi_Receive b := match br_n b with O => (inl (Some (br_first b), ""), mkBroken (br_first b) 1) | _ => (inr "connection reset", b) end;
  bidi_CloseRequest b := (None, b);
  bidi_CloseResponse b := (None, b) |}.

Definition broken_iterator (addr : string) : mergeIterator broken := NewMergeIterator addr (mkBroken (example_batch [1%Z]) 0).

(** Alone on the heap, its error is not reported and it is not closed; two of them report it. *)
Example single_error_dropped :
  (∃ it, skipDuplicates (default "" ∘ head) (λ _ l, l) 5 [broken_iterator "i1"] = Ret [it] ∧ mi_err it = Some "connection reset") ∧
  skipDuplicates (default "" ∘ head) (λ _ l, l) 5 [broken_iterator "i1"; broken_iterator "i2"] = Fail "connection reset".
Proof. split; [eexists|]; vm_compute; done. Qed.
