(* ===== verification/QuerySeries.v ===== *)
(** * Series over time (src/pkg/model/series.go, the series of src/pkg/querier/select_merge.go and
    rangeSeries in src/pkg/querier/querier.go)

    Float values and their sum are parameters, and so are the hash of label sets and the order in which a
    map is walked. *)

From S2P Require Import Sorting Prelude Labels GoHeap Iter HeadQuery.

(** ** Operations *)

Section Series.
Context {F : Type} (fzero : F) (fadd : F → F → F) (Hash : Labels → N) (values : gmap N (Series (F := F)) → list (Series (F := F))).

Definition append_points (s : Series (F := F)) (pts : list (Z * F)) : Series (F := F) := mkSeriesOf (sr_Labels s) (sr_Points s ++ pts).

Definition merge_into (m : gmap N Series) (s : Series (F := F)) : gmap N Series :=
  match m !! Hash (sr_Labels s) with
  | None => <[Hash (sr_Labels s) := s]> m
  | Some found => <[Hash (sr_Labels s) := append_points found (sr_Points s)]> m
  end.

Definition MergeSeries (series : list (list (Series (F := F)))) : list (Series (F := F)) :=
  match series with
  | [] => []
  | [s] => s
  | _ =>
      let result := sort_slice series_less (values (foldl merge_into ∅ (concat series))) in
      (λ s, mkSeriesOf (sr_Labels s) (sort_slice point_less (sr_Points s))) <$> result
  end.

Record ProfileValue := mkProfileValue { pv_Ts : Z; pv_Lbs : Labels; pv_LabelsHash : N; pv_Value : F }.

#[global] Instance ProfileValue_profile : Profile ProfileValue := {| p_timestamp := pv_Ts; p_labels := pv_Lbs |}.
#[global] Instance ProfileValue_zero : GoZero ProfileValue := mkProfileValue 0 [] 0 fzero.

Record seriesIterator := mkSeriesIterator { si_point : list (Z * F); si_curr : ProfileValue }.

Definition newSeriesIterator (lbs : Labels) (points : list (Z * F)) : seriesIterator :=
  mkSeriesIterator points (mkProfileValue 0 lbs (Hash lbs) fzero).

Definition series_Next (s : seriesIterator) : bool * seriesIterator :=
  match si_point s with
  | [] => (false, s)
  | p :: ps => (true, mkSeriesIterator ps (mkProfileValue p.1 (pv_Lbs (si_curr s)) (pv_LabelsHash (si_curr s)) p.2))
  end.

#[global] Instance seriesIterator_iter : Iterator seriesIterator ProfileValue := {|
  Next := series_Next;
  At := si_curr;
  Err _ := None;
  Close s := (None, s);
  remaining s := length (si_point s) |}.

(** What [selectMergeSeries] returns of the results. *)
Definition merged_series (results : list (list (Series (F := F)))) : SortIterator seriesIterator ProfileValue :=
  NewSortProfileIterator ((λ s, newSeriesIterator (sr_Labels s) (sr_Points s)) <$> MergeSeries results).
(** *** rangeSeries *)

(** The value is added to the point of the step, or starts one. *)
Definition add_point (currentStep : Z) (v : ProfileValue) (m : gmap N Series) : outcome (gmap N Series) :=
  match m !! pv_LabelsHash v with
  | None => Ret (<[pv_LabelsHash v := mkSeriesOf (pv_Lbs v) [(currentStep, pv_Value v)]]> m)
  | Some s =>
      match last (sr_Points s) with
      | None => Panic
      | Some (t, x) =>
          let points :=
            if (t =? currentStep)%Z then removelast (sr_Points s) ++ [(t, fadd x (pv_Value v))]
            else sr_Points s ++ [(currentStep, pv_Value v)] in
          Ret (<[pv_LabelsHash v := mkSeriesOf (sr_Labels s) points]> m)
      end
  end.

Section Range.
Context {St : Type} `{Iterator St ProfileValue}.

(** The profiles of one step; true when the iterator has ended. *)
Fixpoint step_loop (fuel : nat) (currentStep : Z) (it : St) (m : gmap N Series) : outcome (bool * St * gmap N Series) :=
  match fuel with
  | O => Panic
  | S fuel =>
      if (currentStep <? pv_Ts (At it))%Z then Ret (false, it, m)
      else
        obind (add_point currentStep (At it) m) (λ m,
          let '(more, it) := Next it in
          if more then step_loop fuel currentStep it m else Ret (true, it, m))
  end.

Fixpoint range_loop (fuel : nat) (currentStep end_ step : Z) (it : St) (m : gmap N Series) : outcome (St * gmap N Series) :=
  match fuel with
  | O => Panic
  | S fuel =>
      if (currentStep <=? end_)%Z then
        obind (step_loop (S (remaining it)) currentStep it m) (λ '(ended, it, m),
          if (ended : bool) then Ret (it, m) else range_loop fuel (i64 (currentStep + step)) end_ step it m)
      else Ret (it, m)
  end.

Definition rangeSeries (fuel : nat) (it : St) (start end_ step : Z) : outcome (list Series * St) :=
  let '(more, it) := Next it in
  if more then
    obind (range_loop fuel start end_ step it ∅) (λ '(it, m), Ret (sort_slice series_less (values m), (Close it).2))
  else Ret ([], (Close it).2).
End Range.
End Series.
Arguments ProfileValue F : clear implicits.

(** ** What the points are *)

Section RangeSpec.
Context {F : Type} (fzero : F) (fadd : F → F → F) (start step : Z) (Hstep : (0 < step)%Z).
Implicit Types (v : ProfileValue F) (ps : list (ProfileValue F)) (m : gmap N (Series (F := F))).

(** The step at which a profile is counted: the first one that is not before it. *)
Definition bucket (v : ProfileValue F) : Z :=
  if (pv_Ts v <=? start)%Z then start else (start + step * ((pv_Ts v - start + step - 1) / step))%Z.

(** The sum, in order, of the values of a series at a step. *)
Definition fsum (l : list F) : F := match l with [] => fzero | x :: l => foldl fadd x l end.
Definition values_at (ps : list (ProfileValue F)) (k : N) (t : Z) : list F := pv_Value <$> filter (λ v, pv_LabelsHash v = k ∧ bucket v = t) ps.

(** The points of a series: one for each step that has profiles, in order. *)
Definition points_are (ps : list (ProfileValue F)) (k : N) (points : list (Z * F)) : Prop :=
  ∃ times, StronglySorted Z.lt times ∧ (∀ t, t ∈ times ↔ ∃ v, v ∈ ps ∧ pv_LabelsHash v = k ∧ bucket v = t) ∧
    points = (λ t, (t, fsum (values_at ps k t))) <$> times.

Definition ranged (ps : list (ProfileValue F)) (m : gmap N Series) : Prop :=
  ∀ k, match m !! k with
  | None => ∀ v, v ∈ ps → pv_LabelsHash v ≠ k
  | Some s => (∃ v, v ∈ ps ∧ pv_LabelsHash v = k ∧ pv_Lbs v = sr_Labels s) ∧ points_are ps k (sr_Points s)
  end.

Lemma fsum_snoc l x : fsum (l ++ [x]) = match l with [] => x | _ => fadd (fsum l) x end.
Proof. destruct l as [|y l]; [done|]. simpl. by rewrite foldl_app. Qed.

Lemma values_at_snoc ps v k t : values_at (ps ++ [v]) k t = values_at ps k t ++ if decide (pv_LabelsHash v = k ∧ bucket v = t) then [pv_Value v] else [].
Proof. unfold values_at. rewrite filter_app, fmap_app. f_equal. rewrite filter_cons. by case_decide. Qed.

Lemma values_at_nil ps k t : values_at ps k t = [] → ¬ ∃ v, v ∈ ps ∧ pv_LabelsHash v = k ∧ bucket v = t.
Proof.
  intros Hn%fmap_nil_inv (v & Hv & Hk). assert (Hin : v ∈ filter (λ v, pv_LabelsHash v = k ∧ bucket v = t) ps) by (by apply list_elem_of_filter).
  rewrite Hn in Hin. by apply not_elem_of_nil in Hin.
Qed.

Lemma values_at_none ps k t : (¬ ∃ v, v ∈ ps ∧ pv_LabelsHash v = k ∧ bucket v = t) → values_at ps k t = [].
Proof. intros Hn. unfold values_at. rewrite filter_none; [done|]. intros v Hv [? ?]. apply Hn. by exists v. Qed.

(** The points of another series do not change. *)
Lemma points_are_other ps v k points : pv_LabelsHash v ≠ k → points_are ps k points → points_are (ps ++ [v]) k points.
Proof.
  intros Hne (times & Hs & Ht & ->). exists times. split; [done|]. split.
  - intros t. rewrite Ht. split; [intros (w & Hw & ?); exists w; split; [apply elem_of_app; by left|done]|].
    intros (w & [Hw| ->%list_elem_of_singleton]%elem_of_app & Hk & ?); [by exists w|done].
  - apply list_fmap_ext. intros i t _. f_equal. rewrite values_at_snoc, decide_False by naive_solver. by rewrite (right_id_L [] (++)).
Qed.

Lemma points_are_snoc ps v points : points_are ps (pv_LabelsHash v) points → (∀ w, w ∈ ps → (bucket w ≤ bucket v)%Z) → points ≠ [] →
  ∃ t x, last points = Some (t, x) ∧
    points_are (ps ++ [v]) (pv_LabelsHash v)
      (if (t =? bucket v)%Z then removelast points ++ [(t, fadd x (pv_Value v))] else points ++ [(bucket v, pv_Value v)]).
Proof.
  intros (times & Hs & Ht & ->) Hle Hne. destruct times as [|t times _] using rev_ind; [done|]. clear Hne.
  rewrite fmap_app. simpl. exists t, (fsum (values_at ps (pv_LabelsHash v) t)). rewrite last_snoc, removelast_last. split; [done|].
  assert (Hvt : ∃ w, w ∈ ps ∧ pv_LabelsHash w = pv_LabelsHash v ∧ bucket w = t) by (apply Ht, elem_of_app; right; by left).
  apply StronglySorted_app in Hs as Hs'. destruct Hs' as (Hlt & Hs1 & _).
  destruct (Z.eqb_spec t (bucket v)) as [->|Hne].
  - exists (times ++ [bucket v]). split; [done|]. split.
    + intros t'. rewrite Ht. split; [intros (w & Hw & ?); exists w; split; [apply elem_of_app; by left|done]|].
      intros (w & [Hw| ->%list_elem_of_singleton]%elem_of_app & Hk & Hb); [by exists w|]. by rewrite <- Hb.
    + rewrite fmap_app. f_equal.
      * apply list_fmap_ext. intros i t' Hi. f_equal. rewrite values_at_snoc, decide_False; [by rewrite (right_id_L [] (++))|]. intros [_ Hb].
        specialize (Hlt t' (bucket v) (list_elem_of_lookup_2 _ _ _ Hi) (list_elem_of_here _ _)). lia.
      * simpl. rewrite values_at_snoc, decide_True by done. rewrite fsum_snoc. destruct (values_at ps (pv_LabelsHash v) (bucket v)) eqn:E; [by apply values_at_nil in E|done].
  - exists (times ++ [t; bucket v]). assert (Htb : (t < bucket v)%Z) by (destruct Hvt as (w & Hw & _ & Hb); specialize (Hle w Hw); lia). split_and!.
    + change (times ++ [t; bucket v]) with (times ++ [t] ++ [bucket v]). rewrite (assoc_L (++)). apply StronglySorted_app. split_and!; [|done|by repeat constructor].
      intros a b Ha ->%list_elem_of_singleton. apply elem_of_app in Ha as [Ha| ->%list_elem_of_singleton]; [|done].
      specialize (Hlt a t Ha (list_elem_of_here _ _)). lia.
    + intros t'. change (times ++ [t; bucket v]) with (times ++ [t] ++ [bucket v]). rewrite (assoc_L (++)), elem_of_app, Ht. split.
      * intros [(w & Hw & ?)| ->%list_elem_of_singleton]; [exists w; split; [apply elem_of_app; by left|done]|]. exists v. split; [apply elem_of_app; right; by left|done].
      * intros (w & [Hw| ->%list_elem_of_singleton]%elem_of_app & Hk & Hb); [left; by exists w|right; rewrite Hb; by left].
    + assert (Hold : ∀ t', (t' < bucket v)%Z → values_at (ps ++ [v]) (pv_LabelsHash v) t' = values_at ps (pv_LabelsHash v) t').
      { intros t' Hlt'. rewrite values_at_snoc, decide_False; [by rewrite (right_id_L [] (++))|]. intros [_ ?]. lia. }
      rewrite fmap_app. simpl. rewrite <- (assoc_L (++)). simpl. f_equal; [|rewrite Hold by done; do 3 f_equal].
      * apply list_fmap_ext. intros i t' Hi. rewrite Hold; [done|]. specialize (Hlt t' t (list_elem_of_lookup_2 _ _ _ Hi) (list_elem_of_here _ _)). lia.
      * rewrite values_at_snoc, decide_True by done. rewrite (values_at_none ps); [done|]. intros Hex. apply Ht in Hex.
        apply elem_of_app in Hex as [Hex| Hex%list_elem_of_singleton]; [specialize (Hlt _ t Hex (list_elem_of_here _ _)); lia|lia].
Qed.
(** *** Steps *)

Lemma bucket_grid v : ∃ j, (0 ≤ j)%Z ∧ bucket v = (start + step * j)%Z.
Proof.
  unfold bucket. destruct (Z.leb_spec (pv_Ts v) start) as [Hle|Hlt]; [exists 0%Z; lia|]. eexists. split; [|done]. apply Z.div_pos; lia.
Qed.

Lemma bucket_le v i : (0 ≤ i)%Z → (bucket v ≤ start + step * i)%Z ↔ (pv_Ts v ≤ start + step * i)%Z.
Proof.
  intros Hi. unfold bucket. destruct (Z.leb_spec (pv_Ts v) start) as [Hle|Hlt]; [split; nia|]. split.
  - intros Hb. assert (Hq : ((pv_Ts v - start + step - 1) / step ≤ i)%Z) by nia.
    pose proof (Z.div_mod (pv_Ts v - start + step - 1) step). pose proof (Z.mod_pos_bound (pv_Ts v - start + step - 1) step). nia.
  - intros Ht. assert (Hq : ((pv_Ts v - start + step - 1) / step < i + 1)%Z) by (apply Z.div_lt_upper_bound; nia). nia.
Qed.

Lemma ranged_add ps v m : ranged ps m → (∀ w, w ∈ ps → (bucket w ≤ bucket v)%Z) →
  ∃ m', add_point fadd (bucket v) v m = Ret m' ∧ ranged (ps ++ [v]) m'.
Proof.
  intros Hm Hle. unfold add_point. pose proof (Hm (pv_LabelsHash v)) as Hv.
  assert (Hother : ∀ k s, k ≠ pv_LabelsHash v → match (<[pv_LabelsHash v := s]> m) !! k with
    | None => ∀ w, w ∈ ps ++ [v] → pv_LabelsHash w ≠ k
    | Some s => (∃ w, w ∈ ps ++ [v] ∧ pv_LabelsHash w = k ∧ pv_Lbs w = sr_Labels s) ∧ points_are (ps ++ [v]) k (sr_Points s) end).
  { intros k s Hk. rewrite lookup_insert_ne by done. specialize (Hm k). destruct (m !! k) as [s'|].
    - destruct Hm as [(w & Hw & ?) Hp]. split; [exists w; split; [apply elem_of_app; by left|done]|]. by apply points_are_other.
    - intros w [Hw| ->%list_elem_of_singleton]%elem_of_app; [by apply Hm|done]. }
  assert (Hin : v ∈ ps ++ [v]) by (apply elem_of_app; right; by left).
  destruct (m !! pv_LabelsHash v) as [s|].
  - destruct Hv as [(w & Hw & Hwk & Hwl) Hp]. destruct (points_are_snoc ps v (sr_Points s) Hp Hle) as (t & x & -> & Hp').
    { destruct Hp as (times & _ & Ht & ->). intros Hn%fmap_nil_inv. subst. assert (Hb : bucket w ∈ ([] : list Z)) by (apply Ht; by exists w). by apply not_elem_of_nil in Hb. }
    eexists. split; [done|]. intros k. destruct (decide (k = pv_LabelsHash v)) as [->|Hk]; [|by apply Hother]. rewrite lookup_insert_eq. split; [|done].
    exists w. split; [apply elem_of_app; by left|done].
  - eexists. split; [done|]. intros k. destruct (decide (k = pv_LabelsHash v)) as [->|Hk]; [|by apply Hother]. rewrite lookup_insert_eq. split; [by exists v|].
    exists [bucket v]. split; [by repeat constructor|]. split.
    + intros t. rewrite list_elem_of_singleton. split; [intros ->; by exists v|]. intros (w & [Hw| ->%list_elem_of_singleton]%elem_of_app & Hk & <-); [by apply Hv in Hw|done].
    + simpl. rewrite values_at_snoc, decide_True by done. rewrite values_at_none; [done|]. intros (w & Hw & Hk & _). by apply Hv in Hw.
Qed.

Context {St : Type} `{Iterator St (ProfileValue F)} `{!IteratorOk St (ProfileValue F)}.

Definition by_ts : relation (ProfileValue F) := λ v w, (pv_Ts v ≤ pv_Ts w)%Z.

Lemma step_loop_spec i e fuel : (0 ≤ i)%Z → ∀ l it ps m, length l < fuel → yields it l e →
  StronglySorted by_ts (At it :: l) → Forall (λ v, start + step * i ≤ bucket v)%Z (At it :: l) →
  ranged ps m → (∀ w, w ∈ ps → (bucket w ≤ start + step * i)%Z) →
  ∃ pre rest it' m', At it :: l = pre ++ rest ∧ Forall (λ v, bucket v = start + step * i)%Z pre ∧ ranged (ps ++ pre) m' ∧
    match rest with
    | [] => step_loop fadd fuel (start + step * i) it m = Ret (true, it', m')
    | v :: l' => step_loop fadd fuel (start + step * i) it m = Ret (false, it', m') ∧ At it' = v ∧ yields it' l' e ∧ (start + step * i < pv_Ts v)%Z
    end.
Proof.
  intros Hi. induction fuel as [|fuel IH]; intros l it ps m Hf Hy Hs Hb Hm Hps; [lia|]. cbn [step_loop].
  destruct (Z.ltb_spec (start + step * i) (pv_Ts (At it))) as [Hlt|Hle].
  { exists [], (At it :: l), it, m. rewrite (right_id_L [] (++)). by split_and!. }
  assert (Hbk : bucket (At it) = (start + step * i)%Z) by (apply Forall_cons in Hb as [Hb _]; apply bucket_le in Hle; [lia|done]).
  destruct (ranged_add ps (At it) m Hm) as (m' & Ha & Hm'); [by rewrite Hbk|]. rewrite Hbk in Ha. rewrite Ha. cbn [obind].
  assert (Hps' : ∀ w, w ∈ ps ++ [At it] → (bucket w ≤ start + step * i)%Z) by (intros w [Hw| ->%list_elem_of_singleton]%elem_of_app; [by apply Hps|lia]).
  inversion Hy as [s s' Hn|s s' l' s'' Hn Hy']; subst; rewrite Hn.
  - exists [At it], [], e, m'. split_and!; [done|by repeat constructor|done|done].
  - apply StronglySorted_inv in Hs as [Hs _]. apply Forall_cons in Hb as [_ Hb].
    destruct (IH l' s' (ps ++ [At it]) m') as (pre & rest & it' & m'' & Heq & Hpre & Hm'' & Hrest); [simpl in Hf; lia|done..|].
    exists (At it :: pre), rest, it', m''. rewrite <- (assoc_L (++)) in Hm''. split_and!; [by rewrite Heq|by constructor|done|done].
Qed.

Lemma yields_At_sorted (v : ProfileValue F) l : StronglySorted by_ts (v :: l) → ∀ w, w ∈ l → (pv_Ts v ≤ pv_Ts w)%Z.
Proof. intros [_ Hf]%StronglySorted_inv w Hw. rewrite Forall_forall in Hf. by apply Hf. Qed.

Lemma range_loop_spec e end_ : (end_ + step ≤ max_int64)%Z → (min_int64 ≤ start)%Z → ∀ fuel i l it ps m, (0 ≤ i)%Z →
  (end_ < start + step * (i + Z.of_nat fuel - 1))%Z → yields it l e → StronglySorted by_ts (At it :: l) →
  Forall (λ v, start + step * i ≤ bucket v)%Z (At it :: l) → ranged ps m → (∀ w, w ∈ ps → (bucket w ≤ start + step * i)%Z) →
  0 < fuel →
  ∃ it' m', range_loop fadd fuel (start + step * i) end_ step it m = Ret (it', m') ∧
    ranged (ps ++ filter (λ v, bucket v ≤ end_)%Z (At it :: l)) m'.
Proof.
  intros Hmax Hmin fuel. induction fuel as [|fuel IH]; intros i l it ps m Hi Hend Hy Hs Hb Hm Hps Hf; [lia|]. cbn [range_loop].
  destruct (Z.leb_spec (start + step * i) end_) as [Hle|Hlt].
  2: { exists it, m. split; [done|]. rewrite filter_none; [by rewrite (right_id_L [] (++))|]. intros v Hv Hve. rewrite Forall_forall in Hb. specialize (Hb v Hv). lia. }
  pose proof (yields_length _ _ _ Hy) as Hlen.
  destruct (step_loop_spec i e (S (remaining it)) Hi l it ps m) as (pre & rest & it' & m' & Heq & Hpre & Hm' & Hrest); [lia|done..|].
  assert (Hfpre : filter (λ v, bucket v ≤ end_)%Z pre = pre) by (apply filter_all; intros v Hv; rewrite Forall_forall in Hpre; rewrite (Hpre v Hv); done).
  rewrite Heq, filter_app, Hfpre. destruct rest as [|v l'].
  - rewrite Hrest. exists it', m'. cbn [obind]. rewrite filter_nil, (right_id_L [] (++)). done.
  - destruct Hrest as (Hr & <- & Hy' & Hts). rewrite Hr. cbn [obind]. rewrite i64_small by (split; [unfold min_int64 in *; nia|unfold max_int64 in *; lia]).
    replace (start + step * i + step)%Z with (start + step * (i + 1))%Z by lia.
    rewrite Heq in Hs, Hb. apply StronglySorted_app in Hs as (_ & _ & Hs).
    assert (Hnext : Forall (λ v, start + step * (i + 1) ≤ bucket v)%Z (At it' :: l')).
    { rewrite Forall_forall. intros w Hw. assert (Hlt : (start + step * i < pv_Ts w)%Z).
      { apply elem_of_cons in Hw as [->|Hw]; [done|]. pose proof (yields_At_sorted _ _ Hs w Hw). lia. }
      destruct (bucket_grid w) as (j & Hj & Hbj). assert (Hn : ¬ (bucket w ≤ start + step * i)%Z) by (rewrite bucket_le by done; lia).
      rewrite Hbj in Hn |- *. assert (Hij : (i < j)%Z) by (apply (Z.mul_lt_mono_pos_l step); lia).
      assert ((step * (i + 1) ≤ step * j)%Z) by (apply Z.mul_le_mono_nonneg_l; lia). lia. }
    rewrite (assoc_L (++)). destruct fuel as [|fuel].
    { exfalso. replace (i + Z.of_nat 1 - 1)%Z with i in Hend by lia. lia. }
    apply (IH (i + 1)%Z); [lia|by replace (i + 1 + Z.of_nat (S fuel) - 1)%Z with (i + Z.of_nat (S (S fuel)) - 1)%Z by lia|done|done|done|done| |lia].
    intros w [Hw|Hw]%elem_of_app; [specialize (Hps w Hw); lia|]. rewrite Forall_forall in Hpre. rewrite (Hpre w Hw). lia.
Qed.
End RangeSpec.

Lemma by_labels_sorted {F} (l : list (Series (F := F))) : StronglySorted (λ a b, (CompareLabelPairs (sr_Labels a) (sr_Labels b) ≤ 0)%Z) (sort_slice series_less l).
Proof.
  destruct (series_less_order (F := F)) as [Ht Ha]. eapply StronglySorted_weaken; [|by apply sort_slice_sorted].
  intros a b. unfold series_less. intros Hab. bool_prop. rewrite CompareLabelPairs_opp. lia.
Qed.

(** The series of a map, in the order of the result, with their keys. *)
Lemma sorted_entries {F} (values : gmap N (Series (F := F)) → list Series) m : values m ≡ₚ (map_to_list m).*2 →
  ∃ kl, sort_slice series_less (values m) = kl.*2 ∧ NoDup kl.*1 ∧ ∀ k s, (k, s) ∈ kl ↔ m !! k = Some s.
Proof.
  intros Hv. assert (Hperm : sort_slice series_less (values m) ≡ₚ (map_to_list m).*2) by (by rewrite sort_slice_perm).
  apply Permutation_map_inv in Hperm as (kl & Hkl & Hp). exists kl. split; [done|]. split; [rewrite <- Hp; apply NoDup_fst_map_to_list|].
  intros k s. by rewrite <- Hp, elem_of_map_to_list.
Qed.

(** [rangeSeries] over profiles in order of time, with a positive step and no overflow of the last step, ends (the
    loop of steps runs at most (end - start) / step + 2 times): its result has, sorted by labels, one series for each hash that
    has a profile up to the last step; a series has the labels of a profile with this hash, and its points are, in order of
    time, one for every step at which it has profiles, with the sum of their values in order: a profile counts at the first
    step that is not before it. *)
Theorem rangeSeries_correct {F St} `{Iterator St (ProfileValue F)} `{!IteratorOk St (ProfileValue F)} (fzero : F) (fadd : F → F → F)
    (values : gmap N (Series (F := F)) → list Series) fuel it l e start end_ step :
  (∀ m, values m ≡ₚ (map_to_list m).*2) → yields it l e → StronglySorted by_ts l →
  (0 < step)%Z → (min_int64 ≤ start)%Z → (end_ + step ≤ max_int64)%Z → (end_ < start + step * (Z.of_nat fuel - 1))%Z → 0 < fuel →
  ∃ out it' keys, rangeSeries fadd values fuel it start end_ step = Ret (out, it') ∧ NoDup keys ∧
    (∀ k, k ∈ keys ↔ ∃ v, v ∈ l ∧ pv_LabelsHash v = k ∧ (bucket start step v ≤ end_)%Z) ∧
    Forall2 (λ k s, (∃ v, v ∈ l ∧ pv_LabelsHash v = k ∧ pv_Lbs v = sr_Labels s) ∧
      points_are fzero fadd start step (filter (λ v, bucket start step v ≤ end_)%Z l) k (sr_Points s)) keys out ∧
    StronglySorted (λ a b, (CompareLabelPairs (sr_Labels a) (sr_Labels b) ≤ 0)%Z) out.
Proof.
  intros Hval Hy Hs Hst Hmin Hmax Hend Hf. unfold rangeSeries. inversion Hy as [s s' Hn|s s' l' s'' Hn Hy']; subst; rewrite Hn.
  - exists [], (Close e).2, []. split_and!; [done|constructor| |constructor|constructor].
    intros k. split; [by intros ?%not_elem_of_nil|]. intros (v & Hv & _). by apply not_elem_of_nil in Hv.
  - set (ok := λ v, (bucket start step v ≤ end_)%Z).
    destruct (range_loop_spec fzero fadd start step Hst e end_ Hmax Hmin fuel 0 l' s' [] ∅) as (it' & m & Hr & Hm); try done.
    { rewrite Z.mul_0_r, Z.add_0_r. apply Forall_forall. intros v _. destruct (bucket_grid start step Hst v) as (j & Hj & ->). nia. }
    { intros k. rewrite lookup_empty. intros v Hv. by apply not_elem_of_nil in Hv. }
    { intros w Hw. by apply not_elem_of_nil in Hw. }
    rewrite Z.mul_0_r, Z.add_0_r in Hr. rewrite Hr. cbn [obind]. destruct (sorted_entries values m (Hval m)) as (kl & Hkl & Hnd & Hin).
    exists (sort_slice series_less (values m)), (Close it').2, kl.*1. split_and!; [done|done| | |apply by_labels_sorted].
    + intros k. rewrite list_elem_of_fmap. split.
      * intros ([k' s] & -> & Hks%Hin). specialize (Hm k'). rewrite Hks in Hm. destruct Hm as [(v & Hv & Hk & _) _].
        apply list_elem_of_filter in Hv as [Hv ?]. by exists v.
      * intros (v & Hv & Hk & Hb). specialize (Hm k). destruct (m !! k) as [s|] eqn:E; [exists (k, s); split; [done|by apply Hin]|].
        destruct (Hm v); [|done]. by apply list_elem_of_filter.
    + rewrite Hkl. apply Forall2_fmap, Forall_Forall2_diag, Forall_forall. intros [k s] Hks%Hin. specialize (Hm k). rewrite Hks in Hm.
      destruct Hm as [(v & Hv & Hk & Hl) Hp]. apply list_elem_of_filter in Hv as [_ Hv]. split; [by exists v|done].
Qed.

Definition example_value (ts v : Z) : ProfileValue Z := mkProfileValue ts [mkLabel "pod" "a"] 7 v.
Definition example_values : list (ProfileValue Z) := [example_value 4 1; example_value 11 2; example_value 20 3; example_value 31 4].
#[local] Instance ProfileValueZ_zero : GoZero (ProfileValue Z) := ProfileValue_zero 0%Z.

Theorem rangeSeries_witness :
  ∃ out it' (keys : list N), rangeSeries Z.add (λ m, (map_to_list m).*2) 4 (NewSliceIterator example_values) 10 30 10 = Ret (out, it') ∧
    length keys = length out.
Proof.
  destruct (rangeSeries_correct 0 Z.add (λ m, (map_to_list m).*2) 4 (NewSliceIterator example_values) example_values (mkSliceIterator [] zero) 10 30 10)%Z
    as (out & it' & keys & Hr & _ & _ & Hf & _).
  - intros m. reflexivity.
  - apply slice_yields.
  - repeat constructor; unfold by_ts; simpl; lia.
  - lia.
  - unfold min_int64. lia.
  - unfold max_int64. lia.
  - lia.
  - lia.
  - exists out, it', keys. split; [exact Hr|]. exact (Forall2_length _ _ _ Hf).
Defined.

(** A step of less than a millisecond is a step of 0: with a profile after the start the loop does not end. *)
Lemma range_loop_zero_step {F St} `{Iterator St (ProfileValue F)} (fadd : F → F → F) fuel : ∀ it m start end_,
  (start ≤ end_)%Z → (start < pv_Ts (At it))%Z → int64_range start → range_loop fadd fuel start end_ 0 it m = Panic.
Proof.
  induction fuel as [|fuel IH]; intros it m start end_ Hle Hlt Hi; [done|]. cbn [range_loop step_loop].
  rewrite (proj2 (Z.leb_le _ _)) by done. rewrite (proj2 (Z.ltb_lt _ _)) by done. cbn [obind]. rewrite Z.add_0_r, i64_small by done. by apply IH.
Qed.

(** ** Merging series *)

Section MergeSpec.
Context {F : Type} (Hash : Labels → N).

Definition hash_of (s : Series (F := F)) : N := Hash (sr_Labels s).
Definition points_with (k : N) (l : list (Series (F := F))) : list (Z * F) := concat (sr_Points <$> filter (λ s, hash_of s = k) l).

Definition merged_into (l : list (Series (F := F))) (m : gmap N Series) : Prop :=
  ∀ k, match m !! k with
  | None => ∀ s, s ∈ l → hash_of s ≠ k
  | Some s => hash_of s = k ∧ (∃ s', s' ∈ l ∧ sr_Labels s' = sr_Labels s) ∧ sr_Points s = points_with k l
  end.

Lemma points_with_snoc k l s : points_with k (l ++ [s]) = points_with k l ++ if decide (hash_of s = k) then sr_Points s else [].
Proof.
  unfold points_with. rewrite filter_app, fmap_app, concat_app. f_equal. rewrite filter_cons. case_decide; [|done]. simpl. by rewrite (right_id_L [] (++)).
Qed.

Lemma merged_step l m s : merged_into l m → merged_into (l ++ [s]) (merge_into Hash m s).
Proof.
  intros Hm. assert (Hsnoc : s ∈ l ++ [s]) by (apply elem_of_app; right; by left).
  assert (Hother : ∀ k s', k ≠ hash_of s → match (<[hash_of s := s']> m) !! k with
    | None => ∀ x, x ∈ l ++ [s] → hash_of x ≠ k
    | Some y => hash_of y = k ∧ (∃ x, x ∈ l ++ [s] ∧ sr_Labels x = sr_Labels y) ∧ sr_Points y = points_with k (l ++ [s]) end).
  { intros k s' Hk. rewrite lookup_insert_ne by done. specialize (Hm k). destruct (m !! k) as [y|].
    - destruct Hm as (Hh & (x & Hx & ?) & Hp). split_and!; [done|exists x; split; [apply elem_of_app; by left|done]|].
      rewrite points_with_snoc, decide_False by done. by rewrite (right_id_L [] (++)).
    - intros x [Hx| ->%list_elem_of_singleton]%elem_of_app; [by apply Hm|done]. }
  unfold merge_into. fold (hash_of s). pose proof (Hm (hash_of s)) as Hs. intros k.
  destruct (m !! hash_of s) as [found|]; (destruct (decide (k = hash_of s)) as [->|Hk]; [|by apply Hother]); rewrite lookup_insert_eq, points_with_snoc, decide_True by done.
  - destruct Hs as (Hh & (x & Hx & ?) & Hp). split_and!; [done|exists x; split; [apply elem_of_app; by left|done]|]. simpl. by rewrite Hp.
  - split_and!; [done|by exists s|]. unfold points_with. rewrite filter_none; [done|]. intros x Hx. by apply Hs.
Qed.

Lemma merged_all l : merged_into l (foldl (merge_into Hash) ∅ l).
Proof.
  induction l as [|s l IH] using rev_ind; [intros k; simpl; rewrite lookup_empty; intros s Hs; by apply not_elem_of_nil in Hs|].
  rewrite foldl_app. by apply merged_step.
Qed.
End MergeSpec.

(** [MergeSeries] of two or more results, when their label sets do not collide in the hash, has for every label set of
    the results exactly one series, whose points are all the points of that label set, in order of time; the series are
    sorted by their labels. *)
Theorem MergeSeries_correct {F} (Hash : Labels → N) (values : gmap N (Series (F := F)) → list Series) (results : list (list (Series (F := F)))) :
  (∀ m, values m ≡ₚ (map_to_list m).*2) → 1 < length results →
  (∀ s s', s ∈ concat results → s' ∈ concat results → Hash (sr_Labels s) = Hash (sr_Labels s') → sr_Labels s = sr_Labels s') →
  let out := MergeSeries Hash values results in
  NoDup (sr_Labels <$> out) ∧ (∀ lbs, lbs ∈ sr_Labels <$> out ↔ lbs ∈ sr_Labels <$> concat results) ∧
  StronglySorted (λ a b, (CompareLabelPairs (sr_Labels a) (sr_Labels b) ≤ 0)%Z) out ∧
  ∀ s, s ∈ out → sr_Points s ≡ₚ concat (sr_Points <$> filter (λ s', sr_Labels s' = sr_Labels s) (concat results)) ∧
    StronglySorted (λ a b, (a.1 ≤ b.1)%Z) (sr_Points s).
Proof.
  intros Hval Hlen Hinj out. set (all := concat results) in *. set (m := foldl (merge_into Hash) ∅ all).
  set (sorted := λ s : Series (F := F), mkSeriesOf (sr_Labels s) (sort_slice point_less (sr_Points s))).
  assert (Hout : out = sorted <$> sort_slice series_less (values m)) by (unfold out; destruct results as [|? [|? ?]]; [simpl in Hlen; lia..|done]).
  pose proof (merged_all Hash all) as Hm. fold m in Hm. destruct (sorted_entries values m (Hval m)) as (kl & Hkl & Hnd & Hin).
  assert (Hlbs : sr_Labels <$> out = sr_Labels <$> kl.*2) by (rewrite Hout, Hkl, <- list_fmap_compose; done).
  assert (Hsrc : ∀ k s, (k, s) ∈ kl → Hash (sr_Labels s) = k ∧ (∃ s', s' ∈ all ∧ sr_Labels s' = sr_Labels s) ∧ sr_Points s = points_with Hash k all).
  { intros k s Hks%Hin. specialize (Hm k). by rewrite Hks in Hm. }
  split_and!.
  - rewrite Hlbs. apply (NoDup_fmap_1 Hash). assert (Hk : Hash <$> (sr_Labels <$> kl.*2) = kl.*1); [|by rewrite Hk].
    rewrite <- !list_fmap_compose. apply list_fmap_ext. intros i [k s] Hi%list_elem_of_lookup_2. by apply Hsrc in Hi as [? _].
  - intros lbs. rewrite Hlbs, !list_elem_of_fmap. split.
    + intros (s & -> & ([k s'] & -> & Hks)%list_elem_of_fmap). apply Hsrc in Hks as (_ & (s & Hs & Hl) & _). simpl. by exists s.
    + intros (s & -> & Hs). specialize (Hm (Hash (sr_Labels s))). destruct (m !! Hash (sr_Labels s)) as [y|] eqn:E; [|by destruct (Hm s Hs)].
      destruct Hm as (Hh & (x & Hx & Hxl) & _). exists y. split; [|apply list_elem_of_fmap; exists (Hash (sr_Labels s), y); split; [done|by apply Hin]].
      rewrite <- Hxl. apply Hinj; [done|done|]. rewrite Hxl. by symmetry.
  - rewrite Hout. eapply StronglySorted_fmap; [|apply by_labels_sorted]. done.
  - intros s Hs. rewrite Hout in Hs. apply list_elem_of_fmap in Hs as (y & -> & Hy). rewrite Hkl in Hy. apply list_elem_of_fmap in Hy as ([k y'] & -> & Hks).
    apply Hsrc in Hks as (Hh & (x & Hx & Hxl) & Hp). simpl. split.
    + rewrite sort_slice_perm, Hp. unfold points_with. apply reflexive_eq. do 2 f_equal. apply filter_ext_in. intros z Hz. unfold hash_of. split; [|by intros ->].
      intros Hzk. rewrite <- Hxl. apply Hinj; [done|done|]. by rewrite Hxl, Hzk.
    + destruct (point_less_order (F := F)) as [Pt1 Pt2]. eapply StronglySorted_weaken; [|by apply sort_slice_sorted].
      intros a b. unfold point_less. intros ?. bool_prop. lia.
Qed.

Definition example_series : list (list (Series (F := Z))) :=
  [[mkSeriesOf [mkLabel "pod" "a"] [(1, 5)]]; [mkSeriesOf [mkLabel "pod" "b"] [(2, 7)]; mkSeriesOf [mkLabel "pod" "a"] [(0, 9)]]]%Z.

Definition series_hash (l : Labels) : N := if decide (l = [mkLabel "pod" "a"]) then 1 else 2.

Theorem MergeSeries_witness :
  let out := MergeSeries series_hash (λ m, (map_to_list m).*2) example_series in
  NoDup (sr_Labels <$> out).
Proof.
  apply (MergeSeries_correct (F := Z)).
  - intros m. reflexivity.
  - simpl. lia.
  - simpl. intros s s'. rewrite !elem_of_cons, !elem_of_nil. by intros [->|[->|[->|[]]]] [->|[->|[->|[]]]].
Defined.
