(* ===== verification/Querier.v ===== *)
(** * The querier (src/pkg/querier/querier.go, ingester_querier.go and the selections of select_merge.go)

    The ring, the connection pool and the order in which concurrent calls end are parameters; an ingester is
    a client with one call per query.  A stream is the interface of SelectMerge. *)

From S2P Require Import Sorting Prelude Labels GoHeap Iter InvertedIndex HeadQuery HeadApi Tree FlameGraph StackMerge SelectMerge QuerySeries.

(** ** All ingesters *)

Record responseFromIngesters (T : Type) := mkResponse { rs_addr : string; rs_response : T }.
Arguments mkResponse {T} _ _. Arguments rs_addr {T} _. Arguments rs_response {T} _.

(** The ring of dskit: the replication set for reads, [ReplicationSet.Do] and the pool's clients. *)
Class Ring (C : Type) := {
  GetReplicationSetForOperation : outcome (list string);
  Do : ∀ T : Type, list string → (string → outcome T) → outcome (list T);
  GetClientFor : string → outcome C }.

Definition forGivenIngesters {C T} `{Ring C} (replicationSet : list string) (f : C → outcome T) : outcome (list (responseFromIngesters T)) :=
  Do (C := C) _ replicationSet (λ addr, obind (GetClientFor addr) (λ client, obind (f client) (λ resp, Ret (mkResponse addr resp)))).

Definition forAllIngesters {C T} `{Ring C} (f : C → outcome T) : outcome (list (responseFromIngesters T)) :=
  obind (GetReplicationSetForOperation (C := C)) (λ rs, forGivenIngesters rs f).

(** The client of an ingester; [B] and [B'] are its streams of stack traces and of series. *)
Class IngesterQueryClient (C B B' : Type) := {
  ic_LabelValues : C → string → outcome (list string);
  ic_LabelNames : C → outcome (list string);
  ic_ProfileTypes : C → outcome (list ProfileType);
  ic_Series : C → list string → outcome (list Labels);
  ic_MergeProfilesStacktraces : C → B;
  ic_MergeProfilesLabels : C → B' }.

(** ** Listings *)

(** The elements that are not in the map yet, in order. *)
Fixpoint uniq_by {A K} `{Countable K} (key : A → K) (seen : gset K) (l : list A) : list A :=
  match l with
  | [] => []
  | x :: l => if decide (key x ∈ seen) then uniq_by key seen l else x :: uniq_by key ({[key x]} ∪ seen) l
  end.

Definition uniqueSortedStrings (responses : list (responseFromIngesters (list string))) : list string :=
  sort_strings (uniq_by id ∅ (responses ≫= rs_response)).

Section Listings.
Context {C B B' : Type} `{IngesterQueryClient C B B', Ring C} (Hash : Labels → N).

(** The first profile type of every ID, in the order of the IDs. *)
Definition QuerierProfileTypes : outcome (list ProfileType) :=
  obind (forAllIngesters ic_ProfileTypes) (λ responses,
    let types := uniq_by PT_ID ∅ (responses ≫= rs_response) in
    let profileTypes : gmap string ProfileType := list_to_map ((λ t, (PT_ID t, t)) <$> types) in
    Ret (omap (λ id, profileTypes !! id) (sort_strings (PT_ID <$> types)))).

Definition QuerierLabelValues (name : string) : outcome (list string) :=
  obind (forAllIngesters (λ ic, ic_LabelValues ic name)) (λ responses, Ret (uniqueSortedStrings responses)).

Definition QuerierLabelNames : outcome (list string) :=
  obind (forAllIngesters ic_LabelNames) (λ responses, Ret (uniqueSortedStrings responses)).

Definition QuerierSeries (matchers : list string) : outcome (list Labels) :=
  obind (forAllIngesters (λ ic, ic_Series ic matchers)) (λ responses, Ret (uniq_by Hash ∅ (responses ≫= rs_response))).
End Listings.

(** ** Selections *)

Record SelectProfilesRequest := mkSelectProfilesRequest { rq_LabelSelector : string; rq_Type : ProfileType; rq_Start : Z; rq_End : Z }.

(** The first message on a stream; [by_] is the grouping, for series. *)
Class BidiStart (B : Type) := bidi_Start : B → SelectProfilesRequest → list string → option string * B.

(** A message of the result: stacks of function indices. *)
Record StackResult := mkStackResult { rs_Stacktraces : list (list Z * Z); rs_FunctionNames : list string }.

(** Received messages have slices of their own. *)
Fixpoint alloc_stacks (n : nat) (stacks : list (list Z * Z)) : slices * list StackSample :=
  match stacks with
  | [] => (∅, [])
  | s :: stacks => let '(H, l) := alloc_stacks (S n) stacks in (<[n := s.1]> H, mkStackSample n s.2 :: l)
  end.

Fixpoint alloc_results (n : nat) (results : list StackResult) : slices * list (option MergeResult) :=
  match results with
  | [] => (∅, [])
  | r :: results =>
      let '(H, samples) := alloc_stacks n (rs_Stacktraces r) in
      let '(H', l) := alloc_results (n + length (rs_Stacktraces r)) results in
      (H ∪ H', Some (mkMergeResult samples (rs_FunctionNames r)) :: l)
  end.

Section Select.
Context {C B B' F : Type}.
Context (multi : list string → string) (orders : nat → list (mergeIterator B) → list (mergeIterator B)).
Context (orders' : nat → list (mergeIterator B') → list (mergeIterator B')).
(** The order in which the calls of an errgroup end. *)
Context (ends : ∀ A : Type, list A → list A).
Context `{BidiClientMerge B StackResult, BidiStart B, BidiClientMerge B' (list (Series (F := F))), BidiStart B'}.
Context (Hashes : list Z → N) (Hash : Labels → N) (fzero : F) (fadd : F → F → F) (values : gmap N (Series (F := F)) → list (Series (F := F))).

(** The results, in the order in which they come; the first error ends the group. *)
Definition gather {X R} `{BidiClientMerge X R} (its : list (mergeIterator X)) : outcome (list R) :=
  omapM (λ it, match (merge_Result it).1 with inl r => Ret r | inr e => Fail e end) (ends _ its).

Definition selectMergeStacktraces (fuel : nat) (responses : list (responseFromIngesters B)) : outcome (list stacktraces) :=
  obind (skipDuplicates multi orders fuel ((λ r, NewMergeIterator (rs_addr r) (rs_response r)) <$> responses)) (λ its,
  obind (gather its) (λ results,
    let '(H, l) := alloc_results 0 results in mergeProfilesStacktracesResult Hashes H l)).

Definition selectMergeSeries (fuel : nat) (responses : list (responseFromIngesters B')) : outcome (SortIterator (seriesIterator (F := F)) (ProfileValue F)) :=
  obind (skipDuplicates multi orders' fuel ((λ r, NewMergeIterator (rs_addr r) (rs_response r)) <$> responses)) (λ its,
  obind (gather its) (λ results, Ret (merged_series fzero Hash values results))).

(** The initial request is sent to all ingesters. *)
Definition start_all {X} `{BidiStart X} (rq : SelectProfilesRequest) (by_ : list string) (responses : list (responseFromIngesters X)) : outcome (list (responseFromIngesters X)) :=
  let sent := (λ r, (rs_addr r, bidi_Start (rs_response r) rq by_)) <$> responses in
  match omap (λ s, s.2.1) (ends _ sent) with
  | e :: _ => Fail e
  | [] => Ret ((λ s, mkResponse s.1 s.2.2) <$> sent)
  end.

Context `{IngesterQueryClient C B B', Ring C}.

Definition QuerierSelectMergeStacktraces (fuel : nat) (ProfileTypeID LabelSelector : string) (start end_ : Z) : outcome FlameGraph :=
  obind (ParseProfileTypeSelector ProfileTypeID) (λ profileType,
  obind (forAllIngesters (λ ic, Ret (ic_MergeProfilesStacktraces ic))) (λ responses,
  obind (start_all (mkSelectProfilesRequest LabelSelector profileType start end_) [] responses) (λ responses,
  obind (selectMergeStacktraces fuel responses) (λ st, Ret (NewFlameGraph (newTree st)))))).

(** [stepMs] is the step in milliseconds, of a step that is not 0. *)
Definition QuerierSelectSeries (multierror : list string → option string) (fuel steps : nat) (ProfileTypeID LabelSelector : string)
    (GroupBy : list string) (Start End : Z) (zero_step : bool) (stepMs : Z) : outcome (list (Series (F := F))) :=
  obind (ParseProfileTypeSelector ProfileTypeID) (λ profileType,
    if (End <? Start)%Z then Fail "start must be before end"
    else if zero_step then Fail "step must be non-zero"
    else
      let start := i64 (Start - stepMs) in
      obind (forAllIngesters (λ ic, Ret (ic_MergeProfilesLabels ic))) (λ responses,
      obind (start_all (mkSelectProfilesRequest LabelSelector profileType start End) (sort_strings GroupBy) responses) (λ responses,
      obind (selectMergeSeries fuel responses) (λ it,
      let instance := @sort_iter (seriesIterator (F := F)) (ProfileValue F) _ _ multierror in
      obind (@rangeSeries F fadd values _ instance steps it Start End stepMs) (λ '(result, it),
        match @Err _ _ instance it with Some e => Fail e | None => Ret result end))))).
End Select.

(** ** Listings are sorted unions *)

Lemma uniq_by_spec {A K} `{Countable K} (key : A → K) l : ∀ seen,
  NoDup (key <$> uniq_by key seen l) ∧ (∀ x, x ∈ uniq_by key seen l → x ∈ l ∧ (key x ∉ seen)) ∧
  ∀ x, x ∈ l → key x ∈ seen ∨ ∃ y, y ∈ uniq_by key seen l ∧ key y = key x.
Proof.
  induction l as [|x l IH]; intros seen; simpl.
  - split_and!; [constructor|intros x Hx; by apply not_elem_of_nil in Hx|intros x Hx; by apply not_elem_of_nil in Hx].
  - case_decide as Hs.
    + destruct (IH seen) as (Hnd & Hin & Hall). split_and!; [done| |].
      * intros y Hy. destruct (Hin y Hy). split; [by right|done].
      * intros y [->|Hy]%elem_of_cons; [by left|by apply Hall].
    + destruct (IH ({[key x]} ∪ seen)) as (Hnd & Hin & Hall). split_and!.
      * rewrite fmap_cons. constructor; [|done]. intros (y & Hy & Hyin)%list_elem_of_fmap. apply Hin in Hyin as [_ Hk]. apply Hk. rewrite <- Hy. set_solver.
      * intros y [->|Hy]%elem_of_cons; [split; [by left|done]|]. destruct (Hin y Hy) as [? Hk]. split; [by right|]. set_solver.
      * intros y [->|Hy]%elem_of_cons; [right; exists x; split; [by left|done]|].
        destruct (Hall y Hy) as [Hk|(z & Hz & Hk)]; [|right; exists z; split; [by right|done]].
        apply elem_of_union in Hk as [Hk%elem_of_singleton|Hk]; [right; exists x; split; [by left|done]|by left].
Qed.

Lemma uniqueSortedStrings_spec responses :
  StronglySorted str_lt (uniqueSortedStrings responses) ∧ ∀ n, n ∈ uniqueSortedStrings responses ↔ ∃ r, r ∈ responses ∧ n ∈ rs_response r.
Proof.
  unfold uniqueSortedStrings. destruct (uniq_by_spec id (responses ≫= rs_response) ∅) as (Hnd & Hin & Hall). rewrite list_fmap_id in Hnd. split.
  - by apply sort_strings_lt.
  - intros n. rewrite sort_strings_perm. split.
    + intros Hn%Hin. destruct Hn as [(r & Hr & Hn)%list_elem_of_bind _]. by exists r.
    + intros (r & Hr & Hn). destruct (Hall n) as [Hk|(y & Hy & Hk)]; [apply list_elem_of_bind; by exists r|set_solver|]. unfold id in Hk. by subst.
Qed.

(** ** Stack traces, from the streams to the merged stacks *)

Lemma alloc_stacks_spec stacks : ∀ n H l, alloc_stacks n stacks = (H, l) →
  (∀ k, is_Some (H !! k) → n ≤ k < n + length stacks) ∧
  Forall2 (λ s x, H !! sp_FunctionIds x = Some s.1 ∧ sp_Value x = s.2 ∧ n ≤ sp_FunctionIds x < n + length stacks) stacks l.
Proof.
  induction stacks as [|s stacks IH]; intros n H l; cbn [alloc_stacks length].
  - intros [= <- <-]. split; [intros k [x Hx]; done|constructor].
  - destruct (alloc_stacks (S n) stacks) as [H1 l1] eqn:E. intros [= <- <-]. destruct (IH _ _ _ E) as [Hd Hf]. split.
    + intros k [x Hx]. apply lookup_insert_Some in Hx as [[<- _]|[_ Hx]]; [lia|]. specialize (Hd k (ex_intro _ x Hx)). lia.
    + constructor; [simpl; rewrite lookup_insert_eq; split_and!; [done|done|lia|lia]|].
      eapply Forall2_impl; [exact Hf|]. intros s' x (Hx & ? & ?). simpl. rewrite lookup_insert_ne by lia. split_and!; [done|done|lia|lia].
Qed.

(** The indices of a result are of its functions. *)
Definition stack_result_ok (r : StackResult) : Prop := Forall (λ s, Forall (in_names (rs_FunctionNames r)) s.1) (rs_Stacktraces r).

Definition raw_stacks (r : StackResult) : list stacktraces := (λ s, mkStack (names_of (rs_FunctionNames r) s.1) s.2) <$> rs_Stacktraces r.

(** What a message is in the store. *)
Definition loaded (H : slices) (r : StackResult) (m : option MergeResult) : Prop :=
  ∃ x, m = Some x ∧ mr_FunctionNames x = rs_FunctionNames r ∧ Forall2 (λ s x, H !! sp_FunctionIds x = Some s.1 ∧ sp_Value x = s.2) (rs_Stacktraces r) (mr_Stacktraces x).

Lemma alloc_results_spec results : ∀ n H l, alloc_results n results = (H, l) →
  (∀ k, is_Some (H !! k) → n ≤ k) ∧ Forall2 (loaded H) results l ∧ apart_all (some_resps l) ∧
  (∀ m k, m ∈ some_resps l → k ∈ refs_of m → n ≤ k).
Proof.
  induction results as [|r results IH]; intros n H l; cbn [alloc_results].
  - intros [= <- <-]. split_and!; [intros k [x Hx]; done|constructor|done|intros m k Hm; by apply not_elem_of_nil in Hm].
  - destruct (alloc_stacks n (rs_Stacktraces r)) as [H1 samples] eqn:E1. destruct (alloc_results _ results) as [H2 l2] eqn:E2. intros [= <- <-].
    destruct (alloc_stacks_spec _ _ _ _ E1) as [Hd1 Hf1]. destruct (IH _ _ _ E2) as (Hd2 & Hf2 & Hap & Hrefs).
    assert (Hnew : ∀ k, k ∈ refs_of (mkMergeResult samples (rs_FunctionNames r)) → n ≤ k < n + length (rs_Stacktraces r)).
    { intros k (x & -> & Hx)%list_elem_of_fmap. simpl in Hx. apply list_elem_of_lookup in Hx as [i Hi]. destruct (Forall2_lookup_r _ _ _ _ _ Hf1 Hi) as (s & _ & _ & _ & ?). done. }
    split_and!.
    + intros k [x Hx]. apply lookup_union_Some_raw in Hx as [Hx|[_ Hx]]; [apply (Hd1 k); by exists x|]. specialize (Hd2 k (ex_intro _ x Hx)). lia.
    + constructor.
      * eexists. split; [done|]. split; [done|]. simpl. eapply Forall2_impl; [exact Hf1|]. intros s x (Hx & ? & _). split; [|done]. by apply lookup_union_Some_l.
      * eapply Forall2_impl; [exact Hf2|]. intros r' m (x & -> & Hn & Hfx). exists x. split; [done|]. split; [done|]. eapply Forall2_impl; [exact Hfx|].
        intros s y [Hy ?]. split; [|done]. rewrite lookup_union_r; [done|]. destruct (H1 !! sp_FunctionIds y) eqn:E; [|done].
        specialize (Hd1 _ (ex_intro _ _ E)). specialize (Hd2 _ (ex_intro _ _ Hy)). lia.
    + split; [|done]. intros m Hm k Hk Hk'. specialize (Hnew k Hk). specialize (Hrefs m k Hm Hk'). lia.
    + intros m k [->|Hm]%elem_of_cons Hk; [apply Hnew in Hk; lia|]. specialize (Hrefs m k Hm Hk). lia.
Qed.

Lemma loaded_facts H results l : Forall2 (loaded H) results l → Forall stack_result_ok results →
  (∀ m, m ∈ some_resps l → result_ok H m) ∧ names_count (some_resps l) = sum_list_with (λ r, length (rs_FunctionNames r)) results ∧
  ∀ P, sum_resps P H (some_resps l) = foldr (λ r acc, sum_where P (raw_stacks r) + acc)%Z 0%Z results.
Proof.
  induction 1 as [|r m results l (x & -> & Hn & Hf) _ IH]; intros Hok; [split_and!; [intros m Hm; by apply not_elem_of_nil in Hm|done|done]|].
  apply Forall_cons in Hok as [Hr Hok]. destruct (IH Hok) as (Hall & Hcount & Hsum). change (some_resps (Some x :: l)) with (x :: some_resps l). split_and!.
  - intros m [->|Hm]%elem_of_cons; [|by apply Hall]. intros s [i Hi]%list_elem_of_lookup. destruct (Forall2_lookup_r _ _ _ _ _ Hf Hi) as (raw & Hraw & Hs & _).
    unfold sample_ok, ids_of. rewrite Hs, Hn. split; [by eexists|]. unfold stack_result_ok in Hr. rewrite Forall_lookup in Hr. by apply (Hr i).
  - simpl. by rewrite Hcount, Hn.
  - intros P. simpl. rewrite Hsum. f_equal. f_equal. unfold raw_stacks, stacks_of. rewrite Hn. clear -Hf.
    induction Hf as [|s y ls ly [Hs Hv] _ IH]; [done|]. csimpl. rewrite IH. f_equal. f_equal; [|done]. unfold ids_of. by rewrite Hs.
Qed.

(** The result of a stream that has ended. *)
Class BidiResult (B R : Type) `{BidiOk B R} := {
  bd_result : B → R;
  bd_receive_result b all sent : bd_view b all sent (length all) → length sent = length all →
    ∃ b', bidi_Receive b = (inl (None, bd_result b), b') }.

Lemma gather_results {X R} `{BidiResult X R} (ends : ∀ A : Type, list A → list A) its kepts : (∀ A l, ends A l ≡ₚ l) → Forall2 merge_ended its kepts →
  ∃ results, gather ends its = Ret results ∧ results ≡ₚ (bd_result ∘ mi_bidi) <$> its.
Proof.
  intros Hends Hit. exists ((bd_result ∘ mi_bidi) <$> ends _ its). split; [|by rewrite Hends].
  assert (Hall : ∀ it, it ∈ ends _ its → ∃ all sent, bd_view (mi_bidi it) all sent (length all) ∧ length sent = length all).
  { intros it Hin. rewrite Hends in Hin. apply list_elem_of_lookup in Hin as [i Hi]. destruct (Forall2_lookup_l _ _ _ _ _ Hit Hi) as (kept & _ & all & sent & ? & ? & _). eauto. }
  unfold gather. apply omapM_ret. apply Forall2_fmap_r, Forall_Forall2_diag, Forall_forall. intros it Hin.
  destruct (Hall it Hin) as (all & sent & Hv & Hl). destruct (bd_receive_result _ _ _ Hv Hl) as (b' & Hr). unfold merge_Result. rewrite Hr.
  by destruct (bidi_CloseResponse b').
Qed.


#[local] Instance script_result : BidiResult (script StackResult) StackResult.
Proof.
  refine {| bd_result b := sc_result b |}. intros b all sent (<- & <- & Hn) _. simpl. rewrite lookup_ge_None_2 by lia. by eexists.
Defined.

Definition example_select : list (ingester_stream (script StackResult)) :=
  [example_stream "i1" [[1; 3]; [4]] (mkStackResult [([0; 1], 3); ([1], 4)] ["f"; "g"]);
   example_stream "i2" [[2]; [3; 4]] (mkStackResult [([0; 1], 5); ([1; 0], 1)] ["g"; "h"])]%Z.

