(* ===== verification/RowNumbers.v ===== *)
(** * Row numbers (src/pkg/phlaredb/query/iters.go)

    A row number is the position of a value in a tree of nested columns: one number per level, -1
    where the level is undefined.  A Go array of six numbers is a list of length six. *)

From S2P Require Import Prelude.

Abbreviation RowNumber := (list Z) (only parsing).

Record RowNumberWithDefinitionLevel := mkRNL { rl_RowNumber : RowNumber; rl_DefinitionLevel : nat }.

Definition EmptyRowNumber : RowNumber := replicate 6 (-1)%Z.
Definition MaxRowNumber : RowNumber := max_int64 :: replicate 5 0%Z.

(** Levels 0 to [upToDefinitionLevel]; a level past the array panics in the code. *)
Fixpoint compare_levels (n : nat) (a b : RowNumber) : Z :=
  match n, a, b with
  | S n, x :: a, y :: b => if (x <? y)%Z then (-1)%Z else if (y <? x)%Z then 1%Z else compare_levels n a b
  | _, _, _ => 0%Z
  end.

Definition CompareRowNumbers (upToDefinitionLevel : nat) (a b : RowNumber) : Z := compare_levels (S upToDefinitionLevel) a b.

Definition TruncateRowNumber (t : RowNumberWithDefinitionLevel) : RowNumber :=
  take (S (rl_DefinitionLevel t)) (rl_RowNumber t) ++ drop (S (rl_DefinitionLevel t)) EmptyRowNumber.

Definition rn_Valid (t : RowNumber) : bool := match t with x :: _ => (0 <=? x)%Z | [] => false end.

(** The increment at the repetition level, the new children and the undefined ones. *)
Definition rn_Next (t : RowNumber) (repetitionLevel definitionLevel : nat) : RowNumber :=
  imap (λ i x,
    let x := if (i =? repetitionLevel)%nat then i64 (x + 1) else x in
    let x := if (repetitionLevel <? i)%nat && (i <=? definitionLevel)%nat then 0%Z else x in
    if (definitionLevel <? i)%nat then (-1)%Z else x) t.

Definition rn_Skip (t : RowNumber) (numRows : Z) : RowNumber :=
  match t with x :: t => i64 (x + numRows) :: ((λ _, -1) <$> t)%Z | [] => [] end.

(** The examples of the code's comment. *)
Example next_examples :
  let start := EmptyRowNumber in
  let us := rn_Next start 0 3 in let null1 := rn_Next us 2 2 in let null2 := rn_Next null1 1 1 in
  let gb := rn_Next null2 1 3 in let null3 := rn_Next gb 0 1 in
  take 4 <$> [us; null1; null2; gb; null3] = [[0; 0; 0; 0]; [0; 0; 1; -1]; [0; 1; -1; -1]; [0; 2; 0; 0]; [1; 0; -1; -1]]%Z.
Proof. reflexivity. Qed.

(** ** Order *)

Definition row_lt (d : nat) (a b : RowNumber) : Prop := CompareRowNumbers d a b = (-1)%Z.
Definition row_le (d : nat) (a b : RowNumber) : Prop := (CompareRowNumbers d a b ≤ 0)%Z.
Definition row_key (d : nat) (a : RowNumber) : list Z := take (S d) a.
Definition is_row (d : nat) (a : RowNumber) : Prop := d < length a.

#[export] Instance row_lt_dec d a b : Decision (row_lt d a b).
Proof. unfold row_lt. apply _. Defined.
#[export] Instance row_le_dec d a b : Decision (row_le d a b).
Proof. unfold row_le. apply _. Defined.

Lemma compare_cases n a b : compare_levels n a b = (-1)%Z ∨ compare_levels n a b = 0%Z ∨ compare_levels n a b = 1%Z.
Proof. revert a b. induction n as [|n IH]; intros [|x a] [|y b]; simpl; auto. destruct (x <? y)%Z; [by left|]. destruct (y <? x)%Z; [by right; right|]. apply IH. Qed.

Lemma compare_eq n a b : n ≤ length a → n ≤ length b → compare_levels n a b = 0%Z ↔ take n a = take n b.
Proof.
  revert a b. induction n as [|n IH]; intros [|x a] [|y b]; simpl; try lia; [done..|]. intros Ha Hb. destruct (Z.ltb_spec x y) as [Hl|Hl]; [split; [done|intros [=]; lia]|].
  destruct (Z.ltb_spec y x) as [Hl'|Hl']; [split; [done|intros [=]; lia]|]. assert (x = y) as -> by lia. rewrite IH by lia. split; [by intros ->|by intros [=]].
Qed.

Lemma compare_opp n a b : compare_levels n a b = (- compare_levels n b a)%Z.
Proof.
  revert a b. induction n as [|n IH]; intros [|x a] [|y b]; simpl; try done. destruct (Z.ltb_spec x y), (Z.ltb_spec y x); try lia. apply IH.
Qed.

Lemma compare_trans n a b c : n ≤ length a → n ≤ length b → n ≤ length c → (compare_levels n a b ≤ 0)%Z → (compare_levels n b c ≤ 0)%Z →
  (compare_levels n a c ≤ 0)%Z ∧ (compare_levels n a c = 0%Z → compare_levels n a b = 0%Z).
Proof.
  revert a b c. induction n as [|n IH]; intros [|x a] [|y b] [|z c]; simpl; try lia. intros Ha Hb Hc.
  destruct (Z.ltb_spec x y), (Z.ltb_spec y x), (Z.ltb_spec y z), (Z.ltb_spec z y), (Z.ltb_spec x z), (Z.ltb_spec z x); try lia.
  intros Hab Hbc. by apply (IH a b c); lia.
Qed.

(** A comparison at a level decides the comparisons above it. *)
Lemma compare_prefix n m a b : n ≤ m → (compare_levels m a b ≤ 0)%Z → (compare_levels n a b ≤ 0)%Z.
Proof.
  revert m a b. induction n as [|n IH]; intros [|m] [|x a] [|y b]; simpl; try lia. intros Hn.
  destruct (Z.ltb_spec x y); [lia|]. destruct (Z.ltb_spec y x); [lia|]. apply IH. lia.
Qed.

Lemma row_le_key d d' a b : d' ≤ d → row_le d a b → row_le d' a b.
Proof. intros Hd. apply compare_prefix. lia. Qed.

Lemma row_not_lt d a b : ¬ row_lt d a b ↔ row_le d b a.
Proof. unfold row_lt, row_le, CompareRowNumbers. pose proof (compare_cases (S d) a b). rewrite (compare_opp (S d) b a). lia. Qed.

Lemma row_le_trans d a b c : is_row d a → is_row d b → is_row d c → row_le d a b → row_le d b c → row_le d a c.
Proof. intros Ha Hb Hc H1 H2. by apply (compare_trans (S d) a b c). Qed.

Lemma row_lt_le_trans d a b c : is_row d a → is_row d b → is_row d c → row_lt d a b → row_le d b c → row_lt d a c.
Proof.
  intros Ha Hb Hc H1 H2. unfold row_lt, row_le, CompareRowNumbers in *. destruct (compare_trans (S d) a b c Ha Hb Hc) as [H3 H4]; [lia|done|].
  pose proof (compare_cases (S d) a c). lia.
Qed.

Lemma row_le_lt_trans d a b c : is_row d a → is_row d b → is_row d c → row_le d a b → row_lt d b c → row_lt d a c.
Proof.
  intros Ha Hb Hc H1 H2. destruct (decide (row_lt d a c)) as [|Hn]; [done|]. exfalso. apply row_not_lt in Hn.
  assert (Hcb : row_le d c b) by (by apply (row_le_trans d c a b)). apply row_not_lt in Hcb. done.
Qed.

Lemma row_le_antisym d a b : is_row d a → is_row d b → row_le d a b → row_le d b a → row_key d a = row_key d b.
Proof.
  unfold row_le, row_key, CompareRowNumbers, is_row. intros Ha Hb H1 H2. rewrite (compare_opp (S d) b a) in H2. apply compare_eq; lia.
Qed.

Lemma row_key_le d a b : is_row d a → is_row d b → row_key d a = row_key d b → row_le d a b.
Proof. unfold is_row, row_le, row_key, CompareRowNumbers. intros Ha Hb Hk. apply compare_eq in Hk; lia. Qed.

Lemma compare_zero d a b : is_row d a → is_row d b → CompareRowNumbers d a b = 0%Z ↔ row_key d a = row_key d b.
Proof. apply compare_eq. Qed.

Lemma compare_key_l d a a' b : row_key d a = row_key d a' → CompareRowNumbers d a b = CompareRowNumbers d a' b.
Proof.
  unfold CompareRowNumbers, row_key. generalize (S d) as n. clear d. intros n. revert a a' b.
  induction n as [|n IH]; intros [|x a] [|x' a'] [|y b]; simpl; try done. intros [= -> Hk]. by rewrite (IH a a' b).
Qed.

Lemma compare_key_r d a b b' : row_key d b = row_key d b' → CompareRowNumbers d a b = CompareRowNumbers d a b'.
Proof. intros Hk. unfold CompareRowNumbers. rewrite !(compare_opp _ a). f_equal. by apply (compare_key_l d). Qed.

(** Truncation keeps the comparisons at its level. *)
Lemma truncate_length t : length (rl_RowNumber t) = 6 → rl_DefinitionLevel t < 6 → length (TruncateRowNumber t) = 6.
Proof. intros Hl Hd. unfold TruncateRowNumber. rewrite length_app, length_take, length_drop, Hl. simpl length. lia. Qed.

Lemma truncate_key t : length (rl_RowNumber t) = 6 → rl_DefinitionLevel t < 6 → row_key (rl_DefinitionLevel t) (TruncateRowNumber t) = row_key (rl_DefinitionLevel t) (rl_RowNumber t).
Proof.
  intros Hl Hd. unfold TruncateRowNumber, row_key. rewrite take_app_le by (rewrite length_take; lia). rewrite take_take. f_equal. lia.
Qed.

(** ** Counting *)

Definition row0 (t : RowNumber) : Z := default 0%Z (head t).

(** Room for [n] more increments of every level. *)
Definition row_room (t : RowNumber) (n : nat) : Prop := length t = 6 ∧ Forall (λ x, -1 ≤ x ∧ x + Z.of_nat n < max_int64)%Z t.

Lemma compare_same n a b : (∀ i, i < n → a !! i = b !! i) → compare_levels n a b = 0%Z.
Proof.
  revert a b. induction n as [|n IH]; intros [|x a] [|y b] He; simpl; try done. injection (He 0 ltac:(lia)) as ->. rewrite Z.ltb_irrefl. apply IH. intros i Hi. apply (He (S i)). lia.
Qed.

Lemma compare_at j : ∀ n a b x y, (∀ i, i < j → a !! i = b !! i) → a !! j = Some x → b !! j = Some y → (x < y)%Z → j < n → compare_levels n a b = (-1)%Z.
Proof.
  induction j as [|j IH]; intros [|n] [|z a] [|w b] x y He Ha Hb Hlt Hj; simpl; try done; try lia.
  - injection Ha as ->. injection Hb as ->. by rewrite (proj2 (Z.ltb_lt x y) Hlt).
  - injection (He 0 ltac:(lia)) as ->. rewrite Z.ltb_irrefl. apply (IH n a b x y); try done; [|lia]. intros i Hi. apply (He (S i)). lia.
Qed.

Lemma row_room_le t n m : m ≤ n → row_room t n → row_room t m.
Proof. intros Hm [Hl Hf]. split; [done|]. eapply Forall_impl; [exact Hf|]. intros x Hx. simpl in *. lia. Qed.

Lemma room_small t n i x : row_room t n → t !! i = Some x → (-1 ≤ x ∧ x + Z.of_nat n < max_int64)%Z.
Proof. intros [_ Hf] Hx. exact (Forall_lookup_1 _ _ _ _ Hf Hx). Qed.

Section Next.
Context (t : RowNumber) (n r k : nat) (Hroom : row_room t (S n)) (Hrk : r ≤ k) (Hk : k < 6).

Lemma next_incr x i : t !! i = Some x → i64 (x + 1) = (x + 1)%Z.
Proof. intros Hx. apply i64_small. pose proof (room_small _ _ _ _ Hroom Hx). unfold int64_range, min_int64, max_int64 in *. lia. Qed.

Lemma next_lookup_lt i : i < r → rn_Next t r k !! i = t !! i.
Proof.
  intros Hi. unfold rn_Next. rewrite list_lookup_imap. destruct (t !! i) as [x|] eqn:E; [|done]. simpl.
  rewrite (proj2 (Nat.eqb_neq i r)), (proj2 (Nat.ltb_ge r i)), (proj2 (Nat.ltb_ge k i)) by lia. done.
Qed.

Lemma next_lookup_eq x : t !! r = Some x → rn_Next t r k !! r = Some (x + 1)%Z.
Proof.
  intros Hx. unfold rn_Next. rewrite list_lookup_imap, Hx. simpl. by rewrite Nat.eqb_refl, (proj2 (Nat.ltb_ge r r)), (proj2 (Nat.ltb_ge k r)), (next_incr x r Hx) by lia.
Qed.

Lemma next_room : row_room (rn_Next t r k) n.
Proof.
  destruct Hroom as [Hl _]. split; [unfold rn_Next; by rewrite length_imap|]. apply Forall_lookup. intros i y Hy. unfold rn_Next in Hy. rewrite list_lookup_imap in Hy.
  destruct (t !! i) as [x|] eqn:E; [|done]. injection Hy as <-. pose proof (room_small _ _ _ _ Hroom E). pose proof (next_incr x i E) as Hi. unfold max_int64 in *.
  destruct (i =? r)%nat; [rewrite Hi|]; destruct ((r <? i)%nat && (i <=? k)%nat), (k <? i)%nat; lia.
Qed.

Lemma next_le d : row_le d t (rn_Next t r k).
Proof.
  unfold row_le, CompareRowNumbers. destruct (decide (r < S d)) as [Hr|Hr].
  - destruct Hroom as [Hl _]. destruct (lookup_lt_is_Some_2 t r ltac:(lia)) as [x Hx]. rewrite (compare_at r (S d) t _ x (x + 1)%Z); try done; [|by apply next_lookup_eq|lia].
    intros i Hi. symmetry. by apply next_lookup_lt.
  - rewrite compare_same; [done|]. intros i Hi. symmetry. apply next_lookup_lt. lia.
Qed.

Lemma next_row0 : row0 (rn_Next t r k) = (row0 t + if decide (r = 0%nat) then 1 else 0)%Z.
Proof.
  destruct Hroom as [Hl _]. pose proof next_incr as Hi. destruct t as [|x u]; [done|]. specialize (Hi x 0 eq_refl). unfold rn_Next, row0. simpl.
  destruct r; simpl; [by rewrite Hi|lia].
Qed.
End Next.

Lemma next_start t t' k : row0 t = row0 t' → length t = 6 → length t' = 6 → rn_Next t 0 k = rn_Next t' 0 k.
Proof.
  intros Hh Hl Hl'. apply list_eq. intros i. unfold rn_Next. rewrite !list_lookup_imap. destruct i as [|i].
  - destruct t, t'; [done..|]. unfold row0 in Hh. simpl in *. by rewrite Hh.
  - destruct (t !! S i) eqn:E.
    + destruct (lookup_lt_is_Some_2 t' (S i)) as [y Hy]; [apply lookup_lt_Some in E; lia|]. rewrite Hy. cbn -[Nat.leb Nat.ltb]. destruct (Nat.ltb_spec k (S i)); [done|]. by rewrite (proj2 (Nat.leb_le (S i) k)), (proj2 (Nat.ltb_lt 0 (S i))) by lia.
    + apply lookup_ge_None in E. by rewrite (lookup_ge_None_2 t' (S i)) by lia.
Qed.

Lemma skip_room t n m : row_room t (n + m) → row_room (rn_Skip t (Z.of_nat m)) n.
Proof.
  intros [Hl Hf]. destruct t as [|x t]; [done|]. apply Forall_cons in Hf as [Hx Hf]. simpl. split; [simpl in *; by rewrite length_fmap|]. constructor.
  - rewrite i64_small; [lia|]. unfold int64_range, min_int64, max_int64 in *. lia.
  - apply Forall_fmap. eapply Forall_impl; [exact Hf|]. intros y Hy. simpl in *. lia.
Qed.

Lemma skip_row0 t n : (0 ≤ n)%Z → (row0 t + n < max_int64)%Z → (-1 ≤ row0 t)%Z → length t = 6 → row0 (rn_Skip t n) = (row0 t + n)%Z.
Proof. intros Hn Hm H1 Hl. destruct t as [|x t]; [done|]. unfold row0 in *. simpl in *. apply i64_small. unfold int64_range, min_int64, max_int64 in *. lia. Qed.

(** The comparison at level 0. *)
Lemma compare_row0 a b : length a = 6 → length b = 6 → row_lt 0 a b ↔ (row0 a < row0 b)%Z.
Proof.
  intros Ha Hb. destruct a as [|x a], b as [|y b]; [done..|]. unfold row_lt, CompareRowNumbers, row0. simpl. destruct (Z.ltb_spec x y), (Z.ltb_spec y x); split; intros; lia.
Qed.

Lemma row_lt_level d a b : row_lt 0 a b → row_lt d a b.
Proof. unfold row_lt, CompareRowNumbers. destruct a as [|x a], b as [|y b]; simpl; try done. destruct (x <? y)%Z; [done|]. by destruct (y <? x)%Z. Qed.
