(* ===== verification/QueryIters.v ===== *)
(** * Joining columns by row (src/pkg/phlaredb/query/iters.go)

    Results are rows with named values; iterators over them seek by row number.  [JoinIterator] and
    [UnionIterator] combine iterators; an iterator is a state with the operations of [SeekIterator].
    The pools only recycle results, they are not modelled. *)

From S2P Require Import Prelude RowNumbers.

(** ** Results *)

(** A parquet value, and a value of a row, are parameters. *)
Record Entry (V R : Type) := mkEntry { e_k : string; e_V : V; e_RowValue : option R }.
Arguments mkEntry {V R} _ _ _. Arguments e_k {V R} _. Arguments e_V {V R} _. Arguments e_RowValue {V R} _.

Record IteratorResult (V R : Type) := mkResult { ir_RowNumber : RowNumber; ir_Entries : list (Entry V R) }.
Arguments mkResult {V R} _ _. Arguments ir_RowNumber {V R} _. Arguments ir_Entries {V R} _.

Section Results.
Context {V R : Type}.
Implicit Types r : IteratorResult V R.

Definition ir_Reset r : IteratorResult V R := mkResult (ir_RowNumber r) [].
Definition ir_Append r rr : IteratorResult V R := mkResult (ir_RowNumber r) (ir_Entries r ++ ir_Entries rr).
Definition ir_AppendValue r (k : string) (v : V) : IteratorResult V R := mkResult (ir_RowNumber r) (ir_Entries r ++ [mkEntry k v None]).

Definition ToMap r : gmap string (list V) :=
  foldl (λ m e, <[e_k e := default [] (m !! e_k e) ++ [e_V e]]> m) ∅ (ir_Entries r).

(** The first name that is the entry's takes its value. *)
Fixpoint add_column (names : list string) (buffer : list (list V)) (e : Entry V R) : list (list V) :=
  match names, buffer with
  | n :: names, b :: buffer => if String.eqb (e_k e) n then (b ++ [e_V e]) :: buffer else b :: add_column names buffer e
  | _, _ => buffer
  end.

Definition Columns r (names : list string) : list (list V) := foldl (add_column names) (replicate (length names) []) (ir_Entries r).
End Results.

(** ** Iterators *)

Class SeekIterator (St V R : Type) := {
  si_Next : St → bool * St;
  si_At : St → IteratorResult V R;
  si_Seek : St → RowNumberWithDefinitionLevel → bool * St;
  si_Err : St → option string;
  si_Close : St → option string * St;
  (** a bound on the number of results that are left *)
  si_remaining : St → nat }.

(** An error iterator. *)
Record errSeekIterator := mkErrSeek { es_err : string }.
#[export] Instance errSeekIterator_iter {V R} : SeekIterator errSeekIterator V R := {|
  si_Next s := (false, s);
  si_At s := mkResult [] [];
  si_Seek s _ := (false, s);
  si_Err s := Some (es_err s);
  si_Close s := (None, s);
  si_remaining _ := 0 |}.

Section Combine.
Context {St V R : Type} `{SeekIterator St V R}.

(** An iterator with its peeked result. *)
Abbreviation peeked := (St * option (IteratorResult V R))%type (only parsing).

Definition peek (it : peeked) : peeked :=
  match it.2 with
  | Some _ => it
  | None => let '(more, s) := si_Next it.1 in (s, if more then Some (si_At s) else None)
  end.

Definition group_kept (pred : option (IteratorResult V R → bool)) (r : IteratorResult V R) : bool :=
  match pred with Some keep => keep r | None => true end.

(** *** Join *)

Record JoinIterator := mkJoin { ji_level : nat; ji_iters : list peeked; ji_pred : option (IteratorResult V R → bool); ji_result : option (IteratorResult V R) }.

Definition NewJoinIterator (definitionLevel : nat) (iters : list St) (pred : option (IteratorResult V R → bool)) : JoinIterator :=
  mkJoin definitionLevel ((λ s, (s, None)) <$> iters) pred None.

(** One pass over the iterators: the lowest row with its iterators and the highest; nothing when one is exhausted. *)
Fixpoint join_scan (d i : nat) (low : RowNumber) (lows : list nat) (high : RowNumber) (its : list peeked)
    : list peeked * option (RowNumber * list nat * RowNumber) :=
  match its with
  | [] => ([], Some (low, lows, high))
  | it :: rest =>
      let it := peek it in
      match it.2 with
      | None => (it :: rest, None)
      | Some res =>
          let c := CompareRowNumbers d (ir_RowNumber res) low in
          let '(low, lows) := if (c =? -1)%Z then (ir_RowNumber res, [i]) else if (c =? 0)%Z then (low, lows ++ [i]) else (low, lows) in
          let high := if (CompareRowNumbers d (ir_RowNumber res) high =? 1)%Z then ir_RowNumber res else high in
          let '(rest, r) := join_scan d (S i) low lows high rest in (it :: rest, r)
      end
  end.

(** The results of one iterator that are at the row. *)
Fixpoint collect_one (fuel d : nat) (rn : RowNumber) (it : peeked) (result : IteratorResult V R) : outcome (peeked * IteratorResult V R) :=
  match fuel with
  | O => Panic
  | S fuel =>
      match it.2 with
      | Some p =>
          if (CompareRowNumbers d (ir_RowNumber p) rn =? 0)%Z then
            let '(more, s) := si_Next it.1 in
            collect_one fuel d rn (s, if more then Some (si_At s) else None) (ir_Append result p)
          else Ret (it, result)
      | None => Ret (it, result)
      end
  end.

Fixpoint collect_all (d : nat) (rn : RowNumber) (its : list peeked) (result : IteratorResult V R) : outcome (list peeked * IteratorResult V R) :=
  match its with
  | [] => Ret ([], result)
  | it :: its =>
      obind (collect_one (S (S (si_remaining it.1))) d rn it result) (λ '(it, result),
      obind (collect_all d rn its result) (λ '(its, result), Ret (it :: its, result)))
  end.

Definition seek_one (to : RowNumberWithDefinitionLevel) (it : peeked) : peeked :=
  let behind := match it.2 with Some p => (CompareRowNumbers (rl_DefinitionLevel to) (ir_RowNumber p) (rl_RowNumber to) =? -1)%Z | None => true end in
  if behind then let '(found, s) := si_Seek it.1 to in (s, if found then Some (si_At s) else None) else it.

Definition seekAll (to : RowNumberWithDefinitionLevel) (its : list peeked) : list peeked :=
  seek_one (mkRNL (TruncateRowNumber to) (rl_DefinitionLevel to)) <$> its.

Fixpoint join_loop (fuel : nat) (d : nat) (pred : option (IteratorResult V R → bool)) (its : list peeked)
    : outcome (list peeked * option (IteratorResult V R)) :=
  match fuel with
  | O => Panic
  | S fuel =>
      let '(its, scanned) := join_scan d 0 MaxRowNumber [] EmptyRowNumber its in
      match scanned with
      | None => Ret (its, None)
      | Some (low, lows, high) =>
          let again := λ its, join_loop fuel d pred (seekAll (mkRNL high d) its) in
          if (length lows =? length its)%nat then
            obind (collect_all d low its (mkResult low [])) (λ '(its, result),
              if group_kept pred result then Ret (its, Some result) else again its)
          else again its
      end
  end.

(** How many results are left at most. *)
Definition left_in (its : list peeked) : nat := sum_list_with (λ it, si_remaining it.1 + (if it.2 is Some _ then 1 else 0)) its.

Definition join_Next (j : JoinIterator) : outcome (bool * JoinIterator) :=
  obind (join_loop (S (left_in (ji_iters j))) (ji_level j) (ji_pred j) (ji_iters j)) (λ '(its, r),
    Ret (match r with Some _ => true | None => false end, mkJoin (ji_level j) its (ji_pred j) r)).

Definition join_Seek (j : JoinIterator) (to : RowNumberWithDefinitionLevel) : outcome (bool * JoinIterator) :=
  join_Next (mkJoin (ji_level j) (seekAll to (ji_iters j)) (ji_pred j) (ji_result j)).

Definition first_err (its : list peeked) : option string := head (omap (λ it, si_Err it.1) its).

Definition close_all (its : list peeked) : list string * list peeked :=
  (omap (λ it, (si_Close it.1).1) its, (λ it, ((si_Close it.1).2, it.2)) <$> its).
End Combine.
Arguments JoinIterator St V R : clear implicits.
Arguments mkJoin {St V R} _ _ _ _.
Arguments ji_level {St V R} _. Arguments ji_iters {St V R} _. Arguments ji_pred {St V R} _. Arguments ji_result {St V R} _.

(** The iterator; [multierror] is [MultiError.Err]. *)
#[export] Instance join_iterator {St V R} `{SeekIterator St V R} (multierror : list string → option string) : SeekIterator (JoinIterator St V R) V R := {|
  si_Next j := match join_Next j with Ret r => r | _ => (false, j) end;
  si_At j := default (mkResult [] []) (ji_result j);
  si_Seek j to := match join_Seek j to with Ret r => r | _ => (false, j) end;
  si_Err j := first_err (ji_iters j);
  si_Close j := let '(errs, its) := close_all (ji_iters j) in (multierror errs, mkJoin (ji_level j) its (ji_pred j) (ji_result j));
  si_remaining j := left_in (ji_iters j) |}.

(** ** What an iterator promises *)

Section Laws.
Context {V R : Type}.
Implicit Types (l : list (IteratorResult V R)) (x : IteratorResult V R).

(** Rows in order at a level; a row is not the maximum. *)
Definition good_row x : Prop := length (ir_RowNumber x) = 6 ∧ rn_Valid (ir_RowNumber x) = true ∧ row_lt 0 (ir_RowNumber x) MaxRowNumber.
Definition by_row (d : nat) : relation (IteratorResult V R) := λ x y, row_le d (ir_RowNumber x) (ir_RowNumber y).
Definition rows_ok (d : nat) l : Prop := Forall good_row l ∧ StronglySorted (by_row d) l.

(** The results from the row on. *)
Definition below (to : RowNumberWithDefinitionLevel) x : Prop := row_lt (rl_DefinitionLevel to) (ir_RowNumber x) (rl_RowNumber to).
#[export] Instance below_dec to x : Decision (below to x).
Proof. unfold below. apply _. Defined.
Definition from_row (to : RowNumberWithDefinitionLevel) l : list (IteratorResult V R) := filter (λ x, ¬ below to x) l.
End Laws.

(** An iterator over a list of results, for seeks at levels up to [d]. *)
Class SeekIteratorOk (St V R : Type) `{SeekIterator St V R} (d : nat) := {
  si_view : St → list (IteratorResult V R) → Prop;
  si_view_rows s l : si_view s l → rows_ok d l;
  si_view_left s l : si_view s l → length l ≤ si_remaining s;
  si_next_view s l : si_view s l →
    match l with
    | [] => ∃ s', si_Next s = (false, s') ∧ si_view s' []
    | x :: l => ∃ s', si_Next s = (true, s') ∧ si_At s' = x ∧ si_view s' l
    end;
  si_seek_view s l to : si_view s l → rl_DefinitionLevel to ≤ d → length (rl_RowNumber to) = 6 →
    match from_row to l with
    | [] => ∃ s', si_Seek s to = (false, s') ∧ si_view s' []
    | x :: l => ∃ s', si_Seek s to = (true, s') ∧ si_At s' = x ∧ si_view s' l
    end }.

(** ** Joins of lists *)

Section JoinLists.
Context {V R : Type} (d : nat) (Hd : d < 6).
Implicit Types (l : list (IteratorResult V R)) (x y : IteratorResult V R) (Ls : list (list (IteratorResult V R))).

Definition key x : list Z := row_key d (ir_RowNumber x).
Definition group (k : list Z) l : list (IteratorResult V R) := filter (λ y, key y = k) l.

(** The first result of every row. *)
Fixpoint row_heads l : list (IteratorResult V R) :=
  match l with
  | [] => []
  | x :: l => x :: filter (λ y, key y ≠ key x) (row_heads l)
  end.

Context (pred : option (IteratorResult V R → bool)).

(** The rows that all lists have, with all their entries, list by list. *)
Definition joined Ls x : option (IteratorResult V R) :=
  if decide (Forall (λ l, group (key x) l ≠ []) Ls) then
    let r := mkResult (ir_RowNumber x) (concat ((λ l, concat (ir_Entries <$> group (key x) l)) <$> Ls)) in
    if group_kept pred r then Some r else None
  else None.

Definition join_list Ls : list (IteratorResult V R) :=
  match Ls with [] => [] | l :: _ => omap (joined Ls) (row_heads l) end.

Lemma good_is_row x : good_row x → is_row d (ir_RowNumber x).
Proof. intros [Hl _]. unfold is_row. lia. Qed.

Lemma heads_in l x : x ∈ row_heads l → x ∈ l.
Proof. induction l as [|y l IH]; simpl; [done|]. intros [->|[_ Hx]%list_elem_of_filter]%elem_of_cons; [by left|right; by apply IH]. Qed.

Lemma joined_key Ls x r : joined Ls x = Some r → ir_RowNumber r = ir_RowNumber x ∧ Forall (λ l, group (key x) l ≠ []) Ls.
Proof. unfold joined. case_decide; [|done]. cbv zeta. destruct (group_kept _ _); [|done]. by intros [= <-]. Qed.

Lemma group_filter (P : IteratorResult V R → Prop) `{!∀ x, Decision (P x)} k l : (∀ x, key x = k → P x) → group k (filter P l) = group k l.
Proof. intros HP. unfold group. rewrite list_filter_filter. apply filter_ext_in. intros x _. split; [by intros [? _]|]. intros Hk. split; [done|by apply HP]. Qed.

Lemma group_none k l : (∀ x, x ∈ l → key x ≠ k) → group k l = [].
Proof. intros Hn. apply filter_none. intros x Hx. by apply Hn. Qed.

(** Keeping the rows that a test of the key selects. *)
Lemma heads_filter (P : IteratorResult V R → Prop) `{!∀ x, Decision (P x)} l : (∀ x y, key x = key y → P x → P y) → row_heads (filter P l) = filter P (row_heads l).
Proof.
  intros HP. induction l as [|x l IH]; [done|]. rewrite filter_cons. case_decide as Hx; simpl.
  - rewrite IH, filter_cons_True by done. f_equal. rewrite !list_filter_filter. apply filter_ext_in. intros y _. tauto.
  - rewrite IH, filter_cons_False by done. rewrite list_filter_filter. apply filter_ext_in. intros y _. split; [|by intros [? _]].
    intros Hy. split; [done|]. intros Hk. by apply Hx, (HP y x).
Qed.

Lemma joined_ext Ls Ls' x : Forall2 (λ l l', group (key x) l = group (key x) l') Ls Ls' → joined Ls x = joined Ls' x.
Proof.
  intros Hf. unfold joined. assert (Hg : (λ l, concat (ir_Entries <$> group (key x) l)) <$> Ls = (λ l, concat (ir_Entries <$> group (key x) l)) <$> Ls').
  { induction Hf as [|l l' Ls Ls' Hl _ IH]; [done|]. csimpl. by rewrite Hl, IH. }
  rewrite Hg. apply decide_ext. clear Hg. induction Hf as [|l l' Ls Ls' Hl _ IH]; [split; constructor|]. rewrite !Forall_cons, Hl. by rewrite IH.
Qed.

(** Rows that a list does not have can be dropped from all. *)
Lemma join_filter (P : IteratorResult V R → Prop) `{!∀ x, Decision (P x)} Ls : (∀ x y, key x = key y → P x → P y) →
  join_list (filter P <$> Ls) = omap (joined Ls) (filter P (match Ls with [] => [] | l :: _ => row_heads l end)).
Proof.
  intros HP. destruct Ls as [|l Ls]; [done|]. cbn [join_list fmap list_fmap]. rewrite heads_filter by done.
  assert (Hall : ∀ x, x ∈ filter P (row_heads l) → joined (filter P l :: (filter P <$> Ls)) x = joined (l :: Ls) x).
  { intros x [Hx _]%list_elem_of_filter. apply joined_ext. change (filter P l :: (filter P <$> Ls)) with (filter P <$> l :: Ls). apply Forall2_fmap_l, Forall_Forall2_diag, Forall_true.
    intros l'. apply group_filter. intros y Hy. apply (HP x y); [by symmetry|done]. }
  induction (filter P (row_heads l)) as [|x hs IH]; [done|]. csimpl. rewrite (Hall x) by (by left). rewrite IH by (intros y Hy; apply Hall; by right). done.
Qed.

Lemma join_filter_all (P : IteratorResult V R → Prop) `{!∀ x, Decision (P x)} Ls : (∀ x y, key x = key y → P x → P y) →
  (∃ l, l ∈ Ls ∧ ∀ x, x ∈ l → P x) → join_list (filter P <$> Ls) = join_list Ls.
Proof.
  intros HP (l0 & Hl0 & Hall). rewrite join_filter by done. destruct Ls as [|l Ls]; [done|]. cbn [join_list].
  induction (row_heads l) as [|x hs IH]; [done|]. rewrite filter_cons. case_decide as Hx; csimpl; [by rewrite IH|].
  destruct (joined (l :: Ls) x) as [r|] eqn:E; [|done]. apply joined_key in E as [_ Hg]. rewrite Forall_forall in Hg. specialize (Hg l0 Hl0).
  exfalso. apply Hg, group_none. intros y Hy Hk. apply Hx, (HP y x); [done|by apply Hall].
Qed.

Lemma join_empty Ls : [] ∈ Ls → join_list Ls = [].
Proof.
  intros Hin. destruct Ls as [|l Ls]; [done|]. cbn [join_list]. induction (row_heads l) as [|x hs IH]; [done|]. csimpl.
  destruct (joined (l :: Ls) x) as [r|] eqn:E; [|done]. apply joined_key in E as [_ Hg]. rewrite Forall_forall in Hg. by specialize (Hg [] Hin).
Qed.
End JoinLists.

(** ** The loop *)

Section JoinSpec.
Context {St V R : Type} `{SeekIteratorOk St V R d} (Hd : d < 6) (pred : option (IteratorResult V R → bool)).
Abbreviation peeked := (St * option (IteratorResult V R))%type (only parsing).
Implicit Types (it : peeked) (L : list (IteratorResult V R)) (x y : IteratorResult V R).

(** The results that are left, the peeked one first. *)
Definition rem_view it L : Prop :=
  match it.2 with Some x => ∃ L', L = x :: L' ∧ si_view it.1 L' ∧ rows_ok d L | None => si_view it.1 L end.

Lemma rem_rows it L : rem_view it L → rows_ok d L.
Proof. unfold rem_view. destruct it.2; [by intros (L' & -> & _ & ?)|apply si_view_rows]. Qed.

Lemma rem_left it L : rem_view it L → length L ≤ si_remaining it.1 + (if it.2 is Some _ then 1 else 0).
Proof. clear Hd. unfold rem_view. destruct it.2; [intros (L' & -> & Hv & _)|intros Hv]; apply si_view_left in Hv; simpl; lia. Qed.

Lemma rows_tail x L : rows_ok d (x :: L) → rows_ok d L.
Proof. intros [Hf Hs]. apply Forall_cons in Hf as [_ ?]. apply StronglySorted_inv in Hs as [? _]. done. Qed.

Lemma rows_after x y L : rows_ok d (x :: L) → y ∈ x :: L → row_le d (ir_RowNumber x) (ir_RowNumber y).
Proof.
  intros [Hf Hs] Hy. apply Forall_cons in Hf as [Hx _]. apply StronglySorted_inv in Hs as [_ Hs]. rewrite Forall_forall in Hs.
  apply elem_of_cons in Hy as [->|Hy]; [|by apply Hs]. apply row_key_le; [by apply good_is_row..|done].
Qed.

Lemma next_rem s L : si_view s L → let '(more, s') := si_Next s in let it := (s', if more then Some (si_At s') else None) in rem_view it L ∧ it.2 = head L.
Proof.
  intros Hv. pose proof (si_view_rows _ _ Hv) as Hr. apply si_next_view in Hv. destruct L as [|x L].
  - destruct Hv as (s' & -> & Hv'). done.
  - destruct Hv as (s' & -> & Hat & Hv'). rewrite Hat. split; [|done]. by exists L.
Qed.

Lemma peek_spec it L : rem_view it L → rem_view (peek it) L ∧ (peek it).2 = head L.
Proof.
  intros Hv. unfold peek. destruct it as [s [x|]]; simpl.
  - split; [done|]. by destruct Hv as (L' & -> & _).
  - pose proof (next_rem s L Hv) as Hn. by destruct (si_Next s).
Qed.

Lemma below_key to x y : rl_DefinitionLevel to ≤ d → key d x = key d y → below to x → below to y.
Proof.
  intros Hl Hk. unfold below, row_lt. rewrite (compare_key_l _ (ir_RowNumber x) (ir_RowNumber y)); [done|].
  unfold key, row_key in *. apply (f_equal (take (S (rl_DefinitionLevel to)))) in Hk. rewrite !take_take, !Nat.min_l in Hk by lia. done.
Qed.

Lemma from_row_done to x L : rl_DefinitionLevel to ≤ d → length (rl_RowNumber to) = 6 → rows_ok d (x :: L) → ¬ below to x → from_row to (x :: L) = x :: L.
Proof.
  intros Hl Hlen Hr Hx. apply filter_all. intros y Hy Hby. apply Hx. pose proof (rows_after _ _ _ Hr Hy) as Hle. apply (row_le_key _ _ _ _ Hl) in Hle.
  destruct Hr as [Hf _]. rewrite Forall_forall in Hf. assert (Hx6 : length (ir_RowNumber x) = 6) by (apply (Hf x); by left).
  assert (Hy6 : length (ir_RowNumber y) = 6) by (by apply (Hf y)). unfold below in *. apply (row_le_lt_trans _ _ (ir_RowNumber y)); unfold is_row; [lia..|done|done].
Qed.

Lemma seek_one_spec to it L : rl_DefinitionLevel to ≤ d → length (rl_RowNumber to) = 6 → rem_view it L → rem_view (seek_one to it) (from_row to L).
Proof.
  intros Hl Hlen Hv. pose proof (rem_rows _ _ Hv) as Hr.
  assert (Hseek : ∀ s l, si_view s l → rem_view (let '(found, s') := si_Seek s to in (s', if found then Some (si_At s') else None)) (from_row to l)).
  { intros s l Hs. pose proof (si_view_rows _ _ Hs) as [Hgood Hsort]. assert (Hrf : rows_ok d (from_row to l)).
    { split; [apply Forall_forall; intros x [_ Hx]%list_elem_of_filter; rewrite Forall_forall in Hgood; by apply Hgood|by apply StronglySorted_filter]. }
    pose proof (si_seek_view _ _ to Hs Hl Hlen) as Hk. destruct (from_row to l) as [|x l'].
    - destruct Hk as (s' & -> & Hk). done.
    - destruct Hk as (s' & -> & Hat & Hk). rewrite Hat. by exists l'. }
  unfold seek_one. destruct it as [s [p|]]; simpl in *; [|by apply Hseek]. destruct Hv as (L' & -> & Hv & _).
  destruct (Z.eqb_spec (CompareRowNumbers (rl_DefinitionLevel to) (ir_RowNumber p) (rl_RowNumber to)) (-1)) as [Hb|Hb].
  - unfold from_row. rewrite filter_cons_False by (intros Hn; by apply Hn). by apply Hseek.
  - rewrite from_row_done by done. by exists L'.
Qed.

Lemma compare_truncate to a : length (rl_RowNumber to) = 6 → rl_DefinitionLevel to < 6 →
  CompareRowNumbers (rl_DefinitionLevel to) a (TruncateRowNumber to) = CompareRowNumbers (rl_DefinitionLevel to) a (rl_RowNumber to).
Proof.
  intros Hl Hlt. unfold CompareRowNumbers. rewrite !(compare_opp _ a). f_equal. apply (compare_key_l (rl_DefinitionLevel to)). by apply truncate_key.
Qed.

Lemma from_row_truncate to L : length (rl_RowNumber to) = 6 → rl_DefinitionLevel to < 6 →
  from_row (mkRNL (TruncateRowNumber to) (rl_DefinitionLevel to)) L = from_row to L.
Proof. intros Hl Hlt. apply filter_ext_in. intros x _. unfold below, row_lt. simpl. by rewrite compare_truncate. Qed.

Lemma seekAll_spec to its Ls : rl_DefinitionLevel to ≤ d → length (rl_RowNumber to) = 6 → Forall2 rem_view its Ls →
  Forall2 rem_view (seekAll to its) (from_row to <$> Ls).
Proof.
  intros Hl Hlen Hf. unfold seekAll. apply Forall2_fmap. eapply Forall2_impl; [exact Hf|]. intros it L Hv. rewrite <- from_row_truncate by lia.
  apply seek_one_spec; [done|apply truncate_length; lia|done].
Qed.

(** *** Collecting a row *)

Lemma rest_other rn x L : rows_ok d (x :: L) → length rn = 6 → row_lt d rn (ir_RowNumber x) → ∀ y, y ∈ x :: L → key d y ≠ row_key d rn.
Proof.
  intros Hr Hrn Hlt y Hy Hk. pose proof (rows_after _ _ _ Hr Hy) as Hle. destruct Hr as [Hf _]. rewrite Forall_forall in Hf.
  assert (Hy6 : length (ir_RowNumber y) = 6) by (by apply (Hf y)). assert (Hx6 : length (ir_RowNumber x) = 6) by (apply (Hf x); by left).
  assert (Hyx : row_lt d (ir_RowNumber y) (ir_RowNumber x)) by (unfold row_lt; by rewrite (compare_key_l d (ir_RowNumber y) rn)).
  by apply row_not_lt in Hle.
Qed.

Lemma collect_one_spec rn L : length rn = 6 → ∀ fuel it r, length L < fuel → rem_view it L → it.2 = head L → Forall (λ y, row_le d rn (ir_RowNumber y)) L →
  ∃ it', collect_one fuel d rn it r = Ret (it', mkResult (ir_RowNumber r) (ir_Entries r ++ concat (ir_Entries <$> group d (row_key d rn) L))) ∧
    rem_view it' (filter (λ y, key d y ≠ row_key d rn) L) ∧ it'.2 = head (filter (λ y, key d y ≠ row_key d rn) L).
Proof.
  intros Hrn. induction L as [|x L IH]; intros [|fuel] it r Hf Hv Hhead Hle; simpl in Hf; try lia; cbn [collect_one]; rewrite Hhead; cbn [head].
  - exists it. rewrite filter_nil. simpl. rewrite (right_id_L [] (++)). split_and!; [by destruct r|done|done].
  - pose proof (rem_rows _ _ Hv) as Hr. apply Forall_cons in Hle as [Hx Hle]. assert (Hgx : is_row d (ir_RowNumber x)) by (destruct Hr as [[Hg _]%Forall_cons _]; by apply good_is_row).
    assert (Hrr : is_row d rn) by (unfold is_row; lia). destruct (Z.eqb_spec (CompareRowNumbers d (ir_RowNumber x) rn) 0) as [Hc|Hc].
    + apply compare_zero in Hc; [|done|done]. assert (Hs : si_view it.1 L) by (unfold rem_view in Hv; rewrite Hhead in Hv; by destruct Hv as (L' & [= <-] & ? & _)).
      pose proof (next_rem _ _ Hs) as Hn. destruct (si_Next it.1) as [more s]. destruct Hn as [Hv' Hh'].
      destruct (IH fuel _ (ir_Append r x) ltac:(lia) Hv' Hh' Hle) as (it' & -> & Hv'' & Hh''). exists it'.
      unfold group. rewrite filter_cons_True by done. rewrite (filter_cons_False (λ y, key d y ≠ row_key d rn)) by (intros Hn; by apply Hn).
      split_and!; [|done|done]. simpl. by rewrite (assoc_L (++)).
    + assert (Hlt : row_lt d rn (ir_RowNumber x)).
      { unfold row_lt, row_le, CompareRowNumbers in *. pose proof (compare_cases (S d) rn (ir_RowNumber x)). rewrite (compare_opp (S d) (ir_RowNumber x)) in Hc. lia. }
      pose proof (rest_other rn x L Hr Hrn Hlt) as Hother. rewrite (group_none d) by done. rewrite (filter_all _ (x :: L)) by done.
      exists it. simpl. rewrite (right_id_L [] (++)). split_and!; [by destruct r|done|done].
Qed.
Lemma collect_all_spec rn its Ls : length rn = 6 → Forall2 rem_view its Ls → Forall2 (λ it L, it.2 = head L) its Ls →
  Forall (Forall (λ y, row_le d rn (ir_RowNumber y))) Ls → ∀ r,
  ∃ its', collect_all d rn its r = Ret (its', mkResult (ir_RowNumber r) (ir_Entries r ++ concat ((λ l, concat (ir_Entries <$> group d (row_key d rn) l)) <$> Ls))) ∧
    Forall2 rem_view its' (filter (λ y, key d y ≠ row_key d rn) <$> Ls).
Proof.
  intros Hrn Hv. induction Hv as [|it L its Ls Hit Hv IH]; intros Hh Hle r.
  - exists []. simpl. rewrite (right_id_L [] (++)). split; [by destruct r|constructor].
  - apply Forall2_cons in Hh as [Hhit Hh]. apply Forall_cons in Hle as [HleL Hle]. cbn [collect_all]. pose proof (rem_left _ _ Hit) as Hleft.
    destruct (collect_one_spec rn L Hrn (S (S (si_remaining it.1))) it r) as (it' & -> & Hit' & _); [destruct it.2; lia|done..|]. cbn [obind].
    destruct (IH Hh Hle (mkResult (ir_RowNumber r) (ir_Entries r ++ concat (ir_Entries <$> group d (row_key d rn) L)))) as (its' & -> & Hits').
    exists (it' :: its'). cbn [obind ir_RowNumber ir_Entries]. split; [|by constructor]. rewrite fmap_cons. simpl. by rewrite (assoc_L (++)).
Qed.

(** *** Scanning the heads *)

Definition head_row (Ls : list (list (IteratorResult V R))) (rn : RowNumber) : Prop := ∃ L x, L ∈ Ls ∧ head L = Some x ∧ ir_RowNumber x = rn.

(** The heads are in the order given: all at the lowest row, or one is before the highest. *)
Definition scanned (low : RowNumber) (lows : list nat) (high : RowNumber) Ls (low' : RowNumber) (lows' : list nat) (high' : RowNumber) : Prop :=
  (high' = high ∨ head_row Ls high') ∧ (low' = low ∨ head_row Ls low') ∧ row_le d high high' ∧
  ((length lows' = length lows + length Ls ∧ low' = low ∧ ∀ rn, head_row Ls rn → row_key d rn = row_key d low) ∨
   (length lows' < length lows + length Ls ∧ row_lt d low' high')).

Lemma head_row_cons L Ls rn : head_row (L :: Ls) rn ↔ (∃ x, head L = Some x ∧ ir_RowNumber x = rn) ∨ head_row Ls rn.
Proof.
  split.
  - intros (L' & x & [->|HL]%elem_of_cons & ? & ?); [left; by exists x|right; by exists L', x].
  - intros [(x & ? & ?)|(L' & x & ? & ? & ?)]; [exists L, x|exists L', x]; (split; [|done]); [by left|by right].
Qed.

Lemma head_row_length its Ls rn : Forall2 rem_view its Ls → head_row Ls rn → length rn = 6.
Proof.
  intros Hf (L & x & (i & Hi)%list_elem_of_lookup & Hx & <-). destruct (Forall2_lookup_r _ _ _ _ _ Hf Hi) as (it & _ & Hv).
  apply rem_rows in Hv as [Hg _]. rewrite Forall_forall in Hg. apply (Hg x). destruct L; [done|]. injection Hx as ->. by left.
Qed.

Lemma scan_spec its Ls : Forall2 rem_view its Ls → ∀ i low lows high, length low = 6 → length high = 6 → lows ≠ [] → row_le d low high →
  ∃ its' res, join_scan d i low lows high its = (its', res) ∧ Forall2 rem_view its' Ls ∧
    match res with
    | None => [] ∈ Ls
    | Some (low', lows', high') => Forall2 (λ it L, it.2 = head L) its' Ls ∧ Forall (λ L, L ≠ []) Ls ∧ scanned low lows high Ls low' lows' high'
    end.
Proof.
  induction 1 as [|it L its Ls Hit Hv IH]; intros i low lows high Hlow Hhigh Hne Hle; cbn [join_scan].
  - eexists [], _. split; [done|]. split; [constructor|]. split; [constructor|]. split; [constructor|]. split_and!; [by left|by left|by apply row_key_le; try (unfold is_row; lia)|left].
    simpl. split_and!; [lia|done|]. intros rn (L & x & HL & _). by apply not_elem_of_nil in HL.
  - destruct (peek_spec _ _ Hit) as [Hp Hh]. rewrite Hh. destruct L as [|x L]; cbn [head].
    { eexists _, None. split; [done|]. split; [by constructor|left]. }
    pose proof (rem_rows _ _ Hit) as [[Hgx _]%Forall_cons _]. destruct Hgx as [Hx6 _]. set (rx := ir_RowNumber x) in *.
    set (low1 := if (CompareRowNumbers d rx low =? -1)%Z then rx else low).
    set (lows1 := if (CompareRowNumbers d rx low =? -1)%Z then [i] else if (CompareRowNumbers d rx low =? 0)%Z then lows ++ [i] else lows).
    set (high1 := if (CompareRowNumbers d rx high =? 1)%Z then rx else high).
    assert (Hpair : (if (CompareRowNumbers d rx low =? -1)%Z then (rx, [i]) else if (CompareRowNumbers d rx low =? 0)%Z then (low, lows ++ [i]) else (low, lows)) = (low1, lows1)).
    { unfold low1, lows1. destruct (_ =? -1)%Z; [done|]. by destruct (_ =? 0)%Z. }
    rewrite Hpair. clear Hpair. assert (Hrow : ∀ r : RowNumber, length r = 6 → is_row d r) by (intros r Hr; unfold is_row; lia).
    pose proof (compare_cases (S d) rx low) as Hcl. pose proof (compare_cases (S d) rx high) as Hch. fold (CompareRowNumbers d rx low) in Hcl. fold (CompareRowNumbers d rx high) in Hch.
    assert (Hlow1 : length low1 = 6) by (unfold low1; by case_match). assert (Hhigh1 : length high1 = 6) by (unfold high1; by case_match).
    assert (Hh1 : row_le d high high1 ∧ row_le d rx high1).
    { unfold high1. destruct (Z.eqb_spec (CompareRowNumbers d rx high) 1) as [E|E]; split; try (by apply row_key_le; [apply Hrow..|]); unfold row_le; [|lia].
      unfold CompareRowNumbers in *. rewrite compare_opp. lia. }
    assert (Hl1 : row_le d low1 low ∧ row_le d low1 rx).
    { unfold low1. destruct (Z.eqb_spec (CompareRowNumbers d rx low) (-1)) as [E|E]; split; try (by apply row_key_le; [apply Hrow..|]); unfold row_le; [lia|].
      unfold CompareRowNumbers in *. rewrite compare_opp. lia. }
    assert (Hn1 : lows1 ≠ []) by (unfold lows1; destruct (_ =? -1)%Z; [done|]; destruct (_ =? 0)%Z; [|done]; by destruct lows).
    destruct (IH (S i) low1 lows1 high1 Hlow1 Hhigh1 Hn1) as (its' & res & -> & Hv' & Hres).
    { apply (row_le_trans _ _ rx); [by apply Hrow..|by destruct Hl1|by destruct Hh1]. }
    eexists (peek it :: its'), res. split; [done|]. split; [by constructor|]. destruct res as [[[low' lows'] high']|]; [|by right].
    destruct Hres as (Hheads & Hnes & Hhi & Hlo & Hhh & Hcase). split; [by constructor|]. split; [by constructor|].
    assert (Hhx : head_row ((x :: L) :: Ls) rx) by (apply head_row_cons; left; by exists x).
    assert (Hhigh' : length high' = 6) by (destruct Hhi as [->|Hhi]; [done|by eapply head_row_length]).
    assert (Hlow' : length low' = 6) by (destruct Hlo as [->|Hlo]; [done|by eapply head_row_length]).
    split; [|split; [|split]].
    + destruct Hhi as [->|Hhi]; [|right; apply head_row_cons; by right]. unfold high1. destruct (_ =? 1)%Z; [by right|by left].
    + destruct Hlo as [->|Hlo]; [|right; apply head_row_cons; by right]. unfold low1. destruct (_ =? -1)%Z; [by right|by left].
    + apply (row_le_trans _ _ high1); [by apply Hrow..|by destruct Hh1|done].
    + cbn [length]. assert (Hlen : length lows ≥ 1) by (destruct lows; [done|simpl; lia]).
      destruct (Z.eqb_spec (CompareRowNumbers d rx low) (-1)) as [E1|E1].
      * (* a new lowest row: before the highest *)
        right. assert (lows1 = [i]) as Hlo1 by (unfold lows1; by rewrite ?(proj2 (Z.eqb_eq _ _) E1)). rewrite Hlo1 in Hcase. simpl in Hcase. split; [lia|].
        assert (Hlt : row_lt d low1 high').
        { unfold low1. rewrite ?(proj2 (Z.eqb_eq _ _) E1). apply (row_lt_le_trans _ _ low); [by apply Hrow..|done|].
          apply (row_le_trans _ _ high); [by apply Hrow..|done|]. apply (row_le_trans _ _ high1); [by apply Hrow..|by destruct Hh1|done]. }
        destruct Hcase as [(_ & -> & _)|[_ ?]]; done.
      * assert (Hlow1' : low1 = low) by (unfold low1; by rewrite ?(proj2 (Z.eqb_neq _ _) E1)). rewrite Hlow1' in Hcase.
        destruct (Z.eqb_spec (CompareRowNumbers d rx low) 0) as [E0|E0].
        -- assert (Hlo1 : length lows1 = S (length lows)) by (unfold lows1; rewrite ?(proj2 (Z.eqb_neq _ _) E1), ?(proj2 (Z.eqb_eq _ _) E0), length_app; simpl; lia).
           rewrite Hlo1 in Hcase. destruct Hcase as [(Hc1 & Hc2 & Hc3)|[Hc1 Hc2]]; [left|right; split; [lia|done]].
           split_and!; [lia|done|]. intros rn [(y & [= <-] & <-)|Hrn]%head_row_cons; [|by apply Hc3]. apply compare_zero in E0; [done|by apply Hrow..].
        -- assert (Hlo1 : lows1 = lows) by (unfold lows1; by rewrite ?(proj2 (Z.eqb_neq _ _) E1), ?(proj2 (Z.eqb_neq _ _) E0)). rewrite Hlo1 in Hcase. right.
           assert (Hlx : row_lt d low rx) by (unfold row_lt, CompareRowNumbers in *; rewrite compare_opp; lia).
           destruct Hcase as [(Hc1 & -> & Hc3)|[Hc1 Hc2]]; (split; [lia|]); [|done].
           apply (row_lt_le_trans _ _ rx); [by apply Hrow..|done|]. apply (row_le_trans _ _ high1); [by apply Hrow..|by destruct Hh1|done].
Qed.
(** A whole scan, from the maximum and the undefined row. *)
Lemma row_lt_deeper a b : row_lt 0 a b → row_lt d a b.
Proof. unfold row_lt, CompareRowNumbers. destruct a as [|x a], b as [|y b]; simpl; try done. destruct (x <? y)%Z; [done|]. by destruct (y <? x)%Z. Qed.

Lemma first_scan it its x L Ls : Forall2 rem_view (it :: its) ((x :: L) :: Ls) →
  ∃ its' res, join_scan d 0 MaxRowNumber [] EmptyRowNumber (it :: its) = (its', res) ∧ Forall2 rem_view its' ((x :: L) :: Ls) ∧
    match res with
    | None => [] ∈ Ls
    | Some (low, lows, high) => Forall2 (λ it L, it.2 = head L) its' ((x :: L) :: Ls) ∧ Forall (λ L, L ≠ []) Ls ∧
        head_row ((x :: L) :: Ls) low ∧ head_row ((x :: L) :: Ls) high ∧
        (length lows = length its' ∧ low = ir_RowNumber x ∧ (∀ rn, head_row Ls rn → row_key d rn = row_key d low) ∨
         length lows ≠ length its' ∧ row_lt d low high)
    end.
Proof.
  intros [Hit Hv]%Forall2_cons. cbn [join_scan]. destruct (peek_spec _ _ Hit) as [Hp Hh]. rewrite Hh. cbn [head].
  pose proof (rem_rows _ _ Hit) as [[(Hx6 & Hval & Hmax)%id _]%Forall_cons _]. set (rx := ir_RowNumber x) in *.
  rewrite (row_lt_deeper _ _ Hmax : CompareRowNumbers d rx MaxRowNumber = (-1)%Z). cbn [Z.eqb Pos.eqb].
  assert (Hhigh : CompareRowNumbers d rx EmptyRowNumber = 1%Z).
  { destruct rx as [|z r] eqn:E; [done|]. unfold CompareRowNumbers, EmptyRowNumber. simpl in Hval |- *. bool_prop. rewrite (proj2 (Z.ltb_ge z (-1))) by lia. by rewrite (proj2 (Z.ltb_lt (-1) z)) by lia. }
  rewrite Hhigh. cbn [Z.eqb Pos.eqb]. destruct (scan_spec its Ls Hv 1 rx [0] rx Hx6 Hx6 ltac:(done)) as (its' & res & -> & Hv' & Hres).
  { apply row_key_le; [unfold is_row; lia..|done]. }
  eexists (peek it :: its'), res. split; [done|]. split; [by constructor|]. destruct res as [[[low lows] high]|]; [|done].
  destruct Hres as (Hheads & Hne & Hhi & Hlo & _ & Hcase). pose proof (Forall2_length _ _ _ Hv') as Hl.
  assert (Hhx : head_row ((x :: L) :: Ls) rx) by (apply head_row_cons; left; by exists x).
  split; [by constructor|]. split; [done|]. split; [destruct Hlo as [->|?]; [done|apply head_row_cons; by right]|]. split; [destruct Hhi as [->|?]; [done|apply head_row_cons; by right]|].
  simpl in *. destruct Hcase as [(? & -> & ?)|[? ?]]; [left|right]; split_and!; try done; lia.
Qed.

(** *** The join of the lists *)

Lemma join_next_key Ls x0 L0 : Ls = (x0 :: L0) :: drop 1 Ls → (∀ rn, head_row Ls rn → row_key d rn = key d x0) → Forall (λ L, L ≠ []) Ls →
  let k := key d x0 in let result := mkResult (ir_RowNumber x0) (concat ((λ l, concat (ir_Entries <$> group d k l)) <$> Ls)) in
  join_list d pred Ls = (if group_kept pred result then [result] else []) ++ join_list d pred (filter (λ y, key d y ≠ k) <$> Ls).
Proof.
  intros HLs Hkeys Hne k result. assert (HP : ∀ x y, key d x = key d y → key d x ≠ k → key d y ≠ k) by (intros x y ->; done).
  rewrite (join_filter d pred (λ y, key d y ≠ k) Ls HP). rewrite HLs. cbn [join_list row_heads]. rewrite <- HLs.
  rewrite (filter_cons_False (λ y, key d y ≠ k)) by (intros Hn; by apply Hn). rewrite (filter_all _ (filter _ _)) by (intros y [? _]%list_elem_of_filter; done).
  assert (Hj : joined d pred Ls x0 = if group_kept pred result then Some result else None).
  { unfold joined. rewrite decide_True; [done|]. rewrite Forall_forall in Hne |- *. intros L HL. specialize (Hne L HL). destruct L as [|y L]; [done|].
    assert (Hy : key d y = key d x0) by (apply (Hkeys (ir_RowNumber y)); by exists (y :: L), y). unfold group. by rewrite filter_cons_True. }
  csimpl. rewrite Hj. by destruct (group_kept pred result).
Qed.

Lemma join_from to Ls : rl_DefinitionLevel to ≤ d → head_row Ls (rl_RowNumber to) → length (rl_RowNumber to) = 6 → Forall (rows_ok d) Ls →
  join_list d pred (from_row to <$> Ls) = join_list d pred Ls.
Proof.
  intros Hl (L & x & HL & Hx & Hrn) Hlen Hr. apply join_filter_all; [intros a b Hk Ha Hb; apply Ha; by apply (below_key to b a)|].
  exists L. split; [done|]. destruct L as [|x' L]; [done|]. injection Hx as ->. rewrite Forall_forall in Hr. specialize (Hr _ HL).
  intros y Hy Hb. pose proof (rows_after _ _ _ Hr Hy) as Hle. apply (row_le_key _ _ _ _ Hl) in Hle. rewrite Hrn in Hle. by apply row_not_lt in Hle.
Qed.

Lemma views_rows its Ls : Forall2 rem_view its Ls → Forall (rows_ok d) Ls.
Proof. induction 1 as [|it L its Ls Hit _ IH]; constructor; [by eapply rem_rows|done]. Qed.

Definition size_of (Ls : list (list (IteratorResult V R))) : nat := sum_list_with length Ls.

Lemma size_filter (P : IteratorResult V R → Prop) `{!∀ x, Decision (P x)} Ls : size_of (filter P <$> Ls) ≤ size_of Ls.
Proof. unfold size_of. induction Ls as [|L Ls IH]; [done|]. csimpl. pose proof (length_filter P L). lia. Qed.

Lemma size_filter_lt (P : IteratorResult V R → Prop) `{!∀ x, Decision (P x)} Ls L x : L ∈ Ls → head L = Some x → ¬ P x → size_of (filter P <$> Ls) < size_of Ls.
Proof.
  intros HL Hx Hn. unfold size_of. induction Ls as [|L' Ls IH]; [by apply not_elem_of_nil in HL|]. csimpl. apply elem_of_cons in HL as [<-|HL].
  - pose proof (size_filter P Ls) as Hs. unfold size_of in Hs. destruct L as [|y L]; [done|]. injection Hx as ->. rewrite filter_cons_False by done.
    pose proof (length_filter P L). simpl. lia.
  - specialize (IH HL). pose proof (length_filter P L'). lia.
Qed.
Lemma heads_row its Ls rn : length rn = 6 → Forall2 rem_view its Ls → Forall (λ L, L ≠ []) Ls → (∀ rn', head_row Ls rn' → row_le d rn rn') →
  Forall (Forall (λ y, row_le d rn (ir_RowNumber y))) Ls.
Proof.
  intros Hrn Hv Hne Hle. pose proof (views_rows _ _ Hv) as Hr. rewrite Forall_forall in Hne, Hr. apply Forall_forall. intros L HL. specialize (Hne L HL). specialize (Hr L HL).
  destruct L as [|z L]; [done|]. assert (Hz : head_row Ls (ir_RowNumber z)) by (by exists (z :: L), z).
  assert (Hlen : ∀ w, w ∈ z :: L → length (ir_RowNumber w) = 6) by (intros w Hw; destruct Hr as [Hg _]; rewrite Forall_forall in Hg; by apply (Hg w)).
  apply Forall_forall. intros y Hy. pose proof (Hlen y Hy). pose proof (Hlen z ltac:(by left)).
  apply (row_le_trans _ _ (ir_RowNumber z)); unfold is_row; [lia..|by apply Hle|by apply (rows_after _ _ _ Hr)].
Qed.

Lemma join_loop_spec fuel : ∀ its Ls, size_of Ls < fuel → Ls ≠ [] → Forall2 rem_view its Ls →
  ∃ its' Ls', Ls' ≠ [] ∧ Forall2 rem_view its' Ls' ∧
    match join_list d pred Ls with
    | [] => join_loop fuel d pred its = Ret (its', None) ∧ join_list d pred Ls' = []
    | r :: rs => join_loop fuel d pred its = Ret (its', Some r) ∧ join_list d pred Ls' = rs
    end.
Proof.
  induction fuel as [|fuel IH]; intros its Ls Hf Hne Hv; [lia|]. cbn [join_loop].
  destruct Hv as [|it L its Ls Hit Hv]; [done|]. destruct L as [|x L].
  { cbn [join_scan]. destruct (peek_spec _ _ Hit) as [Hp ->]. cbn [head]. rewrite join_empty by left.
    exists (peek it :: its), ([] :: Ls). split_and!; [done|by constructor|done|apply join_empty; by left]. }
  assert (Hv0 : Forall2 rem_view (it :: its) ((x :: L) :: Ls)) by (by constructor). clear Hit Hv Hne. set (all := (x :: L) :: Ls) in *.
  destruct (first_scan _ _ _ _ _ Hv0) as (its' & res & -> & Hv' & Hres). destruct res as [[[low lows] high]|].
  2: { rewrite join_empty by (by right). exists its', all. split_and!; [done|done|done|apply join_empty; by right]. }
  destruct Hres as (Hheads & Hnes & Hlow & Hhigh & Hcase). assert (Hnes' : Forall (λ L, L ≠ []) all) by (by constructor).
  assert (Hhigh6 : length high = 6) by (by eapply head_row_length). assert (Hlow6 : length low = 6) by (by eapply head_row_length).
  destruct Hcase as [(Hl & Hlx & Hkeys)|[Hl Hlt]].
  - rewrite (proj2 (Nat.eqb_eq _ _) Hl). assert (Hall : ∀ rn, head_row all rn → row_key d rn = row_key d low).
    { intros rn [(y & [= <-] & <-)|Hrn]%head_row_cons; [by rewrite Hlx|by apply Hkeys]. }
    assert (Hle : ∀ rn, head_row all rn → row_le d low rn).
    { intros rn Hrn. pose proof (head_row_length _ _ _ Hv' Hrn). apply row_key_le; [unfold is_row; lia|unfold is_row; lia|]. symmetry. by apply Hall. }
    destruct (collect_all_spec low its' all Hlow6 Hv' Hheads) with (r := mkResult (V := V) (R := R) low []) as (its2 & -> & Hv2).
    { by apply (heads_row its'). }
    cbn [obind ir_RowNumber ir_Entries]. rewrite (join_next_key all x L); [|done|intros rn Hrn; unfold key; rewrite <- Hlx; by apply Hall|done].
    change (key d x) with (row_key d (ir_RowNumber x)). rewrite <- Hlx. cbn [app]. set (Ls2 := filter (λ y, key d y ≠ row_key d low) <$> all) in *.
    destruct (group_kept pred _); [by exists its2, Ls2|]. cbn [app].
    assert (Hv3 : Forall2 rem_view (seekAll (mkRNL high d) its2) Ls2).
    { assert (Hid : from_row (mkRNL high d) <$> Ls2 = Ls2); [|rewrite <- Hid; by apply seekAll_spec]. unfold Ls2. rewrite <- list_fmap_compose. apply list_fmap_ext. intros i L' HL'.
      apply filter_all. intros y [_ Hy]%list_elem_of_filter Hb. apply list_elem_of_lookup_2 in HL'. pose proof (heads_row its' all low Hlow6 Hv' Hnes') as Hge.
      specialize (Hge Hle). rewrite Forall_forall in Hge. specialize (Hge _ HL'). rewrite Forall_forall in Hge. specialize (Hge y Hy). unfold below in Hb. simpl in Hb.
      apply row_not_lt in Hge. apply Hge. unfold row_lt. by rewrite (compare_key_r d _ low high) by (symmetry; by apply Hall). }
    apply (IH _ Ls2); [|done|done]. assert (Hlt : size_of Ls2 < size_of all); [|lia].
    apply (size_filter_lt _ all (x :: L) x); [by left|done|]. intros Hn. apply Hn. unfold key. by rewrite <- Hlx.
  - rewrite (proj2 (Nat.eqb_neq _ _) Hl). assert (Hv2 : Forall2 rem_view (seekAll (mkRNL high d) its') (from_row (mkRNL high d) <$> all)) by (by apply seekAll_spec).
    rewrite <- (join_from (mkRNL high d) all); [|done|done|done|by eapply views_rows]. apply IH; [|done|done].
    destruct Hlow as (L' & y & HL' & Hy & Hrn). assert (size_of (from_row (mkRNL high d) <$> all) < size_of all); [|lia].
    apply (size_filter_lt _ all L' y); [done|done|]. intros Hn. apply Hn. unfold below. simpl. by rewrite Hrn.
Qed.
(** *** The iterator *)

Lemma heads_ok (l : list (IteratorResult V R)) : rows_ok d l → rows_ok d (row_heads d l).
Proof.
  induction l as [|x l IH]; intros Hr; [done|]. pose proof (IH (rows_tail _ _ Hr)) as [Hg Hs]. destruct Hr as [Hf Hsort]. apply Forall_cons in Hf as [Hx _].
  apply StronglySorted_inv in Hsort as [_ Hxs]. rewrite Forall_forall in Hg, Hxs. split; simpl.
  - constructor; [done|]. apply Forall_forall. intros y [_ Hy]%list_elem_of_filter. by apply Hg.
  - constructor; [by apply StronglySorted_filter|]. apply Forall_forall. intros y [_ Hy]%list_elem_of_filter. by apply Hxs, (heads_in d).
Qed.

Lemma omap_rows (f : IteratorResult V R → option (IteratorResult V R)) (l : list (IteratorResult V R)) : (∀ x r, f x = Some r → ir_RowNumber r = ir_RowNumber x) → rows_ok d l → rows_ok d (omap f l).
Proof.
  intros Hf. induction l as [|x l IH]; intros Hr; [done|]. pose proof (IH (rows_tail _ _ Hr)) as Hl. csimpl. destruct (f x) as [r|] eqn:E; [|done]. apply Hf in E.
  destruct Hr as [Hg Hs]. apply Forall_cons in Hg as [Hx _]. apply StronglySorted_inv in Hs as [_ Hxs]. rewrite Forall_forall in Hxs. destruct Hl as [Hlg Hls]. split; constructor; try done.
  - unfold good_row. by rewrite E.
  - apply Forall_forall. intros y (x' & Hx' & Hy)%list_elem_of_omap. apply Hf in Hy. unfold by_row. rewrite E, Hy. by apply Hxs.
Qed.

Lemma join_rows Ls : Forall (rows_ok d) Ls → rows_ok d (join_list d pred Ls).
Proof.
  intros Hr. destruct Ls as [|L Ls]; [split; constructor|]. apply Forall_cons in Hr as [HL _]. cbn [join_list]. apply omap_rows; [|by apply heads_ok].
  intros x r E. by apply (joined_key d pred _ _ _ E).
Qed.

Lemma join_from_row to Ls : rl_DefinitionLevel to ≤ d → join_list d pred (from_row to <$> Ls) = from_row to (join_list d pred Ls).
Proof.
  intros Hl. unfold from_row. rewrite join_filter by (intros x y Hk Hx Hy; apply Hx; by apply (below_key to y x)). destruct Ls as [|L Ls]; [done|]. cbn [join_list].
  induction (row_heads d L) as [|x hs IH]; [done|]. rewrite filter_cons. csimpl. destruct (joined d pred (L :: Ls) x) as [r|] eqn:E.
  - apply joined_key in E as E'. destruct E' as [E' _]. rewrite filter_cons. case_decide as Hx; case_decide as Hy; unfold below in *; rewrite E' in Hy; try done; csimpl; by rewrite E, IH.
  - case_decide; csimpl; [by rewrite E|done].
Qed.

Lemma join_length Ls L : head Ls = Some L → length (join_list d pred Ls) ≤ length L.
Proof.
  destruct Ls as [|L' Ls]; [done|]. cbn [join_list head]. intros [= ->]. transitivity (length (row_heads d L)).
  { induction (row_heads d L) as [|x hs IH]; [done|]. csimpl. destruct (joined _ _ _ x); simpl; lia. }
  induction L as [|x L IH]; simpl; [done|]. pose proof (length_filter (λ y, key d y ≠ key d x) (row_heads d L)). lia.
Qed.
End JoinSpec.

Section JoinOk.
Context {St V R : Type} `{SeekIteratorOk St V R d} (Hd : d < 6) (multierror : list string → option string).

Definition join_view (j : JoinIterator St V R) (l : list (IteratorResult V R)) : Prop :=
  ji_level j = d ∧ ∃ Ls, Ls ≠ [] ∧ Forall2 rem_view (ji_iters j) Ls ∧ l = join_list d (ji_pred j) Ls.

Lemma left_size (its : list (St * option (IteratorResult V R))) Ls : Forall2 rem_view its Ls → size_of Ls ≤ left_in its.
Proof. unfold size_of, left_in. induction 1 as [|it L its Ls Hit _ IH]; simpl; [done|]. pose proof (rem_left _ _ Hit). lia. Qed.

(** The next result of the join, or its end. *)
Definition join_result (res : outcome (bool * JoinIterator St V R)) (l : list (IteratorResult V R)) : Prop :=
  match l with
  | [] => ∃ j', res = Ret (false, j') ∧ ji_result j' = None ∧ join_view j' []
  | x :: l => ∃ j', res = Ret (true, j') ∧ ji_result j' = Some x ∧ join_view j' l
  end.

Lemma join_Next_spec j l : join_view j l → join_result (join_Next j) l.
Proof.
  intros (Hl & Ls & Hne & Hv & ->). unfold join_Next. rewrite Hl. pose proof (left_size _ _ Hv) as Hs.
  destruct (join_loop_spec Hd (ji_pred j) (S (left_in (ji_iters j))) (ji_iters j) Ls) as (its' & Ls' & Hne' & Hv' & Hr); [lia|done|done|].
  destruct (join_list d (ji_pred j) Ls) as [|x l]; destruct Hr as [-> Hj]; cbn [obind]; eexists; (split; [done|]); (split; [done|]); (split; [done|]); by exists Ls'.
Qed.

Lemma join_Seek_spec j l to : join_view j l → rl_DefinitionLevel to ≤ d → length (rl_RowNumber to) = 6 → join_result (join_Seek j to) (from_row to l).
Proof.
  intros (Hl & Ls & Hne & Hv & ->) Hlt Hlen. apply join_Next_spec. split; [done|]. exists (from_row to <$> Ls). split_and!.
  - by destruct Ls.
  - by apply seekAll_spec.
  - symmetry. by apply join_from_row.
Qed.

Lemma join_view_rows j l : join_view j l → rows_ok d l ∧ length l ≤ left_in (ji_iters j).
Proof.
  intros (_ & Ls & Hne & Hv & ->). split; [apply join_rows; by eapply views_rows|]. pose proof (left_size _ _ Hv) as Hs.
  destruct Ls as [|L Ls]; [done|]. pose proof (join_length Hd (ji_pred j) (L :: Ls) L eq_refl). unfold size_of in Hs. simpl in Hs. lia.
Qed.

#[export] Instance join_iterator_ok : @SeekIteratorOk (JoinIterator St V R) V R (join_iterator multierror) d.
Proof.
  refine (@Build_SeekIteratorOk (JoinIterator St V R) V R (join_iterator multierror) d join_view _ _ _ _).
  - intros j l Hv. exact (proj1 (join_view_rows _ _ Hv)).
  - intros j l Hv. exact (proj2 (join_view_rows _ _ Hv)).
  - intros j l Hv. pose proof (join_Next_spec j l Hv) as Hr. simpl. destruct l as [|x l]; destruct Hr as (j' & -> & Hres & Hv'); exists j'; [done|]. by rewrite Hres.
  - intros j l to Hv Hl Hlen. pose proof (join_Seek_spec j l to Hv Hl Hlen) as Hr. simpl. destruct (from_row to l) as [|x l']; destruct Hr as (j' & -> & Hres & Hv'); exists j'; [done|]. by rewrite Hres.
Defined.
End JoinOk.

(** C22: [JoinIterator] refines the join of lists.  Over at least one iterator, each over a list of results in row order at
    the definition level, the join starts at [join_list]: the rows that every iterator has and the predicate keeps, each with
    all its entries, iterator by iterator.  From any list it may stand for, [Next] ends exactly when the list is empty and
    otherwise returns its first result and stands for the rest, and [Seek], at a level up to the join's, does so from the first
    row that is not before the one sought; none of them runs out of steps, and the rows stay in order. *)
Theorem JoinIterator_correct {St V R} `{SeekIteratorOk St V R d} (pred : option (IteratorResult V R → bool)) (iters : list St) Ls :
  d < 6 → iters ≠ [] → Forall2 si_view iters Ls →
  ∃ view : JoinIterator St V R → list (IteratorResult V R) → Prop,
    view (NewJoinIterator d iters pred) (join_list d pred Ls) ∧
    ∀ j l, view j l → rows_ok d l ∧
      match l with
      | [] => ∃ j', join_Next j = Ret (false, j') ∧ ji_result j' = None ∧ view j' []
      | x :: l => ∃ j', join_Next j = Ret (true, j') ∧ ji_result j' = Some x ∧ view j' l
      end ∧
      ∀ to, rl_DefinitionLevel to ≤ d → length (rl_RowNumber to) = 6 →
        match from_row to l with
        | [] => ∃ j', join_Seek j to = Ret (false, j') ∧ ji_result j' = None ∧ view j' []
        | x :: l => ∃ j', join_Seek j to = Ret (true, j') ∧ ji_result j' = Some x ∧ view j' l
        end.
Proof.
  intros Hd Hne Hv. exists join_view. split.
  - split; [done|]. exists Ls. split_and!; [intros ->; by apply Forall2_nil_inv_r in Hv| |done]. apply Forall2_fmap_l. eapply Forall2_impl; [exact Hv|]. done.
  - intros j l Hj. split; [exact (proj1 (join_view_rows Hd _ _ Hj))|]. split; [by apply (join_Next_spec Hd)|]. intros to Hl Hlen. by apply (join_Seek_spec Hd).
Qed.


(** *** Joins of lists, at a concrete input *)

Record listIterator (V R : Type) := mkListIter { li_current : option (IteratorResult V R); li_rest : list (IteratorResult V R) }.
Arguments mkListIter {V R} _ _. Arguments li_current {V R} _. Arguments li_rest {V R} _.

Definition list_next {V R} (s : listIterator V R) : bool * listIterator V R :=
  match li_rest s with [] => (false, mkListIter None []) | x :: l => (true, mkListIter (Some x) l) end.

#[export] Instance list_iterator {V R} : SeekIterator (listIterator V R) V R := {|
  si_Next := list_next;
  si_At s := default (mkResult [] []) (li_current s);
  si_Seek s to := list_next (mkListIter (li_current s) (from_row to (li_rest s)));
  si_Err _ := None;
  si_Close s := (None, s);
  si_remaining s := length (li_rest s) |}.

Lemma from_row_rows {V R} d to (l : list (IteratorResult V R)) : rows_ok d l → rows_ok d (from_row to l).
Proof.
  intros [Hg Hs]. split; [|by apply StronglySorted_filter]. rewrite Forall_forall in Hg |- *. intros x [_ Hx]%list_elem_of_filter. by apply Hg.
Qed.

Lemma rows_ok_tail {V R} d x (l : list (IteratorResult V R)) : rows_ok d (x :: l) → rows_ok d l.
Proof. intros [[_ ?]%Forall_cons [? _]%StronglySorted_inv]. done. Qed.

#[export] Instance list_iterator_ok {V R} d : @SeekIteratorOk (listIterator V R) V R list_iterator d.
Proof.
  refine (@Build_SeekIteratorOk (listIterator V R) V R list_iterator d (λ s l, li_rest s = l ∧ rows_ok d l) _ _ _ _).
  - by intros s l [_ ?].
  - by intros s l [<- _].
  - intros [c r] l [Hl Hr]. simpl in *. subst r. unfold list_next. simpl. destruct l as [|x l]; eexists; (split; [done|]); [done|]. split_and!; [done..|]. by eapply rows_ok_tail.
  - intros [c r] l to [Hl Hr] _ _. simpl in *. subst r. unfold list_next. simpl. apply (from_row_rows d to) in Hr.
    destruct (from_row to l) as [|x l']; eexists; (split; [done|]); [done|]. split_and!; [done..|]. by eapply rows_ok_tail.
Defined.

Definition join_example : list (list (IteratorResult nat nat)) :=
  let row n k v := mkResult [n; -1; -1; -1; -1; -1]%Z [mkEntry k v None] in
  [[row 1%Z "a" 1; row 2%Z "a" 2; row 5%Z "a" 3]; [row 2%Z "b" 4; row 2%Z "b" 5; row 3%Z "b" 6; row 5%Z "b" 7]].

Lemma join_example_rows : Forall (rows_ok 0) join_example.
Proof. repeat first [apply Forall_cons; split | apply Forall_nil | split | constructor]; vm_compute; try done; lia. Qed.

Lemma JoinIterator_correct_witness :
  ∃ (j : JoinIterator (listIterator nat nat) nat nat) j', 
    j = NewJoinIterator 0 (mkListIter None <$> join_example) None ∧ join_Next j = Ret (true, j') ∧
    ji_result j' = Some (mkResult [2; -1; -1; -1; -1; -1]%Z [mkEntry "a" 2 None; mkEntry "b" 4 None; mkEntry "b" 5 None]).
Proof.
  destruct (JoinIterator_correct (d := 0) None (mkListIter None <$> join_example) join_example) as (view & Hv & Hok); [lia|done| |].
  - apply Forall2_fmap_l, Forall_Forall2_diag. eapply Forall_impl; [exact join_example_rows|]. intros l Hl. by split.
  - destruct (Hok _ _ Hv) as (_ & (j' & Hn & Hr & _) & _). exists (NewJoinIterator 0 (mkListIter None <$> join_example) None), j'.
    split; [done|]. split; [exact Hn|]. exact Hr.
Defined.
