(* ===== verification/Predicates.v ===== *)
(** * Pushdown predicates (src/pkg/phlaredb/query/predicates.go, and mapPredicate of src/pkg/phlaredb/block_querier.go)

    A predicate selects values of a column, and is asked before whether a column chunk or a page may
    hold a value it selects.  The parquet library is a parameter: a value is read through [PqValue], a
    chunk and a page are what the library reports of them. *)

From S2P Require Import Prelude.

(** ** Parquet *)

Class PqValue (V : Type) := {
  v_Int64 : V → Z;
  v_ByteArray : V → string;
  v_String : V → string;
  v_RepetitionLevel : V → nat;
  v_DefinitionLevel : V → nat }.

(** One call of [ReadValues]: the values and the error, of which [EOF] is one. *)
Inductive read_error := EOF | ReadError (e : string).
Abbreviation value_read V := (list V * option read_error)%type (only parsing).

Record Page (V : Type) := mkPage {
  pg_NumRows : Z;
  pg_Bounds : option (V * V);
  pg_Dictionary : option (list V);
  pg_Reads : list (value_read V) }.
Arguments mkPage {V} _ _ _ _. Arguments pg_NumRows {V} _. Arguments pg_Bounds {V} _. Arguments pg_Dictionary {V} _. Arguments pg_Reads {V} _.

(** The bounds of the pages of a chunk, if it has a column index, and the results of [ReadPage] up to the end. *)
Record ColumnChunk (V : Type) := mkChunk { cc_ColumnIndex : option (list (V * V)); cc_Pages : list (Page V + string) }.
Arguments mkChunk {V} _ _. Arguments cc_ColumnIndex {V} _. Arguments cc_Pages {V} _.

(** ** Predicates *)

Class Predicate (P V : Type) := {
  KeepColumnChunk : P → ColumnChunk V → bool * P;
  KeepPage : P → Page V → bool * P;
  KeepValue : P → V → bool * P }.

(** Pages of a chunk whose bounds a test admits; without an index any page may match. *)
Definition index_test {V} (c : ColumnChunk V) (test : V → V → bool) : bool :=
  match cc_ColumnIndex c with
  | Some pages => existsb (λ '(min, max), test min max) pages
  | None => true
  end.

Definition bounds_test {V} (pg : Page V) (test : V → V → bool) : bool :=
  match pg_Bounds pg with Some (min, max) => test min max | None => true end.

Section Predicates.
Context {V : Type} `{PqValue V}.
Implicit Types (v : V) (pg : Page V) (c : ColumnChunk V).

(** *** Strings *)

Record StringInPredicate := NewStringInPredicate { p_ss : list string }.

Definition string_in_chunk (p : StringInPredicate) c : bool :=
  match cc_ColumnIndex c with
  | Some pages =>
      existsb (λ subs, existsb (λ '(min, max), negb (String.ltb subs (v_ByteArray min)) && negb (String.ltb (v_ByteArray max) subs)) pages) (p_ss p)
  | None => true
  end.

Definition string_in_value (p : StringInPredicate) v : bool := existsb (String.eqb (v_ByteArray v)) (p_ss p).

Definition string_in_page (p : StringInPredicate) pg : bool :=
  match pg_Dictionary pg with
  | Some ((_ :: _) as dict) => existsb (λ d, existsb (String.eqb (v_ByteArray d)) (p_ss p)) dict
  | _ => true
  end.

#[export] Instance string_in_pred : Predicate StringInPredicate V := {|
  KeepColumnChunk p c := (string_in_chunk p c, p);
  KeepPage p pg := (string_in_page p pg, p);
  KeepValue p v := (string_in_value p v, p) |}.

(** *** Substrings *)

(** [strings.Contains] of Go. *)
Fixpoint contains (sub s : string) : bool :=
  String.prefix sub s || match s with String _ s => contains sub s | EmptyString => false end.

Record SubstringPredicate := mkSubstring { p_substring : string; p_matches : gmap string bool }.

Definition NewSubstringPredicate (substring : string) : SubstringPredicate := mkSubstring substring ∅.

Definition substring_value (p : SubstringPredicate) v : bool * SubstringPredicate :=
  let vs := v_String v in
  match p_matches p !! vs with
  | Some m => (m, p)
  | None => let m := contains (p_substring p) vs in (m, mkSubstring (p_substring p) (<[vs := m]> (p_matches p)))
  end.

Fixpoint substring_dict (p : SubstringPredicate) (dict : list V) : bool * SubstringPredicate :=
  match dict with
  | [] => (false, p)
  | d :: dict => let '(keep, p) := substring_value p d in if keep then (true, p) else substring_dict p dict
  end.

#[export] Instance substring_pred : Predicate SubstringPredicate V := {|
  KeepColumnChunk p _ := (true, mkSubstring (p_substring p) ∅);
  KeepPage p pg := match pg_Dictionary pg with Some ((_ :: _) as dict) => substring_dict p dict | _ => (true, p) end;
  KeepValue := substring_value |}.

(** *** Integers *)

Record IntBetweenPredicate := NewIntBetweenPredicate { p_min : Z; p_max : Z }.

Definition between_test (p : IntBetweenPredicate) (min max : V) : bool := ((v_Int64 min <=? p_max p) && (p_min p <=? v_Int64 max))%Z.

#[export] Instance int_between_pred : Predicate IntBetweenPredicate V := {|
  KeepColumnChunk p c := (index_test c (between_test p), p);
  KeepPage p pg := (bounds_test pg (between_test p), p);
  KeepValue p v := (((p_min p <=? v_Int64 v) && (v_Int64 v <=? p_max p))%Z, p) |}.

Record EqualInt64Predicate := NewEqualInt64Predicate { p_int : Z }.

Definition equal_test (p : EqualInt64Predicate) (min max : V) : bool := ((v_Int64 min <=? p_int p) && (p_int p <=? v_Int64 max))%Z.

#[export] Instance equal_pred : Predicate EqualInt64Predicate V := {|
  KeepColumnChunk p c := (index_test c (equal_test p), p);
  KeepPage p pg := (bounds_test pg (equal_test p), p);
  KeepValue p v := (((p_int p <=? v_Int64 v) && (v_Int64 v <=? p_int p))%Z, p) |}.

(** *** Keys of a map *)

(** [K] is an integer type, given by its conversion from [int64]. *)
Record mapPredicate (K : Z → Z) (T : Type) := mkMapPredicate { mp_min : Z; mp_max : Z; mp_m : gmap Z T }.
#[global] Arguments mkMapPredicate K {T} _ _ _. #[global] Arguments mp_min {K T} _. #[global] Arguments mp_max {K T} _. #[global] Arguments mp_m {K T} _.

(** The bounds of the keys, in the order the map is walked. *)
Definition widen (s : bool * (Z * Z)) (k : Z) : bool * (Z * Z) :=
  let '(first, (min, max)) := s in
  (false, (if first || (k <? min)%Z then k else min, if first || (max <? k)%Z then k else max)).

Definition newMapPredicate (K : Z → Z) {T} (keys : list Z) (m : gmap Z T) : mapPredicate K T :=
  let '(_, (min, max)) := foldl widen (true, (0, 0)%Z) keys in mkMapPredicate K min max m.

Definition map_test {K T} (p : mapPredicate K T) (min max : V) : bool := ((K (v_Int64 min) <=? mp_max p) && (mp_min p <=? K (v_Int64 max)))%Z.

#[export] Instance map_pred {K T} : Predicate (mapPredicate K T) V := {|
  KeepColumnChunk p c := (index_test c (map_test p), p);
  KeepPage p pg := (bounds_test pg (map_test p), p);
  KeepValue p v := (match mp_m p !! K (v_Int64 v) with Some _ => true | None => false end, p) |}.

(** *** Instrumented *)

Record InstrumentedPredicate (P : Type) := mkInstrumented {
  in_pred : option P;
  InspectedColumnChunks : Z; InspectedPages : Z; InspectedValues : Z;
  KeptColumnChunks : Z; KeptPages : Z; KeptValues : Z }.
#[global] Arguments mkInstrumented {P} _ _ _ _ _ _ _. #[global] Arguments in_pred {P} _.
#[global] Arguments InspectedColumnChunks {P} _. #[global] Arguments InspectedPages {P} _. #[global] Arguments InspectedValues {P} _.
#[global] Arguments KeptColumnChunks {P} _. #[global] Arguments KeptPages {P} _. #[global] Arguments KeptValues {P} _.

(** [&InstrumentedPredicate{pred: filter}] *)
Definition instrumented {P} (filter : option P) : InstrumentedPredicate P := mkInstrumented filter 0 0 0 0 0 0.

Definition pred_keeps {P A} (keep : P → A → bool * P) (pred : option P) (a : A) : bool * option P :=
  match pred with None => (true, None) | Some p => let '(b, p) := keep p a in (b, Some p) end.

Definition counted (n : Z) (kept : bool) : Z := if kept then i64 (n + 1) else n.

#[export] Instance instrumented_pred {P} `{Predicate P V} : Predicate (InstrumentedPredicate P) V := {|
  KeepColumnChunk i c :=
    let '(b, pred) := pred_keeps KeepColumnChunk (in_pred i) c in
    (b, mkInstrumented pred (i64 (InspectedColumnChunks i + 1)) (InspectedPages i) (InspectedValues i) (counted (KeptColumnChunks i) b) (KeptPages i) (KeptValues i));
  KeepPage i pg :=
    let '(b, pred) := pred_keeps KeepPage (in_pred i) pg in
    (b, mkInstrumented pred (InspectedColumnChunks i) (i64 (InspectedPages i + 1)) (InspectedValues i) (KeptColumnChunks i) (counted (KeptPages i) b) (KeptValues i));
  KeepValue i v :=
    let '(b, pred) := pred_keeps KeepValue (in_pred i) v in
    (b, mkInstrumented pred (InspectedColumnChunks i) (InspectedPages i) (i64 (InspectedValues i + 1)) (KeptColumnChunks i) (KeptPages i) (counted (KeptValues i) b)) |}.
End Predicates.

(** ** What a predicate promises *)

(** A value that may stand in a page or chunk: it is within the bounds, and in the dictionary. *)
Section Statistics.
Context {V : Type} (le : V → V → Prop).

Definition in_bounds (v min max : V) : Prop := le min v ∧ le v max.

Definition in_page (pg : Page V) (v : V) : Prop :=
  match pg_Bounds pg with Some (min, max) => in_bounds v min max | None => True end ∧
  match pg_Dictionary pg with Some dict => dict = [] ∨ v ∈ dict | None => True end.

Definition in_chunk (c : ColumnChunk V) (v : V) : Prop :=
  match cc_ColumnIndex c with Some pages => ∃ min max, (min, max) ∈ pages ∧ in_bounds v min max | None => True end.
End Statistics.

Definition int_le {V} `{PqValue V} (a b : V) : Prop := (v_Int64 a ≤ v_Int64 b)%Z.
Definition bytes_le {V} `{PqValue V} (a b : V) : Prop := String.ltb (v_ByteArray b) (v_ByteArray a) = false.
Definition no_order {V} (a b : V) : Prop := True.

(** A predicate selects values by a test that its state does not change, and keeps every page and chunk that may
    hold a value it selects. *)
Class PredicateOk (P V : Type) `{Predicate P V} (le : V → V → Prop) := {
  p_state : P → Prop;
  p_keeps : P → V → bool;
  keep_chunk_state p c : p_state p → p_state (KeepColumnChunk p c).2 ∧ p_keeps (KeepColumnChunk p c).2 = p_keeps p;
  keep_page_state p pg : p_state p → p_state (KeepPage p pg).2 ∧ p_keeps (KeepPage p pg).2 = p_keeps p;
  keep_value_state p v : p_state p → p_state (KeepValue p v).2 ∧ p_keeps (KeepValue p v).2 = p_keeps p;
  keep_value_test p v : p_state p → (KeepValue p v).1 = p_keeps p v;
  keep_page_sound p pg v : p_state p → in_page le pg v → p_keeps p v = true → (KeepPage p pg).1 = true;
  keep_chunk_sound p c v : p_state p → in_chunk le c v → p_keeps p v = true → (KeepColumnChunk p c).1 = true }.

(** ** Proofs *)

Section PredicatesOk.
Context {V : Type} `{PqValue V}.
Implicit Types (v : V) (pg : Page V) (c : ColumnChunk V).

Lemma index_test_sound le c test v : in_chunk le c v → (∀ min max, in_bounds le v min max → test min max = true) → index_test c test = true.
Proof.
  unfold in_chunk, index_test. destruct (cc_ColumnIndex c) as [pages|]; [|done]. intros (min & max & Hin & Hb) Ht. apply existsb_exists. exists (min, max).
  split; [by apply list_elem_of_In|by apply Ht].
Qed.

Lemma bounds_test_sound le pg test v : in_page le pg v → (∀ min max, in_bounds le v min max → test min max = true) → bounds_test pg test = true.
Proof. unfold in_page, bounds_test. destruct (pg_Bounds pg) as [[min max]|]; [|done]. intros [Hb _] Ht. by apply Ht. Qed.

Lemma dict_sound le pg v (f : V → bool) d dict : in_page le pg v → pg_Dictionary pg = Some (d :: dict) → f v = true → existsb f (d :: dict) = true.
Proof.
  intros [_ Hd] E Hf. rewrite E in Hd. destruct Hd as [Hd|Hd]; [done|]. apply existsb_exists. exists v. by rewrite <- list_elem_of_In.
Qed.

#[export] Instance string_in_ok : PredicateOk StringInPredicate V bytes_le.
Proof.
  refine {| p_state _ := True; p_keeps p v := string_in_value p v |}; try done.
  - intros p pg v _ Hv Hk. simpl. unfold string_in_page. destruct (pg_Dictionary pg) as [[|d dict]|] eqn:E; [done| |done].
    by apply (dict_sound _ pg v _ d dict Hv E).
  - intros p c v _ Hv Hk. simpl. unfold string_in_chunk, in_chunk in *. destruct (cc_ColumnIndex c) as [pages|]; [|done]. destruct Hv as (min & max & Hin & Hmin & Hmax).
    unfold string_in_value in Hk. apply existsb_exists in Hk as (s & Hs & <-%String.eqb_eq). apply existsb_exists. exists (v_ByteArray v). split; [done|].
    apply existsb_exists. exists (min, max). split; [by apply list_elem_of_In|]. unfold bytes_le in *. by rewrite Hmin, Hmax.
Defined.

Definition cache_ok (p : SubstringPredicate) : Prop := ∀ s b, p_matches p !! s = Some b → b = contains (p_substring p) s.

Lemma substring_value_spec p v : cache_ok p → let '(b, p') := substring_value p v in b = contains (p_substring p) (v_String v) ∧ cache_ok p' ∧ p_substring p' = p_substring p.
Proof.
  intros Hc. unfold substring_value. destruct (p_matches p !! v_String v) as [b|] eqn:E; [by rewrite (Hc _ _ E)|].
  split_and!; try done. intros s b. simpl. rewrite lookup_insert. case_decide as Hs; [intros [= <-]; by rewrite Hs|apply Hc].
Qed.

Lemma substring_dict_spec dict : ∀ p, cache_ok p →
  let '(b, p') := substring_dict p dict in b = existsb (λ d, contains (p_substring p) (v_String d)) dict ∧ cache_ok p' ∧ p_substring p' = p_substring p.
Proof.
  induction dict as [|d dict IH]; intros p Hp; simpl; [done|]. pose proof (substring_value_spec p d Hp) as Hv. destruct (substring_value p d) as [b p1].
  destruct Hv as (-> & Hp1 & Hs). destruct (contains _ (v_String d)) eqn:E; [done|]. specialize (IH p1 Hp1). destruct (substring_dict p1 dict) as [b2 p2]. by rewrite Hs in IH.
Qed.

Local Arguments substring_dict : simpl never.

#[export] Instance substring_ok : PredicateOk SubstringPredicate V no_order.
Proof.
  refine {| p_state := cache_ok; p_keeps p v := contains (p_substring p) (v_String v) |}.
  - intros p c Hp. done.
  - intros p pg Hp. simpl. destruct (pg_Dictionary pg) as [[|d dict]|]; [done| |done]. pose proof (substring_dict_spec (d :: dict) p Hp) as Hs.
    destruct (substring_dict p (d :: dict)) as [b p']. destruct Hs as (_ & Hp' & Hs'). simpl. by rewrite Hs'.
  - intros p v Hp. simpl. pose proof (substring_value_spec p v Hp) as Hs. destruct (substring_value p v) as [b p']. destruct Hs as (_ & Hp' & Hs'). simpl. by rewrite Hs'.
  - intros p v Hp. simpl. pose proof (substring_value_spec p v Hp) as Hs. destruct (substring_value p v) as [b p']. by destruct Hs as (-> & _).
  - intros p pg v Hp Hv Hk. simpl. destruct (pg_Dictionary pg) as [[|d dict]|] eqn:E; [done| |done]. pose proof (substring_dict_spec (d :: dict) p Hp) as Hs.
    destruct (substring_dict p (d :: dict)) as [b p']. destruct Hs as (-> & _). exact (dict_sound _ pg v _ d dict Hv E Hk).
  - done.
Defined.

#[export] Instance int_between_ok : PredicateOk IntBetweenPredicate V int_le.
Proof.
  refine {| p_state _ := True; p_keeps p v := ((p_min p <=? v_Int64 v) && (v_Int64 v <=? p_max p))%Z |}; try done.
  - intros p pg v _ Hv Hk. apply (bounds_test_sound _ _ _ v Hv). intros min max []. unfold between_test, int_le in *. go_arith.
  - intros p c v _ Hv Hk. apply (index_test_sound _ _ _ v Hv). intros min max []. unfold between_test, int_le in *. go_arith.
Defined.

#[export] Instance equal_ok : PredicateOk EqualInt64Predicate V int_le.
Proof.
  refine {| p_state _ := True; p_keeps p v := ((p_int p <=? v_Int64 v) && (v_Int64 v <=? p_int p))%Z |}; try done.
  - intros p pg v _ Hv Hk. apply (bounds_test_sound _ _ _ v Hv). intros min max []. unfold equal_test, int_le in *. go_arith.
  - intros p c v _ Hv Hk. apply (index_test_sound _ _ _ v Hv). intros min max []. unfold equal_test, int_le in *. go_arith.
Defined.

(** The order of a column of keys: the conversion keeps it. *)
Definition key_le (K : Z → Z) (a b : V) : Prop := (K (v_Int64 a) ≤ K (v_Int64 b))%Z.

Definition bounds_keys {K T} (p : mapPredicate K T) : Prop := ∀ k, is_Some (mp_m p !! k) → (mp_min p ≤ k ≤ mp_max p)%Z.

#[export] Instance map_ok {K T} : PredicateOk (mapPredicate K T) V (key_le K).
Proof.
  refine {| p_state := bounds_keys; p_keeps p v := match mp_m p !! K (v_Int64 v) with Some _ => true | None => false end |}; try done.
  - intros p pg v Hp Hv Hk. apply (bounds_test_sound _ _ _ v Hv). intros min max []. unfold map_test, key_le in *. specialize (Hp (K (v_Int64 v))).
    destruct (mp_m p !! K (v_Int64 v)); [|done]. destruct Hp as [Hmin Hmax]; [done|]. apply andb_true_iff. rewrite !Z.leb_le. lia.
  - intros p c v Hp Hv Hk. apply (index_test_sound _ _ _ v Hv). intros min max []. unfold map_test, key_le in *. specialize (Hp (K (v_Int64 v))).
    destruct (mp_m p !! K (v_Int64 v)); [|done]. destruct Hp as [Hmin Hmax]; [done|]. apply andb_true_iff. rewrite !Z.leb_le. lia.
Defined.

Lemma widen_spec keys : ∀ (done : list Z) min max, done ≠ [] → (∀ k, k ∈ done → min ≤ k ≤ max)%Z →
  ∃ min' max', foldl widen (false, (min, max)) keys = (false, (min', max')) ∧ ∀ k, k ∈ done ++ keys → (min' ≤ k ≤ max')%Z.
Proof.
  induction keys as [|x keys IH]; intros dn min max Hne Hb; simpl; [rewrite app_nil_r; by exists min, max|].
  rewrite (cons_middle x dn keys), app_assoc. apply IH; [by destruct dn|]. intros k. rewrite elem_of_app, list_elem_of_singleton.
  destruct (Z.ltb_spec x min), (Z.ltb_spec max x); (intros [Hk| ->]; [specialize (Hb _ Hk); lia|]); try lia.
  all: destruct dn as [|y dn]; [done|]; specialize (Hb y ltac:(by left)); lia.
Qed.

Lemma newMapPredicate_bounds {K T} keys (m : gmap Z T) : (∀ k, is_Some (m !! k) → k ∈ keys) → bounds_keys (newMapPredicate K keys m) ∧ mp_m (newMapPredicate K keys m) = m.
Proof.
  intros Hall. unfold newMapPredicate. destruct keys as [|x keys]; simpl; [split; [|done]; intros k Hk; by apply Hall, not_elem_of_nil in Hk|].
  destruct (widen_spec keys [x] x x) as (min & max & -> & Hb); [done|intros k ->%list_elem_of_singleton; lia|]. split; [|done]. intros k Hk. apply Hb. by apply Hall.
Qed.

(** *** Instrumented *)
Context {P : Type} {le : V → V → Prop} `{PredicateOk P V le}.

Definition opt_state (o : option P) : Prop := match o with Some p => p_state p | None => True end.
Definition opt_keeps (o : option P) v : bool := match o with Some p => p_keeps p v | None => true end.

#[export] Instance instrumented_ok : PredicateOk (InstrumentedPredicate P) V le.
Proof.
  refine {| p_state i := opt_state (in_pred i); p_keeps i := opt_keeps (in_pred i) |}.
  - intros [[p|] ? ? ? ? ? ?] c Hp; simpl in *; [|done]. destruct (keep_chunk_state p c Hp). by destruct (KeepColumnChunk p c).
  - intros [[p|] ? ? ? ? ? ?] c Hp; simpl in *; [|done]. destruct (keep_page_state p c Hp). by destruct (KeepPage p c).
  - intros [[p|] ? ? ? ? ? ?] c Hp; simpl in *; [|done]. destruct (keep_value_state p c Hp). by destruct (KeepValue p c).
  - intros [[p|] ? ? ? ? ? ?] v Hp; simpl in *; [|done]. pose proof (keep_value_test p v Hp). by destruct (KeepValue p v).
  - intros [[p|] ? ? ? ? ? ?] pg v Hp Hv Hk; simpl in *; [|done]. pose proof (keep_page_sound p pg v Hp Hv Hk). by destruct (KeepPage p pg).
  - intros [[p|] ? ? ? ? ? ?] c v Hp Hv Hk; simpl in *; [|done]. pose proof (keep_chunk_sound p c v Hp Hv Hk). by destruct (KeepColumnChunk p c).
Defined.
End PredicatesOk.

(** ** Sequences of questions *)

Inductive question (V : Type) := AskChunk (c : ColumnChunk V) | AskPage (pg : Page V) | AskValue (v : V).
Arguments AskChunk {V} _. Arguments AskPage {V} _. Arguments AskValue {V} _.

Section Questions.
Context {V : Type} `{PqValue V}.

Definition ask {P} `{Predicate P V} (p : P) (q : question V) : bool * P :=
  match q with AskChunk c => KeepColumnChunk p c | AskPage pg => KeepPage p pg | AskValue v => KeepValue p v end.

Fixpoint ask_all {P} `{Predicate P V} (p : P) (qs : list (question V)) : list bool * P :=
  match qs with
  | [] => ([], p)
  | q :: qs => let '(b, p) := ask p q in let '(bs, p) := ask_all p qs in (b :: bs, p)
  end.

(** After any questions a predicate selects by the test, and keeps what may hold a value it selects. *)
Definition pushes_down {P} `{Predicate P V} (le : V → V → Prop) (p : P) (test : V → bool) : Prop :=
  ∀ qs v, let p := (ask_all p qs).2 in
    (KeepValue p v).1 = test v ∧
    (test v = true → (∀ pg, in_page le pg v → (KeepPage p pg).1 = true) ∧ (∀ c, in_chunk le c v → (KeepColumnChunk p c).1 = true)).

Lemma ask_all_state {P le} `{PredicateOk P V le} qs : ∀ p, p_state p → p_state (ask_all p qs).2 ∧ p_keeps (ask_all p qs).2 = p_keeps p.
Proof.
  induction qs as [|q qs IH]; intros p Hp; simpl; [done|]. assert (Hq : p_state (ask p q).2 ∧ p_keeps (ask p q).2 = p_keeps p).
  { destruct q; simpl; [by apply keep_chunk_state|by apply keep_page_state|by apply keep_value_state]. }
  destruct (ask p q) as [b p1]. destruct Hq as [Hp1 Hk]. specialize (IH p1 Hp1). destruct (ask_all p1 qs) as [bs p2]. simpl in *. by rewrite <- Hk.
Qed.

Lemma ok_pushes_down {P le} `{PredicateOk P V le} (p : P) test : p_state p → (∀ v, p_keeps p v = test v) → pushes_down le p test.
Proof.
  intros Hp Ht qs v. destruct (ask_all_state qs p Hp) as [Hp' Hk]. simpl. generalize dependent (ask_all p qs).2. intros p' Hp' Hk. rewrite <- Ht, <- Hk. split; [by apply keep_value_test|].
  intros Hv. split; [intros pg Hpg; by apply (keep_page_sound p' pg v)|intros c Hc; by apply (keep_chunk_sound p' c v)].
Qed.

Lemma bool_decided (b : bool) (Q : Prop) `{Decision Q} : (b = true ↔ Q) → b = bool_decide Q.
Proof. intros Hb. case_bool_decide as Hq; [by apply Hb|]. destruct b; [|done]. by destruct Hq; apply Hb. Qed.

(** C29: Pushdown is sound.  Whatever a predicate was asked before (the cache of [SubstringPredicate] included), each one selects
    a value exactly by its test, and if it selects a value then it keeps every page whose bounds and dictionary, and every column
    chunk whose index, admit that value.  The bounds of a column are taken in the order of its type; for the keys of a map, in
    the order of the key type, and [newMapPredicate] may walk the map in any order.  Instrumenting changes none of it. *)
Theorem predicates_push_down :
  (∀ ss, pushes_down bytes_le (NewStringInPredicate ss) (λ v, bool_decide (v_ByteArray v ∈ ss))) ∧
  (∀ sub, pushes_down no_order (NewSubstringPredicate sub) (λ v, contains sub (v_String v))) ∧
  (∀ min max, pushes_down int_le (NewIntBetweenPredicate min max) (λ v, bool_decide (min ≤ v_Int64 v ≤ max)%Z)) ∧
  (∀ x, pushes_down int_le (NewEqualInt64Predicate x) (λ v, bool_decide (v_Int64 v = x))) ∧
  (∀ K T keys (m : gmap Z T), (∀ k, k ∈ keys ↔ is_Some (m !! k)) →
     pushes_down (key_le K) (newMapPredicate K keys m) (λ v, bool_decide (is_Some (m !! K (v_Int64 v))))) ∧
  (∀ min max, pushes_down int_le (instrumented (Some (NewIntBetweenPredicate min max))) (λ v, bool_decide (min ≤ v_Int64 v ≤ max)%Z)) ∧
  pushes_down no_order (instrumented (None : option SubstringPredicate)) (λ _, true).
Proof.
  split_and!; intros; apply ok_pushes_down; try done; try (intros v; simpl).
  - apply bool_decided. unfold string_in_value. rewrite list_elem_of_In. split.
    + by intros (s & Hs & <-%String.eqb_eq)%existsb_exists.
    + intros Hs. apply existsb_exists. exists (v_ByteArray v). by rewrite String.eqb_refl.
  - apply bool_decided. rewrite andb_true_iff, !Z.leb_le. lia.
  - apply bool_decided. rewrite andb_true_iff, !Z.leb_le. lia.
  - apply newMapPredicate_bounds. naive_solver.
  - rewrite (proj2 (newMapPredicate_bounds _ _ (λ k, proj2 (H0 k)))). apply bool_decided. destruct (m !! K (v_Int64 v)); split; try done; by intros [].
  - apply bool_decided. rewrite andb_true_iff, !Z.leb_le. lia.
Qed.

(** How many questions of a kind, and how many of them were answered with yes. *)
Definition asked (kind : question V → bool) (qs : list (question V)) : Z := Z.of_nat (length (filter (λ q, kind q = true) qs)).
Definition answered (kind : question V → bool) (qs : list (question V)) (bs : list bool) : Z :=
  Z.of_nat (length (filter (λ p, kind p.1 && p.2 = true) (zip qs bs))).
Definition is_chunk (q : question V) : bool := match q with AskChunk _ => true | _ => false end.
Definition is_page (q : question V) : bool := match q with AskPage _ => true | _ => false end.
Definition is_value (q : question V) : bool := match q with AskValue _ => true | _ => false end.

(** The counters have moved by the counts. *)
Definition counted_from {P} (i0 i : InstrumentedPredicate P) (qs : list (question V)) (bs : list bool) : Prop :=
  (InspectedColumnChunks i = InspectedColumnChunks i0 + asked is_chunk qs ∧ InspectedPages i = InspectedPages i0 + asked is_page qs ∧
   InspectedValues i = InspectedValues i0 + asked is_value qs ∧ KeptColumnChunks i = KeptColumnChunks i0 + answered is_chunk qs bs ∧
   KeptPages i = KeptPages i0 + answered is_page qs bs ∧ KeptValues i = KeptValues i0 + answered is_value qs bs)%Z.

Definition room {P} (i : InstrumentedPredicate P) (n : Z) : Prop :=
  Forall (λ c, 0 ≤ c ∧ c + n ≤ max_int64)%Z [InspectedColumnChunks i; InspectedPages i; InspectedValues i; KeptColumnChunks i; KeptPages i; KeptValues i].

Lemma asked_cons kind q qs : asked kind (q :: qs) = ((if kind q then 1 else 0) + asked kind qs)%Z.
Proof. unfold asked. rewrite filter_cons. destruct (kind q); case_decide; try done; simpl; lia. Qed.

Lemma answered_cons kind q qs b bs : answered kind (q :: qs) (b :: bs) = ((if kind q && b then 1 else 0) + answered kind qs bs)%Z.
Proof. unfold answered. simpl. rewrite filter_cons. simpl. destruct (kind q && b); case_decide; try done; simpl; lia. Qed.

(** The answers are those of the wrapped predicate, or yes without one. *)
Definition plain_answers {P} `{Predicate P V} (pred : option P) (qs : list (question V)) : list bool :=
  match pred with Some p => (ask_all p qs).1 | None => (λ _, true) <$> qs end.

Lemma ask_instrumented {P} `{Predicate P V} (i : InstrumentedPredicate P) q n : room i (n + 1) → (0 ≤ n)%Z →
  let '(b, i') := ask i q in
  b = match in_pred i with Some p => (ask p q).1 | None => true end ∧
  in_pred i' = match in_pred i with Some p => Some (ask p q).2 | None => None end ∧
  room i' n ∧ counted_from i i' [q] [b].
Proof.
  unfold room, counted_from. intros Hr Hn. rewrite !Forall_cons, Forall_nil in *. destruct i as [pred a1 a2 a3 b1 b2 b3]. simpl in Hr.
  destruct Hr as (H1 & H2 & H3 & H4 & H5 & H6 & _). pose proof (i64_small (a1 + 1)) as S1. pose proof (i64_small (a2 + 1)) as S2.
  pose proof (i64_small (a3 + 1)) as S3. pose proof (i64_small (b1 + 1)) as S4. pose proof (i64_small (b2 + 1)) as S5. pose proof (i64_small (b3 + 1)) as S6.
  unfold int64_range, min_int64, max_int64 in *.
  destruct q as [c|pg|v]; simpl; destruct pred as [p|]; simpl; try destruct (KeepColumnChunk p c) as [b p']; try destruct (KeepPage p pg) as [b p'];
    try destruct (KeepValue p v) as [b p']; simpl; rewrite !asked_cons, !answered_cons; simpl; unfold asked, answered, counted; simpl;
    try destruct b; simpl; rewrite ?S1, ?S2, ?S3, ?S4, ?S5, ?S6 by lia; split_and!; try done; try lia; repeat constructor; lia.
Qed.

Lemma ask_all_instrumented {P} `{Predicate P V} qs : ∀ i : InstrumentedPredicate P, room i (Z.of_nat (length qs)) →
  let '(bs, i') := ask_all i qs in bs = plain_answers (in_pred i) qs ∧ counted_from i i' qs bs.
Proof.
  induction qs as [|q qs IH]; intros i Hr; simpl.
  - split; [by destruct (in_pred i)|]. unfold counted_from, asked, answered. simpl. lia.
  - assert (Hr' : room i (Z.of_nat (length qs) + 1)) by (by replace (Z.of_nat (length qs) + 1)%Z with (Z.of_nat (length (q :: qs))) by (simpl; lia)).
    pose proof (ask_instrumented i q _ Hr' ltac:(lia)) as Hq. destruct (ask i q) as [b i1]. destruct Hq as (Hb & Hp & Hr1 & Hc). specialize (IH i1 Hr1).
    destruct (ask_all i1 qs) as [bs i2]. destruct IH as [-> Hc2]. rewrite Hp, Hb in *. split.
    + destruct (in_pred i) as [p|]; [|done]. simpl. destruct (ask p q) as [b' p']. simpl. by destruct (ask_all p' qs).
    + unfold counted_from in *. assert (Ha : ∀ k, asked k [] = 0%Z) by done. assert (Hn : ∀ k, answered k [] [] = 0%Z) by done. rewrite !asked_cons, !answered_cons in *. rewrite !Ha, !Hn in Hc. lia.
Qed.

(** Instrumenting a predicate changes no answer and counts them: as long as fewer than 2^63 questions are asked, the inspected
    counters are the numbers of chunks, pages and values asked about, and the kept counters the numbers of those answered with yes;
    the counters do not overflow and nothing is kept that was not inspected. *)
Theorem instrumented_counts {P} `{Predicate P V} (filter : option P) (qs : list (question V)) : (Z.of_nat (length qs) ≤ max_int64)%Z →
  let '(bs, i) := ask_all (instrumented filter) qs in
  bs = plain_answers filter qs ∧
  InspectedColumnChunks i = asked is_chunk qs ∧ InspectedPages i = asked is_page qs ∧ InspectedValues i = asked is_value qs ∧
  KeptColumnChunks i = answered is_chunk qs bs ∧ KeptPages i = answered is_page qs bs ∧ KeptValues i = answered is_value qs bs ∧
  (0 ≤ KeptColumnChunks i ≤ InspectedColumnChunks i ∧ 0 ≤ KeptPages i ≤ InspectedPages i ∧ 0 ≤ KeptValues i ≤ InspectedValues i)%Z ∧
  (InspectedColumnChunks i + InspectedPages i + InspectedValues i = Z.of_nat (length qs))%Z.
Proof.
  intros Hlen. pose proof (ask_all_instrumented qs (instrumented filter)) as Hall. destruct (ask_all (instrumented filter) qs) as [bs i].
  destruct Hall as [Hb Hc]; [unfold room; simpl; rewrite !Forall_cons, Forall_nil; lia|]. split; [done|]. unfold counted_from in Hc. simpl in Hc.
  destruct Hc as (-> & -> & -> & -> & -> & ->). assert (Hle : ∀ kind, (0 ≤ answered kind qs bs ≤ asked kind qs)%Z).
  { intros kind. clear Hb. revert bs. induction qs as [|q qs' IH]; intros bs; [done|]. destruct bs as [|b bs]; [unfold answered, asked; simpl; lia|].
    rewrite asked_cons, answered_cons. specialize (IH ltac:(simpl in Hlen; lia) bs). destruct (kind q), b; simpl; lia. }
  pose proof (Hle is_chunk). pose proof (Hle is_page). pose proof (Hle is_value). split_and!; try lia. clear. induction qs as [|q qs IH]; [done|].
  rewrite !asked_cons. destruct q; simpl in *; lia.
Qed.
End Questions.

(** ** At concrete inputs *)

#[local] Instance example_value : PqValue (Z * string) :=
  {| v_Int64 := fst; v_ByteArray := snd; v_String := snd; v_RepetitionLevel _ := 0; v_DefinitionLevel _ := 0 |}.

Definition example_page : Page (Z * string) := mkPage 2 (Some ((1, "a"), (5, "c")))%Z (Some [(1, "a"); (5, "c")]%Z) [].

Lemma predicates_push_down_witness :
  (KeepPage (NewStringInPredicate ["c"]) example_page).1 = true ∧
  (KeepPage (newMapPredicate id [5%Z; 2%Z] (<[5 := tt]> {[2 := tt]})%Z) example_page).1 = true.
Proof.
  destruct (predicates_push_down) as (Hs & _ & _ & _ & Hm & _). split.
  - destruct (Hs ["c"] [] (5, "c")%Z) as [_ Hv]. apply Hv; [done|]. split; [done|]. right. by right; left.
  - destruct (Hm id unit [5%Z; 2%Z] (<[5 := tt]> {[2 := tt]})%Z) with (qs := @nil (question (Z * string))) (v := (5, "c")%Z) as [_ Hv].
    + intros k. rewrite !elem_of_cons, lookup_insert_is_Some', elem_of_nil, lookup_singleton_is_Some. naive_solver.
    + apply Hv; [done|]. split; [done|]. right. by right; left.
Defined.

Lemma instrumented_counts_witness :
  let i := (ask_all (instrumented (Some (NewIntBetweenPredicate 2 9))) [AskPage example_page; AskValue (1, "a")%Z; AskValue (5, "c")%Z]).2 in
  InspectedValues i = 2%Z ∧ KeptValues i = 1%Z ∧ KeptPages i = 1%Z.
Proof.
  pose proof (instrumented_counts (Some (NewIntBetweenPredicate 2 9)) [AskPage example_page; AskValue (1, "a")%Z; AskValue (5, "c")%Z]) as Hc.
  specialize (Hc ltac:(by vm_compute)). simpl in *. destruct Hc as (_ & _ & _ & H1 & _ & H2 & H3 & _). split_and!; done.
Defined.
