(* ===== verification/ColumnIter.v ===== *)
(** * Reading a column in the background (src/pkg/phlaredb/query/iters.go, [ColumnIterator])

    A goroutine walks the row groups, pages and values of a column, skips what a seek or the predicate lets it
    skip, numbers the rows and sends buffers of matching values over a channel with room for one.  The
    consumer reads the buffers, and tells the goroutine where it seeks to.  The producer moves in
    steps; a schedule says how many it takes before each action of the consumer, which
    waits when there is nothing to receive.  The theorems hold for every schedule. *)

From S2P Require Import Prelude RowNumbers QueryIters Predicates.

(** ** State *)

Record RowGroup (V : Type) := mkRowGroup { rg_NumRows : Z; rg_ColumnChunks : list (ColumnChunk V) }.
Arguments mkRowGroup {V} _ _. Arguments rg_NumRows {V} _. Arguments rg_ColumnChunks {V} _.

(** A buffer: row numbers with their values, or an error. *)
Abbreviation columnIteratorBuffer V := (list (RowNumber * V) + string)%type (only parsing).

(** Where the goroutine is: in the reads of a page, in the pages of a chunk, before the remaining chunks with their numbers of
    rows; [pr_pending] is what it is about to send. *)
Record producer (P V : Type) := mkProducer {
  pr_rn : RowNumber;
  pr_filter : InstrumentedPredicate P;
  pr_pending : list (columnIteratorBuffer V);
  pr_reads : option (list (value_read V));
  pr_pages : option (list (Page V + string));
  pr_groups : list (Z * ColumnChunk V) }.
Arguments mkProducer {P V} _ _ _ _ _ _. Arguments pr_rn {P V} _. Arguments pr_filter {P V} _. Arguments pr_pending {P V} _.
Arguments pr_reads {P V} _. Arguments pr_pages {P V} _. Arguments pr_groups {P V} _.

Record ColumnIterator (P V R : Type) := mkColumn {
  ci_producer : producer P V;
  ci_seekTo : option RowNumber;
  ci_ch : option (columnIteratorBuffer V);
  ci_chClosed : bool;
  ci_quit : bool;
  ci_selectAs : string;
  ci_curr : option (list (RowNumber * V));
  ci_currN : nat;
  ci_result : option (IteratorResult V R);
  ci_err : option string;
  ci_schedule : list (list bool) }.
Arguments mkColumn {P V R} _ _ _ _ _ _ _ _ _ _ _.
Arguments ci_producer {P V R} _. Arguments ci_seekTo {P V R} _. Arguments ci_ch {P V R} _. Arguments ci_chClosed {P V R} _. Arguments ci_quit {P V R} _.
Arguments ci_selectAs {P V R} _. Arguments ci_curr {P V R} _. Arguments ci_currN {P V R} _. Arguments ci_result {P V R} _. Arguments ci_err {P V R} _. Arguments ci_schedule {P V R} _.

(** The column chunks of the row groups at an index. *)
Definition column_chunks {V} (column : nat) (rgs : list (RowGroup V)) : outcome (list (Z * ColumnChunk V)) :=
  omapM (λ rg, obind (of_option (rg_ColumnChunks rg !! column)) (λ cc, Ret (rg_NumRows rg, cc))) rgs.

Section ColumnIterator.
Context {P V R : Type} `{PqValue V} `{Predicate P V}.
Abbreviation Column := (ColumnIterator P V R) (only parsing).
Abbreviation prod := (producer P V) (only parsing).
Implicit Types (c : ColumnIterator P V R) (p : producer P V).

(** An index that a chunk does not have, and an empty list of row groups, panic. *)
Definition NewColumnIterator (schedule : list (list bool)) (rgs : list (RowGroup V)) (column : nat) (filter : option P) (selectAs : string) : outcome Column :=
  match rgs with
  | [] => Panic
  | _ =>
      obind (column_chunks column rgs) (λ groups,
        Ret (mkColumn (mkProducer EmptyRowNumber (instrumented filter) [] None None groups) None None false false selectAs None 0 None None schedule))
  end.

(** ** The goroutine *)

Definition checkSkip (seekTo : option RowNumber) (rn : RowNumber) (numRows : Z) : bool :=
  match seekTo with
  | None => false
  | Some to => (CompareRowNumbers 0 (rn_Skip rn numRows) to =? -1)%Z
  end.

(** The values of one read: their row numbers, those that are kept. *)
Fixpoint read_values (rn : RowNumber) (f : InstrumentedPredicate P) (vs : list V) : RowNumber * InstrumentedPredicate P * list (RowNumber * V) :=
  match vs with
  | [] => (rn, f, [])
  | v :: vs =>
      let rn := rn_Next rn (v_RepetitionLevel v) (v_DefinitionLevel v) in
      let '(keep, f) := KeepValue f v in
      let '(rn', f, buf) := read_values rn f vs in
      (rn', f, if keep then (rn, v) :: buf else buf)
  end.

(** After a read: its buffer unless it is empty, and its error. *)
Definition after_read (p : prod) (r : value_read V) (rs : list (value_read V)) : prod :=
  let '(rn, f, buf) := read_values (pr_rn p) (pr_filter p) r.1 in
  let data := match buf with [] => [] | _ => [inl buf] end in
  match r.2 with
  | None => mkProducer rn f data (Some rs) (pr_pages p) (pr_groups p)
  | Some EOF => mkProducer rn f data None (pr_pages p) (pr_groups p)
  | Some (ReadError e) => mkProducer rn f (data ++ [inr e]) None None (pr_groups p)
  end.

Definition on_page (seekTo : option RowNumber) (p : prod) (pg : Page V) (ps : list (Page V + string)) : prod :=
  let skip f := mkProducer (rn_Skip (pr_rn p) (pg_NumRows pg)) f [] None (Some ps) (pr_groups p) in
  if checkSkip seekTo (pr_rn p) (pg_NumRows pg) then skip (pr_filter p)
  else let '(keep, f) := KeepPage (pr_filter p) pg in
    if keep then mkProducer (pr_rn p) f [] (Some (pg_Reads pg)) (Some ps) (pr_groups p) else skip f.

Definition on_group (seekTo : option RowNumber) (p : prod) (numRows : Z) (cc : ColumnChunk V) (gs : list (Z * ColumnChunk V)) : prod :=
  let skip f := mkProducer (rn_Skip (pr_rn p) numRows) f [] None None gs in
  if checkSkip seekTo (pr_rn p) numRows then skip (pr_filter p)
  else let '(keep, f) := KeepColumnChunk (pr_filter p) cc in
    if keep then mkProducer (pr_rn p) f [] None (Some (cc_Pages cc)) gs else skip f.

(** The next step of the walk when nothing is to be sent; [None] at the end.  A page that cannot be read ends its chunk, without an error. *)
Definition walk (seekTo : option RowNumber) (p : prod) : option prod :=
  match pr_reads p, pr_pages p, pr_groups p with
  | Some (r :: rs), _, _ => Some (after_read p r rs)
  | Some [], _, _ => Some (mkProducer (pr_rn p) (pr_filter p) [] None (pr_pages p) (pr_groups p))
  | None, Some (inl pg :: ps), _ => Some (on_page seekTo p pg ps)
  | None, Some (inr _ :: _), _ | None, Some [], _ => Some (mkProducer (pr_rn p) (pr_filter p) [] None None (pr_groups p))
  | None, None, (n, cc) :: gs => Some (on_group seekTo p n cc gs)
  | None, None, [] => None
  end.

Definition with_producer c p ch closed : Column :=
  mkColumn p (ci_seekTo c) ch closed (ci_quit c) (ci_selectAs c) (ci_curr c) (ci_currN c) (ci_result c) (ci_err c) (ci_schedule c).

(** A step of the goroutine.  A buffer is sent when there is room; a quit ends the chunk, and [choice] decides when both are possible.
    An error is sent without regard to a quit. *)
Definition iterate_step (choice : bool) c : Column :=
  let p := ci_producer c in
  if ci_chClosed c then c
  else
    match pr_pending p with
    | it :: rest =>
        let sent := with_producer c (mkProducer (pr_rn p) (pr_filter p) rest (pr_reads p) (pr_pages p) (pr_groups p)) (Some it) false in
        let quits := with_producer c (mkProducer (pr_rn p) (pr_filter p) [] None None (pr_groups p)) (ci_ch c) false in
        match ci_ch c, it with
        | None, inl _ => if ci_quit c && choice then quits else sent
        | None, inr _ => sent
        | Some _, inl _ => if ci_quit c then quits else c
        | Some _, inr _ => c
        end
    | [] =>
        match walk (ci_seekTo c) p with
        | Some p => with_producer c p (ci_ch c) false
        | None => with_producer c p (ci_ch c) true
        end
    end.

Definition iterate_steps (choices : list bool) c : Column := foldl (λ c b, iterate_step b c) c choices.

(** A bound on the steps that are left. *)
Definition page_work (pg : Page V + string) : nat := match pg with inl pg => 2 + 3 * length (pg_Reads pg) | inr _ => 1 end.
Definition pages_work (ps : list (Page V + string)) : nat := 1 + sum_list_with page_work ps.
Definition work p : nat :=
  length (pr_pending p) + match pr_reads p with Some rs => 1 + 3 * length rs | None => 0 end +
  match pr_pages p with Some ps => pages_work ps | None => 0 end + sum_list_with (λ g, 1 + pages_work (cc_Pages g.2)) (pr_groups p).

(** ** The consumer *)

(** The next entry of the schedule. *)
Definition scheduled c : Column :=
  match ci_schedule c with
  | [] => c
  | s :: ss =>
      iterate_steps s (mkColumn (ci_producer c) (ci_seekTo c) (ci_ch c) (ci_chClosed c) (ci_quit c) (ci_selectAs c) (ci_curr c) (ci_currN c) (ci_result c) (ci_err c) ss)
  end.

Definition with_curr c ch curr currN err : Column :=
  mkColumn (ci_producer c) (ci_seekTo c) ch (ci_chClosed c) (ci_quit c) (ci_selectAs c) curr currN (ci_result c) err (ci_schedule c).

(** [<-c.ch]: wait for a buffer or the end. *)
Fixpoint receive (fuel : nat) c : outcome (option (columnIteratorBuffer V) * Column) :=
  match ci_ch c with
  | Some it => Ret (Some it, with_curr c None (ci_curr c) (ci_currN c) (ci_err c))
  | None =>
      if ci_chClosed c then Ret (None, c)
      else match fuel with O => Panic | S fuel => receive fuel (iterate_step false c) end
  end.

Definition next_buffer c : outcome (option (RowNumber * V) * Column) :=
  obind (receive (S (S (work (ci_producer c)))) (with_curr c (ci_ch c) None (ci_currN c) (ci_err c))) (λ '(it, c),
    match it with
    | None => Ret (None, c)
    | Some (inr e) => Ret (None, with_curr c (ci_ch c) (ci_curr c) (ci_currN c) (Some e))
    | Some (inl []) => Panic
    | Some (inl (x :: buf)) => Ret (Some x, with_curr c (ci_ch c) (Some (x :: buf)) 0 (ci_err c))
    end).

(** [next]; an invalid row number in a buffer would be looked at forever. *)
Definition column_next c : outcome (option (RowNumber * V) * Column) :=
  let c := scheduled c in
  match ci_curr c with
  | Some buf =>
      match buf !! S (ci_currN c) with
      | Some (t, v) => if rn_Valid t then Ret (Some (t, v), with_curr c (ci_ch c) (ci_curr c) (S (ci_currN c)) (ci_err c)) else Panic
      | None => next_buffer c
      end
  | None => next_buffer c
  end.

Definition makeResult c (t : RowNumber) (v : V) : IteratorResult V R :=
  let r := mkResult t [] in if String.eqb (ci_selectAs c) "" then r else ir_AppendValue r (ci_selectAs c) v.

Definition with_result c (x : option (RowNumber * V)) : bool * Column :=
  (match x with Some _ => true | None => false end,
   mkColumn (ci_producer c) (ci_seekTo c) (ci_ch c) (ci_chClosed c) (ci_quit c) (ci_selectAs c) (ci_curr c) (ci_currN c)
     (match x with Some (t, v) => Some (makeResult c t v) | None => None end) (ci_err c) (ci_schedule c)).

Definition column_Next c : outcome (bool * Column) :=
  obind (column_next c) (λ '(x, c),
    Ret (with_result c (match x with Some (t, v) => if rn_Valid t then x else None | None => None end))).

Fixpoint seek_loop (fuel : nat) (to : RowNumberWithDefinitionLevel) c : outcome (bool * Column) :=
  match fuel with
  | O => Panic
  | S fuel =>
      obind (column_next c) (λ '(x, c),
        match x with
        | Some (t, v) =>
            if rn_Valid t then
              if (CompareRowNumbers (rl_DefinitionLevel to) t (rl_RowNumber to) <? 0)%Z then seek_loop fuel to c
              else Ret (with_result c x)
            else Ret (with_result c None)
        | None => Ret (with_result c None)
        end)
  end.

(** How many values are left. *)
Definition buffer_size (it : columnIteratorBuffer V) : nat := match it with inl b => length b | inr _ => 0 end.
Definition reads_size (rs : list (value_read V)) : nat := sum_list_with (λ r, length r.1) rs.
Definition pages_size (ps : list (Page V + string)) : nat := sum_list_with (λ pg, match pg with inl pg => reads_size (pg_Reads pg) | inr _ => 0 end) ps.
Definition column_left c : nat :=
  let p := ci_producer c in
  match ci_curr c with Some b => length b - S (ci_currN c) | None => 0 end + match ci_ch c with Some it => buffer_size it | None => 0 end +
  sum_list_with buffer_size (pr_pending p) + match pr_reads p with Some rs => reads_size rs | None => 0 end +
  match pr_pages p with Some ps => pages_size ps | None => 0 end + sum_list_with (λ g, pages_size (cc_Pages g.2)) (pr_groups p).

Definition column_Seek c (to : RowNumberWithDefinitionLevel) : outcome (bool * Column) :=
  let c := scheduled c in
  seek_loop (S (column_left c)) to
    (mkColumn (ci_producer c) (Some (rl_RowNumber to)) (ci_ch c) (ci_chClosed c) (ci_quit c) (ci_selectAs c) (ci_curr c) (ci_currN c) (ci_result c) (ci_err c) (ci_schedule c)).

Definition column_Close c : Column :=
  mkColumn (ci_producer c) (ci_seekTo c) (ci_ch c) (ci_chClosed c) true (ci_selectAs c) (ci_curr c) (ci_currN c) (ci_result c) (ci_err c) (ci_schedule c).
End ColumnIterator.

#[export] Instance column_iterator {P V R} `{PqValue V} `{Predicate P V} : SeekIterator (ColumnIterator P V R) V R := {|
  si_Next c := match column_Next c with Ret r => r | _ => (false, c) end;
  si_At c := default (mkResult [] []) (ci_result c);
  si_Seek c to := match column_Seek c to with Ret r => r | _ => (false, c) end;
  si_Err c := ci_err c;
  si_Close c := (None, column_Close c);
  si_remaining c := column_left c |}.

(** ** What the library reports of a column *)

Section Reports.
Context {V : Type} `{PqValue V} (le : V → V → Prop).

(** The number of rows that start in a list of values. *)
Definition row_starts (vs : list V) : nat := length (filter (λ v, v_RepetitionLevel v = 0) vs).
Definition starts_row (vs : list V) : Prop := match vs with [] => True | v :: _ => v_RepetitionLevel v = 0 end.
Definition levels_ok (v : V) : Prop := v_RepetitionLevel v ≤ v_DefinitionLevel v ∧ v_DefinitionLevel v < 6.

(** The values up to the first end. *)
Fixpoint read_vals (rs : list (value_read V)) : list V :=
  match rs with
  | [] => []
  | (vs, None) :: rs => vs ++ read_vals rs
  | (vs, Some _) :: _ => vs
  end.
Definition reads_ok (rs : list (value_read V)) : Prop := Forall (λ r, ∀ e, r.2 ≠ Some (ReadError e)) rs.

Definition pages_vals (ps : list (Page V + string)) : list V := concat ((λ pg, match pg with inl pg => read_vals (pg_Reads pg) | inr _ => [] end) <$> ps).
Definition groups_vals (gs : list (Z * ColumnChunk V)) : list V := concat ((λ g, pages_vals (cc_Pages g.2)) <$> gs).

(** Pages are read without errors, start with a row, know their number of rows, and their bounds and dictionary fit their values;
    the same for chunks. *)
Definition page_ok (pg : Page V + string) : Prop :=
  match pg with
  | inl pg =>
      let vs := read_vals (pg_Reads pg) in
      reads_ok (pg_Reads pg) ∧ starts_row vs ∧ pg_NumRows pg = Z.of_nat (row_starts vs) ∧ Forall levels_ok vs ∧ Forall (in_page le pg) vs
  | inr _ => False
  end.

Definition chunk_ok (g : Z * ColumnChunk V) : Prop :=
  let vs := pages_vals (cc_Pages g.2) in
  Forall page_ok (cc_Pages g.2) ∧ g.1 = Z.of_nat (row_starts vs) ∧ Forall (in_chunk le g.2) vs.

(** ** The rows of a column *)

Fixpoint assign (rn : RowNumber) (vs : list V) : list (RowNumber * V) :=
  match vs with
  | [] => []
  | v :: vs => let rn := rn_Next rn (v_RepetitionLevel v) (v_DefinitionLevel v) in (rn, v) :: assign rn vs
  end.

Definition end_rn (rn : RowNumber) (vs : list V) : RowNumber := foldl (λ rn v, rn_Next rn (v_RepetitionLevel v) (v_DefinitionLevel v)) rn vs.

Definition kept (test : V → bool) (rn : RowNumber) (vs : list V) : list (RowNumber * V) := filter (λ x, test x.2 = true) (assign rn vs).

Implicit Types (vs : list V) (rn : RowNumber).

Lemma assign_app rn vs ws : assign rn (vs ++ ws) = assign rn vs ++ assign (end_rn rn vs) ws.
Proof. revert rn. induction vs as [|v vs IH]; intros rn; simpl; [done|]. by rewrite IH. Qed.

Lemma kept_app test rn vs ws : kept test rn (vs ++ ws) = kept test rn vs ++ kept test (end_rn rn vs) ws.
Proof. unfold kept. by rewrite assign_app, filter_app. Qed.

Lemma starts_cons v vs : row_starts (v :: vs) = (if decide (v_RepetitionLevel v = 0) then 1 else 0) + row_starts vs.
Proof. unfold row_starts. rewrite filter_cons. by case_decide. Qed.

Lemma starts_app vs ws : row_starts (vs ++ ws) = row_starts vs + row_starts ws.
Proof. unfold row_starts. by rewrite filter_app, length_app. Qed.

Lemma starts_le vs : row_starts vs ≤ length vs.
Proof. apply length_filter. Qed.

Lemma starts_row_app vs ws : starts_row vs → starts_row ws → starts_row (vs ++ ws).
Proof. by destruct vs. Qed.

Lemma end_room rn vs n : Forall levels_ok vs → row_room rn (length vs + n) → row_room (end_rn rn vs) n.
Proof.
  revert rn. induction vs as [|v vs IH]; intros rn Hf Hr; simpl in *; [done|]. apply Forall_cons in Hf as [[Hv Hd] Hf]. apply IH; [done|]. by apply next_room.
Qed.

Lemma end_row0 rn vs : Forall levels_ok vs → row_room rn (length vs) → row0 (end_rn rn vs) = (row0 rn + Z.of_nat (row_starts vs))%Z.
Proof.
  revert rn. induction vs as [|v vs IH]; intros rn Hf Hr; [unfold row_starts; simpl; lia|]. apply Forall_cons in Hf as [[Hv Hd] Hf]. simpl. rewrite IH; [|done|by apply next_room].
  rewrite (next_row0 rn (length vs)) by done. rewrite starts_cons. case_decide; lia.
Qed.

(** Only the row matters when a row starts. *)
Lemma assign_start rn rn' vs : starts_row vs → row0 rn = row0 rn' → length rn = 6 → length rn' = 6 → assign rn vs = assign rn' vs.
Proof. destruct vs as [|v vs]; [done|]. simpl. intros -> Hh Hl Hl'. by rewrite (next_start rn rn'). Qed.

Lemma row0_room rn n : row_room rn n → (-1 ≤ row0 rn ∧ row0 rn + Z.of_nat n < max_int64)%Z.
Proof. intros [Hl Hf]. destruct rn as [|x rn]; [done|]. by apply Forall_cons in Hf as [? _]. Qed.

Lemma assign_rows rn vs x : x ∈ assign rn vs → Forall levels_ok vs → row_room rn (length vs) →
  row_room x.1 0 ∧ (row0 rn ≤ row0 x.1 ≤ row0 rn + Z.of_nat (row_starts vs))%Z ∧ (starts_row vs → row0 rn < row0 x.1)%Z ∧ x.2 ∈ vs ∧ ∀ d, d < 6 → row_le d rn x.1.
Proof.
  revert rn. induction vs as [|v vs IH]; intros rn Hx Hf Hr; simpl in Hx; [by apply elem_of_nil in Hx|]. apply Forall_cons in Hf as [[Hv Hd] Hf].
  pose proof (next_room rn _ _ _ Hr Hv Hd) as Hroom. pose proof (next_row0 rn _ _ _ Hr Hv Hd) as H0. pose proof (next_le rn _ _ _ Hr Hv Hd) as Hle. rewrite starts_cons.
  apply elem_of_cons in Hx as [->|Hx]; simpl.
  - split; [by apply (row_room_le _ (length vs)); [lia|]|]. split; [rewrite H0; case_decide; lia|]. split; [intros E; rewrite H0, decide_True by done; lia|]. split; [by left|done].
  - destruct (IH _ Hx Hf Hroom) as (H1 & H2 & H3 & H4 & H5). split; [done|]. split; [rewrite H0 in H2; case_decide; lia|]. split; [intros E; rewrite H0, decide_True in H2 by done; lia|]. split; [by right|].
    intros d Hd6. destruct Hr as [Hl _], Hroom as [Hl' _], H1 as [Hl'' _]. apply (row_le_trans d _ (rn_Next rn (v_RepetitionLevel v) (v_DefinitionLevel v))); unfold is_row; try lia; [done|by apply H5].
Qed.

Lemma assign_sorted d rn vs : d < 6 → Forall levels_ok vs → row_room rn (length vs) → StronglySorted (λ x y, row_le d x.1 y.1) (assign rn vs).
Proof.
  intros Hd6. revert rn. induction vs as [|v vs IH]; intros rn Hf Hr; simpl; [constructor|]. apply Forall_cons in Hf as [[Hv Hd] Hf].
  pose proof (next_room rn _ _ _ Hr Hv Hd) as Hroom. constructor; [by apply IH|]. apply Forall_forall. intros x Hx. simpl. by apply (assign_rows _ _ _ Hx Hf Hroom).
Qed.

(** Values that are passed over as rows. *)
Lemma kept_skip test rn vs ws : Forall levels_ok vs → row_room rn (length vs + length ws) → starts_row ws →
  kept test rn (vs ++ ws) = kept test rn vs ++ kept test (rn_Skip rn (Z.of_nat (row_starts vs))) ws.
Proof.
  intros Hf Hr Hs. rewrite kept_app. f_equal. unfold kept. f_equal. pose proof (starts_le vs) as Hle. pose proof (row0_room _ _ Hr). apply assign_start; [done| | |].
  - rewrite end_row0; [|done|by apply (row_room_le _ (length vs + length ws)); [lia|]]. destruct Hr as [Hl _]. by rewrite skip_row0 by lia.
  - by destruct (end_room rn vs (length ws) Hf Hr).
  - destruct Hr as [Hl _]. destruct rn; [done|]. simpl in *. by rewrite length_fmap.
Qed.

Lemma kept_none test rn vs : Forall (λ v, test v = false) vs → kept test rn vs = [].
Proof.
  intros Hf. unfold kept. revert rn. induction vs as [|v vs IH]; intros rn; simpl; [done|]. apply Forall_cons in Hf as [Hv Hf]. rewrite filter_cons_False; [by apply IH|]. simpl. by rewrite Hv.
Qed.
End Reports.

(** ** The goroutine loses nothing *)

Section Dropping.
Context {V : Type}.
Implicit Types (hint : option RowNumber) (l : list (RowNumber * V)).

(** What a seek lets the goroutine drop: rows before the one sought. *)
Definition low hint (x : RowNumber * V) : Prop := match hint with None => False | Some to => row_lt 0 x.1 to end.
#[export] Instance low_dec hint x : Decision (low hint x).
Proof. unfold low. destruct hint; apply _. Defined.

Definition dropped hint l l' : Prop := sublist l' l ∧ filter (λ x, ¬ low hint x) l' = filter (λ x, ¬ low hint x) l.

#[export] Instance dropped_pre hint : PreOrder (dropped hint).
Proof. split; [by intros l; split|]. intros l1 l2 l3 [S1 E1] [S2 E2]. split; [by transitivity l2|by rewrite E2]. Qed.

Lemma dropped_app hint l1 l2 k1 k2 : dropped hint l1 k1 → dropped hint l2 k2 → dropped hint (l1 ++ l2) (k1 ++ k2).
Proof. intros [S1 E1] [S2 E2]. split; [by apply sublist_app|]. by rewrite !filter_app, E1, E2. Qed.

Lemma dropped_all hint l : Forall (low hint) l → dropped hint l [].
Proof. intros Hf. split; [apply sublist_nil_l|]. rewrite Forall_forall in Hf. rewrite (filter_none _ l); [done|]. intros x Hx Hn. by apply Hn, Hf. Qed.

Lemma dropped_same hint l l' : Forall (λ x, ¬ low hint x) l → dropped hint l l' → l' = l.
Proof.
  intros Hf [Hs He]. rewrite Forall_forall in Hf. rewrite !filter_all in He; [done|done|]. intros x Hx. apply Hf. eapply elem_of_submseteq; [exact Hx|]. by apply sublist_submseteq.
Qed.
End Dropping.

Section Producer.
Context {P V : Type} `{PqValue V} {le : V → V → Prop} `{PredicateOk P V le} (test : V → bool).
Implicit Types (p : producer P V) (hint : option RowNumber).

Definition pr_vals p : list V :=
  match pr_reads p with Some rs => read_vals rs | None => [] end ++ match pr_pages p with Some ps => pages_vals ps | None => [] end ++ groups_vals (pr_groups p).

Definition data_item (it : columnIteratorBuffer V) : Prop := match it with inl b => b ≠ [] | inr _ => False end.
Definition buf_list (it : columnIteratorBuffer V) : list (RowNumber * V) := match it with inl b => b | inr _ => [] end.

Record pr_ok p : Prop := {
  ok_pending : Forall data_item (pr_pending p);
  ok_reads : match pr_reads p with Some rs => reads_ok rs | None => True end;
  ok_pages : match pr_pages p with Some ps => Forall (page_ok le) ps | None => True end;
  ok_groups : Forall (chunk_ok le) (pr_groups p);
  ok_levels : Forall levels_ok (pr_vals p);
  ok_room : row_room (pr_rn p) (length (pr_vals p));
  ok_start : (0 ≤ row0 (pr_rn p))%Z ∨ starts_row (pr_vals p);
  ok_filter : p_state (pr_filter p) ∧ p_keeps (pr_filter p) = test }.

(** What is still to be sent. *)
Definition emit p : list (RowNumber * V) := concat (buf_list <$> pr_pending p) ++ kept test (pr_rn p) (pr_vals p).

Definition hint_ok hint : Prop := match hint with Some to => length to = 6 | None => True end.

Lemma pages_start ps : Forall (page_ok le) ps → starts_row (pages_vals ps).
Proof.
  unfold pages_vals. induction 1 as [|[pg|e] ps Hp _ IH]; [done| |done]. csimpl. destruct Hp as (_ & Hs & _). by apply starts_row_app.
Qed.

Lemma groups_start gs : Forall (chunk_ok le) gs → starts_row (groups_vals gs).
Proof.
  unfold groups_vals. induction 1 as [|g gs Hg _ IH]; [done|]. csimpl. apply starts_row_app; [|done]. by apply pages_start, Hg.
Qed.

Lemma read_values_spec vs : ∀ rn (f : InstrumentedPredicate P), p_state f → p_keeps f = test →
  ∃ f', read_values rn f vs = (end_rn rn vs, f', kept test rn vs) ∧ p_state f' ∧ p_keeps f' = test.
Proof.
  induction vs as [|v vs IH]; intros rn f Hs Hk; cbn [read_values]; [by exists f|]. pose proof (keep_value_test f v Hs) as Hv. destruct (keep_value_state f v Hs) as [Hs1 Hk1].
  destruct (KeepValue f v) as [b f1]. cbn [fst snd] in *. rewrite Hk in *. destruct (IH (rn_Next rn (v_RepetitionLevel v) (v_DefinitionLevel v)) f1 Hs1 Hk1) as (f2 & -> & Hs2 & Hk2).
  exists f2. split; [|done]. unfold kept. cbn [assign]. rewrite filter_cons. cbn [snd]. subst b. destruct (test v); by case_decide.
Qed.

Lemma skip_dropped hint rn vs ws : Forall levels_ok vs → row_room rn (length vs + length ws) → starts_row ws → hint_ok hint →
  checkSkip hint rn (Z.of_nat (row_starts vs)) = true ∨ Forall (λ v, test v = false) vs →
  dropped hint (kept test rn (vs ++ ws)) (kept test (rn_Skip rn (Z.of_nat (row_starts vs))) ws).
Proof.
  intros Hf Hr Hs Hh Hc. rewrite kept_skip by done. rewrite <- (app_nil_l (kept test (rn_Skip _ _) ws)). apply dropped_app; [|done].
  destruct Hc as [Hc|Hc]; [|by rewrite kept_none]. apply dropped_all. unfold checkSkip in Hc. destruct hint as [to|]; [|done]. apply Z.eqb_eq in Hc. simpl in Hh.
  pose proof (row0_room _ _ Hr) as Hr0. pose proof (starts_le vs) as Hle. assert (Hlen : length rn = 6) by (by destruct Hr).
  apply Forall_forall. intros x [_ Hx]%list_elem_of_filter. destruct (assign_rows _ _ _ Hx Hf) as ((Hl & _) & Hx0 & _); [by apply (row_room_le _ (length vs + length ws)); [lia|]|].
  simpl. apply compare_row0; [done|done|]. apply compare_row0 in Hc; [|destruct rn; [done|]; simpl in *; by rewrite length_fmap|done].
  rewrite skip_row0 in Hc by lia. lia.
Qed.

(** The state after rows are passed over. *)
Lemma skip_ok hint p vs f ps gs : pr_ok p → pr_pending p = [] → pr_vals p = vs ++ pr_vals (mkProducer (pr_rn p) f [] None ps gs) →
  (match ps with Some ps => Forall (page_ok le) ps | None => True end) → Forall (chunk_ok le) gs → p_state f ∧ p_keeps f = test → hint_ok hint →
  checkSkip hint (pr_rn p) (Z.of_nat (row_starts vs)) = true ∨ Forall (λ v, test v = false) vs →
  let p' := mkProducer (rn_Skip (pr_rn p) (Z.of_nat (row_starts vs))) f [] None ps gs in pr_ok p' ∧ dropped hint (emit p) (emit p').
Proof.
  intros Hp Hpend Hv Hps Hgs Hff Hh Hc. destruct Hp as [_ _ _ _ Hl Hr _ _]. set (ws := pr_vals (mkProducer (pr_rn p) f [] None ps gs)) in *.
  rewrite Hv in Hl, Hr. rewrite length_app in Hr. apply Forall_app in Hl as [Hlv Hlw]. assert (Hs : starts_row ws).
  { unfold ws, pr_vals. simpl. destruct ps; simpl; [apply starts_row_app; [by apply pages_start|]|]; by apply groups_start. }
  pose proof (row0_room _ _ Hr) as Hr0. pose proof (starts_le vs) as Hle. split.
  - constructor; simpl; try done; [|by right]. apply skip_room. apply (row_room_le _ (length vs + length ws)); [|done]. change (pr_vals _) with ws. lia.
  - unfold emit. rewrite Hpend, Hv. simpl. change (pr_vals (mkProducer _ _ _ _ _ _)) with ws. by apply skip_dropped.
Qed.

(** The state after a read. *)
Lemma after_read_ok p r rs : pr_ok p → pr_pending p = [] → pr_reads p = Some (r :: rs) →
  pr_ok (after_read p r rs) ∧ emit (after_read p r rs) = emit p ∧ work (after_read p r rs) < work p.
Proof.
  intros [_ Hre Hpa Hgr Hl Hr Hst Hff] Hpend Hreads. unfold after_read. destruct r as [vs e]. rewrite Hreads in Hre. apply Forall_cons in Hre as [He Hre]. simpl in He.
  cbn [fst snd]. destruct (read_values_spec vs (pr_rn p) (pr_filter p)) as (f' & -> & Hff'); [by apply Hff..|]. set (data := match kept test (pr_rn p) vs with [] => [] | _ => [inl (kept test (pr_rn p) vs)] end).
  assert (Hdata : Forall data_item data ∧ concat (buf_list <$> data) = kept test (pr_rn p) vs ∧ length data ≤ 1).
  { unfold data. destruct (kept test (pr_rn p) vs) as [|x b]; [split_and!; [constructor|done|simpl; lia]|]. split_and!; [by repeat constructor|simpl; by rewrite app_nil_r|simpl; lia]. }
  clearbody data. destruct Hdata as (Hd1 & Hd2 & Hd3).
  assert (Hgen : ∀ rd, (match rd with Some rs => reads_ok rs | None => True end) → pr_vals p = vs ++ pr_vals (mkProducer (end_rn (pr_rn p) vs) f' data rd (pr_pages p) (pr_groups p)) →
    length data + match rd with Some rs => 1 + 3 * length rs | None => 0 end < 1 + 3 * length ((vs, e) :: rs) →
    let p' := mkProducer (end_rn (pr_rn p) vs) f' data rd (pr_pages p) (pr_groups p) in pr_ok p' ∧ emit p' = emit p ∧ work p' < work p).
  { intros rd Hrd Hv Hw p'. change (pr_vals p = vs ++ pr_vals p') in Hv. rewrite Hv in Hl, Hr, Hst. rewrite length_app in Hr. apply Forall_app in Hl as [Hlv Hlw]. split_and!.
    - constructor; simpl; try done; [by apply end_room|]. fold p'. pose proof (row0_room _ _ Hr). rewrite end_row0 by (first [done|by apply (row_room_le _ (length vs + length (pr_vals p'))); [lia|]]).
      destruct Hst as [Hst|Hst]; [left; lia|]. destruct vs as [|v vs]; [by right|]. left. simpl in Hst. rewrite starts_cons, decide_True by done. lia.
    - unfold emit. rewrite Hv, Hpend. simpl. rewrite Hd2. by rewrite kept_app.
    - unfold work, p'. rewrite Hpend, Hreads. simpl. simpl in Hw. destruct rd; lia. }
  destruct e as [[|e]|].
  - apply Hgen; [done| |simpl; lia]. unfold pr_vals. by rewrite Hreads.
  - by destruct (He e).
  - apply Hgen; [done| |simpl; lia]. unfold pr_vals. rewrite Hreads. simpl. by rewrite <- app_assoc.
Qed.

(** The same values at the same row. *)
Lemma same_ok p rn f rd ps gs : pr_ok p → rn = pr_rn p → pr_vals (mkProducer rn f [] rd ps gs) = pr_vals p → pr_pending p = [] →
  (match rd with Some rs => reads_ok rs | None => True end) → (match ps with Some ps => Forall (page_ok le) ps | None => True end) → Forall (chunk_ok le) gs →
  p_state f ∧ p_keeps f = test → let p' := mkProducer rn f [] rd ps gs in pr_ok p' ∧ emit p' = emit p.
Proof.
  intros [_ _ _ _ Hl Hr Hst _] -> Hv Hpend Hrd Hps Hgs Hff. split; [|unfold emit; rewrite Hpend; simpl; by rewrite Hv].
  constructor; simpl; rewrite ?Hv; done.
Qed.

Lemma dropped_eq hint (l l' : list (RowNumber * V)) : l' = l → dropped hint l l'.
Proof. by intros ->. Qed.

Lemma column_walk_spec hint p : pr_ok p → pr_pending p = [] → hint_ok hint →
  match walk hint p with
  | Some p' => pr_ok p' ∧ dropped hint (emit p) (emit p') ∧ work p' < work p
  | None => emit p = [] ∧ work p = 0
  end.
Proof.
  intros Hp Hpend Hh. pose proof Hp as [_ Hre Hpa Hgr _ _ _ Hff]. unfold walk. destruct (pr_reads p) as [[|r rs]|] eqn:Er.
  - destruct (same_ok p (pr_rn p) (pr_filter p) None (pr_pages p) (pr_groups p)) as [H3 H4]; try done; [unfold pr_vals; by rewrite Er|].
    split; [done|]. split; [by apply dropped_eq|]. unfold work. rewrite Hpend, Er. simpl. lia.
  - destruct (after_read_ok p r rs) as (H3 & H4 & H5); try done. split; [done|]. split; [by apply dropped_eq|done].
  - destruct (pr_pages p) as [[|[pg|e] ps]|] eqn:Ep.
    + destruct (same_ok p (pr_rn p) (pr_filter p) None None (pr_groups p)) as [H3 H4]; try done; [unfold pr_vals; by rewrite Er, Ep|].
      split; [done|]. split; [by apply dropped_eq|]. unfold work. rewrite Hpend, Er, Ep. simpl. lia.
    + apply Forall_cons in Hpa as [Hpg Hps]. pose proof Hpg as (Hrd & _ & Hn & _ & Hin). unfold on_page. rewrite Hn. cbv zeta.
      assert (Hv : pr_vals p = read_vals (pg_Reads pg) ++ pr_vals (mkProducer (pr_rn p) (pr_filter p) [] None (Some ps) (pr_groups p))).
      { unfold pr_vals. rewrite Er, Ep. unfold pages_vals. simpl. by rewrite app_assoc. }
      assert (Hw : ∀ rn (f : InstrumentedPredicate P), work (mkProducer rn f [] None (Some ps) (pr_groups p)) < work p) by (intros rn f; unfold work, pages_work; rewrite Hpend, Er, Ep; simpl; lia).
      destruct (checkSkip hint (pr_rn p) _) eqn:Ec.
      { destruct (skip_ok hint p _ (pr_filter p) (Some ps) (pr_groups p) Hp Hpend Hv) as [H3 H4]; try done; by left. }
      pose proof (keep_page_sound (pr_filter p) pg) as Hsound. destruct (keep_page_state (pr_filter p) pg) as [Hs1 Hk1]; [by apply Hff|].
      destruct (KeepPage (pr_filter p) pg) as [b f']. destruct Hff as [Hs Hk]. cbn [fst snd] in *. rewrite Hk in Hk1, Hsound. destruct b.
      * destruct (same_ok p (pr_rn p) f' (Some (pg_Reads pg)) (Some ps) (pr_groups p)) as [H3 H4]; try done.
        split; [done|]. split; [by apply dropped_eq|]. unfold work, pages_work. rewrite Hpend, Er, Ep. simpl. lia.
      * destruct (skip_ok hint p _ f' (Some ps) (pr_groups p) Hp Hpend Hv) as [H3 H4]; try done.
        right. eapply Forall_impl; [exact Hin|]. intros v Hv'. destruct (test v) eqn:Et; [|done]. by discriminate (Hsound v Hs Hv' Et).
    + by apply Forall_cons in Hpa as [[] _].
    + destruct (pr_groups p) as [|[n cc] gs] eqn:Eg.
      { split; [unfold emit, pr_vals; by rewrite Hpend, Er, Ep, Eg|unfold work; by rewrite Hpend, Er, Ep, Eg]. }
      apply Forall_cons in Hgr as [Hcc Hgs]. pose proof Hcc as (Hpgs & Hn & Hin). cbn [fst snd] in *. unfold on_group. rewrite Hn. cbv zeta.
      assert (Hv : pr_vals p = pages_vals (cc_Pages cc) ++ pr_vals (mkProducer (pr_rn p) (pr_filter p) [] None None gs)).
      { unfold pr_vals. rewrite Er, Ep, Eg. done. }
      assert (Hw : ∀ rn (f : InstrumentedPredicate P), work (mkProducer rn f [] None None gs) < work p) by (intros rn f; unfold work, pages_work; rewrite Hpend, Er, Ep, Eg; simpl; lia).
      destruct (checkSkip hint (pr_rn p) _) eqn:Ec.
      { destruct (skip_ok hint p _ (pr_filter p) None gs Hp Hpend Hv) as [H3 H4]; try done; by left. }
      pose proof (keep_chunk_sound (pr_filter p) cc) as Hsound. destruct (keep_chunk_state (pr_filter p) cc) as [Hs1 Hk1]; [by apply Hff|].
      destruct (KeepColumnChunk (pr_filter p) cc) as [b f']. destruct Hff as [Hs Hk]. cbn [fst snd] in *. rewrite Hk in Hk1, Hsound. destruct b.
      * destruct (same_ok p (pr_rn p) f' None (Some (cc_Pages cc)) gs) as [H3 H4]; try done.
        split; [done|]. split; [by apply dropped_eq|]. unfold work, pages_work. rewrite Hpend, Er, Ep, Eg. simpl. lia.
      * destruct (skip_ok hint p _ f' None gs Hp Hpend Hv) as [H3 H4]; try done.
        right. eapply Forall_impl; [exact Hin|]. intros v Hv'. destruct (test v) eqn:Et; [|done]. by discriminate (Hsound v Hs Hv' Et).
Qed.

(** ** The two sides together *)

Context {R : Type}.
Implicit Types (c : ColumnIterator P V R) (l : list (RowNumber * V)).

Definition rest_of_curr c : list (RowNumber * V) := match ci_curr c with Some b => drop (S (ci_currN c)) b | None => [] end.
Definition in_channel c : list (RowNumber * V) := match ci_ch c with Some it => buf_list it | None => [] end.
Definition full c : list (RowNumber * V) := rest_of_curr c ++ in_channel c ++ emit (ci_producer c).

Record col_ok c : Prop := {
  co_producer : pr_ok (ci_producer c);
  co_ch : match ci_ch c with Some it => data_item it | None => True end;
  co_closed : ci_chClosed c = true → emit (ci_producer c) = [];
  co_quit : ci_quit c = false;
  co_hint : hint_ok (ci_seekTo c) }.

(** What the goroutine does not touch. *)
Definition consumer c := (ci_seekTo c, ci_quit c, ci_selectAs c, ci_curr c, ci_currN c, ci_result c, ci_err c).
Definition steps_left c : nat := work (ci_producer c) + if ci_chClosed c then 0 else 1.

Lemma step_spec b c : col_ok c →
  let c' := iterate_step b c in col_ok c' ∧ dropped (ci_seekTo c) (full c) (full c') ∧ consumer c' = consumer c ∧
    (ci_ch c = None → ci_chClosed c = false → steps_left c' < steps_left c).
Proof.
  intros Hc. pose proof Hc as [Hp Hch Hcl Hq Hh]. unfold iterate_step. destruct (ci_chClosed c) eqn:Ecl; [by split_and!|].
  destruct (pr_pending (ci_producer c)) as [|it rest] eqn:Epend.
  - pose proof (column_walk_spec (ci_seekTo c) (ci_producer c) Hp Epend Hh) as Hw. destruct (walk (ci_seekTo c) (ci_producer c)) as [p'|].
    + destruct Hw as (Hp' & Hd & Hw). split; [by constructor|]. split; [unfold full, rest_of_curr, in_channel; simpl; apply dropped_app; [reflexivity|]; apply dropped_app; [reflexivity|done]|].
      split; [done|]. intros _ _. unfold steps_left. rewrite Ecl. simpl. lia.
    + destruct Hw as [He Hw]. split; [by constructor|]. split; [done|]. split; [done|]. intros _ _. unfold steps_left. rewrite Ecl. simpl. lia.
  - pose proof Hp as [Hd]. rewrite Epend in Hd. apply Forall_cons in Hd as [Hit Hrest]. destruct it as [buf|]; [|done]. rewrite Hq. cbn [andb].
    destruct (ci_ch c) eqn:Ech; [by split_and!|]. set (p' := mkProducer _ _ rest _ _ _). assert (He : emit (ci_producer c) = buf ++ emit p') by (unfold emit; rewrite Epend; simpl; by rewrite <- app_assoc).
    split; [constructor; simpl; try done; by destruct Hp|]. split; [|split; [done|]].
    + apply dropped_eq. unfold full, rest_of_curr, in_channel. simpl. by rewrite He, Ech.
    + intros _ _. unfold steps_left. rewrite Ecl. simpl. unfold work, p'. rewrite Epend. simpl. lia.
Qed.

Lemma steps_spec bs : ∀ c, col_ok c → let c' := iterate_steps bs c in col_ok c' ∧ dropped (ci_seekTo c) (full c) (full c') ∧ consumer c' = consumer c.
Proof.
  induction bs as [|b bs IH]; intros c Hc; [by split_and!|]. destruct (step_spec b c Hc) as (Hc1 & Hd1 & E1 & _). destruct (IH _ Hc1) as (Hc2 & Hd2 & E2). simpl in *.
  split; [done|]. split; [|by rewrite E2]. assert (Es : ci_seekTo (iterate_step b c) = ci_seekTo c) by (unfold consumer in E1; congruence). rewrite Es in Hd2. by transitivity (full (iterate_step b c)).
Qed.

Lemma scheduled_spec c : col_ok c → let c' := scheduled c in col_ok c' ∧ dropped (ci_seekTo c) (full c) (full c') ∧ consumer c' = consumer c.
Proof. intros Hc. unfold scheduled. destruct (ci_schedule c) as [|s ss]; [by split_and!|]. 
  match goal with |- context[iterate_steps s ?c0] => change (let c' := iterate_steps s c0 in col_ok c' ∧ dropped (ci_seekTo c0) (full c0) (full c') ∧ consumer c' = consumer c0) end.
  apply steps_spec. destruct Hc. by constructor.
Qed.

Lemma receive_spec fuel : ∀ c, col_ok c → ci_curr c = None → steps_left c < fuel →
  ∃ it c', receive fuel c = Ret (it, c') ∧ col_ok c' ∧ consumer c' = consumer c ∧
    match it with
    | Some (inl b) => b ≠ [] ∧ dropped (ci_seekTo c) (full c) (b ++ full c')
    | Some (inr _) => False
    | None => dropped (ci_seekTo c) (full c) [] ∧ full c' = []
    end.
Proof.
  induction fuel as [|fuel IH]; intros c Hc Hcurr Hf; [lia|]. pose proof Hc as [Hp Hch Hcl Hq Hh]. cbn [receive]. destruct (ci_ch c) as [it|] eqn:Ech.
  - destruct it as [b|]; [|done]. eexists _, _. split; [done|]. split; [by constructor|]. split; [done|]. split; [done|].
    apply dropped_eq. unfold full, rest_of_curr, in_channel. simpl. by rewrite Hcurr, Ech.
  - destruct (ci_chClosed c) eqn:Ecl.
    + exists None, c. split; [done|]. split; [done|]. split; [done|]. assert (Hf0 : full c = []); [|by rewrite Hf0]. unfold full, rest_of_curr, in_channel. by rewrite Hcurr, Ech, Hcl.
    + destruct (step_spec false c Hc) as (Hc1 & Hd1 & E1 & Hlt). specialize (Hlt Ech Ecl).
      assert (Es : ci_seekTo (iterate_step false c) = ci_seekTo c) by (unfold consumer in E1; congruence). assert (Ec : ci_curr (iterate_step false c) = None) by (unfold consumer in E1; congruence).
      destruct (IH (iterate_step false c)) as (it & c' & Hr & Hc2 & E2 & Hit); [done|done|lia|]. rewrite Es in Hit. exists it, c'. split; [done|]. split; [done|]. split; [by rewrite E2|].
      destruct it as [[b|]|]; [|done|].
      * destruct Hit as [Hb Hd]. split; [done|]. by transitivity (full (iterate_step false c)).
      * destruct Hit as [Hd Hn]. split; [|done]. by transitivity (full (iterate_step false c)).
Qed.

(** One row from the buffer or the channel. *)
Definition next_result c (res : outcome (option (RowNumber * V) * ColumnIterator P V R)) : Prop :=
  ∃ x c', res = Ret (x, c') ∧ col_ok c' ∧ ci_seekTo c' = ci_seekTo c ∧ ci_selectAs c' = ci_selectAs c ∧
    match x with Some y => dropped (ci_seekTo c) (full c) (y :: full c') | None => dropped (ci_seekTo c) (full c) [] ∧ full c' = [] end.

Lemma next_buffer_spec c : col_ok c → rest_of_curr c = [] → next_result c (next_buffer c).
Proof.
  intros Hc Hr. unfold next_buffer. set (c0 := with_curr c (ci_ch c) None (ci_currN c) (ci_err c)). assert (Hc0 : col_ok c0) by (destruct Hc; by constructor).
  assert (Hfull : full c0 = full c) by (unfold full; by rewrite Hr).
  destruct (receive_spec (S (S (work (ci_producer c)))) c0 Hc0 eq_refl) as (it & c' & Hrec & Hc' & E & Hit); [unfold steps_left; simpl; case_match; lia|].
  rewrite Hrec. cbn [obind]. injection E as Es Eq Ea Ec En Eres Eerr. rewrite Hfull in Hit. change (ci_seekTo c0) with (ci_seekTo c) in *. change (ci_curr c0) with (@None (list (RowNumber * V))) in Ec.
  destruct it as [[[|y b]|]|]; [by destruct Hit|destruct Hit as [_ Hd]|done|].
  - eexists _, _. split; [done|]. split; [destruct Hc'; by constructor|]. split; [done|]. split; [done|].
    assert (Hf : full c' = in_channel c' ++ emit (ci_producer c')) by (unfold full, rest_of_curr; by rewrite Ec). rewrite Hf in Hd. unfold full, rest_of_curr. simpl. by rewrite drop_0.
  - destruct Hit as [Hd Hn]. exists None, c'. split; [done|]. split; [done|]. split; [done|]. by split.
Qed.

Lemma column_next_spec c : col_ok c → Forall (λ x, rn_Valid x.1 = true) (full c) → next_result c (column_next c).
Proof.
  intros Hc Hv. unfold column_next. destruct (scheduled_spec c Hc) as (Hc1 & Hd & E). set (c1 := scheduled c) in *. injection E as Es Eq Ea Ec En Eres Eerr.
  assert (Hnext : ∀ res, next_result c1 res → next_result c res).
  { intros res (x & c' & -> & Hc' & Es' & Ea' & Hx). exists x, c'. split; [done|]. split; [done|]. split; [by rewrite Es'|]. split; [by rewrite Ea'|].
    rewrite Es in Hx. destruct x as [y|]; [by transitivity (full c1)|]. destruct Hx as [Hx Hn]. split; [by transitivity (full c1)|done]. }
  apply Hnext. destruct (ci_curr c1) as [buf|] eqn:Ecurr; [|apply next_buffer_spec; [done|]; unfold rest_of_curr; by rewrite Ecurr].
  destruct (buf !! S (ci_currN c1)) as [[t v]|] eqn:El.
  - assert (Hr : rest_of_curr c1 = (t, v) :: drop (S (S (ci_currN c1))) buf) by (unfold rest_of_curr; rewrite Ecurr; by apply drop_S).
    assert (Ht : rn_Valid t = true).
    { rewrite Forall_forall in Hv. apply (Hv (t, v)). eapply elem_of_submseteq; [|apply sublist_submseteq, Hd]. unfold full. rewrite Hr. by left. }
    rewrite Ht. eexists _, _. split; [done|]. split; [destruct Hc1; by constructor|]. split; [done|]. split; [done|].
    apply dropped_eq. unfold full. by rewrite Hr.
  - apply next_buffer_spec; [done|]. unfold rest_of_curr. rewrite Ecurr. by apply drop_ge, lookup_ge_None.
Qed.

(** ** The list a column stands for *)

Definition row_result (selectAs : string) (x : RowNumber * V) : IteratorResult V R :=
  mkResult x.1 (if String.eqb selectAs "" then [] else [mkEntry selectAs x.2 None]).

Definition column_view (d : nat) c (l : list (IteratorResult V R)) : Prop :=
  col_ok c ∧ l = row_result (ci_selectAs c) <$> full c ∧ rows_ok d l ∧ Forall (λ x, ¬ low (ci_seekTo c) x) (full c).

Lemma view_valid d (s : string) l : rows_ok d (row_result s <$> l) → Forall (λ x, rn_Valid x.1 = true) l.
Proof. intros [Hg _]. rewrite Forall_fmap in Hg. eapply Forall_impl; [exact Hg|]. by intros x (_ & Hx & _). Qed.

Lemma makeResult_row c x : makeResult c x.1 x.2 = row_result (ci_selectAs c) x.
Proof. unfold makeResult, row_result. by destruct (String.eqb _ _). Qed.

Lemma column_view_nil d c : col_ok c → full c = [] → column_view d c [].
Proof. intros Hc Hf. unfold column_view. rewrite Hf. split; [done|]. split; [done|]. split; [split; constructor|constructor]. Qed.

Lemma column_Next_spec d c (l : list (IteratorResult V R)) : column_view d c l →
  match l with
  | [] => ∃ c', column_Next c = Ret (false, c') ∧ column_view d c' []
  | x :: l => ∃ c', column_Next c = Ret (true, c') ∧ ci_result c' = Some x ∧ column_view d c' l
  end.
Proof.
  intros (Hc & Hl & Hr & Hh). rewrite Hl in Hr. pose proof (view_valid _ _ _ Hr) as Hval. destruct (column_next_spec c Hc Hval) as (x & c' & He & Hc' & Es & Ea & Hx).
  unfold column_Next. rewrite He. cbn [obind]. destruct x as [[t v]|].
  - apply dropped_same in Hx; [|done]. rewrite <- Hx in *. subst l. csimpl. apply Forall_cons in Hval as [Hval _]. cbn [fst] in Hval. rewrite Hval.
    apply Forall_cons in Hh as [_ Hh]. eexists. split; [done|]. split; [by rewrite <- Ea, <- makeResult_row|].
    split; [destruct Hc'; by constructor|]. split; [by rewrite <- Ea|]. split; [by eapply rows_ok_tail|]. simpl. by rewrite Es.
  - destruct Hx as [Hx Hn]. apply dropped_same in Hx; [|done]. rewrite <- Hx in Hl. subst l. simpl. eexists. split; [done|].
    apply column_view_nil; [destruct Hc'; by constructor|exact Hn].
Qed.

Lemma sublist_sorted {A} (Q : relation A) (l k : list A) : sublist l k → StronglySorted Q k → StronglySorted Q l.
Proof.
  induction 1 as [|x l k Hs IH|x l k Hs IH]; intros Hk; [done| |]; apply StronglySorted_inv in Hk as [Hk Hx]; [|by apply IH].
  constructor; [by apply IH|]. rewrite Forall_forall in Hx |- *. intros y Hy. apply Hx. eapply elem_of_submseteq; [exact Hy|by apply sublist_submseteq].
Qed.

(** What a seek drops it would have passed over. *)
Lemma from_dropped (s : string) to l l' : dropped (Some (rl_RowNumber to)) l l' →
  from_row to (row_result s <$> l') = from_row to (row_result s <$> l).
Proof.
  intros [_ Hd]. assert (Hf : ∀ k : list (RowNumber * V), from_row to (row_result s <$> k) = from_row to (row_result s <$> filter (λ x, ¬ low (Some (rl_RowNumber to)) x) k)).
  { intros k. unfold from_row. rewrite !filter_map. f_equal. rewrite list_filter_filter. apply filter_ext_in. intros x _. split; [|tauto].
    intros Hb. split; [done|]. intros Hl. apply Hb. unfold below. simpl. by apply row_lt_level. }
  by rewrite (Hf l'), (Hf l), Hd.
Qed.

Lemma seek_loop_spec d to fuel : d < 6 → rl_DefinitionLevel to ≤ d → length (rl_RowNumber to) = 6 → ∀ c, col_ok c → ci_seekTo c = Some (rl_RowNumber to) →
  rows_ok d (row_result (ci_selectAs c) <$> full c) → length (full c) < fuel →
  match from_row to (row_result (ci_selectAs c) <$> full c) with
  | [] => ∃ c', seek_loop fuel to c = Ret (false, c') ∧ column_view d c' []
  | x :: l => ∃ c', seek_loop fuel to c = Ret (true, c') ∧ ci_result c' = Some x ∧ column_view d c' l
  end.
Proof.
  intros Hd Hto Hlen. induction fuel as [|fuel IH]; intros c Hc Hs Hr Hf; [lia|]. cbn [seek_loop].
  destruct (column_next_spec c Hc (view_valid _ _ _ Hr)) as (x & c' & -> & Hc' & Es & Ea & Hx). rewrite Hs in *. cbn [obind]. destruct x as [[t v]|].
  - rewrite <- (from_dropped _ _ _ _ Hx). assert (Hr' : rows_ok d (row_result (ci_selectAs c) <$> (t, v) :: full c')).
    { destruct Hr as [Hg Hsort]. destruct Hx as [Hsub _]. split.
      - apply Forall_fmap. rewrite Forall_fmap in Hg. rewrite Forall_forall in Hg |- *. intros y Hy. apply Hg. eapply elem_of_submseteq; [exact Hy|by apply sublist_submseteq].
      - eapply sublist_sorted; [|exact Hsort]. by apply fmap_sublist. }
    assert (Hlt : length ((t, v) :: full c') ≤ length (full c)) by (apply sublist_length; by destruct Hx).
    rewrite (Forall_inv (view_valid _ _ _ Hr') : rn_Valid t = true). assert (Ht : rows_ok d (row_result (ci_selectAs c) <$> full c')) by exact (rows_ok_tail _ _ _ Hr').
    change (row_result (ci_selectAs c) <$> (t, v) :: full c') with (row_result (ci_selectAs c) (t, v) :: (row_result (ci_selectAs c) <$> full c')) in Hr' |- *.
    assert (Hcmp : below to (row_result (ci_selectAs c) (t, v)) ↔ (CompareRowNumbers (rl_DefinitionLevel to) t (rl_RowNumber to) < 0)%Z).
    { unfold below, row_lt, CompareRowNumbers. simpl ir_RowNumber. pose proof (compare_cases (S (rl_DefinitionLevel to)) t (rl_RowNumber to)). lia. }
    unfold from_row. destruct (Z.ltb_spec (CompareRowNumbers (rl_DefinitionLevel to) t (rl_RowNumber to)) 0) as [Hb|Hb].
    + rewrite filter_cons_False by tauto. rewrite <- Ea in Ht |- *. apply IH; [done|done|done|simpl in *; lia].
    + assert (Hbel : ¬ below to (row_result (ci_selectAs c) (t, v))) by (rewrite Hcmp; lia). rewrite filter_cons_True by done. assert (Hrest : ∀ y, y ∈ row_result (ci_selectAs c) <$> full c' → ¬ below to y).
      { intros y Hy Hby. apply Hbel. assert (Hxy : row_le d t (ir_RowNumber y)) by (apply (rows_after Hd _ _ _ Hr'); by right). unfold below in *. simpl.
        assert (Hly : length (ir_RowNumber y) = 6) by (destruct Ht as [Hg _]; rewrite Forall_forall in Hg; by apply (Hg y)).
        assert (Hlt0 : length t = 6) by (destruct Hr' as [Hg _]; by apply Forall_inv in Hg as [? _]).
        apply (row_le_lt_trans _ _ (ir_RowNumber y)); unfold is_row; try lia; [|done]. by apply (row_le_key d). }
      rewrite filter_all by done. eexists. split; [done|]. split; [by rewrite <- Ea, <- (makeResult_row c' (t, v))|]. split; [destruct Hc'; by constructor|]. split; [by rewrite <- Ea|].
      split; [done|]. simpl. rewrite Es. apply Forall_forall. intros y Hy Hl. apply (Hrest (row_result (ci_selectAs c) y)); [by apply list_elem_of_fmap_2|].
      unfold below. simpl. by apply row_lt_level.
  - destruct Hx as [Hx Hn]. rewrite <- (from_dropped _ _ _ _ Hx). csimpl. eexists. split; [done|].
    apply column_view_nil; [destruct Hc'; by constructor|exact Hn].
Qed.

Lemma full_left c : length (full c) ≤ column_left c.
Proof.
  assert (Hb : ∀ its : list (columnIteratorBuffer V), length (concat (buf_list <$> its)) = sum_list_with buffer_size its).
  { induction its as [|[b|e] its IH]; csimpl; rewrite ?length_app; [done|by rewrite IH|done]. }
  assert (Hr : ∀ rs, length (@read_vals V rs) ≤ reads_size rs).
  { unfold reads_size. induction rs as [|[vs [e|]] rs IH]; simpl; [done|lia|rewrite length_app; lia]. }
  assert (Hp : ∀ ps, length (@pages_vals V ps) ≤ pages_size ps).
  { unfold pages_vals, pages_size. induction ps as [|[pg|e] ps IH]; csimpl; rewrite ?length_app; [done|pose proof (Hr (pg_Reads pg)); lia|done]. }
  assert (Hg : ∀ gs, length (@groups_vals V gs) ≤ sum_list_with (λ g, pages_size (cc_Pages g.2)) gs).
  { unfold groups_vals. induction gs as [|g gs IH]; csimpl; rewrite ?length_app; [done|pose proof (Hp (cc_Pages g.2)); lia]. }
  assert (Hk : ∀ rn vs, length (kept test rn vs) ≤ length vs).
  { intros rn vs. unfold kept. rewrite length_filter. revert rn. induction vs as [|v vs IH]; intros rn; simpl; [done|]. specialize (IH (rn_Next rn (v_RepetitionLevel v) (v_DefinitionLevel v))). lia. }
  unfold full, column_left, emit, rest_of_curr, in_channel. rewrite !length_app, Hb. pose proof (Hk (pr_rn (ci_producer c)) (pr_vals (ci_producer c))) as Hl. unfold pr_vals in Hl at 2.
  rewrite !length_app in Hl. pose proof (Hg (pr_groups (ci_producer c))). set (k := length (kept test _ _)) in *. clearbody k.
  assert (H1' : length (match ci_curr c with Some b => drop (S (ci_currN c)) b | None => [] end) = match ci_curr c with Some b => length b - S (ci_currN c) | None => 0 end) by (destruct (ci_curr c); [apply length_drop|done]).
  assert (H2' : length (match ci_ch c with Some it => buf_list it | None => [] end) = match ci_ch c with Some it => buffer_size it | None => 0 end) by (by destruct (ci_ch c) as [[]|]).
  assert (H3' : length (match pr_reads (ci_producer c) with Some rs => read_vals rs | None => [] end) ≤ match pr_reads (ci_producer c) with Some rs => reads_size rs | None => 0 end) by (by destruct (pr_reads _)).
  assert (H4' : length (match pr_pages (ci_producer c) with Some ps => pages_vals ps | None => [] end) ≤ match pr_pages (ci_producer c) with Some ps => pages_size ps | None => 0 end) by (by destruct (pr_pages _)).
  lia.
Qed.

Lemma column_Seek_spec d c (l : list (IteratorResult V R)) to : d < 6 → column_view d c l → rl_DefinitionLevel to ≤ d → length (rl_RowNumber to) = 6 →
  match from_row to l with
  | [] => ∃ c', column_Seek c to = Ret (false, c') ∧ column_view d c' []
  | x :: l => ∃ c', column_Seek c to = Ret (true, c') ∧ ci_result c' = Some x ∧ column_view d c' l
  end.
Proof.
  intros Hd (Hc & -> & Hr & Hh) Hto Hlen. unfold column_Seek. destruct (scheduled_spec c Hc) as (Hc1 & Hdr & E). set (c1 := scheduled c) in *.
  apply dropped_same in Hdr; [|done]. injection E as Es Eq Ea Ec En Eres Eerr. rewrite <- Hdr, <- Ea in *.
  set (c2 := mkColumn _ (Some (rl_RowNumber to)) _ _ _ _ _ _ _ _ _). apply (seek_loop_spec d to (S (column_left c1)) Hd Hto Hlen c2); [destruct Hc1; by constructor|done|done|].
  change (full c2) with (full c1). pose proof (full_left c1). lia.
Qed.

(** A new iterator stands for the rows of the column that the predicate selects. *)
Definition column_rows (selectAs : string) (gs : list (Z * ColumnChunk V)) : list (IteratorResult V R) :=
  row_result selectAs <$> kept test EmptyRowNumber (groups_vals gs).

Lemma groups_levels gs : Forall (chunk_ok le) gs → Forall levels_ok (groups_vals gs).
Proof.
  intros Hg. rewrite Forall_forall in Hg. apply Forall_forall. intros v (vs & (g & -> & Hin)%list_elem_of_fmap & Hv)%elem_of_concat. destruct (Hg g Hin) as [Hp _].
  unfold pages_vals in Hv. apply elem_of_concat in Hv as (ws & ([pg|e] & -> & Hpg)%list_elem_of_fmap & Hv); [|by apply elem_of_nil in Hv].
  rewrite Forall_forall in Hp. destruct (Hp _ Hpg) as (_ & _ & _ & Hl & _). rewrite Forall_forall in Hl. by apply Hl.
Qed.

Lemma column_rows_ok d selectAs gs : d < 6 → Forall (chunk_ok le) gs → (Z.of_nat (length (groups_vals gs)) ≤ max_int64)%Z → rows_ok d (column_rows selectAs gs).
Proof.
  intros Hd Hg Hlen. pose proof (groups_levels gs Hg) as Hl. assert (Hroom : row_room EmptyRowNumber (length (groups_vals gs))) by (split; [done|]; repeat constructor; lia).
  unfold column_rows, kept. split.
  - apply Forall_fmap, Forall_forall. intros x [_ Hx]%list_elem_of_filter. destruct (assign_rows _ _ _ Hx Hl Hroom) as ([H6 Hf] & _ & Hs & _).
    specialize (Hs (groups_start gs Hg)). change (row0 EmptyRowNumber) with (-1)%Z in Hs. unfold good_row. simpl. split; [done|]. split.
    + destruct (x.1) as [|y t]; [done|]. unfold row0 in Hs. simpl in *. lia.
    + apply compare_row0; [done|done|]. destruct (x.1) as [|y t]; [done|]. apply Forall_inv in Hf. unfold row0, MaxRowNumber. simpl in *. lia.
  - pose proof (assign_sorted d EmptyRowNumber (groups_vals gs) Hd Hl Hroom) as Hs.
    apply (StronglySorted_filter _ (λ x, test x.2 = true)) in Hs. revert Hs. generalize (filter (λ x, test x.2 = true) (assign EmptyRowNumber (groups_vals gs))) as l.
    induction l as [|x l IH]; intros Hs; csimpl; [constructor|]. apply StronglySorted_inv in Hs as [Hs Hx]. constructor; [by apply IH|]. rewrite Forall_fmap. exact Hx.
Qed.

Lemma new_column_view d schedule (filter : option P) selectAs gs : d < 6 → Forall (chunk_ok le) gs → (Z.of_nat (length (groups_vals gs)) ≤ max_int64)%Z →
  opt_state filter → opt_keeps filter = test →
  column_view d (mkColumn (mkProducer EmptyRowNumber (instrumented filter) [] None None gs) None None false false selectAs None 0 None None schedule) (column_rows selectAs gs).
Proof.
  intros Hd Hg Hlen Hs Hk. split; [|split; [done|]; split; [by apply column_rows_ok|apply Forall_true; by intros x []]].
  constructor; try done. constructor; try done.
  - by apply groups_levels.
  - split; [done|]. repeat constructor; try done; unfold pr_vals; simpl; lia.
  - right. by apply groups_start.
Qed.
End Producer.

(** A column is an iterator as joins need them. *)
#[export] Instance column_iterator_ok {P V R} `{PqValue V} {le : V → V → Prop} `{PredicateOk P V le} d (Hd : d < 6) : @SeekIteratorOk (ColumnIterator P V R) V R column_iterator d.
Proof.
  refine (@Build_SeekIteratorOk (ColumnIterator P V R) V R column_iterator d (λ c l, ∃ test, column_view (le := le) test d c l) _ _ _ _).
  - intros c l (test & _ & _ & Hr & _). exact Hr.
  - intros c l (test & Hc & -> & _). rewrite length_fmap. exact (full_left test c).
  - intros c l (test & Hv). pose proof (column_Next_spec test d c l Hv) as Hn. simpl. destruct l as [|x l].
    + destruct Hn as (c' & -> & Hv'). exists c'. split; [done|by exists test].
    + destruct Hn as (c' & -> & Hx & Hv'). exists c'. rewrite Hx. split; [done|]. split; [done|by exists test].
  - intros c l to (test & Hv) Hto Hlen. pose proof (column_Seek_spec test d c l to Hd Hv Hto Hlen) as Hn. simpl. destruct (from_row to l) as [|x l'].
    + destruct Hn as (c' & -> & Hv'). exists c'. split; [done|by exists test].
    + destruct Hn as (c' & -> & Hx & Hv'). exists c'. rewrite Hx. split; [done|]. split; [done|by exists test].
Defined.

(** C25: [ColumnIterator] refines the list of matching rows of the column, under every schedule of the goroutine.  The list has, in
    order, the row number of every value of the row groups (assigned from its repetition and definition levels) whose value the
    predicate selects; chunks and pages that the predicate or a seek skips are counted but lose no row of it.  From any list the
    iterator may stand for, [Next] ends exactly when the list is empty and otherwise returns its first result, [Seek] does so
    from the first row that is not before the one sought; neither waits forever.  The file is read without errors, reports the
    bounds and numbers of rows of its chunks and pages, and has at most 2^63-1 values. *)
Theorem ColumnIterator_correct {P V R} `{PqValue V} {le : V → V → Prop} `{PredicateOk P V le} schedule (rgs : list (RowGroup V)) column (filter : option P) selectAs gs d :
  d < 6 → rgs ≠ [] → column_chunks column rgs = Ret gs → Forall (chunk_ok le) gs → (Z.of_nat (length (groups_vals gs)) ≤ max_int64)%Z → opt_state filter →
  ∃ (c : ColumnIterator P V R) (view : ColumnIterator P V R → list (IteratorResult V R) → Prop),
    NewColumnIterator schedule rgs column filter selectAs = Ret c ∧ view c (column_rows (opt_keeps filter) selectAs gs) ∧
    ∀ j l, view j l → rows_ok d l ∧
      match l with
      | [] => ∃ j', column_Next j = Ret (false, j') ∧ view j' []
      | x :: l => ∃ j', column_Next j = Ret (true, j') ∧ ci_result j' = Some x ∧ view j' l
      end ∧
      ∀ to, rl_DefinitionLevel to ≤ d → length (rl_RowNumber to) = 6 →
        match from_row to l with
        | [] => ∃ j', column_Seek j to = Ret (false, j') ∧ view j' []
        | x :: l => ∃ j', column_Seek j to = Ret (true, j') ∧ ci_result j' = Some x ∧ view j' l
        end.
Proof.
  intros Hd Hne Hgs Hok Hlen Hs. unfold NewColumnIterator. destruct rgs as [|rg rgs]; [done|]. rewrite Hgs. cbn [obind]. eexists _, (column_view (opt_keeps filter) d).
  split; [done|]. split; [by apply new_column_view|]. intros j l Hv. split; [by destruct Hv as (_ & _ & ? & _)|]. split; [by apply column_Next_spec|].
  intros to Hto Hto6. by apply column_Seek_spec.
Qed.

(** ** The end of the goroutine *)

Section Closing.
Context {P V R : Type} `{PqValue V} `{Predicate P V}.
Implicit Types (c : ColumnIterator P V R) (p : producer P V).

(** No read of values that is left fails, and no error is about to be sent. *)
Definition page_quiet (pg : Page V + string) : Prop := match pg with inl pg => reads_ok (pg_Reads pg) | inr _ => True end.
Definition quiet p : Prop :=
  Forall (λ it, ∃ b, it = inl b) (pr_pending p) ∧ (match pr_reads p with Some rs => reads_ok rs | None => True end) ∧
  (match pr_pages p with Some ps => Forall page_quiet ps | None => True end) ∧ Forall (λ g, Forall page_quiet (cc_Pages g.2)) (pr_groups p).

Lemma walk_quiet hint p : quiet p → pr_pending p = [] → match walk hint p with Some p' => quiet p' ∧ work p' < work p | None => True end.
Proof.
  intros (_ & Hre & Hpa & Hgr) Hpend. unfold walk. destruct (pr_reads p) as [[|[vs e] rs]|] eqn:Er.
  - split; [done|]. unfold work. rewrite Hpend, Er. simpl. lia.
  - apply Forall_cons in Hre as [He Hre]. unfold after_read. simpl. destruct (read_values _ _ vs) as [[rn f] buf].
    set (data := match buf with [] => [] | _ => [inl buf] end). assert (Hd : Forall (λ it : columnIteratorBuffer V, ∃ b, it = inl b) data ∧ length data ≤ 1).
    { unfold data. destruct buf; [by split; [constructor|simpl; lia]|]. split; [|done]. repeat constructor. by eexists. }
    destruct Hd as [Hd Hl]. destruct e as [[|e]|]; [|by destruct (He e)|]; (split; [done|]); unfold work; rewrite Hpend, Er; simpl; lia.
  - destruct (pr_pages p) as [[|[pg|e] ps]|] eqn:Ep.
    + split; [done|]. unfold work. rewrite Hpend, Er, Ep. simpl. lia.
    + apply Forall_cons in Hpa as [Hpg Hps]. unfold on_page. destruct (checkSkip _ _ _); [|destruct (KeepPage _ pg) as [[] f]];
        (split; [done|]); unfold work, pages_work; rewrite Hpend, Er, Ep; simpl; lia.
    + apply Forall_cons in Hpa as [_ Hps]. split; [done|]. unfold work, pages_work. rewrite Hpend, Er, Ep. simpl. lia.
    + destruct (pr_groups p) as [|[n cc] gs] eqn:Eg; [done|]. apply Forall_cons in Hgr as [Hcc Hgs]. unfold on_group. destruct (checkSkip _ _ _); [|destruct (KeepColumnChunk _ cc) as [[] f]];
        (split; [done|]); unfold work, pages_work; rewrite Hpend, Er, Ep, Eg; simpl; lia.
Qed.

Lemma quit_step b c : ci_quit c = true → quiet (ci_producer c) → let c' := iterate_step b c in
  ci_quit c' = true ∧ quiet (ci_producer c') ∧ (ci_chClosed c = true → ci_chClosed c' = true) ∧ (ci_chClosed c = false → steps_left c' < steps_left c).
Proof.
  intros Hq Hp. unfold iterate_step. destruct (ci_chClosed c) eqn:Ecl; [done|]. destruct (pr_pending (ci_producer c)) as [|it rest] eqn:Epend.
  - pose proof (walk_quiet (ci_seekTo c) _ Hp Epend) as Hw. unfold steps_left. rewrite Ecl. destruct (walk _ _) as [p'|]; simpl; [|split_and!; try done; intros; lia].
    destruct Hw as [Hp' Hw]. split_and!; try done. intros _. lia.
  - destruct Hp as (Hd & Hre & Hpa & Hgr). rewrite Epend in Hd. apply Forall_cons in Hd as [[buf ->] Hrest]. rewrite Hq. unfold steps_left. rewrite Ecl.
    destruct (ci_ch c); simpl; [|destruct b; simpl]; (split; [done|]); (split; [done|]); (split; [done|]); intros _; unfold work; rewrite Epend; simpl; lia.
Qed.

(** C30: The goroutine ends after [Close].  If no read of values that is left fails, then from any state of the iterator, however the
    goroutine is scheduled and whichever of a possible send and the quit it takes, after at most [work + 1] steps it has closed the
    channel and returned; it never waits for a consumer that is gone. *)
Theorem Close_ends_goroutine c choices : quiet (ci_producer c) → work (ci_producer c) < length choices →
  ci_chClosed (iterate_steps choices (column_Close c)) = true.
Proof.
  intros Hp Hlen. assert (Hall : ∀ cs c, ci_quit c = true → quiet (ci_producer c) → ci_chClosed c = true ∨ steps_left c ≤ length cs → ci_chClosed (iterate_steps cs c) = true).
  { induction cs as [|b cs IH]; intros c' Hq Hp' Hl; simpl.
    - destruct Hl as [Hl|Hl]; [done|]. unfold steps_left in Hl. destruct (ci_chClosed c'); [done|]. simpl in Hl. lia.
    - destruct (quit_step b c' Hq Hp') as (Hq1 & Hp1 & Hcl & Hlt). apply IH; [done|done|]. destruct (ci_chClosed c'); [left; by apply Hcl|right].
      specialize (Hlt eq_refl). destruct Hl as [Hl|Hl]; [done|]. simpl in Hl. lia. }
  apply Hall; [done|done|]. right. unfold steps_left. simpl. case_match; lia.
Qed.

(** The send of an error does not look at the quit: with a full channel nobody reads, it waits forever. *)
Lemma error_send_waits c e rest it choices : ci_chClosed c = false → pr_pending (ci_producer c) = inr e :: rest → ci_ch c = Some it →
  iterate_steps choices (column_Close c) = column_Close c ∧ ci_chClosed (column_Close c) = false.
Proof.
  intros Hcl Hp Hch. split; [|done]. induction choices as [|b cs IH]; [done|]. simpl. rewrite <- IH at 2. f_equal. unfold iterate_step. simpl. by rewrite Hcl, Hp, Hch.
Qed.
End Closing.

(** ** At a concrete input *)

(** A value and its repetition level. *)
#[local] Instance repeated_value : PqValue (Z * nat) :=
  {| v_Int64 := fst; v_ByteArray _ := ""; v_String _ := ""; v_RepetitionLevel := snd; v_DefinitionLevel _ := 1 |}.

Definition example_groups : list (RowGroup (Z * nat)) :=
  let page1 := mkPage 2 (Some ((1%Z, 0), (5%Z, 0))) None [([(1%Z, 0); (2%Z, 1)], None); ([(5%Z, 0)], Some EOF)] in
  let page2 := mkPage 1 (Some ((8%Z, 0), (9%Z, 0))) None [([(8%Z, 0); (9%Z, 1)], None)] in
  let page3 := mkPage 1 None None [([(2%Z, 0)], Some EOF)] in
  [mkRowGroup 3 [mkChunk (Some [((1%Z, 0), (5%Z, 0)); ((8%Z, 0), (9%Z, 0))]) [inl page1; inl page2]]; mkRowGroup 1 [mkChunk None [inl page3]]].

Definition example_chunks : list (Z * ColumnChunk (Z * nat)) := match column_chunks 0 example_groups with Ret gs => gs | _ => [] end.

Lemma example_chunks_ok : Forall (chunk_ok int_le) example_chunks.
Proof.
  unfold example_chunks. simpl. repeat constructor; simpl; unfold in_page, in_chunk, in_bounds, int_le, levels_ok; simpl;
    try lia; try done; eexists _, _; (split; [by left|simpl; lia]) || (split; [by right; left|simpl; lia]).
Qed.

Lemma ColumnIterator_correct_witness :
  let schedule := [[true; true; true; true]; []; [true]] in
  ∃ (c c1 c2 : ColumnIterator IntBetweenPredicate (Z * nat) unit), NewColumnIterator schedule example_groups 0 (Some (NewIntBetweenPredicate 2 5)) "v" = Ret c ∧
    column_Next c = Ret (true, c1) ∧ ci_result c1 = Some (mkResult [0; 1; -1; -1; -1; -1]%Z [mkEntry "v" (2%Z, 1) None]) ∧
    column_Seek c1 (mkRNL [2; -1; -1; -1; -1; -1]%Z 0) = Ret (true, c2) ∧ ci_result c2 = Some (mkResult [3; 0; -1; -1; -1; -1]%Z [mkEntry "v" (2%Z, 0) None]).
Proof.
  intros schedule. destruct (ColumnIterator_correct (R := unit) (le := int_le) schedule example_groups 0 (Some (NewIntBetweenPredicate 2 5)) "v" example_chunks 0)
    as (c & view & Hnew & Hv & Hall); [lia|done|done|exact example_chunks_ok|vm_compute; done|done|].
  destruct (Hall _ _ Hv) as (_ & (c1 & Hn & Hr & Hv1) & _).
  destruct (Hall _ _ Hv1) as (_ & _ & Hs). destruct (Hs (mkRNL [2; -1; -1; -1; -1; -1]%Z 0)) as (c2 & Hs2 & Hr2 & _); [simpl; lia|done|].
  exists c, c1, c2. split; [exact Hnew|]. split; [exact Hn|]. split; [exact Hr|]. split; [exact Hs2|exact Hr2].
Defined.

(** A column whose reads are fine, closed while the channel is full. *)
Lemma Close_ends_goroutine_witness :
  let c := iterate_steps (replicate 7 true) (mkColumn (R := unit) (mkProducer EmptyRowNumber (instrumented (Some (NewIntBetweenPredicate 2 5))) [] None None example_chunks)
    None None false false "v" None 0 None None []) in
  ci_ch c ≠ None ∧ ci_chClosed c = false ∧ ci_chClosed (iterate_steps (replicate 40 false) (column_Close c)) = true.
Proof.
  intros c. split; [by vm_compute|]. split; [by vm_compute|]. apply (Close_ends_goroutine c (replicate 40 false)); [|vm_compute; lia].
  vm_compute. repeat constructor; try done; by eexists.
Defined.

(** The same with a read that fails: the goroutine waits with its error forever. *)
Example failing_read_leaks :
  let page := mkPage 2 None None [([(1%Z, 0)], None); ([], Some (ReadError "broken"))] in
  let c := iterate_steps (replicate 9 true) (mkColumn (R := unit) (mkProducer EmptyRowNumber (instrumented (None : option IntBetweenPredicate)) [] None None
    [(2%Z, mkChunk None [inl page])]) None None false false "v" None 0 None None []) in
  ∀ choices, ci_chClosed (iterate_steps choices (column_Close c)) = false.
Proof.
  intros page c choices. destruct (error_send_waits c "broken" [] (inl [([0; 0; -1; -1; -1; -1]%Z, (1%Z, 0))]) choices) as [-> ?]; [by vm_compute..|done].
Qed.
