(* ===== verification/UnionIter.v ===== *)
(** * Unions, groups and rows as iterators (src/pkg/phlaredb/query/iters.go)

    [UnionIterator], [KeyValueGroupPredicate] and [RowNumberIterator].  The collection of a union does not
    notice that an iterator has ended, and a [RowNumberIterator] does not seek; both are shown here. *)

From S2P Require Import Prelude Iter RowNumbers QueryIters Predicates.

(** ** Union *)

Section Union.
Context {St V R : Type} `{SeekIterator St V R}.
Abbreviation peeked := (St * option (IteratorResult V R))%type (only parsing).

Record UnionIterator := mkUnion { ui_level : nat; ui_iters : list peeked; ui_pred : option (IteratorResult V R → bool); ui_result : option (IteratorResult V R) }.

Definition NewUnionIterator (definitionLevel : nat) (iters : list St) (pred : option (IteratorResult V R → bool)) : UnionIterator :=
  mkUnion definitionLevel ((λ s, (s, None)) <$> iters) pred None.

(** The lowest row and the iterators at it; an exhausted iterator is passed over. *)
Fixpoint union_scan (d i : nat) (low : RowNumber) (lows : list nat) (its : list peeked) : list peeked * (RowNumber * list nat) :=
  match its with
  | [] => ([], (low, lows))
  | it :: rest =>
      let it := peek it in
      let '(low, lows) :=
        match it.2 with
        | None => (low, lows)
        | Some res =>
            let c := CompareRowNumbers d (ir_RowNumber res) low in
            if (c =? -1)%Z then (ir_RowNumber res, [i]) else if (c =? 0)%Z then (low, lows ++ [i]) else (low, lows)
        end in
      let '(rest, r) := union_scan d (S i) low lows rest in (it :: rest, r)
  end.

(** The results of one iterator at the row; when the iterator ends its last result stays. *)
Fixpoint union_collect_one (fuel d : nat) (rn : RowNumber) (it : peeked) (result : IteratorResult V R) : outcome (peeked * IteratorResult V R) :=
  match fuel with
  | O => Panic
  | S fuel =>
      match it.2 with
      | Some p =>
          if (CompareRowNumbers d (ir_RowNumber p) rn =? 0)%Z then
            let '(more, s) := si_Next it.1 in
            union_collect_one fuel d rn (s, if more then Some (si_At s) else Some (ir_Reset p)) (ir_Append result p)
          else Ret (it, result)
      | None => Ret (it, result)
      end
  end.

Fixpoint union_collect (fuel d : nat) (rn : RowNumber) (nums : list nat) (its : list peeked) (result : IteratorResult V R) : outcome (list peeked * IteratorResult V R) :=
  match nums with
  | [] => Ret (its, result)
  | n :: nums =>
      obind (of_option (its !! n)) (λ it,
      obind (union_collect_one fuel d rn it result) (λ '(it, result), union_collect fuel d rn nums (<[n := it]> its) result))
  end.

Fixpoint union_loop (fuel : nat) (d : nat) (pred : option (IteratorResult V R → bool)) (its : list peeked) : outcome (list peeked * option (IteratorResult V R)) :=
  match fuel with
  | O => Panic
  | S fuel =>
      let '(its, (low, lows)) := union_scan d 0 MaxRowNumber [] its in
      obind (union_collect fuel d low lows its (mkResult low [])) (λ '(its, result),
        match lows with
        | [] => Ret (its, None)
        | _ => if group_kept pred result then Ret (its, Some result) else union_loop fuel d pred its
        end)
  end.

Definition union_Next (fuel : nat) (u : UnionIterator) : outcome (bool * UnionIterator) :=
  obind (union_loop fuel (ui_level u) (ui_pred u) (ui_iters u)) (λ '(its, r),
    Ret (match r with Some _ => true | None => false end, mkUnion (ui_level u) its (ui_pred u) r)).

Definition union_Seek (fuel : nat) (u : UnionIterator) (to : RowNumberWithDefinitionLevel) : outcome (bool * UnionIterator) :=
  union_Next fuel (mkUnion (ui_level u) (seekAll to (ui_iters u)) (ui_pred u) (ui_result u)).

Definition union_Err (u : UnionIterator) : option string := first_err (ui_iters u).
Definition union_Close (u : UnionIterator) : list string * UnionIterator :=
  let '(errs, its) := close_all (ui_iters u) in (errs, mkUnion (ui_level u) its (ui_pred u) (ui_result u)).
End Union.
Arguments UnionIterator St V R : clear implicits.
Arguments mkUnion {St V R} _ _ _ _. Arguments ui_level {St V R} _. Arguments ui_iters {St V R} _. Arguments ui_pred {St V R} _. Arguments ui_result {St V R} _.

(** ** Collecting *)

Section Collect.
Context {St V R : Type} `{SeekIteratorOk St V R d} (Hd : d < 6).
Implicit Types (L : list (IteratorResult V R)) (x y : IteratorResult V R).

Lemma collect_ended fuel : ∀ (s : St) x rn r, si_view s [] → CompareRowNumbers d (ir_RowNumber x) rn = 0%Z → union_collect_one fuel d rn (s, Some x) r = Panic.
Proof.
  induction fuel as [|fuel IH]; intros s x rn r Hv Hx; [done|]. simpl. rewrite Hx. simpl. destruct (si_next_view _ _ Hv) as (s' & -> & Hv'). by apply IH.
Qed.

(** At the last row of an iterator the collection never ends; before it, it collects exactly the results of the row. *)
Lemma union_collect_spec L : ∀ (s : St) x rn r, rows_ok d (x :: L) → si_view s L → length rn = 6 → CompareRowNumbers d (ir_RowNumber x) rn = 0%Z →
  (Forall (λ y, key d y = row_key d rn) L ∧ ∀ fuel, union_collect_one fuel d rn (s, Some x) r = Panic) ∨
  ∃ s' y L1 L2, x :: L = L1 ++ y :: L2 ∧ Forall (λ y, key d y = row_key d rn) L1 ∧ key d y ≠ row_key d rn ∧ si_view s' L2 ∧
    ∀ fuel, length L + 1 < fuel → union_collect_one fuel d rn (s, Some x) r = Ret ((s', Some y), mkResult (ir_RowNumber r) (ir_Entries r ++ concat (ir_Entries <$> L1))).
Proof.
  induction L as [|z L IH]; intros s x rn r Hr Hv Hrn Hx.
  - left. split; [done|]. intros fuel. by apply collect_ended.
  - pose proof (si_next_view _ _ Hv) as (s' & Hn & Hat & Hv'). pose proof (rows_ok_tail _ _ _ Hr) as Hr'. destruct Hr as [Hg _].
    assert (Hlz : length (ir_RowNumber z) = 6) by (apply Forall_inv_tail, Forall_inv in Hg; by destruct Hg).
    assert (Hlx : length (ir_RowNumber x) = 6) by (apply Forall_inv in Hg; by destruct Hg).
    assert (Hkx : key d x = row_key d rn) by (apply compare_zero; unfold is_row; [lia..|done]).
    destruct (decide (CompareRowNumbers d (ir_RowNumber z) rn = 0%Z)) as [Hz|Hz].
    + assert (Hkz : key d z = row_key d rn) by (apply compare_zero; unfold is_row; [lia..|done]).
      destruct (IH s' z rn (ir_Append r x) Hr' Hv' Hrn Hz) as [[Hall Hp]|(s2 & y & L1 & L2 & HL & HL1 & Hy & Hv2 & Hret)].
      * left. split; [by constructor|]. intros [|fuel]; [done|]. simpl. rewrite Hx, Hn. simpl. rewrite Hat. apply Hp.
      * right. exists s2, y, (x :: L1), L2. split; [by rewrite HL|]. split; [by constructor|]. split; [done|]. split; [done|]. intros [|fuel] Hf; [lia|].
        simpl. rewrite Hx, Hn. simpl. rewrite Hat, Hret by (simpl in Hf; lia). simpl. by rewrite <- app_assoc.
    + right. exists s', z, [x], L. split; [done|]. split; [by repeat constructor|]. split.
      { intros Hk. apply Hz. apply compare_zero; unfold is_row; [lia..|done]. }
      split; [done|]. intros [|[|fuel]] Hf; [simpl in Hf; lia..|]. simpl. rewrite Hx, Hn. simpl. rewrite Hat.
      destruct (Z.eqb_spec (CompareRowNumbers d (ir_RowNumber z) rn) 0); [done|]. by rewrite app_nil_r.
Qed.
End Collect.

(** The union of one iterator with one row never gives it. *)
Example union_never_ends fuel : union_Next (fuel) (NewUnionIterator 0 [mkListIter (V := nat) (R := nat) None [mkResult [3; -1; -1; -1; -1; -1]%Z []]] None) = Panic.
Proof.
  destruct fuel as [|fuel]; [done|]. unfold union_Next. cbn [union_loop NewUnionIterator ui_level ui_iters ui_pred fmap list_fmap union_scan peek fst snd si_Next list_iterator list_next li_rest].
  cbn -[union_collect_one]. change (3 <? max_int64)%Z with true. cbn -[union_collect_one].
  rewrite (collect_ended (d := 0)); [done| |done]. split; [done|]. split; [apply Forall_nil_2|apply SSorted_nil].
Qed.

(** ** Key/value groups *)

Section Groups.
Context {V R : Type} `{PqValue V}.

Record KeyValueGroupPredicate := NewKeyValueGroupPredicate { kv_keys : list string; kv_vals : list string }.

(** Is the pair among the columns? *)
Fixpoint pair_found (k v : string) (keys vals : list V) : bool :=
  match keys, vals with
  | x :: keys, y :: vals => (String.eqb k (v_ByteArray x) && String.eqb v (v_ByteArray y)) || pair_found k v keys vals
  | _, _ => false
  end.

(** A key without a value panics. *)
Fixpoint pairs_found (ks vs : list string) (keys vals : list V) : outcome bool :=
  match ks, vs with
  | [], _ => Ret true
  | k :: ks, v :: vs => if pair_found k v keys vals then pairs_found ks vs keys vals else Ret false
  | _ :: _, [] => Panic
  end.

Definition KeepGroup (a : KeyValueGroupPredicate) (group : IteratorResult V R) : outcome bool :=
  match Columns group ["keys"; "values"] with
  | [keys; vals] =>
      if (length keys <? length (kv_keys a))%nat || negb (length keys =? length vals)%nat then Ret false
      else pairs_found (kv_keys a) (kv_vals a) keys vals
  | _ => Panic
  end.

Lemma pair_found_in k v (keys vals : list V) : pair_found k v keys vals = true ↔ (k, v) ∈ zip (v_ByteArray <$> keys) (v_ByteArray <$> vals).
Proof.
  revert vals. induction keys as [|x keys IH]; intros [|y vals]; csimpl; rewrite ?elem_of_nil; try done. rewrite elem_of_cons, orb_true_iff, andb_true_iff, !String.eqb_eq, IH.
  split; (intros [?|?]; [left|by right]); [by destruct_and!; subst|]. by simplify_eq.
Qed.

Lemma column_values names : ∀ (es : list (Entry V R)) buffer, NoDup names → length buffer = length names →
  foldl (add_column names) buffer es = zip_with (λ n b, b ++ (e_V <$> filter (λ e, e_k e = n) es)) names buffer.
Proof.
  induction es as [|e es IH]; intros buffer Hnd Hl; simpl.
  - revert buffer Hl. induction names as [|n names IHn]; intros [|b buffer] Hl; simpl in *; try done. rewrite app_nil_r. f_equal. apply NoDup_cons in Hnd as [_ Hnd]. apply IHn; [done|lia].
  - assert (Hlen : ∀ names buffer, length (add_column names buffer e) = length buffer).
    { clear. induction names as [|n names IHn]; intros [|b buffer]; simpl; try done. destruct (String.eqb _ _); simpl; by rewrite ?IHn. }
    rewrite IH by (rewrite ?Hlen; done). clear IH Hlen. revert buffer Hl. induction names as [|n names IHn]; intros [|b buffer] Hl; simpl in *; try done.
    apply NoDup_cons in Hnd as [Hn Hnd]. rewrite filter_cons. destruct (String.eqb_spec (e_k e) n) as [He|Hne]; simpl.
    + rewrite decide_True by done. simpl. rewrite <- app_assoc. f_equal. clear IHn. injection Hl as Hl. revert buffer Hl. induction names as [|m names IHm]; intros [|b' buffer] Hl; simpl in *; try done.
      rewrite filter_cons_False by (intros E; apply Hn; rewrite <- He, E; by left). f_equal. apply NoDup_cons in Hnd as [_ Hnd]. apply IHm; [by intros Hin; apply Hn; right|done|lia].
    + rewrite decide_False by done. f_equal. apply IHn; [done|lia].
Qed.

(** The bytes of the entries of a name. *)
Definition named (n : string) (r : IteratorResult V R) : list string := (λ e, v_ByteArray (e_V e)) <$> filter (λ e, e_k e = n) (ir_Entries r).

Lemma columns_named (r : IteratorResult V R) : ∃ keys vals, Columns r ["keys"; "values"] = [keys; vals] ∧ v_ByteArray <$> keys = named "keys" r ∧ v_ByteArray <$> vals = named "values" r.
Proof.
  unfold Columns. rewrite column_values; [|by repeat constructor; set_solver|done]. simpl. eexists _, _. split; [done|]. unfold named. by rewrite <- !list_fmap_compose.
Qed.

Lemma pairs_found_spec ks vs (keys vals : list V) : length ks = length vs →
  pairs_found ks vs keys vals = Ret (bool_decide (Forall (λ p, p ∈ zip (v_ByteArray <$> keys) (v_ByteArray <$> vals)) (zip ks vs))).
Proof.
  revert vs. induction ks as [|k ks IH]; intros [|v vs] Hl; try done. injection Hl as Hl. cbn [pairs_found zip zip_with]. destruct (pair_found k v keys vals) eqn:E.
  - rewrite IH by done. f_equal. apply bool_decide_ext. rewrite Forall_cons. apply pair_found_in in E. by split; [split|intros [_ ?]].
  - f_equal. symmetry. apply bool_decide_eq_false. intros Hf. apply Forall_inv in Hf. apply pair_found_in in Hf. by rewrite E in Hf.
Qed.

(** [KeepGroup] keeps a group exactly when the group has as many keys as values, at least as many as are asked for, and every
    key/value pair asked for is at some position of both columns; with as many values as keys it does not panic. *)
Theorem KeepGroup_correct keys vals (r : IteratorResult V R) : length keys = length vals →
  KeepGroup (NewKeyValueGroupPredicate keys vals) r =
  Ret (bool_decide (length keys ≤ length (named "keys" r) ∧ length (named "keys" r) = length (named "values" r) ∧
                    Forall (λ p, p ∈ zip (named "keys" r) (named "values" r)) (zip keys vals))).
Proof.
  intros Hl. unfold KeepGroup. destruct (columns_named r) as (ks & vs & -> & Hk & Hv). simpl. rewrite <- Hk, <- Hv, !length_fmap.
  destruct (Nat.ltb_spec (length ks) (length keys)) as [Hlt|Hge]; simpl; [f_equal; symmetry; apply bool_decide_eq_false; lia|].
  destruct (Nat.eqb_spec (length ks) (length vs)) as [He|He]; simpl; [|f_equal; symmetry; apply bool_decide_eq_false; lia].
  rewrite pairs_found_spec by done. f_equal. apply bool_decide_ext. tauto.
Qed.
End Groups.

(** ** Rows as results *)

Section RowNumberIterator.
Context {St T V : Type} `{Iterator St T} (row_getter : T → option Z) (no_value : V) (not_a_row : T → string).

Record RowNumberIterator := mkRowNumberIterator { ri_iter : St; ri_current : option (IteratorResult V T); ri_err : option string }.

Definition NewRowNumberIterator (it : St) : RowNumberIterator := mkRowNumberIterator it None None.

(** [row_getter] is the row of a value that implements [RowGetter]; [no_value] is the zero parquet value, [not_a_row] the error for
    a value that does not. *)
Definition rownumber_Next (r : RowNumberIterator) : bool * RowNumberIterator :=
  match Next (ri_iter r) with
  | (false, it) => (false, mkRowNumberIterator it (ri_current r) (ri_err r))
  | (true, it) =>
      match row_getter (At it) with
      | None =>
          (false, mkRowNumberIterator it (Some (mkResult (replicate 6 0%Z) []))
                    (match ri_err r with None => Some (not_a_row (At it)) | e => e end))
      | Some n => (true, mkRowNumberIterator it (Some (mkResult (n :: replicate 5 (-1)%Z) [mkEntry "" no_value (Some (At it))])) (ri_err r))
      end
  end.

Definition rownumber_Seek (r : RowNumberIterator) (to : RowNumberWithDefinitionLevel) : bool * RowNumberIterator := (true, r).

Definition rownumber_Err (r : RowNumberIterator) : option string := match ri_err r with Some e => Some e | None => Err (ri_iter r) end.

#[export] Instance rownumber_iterator : SeekIterator RowNumberIterator V T := {|
  si_Next := rownumber_Next;
  si_At r := default (mkResult [] []) (ri_current r);
  si_Seek := rownumber_Seek;
  si_Err := rownumber_Err;
  si_Close r := let '(e, it) := Close (ri_iter r) in (e, mkRowNumberIterator it (ri_current r) (ri_err r));
  si_remaining r := remaining (ri_iter r) |}.

(** A seek finds whatever the iterator stands at, however far before the row sought. *)
Lemma rownumber_seek_stays (r : RowNumberIterator) to : si_Seek r to = (true, r).
Proof. done. Qed.
End RowNumberIterator.

(** ** At a concrete input *)

#[local] Instance bytes_value : PqValue string := {| v_Int64 _ := 0%Z; v_ByteArray := id; v_String := id; v_RepetitionLevel _ := 0; v_DefinitionLevel _ := 0 |}.

Lemma KeepGroup_correct_witness :
  let group := mkResult (R := unit) [] [mkEntry "keys" "a" None; mkEntry "keys" "b" None; mkEntry "values" "1" None; mkEntry "values" "2" None] in
  KeepGroup (NewKeyValueGroupPredicate ["b"] ["2"]) group = Ret true ∧ KeepGroup (NewKeyValueGroupPredicate ["b"] ["1"]) group = Ret false.
Proof.
  intros group. split; [rewrite (KeepGroup_correct ["b"] ["2"] group eq_refl)|rewrite (KeepGroup_correct ["b"] ["1"] group eq_refl)]; reflexivity.
Defined.
