(* ===== verification/BlockSelect.v ===== *)
(** * Selecting profiles of a block (src/pkg/phlaredb/block_querier.go)

    [SelectMatchingProfiles] of a block: the series of the matchers from the index, a join of the columns with the
    series and the time of every row, and one iterator over the rows in time order.  The index is an
    interface; opening the files, and the schema that gives the index of a column, are parameters. *)

From S2P Require Import Prelude Labels GoHeap Iter Postings Shard InvertedIndex ProfilesIndex HeadApi Matchers IndexWriter RowNumbers QueryIters Predicates ColumnIter.

(** ** Interface values *)

(** An iterator or a predicate of one of two types. *)
#[export] Instance sum_iterator {A B V R} `{QueryIters.SeekIterator A V R, QueryIters.SeekIterator B V R} : QueryIters.SeekIterator (A + B) V R := {|
  si_Next s := match s with inl a => let '(b, a) := si_Next a in (b, inl a) | inr a => let '(b, a) := si_Next a in (b, inr a) end;
  si_At s := match s with inl a => si_At a | inr a => si_At a end;
  si_Seek s to := match s with inl a => let '(b, a) := si_Seek a to in (b, inl a) | inr a => let '(b, a) := si_Seek a to in (b, inr a) end;
  si_Err s := match s with inl a => si_Err a | inr a => si_Err a end;
  si_Close s := match s with inl a => let '(e, a) := si_Close a in (e, inl a) | inr a => let '(e, a) := si_Close a in (e, inr a) end;
  si_remaining s := match s with inl a => si_remaining a | inr a => si_remaining a end |}.

#[export] Instance sum_pred {A B V} `{Predicate A V, Predicate B V} : Predicate (A + B) V := {|
  KeepColumnChunk p c := match p with inl a => let '(b, a) := KeepColumnChunk a c in (b, inl a) | inr a => let '(b, a) := KeepColumnChunk a c in (b, inr a) end;
  KeepPage p c := match p with inl a => let '(b, a) := KeepPage a c in (b, inl a) | inr a => let '(b, a) := KeepPage a c in (b, inr a) end;
  KeepValue p c := match p with inl a => let '(b, a) := KeepValue a c in (b, inl a) | inr a => let '(b, a) := KeepValue a c in (b, inr a) end |}.

(** ** The block *)

Record labelsInfo := mkLabelsInfo { in_fp : N; in_lbs : Labels }.

Record BlockProfile := mkBlockProfile { bp_labels : Labels; bp_fp : N; bp_ts : Z; bp_RowNum : Z }.
#[export] Instance block_profile : Profile BlockProfile := {| p_timestamp := bp_ts; p_labels := bp_labels |}.
#[export] Instance zero_block_profile : GoZero BlockProfile := mkBlockProfile [] 0 0 0.

(** The index of a block; [Series] gives the fingerprint, the labels and the chunks of a series. *)
Class BlockIndex (I : Type) := { bi_Series : I → N → outcome (N * Labels * list ChunkMeta) }.

Record singleBlockQuerier (I V : Type) := mkBlock { bq_open : option string; bq_index : I; bq_RowGroups : list (RowGroup V); bq_column : string → option nat }.
Arguments mkBlock {I V} _ _ _ _. Arguments bq_open {I V} _. Arguments bq_index {I V} _. Arguments bq_RowGroups {I V} _. Arguments bq_column {I V} _.

Section Block.
Context {I P V R : Type} `{Iterator P N, Postings.SeekIterator P N, IndexReader I P, BlockIndex I, PqValue V}.
(** The Prometheus library: matchers, times, the parser of selectors; the schedules of the goroutines, and the order in which a map is walked. *)
Context (Matches : Matcher → string → bool) (Inverse : Matcher → outcome Matcher) (GetRegexString : Matcher → string) (UnixNano TimeFromUnixNano : Z → Z)
  (ParseMetricSelector : string → list Matcher + string) (schedule : string → list (list bool)) (range : gmap Z labelsInfo → list Z) (column_error : string → string).
Implicit Types (b : singleBlockQuerier I V).

(** The predicates of the two columns. *)
Abbreviation block_pred := (mapPredicate (λ k, k) labelsInfo + IntBetweenPredicate)%type (only parsing).
Abbreviation block_iter := (errSeekIterator + ColumnIterator block_pred V R)%type (only parsing).

Definition columnIter b (columnName : string) (predicate : block_pred) (alias : string) : outcome block_iter :=
  match bq_column b columnName with
  | None => Ret (inl (mkErrSeek (column_error columnName)))
  | Some i => obind (NewColumnIterator (schedule columnName) (bq_RowGroups b) i (Some predicate) alias) (λ c, Ret (inr c))
  end.

(** The labels of the series by the number the rows refer to. *)
Fixpoint gather_labels (ix : I) (refs : list N) (m : gmap Z labelsInfo) : outcome (gmap Z labelsInfo) :=
  match refs with
  | [] => Ret m
  | r :: refs =>
      obind (bi_Series ix r) (λ '(fp, lbs, chks),
        match chks with
        | [] => Panic
        | c :: _ =>
            let k := Z.of_N (c_SeriesIndex c) in
            match m !! k with
            | Some info => if (CompareLabelPairs lbs (in_lbs info) =? 0)%Z then gather_labels ix refs m else Panic
            | None => gather_labels ix refs (<[k := mkLabelsInfo fp lbs]> m)
            end
        end)
  end.

(** The rows so far: the current series, its profiles and the slices before it. *)
Record grouping := mkGrouping { gr_curr : Z; gr_slice : list BlockProfile; gr_iters : list (list BlockProfile) }.

Definition flushed (g : grouping) : list (list BlockProfile) := match gr_slice g with [] => gr_iters g | _ => gr_iters g ++ [gr_slice g] end.

Definition block_row (m : gmap Z labelsInfo) (rowNum seriesIndex timeNanos : Z) : BlockProfile :=
  let info := default (mkLabelsInfo 0 []) (m !! seriesIndex) in
  mkBlockProfile (in_lbs info) (in_fp info) (TimeFromUnixNano timeNanos) rowNum.

Definition group_row (m : gmap Z labelsInfo) (res : IteratorResult V R) (g : grouping) : outcome grouping :=
  match Columns res ["SeriesIndex"; "TimeNanos"] with
  | [s :: _; t :: _] =>
      let g := if (v_Int64 s =? gr_curr g)%Z then g else mkGrouping (i64 (gr_curr g + 1)) [] (flushed g) in
      Ret (mkGrouping (gr_curr g) (gr_slice g ++ [block_row m (row0 (ir_RowNumber res)) (v_Int64 s) (v_Int64 t)]) (gr_iters g))
  | _ => Panic
  end.

Fixpoint group_rows (fuel : nat) (m : gmap Z labelsInfo) (j : JoinIterator block_iter V R) (g : grouping) : outcome grouping :=
  match fuel with
  | O => Panic
  | S fuel =>
      obind (join_Next j) (λ '(more, j),
        if more then obind (group_row m (default (mkResult [] []) (ji_result j)) g) (λ g, group_rows fuel m j g) else Ret g)
  end.

Definition select_rows b (m : gmap Z labelsInfo) (start end_ : Z) : outcome (SortIterator (sliceIterator BlockProfile) BlockProfile) :=
  obind (columnIter b "SeriesIndex" (inl (newMapPredicate (λ k, k) (range m) m)) "SeriesIndex") (λ series,
  obind (columnIter b "TimeNanos" (inr (NewIntBetweenPredicate (UnixNano start) (UnixNano end_))) "TimeNanos") (λ times,
    let pIt := NewJoinIterator 0 [series; times] None in
    obind (group_rows (S (left_in (ji_iters pIt))) m pIt (mkGrouping (-1) [] [])) (λ g,
      Ret (NewSortProfileIterator (NewSliceIterator <$> flushed g))))).

Definition BlockSelectMatchingProfiles b (labelSelector : string) (ty : ProfileType) (start end_ : Z)
    : outcome (SortIterator (sliceIterator BlockProfile) BlockProfile) :=
  match bq_open b with
  | Some e => Fail e
  | None =>
      match ParseMetricSelector labelSelector with
      | inr e => Fail (select_error +:+ e)
      | inl matchers =>
          obind (PostingsForMatchers Matches Inverse GetRegexString (bq_index b) None (matchers ++ [profile_type_matcher ty])) (λ postings,
          obind (gather_labels (bq_index b) (pv_expand postings).1 ∅) (λ m, select_rows b m start end_))
      end
  end.

(** [Sort]: by row, so that the file is read forwards. *)
Definition row_less (a b : BlockProfile) : bool := (bp_RowNum a <? bp_RowNum b)%Z.
End Block.

(** ** Interface values keep their laws *)

#[export] Instance sum_iterator_ok {A B V R} d `{SeekIteratorOk A V R d} `{SeekIteratorOk B V R d} : @SeekIteratorOk (A + B) V R sum_iterator d.
Proof.
  refine (@Build_SeekIteratorOk (A + B) V R sum_iterator d (λ s l, match s with inl a => si_view a l | inr a => si_view a l end) _ _ _ _).
  - intros [a|a] l; apply si_view_rows.
  - intros [a|a] l; exact (si_view_left a l).
  - intros [a|a] l Hv; cbn in Hv; pose proof (si_next_view a l Hv) as Hn; simpl; destruct l as [|x l].
    1, 3: destruct Hn as (s & -> & Hn); by eexists. all: destruct Hn as (s & -> & Hx & Hn); eexists; by split.
  - intros [a|a] l to Hv Hto Hl; cbn in Hv; pose proof (si_seek_view a l to Hv Hto Hl) as Hn; simpl; destruct (from_row to l) as [|x l'].
    1, 3: destruct Hn as (s & -> & Hn); by eexists. all: destruct Hn as (s & -> & Hx & Hn); eexists; by split.
Defined.

#[export] Instance err_iterator_ok {V R} d : @SeekIteratorOk errSeekIterator V R errSeekIterator_iter d.
Proof.
  refine (@Build_SeekIteratorOk errSeekIterator V R errSeekIterator_iter d (λ s l, l = []) _ _ _ _).
  - intros s l ->. split; constructor.
  - by intros s l ->.
  - intros s l ->. by exists s.
  - intros s l to -> _ _. by exists s.
Defined.

#[export] Instance sum_pred_ok {A B V} {le : V → V → Prop} `{PredicateOk A V le} `{PredicateOk B V le} : @PredicateOk (A + B) V sum_pred le.
Proof.
  refine {| p_state p := match p with inl a => p_state a | inr a => p_state a end; p_keeps p := match p with inl a => p_keeps a | inr a => p_keeps a end |}.
  - intros [a|a] c Ha; simpl; destruct (keep_chunk_state a c Ha); by destruct (KeepColumnChunk a c).
  - intros [a|a] c Ha; simpl; destruct (keep_page_state a c Ha); by destruct (KeepPage a c).
  - intros [a|a] c Ha; simpl; destruct (keep_value_state a c Ha); by destruct (KeepValue a c).
  - intros [a|a] v Ha; simpl; pose proof (keep_value_test a v Ha); by destruct (KeepValue a v).
  - intros [a|a] pg v Ha Hv Hk; simpl in *; pose proof (keep_page_sound a pg v Ha Hv Hk); by destruct (KeepPage a pg).
  - intros [a|a] pg v Ha Hv Hk; simpl in *; pose proof (keep_chunk_sound a pg v Ha Hv Hk); by destruct (KeepColumnChunk a pg).
Defined.

(** ** Flat columns *)

Section Flat.
Context {V R : Type} `{PqValue V}.
Implicit Types (v w : V) (vs ws : list V) (n : Z).

Definition flat (v : V) : Prop := v_RepetitionLevel v = 0 ∧ v_DefinitionLevel v = 0.
Definition flat_row n : RowNumber := n :: replicate 5 (-1)%Z.

(** The rows from number [n] on that a test keeps. *)
Fixpoint flat_rows (alias : string) (test : V → bool) n vs : list (IteratorResult V R) :=
  match vs with
  | [] => []
  | v :: vs => (if test v then [mkResult (flat_row n) [mkEntry alias v None]] else []) ++ flat_rows alias test (n + 1) vs
  end.

Fixpoint both_rows (a1 a2 : string) (t1 t2 : V → bool) n vs ws : list (IteratorResult V R) :=
  match vs, ws with
  | v :: vs, w :: ws => (if t1 v && t2 w then [mkResult (flat_row n) [mkEntry a1 v None; mkEntry a2 w None]] else []) ++ both_rows a1 a2 t1 t2 (n + 1) vs ws
  | _, _ => []
  end.

Lemma flat_column alias test rn vs : alias ≠ "" → Forall flat vs → row_room rn (length vs) → row_result alias <$> kept test rn vs = flat_rows alias test (row0 rn + 1) vs.
Proof.
  intros Ha. revert rn. induction vs as [|v vs IH]; intros rn Hf Hr; [done|]. apply Forall_cons in Hf as [[Hrep Hdef] Hf]. unfold kept in *. cbn [assign flat_rows]. rewrite Hrep, Hdef.
  pose proof (next_room rn _ 0 0 Hr ltac:(lia) ltac:(lia)) as Hroom. pose proof (next_row0 rn _ 0 0 Hr ltac:(lia) ltac:(lia)) as Hn0. simpl in Hn0.
  assert (Hn : rn_Next rn 0 0 = flat_row (row0 rn + 1)).
  { destruct Hr as [Hl _]. do 7 (destruct rn as [|? rn]; try done). unfold rn_Next, flat_row, row0 in *. simpl in *. by rewrite Hn0. }
  rewrite filter_cons. specialize (IH _ Hf Hroom). rewrite Hn in IH |- *. change (row0 (flat_row (row0 rn + 1))) with (row0 rn + 1)%Z in IH. cbn [snd].
  destruct (test v); case_decide; try done; csimpl; rewrite IH; try done. unfold row_result at 1. simpl. by destruct (String.eqb_spec alias "").
Qed.

Lemma flat_keys alias test n vs x : x ∈ flat_rows alias test n vs → ∃ k, (n ≤ k)%Z ∧ ir_RowNumber x = flat_row k.
Proof.
  revert n. induction vs as [|v vs IH]; intros n; simpl; [by intros ?%elem_of_nil|]. intros [Hx|Hx]%elem_of_app.
  - destruct (test v); [|by apply elem_of_nil in Hx]. apply list_elem_of_singleton in Hx as ->. by exists n.
  - destruct (IH _ Hx) as (k & Hk & E). exists k. split; [lia|done].
Qed.

(** Rows after a row do not have its key. *)
Lemma flat_later alias test n vs x : x ∈ flat_rows alias test (n + 1) vs → key 0 x ≠ [n].
Proof. intros (k & Hk & E)%flat_keys. unfold key. rewrite E. unfold row_key, flat_row. simpl. intros [=]. lia. Qed.

Lemma flat_group alias test n vs (hd : list (IteratorResult V R)) : Forall (λ y, key 0 y = [n]) hd → group 0 [n] (hd ++ flat_rows alias test (n + 1) vs) = hd.
Proof.
  intros Hh. unfold group. rewrite filter_app. rewrite (filter_all _ hd) by (by rewrite Forall_forall in Hh). rewrite filter_none; [by rewrite app_nil_r|]. intros x Hx. by apply (flat_later alias test n vs).
Qed.

Lemma flat_group_later alias test n vs k (hd : list (IteratorResult V R)) : Forall (λ y, key 0 y = [n]) hd → k ≠ [n] →
  group 0 k (hd ++ flat_rows alias test (n + 1) vs) = group 0 k (flat_rows alias test (n + 1) vs).
Proof.
  intros Hh Hk. unfold group. rewrite filter_app. rewrite (filter_none _ hd); [done|]. rewrite Forall_forall in Hh. intros y Hy E. specialize (Hh y Hy). simpl in Hh. congruence.
Qed.

Lemma join_flat a1 a2 t1 t2 : ∀ vs n ws, join_list 0 None [flat_rows a1 t1 n vs; flat_rows a2 t2 n ws] = both_rows a1 a2 t1 t2 n vs ws.
Proof.
  induction vs as [|v vs IH]; intros n ws; [done|]. destruct ws as [|w ws].
  { rewrite join_empty; [done|]. right. by left. }
  cbn [flat_rows both_rows]. set (T1 := flat_rows a1 t1 (n + 1) vs). set (T2 := flat_rows a2 t2 (n + 1) ws).
  set (h1 := if t1 v then [mkResult (flat_row n) [mkEntry a1 v None]] else []). set (h2 := if t2 w then [mkResult (flat_row n) [mkEntry a2 w None]] else []).
  assert (Hh1 : Forall (λ y : IteratorResult V R, key 0 y = [n]) h1) by (unfold h1; destruct (t1 v); by repeat constructor).
  assert (Hh2 : Forall (λ y : IteratorResult V R, key 0 y = [n]) h2) by (unfold h2; destruct (t2 w); by repeat constructor).
  assert (Htail : omap (joined 0 None [h1 ++ T1; h2 ++ T2]) (row_heads 0 T1) = both_rows a1 a2 t1 t2 (n + 1) vs ws).
  { rewrite <- IH. unfold join_list. fold T1 T2. assert (Hall : ∀ x, x ∈ row_heads 0 T1 → joined 0 None [h1 ++ T1; h2 ++ T2] x = joined 0 None [T1; T2] x).
    { intros x Hx%heads_in. apply joined_ext. pose proof (flat_later a1 t1 n vs x Hx) as Hk. constructor; [by apply flat_group_later|]. constructor; [by apply flat_group_later|done]. }
    induction (row_heads 0 T1) as [|x hs IHh]; [done|]. csimpl. rewrite (Hall x) by (by left). by rewrite IHh by (intros y Hy; apply Hall; by right). }
  assert (E1 : h1 = [mkResult (flat_row n) [mkEntry a1 v None]] ∧ t1 v = true ∨ h1 = [] ∧ t1 v = false) by (unfold h1; destruct (t1 v); auto).
  assert (E2 : h2 = [mkResult (flat_row n) [mkEntry a2 w None]] ∧ t2 w = true ∨ h2 = [] ∧ t2 w = false) by (unfold h2; destruct (t2 w); auto).
  clearbody h1 h2. unfold join_list. destruct E1 as [[-> ->]|[-> ->]]; [|done]. cbn [app row_heads].
  rewrite filter_all; [|intros x Hx%heads_in; by apply (flat_later a1 t1 n vs)].
  set (x := mkResult (flat_row n) [mkEntry a1 v None]) in *. change ([x] ++ T1) with (x :: T1) in *. cbn [omap list_omap]. change (list_omap _ _ (joined 0 None [x :: T1; h2 ++ T2])) with (omap (M := list) (joined 0 None [x :: T1; h2 ++ T2])). rewrite Htail.
  assert (Hj : joined 0 None [x :: T1; h2 ++ T2] x = if t2 w then Some (mkResult (flat_row n) [mkEntry a1 v None; mkEntry a2 w None]) else None).
  { unfold joined. change (key 0 x) with [n]. csimpl. change (x :: T1) with ([x] ++ T1). unfold T1, T2. rewrite !flat_group by done.
    destruct E2 as [[-> ->]|[-> ->]].
    - rewrite decide_True; [done|]. rewrite !Forall_cons, Forall_nil, !flat_group by done. done.
    - rewrite decide_False; [done|]. rewrite !Forall_cons, !flat_group by done. by intros (_ & ? & _). }
  rewrite Hj. by destruct (t2 w).
Qed.
End Flat.

(** ** Grouping *)

Section Grouping.
Context {V R : Type} `{PqValue V} (TimeFromUnixNano : Z → Z) (m : gmap Z labelsInfo).
Implicit Types (rows : list (Z * (V * V))) (g : grouping).

(** A row with its series and time as a result of the join, and as a profile. *)
Definition joined_row (r : Z * (V * V)) : IteratorResult V R :=
  mkResult (flat_row r.1) [mkEntry "SeriesIndex" r.2.1 None; mkEntry "TimeNanos" r.2.2 None].
Definition profile_row (r : Z * (V * V)) : BlockProfile := block_row TimeFromUnixNano m r.1 (v_Int64 r.2.1) (v_Int64 r.2.2).

(** The order of the rows of a block: by series, then by time. *)
Definition row_order (a b : Z * (V * V)) : Prop :=
  (v_Int64 a.2.1 < v_Int64 b.2.1)%Z ∨ (v_Int64 a.2.1 = v_Int64 b.2.1 ∧ v_Int64 a.2.2 ≤ v_Int64 b.2.2)%Z.

Definition group_one (r : Z * (V * V)) g : grouping :=
  let g := if (v_Int64 r.2.1 =? gr_curr g)%Z then g else mkGrouping (i64 (gr_curr g + 1)) [] (flushed g) in
  mkGrouping (gr_curr g) (gr_slice g ++ [profile_row r]) (gr_iters g).

Lemma group_row_one (r : Z * (V * V)) g : group_row TimeFromUnixNano m (joined_row r) g = Ret (group_one r g).
Proof. unfold group_row, group_one, joined_row. cbn. by destruct (v_Int64 _ =? _)%Z. Qed.

Definition group_all rows g : grouping := foldl (λ g r, group_one r g) g rows.

(** The profiles so far are those of the rows, every slice is in time order, and the current series has not passed the last row. *)
Definition grouped_rows (done : list (Z * (V * V))) g : Prop :=
  concat (flushed g) = profile_row <$> done ∧ Forall (StronglySorted by_time) (flushed g) ∧ (-1 ≤ gr_curr g)%Z ∧
  match last done with
  | None => gr_slice g = [] ∧ gr_curr g = (-1)%Z
  | Some r => (gr_curr g ≤ v_Int64 r.2.1)%Z ∧ ∃ k, gr_slice g = profile_row <$> k ∧ k ≠ [] ∧ k `suffix_of` done ∧ Forall (λ r', v_Int64 r'.2.1 = v_Int64 r.2.1) k
  end.

Lemma flushed_snoc g x : flushed (mkGrouping (gr_curr g) (gr_slice g ++ [x]) (gr_iters g)) = gr_iters g ++ [gr_slice g ++ [x]].
Proof. unfold flushed. simpl. by destruct (gr_slice g). Qed.

Context (Hmono : ∀ a b, (a ≤ b)%Z → (TimeFromUnixNano a ≤ TimeFromUnixNano b)%Z).

Lemma group_one_ok done r g : grouped_rows done g → StronglySorted row_order (done ++ [r]) → (0 ≤ v_Int64 r.2.1 < max_int64)%Z → grouped_rows (done ++ [r]) (group_one r g).
Proof.
  intros (Hc & Hs & Hlo & Hl) Hord Hr. apply StronglySorted_app in Hord as (Hbefore & _ & _). unfold grouped_rows. rewrite last_snoc, fmap_app. unfold group_one.
  assert (Hle : ∀ r', r' ∈ done → row_order r' r) by (intros r' Hr'; apply Hbefore; [done|by left]).
  destruct (Z.eqb_spec (v_Int64 r.2.1) (gr_curr g)) as [He|He].
  - destruct (last done) as [rl|] eqn:El; [|lia]. destruct Hl as (Hcl & k & Hk & Hkne & Hsuf & Hsame).
    assert (Hrl : rl ∈ done) by (apply last_Some in El as [l' ->]; apply elem_of_app; right; by left).
    assert (Hseries : v_Int64 rl.2.1 = v_Int64 r.2.1) by (destruct (Hle rl Hrl) as [?|[? _]]; lia).
    assert (Hfl : flushed g = gr_iters g ++ [gr_slice g]) by (unfold flushed; rewrite Hk; by destruct k).
    rewrite flushed_snoc. rewrite Hfl in Hc, Hs. rewrite concat_app in Hc |- *. cbn [concat] in *. rewrite !app_nil_r in *. rewrite app_assoc, Hc. split; [done|].
    apply Forall_app in Hs as [Hs1 Hs2%Forall_inv]. split.
    { apply Forall_app. split; [done|]. constructor; [|done]. apply StronglySorted_app. split; [|split; [done|by repeat constructor]].
      intros x y Hx ->%list_elem_of_singleton. rewrite Hk in Hx. apply list_elem_of_fmap in Hx as (r' & -> & Hr'). rewrite Forall_forall in Hsame.
      assert (Hin : r' ∈ done) by (destruct Hsuf as [l' ->]; apply elem_of_app; by right). unfold by_time. simpl. apply Hmono.
      specialize (Hsame r' Hr'). destruct (Hle r' Hin) as [?|[_ ?]]; lia. }
    split; [done|]. simpl. split; [lia|]. exists (k ++ [r]). rewrite Hk, fmap_app. split; [done|]. split; [by destruct k|]. split.
    { destruct Hsuf as [l' ->]. exists l'. by rewrite app_assoc. }
    apply Forall_app. split; [|by repeat constructor]. eapply Forall_impl; [exact Hsame|]. intros r' Hr'. simpl in *. congruence.
  - set (g' := mkGrouping (i64 (gr_curr g + 1)) [] (flushed g)). change (gr_curr g') with (i64 (gr_curr g + 1)). rewrite (flushed_snoc g').
    change (gr_iters g') with (flushed g). change (gr_slice g') with (@nil BlockProfile). rewrite concat_app, Hc. split; [done|]. split; [apply Forall_app; split; [done|by repeat constructor]|].
    assert (Hlt : (gr_curr g < v_Int64 r.2.1)%Z).
    { destruct (last done) as [rl|] eqn:El; [|lia]. assert (Hrl : rl ∈ done) by (apply last_Some in El as [l' ->]; apply elem_of_app; right; by left).
      destruct Hl as (Hcl & _). destruct (Hle rl Hrl) as [?|[? _]]; lia. }
    cbn [gr_curr gr_slice gr_iters]. rewrite i64_small by (unfold int64_range, min_int64, max_int64 in *; lia). split; [lia|]. split; [lia|]. exists [r]. split; [done|]. split; [done|].
    split; [by exists done|by repeat constructor].
Qed.

Lemma group_all_ok rows : ∀ done g, grouped_rows done g → StronglySorted row_order (done ++ rows) → Forall (λ r, (0 ≤ v_Int64 r.2.1 < max_int64)%Z) rows → grouped_rows (done ++ rows) (group_all rows g).
Proof.
  induction rows as [|r rows IH]; intros done g Hg Hs Hr; simpl; [by rewrite app_nil_r|]. apply Forall_cons in Hr as [Hr Hrs].
  rewrite (cons_middle r done rows), app_assoc in Hs |- *. apply IH; [|done|done]. apply group_one_ok; [done| |done]. by apply StronglySorted_app in Hs as (_ & Hs & _).
Qed.

(** In any order, no row is lost. *)
Lemma flushed_concat g : concat (flushed g) = concat (gr_iters g) ++ gr_slice g.
Proof. unfold flushed. destruct (gr_slice g); [by rewrite app_nil_r|]. by rewrite concat_app; cbn; rewrite app_nil_r. Qed.

Lemma group_all_concat rows : ∀ g, concat (flushed (group_all rows g)) = concat (flushed g) ++ (profile_row <$> rows).
Proof.
  induction rows as [|r rows IH]; intros g; cbn [group_all foldl fmap list_fmap]; [by rewrite app_nil_r|]. fold (group_all rows (group_one r g)). rewrite IH.
  rewrite (cons_middle (profile_row r)), app_assoc. f_equal. rewrite (flushed_concat (group_one r g)). unfold group_one. destruct (_ =? _)%Z; cbn; rewrite ?flushed_concat; by rewrite ?app_assoc.
Qed.

(** The loop over the join. *)
Lemma group_rows_spec `{!@SeekIteratorOk (errSeekIterator + ColumnIterator (mapPredicate (λ k, k) labelsInfo + IntBetweenPredicate) V R) V R sum_iterator 0} fuel : ∀ j rows g,
  join_view (d := 0) j (joined_row <$> rows) → length rows < fuel → group_rows TimeFromUnixNano fuel m j g = Ret (group_all rows g).
Proof.
  induction fuel as [|fuel IH]; intros j rows g Hj Hf; [lia|]. cbn [group_rows]. assert (Hd : 0 < 6) by lia. pose proof (@join_Next_spec _ _ _ _ _ _ Hd j _ Hj) as Hn. destruct rows as [|r rows]; csimpl in Hn.
  - destruct Hn as (j' & -> & _ & _). done.
  - destruct Hn as (j' & -> & Hr & Hj'). cbn [obind]. rewrite Hr. cbn [default from_option]. change (id (joined_row r)) with (joined_row r). rewrite group_row_one. cbn [obind]. simpl in Hf. exact (IH j' rows (group_one r g) Hj' ltac:(lia)).
Qed.
End Grouping.

(** ** What a block holds *)

Section BlockSpec.
Context {I P V R : Type} `{PostingsOk P, !PostingsRobust P, IndexReader I P, BlockIndex I, PqValue V}.
Context (Matches : Matcher → string → bool) (Inverse : Matcher → outcome Matcher) (GetRegexString : Matcher → string) (UnixNano TimeFromUnixNano : Z → Z)
  (ParseMetricSelector : string → list Matcher + string) (schedule : string → list (list bool)) (range : gmap Z labelsInfo → list Z) (column_error : string → string).
Implicit Types (b : singleBlockQuerier I V) (series : gmap N (N * Labels * ChunkMeta)).

(** The index has the series with their fingerprints, labels and first chunks, whose series numbers are distinct. *)
Record block_series (ix : I) series : Prop := {
  bs_reads : index_reads ix None ((λ s, s.1.2) <$> series);
  bs_series : ∀ r fp lbs c, series !! r = Some (fp, lbs, c) → ∃ chks, bi_Series ix r = Ret (fp, lbs, c :: chks);
  bs_distinct : ∀ r r' s s', series !! r = Some s → series !! r' = Some s' → c_SeriesIndex s.2 = c_SeriesIndex s'.2 → r = r' }.

(** A column of the file: its chunks are as the library reports them, and its values are at the top level. *)
Definition column_holds b (name : string) (vs : list V) : Prop :=
  ∃ i gs, bq_column b name = Some i ∧ column_chunks i (bq_RowGroups b) = Ret gs ∧ Forall (chunk_ok int_le) gs ∧ groups_vals gs = vs ∧
    Forall flat vs ∧ (Z.of_nat (length vs) ≤ max_int64)%Z.

(** The rows with their numbers. *)
Definition block_rows (n : Z) (vs ws : list V) : list (Z * (V * V)) := imap (λ i p, ((n + Z.of_nat i)%Z, p)) (zip vs ws).

(** An open file with the two columns. *)
Record block_file b (vs ws : list V) : Prop := {
  bf_open : bq_open b = None;
  bf_groups : bq_RowGroups b ≠ [];
  bf_series : column_holds b "SeriesIndex" vs;
  bf_times : column_holds b "TimeNanos" ws;
  bf_numbers : Forall (λ v, (0 ≤ v_Int64 v < max_int64)%Z) vs }.

(** ** Proofs *)

Lemma gather_spec ix series refs : block_series ix series → NoDup refs → (∀ r, r ∈ refs → is_Some (series !! r)) → ∀ before m,
  (∀ r, r ∈ refs → (r ∉ before)) → (∀ k info, m !! k = Some info ↔ ∃ r c, r ∈ before ∧ series !! r = Some (in_fp info, in_lbs info, c) ∧ k = Z.of_N (c_SeriesIndex c)) →
  ∃ m', gather_labels ix refs m = Ret m' ∧
    ∀ k info, m' !! k = Some info ↔ ∃ r c, r ∈ before ++ refs ∧ series !! r = Some (in_fp info, in_lbs info, c) ∧ k = Z.of_N (c_SeriesIndex c).
Proof.
  intros Hix. induction refs as [|r refs IH]; intros Hnd Hin before m Hb Hm; [exists m; by rewrite app_nil_r|]. apply NoDup_cons in Hnd as [Hr Hnd].
  destruct (Hin r ltac:(by left)) as [[[fp lbs] c] Hs]. destruct (bs_series _ _ Hix _ _ _ _ Hs) as [chks Hser]. cbn [gather_labels]. rewrite Hser. cbn [obind].
  assert (Hnone : m !! Z.of_N (c_SeriesIndex c) = None).
  { destruct (m !! Z.of_N (c_SeriesIndex c)) as [info|] eqn:E; [|done]. apply Hm in E as (r' & c' & Hr' & Hs' & Hk). apply N2Z.inj in Hk.
    pose proof (bs_distinct _ _ Hix _ _ _ _ Hs Hs' Hk) as <-. by destruct (Hb r ltac:(by left)). }
  rewrite Hnone. rewrite (cons_middle r before refs), app_assoc. apply IH; [done|intros r' Hr'; apply Hin; by right| |].
  - intros r' Hr'. rewrite elem_of_app, list_elem_of_singleton. intros [Hr2| ->]; [by apply (Hb r'); [by right|]|done].
  - intros k info. rewrite lookup_insert. case_decide as Hk.
    + subst k. split; [intros [= <-]; exists r, c; split; [apply elem_of_app; right; by left|done]|]. intros (r' & c' & _ & Hs' & Hk). apply N2Z.inj in Hk.
      pose proof (bs_distinct _ _ Hix _ _ _ _ Hs Hs' Hk) as <-. rewrite Hs in Hs'. destruct info; simpl in *. congruence.
    + rewrite Hm. split; intros (r' & c' & Hr' & Hs' & Hk').
      * exists r', c'. split; [apply elem_of_app; by left|done].
      * apply elem_of_app in Hr' as [Hr'| ->%list_elem_of_singleton]; [by exists r', c'|]. rewrite Hs in Hs'. injection Hs' as _ _ <-. by destruct Hk.
Qed.

Lemma both_matching t1 t2 : ∀ vs n ws,
  both_rows (R := R) "SeriesIndex" "TimeNanos" t1 t2 n vs ws = joined_row <$> filter (λ r, t1 r.2.1 && t2 r.2.2 = true) (block_rows n vs ws).
Proof.
  unfold block_rows. induction vs as [|v vs IH]; intros n ws; [done|]. destruct ws as [|w ws]; [done|]. cbn [both_rows zip zip_with imap]. rewrite filter_cons, IH.
  assert (Hi : imap ((λ i p, ((n + Z.of_nat i)%Z, p)) ∘ S) (zip vs ws) = imap (λ i p, ((n + 1 + Z.of_nat i)%Z, p)) (zip vs ws)).
  { apply imap_ext. intros i x _. simpl. f_equal. lia. }
  rewrite Hi, Z.add_0_r. cbn [fst snd]. destruct (t1 v && t2 w); case_decide; done.
Qed.

Abbreviation block_pred := (mapPredicate (λ k, k) labelsInfo + IntBetweenPredicate)%type (only parsing).

#[local] Instance block_column_ok : @SeekIteratorOk (ColumnIterator block_pred V R) V R column_iterator 0 := column_iterator_ok (le := int_le) 0 (Nat.lt_0_succ 5).

Lemma columnIter_view b name (pred : block_pred) alias vs : alias ≠ "" → bq_RowGroups b ≠ [] → column_holds b name vs → p_state (le := int_le) pred →
  ∃ it, columnIter (R := R) schedule column_error b name pred alias = Ret it ∧ si_view (d := 0) it (flat_rows alias (p_keeps (le := int_le) pred) 0 vs).
Proof.
  intros Ha Hne (i & gs & Hi & Hgs & Hok & <- & Hflat & Hlen) Hs. unfold columnIter. rewrite Hi. unfold NewColumnIterator. destruct (bq_RowGroups b) as [|rg rgs]; [done|]. rewrite Hgs.
  cbn [obind]. eexists. split; [done|]. exists (p_keeps (le := int_le) pred).
  pose proof (flat_column (R := R) alias (p_keeps (le := int_le) pred) EmptyRowNumber (groups_vals gs) Ha Hflat) as Hf. change (row0 EmptyRowNumber + 1)%Z with 0%Z in Hf.
  rewrite <- Hf by (split; [done|]; repeat constructor; lia). apply (new_column_view (le := int_le)); try done. lia.
Qed.

(** The rows of the selection. *)
Definition selected (m : gmap Z labelsInfo) (start end_ : Z) (r : Z * (V * V)) : Prop :=
  is_Some (m !! v_Int64 r.2.1) ∧ (UnixNano start ≤ v_Int64 r.2.2 ≤ UnixNano end_)%Z.
#[export] Instance selected_dec m start end_ r : Decision (selected m start end_ r).
Proof. unfold selected. apply _. Defined.

Lemma select_rows_spec b vs ws m start end_ : (∀ x y, (x ≤ y)%Z → (TimeFromUnixNano x ≤ TimeFromUnixNano y)%Z) → (∀ m k, k ∈ range m ↔ is_Some (m !! k)) → block_file b vs ws →
  ∃ slices, select_rows (R := R) UnixNano TimeFromUnixNano schedule range column_error b m start end_ = Ret (NewSortProfileIterator (NewSliceIterator <$> slices)) ∧
    concat slices = profile_row TimeFromUnixNano m <$> filter (selected m start end_) (block_rows 0 vs ws) ∧
    (StronglySorted row_order (block_rows 0 vs ws) → Forall (StronglySorted by_time) slices).
Proof.
  intros Hmono Hrange Hf. unfold select_rows. destruct (newMapPredicate_bounds (K := λ k, k) (range m) m) as [Hb Hm]; [intros k Hk; by apply Hrange|].
  destruct (columnIter_view b "SeriesIndex" (inl (newMapPredicate (λ k, k) (range m) m)) "SeriesIndex" vs) as (it1 & -> & Hv1); [done|apply Hf|apply Hf|exact Hb|].
  destruct (columnIter_view b "TimeNanos" (inr (NewIntBetweenPredicate (UnixNano start) (UnixNano end_))) "TimeNanos" ws) as (it2 & -> & Hv2); [done|apply Hf|apply Hf|done|].
  cbn [obind]. set (t1 := p_keeps _) in Hv1. set (t2 := p_keeps _) in Hv2. set (rows := filter (λ r, t1 r.2.1 && t2 r.2.2 = true) (block_rows 0 vs ws)).
  assert (Hd : 0 < 6) by lia. set (j := NewJoinIterator 0 [it1; it2] None).
  assert (Hj : join_view (d := 0) j (joined_row <$> rows)).
  { split; [done|]. exists [flat_rows "SeriesIndex" t1 0 vs; flat_rows "TimeNanos" t2 0 ws]. split; [done|]. split; [by repeat constructor|].
    unfold rows. rewrite <- both_matching. symmetry. apply join_flat. }
  pose proof (proj2 (join_view_rows Hd j _ Hj)) as Hlen. rewrite length_fmap in Hlen.
  rewrite (group_rows_spec TimeFromUnixNano m _ j rows) by (done || lia). cbn [obind].
  assert (Hrows : rows = filter (selected m start end_) (block_rows 0 vs ws)).
  { unfold rows. apply filter_ext_in. intros r _. unfold t1, t2, selected. simpl. rewrite Hm, andb_true_iff, andb_true_iff, !Z.leb_le. split; intros [Hs Ht]; (split; [|lia]).
    - by destruct (m !! _).
    - by destruct Hs as [info ->]. }
  exists (flushed (group_all TimeFromUnixNano m rows (mkGrouping (-1) [] []))). split; [done|]. split; [by rewrite group_all_concat, <- Hrows|]. intros Hord.
  destruct (group_all_ok TimeFromUnixNano m Hmono rows [] (mkGrouping (-1) [] [])) as (_ & Hs & _); [by split_and!|by apply StronglySorted_filter| |exact Hs].
  apply Forall_forall. intros r [_ Hr]%list_elem_of_filter. unfold block_rows in Hr. apply elem_of_lookup_imap in Hr as (i & [v w] & -> & Hr). simpl.
  pose proof (bf_numbers _ _ _ Hf) as Hn. rewrite Forall_forall in Hn. apply Hn. apply list_elem_of_lookup_2 in Hr. by apply elem_of_zip_l in Hr.
Qed.

(** C17: A block selects exactly the matching profiles.  Over an index that keeps its contract and a file with the two columns, whatever the
    row groups, the order of the rows and the schedules of the two readers, selecting profiles succeeds; the returned iterator yields,
    without error, exactly one profile for every row whose series is one of those the matchers accept and whose time is in the range, with
    the labels, fingerprint, time and number of that row.  If the rows of the file are in order of series and time, the profiles are in time
    order; the rows of several row groups need not be ([slices_mix_series]). *)
Theorem BlockSelect_correct multierror b series vs ws labelSelector ty start end_ matchers :
  (limit (St := P) ≤ 2 ^ 64)%N → matcher_laws Matches Inverse GetRegexString →
  (∀ x y, (x ≤ y)%Z → (TimeFromUnixNano x ≤ TimeFromUnixNano y)%Z) → (∀ m k, k ∈ range m ↔ is_Some (m !! k)) →
  ParseMetricSelector labelSelector = inl matchers → Forall (λ m, m_name m ≠ "" ∧ valid_matcher m) matchers →
  block_series (bq_index b) series → block_file b vs ws →
  ∃ it m out e,
    BlockSelectMatchingProfiles (R := R) Matches Inverse GetRegexString UnixNano TimeFromUnixNano ParseMetricSelector schedule range column_error b labelSelector ty start end_ = Ret it ∧
    (∀ k info, m !! k = Some info ↔ ∃ r c, series !! r = Some (in_fp info, in_lbs info, c) ∧
       accepted Matches (matchers ++ [profile_type_matcher ty]) (in_lbs info) ∧ k = Z.of_N (c_SeriesIndex c)) ∧
    @yields _ _ (sort_iter multierror) it out e ∧ so_errs e = [] ∧
    out ≡ₚ profile_row TimeFromUnixNano m <$> filter (selected m start end_) (block_rows 0 vs ws) ∧
    (StronglySorted row_order (block_rows 0 vs ws) → StronglySorted by_time out).
Proof.
  intros Hlim Hlaws Hmono Hrange Hparse Hnames Hix Hfile. unfold BlockSelectMatchingProfiles. rewrite (bf_open _ _ _ Hfile), Hparse.
  destruct (PostingsForMatchers_spec Matches Inverse GetRegexString (bq_index b) None _ (matchers ++ [profile_type_matcher ty]) Hlim Hlaws (bs_reads _ _ Hix)) as (p & l & -> & Hexp & Hsorted & Hl).
  { by destruct matchers. } { apply Forall_app. split; [done|]. by repeat constructor. }
  cbn [obind]. rewrite Hexp. cbn [fst].
  destruct (gather_spec (bq_index b) series l Hix (StronglySorted_lt_NoDup _ Hsorted)) with (before := @nil N) (m := (∅ : gmap Z labelsInfo)) as (m & -> & Hm).
  { intros r Hr. apply Hl in Hr as (lbs & Hs & _). rewrite lookup_fmap in Hs. destruct (series !! r) as [s|] eqn:E; [by exists s|done]. }
  { by intros r _ ?%elem_of_nil. } { intros k info. rewrite lookup_empty. split; [done|]. by intros (r & c & ?%elem_of_nil & _). }
  cbn [obind]. destruct (select_rows_spec b vs ws m start end_ Hmono Hrange Hfile) as (slices & -> & Hc & Hs).
  set (runs := (λ s, mkRun (NewSliceIterator s) s (mkSliceIterator [] zero)) <$> slices).
  assert (Transitive (λ _ _ : BlockProfile, True)) by done.
  destruct (sort_iter_run multierror (λ _ _, True) (λ _ _ _, Logic.I) runs) as (out & e & Hy & Ho & _ & He).
  { apply Forall_fmap, Forall_true. intros s. split; [apply slice_yields|]. clear. induction s; constructor; [done|]. by apply Forall_true. }
  assert (StronglySorted row_order (block_rows 0 vs ws) → StronglySorted by_time out) as Hso.
  { intros Hord. destruct (sort_iter_run multierror by_time by_key_time runs) as (out2 & e2 & Hy2 & _ & Hs2 & _).
    - apply Forall_fmap. eapply Forall_impl; [by apply Hs|]. intros s Hs'. split; [apply slice_yields|done].
    - by destruct (@yields_det _ _ (sort_iter multierror) _ _ _ _ _ Hy Hy2) as [-> _]. }
  unfold runs in Hy, Ho, He.
  rewrite <- list_fmap_compose in Hy. exists (NewSortProfileIterator (NewSliceIterator <$> slices)), m, out, e. split; [done|]. split.
  { intros k info. rewrite Hm. simpl. split.
    - intros (r & c & Hr & Hsr & ->). exists r, c. split; [done|]. split; [|done]. apply Hl in Hr as (lbs & Hlb & Hacc). rewrite lookup_fmap, Hsr in Hlb. by injection Hlb as <-.
    - intros (r & c & Hsr & Hacc & ->). exists r, c. split; [|done]. apply Hl. exists (in_lbs info). split; [|done]. by rewrite lookup_fmap, Hsr. }
  split; [exact Hy|]. split; [|split; [|exact Hso]].
  - apply Permutation_nil_r. rewrite He. unfold end_errors. rewrite <- list_fmap_compose. clear. induction slices as [|s slices IH]; [done|]. csimpl. exact IH.
  - rewrite Ho, <- Hc. unfold all_values. rewrite <- list_fmap_compose. by rewrite list_fmap_id.
Qed.
End BlockSpec.

(** *** At a concrete block *)

#[local] Instance flat_value : PqValue Z := {| v_Int64 := id; v_ByteArray _ := ""; v_String _ := ""; v_RepetitionLevel _ := 0; v_DefinitionLevel _ := 0 |}.
#[local] Instance map_block : BlockIndex (gmap N Labels) :=
  {| bi_Series m r := match m !! r with Some lbs => Ret ((100 * r)%N, lbs, [mkChunkMeta 0 0 0 0 r]) | None => Fail "not found" end |}.

Definition block_example : singleBlockQuerier (gmap N Labels) Z :=
  let column vs := mkChunk None [inl (mkPage (Z.of_nat (length vs)) None None [(vs, Some EOF)])] in
  mkBlock None {[ 5%N := [mkLabel "__profile_type__" "::::"; mkLabel "app" "a"]; 7%N := [mkLabel "__profile_type__" "::::"; mkLabel "app" "b"] ]}
    [mkRowGroup 3 [column [5; 5; 7]%Z; column [10; 30; 20]%Z]] (λ name, if String.eqb name "SeriesIndex" then Some 0 else if String.eqb name "TimeNanos" then Some 1 else None).

Lemma block_example_file : block_file block_example [5; 5; 7]%Z [10; 30; 20]%Z.
Proof.
  assert (Hflat : ∀ vs : list Z, Forall flat vs) by (intros vs; apply Forall_true; by intros).
  split; [done|done| | |repeat constructor; simpl; unfold max_int64; lia].
  - eexists 0, _. split; [done|]. split; [done|]. split; [|split; [done|split; [apply Hflat|by vm_compute]]]. repeat constructor; simpl; unfold levels_ok, in_page; simpl; try done; lia.
  - eexists 1, _. split; [done|]. split; [done|]. split; [|split; [done|split; [apply Hflat|by vm_compute]]]. repeat constructor; simpl; unfold levels_ok, in_page; simpl; try done; lia.
Qed.

Definition series_example : gmap N (N * Labels * ChunkMeta) :=
  let series r v := ((100 * r)%N, [mkLabel "__profile_type__" "::::"; mkLabel "app" v], mkChunkMeta 0 0 0 0 r) in {[ 5%N := series 5%N "a"; 7%N := series 7%N "b" ]}.

Lemma series_example_cases r s : series_example !! r = Some s → (r = 5%N ∨ r = 7%N) ∧ s.2 = mkChunkMeta 0 0 0 0 r ∧ s.1.1 = (100 * r)%N ∧ bq_index block_example !! r = Some s.1.2.
Proof.
  unfold series_example. intros [[<- <-]|[_ [<- <-]%lookup_singleton_Some]]%lookup_insert_Some; simpl; (split; [by auto|]); by split_and!.
Qed.

Lemma block_example_series : block_series (P := sliceIterator N) (bq_index block_example) series_example.
Proof.
  split.
  - assert (Hm : (λ s, s.1.2) <$> series_example = bq_index block_example) by (apply (bool_decide_unpack _); vm_compute; exact I).
    rewrite Hm. apply map_reads. apply (bool_decide_unpack _). vm_compute. exact I.
  - intros r fp lbs c Hs. destruct (series_example_cases _ _ Hs) as (_ & Hc & Hf & Hl). simpl in *. rewrite Hl. subst. by exists [].
  - intros r r' s s' Hs Hs' E. destruct (series_example_cases _ _ Hs) as (_ & H1 & _). destruct (series_example_cases _ _ Hs') as (_ & H2 & _). rewrite H1, H2 in E. exact E.
Qed.

Lemma BlockSelect_correct_witness :
  ∃ it out e,
    BlockSelectMatchingProfiles (P := sliceIterator N) (R := unit) plain_matches plain_inverse (λ m, wrapped (m_value m)) id id (λ _, inl [mkMatcher MatchEqual "app" "a"]) (λ _, [[true]])
      (λ m, (map_to_list m).*1) id block_example "app" (mkProfileType "" "" "" "" "" "") 0 25 = Ret it ∧
    @yields _ _ (sort_iter (λ _, None)) it out e ∧ mkBlockProfile [mkLabel "__profile_type__" "::::"; mkLabel "app" "a"] 500 10 0 ∈ out.
Proof.
  destruct (BlockSelect_correct (P := sliceIterator N) (R := unit) plain_matches plain_inverse (λ m, wrapped (m_value m)) id id (λ _, inl [mkMatcher MatchEqual "app" "a"]) (λ _, [[true]])
      (λ m, (map_to_list m).*1) id (λ _, None) block_example series_example [5; 5; 7]%Z [10; 30; 20]%Z "app" (mkProfileType "" "" "" "" "" "") 0 25 [mkMatcher MatchEqual "app" "a"])
    as (it & m & out & e & Hit & Hm & Hy & _ & Hout & _).
  - reflexivity.
  - apply plain_laws.
  - done.
  - intros m k. rewrite list_elem_of_fmap. split; [intros ([k' i] & -> & Hk%elem_of_map_to_list); by exists i|]. intros [i Hk]. exists (k, i). split; [done|]. by apply elem_of_map_to_list.
  - done.
  - by repeat constructor.
  - exact block_example_series.
  - exact block_example_file.
  - exists it, out, e. split; [exact Hit|]. split; [exact Hy|]. rewrite Hout. apply list_elem_of_fmap.
    assert (Hm5 : m !! 5%Z = Some (mkLabelsInfo 500 [mkLabel "__profile_type__" "::::"; mkLabel "app" "a"])).
    { apply Hm. exists 5%N, (mkChunkMeta 0 0 0 0 5). split; [done|]. split; [|done]. intros mt [->%list_elem_of_singleton| ->%list_elem_of_singleton]%elem_of_app; vm_compute; reflexivity. }
    exists (0%Z, (5%Z, 10%Z)). split; [unfold profile_row, block_row; simpl; by rewrite Hm5|]. apply list_elem_of_filter. split; [|by left].
    split; [simpl; by rewrite Hm5|simpl; lia].
Defined.

(** Two row groups, each in order of its series: the last two rows, of different series and not in time order, end in one slice. *)
Example slices_mix_series :
  let row n s t := (n, (s, t)) in
  gr_slice (group_all id ∅ [row 0 2 10; row 1 2 20; row 2 2 30; row 3 0 90; row 4 3 50]%Z (mkGrouping (-1) [] [])) =
    [mkBlockProfile [] 0 90 3; mkBlockProfile [] 0 50 4].
Proof. reflexivity. Qed.
