(* ===== verification/Repeated.v ===== *)
(** * Repeated values of chosen rows (src/pkg/phlaredb/query/repeated.go)

    [repeatedPageIterator] reads, for rows chosen by another iterator, the values of a repeated column.  It seeks
    to the page of a row, reads values in buffers of a fixed size, and passes over rows in between; a row
    that crosses buffers is given in pieces.  The parquet pages are a parameter, [PagesReader]. *)

From S2P Require Import Prelude Labels GoHeap Iter Predicates ColumnIter.

(** [SeekToRow] and [ReadPage] on the pages of a chunk, and closing them. *)
Inductive page_result (V : Type) := SeekError (e : string) | PageEOF | PageError (e : string) | PageOf (pg : Page V).
Arguments SeekError {V} _. Arguments PageEOF {V}. Arguments PageError {V} _. Arguments PageOf {V} _.

Class PagesReader (C V : Type) := {
  SeekRead : C → Z → page_result V;
  ClosePages : C → option string;
  NumValues : C → nat }.

(** One read of values: the values, the error, and the reads that are left. *)
Definition read_values_once {V} (rs : list (value_read V)) : list V * option read_error * list (value_read V) :=
  match rs with
  | [] => ([], Some EOF, [])
  | (vs, None) :: rs => (vs, None, rs)
  | (vs, Some e) :: _ => (vs, Some e, [])
  end.

Record repeatedPageIterator (St T V C : Type) := mkRepeated {
  rp_rows : St;
  rp_rgs : list (Z * C);
  rp_startRowGroup : Z;
  rp_page : option (Page V);
  rp_startPage : Z;
  rp_pageNext : Z;
  rp_pages : option C;
  rp_rowFinished : bool;
  rp_skipping : bool;
  rp_err : option string;
  rp_done : bool;
  rp_current : option (T * list V);
  rp_buffer : list V }.
Arguments mkRepeated {St T V C} _ _ _ _ _ _ _ _ _ _ _ _ _.
Arguments rp_rows {St T V C} _. Arguments rp_rgs {St T V C} _. Arguments rp_startRowGroup {St T V C} _. Arguments rp_page {St T V C} _.
Arguments rp_startPage {St T V C} _. Arguments rp_pageNext {St T V C} _. Arguments rp_pages {St T V C} _. Arguments rp_rowFinished {St T V C} _.
Arguments rp_skipping {St T V C} _. Arguments rp_err {St T V C} _. Arguments rp_done {St T V C} _. Arguments rp_current {St T V C} _. Arguments rp_buffer {St T V C} _.

Section Repeated.
Context {St T V C : Type} `{Iterator St T, PqValue V, PagesReader C V} (row_of : T → Z).
Abbreviation it_state := (repeatedPageIterator St T V C) (only parsing).
Implicit Types (s : repeatedPageIterator St T V C).

Definition NewRepeatedPageIterator (rows : St) (rgs : list (Z * C)) (readSize : Z) : outcome it_state :=
  if (readSize <=? 0)%Z then Panic
  else let '(more, rows) := Next rows in Ret (mkRepeated rows rgs 0 None 0 0 None true false None (negb more) None []).

Definition seekRowNum s : Z := row_of (At (rp_rows s)).

(** The first start of a row in a buffer and the end of that row; [false] if it does not end there. *)
Fixpoint scan_row (i start : nat) (foundStart : bool) (buf : list V) : nat * nat * bool :=
  match buf with
  | [] => (start, i, false)
  | v :: buf =>
      if (v_RepetitionLevel v =? 0)%nat then
        if foundStart then (start, i, true) else scan_row (S i) i true buf
      else scan_row (S i) start foundStart buf
  end.
Definition readNextRow (buf : list V) : nat * nat * bool := scan_row 0 0 false buf.

(** The row groups before the row are closed and left. *)
Fixpoint leave_groups (row : Z) (rgs : list (Z * C)) (start : Z) (pages : option C) : (list (Z * C) * Z * option C) + (string * list (Z * C) * Z) :=
  match rgs with
  | [] => inl ([], start, pages)
  | (n, c) :: rest =>
      if (start + n <=? row)%Z then
        match match pages with Some p => ClosePages p | None => None end with
        | Some e => inr (e, rgs, start)
        | None => leave_groups row rest (start + n) None
        end
      else inl (rgs, start, pages)
  end.

(** [it.done = !it.rows.Next()] *)
Definition next_wanted s : it_state :=
  let '(more, rows) := Next (rp_rows s) in
  mkRepeated rows (rp_rgs s) (rp_startRowGroup s) (rp_page s) (rp_startPage s) (rp_pageNext s) (rp_pages s) (rp_rowFinished s) (rp_skipping s) (rp_err s)
    (negb more) (rp_current s) (rp_buffer s).

Definition with_page s page : it_state :=
  mkRepeated (rp_rows s) (rp_rgs s) (rp_startRowGroup s) page (rp_startPage s) (rp_pageNext s) (rp_pages s) (rp_rowFinished s) (rp_skipping s) (rp_err s)
    (rp_done s) (rp_current s) (rp_buffer s).
Definition with_err s pages e : it_state :=
  mkRepeated (rp_rows s) (rp_rgs s) (rp_startRowGroup s) (rp_page s) (rp_startPage s) (rp_pageNext s) pages (rp_rowFinished s) (rp_skipping s) (Some e)
    (rp_done s) (rp_current s) (rp_buffer s).
Definition with_row s pageNext rowFinished skipping current buffer : it_state :=
  mkRepeated (rp_rows s) (rp_rgs s) (rp_startRowGroup s) (rp_page s) (rp_startPage s) pageNext (rp_pages s) rowFinished skipping (rp_err s)
    (rp_done s) current buffer.

(** What an iteration of the loop does: go on, or return. *)
Definition again s : it_state + (bool * it_state) := inl s.
Definition return_ (b : bool) s : it_state + (bool * it_state) := inr (b, s).

(** The rows in the buffer.  The row of the current value is written together with its values. *)
Definition on_buffer s : it_state + (bool * it_state) :=
  let row := At (rp_rows s) in
  let buf := rp_buffer s in
  let '(start, next, ok) := readNextRow buf in
  let ahead := (rp_startPage s + rp_pageNext s <? seekRowNum s)%Z in
  let starts := match buf !! start with Some v => (v_RepetitionLevel v =? 0)%nat | None => false end in
  if ok && rp_rowFinished s then
    if ahead then again (with_row s (rp_pageNext s + 1) true (rp_skipping s) (rp_current s) (drop next buf))
    else return_ true (next_wanted (with_row s (rp_pageNext s + 1) true (rp_skipping s) (Some (row, take next buf)) (drop next buf)))
  else if rp_rowFinished s || rp_skipping s then
    if ahead then
      if rp_skipping s && starts then again (with_row s (rp_pageNext s + 1) true false (rp_current s) (drop start buf))
      else again (with_row s (rp_pageNext s) false true (rp_current s) (drop (if (start =? 0)%nat then next else S start) buf))
    else return_ true (with_row s (rp_pageNext s) false (rp_skipping s) (Some (row, take next buf)) (drop next buf))
  else if starts then
    if (1 <=? start)%nat then return_ true (with_row s (rp_pageNext s) false (rp_skipping s) (Some (row, take start buf)) (drop start buf))
    else again (next_wanted (with_row s (rp_pageNext s + 1) true (rp_skipping s) (rp_current s) buf))
  else return_ true (with_row s (rp_pageNext s) false (rp_skipping s) (Some (row, take next buf)) (drop next buf)).

(** The buffer is read when it is empty; at the end of the page the row is over.  What a failed read leaves in the buffer is not kept. *)
Definition fill_buffer s (pg : Page V) : it_state + (bool * it_state) :=
  match rp_buffer s with
  | _ :: _ => on_buffer s
  | [] =>
      let '(vs, e, rest) := read_values_once (pg_Reads pg) in
      match e with
      | Some (ReadError e) => return_ false (with_err s (rp_pages s) e)
      | _ =>
          match vs with
          | [] => again (with_page (next_wanted s) None)
          | _ => on_buffer (with_row (with_page s (Some (mkPage (pg_NumRows pg) (pg_Bounds pg) (pg_Dictionary pg) rest)))
                              (rp_pageNext s) (rp_rowFinished s) (rp_skipping s) (rp_current s) vs)
          end
      end
  end.

Definition on_loaded s (pg : Page V) : it_state + (bool * it_state) :=
  if (rp_startPage s + pg_NumRows pg <=? seekRowNum s)%Z then again (with_page s None) else fill_buffer s pg.

(** An iteration of the loop. *)
Definition repeated_step s : it_state + (bool * it_state) :=
  if rp_done s then return_ false s
  else
    match leave_groups (seekRowNum s) (rp_rgs s) (rp_startRowGroup s) (rp_pages s) with
    | inr (e, rgs, start) =>
        return_ false (mkRepeated (rp_rows s) rgs start (rp_page s) (rp_startPage s) (rp_pageNext s) None (rp_rowFinished s) (rp_skipping s) (Some e)
                         (rp_done s) (rp_current s) (rp_buffer s))
    | inl (rgs, start, pages) =>
        let s := mkRepeated (rp_rows s) rgs start (rp_page s) (rp_startPage s) (rp_pageNext s) pages (rp_rowFinished s) (rp_skipping s) (rp_err s)
                   (rp_done s) (rp_current s) (rp_buffer s) in
        match rgs with
        | [] => return_ false s
        | (_, c) :: _ =>
            let c := default c pages in
            match rp_page s with
            | Some pg => on_loaded (mkRepeated (rp_rows s) rgs start (Some pg) (rp_startPage s) (rp_pageNext s) (Some c) (rp_rowFinished s) (rp_skipping s) (rp_err s)
                                      (rp_done s) (rp_current s) (rp_buffer s)) pg
            | None =>
                let opened page pages err := mkRepeated (rp_rows s) rgs start page (seekRowNum s) 0 pages true false err (rp_done s) (rp_current s) [] in
                match SeekRead c (seekRowNum s - start) with
                | SeekError e => return_ false (with_err s None e)
                | PageEOF => again (opened None (Some c) (rp_err s))
                | PageError e => return_ false (opened None (Some c) (Some e))
                | PageOf pg => on_loaded (opened (Some pg) (Some c) (rp_err s)) pg
                end
            end
        end
    end.

Fixpoint repeated_loop (fuel : nat) s : outcome (bool * it_state) :=
  match fuel with
  | O => Panic
  | S fuel => match repeated_step s with inl s => repeated_loop fuel s | inr r => Ret r end
  end.

(** A bound on the iterations of one call. *)
Definition repeated_fuel s : nat :=
  3 + remaining (rp_rows s) + match rp_page s with Some pg => 2 + 2 * (length (rp_buffer s) + length (read_vals (pg_Reads pg))) | None => 0 end.

Definition repeated_Next s : outcome (bool * it_state) := repeated_loop (repeated_fuel s) s.

Definition repeated_Close s : option string * it_state :=
  match rp_pages s with
  | None => (None, s)
  | Some p =>
      match ClosePages p with
      | Some e => (Some e, s)
      | None => (None, mkRepeated (rp_rows s) (rp_rgs s) (rp_startRowGroup s) (rp_page s) (rp_startPage s) (rp_pageNext s) None (rp_rowFinished s) (rp_skipping s) (rp_err s)
                         (rp_done s) (rp_current s) (rp_buffer s))
      end
  end.
End Repeated.

#[export] Instance repeated_iterator {St T V C} `{Iterator St T, PqValue V, PagesReader C V} (row_of : T → Z) (t0 : T) :
    Iterator (repeatedPageIterator St T V C) (T * list V) := {|
  Next s := match repeated_Next row_of s with Ret r => r | _ => (false, s) end;
  At s := default (t0, []) (rp_current s);
  Err := rp_err;
  Close := repeated_Close;
  remaining s := sum_list_with (λ g, NumValues g.2) (rp_rgs s) |}.

(** A page that ends where it was sought is sought again without end. *)
Lemma eof_never_ends {St T V C} `{Iterator St T, PqValue V, PagesReader C V} (row_of : T → Z) fuel (s : repeatedPageIterator St T V C) n c rest :
  rp_done s = false → rp_rgs s = (n, c) :: rest → (seekRowNum row_of s < rp_startRowGroup s + n)%Z → rp_page s = None → default c (rp_pages s) = c →
  SeekRead c (seekRowNum row_of s - rp_startRowGroup s) = PageEOF → repeated_loop row_of fuel s = Panic.
Proof.
  revert s. induction fuel as [|fuel IH]; intros s Hd Hg Hl Hp Hc He; simpl; [done|]. unfold repeated_step. rewrite Hd, Hg. simpl. rewrite (proj2 (Z.leb_gt _ _)) by done.
  rewrite Hp, Hc. unfold seekRowNum in *. simpl. rewrite He. by apply IH.
Qed.

(** ** The rows of values *)

Section Rows.
Context {V : Type} `{PqValue V}.
Implicit Types (l u buf : list V) (rows : list (list V)).

Definition inner (v : V) : Prop := v_RepetitionLevel v ≠ 0.
Definition row_of_values l : Prop := match l with [] => False | v :: l => v_RepetitionLevel v = 0 ∧ Forall inner l end.

Lemma scan_inner i start f u : Forall inner u → scan_row i start f u = (start, i + length u, false).
Proof.
  revert i. induction u as [|v u IH]; intros i Hu; simpl; [f_equal; f_equal; lia|]. apply Forall_cons in Hu as [Hv Hu].
  rewrite (proj2 (Nat.eqb_neq _ _) Hv), IH by done. f_equal. f_equal. lia.
Qed.

Lemma scan_app i start f u l : Forall inner u → scan_row i start f (u ++ l) = scan_row (i + length u) start f l.
Proof.
  revert i. induction u as [|v u IH]; intros i Hu; simpl; [f_equal; lia|]. apply Forall_cons in Hu as [Hv Hu].
  rewrite (proj2 (Nat.eqb_neq _ _) Hv), IH by done. f_equal. lia.
Qed.

Lemma scan_start i start v l : v_RepetitionLevel v = 0 → scan_row i start false (v :: l) = scan_row (S i) i true l.
Proof. intros Hv. simpl. by rewrite Hv. Qed.

Lemma scan_end i start v l : v_RepetitionLevel v = 0 → scan_row i start true (v :: l) = (start, i, true).
Proof. intros Hv. simpl. by rewrite Hv. Qed.

(** Values before the first start, and the rest. *)
Lemma split_inner l : ∃ u k, l = u ++ k ∧ Forall inner u ∧ starts_row k.
Proof.
  induction l as [|v l (u & k & -> & Hu & Hk)]; [by exists [], []|]. destruct (decide (v_RepetitionLevel v = 0)) as [Hv|Hv].
  - by exists [], (v :: u ++ k).
  - exists (v :: u), k. split; [done|]. by split; [constructor|].
Qed.

Lemma inner_unique u u' k k' : Forall inner u → Forall inner u' → starts_row k → starts_row k' → u ++ k = u' ++ k' → u = u' ∧ k = k'.
Proof.
  revert u'. induction u as [|v u IH]; intros [|v' u'] Hu Hu' Hk Hk' He; simpl in *.
  - done.
  - subst k. by apply Forall_cons in Hu' as [Hv _].
  - subst k'. by apply Forall_cons in Hu as [Hv _].
  - injection He as -> He. apply Forall_cons in Hu as [_ Hu], Hu' as [_ Hu']. by destruct (IH u' Hu Hu' Hk Hk' He) as [-> ->].
Qed.

Lemma starts_concat rows : Forall row_of_values rows → starts_row (concat rows).
Proof. destruct rows as [|[|v l] rows]; [done|by intros [? _]%Forall_cons|]. by intros [[? _] _]%Forall_cons. Qed.

(** A buffer that starts within a row: it lies in the row, or has the whole rest of it. *)
Lemma buffer_cases buf more u rows : Forall inner u → Forall row_of_values rows → buf ++ more = u ++ concat rows →
  (∃ u', Forall inner buf ∧ u = buf ++ u' ∧ more = u' ++ concat rows) ∨
  (∃ v l, buf = u ++ v :: l ∧ v_RepetitionLevel v = 0 ∧ (v :: l) ++ more = concat rows).
Proof.
  intros Hu Hrows He. pose proof (starts_concat rows Hrows) as Hs. destruct (split_inner buf) as (w & k & -> & Hw & Hk). destruct k as [|v l].
  - left. rewrite app_nil_r in *. destruct (split_inner more) as (u' & k & -> & Hu' & Hk'). exists u'. rewrite (assoc_L (++)) in He.
    apply inner_unique in He as [<- <-]; [done|by apply Forall_app|done..].
  - right. exists v, l. rewrite <-(assoc_L (++)) in He. apply inner_unique in He as [<- He]; done.
Qed.
End Rows.

Section NextRow.
Context {V : Type} `{PqValue V}.
Implicit Types (l u w buf : list V).

Lemma scan_found i start l : (scan_row i start true l).1.1 = start.
Proof. revert i. induction l as [|v l IH]; intros i; simpl; [done|]. by destruct (v_RepetitionLevel v =? 0)%nat. Qed.

(** [readNextRow] in a buffer without a start, with one start, with two, and its first start. *)
Lemma next_inner buf : Forall inner buf → readNextRow buf = (0, length buf, false).
Proof. intros Hb. unfold readNextRow. by rewrite scan_inner. Qed.

Lemma next_partial v w : v_RepetitionLevel v = 0 → Forall inner w → readNextRow (v :: w) = (0, length (v :: w), false).
Proof. intros Hv Hw. unfold readNextRow. by rewrite scan_start, scan_inner. Qed.

Lemma next_whole v w v' l : v_RepetitionLevel v = 0 → Forall inner w → v_RepetitionLevel v' = 0 → readNextRow (v :: w ++ v' :: l) = (0, length (v :: w), true).
Proof. intros Hv Hw Hv'. unfold readNextRow. by rewrite scan_start, scan_app, scan_end. Qed.

Lemma first_start u v l : Forall inner u → v_RepetitionLevel v = 0 → ∃ next ok, readNextRow (u ++ v :: l) = (length u, next, ok).
Proof.
  intros Hu Hv. unfold readNextRow. rewrite scan_app, scan_start by done. destruct (scan_row _ _ _ _) as [[start next] ok] eqn:E.
  exists next, ok. f_equal. f_equal. pose proof (scan_found (S (0 + length u)) (0 + length u) l) as Hs. by rewrite E in Hs.
Qed.
End NextRow.

(** ** What the library reports of the pages *)

(** A read that is not the last has values; none fails. *)
Definition reads_full {V} (rs : list (value_read V)) : Prop := Forall (λ r, r.1 ≠ [] ∧ r.2 = None ∨ r.2 = Some EOF) rs.

(** A page read after a seek starts with the row sought; it has some of the rows of the chunk. *)
Class PagesReaderOk (C V : Type) `{PqValue V, PagesReader C V} (content : C → list (list V)) : Prop := {
  content_rows c : Forall row_of_values (content c);
  content_values c : NumValues c = length (concat (content c));
  pages_close c : ClosePages c = None;
  pages_read c n : n < length (content c) → ∃ pg k, SeekRead c (Z.of_nat n) = PageOf pg ∧ 0 < k ∧ n + k ≤ length (content c) ∧
    pg_NumRows pg = Z.of_nat k ∧ reads_full (pg_Reads pg) ∧ read_vals (pg_Reads pg) = concat (take k (drop n (content c))) }.

Lemma read_once_spec {V} (rs : list (value_read V)) : reads_full rs →
  ∃ vs e rest, read_values_once rs = (vs, e, rest) ∧ (e = None ∨ e = Some EOF) ∧ reads_full rest ∧ read_vals rs = vs ++ read_vals rest ∧ (vs = [] → read_vals rs = []).
Proof.
  intros Hf. destruct rs as [|[vs e] rs]; simpl.
  - exists [], (Some EOF), []. repeat split; auto.
  - apply Forall_cons in Hf as [[[Hv He]|He] Hf]; simpl in He; subst e.
    + exists vs, None, rs. repeat split; auto. by intros ->.
    + exists vs, (Some EOF), []. repeat split; auto; [constructor|]. by rewrite app_nil_r.
Qed.

(** What is still to be given, in pieces: every value of every row in its order, no empty piece. *)
Inductive delivers {T V} : list (T * list V) → list (T * list V) → Prop :=
| delivers_nil : delivers [] []
| delivers_piece t x y E out : x ≠ [] → delivers ((t, y) :: E) out → delivers ((t, x ++ y) :: E) ((t, x) :: out)
| delivers_row t E out : delivers E out → delivers ((t, []) :: E) out.

Section Correct.
Context {St T V C : Type} `{Iterator St T} `{!IteratorOk St T} `{PagesReaderOk C V content} (row_of : T → Z) (file : list (list V)).
Implicit Types (s : repeatedPageIterator St T V C) (t : T) (ts : list T) (E : list (T * list V)).

Definition wanted t : nat := Z.to_nat (row_of t).
Definition expect ts : list (T * list V) := (λ t, (t, default [] (file !! wanted t))) <$> ts.
Definition in_file t : Prop := (0 ≤ row_of t < Z.of_nat (length file))%Z.

(** The row groups that are left, from a row on. *)
Definition groups_at (rgs : list (Z * C)) (start : nat) : Prop :=
  drop start file = concat ((λ g, content g.2) <$> rgs) ∧ start ≤ length file ∧ Forall (λ g, g.1 = Z.of_nat (length (content g.2))) rgs.

Record Waiting s t ts : Prop := mkWaiting {
  wa_done : rp_done s = false;
  wa_err : rp_err s = None;
  wa_at : At (rp_rows s) = t;
  wa_yields : ∃ e, yields (rp_rows s) ts e;
  wa_sorted : StronglySorted (λ a b, row_of a < row_of b)%Z (t :: ts);
  wa_in : Forall in_file (t :: ts);
  wa_groups : ∃ start, rp_startRowGroup s = Z.of_nat start ∧ groups_at (rp_rgs s) start ∧ start ≤ wanted t;
  wa_pages : ∀ c, rp_pages s = Some c → ∃ n rest, rp_rgs s = (n, c) :: rest }.

(** The values that are left of a page: the rest [u] of a row and whole rows, which end where the page does. *)
Definition page_at s (pg : Page V) (w : nat) (rem : list V) : Prop :=
  ∃ p u rows tail n c rest,
    let first := if rp_rowFinished s then p else S p in
    (rp_startPage s + rp_pageNext s = Z.of_nat p)%Z ∧ (rp_startPage s + pg_NumRows pg = Z.of_nat (first + length rows))%Z ∧
    drop first file = rows ++ tail ∧ rp_buffer s ++ read_vals (pg_Reads pg) = u ++ concat rows ∧ Forall inner u ∧ reads_full (pg_Reads pg) ∧
    rp_rgs s = (n, c) :: rest ∧ (rp_startPage s + pg_NumRows pg ≤ rp_startRowGroup s + n)%Z ∧
    ((rp_rowFinished s = true ∧ rp_skipping s = false ∧ u = [] ∧ p ≤ w ∧ file !! w = Some rem) ∨
     (rp_rowFinished s = false ∧ rp_skipping s = true ∧ p < w ∧ file !! w = Some rem) ∨
     (rp_rowFinished s = false ∧ rp_skipping s = false ∧ p = w ∧ u = rem)).

Definition page_cond s (w : nat) (rem : list V) : Prop :=
  match rp_page s with None => file !! w = Some rem | Some pg => page_at s pg w rem end.

Definition Inv s E : Prop :=
  (rp_done s = true ∧ rp_err s = None ∧ E = []) ∨ ∃ t ts rem, E = (t, rem) :: expect ts ∧ Waiting s t ts ∧ page_cond s (wanted t) rem.

Definition measure s E : nat :=
  length E + match rp_page s with Some pg => 1 + 2 * length (rp_buffer s ++ read_vals (pg_Reads pg)) + (if rp_skipping s then 1 else 0) | None => 0 end.

Definition advances E E' : Prop := E' = E ∨ ∃ t, E = (t, []) :: E'.

Definition step_ok s E (r : repeatedPageIterator St T V C + (bool * repeatedPageIterator St T V C)) : Prop :=
  match r with
  | inl s' => ∃ E', Inv s' E' ∧ advances E E' ∧ measure s' E' < measure s E
  | inr (true, s') => ∃ t x y E1 E', E = (t, x ++ y) :: E1 ∧ x ≠ [] ∧ rp_current s' = Some (t, x) ∧ Inv s' E' ∧ advances ((t, y) :: E1) E'
  | inr (false, s') => E = [] ∧ rp_err s' = None
  end.

Lemma page_cond_some s pg w rem : rp_page s = Some pg → page_at s pg w rem → page_cond s w rem.
Proof. unfold page_cond. by intros ->. Qed.

Lemma file_rows start rgs : groups_at rgs start → Forall row_of_values (drop start file).
Proof.
  intros (-> & _ & _). apply Forall_concat. apply Forall_fmap, Forall_forall. intros g _. simpl. apply content_rows.
Qed.

(** Going on to the next wanted row. *)
Lemma next_wanted_spec s t ts : Waiting s t ts → (∀ t', in_file t' → (row_of t < row_of t')%Z → page_cond s (wanted t') (default [] (file !! wanted t'))) →
  Inv (next_wanted s) (expect ts).
Proof.
  intros [Hd Herr Hat [e Hy] Hsort Hin (start & Hst & Hg & Hw) Hp] Hpage. unfold next_wanted. inversion Hy as [s0 s' Hn|s0 s' l s'' Hn Hy']; subst; rewrite Hn.
  - by left.
  - right. apply StronglySorted_inv in Hsort as [Hsort Hlt]. apply Forall_cons in Hlt as [Hlt _]. apply Forall_cons in Hin as [Hin0 Hin]. pose proof Hin as Hin1. apply Forall_cons in Hin1 as [Hin1 _].
    eexists _, _, _. split; [done|]. split; [|by apply Hpage]. split; simpl; try done; [by exists e|].
    exists start. split; [done|]. split; [done|]. unfold in_file, wanted in *. lia.
Qed.

Hypothesis file_ok : Forall row_of_values file.

Lemma drop_cons_inv p r rows : drop p file = r :: rows → file !! p = Some r ∧ drop (S p) file = rows ∧ row_of_values r.
Proof.
  intros Hd. assert (Hl : file !! p = Some r) by (rewrite <-(Nat.add_0_r p), <-lookup_drop, Hd; done). split; [done|]. split; [|by apply (Forall_lookup_1 _ _ _ _ file_ok Hl)].
  rewrite (drop_S _ _ _ Hl) in Hd. by injection Hd.
Qed.

Lemma drop_rows p rows tail : drop p file = rows ++ tail → Forall row_of_values rows.
Proof. intros Hd. pose proof (Forall_drop _ p _ file_ok) as Hf. rewrite Hd in Hf. by apply Forall_app in Hf as [? _]. Qed.

Lemma ahead_spec s t ts p : Waiting s t ts → (rp_startPage s + rp_pageNext s)%Z = Z.of_nat p →
  (rp_startPage s + rp_pageNext s <? seekRowNum row_of s)%Z = (p <? wanted t)%nat.
Proof.
  intros Hw ->. unfold seekRowNum. rewrite (wa_at _ _ _ Hw). pose proof (Forall_inv (wa_in _ _ _ Hw)) as Hin. unfold in_file, wanted in *.
  destruct (Z.ltb_spec (Z.of_nat p) (row_of t)), (Nat.ltb_spec p (Z.to_nat (row_of t))); lia.
Qed.

(** The invariant holds with the same wanted row in another place of the page. *)
Ltac still_waiting pg Hw := right; eexists _, _, _; split; [done|]; split; [destruct Hw; by constructor|]; apply (page_cond_some _ pg); [done|].

(** A buffer that starts with a row. *)
Lemma on_buffer_row s pg t ts rem p r rows tail n c rest : Waiting s t ts → rp_page s = Some pg →
  (rp_startPage s + rp_pageNext s)%Z = Z.of_nat p → (rp_startPage s + pg_NumRows pg)%Z = Z.of_nat (p + S (length rows)) →
  drop p file = r :: rows ++ tail → rp_buffer s ++ read_vals (pg_Reads pg) = r ++ concat rows → reads_full (pg_Reads pg) →
  rp_rgs s = (n, c) :: rest → (rp_startPage s + pg_NumRows pg ≤ rp_startRowGroup s + n)%Z →
  rp_rowFinished s = true → rp_skipping s = false → p ≤ wanted t → file !! wanted t = Some rem → rp_buffer s ≠ [] →
  step_ok s ((t, rem) :: expect ts) (on_buffer row_of s).
Proof.
  intros Hw Hpg Hp He Hd Hb Hr Hg Hend Hf Hs Hle Hrem Hne. destruct (drop_cons_inv _ _ _ Hd) as (Hlr & Hd' & Hrow). pose proof (drop_rows _ _ _ Hd') as Hrows.
  destruct r as [|v b]; [done|]. destruct Hrow as [Hv Hin]. destruct (rp_buffer s) as [|v' b1] eqn:Eb; [done|]. injection Hb as -> Hb.
  unfold on_buffer. rewrite Eb, (ahead_spec s t ts p), (wa_at _ _ _ Hw), Hf, Hs by done.
  destruct (buffer_cases _ _ _ _ Hin Hrows Hb) as [(u' & Hb1 & -> & Hmore)|(v' & l & -> & Hv' & Hmore)].
  - rewrite next_partial by done. cbn [andb orb]. destruct (Nat.ltb_spec p (wanted t)) as [Hlt|Hge].
    + eexists. split; [|split; [by left|]].
      * still_waiting pg Hw. apply Forall_app in Hin as [_ Hin].
        exists p, u', rows, tail, n, c, rest. simpl. rewrite drop_all. simpl. repeat split; try done; [lia|]. right. left. done.
      * unfold measure. simpl. rewrite Hpg, Eb, Hs, drop_all. simpl. rewrite !length_app. lia.
    + assert (p = wanted t) as -> by lia. rewrite Hlr in Hrem. injection Hrem as <-. cbn [app]. rewrite app_comm_cons.
      eexists t, (v :: b1), u', _, _. split; [done|]. split; [done|]. split; [simpl; by rewrite firstn_all|]. split; [|by left].
      still_waiting pg Hw. apply Forall_app in Hin as [_ Hin].
      eexists _, u', rows, tail, n, c, rest. simpl. rewrite Hp, drop_all. simpl. repeat split; try done; [lia|]. right. right. done.
  - rewrite next_whole by done. cbn [andb]. destruct (Nat.ltb_spec p (wanted t)) as [Hlt|Hge].
    + eexists. split; [|split; [by left|]].
      * still_waiting pg Hw. 
        exists (S p), [], rows, tail, n, c, rest. simpl. rewrite drop_app_length. repeat split; try done; [lia..|]. left. repeat split; try done; lia.
      * unfold measure. simpl. rewrite Hpg, Eb, Hs, drop_app_length. simpl. rewrite !length_app. simpl. lia.
    + assert (p = wanted t) as -> by lia. rewrite Hlr in Hrem. injection Hrem as <-.
      eexists t, (v :: b), [], _, _. split; [by rewrite app_nil_r|]. split; [done|]. split; [|split; [|by right; exists t]].
      * unfold next_wanted. destruct (Next _). simpl. by rewrite take_app_length.
      * apply (next_wanted_spec _ t ts); [destruct Hw; by constructor|]. intros t' Hin' Hlt'. apply (page_cond_some _ pg); [done|].
        exists (S (wanted t)), [], rows, tail, n, c, rest. simpl. rewrite drop_app_length. repeat split; try done; [lia..|]. left. repeat split; try done.
        -- pose proof (Forall_inv (wa_in _ _ _ Hw)) as Hin0. unfold in_file, wanted in *. lia.
        -- destruct (lookup_lt_is_Some_2 file (wanted t')) as [x Hx]; [unfold in_file, wanted in *; lia|]. by rewrite Hx.
Qed.

Lemma starts_inner l : Forall inner l → match l !! 0 with Some v => (v_RepetitionLevel v =? 0)%nat | None => false end = false.
Proof. destruct l as [|v l]; [done|]. intros [Hv _]%Forall_cons. simpl. by apply Nat.eqb_neq. Qed.

Lemma starts_at (u : list V) v l : v_RepetitionLevel v = 0 → match (u ++ v :: l) !! length u with Some v => (v_RepetitionLevel v =? 0)%nat | None => false end = true.
Proof. intros Hv. rewrite list_lookup_middle by done. by rewrite Hv. Qed.

(** A buffer within a row that is passed over. *)
Lemma on_buffer_skipping s pg t ts rem p u rows tail n c rest : Waiting s t ts → rp_page s = Some pg →
  (rp_startPage s + rp_pageNext s)%Z = Z.of_nat p → (rp_startPage s + pg_NumRows pg)%Z = Z.of_nat (S p + length rows) →
  drop (S p) file = rows ++ tail → rp_buffer s ++ read_vals (pg_Reads pg) = u ++ concat rows → Forall inner u → reads_full (pg_Reads pg) →
  rp_rgs s = (n, c) :: rest → (rp_startPage s + pg_NumRows pg ≤ rp_startRowGroup s + n)%Z →
  rp_rowFinished s = false → rp_skipping s = true → p < wanted t → file !! wanted t = Some rem → rp_buffer s ≠ [] →
  step_ok s ((t, rem) :: expect ts) (on_buffer row_of s).
Proof.
  intros Hw Hpg Hp He Hd Hb Hu Hr Hg Hend Hf Hs Hlt Hrem Hne. pose proof (drop_rows _ _ _ Hd) as Hrows. unfold on_buffer.
  rewrite (ahead_spec s t ts p), (wa_at _ _ _ Hw), Hf, Hs, (proj2 (Nat.ltb_lt _ _) Hlt) by done.
  destruct (buffer_cases _ _ _ _ Hu Hrows Hb) as [(u' & Hb1 & -> & Hmore)|(v & l & Eb & Hv & Hmore)].
  - rewrite next_inner, (starts_inner _ Hb1) by done. cbn [andb orb Nat.eqb]. eexists. split; [|split; [by left|]].
    + still_waiting pg Hw. apply Forall_app in Hu as [_ Hu].
      exists p, u', rows, tail, n, c, rest. simpl. rewrite drop_all. repeat split; try done. right. left. done.
    + unfold measure. simpl. rewrite Hpg, Hs, drop_all. simpl. rewrite !length_app. destruct (rp_buffer s); [done|]. simpl. lia.
  - rewrite Eb. destruct (first_start u v l Hu Hv) as (next & ok & ->). rewrite (starts_at u v l Hv), andb_false_r. cbn [andb orb]. eexists. split; [|split; [by left|]].
    + still_waiting pg Hw.
      exists (S p), [], rows, tail, n, c, rest. simpl. rewrite drop_app_length. repeat split; try done; [lia..|]. left. repeat split; try done; lia.
    + unfold measure. simpl. rewrite Hpg, Hs, Eb, drop_app_length. simpl. rewrite !length_app. simpl. lia.
Qed.

(** A buffer within the row that is wanted. *)
Lemma on_buffer_partial s pg t ts p u rows tail n c rest : Waiting s t ts → rp_page s = Some pg →
  (rp_startPage s + rp_pageNext s)%Z = Z.of_nat p → (rp_startPage s + pg_NumRows pg)%Z = Z.of_nat (S p + length rows) →
  drop (S p) file = rows ++ tail → rp_buffer s ++ read_vals (pg_Reads pg) = u ++ concat rows → Forall inner u → reads_full (pg_Reads pg) →
  rp_rgs s = (n, c) :: rest → (rp_startPage s + pg_NumRows pg ≤ rp_startRowGroup s + n)%Z →
  rp_rowFinished s = false → rp_skipping s = false → p = wanted t → rp_buffer s ≠ [] →
  step_ok s ((t, u) :: expect ts) (on_buffer row_of s).
Proof.
  intros Hw Hpg Hp He Hd Hb Hu Hr Hg Hend Hf Hs -> Hne. pose proof (drop_rows _ _ _ Hd) as Hrows. unfold on_buffer. rewrite (wa_at _ _ _ Hw), Hf, Hs.
  destruct (buffer_cases _ _ _ _ Hu Hrows Hb) as [(u' & Hb1 & -> & Hmore)|(v & l & Eb & Hv & Hmore)].
  - rewrite next_inner, (starts_inner _ Hb1) by done. cbn [andb orb]. eexists t, (rp_buffer s), u', _, _. split; [done|]. split; [done|].
    split; [simpl; by rewrite firstn_all|]. split; [|by left]. still_waiting pg Hw. apply Forall_app in Hu as [_ Hu]. eexists _, u', rows, tail, n, c, rest. simpl. rewrite Hp, drop_all. repeat split; try done. right. right. done.
  - rewrite Eb. destruct (first_start u v l Hu Hv) as (next & ok & ->). rewrite (starts_at u v l Hv), andb_false_r. cbn [andb orb].
    destruct u as [|x u]; simpl Nat.leb; cbn [length app].
    + exists (expect ts). split; [|split; [by right; exists t|]].
      * apply (next_wanted_spec _ t ts); [destruct Hw; by constructor|]. intros t' Hin' Hlt'. apply (page_cond_some _ pg); [done|].
        exists (S (wanted t)), [], rows, tail, n, c, rest. simpl. repeat split; try done; [lia..|]. left. repeat split; try done.
        -- pose proof (Forall_inv (wa_in _ _ _ Hw)) as Hin0. unfold in_file, wanted in *. lia.
        -- destruct (lookup_lt_is_Some_2 file (wanted t')) as [y Hy]; [unfold in_file, wanted in *; lia|]. by rewrite Hy.
      * unfold measure, next_wanted. destruct (Next _). simpl. rewrite Hpg, Hs, Eb. simpl. lia.
    + eexists t, (x :: u), [], _, _. split; [by rewrite app_nil_r|]. split; [done|]. split; [simpl; by rewrite take_app_length|]. split; [|by left].
      still_waiting pg Hw.
      eexists _, [], rows, tail, n, c, rest. simpl. rewrite drop_app_length, Hp. repeat split; try done. right. right. done.
Qed.

Lemma on_buffer_spec s pg t ts rem : Waiting s t ts → rp_page s = Some pg → page_at s pg (wanted t) rem →
  (row_of t < rp_startPage s + pg_NumRows pg)%Z → rp_buffer s ≠ [] → step_ok s ((t, rem) :: expect ts) (on_buffer row_of s).
Proof.
  intros Hw Hpg (p & u & rows & tail & n & c & rest & Hp & He & Hd & Hb & Hu & Hr & Hg & Hend & Hcase) Hlt Hne.
  pose proof (Forall_inv (wa_in _ _ _ Hw)) as Hin.
  destruct Hcase as [(Hf & Hs & -> & Hle & Hrem)|[(Hf & Hs & Hl & Hrem)|(Hf & Hs & Hpw & ->)]]; rewrite Hf in *.
  - destruct rows as [|r rows]; [simpl in He; unfold in_file, wanted in *; lia|]. by apply (on_buffer_row s pg t ts rem p r rows tail n c rest).
  - by apply (on_buffer_skipping s pg t ts rem p u rows tail n c rest).
  - by apply (on_buffer_partial s pg t ts p rem rows tail n c rest).
Qed.

Lemma step_ok_measure s s' E r : measure s' E = measure s E → step_ok s' E r → step_ok s E r.
Proof. intros Hm. unfold step_ok. destruct r as [s1|[[] s1]]; [|done..]. by rewrite Hm. Qed.

Lemma lookup_file t : in_file t → file !! wanted t = Some (default [] (file !! wanted t)).
Proof. intros Hin. destruct (lookup_lt_is_Some_2 file (wanted t)) as [x Hx]; [unfold in_file, wanted in *; lia|]. by rewrite Hx. Qed.

Lemma concat_rows_nil rows : Forall row_of_values rows → concat rows = [] → rows = [].
Proof. destruct rows as [|[|v r] rows]; [done|by intros [? _]%Forall_cons|done]. Qed.

Lemma fill_buffer_spec s pg t ts rem : Waiting s t ts → rp_page s = Some pg → page_at s pg (wanted t) rem →
  (row_of t < rp_startPage s + pg_NumRows pg)%Z → step_ok s ((t, rem) :: expect ts) (fill_buffer row_of s pg).
Proof.
  intros Hw Hpg Hat Hlt. unfold fill_buffer. destruct (rp_buffer s) as [|b bs] eqn:Eb; [|apply (on_buffer_spec s pg); [done..|by rewrite Eb]].
  destruct Hat as (p & u & rows & tail & n & c & rest & Hp & He & Hd & Hb & Hu & Hr & Hg & Hend & Hcase).
  destruct (read_once_spec _ Hr) as (vs & e & more & -> & He' & Hmore & Hv & Hnil).
  assert (∀ A (k1 : A) (f : string → A), match e with Some (ReadError e) => f e | _ => k1 end = k1) as Hm by (by destruct He' as [-> | ->]).
  rewrite Hm. rewrite Eb in Hb. destruct vs as [|v vs].
  - rewrite (Hnil eq_refl) in Hb. simpl in Hb. symmetry in Hb. apply app_nil in Hb as [-> Hc]. apply concat_rows_nil in Hc as ->; [|by eapply drop_rows].
    pose proof (Forall_inv (wa_in _ _ _ Hw)) as Hin. unfold in_file in Hin.
    destruct Hcase as [(Hf & _ & _ & Hle & _)|[(Hf & _ & Hl & _)|(_ & _ & -> & <-)]]; [rewrite Hf in He; simpl in He; unfold wanted in *; lia..|].
    assert (with_page (next_wanted s) None = next_wanted (with_page s None)) as -> by (unfold next_wanted; simpl; by destruct (Next _)).
    exists (expect ts). split; [|split; [by right; exists t|]].
    + apply (next_wanted_spec _ t ts); [destruct Hw; by constructor|]. intros t' Hin' _. unfold page_cond. simpl. by apply lookup_file.
    + unfold measure, next_wanted. destruct (Next _). simpl. lia.
  - eapply step_ok_measure; [|eapply (on_buffer_spec _ (mkPage (pg_NumRows pg) (pg_Bounds pg) (pg_Dictionary pg) more))]; try done; [|destruct Hw; by constructor|].
    + unfold measure. simpl. by rewrite Hpg, Eb, Hv.
    + exists p, u, rows, tail, n, c, rest. simpl. repeat split; try done. by rewrite <-Hb, Hv.
Qed.

Lemma on_loaded_spec s pg t ts rem : Waiting s t ts → rp_page s = Some pg →
  (if (rp_startPage s + pg_NumRows pg <=? row_of t)%Z then file !! wanted t = Some rem else page_at s pg (wanted t) rem) →
  step_ok s ((t, rem) :: expect ts) (on_loaded row_of s pg).
Proof.
  intros Hw Hpg Hat. unfold on_loaded, seekRowNum. rewrite (wa_at _ _ _ Hw). destruct (Z.leb_spec (rp_startPage s + pg_NumRows pg) (row_of t)) as [Hle|Hlt].
  - eexists. split; [|split; [by left|]]; [right; eexists _, _, _; split; [done|]; split; [destruct Hw; by constructor|done]|]. unfold measure. simpl. rewrite Hpg. lia.
  - by apply fill_buffer_spec.
Qed.

Lemma leave_groups_spec t rgs start pages : in_file t → groups_at rgs start → start ≤ wanted t → (∀ c, pages = Some c → ∃ n rest, rgs = (n, c) :: rest) →
  ∃ n c rest start' pages', leave_groups (row_of t) rgs (Z.of_nat start) pages = inl ((n, c) :: rest, Z.of_nat start', pages') ∧
    groups_at ((n, c) :: rest) start' ∧ start' ≤ wanted t < start' + length (content c) ∧ default c pages' = c.
Proof.
  intros Hin. revert start pages. induction rgs as [|[n c] rest IH]; intros start pages (Hd & Hl & Hn) Hw Hp; simpl.
  - simpl in Hd. assert (length (drop start file) = 0) as Hd' by (by rewrite Hd). rewrite length_drop in Hd'. unfold in_file, wanted in *. lia.
  - pose proof Hn as [Hn0 Hn1]%Forall_cons. simpl in Hn0. rewrite Hn0 in *. assert (Hcl : match pages with Some p => ClosePages p | None => None end = None) by (destruct pages; [apply pages_close|done]).
    destruct (Z.leb_spec (Z.of_nat start + Z.of_nat (length (content c))) (row_of t)) as [Hle|Hlt].
    + rewrite Hcl, <-Nat2Z.inj_add. apply IH; [|unfold in_file, wanted in *; lia|done]. simpl in Hd. split; [|split; [|done]].
      * by rewrite <-drop_drop, Hd, drop_app_length.
      * apply (f_equal length) in Hd. rewrite length_drop, length_app in Hd. unfold in_file, wanted in *. lia.
    + eexists _, c, rest, start, pages. split; [done|]. split; [by split|]. split; [unfold in_file, wanted in *; lia|]. destruct pages as [c'|]; [|done]. destruct (Hp c' eq_refl) as (n' & rest' & [= _ -> _]). done.
Qed.

Lemma step_ok_return s s' E r : (∃ x, r = inr x) → step_ok s' E r → step_ok s E r.
Proof. by intros [[[] x] ->]. Qed.

(** A page that was just read gives values at once. *)
Lemma loaded_returns s pg : reads_full (pg_Reads pg) → read_vals (pg_Reads pg) ≠ [] → rp_buffer s = [] → rp_rowFinished s = true →
  seekRowNum row_of s = (rp_startPage s + rp_pageNext s)%Z → (seekRowNum row_of s < rp_startPage s + pg_NumRows pg)%Z → ∃ x, on_loaded row_of s pg = inr x.
Proof.
  intros Hr Hne Hb Hf Hs Hlt. unfold on_loaded, fill_buffer. rewrite Hb, (proj2 (Z.leb_gt _ _)) by done.
  destruct (read_once_spec _ Hr) as (vs & e & more & -> & He & _ & _ & Hnil). destruct vs as [|v vs]; [by destruct Hne; apply Hnil|].
  destruct He as [-> | ->]; unfold on_buffer; unfold seekRowNum in *; simpl; rewrite Hf; destruct (readNextRow (v :: vs)) as [[start next] ok];
    rewrite <-Hs, Z.ltb_irrefl; destruct ok; simpl; by eexists.
Qed.

Lemma repeated_step_spec s E : Inv s E → step_ok s E (repeated_step row_of s).
Proof.
  intros [(Hd & Herr & ->)|(t & ts & rem & -> & Hw & Hpage)]; unfold repeated_step; [by rewrite Hd|]. pose proof Hw as [Hd Herr Hat Hy Hsort Hin (start & Hst & Hg & Hle) Hp].
  pose proof (Forall_inv Hin) as Hin0. rewrite Hd. unfold seekRowNum. rewrite Hat, Hst.
  destruct (leave_groups_spec t _ _ _ Hin0 Hg Hle Hp) as (n & c & rest & start' & pages' & El & Hg' & Hle' & Hc). rewrite El, Hc.
  assert (∀ page startPage pageNext fin skip cur buf, Waiting (mkRepeated (rp_rows s) ((n, c) :: rest) (Z.of_nat start') page startPage pageNext (Some c) fin skip (rp_err s) false cur buf) t ts) as Hw'.
  { intros. constructor; simpl; try done; [exists start'; repeat split; try apply Hg'; lia|]. intros c' [= ->]. by eexists _, _. }
  unfold page_cond in Hpage. destruct (rp_page s) as [pg|] eqn:Epg.
  - eapply step_ok_measure; [|apply (on_loaded_spec _ pg t ts); [apply Hw'|done|]]; [unfold measure; simpl; by rewrite Epg|]. simpl.
    destruct Hpage as (p & u & rows & tail & n' & c' & rest' & Hp' & He & Hdr & Hb & Hu & Hr & Hg2 & Hend & Hcase).
    destruct (Z.leb_spec (rp_startPage s + pg_NumRows pg) (row_of t)) as [Hge|Hlt].
    + destruct Hcase as [(_ & _ & _ & _ & ?)|[(_ & _ & _ & ?)|(Hf & _ & -> & _)]]; [done..|]. rewrite Hf in He. unfold in_file, wanted in *. lia.
    + rewrite Hg2, Hst in *. simpl in El. rewrite (proj2 (Z.leb_gt _ _)) in El by lia. injection El as -> -> -> <- <-.
      exists p, u, rows, tail, n, c, rest. simpl. done.
  - destruct Hg' as (Hdr & Hlen & Hall). pose proof Hall as [Hn _]%Forall_cons. simpl in Hn. simpl in Hdr.
    destruct (pages_read c (wanted t - start')) as (pg & k & Hread & Hk & Hkl & Hrows & Hfull & Hvals); [lia|].
    simpl. rewrite Hat.
    replace (row_of t - Z.of_nat start')%Z with (Z.of_nat (wanted t - start')) by (unfold in_file, wanted in *; lia). rewrite Hread.
    destruct (lookup_lt_is_Some_2 (content c) (wanted t - start')) as [r Hr]; [lia|]. rewrite (drop_S _ _ _ Hr) in Hvals. destruct k as [|k]; [lia|]. simpl in Hvals.
    pose proof (Forall_lookup_1 _ _ _ _ (content_rows c) Hr) as Hrow.
    assert (Hfile : drop (wanted t) file = drop (wanted t - start') (content c) ++ concat ((λ g, content g.2) <$> rest)).
    { replace (wanted t) with (start' + (wanted t - start')) at 1 by lia. rewrite <-drop_drop, Hdr. by rewrite drop_app_le by lia. }
    rewrite (drop_S _ _ _ Hr) in Hfile. eapply step_ok_return; [|apply (on_loaded_spec _ pg t ts); [apply Hw'|done|]].
    + apply loaded_returns; unfold seekRowNum; simpl; try done; [rewrite Hvals; by destruct r|rewrite Hat; lia..].
    + simpl. rewrite (proj2 (Z.leb_gt _ _)) by lia.
      exists (wanted t), [], (r :: take k (drop (S (wanted t - start')) (content c))), (drop k (drop (S (wanted t - start')) (content c)) ++ concat ((λ g, content g.2) <$> rest)), n, c, rest.
      simpl. rewrite length_take, length_drop. repeat split; try done; [unfold in_file, wanted in *; lia..| |unfold in_file, wanted in *; lia|].
      * rewrite Hfile, (assoc_L (++)), take_drop. done.
      * left. done.
Qed.

Lemma delivers_advances E E' out : rtc advances E E' → delivers E' out → delivers E out.
Proof. induction 1 as [|E1 E2 E3 [-> |[t ->]] _ IH]; [done|done|]. intros Hd. by apply delivers_row, IH. Qed.

Lemma repeated_loop_spec fuel s E : Inv s E → measure s E < fuel →
  ∃ r s' E', repeated_loop row_of fuel s = Ret (r, s') ∧ rtc advances E E' ∧ step_ok s E' (inr (r, s')).
Proof.
  revert s E. induction fuel as [|fuel IH]; intros s E HI Hm; [lia|]. simpl. pose proof (repeated_step_spec s E HI) as Hs.
  destruct (repeated_step row_of s) as [s'|[r s']]; [|by exists r, s', E]. destruct Hs as (E1 & HI1 & Ha & Hm1).
  destruct (IH s' E1 HI1) as (r & s2 & E2 & Hl & Hr & Hok); [lia|]. exists r, s2, E2. split; [done|]. split; [by eapply rtc_l|done].
Qed.

Lemma measure_fuel s E : Inv s E → measure s E < repeated_fuel s.
Proof.
  unfold measure, repeated_fuel. intros HI. assert (length E ≤ S (remaining (rp_rows s))) as Hl.
  { destruct HI as [(_ & _ & ->)|(t & ts & rem & -> & Hw & _)]; simpl; [lia|]. destruct (wa_yields _ _ _ Hw) as [e Hy]. apply yields_length in Hy. unfold expect. rewrite length_fmap. lia. }
  destruct (rp_page s) as [pg|]; [rewrite length_app; destruct (rp_skipping s); lia|lia].
Qed.

(** The number of values that are still to be given. *)
Definition value_count E : nat := length (concat E.*2).

Lemma count_advances E E' : rtc advances E E' → value_count E' = value_count E.
Proof. induction 1 as [|E1 E2 E3 [-> |[t ->]] _ IH]; done. Qed.

Lemma Inv_yields t0 s E : Inv s E → ∃ out e, @yields _ _ (repeated_iterator row_of t0) s out e ∧ delivers E out ∧ rp_err e = None.
Proof.
  remember (value_count E) as n eqn:En. revert s E En. induction n as [n IH] using lt_wf_ind. intros s E -> HI.
  destruct (repeated_loop_spec _ s E HI (measure_fuel s E HI)) as ([] & s' & E' & Hl & Hadv & Hok).
  - destruct Hok as (t & x & y & E1 & E2 & -> & Hx & Hc & HI' & Ha). apply count_advances in Hadv as Hsz.
    assert (value_count E2 = value_count ((t, y) :: E1)) as Hsz2 by (apply count_advances; by apply rtc_once).
    destruct (IH (value_count E2)) with (s := s') (E := E2) as (out & e & Hy & Hd & He); [|done|done|].
    { rewrite <-Hsz, Hsz2. unfold value_count. simpl. rewrite !length_app. destruct x; [done|]. simpl. lia. }
    exists ((t, x) :: out), e. split; [|split; [|done]].
    + eapply yields_step; [cbn [Next repeated_iterator]; unfold repeated_Next; by rewrite Hl|simpl; by rewrite Hc|done].
    + eapply delivers_advances; [done|]. apply delivers_piece; [done|]. eapply delivers_advances; [by apply rtc_once|done].
  - destruct Hok as [-> He]. exists [], s'. split; [apply yields_nil; cbn [Next repeated_iterator]; unfold repeated_Next; by rewrite Hl|].
    split; [|done]. eapply delivers_advances; [done|constructor].
Qed.
End Correct.

(** The pieces of a row, joined. *)
Definition values_of {T V} (P : T → Prop) `{∀ t, Decision (P t)} (out : list (T * list V)) : list V := concat (filter (λ x, P x.1) out).*2.

Lemma delivers_values {T V} (P : T → Prop) `{∀ t, Decision (P t)} (E out : list (T * list V)) : delivers E out → values_of P out = values_of P E.
Proof.
  unfold values_of. induction 1 as [|t x y E out _ _ IH|t E out _ IH]; [done| |]; rewrite !filter_cons in *; simpl in *; destruct (decide (P t)); try done.
  rewrite !fmap_cons, !concat_cons in *. simpl in *. rewrite IH. by rewrite (assoc_L (++)).
Qed.

Lemma delivers_pieces {T V} (E out : list (T * list V)) : delivers E out → Forall (λ x, x.2 ≠ []) out ∧ length out ≤ value_count E.
Proof.
  induction 1 as [|t x y E out Hx _ [IH Hl]|t E out _ [IH Hl]]; [done| |done]. split; [by constructor|]. unfold value_count in *. simpl in *. rewrite !length_app in *. destruct x; [done|]. simpl. lia.
Qed.

Lemma NewRepeated_yields {St T V C} `{Iterator St T} `{!IteratorOk St T} `{PagesReaderOk C V content} (row_of : T → Z) (t0 : T)
    (rows : St) (rgs : list (Z * C)) (readSize : Z) (ts : list T) (e : St) :
  let file := concat ((λ g, content g.2) <$> rgs) in
  (0 < readSize)%Z → Forall (λ g, g.1 = Z.of_nat (length (content g.2))) rgs →
  yields rows ts e → StronglySorted (λ a b, row_of a < row_of b)%Z ts → Forall (in_file row_of file) ts →
  ∃ s out e', NewRepeatedPageIterator rows rgs readSize = Ret s ∧ @yields _ _ (repeated_iterator row_of t0) s out e' ∧
    delivers (expect row_of file ts) out ∧ rp_err e' = None.
Proof.
  intros file Hr Hn Hy Hs Hin. unfold NewRepeatedPageIterator. rewrite (proj2 (Z.leb_gt _ _)) by done. destruct (Next rows) as [more rows'] eqn:En.
  assert (Hg : groups_at file rgs 0) by (split; [done|split; [lia|done]]). assert (Hf : Forall row_of_values file) by exact (file_rows file _ _ Hg).
  eexists. assert (HI : Inv (content := content) row_of file (mkRepeated rows' rgs 0 None 0 0 None true false None (negb more) None []) (expect row_of file ts)).
  { inversion Hy as [s0 s' Hn'|s0 s' l s'' Hn' Hy']; subst; rewrite Hn' in En; injection En as <- <-; [by left|]. right. eexists _, _, _. split; [done|]. split; [|].
    - constructor; simpl; try done; [by eexists|]. exists 0. split; [done|]. split; [done|lia].
    - apply (lookup_file row_of). by inversion Hin. }
  destruct (Inv_yields row_of file Hf t0 _ _ HI) as (out & e' & Hy' & Hd & He). by exists out, e'.
Qed.

(** C18: Over row groups whose pages the library reads without errors, and an iterator of increasing rows of the file, [repeatedPageIterator] gives the
    values of exactly those rows, complete and in order: in pieces that are not empty, each with its row, however the values are cut into pages and
    buffers.  It ends without an error. *)
Theorem RepeatedPageIterator_correct {St T V C} `{Iterator St T} `{!IteratorOk St T} `{PagesReaderOk C V content} (row_of : T → Z) (t0 : T)
    (rows : St) (rgs : list (Z * C)) (readSize : Z) (ts : list T) (e : St) :
  let file := concat ((λ g, content g.2) <$> rgs) in
  (0 < readSize)%Z → Forall (λ g, g.1 = Z.of_nat (length (content g.2))) rgs →
  yields rows ts e → StronglySorted (λ a b, row_of a < row_of b)%Z ts → Forall (in_file row_of file) ts →
  ∃ s out e', NewRepeatedPageIterator rows rgs readSize = Ret s ∧ @yields _ _ (repeated_iterator row_of t0) s out e' ∧
    delivers (expect row_of file ts) out ∧ rp_err e' = None.
Proof. apply NewRepeated_yields. Qed.

(** Two columns of four rows, read two values at a time, with pages of two rows or of all. *)
#[local] Instance leveled_value : PqValue (Z * nat) :=
  {| v_Int64 := fst; v_ByteArray _ := ""; v_String _ := ""; v_RepetitionLevel := snd; v_DefinitionLevel _ := 1 |}.

Definition example_content (c : bool * bool) : list (list (Z * nat)) :=
  let v (z : Z) (r : nat) := ((if c.1 then 10 * z else z)%Z, r) in [[v 1%Z 0%nat; v 2%Z 1; v 3%Z 1]; [v 4%Z 0]; [v 5%Z 0; v 6%Z 1; v 7%Z 1; v 8%Z 1]; [v 9%Z 0]].

Fixpoint example_reads (fuel : nat) (vs : list (Z * nat)) : list (value_read (Z * nat)) :=
  match fuel, vs with
  | S fuel, _ :: _ => (take 2 vs, None) :: example_reads fuel (drop 2 vs)
  | _, _ => [([], Some EOF)]
  end.

Definition example_page (c : bool * bool) (n : Z) : page_result (Z * nat) :=
  let k := if c.2 then 4 else 2 in let rows := take (k - Z.to_nat n mod k) (drop (Z.to_nat n) (example_content c)) in
  if decide (rows = []) then PageEOF else PageOf (mkPage (Z.of_nat (length rows)) None None (example_reads 9 (concat rows))).

#[local] Instance example_pages : PagesReader (bool * bool) (Z * nat) := {|
  SeekRead := example_page;
  ClosePages _ := None;
  NumValues c := length (concat (example_content c)) |}.

#[local] Instance example_pages_ok : PagesReaderOk (bool * bool) (Z * nat) example_content.
Proof.
  split; [intros [[] k]; repeat constructor; simpl; try done; unfold inner; simpl; lia|done|done|]. intros [c k] n Hn. assert (n < 4) as Hn4 by (by destruct c).
  set (m := (if k then 4 else 2) - n mod (if k then 4 else 2)).
  exists (mkPage (Z.of_nat m) None None (example_reads 9 (concat (take m (drop n (example_content (c, k))))))), m. subst m.
  destruct n as [|[|[|[|n]]]]; [..|lia]; destruct c, k; (split; [reflexivity|]; split; [simpl; lia|]; split; [simpl; lia|]; split; [reflexivity|]; split; [|reflexivity];
     repeat (apply Forall_cons; split; [first [by left|by right]|]); by apply Forall_nil).
Defined.

Lemma RepeatedPageIterator_correct_witness :
  ∃ s out e, NewRepeatedPageIterator (mkSliceIterator [0; 2; 5]%Z 0%Z) [(4%Z, (false, false)); (4%Z, (true, true))] 2 = Ret s ∧ @yields _ _ (repeated_iterator id 0%Z) s out e ∧
    values_of (λ t, t = 2%Z) out = [(5%Z, 0); (6%Z, 1); (7%Z, 1); (8%Z, 1)].
Proof.
  destruct (RepeatedPageIterator_correct (content := example_content) id 0%Z (mkSliceIterator [0; 2; 5]%Z 0%Z) [(4%Z, (false, false)); (4%Z, (true, true))] 2 [0; 2; 5]%Z (mkSliceIterator [] 0%Z))
    as (s & out & e & Hn & Hy & Hd & _); [lia|by repeat constructor|exact (slice_yields [0; 2; 5]%Z 0%Z)|repeat constructor; simpl; lia|repeat constructor; simpl; lia|].
  exists s, out, e. split; [exact Hn|]. split; [exact Hy|]. rewrite (delivers_values (λ t, t = 2%Z) _ _ Hd). reflexivity.
Defined.
