(* ===== verification/MultiRepeated.v ===== *)
(** * Repeated columns side by side (src/pkg/phlaredb/query/repeated.go, [multiRepeatedPageIterator])

    Several iterators over repeated columns advance together, each in its goroutine on its own state.  The
    pieces of two columns line up when the library cuts the columns in the same places: an
    iterator decides by repetition levels alone where a piece ends. *)

From S2P Require Import Prelude Labels GoHeap Iter Predicates ColumnIter Repeated.

(** ** The iterator *)

Record multiRepeatedPageIterator (It T V : Type) := mkMultiRepeated { mr_iters : list It; mr_err : option string; mr_Row : option T; mr_Values : list (list V) }.
Arguments mkMultiRepeated {It T V} _ _ _ _. Arguments mr_iters {It T V} _. Arguments mr_err {It T V} _. Arguments mr_Row {It T V} _. Arguments mr_Values {It T V} _.

Section Multi.
Context {It T V : Type} `{Iterator It (T * list V)} (multierror : list string → option string) (t0 : T).
Implicit Types (m : multiRepeatedPageIterator It T V).

Definition NewMultiRepeatedPageIterator (iters : list It) : multiRepeatedPageIterator It T V := mkMultiRepeated iters None None (replicate (length iters) []).

(** An iterator that has a next row fills its place; the row is the first iterator's. *)
Definition multi_Next m : bool * multiRepeatedPageIterator It T V :=
  let nexts := Next <$> mr_iters m in
  let row := match nexts with (true, it) :: _ => Some (At it).1 | _ => mr_Row m end in
  (forallb fst nexts, mkMultiRepeated nexts.*2 (mr_err m) row (zip_with (λ n old, if n.1 : bool then (At n.2).2 else old) nexts (mr_Values m))).

Definition multi_Close m : option string * multiRepeatedPageIterator It T V :=
  let closed := Close <$> mr_iters m in
  (multierror (omap fst closed), mkMultiRepeated closed.*2 (mr_err m) (mr_Row m) (mr_Values m)).

#[export] Instance multi_iterator : Iterator (multiRepeatedPageIterator It T V) (T * list (list V)) := {|
  Next := multi_Next;
  At m := (default t0 (mr_Row m), mr_Values m);
  Err m := multierror (omap id (mr_err m :: (Err <$> mr_iters m)));
  Close := multi_Close;
  remaining m := match mr_iters m with it :: _ => remaining it | [] => 0 end |}.

(** Two columns: the pieces, pair by pair, until one of the columns ends. *)
Lemma multi_yields (a b : It) (out1 out2 : list (T * list V)) ea eb : yields a out1 ea → yields b out2 eb →
  ∀ err row vals, length vals = 2 → ∃ e, yields (mkMultiRepeated [a; b] err row vals) (zip_with (λ x y, (x.1, [x.2; y.2])) out1 out2) e.
Proof.
  intros Ha. revert b out2 eb. induction Ha as [a a' Hn|a a' out1 ea Hn Ha IH]; intros b out2 eb Hb err row vals Hv.
  - eexists. simpl. apply yields_nil. simpl. unfold multi_Next. simpl. by rewrite Hn.
  - inversion Hb as [s0 b' Hnb|s0 b' l s'' Hnb Hb']; subst.
    + eexists. simpl. apply yields_nil. simpl. unfold multi_Next. simpl. by rewrite Hn, Hnb.
    + destruct vals as [|v1 [|v2 [|v3 vals]]]; [done..| |done].
      destruct (IH b' l eb Hb' err (Some (At a').1) [(At a').2; (At b').2] eq_refl) as [e He]. exists e. simpl.
      eapply yields_step; [simpl; unfold multi_Next; simpl; by rewrite Hn, Hnb|done|done].
Qed.

Lemma NewMulti_yields (a b : It) (out1 out2 : list (T * list V)) ea eb : yields a out1 ea → yields b out2 eb →
  ∃ e, yields (NewMultiRepeatedPageIterator [a; b]) (zip_with (λ x y, (x.1, [x.2; y.2])) out1 out2) e.
Proof. intros Ha Hb. by apply (multi_yields a b out1 out2 ea eb). Qed.
End Multi.

(** ** Columns that are cut in the same places *)

Section Shape.
Context {St T V C : Type} `{Iterator St T} `{PqValue V} `{PagesReader C V} (row_of : T → Z).
Implicit Types (s : repeatedPageIterator St T V C) (buf : list V).

Definition level (v w : V) : Prop := v_RepetitionLevel v = v_RepetitionLevel w.
Definition read_same (r1 r2 : value_read V) : Prop := Forall2 level r1.1 r2.1 ∧ r1.2 = r2.2.
Definition page_same (p1 p2 : Page V) : Prop := pg_NumRows p1 = pg_NumRows p2 ∧ Forall2 read_same (pg_Reads p1) (pg_Reads p2).
Definition result_same (r1 r2 : page_result V) : Prop :=
  match r1, r2 with PageOf p1, PageOf p2 => page_same p1 p2 | PageEOF, PageEOF => True | PageError e1, PageError e2 | SeekError e1, SeekError e2 => e1 = e2 | _, _ => False end.
Definition chunk_same (c1 c2 : C) : Prop := (∀ n, result_same (SeekRead c1 n) (SeekRead c2 n)) ∧ ClosePages c1 = ClosePages c2.
Definition group_same (g1 g2 : Z * C) : Prop := g1.1 = g2.1 ∧ chunk_same g1.2 g2.2.
Definition piece_same (x y : T * list V) : Prop := x.1 = y.1 ∧ length x.2 = length y.2.

Record same s1 s2 : Prop := mkSame {
  sm_rows : rp_rows s1 = rp_rows s2;
  sm_rgs : Forall2 group_same (rp_rgs s1) (rp_rgs s2);
  sm_start : rp_startRowGroup s1 = rp_startRowGroup s2;
  sm_page : option_Forall2 page_same (rp_page s1) (rp_page s2);
  sm_startPage : rp_startPage s1 = rp_startPage s2;
  sm_pageNext : rp_pageNext s1 = rp_pageNext s2;
  sm_pages : option_Forall2 chunk_same (rp_pages s1) (rp_pages s2);
  sm_rowFinished : rp_rowFinished s1 = rp_rowFinished s2;
  sm_skipping : rp_skipping s1 = rp_skipping s2;
  sm_err : rp_err s1 = rp_err s2;
  sm_done : rp_done s1 = rp_done s2;
  sm_current : option_Forall2 piece_same (rp_current s1) (rp_current s2);
  sm_buffer : Forall2 level (rp_buffer s1) (rp_buffer s2) }.

Definition step_same (r1 r2 : repeatedPageIterator St T V C + (bool * repeatedPageIterator St T V C)) : Prop :=
  match r1, r2 with inl s1, inl s2 => same s1 s2 | inr (b1, s1), inr (b2, s2) => b1 = b2 ∧ same s1 s2 | _, _ => False end.

Lemma scan_same buf1 buf2 : Forall2 level buf1 buf2 → ∀ i start f, scan_row i start f buf1 = scan_row i start f buf2.
Proof.
  induction 1 as [|v w buf1 buf2 Hv _ IH]; intros i start f; simpl; [done|]. rewrite Hv. destruct (v_RepetitionLevel w =? 0)%nat; [|apply IH]. destruct f; [done|apply IH].
Qed.

Lemma starts_same buf1 buf2 i : Forall2 level buf1 buf2 →
  match buf1 !! i with Some v => (v_RepetitionLevel v =? 0)%nat | None => false end = match buf2 !! i with Some v => (v_RepetitionLevel v =? 0)%nat | None => false end.
Proof.
  intros Hf. apply (Forall2_lookup _ _ _) with (i := i) in Hf. destruct Hf as [v w Hl|]; [by rewrite Hl|done].
Qed.

Lemma piece_take t buf1 buf2 n : Forall2 level buf1 buf2 → option_Forall2 piece_same (Some (t, take n buf1)) (Some (t, take n buf2)).
Proof. intros Hf. constructor. split; [done|]. simpl. rewrite !length_take. by rewrite (Forall2_length _ _ _ Hf). Qed.

Lemma wanted_same s1 s2 : same s1 s2 → same (next_wanted s1) (next_wanted s2).
Proof. intros [Hr]. unfold next_wanted. rewrite Hr. destruct (Next _). by constructor. Qed.

Lemma row_same s1 s2 n f k cur1 cur2 buf1 buf2 : same s1 s2 → option_Forall2 piece_same cur1 cur2 → Forall2 level buf1 buf2 →
  same (with_row s1 n f k cur1 buf1) (with_row s2 n f k cur2 buf2).
Proof. intros [] Hc Hb. by constructor. Qed.

(** The relation, field by field. *)
Ltac fields := constructor; simpl; try done; by constructor.

(** The same steps, whatever the values are. *)
Lemma on_buffer_same s1 s2 : same s1 s2 → step_same (on_buffer row_of s1) (on_buffer row_of s2).
Proof.
  intros Hs. pose proof Hs as [Hr _ _ _ Hsp Hpn _ Hf Hk _ _ Hc Hb]. unfold on_buffer, seekRowNum, readNextRow. rewrite Hr, Hsp, Hpn, Hf, Hk, (scan_same _ _ Hb).
  destruct (scan_row 0 0 false (rp_buffer s2)) as [[start next] ok]. rewrite (starts_same _ _ start Hb).
  repeat case_match; simpl; try split; try done; try apply wanted_same; apply row_same; try done; try (by apply piece_take); by apply Forall2_drop.
Qed.

Lemma read_once_same rs1 rs2 : Forall2 read_same rs1 rs2 →
  Forall2 level (read_values_once rs1).1.1 (read_values_once rs2).1.1 ∧ (read_values_once rs1).1.2 = (read_values_once rs2).1.2 ∧
  Forall2 read_same (read_values_once rs1).2 (read_values_once rs2).2.
Proof.
  destruct 1 as [|[vs1 e1] [vs2 e2] rs1 rs2 [Hv He] Hf]; [by simpl|]. simpl in *. subst e2. destruct e1; simpl; by repeat split.
Qed.

Lemma page_same_with s1 s2 p1 p2 : same s1 s2 → option_Forall2 page_same p1 p2 → same (with_page s1 p1) (with_page s2 p2).
Proof. intros [] Hp. by constructor. Qed.

Lemma fill_buffer_same s1 s2 p1 p2 : same s1 s2 → page_same p1 p2 → step_same (fill_buffer row_of s1 p1) (fill_buffer row_of s2 p2).
Proof.
  intros Hs [Hn Hr]. pose proof Hs as [_ _ _ _ _ Hpn Hp Hf Hk _ _ Hc Hb]. unfold fill_buffer. destruct (read_once_same _ _ Hr) as (Hv & He & Hm).
  destruct (read_values_once (pg_Reads p1)) as [[vs1 e1] m1], (read_values_once (pg_Reads p2)) as [[vs2 e2] m2]. simpl in Hv, He, Hm. subst e2.
  pose proof Hb as Hb'. destruct Hb' as [|v w b1 b2 Hl Hb']; [|by apply on_buffer_same]. rewrite Hpn, Hf, Hk.
  assert (Hgo : step_same (match vs1 with [] => again (with_page (next_wanted s1) None) | _ => on_buffer row_of (with_row (with_page s1 (Some (mkPage (pg_NumRows p1) (pg_Bounds p1) (pg_Dictionary p1) m1))) (rp_pageNext s2) (rp_rowFinished s2) (rp_skipping s2) (rp_current s1) vs1) end)
    (match vs2 with [] => again (with_page (next_wanted s2) None) | _ => on_buffer row_of (with_row (with_page s2 (Some (mkPage (pg_NumRows p2) (pg_Bounds p2) (pg_Dictionary p2) m2))) (rp_pageNext s2) (rp_rowFinished s2) (rp_skipping s2) (rp_current s2) vs2) end)).
  { destruct Hv as [|v w vs1 vs2 Hl Hv]; simpl; [apply page_same_with; [by apply wanted_same|constructor]|]. apply on_buffer_same, row_same; [|done|by constructor]. apply page_same_with; [done|]. by constructor. }
  destruct e1 as [[|e]|]; try exact Hgo. simpl. split; [done|]. destruct Hs. by constructor.
Qed.

Lemma on_loaded_same s1 s2 p1 p2 : same s1 s2 → page_same p1 p2 → step_same (on_loaded row_of s1 p1) (on_loaded row_of s2 p2).
Proof.
  intros Hs Hp. unfold on_loaded, seekRowNum. rewrite (sm_rows _ _ Hs), (sm_startPage _ _ Hs), (proj1 Hp). destruct (_ <=? _)%Z; [|by apply fill_buffer_same].
  simpl. apply page_same_with; [done|constructor].
Qed.

Definition left_same (r1 r2 : (list (Z * C) * Z * option C) + (string * list (Z * C) * Z)) : Prop :=
  match r1, r2 with
  | inl (g1, n1, p1), inl (g2, n2, p2) => Forall2 group_same g1 g2 ∧ n1 = n2 ∧ option_Forall2 chunk_same p1 p2
  | inr (e1, g1, n1), inr (e2, g2, n2) => e1 = e2 ∧ Forall2 group_same g1 g2 ∧ n1 = n2
  | _, _ => False
  end.

Lemma leave_groups_same row g1 g2 n p1 p2 : Forall2 group_same g1 g2 → option_Forall2 chunk_same p1 p2 →
  left_same (leave_groups row g1 n p1) (leave_groups row g2 n p2).
Proof.
  intros Hg. revert n p1 p2. induction Hg as [|[n1 c1] [n2 c2] g1 g2 [Hn Hc] Hg IH]; intros n p1 p2 Hp; simpl; [done|]. simpl in Hn, Hc. subst n2.
  destruct (n + n1 <=? row)%Z; [|by split; [constructor|]].
  assert (match p1 with Some p => ClosePages p | None => None end = match p2 with Some p => ClosePages p | None => None end) as -> by (by destruct Hp as [c c' [_ ?]|]).
  destruct (match p2 with Some p => ClosePages p | None => None end); [by split; [|split; [constructor|]]|]. apply IH. constructor.
Qed.

Lemma repeated_step_same s1 s2 : same s1 s2 → step_same (repeated_step row_of s1) (repeated_step row_of s2).
Proof.
  intros Hs. pose proof Hs as [Hr Hg Hst Hpg Hsp Hpn Hp Hf Hk He Hd Hc Hb]. unfold repeated_step. rewrite Hd. destruct (rp_done s2); [by split|]. unfold seekRowNum. rewrite Hr, Hst.
  pose proof (leave_groups_same (row_of (At (rp_rows s2))) _ _ (rp_startRowGroup s2) _ _ Hg Hp) as Hl.
  destruct (leave_groups _ (rp_rgs s1) _ _) as [[[g1 n1] p1]|[[e1 g1] n1]], (leave_groups _ (rp_rgs s2) _ _) as [[[g2 n2] p2]|[[e2 g2] n2]]; try done;
    [|destruct Hl as (-> & Hg' & ->); split; [done|]; constructor; simpl; try done; by constructor].
  destruct Hl as (Hg' & -> & Hp'). pose proof Hg' as Hgg. destruct Hg' as [|[k1 c1] [k2 c2] g1 g2 [Hkk Hcc] Hg']; [split; [done|]; fields|]. simpl in Hkk, Hcc. subst k2. simpl.
  assert (Hdc : chunk_same (default c1 p1) (default c2 p2)) by (by destruct Hp'). assert (Hdo : option_Forall2 chunk_same (Some (default c1 p1)) (Some (default c2 p2))) by (by constructor).
  destruct Hpg as [pg1 pg2 Hpp|]; [apply on_loaded_same; [|done]; fields|]. pose proof (proj1 Hdc (row_of (At (rp_rows s2)) - n2)%Z) as Hread.
  destruct (SeekRead (default c1 p1) _) as [e1| |e1|pg1], (SeekRead (default c2 p2) _) as [e2| |e2|pg2]; try done; simpl in Hread.
  - subst e2. split; [done|]. fields.
  - fields.
  - subst e2. split; [done|]. fields.
  - apply on_loaded_same; [fields|done].
Qed.

Lemma read_vals_same rs1 rs2 : Forall2 read_same rs1 rs2 → length (read_vals rs1) = length (read_vals rs2).
Proof.
  induction 1 as [|[vs1 e1] [vs2 e2] rs1 rs2 [Hv He] _ IH]; [done|]. simpl in *. subst e2. apply Forall2_length in Hv. destruct e1; [done|]. rewrite !length_app. lia.
Qed.

Lemma repeated_Next_same s1 s2 : same s1 s2 →
  match repeated_Next row_of s1, repeated_Next row_of s2 with Ret (b1, s1'), Ret (b2, s2') => b1 = b2 ∧ same s1' s2' | Panic, Panic => True | _, _ => False end.
Proof.
  intros Hs. unfold repeated_Next. replace (repeated_fuel s2) with (repeated_fuel s1).
  - generalize (repeated_fuel s1) as fuel. intros fuel. revert s1 s2 Hs. induction fuel as [|fuel IH]; intros s1 s2 Hs; simpl; [done|]. pose proof (repeated_step_same s1 s2 Hs) as Hst.
    destruct (repeated_step row_of s1) as [s1'|[b1 s1']], (repeated_step row_of s2) as [s2'|[b2 s2']]; try done. by apply IH.
  - unfold repeated_fuel. rewrite (sm_rows _ _ Hs), (Forall2_length _ _ _ (sm_buffer _ _ Hs)). f_equal. destruct (sm_page _ _ Hs) as [p1 p2 [_ Hr]|]; [|done]. by rewrite (read_vals_same _ _ Hr).
Qed.

(** The pieces have the same rows and lengths. *)
Lemma yields_same t0 s1 s2 out1 e1 : same s1 s2 → @yields _ _ (repeated_iterator row_of t0) s1 out1 e1 →
  ∃ out2 e2, @yields _ _ (repeated_iterator row_of t0) s2 out2 e2 ∧ Forall2 piece_same out1 out2.
Proof.
  intros Hs Hy. revert s2 Hs. induction Hy as [s1 s1' Hn|s1 s1' out1 e1 Hn Hy IH]; intros s2 Hs; pose proof (repeated_Next_same s1 s2 Hs) as Hnn; cbn [Next repeated_iterator] in Hn.
  - destruct (repeated_Next row_of s1) as [[b1 s1'']| |], (repeated_Next row_of s2) as [[b2 s2']| |] eqn:E; try done;
      [injection Hn as -> ->; destruct Hnn as [<- Hs']; exists [], s2'|exists [], s2]; (split; [apply yields_nil; cbn [Next repeated_iterator]; by rewrite E|constructor]).
  - destruct (repeated_Next row_of s1) as [[b1 s1'']| |], (repeated_Next row_of s2) as [[b2 s2']| |] eqn:E; try done. injection Hn as -> ->. destruct Hnn as [<- Hs'].
    destruct (IH s2' Hs') as (out2 & e2 & Hy2 & Hf). eexists _, e2. split; [eapply yields_step; [cbn [Next repeated_iterator]; by rewrite E|done|done]|].
    constructor; [|done]. cbn [At repeated_iterator]. destruct (sm_current _ _ Hs'); done.
Qed.

Lemma NewRepeated_same (rows : St) g1 g2 readSize s1 s2 : Forall2 group_same g1 g2 →
  NewRepeatedPageIterator rows g1 readSize = Ret s1 → NewRepeatedPageIterator rows g2 readSize = Ret s2 → same s1 s2.
Proof.
  unfold NewRepeatedPageIterator. intros Hg. destruct (readSize <=? 0)%Z; [done|]. destruct (Next rows). intros [= <-] [= <-]. fields.
Qed.
End Shape.

(** ** Pairs of values *)

Section Pairs.
Context {T V : Type}.

Definition pairs (r : T * list (list V)) : T * list (V * V) := (r.1, match r.2 with [x; y] => zip x y | _ => [] end).
Definition paired (x y : T * list V) : T * list (V * V) := (x.1, zip x.2 y.2).

Lemma zip_nonempty {A B} (x : list A) (y : list B) : x ≠ [] → length x = length y → zip x y ≠ [].
Proof. by destruct x, y. Qed.

Lemma zip_app {A B} (x x' : list A) (y y' : list B) : length x = length y → zip (x ++ x') (y ++ y') = zip x y ++ zip x' y'.
Proof. revert y. induction x as [|a x IH]; intros [|b y] Hl; simpl in *; try done. f_equal. apply IH. lia. Qed.

Lemma delivers_pairs (E1 E2 out1 out2 : list (T * list V)) : delivers E1 out1 → delivers E2 out2 → Forall2 piece_same E1 E2 → Forall2 piece_same out1 out2 →
  delivers (zip_with paired E1 E2) (zip_with paired out1 out2).
Proof.
  intros H1. revert E2 out2. induction H1 as [|t x y E out Hx H1 IH|t E out H1 IH]; intros E2 out2 H2 HE Hout.
  - apply Forall2_nil_inv_l in HE as ->, Hout as ->. constructor.
  - apply Forall2_cons_inv_l in HE as ([t2 w] & E2' & [Ht Hw] & HE & ->), Hout as ([t3 x2] & out2' & [Ht' Hx'] & Hout & ->). simpl in *. subst t2 t3.
    inversion H2 as [|t0 x0 y0 E0 out0 Hx0 H2' Heq Heq'|t0 E0 out0 H2' Heq Heq']; subst; [|destruct x; [done|simpl in Hw; lia]].
    unfold paired at 1 3. simpl. rewrite zip_app by done. apply delivers_piece; [by apply zip_nonempty|]. rewrite !length_app in Hw.
    apply (IH ((t, y0) :: E2') out2' H2'); [|done]. constructor; [split; simpl; [done|lia]|done].
  - apply Forall2_cons_inv_l in HE as ([t2 w] & E2' & [Ht Hw] & HE & ->). simpl in *. subst t2. destruct w; [|done].
    inversion H2 as [|t0 x0 y0 E0 out0 Hx0 H2' Heq Heq'|t0 E0 out0 H2' Heq Heq']; subst; [destruct x0; done|]. apply delivers_row. by apply (IH E2').
Qed.
End Pairs.

(** Pieces of the same shape, side by side, pair the values of the rows. *)
Lemma pairs_deliver {T V} (row_of : T → Z) (file1 file2 : list (list V)) ts (out1 out2 : list (T * list V)) :
  Forall2 (λ r1 r2, length r1 = length r2) file1 file2 → delivers (expect row_of file1 ts) out1 → delivers (expect row_of file2 ts) out2 → Forall2 piece_same out1 out2 →
  let out := zip_with (λ x y, (x.1, [x.2; y.2])) out1 out2 in
  Forall (λ r, ∃ x y, r.2 = [x; y] ∧ length x = length y) out ∧
  delivers ((λ t, (t, zip (default [] (file1 !! wanted row_of t)) (default [] (file2 !! wanted row_of t)))) <$> ts) (pairs <$> out).
Proof.
  intros Hl Hd1 Hd2 Hf out. split.
  - unfold out. clear -Hf. induction Hf as [|x y out1 out2 [_ Hxy] _ IH]; simpl; constructor; [by eexists _, _|done].
  - replace (pairs <$> out) with (zip_with paired out1 out2) by (unfold out; clear; revert out2; induction out1 as [|x out1 IH]; intros [|y out2]; simpl; f_equal; done).
    replace ((λ t, (t, zip (default [] (file1 !! wanted row_of t)) (default [] (file2 !! wanted row_of t)))) <$> ts) with (zip_with paired (expect row_of file1 ts) (expect row_of file2 ts))
      by (clear; unfold expect; induction ts as [|t ts IH]; simpl; f_equal; done).
    apply (delivers_pairs _ _ _ _ Hd1 Hd2); [|done]. unfold expect. clear -Hl. induction ts as [|t ts IH]; simpl; constructor; [|done]. split; [done|]. simpl.
    pose proof (proj1 (Forall2_lookup _ _ _) Hl (wanted row_of t)) as Hlk. destruct Hlk as [x y Hxy|]; [exact Hxy|done].
Qed.

(** Two repeated columns that the library cuts in the same places give, over the same rows, pieces that pair the values of each row in their order:
    joined, they are exactly the pairs of the first and the second column's values of each row; no piece is empty, and nothing fails. *)
Theorem MultiRepeated_correct {St T V C} `{Iterator St T} `{!IteratorOk St T} `{PqValue V, PagesReader C V} {content1 content2 : C → list (list V)}
    `{!PagesReaderOk C V content1} `{!PagesReaderOk C V content2} (multierror : list string → option string) (row_of : T → Z) (t0 : T)
    (rows : St) (rgs1 rgs2 : list (Z * C)) (readSize : Z) (ts : list T) (e : St) :
  let file1 := concat ((λ g, content1 g.2) <$> rgs1) in
  let file2 := concat ((λ g, content2 g.2) <$> rgs2) in
  (0 < readSize)%Z → Forall (λ g, g.1 = Z.of_nat (length (content1 g.2))) rgs1 → Forall (λ g, g.1 = Z.of_nat (length (content2 g.2))) rgs2 →
  Forall2 group_same rgs1 rgs2 → Forall2 (λ r1 r2, length r1 = length r2) file1 file2 →
  yields rows ts e → StronglySorted (λ a b, row_of a < row_of b)%Z ts → Forall (in_file row_of file1) ts →
  ∃ s1 s2 out e', NewRepeatedPageIterator rows rgs1 readSize = Ret s1 ∧ NewRepeatedPageIterator rows rgs2 readSize = Ret s2 ∧
    @yields _ _ (multi_iterator (H := repeated_iterator row_of t0) multierror t0) (NewMultiRepeatedPageIterator [s1; s2]) out e' ∧
    Forall (λ r, ∃ x y, r.2 = [x; y] ∧ length x = length y) out ∧
    delivers ((λ t, (t, zip (default [] (file1 !! wanted row_of t)) (default [] (file2 !! wanted row_of t)))) <$> ts) (pairs <$> out).
Proof.
  intros file1 file2 Hr Hn1 Hn2 Hg Hl Hy Hs Hin. destruct (NewRepeated_yields row_of t0 rows rgs1 readSize ts e Hr Hn1 Hy Hs Hin) as (s1 & out1 & e1 & Hs1 & Hy1 & Hd1 & _).
  destruct (NewRepeated_yields (content := content2) row_of t0 rows rgs2 readSize ts e Hr Hn2 Hy Hs) as (s2 & out2 & e2 & Hs2 & Hy2 & Hd2 & _).
  { eapply Forall_impl; [exact Hin|]. intros t. unfold in_file. fold file1 file2. by rewrite (Forall2_length _ _ _ Hl). }
  destruct (yields_same row_of t0 s1 s2 out1 e1) as (out2' & e2' & Hy2' & Hf); [by eapply NewRepeated_same|done|]. destruct (yields_det _ _ _ _ _ Hy2 Hy2') as [<- <-].
  destruct (NewMulti_yields (H := repeated_iterator row_of t0) multierror t0 s1 s2 out1 out2 e1 e2 Hy1 Hy2) as [e' Hm].
  exists s1, s2, (zip_with (λ x y, (x.1, [x.2; y.2])) out1 out2), e'. split; [done|]. split; [done|]. split; [exact Hm|].
  by apply (pairs_deliver row_of file1 file2 ts).
Qed.

#[local] Existing Instance leveled_value. #[local] Existing Instance example_pages. #[local] Existing Instance example_pages_ok.

Lemma MultiRepeated_correct_witness :
  ∃ s1 s2 out e, NewRepeatedPageIterator (mkSliceIterator [0; 2]%Z 0%Z) [(4%Z, (false, false))] 2 = Ret s1 ∧
    NewRepeatedPageIterator (mkSliceIterator [0; 2]%Z 0%Z) [(4%Z, (true, false))] 2 = Ret s2 ∧
    @yields _ _ (multi_iterator (H := repeated_iterator id 0%Z) (λ _, None) 0%Z) (NewMultiRepeatedPageIterator [s1; s2]) out e ∧
    (λ p, (p.1.1, p.2.1)) <$> concat (pairs <$> out).*2 = [(1, 10); (2, 20); (3, 30); (5, 50); (6, 60); (7, 70); (8, 80)]%Z.
Proof.
  destruct (MultiRepeated_correct (content1 := example_content) (content2 := example_content) (λ _, None) id 0%Z (mkSliceIterator [0; 2]%Z 0%Z)
    [(4%Z, (false, false))] [(4%Z, (true, false))] 2 [0; 2]%Z (mkSliceIterator [] 0%Z)) as (s1 & s2 & out & e & H1 & H2 & Hy & _ & Hd).
  - lia.
  - by repeat constructor.
  - by repeat constructor.
  - repeat constructor. intros n. simpl. unfold example_page. destruct (Z.to_nat n) as [|[|[|[|k]]]]; [repeat constructor..|]. unfold example_content. rewrite !drop_ge by (simpl; lia). by rewrite !take_nil.
  - repeat constructor.
  - exact (slice_yields [0; 2]%Z 0%Z).
  - repeat constructor; simpl; lia.
  - repeat constructor; simpl; lia.
  - exists s1, s2, out, e. split; [exact H1|]. split; [exact H2|]. split; [exact Hy|]. apply (delivers_values (λ _, True)) in Hd.
    unfold values_of in Hd. rewrite filter_all in Hd by done. rewrite Hd. reflexivity.
Defined.

(** Cut in other places, the same columns give pieces of different lengths, and values of a row are not paired with theirs. *)
Example cut_differently :
  obind (NewRepeatedPageIterator (mkSliceIterator [1; 2]%Z 0%Z) [(4%Z, (false, false))] 2) (λ s1,
    obind (NewRepeatedPageIterator (mkSliceIterator [1; 2]%Z 0%Z) [(4%Z, (true, true))] 2) (λ s2,
      Ret ((λ r : Z * list (list (Z * nat)), (r.1, (λ vs, vs.*1) <$> r.2)) <$>
        (@IterSlice _ _ (multi_iterator (H := repeated_iterator id 0%Z) (λ _, None) 0%Z) (NewMultiRepeatedPageIterator [s1; s2])).1))) =
  Ret [(1, [[4]; [40]]); (2, [[5; 6]; [50]]); (2, [[7; 8]; [60; 70]])]%Z.
Proof. vm_compute. reflexivity. Qed.
