(* ===== verification/RowTables.v ===== *)
(** * Rows of the symbol tables (src/pkg/phlaredb/block_querier.go)

    Rows of a table are retrieved by number: [retrieveRowIterator] seeks in the row groups of a file, and
    [cacheIterator] looks up a table that was read into memory.  The numbers come from
    [uniqueIDs], in increasing order.  The parquet readers are a parameter, [RowReader]. *)

From S2P Require Import Prelude Sorting Labels GoHeap Iter Predicates.

(** The reader of the rows of a row group. *)
Class RowReader (RG Rd M : Type) := {
  rg_Rows : RG → Z;
  NewRowReader : RG → Rd;
  rd_Seek : Rd → Z → option string * Rd;
  rd_Read : Rd → nat → list M * option read_error * Rd;
  rd_Close : Rd → option string }.

(** [ResultWithRowNum] *)
Record ResultWithRowNum (M : Type) := mkRowNum { rw_Result : M; rw_RowNum : Z }.
Arguments mkRowNum {M} _ _. Arguments rw_Result {M} _. Arguments rw_RowNum {M} _.

(** ** [uniqueIDs] *)

(** The keys, sorted: the order in which Go walks the map does not show. *)
Definition uniqueIDs_iterator {A} (m : gmap Z A) : sliceIterator Z := mkSliceIterator (sort_slice Z.ltb (map_to_list m).*1) 0%Z.

(** ** Tables in memory *)

Section Cache.
Context {RG Rd M It : Type} `{RowReader RG Rd M} (zero_row : M) `{Iterator It Z}.

(** The loop over one reader: the rows read so far are at the front of the cache. *)
Fixpoint read_group (fuel : nat) (rd : Rd) (read : nat) (cache : list M) : outcome (nat * list M) :=
  match fuel with
  | O => Panic
  | S fuel =>
      let '(vs, e, rd) := rd_Read rd (length cache - read) in
      let cache := take read cache ++ vs ++ drop (read + length vs) cache in
      let read := read + length vs in
      match e with
      | None => read_group fuel rd read cache
      | Some EOF => Ret (read, cache)
      | Some (ReadError e) => Fail e
      end
  end.

Fixpoint read_groups (rgs : list RG) (read : nat) (cache : list M) : outcome (nat * list M) :=
  match rgs with
  | [] => Ret (read, cache)
  | rg :: rgs => obind (read_group (S (S (length cache))) (NewRowReader rg) read cache) (λ '(read, cache), read_groups rgs read cache)
  end.

(** [open], after the file was opened. *)
Definition inMemory_open (NumRows : nat) (rgs : list RG) : outcome (list M) :=
  if (NumRows =? 0)%nat then Fail "error parquet file contains no rows"
  else obind (read_groups rgs 0 (replicate NumRows zero_row)) (λ '(_, cache), Ret cache).

Record cacheIterator := mkCache { ca_cache : list M; ca_it : It }.

Definition cache_Next (c : cacheIterator) : bool * cacheIterator :=
  let '(more, it) := Next (ca_it c) in
  let c := mkCache (ca_cache c) it in
  if more then if (Z.of_nat (length (ca_cache c)) <=? At it)%Z then (false, c) else (true, c) else (false, c).

(** A negative row number panics. *)
Definition cache_At (c : cacheIterator) : ResultWithRowNum M := mkRowNum (default zero_row (ca_cache c !! Z.to_nat (At (ca_it c)))) (At (ca_it c)).

#[export] Instance cache_iterator : Iterator cacheIterator (ResultWithRowNum M) := {|
  Next := cache_Next; At := cache_At; Err _ := None; Close c := (None, c); remaining c := remaining (ca_it c) |}.
End Cache.
Arguments cacheIterator M It : clear implicits. Arguments mkCache {M It} _ _. Arguments ca_cache {M It} _. Arguments ca_it {M It} _.

(** ** Rows of a file *)

Record retrieveRowIterator (RG Rd M It : Type) := mkRetrieve {
  rt_idx : nat;
  rt_min : Z;
  rt_max : Z;
  rt_groups : list RG;
  rt_reader : option Rd;
  rt_result : option (ResultWithRowNum M);
  rt_row : M;
  rt_it : It;
  rt_err : option string }.
Arguments mkRetrieve {RG Rd M It} _ _ _ _ _ _ _ _ _. Arguments rt_idx {RG Rd M It} _. Arguments rt_min {RG Rd M It} _. Arguments rt_max {RG Rd M It} _.
Arguments rt_groups {RG Rd M It} _. Arguments rt_reader {RG Rd M It} _. Arguments rt_result {RG Rd M It} _. Arguments rt_row {RG Rd M It} _.
Arguments rt_it {RG Rd M It} _. Arguments rt_err {RG Rd M It} _.

Section Retrieve.
Context {RG Rd M It : Type} `{RowReader RG Rd M} `{Iterator It Z} (zero_row : M) (itoa : Z → string).
Implicit Types (i : retrieveRowIterator RG Rd M It).

Definition retrieveRows (rgs : list RG) (it : It) : retrieveRowIterator RG Rd M It := mkRetrieve 0 0 0 rgs None None zero_row it None.

Definition with_reader i (rd : option Rd) (row : M) : retrieveRowIterator RG Rd M It :=
  mkRetrieve (rt_idx i) (rt_min i) (rt_max i) (rt_groups i) rd (rt_result i) row (rt_it i) (rt_err i).
Definition failed i (e : string) : bool * retrieveRowIterator RG Rd M It :=
  (false, mkRetrieve (rt_idx i) (rt_min i) (rt_max i) (rt_groups i) (rt_reader i) (rt_result i) (rt_row i) (rt_it i) (Some e)).

(** The next row group is opened; the index may pass the end. *)
Definition open_group i (idx : nat) : outcome (option read_error * retrieveRowIterator RG Rd M It) :=
  obind (of_option (rt_groups i !! idx)) (λ rg,
    Ret (None, mkRetrieve idx (rt_max i) (i64 (rt_max i + rg_Rows rg)) (rt_groups i) (Some (NewRowReader rg)) (rt_result i) (rt_row i) (rt_it i) (rt_err i))).

Definition nextRowGroup i : outcome (option read_error * retrieveRowIterator RG Rd M It) :=
  match rt_reader i with
  | None => open_group i (rt_idx i)
  | Some rd =>
      match rd_Close rd with
      | Some e => Ret (Some (ReadError ("closing row group: " +:+ e)), i)
      | None =>
          let idx := S (rt_idx i) in
          if (length (rt_groups i) <=? idx)%nat
          then Ret (Some EOF, mkRetrieve idx (rt_min i) (rt_max i) (rt_groups i) (rt_reader i) (rt_result i) (rt_row i) (rt_it i) (rt_err i))
          else open_group i idx
      end
  end.

Fixpoint retrieve_loop (fuel : nat) (rowNum : Z) i : outcome (bool * retrieveRowIterator RG Rd M It) :=
  match fuel with
  | O => Panic
  | S fuel =>
      if (rowNum <? rt_min i)%Z then Ret (failed i ("row number selected " +:+ itoa rowNum +:+ " is before current row number " +:+ itoa (rt_min i)))
      else
        match rt_reader i with
        | None => Panic
        | Some rd =>
            let '(e, rd) := rd_Seek rd (rowNum - rt_min i) in
            let i := with_reader i (Some rd) (rt_row i) in
            match e with
            | Some e => Ret (failed i ("seek to row at rowNum=" +:+ itoa rowNum +:+ ": " +:+ e))
            | None =>
                let '(vs, e, rd) := rd_Read rd 1 in
                let i := with_reader i (Some rd) (hd (rt_row i) vs) in
                match e with
                | None => Ret (true, mkRetrieve (rt_idx i) (rt_min i) (rt_max i) (rt_groups i) (rt_reader i) (Some (mkRowNum (rt_row i) rowNum)) (rt_row i) (rt_it i) (rt_err i))
                | Some EOF =>
                    obind (nextRowGroup i) (λ '(e, i),
                      match e with
                      | Some (ReadError e) => Ret (failed i ("getting next row group: " +:+ e))
                      | _ => retrieve_loop fuel rowNum i
                      end)
                | Some (ReadError e) => Ret (failed i ("reading row at rowNum=" +:+ itoa rowNum +:+ ": " +:+ e))
                end
            end
        end
  end.

Definition retrieve_Next i : outcome (bool * retrieveRowIterator RG Rd M It) :=
  let '(more, it) := Next (rt_it i) in
  let i := mkRetrieve (rt_idx i) (rt_min i) (rt_max i) (rt_groups i) (rt_reader i) (rt_result i) (rt_row i) it (rt_err i) in
  if more then
    obind (match rt_reader i with None => nextRowGroup i | Some _ => Ret (None, i) end) (λ '(e, i),
      match e with
      | Some e => Ret (failed i ("getting next row group: " +:+ match e with EOF => "EOF" | ReadError e => e end))
      | None => retrieve_loop (S (length (rt_groups i) - rt_idx i)) (At it) i
      end)
  else match Err it with Some e => Ret (failed i ("error from row number iterator: " +:+ e)) | None => Ret (false, i) end.

#[export] Instance retrieve_iterator : Iterator (retrieveRowIterator RG Rd M It) (ResultWithRowNum M) := {|
  Next i := match retrieve_Next i with Ret r => r | _ => (false, i) end;
  At i := default (mkRowNum zero_row 0%Z) (rt_result i);
  Err := rt_err;
  Close i := (match rt_reader i with Some rd => rd_Close rd | None => None end, i);
  remaining i := remaining (rt_it i) |}.
End Retrieve.

(** ** Sorted keys *)

Definition keys_of {A} (m : gmap Z A) : list Z := sort_slice Z.ltb (map_to_list m).*1.

Lemma keys_yield {A} (m : gmap Z A) : yields (uniqueIDs_iterator m) (keys_of m) (mkSliceIterator [] 0%Z).
Proof. apply slice_yields. Qed.

Lemma keys_elem {A} (m : gmap Z A) k : k ∈ keys_of m ↔ is_Some (m !! k).
Proof.
  unfold keys_of. rewrite sort_slice_perm, list_elem_of_fmap. split.
  - intros ([k' x] & -> & Hk%elem_of_map_to_list). by exists x.
  - intros [x Hx]. exists (k, x). split; [done|]. by apply elem_of_map_to_list.
Qed.

Lemma keys_NoDup {A} (m : gmap Z A) : NoDup (keys_of m).
Proof. unfold keys_of. rewrite sort_slice_perm. apply NoDup_fst_map_to_list. Qed.

Lemma keys_sorted {A} (m : gmap Z A) : StronglySorted Z.lt (keys_of m).
Proof.
  assert (Hs : StronglySorted Z.le (keys_of m)).
  { eapply StronglySorted_weaken; [|apply sort_slice_sorted]; intros; simpl in *; bool_prop; try apply Z.ltb_ge; lia. }
  pose proof (keys_NoDup m) as Hn. induction Hs as [|k l Hs IH Hk]; [constructor|]. apply NoDup_cons in Hn as [Hkl Hn]. constructor; [by apply IH|].
  rewrite Forall_forall in Hk |- *. intros x Hx. specialize (Hk x Hx). assert (x ≠ k) by (by intros ->). lia.
Qed.

(** ** The cache *)

Section CacheSpec.
Context {M It : Type} (zero_row : M) `{Iterator It Z}.

Definition row_at (cache : list M) (k : Z) : ResultWithRowNum M := mkRowNum (default zero_row (cache !! Z.to_nat k)) k.

Lemma cache_yields (cache : list M) it l e : yields it l e → Forall (λ k, k < Z.of_nat (length cache))%Z l →
  ∃ e', @yields _ _ (cache_iterator zero_row) (mkCache cache it) (row_at cache <$> l) e'.
Proof.
  induction 1 as [it it' Hn|it it' l e Hn Hy IH]; intros Hf.
  - eexists. apply yields_nil. simpl. unfold cache_Next. simpl. by rewrite Hn.
  - apply Forall_cons in Hf as [Hk Hf]. destruct (IH Hf) as [e' He]. exists e'. simpl. apply (yields_step _ (mkCache cache it')); [|done|done].
    simpl. unfold cache_Next. simpl. rewrite Hn. simpl. by rewrite (proj2 (Z.leb_gt _ _) Hk).
Qed.

(** A row past the end ends the iteration, without an error. *)
Lemma cache_ends (cache : list M) it it' : Next it = (true, it') → (Z.of_nat (length cache) ≤ At it')%Z →
  @yields _ _ (cache_iterator zero_row) (mkCache cache it) [] (mkCache cache it') ∧ @Err _ _ (cache_iterator zero_row) (mkCache cache it') = None.
Proof. intros Hn Hl. split; [|done]. apply yields_nil. simpl. unfold cache_Next. simpl. rewrite Hn. simpl. by rewrite (proj2 (Z.leb_le _ _) Hl). Qed.
End CacheSpec.

(** ** What the library promises of a reader *)

(** A reader of a row group is at a row; it reads at least one row while there are some, and then reports the end. *)
Class RowReaderOk (RG Rd M : Type) `{RowReader RG Rd M} (content : RG → list M) (reads : Rd → RG → nat → Prop) : Prop := {
  reader_rows rg : rg_Rows rg = Z.of_nat (length (content rg));
  reader_new rg : reads (NewRowReader rg) rg 0;
  reader_seek rd rg p n : reads rd rg p → ∃ rd', rd_Seek rd (Z.of_nat n) = (None, rd') ∧ reads rd' rg n;
  reader_read rd rg p k : reads rd rg p → p < length (content rg) → 0 < k →
    ∃ j rd', 0 < j ≤ k ∧ rd_Read rd k = (take j (drop p (content rg)), None, rd') ∧ j ≤ length (content rg) - p ∧ reads rd' rg (p + j);
  reader_end rd rg p k : reads rd rg p → length (content rg) ≤ p → ∃ rd', rd_Read rd k = ([], Some EOF, rd') ∧ reads rd' rg p;
  reader_close rd rg p : reads rd rg p → rd_Close rd = None }.

Section Readers.
Context {RG Rd M It : Type} `{RowReaderOk RG Rd M content reads} `{Iterator It Z} (zero_row : M) (itoa : Z → string).

(** *** Reading into memory *)

Lemma read_group_spec fuel rd rg p done rest : reads rd rg p → p ≤ length (content rg) → length (content rg) - p ≤ length rest → length (content rg) - p < fuel →
  ∃ rest', read_group fuel rd (length done) (done ++ rest) = Ret (length (done ++ drop p (content rg)), (done ++ drop p (content rg)) ++ rest') ∧
    length (drop p (content rg)) + length rest' = length rest.
Proof.
  revert rd p done rest. induction fuel as [|fuel IH]; intros rd p done rest Hr Hp Hl Hf; [lia|]. simpl. rewrite length_app.
  destruct (decide (p = length (content rg))) as [->|Hne].
  - destruct (reader_end rd rg _ (length done + length rest - length done) Hr) as (rd' & -> & _); [lia|]. simpl. rewrite drop_all, !app_nil_r, Nat.add_0_r, take_drop. by exists rest.
  - destruct (reader_read rd rg p (length done + length rest - length done) Hr) as (j & rd' & Hj & -> & Hjl & Hr'); [lia..|].
    set (vs := take j (drop p (content rg))). assert (length vs = j) as Hvs by (unfold vs; rewrite length_take, length_drop; lia).
    rewrite take_app_length, Hvs. assert (drop (length done + j) (done ++ rest) = drop j rest) as -> by (rewrite <-drop_drop; by rewrite drop_app_length).
    rewrite (assoc_L (++)). replace (length done + j) with (length (done ++ vs)) by (rewrite length_app; lia).
    destruct (IH rd' (p + j) (done ++ vs) (drop j rest) Hr') as (rest' & Hg & Hlr); [lia|rewrite length_drop; lia|lia|]. exists rest'.
    assert (drop p (content rg) = vs ++ drop (p + j) (content rg)) as Hd by (unfold vs; rewrite <-drop_drop; by rewrite take_drop).
    rewrite Hg, Hd, (assoc_L (++)). split; [done|]. rewrite length_app, Hvs. rewrite !length_drop in Hlr; rewrite !length_drop. lia.
Qed.

Lemma read_groups_spec rgs done rest : length (concat (content <$> rgs)) ≤ length rest →
  ∃ rest', read_groups rgs (length done) (done ++ rest) = Ret (length (done ++ concat (content <$> rgs)), (done ++ concat (content <$> rgs)) ++ rest') ∧
    length (concat (content <$> rgs)) + length rest' = length rest.
Proof.
  revert done rest. induction rgs as [|rg rgs IH]; intros done rest Hl; cbn [read_groups fmap list_fmap concat] in *; [rewrite !app_nil_r; by exists rest|]. rewrite length_app in Hl.
  destruct (read_group_spec (S (S (length (done ++ rest)))) (NewRowReader rg) rg 0 done rest) as (rest1 & -> & Hl1); [apply reader_new|lia|lia|rewrite length_app; lia|].
  rewrite drop_0 in *. simpl. destruct (IH (done ++ content rg) rest1) as (rest2 & -> & Hl2); [lia|]. exists rest2. rewrite !(assoc_L (++)). split; [done|]. rewrite length_app. lia.
Qed.
End Readers.

(** [open] of a table reads all rows of all row groups into memory, in their order; the file says how many there are. *)
Theorem inMemory_open_correct {RG Rd M} `{RowReaderOk RG Rd M content reads} (zero_row : M) (rgs : list RG) :
  concat (content <$> rgs) ≠ [] → inMemory_open zero_row (length (concat (content <$> rgs))) rgs = Ret (concat (content <$> rgs)).
Proof.
  intros Hne. unfold inMemory_open. rewrite (proj2 (Nat.eqb_neq _ _)) by (by destruct (concat _)).
  destruct (read_groups_spec rgs [] (replicate (length (concat (content <$> rgs))) zero_row)) as (rest & Hg & Hl); [by rewrite length_replicate|].
  cbn [length app] in Hg. rewrite Hg. simpl. rewrite length_replicate in Hl. destruct rest; [by rewrite app_nil_r|simpl in Hl; lia].
Qed.

Section RetrieveSpec.
Context {RG Rd M It : Type} `{RowReaderOk RG Rd M content reads} `{Iterator It Z} (zero_row : M) (itoa : Z → string) (rgs : list RG).
Implicit Types (i : retrieveRowIterator RG Rd M It).

Definition offset (k : nat) : nat := length (concat (content <$> take k rgs)).
Definition table : list M := concat (content <$> rgs).

Hypothesis table_small : (Z.of_nat (length table) ≤ max_int64)%Z.

Lemma offset_S k rg : rgs !! k = Some rg → offset (S k) = offset k + length (content rg).
Proof. intros Hk. unfold offset. rewrite (take_S_r _ _ _ Hk), fmap_app, concat_app, length_app. simpl. by rewrite app_nil_r. Qed.

Lemma table_split k rg : rgs !! k = Some rg → table = concat (content <$> take k rgs) ++ content rg ++ concat (content <$> drop (S k) rgs).
Proof. intros Hk. unfold table. rewrite <-(take_drop_middle _ _ _ Hk) at 1. by rewrite fmap_app, fmap_cons, concat_app. Qed.

Lemma offset_le k : offset k ≤ length table.
Proof. unfold offset, table. rewrite <-(take_drop k rgs) at 2. rewrite fmap_app, concat_app, length_app. lia. Qed.

Lemma offset_all k : length rgs ≤ k → offset k = length table.
Proof. intros Hk. unfold offset. by rewrite take_ge. Qed.

(** A row group is open, at its place in the file. *)
Definition opened i (k : nat) : Prop :=
  ∃ rg rd p, rt_groups i = rgs ∧ rt_idx i = k ∧ rgs !! k = Some rg ∧ rt_reader i = Some rd ∧ reads rd rg p ∧
    rt_min i = Z.of_nat (offset k) ∧ rt_max i = Z.of_nat (offset (S k)).

Lemma open_group_spec i k : rt_groups i = rgs → rt_max i = Z.of_nat (offset k) → k < length rgs →
  ∃ i', open_group i k = Ret (None, i') ∧ opened i' k ∧ rt_it i' = rt_it i ∧ rt_err i' = rt_err i.
Proof.
  intros Hg Hm Hk. destruct (lookup_lt_is_Some_2 rgs k Hk) as [rg Hrg]. unfold open_group. rewrite Hg, Hrg. simpl. eexists. split; [done|]. split; [|done].
  exists rg, (NewRowReader rg), 0. simpl. repeat split; try done; [apply reader_new|]. rewrite Hm, reader_rows, (offset_S _ _ Hrg). pose proof (offset_le (S k)) as Hle. rewrite (offset_S _ _ Hrg) in Hle.
  rewrite i64_small; [lia|]. unfold int64_range, min_int64, max_int64 in *. lia.
Qed.

Lemma retrieve_loop_spec fuel i k n : opened i k → length rgs - k < fuel → offset k ≤ n < length table →
  ∃ i' k', retrieve_loop itoa fuel (Z.of_nat n) i = Ret (true, i') ∧ opened i' k' ∧ offset k' ≤ n ∧ rt_it i' = rt_it i ∧ rt_err i' = rt_err i ∧
    ∃ x, table !! n = Some x ∧ rt_result i' = Some (mkRowNum x (Z.of_nat n)).
Proof.
  revert i k. induction fuel as [|fuel IH]; intros i k (rg & rd & p & Hg & Hi & Hrg & Hrd & Hr & Hmin & Hmax) Hf Hn; [lia|]. simpl.
  rewrite Hmin, Hrd, (proj2 (Z.ltb_ge _ _)) by lia. replace (Z.of_nat n - Z.of_nat (offset k))%Z with (Z.of_nat (n - offset k)) by lia.
  destruct (reader_seek rd rg p (n - offset k) Hr) as (rd1 & -> & Hr1). simpl. destruct (decide (n - offset k < length (content rg))) as [Hlt|Hge].
  - destruct (reader_read rd1 rg _ 1 Hr1 Hlt) as (j & rd2 & Hj & -> & _ & Hr2); [lia|]. assert (j = 1) as -> by lia.
    destruct (lookup_lt_is_Some_2 (content rg) (n - offset k) Hlt) as [x Hx]. rewrite (drop_S _ _ _ Hx). simpl. eexists _, k. split; [done|]. split; [|repeat split; [lia|]].
    + exists rg, rd2, (n - offset k + 1). done.
    + exists x. split; [|done]. rewrite (table_split _ _ Hrg). fold (offset k). rewrite lookup_app_r by (fold (offset k); lia). fold (offset k). by rewrite lookup_app_l.
  - destruct (reader_end rd1 rg _ 1 Hr1) as (rd2 & -> & Hr2); [lia|]. unfold nextRowGroup. simpl. rewrite (reader_close _ _ _ Hr2), Hi, Hg. pose proof (offset_S _ _ Hrg) as Hoff.
    assert (S k < length rgs) as Hk by (destruct (decide (S k < length rgs)); [done|]; rewrite offset_all in Hoff by lia; lia). rewrite (proj2 (Nat.leb_gt _ _)) by done.
    destruct (open_group_spec (with_reader (with_reader i (Some rd1) (rt_row i)) (Some rd2) (rt_row i)) (S k)) as (i1 & Ho & Hop & Hit & Herr); [done|done|done|]. simpl in Ho. rewrite Ho. simpl.
    destruct (IH i1 (S k) Hop) as (i' & k' & Hl & Hop' & Hk' & Hit' & Herr' & Hx); [lia|lia|]. exists i', k'. rewrite Hit', Herr', Hit, Herr. done.
Qed.

Lemma retrieve_yields it l e : yields it l e → ∀ i, rt_it i = it → rt_err i = None → (opened i (rt_idx i) ∨ i = retrieveRows zero_row rgs it) →
  StronglySorted Z.lt l → Forall (λ n, Z.of_nat (offset (rt_idx i)) ≤ n < Z.of_nat (length table))%Z l → Err e = None →
  ∃ e', @yields _ _ (retrieve_iterator zero_row itoa) i (row_at zero_row table <$> l) e' ∧ rt_err e' = None.
Proof.
  induction 1 as [it it' Hn|it it' l e Hn Hy IH]; intros i Hi Herr Hop Hs Hf He.
  - eexists. split; [apply yields_nil; simpl; unfold retrieve_Next; rewrite Hi, Hn; simpl; by rewrite He|done].
  - apply StronglySorted_inv in Hs as [Hs Hlt]. apply Forall_cons in Hf as [Hk Hf].
    assert (∃ i1 k, match rt_reader i with None => nextRowGroup (mkRetrieve (rt_idx i) (rt_min i) (rt_max i) (rt_groups i) (rt_reader i) (rt_result i) (rt_row i) it' (rt_err i))
        | Some _ => Ret (None, mkRetrieve (rt_idx i) (rt_min i) (rt_max i) (rt_groups i) (rt_reader i) (rt_result i) (rt_row i) it' (rt_err i)) end = Ret (None, i1) ∧
        opened i1 k ∧ offset k ≤ Z.to_nat (At it') ∧ rt_it i1 = it' ∧ rt_err i1 = None) as (i1 & k & Hreader & Hop1 & Hk1 & Hit1 & Herr1).
    { destruct Hop as [(rg & rd & p & Hg & Hidx & Hrg & Hrd & Hr & Hmin & Hmax)| ->].
      - rewrite Hrd. eexists _, (rt_idx i). split; [done|]. split; [by exists rg, rd, p|]. simpl. repeat split; [lia|done].
      - destruct (open_group_spec (retrieveRows zero_row rgs it') 0) as (i1 & Ho & Hop & Hit & Herr'); [done|done| |].
        { destruct (decide (0 < length rgs)) as [|Hz]; [done|]. pose proof (offset_all 0 ltac:(lia)). simpl in Hk. lia. }
        exists i1, 0. split; [exact Ho|]. split; [done|]. rewrite Hit, Herr'. split; [unfold offset; simpl; lia|done]. }
    pose proof Hop1 as (rg & rd & p & Hg & Hidx & Hrest).
    destruct (retrieve_loop_spec (S (length (rt_groups i1) - rt_idx i1)) i1 k (Z.to_nat (At it')) Hop1) as (i' & k' & Hl & Hop' & Hk' & Hit' & Herr' & x & Hx & Hres); [rewrite Hg, Hidx; lia|lia|].
    rewrite Z2Nat.id in Hl, Hres by lia. assert (rt_idx i' = k') as <- by (by destruct Hop' as (? & ? & ? & ? & ? & _)).
    destruct (IH i') as (e' & Hy' & He'); [by rewrite Hit'|by rewrite Herr'|by left|done| |done|].
    { rewrite Forall_forall in Hlt, Hf |- *. intros m Hm. specialize (Hlt m Hm). specialize (Hf m Hm). simpl in *. lia. }
    exists e'. split; [|done]. simpl. eapply yields_step; [|simpl; rewrite Hres; simpl; unfold row_at; by rewrite Hx|done].
    simpl. unfold retrieve_Next. rewrite Hi, Hn. cbn -[retrieve_loop nextRowGroup]. rewrite Hreader. cbn -[retrieve_loop]. by rewrite Hl.
Qed.
End RetrieveSpec.

(** [retrieveRows] of a file gives, for increasing row numbers of the file, exactly these rows with their numbers, across row groups, and no error. *)
Theorem retrieveRows_correct {RG Rd M It} `{RowReaderOk RG Rd M content reads} `{Iterator It Z} (zero_row : M) (itoa : Z → string) (rgs : list RG) (it : It) (l : list Z) (e : It) :
  let table := concat (content <$> rgs) in
  (Z.of_nat (length table) ≤ max_int64)%Z → yields it l e → Err e = None → StronglySorted Z.lt l → Forall (λ n, 0 ≤ n < Z.of_nat (length table))%Z l →
  ∃ e', @yields _ _ (retrieve_iterator zero_row itoa) (retrieveRows zero_row rgs it) (row_at zero_row table <$> l) e' ∧ rt_err e' = None.
Proof. intros table Ht Hy He Hs Hf. apply (retrieve_yields zero_row itoa rgs Ht it l e Hy); try done. by right. Qed.

(** A row past the end of the last row group is sought without end. *)
Lemma beyond_never_ends {RG Rd M It} `{RowReaderOk RG Rd M content reads} (itoa : Z → string) fuel (i : retrieveRowIterator RG Rd M It) rg rd p n :
  length (rt_groups i) ≤ S (rt_idx i) → rt_reader i = Some rd → reads rd rg p → (rt_min i + Z.of_nat (length (content rg)) ≤ n)%Z → retrieve_loop itoa fuel n i = Panic.
Proof.
  revert i rd p. induction fuel as [|fuel IH]; intros i rd p Hl Hrd Hr Hn; [done|]. simpl. rewrite (proj2 (Z.ltb_ge _ _)), Hrd by lia.
  destruct (reader_seek rd rg p (Z.to_nat (n - rt_min i)) Hr) as (rd1 & Hs & Hr1). rewrite Z2Nat.id in Hs by lia. rewrite Hs. simpl.
  destruct (reader_end rd1 rg _ 1 Hr1) as (rd2 & -> & Hr2); [lia|]. unfold nextRowGroup. simpl. rewrite (reader_close _ _ _ Hr2), (proj2 (Nat.leb_le _ _)) by lia. simpl.
  apply (IH _ rd2 (Z.to_nat (n - rt_min i))); simpl; try done; lia.
Qed.

(** A reader of rows in memory, one at a time. *)
#[local] Instance list_reader : RowReader (list Z) (list Z * nat) Z := {|
  rg_Rows l := Z.of_nat (length l);
  NewRowReader l := (l, 0);
  rd_Seek r n := (None, (r.1, Z.to_nat n));
  rd_Read r k := match r.1 !! r.2 with Some x => ([x], None, (r.1, S r.2)) | None => ([], Some EOF, r) end;
  rd_Close _ := None |}.

#[local] Instance list_reader_ok : RowReaderOk (list Z) (list Z * nat) Z id (λ rd rg p, rd = (rg, p)).
Proof.
  split; try done.
  - intros rd rg p n ->. eexists. split; [done|]. simpl. by rewrite Nat2Z.id.
  - intros rd rg p k -> Hp Hk. unfold id in *. destruct (lookup_lt_is_Some_2 rg p Hp) as [x Hx]. exists 1, (rg, S p). simpl. rewrite Hx, (drop_S _ _ _ Hx). simpl.
    rewrite take_0. repeat split; [lia..|]. f_equal. lia.
  - intros rd rg p k -> Hp. unfold id in *. exists (rg, p). simpl. by rewrite (lookup_ge_None_2 rg p).
Defined.

Lemma inMemory_open_correct_witness : [3; 1; 4; 1; 5]%Z ≠ [] ∧ inMemory_open 0%Z 5 [[3; 1; 4]; [1; 5]]%Z = Ret [3; 1; 4; 1; 5]%Z.
Proof. split; [done|]. exact (inMemory_open_correct (content := id) 0%Z [[3; 1; 4]; [1; 5]]%Z ltac:(done)). Defined.

Lemma retrieveRows_correct_witness :
  ∃ e, @yields _ _ (retrieve_iterator 0%Z (λ _, EmptyString)) (retrieveRows 0%Z [[30; 31; 32]; [33; 34]]%Z (mkSliceIterator [1; 2; 4]%Z 0%Z))
    [mkRowNum 31 1; mkRowNum 32 2; mkRowNum 34 4]%Z e ∧ rt_err e = None.
Proof.
  destruct (retrieveRows_correct 0%Z (λ _, EmptyString) [[30; 31; 32]; [33; 34]]%Z (mkSliceIterator [1; 2; 4]%Z 0%Z) [1; 2; 4]%Z (mkSliceIterator [] 0%Z)) as (e & Hy & He).
  - vm_compute. discriminate.
  - exact (slice_yields [1; 2; 4]%Z 0%Z).
  - reflexivity.
  - repeat constructor; lia.
  - repeat constructor; simpl; lia.
  - exists e. split; [exact Hy|exact He].
Defined.
