(* ===== verification/BlockMerge.v ===== *)
(** * Merging the samples of a block (src/pkg/phlaredb/sample_merge.go)

    [MergeByStacktraces] reads two columns of the selected rows side by side, sums the values by stack trace and
    resolves the stack traces through the tables of locations, functions and strings; [MergeByLabels] reads the
    values and adds a point per piece to the series of the labels.  The maps are [gmap]s. *)

From S2P Require Import Prelude Sorting Labels GoHeap Iter Postings ProfilesIndex HeadQuery Symbols Predicates ColumnIter BlockSelect Repeated MultiRepeated RowTables.

(** ** Files of a block *)

(** A parquet file: its row groups and the index of a column. *)
Record parquetFile (V : Type) := mkFile { pf_RowGroups : list (RowGroup V); pf_column : string → option nat }.
Arguments mkFile {V} _ _. Arguments pf_RowGroups {V} _. Arguments pf_column {V} _.

(** What the merges read: two files, and the tables in memory. *)
Record blockTables (V : Type) := mkTables {
  bt_profiles : parquetFile V; bt_stacktraces : parquetFile V;
  bt_locations : list Location; bt_functions : list Function; bt_strings : list string }.
Arguments mkTables {V} _ _ _ _ _. Arguments bt_profiles {V} _. Arguments bt_stacktraces {V} _.
Arguments bt_locations {V} _. Arguments bt_functions {V} _. Arguments bt_strings {V} _.

#[export] Instance zero_repeated {T V} `{GoZero T} : GoZero (T * list V) := (zero, []).

Section Merge.
Context {V : Type} `{PqValue V} `{PagesReader (ColumnChunk V) V}.

Abbreviation column_iter St T := (errIterator + repeatedPageIterator St T V (ColumnChunk V))%type (only parsing).

(** The columns of the row groups are looked up when the iterator is made. *)
Definition repeatedColumnIter {St T} `{Iterator St T} (f : parquetFile V) (columnName : string) (rows : St) : outcome (column_iter St T) :=
  match pf_column f columnName with
  | None => Ret (inl (NewErrIterator ("column '" +:+ columnName +:+ "' not found in parquet file")))
  | Some i => obind (column_chunks i (pf_RowGroups f)) (λ rgs, obind (NewRepeatedPageIterator rows rgs 10000) (λ it, Ret (inr it)))
  end.

(** The rows of a column: profiles by their row number, or row numbers. *)
#[local] Instance profile_column {St} `{Iterator St BlockProfile} : Iterator (column_iter St BlockProfile) (BlockProfile * list V) :=
  @sum_iter _ _ _ _ (repeated_iterator bp_RowNum zero).
#[local] Instance number_column : Iterator (column_iter (sliceIterator Z) Z) (Z * list V) := @sum_iter _ _ _ _ (repeated_iterator id 0%Z).

(** ** By stack trace *)

(** The samples of a piece, side by side. *)
Fixpoint add_samples (ids values : list V) (m : gmap Z StacktraceSample) : outcome (gmap Z StacktraceSample) :=
  match ids, values with
  | [], _ => Ret m
  | _ :: _, [] => Panic
  | i :: ids, v :: values =>
      add_samples ids values
        (match m !! v_Int64 i with
         | Some s => <[v_Int64 i := mkStacktraceSample (ss_FunctionIds s) (i64 (ss_Value s + v_Int64 v))]> m
         | None => <[v_Int64 i := mkStacktraceSample [] (v_Int64 v)]> m
         end)
  end.

Definition merge_piece (r : BlockProfile * list (list V)) (m : gmap Z StacktraceSample) : outcome (gmap Z StacktraceSample) :=
  match r.2 with ids :: values :: _ => add_samples ids values m | _ => Panic end.

(** *** [resolveSymbols] *)

Definition v_Uint64 (v : V) : N := Z.to_N (v_Int64 v mod 2 ^ 64).

(** The locations by stack trace, and all locations. *)
Definition gather_stack (r : Z * list V) (st : gmap Z (list N) * gmap Z unit) : outcome (gmap Z (list N) * gmap Z unit) :=
  let '(byStack, ids) := st in
  let locs := v_Uint64 <$> r.2 in
  Ret (<[r.1 := default [] (byStack !! r.1) ++ locs]> byStack, foldl (λ ids l, <[i64 (Z.of_N l) := ()]> ids) ids locs).

(** A value is appended to the list of a key. *)
Definition append_at (m : gmap Z (list Z)) (k x : Z) : gmap Z (list Z) := <[k := default [] (m !! k) ++ [x]]> m.

Definition gather_location (s : ResultWithRowNum Location) (m : gmap Z (list Z)) : outcome (gmap Z (list Z)) :=
  Ret (foldl (λ m line, append_at m (i64 (Z.of_N (ln_FunctionId line))) (rw_RowNum s)) m (lc_Line (rw_Result s))).

Definition gather_function (s : ResultWithRowNum Function) (m : gmap Z (list Z)) : outcome (gmap Z (list Z)) :=
  Ret (append_at m (fn_Name (rw_Result s)) (rw_RowNum s)).

(** The names and the string they came from, by position. *)
Definition gather_name (s : ResultWithRowNum string) (st : list string * list (list Z) * nat) : outcome (list string * list (list Z) * nat) :=
  let '(names, idSlice, idx) := st in
  if (idx <? length names)%nat then Ret (<[idx := rw_Result s]> names, <[idx := [rw_RowNum s]]> idSlice, S idx) else Panic.

(** The ids are rewritten through a map of lists. *)
Definition rewrite_ids (m : gmap Z (list Z)) (idSlice : list (list Z)) : list (list Z) := (λ ids, concat ((λ i, default [] (m !! i)) <$> ids)) <$> idSlice.

(** The name of each location; a later name replaces an earlier one. *)
Definition name_locations (idSlice : list (list Z)) : gmap Z Z :=
  foldl (λ m x, foldl (λ m loc, <[loc := i32 (Z.of_nat x.1)]> m) m x.2) ∅ (imap pair idSlice).

Definition name_sample (byStack : gmap Z (list N)) (nameOf : gmap Z Z) (sid : Z) (s : StacktraceSample) : StacktraceSample :=
  mkStacktraceSample ((λ loc, default 0%Z (nameOf !! i64 (Z.of_N loc))) <$> default [] (byStack !! sid)) (ss_Value s).

(** The rows of a table in memory. *)
Definition for_cached {M A S} (zero_row : M) (cache : list M) (ids : gmap Z A) (body : ResultWithRowNum M → S → outcome S) (s : S) : outcome S :=
  obind (@for_rows _ _ _ (cache_iterator zero_row) body (mkCache cache (uniqueIDs_iterator ids)) s) (λ '(_, s), Ret s).

Definition resolveSymbols (b : blockTables V) (aggr : gmap Z StacktraceSample) : outcome (gmap Z StacktraceSample * list string) :=
  obind (repeatedColumnIter (bt_stacktraces b) "LocationIDs.list.element" (uniqueIDs_iterator aggr)) (λ stacktraces,
  obind (for_rows gather_stack stacktraces (∅, ∅)) (λ '(stacktraces, (byStack, locationIDs)),
  match Err stacktraces with
  | Some e => Fail e
  | None =>
      obind (for_cached (mkLocation 0 0 0 [] false) (bt_locations b) locationIDs gather_location ∅) (λ byFunction,
      obind (for_cached (mkFunction 0 0 0 0 0) (bt_functions b) byFunction gather_function ∅) (λ byString,
      obind (for_cached EmptyString (bt_strings b) byString gather_name (replicate (size byString) EmptyString, replicate (size byString) [], 0)) (λ '(names, idSlice, _),
        let nameOf := name_locations (rewrite_ids byFunction (rewrite_ids byString idSlice)) in
        Ret (map_imap (λ sid s, Some (name_sample byStack nameOf sid s)) aggr, names))))
  end)).

Definition BlockMergeByStacktraces (multierror : list string → option string) {St} `{Iterator St BlockProfile} (b : blockTables V) (rows : St)
    : outcome (gmap Z StacktraceSample * list string) :=
  obind (CloneN rows 2) (λ multiRows,
    match multiRows with
    | [rows1; rows2] =>
        obind (repeatedColumnIter (bt_profiles b) "Samples.list.element.StacktraceID" rows1) (λ ids,
        obind (repeatedColumnIter (bt_profiles b) "Samples.list.element.Value" rows2) (λ values,
        obind (@for_rows _ _ _ (multi_iterator multierror zero) merge_piece (NewMultiRepeatedPageIterator [ids; values]) ∅) (λ '(_, aggr), resolveSymbols b aggr)))
    | _ => Panic
    end).

(** ** By labels *)

Section Labels.
Context {F : Type} (to_float : Z → F) (values : gmap string (Series (F := F)) → list (Series (F := F))).

Definition total (vs : list V) : Z := foldl (λ t v, i64 (t + v_Int64 v)) 0%Z vs.

Definition label_piece (by_ : list string) (r : BlockProfile * list V) st : outcome (gmap N string * gmap string (Series (F := F))) :=
  add_point by_ (bp_fp r.1) (bp_labels r.1) (bp_ts r.1, to_float (total r.2)) st.

Definition BlockMergeByLabels {St} `{Iterator St BlockProfile} (b : blockTables V) (rows : St) (by_ : list string) : outcome (list (Series (F := F))) :=
  obind (repeatedColumnIter (bt_profiles b) "Samples.list.element.Value" rows) (λ it,
  obind (for_rows (label_piece by_) it (∅, ∅)) (λ '(_, (_, series)), Ret (sorted_series values series))).
End Labels.
End Merge.

(** ** Columns of a file *)

Section Columns.
Context {V : Type} `{PagesReaderOk (ColumnChunk V) V content}.

(** A column whose chunks have the number of rows of their row groups. *)
Definition has_column (f : parquetFile V) (columnName : string) (rgs : list (Z * ColumnChunk V)) : Prop :=
  ∃ i, pf_column f columnName = Some i ∧ column_chunks i (pf_RowGroups f) = Ret rgs ∧ Forall (λ g, g.1 = Z.of_nat (length (content g.2))) rgs.
Definition column_rows (rgs : list (Z * ColumnChunk V)) : list (list V) := concat ((λ g, content g.2) <$> rgs).

Lemma count_rows (file : list (list V)) {T} (row_of : T → Z) ts : StronglySorted (λ a b, row_of a < row_of b)%Z ts → Forall (in_file row_of file) ts →
  value_count (expect row_of file ts) ≤ length (concat file).
Proof.
  assert (∀ n, StronglySorted (λ a b, row_of a < row_of b)%Z ts → Forall (in_file row_of file) ts → Forall (λ t, n ≤ wanted row_of t) ts →
    value_count (expect row_of file ts) ≤ length (concat (drop n file))) as Hgen.
  { intros n Hs. revert n. induction Hs as [|t ts Hs IH Hlt]; intros n Hin Hn; [by apply Nat.le_0_l|]. apply Forall_cons in Hin as [Ht Hin], Hn as [Hnt Hn].
    unfold value_count, expect in *. cbn [fmap list_fmap concat]. rewrite length_app. cbn [snd].
    assert (Hlt' : Forall (λ t', S (wanted row_of t) ≤ wanted row_of t') ts).
    { rewrite Forall_forall in Hlt, Hin |- *. intros x Hx. specialize (Hlt x Hx). specialize (Hin x Hx). unfold in_file, wanted in *. lia. }
    specialize (IH (S (wanted row_of t)) Hin Hlt').
    destruct (lookup_lt_is_Some_2 file (wanted row_of t)) as [r Hr]; [unfold in_file, wanted in *; lia|]. rewrite Hr. simpl.
    assert (length (concat (drop (wanted row_of t) file)) ≤ length (concat (drop n file))) as Hd.
    { rewrite <-(take_drop (wanted row_of t - n) (drop n file)), drop_drop, concat_app, length_app. replace (n + (wanted row_of t - n)) with (wanted row_of t) by lia. lia. }
    rewrite (drop_S _ _ _ Hr) in Hd. cbn [concat] in Hd. rewrite length_app in Hd. lia. }
  intros Hs Hin. rewrite <-(drop_0 file) at 2. apply Hgen; [done..|]. apply Forall_forall. intros; lia.
Qed.

Lemma NumValues_rows rgs : length (concat (column_rows rgs)) ≤ sum_list_with (λ g, NumValues g.2) rgs.
Proof. unfold column_rows. induction rgs as [|g rgs IH]; [done|]. cbn [fmap list_fmap concat sum_list_with]. rewrite concat_app, length_app, content_values. by apply Nat.add_le_mono_l. Qed.

Lemma repeatedColumnIter_yields {St T} `{Iterator St T, !IteratorOk St T, GoZero T} (row_of : T → Z) (t0 : T) f name rgs (rows : St) ts e :
  has_column f name rgs → yields rows ts e → StronglySorted (λ a b, row_of a < row_of b)%Z ts → Forall (in_file row_of (column_rows rgs)) ts →
  ∃ s out e', repeatedColumnIter f name rows = Ret (inr s) ∧ NewRepeatedPageIterator rows rgs 10000 = Ret s ∧
    @yields _ _ (repeated_iterator row_of t0) s out e' ∧ delivers (expect row_of (column_rows rgs) ts) out ∧
    rp_err e' = None ∧ length out ≤ @remaining _ _ (repeated_iterator row_of t0) s.
Proof.
  intros (i & Hi & Hg & Hn) Hy Hs Hin. destruct (NewRepeated_yields row_of t0 rows rgs 10000 ts e) as (s & out & e' & Hnew & Hy' & Hd & He); [done..|].
  exists s, out, e'. unfold repeatedColumnIter. rewrite Hi, Hg. simpl. rewrite Hnew. split; [done|]. split; [done|]. split; [done|]. split; [done|]. split; [done|].
  apply delivers_pieces in Hd as [_ Hl]. etransitivity; [exact Hl|]. etransitivity; [by apply count_rows|].
  assert (rp_rgs s = rgs) as -> by (revert Hnew; unfold NewRepeatedPageIterator; simpl; destruct (Next rows); by intros [= <-]).
  apply NumValues_rows.
Qed.

Lemma inr_yields {A B X} `{Iterator A X, Iterator B X} (b : B) out e : yields b out e → yields (inr b : A + B) out (inr e).
Proof. induction 1 as [b b' Hn|b b' out e Hn _ IH]; [apply yields_nil; simpl; by rewrite Hn|]. apply (yields_step _ (inr b')); [simpl; by rewrite Hn|done|done]. Qed.
End Columns.

(** ** Pieces of rows *)

Lemma delivers_concat {T V} (E out : list (T * list V)) : delivers E out → concat out.*2 = concat E.*2.
Proof. intros Hd. apply (delivers_values (λ _, True)) in Hd. unfold values_of in Hd. by rewrite !filter_all in Hd by done. Qed.

Lemma delivers_keys {T V} (E out : list (T * list V)) : delivers E out → Forall (λ x, x.2 ≠ []) E → ∀ t, t ∈ out.*1 ↔ t ∈ E.*1.
Proof.
  intros Hd Hf t. assert (∀ E out, delivers E out → (t ∈ out.*1 → t ∈ E.*1) ∧ (∀ x : list V, (t, x) ∈ E → x ≠ [] → t ∈ out.*1)) as Hgen.
  { clear. intros E out. induction 1 as [|t' x y E out Hx _ [IH1 IH2]|t' E out _ [IH1 IH2]]; (split; [simpl|intros z Hz Hne]).
    - done.
    - by apply elem_of_nil in Hz.
    - rewrite elem_of_cons. intros [->|Ht]; [by left|]. apply IH1 in Ht. done.
    - simpl. apply elem_of_cons in Hz as [[= -> ->]|Hz]; [by left|]. right. apply (IH2 z); [by right|done].
    - intros Ht. right. by apply IH1.
    - apply elem_of_cons in Hz as [[= -> ->]|Hz]; [done|]. by apply (IH2 z). }
  destruct (Hgen E out Hd) as [H1 H2]. split; [done|]. intros ([t' x] & -> & Hx)%list_elem_of_fmap. apply (H2 x); [done|]. rewrite Forall_forall in Hf. by apply (Hf _ Hx).
Qed.

(** ** Samples by stack trace *)

Section Samples.
Context {V : Type} `{PqValue V}.

Definition add_sample (m : gmap Z StacktraceSample) (s : V * V) : gmap Z StacktraceSample :=
  match m !! v_Int64 s.1 with
  | Some x => <[v_Int64 s.1 := mkStacktraceSample (ss_FunctionIds x) (i64 (ss_Value x + v_Int64 s.2))]> m
  | None => <[v_Int64 s.1 := mkStacktraceSample [] (v_Int64 s.2)]> m
  end.

Lemma add_samples_zip ids values m : length ids = length values → add_samples ids values m = Ret (foldl add_sample m (zip ids values)).
Proof. revert values m. induction ids as [|i ids IH]; intros [|v values] m Hl; simpl in *; [done..|]. apply IH. lia. Qed.

Lemma merge_pieces (out : list (BlockProfile * list (list V))) m : Forall (λ r, ∃ x y, r.2 = [x; y] ∧ length x = length y) out →
  fold_outcome merge_piece out m = Ret (foldl add_sample m (concat (pairs <$> out).*2)).
Proof.
  intros Hf. revert m. induction Hf as [|[p vs] out (x & y & Hv & Hl) _ IH]; intros m; [done|]. simpl in Hv. subst vs. simpl. unfold merge_piece. simpl.
  rewrite add_samples_zip by done. simpl. by rewrite IH, foldl_app.
Qed.

Definition sum_for (sid : Z) (ss : list (V * V)) : Z := foldr Z.add 0%Z ((λ s, v_Int64 s.2) <$> filter (λ s, v_Int64 s.1 = sid) ss).

Lemma sum_for_snoc sid ss s : sum_for sid (ss ++ [s]) = (sum_for sid ss + if decide (v_Int64 s.1 = sid) then v_Int64 s.2 else 0)%Z.
Proof.
  unfold sum_for. rewrite filter_app, fmap_app, foldr_app. rewrite filter_cons, filter_nil. destruct (decide (v_Int64 s.1 = sid)); simpl.
  - generalize ((λ s, v_Int64 s.2) <$> filter (λ s, v_Int64 s.1 = sid) ss) as l. intros l. induction l as [|x l IH]; simpl; lia.
  - lia.
Qed.

(** The entry of a stack trace is the wrapping sum of its values. *)
Lemma aggregate_spec ss sid : Forall (λ s, int64_range (v_Int64 s.2)) ss →
  foldl add_sample ∅ ss !! sid = if decide (sid ∈ (λ s, v_Int64 s.1) <$> ss) then Some (mkStacktraceSample [] (i64 (sum_for sid ss))) else None.
Proof.
  induction ss as [|s ss IH] using rev_ind; intros Hf; [done|]. apply Forall_app in Hf as [Hf Hs]. apply Forall_cons in Hs as [Hs _]. rewrite foldl_app. simpl. specialize (IH Hf).
  set (m := foldl add_sample ∅ ss) in *. rewrite sum_for_snoc. unfold add_sample. destruct (decide (v_Int64 s.1 = sid)) as [<-|Hne].
  - rewrite (decide_True (P := v_Int64 s.1 ∈ _)) by (rewrite fmap_app; set_solver). destruct (decide (v_Int64 s.1 ∈ (λ s, v_Int64 s.1) <$> ss)) as [Hin|Hn]; rewrite IH, lookup_insert_eq; simpl.
    + by rewrite i64_add_l.
    + assert (sum_for (v_Int64 s.1) ss = 0%Z) as ->; [|rewrite Z.add_0_l, i64_small; [done|exact Hs]].
      unfold sum_for. rewrite filter_none; [done|]. intros x Hx E. apply Hn. rewrite <-E. by apply (list_elem_of_fmap_2 (λ s, v_Int64 s.1)).
  - destruct (m !! v_Int64 s.1); rewrite lookup_insert_ne, IH, Z.add_0_r by done; apply decide_ext; rewrite fmap_app; set_solver.
Qed.
End Samples.

(** ** Maps of lists *)

Definition multimap (ps : list (Z * Z)) (m : gmap Z (list Z)) : gmap Z (list Z) := foldl (λ m p, append_at m p.1 p.2) m ps.

Lemma append_at_elem m k x k' y : y ∈ default [] (append_at m k x !! k') ↔ y ∈ default [] (m !! k') ∨ (k = k' ∧ y = x).
Proof.
  unfold append_at. destruct (decide (k = k')) as [<-|Hne]; [rewrite lookup_insert_eq|rewrite lookup_insert_ne by done]; simpl; [rewrite elem_of_app, list_elem_of_singleton|]; naive_solver.
Qed.

Lemma multimap_elem ps m k y : y ∈ default [] (multimap ps m !! k) ↔ y ∈ default [] (m !! k) ∨ (k, y) ∈ ps.
Proof.
  unfold multimap. revert m. induction ps as [|[k' x] ps IH]; intros m; simpl; [set_solver|]. rewrite IH, append_at_elem, elem_of_cons. simpl. naive_solver.
Qed.

Lemma multimap_dom ps m k : is_Some (multimap ps m !! k) ↔ is_Some (m !! k) ∨ k ∈ ps.*1.
Proof.
  unfold multimap. revert m. induction ps as [|[k' x] ps IH]; intros m; simpl; [set_solver|]. rewrite IH, elem_of_cons. unfold append_at. simpl.
  rewrite lookup_insert_is_Some. destruct (decide (k' = k)); naive_solver.
Qed.

Lemma multimap_app ps qs m : multimap (ps ++ qs) m = multimap qs (multimap ps m).
Proof. apply foldl_app. Qed.

Definition fn_key (line : Line) : Z := i64 (Z.of_N (ln_FunctionId line)).

Lemma gather_locations (rows : list (ResultWithRowNum Location)) m :
  fold_outcome gather_location rows m = Ret (multimap (concat ((λ s, (λ line, (fn_key line, rw_RowNum s)) <$> lc_Line (rw_Result s)) <$> rows)) m).
Proof.
  revert m. induction rows as [|s rows IH]; intros m; [done|]. simpl. rewrite IH, multimap_app. f_equal. f_equal. unfold multimap. generalize (lc_Line (rw_Result s)) as ls. intros ls. revert m.
  induction ls as [|l ls IHl]; intros m; [done|]. simpl. by rewrite IHl.
Qed.

Lemma gather_functions (rows : list (ResultWithRowNum Function)) m :
  fold_outcome gather_function rows m = Ret (multimap ((λ s, (fn_Name (rw_Result s), rw_RowNum s)) <$> rows) m).
Proof. revert m. induction rows as [|s rows IH]; intros m; [done|]. simpl. by rewrite IH. Qed.

Lemma gather_names (rows : list (ResultWithRowNum string)) names ids : length names = length ids →
  fold_outcome gather_name rows (names ++ replicate (length rows) EmptyString, ids ++ replicate (length rows) [], length names) =
    Ret (names ++ (rw_Result <$> rows), ids ++ ((λ s, [rw_RowNum s]) <$> rows), length names + length rows).
Proof.
  revert names ids. induction rows as [|s rows IH]; intros names ids Hl; [simpl; by rewrite Nat.add_0_r|]. simpl. rewrite length_app. simpl.
  rewrite (proj2 (Nat.ltb_lt _ _)) by lia. simpl. rewrite !insert_app_r_alt by lia. rewrite <-Hl, Nat.sub_diag. simpl.
  specialize (IH (names ++ [rw_Result s]) (ids ++ [[rw_RowNum s]])). rewrite !length_app in IH. specialize (IH ltac:(simpl; lia)).
  rewrite <-!(assoc_L (++)) in IH. simpl in IH. rewrite Nat.add_1_r in IH. rewrite IH. f_equal. f_equal. lia.
Qed.

Lemma gather_names_all (rows : list (ResultWithRowNum string)) :
  fold_outcome gather_name rows (replicate (length rows) EmptyString, replicate (length rows) [], 0) = Ret (rw_Result <$> rows, (λ s, [rw_RowNum s]) <$> rows, length rows).
Proof. exact (gather_names rows [] [] eq_refl). Qed.

(** ** Names of locations *)

Lemma insert_all (ids : list Z) (v : Z) (m : gmap Z Z) loc : foldl (λ m l, <[l := v]> m) m ids !! loc = if decide (loc ∈ ids) then Some v else m !! loc.
Proof.
  revert m. induction ids as [|i ids IH]; intros m; cbn [foldl]; [by rewrite decide_False by apply not_elem_of_nil|]. rewrite IH.
  destruct (decide (loc ∈ ids)), (decide (i = loc)) as [->|Hne]; rewrite ?lookup_insert_eq, ?lookup_insert_ne by done; case_decide; set_solver.
Qed.

(** The last position whose ids have the location. *)
Lemma name_locations_spec (ids : list (list Z)) loc :
  match name_locations ids !! loc with
  | Some z => ∃ j x, z = i32 (Z.of_nat j) ∧ ids !! j = Some x ∧ loc ∈ x ∧ ∀ j' x', j < j' → ids !! j' = Some x' → loc ∉ x'
  | None => ∀ j x, ids !! j = Some x → loc ∉ x
  end.
Proof.
  unfold name_locations. induction ids as [|x ids IH] using rev_ind; [cbn; rewrite lookup_empty; intros j x; by rewrite lookup_nil|]. rewrite imap_app, foldl_app. simpl. rewrite insert_all. rewrite Nat.add_0_r in *.
  case_decide as Hx.
  - exists (length ids), x. split; [done|]. split; [by rewrite list_lookup_middle|]. split; [done|]. intros j' x' Hj Hl. apply lookup_lt_Some in Hl. rewrite length_app in Hl. simpl in Hl. lia.
  - assert (Hsnoc : ∀ j y, (ids ++ [x]) !! j = Some y → ids !! j = Some y ∨ y = x).
    { intros j y [Hl|[_ Hl]]%lookup_app_Some; [by left|]. apply list_lookup_singleton_Some in Hl as [_ <-]. by right. }
    destruct (foldl _ ∅ (imap pair ids) !! loc) as [z|].
    + destruct IH as (j & y & -> & Hj & Hy & Hlast). exists j, y. split; [done|]. split; [by apply lookup_app_l_Some|]. split; [done|]. intros j' x' Hlt [Hl| ->]%Hsnoc; [by apply (Hlast j')|done].
    + intros j y [Hl| ->]%Hsnoc; [by apply (IH j)|done].
Qed.

(** ** The tables *)

Lemma for_cached_spec {M A S} (zero_row : M) (cache : list M) (ids : gmap Z A) (body : ResultWithRowNum M → S → outcome S) (s : S) :
  (∀ k, is_Some (ids !! k) → (k < Z.of_nat (length cache))%Z) →
  for_cached zero_row cache ids body s = fold_outcome body (row_at zero_row cache <$> keys_of ids) s.
Proof.
  intros Hk. unfold for_cached, for_rows. destruct (cache_yields zero_row cache _ _ _ (keys_yield ids)) as [e He].
  { apply Forall_forall. intros k Hin. by apply Hk, keys_elem. }
  rewrite (iter_fold_yields _ _ _ _ He); [|rewrite length_fmap; simpl; by apply Nat.lt_succ_diag_r]. by destruct (fold_outcome body _ s).
Qed.

(** The rows of the tables refer to each other. *)
Record tables_ok {V} (b : blockTables V) : Prop := mkTablesOk {
  to_functions : ∀ l line, l ∈ bt_locations b → line ∈ lc_Line l → (ln_FunctionId line < N.of_nat (length (bt_functions b)))%N;
  to_strings : ∀ f, f ∈ bt_functions b → (0 ≤ fn_Name f < Z.of_nat (length (bt_strings b)))%Z;
  to_small : (Z.of_nat (length (bt_functions b)) < 2 ^ 63)%Z }.

Section Names.
Context {V : Type} (b : blockTables V) (Hb : tables_ok b).

(** The strings of the names of a location's lines. *)
Definition line_name (line : Line) : Z := fn_Name (default (mkFunction 0 0 0 0 0) (bt_functions b !! N.to_nat (ln_FunctionId line))).
Definition loc_names (loc : Z) : list Z := line_name <$> lc_Line (default (mkLocation 0 0 0 [] false) (bt_locations b !! Z.to_nat loc)).

(** The name a location gets: of its lines' names the one with the greatest string id. *)
Definition named (names : list string) (loc id : Z) : Prop :=
  (loc_names loc = [] ∧ id = 0%Z) ∨
  ∃ nm, nm ∈ loc_names loc ∧ Forall (λ k, k ≤ nm)%Z (loc_names loc) ∧ name_at names id = bt_strings b !! Z.to_nat nm.

Context {A : Type} (locs : gmap Z A) (Hlocs : ∀ k, is_Some (locs !! k) → (0 ≤ k < Z.of_nat (length (bt_locations b)))%Z).

Definition by_function : gmap Z (list Z) :=
  multimap (concat ((λ s, (λ line, (fn_key line, rw_RowNum s)) <$> lc_Line (rw_Result s)) <$> (row_at (mkLocation 0 0 0 [] false) (bt_locations b) <$> keys_of locs))) ∅.
Definition by_string : gmap Z (list Z) :=
  multimap ((λ s, (fn_Name (rw_Result s), rw_RowNum s)) <$> (row_at (mkFunction 0 0 0 0 0) (bt_functions b) <$> keys_of by_function)) ∅.

Lemma by_function_pairs f loc : (f, loc) ∈ concat ((λ s, (λ line, (fn_key line, rw_RowNum s)) <$> lc_Line (rw_Result s)) <$> (row_at (mkLocation 0 0 0 [] false) (bt_locations b) <$> keys_of locs)) ↔
  is_Some (locs !! loc) ∧ ∃ line, line ∈ lc_Line (default (mkLocation 0 0 0 [] false) (bt_locations b !! Z.to_nat loc)) ∧ fn_key line = f.
Proof.
  rewrite elem_of_concat. split.
  - intros (x & (s & -> & (k & -> & Hk)%list_elem_of_fmap)%list_elem_of_fmap & (line & [= -> ->] & Hl)%list_elem_of_fmap). simpl in *. split; [by apply keys_elem|]. by exists line.
  - intros (Hk & line & Hl & <-). eexists. split; [apply list_elem_of_fmap_2, list_elem_of_fmap_2; by apply keys_elem|]. simpl. apply list_elem_of_fmap. by exists line.
Qed.

Lemma by_function_elem f loc : loc ∈ default [] (by_function !! f) ↔ is_Some (locs !! loc) ∧ ∃ line, line ∈ lc_Line (default (mkLocation 0 0 0 [] false) (bt_locations b !! Z.to_nat loc)) ∧ fn_key line = f.
Proof. unfold by_function. rewrite multimap_elem, by_function_pairs, lookup_empty. simpl. set_solver. Qed.

Lemma by_function_dom f : is_Some (by_function !! f) ↔ ∃ loc, loc ∈ default [] (by_function !! f).
Proof.
  unfold by_function. rewrite multimap_dom, lookup_empty. split.
  - intros [[? ?]|([f' loc] & -> & Hin)%list_elem_of_fmap]; [done|]. exists loc. rewrite multimap_elem. by right.
  - intros [loc [Hin|Hin]%multimap_elem]; [by rewrite lookup_empty in Hin; apply elem_of_nil in Hin|]. right. by apply (list_elem_of_fmap_2 fst _ (f, loc)).
Qed.

Lemma fn_key_id line loc : line ∈ lc_Line (default (mkLocation 0 0 0 [] false) (bt_locations b !! Z.to_nat loc)) →
  fn_key line = Z.of_N (ln_FunctionId line) ∧ (Z.of_N (ln_FunctionId line) < Z.of_nat (length (bt_functions b)))%Z.
Proof.
  intros Hl. destruct (bt_locations b !! Z.to_nat loc) as [l|] eqn:E; [|by apply elem_of_nil in Hl]. apply list_elem_of_lookup_2 in E.
  pose proof (to_functions b Hb l line E Hl). pose proof (to_small b Hb). unfold fn_key. rewrite i64_small; [lia|]. unfold int64_range, min_int64, max_int64. lia.
Qed.

Lemma by_function_small f : is_Some (by_function !! f) → (0 ≤ f < Z.of_nat (length (bt_functions b)))%Z.
Proof. rewrite by_function_dom. intros [loc (_ & line & Hl & <-)%by_function_elem]. destruct (fn_key_id line loc Hl) as [-> ?]. lia. Qed.

Lemma by_string_elem nm f : f ∈ default [] (by_string !! nm) ↔ is_Some (by_function !! f) ∧ fn_Name (default (mkFunction 0 0 0 0 0) (bt_functions b !! Z.to_nat f)) = nm.
Proof.
  unfold by_string. rewrite multimap_elem, lookup_empty. simpl. rewrite list_elem_of_fmap. split.
  - intros [?%elem_of_nil|(s & [= -> ->] & (k & -> & Hk)%list_elem_of_fmap)]; [done|]. simpl. split; [by apply keys_elem|done].
  - intros [Hk <-]. right. eexists. split; [|apply list_elem_of_fmap_2; by apply keys_elem]. done.
Qed.

Lemma by_string_dom nm : is_Some (by_string !! nm) ↔ ∃ f, f ∈ default [] (by_string !! nm).
Proof.
  unfold by_string. rewrite multimap_dom, lookup_empty. split.
  - intros [[? ?]|([k f] & -> & Hin)%list_elem_of_fmap]; [done|]. exists f. rewrite multimap_elem. by right.
  - intros [f [Hin|Hin]%multimap_elem]; [by rewrite lookup_empty in Hin; apply elem_of_nil in Hin|]. right. by apply (list_elem_of_fmap_2 fst _ (nm, f)).
Qed.

Lemma by_string_small nm : is_Some (by_string !! nm) → (0 ≤ nm < Z.of_nat (length (bt_strings b)))%Z.
Proof.
  rewrite by_string_dom. intros [f [Hf <-]%by_string_elem]. apply by_function_small in Hf. destruct (lookup_lt_is_Some_2 (bt_functions b) (Z.to_nat f)) as [fn Hfn]; [lia|].
  rewrite Hfn. simpl. apply (to_strings b Hb). by eapply list_elem_of_lookup_2.
Qed.

(** The locations of a name. *)
Definition name_ids : list (list Z) := rewrite_ids by_function (rewrite_ids by_string ((λ nm, [nm]) <$> keys_of by_string)).

Lemma name_ids_elem j nm x loc : keys_of by_string !! j = Some nm → name_ids !! j = Some x → loc ∈ x ↔ is_Some (locs !! loc) ∧ nm ∈ loc_names loc.
Proof.
  unfold name_ids, rewrite_ids. rewrite !list_lookup_fmap. intros ->. cbn [fmap option_fmap option_map list_fmap concat]. intros <-%Some_inj. rewrite app_nil_r, elem_of_concat. split.
  - intros (y & (f & -> & [Hf <-]%by_string_elem)%list_elem_of_fmap & (Hloc & line & Hl & <-)%by_function_elem). split; [done|]. unfold loc_names. apply list_elem_of_fmap. exists line. split; [|done].
    unfold line_name. destruct (fn_key_id line loc Hl) as [-> _]. by rewrite <-Z_N_nat, N2Z.id.
  - intros (Hloc & (line & -> & Hl)%list_elem_of_fmap). destruct (fn_key_id line loc Hl) as [Hk _]. exists (default [] (by_function !! fn_key line)).
    assert (loc ∈ default [] (by_function !! fn_key line)) as Hin by (apply by_function_elem; split; [done|by exists line]). split; [|done].
    apply list_elem_of_fmap. exists (fn_key line). split; [done|]. apply by_string_elem. split; [apply by_function_dom; by exists loc|]. unfold line_name. by rewrite Hk, <-Z_N_nat, N2Z.id.
Qed.

Lemma name_locations_named loc : is_Some (locs !! loc) → (Z.of_nat (length (keys_of by_string)) < 2 ^ 31)%Z →
  named ((λ nm, default EmptyString (bt_strings b !! Z.to_nat nm)) <$> keys_of by_string) loc (default 0%Z (name_locations name_ids !! loc)).
Proof.
  intros Hloc Hlen. assert (Hkeys : ∀ nm, nm ∈ loc_names loc → ∃ j, keys_of by_string !! j = Some nm).
  { intros nm Hnm. apply list_elem_of_lookup_1, keys_elem, by_string_dom. unfold loc_names in Hnm. apply list_elem_of_fmap in Hnm as (line & -> & Hl). destruct (fn_key_id line loc Hl) as [Hk _].
    exists (fn_key line). apply by_string_elem. split; [apply by_function_dom; exists loc; apply by_function_elem; split; [done|by exists line]|]. unfold line_name. by rewrite Hk, <-Z_N_nat, N2Z.id. }
  assert (Hl : length name_ids = length (keys_of by_string)) by (unfold name_ids, rewrite_ids; by rewrite !length_fmap).
  assert (Hids : ∀ j nm, keys_of by_string !! j = Some nm → ∃ x, name_ids !! j = Some x).
  { intros j nm Hj. apply lookup_lt_Some in Hj. apply lookup_lt_is_Some_2. by rewrite Hl. }
  pose proof (name_locations_spec name_ids loc) as Hs. destruct (name_locations name_ids !! loc) as [z|]; simpl.
  - right. destruct Hs as (j & x & -> & Hj & Hin & Hlast). destruct (lookup_lt_is_Some_2 (keys_of by_string) j) as [nm Hnm]; [rewrite <-Hl; by eapply lookup_lt_Some|].
    exists nm. split; [by apply (name_ids_elem j nm x loc Hnm Hj)|]. split.
    + apply Forall_forall. intros nm' Hnm'. destruct (Hkeys nm' Hnm') as [j' Hj']. destruct (Hids j' nm' Hj') as [x' Hx']. destruct (decide (j < j')) as [Hlt|Hge].
      * exfalso. apply (Hlast j' x' Hlt Hx'). by apply (name_ids_elem j' nm' x' loc Hj' Hx').
      * destruct (decide (j' = j)) as [->|Hne]; [assert (nm' = nm) by congruence; lia|]. pose proof (StronglySorted_lookup _ _ j' j nm' nm (keys_sorted by_string) ltac:(lia) Hj' Hnm). lia.
    + apply lookup_lt_Some in Hnm as Hjl. unfold name_at, i32. rewrite Z.mod_small by lia. destruct (Z.ltb_spec (Z.of_nat j + 2 ^ 31 - 2 ^ 31) 0); [lia|].
      replace (Z.to_nat (Z.of_nat j + 2 ^ 31 - 2 ^ 31)) with j by lia. rewrite list_lookup_fmap, Hnm. simpl.
      destruct (by_string_small nm) as [H0 H1]; [apply keys_elem; by eapply list_elem_of_lookup_2|]. destruct (lookup_lt_is_Some_2 (bt_strings b) (Z.to_nat nm)) as [str Hstr]; [lia|]. by rewrite Hstr.
  - left. split; [|done]. destruct (loc_names loc) as [|nm l] eqn:E; [done|]. exfalso. destruct (Hkeys nm) as [j Hj]; [left|]. destruct (Hids j nm Hj) as [x Hx]. apply (Hs j x Hx).
    apply (name_ids_elem j nm x loc Hj Hx). rewrite E. split; [done|left].
Qed.
End Names.

(** ** [resolveSymbols] *)

Section Resolve.
Context {V : Type} `{PagesReaderOk (ColumnChunk V) V content} (b : blockTables V).

Lemma foldl_insert_dom (ls : list N) (ids : gmap Z unit) k :
  is_Some (foldl (λ ids l, <[i64 (Z.of_N l) := ()]> ids) ids ls !! k) ↔ is_Some (ids !! k) ∨ ∃ l, l ∈ ls ∧ k = i64 (Z.of_N l).
Proof.
  revert ids. induction ls as [|l ls IH]; intros ids; simpl; [set_solver|]. rewrite IH, lookup_insert_is_Some. setoid_rewrite elem_of_cons. destruct (decide (i64 (Z.of_N l) = k)); naive_solver.
Qed.

Lemma gather_stacks (out : list (Z * list V)) : ∃ byStack ids, fold_outcome gather_stack out (∅, ∅) = Ret (byStack, ids) ∧
  (∀ t, default [] (byStack !! t) = v_Uint64 <$> values_of (λ x, x = t) out) ∧
  ∀ k, is_Some (ids !! k) ↔ ∃ l, l ∈ v_Uint64 <$> concat out.*2 ∧ k = i64 (Z.of_N l).
Proof.
  destruct (fold_outcome_inv gather_stack (λ o st, (∀ t, default [] (st.1 !! t) = v_Uint64 <$> values_of (λ x, x = t) o) ∧
    ∀ k, is_Some (st.2 !! k) ↔ ∃ l, l ∈ v_Uint64 <$> concat o.*2 ∧ k = i64 (Z.of_N l)) out [] (∅, ∅)) as ([byStack ids] & -> & G1 & G2).
  - split; [intros t; cbn; by rewrite lookup_empty|]. intros k. simpl. rewrite lookup_empty. split; [by intros []|]. intros (l & Hl & _). by apply elem_of_nil in Hl.
  - intros pre [t vs] [byStack ids] _ [I1 I2]. simpl in I1, I2. eexists. split; [done|]. simpl. split.
    + intros t'. unfold values_of in *. rewrite filter_app, fmap_app, concat_app, fmap_app, <-I1. rewrite filter_cons, filter_nil. simpl.
      destruct (decide (t = t')) as [<-|Hne]; [rewrite lookup_insert_eq|rewrite lookup_insert_ne by done]; simpl; by rewrite ?app_nil_r.
    + intros k. rewrite foldl_insert_dom, I2, fmap_app, concat_app. simpl. rewrite app_nil_r, fmap_app. setoid_rewrite elem_of_app. naive_solver.
  - by exists byStack, ids.
Qed.

Definition stack_locations (rgs : list (Z * ColumnChunk V)) (sid : Z) : list N := v_Uint64 <$> default [] (column_rows (content := content) rgs !! Z.to_nat sid).

Lemma expect_one (file : list (list V)) ts t : NoDup ts → t ∈ ts → values_of (λ x, x = t) (expect id file ts) = default [] (file !! Z.to_nat t).
Proof.
  unfold values_of, expect. induction ts as [|t' ts IH]; intros Hn Ht; [by apply elem_of_nil in Ht|]. apply NoDup_cons in Hn as [Hnt Hn]. rewrite fmap_cons, filter_cons. simpl.
  destruct (decide (t' = t)) as [->|Hne].
  - simpl. rewrite filter_none; [by rewrite app_nil_r|]. intros x (t' & -> & Ht')%list_elem_of_fmap. simpl. by intros ->.
  - apply IH; [done|]. apply elem_of_cons in Ht as [->|?]; done.
Qed.

Lemma resolveSymbols_spec rgs (aggr : gmap Z StacktraceSample) : tables_ok b → has_column (content := content) (bt_stacktraces b) "LocationIDs.list.element" rgs →
  (∀ sid, is_Some (aggr !! sid) → (0 ≤ sid < Z.of_nat (length (column_rows (content := content) rgs)))%Z ∧
    ∀ l, l ∈ stack_locations rgs sid → (Z.of_N l < Z.of_nat (length (bt_locations b)))%Z) →
  (Z.of_nat (length (bt_locations b)) < 2 ^ 63)%Z →
  ∃ res names, resolveSymbols b aggr = Ret (res, names) ∧
    ∀ sid, match aggr !! sid with
           | Some s => ∃ fids, res !! sid = Some (mkStacktraceSample fids (ss_Value s)) ∧
               ((Z.of_nat (length names) < 2 ^ 31)%Z → Forall2 (λ l id, named b names (Z.of_N l) id) (stack_locations rgs sid) fids)
           | None => res !! sid = None
           end.
Proof.
  intros Hb Hcol Haggr Hsmall. unfold resolveSymbols.
  assert (Hsort : StronglySorted (λ a b : Z, id a < id b)%Z (keys_of aggr)) by apply keys_sorted.
  assert (Hin : Forall (in_file id (column_rows rgs)) (keys_of aggr)) by (apply Forall_forall; intros k Hk%keys_elem; by apply Haggr).
  destruct (repeatedColumnIter_yields id 0%Z _ _ _ _ _ _ Hcol (keys_yield aggr) Hsort Hin) as (s & out & e' & -> & _ & Hy & Hd & He & Hlen). simpl obind.
  unfold for_rows at 1, number_column. rewrite (iter_fold_yields _ _ _ _ (@inr_yields errIterator _ _ _ (repeated_iterator id 0%Z) _ _ _ Hy)) by exact (le_n_S _ _ Hlen).
  destruct (gather_stacks out) as (byStack & ids & -> & Hstack & Hids). simpl. rewrite He.
  assert (Hrow : ∀ t, is_Some (aggr !! t) → default [] (byStack !! t) = stack_locations rgs t).
  { intros t Ht. rewrite Hstack, (delivers_values _ _ _ Hd). unfold stack_locations. f_equal. apply expect_one; [apply keys_NoDup|by apply keys_elem]. }
  assert (Hloc : ∀ l, (∃ t, is_Some (aggr !! t) ∧ l ∈ stack_locations rgs t) → i64 (Z.of_N l) = Z.of_N l ∧ (Z.of_N l < Z.of_nat (length (bt_locations b)))%Z ∧ is_Some (ids !! Z.of_N l)).
  { intros l (t & Ht & Hl). destruct (Haggr t Ht) as [_ Hb']. specialize (Hb' l Hl). assert (i64 (Z.of_N l) = Z.of_N l) as Hi by (apply i64_small; unfold int64_range, min_int64, max_int64; lia).
    split; [done|]. split; [done|]. apply Hids. exists l. split; [|done]. rewrite (delivers_concat _ _ Hd). unfold stack_locations in Hl. apply list_elem_of_fmap in Hl as (v & -> & Hv). apply list_elem_of_fmap_2.
    apply elem_of_concat. eexists. split; [|exact Hv]. unfold expect. rewrite <-list_fmap_compose. apply (list_elem_of_fmap_2 (λ t, default [] (column_rows rgs !! wanted id t))). by apply keys_elem. }
  assert (Hlocs : ∀ k, is_Some (ids !! k) → (0 ≤ k < Z.of_nat (length (bt_locations b)))%Z).
  { intros k (l & Hl & ->)%Hids. rewrite (delivers_concat _ _ Hd) in Hl. apply list_elem_of_fmap in Hl as (v & -> & Hv). apply elem_of_concat in Hv as (x & Hx & Hv).
    unfold expect in Hx. rewrite <-list_fmap_compose in Hx. apply list_elem_of_fmap in Hx as (t & -> & Ht%keys_elem). destruct (Hloc (v_Uint64 v)) as (-> & ? & _); [|lia].
    exists t. split; [done|]. by apply (list_elem_of_fmap_2 v_Uint64). }
  rewrite for_cached_spec by (intros k Hk; by apply Hlocs). rewrite gather_locations. cbn [obind]. fold (by_function b ids).
  rewrite for_cached_spec by (intros k Hk; by apply (by_function_small b Hb ids)). rewrite gather_functions. cbn [obind]. fold (by_string b ids).
  rewrite for_cached_spec by (intros k Hk; by apply (by_string_small b Hb ids)).
  assert (Hsize : size (by_string b ids) = length (row_at EmptyString (bt_strings b) <$> keys_of (by_string b ids))).
  { rewrite length_fmap. unfold keys_of. by rewrite sort_slice_perm, length_fmap, length_map_to_list. }
  rewrite Hsize, gather_names_all. cbn [obind]. rewrite <-!list_fmap_compose.
  remember (name_locations _) as nameOf eqn:EnameOf. eexists _, _. split; [reflexivity|]. intros sid. rewrite map_lookup_imap. destruct (aggr !! sid) as [x|] eqn:Ex; [|done]. simpl. eexists. split; [reflexivity|]. intros Hn.
  rewrite length_fmap in Hn. rewrite (Hrow sid) by (by rewrite Ex). apply Forall2_fmap_r, Forall_Forall2_diag, Forall_forall. intros l Hl.
  cbv beta delta [compose]. destruct (Hloc l) as (-> & _ & Hl'); [exists sid; by rewrite Ex|]. subst nameOf. apply (name_locations_named b Hb ids Hlocs (Z.of_N l) Hl' Hn).
Qed.
End Resolve.

(** The samples of the rows: the values of the two columns, paired. *)
Definition row_samples {V C} {content : C → list (list V)} (ids values : list (Z * C)) (l : list BlockProfile) : list (V * V) :=
  let column rgs := concat ((λ g, content g.2) <$> rgs) in
  concat ((λ p, zip (default [] (column ids !! wanted bp_RowNum p)) (default [] (column values !! wanted bp_RowNum p))) <$> l).

(** C12: Merging the selected rows of a block by stack trace succeeds, and gives an entry for exactly the stack traces of the rows' samples.  The value of an entry
    is the wrapping sum of the values of that stack trace over all rows, for any pages and buffers, when the two columns are cut into pages at the same places (otherwise
    [MultiRepeated.cut_differently]); its function ids, looked up in the names returned, name each location of the stack trace by the last, in the order of the string
    ids, of its lines' names, or by name 0 if it has no lines ([names_lost]). *)
Theorem BlockMergeByStacktraces_correct {V} `{PagesReaderOk (ColumnChunk V) V content} (multierror : list string → option string) {St} `{Iterator St BlockProfile, !IteratorOk St BlockProfile}
    (b : blockTables V) (rows : St) (l : list BlockProfile) (e : St) (ids values stacks : list (Z * ColumnChunk V)) :
  yields rows l e → Err e = None → StronglySorted (λ p q, bp_RowNum p < bp_RowNum q)%Z l → Forall (in_file bp_RowNum (column_rows (content := content) ids)) l →
  has_column (content := content) (bt_profiles b) "Samples.list.element.StacktraceID" ids → has_column (content := content) (bt_profiles b) "Samples.list.element.Value" values →
  Forall2 group_same ids values → Forall2 (λ r1 r2, length r1 = length r2) (column_rows (content := content) ids) (column_rows (content := content) values) →
  has_column (content := content) (bt_stacktraces b) "LocationIDs.list.element" stacks → tables_ok b → (Z.of_nat (length (bt_locations b)) < 2 ^ 63)%Z →
  let ss := row_samples (content := content) ids values l in
  Forall (λ s, int64_range (v_Int64 s.2)) ss →
  (∀ sid, sid ∈ (λ s, v_Int64 s.1) <$> ss → (0 ≤ sid < Z.of_nat (length (column_rows (content := content) stacks)))%Z ∧
    ∀ loc, loc ∈ stack_locations (content := content) stacks sid → (Z.of_N loc < Z.of_nat (length (bt_locations b)))%Z) →
  ∃ res names, BlockMergeByStacktraces multierror b rows = Ret (res, names) ∧
    (∀ sid, is_Some (res !! sid) ↔ sid ∈ (λ s, v_Int64 s.1) <$> ss) ∧
    ∀ sid x, res !! sid = Some x → ss_Value x = i64 (sum_for sid ss) ∧
      ((Z.of_nat (length names) < 2 ^ 31)%Z → Forall2 (λ loc id, named b names (Z.of_N loc) id) (stack_locations (content := content) stacks sid) (ss_FunctionIds x)).
Proof.
  intros Hy Herr Hs Hin Hids Hvals Hsame Hlen Hst Hb Hsmall ss Hrange Hsids. unfold BlockMergeByStacktraces, CloneN. rewrite (IterSlice_spec _ _ _ Hy), Herr. cbn [obind replicate].
  unfold NewSliceIterator.
  destruct (repeatedColumnIter_yields bp_RowNum zero _ _ _ _ _ _ Hids (slice_yields l zero) Hs Hin) as (s1 & out1 & e1 & -> & Hn1 & Hy1 & Hd1 & _ & Hl1). cbn [obind].
  destruct (repeatedColumnIter_yields bp_RowNum zero _ _ _ _ _ _ Hvals (slice_yields l zero) Hs) as (s2 & out2 & e2 & -> & Hn2 & Hy2 & Hd2 & _ & _).
  { eapply Forall_impl; [exact Hin|]. intros p. unfold in_file. by rewrite (Forall2_length _ _ _ Hlen). }
  cbn [obind]. destruct (yields_same bp_RowNum zero s1 s2 out1 e1) as (out2' & e2' & Hy2' & Hf); [by eapply NewRepeated_same|done|]. destruct (yields_det _ _ _ _ _ Hy2 Hy2') as [<- <-].
  destruct (NewMulti_yields (H := profile_column) multierror zero (inr s1) (inr s2) out1 out2 (inr e1) (inr e2)) as [em Hm]; [by apply (@inr_yields errIterator _ _ _ (repeated_iterator bp_RowNum zero))..|].
  destruct (pairs_deliver bp_RowNum _ _ l out1 out2 Hlen Hd1 Hd2 Hf) as [Hp Hd]. apply delivers_concat in Hd.
  unfold for_rows at 1. rewrite (iter_fold_yields _ _ _ _ Hm); [|rewrite length_zip_with; eapply Nat.le_lt_trans; [apply Nat.le_min_l|exact (le_n_S _ _ Hl1)]].
  rewrite merge_pieces by done. rewrite Hd, <-list_fmap_compose. cbn [obind]. change (concat _) with ss.
  destruct (resolveSymbols_spec b stacks (foldl add_sample ∅ ss) Hb Hst) as (res & names & Hres & Hspec); [|done|].
  { intros sid. rewrite aggregate_spec by done. case_decide as Hsid; [intros _; by apply Hsids|by intros []]. }
  exists res, names. split; [done|]. split.
  - intros sid. specialize (Hspec sid). rewrite aggregate_spec in Hspec by done. case_decide as Hsid; [destruct Hspec as (fids & -> & _); split; [done|by eexists]|]. rewrite Hspec. split; [by intros []|done].
  - intros sid x Hx. specialize (Hspec sid). rewrite aggregate_spec in Hspec by done. case_decide as Hsid; [|by rewrite Hx in Hspec]. destruct Hspec as (fids & Hr & Hnames).
    rewrite Hx in Hr. injection Hr as ->. split; [done|exact Hnames].
Qed.

(** ** By labels *)

Section LabelPieces.
Context {V F : Type} `{PqValue V} (to_float : Z → F) (by_ : list string).

(** What a piece adds. *)
Definition piece_point (r : BlockProfile * list V) : N * Labels * (Z * F) := (bp_fp r.1, bp_labels r.1, (bp_ts r.1, to_float (total r.2))).

Lemma label_pieces (out : list (BlockProfile * list V)) : (∀ r s, r ∈ out → s ∈ out → bp_fp r.1 = bp_fp s.1 → bp_labels r.1 = bp_labels s.1) →
  ∃ byFP series, fold_outcome (label_piece to_float by_) out (∅, ∅) = Ret (byFP, series) ∧ grouped by_ (piece_point <$> out) (byFP, series).
Proof.
  intros Hdet. destruct (fold_outcome_inv (label_piece to_float by_) (λ o st, (∀ r, r ∈ o → r ∈ out) ∧ grouped by_ (piece_point <$> o) st) out [] (∅, ∅)) as ([byFP series] & -> & _ & HG).
  - split; [by intros r ?%elem_of_nil|apply grouped_nil].
  - intros pre r st Hr [Hsub Hg]. destruct (add_point_spec by_ (piece_point <$> pre) (piece_point r) st) as (st' & Hst & Hg'); [|done|].
    + intros q (r' & -> & Hr')%list_elem_of_fmap Hfp. simpl in *. apply Hdet; [by apply Hsub|done|done].
    + exists st'. split; [exact Hst|]. split; [intros r' [?| ->%list_elem_of_singleton]%elem_of_app; [by apply Hsub|done]|]. by rewrite fmap_app.
  - by exists byFP, series.
Qed.

(** The totals of the pieces of a row add up to the row's. *)
Lemma total_fold (vs : list V) t : int64_range t → foldl (λ t v, i64 (t + v_Int64 v)) t vs = i64 (t + foldr Z.add 0 (v_Int64 <$> vs))%Z.
Proof.
  revert t. induction vs as [|v vs IH]; intros t Ht; simpl; [by rewrite Z.add_0_r, i64_small|]. rewrite IH by apply i64_range. by rewrite i64_add_l, Z.add_assoc.
Qed.

Lemma total_sum (vs : list V) : total vs = i64 (foldr Z.add 0 (v_Int64 <$> vs))%Z.
Proof. unfold total. by rewrite total_fold. Qed.

Lemma pieces_total (pieces : list (list V)) : i64 (foldr Z.add 0 (total <$> pieces))%Z = total (concat pieces).
Proof.
  rewrite total_sum. assert (∀ l k : list Z, foldr Z.add 0 (l ++ k) = foldr Z.add 0 l + foldr Z.add 0 k)%Z as Happ by (intros l k; induction l as [|x l IH]; simpl; lia).
  induction pieces as [|vs pieces IH]; [done|]. cbn [fmap list_fmap concat foldr]. rewrite fmap_app, Happ, total_sum, i64_add_l, <-i64_add_r, IH, i64_add_r. done.
Qed.
End LabelPieces.

(** C15: Merging the selected rows of a block by labels gives a series for exactly the groups of labels of the rows, sorted by the labels, each with its points by time.
    A row is read in pieces, and adds a point per piece with the piece's total: the pieces of the row are its values, so these totals
    add up, with the 64-bit wrap-around, to the row's total. *)
Theorem BlockMergeByLabels_correct {V F} `{PagesReaderOk (ColumnChunk V) V content} (to_float : Z → F) (order : gmap string (Series (F := F)) → list (Series (F := F)))
    {St} `{Iterator St BlockProfile, !IteratorOk St BlockProfile} (b : blockTables V) (rows : St) (l : list BlockProfile) (e : St) (by_ : list string) (rgs : list (Z * ColumnChunk V)) :
  (∀ m, order m ≡ₚ (map_to_list m).*2) → yields rows l e → StronglySorted (λ p q, bp_RowNum p < bp_RowNum q)%Z l →
  Forall (in_file bp_RowNum (column_rows (content := content) rgs)) l → has_column (content := content) (bt_profiles b) "Samples.list.element.Value" rgs →
  (∀ p q, p ∈ l → q ∈ l → bp_fp p = bp_fp q → bp_labels p = bp_labels q) →
  ∃ out series keys, BlockMergeByLabels to_float order b rows by_ = Ret series ∧
    delivers (expect bp_RowNum (column_rows (content := content) rgs) l) out ∧
    (∀ (P : BlockProfile → Prop) (HP : ∀ p, Decision (P p)), i64 (foldr Z.add 0 (total <$> (filter (λ r, P r.1) out).*2))%Z = total (values_of P (expect bp_RowNum (column_rows (content := content) rgs) l))) ∧
    NoDup keys ∧ (∀ k, k ∈ keys ↔ ∃ p, p ∈ l ∧ BytesWithLabels (bp_labels p) by_ = k) ∧
    Forall2 (λ k s, sr_Points s ≡ₚ (λ r, (bp_ts r.1, to_float (total r.2))) <$> filter (λ r, BytesWithLabels (bp_labels r.1) by_ = k) out ∧
      StronglySorted (λ x y, (x.1 ≤ y.1)%Z) (sr_Points s) ∧ ∃ p, p ∈ l ∧ BytesWithLabels (bp_labels p) by_ = k ∧ sr_Labels s = WithLabels (bp_labels p) by_) keys series ∧
    StronglySorted (λ x y, (CompareLabelPairs (sr_Labels x) (sr_Labels y) ≤ 0)%Z) series.
Proof.
  intros Horder Hy Hs Hin Hcol Hdet. unfold BlockMergeByLabels. destruct (repeatedColumnIter_yields bp_RowNum zero _ _ _ _ _ _ Hcol Hy Hs Hin) as (s & out & e' & -> & _ & Hy' & Hd & _ & Hl). cbn [obind].
  assert (Hrows : Forall (λ x, x.2 ≠ []) (expect bp_RowNum (column_rows (content := content) rgs) l)).
  { apply Forall_fmap, Forall_forall. intros p Hp. rewrite Forall_forall in Hin. specialize (Hin p Hp). simpl. unfold in_file in Hin.
    destruct (lookup_lt_is_Some_2 (column_rows (content := content) rgs) (wanted bp_RowNum p)) as [r Hr]; [unfold wanted; lia|]. rewrite Hr. simpl. intros ->. apply list_elem_of_lookup_2 in Hr.
    apply elem_of_concat in Hr as (x & (g & -> & _)%list_elem_of_fmap & Hx). pose proof (content_rows (content := content) g.2) as Hf. rewrite Forall_forall in Hf. by apply (Hf _ Hx). }
  assert (Hkeys : ∀ p, p ∈ out.*1 ↔ p ∈ l).
  { intros p. rewrite (delivers_keys _ _ Hd Hrows). unfold expect. rewrite <-list_fmap_compose, list_elem_of_fmap. split; [by intros (q & -> & Hq)|intros Hp; by exists p]. }
  destruct (label_pieces to_float by_ out) as (byFP & series & Hfold & HG).
  { intros r1 r2 Hr1 Hr2. apply Hdet; apply Hkeys; by apply list_elem_of_fmap_2. }
  unfold for_rows, profile_column. rewrite (iter_fold_yields _ _ _ _ (@inr_yields errIterator _ _ _ (repeated_iterator bp_RowNum zero) _ _ _ Hy')) by exact (le_n_S _ _ Hl). rewrite Hfold. cbn [obind].
  destruct (sorted_series_spec by_ order _ _ _ Horder HG) as (keys & Hnd & Hk & Hf & Hsorted). exists out, (sorted_series order series), keys. split; [done|]. split; [done|]. split; [|split; [done|split; [|split; [|done]]]].
  - intros P HP. rewrite pieces_total. f_equal. exact (delivers_values P _ _ Hd).
  - intros k. rewrite Hk. split.
    + intros (q & (r & -> & Hr)%list_elem_of_fmap & Hq). exists r.1. split; [apply Hkeys; by apply list_elem_of_fmap_2|exact Hq].
    + intros (p & Hp & Hg). apply Hkeys, list_elem_of_fmap in Hp as (r & -> & Hr). exists (piece_point to_float r). split; [by apply list_elem_of_fmap_2|exact Hg].
  - eapply Forall2_impl; [exact Hf|]. intros k sr (Hpts & Hst & q & (r & -> & Hr)%list_elem_of_fmap & Hq & Hlb). split; [by rewrite Hpts, filter_map, <-list_fmap_compose|]. split; [done|].
    exists r.1. split; [apply Hkeys; by apply list_elem_of_fmap_2|]. by split.
Qed.

(** ** An example: columns in one page each *)

#[local] Existing Instance leveled_value.

Definition merge_content (c : ColumnChunk (Z * nat)) : list (list (Z * nat)) :=
  match length (cc_Pages c) with
  | 0 => [[(1%Z, 0); (0%Z, 1)]; [(1%Z, 0)]]
  | 1 => [[(5%Z, 0); (7%Z, 1)]; [(10%Z, 0)]]
  | _ => [[(0%Z, 0)]; [(1%Z, 0); (0%Z, 1)]]
  end.
Definition merge_chunk (n : nat) : ColumnChunk (Z * nat) := mkChunk None (replicate n (inr EmptyString)).

#[local] Instance whole_pages : PagesReader (ColumnChunk (Z * nat)) (Z * nat) := {|
  SeekRead c n := PageOf (mkPage (Z.of_nat (length (drop (Z.to_nat n) (merge_content c)))) None None [(concat (drop (Z.to_nat n) (merge_content c)), None)]);
  ClosePages _ := None;
  NumValues c := length (concat (merge_content c)) |}.

Lemma merge_content_rows c : Forall row_of_values (merge_content c).
Proof. unfold merge_content. destruct (length (cc_Pages c)) as [|[|n]]; repeat constructor; simpl; unfold inner; simpl; lia. Qed.

#[local] Instance whole_pages_ok : PagesReaderOk (ColumnChunk (Z * nat)) (Z * nat) merge_content.
Proof.
  split; [apply merge_content_rows|done|done|]. intros c n Hn. eexists _, (length (merge_content c) - n). split; [done|]. split; [lia|]. split; [lia|].
  split; [simpl; by rewrite Nat2Z.id, length_drop|]. split.
  - apply Forall_cons. split; [|by apply Forall_nil]. left. split; [|done]. simpl. rewrite Nat2Z.id. destruct (lookup_lt_is_Some_2 _ _ Hn) as [r Hr]. rewrite (drop_S _ _ _ Hr). simpl.
    pose proof (Forall_lookup_1 _ _ _ _ (merge_content_rows c) Hr) as Hrow. by destruct r.
  - simpl. rewrite app_nil_r, Nat2Z.id. f_equal. rewrite take_ge; [done|]. rewrite length_drop. lia.
Defined.

Definition merge_tables : blockTables (Z * nat) :=
  mkTables (mkFile [mkRowGroup 2 [merge_chunk 0; merge_chunk 1]] (λ name, if String.eqb name "Samples.list.element.StacktraceID" then Some 0 else Some 1))
    (mkFile [mkRowGroup 2 [merge_chunk 2]] (λ _, Some 0)) [mkLocation 0 0 0 [mkLine 0 1] false; mkLocation 0 0 0 [mkLine 1 1; mkLine 0 2] false]
    [mkFunction 0 1 0 0 0; mkFunction 1 0 0 0 0] ["main"; "foo"].

Definition merge_rows : list BlockProfile := [mkBlockProfile [mkLabel "pod" "a"] 7 100 0; mkBlockProfile [mkLabel "pod" "a"] 7 200 1].

Lemma BlockMergeByStacktraces_correct_witness :
  ∃ res names, BlockMergeByStacktraces (λ _, None) merge_tables (NewSliceIterator merge_rows) = Ret (res, names) ∧
    (∀ x, res !! 1%Z = Some x → ss_Value x = 15%Z) ∧ is_Some (res !! 0%Z).
Proof.
  destruct (BlockMergeByStacktraces_correct (content := merge_content) (λ _, None) merge_tables (NewSliceIterator merge_rows) merge_rows (mkSliceIterator [] zero)
    [(2%Z, merge_chunk 0)] [(2%Z, merge_chunk 1)] [(2%Z, merge_chunk 2)]) as (res & names & Hres & Hdom & Hval).
  - apply slice_yields.
  - reflexivity.
  - repeat constructor; simpl; lia.
  - repeat constructor; simpl; lia.
  - exists 0. split; [reflexivity|]. split; [reflexivity|]. by repeat constructor.
  - exists 1. split; [reflexivity|]. split; [reflexivity|]. by repeat constructor.
  - apply Forall2_cons. split; [|by constructor]. split; [done|]. split; [|done]. intros i. split; simpl.
    { by destruct (Z.to_nat i) as [|[|j]]; [..|unfold merge_content; simpl; rewrite !drop_nil]. }
    apply Forall2_cons. split; [|by constructor]. split; [|done]. simpl.
    destruct (Z.to_nat i) as [|[|j]]; [repeat constructor..|]. unfold merge_content. simpl. by rewrite !drop_nil.
  - by repeat constructor.
  - exists 0. split; [reflexivity|]. split; [reflexivity|]. by repeat constructor.
  - split; [| |done].
    + intros l line. change (bt_locations merge_tables) with [mkLocation 0 0 0 [mkLine 0 1] false; mkLocation 0 0 0 [mkLine 1 1; mkLine 0 2] false]. rewrite !elem_of_cons, elem_of_nil. intros [->|[->|[]]]; simpl; rewrite !elem_of_cons, elem_of_nil; [intros [->|[]]|intros [->|[->|[]]]]; simpl; lia.
    + intros f. change (bt_functions merge_tables) with [mkFunction 0 1 0 0 0; mkFunction 1 0 0 0 0]. rewrite !elem_of_cons, elem_of_nil. intros [->|[->|[]]]; simpl; lia.
  - done.
  - repeat constructor; simpl; unfold min_int64, max_int64; lia.
  - intros sid. simpl. rewrite !elem_of_cons, elem_of_nil. intros [->|[->|[->|[]]]]; (split; [simpl; lia|]); apply Forall_forall; repeat constructor.
  - exists res, names. split; [exact Hres|]. split; [|apply Hdom; right; left]. intros x Hx. destruct (Hval _ _ Hx) as [-> _]. vm_compute. reflexivity.
Defined.

Lemma BlockMergeByLabels_correct_witness :
  ∃ series, BlockMergeByLabels id (λ m, (map_to_list m).*2) merge_tables (NewSliceIterator merge_rows) ["pod"] = Ret series ∧ length series = 1.
Proof.
  destruct (BlockMergeByLabels_correct (content := merge_content) id (λ m, (map_to_list m).*2) merge_tables (NewSliceIterator merge_rows) merge_rows (mkSliceIterator [] zero) ["pod"] [(2%Z, merge_chunk 1)])
    as (out & series & keys & Hs & _ & _ & Hnd & Hk & Hf & _).
  - done.
  - apply slice_yields.
  - repeat constructor; simpl; lia.
  - repeat constructor; simpl; lia.
  - exists 1. split; [reflexivity|]. split; [reflexivity|]. by repeat constructor.
  - intros p q. unfold merge_rows. rewrite !elem_of_cons, !elem_of_nil. by intros [->|[->|[]]] [->|[->|[]]].
  - exists series. split; [exact Hs|]. rewrite <-(Forall2_length _ _ _ Hf). assert (keys ≡ₚ [BytesWithLabels [mkLabel "pod" "a"] ["pod"]]) as ->; [|done].
    apply NoDup_Permutation; [done|repeat constructor; by apply not_elem_of_nil|]. intros k. rewrite Hk, list_elem_of_singleton. split.
    + intros (p & Hp & <-). unfold merge_rows in Hp. rewrite !elem_of_cons, elem_of_nil in Hp. by destruct Hp as [->|[->|[]]].
    + intros ->. eexists. split; [left|done].
Defined.

(** A location without lines is named by the first name; of the names of an inlined location one is kept. *)
Example names_lost :
  (λ r, ((λ s, (s.1, ss_FunctionIds s.2)) <$> map_to_list r.1, r.2)) <$>
    match resolveSymbols merge_tables (<[1%Z := mkStacktraceSample [] 15]> ∅) with Ret r => Some r | _ => None end = Some ([(1%Z, [1; 1]%Z)], ["main"; "foo"]).
Proof. vm_compute. reflexivity. Qed.
