(* ===== verification/BlockQuerier.v ===== *)
(** * The set of blocks (src/pkg/phlaredb/block_querier.go, block/metadata.go)

    [BlockMetas] lists the blocks of the bucket with their metadata, which is rebuilt from the files when it is
    missing; [Sync] opens a querier for each new block and closes those whose block has gone; [queriersFor]
    picks the blocks of a time range.  The bucket, JSON, the parquet and the index files are parameters. *)

From S2P Require Import Prelude Sorting HeadApi Predicates.

(** ** Metadata *)

(** A file of a block, with what is said of a table and of an index. *)
Record ParquetFile := mkParquetFile { pq_NumRowGroups : N; pq_NumRows : N }.
Record TSDBFile := mkTSDBFile { ts_NumSeries : N }.
Record File := mkFileInfo { fi_RelPath : string; fi_SizeBytes : N; fi_Parquet : option ParquetFile; fi_TSDB : option TSDBFile }.

Record Meta := mkMeta { me_ULID : N; me_MinTime : Z; me_MaxTime : Z; me_NumProfiles : N; me_Files : list File; me_Version : N }.

Definition meta_InRange (m : Meta) (start end_ : Z) : bool := InRange (me_MinTime m) (me_MaxTime m) start end_.

Definition MetaVersion1 : N := 1.

(** [block.Read]: what the body decodes to, and the errors of reading it to its end and of closing it; the
    latter come with the metadata that was read. *)
Record body := mkBody { bd_decoded : outcome Meta; bd_copy : option string; bd_close : option string }.

Definition Read (multierror : list string → option string) (r : body) : option Meta * option string :=
  let '(m, err) :=
    match bd_decoded r with
    | Ret m => if (me_Version m =? MetaVersion1)%N then (Some m, None) else (None, Some "unexpected meta file version")
    | Fail e => (None, Some e)
    | Panic => (None, Some "panic")
    end in
  (m, multierror (omap id [bd_copy r; err; bd_close r])).

(** *** The boundaries of the time column *)

Record minMax := mkMinMax { mm_min : Z; mm_max : Z }.

Section Boundaries.
Context (TimeFromUnixNano : Z → Z).

(** The pages of a chunk: their least and greatest value. *)
Definition page_bounds (pages : list (Z * Z)) : minMax :=
  let step acc p :=
    let '(first, mn, mx) := acc in
    let lo := TimeFromUnixNano p.1 in let hi := TimeFromUnixNano p.2 in
    (false, if first || (lo <? mn)%Z then lo else mn, if first || (mx <? hi)%Z then hi else mx) in
  let '(_, mn, mx) := foldl step (true, 0, 0)%Z pages in mkMinMax mn mx.

Definition group_bounds (groups : list minMax) : minMax :=
  let step (acc : bool * minMax) g :=
    let '(first, b) := acc in
    (false, mkMinMax (if first || (mm_min g <? mm_min b)%Z then mm_min g else mm_min b) (if first || (mm_max b <? mm_max g)%Z then mm_max g else mm_max b)) in
  (foldl step (true, mkMinMax 0 0) groups).2.

(** The column index of every row group, once the files are open. *)
Definition readTSBoundaries (opened : option string) (column : option (list (list (Z * Z)))) : outcome (minMax * list minMax) :=
  match opened with
  | Some e => Fail e
  | None =>
      match column with
      | None => Fail "'TimeNanos' column not found"
      | Some groups => let bounds := page_bounds <$> groups in Ret (group_bounds bounds, bounds)
      end
  end.

Definition path_less (a b : File) : bool := String.ltb (fi_RelPath a) (fi_RelPath b).

Definition reconstructMeta (ulid : N) (opened : option string) (column : option (list (list (Z * Z)))) (indexInfo profilesInfo : File) (tables : list File) : outcome Meta :=
  obind (readTSBoundaries opened column) (λ '(b, _),
  obind (of_option (fi_Parquet profilesInfo)) (λ pq,
    Ret (mkMeta ulid (mm_min b) (mm_max b) (pq_NumRows pq) (sort_slice path_less (indexInfo :: profilesInfo :: tables)) MetaVersion1))).
End Boundaries.

(** ** Listing *)

(** What the bucket says of the metadata of a block. *)
Inductive get_result := GetNotFound | GetError (e : string) | GetBody (r : body).

Class BucketReader (B : Type) := {
  bk_Iter : B → outcome (list string);
  bk_IsBlockDir : string → option N;
  bk_GetMeta : B → N → get_result;
  bk_Open : B → N → option string;
  bk_TimeNanos : B → N → option (list (list (Z * Z)));
  bk_IndexInfo : B → N → File;
  bk_ProfilesInfo : B → N → File;
  bk_TableInfos : B → N → list File }.

Section Listing.
Context {B : Type} `{BucketReader B} (TimeFromUnixNano : Z → Z) (multierror : list string → option string).

(** A block whose files cannot be opened, or that has no times, has no metadata. *)
Definition reconstructMetaFromBlock (b : B) (ulid : N) : outcome Meta :=
  reconstructMeta TimeFromUnixNano ulid (bk_Open b ulid) (bk_TimeNanos b ulid) (bk_IndexInfo b ulid) (bk_ProfilesInfo b ulid) (bk_TableInfos b ulid).

(** A block whose metadata cannot be read is left out, with a log line. *)
Definition read_meta (b : B) (ulid : N) : option Meta :=
  match bk_GetMeta b ulid with
  | GetNotFound => match reconstructMetaFromBlock b ulid with Ret m => Some m | _ => None end
  | GetError _ => None
  | GetBody r => (Read multierror r).1
  end.

(** The missing ones last. *)
Definition meta_less (a b : option Meta) : bool :=
  match a, b with
  | None, _ => false
  | Some _, None => true
  | Some a, Some b => (me_MinTime a <? me_MinTime b)%Z
  end.

(** The slice up to the last that is there. *)
Fixpoint cut_from_end (rev_metas : list (option Meta)) : list (option Meta) :=
  match rev_metas with
  | None :: l => cut_from_end l
  | l => l
  end.

Definition BlockMetas (b : B) : outcome (list (option Meta)) :=
  obind (bk_Iter b) (λ names,
    let metas := read_meta b <$> omap bk_IsBlockDir names in
    Ret (reverse (cut_from_end (reverse (sort_slice meta_less metas))))).
End Listing.

(** ** Queriers of blocks *)

(** The index and the tables of a block, as they are opened and closed. *)
Class BlockFiles (I T : Type) := {
  bf_OpenIndex : N → outcome I;
  bf_CloseIndex : I → option string;
  bf_OpenTable : N → T → option string * T;
  bf_CloseTable : T → option string * T }.

Record blockState (I T : Type) := mkBlockState { bs_meta : Meta; bs_opened : bool; bs_index : option I; bs_tables : list T }.
Arguments mkBlockState {I T} _ _ _ _. Arguments bs_meta {I T} _. Arguments bs_opened {I T} _. Arguments bs_index {I T} _. Arguments bs_tables {I T} _.

Section Queriers.
Context {I T : Type} `{BlockFiles I T} (multierror : list string → option string) (new_tables : list T).
Implicit Types (q : blockState I T).

Definition newSingleBlockQuerierFromMeta (m : Meta) : blockState I T := mkBlockState m false None new_tables.

(** The goroutines of the group: what each opens, and the first error in the order of [errors]. *)
Definition openFiles (errors : list string → option string) q : option string * blockState I T :=
  let index := bf_OpenIndex (me_ULID (bs_meta q)) in
  let tables := bf_OpenTable (me_ULID (bs_meta q)) <$> bs_tables q in
  let errs := match index with Ret _ => [] | Fail e => [e] | Panic => ["panic"] end ++ omap fst tables in
  (errors errs, mkBlockState (bs_meta q) (bs_opened q) (match index with Ret i => Some i | _ => bs_index q end) tables.*2).

Definition open (errors : list string → option string) q : option string * blockState I T :=
  if bs_opened q then (None, q)
  else
    match openFiles errors q with
    | (Some e, q) => (Some e, q)
    | (None, q) => (None, mkBlockState (bs_meta q) true (bs_index q) (bs_tables q))
    end.

Definition close_block q : option string * blockState I T :=
  let index_errs := match bs_index q with Some i => match bf_CloseIndex i with Some e => [e] | None => [] end | None => [] end in
  let tables := bf_CloseTable <$> bs_tables q in
  (multierror (index_errs ++ omap fst tables), mkBlockState (bs_meta q) (bs_opened q) None tables.*2).

(** [Sync] *)
Definition by_ulid (qs : list (blockState I T)) : gmap N (blockState I T) := foldl (λ m q, <[me_ULID (bs_meta q) := q]> m) ∅ qs.

(** The queriers of the observed blocks, and those that are not among them. *)
Fixpoint match_metas (metas : list (option Meta)) (m : gmap N (blockState I T)) : outcome (list (blockState I T) * gmap N (blockState I T)) :=
  match metas with
  | [] => Ret ([], m)
  | None :: _ => Panic
  | Some meta :: metas =>
      match m !! me_ULID meta with
      | Some q => obind (match_metas metas (delete (me_ULID meta) m)) (λ '(qs, m), Ret (q :: qs, m))
      | None => obind (match_metas metas m) (λ '(qs, m), Ret (newSingleBlockQuerierFromMeta meta :: qs, m))
      end
  end.

Definition block_less q1 q2 : bool := (me_MinTime (bs_meta q1) <? me_MinTime (bs_meta q2))%Z.

(** The first error ends the loop. *)
Fixpoint close_all (gone : list (blockState I T)) : option string * list (blockState I T) :=
  match gone with
  | [] => (None, [])
  | q :: gone => let '(e, q) := close_block q in match e with Some e => (Some e, q :: gone) | None => let '(e, gone) := close_all gone in (e, q :: gone) end
  end.

(** The error, the new queriers and the others; [range] is the order in which Go walks the map. *)
Definition Sync {B} `{BucketReader B} (TimeFromUnixNano : Z → Z) (range : gmap N (blockState I T) → list (blockState I T)) (b : B) (queriers : list (blockState I T))
    : outcome (option string * list (blockState I T) * list (blockState I T)) :=
  obind (BlockMetas TimeFromUnixNano multierror b) (λ metas,
  obind (match_metas metas (by_ulid queriers)) (λ '(qs, gone), let '(e, closed) := close_all (range gone) in Ret (e, sort_slice block_less qs, closed))).

Definition Close_all (queriers : list (blockState I T)) : option string * list (blockState I T) :=
  let closed := close_block <$> queriers in (multierror (omap fst closed), closed.*2).

Definition queriersFor (queriers : list (blockState I T)) (start end_ : Z) : list (blockState I T) :=
  filter (λ q, meta_InRange (bs_meta q) start end_ = true) queriers.
End Queriers.


(** ** The boundaries are those of the pages *)

Section BoundaryFacts.
Context (f : Z → Z).

(** [mm] spans [lo] and [hi] of every element, and its ends are those of some elements. *)
Definition spans {A} (lo hi : A → Z) (mm : minMax) (l : list A) : Prop :=
  (∀ x, x ∈ l → (mm_min mm ≤ lo x ∧ hi x ≤ mm_max mm)%Z) ∧
  (∃ x, x ∈ l ∧ mm_min mm = lo x) ∧ (∃ x, x ∈ l ∧ mm_max mm = hi x).

Definition widen (mm : minMax) (lo hi : Z) : minMax :=
  mkMinMax (if (lo <? mm_min mm)%Z then lo else mm_min mm) (if (mm_max mm <? hi)%Z then hi else mm_max mm).

Lemma spans_snoc {A} (lo hi : A → Z) mm l x : spans lo hi mm l → spans lo hi (widen mm (lo x) (hi x)) (l ++ [x]).
Proof.
  intros (Hall & (a & Ha & Hmin) & (b & Hb & Hmax)). unfold widen, spans. cbn [mm_min mm_max]. split_and!.
  - intros y [Hy| ->%list_elem_of_singleton]%elem_of_app; [destruct (Hall y Hy)|]; split; case_if_eq; go_arith.
  - destruct (lo x <? mm_min mm)%Z; [exists x|exists a]; (split; [apply elem_of_app|done]); [right; by constructor|by left].
  - destruct (mm_max mm <? hi x)%Z; [exists x|exists b]; (split; [apply elem_of_app|done]); [right; by constructor|by left].
Qed.

Lemma foldl_spans {A} (lo hi : A → Z) (l : list A) mm k :
  spans lo hi mm k → spans lo hi (foldl (λ mm x, widen mm (lo x) (hi x)) mm l) (k ++ l).
Proof.
  revert mm k. induction l as [|x l IH]; intros mm k Hk; simpl; [by rewrite (right_id_L [] (++))|].
  apply (spans_snoc _ _ _ _ x) in Hk. apply IH in Hk. by rewrite <- (assoc_L (++)) in Hk.
Qed.

Lemma spans_single {A} (lo hi : A → Z) x : spans lo hi (mkMinMax (lo x) (hi x)) [x].
Proof. split_and!; [intros y ->%list_elem_of_singleton; simpl; lia| |]; exists x; (split; [by constructor|done]). Qed.

Lemma page_bounds_spans pages : pages ≠ [] → spans (λ p, f p.1) (λ p, f p.2) (page_bounds f pages) pages.
Proof.
  intros Hne. destruct pages as [|p pages]; [done|].
  pose proof (foldl_spans (λ p, f p.1) (λ p, f p.2) pages _ [p] (spans_single _ _ p)) as Hs.
  enough (page_bounds f (p :: pages) = foldl (λ mm x, widen mm (f x.1) (f x.2)) (mkMinMax (f p.1) (f p.2)) pages) as -> by done.
  unfold page_bounds. cbn [foldl]. simpl orb. cbv iota. clear Hs Hne.
  generalize (f p.1), (f p.2). induction pages as [|q pages IH]; intros a b; [done|]. cbn [foldl]. by rewrite IH.
Qed.

Lemma group_bounds_spans groups : groups ≠ [] → spans mm_min mm_max (group_bounds groups) groups.
Proof.
  intros Hne. destruct groups as [|p groups]; [done|].
  pose proof (foldl_spans mm_min mm_max groups _ [p] (spans_single _ _ p)) as Hs.
  enough (group_bounds (p :: groups) = foldl (λ mm x, widen mm (mm_min x) (mm_max x)) (mkMinMax (mm_min p) (mm_max p)) groups) as -> by done.
  unfold group_bounds. cbn [foldl]. simpl orb. cbv iota. clear Hs Hne.
  generalize (mkMinMax (mm_min p) (mm_max p)). induction groups as [|q groups IH]; intros a; [done|]. cbn [foldl]. by rewrite IH.
Qed.

(** The boundaries of the row groups span those of all the pages. *)
Lemma bounds_concat groups :
  groups ≠ [] → Forall (λ g, g ≠ []) groups →
  spans (λ p, f p.1) (λ p, f p.2) (group_bounds (page_bounds f <$> groups)) (concat groups).
Proof.
  intros Hne Hpages. destruct (group_bounds_spans (page_bounds f <$> groups)) as (Hall & (a & Ha & Hmin) & (b & Hb & Hmax)); [by destruct groups|].
  rewrite Forall_forall in Hpages. apply list_elem_of_fmap in Ha as (ga & -> & Hga), Hb as (gb & -> & Hgb).
  destruct (page_bounds_spans ga (Hpages _ Hga)) as (_ & (pa & Hpa & Hpmin) & _).
  destruct (page_bounds_spans gb (Hpages _ Hgb)) as (_ & _ & (pb & Hpb & Hpmax)). split_and!.
  - intros p (g & Hg & Hp)%elem_of_concat. destruct (Hall _ (list_elem_of_fmap_2 _ _ _ Hg)), (page_bounds_spans g (Hpages _ Hg)) as (Hin & _). specialize (Hin p Hp). simpl in *. lia.
  - exists pa. split; [apply elem_of_concat; eauto|congruence].
  - exists pb. split; [apply elem_of_concat; eauto|congruence].
Qed.
End BoundaryFacts.

(** C40: The metadata rebuilt for a block that has lost its file: when every row group has pages, its least time is
    the time of the first value of some page and its greatest that of the last value of some page, no page lies
    outside of them, and the files are all there, in the order of their paths. *)
Theorem reconstructMeta_correct (f : Z → Z) ulid groups index profiles tables pq (Hpq : fi_Parquet profiles = Some pq)
    (Hgroups : groups ≠ []) (Hpages : Forall (λ g, g ≠ []) groups) :
  ∃ m, reconstructMeta f ulid None (Some groups) index profiles tables = Ret m ∧
    me_ULID m = ulid ∧ me_Version m = MetaVersion1 ∧ me_NumProfiles m = pq_NumRows pq ∧
    spans (λ p, f p.1) (λ p, f p.2) (mkMinMax (me_MinTime m) (me_MaxTime m)) (concat groups) ∧
    me_Files m ≡ₚ index :: profiles :: tables ∧ StronglySorted (λ a b, String.le (fi_RelPath a) (fi_RelPath b)) (me_Files m).
Proof.
  unfold reconstructMeta. cbn [readTSBoundaries obind]. rewrite Hpq. eexists. split; [reflexivity|].
  cbn [me_ULID me_Version me_NumProfiles me_MinTime me_MaxTime me_Files]. split_and!; [done..| | |].
  - pose proof (bounds_concat f groups Hgroups Hpages) as Hs. by destruct (group_bounds (page_bounds f <$> groups)).
  - apply sort_slice_perm.
  - eapply StronglySorted_weaken; [|apply sort_slice_sorted].
    + intros a b. by rewrite str_le_ltb.
    + intros a b c. unfold path_less. rewrite <- !str_le_ltb. intros. by etrans.
    + intros a b. unfold path_less. rewrite str_ltb_le, <- str_le_ltb. by intros [? _].
Qed.

(** ** Listing finds every block whose metadata can be had *)

Section ListingFacts.
Context {B : Type} `{BucketReader B} (f : Z → Z) (multierror : list string → option string).

Lemma meta_less_trans x y z : meta_less y x = false → meta_less z y = false → meta_less z x = false.
Proof. destruct x, y, z; simpl; try done. intros ?%Z.ltb_ge ?%Z.ltb_ge. apply Z.ltb_ge. lia. Qed.

Lemma meta_less_asym x y : meta_less x y = true → meta_less y x = false.
Proof. destruct x, y; simpl; try done. intros ?%Z.ltb_lt. apply Z.ltb_ge. lia. Qed.

Definition by_MinTime (a b : Meta) : Prop := (me_MinTime a ≤ me_MinTime b)%Z.

Lemma omap_id_fmap {X Y} (g : X → option Y) (l : list X) : omap id (g <$> l) = omap g l.
Proof. induction l as [|x l IH]; [done|]. change (omap id (g <$> x :: l)) with (match g x with Some y => y :: omap id (g <$> l) | None => omap id (g <$> l) end). by rewrite IH. Qed.

(** Sorted with the missing ones last: the present ones in their order, then the missing ones. *)
Lemma nils_last (l : list (option Meta)) :
  StronglySorted (λ a b, meta_less b a = false) l →
  ∃ n, l = (Some <$> omap id l) ++ replicate n None ∧ StronglySorted by_MinTime (omap id l).
Proof.
  induction 1 as [|x l Hs (n & Hl & IH) Hx]; [by exists 0; split; [|constructor]|]. destruct x as [m|].
  - exists n. change (omap id (Some m :: l)) with (m :: omap id l). split; [by rewrite fmap_cons, <- app_comm_cons, <- Hl|].
    constructor; [done|]. apply Forall_forall. intros m' (y & Hy & Heq)%list_elem_of_omap. unfold id in Heq. subst y.
    rewrite Forall_forall in Hx. apply Hx in Hy. simpl in Hy. apply Z.ltb_ge in Hy. done.
  - assert (omap id l = []) as Hnone.
    { apply elem_of_nil_inv. intros m (y & Hy & Heq)%list_elem_of_omap. unfold id in Heq. subst y. rewrite Forall_forall in Hx. apply Hx in Hy. done. }
    exists (S n). change (omap id (None :: l)) with (omap id l). rewrite Hnone in *. split; [by rewrite Hl|constructor].
Qed.

Lemma cut_from_end_nils n (ms : list Meta) : cut_from_end (reverse ((Some <$> ms) ++ replicate n None)) = reverse (Some <$> ms).
Proof.
  rewrite reverse_app, reverse_replicate. induction n as [|n IH]; [|done]. simpl.
  destruct ms as [|m ms _] using rev_ind; [done|]. by rewrite fmap_app, reverse_app.
Qed.

Lemma BlockMetas_spec (b : B) names :
  bk_Iter b = Ret names →
  ∃ ms, BlockMetas f multierror b = Ret (Some <$> ms) ∧ ms ≡ₚ omap (read_meta f multierror b) (omap bk_IsBlockDir names) ∧
    StronglySorted by_MinTime ms.
Proof.
  intros Hiter. unfold BlockMetas. rewrite Hiter. cbn [obind].
  set (metas := read_meta f multierror b <$> omap bk_IsBlockDir names).
  destruct (nils_last (sort_slice meta_less metas)) as (n & Hl & Hsorted).
  { apply sort_slice_sorted; [apply meta_less_trans|apply meta_less_asym]. }
  exists (omap id (sort_slice meta_less metas)). split_and!; [|rewrite sort_slice_perm; subst metas; by rewrite omap_id_fmap|done].
  rewrite Hl at 1. by rewrite cut_from_end_nils, reverse_involutive.
Qed.
End ListingFacts.

(** Listing the blocks of a bucket: whenever the listing itself succeeds, the result has no holes, it holds
    exactly the metadata of the directories that are blocks and whose metadata can be read or rebuilt, and it
    is in the order of their first times. *)
Theorem BlockMetas_correct {B} `{BucketReader B} (f : Z → Z) (multierror : list string → option string) (b : B) names
    (Hiter : bk_Iter b = Ret names) :
  ∃ ms, BlockMetas f multierror b = Ret (Some <$> ms) ∧ ms ≡ₚ omap (read_meta f multierror b) (omap bk_IsBlockDir names) ∧
    StronglySorted by_MinTime ms.
Proof. by apply BlockMetas_spec. Qed.

(** ** Keeping up with the bucket *)

Section SyncFacts.
Context {I T : Type} `{BlockFiles I T} (multierror : list string → option string) (new_tables : list T).
Implicit Types (q : blockState I T) (ms : list Meta).

Definition ulid_of q : N := me_ULID (bs_meta q).

Lemma by_ulid_lookup (qs : list (blockState I T)) u q :
  NoDup (ulid_of <$> qs) → by_ulid qs !! u = Some q ↔ q ∈ qs ∧ ulid_of q = u.
Proof.
  unfold by_ulid. induction qs as [|x qs IH] using rev_ind; intros Hnd; [cbn [foldl]; rewrite lookup_empty, elem_of_nil; naive_solver|].
  rewrite fmap_app, NoDup_app in Hnd. destruct Hnd as (Hnd & Hout & _). rewrite foldl_snoc, elem_of_app, list_elem_of_singleton.
  destruct (decide (ulid_of x = u)) as [Hx|Hx].
  - rewrite <- Hx at 1. rewrite lookup_insert_eq. split; [intros [= ->]; by split; [right|]|].
    intros [[Hq| ->] Hu]; [|done]. exfalso. apply (Hout (ulid_of q)); [by apply (list_elem_of_fmap_2 _ _ _ Hq)|].
    rewrite Hu, <- Hx. by constructor.
  - rewrite lookup_insert_ne by done. rewrite (IH Hnd). split; [intros [? ?]; by split; [left|]|]. intros [[?| ->] ?]; done.
Qed.

(** The querier of a block: the one there is, or a new one. *)
Definition querier_of (m : gmap N (blockState I T)) (meta : Meta) : blockState I T :=
  default (newSingleBlockQuerierFromMeta new_tables meta) (m !! me_ULID meta).

Lemma match_metas_spec ms m :
  NoDup (me_ULID <$> ms) →
  ∃ gone, match_metas new_tables (Some <$> ms) m = Ret (querier_of m <$> ms, gone) ∧
    ∀ u, gone !! u = if decide (u ∈ me_ULID <$> ms) then None else m !! u.
Proof.
  revert m. induction ms as [|meta ms IH]; intros m Hnd; [by exists m|].
  rewrite fmap_cons in Hnd. apply NoDup_cons in Hnd as [Hout Hnd]. rewrite !fmap_cons. cbn [match_metas].
  unfold querier_of at 1. destruct (m !! me_ULID meta) as [q|] eqn:Hm.
  - destruct (IH (delete (me_ULID meta) m) Hnd) as (gone & -> & Hgone). exists gone. cbn [obind default]. split.
    + do 2 f_equal. f_equal. apply list_fmap_ext. intros i x Hx. unfold querier_of. rewrite lookup_delete_ne; [done|].
      intros Heq. apply Hout. rewrite Heq. apply list_elem_of_fmap_2. by eapply list_elem_of_lookup_2.
    + intros u. rewrite Hgone. destruct (decide (u = me_ULID meta)) as [->|Hu].
      * rewrite lookup_delete_eq. rewrite (decide_True (P := me_ULID meta ∈ _ :: _)) by constructor. by case_decide.
      * rewrite lookup_delete_ne by done. apply decide_ext. rewrite elem_of_cons. naive_solver.
  - destruct (IH m Hnd) as (gone & -> & Hgone). exists gone. cbn [obind default]. split; [done|].
    intros u. rewrite Hgone. destruct (decide (u = me_ULID meta)) as [->|Hu].
    + rewrite Hm. by repeat case_decide.
    + apply decide_ext. rewrite elem_of_cons. naive_solver.
Qed.

Lemma close_all_ok gone closed : close_all multierror gone = (None, closed) → closed = (λ q, (close_block multierror q).2) <$> gone.
Proof.
  revert closed. induction gone as [|q gone IH]; intros closed; cbn [close_all]; [by intros [= <-]|].
  destruct (close_block multierror q) as [[e|] q'] eqn:E; [done|]. destruct (close_all multierror gone) as [e' gone'].
  intros [= -> <-]. rewrite (IH gone' eq_refl), fmap_cons. by rewrite E.
Qed.

Definition earlier q1 q2 : Prop := by_MinTime (bs_meta q1) (bs_meta q2).

Lemma block_sorted (qs : list (blockState I T)) : StronglySorted earlier (sort_slice block_less qs).
Proof.
  eapply StronglySorted_weaken; [|apply sort_slice_sorted]; unfold block_less, earlier, by_MinTime.
  - intros a b. apply Z.ltb_ge.
  - intros a b c ?%Z.ltb_ge ?%Z.ltb_ge. apply Z.ltb_ge. lia.
  - intros a b ?%Z.ltb_lt. apply Z.ltb_ge. lia.
Qed.

(** The queriers of blocks that are no longer there. *)
Definition gone_of (ms : list Meta) (qs : list (blockState I T)) : list (blockState I T) :=
  filter (λ q, ulid_of q ∉ me_ULID <$> ms) qs.

Lemma gone_values ms qs (gone : gmap N (blockState I T)) :
  NoDup (ulid_of <$> qs) → (∀ u, gone !! u = if decide (u ∈ me_ULID <$> ms) then None else by_ulid qs !! u) →
  (map_to_list gone).*2 ≡ₚ gone_of ms qs.
Proof.
  intros Hnd Hgone. assert (∀ u q, gone !! u = Some q ↔ q ∈ gone_of ms qs ∧ ulid_of q = u) as Hin.
  { intros u q. rewrite Hgone. unfold gone_of. rewrite list_elem_of_filter. case_decide as Hu; [naive_solver|].
    rewrite by_ulid_lookup by done. naive_solver. }
  apply NoDup_Permutation.
  - apply NoDup_fmap_2_strong; [|apply NoDup_map_to_list]. intros [u1 q1] [u2 q2] H1%elem_of_map_to_list H2%elem_of_map_to_list Heq.
    apply Hin in H1 as [_ <-], H2 as [_ <-]. simpl in Heq. by subst.
  - apply NoDup_filter. by apply NoDup_fmap_1 in Hnd.
  - intros q. rewrite list_elem_of_fmap. split.
    + intros ([u q'] & -> & Hq%elem_of_map_to_list). by apply Hin in Hq as [? _].
    + intros Hq. exists (ulid_of q, q). split; [done|]. apply elem_of_map_to_list. by apply Hin.
Qed.
End SyncFacts.

(** C35: Following the bucket.  With distinct ULIDs on both sides, [Sync] never panics once the listing succeeds; the
    queriers are then those of the listed blocks, in the order of their first times, where a block that had a
    querier keeps it and any other gets a fresh one; and unless closing one fails, exactly the queriers of the
    blocks that have gone are closed. *)
Theorem Sync_correct {I T B} `{BlockFiles I T, BucketReader B} (f : Z → Z) (multierror : list string → option string) (new_tables : list T)
    range (b : B) names (queriers : list (blockState I T)) (Hiter : bk_Iter b = Ret names)
    (Hrange : ∀ m : gmap N (blockState I T), range m ≡ₚ (map_to_list m).*2)
    (Hmetas : NoDup (me_ULID <$> omap (read_meta f multierror b) (omap bk_IsBlockDir names)))
    (Hqueriers : NoDup (ulid_of <$> queriers)) :
  ∃ ms e qs closed, BlockMetas f multierror b = Ret (Some <$> ms) ∧
    Sync multierror new_tables f range b queriers = Ret (e, qs, closed) ∧
    qs ≡ₚ querier_of new_tables (by_ulid queriers) <$> ms ∧ ulid_of <$> qs ≡ₚ me_ULID <$> ms ∧ StronglySorted earlier qs ∧
    (e = None → closed ≡ₚ (λ q, (close_block multierror q).2) <$> gone_of ms queriers).
Proof.
  destruct (BlockMetas_spec f multierror b names Hiter) as (ms & Hms & Hperm & _).
  assert (NoDup (me_ULID <$> ms)) as Hnd by by rewrite Hperm.
  destruct (match_metas_spec new_tables ms (by_ulid queriers) Hnd) as (gone & Hmatch & Hgone).
  unfold Sync. rewrite Hms. cbn [obind]. rewrite Hmatch. cbn [obind].
  destruct (close_all multierror (range gone)) as [e closed] eqn:Hclose. exists ms, e. do 2 eexists. split_and!; [done|reflexivity|apply sort_slice_perm| |apply block_sorted|].
  - rewrite sort_slice_perm, <- list_fmap_compose. apply reflexive_eq, list_fmap_ext. intros i meta _.
    unfold compose, querier_of. destruct (by_ulid queriers !! me_ULID meta) as [q|] eqn:Hq; [|done].
    by apply (by_ulid_lookup _ _ _ Hqueriers) in Hq as [_ ?].
  - intros ->. apply close_all_ok in Hclose. rewrite Hclose, Hrange. apply Permutation_map. by eapply gone_values.
Qed.

(** The queriers of a time range: exactly those whose block holds a time that is not before its start and not
    after its end, in the order of their first times. *)
Theorem queriersFor_correct {I T} (queriers : list (blockState I T)) (start end_ : Z) (Hsorted : StronglySorted earlier queriers) :
  StronglySorted earlier (queriersFor queriers start end_) ∧
  ∀ q, q ∈ queriersFor queriers start end_ ↔
    q ∈ queriers ∧ (start ≤ me_MaxTime (bs_meta q))%Z ∧ (me_MinTime (bs_meta q) ≤ end_)%Z.
Proof.
  unfold queriersFor. split; [by apply StronglySorted_filter|]. intros q. rewrite list_elem_of_filter.
  unfold meta_InRange, InRange. rewrite Z.gtb_ltb. case_if_eq; [|case_if_eq]; bool_prop; naive_solver lia.
Qed.

(** A querier that has been closed says that it is open and has no index: a search that was given it before the
    block went finds no index to read. *)
Lemma closed_stays_open {I T} `{BlockFiles I T} (multierror errors : list string → option string) (q : blockState I T) (Hopen : bs_opened q = true) :
  ∃ q', open errors (close_block multierror q).2 = (None, q') ∧ bs_opened q' = true ∧ bs_index q' = None.
Proof. eexists. unfold open. cbn [bs_opened close_block snd]. by rewrite Hopen. Qed.

(** ** A bucket with three blocks, one of which has lost its metadata and one of which cannot be read *)

Definition ex_index : File := mkFileInfo "index" 4 None (Some (mkTSDBFile 1)).
Definition ex_profiles : File := mkFileInfo "profiles" 6 (Some (mkParquetFile 1 2)) None.

Definition ex_meta (ulid : N) (lo hi : Z) : Meta := mkMeta ulid lo hi 1 [] MetaVersion1.

#[local] Instance ex_bucket : BucketReader unit := {
  bk_Iter _ := Ret ["3"; "tmp"; "1"; "2"];
  bk_IsBlockDir name := if String.eqb name "1" then Some 1%N else if String.eqb name "2" then Some 2%N else if String.eqb name "3" then Some 3%N else None;
  bk_GetMeta _ u := if (u =? 1)%N then GetBody (mkBody (Ret (ex_meta 1 10 20)) None (Some "close")) else if (u =? 2)%N then GetError "gone" else GetNotFound;
  bk_Open _ _ := None; bk_TimeNanos _ _ := Some [[(5, 8); (7, 9)]]%Z;
  bk_IndexInfo _ _ := ex_index; bk_ProfilesInfo _ _ := ex_profiles; bk_TableInfos _ _ := [] }.

#[local] Instance ex_files : BlockFiles N N := {
  bf_OpenIndex u := Ret u; bf_CloseIndex _ := None; bf_OpenTable _ t := (None, t); bf_CloseTable t := (None, 0%N) }.

Definition first_error (l : list string) : option string := head l.

Definition ex_queriers : list (blockState N N) := [mkBlockState (ex_meta 7 0 4) true (Some 7%N) [8%N]; mkBlockState (ex_meta 1 10 20) true (Some 1%N) [9%N]].

Example Sync_example :
  Sync (I := N) first_error [0%N] id (λ m, (map_to_list m).*2) tt ex_queriers =
  Ret (None, [mkBlockState (mkMeta 3 5 9 2 [ex_index; ex_profiles] MetaVersion1) false None [0%N]; mkBlockState (ex_meta 1 10 20) true (Some 1%N) [9%N]],
       [mkBlockState (ex_meta 7 0 4) true None [0%N]]).
Proof. vm_compute. reflexivity. Qed.

Lemma reconstructMeta_correct_witness :
  ∃ m, reconstructMeta (λ ns, Z.quot ns 1000000) 4 None (Some [[(2000000, 5000000); (7000000, 9000000)]; [(1000000, 1000000)]]%Z) ex_index ex_profiles [ex_index] = Ret m ∧
    me_ULID m = 4%N ∧ me_Version m = MetaVersion1 ∧ me_NumProfiles m = 2%N ∧
    spans (λ p, Z.quot p.1 1000000) (λ p, Z.quot p.2 1000000) (mkMinMax (me_MinTime m) (me_MaxTime m)) (concat [[(2000000, 5000000); (7000000, 9000000)]; [(1000000, 1000000)]]%Z) ∧
    me_Files m ≡ₚ [ex_index; ex_profiles; ex_index] ∧ StronglySorted (λ a b, String.le (fi_RelPath a) (fi_RelPath b)) (me_Files m).
Proof. apply (reconstructMeta_correct (λ ns, Z.quot ns 1000000) 4 [[(2000000, 5000000); (7000000, 9000000)]; [(1000000, 1000000)]]%Z ex_index ex_profiles [ex_index] (mkParquetFile 1 2)); [done..|by repeat constructor]. Defined.

Lemma BlockMetas_correct_witness :
  ∃ ms, BlockMetas id first_error tt = Ret (Some <$> ms) ∧ ms ≡ₚ omap (read_meta id first_error tt) (omap bk_IsBlockDir ["3"; "tmp"; "1"; "2"]) ∧ StronglySorted by_MinTime ms.
Proof. apply BlockMetas_correct. reflexivity. Defined.

Lemma Sync_correct_witness :
  ∃ ms e qs closed, BlockMetas id first_error tt = Ret (Some <$> ms) ∧
    Sync first_error [0%N] id (λ m, (map_to_list m).*2) tt ex_queriers = Ret (e, qs, closed) ∧
    qs ≡ₚ querier_of [0%N] (by_ulid ex_queriers) <$> ms ∧ ulid_of <$> qs ≡ₚ me_ULID <$> ms ∧ StronglySorted earlier qs ∧
    (e = None → closed ≡ₚ (λ q, (close_block first_error q).2) <$> gone_of ms ex_queriers).
Proof. eapply Sync_correct; [reflexivity|done|by vm_compute; repeat (constructor; [set_solver|]); constructor|by vm_compute; repeat (constructor; [set_solver|]); constructor]. Defined.

Lemma queriersFor_correct_witness :
  StronglySorted earlier (queriersFor ex_queriers 4 9) ∧
  ∀ q, q ∈ queriersFor ex_queriers 4 9 ↔ q ∈ ex_queriers ∧ (4 ≤ me_MaxTime (bs_meta q))%Z ∧ (me_MinTime (bs_meta q) ≤ 9)%Z.
Proof. apply queriersFor_correct. repeat constructor; unfold earlier, by_MinTime; simpl; lia. Defined.
