(* ===== verification/PhlareDB.v ===== *)
(** * The database of an ingester (src/pkg/phlaredb/phlaredb.go)

    The handlers that stream the profiles of the head and of the blocks to a querier, which answers every batch
    with the ones to keep, and that merge what was kept; cutting the head; deleting the oldest blocks when the
    disk is full.  Streams, the disk and the file system are parameters. *)

From S2P Require Import Prelude Labels Sorting Iter StackMerge QuerySeries InvertedIndex ProfilesIndex HeadQuery HeadApi BlockSelect SelectMerge BlockQuerier.

(** ** Batches of profiles *)

(** What the head's and the blocks' profiles have in common. *)
Class Profile (P : Type) := { p_Timestamp : P → Z; p_Fingerprint : P → N; p_Labels : P → Labels }.

(** The profiles of blocks and of the head. *)
#[export] Instance stored_profile : Profile BlockProfile := { p_Timestamp := bp_ts; p_Fingerprint := bp_fp; p_Labels := bp_labels }.
Definition head_profile (TimeFromUnixNano : Z → Z) : Profile ProfileWithLabels :=
  {| p_Timestamp p := sp_Timestamp TimeFromUnixNano (pw_profile p); p_Fingerprint := pw_fp; p_Labels := pw_lbs |}.

Record labelWithIndex := mkLabelWithIndex { li_Labels : Labels; li_index : nat }.

Section Batches.
Context {P : Type} `{Profile P}.

(** One profile of a batch: the labels of its fingerprint are sent once. *)
Definition batch_profile (st : gmap N labelWithIndex * ProfileSets) (profile : P) : gmap N labelWithIndex * ProfileSets :=
  let '(seriesByFP, r) := st in
  let '(lblsIdx, seriesByFP, sets) :=
    match seriesByFP !! p_Fingerprint profile with
    | Some i => (i, seriesByFP, ps_LabelsSets r)
    | None =>
        let i := mkLabelWithIndex (p_Labels profile) (length (ps_LabelsSets r)) in
        (i, <[p_Fingerprint profile := i]> seriesByFP, ps_LabelsSets r ++ [p_Labels profile])
    end in
  (seriesByFP, mkProfileSets sets (ps_Profiles r ++ [mkSeriesProfile (i32 (Z.of_nat (li_index lblsIdx))) (p_Timestamp profile)])).

Definition profile_sets (batch : list P) : ProfileSets := (foldl batch_profile (∅, mkProfileSets [] []) batch).2.

(** [selection = append(selection, batch[i])] for the flags that are set. *)
Fixpoint select_flags (i : nat) (selected : list bool) (batch selection : list P) : outcome (list P) :=
  match selected with
  | [] => Ret selection
  | k :: selected =>
      if k then obind (of_option (batch !! i)) (λ p, select_flags (S i) selected batch (selection ++ [p]))
      else select_flags (S i) selected batch selection
  end.
End Batches.

(** ** Streams *)

Record SelectProfilesRequest := mkSelectRequest { sr_LabelSelector : string; sr_Type : ProfileType; sr_Start : Z; sr_End : Z }.

(** A request: the first one has the selection of profiles, the others the flags of a batch. *)
Record MergeRequest := mkMergeRequest { rq_Request : option SelectProfilesRequest; rq_By : list string; rq_Profiles : list bool }.
Record MergeResponse (R : Type) := mkMergeResponse { rs_SelectedProfiles : option ProfileSets; rs_Result : option R }.
Arguments mkMergeResponse {R} _ _. Arguments rs_SelectedProfiles {R} _. Arguments rs_Result {R} _.

Class BidiServerMerge (B Res Req : Type) := {
  srv_Send : B → Res → option string * B;
  srv_Receive : B → (Req + string) * B }.

(** A querier of the head or of a block, with profiles [P] that it gives as an iterator [St], and what it merges to. *)
Class Querier (Q P St R : Type) := {
  qr_SelectMatchingProfiles : Q → SelectProfilesRequest → outcome St;
  qr_Merge : Q → list string → list P → outcome R;
  qr_Sort : Q → list P → list P }.

Section Handlers.
Context {B P St Q R : Type} `{Profile P, BidiServerMerge B (MergeResponse R) MergeRequest} `{Iterator St P} `{!Querier Q P St R}.
Context (is_EOF : string → bool).

Definition canceled : string := "canceled: client closed stream".
Definition stream_error (e : string) : string := if is_EOF e then canceled else e.

(** The stream, the selection, and whether an index was out of range. *)
Record filtering := mkFiltering { fl_stream : B; fl_selection : list P; fl_panic : bool }.

(** The inner [err] of the receive hides the outer one: a failed receive selects nothing. *)
Definition filter_batch (w : filtering) (batch : list P) : option string * filtering :=
  match srv_Send (fl_stream w) (mkMergeResponse (Some (profile_sets batch)) None) with
  | (Some e, b) => (Some (stream_error e), mkFiltering b (fl_selection w) (fl_panic w))
  | (None, b) =>
      let '(received, b) := srv_Receive b in
      let selected := match received with inl response => rq_Profiles response | inr _ => [] end in
      match select_flags 0 selected batch (fl_selection w) with
      | Ret selection => (None, mkFiltering b selection (fl_panic w))
      | _ => (Some "index out of range", mkFiltering b (fl_selection w) true)
      end
  end.

Definition filterProfiles (profiles : St) (batchProfileSize : nat) (b : B) : outcome ((list P + string) * B) :=
  let '(err, w) := ReadBatch batchProfileSize filter_batch profiles (mkFiltering b [] false) in
  if fl_panic w then Panic
  else Ret (match err with Some e => inr e | None => inl (fl_selection w) end, fl_stream w).

(** The queriers in their order; each is merged on its own when its profiles have been chosen. *)
Fixpoint stream_queriers (request : SelectProfilesRequest) (by_ : list string) (queriers : list Q) (merges : list (outcome R)) (b : B)
    : outcome ((list (outcome R) + string) * B) :=
  match queriers with
  | [] => Ret (inl merges, b)
  | q :: queriers =>
      match qr_SelectMatchingProfiles q request with
      | Panic => Panic
      | Fail e => Ret (inr e, b)
      | Ret profiles =>
          obind (filterProfiles profiles 2048 b) (λ '(selected, b),
            match selected with
            | inr e => Ret (inr e, b)
            | inl selectedProfiles => stream_queriers request by_ queriers (merges ++ [qr_Merge q by_ (qr_Sort q selectedProfiles)]) b
            end)
      end
  end.

(** [g.Wait]: the results in the order in which the goroutines end, or the first error. *)
Definition wait (finish : list (outcome R) → list (outcome R)) (merges : list (outcome R)) : outcome (list R) := omapM id (finish merges).

(** What both handlers do; [by_of] are the labels of the request, and [combine] merges the results. *)
Definition merge_profiles (by_of : MergeRequest → list string) (combine : list R → outcome R) (finish : list (outcome R) → list (outcome R))
    (querierFor : Z → Z → list Q) (b : B) : outcome (option string * B) :=
  match srv_Receive b with
  | (inr e, b) => Ret (Some (stream_error e), b)
  | (inl r, b) =>
      match rq_Request r with
      | None => Ret (Some "invalid_argument: missing initial select request", b)
      | Some request =>
          obind (stream_queriers request (by_of r) (querierFor (sr_Start request) (sr_End request)) [] b) (λ '(merges, b),
            match merges with
            | inr e => Ret (Some e, b)
            | inl merges =>
                match srv_Send b (mkMergeResponse None None) with
                | (Some e, b) => Ret (Some e, b)
                | (None, b) =>
                    match wait finish merges with
                    | Panic => Panic
                    | Fail e => Ret (Some e, b)
                    | Ret result =>
                        obind (combine result) (λ merged,
                        let '(err, b) := srv_Send b (mkMergeResponse None (Some merged)) in
                        Ret (stream_error <$> err, b))
                    end
                end
            end)
      end
  end.
End Handlers.

(** The store has the slices of the results. *)
Definition MergeProfilesStacktraces {B P St Q} `{Profile P, BidiServerMerge B (MergeResponse MergeResult) MergeRequest, Iterator St P}
    `{!Querier Q P St MergeResult} (is_EOF : string → bool) (Hashes : list Z → N) (store : slices) :=
  merge_profiles (B := B) (P := P) (St := St) (Q := Q) is_EOF (λ _, []) (λ result, obind (MergeBatchMergeStacktraces Hashes store (Some <$> result)) (λ '(_, merged), Ret merged)).

Definition MergeProfilesLabels {B P St Q F} `{Profile P, BidiServerMerge B (MergeResponse (list (Series (F := F)))) MergeRequest, Iterator St P}
    `{!Querier Q P St (list (Series (F := F)))} (is_EOF : string → bool) (Hash : Labels → N) (values : gmap N (Series (F := F)) → list (Series (F := F))) :=
  merge_profiles (B := B) (P := P) (St := St) (Q := Q) is_EOF (λ r, sort_strings (rq_By r)) (λ result, Ret (MergeSeries Hash values result)).

(** ** The head and the blocks of a time range *)

Definition querierFor {Hd I T} (head_InRange : Hd → Z → Z → bool) (head : Hd) (queriers : list (blockState I T)) (start end_ : Z) : list (Hd + blockState I T) :=
  let blocks := inr <$> queriersFor queriers start end_ in
  if head_InRange head start end_ then inl head :: blocks else blocks.

(** ** Cutting the head *)

Section Flush.
Context {Hd : Type}.

(** The old head, the error of [NewHead], and the head now: after an error there is none. *)
Definition initHead (NewHead : outcome Hd) (head : option Hd) : option Hd * option string * option Hd :=
  match NewHead with
  | Ret h => (head, None, Some h)
  | Fail e => (head, Some e, None)
  | Panic => (head, Some "panic", None)
  end.

(** The error, the head now and the head that was written. *)
Definition Flush (NewHead : outcome Hd) (head_Flush : Hd → option string) (head : option Hd) : option string * option Hd * option Hd :=
  match initHead NewHead head with
  | (_, Some e, head) => (Some e, head, None)
  | (None, None, head) => (None, head, None)
  | (Some old, None, head) => (head_Flush old, head, Some old)
  end.
End Flush.

(** ** Deleting blocks *)

Record VolumeStats := mkVolumeStats { vs_HighDiskUtilization : bool; vs_BytesAvailable : N }.

(** [HasHighDiskUtilization]; [percentage_above] is the comparison of the share that is available as floats. *)
Definition HasHighDiskUtilization (minFreeDisk : N) (percentage_above : N → N → bool) (Bavail Blocks Bsize : N) : VolumeStats :=
  let available := (Bavail * Bsize mod 2 ^ 64)%N in
  mkVolumeStats (if (minFreeDisk <=? available)%N then false else if percentage_above Bavail Blocks then false else true) available.

(** The disk: its statistics, the directory of blocks, and the deletion of one. *)
Class Disk (D : Type) := {
  dk_ctx : D → option string;
  dk_stats : D → outcome VolumeStats;
  dk_ReadDir : D → outcome (list (string * bool));
  dk_RemoveAll : D → string → option string * D }.

Section Cleanup.
Context {D : Type} `{Disk D} (IsBlockDir : string → option N) (ULID_String : N → string) (join : string → string → string) (path : string).

Definition listLocalULID (d : D) : outcome (list N) :=
  obind (dk_ReadDir d) (λ files,
    Ret (sort_slice N.ltb (omap (λ file : string * bool, if file.2 then IsBlockDir (join path file.1) else None) files))).

Definition no_progress : string := "making no progress in deletion".

Fixpoint cleanup_loop (fuel : nat) (lastStats : option VolumeStats) (lastULID : N) (d : D) : outcome (option string * D) :=
  match fuel with
  | O => Panic
  | S fuel =>
      match dk_ctx d with
      | Some e => Ret (Some e, d)
      | None =>
          match dk_stats d with
          | Panic => Panic
          | Fail e => Ret (Some e, d)
          | Ret current =>
              if negb (vs_HighDiskUtilization current) then Ret (None, d)
              else if match lastStats with Some last => (vs_BytesAvailable current <=? vs_BytesAvailable last)%N | None => false end then Ret (None, d)
              else
                match listLocalULID d with
                | Panic => Panic
                | Fail e => Ret (Some e, d)
                | Ret [] => Ret (None, d)
                | Ret (ulid :: _) =>
                    if (lastULID =? ulid)%N then Ret (Some no_progress, d)
                    else
                      let deletePath := join path (ULID_String ulid) in
                      if String.eqb deletePath path then Ret (Some "delete path is the same as the root path, this should never happen", d)
                      else
                        match dk_RemoveAll d deletePath with
                        | (Some e, d) => Ret (Some ("failed to delete oldest block: " +:+ e), d)
                        | (None, d) => cleanup_loop fuel (Some current) ulid d
                        end
                end
          end
      end
  end.

Definition cleanupBlocksWhenHighDiskUtilization (fuel : nat) (d : D) : outcome (option string * D) := cleanup_loop fuel None 0 d.
End Cleanup.

(** ** A batch says what its profiles are *)

Section BatchFacts.
Context {P : Type} `{Profile P}.

(** Profiles with the same fingerprint have the same labels. *)
Definition labels_by_fp (batch : list P) : Prop :=
  ∀ p p', p ∈ batch → p' ∈ batch → p_Fingerprint p = p_Fingerprint p' → p_Labels p = p_Labels p'.

(** A profile as the querier at the other end sees it. *)
Definition seen (addr : string) (p : P) : QProfile := mkQProfile (p_Timestamp p) (p_Labels p) addr.

Record batched (batch : list P) (m : gmap N labelWithIndex) (ps : ProfileSets) : Prop := {
  bt_index fp i : m !! fp = Some i → ps_LabelsSets ps !! li_index i = Some (li_Labels i);
  bt_first fp i : m !! fp = Some i → ∃ p, p ∈ batch ∧ p_Fingerprint p = fp ∧ li_Labels i = p_Labels p;
  bt_sets : length (ps_LabelsSets ps) ≤ length batch;
  bt_length : length (ps_Profiles ps) = length batch;
  bt_profiles addr : Forall2 (λ p r, profile_of addr ps r = Some (seen addr p)) batch (ps_Profiles ps) }.

Lemma i32_index n : (Z.of_nat n < 2 ^ 31)%Z → i32 (Z.of_nat n) = Z.of_nat n.
Proof. intros Hn. unfold i32. rewrite Z.mod_small; lia. Qed.

Lemma profile_of_sets addr sets ps r x :
  sets `prefix_of` ps_LabelsSets ps → profile_of addr (mkProfileSets sets (ps_Profiles ps)) r = Some x → profile_of addr ps r = Some x.
Proof.
  intros [k Hk]. unfold profile_of. cbn [ps_LabelsSets]. destruct (_ <? 0)%Z; [done|]. intros (lbs & Hl & ->)%fmap_Some.
  by rewrite Hk, (lookup_app_l_Some _ _ _ _ Hl).
Qed.

Lemma batched_step batch m ps profile :
  batched batch m ps → (Z.of_nat (length batch) < 2 ^ 31)%Z → labels_by_fp (batch ++ [profile]) →
  batched (batch ++ [profile]) (batch_profile (m, ps) profile).1 (batch_profile (m, ps) profile).2.
Proof.
  intros [Hindex Hfirst Hsets Hlength Hprofiles] Hsmall Hfp.
  assert (∃ m' sets i, batch_profile (m, ps) profile = (m', mkProfileSets sets (ps_Profiles ps ++ [mkSeriesProfile (i32 (Z.of_nat (li_index i))) (p_Timestamp profile)])) ∧
    ps_LabelsSets ps `prefix_of` sets ∧ length sets ≤ S (length batch) ∧ li_index i ≤ length batch ∧ sets !! li_index i = Some (p_Labels profile) ∧
    (∀ fp j, m' !! fp = Some j → m !! fp = Some j ∨ fp = p_Fingerprint profile ∧ j = i ∧ li_Labels i = p_Labels profile)) as (m' & sets & i & -> & Hpre & Hlen & Hi & Hlbs & Hm).
  { unfold batch_profile. destruct (m !! p_Fingerprint profile) as [i|] eqn:Hm.
    - exists m, (ps_LabelsSets ps), i. split; [done|]. pose proof (lookup_lt_Some _ _ _ (Hindex _ _ Hm)). split_and!; [done|lia|lia| |by left].
      rewrite (Hindex _ _ Hm). f_equal. destruct (Hfirst _ _ Hm) as (p & Hp & Heq & ->). apply Hfp; [apply elem_of_app; by left|apply elem_of_app; right; by constructor|done].
    - exists (<[p_Fingerprint profile := mkLabelWithIndex (p_Labels profile) (length (ps_LabelsSets ps))]> m), (ps_LabelsSets ps ++ [p_Labels profile]).
      eexists. split; [reflexivity|]. cbn [li_index li_Labels]. split_and!; [by apply prefix_app_r|rewrite length_app; simpl; lia|lia| |].
      + by rewrite lookup_app_r, Nat.sub_diag by lia.
      + intros fp j. rewrite lookup_insert_Some. intros [[<- <-]|[_ ?]]; [by right|by left]. }
  cbn [fst snd]. split; cbn [ps_LabelsSets ps_Profiles].
  - intros fp j [Hj|(-> & -> & ->)]%Hm; [|done]. destruct Hpre as [k ->]. apply lookup_app_l_Some. by apply Hindex in Hj.
  - intros fp j [Hj|(-> & -> & ?)]%Hm.
    + destruct (Hfirst _ _ Hj) as (p & Hp & ? & ?). exists p. split; [apply elem_of_app; by left|done].
    + exists profile. split; [apply elem_of_app; right; by constructor|done].
  - rewrite length_app. simpl. lia.
  - rewrite !length_app. simpl. lia.
  - intros addr. apply Forall2_app.
    + eapply Forall2_impl; [apply (Hprofiles addr)|]. intros p r Hr. eapply (profile_of_sets _ (ps_LabelsSets ps)); [done|]. by destruct ps.
    + repeat constructor. unfold profile_of, seen. cbn [sp_LabelIndex sp_ts ps_LabelsSets]. rewrite i32_index by lia.
      destruct (Z.of_nat (li_index i) <? 0)%Z eqn:E; [go_arith|]. by rewrite Nat2Z.id, Hlbs.
Qed.

Lemma profile_sets_spec (batch : list P) :
  (Z.of_nat (length batch) ≤ 2 ^ 31)%Z → labels_by_fp batch → ∃ m, batched batch m (profile_sets batch).
Proof.
  intros Hlen Hfp. unfold profile_sets. exists (foldl batch_profile (∅, mkProfileSets [] []) batch).1. revert Hlen Hfp.
  induction batch as [|p batch IH] using rev_ind; intros Hlen Hfp.
  - split; simpl; [done|done|done|done|intros addr; constructor].
  - rewrite length_app in Hlen. cbn [length] in Hlen. rewrite foldl_snoc.
    destruct (foldl batch_profile _ batch) as [m ps] eqn:E. apply batched_step; [apply IH|lia|done]; [lia|].
    intros x y Hx Hy. apply Hfp; apply elem_of_app; by left.
Qed.

(** What the querier takes out of the batch. *)
Lemma profiles_of_profile_sets addr (batch : list P) :
  (Z.of_nat (length batch) ≤ 2 ^ 31)%Z → labels_by_fp batch → profiles_of addr (profile_sets batch) = seen addr <$> batch.
Proof.
  intros Hlen Hfp. destruct (profile_sets_spec batch Hlen Hfp) as [m [_ _ _ _ Hp]]. specialize (Hp addr).
  unfold profiles_of. generalize (profile_sets batch) Hp. clear. intros ps. generalize (ps_Profiles ps). intros rs Hrs.
  induction Hrs as [|p r batch rs Hr _ IH]; [done|]. rewrite fmap_cons. cbn [omap list_omap]. rewrite Hr. by f_equal.
Qed.
End BatchFacts.

(** ** Conversations *)

Inductive event (Res : Type) := Sent (r : Res) | Received (q : MergeRequest).
Arguments Sent {Res} _. Arguments Received {Res} _.

(** The stream takes what is sent and has what is received, in this order. *)
Inductive talks {B Res} `{BidiServerMerge B Res MergeRequest} : B → list (event Res) → B → Prop :=
  | talks_end b : talks b [] b
  | talks_sent b r b1 l b2 : srv_Send b r = (None, b1) → talks b1 l b2 → talks b (Sent r :: l) b2
  | talks_received b q b1 l b2 : srv_Receive b = (inl q, b1) → talks b1 l b2 → talks b (Received q :: l) b2.

Lemma talks_app {B Res} `{BidiServerMerge B Res MergeRequest} b (l1 l2 : list (event Res)) b2 :
  talks b (l1 ++ l2) b2 → ∃ b1, talks b l1 b1 ∧ talks b1 l2 b2.
Proof.
  revert b. induction l1 as [|e l1 IH]; intros b; [intros Ht; exists b; by split; [constructor|]|].
  simpl. inversion 1; subst; edestruct IH as (b' & ? & ?); eauto; exists b'; split; auto; econstructor; eauto.
Qed.

Section StreamFacts.
Context {B P St Q R : Type} `{Profile P, BidiServerMerge B (MergeResponse R) MergeRequest}
  `{Iterator St P, !IteratorOk St P} `{!Querier Q P St R}.
Context (is_EOF : string → bool).

(** One batch and the answer to it. *)
Definition batch_events (batch : list P) (q : MergeRequest) : list (event (MergeResponse R)) :=
  [Sent (mkMergeResponse (Some (profile_sets batch)) None); Received q].
Definition batches_events (batches : list (list P)) (replies : list MergeRequest) : list (event (MergeResponse R)) :=
  concat (zip_with batch_events batches replies).
Definition chosen (batches : list (list P)) (masks : list (list bool)) : list P := concat (zip_with selected batches masks).
Definition answers (batches : list (list P)) (replies : list MergeRequest) : Prop :=
  Forall2 (λ batch q, length (rq_Profiles q) ≤ length batch) batches replies.

Lemma select_flags_spec mask : ∀ i (batch selection : list P), i + length mask ≤ length batch →
  select_flags i mask batch selection = Ret (selection ++ selected (drop i batch) mask).
Proof.
  induction mask as [|k mask IH]; intros i batch selection Hlen.
  - rewrite (selected_none _ 0 : selected (drop i batch) [] = []), (right_id_L [] (++)). done.
  - simpl in Hlen. destruct (lookup_lt_is_Some_2 batch i) as [p Hp]; [lia|]. cbn [select_flags]. rewrite Hp. cbn [of_option obind].
    rewrite (drop_S _ _ _ Hp). unfold selected. cbn [zip zip_with]. destruct k; rewrite IH by lia; unfold selected.
    + rewrite filter_cons_True, fmap_cons by done. by rewrite <- (assoc_L (++)).
    + rewrite filter_cons_False; [done|]. by intros [=].
Qed.

Lemma feed_filter batches replies : answers batches replies → ∀ b b' (sel : list P),
  talks b (batches_events batches replies) b' →
  feed (filter_batch is_EOF) (mkFiltering b sel false) batches = (None, mkFiltering b' (sel ++ chosen batches (rq_Profiles <$> replies)) false).
Proof.
  unfold batches_events, chosen. induction 1 as [|batch q batches replies Hq _ IH]; intros b b' sel Ht.
  - inversion Ht; subst. simpl. by rewrite (right_id_L [] (++)).
  - cbn [zip_with concat] in Ht. apply talks_app in Ht as (b2 & Hb & Ht). inversion Hb as [|b0 r b1 l b2' Hsend Hb1|]; subst.
    inversion Hb1 as [| |b0 q' b3 l b4 Hrecv Hb3]; subst. inversion Hb3; subst. cbn [feed].
    unfold filter_batch at 1. cbn [fl_stream fl_selection fl_panic]. rewrite Hsend, Hrecv.
    rewrite select_flags_spec by (simpl; lia). rewrite (IH _ _ _ Ht). rewrite drop_0, fmap_cons. cbn [zip_with concat]. by rewrite <- (assoc_L (++)).
Qed.

Lemma filterProfiles_spec (s e : St) (l : list P) size replies b b' :
  0 < size → clean s l e → Next e = (false, e) → Err e = None → answers (chunks size l) replies →
  talks b (batches_events (chunks size l) replies) b' →
  filterProfiles (R := R) is_EOF s size b = Ret (inl (chosen (chunks size l) (rq_Profiles <$> replies)), b').
Proof.
  intros Hsize Hclean Hend Herr Hans Ht. unfold filterProfiles. rewrite (ReadBatch_batches _ _ _ l e) by done. rewrite Herr.
  by rewrite (feed_filter _ _ Hans _ _ [] Ht).
Qed.

(** ** The queriers one after the other *)

(** A querier, the iterator it gives with what it holds, and the answers to its batches. *)
Record served := mkServed { sv_querier : Q; sv_iter : St; sv_end : St; sv_profiles : list P; sv_replies : list MergeRequest }.

Definition served_ok (request : SelectProfilesRequest) (s : served) : Prop :=
  qr_SelectMatchingProfiles (sv_querier s) request = Ret (sv_iter s) ∧
  clean (sv_iter s) (sv_profiles s) (sv_end s) ∧ Next (sv_end s) = (false, sv_end s) ∧ Err (sv_end s) = None ∧
  answers (chunks 2048 (sv_profiles s)) (sv_replies s).

Definition served_events (s : served) : list (event (MergeResponse R)) := batches_events (chunks 2048 (sv_profiles s)) (sv_replies s).
Definition served_selection (s : served) : list P := chosen (chunks 2048 (sv_profiles s)) (rq_Profiles <$> sv_replies s).
Definition served_merge (by_ : list string) (s : served) : outcome R := qr_Merge (sv_querier s) by_ (qr_Sort (sv_querier s) (served_selection s)).

Lemma stream_queriers_spec request by_ (plan : list served) : Forall (served_ok request) plan → ∀ merges b b',
  talks b (concat (served_events <$> plan)) b' →
  stream_queriers is_EOF request by_ (sv_querier <$> plan) merges b = Ret (inl (merges ++ (served_merge by_ <$> plan)), b').
Proof.
  induction 1 as [|s plan (Hsel & Hclean & Hend & Herr & Hans) _ IH]; intros merges b b' Ht.
  - inversion Ht; subst. simpl. by rewrite (right_id_L [] (++)).
  - rewrite fmap_cons in Ht. cbn [concat] in Ht. apply talks_app in Ht as (b1 & Hb & Ht). rewrite !fmap_cons. cbn [stream_queriers]. rewrite Hsel.
    rewrite (filterProfiles_spec _ (sv_end s) (sv_profiles s) 2048 (sv_replies s) _ b1) by (done || lia). cbn [obind]. rewrite (IH _ _ _ Ht). by rewrite <- (assoc_L (++)).
Qed.
End StreamFacts.

Lemma selected_fmap {A C} (f : A → C) (l : list A) mask : selected (f <$> l) mask = f <$> selected l mask.
Proof.
  revert mask. induction l as [|x l IH]; intros [|k mask]; [done..|]. unfold selected in *. rewrite fmap_cons. cbn [zip_with].
  destruct k.
  - rewrite !filter_cons_True, !fmap_cons by done. f_equal. apply IH.
  - rewrite !filter_cons_False by (by intros [=]). apply IH.
Qed.

Lemma chunks_length {A} size (l c : list A) : c ∈ chunks size l → length c ≤ size.
Proof.
  unfold chunks. generalize (length l). intros n. revert l. induction n as [|n IH]; intros l; [by intros ?%elem_of_nil|].
  destruct l as [|x l]; [by intros ?%elem_of_nil|]. cbn [chunks_aux]. intros [->|Hc]%elem_of_cons; [rewrite length_take; lia|by eapply IH].
Qed.

(** The whole conversation of a handler: the request, the batches of every querier with their answers, the end of
    the batches, and the merged result. *)
Lemma merge_profiles_spec {B P St Q R} `{Profile P, BidiServerMerge B (MergeResponse R) MergeRequest} `{Iterator St P, !IteratorOk St P} `{!Querier Q P St R}
    (is_EOF : string → bool) by_of combine finish querierFor (first : MergeRequest) request (plan : list (served (P := P) (St := St) (Q := Q))) result merged (b b' : B) :
  rq_Request first = Some request → querierFor (sr_Start request) (sr_End request) = sv_querier <$> plan → Forall (served_ok request) plan →
  finish (served_merge (by_of first) <$> plan) = Ret <$> result → combine result = Ret merged →
  talks b (Received first :: concat (served_events <$> plan) ++ [Sent (mkMergeResponse None None); Sent (mkMergeResponse None (Some merged))]) b' →
  merge_profiles (P := P) (St := St) (Q := Q) (R := R) is_EOF by_of combine finish querierFor b = Ret (None, b').
Proof.
  intros Hreq Hfor Hplan Hfinish Hcombine Ht. inversion Ht as [| |b0 q b1 l b2 Hrecv Ht1]; subst. unfold merge_profiles. rewrite Hrecv, Hreq, Hfor.
  apply talks_app in Ht1 as (b2 & Hb & Hlast). rewrite (stream_queriers_spec is_EOF _ _ _ Hplan [] _ _ Hb). cbn [obind].
  inversion Hlast as [|b3 r b4 l b5 Hsend Hlast1|]; subst. rewrite Hsend.
  inversion Hlast1 as [|b5 r b6 l b7 Hsend2 Hlast2|]; subst. inversion Hlast2; subst.
  rewrite app_nil_l. unfold wait. rewrite Hfinish. assert (omapM id (Ret <$> result) = Ret result) as ->.
  { apply omapM_ret. clear. induction result; simpl; by constructor. }
  rewrite Hcombine. cbn [obind]. by rewrite Hsend2.
Qed.

(** Filtering by the querier: for an iterator that yields [l] and ends well, batches of [size] profiles go out in
    order, and what is kept at the end is exactly what was flagged in each; when profiles of the same fingerprint have
    the same labels, this is also exactly what the querier at the other end read out of the batches it was sent and
    flagged, with times and labels. *)
Theorem filterProfiles_correct {B P St R} `{Profile P, BidiServerMerge B (MergeResponse R) MergeRequest} `{Iterator St P, !IteratorOk St P}
    (is_EOF : string → bool) (addr : string) (s e : St) (l : list P) (size : nat) (replies : list MergeRequest) (b b' : B)
    (Hsize : 0 < size) (Hsmall : (Z.of_nat size ≤ 2 ^ 31)%Z) (Hclean : clean s l e) (Hend : Next e = (false, e)) (Herr : Err e = None)
    (Hans : answers (chunks size l) replies) (Ht : talks b (batches_events (chunks size l) replies) b') (Hfp : labels_by_fp l) :
  let masks := rq_Profiles <$> replies in
  filterProfiles (R := R) is_EOF s size b = Ret (inl (chosen (chunks size l) masks), b') ∧
  concat (chunks size l) = l ∧
  kept_profiles addr (profile_sets <$> chunks size l) masks = seen addr <$> chosen (chunks size l) masks.
Proof.
  intros masks. split_and!; [by eapply filterProfiles_spec|by apply chunks_concat|].
  assert (Forall (λ c, c ⊆ l ∧ length c ≤ size) (chunks size l)) as Hchunks.
  { apply Forall_forall. intros c Hc. split; [|by eapply chunks_length].
    intros p Hp. rewrite <- (chunks_concat size l Hsize). apply elem_of_concat. by exists c. }
  subst masks. unfold kept_profiles, chosen. clear Ht. revert Hchunks. induction Hans as [|c q cs qs _ _ IH]; [done|].
  intros [[Hin Hlen] Hcs]%Forall_cons. rewrite !fmap_cons. cbn [zip_with concat]. rewrite fmap_app, (IH Hcs). f_equal.
  rewrite profiles_of_profile_sets; [apply selected_fmap|lia|]. intros x y Hx Hy. apply Hfp; by apply Hin.
Qed.

(** C23: The handler of stack traces, end to end: the queriers of the requested range are streamed in their order,
    each in batches of at most 2048 profiles with an answer after each, then comes one empty response, and then one
    with the merge of what every querier made of the profiles that were kept of it; the handler ends without an
    error exactly there.  The results are merged in the order in which the goroutines ended. *)
Theorem MergeProfilesStacktraces_correct {B P St Q} `{Profile P, BidiServerMerge B (MergeResponse MergeResult) MergeRequest}
    `{Iterator St P, !IteratorOk St P} `{!Querier Q P St MergeResult}
    (is_EOF : string → bool) (Hashes : list Z → N) (store store' : slices) finish querierFor (first : MergeRequest) request
    (plan : list (served (P := P) (St := St) (Q := Q))) (result : list MergeResult) merged (b b' : B)
    (Hreq : rq_Request first = Some request) (Hfor : querierFor (sr_Start request) (sr_End request) = sv_querier <$> plan)
    (Hplan : Forall (served_ok request) plan) (Hfinish : finish (served_merge [] <$> plan) = Ret <$> result)
    (Hmerged : MergeBatchMergeStacktraces Hashes store (Some <$> result) = Ret (store', merged))
    (Ht : talks b (Received first :: concat (served_events <$> plan) ++ [Sent (mkMergeResponse None None); Sent (mkMergeResponse None (Some merged))]) b') :
  MergeProfilesStacktraces (P := P) (St := St) (Q := Q) is_EOF Hashes store finish querierFor b = Ret (None, b').
Proof. eapply merge_profiles_spec; [done..| |done]. by rewrite Hmerged. Qed.

(** The handler of series: the same conversation, with the labels in order. *)
Lemma MergeProfilesLabels_spec {B P St Q F} `{Profile P, BidiServerMerge B (MergeResponse (list (Series (F := F)))) MergeRequest}
    `{Iterator St P, !IteratorOk St P} `{!Querier Q P St (list (Series (F := F)))}
    (is_EOF : string → bool) (Hash : Labels → N) values finish querierFor (first : MergeRequest) request
    (plan : list (served (P := P) (St := St) (Q := Q))) (result : list (list (Series (F := F)))) (b b' : B) :
  rq_Request first = Some request → querierFor (sr_Start request) (sr_End request) = sv_querier <$> plan →
  Forall (served_ok request) plan → finish (served_merge (sort_strings (rq_By first)) <$> plan) = Ret <$> result →
  talks b (Received first :: concat (served_events <$> plan) ++ [Sent (mkMergeResponse None None); Sent (mkMergeResponse None (Some (MergeSeries Hash values result)))]) b' →
  MergeProfilesLabels (P := P) (St := St) (Q := Q) is_EOF Hash values finish querierFor b = Ret (None, b').
Proof. intros Hreq Hfor Hplan Hfinish Ht. by eapply (merge_profiles_spec is_EOF (λ r, sort_strings (rq_By r))). Qed.

(** An answer that cannot be received is no error: the whole batch is left out and the stream goes on. *)
Lemma failed_receive_deselects {B P R} `{Profile P, BidiServerMerge B (MergeResponse R) MergeRequest} is_EOF (w : filtering) (batch : list P) b1 b2 e :
  srv_Send (fl_stream w) (mkMergeResponse (Some (profile_sets batch)) None) = (None, b1) → srv_Receive b1 = (inr e, b2) →
  filter_batch (R := R) is_EOF w batch = (None, mkFiltering b2 (fl_selection w) (fl_panic w)).
Proof. intros Hsend Hrecv. unfold filter_batch. by rewrite Hsend, Hrecv. Qed.

(** When no new head can be made, the old one is neither written nor kept. *)
Lemma failed_head_is_lost {Hd} (head_Flush : Hd → option string) (e : string) (old : Hd) :
  Flush (Fail e) head_Flush (Some old) = (Some e, None, None).
Proof. done. Qed.

(** ** Deleting the oldest blocks *)

(** A directory in which only the deletion of a block changes the blocks there are. *)
Class DiskOk (D : Type) `{Disk D} (IsBlockDir : string → option N) (ULID_String : N → string) (join : string → string → string) (path : string) := {
  dk_no_panic d : dk_stats d ≠ Panic;
  dk_removed d d' u ids : listLocalULID IsBlockDir join path d = Ret ids → dk_RemoveAll d (join path (ULID_String u)) = (None, d') →
    listLocalULID IsBlockDir join path d' = Ret (filter (λ i, i ≠ u) ids) }.

Section CleanupFacts.
Context {D : Type} (IsBlockDir : string → option N) (ULID_String : N → string) (join : string → string → string) (path : string)
  `{DiskOk D IsBlockDir ULID_String join path}.
Abbreviation list_ids := (listLocalULID IsBlockDir join path).

(** Deletions of the oldest blocks, each of a disk that was full and, after another deletion, had more room than before that one: from the
    statistics at the last deletion, the blocks and the disk to the same afterwards. *)
Inductive deleting : option VolumeStats → list N → D → option VolumeStats → list N → D → Prop :=
| deleting_none last ids d : deleting last ids d last ids d
| deleting_one last u ids d st d1 last' ids' d' :
    dk_stats d = Ret st → vs_HighDiskUtilization st = true → (∀ l, last = Some l → (vs_BytesAvailable l < vs_BytesAvailable st)%N) →
    dk_RemoveAll d (join path (ULID_String u)) = (None, d1) → deleting (Some st) ids d1 last' ids' d' → deleting last (u :: ids) d last' ids' d'.

Lemma deleting_suffix last ids d last' ids' d' : deleting last ids d last' ids' d' → ∃ k, ids' = drop k ids.
Proof. induction 1 as [last ids d|last u ids d st d1 last' ids' d' _ _ _ _ _ [k ->]]; [by exists 0|by exists (S k)]. Qed.

(** Why the cleanup stops without an error: the disk is not full, there are no blocks, or the last deletion made no room. *)
Definition may_stop (last : option VolumeStats) (ids : list N) (d : D) : Prop :=
  ∃ st, dk_stats d = Ret st ∧
    (vs_HighDiskUtilization st = false ∨ ids = [] ∨ ∃ l, last = Some l ∧ (vs_BytesAvailable st ≤ vs_BytesAvailable l)%N).

Lemma filter_head_gone (u : N) ids : NoDup (u :: ids) → filter (λ i, i ≠ u) (u :: ids) = ids.
Proof.
  intros [Hu _]%NoDup_cons. rewrite filter_cons_False by (intros Hne; by apply Hne). apply filter_all. intros i Hi Heq. by subst.
Qed.

Lemma cleanup_spec ids : ∀ fuel last lastULID d, list_ids d = Ret ids → NoDup ids → (lastULID ∉ ids) → length ids < fuel →
  ∃ e d', cleanup_loop IsBlockDir ULID_String join path fuel last lastULID d = Ret (e, d') ∧
    ∃ last' ids' d1, deleting last ids d last' ids' d1 ∧ (e = None → d' = d1 ∧ list_ids d' = Ret ids' ∧ may_stop last' ids' d').
Proof.
  assert (∀ last ids d e, e ≠ None → ∃ (e' : option string) d', Ret (e, d) = Ret (e', d') ∧ ∃ last' ids' d1, deleting last ids d last' ids' d1 ∧ (e' = None → d' = d1 ∧ list_ids d' = Ret ids' ∧ may_stop last' ids' d')) as Hfail.
  { intros last ids' d e He. exists e, d. split; [done|]. exists last, ids', d. split; [constructor|]. by intros ->. }
  assert (∀ last ids d, list_ids d = Ret ids → may_stop last ids d → ∃ (e : option string) d', Ret (None, d) = Ret (e, d') ∧ ∃ last' ids' d1, deleting last ids d last' ids' d1 ∧ (e = None → d' = d1 ∧ list_ids d' = Ret ids' ∧ may_stop last' ids' d')) as Hstop.
  { intros last ids' d Hl Hm. exists None, d. split; [done|]. exists last, ids', d. split; [constructor|]. by intros _. }
  induction ids as [|u ids IH]; intros fuel last lastULID d Hids Hnd Hlast Hfuel; (destruct fuel as [|fuel]; [simpl in Hfuel; lia|]); cbn [cleanup_loop];
    (destruct (dk_ctx d) as [e|]; [by apply Hfail|]); destruct (dk_stats d) as [st|e|] eqn:Est; [|by apply Hfail|by apply dk_no_panic in Est| |by apply Hfail|by apply dk_no_panic in Est].
  all: destruct (vs_HighDiskUtilization st) eqn:Ehigh; cbn [negb]; [|apply Hstop; [done|]; exists st; auto].
  all: destruct (match last with Some l => _ | None => false end) eqn:Egain;
    [apply Hstop; [done|]; exists st; split; [done|]; right; right; destruct last as [l|]; [|done]; exists l; split; [done|by apply N.leb_le]|].
  - rewrite Hids. apply Hstop; [done|]. exists st. auto.
  - rewrite Hids. destruct (lastULID =? u)%N eqn:Eu; [by apply Hfail|]. destruct (String.eqb _ _); [by apply Hfail|].
    destruct (dk_RemoveAll d _) as [[e|] d1] eqn:Erm.
    { exists (Some ("failed to delete oldest block: " +:+ e)), d1. split; [done|]. exists last, (u :: ids), d. split; [constructor|done]. }
    pose proof (dk_removed _ _ _ _ Hids Erm) as Hids1. rewrite filter_head_gone in Hids1 by done. apply NoDup_cons in Hnd as [Hu Hnd].
    destruct (IH fuel (Some st) u d1 Hids1 Hnd Hu) as (e & d' & -> & last' & ids' & d2 & Hdel & He); [simpl in Hfuel; lia|]. exists e, d'. split; [done|].
    exists last', ids', d2. split; [|done]. eapply deleting_one; [done|done| |done|done]. intros l ->. by apply N.leb_gt.
Qed.
End CleanupFacts.

Lemma sort_ulids_sorted (l : list N) : StronglySorted N.le (sort_slice N.ltb l).
Proof.
  eapply StronglySorted_weaken; [|apply sort_slice_sorted].
  - intros a b. apply N.ltb_ge.
  - intros a b c ?%N.ltb_ge ?%N.ltb_ge. apply N.ltb_ge. lia.
  - intros a b ?%N.ltb_lt. apply N.ltb_ge. lia.
Qed.


(** ** A scripted stream, a querier with a list of profiles, and a small disk *)

Record scripted (R : Type) := mkScripted { sd_todo : list MergeRequest; sd_sent : list (MergeResponse R) }.
Arguments mkScripted {R} _ _. Arguments sd_todo {R} _. Arguments sd_sent {R} _.

#[local] Instance scripted_stream {R} : BidiServerMerge (scripted R) (MergeResponse R) MergeRequest := {
  srv_Send b r := (None, mkScripted (sd_todo b) (sd_sent b ++ [r]));
  srv_Receive b := match sd_todo b with q :: todo => (inl q, mkScripted todo (sd_sent b)) | [] => (inr "EOF", b) end }.

#[local] Instance list_querier : Querier (list BlockProfile) BlockProfile (sliceIterator BlockProfile) MergeResult := {
  qr_SelectMatchingProfiles q _ := Ret (NewSliceIterator q);
  qr_Merge _ _ l := Ret (mkMergeResult ((λ p, mkStackSample 0 (bp_ts p)) <$> take 1 l) ["f"]);
  qr_Sort _ l := l }.

Definition ex_profile (pod : string) (fp : N) (ts : Z) : BlockProfile := mkBlockProfile [mkLabel "pod" pod] fp ts 0.
Definition ex_profiles_list : list BlockProfile := [ex_profile "a" 1 10; ex_profile "b" 2 11; ex_profile "a" 1 12].
Definition ex_request : SelectProfilesRequest := mkSelectRequest "{}" (mkProfileType "" "" "" "" "" "") 0 100.
Definition ex_first : MergeRequest := mkMergeRequest (Some ex_request) [] [].
Definition ex_reply (mask : list bool) : MergeRequest := mkMergeRequest None [] mask.
Definition ex_eof (e : string) : bool := String.eqb e "EOF".

Example profile_sets_example :
  profile_sets ex_profiles_list = mkProfileSets [[mkLabel "pod" "a"]; [mkLabel "pod" "b"]] [mkSeriesProfile 0 10; mkSeriesProfile 1 11; mkSeriesProfile 0 12].
Proof. vm_compute. reflexivity. Qed.

Definition ex_replies : list MergeRequest := ex_reply <$> [[true; false]; [true]].

Example chosen_example : chosen (chunks 2 ex_profiles_list) (rq_Profiles <$> ex_replies) = [ex_profile "a" 1 10; ex_profile "a" 1 12].
Proof. vm_compute. reflexivity. Qed.

Lemma ex_labels_by_fp : labels_by_fp ex_profiles_list.
Proof. intros p p' Hp Hp'. unfold ex_profiles_list in *. set_solver. Qed.

Lemma filterProfiles_correct_witness :
  filterProfiles (R := nat) ex_eof (NewSliceIterator ex_profiles_list) 2 (mkScripted ex_replies []) =
    Ret (inl (chosen (chunks 2 ex_profiles_list) (rq_Profiles <$> ex_replies)),
      mkScripted [] [mkMergeResponse (Some (profile_sets (take 2 ex_profiles_list))) None; mkMergeResponse (Some (profile_sets (drop 2 ex_profiles_list))) None]) ∧
  concat (chunks 2 ex_profiles_list) = ex_profiles_list ∧
  kept_profiles "i1" (profile_sets <$> chunks 2 ex_profiles_list) (rq_Profiles <$> ex_replies) = seen "i1" <$> chosen (chunks 2 ex_profiles_list) (rq_Profiles <$> ex_replies).
Proof.
  apply (filterProfiles_correct (R := nat) ex_eof "i1" _ (mkSliceIterator [] zero) ex_profiles_list 2 ex_replies (mkScripted ex_replies [])).
  - lia.
  - lia.
  - apply slice_clean.
  - reflexivity.
  - reflexivity.
  - repeat constructor; simpl; lia.
  - do 4 (econstructor; [reflexivity|]). constructor.
  - apply ex_labels_by_fp.
Defined.

(** Two queriers, of which the second has nothing. *)
Definition ex_plan : list (served (P := BlockProfile) (St := sliceIterator BlockProfile) (Q := list BlockProfile)) :=
  [mkServed ex_profiles_list (NewSliceIterator ex_profiles_list) (mkSliceIterator [] zero) ex_profiles_list [ex_reply [false; true; true]];
   mkServed [] (NewSliceIterator []) (mkSliceIterator [] zero) [] []].
Definition ex_store : slices := {[0 := [0%Z]]}.
Definition ex_result : list MergeResult := [mkMergeResult [mkStackSample 0 11] ["f"]; mkMergeResult [] ["f"]].
Definition ex_merged : MergeResult := mkMergeResult [mkStackSample 0 11] ["f"].
Definition ex_hash (l : list Z) : N := foldl (λ h x, 100 * h + Z.to_N x + 1)%N 0%N l.
Definition ex_stream : scripted MergeResult := mkScripted [ex_first; ex_reply [false; true; true]] [].

Lemma MergeProfilesStacktraces_correct_witness :
  MergeProfilesStacktraces (P := BlockProfile) (St := sliceIterator BlockProfile) ex_eof ex_hash ex_store id (λ _ _, [ex_profiles_list; []]) ex_stream =
    Ret (None, mkScripted [] [mkMergeResponse (Some (profile_sets ex_profiles_list)) None; mkMergeResponse None None; mkMergeResponse None (Some ex_merged)]).
Proof.
  eapply (MergeProfilesStacktraces_correct ex_eof ex_hash ex_store _ id _ ex_first ex_request ex_plan ex_result ex_merged).
  - reflexivity.
  - reflexivity.
  - constructor; [|constructor; [|constructor]]; (split; [reflexivity|]); (split; [|split; [reflexivity|split; [reflexivity|]]]).
    + apply slice_clean.
    + constructor; [simpl; lia|constructor].
    + apply slice_clean.
    + constructor.
  - reflexivity.
  - vm_compute. reflexivity.
  - do 5 (econstructor; [reflexivity|]). constructor.
Defined.

(** Blocks, named by as many letters as their ULIDs say, on a disk that is full while there are more than two. *)
Definition ex_ulid_string (u : N) : string := N.iter u (String (Ascii.ascii_of_N 97)) EmptyString.
Definition ex_ulid (s : string) : option N := Some (N.of_nat (String.length s)).
Definition ex_join (_ name : string) : string := name.

#[local] Instance small_disk : Disk (list N) := {
  dk_ctx _ := None;
  dk_stats d := Ret (mkVolumeStats (2 <? length d)%nat (100 - N.of_nat (length d)));
  dk_ReadDir d := Ret ((λ u : N, (ex_ulid_string u, true)) <$> d);
  dk_RemoveAll d p := (None, filter (λ u, ex_ulid_string u ≠ p) d) }.

Lemma ex_ulid_id u : ex_ulid (ex_ulid_string u) = Some u.
Proof.
  unfold ex_ulid, ex_ulid_string. f_equal. induction u as [|u IH] using N.peano_ind; [done|].
  rewrite N.iter_succ. cbn [String.length]. rewrite Nat2N.inj_succ. by rewrite IH.
Qed.

Lemma small_disk_ids d : listLocalULID ex_ulid ex_join "data" d = Ret (sort_slice N.ltb d).
Proof.
  unfold listLocalULID. cbn [dk_ReadDir small_disk obind]. do 2 f_equal. induction d as [|u d IH]; [done|].
  rewrite fmap_cons. cbn [omap list_omap fst snd ex_join]. rewrite ex_ulid_id. f_equal. exact IH.
Qed.

#[local] Instance small_disk_ok : DiskOk (list N) ex_ulid ex_ulid_string ex_join "data".
Proof.
  split; [done|]. intros d d' u ids. rewrite !small_disk_ids. intros [= <-] [= <-]. f_equal.
  apply (StronglySorted_unique N.le); [apply sort_ulids_sorted|apply StronglySorted_filter, sort_ulids_sorted|].
  rewrite !sort_slice_perm. apply reflexive_eq, filter_ext_in. intros x _. unfold ex_join. split; intros Hne Heq; apply Hne; [by subst|].
  assert (Some x = Some u) as [= ->]; [|done]. rewrite <- !ex_ulid_id. by rewrite Heq.
Defined.

Example cleanup_example :
  cleanupBlocksWhenHighDiskUtilization ex_ulid ex_ulid_string ex_join "data" 6 [7; 3; 5; 9; 4]%N = Ret (None, [7; 9]%N).
Proof. vm_compute. reflexivity. Qed.

