(* ===== verification/Pprof.v ===== *)
(** * Normalisation of profiles (src/pkg/pprof/pprof.go, src/pkg/slices/slices.go)

    The distributor normalises every profile before it is pushed: samples of the same stack are added up, empty
    samples go, and so do the locations, functions and strings that only removed samples referred to.  The theorems
    show which meanings survive; [label_string_lost] shows one that does not.  The 64-bit hash is a parameter. *)

From S2P Require Import Prelude Sorting Labels Dedup Symbols Delta Head.

(** ** Removing from a slice *)

(** [slices.RemoveInPlace], with the state that the predicate keeps. *)
Fixpoint RemoveInPlace {A S} (predicate : A → S → outcome (bool * S)) (l : list A) (s : S) : outcome (list A * S) :=
  match l with
  | [] => Ret ([], s)
  | x :: l =>
      obind (predicate x s) (λ '(remove, s),
      obind (RemoveInPlace predicate l s) (λ '(l, s), Ret (if remove : bool then l else x :: l, s)))
  end.

(** ** Hashes of stacks *)

(** [binary.LittleEndian.PutUint64]. *)
Definition le64 (x : N) : list N := (λ i : nat, N.shiftr x (8 * N.of_nat i) mod 256)%N <$> seq 0 8.

Section Hasher.
Context (Sum64 : list N → N).

Definition stack_hash (ids : list N) : N := Sum64 (concat (le64 <$> ids)).
Definition Hashes (samples : list GSample) : list N := (λ s, stack_hash (gs_LocationId s)) <$> samples.
End Hasher.

(** ** Samples *)

Definition summed_into (s : GSample) (v : list Z) : GSample := mkGSample (gs_LocationId s) v (gs_Label s).

(** The values of a removed sample are added to those of the next one, which must have as many. *)
Fixpoint add_values (next value : list Z) : outcome (list Z) :=
  match value, next with
  | [], _ => Ret next
  | _ :: _, [] => Panic
  | v :: value, n :: next => obind (add_values next value) (λ next, Ret (i64 (n + v) :: next))
  end.

Definition redundant_label (T : list string) (l : PLabel) (u : unit) : outcome (bool * unit) :=
  if (pl_Num l =? 0)%Z then Ret (false, u)
  else if (pl_Key l =? 0)%Z then Ret (false, u)
  else obind (str_at T (pl_Key l)) (λ k, Ret (String.eqb k "bytes", u)).

(** A sample that no later one takes over: kept without its redundant labels, or removed when it is empty. *)
Definition keep_sample (T : list string) (s : GSample) : outcome (list GSample * list GSample) :=
  if existsb (λ v, negb (v =? 0)%Z) (gs_Value s) then
    obind (RemoveInPlace (redundant_label T) (gs_Label s) ()) (λ '(labels, _), Ret ([mkGSample (gs_LocationId s) (gs_Value s) labels], []))
  else Ret ([], [s]).

(** The samples in the order of their hashes; the current one, [s], has the values it was given so far. *)
Fixpoint remove_samples (T : list string) (h : N) (s : GSample) (rest : list (N * GSample)) : outcome (list GSample * list GSample) :=
  match rest with
  | [] => keep_sample T s
  | (h', s') :: rest =>
      if (h =? h')%N then
        obind (add_values (gs_Value s') (gs_Value s)) (λ v,
        obind (remove_samples T h' (summed_into s' v) rest) (λ '(kept, removed), Ret (kept, s :: removed)))
      else
        obind (keep_sample T s) (λ '(kept, removed),
        obind (remove_samples T h' s' rest) (λ '(kept', removed'), Ret (kept ++ kept', removed ++ removed')))
  end.

Definition hash_less (a b : N * GSample) : bool := (a.1 <? b.1)%N.

(** The samples that stay, and those that were removed. *)
Definition dedup_samples (Sum64 : list N → N) (T : list string) (samples : list GSample) : outcome (list GSample * list GSample) :=
  match sort_slice hash_less (zip (Hashes Sum64 samples) samples) with
  | [] => Ret ([], [])
  | (h, s) :: rest => remove_samples T h s rest
  end.

(** ** Mappings *)

Definition with_symbols (p : GProfile) (mappings : list Mapping) (locations : list Location) (functions : list Function) : GProfile :=
  mkGProfile (gp_SampleType p) (gp_Sample p) mappings locations functions (gp_StringTable p) (gp_DropFrames p) (gp_KeepFrames p) (gp_TimeNanos p)
    (gp_DurationNanos p) (gp_PeriodType p) (gp_Period p) (gp_Comment p) (gp_DefaultSampleType p).

Definition ensureHasMapping (p : GProfile) : GProfile :=
  let mId := foldl (λ mId m, if (mId <? mp_Id m)%N then mp_Id m else mId) 0%N (gp_Mapping p) in
  let fake := mkMapping (u64 (mId + 1)) 0 (2 ^ 64 - 1) 0 0 0 false false false false in
  let without l := (lc_MappingId l =? 0)%N in
  with_symbols p
    (if existsb without (gp_Location p) then gp_Mapping p ++ [fake] else gp_Mapping p)
    ((λ l, if without l then mkLocation (lc_Id l) (mp_Id fake) (lc_Address l) (lc_Line l) (lc_IsFolded l) else l) <$> gp_Location p)
    (gp_Function p).

(** ** References to strings *)

(** [visitAllNameReferences], applied to every reference it visits; a profile without a period type panics. *)
Section Visit.
Context (fn : Z → Z).

Definition visit_type (t : ValueType) : ValueType := mkValueType (fn (vt_Type t)) (fn (vt_Unit t)).
Definition visit_mapping (m : Mapping) : Mapping :=
  mkMapping (mp_Id m) (mp_MemoryStart m) (mp_MemoryLimit m) (mp_FileOffset m) (fn (mp_Filename m)) (fn (mp_BuildId m))
    (mp_HasFunctions m) (mp_HasFilenames m) (mp_HasLineNumbers m) (mp_HasInlineFrames m).
Definition visit_label (l : PLabel) : PLabel := mkPLabel (fn (pl_Key l)) (pl_Str l) (fn (pl_Num l)) (fn (pl_NumUnit l)).
Definition visit_sample (s : GSample) : GSample := mkGSample (gs_LocationId s) (gs_Value s) (visit_label <$> gs_Label s).
Definition visit_function (f : Function) : Function := mkFunction (fn_Id f) (fn (fn_Name f)) (fn (fn_SystemName f)) (fn (fn_Filename f)) (fn_StartLine f).

Definition visit_map (p : GProfile) : outcome GProfile :=
  obind (of_option (gp_PeriodType p)) (λ period,
    Ret (mkGProfile (visit_type <$> gp_SampleType p) (visit_sample <$> gp_Sample p) (visit_mapping <$> gp_Mapping p) (gp_Location p)
      (visit_function <$> gp_Function p) (gp_StringTable p) (fn (gp_DropFrames p)) (fn (gp_KeepFrames p)) (gp_TimeNanos p)
      (gp_DurationNanos p) (Some (visit_type period)) (gp_Period p) (fn <$> gp_Comment p) (gp_DefaultSampleType p))).
End Visit.

(** The references it visits, in their order. *)
Definition visit_refs (p : GProfile) : outcome (list Z) :=
  obind (of_option (gp_PeriodType p)) (λ period,
    Ret ([gp_DropFrames p; gp_KeepFrames p; vt_Type period; vt_Unit period]
      ++ concat ((λ t, [vt_Type t; vt_Unit t]) <$> gp_SampleType p)
      ++ concat ((λ m, [mp_Filename m; mp_BuildId m]) <$> gp_Mapping p)
      ++ concat ((λ s, concat ((λ l, [pl_Key l; pl_Num l; pl_NumUnit l]) <$> gs_Label s)) <$> gp_Sample p)
      ++ concat ((λ f, [fn_Name f; fn_SystemName f; fn_Filename f]) <$> gp_Function p)
      ++ gp_Comment p)).

(** ** References to what was removed *)

Definition sample_locations (samples : list GSample) : gset N := list_to_set (concat (gs_LocationId <$> samples)).
Definition line_functions (locations : list Location) : gset N := list_to_set (concat ((λ l, ln_FunctionId <$> lc_Line l) <$> locations)).

Definition remove_location (ids : gset N) (loc : Location) (fns : gset N) : outcome (bool * gset N) :=
  Ret (if decide (lc_Id loc ∈ ids) then (true, fns ∪ line_functions [loc]) else (false, fns)).
Definition remove_function (ids : gset N) (f : Function) (names : gset Z) : outcome (bool * gset Z) :=
  Ret (if decide (fn_Id f ∈ ids) then (true, names ∪ {[fn_Name f]} ∪ {[fn_SystemName f]} ∪ {[fn_Filename f]}) else (false, names)).

(** [lo.Reject] of the table. *)
Definition reject_strings (names : gset Z) (T : list string) : list string :=
  omap id (imap (λ i s, if decide (Z.of_nat i ∈ names) then None else Some s) T).

(** How many of the removed references, in their order, are below one. *)
Fixpoint shift_of (removed : list Z) (idx : Z) : Z :=
  match removed with
  | [] => 0
  | r :: removed => if (r <? idx)%Z then 1 + shift_of removed idx else 0
  end.

Definition remove_names (names : gset Z) (p : GProfile) : outcome GProfile :=
  let removed := sort_slice Z.ltb (elements names) in
  visit_map (λ idx, i64 (idx - shift_of removed idx))
    (mkGProfile (gp_SampleType p) (gp_Sample p) (gp_Mapping p) (gp_Location p) (gp_Function p) (reject_strings names (gp_StringTable p))
      (gp_DropFrames p) (gp_KeepFrames p) (gp_TimeNanos p) (gp_DurationNanos p) (gp_PeriodType p) (gp_Period p) (gp_Comment p) (gp_DefaultSampleType p)).

Definition clearSampleReferences (removed : list GSample) (p : GProfile) : outcome GProfile :=
  if decide (removed = []) then Ret p
  else
    let removedLocationIds := sample_locations removed ∖ sample_locations (gp_Sample p) in
    if decide (removedLocationIds = ∅) then Ret p
    else
      obind (RemoveInPlace (remove_location removedLocationIds) (gp_Location p) ∅) (λ '(locations, removedFunctionIds),
      let p := with_symbols p (gp_Mapping p) locations (gp_Function p) in
      if decide (removedFunctionIds = ∅) then Ret p
      else
        let removedFunctionIds := removedFunctionIds ∖ line_functions locations in
        obind (RemoveInPlace (remove_function removedFunctionIds) (gp_Function p) ∅) (λ '(functions, removedNames),
        let p := with_symbols p (gp_Mapping p) locations functions in
        if decide (removedNames = ∅) then Ret p
        else
          obind (visit_refs p) (λ refs,
          let removedNames := removedNames ∖ list_to_set refs in
          if decide (removedNames = ∅) then Ret p else remove_names removedNames p))).

(** ** [Normalize] *)

Definition with_kept (p : GProfile) (time : Z) (samples : list GSample) : GProfile :=
  mkGProfile (gp_SampleType p) samples (gp_Mapping p) (gp_Location p) (gp_Function p) (gp_StringTable p) (gp_DropFrames p) (gp_KeepFrames p) time
    (gp_DurationNanos p) (gp_PeriodType p) (gp_Period p) (gp_Comment p) (gp_DefaultSampleType p).

Definition Normalize (Sum64 : list N → N) (currentTime : Z) (p : GProfile) : outcome GProfile :=
  let time := if (gp_TimeNanos p =? 0)%Z then currentTime else gp_TimeNanos p in
  let p := ensureHasMapping p in
  obind (dedup_samples Sum64 (gp_StringTable p) (gp_Sample p)) (λ '(kept, removed),
    clearSampleReferences removed (with_kept p time kept)).

(** ** Samples: values are kept, stack by stack *)

Section SampleFacts.
Context (Sum64 : list N → N) (T : list string) (n : nat).
Abbreviation hash s := (stack_hash Sum64 (gs_LocationId s)).

(** The sum of the [j]-th values of a stack. *)
Definition value_at (j : nat) (s : GSample) : Z := nth j (gs_Value s) 0%Z.
Definition sum_at (stack : list N) (j : nat) (samples : list GSample) : Z :=
  foldr (λ s t, if decide (gs_LocationId s = stack) then (value_at j s + t)%Z else t) 0%Z samples.

Definition has_value (s : GSample) : Prop := ∃ j, value_at j s ≠ 0%Z.

(** A sample with [n] values and whose labels can be looked at. *)
Definition sample_ready (s : GSample) : Prop :=
  length (gs_Value s) = n ∧ Forall (λ l, is_Some (str T (pl_Key l))) (gs_Label s).

Lemma sum_at_app stack j l k : sum_at stack j (l ++ k) = (sum_at stack j l + sum_at stack j k)%Z.
Proof. induction l as [|s l IH]; simpl; [lia|]. rewrite IH. case_decide; lia. Qed.

Lemma sum_at_perm stack j l k : l ≡ₚ k → sum_at stack j l = sum_at stack j k.
Proof. induction 1; simpl; repeat case_decide; lia. Qed.

Lemma sum_at_none stack j l : (∀ s, s ∈ l → gs_LocationId s ≠ stack) → sum_at stack j l = 0%Z.
Proof.
  induction l as [|s l IH]; intros Hl; [done|]. simpl. rewrite decide_False by (apply Hl; by constructor). apply IH. intros x Hx. apply Hl. by constructor.
Qed.

Lemma add_values_spec next : ∀ value, length value = length next →
  ∃ r, add_values next value = Ret r ∧ length r = length next ∧ ∀ j, j < length next → nth j r 0%Z = i64 (nth j next 0 + nth j value 0)%Z.
Proof.
  induction next as [|x next IH]; intros [|v value] Hlen; simplify_eq/=; [exists []; split_and!; [done..|intros; simpl in *; lia]|].
  destruct (IH value Hlen) as (r & -> & Hr & Hj). cbn [obind]. eexists. split; [done|]. split_and!; [simpl; by rewrite Hr|].
  intros [|j] Hlt; [done|]. simpl. apply Hj. lia.
Qed.

Lemma redundant_labels_spec (l : list PLabel) u : Forall (λ l, is_Some (str T (pl_Key l))) l →
  ∃ k, RemoveInPlace (redundant_label T) l u = Ret (k, u) ∧ k `sublist_of` l.
Proof.
  induction 1 as [|x l [s Hs] _ (k & Hk & Hsub)]; [by exists []|]. cbn [RemoveInPlace].
  assert (∃ b, redundant_label T x u = Ret (b, u)) as (b & ->).
  { unfold redundant_label. rewrite (str_at_spec _ _ _ Hs). repeat case_if_eq; by eexists. }
  cbn [obind]. rewrite Hk. cbn [obind]. destruct b; eexists; (split; [done|]); [by constructor|by constructor].
Qed.

(** What becomes of one sample. *)
Definition trimmed (s s' : GSample) : Prop := gs_LocationId s' = gs_LocationId s ∧ gs_Label s' `sublist_of` gs_Label s.

Lemma keep_sample_spec s : sample_ready s →
  ∃ kept removed, keep_sample T s = Ret (kept, removed) ∧ length kept ≤ 1 ∧
    Forall (λ s', trimmed s s' ∧ gs_Value s' = gs_Value s ∧ has_value s') kept ∧
    ∀ stack j, sum_at stack j kept = sum_at stack j [s].
Proof.
  intros (Hlen & Hlabels). unfold keep_sample. destruct (existsb _ _) eqn:E.
  - destruct (redundant_labels_spec _ () Hlabels) as (k & -> & Hk). cbn [obind]. do 2 eexists. split; [done|]. split_and!; [done| |done].
    repeat constructor; [done|]. apply existsb_exists in E as (v & Hv & Hne). apply list_elem_of_In, list_elem_of_lookup in Hv as [j Hj].
    exists j. unfold value_at. cbn [gs_Value]. rewrite (nth_lookup_Some _ _ _ _ Hj). by apply negb_true_iff, Z.eqb_neq in Hne.
  - exists [], [s]. split_and!; [done|simpl; lia|constructor|]. intros stack j. simpl. case_decide; [|done].
    enough (value_at j s = 0%Z) as -> by done. unfold value_at. destruct (nth_in_or_default j (gs_Value s) 0%Z) as [Hin| ->]; [|done].
    destruct (Z.eq_dec (nth j (gs_Value s) 0%Z) 0) as [|Hne]; [done|]. exfalso.
    assert (existsb (λ v, negb (v =? 0)%Z) (gs_Value s) = true) as E'; [|by rewrite E' in E].
    apply existsb_exists. eexists. split; [exact Hin|]. by apply negb_true_iff, Z.eqb_neq.
Qed.

(** Adding the values of one sample to another of the same stack. *)
Lemma sum_at_merged s s' v l stack j :
  gs_LocationId s = gs_LocationId s' → length (gs_Value s) = length (gs_Value s') → length v = length (gs_Value s') →
  (∀ j, j < length (gs_Value s') → nth j v 0%Z = i64 (nth j (gs_Value s') 0 + nth j (gs_Value s) 0)%Z) →
  i64 (sum_at stack j (summed_into s' v :: l)) = i64 (sum_at stack j (s :: s' :: l)).
Proof.
  intros Hloc Hs Hv Hj. simpl. rewrite Hloc. case_decide; [|done]. unfold value_at. cbn [gs_Value summed_into].
  destruct (decide (j < length (gs_Value s'))) as [Hlt|Hge].
  - rewrite Hj by done. rewrite i64_add_l. f_equal. lia.
  - by rewrite !nth_overflow by lia.
Qed.

(** A sample of the result comes from one of the profile. *)
Definition from (samples : list GSample) (s' : GSample) : Prop := ∃ s, s ∈ samples ∧ trimmed s s'.

Lemma remove_samples_spec rest : ∀ s, Forall sample_ready (s :: rest.*2) → Forall (λ e, e.1 = hash e.2) rest →
  StronglySorted (λ a b, ¬ (b < a)%N) (hash s :: rest.*1) →
  (∀ a b, a ∈ s :: rest.*2 → b ∈ s :: rest.*2 → hash a = hash b → gs_LocationId a = gs_LocationId b) →
  ∃ kept removed, remove_samples T (hash s) s rest = Ret (kept, removed) ∧
    StronglySorted N.lt ((λ s, hash s) <$> kept) ∧ Forall (λ s', (hash s ≤ hash s')%N) kept ∧
    Forall (λ s', from (s :: rest.*2) s' ∧ has_value s') kept ∧
    ∀ stack j, i64 (sum_at stack j kept) = i64 (sum_at stack j (s :: rest.*2)).
Proof.
  induction rest as [|[h' s'] rest IH]; intros s Hready Hhash Hsorted Hinj.
  - apply Forall_cons in Hready as [Hs _]. destruct (keep_sample_spec s Hs) as (kept & removed & Hk & Hlen & Hkept & Hsum).
    exists kept, removed. cbn [remove_samples]. split; [done|]. split_and!.
    + destruct kept as [|x [|? ?]]; simpl in Hlen; [constructor|repeat constructor|lia].
    + eapply Forall_impl; [exact Hkept|]. intros x ((Hx & _) & _). simpl. rewrite Hx. done.
    + eapply Forall_impl; [exact Hkept|]. intros x (Hx & _ & Hnz). split; [|done]. exists s. split; [by constructor|done].
    + intros. by rewrite Hsum.
  - rewrite !fmap_cons in *. cbn [fst snd] in *. apply Forall_cons in Hhash as [Hh Hhash]. simpl in Hh. subst h'.
    apply Forall_cons in Hready as [Hs Hready]. apply Forall_cons in Hready as [Hs' Hready].
    apply StronglySorted_inv in Hsorted as [Hsorted Hle]. apply Forall_cons in Hle as [Hle _]. cbn [remove_samples].
    destruct (hash s =? hash s')%N eqn:E.
    + apply N.eqb_eq in E. pose proof Hs as (Hlen & Hlab). pose proof Hs' as (Hlen' & Hlab').
      destruct (add_values_spec (gs_Value s') (gs_Value s)) as (v & -> & Hv & Hj); [congruence|]. cbn [obind].
      change (hash s') with (hash (summed_into s' v)).
      destruct (IH (summed_into s' v)) as (kept & removed & -> & Hsort & Hge & Hkept & Hsum).
      * constructor; [|done]. split; [simpl; congruence|done].
      * done.
      * done.
      * intros a b Ha Hb. assert (∀ x, x ∈ summed_into s' v :: rest.*2 → ∃ y, y ∈ s' :: rest.*2 ∧ gs_LocationId y = gs_LocationId x) as Hin.
        { intros x [->|Hx]%elem_of_cons; [exists s'; split; [by constructor|done]|exists x; split; [by constructor|done]]. }
        destruct (Hin _ Ha) as (a' & Ha' & <-), (Hin _ Hb) as (b' & Hb' & <-). apply Hinj; by constructor.
      * exists kept, (s :: removed). split; [done|]. split_and!; [done|by rewrite E| |].
        -- eapply Forall_impl; [exact Hkept|]. intros x ((y & Hy & Hyx) & Hnz). split; [|done].
           apply elem_of_cons in Hy as [->|Hy]; [exists s'|exists y]; (split; [|done]); [do 2 constructor|by do 2 constructor].
        -- intros stack j. rewrite Hsum. apply sum_at_merged; [apply Hinj; [by constructor|by do 2 constructor|done]|congruence|congruence|].
           intros k Hk. apply Hj. lia.
    + apply N.eqb_neq in E. destruct (keep_sample_spec s Hs) as (kept & removed & -> & Hlen & Hkept & Hsum). cbn [obind].
      destruct (IH s') as (kept' & removed' & -> & Hsort & Hge & Hkept' & Hsum').
      * by constructor.
      * done.
      * done.
      * intros a b Ha Hb. apply Hinj; by constructor.
      * cbn [obind]. do 2 eexists. split; [done|]. split_and!.
        -- rewrite fmap_app. destruct kept as [|x [|? ?]]; simpl in Hlen; [done| |lia]. simpl. constructor; [done|].
           apply Forall_cons in Hkept as [((Hx & _) & _) _]. rewrite Forall_fmap. eapply Forall_impl; [exact Hge|]. intros y Hy. simpl. rewrite Hx. simpl in Hy. lia.
        -- apply Forall_app. split.
           ++ eapply Forall_impl; [exact Hkept|]. intros x ((Hx & _) & _). simpl. rewrite Hx. done.
           ++ eapply Forall_impl; [exact Hge|]. simpl. intros. lia.
        -- apply Forall_app. split.
           ++ eapply Forall_impl; [exact Hkept|]. intros x (Hx & _ & Hnz). split; [|done]. exists s. split; [by constructor|done].
           ++ eapply Forall_impl; [exact Hkept'|]. intros x ((y & Hy & Hyx) & Hnz). split; [|done]. exists y. split; [by constructor|done].
        -- intros stack j. rewrite sum_at_app. rewrite <- i64_add_r, Hsum', i64_add_r, Hsum. rewrite <- sum_at_app. done.
Qed.

(** The outcome for all samples of a profile, sorted by their hashes. *)
Record deduplicated (samples kept : list GSample) : Prop := {
  dd_from : Forall (λ s', from samples s' ∧ has_value s') kept;
  dd_hashes : StronglySorted N.lt ((λ s, hash s) <$> kept);
  dd_sums stack j : i64 (sum_at stack j kept) = i64 (sum_at stack j samples) }.

Lemma dedup_samples_spec samples : Forall sample_ready samples →
  (∀ a b, a ∈ samples → b ∈ samples → hash a = hash b → gs_LocationId a = gs_LocationId b) →
  ∃ kept removed, dedup_samples Sum64 T samples = Ret (kept, removed) ∧ deduplicated samples kept.
Proof.
  intros Hready Hinj. unfold dedup_samples.
  assert (zip (Hashes Sum64 samples) samples = (λ s, (hash s, s)) <$> samples) as ->.
  { unfold Hashes. clear. induction samples as [|s samples IH]; [done|]. simpl. by f_equal. }
  set (l := (λ s, (hash s, s)) <$> samples). pose proof (sort_slice_perm hash_less l) as Hperm.
  assert (StronglySorted (λ a b, hash_less b a = false) (sort_slice hash_less l)) as Hsorted.
  { apply sort_slice_sorted; unfold hash_less.
    - intros x y z ?%N.ltb_ge ?%N.ltb_ge. apply N.ltb_ge. lia.
    - intros x y ?%N.ltb_lt. apply N.ltb_ge. lia. }
  assert (samples ≡ₚ (sort_slice hash_less l).*2) as Hsamples.
  { rewrite Hperm. unfold l. rewrite <- list_fmap_compose. by rewrite list_fmap_id. }
  assert (Forall (λ e, e.1 = hash e.2) (sort_slice hash_less l)) as Hhash.
  { rewrite Hperm. unfold l. apply Forall_fmap, Forall_true. done. }
  destruct (sort_slice hash_less l) as [|[h s] rest].
  - exists [], []. split; [done|]. apply Permutation_nil_r in Hsamples as ->. split; [constructor|constructor|done].
  - rewrite fmap_cons in Hsamples. cbn [snd] in Hsamples. apply Forall_cons in Hhash as [Hh Hhash]. simpl in Hh. subst h.
    destruct (remove_samples_spec rest s) as (kept & removed & -> & Hsort & _ & Hkept & Hsum).
    + by rewrite <- Hsamples.
    + done.
    + change (hash s :: rest.*1) with (((hash s, s) :: rest).*1). eapply StronglySorted_fmap; [|exact Hsorted].
      unfold hash_less. simpl. intros a b. rewrite N.ltb_ge. lia.
    + intros a b Ha Hb. apply Hinj; by rewrite Hsamples.
    + exists kept, removed. split; [done|]. split; [|done|].
      * eapply Forall_impl; [exact Hkept|]. intros x ((y & Hy & Hyx) & Hnz). split; [|done]. exists y. by rewrite Hsamples.
      * intros stack j. rewrite Hsum. by rewrite (sum_at_perm _ _ _ _ Hsamples).
Qed.
End SampleFacts.

(** ** References: what is left means what it meant *)

Lemma RemoveInPlace_filter {A S} (P : A → Prop) `{∀ x, Decision (P x)} (f : A → S → S) (l : list A) : ∀ s,
  RemoveInPlace (λ x s, Ret (if decide (P x) then (true, f x s) else (false, s))) l s =
  Ret (filter (λ x, ¬ P x) l, foldl (λ s x, f x s) s (filter P l)).
Proof.
  induction l as [|x l IH]; intros s; [done|]. cbn [RemoveInPlace obind]. destruct (decide (P x)) as [Hx|Hx]; rewrite IH; cbn [obind].
  - rewrite (filter_cons_True P) by done. rewrite filter_cons_False by auto. done.
  - rewrite (filter_cons_False P) by done. by rewrite filter_cons_True.
Qed.

Lemma find_id_cons {A} (id_of : A → N) x l id : find_id id_of (x :: l) id = if decide (id_of x = id) then Some x else find_id id_of l id.
Proof. unfold find_id. simpl. case_decide; [done|]. by destruct (list_find _ l) as [[]|]. Qed.

Lemma find_id_filter {A} (id_of : A → N) (R : gset N) l id :
  (id ∉ R) → find_id id_of (filter (λ x, ¬ id_of x ∈ R) l) id = find_id id_of l id.
Proof.
  intros Hid. induction l as [|x l IH]; [done|]. rewrite find_id_cons. destruct (decide (id_of x ∈ R)) as [Hx|Hx].
  - rewrite filter_cons_False by auto. rewrite decide_False by congruence. done.
  - rewrite filter_cons_True, find_id_cons by done. by case_decide.
Qed.

Lemma find_id_fmap {A} (id_of : A → N) (g : A → A) l id : (∀ x, id_of (g x) = id_of x) → find_id id_of (g <$> l) id = g <$> find_id id_of l id.
Proof. intros Hg. induction l as [|x l IH]; [done|]. rewrite fmap_cons, !find_id_cons, Hg. by case_decide. Qed.

Section Renaming.
Context (R : gset Z).

(** The strings from position [k] on. *)
Fixpoint reject_from (k : nat) (T : list string) : list string :=
  match T with
  | [] => []
  | x :: T => if decide (Z.of_nat k ∈ R) then reject_from (S k) T else x :: reject_from (S k) T
  end.

Lemma reject_from_0 T : reject_strings R T = reject_from 0 T.
Proof.
  unfold reject_strings. assert (∀ k, omap id (imap (λ i s, if decide (Z.of_nat (k + i) ∈ R) then None else Some s) T) = reject_from k T) as Hg; [|apply (Hg 0)].
  induction T as [|x T IH]; intros k; [done|]. rewrite imap_cons. cbn [reject_from]. rewrite <- IH, Nat.add_0_r.
  assert (imap ((λ i s, if decide (Z.of_nat (k + i) ∈ R) then None else Some s) ∘ S) T = imap (λ i s, if decide (Z.of_nat (S k + i) ∈ R) then None else Some s) T) as ->.
  { apply imap_ext. intros i s _. simpl. by rewrite Nat.add_succ_r. }
  by case_decide.
Qed.

Definition rejected (k i : nat) : nat := length (filter (λ j, Z.of_nat j ∈ R) (seq k i)).

Lemma rejected_le k i : rejected k i ≤ i.
Proof. unfold rejected. etrans; [apply length_filter|]. by rewrite length_seq. Qed.

Lemma reject_lookup T : ∀ k i x, T !! i = Some x → Z.of_nat (k + i) ∉ R → reject_from k T !! (i - rejected k i) = Some x.
Proof.
  induction T as [|y T IH]; intros k [|i] x Hx Hi; [done..| |].
  - simpl in Hx. rewrite Nat.add_0_r in Hi. cbn [reject_from]. by rewrite decide_False.
  - simpl in Hx. rewrite Nat.add_succ_r in Hi. specialize (IH (S k) i x Hx Hi). cbn [reject_from]. unfold rejected in *. cbn [seq].
    destruct (decide (Z.of_nat k ∈ R)) as [Hk|Hk].
    + rewrite filter_cons_True by done. cbn [length]. exact IH.
    + rewrite filter_cons_False by done. pose proof (rejected_le (S k) i) as Hle. unfold rejected in Hle.
      rewrite Nat.sub_succ_l by done. exact IH.
Qed.

Lemma shift_of_sorted l idx : StronglySorted (λ a b, (b <? a)%Z = false) l → shift_of l idx = Z.of_nat (length (filter (λ r, r < idx)%Z l)).
Proof.
  induction 1 as [|r l Hs IH Hr]; [done|]. cbn [shift_of]. case_if_eq; bool_prop.
  - rewrite filter_cons_True by done. rewrite IH. simpl. lia.
  - rewrite filter_cons_False by lia. rewrite filter_none; [done|]. intros x Hx Hlt. rewrite Forall_forall in Hr. specialize (Hr x Hx). simpl in Hr. bool_prop. lia.
Qed.

Definition shift (idx : Z) : Z := shift_of (sort_slice Z.ltb (elements R)) idx.

Lemma shift_rejected (i : nat) : (∀ r, r ∈ R → (0 ≤ r)%Z) → shift (Z.of_nat i) = Z.of_nat (rejected 0 i).
Proof.
  intros Hpos. unfold shift, rejected. rewrite shift_of_sorted.
  - f_equal. rewrite sort_slice_perm. rewrite <- (length_fmap Z.of_nat). apply Permutation_length, NoDup_Permutation.
    + apply NoDup_filter, NoDup_elements.
    + apply NoDup_fmap_2; [apply _|]. apply NoDup_filter, NoDup_seq.
    + intros r. rewrite list_elem_of_filter, elem_of_elements, list_elem_of_fmap. split.
      * intros [Hlt Hr]. exists (Z.to_nat r). specialize (Hpos r Hr). split; [lia|]. apply list_elem_of_filter. split; [by rewrite Z2Nat.id|].
        apply elem_of_seq. lia.
      * intros (j & -> & [Hj Hlt%elem_of_seq]%list_elem_of_filter). split; [lia|done].
  - apply sort_slice_sorted.
    + intros x y z ?%Z.ltb_ge ?%Z.ltb_ge. apply Z.ltb_ge. lia.
    + intros x y ?%Z.ltb_lt. apply Z.ltb_ge. lia.
Qed.

(** A reference that stays, before and after. *)
Lemma renamed_str (T : list string) idx s :
  (∀ r, r ∈ R → (0 ≤ r)%Z) → (N.of_nat (length T) < 2 ^ 63)%N → (idx ∉ R) → str T idx = Some s →
  str (reject_strings R T) (i64 (idx - shift idx)) = Some s.
Proof.
  intros Hpos Hlen Hidx Hs. unfold str in Hs. destruct (idx <? 0)%Z eqn:E; [done|]. bool_prop.
  assert (∃ i, idx = Z.of_nat i) as [i ->] by (exists (Z.to_nat idx); lia). rewrite Nat2Z.id in Hs. pose proof (lookup_lt_Some _ _ _ Hs) as Hlt.
  rewrite shift_rejected by done. pose proof (rejected_le 0 i) as Hle. rewrite i64_small by (unfold int64_range, min_int64, max_int64; lia).
  unfold str. case_if_eq; [bool_prop; lia|]. rewrite <- Nat2Z.inj_sub, Nat2Z.id by done. rewrite reject_from_0. by apply reject_lookup.
Qed.
End Renaming.

(** *** Meanings *)

(** The stack of names of a list of locations. *)
Definition stack_meaning (p : GProfile) (ids : list N) : option (list (N * list (fview * Z))) := p_stack_view (psymbols_of p) (mkStacktrace ids).

Definition keeps_str (T T' : list string) (i i' : Z) : Prop := ∀ x, str T i = Some x → str T' i' = Some x.
Definition keeps_type (T T' : list string) (t t' : ValueType) : Prop := keeps_str T T' (vt_Type t) (vt_Type t') ∧ keeps_str T T' (vt_Unit t) (vt_Unit t').
Definition keeps_label (T T' : list string) (l l' : PLabel) : Prop := keeps_str T T' (pl_Key l) (pl_Key l') ∧ keeps_str T T' (pl_NumUnit l) (pl_NumUnit l').
Definition keeps_sample (T T' : list string) (s s' : GSample) : Prop :=
  gs_LocationId s' = gs_LocationId s ∧ gs_Value s' = gs_Value s ∧ Forall2 (keeps_label T T') (gs_Label s) (gs_Label s').

Record keeps (p p' : GProfile) : Prop := {
  kp_samples : Forall2 (keeps_sample (gp_StringTable p) (gp_StringTable p')) (gp_Sample p) (gp_Sample p');
  kp_stacks s v : s ∈ gp_Sample p → stack_meaning p (gs_LocationId s) = Some v → stack_meaning p' (gs_LocationId s) = Some v;
  kp_types : Forall2 (keeps_type (gp_StringTable p) (gp_StringTable p')) (gp_SampleType p) (gp_SampleType p');
  kp_period : option_Forall2 (keeps_type (gp_StringTable p) (gp_StringTable p')) (gp_PeriodType p) (gp_PeriodType p');
  kp_times : gp_TimeNanos p' = gp_TimeNanos p ∧ gp_DurationNanos p' = gp_DurationNanos p ∧ gp_Period p' = gp_Period p }.

Lemma Forall2_refl {A} (Q : relation A) l : (∀ x, Q x x) → Forall2 Q l l.
Proof. intros HQ. induction l; constructor; auto. Qed.

(** Tables of which only the strings, functions and locations that are still needed are left. *)
Lemma stack_meaning_impl (p p' : GProfile) ids v :
  (∀ id l, id ∈ ids → find_id lc_Id (gp_Location p) id = Some l → find_id lc_Id (gp_Location p') id = Some l ∧
    ∀ line f, line ∈ lc_Line l → find_id fn_Id (gp_Function p) (ln_FunctionId line) = Some f →
      ∃ f', find_id fn_Id (gp_Function p') (ln_FunctionId line) = Some f' ∧
        ∀ u, fn_view (gp_StringTable p) f = Some u → fn_view (gp_StringTable p') f' = Some u) →
  stack_meaning p ids = Some v → stack_meaning p' ids = Some v.
Proof.
  intros Hloc. unfold stack_meaning, p_stack_view, stack_view. cbn [st_LocationIDs psymbols_of ps_strings ps_functions ps_locations].
  apply (mapM_impl _ _ (λ a b, a = b ∧ a ∈ ids)).
  - intros id id' u [<- Hid] (l & Hl & Hu)%bind_Some. destruct (Hloc _ _ Hid Hl) as [-> Hlines]. simpl.
    unfold loc_view in *. apply bind_Some in Hu as (lines & Hlv & Hu).
    assert (mapM (line_view (gp_StringTable p') (find_id fn_Id (gp_Function p'))) (lc_Line l) = Some lines) as ->; [|done].
    revert Hlv. apply (mapM_impl _ _ (λ a b, a = b ∧ a ∈ lc_Line l)).
    + intros line line' w [<- Hin]. unfold line_view. intros (f & Hf & (x & Hx & Hw)%bind_Some)%bind_Some.
      destruct (Hlines _ _ Hin Hf) as (f' & -> & Hf'). simpl. by rewrite (Hf' _ Hx).
    + apply Forall2_same_length_lookup. split; [done|]. intros i a b Ha Hb. split; [congruence|by eapply list_elem_of_lookup_2].
  - apply Forall2_same_length_lookup. split; [done|]. intros i a b Ha Hb. split; [congruence|by eapply list_elem_of_lookup_2].
Qed.

(** Only locations, functions and the samples' use of them matter as long as the strings stay. *)
Definition same_strings (p p' : GProfile) : Prop :=
  gp_Sample p' = gp_Sample p ∧ gp_StringTable p' = gp_StringTable p ∧ gp_SampleType p' = gp_SampleType p ∧ gp_PeriodType p' = gp_PeriodType p ∧
  gp_TimeNanos p' = gp_TimeNanos p ∧ gp_DurationNanos p' = gp_DurationNanos p ∧ gp_Period p' = gp_Period p.

Lemma keeps_same p p' : same_strings p p' →
  (∀ s v, s ∈ gp_Sample p → stack_meaning p (gs_LocationId s) = Some v → stack_meaning p' (gs_LocationId s) = Some v) → keeps p p'.
Proof.
  intros (Hs & HT & Hty & Hp & Ht1 & Ht2 & Ht3) Hstack. split; [| |..].
  - rewrite Hs, HT. apply Forall2_refl. intros s. unfold keeps_sample.
    split; [done|]. split; [done|]. apply Forall2_refl. intros l. by split; intros ?.
  - done.
  - rewrite Hty, HT. apply Forall2_refl. intros t. by split; intros ?.
  - rewrite Hp, HT. destruct (gp_PeriodType p); constructor. by split; intros ?.
  - done.
Qed.

Definition uses (p : GProfile) (ids : gset N) : Prop := ∀ s id, s ∈ gp_Sample p → id ∈ gs_LocationId s → id ∈ ids.

Lemma sample_locations_elem samples id : id ∈ sample_locations samples ↔ ∃ s, s ∈ samples ∧ id ∈ gs_LocationId s.
Proof. unfold sample_locations. rewrite elem_of_list_to_set, elem_of_concat. setoid_rewrite list_elem_of_fmap. naive_solver. Qed.

Lemma line_functions_elem locations id : id ∈ line_functions locations ↔ ∃ l line, l ∈ locations ∧ line ∈ lc_Line l ∧ ln_FunctionId line = id.
Proof.
  unfold line_functions. rewrite elem_of_list_to_set, elem_of_concat. setoid_rewrite list_elem_of_fmap. split.
  - intros (? & (l & -> & Hl) & Hid). apply list_elem_of_fmap in Hid as (line & -> & Hline). by exists l, line.
  - intros (l & line & Hl & Hline & <-). exists (ln_FunctionId <$> lc_Line l). split; [by exists l|]. by apply list_elem_of_fmap_2.
Qed.

(** The locations and functions that are left when some that no sample uses are removed. *)
Lemma filtered_meaning (p : GProfile) (locs fns : gset N) (ids : list N) v :
  (∀ id, id ∈ ids → id ∉ locs) →
  (∀ l line, l ∈ filter (λ l, ¬ lc_Id l ∈ locs) (gp_Location p) → line ∈ lc_Line l → ln_FunctionId line ∉ fns) →
  stack_meaning p ids = Some v →
  stack_meaning (with_symbols p (gp_Mapping p) (filter (λ l, ¬ lc_Id l ∈ locs) (gp_Location p)) (filter (λ f, ¬ fn_Id f ∈ fns) (gp_Function p))) ids = Some v.
Proof.
  intros Hids Hfns. apply stack_meaning_impl. intros id l Hid Hl. cbn [gp_Location gp_Function gp_StringTable with_symbols].
  rewrite find_id_filter by auto. split; [done|]. intros line f Hline Hf.
  assert (l ∈ filter (λ l, ¬ lc_Id l ∈ locs) (gp_Location p)) as Hin.
  { apply list_elem_of_filter. apply find_id_Some in Hl as [? <-]. auto. }
  rewrite find_id_filter by eauto. by exists f.
Qed.

(** Renaming: every string that a visited reference names is still what the reference names. *)
Section Visited.
Context (p : GProfile) (fn : Z → Z) (T' : list string) (refs : list Z).
Context (Hrefs : visit_refs p = Ret refs) (Hfn : ∀ idx, idx ∈ refs → keeps_str (gp_StringTable p) T' idx (fn idx)).

Definition with_strings (q : GProfile) (T : list string) : GProfile :=
  mkGProfile (gp_SampleType q) (gp_Sample q) (gp_Mapping q) (gp_Location q) (gp_Function q) T (gp_DropFrames q) (gp_KeepFrames q) (gp_TimeNanos q)
    (gp_DurationNanos q) (gp_PeriodType q) (gp_Period q) (gp_Comment q) (gp_DefaultSampleType q).

Lemma visited_keeps : ∃ p', visit_map fn (with_strings p T') = Ret p' ∧ keeps p p'.
Proof.
  unfold visit_refs in Hrefs. destruct (gp_PeriodType p) as [period|] eqn:Hp; [|done]. cbn [of_option obind] in Hrefs. injection Hrefs as Hr.
  unfold visit_map. cbn [with_strings gp_PeriodType]. rewrite Hp. cbn [of_option obind]. eexists. split; [reflexivity|].
  assert (∀ f, f ∈ gp_Function p → ∀ u, fn_view (gp_StringTable p) f = Some u → fn_view T' (visit_function fn f) = Some u) as Hview.
  { intros f Hf u (Hn & Hs & Hfile & Hstart)%fn_view_Some. apply fn_view_Some. cbn [visit_function fn_Name fn_SystemName fn_Filename fn_StartLine].
    split_and!; [| | |done]; (apply Hfn; [|done]); rewrite <- Hr, !elem_of_cons, !elem_of_app; do 7 right; left; apply elem_of_concat;
      (eexists; split; [by apply (list_elem_of_fmap_2 _ _ _ Hf)|]); rewrite !elem_of_cons; auto. }
  split; cbn [with_strings gp_Sample gp_StringTable gp_SampleType gp_PeriodType gp_TimeNanos gp_DurationNanos gp_Period].
  - apply Forall2_fmap_r, Forall_Forall2_diag, Forall_forall. intros s Hs. split; [done|]. split; [done|]. cbn [visit_sample gs_Label].
    apply Forall2_fmap_r, Forall_Forall2_diag, Forall_forall. intros l Hl.
    assert (∀ i, i ∈ [pl_Key l; pl_Num l; pl_NumUnit l] → i ∈ refs) as Hin.
    { intros i Hi. rewrite <- Hr, !elem_of_cons, !elem_of_app. do 6 right. left. apply elem_of_concat. eexists. split; [by apply (list_elem_of_fmap_2 _ _ _ Hs)|].
      apply elem_of_concat. eexists. split; [by apply (list_elem_of_fmap_2 _ _ _ Hl)|done]. }
    split; apply Hfn, Hin; rewrite !elem_of_cons; auto.
  - intros s v Hs. apply stack_meaning_impl. intros id l _ Hl. cbn [with_strings gp_Location gp_Function gp_StringTable]. split; [done|].
    intros line f _ Hf. exists (visit_function fn f). rewrite find_id_fmap by done. rewrite Hf. split; [done|].
    intros u. apply Hview. by apply find_id_Some in Hf as [? _].
  - apply Forall2_fmap_r, Forall_Forall2_diag, Forall_forall. intros t Ht.
    split; apply Hfn; rewrite <- Hr, !elem_of_cons, !elem_of_app; do 4 right; left; apply elem_of_concat; (eexists; split; [by apply (list_elem_of_fmap_2 _ _ _ Ht)|]); rewrite !elem_of_cons; auto.
  - rewrite Hp. constructor. split; apply Hfn; rewrite <- Hr, !elem_of_cons; auto.
  - done.
Qed.
End Visited.

Lemma keeps_trans_same p q r : same_strings p q →
  (∀ s v, s ∈ gp_Sample p → stack_meaning p (gs_LocationId s) = Some v → stack_meaning q (gs_LocationId s) = Some v) → keeps q r → keeps p r.
Proof.
  intros (Hs & HT & Hty & Hp & Ht1 & Ht2 & Ht3) Hstack [Ks Kst Kty Kp Kt]. split.
  - by rewrite <- Hs, <- HT.
  - intros s v Hin Hv. apply Kst; [by rewrite Hs|by apply Hstack].
  - by rewrite <- Hty, <- HT.
  - by rewrite <- Hp, <- HT.
  - destruct Kt as (? & ? & ?). split_and!; congruence.
Qed.

(** *** Clearing references *)

Lemma removed_names_from (fns : list Function) : ∀ (names : gset Z) r,
  r ∈ foldl (λ names f, names ∪ {[fn_Name f]} ∪ {[fn_SystemName f]} ∪ {[fn_Filename f]}) names fns →
  r ∈ names ∨ ∃ f, f ∈ fns ∧ (r = fn_Name f ∨ r = fn_SystemName f ∨ r = fn_Filename f).
Proof.
  induction fns as [|f fns IH]; intros names r Hr; [by left|]. apply IH in Hr as [Hr|(g & Hg & ?)].
  - rewrite !elem_of_union, !elem_of_singleton in Hr. destruct Hr as [[[?| ->]| ->]| ->]; [by left|..]; right; exists f; (split; [by constructor|auto]).
  - right. exists g. split; [by constructor|done].
Qed.

Lemma str_nonneg T i : is_Some (str T i) → (0 ≤ i)%Z.
Proof. unfold str. intros [x Hx]. destruct (i <? 0)%Z eqn:E; [done|go_arith]. Qed.

Lemma fn_view_nonneg T f r : is_Some (fn_view T f) → r = fn_Name f ∨ r = fn_SystemName f ∨ r = fn_Filename f → (0 ≤ r)%Z.
Proof. intros [v (? & ? & ? & _)%fn_view_Some] [->|[->| ->]]; by eapply str_nonneg. Qed.

Section Clear.
Context (p : GProfile).
Context (Hfns : Forall (λ f, is_Some (fn_view (gp_StringTable p) f)) (gp_Function p)).
Context (Hlen : (N.of_nat (length (gp_StringTable p)) < 2 ^ 63)%N) (Hperiod : is_Some (gp_PeriodType p)).

Lemma keeps_self : keeps p p.
Proof. apply keeps_same; [by unfold same_strings|done]. Qed.

(** Dropping locations no sample has, and functions no location that is left has. *)
Lemma keeps_filtered locs (fns : gset N) : locs ## sample_locations (gp_Sample p) →
  (∀ l line, l ∈ filter (λ l, ¬ lc_Id l ∈ locs) (gp_Location p) → line ∈ lc_Line l → ln_FunctionId line ∉ fns) →
  ∀ s v, s ∈ gp_Sample p → stack_meaning p (gs_LocationId s) = Some v →
  stack_meaning (with_symbols p (gp_Mapping p) (filter (λ l, ¬ lc_Id l ∈ locs) (gp_Location p)) (filter (λ f, ¬ fn_Id f ∈ fns) (gp_Function p))) (gs_LocationId s) = Some v.
Proof.
  intros Hlocs Hlines s v Hs. apply filtered_meaning; [|done]. intros id Hid Hin. apply (Hlocs id Hin). apply sample_locations_elem. by exists s.
Qed.

Lemma remove_names_keeps (q : GProfile) (names : gset Z) refs :
  same_strings p q → (∀ s v, s ∈ gp_Sample p → stack_meaning p (gs_LocationId s) = Some v → stack_meaning q (gs_LocationId s) = Some v) →
  visit_refs q = Ret refs → (∀ r, r ∈ names → (0 ≤ r)%Z) → (∀ r, r ∈ names → r ∉ refs) →
  ∃ p', remove_names names q = Ret p' ∧ keeps p p'.
Proof.
  intros Hsame Hstack Hrefs Hpos Hout. pose proof Hsame as (_ & HT & _).
  destruct (visited_keeps q (λ idx, i64 (idx - shift names idx)) (reject_strings names (gp_StringTable q)) refs Hrefs) as (p' & Hp' & Hkeeps).
  - intros idx Hidx x Hx. apply renamed_str; [done|by rewrite HT| |done]. intros Hin. by apply (Hout idx).
  - exists p'. split; [exact Hp'|]. by eapply keeps_trans_same.
Qed.

Lemma clear_keeps removed : ∃ p', clearSampleReferences removed p = Ret p' ∧ keeps p p'.
Proof.
  unfold clearSampleReferences. case_decide; [exists p; split; [done|apply keeps_self]|].
  set (locs := sample_locations removed ∖ sample_locations (gp_Sample p)). case_decide; [exists p; split; [done|apply keeps_self]|].
  assert (locs ## sample_locations (gp_Sample p)) as Hlocs by set_solver.
  unfold remove_location. rewrite RemoveInPlace_filter. cbn [obind]. set (left := filter (λ l, ¬ lc_Id l ∈ locs) (gp_Location p)).
  set (fns := foldl _ _ _). case_decide as Hnone.
  { eexists. split; [reflexivity|]. apply keeps_same; [by unfold same_strings|]. pose proof (keeps_filtered locs ∅ Hlocs) as Hk.
    rewrite (filter_all _ (gp_Function p)) in Hk by set_solver. apply Hk. set_solver. }
  clear Hnone. unfold remove_function. rewrite RemoveInPlace_filter. cbn [obind]. set (names := foldl _ _ _).
  assert (∀ r, r ∈ names → (0 ≤ r)%Z) as Hpos.
  { intros r [?%elem_of_empty|(f & Hf & Hr)]%removed_names_from; [done|]. apply list_elem_of_filter in Hf as [_ Hf].
    rewrite Forall_forall in Hfns. by eapply fn_view_nonneg; [apply Hfns|]. }
  pose proof (keeps_filtered locs (fns ∖ line_functions left) Hlocs) as Hk.
  assert (∀ l line, l ∈ left → line ∈ lc_Line l → ln_FunctionId line ∉ fns ∖ line_functions left) as Hlines.
  { intros l line Hl Hline [_ Hout]%elem_of_difference. apply Hout, line_functions_elem. by exists l, line. }
  specialize (Hk Hlines). set (q := with_symbols _ _ _ _). case_decide; [exists q; split; [done|apply keeps_same; [by unfold same_strings|exact Hk]]|].
  assert (∃ refs, visit_refs q = Ret refs) as [refs Hrefs] by (unfold visit_refs; destruct Hperiod as [t Ht]; cbn [q with_symbols gp_PeriodType]; rewrite Ht; by eexists).
  rewrite Hrefs. cbn [obind]. case_decide; [exists q; split; [done|apply keeps_same; [by unfold same_strings|exact Hk]]|].
  apply (remove_names_keeps q _ refs); [by unfold same_strings|exact Hk|done|set_solver|]. intros r [_ Hr]%elem_of_difference Hin. apply Hr. by apply elem_of_list_to_set.
Qed.
End Clear.

(** *** Mappings *)

Lemma ensureHasMapping_same p : same_strings p (ensureHasMapping p).
Proof. by unfold same_strings. Qed.

Lemma ensureHasMapping_stacks p ids v : stack_meaning p ids = Some v → stack_meaning (ensureHasMapping p) ids = Some v.
Proof.
  unfold stack_meaning, p_stack_view, stack_view. cbn [st_LocationIDs psymbols_of ps_strings ps_functions ps_locations ensureHasMapping with_symbols gp_StringTable gp_Function gp_Location].
  set (fake := mkMapping _ _ _ _ _ _ _ _ _ _). apply (mapM_impl _ _ eq); [|by apply Forall2_refl].
  intros id _ u <- (l & Hl & Hu)%bind_Some. rewrite find_id_fmap by (intros x; by case_if_eq). rewrite Hl. simpl. case_if_eq; exact Hu.
Qed.


Lemma kept_sum_at T T' stack j l k : Forall2 (keeps_sample T T') l k → sum_at stack j k = sum_at stack j l.
Proof. induction 1 as [|s s' l k (Hl & Hv & _) _ IH]; [done|]. simpl. unfold value_at. by rewrite Hl, Hv, IH. Qed.

Lemma kept_stacks T T' l k : Forall2 (keeps_sample T T') l k → gs_LocationId <$> k = gs_LocationId <$> l.
Proof. induction 1 as [|s s' l k (Hl & _) _ IH]; [done|]. rewrite !fmap_cons. by f_equal. Qed.

Lemma kept_nonzero T T' l k : Forall2 (keeps_sample T T') l k → Forall has_value l → Forall has_value k.
Proof.
  induction 1 as [|s s' l k (_ & Hv & _) _ IH]; [done|]. intros [[j Hj] Hl]%Forall_cons. constructor; [|by apply IH].
  exists j. unfold value_at in *. by rewrite Hv.
Qed.

(** C3: Normalising a well-formed profile with a period type, when no two of its stacks have the same hash.  It ends
    without a panic; for every stack the sums of its values, one by one and as 64-bit integers, are those of the
    profile; each stack has one sample, and none is empty; every stack that is left names the same functions, files
    and lines as before, although locations, functions and strings were removed and references renumbered, and so do
    the types of the samples and of the period; a profile without a time gets the current one. *)
Theorem Normalize_correct (Sum64 : list N → N) (now : Z) (p : GProfile)
    (Hwf : gprofile_wf p) (Hperiod : is_Some (gp_PeriodType p))
    (Hinj : ∀ a b, a ∈ gp_Sample p → b ∈ gp_Sample p → stack_hash Sum64 (gs_LocationId a) = stack_hash Sum64 (gs_LocationId b) → gs_LocationId a = gs_LocationId b) :
  ∃ p', Normalize Sum64 now p = Ret p' ∧
    (∀ stack j, i64 (sum_at stack j (gp_Sample p')) = i64 (sum_at stack j (gp_Sample p))) ∧
    NoDup (gs_LocationId <$> gp_Sample p') ∧ Forall has_value (gp_Sample p') ∧
    (∀ s, s ∈ gp_Sample p' → is_Some (stack_meaning p (gs_LocationId s)) ∧ stack_meaning p' (gs_LocationId s) = stack_meaning p (gs_LocationId s)) ∧
    Forall2 (keeps_type (gp_StringTable p) (gp_StringTable p')) (gp_SampleType p) (gp_SampleType p') ∧
    option_Forall2 (keeps_type (gp_StringTable p) (gp_StringTable p')) (gp_PeriodType p) (gp_PeriodType p') ∧
    gp_TimeNanos p' = (if (gp_TimeNanos p =? 0)%Z then now else gp_TimeNanos p).
Proof.
  destruct Hwf as [Hsym _ _ _ Hlabels Hvalues _ _]. unfold Normalize.
  destruct (dedup_samples_spec Sum64 (gp_StringTable p) (length (gp_SampleType p)) (gp_Sample p)) as (kept & removed & Hdedup & [Hfrom Hsorted Hsums]); [|done|].
  { rewrite Forall_forall in Hlabels, Hvalues |- *. intros s Hs. split; [by apply Hvalues|]. eapply Forall_impl; [by apply Hlabels|]. by intros l (? & _). }
  cbn [ensureHasMapping with_symbols gp_Sample gp_StringTable] in *. rewrite Hdedup. cbn [obind].
  set (q := with_kept (ensureHasMapping p) _ kept). destruct (clear_keeps q (wf_functions _ Hsym) (wf_strings _ Hsym) Hperiod removed) as (p' & Hp' & [Ks Kst Kty Kp (Kt & _)]).
  exists p'. split; [exact Hp'|]. split_and!; [| | | |done|done|done].
  - intros stack j. rewrite (kept_sum_at _ _ stack j _ _ Ks). apply Hsums.
  - rewrite (kept_stacks _ _ _ _ Ks). cbn [q with_kept gp_Sample]. apply (NoDup_fmap_1 (stack_hash Sum64)).
    rewrite <- list_fmap_compose. by apply StronglySorted_lt_NoDup.
  - eapply kept_nonzero; [exact Ks|]. eapply Forall_impl; [exact Hfrom|]. by intros s [_ ?].
  - intros s' Hs'. assert (gs_LocationId s' ∈ gs_LocationId <$> kept) as Hin.
    { pose proof (kept_stacks _ _ _ _ Ks) as Hk. cbn [q with_kept gp_Sample] in Hk. rewrite <- Hk. by apply list_elem_of_fmap_2. }
    apply list_elem_of_fmap in Hin as (s & Heq & Hs). rewrite Heq. rewrite Forall_forall in Hfrom. destruct (Hfrom _ Hs) as [(s0 & Hs0 & Hloc & _) _].
    assert (is_Some (stack_meaning p (gs_LocationId s))) as [v Hv].
    { rewrite Hloc. pose proof (wf_stacks _ Hsym) as Hst. rewrite Forall_forall in Hst. apply (Hst (mkStacktrace (gs_LocationId s0))). apply list_elem_of_fmap. by exists s0. }
    rewrite Hv. split; [done|]. apply (Kst s v Hs). by apply (ensureHasMapping_stacks p).
Qed.

(** ** The repository's example, and references that are not visited *)

Definition ex_sum (bytes : list N) : N := foldl (λ h b, 257 * h + b + 1)%N 0%N bytes.
Definition ex_loc (id : N) (lines : list (N * Z)) : Location := mkLocation id 0 0 ((λ l, mkLine l.1 l.2) <$> lines) false.
Definition ex_label (key num : Z) : PLabel := mkPLabel key 0 num 0.

Definition test_profile : GProfile :=
  mkGProfile [mkValueType 2 1; mkValueType 3 4]
    [mkGSample [2; 3]%N [0; 1]%Z [ex_label 1 10; ex_label 1 11]; mkGSample [1; 2; 3]%N [0; 0]%Z [ex_label 1 10]; mkGSample [4]%N [0; 0]%Z [ex_label 1 10]]
    [] [ex_loc 1 [(1%N, 1%Z); (2%N, 3%Z)]; ex_loc 2 [(2%N, 1%Z); (3%N, 3%Z)]; ex_loc 3 [(3%N, 1%Z); (4%N, 3%Z)]; ex_loc 4 [(5%N, 1%Z)]]
    [mkFunction 1 5 6 7 1; mkFunction 2 8 9 10 1; mkFunction 3 11 12 13 1; mkFunction 4 14 15 7 1; mkFunction 5 16 17 18 1]
    ["memory"; "bytes"; "in_used"; "allocs"; "count"; "main"; "runtime.main"; "main.go"; "foo"; "runtime.foo"; "foo.go"; "bar"; "runtime.bar"; "bar.go";
     "buzz"; "runtime.buzz"; "bla"; "runtime.bla"; "bla.go"]
    0 0 0 0 (Some (mkValueType 0 1)) 0 [] 0.

(** [TestNormalizeProfile]. *)
Example Normalize_example :
  Normalize ex_sum 1577836800000000000 test_profile = Ret
    (mkGProfile [mkValueType 2 1; mkValueType 3 4] [mkGSample [2; 3]%N [0; 1]%Z []]
      [mkMapping 1 0 (2 ^ 64 - 1) 0 0 0 false false false false]
      [mkLocation 2 1 0 [mkLine 2 1; mkLine 3 3] false; mkLocation 3 1 0 [mkLine 3 1; mkLine 4 3] false]
      [mkFunction 2 6 7 8 1; mkFunction 3 9 10 11 1; mkFunction 4 12 13 5 1]
      ["memory"; "bytes"; "in_used"; "allocs"; "count"; "main.go"; "foo"; "runtime.foo"; "foo.go"; "bar"; "runtime.bar"; "bar.go"; "buzz"; "runtime.buzz"]
      0 0 1577836800000000000 0 (Some (mkValueType 0 1)) 0 [] 0).
Proof. vm_compute. reflexivity. Qed.

(** A sample of one function with a label whose value is the string 3, next to an empty sample of another function;
    the profile says that its first type, of name 4, is the default. *)
Definition labelled_profile : GProfile :=
  mkGProfile [mkValueType 4 4] [mkGSample [1]%N [7]%Z [mkPLabel 4 3 0 0; mkPLabel 4 0 3 0]; mkGSample [2]%N [0]%Z []] []
    [ex_loc 1 [(1%N, 1%Z)]; ex_loc 2 [(2%N, 1%Z)]] [mkFunction 1 1 1 1 0; mkFunction 2 2 2 2 0]
    [""; "kept"; "gone"; "value"; "key"] 0 0 1 0 (Some (mkValueType 0 0)) 0 [] 4.

(** The string of the first label, the number of the second one and the default type are not what they were. *)
Lemma label_string_lost :
  ∃ p', Normalize ex_sum 0 labelled_profile = Ret p' ∧ gp_StringTable p' = [""; "kept"; "value"; "key"] ∧
    gp_Sample p' = [mkGSample [1]%N [7]%Z [mkPLabel 3 3 0 0; mkPLabel 3 0 2 0]] ∧ gp_SampleType p' = [mkValueType 3 3] ∧ gp_DefaultSampleType p' = 4%Z.
Proof. eexists. split; [vm_compute; reflexivity|]. by split_and!. Qed.

(** A profile without a period type is normalised as long as no name goes, and panics when one does. *)
Lemma no_period_panics :
  Normalize ex_sum 0 (mkGProfile [] (gp_Sample labelled_profile) [] (gp_Location labelled_profile) (gp_Function labelled_profile) (gp_StringTable labelled_profile)
    0 0 1 0 None 0 [] 0) = Panic.
Proof. vm_compute. reflexivity. Qed.

Lemma test_profile_wf : gprofile_wf test_profile.
Proof.
  split.
  - split; [vm_compute; reflexivity|vm_compute; reflexivity|by repeat constructor| | | | | |];
      try (split; [vm_compute; repeat (constructor; [set_solver|]); constructor|repeat constructor]);
      repeat (apply Forall_cons_2 || apply Forall_nil_2); try (split; [|done]); vm_compute; by eexists.
  - repeat constructor; vm_compute; by eexists.
  - split; vm_compute; by eexists.
  - split_and!; [vm_compute; by eexists|vm_compute; by eexists|constructor].
  - repeat constructor; vm_compute; by eexists.
  - repeat constructor.
  - done.
  - done.
Qed.

Lemma Normalize_correct_witness :
  ∃ p', Normalize ex_sum 5 test_profile = Ret p' ∧
    (∀ stack j, i64 (sum_at stack j (gp_Sample p')) = i64 (sum_at stack j (gp_Sample test_profile))) ∧
    NoDup (gs_LocationId <$> gp_Sample p') ∧ Forall has_value (gp_Sample p') ∧
    (∀ s, s ∈ gp_Sample p' → is_Some (stack_meaning test_profile (gs_LocationId s)) ∧ stack_meaning p' (gs_LocationId s) = stack_meaning test_profile (gs_LocationId s)) ∧
    Forall2 (keeps_type (gp_StringTable test_profile) (gp_StringTable p')) (gp_SampleType test_profile) (gp_SampleType p') ∧
    option_Forall2 (keeps_type (gp_StringTable test_profile) (gp_StringTable p')) (gp_PeriodType test_profile) (gp_PeriodType p') ∧
    gp_TimeNanos p' = 5%Z.
Proof.
  apply (Normalize_correct ex_sum 5 test_profile); [apply test_profile_wf|by eexists|].
  intros a b Ha Hb. cbn [gp_Sample test_profile] in Ha, Hb. rewrite !elem_of_cons, elem_of_nil in Ha, Hb.
  destruct Ha as [->|[->|[->|[]]]], Hb as [->|[->|[->|[]]]]; vm_compute; congruence.
Defined.
