(* ===== verification/Distributor.v ===== *)
(** * The distributor (src/pkg/distributor/distributor.go)

    A pushed series is normalised, its ingesters are found on the ring, and every ingester is sent the series it
    replicates, each in a goroutine of its own.  Atomic counters per series and one per push decide when enough
    ingesters have accepted every series, or too many have refused one.  The goroutines are a step relation in which
    every atomic operation is a step.  The ring, RPC, uuids, the hash of profiles and their encoding are parameters. *)

From S2P Require Import Prelude Labels Symbols Head Pprof.

(** ** Tokens *)

(** [fnv.New32]: every byte is multiplied in and then exclusive-ored. *)
Definition fnv32 (bytes : list N) : N := foldl (λ h b, N.lxor (u32 (h * 16777619)) b) 2166136261%N bytes.

Fixpoint bytes_of (s : string) : list N :=
  match s with
  | EmptyString => []
  | String c s => Ascii.N_of_ascii c :: bytes_of s
  end.

Definition TokenFor (tenantID labels : string) : N := fnv32 (bytes_of tenantID ++ bytes_of labels).

(** [Quote] is [strconv.Quote]. *)
Definition labelsString (Quote : string → string) (ls : Labels) : string :=
  let pair (l : LabelPair) := Name l +:+ "=" +:+ Quote (Value l) in
  let rest := foldr (λ l s, ", " +:+ pair l +:+ s) EmptyString in
  "{" +:+ match ls with [] => EmptyString | l :: ls => pair l +:+ rest ls end +:+ "}".

(** ** What is pushed *)

Record RawSample := mkRawSample { rw_RawProfile : list N; rw_ID : string }.
Record RawProfileSeries := mkRawSeries { rs_Labels : Labels; rs_Samples : list RawSample }.

(** What the ring says of a key: the addresses of the instances. *)
Record ReplicationSet := mkReplicationSet { rp_Instances : list string; rp_MaxErrors : Z }.

Record profileTracker := mkTracker { tk_minSuccess : Z; tk_maxFailures : Z; tk_succeeded : Z; tk_failed : Z }.

Section Prepare.
Context (RawFromBytes : list N → outcome GProfile) (WriteTo : GProfile → outcome (list N)) (Sum64 : list N → N) (now : Z) (NewString : nat → string).
Context (Quote : string → string) (ring_Get : N → outcome ReplicationSet).

(** Profiles are normalised and get new identities, [n] of which are in use. *)
Fixpoint prepare_samples (n : nat) (samples : list RawSample) : outcome (list RawSample * nat) :=
  match samples with
  | [] => Ret ([], n)
  | raw :: samples =>
      obind (RawFromBytes (rw_RawProfile raw)) (λ p,
      obind (Normalize Sum64 now p) (λ p,
      obind (WriteTo p) (λ b,
      obind (prepare_samples (S n) samples) (λ '(samples, m), Ret (mkRawSample b (NewString n) :: samples, m)))))
  end.

Fixpoint prepare_series (n : nat) (series : list RawProfileSeries) : outcome (list RawProfileSeries) :=
  match series with
  | [] => Ret []
  | s :: series =>
      obind (prepare_samples n (rs_Samples s)) (λ '(samples, n),
      obind (prepare_series n series) (λ series, Ret (mkRawSeries (rs_Labels s) samples :: series)))
  end.

(** [samplesByIngester]: the series, by position, of every address. *)
Definition add_profile (i : nat) (m : gmap string (list nat)) (addr : string) : gmap string (list nat) := <[addr := default [] (m !! addr) ++ [i]]> m.

(** The ring is asked for the keys one after the other. *)
Fixpoint place (i : nat) (keys : list N) (m : gmap string (list nat)) : outcome (list profileTracker * gmap string (list nat)) :=
  match keys with
  | [] => Ret ([], m)
  | key :: keys =>
      obind (ring_Get key) (λ set,
      let tracker := mkTracker (Z.of_nat (length (rp_Instances set)) - rp_MaxErrors set) (rp_MaxErrors set) 0 0 in
      obind (place (S i) keys (foldl (add_profile i) m (rp_Instances set))) (λ '(trackers, m), Ret (tracker :: trackers, m)))
  end.
End Prepare.

(** ** Goroutines *)

(** Where a goroutine is in [sendProfiles]: between two series, after the counter of a series has passed its bound,
    or before it sends on a channel. *)
Inductive point := Idle | Deciding | Sending.

(** The goroutine of an ingester: the answer once there is one ([Some None] is success), the series that were
    counted_for and those that were not. *)
Record sender := mkSender { sd_reply : option (option string); sd_done : list nat; sd_rest : list nat; sd_point : point }.

Record pushTracker := mkPush {
  pt_trackers : list profileTracker; pt_samplesPending : Z; pt_samplesFailed : Z;
  pt_done : nat; pt_err : list string; pt_senders : list sender }.

(** What is counted when a goroutine comes to a series, and whether it goes on to the counter of the push. *)
Definition count_answer (err : option string) (k : profileTracker) : profileTracker * bool :=
  match err with
  | Some _ =>
      let failed := (tk_failed k + 1)%Z in
      (mkTracker (tk_minSuccess k) (tk_maxFailures k) (tk_succeeded k) failed, negb (failed <=? tk_maxFailures k)%Z)
  | None =>
      let succeeded := (tk_succeeded k + 1)%Z in
      (mkTracker (tk_minSuccess k) (tk_maxFailures k) succeeded (tk_failed k), (succeeded =? tk_minSuccess k)%Z)
  end.

(** The counter of the push, and whether the goroutine goes on to a channel. *)
Definition decide_push (err : option string) (pending failed : Z) : Z * Z * bool :=
  match err with
  | Some _ => (pending, failed + 1, (failed + 1 =? 1))%Z
  | None => (pending - 1, failed, (pending - 1 =? 0))%Z
  end.

(** One atomic operation of one goroutine. *)
Inductive step : pushTracker → pushTracker → Prop :=
  | step_reply ks p f d e ss i rest r :
      ss !! i = Some (mkSender None [] rest Idle) →
      step (mkPush ks p f d e ss) (mkPush ks p f d e (<[i := mkSender (Some r) [] rest Idle]> ss))
  | step_count ks p f d e ss i r dn t rest k :
      ss !! i = Some (mkSender (Some r) dn (t :: rest) Idle) → ks !! t = Some k →
      step (mkPush ks p f d e ss)
        (mkPush (<[t := (count_answer r k).1]> ks) p f d e (<[i := mkSender (Some r) (t :: dn) rest (if (count_answer r k).2 then Deciding else Idle)]> ss))
  | step_decide ks p f d e ss i r dn rest :
      ss !! i = Some (mkSender (Some r) dn rest Deciding) →
      step (mkPush ks p f d e ss)
        (let '(p', f', send) := decide_push r p f in mkPush ks p' f' d e (<[i := mkSender (Some r) dn rest (if send then Sending else Idle)]> ss))
  | step_send_done ks p f e ss i dn rest :
      ss !! i = Some (mkSender (Some None) dn rest Sending) →
      step (mkPush ks p f 0 e ss) (mkPush ks p f 1 e (<[i := mkSender (Some None) dn rest Idle]> ss))
  | step_send_err ks p f d ss i er dn rest :
      ss !! i = Some (mkSender (Some (Some er)) dn rest Sending) →
      step (mkPush ks p f d [] ss) (mkPush ks p f d [er] (<[i := mkSender (Some (Some er)) dn rest Idle]> ss)).

(** The next operation of one goroutine as a function; [r] is what its ingester answers when it has not yet. *)
Definition go (i : nat) (r : option string) (s : pushTracker) : option pushTracker :=
  let '(mkPush ks p f d e ss) := s in
  match ss !! i with
  | Some (mkSender None [] rest Idle) => Some (mkPush ks p f d e (<[i := mkSender (Some r) [] rest Idle]> ss))
  | Some (mkSender (Some r) dn (t :: rest) Idle) =>
      k ← ks !! t;
      Some (mkPush (<[t := (count_answer r k).1]> ks) p f d e (<[i := mkSender (Some r) (t :: dn) rest (if (count_answer r k).2 then Deciding else Idle)]> ss))
  | Some (mkSender (Some r) dn rest Deciding) =>
      Some (let '(p', f', send) := decide_push r p f in mkPush ks p' f' d e (<[i := mkSender (Some r) dn rest (if send then Sending else Idle)]> ss))
  | Some (mkSender (Some None) dn rest Sending) => if d is 0 then Some (mkPush ks p f 1 e (<[i := mkSender (Some None) dn rest Idle]> ss)) else None
  | Some (mkSender (Some (Some er)) dn rest Sending) => if e is [] then Some (mkPush ks p f d [er] (<[i := mkSender (Some (Some er)) dn rest Idle]> ss)) else None
  | _ => None
  end.

(** Goroutines in the order of a schedule. *)
Definition schedule (l : list (nat * option string)) (s : pushTracker) : option pushTracker := foldl (λ s x, s ≫= go x.1 x.2) (Some s) l.

(** The start of a push; the goroutines start in any order. *)
Definition start (ks : list profileTracker) (samples : list (list nat)) : pushTracker :=
  mkPush ks (Z.of_nat (length ks)) 0 0 [] ((λ rest, mkSender None [] rest Idle) <$> samples).

(** What the caller may return: [inl] is success, and the third way out is its context. *)
Inductive returns (s : pushTracker) : (unit + string) → Prop :=
  | returns_done : 0 < pt_done s → returns s (inl ())
  | returns_err e : e ∈ pt_err s → returns s (inr e).

Lemma go_step i r s s' : go i r s = Some s' → step s s'.
Proof.
  destruct s as [ks p f d e ss]. unfold go. destruct (ss !! i) as [[[r'|] dn rest x]|] eqn:Hi; [|destruct dn, x; try done; intros [= <-]; by constructor|done].
  destruct x; [|destruct r', rest; intros [= <-]; exact (step_decide _ _ _ _ _ _ _ _ _ _ Hi)|].
  - destruct rest as [|t rest]; [by destruct r'|]. destruct (ks !! t) as [k|] eqn:Hk; [|by destruct r']. destruct r'; intros [= <-]; exact (step_count _ _ _ _ _ _ _ _ _ _ _ _ Hi Hk).
  - destruct r' as [er|], rest; [destruct e|destruct e|destruct d|destruct d]; try done; intros [= <-]; by constructor.
Qed.

Lemma schedule_steps l s s' : schedule l s = Some s' → rtc step s s'.
Proof.
  revert s. unfold schedule. induction l as [|[i r] l IH]; simpl; intros s H; [injection H as ->; done|]. destruct (go i r s) as [s1|] eqn:E.
  - eapply rtc_l; [by eapply go_step|by apply IH].
  - exfalso. clear -H. induction l; [done|auto].
Qed.

(** The request that an ingester is sent: the series of its goroutine. *)
Definition push_request (series : list RawProfileSeries) (profiles : list nat) : list RawProfileSeries := omap (series !!.) profiles.

(** A push up to the start of its goroutines: the series as they are sent, the counters, and the series of every address. *)
Section Push.
Context (RawFromBytes : list N → outcome GProfile) (WriteTo : GProfile → outcome (list N)) (Sum64 : list N → N) (now : Z) (NewString : nat → string).
Context (Quote : string → string) (ring_Get : N → outcome ReplicationSet).

Definition push_keys (tenantID : string) (series : list RawProfileSeries) : list N := (λ s, TokenFor tenantID (labelsString Quote (rs_Labels s))) <$> series.

Definition Push (tenantID : string) (series : list RawProfileSeries) : outcome (list RawProfileSeries * pushTracker * list (string * list nat)) :=
  obind (prepare_series RawFromBytes WriteTo Sum64 now NewString 0 series) (λ sent,
  obind (place ring_Get 0 (push_keys tenantID series) ∅) (λ '(ks, m),
  Ret (sent, start ks (map_to_list m).*2, map_to_list m))).

(** Every sample that is sent is a normalised one under a new identity. *)
Definition sent_sample (raw sent : RawSample) : Prop := ∃ p q n, RawFromBytes (rw_RawProfile raw) = Ret p ∧ Normalize Sum64 now p = Ret q ∧
  WriteTo q = Ret (rw_RawProfile sent) ∧ rw_ID sent = NewString n.

Lemma prepare_samples_spec samples : ∀ n sent m, prepare_samples RawFromBytes WriteTo Sum64 now NewString n samples = Ret (sent, m) →
  Forall2 sent_sample samples sent ∧ m = n + length samples ∧ rw_ID <$> sent = NewString <$> seq n (length samples).
Proof.
  induction samples as [|raw samples IH]; simpl; intros n sent m H; [injection H as <- <-; split_and!; [constructor|lia|done]|].
  apply obind_ret in H as (p & Hp & (q & Hq & (b & Hb & ([rest m'] & Hr & [= <- <-])%obind_ret)%obind_ret)%obind_ret).
  destruct (IH _ _ _ Hr) as (Hsent & -> & Hids). split_and!; [|lia|by rewrite fmap_cons, Hids].
  constructor; [by exists p, q, n|done].
Qed.

Lemma prepare_series_spec series : ∀ n sent, prepare_series RawFromBytes WriteTo Sum64 now NewString n series = Ret sent →
  Forall2 (λ s t, rs_Labels t = rs_Labels s ∧ Forall2 sent_sample (rs_Samples s) (rs_Samples t)) series sent ∧
  rw_ID <$> concat (rs_Samples <$> sent) = NewString <$> seq n (length (concat (rs_Samples <$> series))).
Proof.
  induction series as [|s series IH]; simpl; intros n sent H; [injection H as <-; split; [constructor|done]|].
  apply obind_ret in H as ([samples m] & Hs & (rest & Hr & [= <-])%obind_ret). destruct (prepare_samples_spec _ _ _ _ Hs) as (Hsent & -> & Hids).
  destruct (IH _ _ Hr) as [Hrest Hrids]. split; [by constructor|].
  rewrite !fmap_cons. cbn [concat rs_Samples]. by rewrite fmap_app, Hids, Hrids, length_app, seq_app, fmap_app.
Qed.
End Push.

(** ** Sums *)

Definition sumz {A} (f : A → Z) (l : list A) : Z := foldr (λ x t, f x + t)%Z 0%Z l.

Lemma sumz_app {A} (f : A → Z) l k : sumz f (l ++ k) = (sumz f l + sumz f k)%Z.
Proof. induction l as [|x l IH]; simpl; [lia|]. rewrite IH. lia. Qed.

Lemma sumz_insert {A} (f : A → Z) l i x y : l !! i = Some x → sumz f (<[i := y]> l) = (sumz f l - f x + f y)%Z.
Proof.
  intros Hi. rewrite <- (take_drop_middle l i x Hi) at 2. rewrite insert_take_drop by (by eapply lookup_lt_Some).
  rewrite !sumz_app. simpl. lia.
Qed.

Lemma sumz_nonneg {A} (f : A → Z) l : (∀ x, x ∈ l → 0 ≤ f x)%Z → (0 ≤ sumz f l)%Z.
Proof.
  induction l as [|x l IH]; intros Hl; simpl; [lia|]. pose proof (Hl x ltac:(by constructor)).
  specialize (IH ltac:(intros y Hy; apply Hl; by constructor)). lia.
Qed.

Lemma sumz_elem {A} (f : A → Z) l x : (∀ y, y ∈ l → 0 ≤ f y)%Z → x ∈ l → (f x ≤ sumz f l)%Z.
Proof.
  intros Hpos (a & b & ->)%list_elem_of_split. rewrite sumz_app. simpl.
  pose proof (sumz_nonneg f a ltac:(intros y Hy; apply Hpos, elem_of_app; by left)).
  pose proof (sumz_nonneg f b ltac:(intros y Hy; apply Hpos, elem_of_app; right; by constructor)). lia.
Qed.

Lemma sumz_const {A} (f : A → Z) c l : (∀ x, x ∈ l → f x = c)%Z → sumz f l = (c * Z.of_nat (length l))%Z.
Proof. induction l as [|x l IH]; intros Hl; simpl; [lia|]. rewrite Hl by by constructor. rewrite IH; [lia|]. intros y Hy. apply Hl. by constructor. Qed.

Lemma sumz_le {A} (f g : A → Z) l : (∀ x, x ∈ l → f x ≤ g x)%Z → (sumz f l ≤ sumz g l)%Z.
Proof.
  induction l as [|x l IH]; intros Hl; simpl; [lia|]. pose proof (Hl x ltac:(by constructor)).
  specialize (IH ltac:(intros y Hy; apply Hl; by constructor)). lia.
Qed.

Lemma sumz_ext {A} (f g : A → Z) l : (∀ x, x ∈ l → f x = g x) → sumz f l = sumz g l.
Proof. induction l as [|x l IH]; intros Hl; [done|]. simpl. rewrite Hl by by constructor. rewrite IH; [done|]. intros y Hy. apply Hl. by constructor. Qed.

Lemma sumz_add {A} (f g : A → Z) l : (sumz (λ x, f x + g x) l = sumz f l + sumz g l)%Z.
Proof. induction l as [|x l IH]; simpl; [done|]. rewrite IH. lia. Qed.

Definition times (t : nat) (l : list nat) : Z := Z.of_nat (length (filter (λ x, x = t) l)).

Lemma times_cons t x l : times t (x :: l) = ((if decide (x = t) then 1 else 0) + times t l)%Z.
Proof. unfold times. case_decide; [rewrite filter_cons_True by done|rewrite filter_cons_False by done]; simpl; lia. Qed.

(** ** The counters say what they mean in every interleaving *)

(** Answers counted for a series, all it will have, and goroutines at the points of a decision. *)
Definition is_ok (s : sender) : bool := match sd_reply s with Some None => true | _ => false end.
Definition is_bad (s : sender) : bool := match sd_reply s with Some (Some _) => true | _ => false end.
Definition counted_for (who : sender → bool) (t : nat) (s : sender) : Z := if who s then times t (sd_done s) else 0.
Definition expected (t : nat) (s : sender) : Z := (times t (sd_done s) + times t (sd_rest s))%Z.
Definition same_point (x y : point) : bool := match x, y with Idle, Idle | Deciding, Deciding | Sending, Sending => true | _, _ => false end.
Definition weight (b : bool) (x y : point) : Z := if b && same_point x y then 1 else 0.
Definition at_point (who : sender → bool) (x : point) (s : sender) : Z := weight (who s) x (sd_point s).
Definition reached (k : profileTracker) : Z := if (tk_minSuccess k <=? tk_succeeded k)%Z then 1 else 0.
Definition excess (k : profileTracker) : Z := Z.max 0 (tk_failed k - tk_maxFailures k).

Record push_inv (s : pushTracker) : Prop := {
  pi_some : pt_trackers s ≠ [];
  pi_bounds k : k ∈ pt_trackers s → (1 ≤ tk_minSuccess k ∧ 0 ≤ tk_maxFailures k)%Z;
  pi_ok t k : pt_trackers s !! t = Some k → tk_succeeded k = sumz (counted_for is_ok t) (pt_senders s);
  pi_bad t k : pt_trackers s !! t = Some k → tk_failed k = sumz (counted_for is_bad t) (pt_senders s);
  pi_all t k : pt_trackers s !! t = Some k → (tk_minSuccess k + tk_maxFailures k)%Z = sumz (expected t) (pt_senders s);
  pi_fresh g : g ∈ pt_senders s → sd_reply g = None → sd_done g = [] ∧ sd_point g = Idle;
  pi_known g t : g ∈ pt_senders s → t ∈ sd_rest g → t < length (pt_trackers s);
  pi_pending : (pt_samplesPending s + sumz reached (pt_trackers s) = Z.of_nat (length (pt_trackers s)) + sumz (at_point is_ok Deciding) (pt_senders s))%Z;
  pi_done : (Z.of_nat (pt_done s) + sumz (at_point is_ok Sending) (pt_senders s) = if (pt_samplesPending s =? 0) then 1 else 0)%Z;
  pi_nonneg : (0 ≤ pt_samplesFailed s)%Z;
  pi_failed : (pt_samplesFailed s + sumz (at_point is_bad Deciding) (pt_senders s) = sumz excess (pt_trackers s))%Z;
  pi_err : (Z.of_nat (length (pt_err s)) + sumz (at_point is_bad Sending) (pt_senders s) = if (pt_samplesFailed s =? 0) then 0 else 1)%Z;
  pi_errs e : e ∈ pt_err s → ∃ g, g ∈ pt_senders s ∧ sd_reply g = Some (Some e) }.

Lemma elem_of_insert_list {A} (l : list A) i x y : x ∈ <[i := y]> l → x = y ∨ x ∈ l.
Proof.
  intros [j Hj]%list_elem_of_lookup. apply list_lookup_insert_Some in Hj as [(_ & -> & _)|[_ Hj]]; [by left|right]. by eapply list_elem_of_lookup_2.
Qed.

(** Replacing a goroutine by one that is in the same place as far as the sums go. *)
Lemma point_nonneg who x g : (0 ≤ at_point who x g)%Z.
Proof. unfold at_point, weight. destruct (who g && _); lia. Qed.

Lemma counted_nonneg who t g : (0 ≤ counted_for who t g)%Z.
Proof. unfold counted_for, times. destruct (who g); lia. Qed.

Ltac split_inv := intros [Hsome Hbounds Hok Hbad Hall Hfresh Hknown Hpending Hdone Hnonneg Hfailed Herr Herrs];
  cbn [pt_trackers pt_samplesPending pt_samplesFailed pt_done pt_err pt_senders] in *.

(** A goroutine that changes only its place: the facts about single goroutines go on. *)
Section Moves.
Context (ss : list sender) (i : nat) (g g' : sender) (Hi : ss !! i = Some g).

Lemma move_fresh : (∀ x, x ∈ ss → sd_reply x = None → sd_done x = [] ∧ sd_point x = Idle) → sd_reply g' ≠ None →
  ∀ x, x ∈ <[i := g']> ss → sd_reply x = None → sd_done x = [] ∧ sd_point x = Idle.
Proof. intros Hf Hne x [->|Hx]%elem_of_insert_list; [done|by apply Hf]. Qed.

Lemma move_known n : (∀ x t, x ∈ ss → t ∈ sd_rest x → t < n) → (∀ t, t ∈ sd_rest g' → t ∈ sd_rest g) →
  ∀ x t, x ∈ <[i := g']> ss → t ∈ sd_rest x → t < n.
Proof. intros Hk Hsub x t [->|Hx]%elem_of_insert_list Ht; [|by eapply Hk]. eapply Hk; [by eapply list_elem_of_lookup_2|by apply Hsub]. Qed.

Lemma move_errs e : (∃ x, x ∈ ss ∧ sd_reply x = Some (Some e)) → (sd_reply g = Some (Some e) → sd_reply g' = Some (Some e)) →
  ∃ x, x ∈ <[i := g']> ss ∧ sd_reply x = Some (Some e).
Proof.
  intros (x & [j Hj]%list_elem_of_lookup & Hr) Hg. destruct (decide (i = j)) as [->|Hne].
  - exists g'. split; [|apply Hg; congruence]. eapply list_elem_of_lookup_2, list_lookup_insert_eq. by eapply lookup_lt_Some.
  - exists x. split; [|done]. eapply (list_elem_of_lookup_2 _ j). by rewrite list_lookup_insert_ne.
Qed.
End Moves.

Lemma inv_reply ks p f d e ss i rest r : ss !! i = Some (mkSender None [] rest Idle) →
  push_inv (mkPush ks p f d e ss) → push_inv (mkPush ks p f d e (<[i := mkSender (Some r) [] rest Idle]> ss)).
Proof.
  intros Hi. split_inv. split; cbn [pt_trackers pt_samplesPending pt_samplesFailed pt_done pt_err pt_senders]; try done.
  - intros t k Hk. rewrite (sumz_insert _ _ _ _ _ Hi), (Hok t k Hk). unfold counted_for. cbn. destruct r; cbn; unfold times; simpl; lia.
  - intros t k Hk. rewrite (sumz_insert _ _ _ _ _ Hi), (Hbad t k Hk). unfold counted_for. cbn. destruct r; cbn; unfold times; simpl; lia.
  - intros t k Hk. rewrite (sumz_insert _ _ _ _ _ Hi), (Hall t k Hk). unfold expected. cbn. lia.
  - by eapply move_fresh.
  - by eapply move_known.
  - rewrite (sumz_insert _ _ _ _ _ Hi). unfold at_point at 2 3, weight. cbn. destruct r; cbn; lia.
  - rewrite (sumz_insert _ _ _ _ _ Hi). unfold at_point at 2 3, weight. cbn. destruct r; cbn; lia.
  - rewrite (sumz_insert _ _ _ _ _ Hi). unfold at_point at 2 3, weight. cbn. destruct r; cbn; lia.
  - rewrite (sumz_insert _ _ _ _ _ Hi). unfold at_point at 2 3, weight. cbn. destruct r; cbn; lia.
  - intros x Hx. eapply move_errs; [done|by apply Herrs|done].
Qed.

(** What one goroutine adds to the sum of those at a point. *)
Ltac at_sums who r k :=
  generalize dependent (sumz (at_point who Deciding)); generalize dependent (sumz (at_point who Sending)); intros;
  destruct r; destruct (count_answer _ k).2; unfold at_point, weight, who; cbn -[Z.add Z.sub Z.mul Z.of_nat]; lia.

(** Replacing a tracker keeps facts about each. *)
Lemma insert_cases {A} (Q : nat → A → Prop) (l : list A) (t : nat) (y : A) : (∀ j x, l !! j = Some x → j ≠ t → Q j x) → Q t y → ∀ j x, <[t := y]> l !! j = Some x → Q j x.
Proof. intros Hl Hy j x [(-> & <- & _)|[Hne Hj]]%list_lookup_insert_Some; [done|by apply Hl]. Qed.

Lemma count_answer_spec r k : (count_answer r k).1 = mkTracker (tk_minSuccess k) (tk_maxFailures k)
    (tk_succeeded k + if r is Some _ then 0 else 1) (tk_failed k + if r is Some _ then 1 else 0) ∧
  ((1 ≤ tk_minSuccess k)%Z → reached (count_answer r k).1 = (reached k + match r with None => if (count_answer r k).2 then 1 else 0 | Some _ => 0 end)%Z) ∧
  excess (count_answer r k).1 = (excess k + match r with Some _ => if (count_answer r k).2 then 1 else 0 | None => 0 end)%Z.
Proof.
  unfold reached, excess. destruct r, k as [mn mx ok bad]; cbn [count_answer fst snd tk_minSuccess tk_maxFailures tk_succeeded tk_failed].
  - split_and!; [f_equal; lia|intros; lia|]. destruct (bad + 1 <=? mx)%Z eqn:E; cbn [negb]; bool_prop; lia.
  - split_and!; [f_equal; lia| |lia]. intros Hmn. repeat case_if_eq; bool_prop; lia.
Qed.

Lemma inv_count ks p f d e ss i r dn t rest k : ss !! i = Some (mkSender (Some r) dn (t :: rest) Idle) → ks !! t = Some k →
  push_inv (mkPush ks p f d e ss) →
  push_inv (mkPush (<[t := (count_answer r k).1]> ks) p f d e (<[i := mkSender (Some r) (t :: dn) rest (if (count_answer r k).2 then Deciding else Idle)]> ss)).
Proof.
  intros Hi Hk. split_inv. destruct (count_answer_spec r k) as (Hone & Hreached & Hexcess).
  specialize (Hreached ltac:(apply Hbounds; by eapply list_elem_of_lookup_2)).
  split; cbn [pt_trackers pt_samplesPending pt_samplesFailed pt_done pt_err pt_senders].
  - intros Hnil. apply (f_equal length) in Hnil. rewrite length_insert in Hnil. by destruct ks.
  - intros x [->|Hx]%elem_of_insert_list; [|by apply Hbounds]. rewrite Hone. apply (Hbounds k). by eapply list_elem_of_lookup_2.
  - apply insert_cases.
    + intros j x Hj Hne. rewrite (sumz_insert _ _ _ _ _ Hi), (Hok j x Hj). unfold counted_for, is_ok; cbn. destruct r; [lia|]. rewrite times_cons, decide_False by done. lia.
    + rewrite (sumz_insert _ _ _ _ _ Hi), Hone. cbn [tk_succeeded]. rewrite (Hok t k Hk). unfold counted_for, is_ok; cbn. destruct r; [lia|]. rewrite times_cons, decide_True by done. lia.
  - apply insert_cases.
    + intros j x Hj Hne. rewrite (sumz_insert _ _ _ _ _ Hi), (Hbad j x Hj). unfold counted_for, is_bad; cbn. destruct r; [|lia]. rewrite times_cons, decide_False by done. lia.
    + rewrite (sumz_insert _ _ _ _ _ Hi), Hone. cbn [tk_failed]. rewrite (Hbad t k Hk). unfold counted_for, is_bad; cbn. destruct r; [|lia]. rewrite times_cons, decide_True by done. lia.
  - apply insert_cases.
    + intros j x Hj _. rewrite (sumz_insert _ _ _ _ _ Hi), (Hall j x Hj). unfold expected. cbn. rewrite !times_cons. lia.
    + rewrite (sumz_insert _ _ _ _ _ Hi), Hone. cbn [tk_minSuccess tk_maxFailures]. rewrite (Hall t k Hk). unfold expected. cbn. rewrite !times_cons. lia.
  - by eapply move_fresh.
  - rewrite length_insert. eapply move_known; [done|done|]. intros x Hx. by right.
  - rewrite (sumz_insert _ _ _ _ _ Hi), (sumz_insert _ _ _ _ _ Hk), length_insert, Hreached. at_sums is_ok r k.
  - rewrite (sumz_insert _ _ _ _ _ Hi). at_sums is_ok r k.
  - done.
  - rewrite (sumz_insert _ _ _ _ _ Hi), (sumz_insert _ _ _ _ _ Hk), Hexcess. at_sums is_bad r k.
  - rewrite (sumz_insert _ _ _ _ _ Hi). at_sums is_bad r k.
  - intros x Hx. eapply move_errs; [done|by apply Herrs|done].
Qed.

(** The goroutines that are about to decide are among those the counter waits for. *)
Lemma at_point_in who x ss i g : ss !! i = Some g → (at_point who x g ≤ sumz (at_point who x) ss)%Z.
Proof. intros Hi. apply sumz_elem; [intros; apply point_nonneg|by eapply list_elem_of_lookup_2]. Qed.

Lemma reached_le ks : (0 ≤ sumz reached ks ≤ Z.of_nat (length ks))%Z.
Proof.
  split; [apply sumz_nonneg; intros k _; unfold reached; case_if_eq; lia|].
  etrans; [apply (sumz_le _ (λ _, 1%Z)); intros k _; unfold reached; case_if_eq; lia|]. rewrite (sumz_const _ 1) by done. lia.
Qed.

(** A goroutine that goes from one point to another. *)
Lemma inv_move ks p f d e ss i r dn rest x y p' f' d' e' : ss !! i = Some (mkSender (Some r) dn rest x) →
  let ok := match r with None => true | Some _ => false end in
  (p' - weight ok Deciding y = p - weight ok Deciding x)%Z →
  (Z.of_nat d' + weight ok Sending y - (if (p' =? 0) then 1 else 0) = Z.of_nat d + weight ok Sending x - (if (p =? 0) then 1 else 0))%Z →
  (0 ≤ f')%Z → (f' + weight (negb ok) Deciding y = f + weight (negb ok) Deciding x)%Z →
  (Z.of_nat (length e') + weight (negb ok) Sending y - (if (f' =? 0) then 0 else 1) = Z.of_nat (length e) + weight (negb ok) Sending x - (if (f =? 0) then 0 else 1))%Z →
  (∀ er, er ∈ e' → er ∈ e ∨ r = Some er) →
  push_inv (mkPush ks p f d e ss) → push_inv (mkPush ks p' f' d' e' (<[i := mkSender (Some r) dn rest y]> ss)).
Proof.
  intros Hi ok Hp Hd Hf0 Hf He Hes.
  assert (∀ z u, at_point is_ok z (mkSender (Some r) dn rest u) = weight ok z u ∧ at_point is_bad z (mkSender (Some r) dn rest u) = weight (negb ok) z u) as Hat by (subst ok; by destruct r).
  split_inv. split; cbn [pt_trackers pt_samplesPending pt_samplesFailed pt_done pt_err pt_senders]; try done.
  - intros t k Hk. rewrite (sumz_insert _ _ _ _ _ Hi), (Hok t k Hk). unfold counted_for, is_ok. cbn. lia.
  - intros t k Hk. rewrite (sumz_insert _ _ _ _ _ Hi), (Hbad t k Hk). unfold counted_for, is_bad. cbn. lia.
  - intros t k Hk. rewrite (sumz_insert _ _ _ _ _ Hi), (Hall t k Hk). unfold expected. cbn. lia.
  - by eapply move_fresh.
  - by eapply move_known.
  - rewrite (sumz_insert _ _ _ _ _ Hi), !(proj1 (Hat _ _)). lia.
  - rewrite (sumz_insert _ _ _ _ _ Hi), !(proj1 (Hat _ _)). lia.
  - rewrite (sumz_insert _ _ _ _ _ Hi), !(proj2 (Hat _ _)). lia.
  - rewrite (sumz_insert _ _ _ _ _ Hi), !(proj2 (Hat _ _)). lia.
  - intros er [Her| ->]%Hes; [eapply move_errs; [done|by apply Herrs|done]|]. exists (mkSender (Some (Some er)) dn rest y). split; [|reflexivity].
    eapply list_elem_of_lookup_2, list_lookup_insert_eq. by eapply lookup_lt_Some.
Qed.

Lemma inv_decide ks p f d e ss i r dn rest : ss !! i = Some (mkSender (Some r) dn rest Deciding) →
  push_inv (mkPush ks p f d e ss) →
  push_inv (let '(p', f', send) := decide_push r p f in mkPush ks p' f' d e (<[i := mkSender (Some r) dn rest (if send then Sending else Idle)]> ss)).
Proof.
  intros Hi Hinv. pose proof (reached_le ks) as Hreach. pose proof (at_point_in is_ok Deciding _ _ _ Hi) as Hd.
  pose proof (pi_pending _ Hinv) as Hpending. pose proof (pi_nonneg _ Hinv) as Hnonneg. cbn [pt_trackers pt_samplesPending pt_samplesFailed pt_senders] in *.
  destruct r as [er|]; cbn [decide_push]; apply (inv_move ks p f d e _ _ _ _ _ Deciding); try done; cbn -[Z.add Z.sub Z.eqb] in *;
    try (intros ? ?; by left); repeat case_if_eq; bool_prop; unfold weight; cbn -[Z.add Z.sub]; lia.
Qed.

Lemma inv_send_done ks p f e ss i dn rest : ss !! i = Some (mkSender (Some None) dn rest Sending) →
  push_inv (mkPush ks p f 0 e ss) → push_inv (mkPush ks p f 1 e (<[i := mkSender (Some None) dn rest Idle]> ss)).
Proof.
  intros Hi Hinv. pose proof (pi_nonneg _ Hinv) as Hnonneg. cbn [pt_samplesFailed] in *.
  apply (inv_move ks p f 0 e _ _ _ _ _ Sending); try done; cbn; try (intros ? ?; by left); lia.
Qed.

Lemma inv_send_err ks p f d ss i er dn rest : ss !! i = Some (mkSender (Some (Some er)) dn rest Sending) →
  push_inv (mkPush ks p f d [] ss) → push_inv (mkPush ks p f d [er] (<[i := mkSender (Some (Some er)) dn rest Idle]> ss)).
Proof.
  intros Hi Hinv. pose proof (pi_nonneg _ Hinv) as Hnonneg. cbn [pt_samplesFailed] in *.
  apply (inv_move ks p f d [] _ _ _ _ _ Sending); try done; cbn; try lia. intros x ->%list_elem_of_singleton. by right.
Qed.

Lemma step_inv s s' : step s s' → push_inv s → push_inv s'.
Proof.
  destruct 1; intros Hinv; [by eapply inv_reply|by apply inv_count|by apply inv_decide|by apply inv_send_done|by apply inv_send_err].
Qed.

(** ** What a push answers *)

(** A goroutine that has counted all its series, and what is left to do for all of them. *)
Definition sender_ended (g : sender) : Prop := sd_reply g ≠ None ∧ sd_rest g = [] ∧ sd_point g = Idle.

Definition work_of (g : sender) : nat :=
  (if sd_reply g is None then 1 else 0) + 3 * length (sd_rest g) + match sd_point g with Idle => 0 | Deciding => 2 | Sending => 1 end.

Definition push_work (s : pushTracker) : nat := list_sum (work_of <$> pt_senders s).

(** Ingesters that have accepted or refused a series. *)
Definition answers_for (who : sender → bool) (t : nat) (g : sender) : Z := if who g then expected t g else 0.

Lemma times_nonneg t l : (0 ≤ times t l)%Z.
Proof. unfold times. lia. Qed.

Lemma counted_answered who t ss : (sumz (counted_for who t) ss ≤ sumz (answers_for who t) ss)%Z.
Proof.
  apply sumz_le. intros g _. unfold counted_for, answers_for, expected. pose proof (times_nonneg t (sd_rest g)). destruct (who g); lia.
Qed.

Lemma counted_both t ss : (sumz (counted_for is_ok t) ss + sumz (counted_for is_bad t) ss ≤ sumz (expected t) ss)%Z.
Proof.
  rewrite <- sumz_add. apply sumz_le. intros g _. unfold counted_for, expected, is_ok, is_bad.
  pose proof (times_nonneg t (sd_rest g)). pose proof (times_nonneg t (sd_done g)). destruct (sd_reply g) as [[?|]|]; lia.
Qed.

Lemma counted_all t ss : (∀ g, g ∈ ss → sender_ended g) → (sumz (counted_for is_ok t) ss + sumz (counted_for is_bad t) ss = sumz (expected t) ss)%Z.
Proof.
  intros Hall. rewrite <- sumz_add. apply sumz_ext. intros g (Hr & Hrest & _)%Hall. unfold counted_for, expected, is_ok, is_bad.
  rewrite Hrest. change (times t []) with 0%Z. destruct (sd_reply g) as [[?|]|]; [lia|lia|done].
Qed.

(** Sums of zeros and ones, and of what is not negative. *)
Lemma sumz_zero {A} (f : A → Z) (l : list A) : (∀ x, x ∈ l → 0 ≤ f x)%Z → sumz f l = 0%Z → ∀ x, x ∈ l → f x = 0%Z.
Proof. intros Hpos Hz x Hx. pose proof (sumz_elem f l x Hpos Hx). pose proof (Hpos x Hx). lia. Qed.

Lemma sumz_positive {A} (f : A → Z) (l : list A) : (0 < sumz f l)%Z → ∃ x, x ∈ l ∧ (0 < f x)%Z.
Proof.
  induction l as [|x l IH]; simpl; [lia|]. intros H. destruct (decide (0 < f x)%Z) as [Hx|Hx]; [exists x; split; [by constructor|done]|].
  destruct IH as (y & Hy & Hf); [lia|]. exists y. split; [by constructor|done].
Qed.

Lemma reached_all ks : sumz reached ks = Z.of_nat (length ks) → ∀ k, k ∈ ks → (tk_minSuccess k ≤ tk_succeeded k)%Z.
Proof.
  intros Hs k Hk. pose proof (sumz_zero (λ x, 1 - reached x)%Z ks) as Hz.
  assert (∀ x, (0 ≤ 1 - reached x)%Z) as Hpos by (intros x; unfold reached; case_if_eq; lia).
  assert (sumz (λ x, 1 - reached x)%Z ks = 0%Z) as Hsum.
  { assert (sumz (λ x, (1 - reached x) + reached x)%Z ks = Z.of_nat (length ks)) as H by (rewrite (sumz_const _ 1); [lia|intros; lia]).
    rewrite sumz_add in H. lia. }
  specialize (Hz (λ x _, Hpos x) Hsum k Hk). revert Hz. unfold reached. case_if_eq; bool_prop; lia.
Qed.

Section Answers.
Context (s : pushTracker) (Hinv : push_inv s).

Lemma no_points who x : (0 ≤ sumz (at_point who x) (pt_senders s))%Z.
Proof. apply sumz_nonneg. intros; apply point_nonneg. Qed.

(** A push that is done has every series accepted by enough. *)
Lemma done_reached : 0 < pt_done s → ∀ k, k ∈ pt_trackers s → (tk_minSuccess k ≤ tk_succeeded k)%Z.
Proof.
  intros Hd. apply reached_all. pose proof (pi_done _ Hinv) as H. pose proof (pi_pending _ Hinv) as Hp. revert H.
  pose proof (no_points is_ok Deciding). pose proof (no_points is_ok Sending). pose proof (reached_le (pt_trackers s)).
  case_if_eq; bool_prop; lia.
Qed.

(** A push that has failed has a series refused by too many. *)
Lemma err_excess : pt_err s ≠ [] → ∃ k, k ∈ pt_trackers s ∧ (tk_maxFailures k < tk_failed k)%Z.
Proof.
  intros He. pose proof (pi_err _ Hinv) as H. pose proof (pi_failed _ Hinv) as Hf. pose proof (pi_nonneg _ Hinv).
  pose proof (no_points is_bad Deciding). pose proof (no_points is_bad Sending).
  assert (0 < length (pt_err s)) by (destruct (pt_err s); [done|simpl; lia]).
  destruct (sumz_positive excess (pt_trackers s)) as (k & Hk & Hx).
  { revert H. case_if_eq; bool_prop; lia. }
  exists k. split; [done|]. unfold excess in Hx. lia.
Qed.

(** A series is not both accepted by enough and refused by too many. *)
Lemma not_both k : k ∈ pt_trackers s → (tk_minSuccess k ≤ tk_succeeded k)%Z → (tk_maxFailures k < tk_failed k)%Z → False.
Proof.
  intros [t Ht]%list_elem_of_lookup H1 H2. pose proof (pi_all _ Hinv _ _ Ht). pose proof (counted_both t (pt_senders s)).
  rewrite (pi_ok _ Hinv _ _ Ht) in H1. rewrite (pi_bad _ Hinv _ _ Ht) in H2. lia.
Qed.

Lemma one_answer : pt_done s + length (pt_err s) ≤ 1.
Proof.
  pose proof (pi_done _ Hinv) as Hd. pose proof (pi_err _ Hinv) as He.
  pose proof (no_points is_ok Sending). pose proof (no_points is_bad Sending).
  assert (pt_done s ≤ 1) by (revert Hd; case_if_eq; lia). assert (length (pt_err s) ≤ 1) by (revert He; case_if_eq; lia).
  destruct (decide (pt_done s = 0)) as [|Hn]; [lia|]. destruct (pt_err s) as [|e l] eqn:E; [simpl; lia|exfalso].
  destruct err_excess as (k & Hk & Hbad); [by rewrite E|]. apply (not_both k Hk); [|done]. by apply done_reached; [lia|].
Qed.

(** When the goroutines have ended there is an answer. *)
Lemma some_answer : (∀ g, g ∈ pt_senders s → sender_ended g) → 1 ≤ pt_done s + length (pt_err s).
Proof.
  intros Hend. assert (∀ who x, x ≠ Idle → sumz (at_point who x) (pt_senders s) = 0%Z) as Hnone.
  { intros who x Hx. rewrite (sumz_const _ 0); [lia|]. intros g (_ & _ & Hg)%Hend. unfold at_point, weight. rewrite Hg. by destruct who, x. }
  pose proof (pi_done _ Hinv) as Hd. pose proof (pi_err _ Hinv) as He. pose proof (pi_failed _ Hinv) as Hf. pose proof (pi_pending _ Hinv) as Hp.
  rewrite Hnone in Hd, He, Hf, Hp by done. destruct (decide (pt_samplesFailed s = 0)%Z) as [H0|Hn].
  - assert (pt_samplesPending s = 0)%Z; [|revert Hd; case_if_eq; bool_prop; lia].
    enough (sumz reached (pt_trackers s) = Z.of_nat (length (pt_trackers s))) by lia.
    rewrite (sumz_const _ 1); [lia|]. intros k Hk. assert (excess k = 0)%Z as Hx.
    { eapply (sumz_zero excess); [intros; unfold excess; lia| |done]. lia. }
    pose proof Hk as [t Ht]%list_elem_of_lookup. pose proof (counted_all t _ Hend) as Hsum.
    rewrite <- (pi_ok _ Hinv _ _ Ht), <- (pi_bad _ Hinv _ _ Ht), <- (pi_all _ Hinv _ _ Ht) in Hsum.
    unfold excess in Hx. unfold reached. case_if_eq; bool_prop; lia.
  - revert He. case_if_eq; bool_prop; lia.
Qed.

(** No goroutine blocks: the channels have room when there is something to send. *)
Lemma never_blocks i g : pt_senders s !! i = Some g → ¬ sender_ended g → ∃ s' g', step s s' ∧ pt_senders s' = <[i := g']> (pt_senders s).
Proof.
  intros Hi Hne. pose proof (list_elem_of_lookup_2 _ _ _ Hi) as Hg. pose proof (pi_fresh _ Hinv g Hg) as Hfresh.
  pose proof (at_point_in is_ok Sending _ _ _ Hi) as Hok. pose proof (at_point_in is_bad Sending _ _ _ Hi) as Hbad.
  pose proof (pi_done _ Hinv) as Hd. pose proof (pi_err _ Hinv) as He. pose proof (pi_known _ Hinv g) as Hknown.
  destruct s as [ks p f d e ss], g as [[r|] dn rest x]; cbn in *.
  - destruct x.
    + destruct rest as [|t rest]; [by destruct Hne|]. destruct (lookup_lt_is_Some_2 ks t) as [k Hk]; [apply Hknown; [done|by constructor]|].
      do 2 eexists. split; [by eapply step_count|reflexivity].
    + pose proof (step_decide ks p f d e ss i r dn rest Hi) as Hs. destruct (decide_push r p f) as [[p' f'] send].
      do 2 eexists. split; [exact Hs|reflexivity].
    + destruct r as [er|]; cbn in Hok, Hbad.
      * destruct e; [|revert He; case_if_eq; simpl; lia]. do 2 eexists. split; [by eapply step_send_err|reflexivity].
      * assert (d = 0) as -> by (revert Hd; case_if_eq; simpl; lia). do 2 eexists. split; [by eapply step_send_done|reflexivity].
  - destruct Hfresh as [-> ->]; [done|]. do 2 eexists. split; [by eapply (step_reply _ _ _ _ _ _ _ _ None)|reflexivity].
Qed.
End Answers.

(** ** Every step is progress *)

Lemma list_sum_insert (ws : list nat) i x y : ws !! i = Some x → list_sum (<[i := y]> ws) + x = list_sum ws + y.
Proof. revert i. induction ws as [|w ws IH]; intros [|i] Hi; simplify_eq/=; [lia|]. specialize (IH _ Hi). lia. Qed.

Lemma work_insert ss i g g' : ss !! i = Some g → work_of g' < work_of g → list_sum (work_of <$> <[i := g']> ss) < list_sum (work_of <$> ss).
Proof.
  intros Hi Hlt. rewrite list_fmap_insert. pose proof (list_sum_insert (work_of <$> ss) i (work_of g) (work_of g')) as H.
  rewrite list_lookup_fmap, Hi in H. specialize (H eq_refl). lia.
Qed.

Lemma step_work s s' : step s s' → push_work s' < push_work s.
Proof.
  destruct 1 as [ks p f d e ss i rest r Hi|ks p f d e ss i r dn t rest k Hi Hk|ks p f d e ss i r dn rest Hi|ks p f e ss i dn rest Hi|ks p f d ss i er dn rest Hi];
    [| |destruct (decide_push r p f) as [[p' f'] send]| |]; unfold push_work; cbn [pt_senders]; apply (work_insert _ _ _ _ Hi); unfold work_of; cbn -[Nat.mul]; try lia.
  - destruct (count_answer r k).2; lia.
  - destruct send; lia.
Qed.

Lemma steps_work n s s' : nsteps step n s s' → n + push_work s' ≤ push_work s.
Proof. induction 1 as [|n s1 s2 s3 H12 _ IH]; [lia|]. apply step_work in H12. lia. Qed.

(** ** The start *)

Lemma sumz_permutation {A} (f : A → Z) (l k : list A) : l ≡ₚ k → sumz f l = sumz f k.
Proof. induction 1; simpl; lia. Qed.

Lemma sumz_fmap {A B} (f : B → Z) (g : A → B) (l : list A) : sumz f (g <$> l) = sumz (λ x, f (g x)) l.
Proof. induction l as [|x l IH]; [done|]. rewrite fmap_cons. cbn [sumz foldr]. exact (f_equal (Z.add (f (g x))) IH). Qed.

(** How often a series is sent, over all ingesters. *)
Definition copies (t : nat) (m : gmap string (list nat)) : Z := sumz (λ x, times t x.2) (map_to_list m).

Lemma times_app t l k : times t (l ++ k) = (times t l + times t k)%Z.
Proof. unfold times. rewrite filter_app, length_app. lia. Qed.

Lemma copies_insert t m a l : copies t (<[a := l]> m) = (copies t m - times t (default [] (m !! a)) + times t l)%Z.
Proof.
  unfold copies. rewrite <- insert_delete_eq, (sumz_permutation _ _ _ (map_to_list_insert _ a l (lookup_delete_eq m a))). cbn [sumz foldr snd].
  fold (sumz (λ x : string * list nat, times t x.2) (map_to_list (delete a m))). destruct (m !! a) as [k|] eqn:E; cbn [default].
  - rewrite <- (sumz_permutation _ _ _ (map_to_list_delete m a k E)). simpl. lia.
  - rewrite delete_id by done. change (times t []) with 0%Z. lia.
Qed.

Lemma add_profile_copies t i m addr : copies t (add_profile i m addr) = (copies t m + if decide (i = t) then 1 else 0)%Z.
Proof. unfold add_profile. rewrite copies_insert, times_app, times_cons. change (times t []) with 0%Z. lia. Qed.

Lemma add_profiles_copies t i addrs m : copies t (foldl (add_profile i) m addrs) = (copies t m + if decide (i = t) then Z.of_nat (length addrs) else 0)%Z.
Proof.
  revert m. induction addrs as [|a addrs IH]; intros m; simpl; [case_decide; lia|]. rewrite IH, add_profile_copies. case_decide; lia.
Qed.

Section Start.
Context (ring_Get : N → outcome ReplicationSet).

(** The ring promises at least one instance that has to accept. *)
Definition ring_ok (key : N) : Prop := ∀ set, ring_Get key = Ret set → (0 ≤ rp_MaxErrors set < Z.of_nat (length (rp_Instances set)))%Z.

Lemma place_spec keys : ∀ i m ks m', place ring_Get i keys m = Ret (ks, m') →
  length ks = length keys ∧
  (∀ t, copies t m' = copies t m + if decide (i ≤ t)%nat then from_option (λ k, tk_minSuccess k + tk_maxFailures k) 0 (ks !! (t - i)%nat) else 0)%Z ∧
  (Forall ring_ok keys → ∀ k, k ∈ ks → (1 ≤ tk_minSuccess k ∧ 0 ≤ tk_maxFailures k ∧ tk_succeeded k = 0 ∧ tk_failed k = 0)%Z).
Proof.
  induction keys as [|key keys IH]; intros i m ks m' H; simpl in H.
  - simplify_eq. split_and!; [done| |by intros _ k ?%elem_of_nil]. intros t. case_decide; simpl; lia.
  - apply obind_ret in H as (set & Hset & H). apply obind_ret in H as ([ks' m''] & Hrest & H). simplify_eq.
    destruct (IH _ _ _ _ Hrest) as (Hlen & Hcopies & Hok). split_and!; [simpl; lia| |].
    + intros t. rewrite Hcopies, add_profiles_copies. destruct (decide (i = t)) as [->|Hne].
      * rewrite decide_False, decide_True, Nat.sub_diag by lia. simpl. lia.
      * destruct (decide (S i ≤ t)); [|rewrite decide_False by lia; lia]. rewrite decide_True by lia.
        replace (t - i) with (S (t - S i)) by lia. simpl. lia.
    + intros [Hk Hks]%Forall_cons k [->|Hin]%elem_of_cons; [|by apply Hok]. specialize (Hk _ Hset). simpl. lia.
Qed.

Lemma copies_elem t l m a : m !! a = Some l → t ∈ l → (0 < copies t m)%Z.
Proof.
  intros Ha Ht. eapply Z.lt_le_trans; [|apply (sumz_elem _ (map_to_list m) (a, l)); [intros; apply times_nonneg|by apply elem_of_map_to_list]].
  simpl. unfold times. assert (t ∈ filter (λ x, x = t) l) as Hin by by apply list_elem_of_filter. apply list_elem_of_split in Hin as (? & ? & ->).
  rewrite length_app. simpl. lia.
Qed.

Context (keys : list N) (ks : list profileTracker) (m : gmap string (list nat)) (samples : list (list nat)).
Context (Hplace : place ring_Get 0 keys ∅ = Ret (ks, m)) (Hkeys : keys ≠ []) (Hring : Forall ring_ok keys) (Hperm : samples ≡ₚ (map_to_list m).*2).

Lemma start_copies t : sumz (times t) samples = from_option (λ k, tk_minSuccess k + tk_maxFailures k)%Z 0%Z (ks !! t).
Proof.
  rewrite (sumz_permutation _ _ _ Hperm), sumz_fmap. destruct (place_spec _ _ _ _ _ Hplace) as (_ & Hc & _).
  specialize (Hc t). unfold copies at 2 in Hc. rewrite map_to_list_empty, decide_True, Nat.sub_0_r in Hc by lia. exact Hc.
Qed.

Lemma start_inv : push_inv (start ks samples).
Proof.
  destruct (place_spec _ _ _ _ _ Hplace) as (Hlen & _ & Hok). specialize (Hok Hring).
  assert (∀ (w : sender → Z), (∀ rest, w (mkSender None [] rest Idle) = 0%Z) → sumz w ((λ rest, mkSender None [] rest Idle) <$> samples) = 0%Z) as Hnone.
  { intros w Hw. rewrite sumz_fmap, (sumz_const _ 0); [lia|]. intros rest _. apply Hw. }
  assert (sumz reached ks = 0%Z) as Hr.
  { rewrite (sumz_const _ 0); [lia|]. intros k Hk. destruct (Hok k Hk) as (?&?&?&?). unfold reached. case_if_eq; bool_prop; lia. }
  assert (sumz excess ks = 0%Z) as Hx.
  { rewrite (sumz_const _ 0); [lia|]. intros k Hk. destruct (Hok k Hk) as (?&?&?&?). unfold excess. lia. }
  split; unfold start; cbn [pt_trackers pt_samplesPending pt_samplesFailed pt_done pt_err pt_senders]; rewrite ?Hnone by done.
  - intros ->. by destruct keys.
  - intros k Hk. by destruct (Hok k Hk) as (?&?&_).
  - intros t k Hk. destruct (Hok k) as (_&_&->&_); [by eapply list_elem_of_lookup_2|]. by rewrite Hnone.
  - intros t k Hk. destruct (Hok k) as (_&_&_& ->); [by eapply list_elem_of_lookup_2|]. by rewrite Hnone.
  - intros t k Hk. rewrite sumz_fmap. pose proof (start_copies t) as H. rewrite Hk in H. simpl in H. rewrite <- H. by apply sumz_ext.
  - intros g (rest & -> & _)%list_elem_of_fmap _. done.
  - intros g t (rest & -> & Hin)%list_elem_of_fmap Ht. cbn in Ht. rewrite Hperm in Hin. apply list_elem_of_fmap in Hin as ([a l] & -> & Hin).
    apply elem_of_map_to_list in Hin. pose proof (copies_elem _ _ _ _ Hin Ht) as Hc. destruct (place_spec _ _ _ _ _ Hplace) as (_ & Hcs & _).
    rewrite Hcs, decide_True, Nat.sub_0_r in Hc by lia. unfold copies in Hc. rewrite map_to_list_empty in Hc.
    apply lookup_lt_is_Some. destruct (ks !! t); [by eexists|]. simpl in Hc. lia.
  - rewrite Hr. lia.
  - case_if_eq; bool_prop; [|lia]. destruct keys; simpl in *; [done|lia].
  - lia.
  - rewrite Hx. lia.
  - done.
  - by intros e ?%elem_of_nil.
Qed.

Lemma reachable_inv s : rtc step (start ks samples) s → push_inv s.
Proof. generalize start_inv. generalize (start ks samples). induction 2; [done|eauto using step_inv]. Qed.
End Start.

(** The bounds of the series stay those of the ring. *)
Definition bounds_of (k : profileTracker) : Z * Z := (tk_minSuccess k, tk_maxFailures k).

Lemma step_bounds s s' : step s s' → bounds_of <$> pt_trackers s' = bounds_of <$> pt_trackers s.
Proof.
  destruct 1 as [|ks p f d e ss i r dn t rest k Hi Hk|ks p f d e ss i r dn rest Hi| |]; cbn [pt_trackers]; try done.
  - rewrite list_fmap_insert. apply list_insert_id. rewrite list_lookup_fmap, Hk. destruct r; done.
  - by destruct (decide_push r p f) as [[? ?] ?].
Qed.

Lemma steps_bounds s s' : rtc step s s' → bounds_of <$> pt_trackers s' = bounds_of <$> pt_trackers s.
Proof. induction 1 as [|s1 s2 s3 H12 _ IH]; [done|]. rewrite IH. by apply step_bounds. Qed.

Lemma bounds_lookup s s' t k : rtc step s s' → pt_trackers s' !! t = Some k → ∃ k0, pt_trackers s !! t = Some k0 ∧ bounds_of k = bounds_of k0.
Proof.
  intros H Hk. apply steps_bounds in H. apply (f_equal (.!! t)) in H. rewrite !list_lookup_fmap, Hk in H.
  destruct (pt_trackers s !! t) as [k0|]; [|done]. exists k0. split; [done|]. by apply (inj Some) in H.
Qed.

Lemma bounds_lookup_back s s' t k : rtc step s s' → pt_trackers s !! t = Some k → ∃ k', pt_trackers s' !! t = Some k' ∧ bounds_of k' = bounds_of k.
Proof.
  intros H Hk. apply steps_bounds in H. apply (f_equal (.!! t)) in H. rewrite !list_lookup_fmap, Hk in H.
  destruct (pt_trackers s' !! t) as [k0|]; [|done]. exists k0. split; [done|]. by apply (inj Some) in H.
Qed.

(** C5: In every interleaving of the goroutines a push is answered at most once, and truthfully: with success only when
    every series has been accepted by at least [minSuccess] of the ingesters the ring named for it, and with an error
    only when that is the error of one of the ingesters and some series has been refused by more than [maxFailures]. *)
Theorem push_safe ring_Get keys ks m samples s :
  place ring_Get 0 keys ∅ = Ret (ks, m) → keys ≠ [] → Forall (ring_ok ring_Get) keys → samples ≡ₚ (map_to_list m).*2 →
  rtc step (start ks samples) s →
  pt_done s + length (pt_err s) ≤ 1 ∧
  (returns s (inl ()) → ∀ t k, ks !! t = Some k → (tk_minSuccess k ≤ sumz (answers_for is_ok t) (pt_senders s))%Z) ∧
  (∀ e, returns s (inr e) → (∃ g, g ∈ pt_senders s ∧ sd_reply g = Some (Some e)) ∧
    ∃ t k, ks !! t = Some k ∧ (tk_maxFailures k < sumz (answers_for is_bad t) (pt_senders s))%Z).
Proof.
  intros Hplace Hkeys Hring Hperm Hs. pose proof (reachable_inv _ _ _ _ _ Hplace Hkeys Hring Hperm _ Hs) as Hinv.
  split_and!; [by apply one_answer| |].
  - inversion 1 as [Hd|]; subst. intros t k Hk. destruct (bounds_lookup_back _ _ t k Hs Hk) as (k' & Hk' & Hb). injection Hb as <- _.
    etrans; [apply (done_reached _ Hinv Hd); by eapply list_elem_of_lookup_2|]. rewrite (pi_ok _ Hinv _ _ Hk'). apply counted_answered.
  - inversion 1 as [|? He]; subst. split; [by apply (pi_errs _ Hinv)|].
    destruct (err_excess _ Hinv) as (k' & [t Ht]%list_elem_of_lookup & Hbad); [by intros Hnil; rewrite Hnil in He; apply elem_of_nil in He|].
    destruct (bounds_lookup _ _ t k' Hs Ht) as (k & Hk & Hb). injection Hb as _ Hmax. exists t, k. split; [exact Hk|].
    rewrite <- Hmax. eapply Z.lt_le_trans; [exact Hbad|]. rewrite (pi_bad _ Hinv _ _ Ht). apply counted_answered.
Qed.


(** ** What the ingesters are sent *)

Lemma add_profiles_member i addrs : ∀ m a t, t ∈ default [] (foldl (add_profile i) m addrs !! a) ↔ t ∈ default [] (m !! a) ∨ t = i ∧ a ∈ addrs.
Proof.
  induction addrs as [|b addrs IH]; intros m a t; simpl; [rewrite elem_of_nil; tauto|]. rewrite IH, elem_of_cons. unfold add_profile.
  destruct (decide (b = a)) as [->|Hne]; [rewrite lookup_insert_eq; cbn [from_option id]; rewrite elem_of_app, list_elem_of_singleton|rewrite lookup_insert_ne by done]; naive_solver.
Qed.

Lemma place_member (ring_Get : N → outcome ReplicationSet) keys : ∀ i m ks m', place ring_Get i keys m = Ret (ks, m') →
  ∀ a t, t ∈ default [] (m' !! a) ↔ t ∈ default [] (m !! a) ∨ i ≤ t ∧ ∃ key set, keys !! (t - i) = Some key ∧ ring_Get key = Ret set ∧ a ∈ rp_Instances set.
Proof.
  induction keys as [|key keys IH]; intros i m ks m' H a t; simpl in H.
  - simplify_eq. split; [by left|]. intros [?|(_ & ? & ? & ? & _)]; [done|by simplify_eq/=].
  - apply obind_ret in H as (set & Hset & ([ks' m''] & Hrest & [= <- <-])%obind_ret). rewrite (IH _ _ _ _ Hrest), add_profiles_member.
    split.
    + intros [[Hm|[-> Ha]]|(Hle & key' & set' & Hk & Hg & Ha)]; [by left|right|right].
      * split; [lia|]. exists key, set. by rewrite Nat.sub_diag.
      * split; [lia|]. exists key', set'. replace (t - i) with (S (t - S i)) by lia. done.
    + intros [Hm|(Hle & key' & set' & Hk & Hg & Ha)]; [by left; left|]. destruct (decide (t = i)) as [->|Hne].
      * rewrite Nat.sub_diag in Hk. injection Hk as <-. rewrite Hset in Hg. injection Hg as <-. left. by right.
      * right. split; [lia|]. exists key', set'. by replace (t - i) with (S (t - S i)) in Hk by lia.
Qed.

(** C19: Before the goroutines start a push has normalised every sample and given each an identity of its own, the labels
    and the order of series and samples stay, and an address is sent exactly the series for whose token the ring names it. *)
Theorem Push_correct RawFromBytes WriteTo Sum64 now NewString Quote ring_Get tenantID series sent s byAddr :
  Push RawFromBytes WriteTo Sum64 now NewString Quote ring_Get tenantID series = Ret (sent, s, byAddr) →
  Forall2 (λ s t, rs_Labels t = rs_Labels s ∧ Forall2 (sent_sample RawFromBytes WriteTo Sum64 now NewString) (rs_Samples s) (rs_Samples t)) series sent ∧
  rw_ID <$> concat (rs_Samples <$> sent) = NewString <$> seq 0 (length (concat (rs_Samples <$> series))) ∧
  sd_rest <$> pt_senders s = byAddr.*2 ∧ NoDup byAddr.*1 ∧
  ∀ a x, (∃ profiles, (a, profiles) ∈ byAddr ∧ x ∈ push_request sent profiles) ↔
    ∃ t raw set, series !! t = Some raw ∧ sent !! t = Some x ∧ ring_Get (TokenFor tenantID (labelsString Quote (rs_Labels raw))) = Ret set ∧ a ∈ rp_Instances set.
Proof.
  intros (sent' & Hsent & ([ks m] & Hplace & [= <- <- <-])%obind_ret)%obind_ret. destruct (prepare_series_spec _ _ _ _ _ _ _ _ Hsent) as [Hseries Hids].
  split_and!; [done|done| |apply NoDup_fst_map_to_list|].
  { unfold start. cbn [pt_senders]. rewrite <- list_fmap_compose. by rewrite list_fmap_id. }
  intros a x. pose proof (place_member _ _ _ _ _ _ Hplace a) as Hin. split.
  - intros (profiles & Ha%elem_of_map_to_list & (t & Ht & Hx)%list_elem_of_omap). specialize (Hin t). rewrite Ha, lookup_empty in Hin.
    apply Hin in Ht as [Ht|(_ & key & set & Hk & Hg & Hm)]; [by apply elem_of_nil in Ht|]. rewrite Nat.sub_0_r in Hk.
    unfold push_keys in Hk. rewrite list_lookup_fmap in Hk. destruct (series !! t) as [raw|] eqn:Hraw; simplify_eq/=. by exists t, raw, set.
  - intros (t & raw & set & Hraw & Hx & Hg & Hm). specialize (Hin t). rewrite lookup_empty in Hin.
    assert (t ∈ default [] (m !! a)) as Ht.
    { apply Hin. right. split; [lia|]. eexists _, set. split_and!; [|exact Hg|done]. unfold push_keys. by rewrite Nat.sub_0_r, list_lookup_fmap, Hraw. }
    destruct (m !! a) as [profiles|] eqn:Ha; [|by apply elem_of_nil in Ht]. exists profiles. split; [by apply elem_of_map_to_list|].
    apply list_elem_of_omap. by exists t.
Qed.

(** Two series on three ingesters each, of which the second ones differ; one ingester may fail. *)
Definition test_ring (key : N) : outcome ReplicationSet := Ret (mkReplicationSet (if (key =? 0)%N then ["1"; "2"; "3"] else ["2"; "3"; "4"]) 1).

Definition test_keys : list N := [0; 1]%N.
Definition test_ks : list profileTracker := match place test_ring 0 test_keys ∅ with Ret (ks, _) => ks | _ => [] end.
Definition test_map : gmap string (list nat) := match place test_ring 0 test_keys ∅ with Ret (_, m) => m | _ => ∅ end.
Definition test_start : pushTracker := start test_ks (map_to_list test_map).*2.

(** The goroutines are those of "3", "1", "2" and "4"; in [one_fails] the second ingester is down, in [two_fail] the first two. *)
Definition one_fails : list (nat * option string) :=
  (λ i, (i, if decide (i = 1) then Some "down" else None)) <$> [0; 2; 1; 0; 2; 2; 0; 2; 2; 2; 1; 3; 3].
Definition two_fail : list (nat * option string) :=
  (λ i, (i, if decide (i ≤ 1) then Some "down" else None)) <$> [1; 0; 2; 3; 0; 1; 2; 1; 2; 1; 0; 3].
Definition all_done (s : pushTracker) : bool := forallb (λ g, match g with mkSender (Some _) _ [] Idle => true | _ => false end) (pt_senders s).

Lemma test_placed : place test_ring 0 test_keys ∅ = Ret (test_ks, test_map).
Proof. vm_compute. reflexivity. Qed.

Lemma test_keys_some : test_keys ≠ [].
Proof. done. Qed.

Lemma test_ring_ok : Forall (ring_ok test_ring) test_keys.
Proof. apply Forall_forall. intros key _ set [= <-]. split; [done|]. simpl. case_match; simpl; lia. Qed.

Lemma push_safe_witness : ∃ s s', schedule one_fails test_start = Some s ∧ returns s (inl ()) ∧
  (∀ k, test_ks !! 0 = Some k → (tk_minSuccess k ≤ sumz (answers_for is_ok 0) (pt_senders s))%Z) ∧
  schedule two_fail test_start = Some s' ∧ returns s' (inr "down") ∧ ∃ g, g ∈ pt_senders s' ∧ sd_reply g = Some (Some "down").
Proof.
  pose proof (λ s l H, push_safe test_ring test_keys test_ks test_map _ s test_placed test_keys_some test_ring_ok (reflexivity _) (schedule_steps l _ s H)) as Hsafe.
  do 2 eexists. split; [vm_compute; reflexivity|]. split; [constructor; vm_compute; lia|]. split.
  - intros k Hk. refine (proj1 (proj2 (Hsafe _ one_fails _)) _ 0 k Hk); [vm_compute; reflexivity|constructor; vm_compute; lia].
  - split; [vm_compute; reflexivity|]. assert (∀ ks p f d ss, returns (mkPush ks p f d ["down"] ss) (inr "down")) as Hr by (intros; constructor; by constructor).
    split; [apply Hr|]. refine (proj1 (proj2 (proj2 (Hsafe _ two_fail _)) "down" _)); [vm_compute; reflexivity|apply Hr].
Defined.


(** A push without series is never answered: the caller waits for its context. *)
Lemma empty_push_waits s : rtc step (start [] []) s → ∀ r, ¬ returns s r.
Proof.
  intros H. assert (s = start [] []) as ->; [|intros r Hr; by inversion Hr as [Hd|e He]; [apply Nat.lt_irrefl in Hd|apply elem_of_nil in He]].
  inversion H as [|? s1 ? Hs _]; [done|]. subst. by inversion Hs.
Qed.

(** The hash of the standard library's tests, and the text of labels. *)
Example TokenFor_abc : TokenFor "a" "bc" = 0x439c2f4b%N.
Proof. reflexivity. Qed.

Example labelsString_two Quote : Quote "b" = "B" → Quote "d" = "D" → labelsString Quote [mkLabel "a" "b"; mkLabel "c" "d"] = "{a=B, c=D}".
Proof. unfold labelsString. simpl. intros -> ->. reflexivity. Qed.

Definition test_series : list RawProfileSeries :=
  [mkRawSeries [mkLabel "a" "b"] [mkRawSample [1]%N ""; mkRawSample [2]%N ""]; mkRawSeries [mkLabel "a" "c"] [mkRawSample [3]%N "old"]].
Definition test_Push : outcome (list RawProfileSeries * pushTracker * list (string * list nat)) :=
  Push (λ _, Ret test_profile) (λ p, Ret [N.of_nat (length (gp_Sample p))]) ex_sum 5 (λ n, if decide (n = 0) then "first" else "next") id
    (λ key, test_ring (key mod 2)) "t" test_series.

Lemma Push_correct_witness : ∃ sent s byAddr, test_Push = Ret (sent, s, byAddr) ∧ rw_RawProfile <$> concat (rs_Samples <$> sent) = [[1]; [1]; [1]]%N ∧
  rw_ID <$> concat (rs_Samples <$> sent) = ["first"; "next"; "next"] ∧ sd_rest <$> pt_senders s = byAddr.*2 ∧ NoDup byAddr.*1.
Proof.
  destruct test_Push as [[[sent s] byAddr]| |] eqn:E; [|vm_compute in E; discriminate E..].
  destruct (Push_correct _ _ _ _ _ _ _ _ _ _ _ _ E) as (_ & Hids & Hs & Hd & _). exists sent, s, byAddr.
  split; [done|]. split; [|split; [exact Hids|split; [exact Hs|exact Hd]]]. vm_compute in E. injection E as <- _ _. reflexivity.
Defined.
