(* ===== verification/Bucket.v ===== *)
(** * Buckets and blocks in them (src/pkg/objstore/objstore.go, bucket_util.go, src/pkg/phlaredb/block/block.go)

    The views of a bucket under a prefix, the removal of a prefix, and the upload and removal of a block.  A bucket is a
    record of operations on a state of its own; its laws speak of the contents it has had, so that a crash at any moment
    is covered.  Object storage, JSON, the file system and ulids are parameters. *)

From Stdlib Require Import Ascii.
From S2P Require Import Prelude BlockQuerier.

(** ** Effects

    An operation changes the state also when it fails. *)

Definition io (B A : Type) : Type := B → outcome A * B.

Section Io.
Context {B : Type}.

Definition iret {A} (a : A) : io B A := λ b, (Ret a, b).
Definition ifail {A} (e : string) : io B A := λ b, (Fail e, b).
Definition ipanic {A} : io B A := λ b, (Panic, b).
Definition lift {A} (o : outcome A) : io B A := λ b, (o, b).

(** What follows a call: [ok] after a result, [bad] after an error. *)
Definition ithen {A C} (m : io B A) (ok : A → io B C) (bad : string → io B C) : io B C := λ b,
  match m b with
  | (Ret a, b) => ok a b
  | (Fail e, b) => bad e b
  | (Panic, b) => (Panic, b)
  end.

Definition ibind {A C} (m : io B A) (ok : A → io B C) : io B C := ithen m ok ifail.

(** A loop that returns on the first error. *)
Fixpoint each_name {A} (f : A → io B unit) (l : list A) : io B unit :=
  match l with
  | [] => iret ()
  | x :: l => ibind (f x) (λ _, each_name f l)
  end.
End Io.

(** ** Names of objects *)

Definition content : Type := list N.

Fixpoint ends_slash (s : string) : bool :=
  match s with
  | EmptyString => false
  | String c EmptyString => Ascii.eqb c "/"%char
  | String _ s => ends_slash s
  end.

Fixpoint no_slash (s : string) : bool :=
  match s with
  | EmptyString => true
  | String c s => negb (Ascii.eqb c "/"%char) && no_slash s
  end.

(** The rest of a string after a prefix, and [strings.TrimPrefix]. *)
Fixpoint strip (p s : string) : option string :=
  match p, s with
  | EmptyString, _ => Some s
  | String a p, String b s => if Ascii.eqb a b then strip p s else None
  | _, _ => None
  end.

Definition TrimPrefix (s p : string) : string := default s (strip p s).

(** [path.Join] of two clean elements. *)
Definition path_Join (a b : string) : string := a +:+ "/" +:+ b.

(** The directory as a prefix of names, and the first element of a name. *)
Definition dir_prefix (dir : string) : string := if String.eqb dir "" || ends_slash dir then dir else dir +:+ "/".

Fixpoint first_elem (s : string) : string :=
  match s with
  | EmptyString => EmptyString
  | String c s => if Ascii.eqb c "/"%char then String c EmptyString else String c (first_elem s)
  end.

(** What listing a directory says of an object: the object itself, or the directory it is in. *)
Definition entry (dir n : string) : option string :=
  match strip (dir_prefix dir) n with
  | None | Some EmptyString => None
  | Some rest => Some (dir_prefix dir +:+ first_elem rest)
  end.

(** ** Buckets *)

(** [objstore.Bucket]; [bk_Iter] gives the names that [Iter] passes to its function. *)
Record Bucket (B : Type) := mkBucket {
  bk_Iter : string → io B (list string);
  bk_Exists : string → io B bool;
  bk_Get : string → io B content;
  bk_Upload : string → content → io B unit;
  bk_Delete : string → io B unit }.
Arguments mkBucket {B}.
Arguments bk_Iter {B}.
Arguments bk_Exists {B}.
Arguments bk_Get {B}.
Arguments bk_Upload {B}.
Arguments bk_Delete {B}.

Section Buckets.
Context {B : Type}.

(** [bucketWithPrefix.Delete] calls itself: it ends only with the stack, here with the fuel. *)
Fixpoint prefixed_Delete (fuel : nat) (p name : string) : io B unit :=
  match fuel with
  | O => ipanic
  | S fuel => prefixed_Delete fuel p (p +:+ name)
  end.

Definition BucketWithPrefix (fuel : nat) (b : Bucket B) (prefix : string) : Bucket B :=
  let p := if ends_slash prefix then prefix else prefix +:+ "/" in
  mkBucket
    (λ dir, ibind (bk_Iter b (p +:+ dir)) (λ names, iret ((λ s, TrimPrefix s p) <$> names)))
    (λ name, bk_Exists b (p +:+ name))
    (λ name, bk_Get b (p +:+ name))
    (λ name c, bk_Upload b (p +:+ name) c)
    (λ name, prefixed_Delete fuel p name).

(** One step of [DeletePrefix]'s loop over the names; the number of deleted objects is returned with an error as well. *)
Fixpoint delete_each (recursive : string → io B (nat * option string)) (bk : Bucket B) (result : nat) (names : list string) : io B (nat * option string) :=
  match names with
  | [] => iret (result, None)
  | name :: names =>
      if ends_slash name then
        ibind (recursive name) (λ '(deleted, err),
        let result := result + deleted in
        match err with
        | Some e => iret (result, Some e)
        | None => delete_each recursive bk result names
        end)
      else ithen (bk_Delete bk name) (λ _, delete_each recursive bk (S result) names) (λ e, iret (result, Some e))
  end.

Fixpoint DeletePrefix (fuel : nat) (bk : Bucket B) (prefix : string) : io B (nat * option string) :=
  match fuel with
  | O => ipanic
  | S fuel => ithen (bk_Iter bk prefix) (delete_each (DeletePrefix fuel bk) bk 0) (λ e, iret (0, Some e))
  end.

Fixpoint deleteDirRec (fuel : nat) (bk : Bucket B) (keep : string → bool) (dir : string) : io B unit :=
  match fuel with
  | O => ipanic
  | S fuel =>
      ibind (bk_Iter bk dir) (each_name (λ name,
        if ends_slash name then deleteDirRec fuel bk keep name
        else if keep name then iret ()
        else bk_Delete bk name))
  end.

Definition MetaFilename : string := "meta.json".
Definition DeletionMarkFilename : string := "deletion-mark.json".
Definition HostnameLabel : string := "__hostname__".

(** [Delete]; the block is given by the text of its ulid. *)
Definition delete_if_exists (bk : Bucket B) (name : string) : io B unit :=
  ithen (bk_Exists bk name)
    (λ ok : bool, if ok then ithen (bk_Delete bk name) iret (λ e, ifail ("delete " +:+ name +:+ ": " +:+ e)) else iret ())
    (λ e, ifail ("stat " +:+ name +:+ ": " +:+ e)).

Definition Delete (fuel : nat) (bk : Bucket B) (id : string) : io B unit :=
  let metaFile := path_Join id MetaFilename in
  let deletionMarkFile := path_Join id DeletionMarkFilename in
  ibind (delete_if_exists bk metaFile) (λ _,
  ibind (deleteDirRec fuel bk (λ name, String.eqb name metaFile || String.eqb name deletionMarkFile) id) (λ _,
  delete_if_exists bk deletionMarkFile)).

Definition cleanUp {A} (fuel : nat) (bk : Bucket B) (id err : string) : io B A :=
  ithen (Delete fuel bk id) (λ _, ifail err)
    (λ _, ifail ("failed to clean block after upload issue. Partial block in system. Err: " +:+ err +:+ ": " +:+ err)).
End Buckets.

(** ** Blocks *)

(** The metadata with the fields that only the shipper reads. *)
Record BlockMeta := mkBlockMeta { bm_Meta : Meta; bm_Level : Z; bm_Labels : gmap string string; bm_Source : string }.

Definition set_labels (m : BlockMeta) (l : gmap string string) : BlockMeta := mkBlockMeta (bm_Meta m) (bm_Level m) l (bm_Source m).
Definition set_source (m : BlockMeta) (s : string) : BlockMeta := mkBlockMeta (bm_Meta m) (bm_Level m) (bm_Labels m) s.

(** A local directory: whether it is one, the text of the ulid that its name is, its metadata and its files. *)
Record BlockDir := mkBlockDir { bd_IsDir : outcome bool; bd_ID : outcome string; bd_Meta : outcome BlockMeta; bd_File : string → outcome content }.

Section Blocks.
Context {B : Type} (ulid_String : N → string) (encode : BlockMeta → outcome content) (decode : content → outcome BlockMeta).

(** [objstore.UploadFile]. *)
Definition UploadFile (bk : Bucket B) (dir : BlockDir) (src dst : string) : io B unit := ibind (lift (bd_File dir src)) (bk_Upload bk dst).

Fixpoint upload_files (fuel : nat) (bk : Bucket B) (dir : BlockDir) (id : string) (files : list File) : io B unit :=
  match files with
  | [] => iret ()
  | file :: files =>
      ithen (UploadFile bk dir (fi_RelPath file) (path_Join id (fi_RelPath file)))
        (λ _, upload_files fuel bk dir id files)
        (λ e, cleanUp fuel bk id ("uploading file '" +:+ fi_RelPath file +:+ "': " +:+ e))
  end.

Definition wrap {A} (msg : string) (o : outcome A) : outcome A := match o with Fail e => Fail (msg +:+ ": " +:+ e) | o => o end.

Definition Upload (fuel : nat) (bk : Bucket B) (hostname : option string) (dir : BlockDir) : io B unit :=
  ibind (lift (bd_IsDir dir)) (λ isdir : bool,
  if negb isdir then ifail "is not a directory" else
  ibind (lift (wrap "not a block dir" (bd_ID dir))) (λ id,
  ibind (lift (wrap "read meta" (bd_Meta dir))) (λ meta,
  let meta := if hostname is Some h then set_labels meta (<[HostnameLabel := h]> (bm_Labels meta)) else meta in
  ibind (lift (wrap "encode meta file" (encode meta))) (λ metaEncoded,
  ibind (upload_files fuel bk dir id (me_Files (bm_Meta meta))) (λ _,
  ithen (bk_Upload bk (path_Join id MetaFilename) metaEncoded) iret (λ e, ifail ("upload meta file: " +:+ e))))))).

Definition DownloadMeta (bk : Bucket B) (id : N) : io B BlockMeta :=
  ithen (bk_Get bk (path_Join (ulid_String id) MetaFilename))
    (λ obj, lift (wrap ("unmarshal meta.json for block " +:+ ulid_String id) (decode obj)))
    (λ e, ifail ("meta.json bkt get for " +:+ ulid_String id +:+ ": " +:+ e)).
End Blocks.

(** ** Strings *)

Lemma app_cons_str c (a b : string) : String c a +:+ b = String c (a +:+ b).
Proof. done. Qed.

Lemma app_assoc_str (a b c : string) : (a +:+ b) +:+ c = a +:+ (b +:+ c).
Proof. induction a as [|x a IH]; [done|]. by rewrite !app_cons_str, IH. Qed.

Lemma app_nil_str (a : string) : a +:+ "" = a.
Proof. induction a as [|x a IH]; [done|]. by rewrite !app_cons_str, IH. Qed.

Lemma length_app_str (a b : string) : String.length (a +:+ b) = String.length a + String.length b.
Proof. induction a as [|x a IH]; [done|]. rewrite app_cons_str. cbn. by rewrite IH. Qed.

Lemma strip_app p s : strip p (p +:+ s) = Some s.
Proof. induction p as [|x p IH]; [by destruct s|]. rewrite app_cons_str. cbn. by rewrite Ascii.eqb_refl. Qed.

Lemma strip_Some p s r : strip p s = Some r ↔ s = p +:+ r.
Proof.
  split; [|intros ->; apply strip_app]. revert s. induction p as [|x p IH]; intros [|y s] H; cbn in H; simplify_eq; try done.
  destruct (Ascii.eqb x y) eqn:E; [|done]. apply Ascii.eqb_eq in E as ->. by rewrite app_cons_str, (IH _ H).
Qed.

Lemma TrimPrefix_app p s : TrimPrefix (p +:+ s) p = s.
Proof. unfold TrimPrefix. by rewrite strip_app. Qed.

Lemma ends_slash_cons c s : ends_slash (String c s) = if String.eqb s "" then Ascii.eqb c "/"%char else ends_slash s.
Proof. by destruct s. Qed.

Lemma app_empty_str a b : String.eqb (a +:+ b) "" = String.eqb a "" && String.eqb b "".
Proof. by destruct a, b. Qed.

Lemma ends_slash_app a b : ends_slash (a +:+ b) = if String.eqb b "" then ends_slash a else ends_slash b.
Proof.
  induction a as [|x a IH]; [by destruct b|]. rewrite app_cons_str, !ends_slash_cons, app_empty_str, IH.
  by destruct (String.eqb a ""), (String.eqb b "").
Qed.

(** The first element of a name: the whole of it, or a directory in which any rest has the same one. *)
Lemma first_elem_nonempty s : s ≠ "" → String.eqb (first_elem s) "" = false.
Proof. destruct s as [|c s]; [done|]. cbn. by destruct (Ascii.eqb c "/"%char). Qed.

Lemma first_elem_dir s : ends_slash (first_elem s) = true → ∃ r, s = first_elem s +:+ r ∧ ∀ r', first_elem (first_elem s +:+ r') = first_elem s.
Proof.
  induction s as [|c s IH]; [done|]. cbn [first_elem]. destruct (Ascii.eqb c "/"%char) eqn:E.
  - intros _. exists s. split; [done|]. intros r'. rewrite app_cons_str. cbn [first_elem]. by rewrite E.
  - rewrite ends_slash_cons. destruct (String.eqb_spec (first_elem s) ""); [by rewrite E|]. intros H. destruct (IH H) as (r & Hs & Hr).
    exists r. rewrite app_cons_str. split; [by rewrite <- Hs|]. intros r'. rewrite app_cons_str. cbn [first_elem]. by rewrite E, Hr.
Qed.

Lemma first_elem_file s : ends_slash (first_elem s) = false → first_elem s = s.
Proof.
  induction s as [|c s IH]; [done|]. cbn [first_elem]. destruct (Ascii.eqb c "/"%char) eqn:E; [cbn; by rewrite E|].
  rewrite ends_slash_cons. destruct (String.eqb_spec (first_elem s) "") as [Hs|]; [|intros H; by rewrite IH].
  intros _. destruct s; [done|]. by pose proof (first_elem_nonempty (String a s) ltac:(done)) as H; rewrite Hs in H.
Qed.

Lemma no_slash_app_inj a b x y : no_slash a = true → no_slash b = true → a +:+ String "/" x = b +:+ String "/" y → a = b ∧ x = y.
Proof.
  revert b. induction a as [|c a IH]; intros [|d b]; cbn [no_slash]; intros Ha Hb H; rewrite ?app_cons_str in H.
  - by injection H as ->.
  - injection H as <- _. done.
  - injection H as -> _. done.
  - injection H as -> H. apply andb_prop in Ha as [_ Ha], Hb as [_ Hb]. by destruct (IH _ Ha Hb H) as [-> ->].
Qed.

(** ** Directories *)

Lemma dir_prefix_slash e : ends_slash e = true → dir_prefix e = e.
Proof. intros H. unfold dir_prefix. by rewrite H, orb_true_r. Qed.

Lemma entry_Some dir n e : entry dir n = Some e ↔ ∃ r, r ≠ "" ∧ n = dir_prefix dir +:+ r ∧ e = dir_prefix dir +:+ first_elem r.
Proof.
  unfold entry. split.
  - destruct (strip _ n) as [r|] eqn:E; [|done]. apply strip_Some in E. destruct r as [|c r]; [done|]. intros [= <-]. by exists (String c r).
  - intros (r & Hr & -> & ->). rewrite strip_app. by destruct r.
Qed.

(** The objects in a directory. *)
Definition under (dir n : string) : Prop := is_Some (entry dir n).

#[global] Instance under_dec dir n : Decision (under dir n).
Proof. unfold under. apply _. Defined.

Lemma under_Some dir n : under dir n ↔ ∃ r, r ≠ "" ∧ n = dir_prefix dir +:+ r.
Proof. split; [intros [e (r & ? & ? & ?)%entry_Some]; eauto|]. intros (r & ? & ?). eexists. apply entry_Some. eauto. Qed.

Definition plain (n : string) : Prop := ends_slash n = false.

Lemma entry_slash r dir : r ≠ "" → ends_slash (dir_prefix dir +:+ first_elem r) = ends_slash (first_elem r).
Proof. intros Hr. by rewrite ends_slash_app, first_elem_nonempty. Qed.

Lemma entry_file dir n e : entry dir n = Some e → plain e → e = n.
Proof. intros (r & Hr & -> & ->)%entry_Some H. unfold plain in H. rewrite entry_slash in H by done. by rewrite (first_elem_file r). Qed.

Lemma entry_self dir n : under dir n → plain n → ∀ e, entry dir n = Some e → plain e → entry dir e = Some e.
Proof. intros Hu Hn e He Hp. pose proof (entry_file _ _ _ He Hp) as ->. done. Qed.

Lemma app_inj_str (p a b : string) : p +:+ a = p +:+ b → a = b.
Proof. intros H. apply (f_equal (strip p)) in H. rewrite !strip_app in H. by injection H. Qed.

Lemma entry_dir dir n e n' : entry dir n = Some e → ends_slash e = true → plain n' → entry dir n' = Some e ↔ under e n'.
Proof.
  intros (r & Hr & -> & ->)%entry_Some He Hn'. pose proof He as He'. rewrite entry_slash in He by done.
  destruct (first_elem_dir r He) as (t & Ht & Hany). rewrite under_Some, (dir_prefix_slash _ He'), entry_Some. split.
  - intros (r' & Hr' & -> & Heq). apply app_inj_str in Heq. rewrite Heq in He. destruct (first_elem_dir r' He) as (t' & Ht' & _).
    exists t'. rewrite Heq, app_assoc_str, <- Ht'. split; [|done]. intros ->. rewrite app_nil_str in Ht'. unfold plain in Hn'.
    rewrite Ht', entry_slash, He in Hn'; [done|done].
  - intros (t' & Ht' & ->). exists (first_elem r +:+ t'). rewrite Hany, app_assoc_str. split_and!; [|done|done].
    intros H. apply (f_equal (λ s, String.eqb s "")) in H. by rewrite app_empty_str, first_elem_nonempty in H.
Qed.

(** A directory in a listing is longer than the one it is in. *)
Lemma entry_longer dir n e : entry dir n = Some e → String.length (dir_prefix dir) < String.length e.
Proof.
  intros (r & Hr & -> & ->)%entry_Some. rewrite length_app_str. pose proof (first_elem_nonempty r Hr) as H. destruct (first_elem r); [done|]. cbn. lia.
Qed.

Lemma under_entry dir n e n' : entry dir n = Some e → ends_slash e = true → under e n' → under dir n'.
Proof.
  intros (r & Hr & -> & ->)%entry_Some He. rewrite !under_Some, (dir_prefix_slash _ He). intros (t & Ht & ->). exists (first_elem r +:+ t).
  rewrite app_assoc_str. split; [|done]. intros H. apply (f_equal (λ s, String.eqb s "")) in H. by rewrite app_empty_str, first_elem_nonempty in H.
Qed.

(** ** Laws of buckets *)

Abbreviation contents := (gmap string content).

(** [tr] is what the bucket has held, newest first.  A call that failed may have had its effect; reads have none. *)
Record bucket_laws {B} (bk : Bucket B) (tr : B → list contents) : Prop := {
  law_Iter dir b r b' : bk_Iter bk dir b = (r, b') → tr b' = tr b ∧ r ≠ Panic ∧
    ∀ names, r = Ret names → NoDup names ∧ ∀ e, e ∈ names ↔ ∃ n, is_Some (hd ∅ (tr b) !! n) ∧ entry dir n = Some e;
  law_Exists n b r b' : bk_Exists bk n b = (r, b') → tr b' = tr b ∧ r ≠ Panic ∧ ∀ x, r = Ret x → x = bool_decide (is_Some (hd ∅ (tr b) !! n));
  law_Get n b r b' : bk_Get bk n b = (r, b') → tr b' = tr b ∧ r ≠ Panic ∧ ∀ c, r = Ret c → hd ∅ (tr b) !! n = Some c;
  law_Upload n c b r b' : bk_Upload bk n c b = (r, b') → r ≠ Panic ∧
    ((tr b' = tr b ∧ r ≠ Ret ()) ∨ tr b' = <[n := c]> (hd ∅ (tr b)) :: tr b);
  law_Delete n b r b' : bk_Delete bk n b = (r, b') → (tr b' = tr b ∧ r ≠ Ret ()) ∨ tr b' = delete n (hd ∅ (tr b)) :: tr b }.

(** Deletions return. *)
Definition deletes {B} (bk : Bucket B) : Prop := ∀ n b, (bk_Delete bk n b).1 ≠ Panic.

(** ** Views under a prefix *)

Definition view (p : string) (m : contents) : contents :=
  map_fold (λ n c v, if strip p n is Some n' then <[n' := c]> v else v) ∅ m.

Lemma lookup_view p m n : view p m !! n = m !! (p +:+ n).
Proof.
  unfold view. revert n. apply (map_fold_weak_ind (λ v m, ∀ n, v !! n = m !! (p +:+ n))); [done|].
  intros k c m' v _ IH n. destruct (strip p k) as [k'|] eqn:E.
  - apply strip_Some in E as ->. destruct (decide (k' = n)) as [->|Hne]; [by rewrite !lookup_insert_eq|].
    rewrite !lookup_insert_ne; [apply IH| |done]. by intros ?%app_inj_str.
  - rewrite lookup_insert_ne; [apply IH|]. intros ->. by rewrite strip_app in E.
Qed.

Lemma view_insert p m n c : view p (<[p +:+ n := c]> m) = <[n := c]> (view p m).
Proof.
  apply map_eq. intros k. rewrite lookup_view. destruct (decide (n = k)) as [->|Hne]; [by rewrite !lookup_insert_eq|].
  rewrite !lookup_insert_ne, lookup_view; [done|done|]. by intros ?%app_inj_str.
Qed.

Lemma hd_view p l : hd ∅ (view p <$> l) = view p (hd ∅ l).
Proof. by destruct l. Qed.

Lemma dir_prefix_app p dir : ends_slash p = true → dir_prefix (p +:+ dir) = p +:+ dir_prefix dir.
Proof.
  intros Hp. unfold dir_prefix. rewrite ends_slash_app, app_empty_str. destruct (String.eqb_spec dir "") as [->|]; [rewrite Hp, orb_true_r; cbn [orb]; by rewrite !app_nil_str|].
  rewrite andb_false_r. destruct (ends_slash dir); [done|]. by rewrite app_assoc_str.
Qed.

Lemma entry_app p dir n : ends_slash p = true → entry (p +:+ dir) (p +:+ n) = String.append p <$> entry dir n.
Proof.
  intros Hp. destruct (entry dir n) as [e|] eqn:E; cbn.
  - apply entry_Some in E as (r & Hr & -> & ->). apply entry_Some. exists r. by rewrite dir_prefix_app, !app_assoc_str.
  - destruct (entry (p +:+ dir) (p +:+ n)) as [e|] eqn:E'; [|done]. apply entry_Some in E' as (r & Hr & Hn & _).
    rewrite dir_prefix_app, app_assoc_str in Hn by done. apply app_inj_str in Hn.
    assert (under dir n) as [? Hu]; [|congruence]. apply under_Some. by exists r.
Qed.

(** A prefixed view of a bucket is a bucket again, but for its deletions, which never return. *)
Lemma prefix_laws {B} (bk : Bucket B) tr fuel prefix : bucket_laws bk tr →
  bucket_laws (BucketWithPrefix fuel bk prefix) (λ b, view (if ends_slash prefix then prefix else prefix +:+ "/") <$> tr b).
Proof.
  intros H. unfold BucketWithPrefix. set (p := if ends_slash prefix then _ else _). assert (ends_slash p = true) as Hp.
  { subst p. destruct (ends_slash prefix) eqn:E; [done|]. by rewrite ends_slash_app. }
  split; cbn [bk_Iter bk_Exists bk_Get bk_Upload bk_Delete].
  - intros dir b r b'. unfold ibind, ithen. destruct (bk_Iter bk (p +:+ dir) b) as [r1 b1] eqn:E. destruct (law_Iter _ _ H _ _ _ _ E) as (Htr & Hnp & Hl).
    destruct r1 as [names|e|]; intros [= <- <-]; (split; [by rewrite Htr|split; [done|]]); [|done|done].
    intros names' [= <-]. destruct (Hl names eq_refl) as [Hnd Hin]. rewrite hd_view.
    assert (∀ x, x ∈ names → x = p +:+ TrimPrefix x p) as Hpre.
    { intros x (n & _ & (q & Hq & -> & ->)%entry_Some)%Hin. rewrite dir_prefix_app, app_assoc_str, TrimPrefix_app by done. done. }
    split.
    + apply NoDup_fmap_2_strong; [|done]. intros x y Hx Hy Hxy. rewrite (Hpre x Hx), (Hpre y Hy). by f_equal.
    + intros e. rewrite list_elem_of_fmap. split.
      * intros (x & -> & Hx). pose proof (Hpre x Hx) as Hxp. apply Hin in Hx as (n & [c Hn] & He). pose proof He as (q & Hq & -> & Hx)%entry_Some.
        rewrite dir_prefix_app, app_assoc_str in Hn, He by done. rewrite entry_app in He by done.
        exists (dir_prefix dir +:+ q). rewrite lookup_view. split; [by eexists|]. destruct (entry dir _) as [e|] eqn:Ed; [|done]. cbn in He.
        injection He as <-. by rewrite TrimPrefix_app.
      * intros (n & [c Hn] & He). rewrite lookup_view in Hn. exists (p +:+ e). rewrite TrimPrefix_app. split; [done|]. apply Hin.
        exists (p +:+ n). split; [by eexists|]. by rewrite entry_app, He.
  - intros n b r b' E. destruct (law_Exists _ _ H _ _ _ _ E) as (Htr & Hnp & Hx). rewrite Htr. split_and!; [done|done|]. intros x ->.
    rewrite (Hx x eq_refl), hd_view. apply bool_decide_ext. by rewrite lookup_view.
  - intros n b r b' E. destruct (law_Get _ _ H _ _ _ _ E) as (Htr & Hnp & Hx). rewrite Htr. split_and!; [done|done|]. intros c ->.
    rewrite hd_view, lookup_view. by apply Hx.
  - intros n c b r b' E. destruct (law_Upload _ _ H _ _ _ _ _ E) as (Hnp & [[Htr Hr]|Htr]); (split; [done|]); [left; by rewrite Htr|right].
    by rewrite Htr, hd_view, fmap_cons, view_insert.
  - intros n b r b' E. left. revert n E. induction fuel as [|fuel IH]; intros n E; [by injection E as <- <-|]. by eapply IH.
Qed.

Lemma prefixed_Delete_panics {B} (fuel : nat) (p name : string) (b : B) : prefixed_Delete fuel p name b = (Panic, b).
Proof. revert name. induction fuel as [|fuel IH]; intros name; [done|]. apply IH. Qed.

(** ** Programs on a bucket

    [triple I m0 prog Q]: from contents [m0], and if [I] holds of them, every contents that [prog] goes through have [I],
    and its result and the contents it leaves have [Q]. *)

Section Triples.
Context {B : Type} (tr : B → list contents).

Definition triple {A} (I : contents → Prop) (m0 : contents) (prog : io B A) (Q : outcome A → contents → Prop) : Prop :=
  ∀ b, hd ∅ (tr b) = m0 → I m0 → ∀ r b', prog b = (r, b') → (∃ l, tr b' = l ++ tr b ∧ Forall I l) ∧ Q r (hd ∅ (tr b')).

Lemma triple_last {A} I m0 (prog : io B A) Q : triple I m0 prog Q → triple I m0 prog (λ r m, Q r m ∧ I m).
Proof.
  intros H b Hb HI r b' E. destruct (H b Hb HI r b' E) as ((l & Hl & HF) & HQ). split; [by exists l|]. split; [done|].
  rewrite Hl. destruct HF; [by rewrite <- Hb in HI|done].
Qed.

Lemma triple_weaken {A} I m0 (prog : io B A) Q Q' : triple I m0 prog Q → (∀ r m, I m → Q r m → Q' r m) → triple I m0 prog Q'.
Proof.
  intros H HQ b Hb HI r b' E. destruct (triple_last _ _ _ _ H b Hb HI r b' E) as (Hl & Hr & HI'). split; [done|]. by apply HQ.
Qed.

Lemma triple_then {A C} I m0 (m : io B A) R (ok : A → io B C) bad Q :
  triple I m0 m R → (∀ a m1, I m1 → R (Ret a) m1 → triple I m1 (ok a) Q) → (∀ e m1, I m1 → R (Fail e) m1 → triple I m1 (bad e) Q) →
  (∀ m1, I m1 → R Panic m1 → Q Panic m1) → triple I m0 (ithen m ok bad) Q.
Proof.
  intros Hm Hok Hbad Hp b Hb HI r b' E. unfold ithen in E. destruct (m b) as [r1 b1] eqn:Em.
  destruct (triple_last _ _ _ _ Hm b Hb HI _ _ Em) as ((l & Hl & HF) & HR & HI1).
  assert (∀ C' (k : io B C') Q', triple I (hd ∅ (tr b1)) k Q' → ∀ r b', k b1 = (r, b') → (∃ l, tr b' = l ++ tr b ∧ Forall I l) ∧ Q' r (hd ∅ (tr b'))) as Hk.
  { intros C' k Q' Ht r' b'' E'. destruct (Ht b1 eq_refl HI1 r' b'' E') as ((l' & Hl' & HF') & HQ). split; [|done].
    exists (l' ++ l). rewrite Hl', Hl, app_assoc. split; [done|]. by apply Forall_app. }
  destruct r1 as [a|e|]; [by eapply Hk; [by apply Hok|]|by eapply Hk; [by apply Hbad|]|]. injection E as <- <-. split; [by exists l|by apply Hp].
Qed.

Lemma triple_bind {A C} I m0 (m : io B A) R (ok : A → io B C) Q :
  triple I m0 m R → (∀ a m1, I m1 → R (Ret a) m1 → triple I m1 (ok a) Q) → (∀ e m1, I m1 → R (Fail e) m1 → Q (Fail e) m1) →
  (∀ m1, I m1 → R Panic m1 → Q Panic m1) → triple I m0 (ibind m ok) Q.
Proof.
  intros Hm Hok Hbad Hp. eapply triple_then; [done|done| |done]. intros e m1 HI HR b Hb _ r b' [= <- <-].
  split; [by exists []|]. rewrite Hb. by apply Hbad.
Qed.

Lemma triple_pre {A} (I : contents → Prop) m0 (prog : io B A) Q : (I m0 → triple I m0 prog Q) → triple I m0 prog Q.
Proof. intros H b Hb HI. by apply (H HI b Hb HI). Qed.

Lemma triple_lift {A} (I : contents → Prop) m0 (o : outcome A) (Q : outcome A → contents → Prop) : (I m0 → Q o m0) → triple I m0 (lift o) Q.
Proof. intros H b Hb HI r b' [= <- <-]. split; [by exists []|]. rewrite Hb. by apply H. Qed.

Lemma triple_ret {A} (I : contents → Prop) m0 (a : A) (Q : outcome A → contents → Prop) : (I m0 → Q (Ret a) m0) → triple I m0 (iret a) Q.
Proof. apply triple_lift. Qed.

Lemma triple_fail {A} (I : contents → Prop) m0 e (Q : outcome A → contents → Prop) : (I m0 → Q (Fail e) m0) → triple I m0 (ifail e) Q.
Proof. apply triple_lift. Qed.

Context (bk : Bucket B) (Hbk : bucket_laws bk tr).

Lemma triple_Iter I m0 dir : triple I m0 (bk_Iter bk dir) (λ r m, m = m0 ∧ r ≠ Panic ∧
  ∀ names, r = Ret names → NoDup names ∧ ∀ e, e ∈ names ↔ ∃ n, is_Some (m0 !! n) ∧ entry dir n = Some e).
Proof.
  intros b <- HI r b' E. destruct (law_Iter _ _ Hbk _ _ _ _ E) as (Htr & Hnp & Hl). rewrite Htr. split; [by exists []|]. by split_and!.
Qed.

Lemma triple_Exists I m0 n : triple I m0 (bk_Exists bk n) (λ r m, m = m0 ∧ r ≠ Panic ∧ ∀ x, r = Ret x → x = bool_decide (is_Some (m0 !! n))).
Proof.
  intros b <- HI r b' E. destruct (law_Exists _ _ Hbk _ _ _ _ E) as (Htr & Hnp & Hl). rewrite Htr. split; [by exists []|]. by split_and!.
Qed.

Lemma triple_Upload (I : contents → Prop) m0 n c : (I m0 → I (<[n := c]> m0)) →
  triple I m0 (bk_Upload bk n c) (λ r m, r ≠ Panic ∧ ((m = m0 ∧ r ≠ Ret ()) ∨ m = <[n := c]> m0)).
Proof.
  intros HI' b Hb HI r b' E. destruct (law_Upload _ _ Hbk _ _ _ _ _ E) as (Hnp & [[Htr Hr]|Htr]); rewrite Htr.
  - split; [by exists []|]. split; [done|]. left. by rewrite Hb.
  - rewrite Hb. split; [exists [<[n := c]> m0]; split; [done|constructor; [by apply HI'|constructor]]|]. split; [done|by right].
Qed.

Lemma triple_Delete (I : contents → Prop) m0 n : (I m0 → I (delete n m0)) →
  triple I m0 (bk_Delete bk n) (λ r m, (deletes bk → r ≠ Panic) ∧ ((m = m0 ∧ r ≠ Ret ()) ∨ m = delete n m0)).
Proof.
  intros HI' b Hb HI r b' E. assert (deletes bk → r ≠ Panic) as Hnp by (intros H; pose proof (H n b) as Hp; by rewrite E in Hp).
  destruct (law_Delete _ _ Hbk _ _ _ _ E) as [[Htr Hr]|Htr]; rewrite Htr.
  - split; [by exists []|]. split; [done|]. left. by rewrite Hb.
  - rewrite Hb. split; [exists [delete n m0]; split; [done|constructor; [by apply HI'|constructor]]|]. split; [done|by right].
Qed.
End Triples.

(** ** Removal *)

Definition without (drop : string → bool) (m : contents) : contents := filter (λ x, drop x.1 = false) m.

Lemma lookup_without drop m n : without drop m !! n = if drop n then None else m !! n.
Proof.
  unfold without. destruct (drop n) eqn:E.
  - apply map_lookup_filter_None. right. intros c _. cbn. by rewrite E.
  - destruct (m !! n) eqn:Hm; [by apply map_lookup_filter_Some|]. apply map_lookup_filter_None. by left.
Qed.

Lemma without_subseteq drop m : without drop m ⊆ m.
Proof. apply map_filter_subseteq. Qed.

Lemma without_ext d d' m : (∀ n, is_Some (m !! n) → d n = d' n) → without d m = without d' m.
Proof.
  intros H. apply map_eq. intros n. rewrite !lookup_without. destruct (m !! n) eqn:E; [rewrite H by (by eexists); done|]. by destruct (d n), (d' n).
Qed.

Lemma without_without d d' m : without d (without d' m) = without (λ n, d' n || d n) m.
Proof. apply map_eq. intros n. rewrite !lookup_without. by destruct (d n), (d' n). Qed.

Lemma without_none d m : (∀ n, is_Some (m !! n) → d n = false) → without d m = m.
Proof. intros H. apply map_eq. intros n. rewrite lookup_without. destruct (d n) eqn:E; [|done]. destruct (m !! n) eqn:Em; [|done]. by rewrite H in E. Qed.

Lemma without_delete n m : without (λ x, String.eqb x n) m = delete n m.
Proof.
  apply map_eq. intros k. rewrite lookup_without. destruct (String.eqb_spec k n) as [->|Hne]; [by rewrite lookup_delete_eq|by rewrite lookup_delete_ne].
Qed.

Lemma without_mono d m m' : m ⊆ m' → without d m ⊆ without d m'.
Proof.
  intros Hm. apply map_subseteq_spec. intros n c. rewrite !lookup_without. destruct (d n); [done|]. intros H. by apply (lookup_weaken m).
Qed.

(** What a removal of the names in [d] leaves: no more than those are gone, and all of them when it succeeded. *)
Definition removal (P : Prop) (d : string → bool) (m0 : contents) (r : outcome unit) (m : contents) : Prop :=
  without d m0 ⊆ m ∧ m ⊆ m0 ∧ (r = Ret () → m = without d m0) ∧ (P → r ≠ Panic).

Lemma removal_none P d m0 r : r ≠ Ret () → (P → r ≠ Panic) → removal P d m0 r m0.
Proof. intros Hr Hp. split_and!; [apply without_subseteq|done|done|done]. Qed.

(** The property [I] holds on the way from [m0] to what is left without [d]. *)
Definition holds_between (I : contents → Prop) (d : string → bool) (m0 : contents) : Prop := ∀ m, without d m0 ⊆ m → m ⊆ m0 → I m.

Section Removal.
Context {B : Type} (tr : B → list contents) (bk : Bucket B) (Hbk : bucket_laws bk tr) (I : contents → Prop).

Lemma removal_each (P : Prop) (drop : string → string → bool) (f : string → io B unit) (names : list string) : ∀ m0,
  (∀ e m, e ∈ names → m ⊆ m0 → holds_between I (drop e) m → triple tr I m (f e) (removal P (drop e) m)) →
  holds_between I (λ n, existsb (λ e, drop e n) names) m0 →
  triple tr I m0 (each_name f names) (removal P (λ n, existsb (λ e, drop e n) names) m0).
Proof.
  induction names as [|e names IH]; intros m0 Hf HI; cbn [each_name existsb].
  - apply triple_ret. intros _. split_and!; [apply without_subseteq|done| |done]. intros _. by rewrite without_none.
  - assert (∀ m, without (drop e) m0 ⊆ m → m ⊆ m0 → without (λ n, drop e n || existsb (λ e, drop e n) names) m0 ⊆ without (λ n, existsb (λ e, drop e n) names) m) as Hle.
    { intros m Hlo _. rewrite <- (without_without (λ n, existsb (λ e, drop e n) names) (drop e)). by apply without_mono. }
    eapply triple_bind; [apply Hf; [by left|done|]| | |].
    + intros m Hlo Hhi. apply HI; [|done]. etrans; [by apply Hle|apply without_subseteq].
    + intros [] m1 _ (Hlo & Hhi & -> & _); [|done]. clear Hlo Hhi. eapply triple_weaken; [apply IH| ].
      * intros e' m He Hm HI'. apply Hf; [by right|etrans; [done|apply without_subseteq]|done].
      * intros m Hlo Hhi. apply HI; [by rewrite <- (without_without (λ n, existsb (λ e, drop e n) names) (drop e))|]. etrans; [done|apply without_subseteq].
      * intros r m _. unfold removal. rewrite without_without. intros (H1 & H2 & H3 & H4). split_and!; [done|etrans; [done|apply without_subseteq]|done|done].
    + intros er m1 _ (Hlo & Hhi & _ & Hp). split_and!; [|done|done|done]. etrans; [by apply Hle|apply without_subseteq].
    + intros m1 _ (Hlo & Hhi & _ & Hp). split_and!; [|done|done|done]. etrans; [by apply Hle|apply without_subseteq].
Qed.

(** What the removal of a directory drops, and enough fuel for its depth. *)
Definition dropped_in (keep : string → bool) (dir n : string) : bool := bool_decide (under dir n) && negb (keep n).
Definition fuel_ok (fuel : nat) (dir : string) (m : contents) : Prop :=
  0 < fuel ∧ ∀ n, is_Some (m !! n) → under dir n → String.length n < fuel + String.length (dir_prefix dir).
Definition plain_names (m : contents) : Prop := ∀ n, is_Some (m !! n) → plain n.

Lemma plain_subseteq m m' : m ⊆ m' → plain_names m' → plain_names m.
Proof. intros Hm Hp n [c Hn]. apply Hp. exists c. by eapply lookup_weaken. Qed.

Lemma fuel_ok_entry fuel dir m0 m n e : plain_names m0 → fuel_ok (S fuel) dir m0 → m ⊆ m0 → is_Some (m0 !! n) → entry dir n = Some e → ends_slash e = true → fuel_ok fuel e m.
Proof.
  intros Hplain [_ Hf] Hm Hn He Hs. pose proof (entry_longer _ _ _ He) as Hl. split.
  - assert (under e n) as Hu by (by apply (entry_dir dir n e n He Hs (Hplain n Hn))). assert (under dir n) as Hun by by eexists.
    specialize (Hf n Hn Hun). apply under_Some in Hu as (r & Hr & ->). rewrite dir_prefix_slash in Hf by done. rewrite length_app_str in Hf.
    destruct r; [done|]. cbn in Hf. lia.
  - intros n' [c Hn'] Hu. rewrite (dir_prefix_slash e) by done. specialize (Hf n' ltac:(exists c; by eapply lookup_weaken) ltac:(by eapply under_entry)). lia.
Qed.

(** What is dropped by an entry of a listing. *)
Definition entry_dropped (keep : string → bool) (e n : string) : bool := if ends_slash e then dropped_in keep e n else String.eqb n e && negb (keep e).

Lemma entries_dropped keep dir m names : plain_names m → (∀ e, e ∈ names ↔ ∃ n, is_Some (m !! n) ∧ entry dir n = Some e) →
  ∀ n, is_Some (m !! n) → existsb (λ e, entry_dropped keep e n) names = dropped_in keep dir n.
Proof.
  intros Hplain Hnames n Hn. apply eq_true_iff_eq. rewrite existsb_exists. unfold dropped_in. rewrite andb_true_iff, bool_decide_eq_true. split.
  - intros (e & He%list_elem_of_In & Hd). apply Hnames in He as (n0 & Hn0 & He). unfold entry_dropped in Hd. destruct (ends_slash e) eqn:Es.
    + apply andb_prop in Hd as [Hu%bool_decide_eq_true Hk]. split; [by eapply under_entry|done].
    + apply andb_prop in Hd as [->%String.eqb_eq Hk]. split; [|done]. pose proof (entry_file _ _ _ He Es) as ->. by eexists.
  - intros [[e He] Hk]. exists e. split; [apply list_elem_of_In, Hnames; by exists n|]. unfold entry_dropped. destruct (ends_slash e) eqn:Es.
    + apply andb_true_intro. split; [|done]. apply bool_decide_eq_true. by apply (entry_dir dir n e n He Es (Hplain n Hn)).
    + pose proof (entry_file _ _ _ He Es) as ->. by rewrite String.eqb_refl.
Qed.

Lemma deleteDirRec_spec keep fuel : ∀ dir m0, plain_names m0 → holds_between I (dropped_in keep dir) m0 →
  triple tr I m0 (deleteDirRec fuel bk keep dir) (removal (deletes bk ∧ fuel_ok fuel dir m0) (dropped_in keep dir) m0).
Proof.
  induction fuel as [|fuel IH]; intros dir m0 Hplain HI; cbn [deleteDirRec].
  - apply triple_lift. intros _. apply removal_none; [done|]. intros [_ [H _]]. lia.
  - eapply triple_bind; [by apply triple_Iter| | |].
    + intros names m1 _ (-> & _ & Hl). destruct (Hl names eq_refl) as [_ Hnames]. pose proof (entries_dropped keep dir m0 names Hplain Hnames) as Hd.
      eapply triple_weaken; [apply (removal_each (deletes bk ∧ fuel_ok (S fuel) dir m0) (entry_dropped keep))|].
      * intros e m He Hm HIm. apply Hnames in He as (n & Hn & He). unfold entry_dropped in *. destruct (ends_slash e) eqn:Es.
        -- eapply triple_weaken; [apply IH; [by eapply plain_subseteq|done]|]. intros r m' _ (H1 & H2 & H3 & H4). split_and!; [done..|].
           intros [Hdel Hfuel]. apply H4. split; [done|]. by eapply fuel_ok_entry.
        -- destruct (keep e).
           ++ apply triple_ret. intros _. split_and!; [apply without_subseteq|done| |done]. intros _. rewrite without_none; [done|]. intros. apply andb_false_r.
           ++ assert (without (λ n, String.eqb n e && negb false) m = delete e m) as Hw by (rewrite <- without_delete; apply without_ext; intros; apply andb_true_r).
              eapply triple_weaken; [apply (triple_Delete tr bk Hbk); intros _; rewrite <- Hw; apply HIm; [done|apply without_subseteq]|].
              intros r m' _ (Hnp & Hr). unfold removal. rewrite Hw. split_and!; [|..|by intros [? _]; apply Hnp].
              ** destruct Hr as [[-> _]| ->]; [apply delete_subseteq|done].
              ** destruct Hr as [[-> _]| ->]; [done|apply delete_subseteq].
              ** intros ->. by destruct Hr as [[_ ?]|].
      * intros m. rewrite (without_ext _ _ _ Hd). apply HI.
      * intros r m _. unfold removal. by rewrite (without_ext _ _ _ Hd).
    + intros e m1 _ (-> & _ & _). by apply removal_none.
    + intros m1 _ (_ & ? & _). done.
Qed.
End Removal.

(** ** Removal of a block *)

Lemma no_slash_plain id : no_slash id = true → ends_slash id = false.
Proof.
  induction id as [|c s IH]; [done|]. cbn [no_slash]. intros [Hc Hs]%andb_prop. rewrite ends_slash_cons.
  destruct (String.eqb s ""); [by apply negb_true_iff in Hc|by apply IH].
Qed.

(** Names of blocks: ulids have no slash in them. *)
Definition block_name (id : string) : Prop := id ≠ "" ∧ no_slash id = true.

Lemma block_dir id : block_name id → dir_prefix id = id +:+ "/".
Proof. intros [Hne Hs]. unfold dir_prefix. rewrite (no_slash_plain _ Hs). destruct (String.eqb_spec id ""); done. Qed.

Lemma path_Join_app id x : path_Join id x = (id +:+ "/") +:+ x.
Proof. unfold path_Join. by rewrite app_assoc_str. Qed.

Lemma path_Join_under id x : block_name id → x ≠ "" → under id (path_Join id x).
Proof. intros Hid Hx. apply under_Some. exists x. by rewrite block_dir, path_Join_app. Qed.

Lemma path_Join_inj id id' x y : no_slash id = true → no_slash id' = true → path_Join id x = path_Join id' y → id = id' ∧ x = y.
Proof. apply no_slash_app_inj. Qed.

Lemma path_Join_other id id' x : block_name id → no_slash id' = true → under id (path_Join id' x) → id = id'.
Proof.
  intros Hid Hid' (r & _ & Hr)%under_Some. rewrite block_dir in Hr by done. rewrite app_assoc_str in Hr. apply no_slash_app_inj in Hr as [-> _]; [done|done|apply Hid].
Qed.

Lemma path_Join_plain id x : x ≠ "" → plain x → plain (path_Join id x).
Proof. intros Hx Hp. unfold plain. rewrite path_Join_app, ends_slash_app. by destruct (String.eqb_spec x ""). Qed.

(** Every name in the directory of a block. *)
Definition in_block (id n : string) : bool := bool_decide (under id n).

Lemma without_sub d d' m : (∀ n, d' n = true → d n = true) → without d m ⊆ without d' m.
Proof.
  intros H. apply map_subseteq_spec. intros n c. rewrite !lookup_without. destruct (d' n) eqn:E; [by rewrite H|]. by destruct (d n).
Qed.

Section Delete.
Context {B : Type} (tr : B → list contents) (bk : Bucket B) (Hbk : bucket_laws bk tr) (I : contents → Prop).

Lemma removal_seq P d d' m0 (p q : io B unit) : triple tr I m0 p (removal P d m0) → triple tr I (without d m0) q (removal P d' (without d m0)) →
  triple tr I m0 (ibind p (λ _, q)) (removal P (λ n, d n || d' n) m0).
Proof.
  intros Hp Hq. assert (without (λ n, d n || d' n) m0 ⊆ without d m0) as Hsub by (apply without_sub; intros n ->; done).
  eapply triple_bind; [exact Hp| | |].
  - intros [] m1 _ (_ & _ & -> & _); [|done]. eapply triple_weaken; [exact Hq|]. intros r m _. unfold removal. rewrite without_without.
    intros (H1 & H2 & H3 & H4). split_and!; [done|etrans; [done|apply without_subseteq]|done|done].
  - intros e m1 _ (H1 & H2 & _ & H4). split_and!; [by etrans|done..].
  - intros m1 _ (H1 & H2 & _ & H4). split_and!; [by etrans|done..].
Qed.

Lemma removal_weaken (P P' : Prop) d d' m0 r m : (P' → P) → (∀ n, d n = d' n) → removal P d m0 r m → removal P' d' m0 r m.
Proof. intros HP Hd. unfold removal. rewrite (without_ext d d') by done. intros (H1 & H2 & H3 & H4). split_and!; auto. Qed.

Lemma delete_if_exists_spec m0 n : I (delete n m0) → triple tr I m0 (delete_if_exists bk n) (removal (deletes bk) (λ x, String.eqb x n) m0).
Proof.
  intros HI. unfold delete_if_exists. pose proof (without_delete n m0) as Hw. eapply triple_then; [by apply triple_Exists| | |].
  - intros [] m1 _ (-> & _ & Hx); specialize (Hx _ eq_refl).
    + eapply triple_then; [by apply (triple_Delete tr bk Hbk)| | |].
      * intros [] m1 _ [_ Hm]. apply triple_ret. intros _. destruct Hm as [[_ ?]| ->]; [done|]. rewrite <- Hw. split_and!; [done|apply without_subseteq|done|done].
      * intros e m1 _ [_ [[-> _]| ->]]; apply triple_fail; intros _; [by apply removal_none|]. rewrite <- Hw. split_and!; [done|apply without_subseteq|done|done].
      * intros m1 _ [Hp [[-> _]| ->]]; [by apply removal_none|]. rewrite <- Hw. split_and!; [done|apply without_subseteq|done|done].
    + apply triple_ret. intros _. symmetry in Hx. apply bool_decide_eq_false, eq_None_not_Some in Hx.
      split_and!; [apply without_subseteq|done| |done]. by rewrite Hw, delete_id.
  - intros e m1 _ (-> & _). apply triple_fail. intros _. by apply removal_none.
  - intros m1 _ (_ & ? & _). done.
Qed.

Definition kept_last (id name : string) : bool := String.eqb name (path_Join id MetaFilename) || String.eqb name (path_Join id DeletionMarkFilename).

(** The metadata goes first: nothing else of the block is gone while it is there. *)
Lemma DeleteBlock_spec fuel id m0 : block_name id → plain_names m0 →
  (∀ m, without (in_block id) m0 ⊆ m → m ⊆ m0 → m !! path_Join id MetaFilename = None → I m) →
  triple tr I m0 (Delete fuel bk id) (removal (deletes bk ∧ fuel_ok fuel id m0) (in_block id) m0).
Proof.
  intros Hid Hplain HI. unfold Delete. fold (kept_last id). set (meta := path_Join id MetaFilename) in *. set (mark := path_Join id DeletionMarkFilename).
  assert (in_block id meta = true) as Hmeta by by apply bool_decide_eq_true, path_Join_under.
  assert (in_block id mark = true) as Hmark by by apply bool_decide_eq_true, path_Join_under.
  assert (∀ d m, (∀ n, d n = true → in_block id n = true) → without d m0 ⊆ m → m ⊆ m0 → m !! meta = None → I m) as HI'.
  { intros d m Hd H1 H2 H3. apply HI; [|done|done]. etrans; [|exact H1]. by apply without_sub. }
  assert (∀ n, dropped_in (kept_last id) id n = true → in_block id n = true) as Hd1 by (intros n [? _]%andb_prop; done).
  eapply triple_weaken; [apply (removal_seq (deletes bk ∧ fuel_ok fuel id m0) (λ x, String.eqb x meta) (λ n, dropped_in (kept_last id) id n || String.eqb n mark))|].
  - eapply triple_weaken; [apply delete_if_exists_spec|intros r m _; apply removal_weaken; [by intros [? _]|done]].
    apply (HI' (λ x, String.eqb x meta)); [by intros n ->%String.eqb_eq|by rewrite without_delete|apply delete_subseteq|apply lookup_delete_eq].
  - set (m1 := without _ m0). assert (m1 !! meta = None) as Hm1 by (subst m1; by rewrite lookup_without, String.eqb_refl).
    assert (m1 ⊆ m0) as Hsub by apply without_subseteq. apply removal_seq.
    + eapply triple_weaken; [apply deleteDirRec_spec; [done|by eapply plain_subseteq|]|].
      * intros m H1 H2. subst m1. rewrite without_without in H1. apply (HI' _ m) in H1; [done| |by etrans|by eapply lookup_weaken_None].
        intros n [->%String.eqb_eq|?]%orb_prop; [done|by apply Hd1].
      * intros r m _. apply removal_weaken; [|done]. intros [? [? Hf]]. split; [done|]. split; [done|]. intros n [c Hn]. apply Hf. exists c. by apply (lookup_weaken m1).
    + eapply triple_weaken; [apply delete_if_exists_spec|intros r m _; apply removal_weaken; [by intros [? _]|done]]. rewrite <- without_delete. subst m1. rewrite !without_without.
      eapply HI'; [|reflexivity|apply without_subseteq|by rewrite lookup_without, String.eqb_refl].
      intros n [->%String.eqb_eq|[?| ->%String.eqb_eq]%orb_prop]%orb_prop; [done|by apply Hd1|done].
  - intros r m _. apply removal_weaken; [done|]. intros n. apply eq_true_iff_eq. rewrite !orb_true_iff. unfold dropped_in, kept_last. fold meta mark.
    destruct (String.eqb_spec n meta) as [E|]; [rewrite E; tauto|]. destruct (String.eqb_spec n mark) as [E|]; [rewrite E; tauto|].
    cbn. rewrite andb_true_r. unfold in_block. intuition discriminate.
Qed.
End Delete.

(** ** Upload of a block *)

Section Upload.
Context {B : Type} (tr : B → list contents) (bk : Bucket B) (Hbk : bucket_laws bk tr).
Context (encode : BlockMeta → outcome content) (decode : content → outcome BlockMeta) (Hjson : ∀ m c, encode m = Ret c → decode c = Ret m).

(** A block that can be seen, by its metadata, has all its files. *)
Definition complete (m : contents) : Prop := ∀ id c meta, no_slash id = true → m !! path_Join id MetaFilename = Some c → decode c = Ret meta →
  ∀ f, f ∈ me_Files (bm_Meta meta) → is_Some (m !! path_Join id (fi_RelPath f)).

Lemma complete_insert m id x c : no_slash id = true → x ≠ MetaFilename → complete m → complete (<[path_Join id x := c]> m).
Proof.
  intros Hid Hx Hm id' c' meta Hid' Hc' Hd f Hf. rewrite lookup_insert_ne in Hc'.
  - apply lookup_insert_is_Some'. right. by eapply Hm.
  - intros H. destruct (path_Join_inj _ _ _ _ Hid Hid' H). congruence.
Qed.

Lemma complete_meta m id c meta : no_slash id = true → decode c = Ret meta → (∀ f, f ∈ me_Files (bm_Meta meta) → is_Some (m !! path_Join id (fi_RelPath f))) →
  complete m → complete (<[path_Join id MetaFilename := c]> m).
Proof.
  intros Hid Hc Hfiles Hm id' c' meta' Hid' Hc' Hd f Hf. apply lookup_insert_is_Some'. destruct (decide (id' = id)) as [->|Hne].
  - rewrite lookup_insert_eq in Hc'. injection Hc' as <-. rewrite Hc in Hd. injection Hd as <-. right. by apply Hfiles.
  - right. rewrite lookup_insert_ne in Hc'; [by eapply Hm|]. intros H. destruct (path_Join_inj _ _ _ _ Hid Hid' H). congruence.
Qed.

Lemma complete_removed m m0 id : block_name id → complete m0 → without (in_block id) m0 ⊆ m → m ⊆ m0 → m !! path_Join id MetaFilename = None → complete m.
Proof.
  intros Hid H0 H1 H2 Hnone id' c meta Hid' Hc Hd f Hf. assert (id' ≠ id) as Hne by (intros ->; congruence).
  destruct (H0 id' c meta Hid' ltac:(by eapply lookup_weaken) Hd f Hf) as [x Hx]. exists x. apply (lookup_weaken (without (in_block id) m0)); [|done].
  rewrite lookup_without. unfold in_block. rewrite bool_decide_eq_false_2; [done|]. intros Hu. by apply (path_Join_other id) in Hu.
Qed.

(** The names of objects: short enough for [fuel], and none of a directory. *)
Context (fuel : nat).
Definition object_names_ok (m : contents) : Prop := ∀ n, is_Some (m !! n) → plain n ∧ String.length n < fuel.

(** What holds of the contents at any moment. *)
Definition sound (m : contents) : Prop := complete m ∧ object_names_ok m.

(** Files with names that are not those of directories nor of the metadata. *)
Definition file_ok (id : string) (f : File) : Prop :=
  fi_RelPath f ≠ "" ∧ plain (fi_RelPath f) ∧ fi_RelPath f ≠ MetaFilename ∧ String.length (path_Join id (fi_RelPath f)) < fuel.

Lemma object_names_insert m n c : plain n → String.length n < fuel → object_names_ok m → object_names_ok (<[n := c]> m).
Proof. intros Hp Hl Hm n' [<-|Hn]%lookup_insert_is_Some'; [done|by apply Hm]. Qed.

Lemma object_names_sub m m' : m ⊆ m' → object_names_ok m' → object_names_ok m.
Proof. intros Hsub Hm n [c Hn]. apply Hm. exists c. by apply (lookup_weaken m). Qed.

Lemma names_plain m : object_names_ok m → plain_names m.
Proof. intros H n Hn. by apply H. Qed.

Lemma names_fuel id m : 0 < fuel → object_names_ok m → fuel_ok fuel id m.
Proof. intros H0 H. split; [done|]. intros n Hn _. destruct (H n Hn). lia. Qed.

(** The contents after the files of a directory have been uploaded. *)
Definition put_file (dir : BlockDir) (id : string) (m : contents) (f : File) : contents :=
  if bd_File dir (fi_RelPath f) is Ret c then <[path_Join id (fi_RelPath f) := c]> m else m.
Definition put_files (dir : BlockDir) (id : string) (files : list File) (m : contents) : contents := foldl (put_file dir id) m files.

(** What an upload that failed leaves. *)
Definition cleaned (id e : string) (m0 m : contents) : Prop :=
  m = without (in_block id) m0 ∨ ((∃ e', e = "failed to clean block after upload issue. Partial block in system. Err: " +:+ e') ∧ without (in_block id) m0 ⊆ m).

Lemma without_block_insert id x c m : block_name id → x ≠ "" → without (in_block id) (<[path_Join id x := c]> m) = without (in_block id) m.
Proof.
  intros Hid Hx. apply map_eq. intros n. rewrite !lookup_without. destruct (in_block id n) eqn:E; [done|]. rewrite lookup_insert_ne; [done|].
  intros <-. apply bool_decide_eq_false in E. by apply E, path_Join_under.
Qed.

Lemma without_between id m m1 m0 : without (in_block id) m1 = without (in_block id) m0 → without (in_block id) m1 ⊆ m → m ⊆ m1 → without (in_block id) m = without (in_block id) m0.
Proof.
  intros <- H1 H2. apply (anti_symm (⊆)); [by apply without_mono|]. etrans; [|by apply without_mono]. rewrite without_without. apply without_sub. intros n. by rewrite orb_diag.
Qed.

(** While the block [id] is uploaded, the others, [rest], stay. *)
Context (id : string) (Hid : block_name id) (Hfuel : 0 < fuel) (rest : contents).
Definition sound_with (m : contents) : Prop := sound m ∧ without (in_block id) m = rest.

Lemma cleanUp_spec {A} m0 err (Q : outcome A → contents → Prop) : (∀ e m, cleaned id e m0 m → Q (Fail e) m) → (∀ m, ¬ deletes bk → Q Panic m) →
  triple tr sound_with m0 (cleanUp fuel bk id err) Q.
Proof.
  intros Hfail Hpanic. apply triple_pre. intros [[Hc Hn] Hw]. unfold cleanUp. eapply triple_then; [apply (DeleteBlock_spec tr bk Hbk sound_with)| | |].
  - done.
  - by apply names_plain.
  - intros m H1 H2 H3. split; [split; [by eapply complete_removed|by eapply object_names_sub]|]. rewrite <- Hw. by eapply without_between.
  - intros [] m1 _ (_ & _ & Heq & _). rewrite Heq by done. apply triple_fail. intros _. apply Hfail. by left.
  - intros e m1 _ (H1 & H2 & _). apply triple_fail. intros _. apply Hfail. right. split; [by eexists|done].
  - intros m1 _ (H1 & H2 & _ & H4). apply Hpanic. intros Hdel. apply H4; [|done]. split; [done|]. by apply names_fuel.
Qed.

Lemma sound_insert x c m : x ≠ "" → plain x → x ≠ MetaFilename → String.length (path_Join id x) < fuel → sound_with m → sound_with (<[path_Join id x := c]> m).
Proof.
  intros H1 H2 H3 H4 [[Hc Hn] Hw]. split; [split|by rewrite without_block_insert].
  - apply complete_insert; [apply Hid|done|done].
  - apply object_names_insert; [by apply path_Join_plain|done|done].
Qed.

Lemma UploadFile_spec dir f m : file_ok id f → bd_File dir (fi_RelPath f) ≠ Panic →
  triple tr sound_with m (UploadFile bk dir (fi_RelPath f) (path_Join id (fi_RelPath f))) (λ r m1, r ≠ Panic ∧
    ((m1 = m ∧ r ≠ Ret ()) ∨ ∃ c, bd_File dir (fi_RelPath f) = Ret c ∧ m1 = <[path_Join id (fi_RelPath f) := c]> m)).
Proof.
  intros (H1 & H2 & H3 & H4) Hnp. unfold UploadFile. destruct (bd_File dir (fi_RelPath f)) as [c|e|] eqn:E; [| |done].
  - eapply triple_bind; [apply (triple_lift _ _ _ _ (λ r m1, m1 = m ∧ r = Ret c)); done| |by intros ? ? _ [_ ?]|by intros ? _ [_ ?]].
    intros c' m1 _ [-> [= ->]]. eapply triple_weaken; [apply (triple_Upload tr bk Hbk); by apply sound_insert|].
    intros r m1 _ (Hr & [[-> ?]|?]); (split; [done|]); [by left|right; by exists c].
  - eapply triple_bind; [apply (triple_lift _ _ _ _ (λ r m1, m1 = m ∧ r = Fail e)); done|by intros ? ? _ [_ ?]| |by intros ? _ [_ ?]].
    intros e' m1 _ [-> _]. split; [done|by left].
Qed.

Lemma upload_files_spec dir files m0 : without (in_block id) m0 = rest → (∀ n, bd_File dir n ≠ Panic) → Forall (file_ok id) files → ∀ m,
  triple tr sound_with m (upload_files fuel bk dir id files) (λ r m',
    match r with
    | Ret _ => m' = put_files dir id files m ∧ ∀ f, f ∈ files → ∃ c, bd_File dir (fi_RelPath f) = Ret c
    | Fail e => cleaned id e m0 m'
    | Panic => ¬ deletes bk
    end).
Proof.
  intros Hrest Hnp Hfiles. induction Hfiles as [|f files Hf _ IH]; intros m; cbn [upload_files].
  { apply triple_ret. intros _. split; [done|]. by intros f ?%elem_of_nil. }
  eapply triple_then; [by apply UploadFile_spec| | |].
  - intros [] m1 _ [_ [[_ ?]|(c & Hc & ->)]]; [done|]. eapply triple_weaken; [apply IH|].
    intros [[]|e|] m' _; [|done|done]. intros [-> H2]. split.
    + change (put_files dir id (f :: files) m) with (put_files dir id files (put_file dir id m f)). unfold put_file. by rewrite Hc.
    + intros f' [->|Hf']%elem_of_cons; [by exists c|by apply H2].
  - intros e m1 [_ Hw] _. apply cleanUp_spec; [|done]. intros e' m' Hcl. unfold cleaned in *. by rewrite Hrest, <- Hw.
  - by intros m1 _ [? _].
Qed.

(** The metadata that is uploaded. *)
Definition with_hostname (hostname : option string) (meta : BlockMeta) : BlockMeta :=
  if hostname is Some h then set_labels meta (<[HostnameLabel := h]> (bm_Labels meta)) else meta.

(** A local block: nothing in reading it panics, and its files have names of their own. *)
Record dir_ok (hostname : option string) (dir : BlockDir) : Prop := {
  do_id : block_name id; do_name : String.length (path_Join id MetaFilename) < fuel; do_ID : bd_ID dir = Ret id;
  do_IsDir : bd_IsDir dir ≠ Panic; do_Meta : bd_Meta dir ≠ Panic; do_File n : bd_File dir n ≠ Panic;
  do_encode meta : bd_Meta dir = Ret meta → encode (with_hostname hostname meta) ≠ Panic;
  do_files meta : bd_Meta dir = Ret meta → Forall (file_ok id) (me_Files (bm_Meta meta)) }.

(** What an upload of the block [id] leaves of the contents [m0]. *)
Definition uploaded (hostname : option string) (dir : BlockDir) (m0 : contents) (r : outcome unit) (m : contents) : Prop :=
  match r with
  | Ret _ => ∃ meta c, bd_Meta dir = Ret meta ∧ encode (with_hostname hostname meta) = Ret c ∧
      (∀ f, f ∈ me_Files (bm_Meta meta) → ∃ c, bd_File dir (fi_RelPath f) = Ret c) ∧
      m = <[path_Join id MetaFilename := c]> (put_files dir id (me_Files (bm_Meta meta)) m0)
  | Fail e => m = m0 ∨ cleaned id e m0 m ∨ ∃ e' meta, e = "upload meta file: " +:+ e' ∧ bd_Meta dir = Ret meta ∧
      (m = put_files dir id (me_Files (bm_Meta meta)) m0 ∨ ∃ c, encode (with_hostname hostname meta) = Ret c ∧ m = <[path_Join id MetaFilename := c]> (put_files dir id (me_Files (bm_Meta meta)) m0))
  | Panic => ¬ deletes bk
  end.

Lemma put_files_has dir files : ∀ m, (∀ f, f ∈ files → ∃ c, bd_File dir (fi_RelPath f) = Ret c) → ∀ n, is_Some (m !! n) ∨ (∃ f, f ∈ files ∧ n = path_Join id (fi_RelPath f)) → is_Some (put_files dir id files m !! n).
Proof.
  induction files as [|f files IH]; intros m Hr n Hn.
  - destruct Hn as [?|(f & Hf & _)]; [done|by apply elem_of_nil in Hf].
  - apply IH; [intros f' Hf'; apply Hr; by right|]. destruct (Hr f ltac:(by left)) as [c Hc]. unfold put_file. rewrite Hc.
    destruct Hn as [?|(f' & [->|Hf']%elem_of_cons & ->)]; [left; apply lookup_insert_is_Some'; by right|left; apply lookup_insert_is_Some'; by left|right; by exists f'].
Qed.

Lemma with_hostname_Meta hostname meta : bm_Meta (with_hostname hostname meta) = bm_Meta meta.
Proof. by destruct hostname. Qed.

Lemma put_meta_spec hostname dir m0 m meta c : String.length (path_Join id MetaFilename) < fuel → bd_Meta dir = Ret meta → encode (with_hostname hostname meta) = Ret c →
  (∀ f, f ∈ me_Files (bm_Meta meta) → ∃ c, bd_File dir (fi_RelPath f) = Ret c) → m = put_files dir id (me_Files (bm_Meta meta)) m0 →
  triple tr sound_with m (ithen (bk_Upload bk (path_Join id MetaFilename) c) iret (λ e, ifail ("upload meta file: " +:+ e))) (uploaded hostname dir m0).
Proof.
  intros Hlen Hmeta Hc Hread Hm. eapply triple_then; [apply (triple_Upload tr bk Hbk)| | |].
  - intros [[Hcm Hn] Hw]. split; [split|by rewrite without_block_insert].
    + apply (complete_meta _ _ _ (with_hostname hostname meta)); [apply Hid|by apply Hjson| |done].
      rewrite with_hostname_Meta. intros f Hf. rewrite Hm. apply put_files_has; [done|right; by exists f].
    + apply object_names_insert; [by apply path_Join_plain|done|done].
  - intros [] m1 _ [_ [[_ ?]| ->]]; [done|]. apply triple_ret. intros _. exists meta, c. by rewrite <- Hm.
  - intros e m1 _ [_ Hm1]. apply triple_fail. intros _. right. right. exists e, meta. split_and!; [done|done|].
    destruct Hm1 as [[-> _]| ->]; [by left|right]. exists c. by rewrite <- Hm.
  - by intros m1 _ [? _].
Qed.

(** Reading the local block: an error leaves the bucket as it was. *)
Lemma read_spec {A} (o : outcome A) m0 (k : A → io B unit) hostname dir : o ≠ Panic → (∀ a, o = Ret a → triple tr sound_with m0 (k a) (uploaded hostname dir m0)) →
  triple tr sound_with m0 (ibind (lift o) k) (uploaded hostname dir m0).
Proof.
  intros Hnp Hk. eapply triple_bind; [apply (triple_lift _ _ _ _ (λ r m, m = m0 ∧ r = o)); done| | |].
  - intros a m1 _ [-> <-]. by apply Hk.
  - intros e m1 _ [-> _]. by left.
  - by intros m1 _ [_ <-].
Qed.

Lemma wrap_Ret {A} msg (o : outcome A) a : wrap msg o = Ret a → o = Ret a.
Proof. by destruct o. Qed.

Lemma wrap_Panic {A} msg (o : outcome A) : o ≠ Panic → wrap msg o ≠ Panic.
Proof. by destruct o. Qed.

Lemma Upload_spec hostname dir m0 : dir_ok hostname dir → without (in_block id) m0 = rest → triple tr sound_with m0 (Upload encode fuel bk hostname dir) (uploaded hostname dir m0).
Proof.
  intros Hdir Hrest. unfold Upload. rewrite (do_ID _ _ Hdir). apply read_spec; [apply Hdir|]. intros [] _; cbn [negb]; [|apply triple_fail; intros _; by left].
  apply read_spec; [done|]. intros ? [= <-]. apply read_spec; [apply wrap_Panic, Hdir|]. intros meta Hmeta%wrap_Ret.
  fold (with_hostname hostname meta). apply read_spec; [by apply wrap_Panic, Hdir|]. intros c Hc%wrap_Ret. rewrite with_hostname_Meta.
  eapply triple_bind; [apply (upload_files_spec dir _ m0); [done|apply Hdir|by apply (do_files _ _ Hdir)]| | |].
  - intros [] m1 _ (Hm & Hread). eapply put_meta_spec; try done. apply Hdir.
  - intros e m1 _ Hcl. right. by left.
  - done.
Qed.
End Upload.

Lemma without_block_eq id m m' n : without (in_block id) m = without (in_block id) m' → ¬ under id n → m !! n = m' !! n.
Proof. intros Hw Hn. apply (f_equal (.!! n)) in Hw. rewrite !lookup_without in Hw. unfold in_block in Hw. by rewrite bool_decide_eq_false_2 in Hw. Qed.

(** C13: Uploading a block is safe at every moment: whatever fails or crashes, a block whose metadata is in the bucket has
    all its files, and other blocks are as they were.  A success puts the files and then the metadata; a failure leaves
    the bucket as it was, without the block, says that the clean-up failed, or is that of uploading the metadata; and the
    upload panics only on a bucket whose deletions do. *)
Theorem Upload_correct {B} (bk : Bucket B) tr encode decode fuel hostname dir id b r b' :
  bucket_laws bk tr → (∀ m c, encode m = Ret c → decode c = Ret m) → dir_ok encode fuel id hostname dir → sound decode fuel (hd ∅ (tr b)) →
  Upload encode fuel bk hostname dir b = (r, b') →
  (∃ l, tr b' = l ++ tr b ∧ Forall (λ m, sound decode fuel m ∧ ∀ n, ¬ under id n → m !! n = hd ∅ (tr b) !! n) l) ∧
  uploaded bk encode id hostname dir (hd ∅ (tr b)) r (hd ∅ (tr b')).
Proof.
  intros Hbk Hjson Hdir Hs E. assert (0 < fuel) as Hfuel by (pose proof (do_name _ _ _ _ _ Hdir); lia).
  destruct (Upload_spec tr bk Hbk encode decode Hjson fuel id (do_id _ _ _ _ _ Hdir) Hfuel (without (in_block id) (hd ∅ (tr b))) hostname dir _ Hdir eq_refl b eq_refl (conj Hs eq_refl) r b' E)
    as ((l & Hl & HF) & Hu).
  split; [|done]. exists l. split; [done|]. eapply Forall_impl; [exact HF|]. intros m [Hm Hw]. split; [done|]. intros n Hn. by apply (without_block_eq id).
Qed.

(** ** A bucket in memory, with faults *)

Inductive fault := Works | FailsBefore | FailsAfter.
Record mem := mkMem { mm_trace : list contents; mm_faults : list fault }.

Definition bucket_op {A} (f : contents → outcome A * option contents) : io mem A := λ b,
  let m := hd ∅ (mm_trace b) in
  let '(r, m') := f m in
  let trace := if m' is Some m' then m' :: mm_trace b else mm_trace b in
  match mm_faults b with
  | [] => (r, mkMem trace [])
  | Works :: fs => (r, mkMem trace fs)
  | FailsBefore :: fs => (Fail "fault", mkMem (mm_trace b) fs)
  | FailsAfter :: fs => (Fail "fault", mkMem trace fs)
  end.

Definition mem_bucket : Bucket mem := mkBucket
  (λ dir, bucket_op (λ m, (Ret (remove_dups (omap (λ x, entry dir x.1) (map_to_list m))), None)))
  (λ n, bucket_op (λ m, (Ret (bool_decide (is_Some (m !! n))), None)))
  (λ n, bucket_op (λ m, (if m !! n is Some c then Ret c else Fail "not found", None)))
  (λ n c, bucket_op (λ m, (Ret (), Some (<[n := c]> m))))
  (λ n, bucket_op (λ m, (Ret (), Some (delete n m)))).

Lemma mem_laws : bucket_laws mem_bucket mm_trace.
Proof.
  split; cbn [mem_bucket bk_Iter bk_Exists bk_Get bk_Upload bk_Delete]; unfold bucket_op.
  - intros dir b r b'. destruct (mm_faults b) as [|[] fs]; intros [= <- <-]; (split; [done|split; [done|]]); try done; intros names [= <-];
      (split; [apply NoDup_remove_dups|]); intros e; rewrite elem_of_remove_dups, list_elem_of_omap; split;
      try (intros ([n c] & Hn%elem_of_map_to_list & He); exists n; by split; [eexists|]);
      intros (n & [c Hn] & He); exists (n, c); by rewrite elem_of_map_to_list.
  - intros n b r b'. destruct (mm_faults b) as [|[] fs]; intros [= <- <-]; (split; [done|split; [done|]]); try done; by intros x [= <-].
  - intros n b r b'. destruct (hd ∅ (mm_trace b) !! n) eqn:E; destruct (mm_faults b) as [|[] fs]; intros [= <- <-]; (split; [done|split; [done|]]); try done; by intros x [= <-].
  - intros n c b r b'. destruct (mm_faults b) as [|[] fs]; intros [= <- <-]; (split; [done|]); [by right|by right|by left|by right].
  - intros n b r b'. destruct (mm_faults b) as [|[] fs]; intros [= <- <-]; [by right|by right|by left|by right].
Qed.

Lemma mem_deletes : deletes mem_bucket.
Proof. intros n b. cbn. unfold bucket_op. by destruct (mm_faults b) as [|[] ?]. Qed.

(** [TestDeletePrefix]. *)
Definition prefix_objects : contents :=
  list_to_map ((λ n, (n, [])) <$> ["obj"; "prefix/1"; "prefix/2"; "prefix/sub1/3"; "prefix/sub2/4"; "outside/obj"]).

Example DeletePrefix_test : let '(r, b) := DeletePrefix 5 mem_bucket "prefix" (mkMem [prefix_objects] []) in
  r = Ret (4, None) ∧ (map_to_list (hd ∅ (mm_trace b))).*1 = ["outside/obj"; "obj"].
Proof. vm_compute. split; reflexivity. Qed.

(** A block of two files; its metadata is the text of a constant. *)
Definition small_meta : BlockMeta := mkBlockMeta (mkMeta 1 0 10 1 [mkFileInfo "index.tsdb" 1 None None; mkFileInfo "profiles.parquet" 2 None None] 1) 1 ∅ "".
#[global] Instance ParquetFile_eq : EqDecision ParquetFile.
Proof. solve_decision. Defined.
#[global] Instance TSDBFile_eq : EqDecision TSDBFile.
Proof. solve_decision. Defined.
#[global] Instance File_eq : EqDecision File.
Proof. solve_decision. Defined.
#[global] Instance Meta_eq : EqDecision Meta.
Proof. solve_decision. Defined.
#[global] Instance BlockMeta_eq : EqDecision BlockMeta.
Proof. solve_decision. Defined.

Definition small_encode (m : BlockMeta) : outcome content := if decide (m = small_meta) then Ret [7]%N else Fail "other".
Definition small_decode (c : content) : outcome BlockMeta := if decide (c = [7]%N) then Ret small_meta else Fail "other".
Definition small_dir : BlockDir := mkBlockDir (Ret true) (Ret "B1") (Ret small_meta)
  (λ n, if String.eqb n "index.tsdb" then Ret [1]%N else if String.eqb n "profiles.parquet" then Ret [2; 2]%N else Fail "no such file").

Lemma small_json m c : small_encode m = Ret c → small_decode c = Ret m.
Proof. unfold small_encode, small_decode. destruct (decide (m = small_meta)) as [->|]; [|done]. by intros [= <-]. Qed.

Lemma small_dir_ok : dir_ok small_encode 100 "B1" None small_dir.
Proof.
  split; try done.
  - apply Nat.ltb_lt. reflexivity.
  - intros n. cbn. by destruct (String.eqb n "index.tsdb"), (String.eqb n "profiles.parquet").
  - intros meta [= <-]. unfold with_hostname, small_encode. by rewrite decide_True.
  - intros meta [= <-]. repeat constructor; try done; apply Nat.ltb_lt; reflexivity.
Qed.

Lemma empty_sound decode fuel : sound decode fuel ∅.
Proof. split; [intros ? ? ? ? H; by rewrite lookup_empty in H|]. by intros n [c Hn]. Qed.

(** The second file fails and the first one is removed again; without a fault the metadata is last. *)
Definition small_upload (faults : list fault) : outcome unit * mem := Upload small_encode 100 mem_bucket None small_dir (mkMem [∅] faults).

Lemma small_upload_result : map_to_list (hd ∅ (mm_trace (small_upload [Works; FailsBefore]).2)) = [] ∧
  (λ m : contents, (map_to_list m).*1) <$> mm_trace (small_upload []).2 =
    [["B1/meta.json"; "B1/index.tsdb"; "B1/profiles.parquet"]; ["B1/index.tsdb"; "B1/profiles.parquet"]; ["B1/index.tsdb"]; []].
Proof. vm_compute. split; reflexivity. Qed.

Lemma Upload_correct_witness : map_to_list (hd ∅ (mm_trace (small_upload [Works; FailsBefore]).2)) = [] ∧
  Forall (sound small_decode 100) (mm_trace (small_upload [Works; FailsBefore]).2).
Proof.
  split; [exact (proj1 small_upload_result)|].
  destruct (Upload_correct mem_bucket mm_trace small_encode small_decode 100 None small_dir "B1" (mkMem [∅] [Works; FailsBefore]) (small_upload [Works; FailsBefore]).1
    (small_upload [Works; FailsBefore]).2 mem_laws small_json small_dir_ok (empty_sound _ _) (surjective_pairing _)) as ((l & Hl & HF) & _).
  rewrite Hl. apply Forall_app. split; [eapply Forall_impl; [exact HF|by intros ? [? _]]|]. constructor; [apply empty_sound|constructor].
Defined.

(** The same failure on a prefixed view of the bucket, which is what an ingester uploads to, ends with the stack,
    however deep it is ([prefixed_Delete_panics]). *)
Example prefixed_upload_crashes :
  (Upload small_encode 100 (BucketWithPrefix 1000 mem_bucket "tenant/phlaredb") None small_dir (mkMem [∅] [Works; FailsBefore])).1 = Panic.
Proof. vm_compute. reflexivity. Qed.
