(* ===== verification/Shipper.v ===== *)
(** * The shipper (src/pkg/phlaredb/shipper/shipper.go)

    Finished blocks are uploaded to a bucket; a file in the data directory records those that are there.  One state holds
    the bucket and the local disk; both are records of operations on it.  The local file system, JSON and the overlap
    check of the Prometheus library are parameters. *)

From Stdlib Require Import Ascii.
From S2P Require Import Prelude Sorting BlockQuerier Bucket.

(** ** The local disk *)

(** [lo_ReadFile] reads [shipper.json]; [lo_CreateTmp] creates its temporary file, which [lo_WriteTmp] writes and closes; [lo_RemoveAll] and
    [lo_Rename] are the first steps of [renameFile] and [lo_SyncDir] the others.  [lo_WriteToFile] is the writing of
    [meta.json] to the directory of a block, and [lo_Dir] what that directory then holds. *)
Record Local (W : Type) := mkLocal {
  lo_ReadFile : io W content;
  lo_CreateTmp : io W unit;
  lo_WriteTmp : content → io W unit;
  lo_RemoveAll : io W unit;
  lo_Rename : io W unit;
  lo_SyncDir : io W unit;
  lo_BlockMetas : io W (list BlockMeta);
  lo_WriteToFile : BlockMeta → io W unit;
  lo_Dir : N → W → BlockDir }.
Arguments mkLocal {W}.
Arguments lo_ReadFile {W}.
Arguments lo_CreateTmp {W}.
Arguments lo_WriteTmp {W}.
Arguments lo_RemoveAll {W}.
Arguments lo_Rename {W}.
Arguments lo_SyncDir {W}.
Arguments lo_BlockMetas {W}.
Arguments lo_WriteToFile {W}.
Arguments lo_Dir {W}.

(** [shipper.Meta] and [tsdb.BlockMeta]. *)
Record ShipMeta := mkShipMeta { sm_Version : Z; sm_Uploaded : list N }.
Record TSDBMeta := mkTSDBMeta { tb_ULID : N; tb_MinTime : Z; tb_MaxTime : Z }.

Definition TSDBBlockMeta (m : BlockMeta) : TSDBMeta := mkTSDBMeta (me_ULID (bm_Meta m)) (me_MinTime (bm_Meta m)) (me_MaxTime (bm_Meta m)).

Definition ShipMetaVersion1 : Z := 1.

Record Shipper := mkShipper { sh_source : string; sh_uploadCompacted : bool; sh_allowOutOfOrderUploads : bool; sh_hostname : option string }.

(** [filepath.Base]. *)
Fixpoint last_elem (s acc : string) : string :=
  match s with
  | EmptyString => acc
  | String c s => if Ascii.eqb c "/"%char then last_elem s EmptyString else last_elem s (acc +:+ String c EmptyString)
  end.

Fixpoint trim_slashes (s : string) : string :=
  match s with
  | EmptyString => EmptyString
  | String c s => let s := trim_slashes s in if Ascii.eqb c "/"%char && String.eqb s "" then EmptyString else String c s
  end.

Definition Base (path : string) : string :=
  if String.eqb path "" then "." else let s := trim_slashes path in if String.eqb s "" then "/" else last_elem s EmptyString.

(** The errors of a call as a value. *)
Definition icatch {W A} (m : io W A) : io W (A + string) := ithen m (λ a, iret (inl a)) (λ e, iret (inr e)).

Record lazyOverlapChecker := mkChecker { lc_synced : bool; lc_metas : list TSDBMeta; lc_lookupMetas : gset N }.
Definition newLazyOverlapChecker : lazyOverlapChecker := mkChecker false [] ∅.

(** What a loop over blocks has done. *)
Record progress := mkProgress { pg_checker : lazyOverlapChecker; pg_Uploaded : list N; pg_uploaded : nat; pg_uploadErrs : nat }.

Section Shipper.
Context {W : Type} (bk : Bucket W) (lo : Local W) (fuel : nat).
Context (ulid_Parse : string → outcome N) (ulid_String : N → string) (encode : BlockMeta → outcome content) (decode : content → outcome BlockMeta).
Context (encode_ship : ShipMeta → outcome content) (decode_ship : content → outcome ShipMeta) (OverlappingBlocks : list TSDBMeta → list string).

Definition IsBlockDir (path : string) : option N := if ulid_Parse (Base path) is Ret id then Some id else None.

(** ** The file of uploaded blocks *)

Definition ReadMetaFile : io W ShipMeta :=
  ibind (lo_ReadFile lo) (λ b,
  ibind (lift (decode_ship b)) (λ m,
  if (sm_Version m =? ShipMetaVersion1)%Z then iret m else ifail "unexpected meta file version")).

Definition renameFile : io W unit := ibind (lo_RemoveAll lo) (λ _, ibind (lo_Rename lo) (λ _, lo_SyncDir lo)).

Definition WriteMetaFile (meta : ShipMeta) : io W unit :=
  ibind (lo_CreateTmp lo) (λ _, ibind (lift (encode_ship meta)) (λ c, ibind (lo_WriteTmp lo c) (λ _, renameFile))).

(** ** Overlaps *)

(** The names of the bucket's top level; what was found before an error stays in the checker. *)
Fixpoint sync_names (c : lazyOverlapChecker) (names : list string) : io W (lazyOverlapChecker * option string) :=
  match names with
  | [] => iret (c, None)
  | path :: names =>
      match IsBlockDir path with
      | None => sync_names c names
      | Some id =>
          ibind (icatch (DownloadMeta ulid_String decode bk id)) (λ r,
          match r with
          | inl m => sync_names (mkChecker (lc_synced c) (lc_metas c ++ [TSDBBlockMeta m]) ({[me_ULID (bm_Meta m)]} ∪ lc_lookupMetas c)) names
          | inr e => iret (c, Some ("get all block meta.: " +:+ e))
          end)
      end
  end.

Definition sync (c : lazyOverlapChecker) : io W (lazyOverlapChecker * option string) :=
  ibind (icatch (bk_Iter bk "")) (λ r,
  match r with
  | inl names =>
      ibind (sync_names c names) (λ '(c, err),
      iret (if err is Some e then (c, Some e) else (mkChecker true (lc_metas c) (lc_lookupMetas c), None)))
  | inr e => iret (c, Some ("get all block meta.: " +:+ e))
  end).

Definition overlap_error (c : lazyOverlapChecker) (newMeta : TSDBMeta) : option string :=
  match OverlappingBlocks (sort_slice (λ a b, (tb_MinTime a <? tb_MinTime b)%Z) (newMeta :: lc_metas c)) with
  | [] => None
  | o :: _ => Some ("shipping compacted block " +:+ ulid_String (tb_ULID newMeta) +:+ " is blocked; overlap spotted: " +:+ o)
  end.

Definition IsOverlapping (c : lazyOverlapChecker) (newMeta : TSDBMeta) : io W (lazyOverlapChecker * option string) :=
  if lc_synced c then iret (c, overlap_error c newMeta)
  else ibind (sync c) (λ '(c, err), iret (c, if err is Some e then Some e else overlap_error c newMeta)).

(** ** Synchronisation *)

(** [Shipper.upload]: the metadata goes to the disk first. *)
Definition ship_version (m : BlockMeta) : BlockMeta :=
  let b := bm_Meta m in mkBlockMeta (mkMeta (me_ULID b) (me_MinTime b) (me_MaxTime b) (me_NumProfiles b) (me_Files b) MetaVersion1) (bm_Level m) (bm_Labels m) (bm_Source m).

Definition ship_upload (s : Shipper) (meta : BlockMeta) : io W unit :=
  let meta := set_source meta (sh_source s) in
  ithen (lo_WriteToFile lo (ship_version meta))
    (λ _ w, Upload encode fuel bk (sh_hostname s) (lo_Dir lo (me_ULID (bm_Meta meta)) w) w)
    (λ e, ifail ("write meta file: " +:+ e)).

(** One block of the loop: [Fail] is an error that [Sync] returns at once. *)
Definition sync_block (s : Shipper) (hasUploaded : gset N) (g : progress) (m : BlockMeta) : io W progress :=
  let id := me_ULID (bm_Meta m) in
  let seen c := mkProgress c (pg_Uploaded g ++ [id]) (pg_uploaded g) (pg_uploadErrs g) in
  if decide (id ∈ hasUploaded) then iret (seen (pg_checker g)) else
  if (1 <? bm_Level m)%Z && negb (sh_uploadCompacted s) then iret g else
  ithen (bk_Exists bk (path_Join (ulid_String id) MetaFilename)) (λ ok : bool,
    if ok then iret (seen (pg_checker g)) else
    ibind (if (1 <? bm_Level m)%Z && negb (sh_allowOutOfOrderUploads s) then IsOverlapping (pg_checker g) (TSDBBlockMeta m) else iret (pg_checker g, None)) (λ '(c, err),
    match err with
    | Some e => ifail ("Found overlap or error during sync, cannot upload compacted block, details: " +:+ e)
    | None =>
        ithen (ship_upload s m)
          (λ _, iret (mkProgress c (pg_Uploaded g ++ [id]) (S (pg_uploaded g)) (pg_uploadErrs g)))
          (λ e, if sh_allowOutOfOrderUploads s then iret (mkProgress c (pg_Uploaded g) (pg_uploaded g) (S (pg_uploadErrs g)))
                else ifail ("upload " +:+ ulid_String id +:+ ": " +:+ e))
    end)) (λ e, ifail ("check exists: " +:+ e)).

Fixpoint sync_blocks (s : Shipper) (hasUploaded : gset N) (g : progress) (metas : list BlockMeta) : io W progress :=
  match metas with
  | [] => iret g
  | m :: metas => ibind (sync_block s hasUploaded g m) (λ g, sync_blocks s hasUploaded g metas)
  end.

(** [Sync] returns how many blocks it uploaded, also with an error; errors of reading and writing its file are logged. *)
Definition Sync (s : Shipper) : io W (nat * option string) :=
  ithen (ithen ReadMetaFile iret (λ _, iret (mkShipMeta ShipMetaVersion1 []))) (λ meta,
  ithen (lo_BlockMetas lo) (λ metas,
  ithen (sync_blocks s (list_to_set (sm_Uploaded meta)) (mkProgress newLazyOverlapChecker [] 0 0) metas) (λ g,
  ibind (icatch (WriteMetaFile (mkShipMeta (sm_Version meta) (pg_Uploaded g)))) (λ _,
  iret (pg_uploaded g, if (0 <? pg_uploadErrs g)%nat then Some "failed to sync blocks" else None)))
    (λ e, iret (0, Some e))) (λ e, iret (0, Some e))) (λ e, iret (0, Some e)).

(** [Timestamps]: the times of local blocks and of those that were uploaded; [maxInt64] when there is no block. *)
Definition widen_times (hasUploaded : gset N) (t : Z * Z) (m : BlockMeta) : Z * Z :=
  let '(minTime, maxSyncTime) := t in
  (if (me_MinTime (bm_Meta m) <? minTime)%Z then me_MinTime (bm_Meta m) else minTime,
   if bool_decide (me_ULID (bm_Meta m) ∈ hasUploaded) && (maxSyncTime <? me_MaxTime (bm_Meta m))%Z then me_MaxTime (bm_Meta m) else maxSyncTime).

Definition Timestamps : io W (Z * Z) :=
  ithen ReadMetaFile (λ meta,
  ibind (lo_BlockMetas lo) (λ metas,
  let '(minTime, maxSyncTime) := foldl (widen_times (list_to_set (sm_Uploaded meta))) (2 ^ 63 - 1, - 2 ^ 63)%Z metas in
  iret (if (minTime =? 2 ^ 63 - 1)%Z then 0%Z else minTime, maxSyncTime)))
  (λ e, ifail ("read shipper meta file: " +:+ e)).
End Shipper.

(** ** What is left alone *)

(** [prog] does not change [f] of the state. *)
Definition unchanged {W X A} (f : W → X) (prog : io W A) : Prop := ∀ w, f (prog w).2 = f w.

Section Keeps.
Context {W X : Type} (f : W → X).

Lemma unchanged_then {A C} (m : io W A) (ok : A → io W C) bad : unchanged f m → (∀ a, unchanged f (ok a)) → (∀ e, unchanged f (bad e)) → unchanged f (ithen m ok bad).
Proof.
  intros Hm Hok Hbad w. unfold ithen. specialize (Hm w). destruct (m w) as [[a|e|] w1]; cbn in *; [by rewrite Hok|by rewrite Hbad|done].
Qed.

Lemma unchanged_ret {A} (a : A) : unchanged f (iret a).
Proof. done. Qed.

Lemma unchanged_fail {A} e : unchanged f (ifail (A := A) e).
Proof. done. Qed.

Lemma unchanged_lift {A} (o : outcome A) : unchanged f (lift o).
Proof. done. Qed.

Lemma unchanged_bind {A C} (m : io W A) (ok : A → io W C) : unchanged f m → (∀ a, unchanged f (ok a)) → unchanged f (ibind m ok).
Proof. intros Hm Hok. by apply unchanged_then. Qed.

Lemma unchanged_each {A} (p : A → io W unit) l : (∀ x, unchanged f (p x)) → unchanged f (each_name p l).
Proof. intros Hp. induction l as [|x l IH]; cbn; [done|]. by apply unchanged_bind. Qed.

(** The operations of a bucket do not change [f]. *)
Record bucket_unchanged (bk : Bucket W) : Prop := {
  bk_unchanged_Iter d : unchanged f (bk_Iter bk d); bk_unchanged_Exists n : unchanged f (bk_Exists bk n); bk_unchanged_Get n : unchanged f (bk_Get bk n);
  bk_unchanged_Upload n c : unchanged f (bk_Upload bk n c); bk_unchanged_Delete n : unchanged f (bk_Delete bk n) }.
End Keeps.

Create HintDb unchanged.
#[export] Hint Resolve unchanged_then unchanged_ret unchanged_fail unchanged_lift unchanged_bind unchanged_each bk_unchanged_Iter bk_unchanged_Exists bk_unchanged_Get bk_unchanged_Upload bk_unchanged_Delete : unchanged.

Ltac unchanged := repeat first [progress intros | solve [eauto 3 with unchanged] | case_match | apply unchanged_then | apply unchanged_bind | apply unchanged_each].

Section BucketKeeps.
Context {W X : Type} (f : W → X) (bk : Bucket W) (Hbk : bucket_unchanged f bk) (fuel : nat).

Lemma unchanged_deleteDirRec keep n dir : unchanged f (deleteDirRec n bk keep dir).
Proof. revert dir. induction n as [|n IH]; intros dir; cbn [deleteDirRec]; [done|]. unchanged. Qed.

Lemma unchanged_delete_if_exists n : unchanged f (delete_if_exists bk n).
Proof. unfold delete_if_exists. unchanged. Qed.

Lemma unchanged_cleanUp {A} id e : unchanged f (cleanUp (A := A) fuel bk id e).
Proof. unfold cleanUp, Delete. pose proof unchanged_deleteDirRec. pose proof unchanged_delete_if_exists. unchanged. Qed.

Lemma unchanged_Upload encode hostname dir : unchanged f (Upload encode fuel bk hostname dir).
Proof.
  pose proof (@unchanged_cleanUp unit) as Hc. assert (∀ id files, unchanged f (upload_files fuel bk dir id files)) as Hfiles.
  { intros id files. induction files as [|file files IH]; cbn [upload_files]; unfold UploadFile; unchanged. }
  unfold Upload. unchanged.
Qed.
End BucketKeeps.

(** ** What a synchronisation ensures *)

(** The local disk: [file] is the content of [shipper.json] and [tmp] that of its temporary file.  Nothing local
    changes the bucket; a rename that failed may have happened. *)
Record local_laws {W} (lo : Local W) (tr : W → list contents) (file tmp : W → option content) (local : list BlockMeta) : Prop := {
  loc_ReadFile w r w' : lo_ReadFile lo w = (r, w') → tr w' = tr w ∧ file w' = file w ∧ r ≠ Panic ∧ ∀ c, r = Ret c → file w = Some c;
  loc_CreateTmp w r w' : lo_CreateTmp lo w = (r, w') → tr w' = tr w ∧ file w' = file w ∧ r ≠ Panic;
  loc_WriteTmp c w r w' : lo_WriteTmp lo c w = (r, w') → tr w' = tr w ∧ file w' = file w ∧ r ≠ Panic ∧ (r = Ret () → tmp w' = Some c);
  loc_RemoveAll w r w' : lo_RemoveAll lo w = (r, w') → tr w' = tr w ∧ tmp w' = tmp w ∧ r ≠ Panic ∧ (file w' = file w ∨ file w' = None);
  loc_Rename w r w' : lo_Rename lo w = (r, w') → tr w' = tr w ∧ r ≠ Panic ∧ (file w' = file w ∨ file w' = tmp w);
  loc_SyncDir w r w' : lo_SyncDir lo w = (r, w') → tr w' = tr w ∧ file w' = file w ∧ r ≠ Panic;
  loc_BlockMetas w r w' : lo_BlockMetas lo w = (r, w') → tr w' = tr w ∧ file w' = file w ∧ r ≠ Panic ∧ ∀ metas, r = Ret metas → metas = local;
  loc_WriteToFile m w r w' : lo_WriteToFile lo m w = (r, w') → tr w' = tr w ∧ file w' = file w ∧ r ≠ Panic }.

(** Ulids have 128 bits. *)
Definition valid (u : N) : Prop := (u < 2 ^ 128)%N.

Section Sync.
Context {W : Type} (bk : Bucket W) (lo : Local W) (fuel : nat) (ulid_Parse : string → outcome N) (ulid_String : N → string).
Context (encode : BlockMeta → outcome content) (decode : content → outcome BlockMeta) (encode_ship : ShipMeta → outcome content) (decode_ship : content → outcome ShipMeta).
Context (OverlappingBlocks : list TSDBMeta → list string) (tr : W → list contents) (file tmp : W → option content) (local : list BlockMeta) (s : Shipper).
Context (Hbk : bucket_laws bk tr) (Hkeep : bucket_unchanged file bk) (Hlo : local_laws lo tr file tmp local).
Context (Hjson : ∀ m c, encode m = Ret c → decode c = Ret m) (Hship : ∀ m c, encode_ship m = Ret c → decode_ship c = Ret m).
Context (Hdecode : ∀ c, decode c ≠ Panic) (Hdecode_ship : ∀ c, decode_ship c ≠ Panic) (Hencode_ship : ∀ m, encode_ship m ≠ Panic).
Context (Hulid : ∀ u v, valid u → valid v → ulid_String u = ulid_String v → u = v) (Hdirs : ∀ u w, valid u → dir_ok encode fuel (ulid_String u) (sh_hostname s) (lo_Dir lo u w)).
Context (Hlocal : ∀ bm, bm ∈ local → valid (me_ULID (bm_Meta bm))).

(** A block that can be seen in the bucket. *)
Definition visible (u : N) (m : contents) : Prop := valid u ∧ is_Some (m !! path_Join (ulid_String u) MetaFilename).

(** The contents are sound and no block of [base] has gone. *)
Definition stays (base m : contents) : Prop := sound decode fuel m ∧ ∀ u, visible u base → visible u m.

Abbreviation holds := (triple tr).

Lemma stays_refl m : sound decode fuel m → stays m m.
Proof. by split. Qed.

(** From a later point on, what was visible there stays, too. *)
Lemma triple_later {A} base m (p : io W A) Q : stays base m → holds (stays m) m p Q → holds (stays base) m p Q.
Proof.
  intros [Hs Hb] H b Hm _ r b' E. destruct (H b Hm (stays_refl _ Hs) r b' E) as ((l & Hl & HF) & HQ). split; [|done]. exists l. split; [done|].
  eapply Forall_impl; [exact HF|]. intros m' [Hs' Hb']. split; [done|]. intros u Hu. by apply Hb', Hb.
Qed.

(** A local operation. *)
Lemma triple_local {A} I m0 (p : io W A) : (∀ w, tr (p w).2 = tr w ∧ (p w).1 ≠ Panic) → holds I m0 p (λ r m, m = m0 ∧ r ≠ Panic).
Proof. intros Hp b <- HI r b' E. specialize (Hp b). rewrite E in Hp. cbn in Hp. destruct Hp as [-> Hr]. split; [by exists []|done]. Qed.

Lemma ship_upload_spec m0 bm : valid (me_ULID (bm_Meta bm)) → sound decode fuel m0 → ¬ visible (me_ULID (bm_Meta bm)) m0 →
  holds (stays m0) m0 (ship_upload bk lo fuel encode s bm) (λ r m, match r with Ret _ => visible (me_ULID (bm_Meta bm)) m | Fail _ => True | Panic => ¬ deletes bk end).
Proof.
  intros Hu0 Hs0 Hnew. unfold ship_upload. cbn [set_source bm_Meta]. set (u := me_ULID (bm_Meta bm)) in *.
  eapply triple_then; [apply triple_local| | |].
  - intros w. destruct (lo_WriteToFile lo _ w) as [r w'] eqn:E. destruct (loc_WriteToFile _ _ _ _ _ Hlo _ _ _ _ E) as (? & _ & ?). done.
  - intros [] m1 _ [-> _] b Hb _ r b' E. pose proof (Hdirs u b Hu0) as Hdir.
    destruct (Upload_correct bk tr encode decode fuel (sh_hostname s) _ (ulid_String u) b r b' Hbk Hjson Hdir ltac:(by rewrite Hb) E) as ((l & Hl & HF) & Hu).
    rewrite Hb in HF, Hu. split.
    + exists l. split; [done|]. eapply Forall_impl; [exact HF|]. intros m [Hm Hothers]. split; [done|]. intros v [Hval Hv]. split; [done|].
      rewrite Hothers; [done|]. intros Hun. apply path_Join_other in Hun; [|apply Hdir|apply (do_id _ _ _ _ _ (Hdirs v b Hval))]. apply Hulid in Hun as ->; [|done|done]. by apply Hnew.
    + destruct r as [[]|e|]; [|done|done]. destruct Hu as (meta & c & _ & _ & _ & ->). split; [done|]. by rewrite lookup_insert_eq.
  - intros e m1 _ _. by apply triple_fail.
  - by intros m1 _ [_ ?].
Qed.

(** Operations that only read. *)
Definition reads {A} (p : io W A) : Prop := ∀ I m0, holds I m0 p (λ r m, m = m0 ∧ r ≠ Panic).

Lemma reads_then {A C} (m : io W A) (ok : A → io W C) bad : reads m → (∀ a, reads (ok a)) → (∀ e, reads (bad e)) → reads (ithen m ok bad).
Proof.
  intros Hm Hok Hbad I m0. eapply triple_then; [apply Hm| | |by intros m1 _ [_ ?]].
  - intros a m1 _ [-> _]. apply Hok.
  - intros e m1 _ [-> _]. apply Hbad.
Qed.

Lemma reads_lift {A} (o : outcome A) : o ≠ Panic → reads (lift o).
Proof. intros Ho I m0. by apply triple_lift. Qed.

Lemma reads_bind {A C} (m : io W A) (ok : A → io W C) : reads m → (∀ a, reads (ok a)) → reads (ibind m ok).
Proof. intros Hm Hok. apply reads_then; [done|done|]. intros e. by apply reads_lift. Qed.

Lemma reads_catch {A} (m : io W A) : reads m → reads (icatch m).
Proof. intros Hm. apply reads_then; [done|..]; intros; by apply reads_lift. Qed.

Lemma reads_Iter d : reads (bk_Iter bk d).
Proof. intros I m0. eapply triple_weaken; [by apply triple_Iter|]. by intros r m _ (? & ? & _). Qed.

Lemma reads_Get n : reads (bk_Get bk n).
Proof. intros I m0 b <- HI r b' E. destruct (law_Get _ _ Hbk _ _ _ _ E) as (-> & ? & _). split; [by exists []|done]. Qed.

Lemma reads_IsOverlapping c m : reads (IsOverlapping bk ulid_Parse ulid_String decode OverlappingBlocks c m).
Proof.
  assert (∀ id, reads (DownloadMeta ulid_String decode bk id)) as Hdl.
  { intros id. apply reads_then; [apply reads_Get| |intros; by apply reads_lift]. intros o. by apply reads_lift, wrap_Panic. }
  assert (∀ names c, reads (sync_names bk ulid_Parse ulid_String decode c names)) as Hnames.
  { intros names. induction names as [|n names IH]; intros c'; cbn [sync_names]; [by apply reads_lift|]. destruct (IsBlockDir _ n); [|apply IH].
    apply reads_bind; [by apply reads_catch|]. intros [?|?]; [apply IH|by apply reads_lift]. }
  unfold IsOverlapping. destruct (lc_synced c); [by apply reads_lift|]. apply reads_bind; [|intros [? []]; by apply reads_lift].
  apply reads_bind; [apply reads_catch, reads_Iter|]. intros [?|?]; [|by apply reads_lift]. apply reads_bind; [done|]. intros [? []]; by apply reads_lift.
Qed.

(** A block that [Sync] ships: a compacted one only if it is told to. *)
Definition eligible (bm : BlockMeta) : Prop := (bm_Level bm ≤ 1)%Z ∨ sh_uploadCompacted s = true.

(** What a part of the loop leaves: the blocks recorded are visible, and so are those it went over without an error. *)
Definition loop_done (metas : list BlockMeta) (g : progress) (r : outcome progress) (m : contents) : Prop :=
  match r with
  | Ret g' => (∀ u, u ∈ pg_Uploaded g' → u ∈ pg_Uploaded g ∨ visible u m) ∧ pg_uploadErrs g ≤ pg_uploadErrs g' ∧
      (pg_uploadErrs g' = pg_uploadErrs g → ∀ bm, bm ∈ metas → eligible bm → visible (me_ULID (bm_Meta bm)) m)
  | Fail _ => True
  | Panic => ¬ deletes bk
  end.

Lemma one_done g g' bm m : pg_uploadErrs g' = pg_uploadErrs g → pg_Uploaded g' = pg_Uploaded g ++ [me_ULID (bm_Meta bm)] → visible (me_ULID (bm_Meta bm)) m → loop_done [bm] g (Ret g') m.
Proof.
  intros Herr Hup Hv. split_and!; [|lia|].
  - intros u. rewrite Hup, elem_of_app, list_elem_of_singleton. intros [?| ->]; [by left|by right].
  - by intros _ bm' ->%list_elem_of_singleton _.
Qed.

Lemma sync_block_spec has m0 g bm : valid (me_ULID (bm_Meta bm)) → sound decode fuel m0 → (∀ u, u ∈ has → visible u m0) →
  holds (stays m0) m0 (sync_block bk lo fuel ulid_Parse ulid_String encode decode OverlappingBlocks s has g bm) (loop_done [bm] g).
Proof.
  intros Hval Hs Hhas. unfold sync_block. set (u := me_ULID (bm_Meta bm)). destruct (decide (u ∈ has)) as [Hin|_].
  { apply triple_ret. intros _. by apply one_done, Hhas. }
  destruct ((1 <? bm_Level bm)%Z && negb (sh_uploadCompacted s)) eqn:Esk.
  { apply triple_ret. intros _. split_and!; [by left|lia|]. intros _ bm' ->%list_elem_of_singleton [Hl|Hl]; rewrite ?Hl, ?andb_false_r in Esk; [|done]. bool_prop; lia. }
  eapply triple_then; [by apply triple_Exists| | |by intros m1 _ (_ & ? & _)].
  - intros ok m1 _ (-> & _ & Hok). specialize (Hok ok eq_refl). destruct ok.
    { apply triple_ret. intros _. apply one_done; [done|done|]. split; [done|]. by symmetry in Hok; apply bool_decide_eq_true in Hok. }
    symmetry in Hok. apply bool_decide_eq_false in Hok. assert (¬ visible u m0) as Hnew by (intros [_ ?]; done).
    eapply triple_bind; [apply (λ H : reads _, H (stays m0) m0)| |done|by intros m1 _ [_ ?]].
    + case_match; [apply reads_IsOverlapping|by apply reads_lift].
    + intros [c [e|]] m1 _ [-> _]; [by apply triple_fail|]. eapply triple_then; [by apply ship_upload_spec| | |done].
      * intros [] m1 _ Hv. apply triple_ret. intros _. by apply one_done.
      * intros e m1 _ _. destruct (sh_allowOutOfOrderUploads s); [|by apply triple_fail]. apply triple_ret. intros _. split_and!; [by left|cbn; lia|]. cbn. lia.
  - intros e m1 _ _. by apply triple_fail.
Qed.

Lemma sync_blocks_spec has metas : (∀ bm, bm ∈ metas → valid (me_ULID (bm_Meta bm))) → ∀ m0 g, sound decode fuel m0 → (∀ u, u ∈ has → visible u m0) →
  holds (stays m0) m0 (sync_blocks bk lo fuel ulid_Parse ulid_String encode decode OverlappingBlocks s has g metas) (loop_done metas g).
Proof.
  induction metas as [|bm metas IH]; intros Hval m0 g Hs Hhas; cbn [sync_blocks].
  { apply triple_ret. intros _. split_and!; [by left|done|]. by intros _ bm ?%elem_of_nil. }
  eapply triple_bind; [apply sync_block_spec; [apply Hval; by left|done|done]| |done|done].
  intros g1 m1 Hst (Hup1 & Herr1 & Hv1). apply triple_later; [done|]. pose proof Hst as [Hs1 Hb1].
  eapply triple_weaken; [apply triple_last, IH; [intros bm' Hin; apply Hval; by right|done|by eauto]|]. intros [g2|e|] m2 _ [Hd [Hs2 Hb2]]; [|done|done].
  destruct Hd as (Hup2 & Herr2 & Hv2). split_and!; [|lia|].
  - intros u [Hu|]%Hup2; [|by right]. apply Hup1 in Hu as [?|?]; [by left|right; by apply Hb2].
  - intros Herr bm' [->|Hin]%elem_of_cons Hel; [|apply Hv2; [lia|done|done]]. apply Hb2, Hv1; [lia|by left|done].
Qed.

(** The file of uploaded blocks. *)
Lemma ReadMetaFile_spec w r w' : ReadMetaFile lo decode_ship w = (r, w') → tr w' = tr w ∧ file w' = file w ∧ r ≠ Panic ∧
  ∀ meta, r = Ret meta → ∃ c, file w = Some c ∧ decode_ship c = Ret meta ∧ sm_Version meta = ShipMetaVersion1.
Proof.
  unfold ReadMetaFile, ibind, ithen, lift, iret, ifail. destruct (lo_ReadFile lo w) as [r1 w1] eqn:E. destruct (loc_ReadFile _ _ _ _ _ Hlo _ _ _ E) as (Ht & Hf & Hp & Hc).
  destruct r1 as [c|e|]; [|by intros [= <- <-]; split_and!|done]. specialize (Hc c eq_refl). pose proof (Hdecode_ship c) as Hd.
  destruct (decode_ship c) as [meta|e|] eqn:Ed; [|by intros [= <- <-]; split_and!|done].
  destruct (sm_Version meta =? ShipMetaVersion1)%Z eqn:Ev; intros [= <- <-]; (split_and!; [done|done|done|]); [|done].
  intros ? [= <-]. exists c. split_and!; [done|done|by apply Z.eqb_eq].
Qed.

Lemma WriteMetaFile_spec meta w r w' : WriteMetaFile lo encode_ship meta w = (r, w') → tr w' = tr w ∧ r ≠ Panic ∧
  (file w' = file w ∨ file w' = None ∨ ∃ c, encode_ship meta = Ret c ∧ file w' = Some c).
Proof.
  unfold WriteMetaFile, renameFile, ibind, ithen, lift, ifail. destruct (lo_CreateTmp lo w) as [r1 w1] eqn:E1.
  destruct (loc_CreateTmp _ _ _ _ _ Hlo _ _ _ E1) as (Ht1 & Hf1 & Hp1). destruct r1 as [[]|e|]; [|intros [= <- <-]; split_and!; auto|done].
  pose proof (Hencode_ship meta) as He. destruct (encode_ship meta) as [c|e|] eqn:Ec; [|intros [= <- <-]; split_and!; auto|done].
  destruct (lo_WriteTmp lo c w1) as [r2 w2] eqn:E2. destruct (loc_WriteTmp _ _ _ _ _ Hlo _ _ _ _ E2) as (Ht2 & Hf2 & Hp2 & Hw). rewrite Ht1 in Ht2. rewrite Hf1 in Hf2.
  destruct r2 as [[]|e|]; [|intros [= <- <-]; split_and!; auto|done]. specialize (Hw eq_refl).
  destruct (lo_RemoveAll lo w2) as [r3 w3] eqn:E3. destruct (loc_RemoveAll _ _ _ _ _ Hlo _ _ _ E3) as (Ht3 & Hm3 & Hp3 & Hf3). rewrite Ht2 in Ht3. rewrite Hf2 in Hf3. rewrite Hw in Hm3.
  destruct r3 as [[]|e|]; [|intros [= <- <-]; split_and!; [done|done|tauto]|done].
  destruct (lo_Rename lo w3) as [r4 w4] eqn:E4. destruct (loc_Rename _ _ _ _ _ Hlo _ _ _ E4) as (Ht4 & Hp4 & Hf4). rewrite Ht3 in Ht4. rewrite Hm3 in Hf4.
  assert (file w4 = file w ∨ file w4 = None ∨ ∃ c', Ret c = Ret c' ∧ file w4 = Some c') as H4.
  { destruct Hf4 as [->|Hf4]; [destruct Hf3; tauto|]. right. right. by exists c. }
  destruct r4 as [[]|e|]; [|by intros [= <- <-]; split_and!|done]. intros E5. destruct (loc_SyncDir _ _ _ _ _ Hlo _ _ _ E5) as (Ht5 & Hf5 & Hp5). by rewrite Ht5, Hf5.
Qed.

(** The recorded blocks are in the bucket. *)
Definition recorded (w : W) : Prop := ∀ c meta u, file w = Some c → decode_ship c = Ret meta → sm_Version meta = ShipMetaVersion1 → u ∈ sm_Uploaded meta → visible u (hd ∅ (tr w)).

Lemma unchanged_sync_blocks has metas : ∀ g, unchanged file (sync_blocks bk lo fuel ulid_Parse ulid_String encode decode OverlappingBlocks s has g metas).
Proof.
  assert (∀ m, unchanged file (lo_WriteToFile lo m)) as Hw.
  { intros m w. destruct (lo_WriteToFile lo m w) as [r w'] eqn:E. by destruct (loc_WriteToFile _ _ _ _ _ Hlo _ _ _ _ E) as (_ & ? & _). }
  assert (∀ m, unchanged file (ship_upload bk lo fuel encode s m)) as Hup.
  { intros m. apply unchanged_then; [done| |by unchanged]. intros _ w. by apply unchanged_Upload. }
  assert (∀ names c, unchanged file (sync_names bk ulid_Parse ulid_String decode c names)) as Hnames.
  { intros names. induction names as [|n names IH]; intros c; cbn [sync_names]; [by unchanged|]. unfold icatch, DownloadMeta. unchanged. }
  assert (∀ c m, unchanged file (IsOverlapping bk ulid_Parse ulid_String decode OverlappingBlocks c m)) as Hov by (intros; unfold IsOverlapping, sync, icatch; unchanged).
  induction metas as [|m metas IH]; intros g; cbn [sync_blocks]; [by unchanged|]. apply unchanged_bind; [|done]. unfold sync_block. unchanged.
Qed.

Lemma read_or_empty w r w' : recorded w → ithen (ReadMetaFile lo decode_ship) iret (λ _, iret (mkShipMeta ShipMetaVersion1 [])) w = (r, w') →
  tr w' = tr w ∧ file w' = file w ∧ ∃ meta, r = Ret meta ∧ sm_Version meta = ShipMetaVersion1 ∧ ∀ u, u ∈ sm_Uploaded meta → visible u (hd ∅ (tr w)).
Proof.
  intros Hrec. unfold ithen. destruct (ReadMetaFile lo decode_ship w) as [r1 w1] eqn:E. destruct (ReadMetaFile_spec _ _ _ E) as (Ht & Hf & Hp & Hm).
  destruct r1 as [meta|e|]; [| |done]; intros [= <- <-]; (split_and!; [done|done|]).
  - exists meta. destruct (Hm meta eq_refl) as (c & Hc & Hd & Hv). split_and!; [done|done|]. intros u Hu. by eapply Hrec.
  - eexists. split_and!; [done|done|]. by intros u ?%elem_of_nil.
Qed.

Lemma recorded_later w w' : recorded w → file w' = file w → (∀ u, visible u (hd ∅ (tr w)) → visible u (hd ∅ (tr w'))) → recorded w'.
Proof. intros Hrec Hf Hv c meta u Hc Hd Hver Hu. rewrite Hf in Hc. apply Hv. by eapply Hrec. Qed.

Lemma record_spec meta w r w' : recorded w → (∀ u, u ∈ sm_Uploaded meta → visible u (hd ∅ (tr w))) → icatch (WriteMetaFile lo encode_ship meta) w = (r, w') →
  tr w' = tr w ∧ recorded w' ∧ ∃ x, r = Ret x.
Proof.
  intros Hrec Hup. unfold icatch, ithen. destruct (WriteMetaFile lo encode_ship meta w) as [r1 w1] eqn:E. destruct (WriteMetaFile_spec _ _ _ _ E) as (Ht & Hp & Hf).
  assert (recorded w1) as Hrec1.
  { destruct Hf as [Hf|[Hf|(c & Hc & Hf)]]; [eapply recorded_later; [done|done|by rewrite Ht]| |]; intros c' meta' u Hc' Hd Hver Hu; rewrite Hf in Hc'; [done|].
    injection Hc' as <-. apply Hship in Hc. rewrite Hc in Hd. injection Hd as <-. rewrite Ht. by apply Hup. }
  destruct r1; [| |done]; intros [= <- <-]; (split_and!; [done|done|by eexists]).
Qed.

(** C14: A synchronisation uploads safely: at every moment the bucket is sound and no block that could be seen goes, and
    whatever its outcome the blocks in the file of uploaded ones are in the bucket.  When it returns without an error all
    local blocks that are to be shipped are in the bucket, and it panics only if the deletions of the bucket do. *)
Theorem ship_Sync_correct w r w' : sound decode fuel (hd ∅ (tr w)) → recorded w →
  Sync bk lo fuel ulid_Parse ulid_String encode decode encode_ship decode_ship OverlappingBlocks s w = (r, w') →
  (∃ l, tr w' = l ++ tr w ∧ Forall (stays (hd ∅ (tr w))) l) ∧ recorded w' ∧
  match r with
  | Ret (_, None) => ∀ bm, bm ∈ local → eligible bm → visible (me_ULID (bm_Meta bm)) (hd ∅ (tr w'))
  | Ret (_, Some _) => True
  | Fail _ => False
  | Panic => ¬ deletes bk
  end.
Proof.
  intros Hs Hrec. unfold Sync. unfold ithen at 1. destruct (ithen (ReadMetaFile lo decode_ship) _ _ w) as [r0 w0] eqn:E0.
  destruct (read_or_empty _ _ _ Hrec E0) as (Ht0 & Hf0 & meta & -> & Hver & Hup). unfold ithen at 1.
  destruct (lo_BlockMetas lo w0) as [r1 w1] eqn:E1. destruct (loc_BlockMetas _ _ _ _ _ Hlo _ _ _ E1) as (Ht1 & Hf1 & Hp1 & Hmetas). rewrite Ht0 in Ht1. rewrite Hf0 in Hf1.
  assert (recorded w1) as Hrec1 by (eapply recorded_later; [done|done|by rewrite Ht1]).
  destruct r1 as [metas|e|]; [|intros [= <- <-]; split_and!; [by exists []; rewrite Ht1|done|done]|done]. specialize (Hmetas metas eq_refl) as ->.
  unfold ithen at 1. destruct (sync_blocks _ _ _ _ _ _ _ _ _ _ _ _ w1) as [r2 w2] eqn:E2. pose proof (unchanged_sync_blocks (list_to_set (sm_Uploaded meta)) local (mkProgress newLazyOverlapChecker [] 0 0) w1) as Hf2. rewrite E2 in Hf2. cbn in Hf2.
  destruct (triple_last _ _ _ _ _ (sync_blocks_spec (list_to_set (sm_Uploaded meta)) local Hlocal (hd ∅ (tr w)) (mkProgress newLazyOverlapChecker [] 0 0) Hs
    ltac:(intros u Hu%elem_of_list_to_set; by apply Hup)) w1 ltac:(by rewrite Ht1) (stays_refl _ Hs) r2 w2 E2) as ((l & Hl & HF) & Hd & [_ Hst]). rewrite Ht1 in Hl.
  assert (∃ l, tr w2 = l ++ tr w ∧ Forall (stays (hd ∅ (tr w))) l) as Htr2 by by exists l.
  assert (recorded w2) as Hrec2 by (eapply recorded_later; [done|done|by rewrite Ht1]).
  destruct r2 as [g|e|]; cbn in Hd; [|by intros [= <- <-]; split_and!|by intros [= <- <-]; split_and!].
  destruct Hd as (Hup2 & Herr & Hvis). unfold ibind, ithen at 1.
  assert (∀ u, u ∈ pg_Uploaded g → visible u (hd ∅ (tr w2))) as Hall by (intros u [Hu|]%Hup2; [by apply elem_of_nil in Hu|done]).
  destruct (icatch _ w2) as [r3 w3] eqn:E3. destruct (record_spec (mkShipMeta (sm_Version meta) (pg_Uploaded g)) _ _ _ Hrec2 Hall E3) as (Ht3 & Hrec3 & x & ->).
  intros [= <- <-]. rewrite Ht3. split_and!; [done|done|]. destruct (pg_uploadErrs g) as [|n] eqn:En; [|done]. cbn. intros bm Hbm Hel. by apply Hvis.
Qed.
End Sync.

(** ** A run *)

(** Ulids as text of binary digits. *)
Fixpoint digits (n : nat) (u : N) : string :=
  match n with
  | O => EmptyString
  | S n => String (if N.odd u then "1" else "0")%char (digits n (N.div2 u))
  end.

Lemma digits_length n u : String.length (digits n u) = n.
Proof. revert u. induction n as [|n IH]; intros u; cbn; [done|]. by rewrite IH. Qed.

Lemma digits_no_slash n u : no_slash (digits n u) = true.
Proof. revert u. induction n as [|n IH]; intros u; cbn; [done|]. rewrite IH. by destruct (N.odd u). Qed.

Lemma digits_inj n u v : (u < 2 ^ N.of_nat n)%N → (v < 2 ^ N.of_nat n)%N → digits n u = digits n v → u = v.
Proof.
  revert u v. induction n as [|n IH]; intros u v Hu Hv H; [cbn in *; lia|]. rewrite Nat2N.inj_succ, N.pow_succ_r' in Hu, Hv. cbn in H. injection H as Ho Hd.
  assert (∀ x, (x < 2 * 2 ^ N.of_nat n)%N → (N.div2 x < 2 ^ N.of_nat n)%N) as Hdiv by (intros x Hx; rewrite N.div2_div; apply N.Div0.div_lt_upper_bound; lia).
  apply IH in Hd; [|by apply Hdiv|by apply Hdiv]. rewrite (N.div2_odd u), (N.div2_odd v), Hd. by destruct (N.odd u), (N.odd v).
Qed.

Record world := mkWorld { wo_mem : mem; wo_file : option content; wo_tmp : option content }.

Definition on_mem {A} (p : io mem A) : io world A := λ w, let '(r, m) := p (wo_mem w) in (r, mkWorld m (wo_file w) (wo_tmp w)).

Definition world_bucket : Bucket world :=
  mkBucket (λ d, on_mem (bk_Iter mem_bucket d)) (λ n, on_mem (bk_Exists mem_bucket n)) (λ n, on_mem (bk_Get mem_bucket n)) (λ n c, on_mem (bk_Upload mem_bucket n c))
    (λ n, on_mem (bk_Delete mem_bucket n)).

Definition world_local : Local world :=
  mkLocal (λ w, (if wo_file w is Some c then Ret c else Fail "no such file", w)) (iret ()) (λ c w, (Ret (), mkWorld (wo_mem w) (wo_file w) (Some c)))
    (λ w, (Ret (), mkWorld (wo_mem w) None (wo_tmp w))) (λ w, (Ret (), mkWorld (wo_mem w) (wo_tmp w) None)) (iret ()) (iret [small_meta]) (λ _, iret ())
    (λ u _, mkBlockDir (bd_IsDir small_dir) (Ret (digits 128 u)) (bd_Meta small_dir) (bd_File small_dir)).

Definition world_trace (w : world) : list contents := mm_trace (wo_mem w).
Definition world_encode_ship (m : ShipMeta) : outcome content := if (sm_Version m =? 1)%Z then Ret (sm_Uploaded m) else Fail "version".
Definition world_decode_ship (c : content) : outcome ShipMeta := Ret (mkShipMeta 1 c).
Definition world_shipper : Shipper := mkShipper "ingester" false false None.

Lemma world_bucket_laws : bucket_laws world_bucket world_trace.
Proof.
  pose proof mem_laws as H. split; cbn [world_bucket bk_Iter bk_Exists bk_Get bk_Upload bk_Delete]; unfold on_mem, world_trace.
  - intros d [m f t] r w'. destruct (bk_Iter mem_bucket d _) as [r1 m1] eqn:E. intros [= <- <-]. exact (law_Iter _ _ H _ _ _ _ E).
  - intros n [m f t] r w'. destruct (bk_Exists mem_bucket n _) as [r1 m1] eqn:E. intros [= <- <-]. exact (law_Exists _ _ H _ _ _ _ E).
  - intros n [m f t] r w'. destruct (bk_Get mem_bucket n _) as [r1 m1] eqn:E. intros [= <- <-]. exact (law_Get _ _ H _ _ _ _ E).
  - intros n c [m f t] r w'. destruct (bk_Upload mem_bucket n c _) as [r1 m1] eqn:E. intros [= <- <-]. exact (law_Upload _ _ H _ _ _ _ _ E).
  - intros n [m f t] r w'. destruct (bk_Delete mem_bucket n _) as [r1 m1] eqn:E. intros [= <- <-]. exact (law_Delete _ _ H _ _ _ _ E).
Qed.

Lemma on_mem_keeps {A} (p : io mem A) : unchanged wo_file (on_mem p).
Proof. intros w. unfold on_mem. by destruct (p (wo_mem w)). Qed.

Lemma world_bucket_unchanged : bucket_unchanged wo_file world_bucket.
Proof. split; intros; apply on_mem_keeps. Qed.

Lemma world_local_laws : local_laws world_local world_trace wo_file wo_tmp [small_meta].
Proof.
  split; cbn; unfold iret.
  - intros w r w' [= <- <-]. split_and!; [done|done|by destruct (wo_file w)|]. intros c. by destruct (wo_file w); intros [= ->].
  - by intros w r w' [= <- <-].
  - by intros c w r w' [= <- <-].
  - intros w r w' [= <- <-]. split_and!; [done|done|done|by right].
  - intros w r w' [= <- <-]. split_and!; [done|done|by right].
  - by intros w r w' [= <- <-].
  - intros w r w' [= <- <-]. split_and!; [done|done|done|]. by intros metas [= ->].
  - by intros m w r w' [= <- <-].
Qed.

Lemma world_dirs u w : valid u → dir_ok small_encode 200 (digits 128 u) None (lo_Dir world_local u w).
Proof.
  intros _. assert (∀ x, String.length (path_Join (digits 128 u) x) = 129 + String.length x) as Hlen.
  { intros x. by rewrite path_Join_app, !length_app_str, digits_length. }
  pose proof small_dir_ok as [_ _ _ H1 H2 H3 H4 _]. split; [split; [by destruct u|apply digits_no_slash]| |done|done|done|done|done|].
  - rewrite Hlen. apply Nat.ltb_lt. reflexivity.
  - intros meta [= <-]. repeat constructor; try done; rewrite Hlen; apply Nat.ltb_lt; reflexivity.
Qed.

(** A block is uploaded and recorded. *)
Definition world_Sync : io world (nat * option string) :=
  Sync world_bucket world_local 200 (λ _, Fail "not a ulid") (digits 128) small_encode small_decode world_encode_ship world_decode_ship (λ _, []) world_shipper.
Definition world_start : world := mkWorld (mkMem [∅] []) None None.

Lemma world_Sync_result : (world_Sync world_start).1 = Ret (1, None) ∧ wo_file (world_Sync world_start).2 = Some [1]%N.
Proof. vm_compute. split; reflexivity. Qed.

Lemma ship_Sync_correct_witness : (world_Sync world_start).1 = Ret (1, None) ∧ wo_file (world_Sync world_start).2 = Some [1]%N ∧
  visible (digits 128) 1 (hd ∅ (world_trace (world_Sync world_start).2)).
Proof.
  pose proof world_Sync_result as [Hr Hf]. split; [exact Hr|split; [exact Hf|]].
  destruct (ship_Sync_correct world_bucket world_local 200 (λ _, Fail "not a ulid") (digits 128) small_encode small_decode world_encode_ship world_decode_ship (λ _, [])
    world_trace wo_file wo_tmp [small_meta] world_shipper world_bucket_laws world_bucket_unchanged world_local_laws small_json)
    with (w := world_start) (r := (world_Sync world_start).1) (w' := (world_Sync world_start).2) as (_ & _ & Hv).
  - intros m c. unfold world_encode_ship. destruct m as [v l]. cbn. destruct (v =? 1)%Z eqn:Ev; [|done]. apply Z.eqb_eq in Ev as ->. by intros [= <-].
  - intros c. unfold small_decode. by case_match.
  - done.
  - intros m. unfold world_encode_ship. by case_match.
  - intros u v Hu Hv. by apply digits_inj.
  - apply world_dirs.
  - by intros bm ->%list_elem_of_singleton.
  - apply empty_sound.
  - intros c meta u [=].
  - apply surjective_pairing.
  - rewrite Hr in Hv. apply (Hv small_meta); [by apply list_elem_of_singleton|by left].
Defined.
