(* ===== verification/PprofWf.v ===== *)
(** * Normalised profiles can be ingested (src/pkg/pprof/pprof.go with src/pkg/phlaredb/head.go)

    The distributor normalises a profile and an ingester stores it.  What an ingester asks of a profile, [gprofile_wf],
    is kept by every part of the normalisation: identifiers stay distinct and every reference resolves. *)

From S2P Require Import Prelude Sorting Labels Dedup Symbols Delta Head Pprof.

(** Labels that are numbers: the strings of labels are not visited ([label_string_lost]). *)
Definition number_label (l : PLabel) : Prop := pl_Str l = 0%Z.

(** What an ingester asks of a profile, but for its samples being there; the number of a kept label is visited as if it
    were a reference, which asks nothing. *)
Record normal_wf (p : GProfile) : Prop := {
  nw_symbols : psymbols_wf (psymbols_of p);
  nw_types : Forall (type_wf (gp_StringTable p)) (gp_SampleType p);
  nw_period : ∃ t, gp_PeriodType p = Some t ∧ type_wf (gp_StringTable p) t;
  nw_refs : refs_wf p;
  nw_labels : Forall (λ s, Forall (λ l, label_wf (gp_StringTable p) l ∧ number_label l) (gs_Label s)) (gp_Sample p);
  nw_values : Forall (λ s, length (gs_Value s) = length (gp_SampleType p)) (gp_Sample p);
  nw_some_type : gp_SampleType p ≠ [] }.

Lemma normal_gprofile p : normal_wf p → gp_Sample p ≠ [] → gprofile_wf p.
Proof.
  intros [H1 H2 (t & Ht & Htw) H4 H5 H6 H7] Hne. split; try done; [by rewrite Ht|].
  eapply Forall_impl; [exact H5|]. intros s Hs. eapply Forall_impl; [exact Hs|]. by intros l [? _].
Qed.

Lemma Forall_filter {A} (P Q : A → Prop) `{∀ x, Decision (Q x)} l : Forall P l → Forall P (filter Q l).
Proof. rewrite !Forall_forall. intros Hl x [_ Hx]%list_elem_of_filter. by apply Hl. Qed.

Lemma distinct_filter {A} (id_of : A → N) (Q : A → Prop) `{∀ x, Decision (Q x)} l : distinct_ids id_of l → distinct_ids id_of (filter Q l).
Proof.
  intros [Hnd Hlt]. split; [|by apply Forall_filter]. clear Hlt. induction l as [|x l IH]; [constructor|]. rewrite fmap_cons in Hnd. apply NoDup_cons in Hnd as [Hx Hnd].
  destruct (decide (Q x)) as [Hq|Hq]; [rewrite filter_cons_True by done|rewrite filter_cons_False by done; by apply IH]. rewrite fmap_cons. constructor; [|by apply IH].
  intros (y & Hy & [_ Hin]%list_elem_of_filter)%list_elem_of_fmap. apply Hx. rewrite Hy. by apply list_elem_of_fmap_2.
Qed.

(** ** Mappings *)

Definition highest_id (l : list Mapping) (m : N) : N := foldl (λ mId m, if (mId <? mp_Id m)%N then mp_Id m else mId) m l.

Lemma highest_id_le l : ∀ m, (m ≤ highest_id l m)%N ∧ ∀ x, x ∈ l → (mp_Id x ≤ highest_id l m)%N.
Proof.
  induction l as [|y l IH]; intros m; [split; [done|by intros x ?%elem_of_nil]|]. unfold highest_id in *. cbn [foldl].
  destruct (IH (if (m <? mp_Id y)%N then mp_Id y else m)) as [H1 H2].
  assert (m ≤ (if (m <? mp_Id y)%N then mp_Id y else m) ∧ mp_Id y ≤ (if (m <? mp_Id y)%N then mp_Id y else m))%N as [H3 H4] by (case_if_eq; bool_prop; lia).
  split; [lia|]. intros x [->|Hx]%elem_of_cons; [lia|by apply H2].
Qed.

Lemma highest_id_lt l b : (0 < b)%N → Forall (λ m, mp_Id m < b)%N l → ∀ m, (m < b)%N → (highest_id l m < b)%N.
Proof. intros Hb. unfold highest_id. induction 1 as [|y l Hy _ IH]; intros m Hm; cbn [foldl]; [done|]. apply IH. by case_if_eq. Qed.

Lemma find_id_app {A} (id_of : A → N) l k id : find_id id_of (l ++ k) id = match find_id id_of l id with Some x => Some x | None => find_id id_of k id end.
Proof. induction l as [|x l IH]; [done|]. cbn [app]. rewrite !find_id_cons, IH. by case_decide. Qed.

Lemma ensureHasMapping_normal p : Forall (λ m, mp_Id m < 2 ^ 64 - 1)%N (gp_Mapping p) → is_Some (str (gp_StringTable p) 0) → normal_wf p → normal_wf (ensureHasMapping p).
Proof.
  intros Hids Hzero [[S1 S2 S3 S4 S5 S6 S7 S8 S9] H2 H3 H4 H5 H6 H7].
  pose proof (highest_id_le (gp_Mapping p) 0) as [_ Hmax]. pose proof (highest_id_lt (gp_Mapping p) (2 ^ 64 - 1) ltac:(done) Hids 0 ltac:(done)) as Hlt.
  assert (u64 (highest_id (gp_Mapping p) 0 + 1) = (highest_id (gp_Mapping p) 0 + 1)%N) as Hu by (apply u64_small; lia).
  unfold ensureHasMapping. fold (highest_id (gp_Mapping p) 0). set (mId := highest_id _ _) in *. set (fake := mkMapping _ _ _ _ _ _ _ _ _ _).
  assert (Hs : ∀ ms ls, ms = gp_Mapping p ∨ ms = gp_Mapping p ++ [fake] → ls = (λ l, if (lc_MappingId l =? 0)%N then mkLocation (lc_Id l) (mp_Id fake) (lc_Address l) (lc_Line l) (lc_IsFolded l) else l) <$> gp_Location p →
    (ms = gp_Mapping p → existsb (λ l, lc_MappingId l =? 0)%N (gp_Location p) = false) → psymbols_wf (psymbols_of (with_symbols p ms ls (gp_Function p)))).
  2: { split; [|done..]. apply Hs; [destruct (existsb _ _); auto|done|]. intros Hm. destruct (existsb _ _); [|done]. apply (f_equal length) in Hm. rewrite length_app in Hm. simpl in Hm. lia. }
  intros ms ls Hms -> Hno. split; cbn [psymbols_of with_symbols ps_strings ps_stacks ps_mappings ps_functions ps_locations gp_StringTable gp_Sample gp_Mapping gp_Function gp_Location] in *; try done.
  - destruct Hms as [->| ->]; [done|]. destruct S3 as [Hnd Hlt64]. split.
    + rewrite fmap_app. apply NoDup_app. split_and!; [done| |apply NoDup_singleton]. intros id (m & -> & Hm)%list_elem_of_fmap Hf%list_elem_of_singleton.
      specialize (Hmax m Hm). cbn [fake mp_Id] in Hf. rewrite Hu in Hf. lia.
    + apply Forall_app. split; [done|]. repeat constructor. cbn [fake mp_Id]. rewrite Hu. lia.
  - destruct Hms as [->| ->]; [done|]. apply Forall_app. split; [done|]. repeat constructor. destruct Hzero as [z Hz]. unfold mp_view. cbn [fake mp_Filename mp_BuildId]. rewrite Hz. by eexists.
  - destruct S7 as [Hnd Hlt64]. split.
    + rewrite <- list_fmap_compose. erewrite list_fmap_ext; [exact Hnd|]. intros i l _. simpl. by case_if_eq.
    + apply Forall_fmap. eapply Forall_impl; [exact Hlt64|]. intros l Hl. simpl. by case_if_eq.
  - apply Forall_fmap, Forall_forall. intros l Hl. rewrite Forall_forall in S8. destruct (S8 l Hl) as [Hv Hm]. simpl. destruct (lc_MappingId l =? 0)%N eqn:E.
    + split; [exact Hv|]. intros _. destruct Hms as [Hms| ->].
      * specialize (Hno Hms). assert (existsb (λ l, lc_MappingId l =? 0)%N (gp_Location p) = true) as Hyes; [|by rewrite Hyes in Hno].
        apply existsb_exists. exists l. by rewrite <- list_elem_of_In.
      * cbn [lc_MappingId]. rewrite find_id_app. case_match; [by eexists|]. rewrite find_id_cons, decide_True by done. by eexists.
    + split; [exact Hv|]. intros Hne. specialize (Hm Hne). destruct Hms as [->| ->]; [done|]. rewrite find_id_app. destruct (find_id mp_Id (gp_Mapping p) _); [by eexists|by destruct Hm].
  - rewrite Forall_fmap in S9 |- *. eapply Forall_impl; [exact S9|]. intros x [v Hv]. exists v. exact (ensureHasMapping_stacks p (gs_LocationId x) v Hv).
Qed.

(** ** Samples *)

Lemma add_values_length next : ∀ value r, add_values next value = Ret r → length r = length next.
Proof.
  induction next as [|n next IH]; intros [|v value] r H; cbn in H; simplify_eq; try done.
  apply obind_ret in H as (r' & Hr & [= <-]). cbn. by rewrite (IH _ _ Hr).
Qed.

Lemma keep_sample_shape T s kept removed : keep_sample T s = Ret (kept, removed) → length kept ≤ 1 ∧ Forall (λ s', length (gs_Value s') = length (gs_Value s)) kept.
Proof.
  unfold keep_sample. destruct (existsb _ _); [|intros [= <- <-]; split; [simpl; lia|constructor]].
  intros ([labels []] & _ & [= <- <-])%obind_ret. split; [done|]. by repeat constructor.
Qed.

Lemma remove_samples_shape T n rest : ∀ h s kept removed, remove_samples T h s rest = Ret (kept, removed) → Forall (λ s, length (gs_Value s) = n) (s :: rest.*2) →
  length kept ≤ S (length rest) ∧ Forall (λ s, length (gs_Value s) = n) kept.
Proof.
  induction rest as [|[h' s'] rest IH]; intros h s kept removed H; cbn [remove_samples] in H; rewrite ?fmap_cons; cbn [snd].
  - intros [Hs _]%Forall_cons. apply keep_sample_shape in H as [Hl Hv]. split; [done|]. eapply Forall_impl; [exact Hv|]. intros x Hx. cbn in Hx. congruence.
  - intros [Hs [Hs' Hrest]%Forall_cons]%Forall_cons. destruct (h =? h')%N.
    + apply obind_ret in H as (v & Hv & ([k r] & Hr & [= <- <-])%obind_ret). apply IH in Hr as [Hl Hf].
      * split; [cbn; lia|done].
      * constructor; [|done]. cbn. by rewrite (add_values_length _ _ _ Hv).
    + apply obind_ret in H as ([k r] & Hk & ([k' r'] & Hr & [= <- <-])%obind_ret). apply keep_sample_shape in Hk as [Hl Hv].
      apply IH in Hr as [Hl' Hv']; [|by constructor]. split; [rewrite length_app; cbn; lia|]. apply Forall_app. split; [|done].
      eapply Forall_impl; [exact Hv|]. intros x Hx. cbn in Hx. congruence.
Qed.

Lemma dedup_samples_shape Sum64 T n samples kept removed : dedup_samples Sum64 T samples = Ret (kept, removed) → Forall (λ s, length (gs_Value s) = n) samples →
  length kept ≤ length samples ∧ Forall (λ s, length (gs_Value s) = n) kept.
Proof.
  unfold dedup_samples. assert (zip (Hashes Sum64 samples) samples = (λ s, (stack_hash Sum64 (gs_LocationId s), s)) <$> samples) as ->.
  { unfold Hashes. induction samples as [|s samples IH]; [done|]. simpl. by f_equal. }
  set (l := _ <$> samples). pose proof (sort_slice_perm hash_less l) as Hperm.
  assert (samples ≡ₚ (sort_slice hash_less l).*2) as Hs by (rewrite Hperm; unfold l; rewrite <- list_fmap_compose; by rewrite list_fmap_id).
  destruct (sort_slice hash_less l) as [|[h s] rest]; [intros [= <- <-]; split; [cbn; lia|constructor]|].
  intros H Hv. rewrite Hs in Hv. pose proof (Permutation_length Hs) as Hlen. rewrite length_fmap in Hlen. rewrite Hlen. by eapply remove_samples_shape.
Qed.

Lemma with_kept_normal p time kept : normal_wf p → Forall (λ s', from (gp_Sample p) s') kept → length kept ≤ length (gp_Sample p) →
  Forall (λ s, length (gs_Value s) = length (gp_SampleType p)) kept → normal_wf (with_kept p time kept).
Proof.
  intros [[S1 S2 S3 S4 S5 S6 S7 S8 S9] H2 H3 H4 H5 H6 H7] Hfrom Hlen Hval. split; [split|..]; cbn in *; try done.
  - rewrite length_fmap in *. lia.
  - rewrite Forall_fmap in S9 |- *. rewrite Forall_forall in S9, Hfrom |- *. intros s' Hs'. destruct (Hfrom s' Hs') as (s & Hs & Hloc & _). cbn. rewrite Hloc. exact (S9 s Hs).
  - rewrite Forall_forall in Hfrom, H5 |- *. intros s' Hs'. destruct (Hfrom s' Hs') as (s & Hs & _ & Hsub). specialize (H5 s Hs).
    rewrite Forall_forall in H5 |- *. intros l Hl. apply H5. by eapply elem_of_sublist.
Qed.

(** ** Locations, functions and strings that go *)

Lemma filtered_normal p (locs fns : gset N) : normal_wf p → locs ## sample_locations (gp_Sample p) →
  (∀ l line, l ∈ filter (λ l, ¬ lc_Id l ∈ locs) (gp_Location p) → line ∈ lc_Line l → ln_FunctionId line ∉ fns) →
  normal_wf (with_symbols p (gp_Mapping p) (filter (λ l, ¬ lc_Id l ∈ locs) (gp_Location p)) (filter (λ f, ¬ fn_Id f ∈ fns) (gp_Function p))).
Proof.
  intros [[S1 S2 S3 S4 S5 S6 S7 S8 S9] H2 H3 H4 H5 H6 H7] Hlocs Hlines. split; [split|..]; cbn [psymbols_of with_symbols ps_strings ps_stacks ps_mappings ps_functions ps_locations gp_StringTable gp_Sample gp_Mapping gp_Function gp_Location gp_SampleType gp_PeriodType] in *; try done.
  - by apply distinct_filter.
  - by apply Forall_filter.
  - by apply distinct_filter.
  - rewrite Forall_forall in S8 |- *. intros l Hl. pose proof Hl as [_ Hin]%list_elem_of_filter. destruct (S8 l Hin) as [[v Hv] Hm]. split; [|done].
    unfold loc_view in *. apply bind_Some in Hv as (lines & Hlv & Hv). exists v.
    assert (mapM (line_view (gp_StringTable p) (find_id fn_Id (filter (λ f, ¬ fn_Id f ∈ fns) (gp_Function p)))) (lc_Line l) = Some lines) as ->; [|exact Hv].
    eapply (mapM_impl _ _ (λ a b, a = b ∧ a ∈ lc_Line l)); [|apply Forall_Forall2_diag, Forall_forall; done|exact Hlv].
    intros a b u [<- Ha]. unfold line_view. rewrite find_id_filter; [done|]. by eapply Hlines.
  - rewrite Forall_fmap in S9 |- *. rewrite Forall_forall in S9 |- *. intros s Hs. destruct (S9 s Hs) as [v Hv]. exists v.
    eapply (keeps_filtered p locs fns Hlocs Hlines s v Hs). exact Hv.
Qed.

Lemma str_zero T i : is_Some (str T i) → is_Some (str T 0).
Proof. unfold str. intros [x Hx]. destruct (i <? 0)%Z; [done|]. destruct T as [|y T]; [done|]. by exists y. Qed.

(** Renumbered references of a table that has lost strings. *)
Section Renumbered.
Context (p : GProfile) (fn : Z → Z) (T' : list string) (refs : list Z) (Hwf : normal_wf p) (Hrefs : visit_refs p = Ret refs).
Context (Hfn : ∀ idx, idx ∈ refs → keeps_str (gp_StringTable p) T' idx (fn idx)) (Hlen : length T' ≤ length (gp_StringTable p)).

Lemma renumbered i : i ∈ refs → is_Some (str (gp_StringTable p) i) → is_Some (str T' (fn i)).
Proof. intros Hi [x Hx]. exists x. by apply Hfn. Qed.

Lemma visited_in {A} (f : A → list Z) (l : list A) x i : x ∈ l → i ∈ f x → i ∈ concat (f <$> l).
Proof. intros Hx Hi. apply elem_of_concat. exists (f x). split; [by apply list_elem_of_fmap_2|done]. Qed.

Lemma refs_parts : ∃ period, gp_PeriodType p = Some period ∧
  (∀ i, i ∈ [gp_DropFrames p; gp_KeepFrames p; vt_Type period; vt_Unit period] → i ∈ refs) ∧
  (∀ t i, t ∈ gp_SampleType p → i ∈ [vt_Type t; vt_Unit t] → i ∈ refs) ∧ (∀ m i, m ∈ gp_Mapping p → i ∈ [mp_Filename m; mp_BuildId m] → i ∈ refs) ∧
  (∀ s l i, s ∈ gp_Sample p → l ∈ gs_Label s → i ∈ [pl_Key l; pl_Num l; pl_NumUnit l] → i ∈ refs) ∧
  (∀ f i, f ∈ gp_Function p → i ∈ [fn_Name f; fn_SystemName f; fn_Filename f] → i ∈ refs) ∧ (∀ i, i ∈ gp_Comment p → i ∈ refs).
Proof.
  pose proof Hrefs as Hr. unfold visit_refs in Hr. destruct (gp_PeriodType p) as [period|]; [|done]. cbn [of_option obind] in Hr. injection Hr as <-. exists period.
  split; [done|]. split_and!.
  - intros i Hi. rewrite !elem_of_cons, elem_of_nil in Hi. rewrite !elem_of_cons. tauto.
  - intros t i Ht Hi. rewrite !elem_of_cons, !elem_of_app. do 4 right. left. by eapply (visited_in (λ t, [vt_Type t; vt_Unit t])).
  - intros m i Hm Hi. rewrite !elem_of_cons, !elem_of_app. do 5 right. left. by eapply (visited_in (λ m, [mp_Filename m; mp_BuildId m])).
  - intros s l i Hs Hl Hi. rewrite !elem_of_cons, !elem_of_app. do 6 right. left. eapply (visited_in (λ s, concat _)); [exact Hs|]. by eapply (visited_in (λ l, [pl_Key l; pl_Num l; pl_NumUnit l])).
  - intros f i Hf Hi. rewrite !elem_of_cons, !elem_of_app. do 7 right. left. by eapply (visited_in (λ f, [fn_Name f; fn_SystemName f; fn_Filename f])).
  - intros i Hi. rewrite !elem_of_cons, !elem_of_app. by do 8 right.
Qed.

Lemma visited_symbols period : gp_PeriodType p = Some period → (∀ m i, m ∈ gp_Mapping p → i ∈ [mp_Filename m; mp_BuildId m] → i ∈ refs) →
  (∀ f i, f ∈ gp_Function p → i ∈ [fn_Name f; fn_SystemName f; fn_Filename f] → i ∈ refs) → ∀ p', visit_map fn (with_strings p T') = Ret p' → psymbols_wf (psymbols_of p').
Proof.
  intros Hp Hms Hfs p' Hp'. destruct (visited_keeps p fn T' refs Hrefs Hfn) as (p2 & Hp2 & [_ Kst _ _ _]). rewrite Hp' in Hp2. injection Hp2 as <-.
  unfold visit_map in Hp'. cbn [with_strings gp_PeriodType] in Hp'. rewrite Hp in Hp'. injection Hp' as <-.
  pose proof (nw_symbols _ Hwf) as [S1 S2 S3 S4 S5 S6 S7 S8 S9].
  assert (∀ f, f ∈ gp_Function p → is_Some (fn_view (gp_StringTable p) f) → is_Some (fn_view T' (visit_function fn f))) as Hview.
  { intros f Hf [v (H1 & H2 & H3 & H4)%fn_view_Some]. exists v. apply fn_view_Some. cbn. split_and!; [| | |done]; (apply Hfn; [|done]); apply (Hfs f _ Hf); rewrite !elem_of_cons; auto. }
  split; cbn [psymbols_of with_strings ps_strings ps_stacks ps_mappings ps_functions ps_locations gp_StringTable gp_Sample gp_Mapping gp_Function gp_Location] in *.
  - lia.
  - by rewrite !length_fmap in *.
  - destruct S3 as [Hnd Hlt]. split; [by rewrite <- list_fmap_compose|by rewrite Forall_fmap].
  - rewrite Forall_fmap. rewrite Forall_forall in S4 |- *. intros m Hm. destruct (S4 m Hm) as [v Hv]. unfold mp_view in *. apply bind_Some in Hv as (file & Hfile & Hv). apply bind_Some in Hv as (build & Hbuild & _).
    cbn. destruct (renumbered (mp_Filename m)) as [x1 ->]; [apply (Hms m _ Hm); rewrite !elem_of_cons; auto|by eexists|].
    destruct (renumbered (mp_BuildId m)) as [x2 ->]; [apply (Hms m _ Hm); rewrite !elem_of_cons; auto|by eexists|]. by eexists.
  - destruct S5 as [Hnd Hlt]. split; [by rewrite <- list_fmap_compose|by rewrite Forall_fmap].
  - rewrite Forall_fmap. rewrite Forall_forall in S6 |- *. intros f Hf. by apply Hview, S6.
  - done.
  - rewrite Forall_forall in S8 |- *. intros l Hl. destruct (S8 l Hl) as [[v Hv] Hm]. split.
    + exists v. unfold loc_view in *. apply bind_Some in Hv as (lines & Hlv & Hv).
      assert (mapM (line_view T' (find_id fn_Id (visit_function fn <$> gp_Function p))) (lc_Line l) = Some lines) as ->; [|exact Hv].
      eapply (mapM_impl _ _ eq); [|by apply Forall2_refl|exact Hlv]. intros a b u <- (f & Hf & Hu)%bind_Some. unfold line_view.
      rewrite find_id_fmap, Hf by done. cbn. apply find_id_Some in Hf as [Hf _]. apply bind_Some in Hu as (w & Hw & Hu).
      assert (fn_view T' (visit_function fn f) = Some w) as ->; [|exact Hu]. apply fn_view_Some in Hw as (H1 & H2 & H3 & H4). apply fn_view_Some. cbn.
      split_and!; [| | |done]; (apply Hfn; [|done]); apply (Hfs f _ Hf); rewrite !elem_of_cons; auto.
    + intros Hne. rewrite find_id_fmap by done. destruct (Hm Hne) as [m ->]. by eexists.
  - rewrite !Forall_fmap in *. rewrite Forall_forall in S9 |- *. intros s Hs. destruct (S9 s Hs) as [v Hv]. exists v. exact (Kst s v Hs Hv).
Qed.

Lemma visited_normal p' : visit_map fn (with_strings p T') = Ret p' → normal_wf p'.
Proof.
  intros Hp'. destruct refs_parts as (period & Hp & Hmain & Htypes & Hms & Hlabels & Hfs & Hcs). pose proof (visited_symbols period Hp Hms Hfs p' Hp') as Hsym.
  unfold visit_map in Hp'. cbn [with_strings gp_PeriodType] in Hp'. rewrite Hp in Hp'. injection Hp' as <-.
  destruct Hwf as [_ H2 (t & Ht & Htw) (H41 & H42 & H43) H5 H6 H7]. rewrite Hp in Ht. injection Ht as <-.
  assert (∀ t, type_wf (gp_StringTable p) t → vt_Type t ∈ refs → vt_Unit t ∈ refs → type_wf T' (visit_type fn t)) as Htype by (intros t [Ha Hb] ??; split; by apply renumbered).
  split; cbn [with_strings gp_StringTable gp_SampleType gp_PeriodType gp_Sample] in *.
  - exact Hsym.
  - rewrite Forall_fmap. rewrite Forall_forall in H2 |- *. intros t Hin. apply Htype; [by apply H2| |]; apply (Htypes t _ Hin); rewrite !elem_of_cons; auto.
  - eexists. split; [done|]. apply Htype; [done| |]; apply Hmain; rewrite !elem_of_cons; auto.
  - split_and!; cbn; [apply renumbered; [apply Hmain; rewrite !elem_of_cons; auto|done]..|]. rewrite Forall_fmap. rewrite Forall_forall in H43 |- *. intros c Hc. apply renumbered; [by apply Hcs|by apply H43].
  - rewrite Forall_fmap. rewrite Forall_forall in H5 |- *. intros s Hs. cbn. rewrite Forall_fmap. specialize (H5 s Hs). rewrite Forall_forall in H5 |- *. intros l Hl.
    destruct (H5 l Hl) as [(Hk & Hstr & Hu) Hn]. split; [|exact Hn]. split_and!; cbn.
    + apply renumbered; [apply (Hlabels s l _ Hs Hl); rewrite !elem_of_cons; auto|done].
    + rewrite Hn. destruct Htw as [Hty _]. apply (str_zero T' (fn (vt_Type period))). apply renumbered; [apply Hmain; rewrite !elem_of_cons; auto|done].
    + apply renumbered; [apply (Hlabels s l _ Hs Hl); rewrite !elem_of_cons; auto|done].
  - rewrite Forall_fmap, length_fmap. exact H6.
  - intros Hnil. by apply fmap_nil_inv in Hnil.
Qed.
End Renumbered.

Lemma reject_length R T : length (reject_strings R T) ≤ length T.
Proof.
  rewrite reject_from_0. generalize 0 as k. induction T as [|x T IH]; intros k; cbn [reject_from]; [done|]. case_decide; cbn; specialize (IH (S k)); lia.
Qed.

Lemma remove_names_normal q names refs p' : normal_wf q → visit_refs q = Ret refs → (∀ r, r ∈ names → (0 ≤ r)%Z) → (∀ r, r ∈ names → r ∉ refs) →
  remove_names names q = Ret p' → normal_wf p'.
Proof.
  intros Hq Hrefs Hpos Hout Hp'. apply (visited_normal q (λ idx, i64 (idx - shift names idx)) (reject_strings names (gp_StringTable q)) refs Hq Hrefs); [|apply reject_length|exact Hp'].
  intros idx Hidx x Hx. apply renamed_str; [done|apply (wf_strings _ (nw_symbols _ Hq))| |done]. intros Hin. by apply (Hout idx).
Qed.

Lemma clear_normal removed p p' : normal_wf p → clearSampleReferences removed p = Ret p' → normal_wf p'.
Proof.
  intros Hp. unfold clearSampleReferences. case_decide; [by intros [= <-]|].
  set (locs := sample_locations removed ∖ sample_locations (gp_Sample p)). case_decide; [by intros [= <-]|].
  assert (locs ## sample_locations (gp_Sample p)) as Hlocs by set_solver.
  unfold remove_location. rewrite RemoveInPlace_filter. cbn [obind]. set (left := filter (λ l, ¬ lc_Id l ∈ locs) (gp_Location p)).
  set (fns := foldl _ _ _). case_decide as Hnone.
  { intros [= <-]. pose proof (filtered_normal p locs ∅ Hp Hlocs) as Hk. rewrite (filter_all _ (gp_Function p)) in Hk by set_solver. apply Hk. set_solver. }
  clear Hnone. unfold remove_function. rewrite RemoveInPlace_filter. cbn [obind]. set (names := foldl _ _ _).
  assert (∀ r, r ∈ names → (0 ≤ r)%Z) as Hpos.
  { intros r [?%elem_of_empty|(f & Hf & Hr)]%removed_names_from; [done|]. apply list_elem_of_filter in Hf as [_ Hf].
    pose proof (wf_functions _ (nw_symbols _ Hp)) as Hfns. rewrite Forall_forall in Hfns. by eapply fn_view_nonneg; [apply Hfns|]. }
  pose proof (filtered_normal p locs (fns ∖ line_functions left) Hp Hlocs) as Hk.
  assert (∀ l line, l ∈ left → line ∈ lc_Line l → ln_FunctionId line ∉ fns ∖ line_functions left) as Hlines.
  { intros l line Hl Hline [_ Hout]%elem_of_difference. apply Hout, line_functions_elem. by exists l, line. }
  specialize (Hk Hlines). set (q := with_symbols _ _ _ _). case_decide; [by intros [= <-]|].
  destruct (visit_refs q) as [refs| |] eqn:Hrefs; cbn [obind]; [|done|done]. case_decide; [by intros [= <-]|].
  apply (remove_names_normal q _ refs); [exact Hk|done|set_solver|]. intros r [_ Hr]%elem_of_difference Hin. apply Hr. by apply elem_of_list_to_set.
Qed.



(** A profile with a label whose string comes after the name of a function that goes: the ingester takes it as it is,
    but not as the distributor leaves it. *)
Definition crash_profile : GProfile :=
  mkGProfile [mkValueType 3 3] [mkGSample [1]%N [7]%Z [mkPLabel 3 4 0 0]; mkGSample [2]%N [0]%Z []] []
    [ex_loc 1 [(1%N, 1%Z)]; ex_loc 2 [(2%N, 1%Z)]] [mkFunction 1 1 1 1 0; mkFunction 2 2 2 2 0]
    [""; "kept"; "gone"; "key"; "value"] 0 0 1 0 (Some (mkValueType 0 0)) 0 [] 0.

Definition ingest_example (p : GProfile) : outcome unit :=
  obind NewHead (λ h, obind (@Ingest example_sizes example_hasher (λ _, 77%N) id h p "a" [mkLabel "__name__" "process_cpu"]) (λ _, Ret ())).

Example crash_profile_ingested : ingest_example crash_profile = Ret ().
Proof. vm_compute. reflexivity. Qed.

Example normalized_label_panics : obind (Normalize ex_sum 0 crash_profile) ingest_example = Panic.
Proof. vm_compute. reflexivity. Qed.
