(* ===== verification/HeadIndex.v ===== *)
(** * The index of a head on disk (src/pkg/phlaredb/profiles.go, [WriteTo])

    The series of the head's index are written to an index file in the order of their labels, each with the time range of
    its profiles and its position, which its profiles also get.  The theorem composes the index of the head with the
    writer and the reader of index files. *)

From S2P Require Import Prelude Sorting Labels GoHeap Iter Shard InvertedIndex Dedup Symbols Delta ProfilesIndex Head HeadApi Encoding IndexSymbols IndexWriter IndexReader IndexRoundtrip IndexFile.

Definition set_series_index (i : N) (p : SProfile) : SProfile :=
  mkSProfile (sp_ID p) i (sp_SeriesFingerprint p) (sp_Samples p) (sp_DropFrames p) (sp_KeepFrames p)
    (sp_TimeNanos p) (sp_DurationNanos p) (sp_Period p) (sp_Comments p) (sp_DefaultSampleType p).

(** Profiles are shared by pointer: the store is that of the head's table. *)
Definition rewrite_series (i : N) (s : profileLabels) (profiles : list SProfile) : list SProfile :=
  foldl (λ ps r, alter (λ p, if (sp_SeriesFingerprint p =? pf_fp s)%N then set_series_index i p else p) r ps) profiles (pf_profiles s).

Definition label_symbols (pfs : list profileLabels) : gset string :=
  foldl (λ m s, foldl (λ m l, {[Value l]} ∪ ({[Name l]} ∪ m)) m (pf_lbs s)) ∅ pfs.

Definition by_labels (a b : profileLabels) : bool := (CompareLabelPairs (pf_lbs a) (pf_lbs b) <? 0)%Z.

Section WriteTo.
Context `{TsdbEnc}.
Context (ctx_Err : option string).
Context (range : gmap N profileLabels → list (N * profileLabels)) (range_symbols : gset string → list string).

Fixpoint write_symbols (w : Writer) (symbols : list string) : outcome Writer :=
  match symbols with
  | [] => Ret w
  | symbol :: symbols => obind (AddSymbol ctx_Err w symbol) (λ w, write_symbols w symbols)
  end.

Fixpoint write_all (i : nat) (pfs : list profileLabels) (w : Writer) (profiles : list SProfile) : outcome (Writer * list SProfile) :=
  match pfs with
  | [] => Ret (w, profiles)
  | s :: pfs =>
      obind (omapM (λ r, of_option (profiles !! r)) (pf_profiles s)) (λ ps,
      let '(mn, mx) := minmax (sp_TimeNanos <$> ps) in
      obind (AddSeries ctx_Err w (N.of_nat i) (pf_lbs s) (pf_fp s) [mkChunkMeta 0 mn mx 0 (u32 (N.of_nat i))]) (λ w,
      write_all (S i) pfs w (rewrite_series (u32 (N.of_nat i)) s profiles)))
  end.

(** The file, and the profiles of the head as they are left. *)
Definition WriteTo (profiles : list SProfile) (pi : profilesIndex) : outcome (bytes * list SProfile) :=
  obind NewWriter (λ w,
  let pfs := sort_slice by_labels (range (px_perFP pi)).*2 in
  let symbols := sort_strings (range_symbols (label_symbols pfs)) in
  obind (write_symbols w symbols) (λ w,
  obind (write_all 0 pfs w profiles) (λ '(w, profiles),
  obind (Close ctx_Err w) (λ w, Ret (w_f w, profiles))))).
End WriteTo.

(** ** Lemmas *)

Lemma minmax_fold ts : ∀ a : Z * Z, let r := foldl minmax_step a ts in
  (r.1 ≤ a.1)%Z ∧ (a.2 ≤ r.2)%Z ∧ (∀ t, t ∈ ts → r.1 ≤ t ≤ r.2)%Z ∧ (r.1 = a.1 ∨ r.1 ∈ ts) ∧ (r.2 = a.2 ∨ r.2 ∈ ts).
Proof.
  induction ts as [|t ts IH]; intros a; cbn [foldl]; cbv zeta; [split_and!; [lia|lia| |by left|by left]; by intros t ?%elem_of_nil|].
  destruct (IH (minmax_step a t)) as (H1 & H2 & H3 & H4 & H5). set (r := foldl _ _ ts) in *.
  assert ((minmax_step a t).1 ≤ a.1 ∧ (minmax_step a t).1 ≤ t ∧ a.2 ≤ (minmax_step a t).2 ∧ t ≤ (minmax_step a t).2)%Z as (A1 & A2 & A3 & A4).
  { unfold minmax_step. cbn [fst snd]. destruct (Z.ltb_spec t a.1), (Z.gtb_spec t a.2); lia. }
  split_and!; [lia|lia| | |].
  - intros x [->|Hx]%elem_of_cons; [lia|by apply H3].
  - rewrite elem_of_cons. destruct H4 as [->|]; [|tauto]. unfold minmax_step. cbn [fst]. destruct (t <? a.1)%Z; tauto.
  - rewrite elem_of_cons. destruct H5 as [->|]; [|tauto]. unfold minmax_step. cbn [snd]. destruct (t >? a.2)%Z; tauto.
Qed.

(** The bounds of the times, both of which are times. *)
Lemma minmax_bounds ts : ts ≠ [] → (∀ t, t ∈ ts → (minmax ts).1 ≤ t ≤ (minmax ts).2)%Z ∧ (minmax ts).1 ∈ ts ∧ (minmax ts).2 ∈ ts.
Proof.
  destruct ts as [|t [|t' ts]]; [done| |]; intros _.
  - split_and!; cbn; [intros x ->%list_elem_of_singleton; lia|by left|by left].
  - unfold minmax. destruct (minmax_fold (t' :: ts) (t, t)) as (H1 & H2 & H3 & H4 & H5). cbn [fst snd] in *. split_and!.
    + intros x [->|Hx]%elem_of_cons; [lia|by apply H3].
    + apply elem_of_cons. destruct H4 as [->|]; [by left|by right].
    + apply elem_of_cons. destruct H5 as [->|]; [by left|by right].
Qed.

Lemma label_symbols_spec pfs x : x ∈ label_symbols pfs ↔ ∃ s l, s ∈ pfs ∧ l ∈ pf_lbs s ∧ (x = Name l ∨ x = Value l).
Proof.
  assert (∀ ls (m : gset string), x ∈ foldl (λ m l, {[Value l]} ∪ ({[Name l]} ∪ m)) m ls ↔ x ∈ m ∨ ∃ l, l ∈ ls ∧ (x = Name l ∨ x = Value l)) as Hin.
  { induction ls as [|l ls IH]; intros m; cbn [foldl]; [set_solver|]. rewrite IH. set_solver. }
  unfold label_symbols. enough (∀ m : gset string, x ∈ foldl (λ m s, foldl (λ m l, {[Value l]} ∪ ({[Name l]} ∪ m)) m (pf_lbs s)) m pfs ↔
    x ∈ m ∨ ∃ s l, s ∈ pfs ∧ l ∈ pf_lbs s ∧ (x = Name l ∨ x = Value l)) as H by (rewrite H; set_solver).
  induction pfs as [|s pfs IH]; intros m; cbn [foldl]; [set_solver|]. rewrite IH, Hin. set_solver.
Qed.

Lemma label_order_sorted pfs : StronglySorted (λ a b, (CompareLabelPairs (pf_lbs a) (pf_lbs b) ≤ 0)%Z) (sort_slice by_labels pfs).
Proof.
  eapply StronglySorted_weaken; [|apply sort_slice_sorted]; unfold by_labels.
  - intros a b Hab. bool_prop. rewrite CompareLabelPairs_opp. lia.
  - intros x y z Hxy Hyz. bool_prop. apply Z.ltb_ge. pose proof (CompareLabelPairs_opp (pf_lbs x) (pf_lbs y)). pose proof (CompareLabelPairs_opp (pf_lbs y) (pf_lbs z)).
    pose proof (CompareLabelPairs_opp (pf_lbs x) (pf_lbs z)). pose proof (CompareLabelPairs_le_trans (pf_lbs x) (pf_lbs y) (pf_lbs z)). lia.
  - intros x y Hxy. bool_prop. apply Z.ltb_ge. pose proof (CompareLabelPairs_opp (pf_lbs x) (pf_lbs y)). lia.
Qed.

(** The profile at a place after its series was visited. *)
Lemma lookup_rewrite_series i s profiles r : rewrite_series i s profiles !! r =
  if decide (r ∈ pf_profiles s) then (λ p, if (sp_SeriesFingerprint p =? pf_fp s)%N then set_series_index i p else p) <$> profiles !! r else profiles !! r.
Proof.
  unfold rewrite_series. set (f := λ p, if (_ =? _)%N then _ else _). assert (∀ p, f (f p) = f p) as Hff.
  { intros p. subst f. cbn beta. destruct (sp_SeriesFingerprint p =? pf_fp s)%N eqn:E; [|by rewrite E]. cbn. by rewrite E. }
  revert profiles. induction (pf_profiles s) as [|r' rs IH]; intros profiles; cbn [foldl]; [by rewrite decide_False by (apply not_elem_of_nil)|].
  rewrite IH. destruct (decide (r' = r)) as [->|Hne].
  - rewrite (decide_True (P := r ∈ r :: rs)) by (by left). rewrite list_lookup_alter_eq. case_decide; [|done]. rewrite <- option_fmap_compose. destruct (profiles !! r); [|done]. cbn. by rewrite Hff.
  - rewrite list_lookup_alter_ne by done. repeat case_decide; set_solver.
Qed.

Lemma rewrite_series_length i s profiles : length (rewrite_series i s profiles) = length profiles.
Proof. unfold rewrite_series. revert profiles. induction (pf_profiles s) as [|r rs IH]; intros profiles; cbn [foldl]; [done|]. by rewrite IH, length_alter. Qed.

Lemma rewrite_series_times i s profiles r : sp_TimeNanos <$> rewrite_series i s profiles !! r = sp_TimeNanos <$> profiles !! r.
Proof. rewrite lookup_rewrite_series. case_decide; [|done]. rewrite <- option_fmap_compose. apply option_fmap_ext. intros p. cbn. by case_match. Qed.

(** What is passed to the writer for a series. *)
Definition times_of (profiles : list SProfile) (s : profileLabels) : list Z := omap (λ r, sp_TimeNanos <$> profiles !! r) (pf_profiles s).
Definition series_input (profiles : list SProfile) (i : nat) (s : profileLabels) : series_in :=
  (N.of_nat i, pf_lbs s, pf_fp s, [mkChunkMeta 0 (minmax (times_of profiles s)).1 (minmax (times_of profiles s)).2 0 (u32 (N.of_nat i))]).

Lemma times_of_read profiles s ps : omapM (λ r, of_option (profiles !! r)) (pf_profiles s) = Ret ps → sp_TimeNanos <$> ps = times_of profiles s.
Proof.
  intros H%omapM_ret. unfold times_of. induction H as [|r p rs ps Hr _ IH]; [done|]. cbn. destruct (profiles !! r); [|done]. injection Hr as ->. cbn. by f_equal.
Qed.

Lemma times_of_rewrite profiles i s s' : times_of (rewrite_series i s profiles) s' = times_of profiles s'.
Proof. unfold times_of. induction (pf_profiles s') as [|r rs IH]; [done|]. cbn [omap list_omap]. by rewrite rewrite_series_times, IH. Qed.

Lemma times_of_elem profiles s t : t ∈ times_of profiles s ↔ ∃ r p, r ∈ pf_profiles s ∧ profiles !! r = Some p ∧ t = sp_TimeNanos p.
Proof.
  unfold times_of. rewrite list_elem_of_omap. split.
  - intros (r & Hr & Ht). destruct (profiles !! r) as [p|] eqn:E; [|done]. injection Ht as <-. by exists r, p.
  - intros (r & p & Hr & Hp & ->). exists r. by rewrite Hp.
Qed.

(** The store after the series from position [i] on were visited. *)
Fixpoint rewrite_from (i : nat) (pfs : list profileLabels) (profiles : list SProfile) : list SProfile :=
  match pfs with
  | [] => profiles
  | s :: pfs => rewrite_from (S i) pfs (rewrite_series (u32 (N.of_nat i)) s profiles)
  end.

Section Written.
Context `{TsdbEncOk}.

Lemma write_symbols_add w l : write_symbols None w l = add_symbols w l.
Proof.
  unfold add_symbols. revert w. induction l as [|x l IH]; intros w; cbn [write_symbols foldl]; [done|]. cbn [obind].
  destruct (AddSymbol None w x) as [w1|e|]; cbn [obind]; [apply IH|..]; clear; by induction l.
Qed.

Lemma write_all_spec pfs : ∀ i w profiles w' profiles', write_all None i pfs w profiles = Ret (w', profiles') →
  write_series w (imap (λ k, series_input profiles (i + k)) pfs) = Ret w' ∧ profiles' = rewrite_from i pfs profiles.
Proof.
  induction pfs as [|s pfs IH]; intros i w profiles w' profiles' Hw; cbn [write_all] in Hw; [by injection Hw as <- <-|].
  apply obind_ret in Hw as (ps & Hps & Hw). apply times_of_read in Hps. rewrite Hps in Hw. destruct (minmax (times_of profiles s)) as [mn mx] eqn:Hmm.
  apply obind_ret in Hw as (w1 & Hadd & Hw). destruct (IH _ _ _ _ _ Hw) as [Hws ->]. split; [|done].
  cbn [imap]. unfold series_input at 1. rewrite Nat.add_0_r, Hmm. cbn [fst snd]. rewrite write_series_cons, Hadd. cbn [obind]. rewrite <- Hws. f_equal.
  apply imap_ext. intros k x _. unfold series_input, compose. rewrite times_of_rewrite. by replace (i + S k) with (S i + k) by lia.
Qed.
End Written.

(** The profiles of every series are in the table, with its fingerprint. *)
Definition refs_valid (profiles : list SProfile) (s : profileLabels) : Prop :=
  pf_profiles s ≠ [] ∧ ∀ r, r ∈ pf_profiles s → ∃ p, profiles !! r = Some p ∧ sp_SeriesFingerprint p = pf_fp s ∧ int64_range (sp_TimeNanos p).

Lemma refs_valid_rewrite i s s' profiles : refs_valid profiles s' → refs_valid (rewrite_series i s profiles) s'.
Proof.
  intros [Hne Hr]. split; [done|]. intros r (p & Hp & Hfp & Ht)%Hr. rewrite lookup_rewrite_series, Hp. cbn. repeat case_match; eauto.
Qed.

Lemma rewrite_from_lookup pfs : ∀ i profiles, Forall (refs_valid profiles) pfs → NoDup (pf_fp <$> pfs) → ∀ r p, profiles !! r = Some p →
  (∀ k s, pfs !! k = Some s → r ∈ pf_profiles s → rewrite_from i pfs profiles !! r = Some (set_series_index (u32 (N.of_nat (i + k))) p)) ∧
  ((∀ s, s ∈ pfs → r ∉ pf_profiles s) → rewrite_from i pfs profiles !! r = Some p).
Proof.
  induction pfs as [|s pfs IH]; intros i profiles Hv Hnd r p Hp; cbn [rewrite_from]; [done|]. apply Forall_cons in Hv as [Hs Hv]. rewrite fmap_cons in Hnd. apply NoDup_cons in Hnd as [Hnew Hnd].
  assert (Forall (refs_valid (rewrite_series (u32 (N.of_nat i)) s profiles)) pfs) as Hv' by (eapply Forall_impl; [exact Hv|intros x; apply refs_valid_rewrite]).
  destruct (decide (r ∈ pf_profiles s)) as [Hin|Hout].
  - destruct (proj2 Hs r Hin) as (p1 & Hp1 & Hfp & _). simplify_eq. assert (∀ x, x ∈ pfs → r ∉ pf_profiles x) as Hrest.
    { intros x Hx Hrx. rewrite Forall_forall in Hv. destruct (proj2 (Hv x Hx) r Hrx) as (p2 & Hp2 & Hfp2 & _). simplify_eq. apply Hnew. rewrite <- Hfp, Hfp2. by apply list_elem_of_fmap_2. }
    destruct (IH (S i) _ Hv' Hnd r (set_series_index (u32 (N.of_nat i)) p)) as [_ Hsame].
    { rewrite lookup_rewrite_series, decide_True, Hp by done. cbn. by rewrite Hfp, N.eqb_refl. }
    split; [|intros Hno; exfalso; apply (Hno s); [by left|done]]. intros [|k] x Hx Hrx; [by rewrite Nat.add_0_r; apply Hsame|].
    exfalso. apply (Hrest x); [by eapply list_elem_of_lookup_2|done].
  - destruct (IH (S i) _ Hv' Hnd r p) as [Hk Hsame]; [by rewrite lookup_rewrite_series, decide_False|]. split.
    + intros [|k] x Hx Hrx; [by injection Hx as ->|]. replace (i + S k) with (S i + k) by lia. by eapply Hk.
    + intros Hno. apply Hsame. intros x Hx. apply Hno. by right.
Qed.

Lemma rewrite_from_length pfs : ∀ i profiles, length (rewrite_from i pfs profiles) = length profiles.
Proof. induction pfs as [|s pfs IH]; intros i profiles; cbn [rewrite_from]; [done|]. by rewrite IH, rewrite_series_length. Qed.

(** The symbols of an index, sorted, and the body_fits that a series takes. *)
Definition index_symbols (pi : profilesIndex) : list string := sort_strings (elements (label_symbols (map_to_list (px_perFP pi)).*2)).
Definition body_fits `{TsdbEnc} (syms : list string) (x : series_in) : Prop :=
  let '(_, lset, fp, cs) := x in (N.of_nat (length (series_body syms lset fp cs)) < 2 ^ 32)%N.

#[export] Instance body_fits_dec `{TsdbEnc} syms x : Decision (body_fits syms x).
Proof. destruct x as [[[ref lset] fp] cs]. unfold body_fits. apply _. Defined.

Lemma label_symbols_perm pfs pfs' : pfs ≡ₚ pfs' → label_symbols pfs = label_symbols pfs'.
Proof. intros Hp. apply set_eq. intros x. rewrite !label_symbols_spec. by setoid_rewrite Hp. Qed.

Lemma sort_strings_unique l l' : l ≡ₚ l' → sort_strings l = sort_strings l'.
Proof.
  intros Hp. apply (StronglySorted_unique String.le); [apply StronglySorted_merge_sort; apply _..|]. unfold sort_strings. by rewrite !merge_sort_Permutation.
Qed.

Lemma index_symbols_sorted pi : StronglySorted str_lt (index_symbols pi).
Proof. apply sort_strings_lt, NoDup_elements. Qed.

(** What the index of a head and the limits of the file ask for. *)
Record writable `{TsdbEnc} (profiles : list SProfile) (pi : profilesIndex) : Prop := {
  wr_refs : ∀ fp s, px_perFP pi !! fp = Some s → refs_valid profiles s;
  wr_symbols : fits (index_symbols pi);
  wr_room : Forall (λ s, Forall (λ i, body_fits (index_symbols pi) (series_input profiles i s)) (seq 0 (size (px_perFP pi)))) (map_to_list (px_perFP pi)).*2;
  wr_count : (N.of_nat (size (px_perFP pi)) < 2 ^ 27)%N }.

Lemma series_inputs_ok `{TsdbEnc} profiles pi k pfs : px_inv pi k → writable profiles pi → pfs ≡ₚ (map_to_list (px_perFP pi)).*2 →
  Forall (series_ok (index_symbols pi)) (imap (λ i, series_input profiles (0 + i)) pfs).
Proof.
  intros Hinv [Hrefs _ Hroom _] Hp. apply Forall_lookup. intros i x Hx. rewrite list_lookup_imap in Hx. destruct (pfs !! i) as [s|] eqn:Hs; [|done]. injection Hx as <-.
  assert (s ∈ (map_to_list (px_perFP pi)).*2) as Hin by (rewrite <- Hp; by eapply list_elem_of_lookup_2).
  pose proof Hin as ([fp s'] & -> & Hfp%elem_of_map_to_list)%list_elem_of_fmap. cbn [snd] in *. destruct (pi_series _ _ Hinv _ _ Hfp) as (Heq & Hlt & _).
  destruct (Hrefs _ _ Hfp) as [Hne Hr]. split_and!; [|by rewrite Heq| |].
  - unfold in_syms. apply Forall_forall. intros l Hl. unfold index_symbols. rewrite !sort_strings_perm, !elem_of_elements, !label_symbols_spec. split; exists s', l; tauto.
  - apply Forall_singleton. assert (times_of profiles s' ≠ []) as Htn.
    { destruct (pf_profiles s') as [|r rs] eqn:E; [done|]. destruct (Hr r ltac:(by left)) as (p & Hp' & _). unfold times_of. rewrite E. cbn. by rewrite Hp'. }
    destruct (minmax_bounds _ Htn) as (_ & Hmn & Hmx). assert (∀ t, t ∈ times_of profiles s' → int64_range t) as Ht.
    { intros t (r & p & Hrin & Hpr & ->)%times_of_elem. destruct (Hr r Hrin) as (p' & Hp' & _ & Hi). by simplify_eq. }
    split_and!; cbn; [by apply Ht|by apply Ht|done|unfold u32; by apply N.mod_lt|done].
  - rewrite Forall_forall in Hroom. specialize (Hroom s' Hin). rewrite Forall_forall in Hroom. apply (Hroom i), elem_of_seq. apply lookup_lt_Some in Hs.
    rewrite Hp, length_fmap, length_map_to_list in Hs. lia.
Qed.

(** *** What a head stores can be written *)

(** An invariant of the head: the index refers to profiles of the table, each under its fingerprint. *)
Definition head_refs (h : Head) : Prop := ∀ fp s, px_perFP (hd_index h) !! fp = Some s → pf_fp s = fp ∧ refs_valid (d_slice (hd_profiles h)) s.

Section HeadRefs.
Context `{Sizeof, Hasher}.

Lemma computeDelta_profile d H' p lbs d' H2 p' : computeDelta d H' p lbs = Ret (d', H2, Some p') →
  sp_SeriesFingerprint p' = sp_SeriesFingerprint p ∧ sp_TimeNanos p' = sp_TimeNanos p.
Proof.
  unfold computeDelta. destruct (isDelta lbs); [|by intros [= <- <- <-]]. destruct (d !! _) as [[|r rs]|]; [by intros [= <- <- <-]| |done].
  intros ([H3 highest] & _ & (rs' & _ & [= <- <- <-])%obind_ret)%obind_ret. done.
Qed.

Lemma ingest_appends (s : dslice SProfile noKey) p r s' es r' : ingest s [p] r = Ret (s', es, r') →
  ∃ p', d_slice s' = d_slice s ++ [p'] ∧ sp_SeriesFingerprint p' = sp_SeriesFingerprint p ∧ sp_TimeNanos p' = sp_TimeNanos p.
Proof.
  unfold ingest, ingest_locked. cbn [omapM h_rewrite profilesHelper]. intros (es1 & Hes & Hrest)%obind_ret. apply obind_ret in Hes as (p' & Hp & Hes).
  apply obind_ret in Hes as (l & [= <-] & [= <-]). cbn in Hrest. injection Hrest as <- _ _. exists p'. cbn. split; [done|].
  unfold profile_rewrite in Hp. apply obind_ret in Hp as (cs & _ & Hp). apply obind_ret in Hp as (k & _ & Hp). by apply obind_ret in Hp as (k' & _ & [= <-]).
Qed.

Lemma px_Add_perFP pi r fp lbs pi' : px_Add pi r fp lbs = Ret pi' → ∃ lbs', px_perFP pi' =
  <[fp := match px_perFP pi !! fp with Some pl => mkProfileLabels (pf_lbs pl) (pf_fp pl) (pf_profiles pl ++ [r]) | None => mkProfileLabels lbs' fp [r] end]> (px_perFP pi).
Proof. unfold px_Add. destruct (px_perFP pi !! fp); [intros [= <-]; by exists lbs|]. intros ([ix lbs'] & _ & [= <-])%obind_ret. by exists lbs'. Qed.

Lemma refs_valid_app profiles p s : refs_valid profiles s → refs_valid (profiles ++ [p]) s.
Proof. intros [Hne Hr]. split; [done|]. intros r (q & Hq & ?)%Hr. exists q. split; [by apply lookup_app_l_Some|done]. Qed.

Lemma ingest_type_refs h r p id lbs fp samples h' b : ingest_type h r p id lbs fp samples = Ret (h', b) → int64_range (gp_TimeNanos p) → head_refs h → head_refs h'.
Proof.
  unfold ingest_type. intros ([[d store] o] & Hd & Hrest)%obind_ret Ht Hh. destruct o as [q|]; [|by injection Hrest as <- _].
  apply computeDelta_profile in Hd as [Hfp Htime]. cbn [sp_SeriesFingerprint sp_TimeNanos] in Hfp, Htime.
  apply obind_ret in Hrest as ([[ps es] r'] & Hing & Hrest). apply obind_ret in Hrest as (ix & Hadd & [= <- _]).
  apply ingest_appends in Hing as (q' & Hps & Hfp' & Ht'). apply px_Add_perFP in Hadd as [lbs' Hper]. intros fp' s. cbn [hd_index hd_profiles]. rewrite Hper, Hps.
  assert (∀ s, pf_fp s = fp → ∃ p0, (d_slice (hd_profiles h) ++ [q']) !! length (d_slice (hd_profiles h)) = Some p0 ∧ sp_SeriesFingerprint p0 = pf_fp s ∧ int64_range (sp_TimeNanos p0)) as Hnew.
  { intros x Hx. exists q'. split; [by apply list_lookup_middle|]. split; [congruence|]. by rewrite Ht', Htime. }
  intros [[<- <-]|[_ Hs]]%lookup_insert_Some.
  - destruct (px_perFP (hd_index h) !! fp) as [pl|] eqn:E.
    + destruct (Hh _ _ E) as [Hpl Hv]. split; [done|]. destruct (refs_valid_app _ q' _ Hv) as [_ Hr]. split; [by destruct (pf_profiles pl)|]. cbn [pf_profiles pf_fp].
      intros r0 [Hr0| ->%list_elem_of_singleton]%elem_of_app; [by apply Hr|by apply (Hnew pl)].
    + split; [done|]. split; [done|]. intros r0 ->%list_elem_of_singleton. by apply (Hnew (mkProfileLabels lbs' fp [])).
  - destruct (Hh _ _ Hs) as [Hpl Hv]. split; [done|]. by apply refs_valid_app.
Qed.

Lemma ingest_types_refs r p id : int64_range (gp_TimeNanos p) → ∀ spt labels h b h' b', ingest_types h r p id labels spt b = Ret (h', b') → head_refs h → head_refs h'.
Proof.
  intros Ht. induction spt as [|samples spt IH]; intros [|[lbs fp] labels] h b h' b' E Hh; cbn in E; try (by injection E as <- _); [done|].
  apply obind_ret in E as ([h1 b1] & Hone & E). eapply IH; [exact E|]. by eapply ingest_type_refs.
Qed.

Lemma convertSamples_same h p r ss h' p' r' out : convertSamples h p r ss = Ret (h', p', r', out) → hd_index h' = hd_index h ∧ hd_profiles h' = hd_profiles h.
Proof.
  unfold convertSamples. destruct ss as [|s0 ss]; [by intros [= <- _ _ _]|]. intros ([lc lss] & _ & E)%obind_ret. apply obind_ret in E as ([[sy q] q'] & _ & E).
  by apply obind_ret in E as (o & _ & [= <- _ _ _]).
Qed.

(** Every ingestion keeps the invariant, delta profiles included. *)
Lemma Ingest_refs hash TimeFromUnixNano h p id ext h' p' : Ingest hash TimeFromUnixNano h p id ext = Ret (h', p') → int64_range (gp_TimeNanos p) → head_refs h → head_refs h'.
Proof.
  unfold Ingest. intros (labels & _ & E)%obind_ret Ht Hh. apply obind_ret in E as ([[sy q] r] & _ & E). apply obind_ret in E as ([[[h1 q1] r1] spt] & Hc & E).
  apply convertSamples_same in Hc as [Hix Hps]. cbn in Hix, Hps. apply obind_ret in E as ([h2 b] & Hts & E).
  apply ingest_types_refs in Hts; [|done|unfold head_refs; by rewrite Hix, Hps]. destruct b; injection E as <- _; exact Hts.
Qed.

Lemma NewHead_refs h : NewHead = Ret h → head_refs h.
Proof. unfold NewHead. destruct newProfileIndex_inv as (pi & -> & _ & Hemp). intros [= <-] fp s. cbn [hd_index]. by rewrite Hemp, lookup_empty. Qed.
End HeadRefs.

(** C6: The index of a head that was written is what a reader of the file finds.  When the file is closed without an
    error, a reader opens it; it finds every series of the head once, in the order of the labels and at increasing
    references, with its labels and fingerprint and one chunk, which covers the times of the profiles of the series exactly and has the
    position of the series; the profiles have that position too, and are otherwise as they were. *)
Theorem WriteTo_readable `{TsdbEncOk} range range_symbols (profiles : list SProfile) (pi : profilesIndex) (k : N) f profiles' :
  (∀ m, range m ≡ₚ map_to_list m) → (∀ X, range_symbols X ≡ₚ elements X) → px_inv pi k → writable profiles pi →
  WriteTo None range range_symbols profiles pi = Ret (f, profiles') →
  ∃ r pfs ids, NewReader f = Ret r ∧ pfs ≡ₚ (map_to_list (px_perFP pi)).*2 ∧ StronglySorted (λ a b, (CompareLabelPairs (pf_lbs a) (pf_lbs b) ≤ 0)%Z) pfs ∧
    StronglySorted N.lt ids ∧ length ids = length pfs ∧ length profiles' = length profiles ∧
    ∀ i s id, pfs !! i = Some s → ids !! i = Some id → ∃ mn mx,
      r_Series r id = Ret (pf_fp s, pf_lbs s, [mkChunkMeta 0 mn mx 0 (N.of_nat i)]) ∧ mn ∈ times_of profiles s ∧ mx ∈ times_of profiles s ∧
      ∀ k, k ∈ pf_profiles s → ∃ p, profiles !! k = Some p ∧ (mn ≤ sp_TimeNanos p ≤ mx)%Z ∧ profiles' !! k = Some (set_series_index (N.of_nat i) p).
Proof.
  intros Hrange Hsyms Hinv Hwr Hw. unfold WriteTo in Hw. apply obind_ret in Hw as (w0 & Hnew & Hw). set (pfs := sort_slice by_labels _) in *.
  assert (pfs ≡ₚ (map_to_list (px_perFP pi)).*2) as Hperm by (subst pfs; by rewrite sort_slice_perm, Hrange).
  assert (sort_strings (range_symbols (label_symbols pfs)) = index_symbols pi) as Hidx.
  { unfold index_symbols. apply sort_strings_unique. rewrite Hsyms. by rewrite (label_symbols_perm _ _ Hperm). }
  rewrite Hidx, write_symbols_add in Hw. apply obind_ret in Hw as (w1 & Hadd & Hw). apply obind_ret in Hw as ([w2 ps] & Hall & Hw).
  apply obind_ret in Hw as (w3 & Hclose & [= <- <-]). apply write_all_spec in Hall as [Hseries ->].
  pose proof (series_inputs_ok _ _ _ _ Hinv Hwr Hperm) as Hok. destruct Hwr as [Hrefs Hfit _ Hcount].
  assert (length pfs = size (px_perFP pi)) as Hlen by (by rewrite Hperm, length_fmap, length_map_to_list).
  destruct (write_index_reads (index_symbols pi) (imap (λ i, series_input profiles (0 + i)) pfs) w3) as (r & ids & Hr & _ & Hids & Hall); [apply index_symbols_sorted|done|done|by rewrite length_imap, Hlen| |].
  { unfold write_index. rewrite Hnew. cbn [obind]. rewrite Hadd. cbn [obind]. by rewrite Hseries. }
  exists r, pfs, ids. split_and!; [done|done|apply label_order_sorted|done|by rewrite <- (Forall2_length _ _ _ Hall), length_imap|apply rewrite_from_length|].
  intros i s id Hs Hid. assert (s ∈ (map_to_list (px_perFP pi)).*2) as Hin by (rewrite <- Hperm; by eapply list_elem_of_lookup_2).
  assert (Forall (refs_valid profiles) pfs) as Hvalid.
  { rewrite Hperm. apply Forall_forall. intros x ([fp x'] & -> & Hx%elem_of_map_to_list)%list_elem_of_fmap. by eapply Hrefs. }
  assert (NoDup (pf_fp <$> pfs)) as Hnd.
  { rewrite Hperm, <- list_fmap_compose. rewrite (list_fmap_ext _ fst); [apply NoDup_fst_map_to_list|]. intros j [fp x] Hx%list_elem_of_lookup_2%elem_of_map_to_list. by destruct (pi_series _ _ Hinv _ _ Hx). }
  assert (u32 (N.of_nat i) = N.of_nat i) as Hi by (apply u32_small; apply lookup_lt_Some in Hs; lia).
  assert (Hread : imap (λ i, series_input profiles (0 + i)) pfs !! i = Some (series_input profiles i s)) by (by rewrite list_lookup_imap, Hs).
  pose proof (Forall2_lookup_lr _ _ _ _ _ _ Hall Hread Hid) as Hx. unfold series_input in Hx. cbn [length Nat.eqb] in Hx. rewrite Hi in Hx.
  assert (times_of profiles s ≠ []) as Hne.
  { rewrite Forall_forall in Hvalid. destruct (Hvalid s) as [Hn Hv]; [by eapply list_elem_of_lookup_2|]. destruct (pf_profiles s) as [|q qs] eqn:E; [done|].
    destruct (Hv q ltac:(by left)) as (p & Hp & _). unfold times_of. rewrite E. cbn. by rewrite Hp. }
  destruct (minmax_bounds _ Hne) as (Hbounds & Hmn & Hmx). do 2 eexists. split_and!; [exact Hx|done|done|]. intros q Hq.
  rewrite Forall_forall in Hvalid. destruct (proj2 (Hvalid s ltac:(by eapply list_elem_of_lookup_2)) q Hq) as (p & Hp & _).
  exists p. split_and!; [done|apply Hbounds; apply times_of_elem; by exists q, p..|]. rewrite <- Hi.
  destruct (rewrite_from_lookup pfs 0 profiles (proj2 (Forall_forall _ _) Hvalid) Hnd q p Hp) as [Hk _]. exact (Hk i s Hs Hq).
Qed.

Definition written_profile (fp : N) (t : Z) : SProfile := mkSProfile "" 0 fp [] 0 0 t 0 0 [] 0.
Definition written_adds : list (SProfile * Labels) :=
  [(written_profile 9 30, [mkLabel "pod" "b"]); (written_profile 5 20, [mkLabel "pod" "a"; mkLabel "env" "x"]); (written_profile 9 10, [mkLabel "pod" "b"])].
Definition written_index : outcome profilesIndex := obind (newProfileIndex 32) (λ pi, add_all pi 0 written_adds).
Definition written_file : outcome (bytes * list SProfile) := obind written_index (WriteTo None map_to_list elements written_adds.*1).

Lemma written_index_ok : ∃ pi, written_index = Ret pi ∧ px_inv pi 5.
Proof.
  unfold written_index. destruct newProfileIndex_inv as (pi0 & -> & Hinv0 & _). cbn [obind].
  destruct (add_all_spec 5 written_adds pi0 0 Hinv0) as (pi & -> & Hinv & _); [by repeat constructor; try (by apply (bool_decide_unpack _))|by exists pi].
Qed.

Definition written_series : list profileLabels :=
  [mkProfileLabels [mkLabel "pod" "b"] 9 [0; 2]; mkProfileLabels [mkLabel "env" "x"; mkLabel "pod" "a"] 5 [1]].

Lemma written_list pi : written_index = Ret pi → map_to_list (px_perFP pi) = zip [9; 5]%N written_series.
Proof. intros H. vm_compute in H. injection H as <-. reflexivity. Qed.

Lemma written_writable pi : written_index = Ret pi → writable written_adds.*1 pi.
Proof.
  intros H. pose proof (written_list pi H) as Hl. assert (size (px_perFP pi) = 2) as Hs by (by rewrite <- length_map_to_list, Hl).
  split; rewrite ?Hs, ?Hl; unfold index_symbols, fits; rewrite ?Hl; [|split; apply (bool_decide_unpack _); vm_compute; exact I|apply (bool_decide_unpack _); vm_compute; exact I|done].
  intros fp s Hin%elem_of_map_to_list. rewrite Hl in Hin. cbn in Hin. rewrite !elem_of_cons, elem_of_nil in Hin. destruct Hin as [[= -> ->]|[[= -> ->]|[]]];
    (split; [done|]); intros r; cbn; rewrite ?elem_of_cons, elem_of_nil; [intros [->|[->|[]]]|intros [->|[]]]; by eexists.
Qed.

Lemma WriteTo_readable_witness : ∃ pi f ps r pfs ids, written_index = Ret pi ∧ WriteTo None map_to_list elements written_adds.*1 pi = Ret (f, ps) ∧
  NewReader f = Ret r ∧ pfs ≡ₚ written_series ∧ length ids = 2 ∧
  ∀ i s id, pfs !! i = Some s → ids !! i = Some id → ∃ c, r_Series r id = Ret (pf_fp s, pf_lbs s, [c]) ∧ c_SeriesIndex c = N.of_nat i.
Proof.
  destruct written_index_ok as (pi & Hpi & Hinv). destruct written_file as [[f ps]|e|] eqn:Hf; [|vm_compute in Hf; discriminate Hf..].
  unfold written_file in Hf. rewrite Hpi in Hf. cbn [obind] in Hf.
  destruct (WriteTo_readable map_to_list elements written_adds.*1 pi 5 f ps) as (r & pfs & ids & Hr & Hp & _ & _ & Hlen & _ & Hall); [done|done|done|by apply written_writable|done|].
  rewrite (written_list pi Hpi) in Hp. exists pi, f, ps, r, pfs, ids. split_and!; [done|done|done|done|by rewrite Hlen, Hp|].
  intros i s id Hs Hid. destruct (Hall i s id Hs Hid) as (mn & mx & Hread & _). eexists. split; [exact Hread|done].
Defined.

(** What ends up in the profiles: their series in the order of labels, which is not that of the additions. *)
Example written_positions : obind written_file (λ '(_, ps), Ret (sp_SeriesIndex <$> ps)) = Ret [1; 0; 1]%N.
Proof. vm_compute. reflexivity. Qed.
