(* ===== verification/HeadFlush.v ===== *)
(** * The head becomes a block (src/pkg/phlaredb/head.go, src/pkg/phlaredb/block/metadata.go)

    [Flush] writes the index, the tables and the metadata to the directory of the head and moves it to the directory of
    blocks; the loop decides when a head is due.  The disk is a state with a record of operations, like a bucket
    ([Bucket]), so that a crash at any moment is covered.  A table is known by its interface ([Dedup] models the
    tables, [HeadIndex] the writing of the index); the file system and JSON are parameters. *)

From S2P Require Import Prelude Sorting BlockQuerier Bucket.

(** ** The disk *)

(** The calls of [os] and [fileutil]; a file is named by its path. *)
Record OS (W : Type) := mkOS {
  os_Create : string → io W unit;
  os_Write : string → content → io W unit;
  os_Sync : string → io W unit;
  os_CloseFile : string → io W unit;
  os_RemoveAll : string → io W unit;
  os_Replace : string → string → io W unit;
  os_Stat : string → io W N;
  os_MkdirAll : string → io W unit;
  os_Rename : string → string → io W unit }.
Arguments mkOS {W}.
Arguments os_Create {W}.
Arguments os_Write {W}.
Arguments os_Sync {W}.
Arguments os_CloseFile {W}.
Arguments os_RemoveAll {W}.
Arguments os_Replace {W}.
Arguments os_Stat {W}.
Arguments os_MkdirAll {W}.
Arguments os_Rename {W}.

(** A deferred call, whose error is only logged. *)
Definition ifinally {W A} (m : io W A) (deferred : io W unit) : io W A := λ w,
  let '(r, w) := m w in let '(d, w) := deferred w in (if d is Panic then Panic else r, w).

(** ** Metadata *)

Record BlockStats := mkBlockStats { bs_NumSamples : N; bs_NumSeries : N; bs_NumProfiles : N }.

(** The metadata of a head: [me_NumProfiles] is part of the statistics. *)
Record HeadMeta := mkHeadMeta { hm_Meta : Meta; hm_Stats : BlockStats }.

Definition with_files (hm : HeadMeta) (files : list File) (stats : BlockStats) : HeadMeta :=
  let m := hm_Meta hm in
  mkHeadMeta (mkMeta (me_ULID m) (me_MinTime m) (me_MaxTime m) (bs_NumProfiles stats) files (me_Version m)) stats.

Definition with_version (hm : HeadMeta) : HeadMeta :=
  let m := hm_Meta hm in
  mkHeadMeta (mkMeta (me_ULID m) (me_MinTime m) (me_MaxTime m) (me_NumProfiles m) (me_Files m) MetaVersion1) (hm_Stats hm).

(** [Table] of head.go. *)
Record Table (W : Type) := mkTable { tb_Name : string; tb_Size : W → N; tb_Flush : io W (N * N); tb_Close : io W unit }.
Arguments mkTable {W}.
Arguments tb_Name {W}.
Arguments tb_Size {W}.
Arguments tb_Flush {W}.
Arguments tb_Close {W}.

Definition ParquetSuffix : string := ".parquet".
Definition IndexFilename : string := "index.tsdb".

(** What [Flush] uses of a head; [fh_id] is the text of its ulid. *)
Record FlushHead (W : Type) := mkFlushHead {
  fh_DataPath : string; fh_id : string; fh_profiles : nat; fh_WriteIndex : string → io W unit; fh_tables : list (Table W);
  fh_totalSeries : Z; fh_totalProfiles : Z; fh_totalSamples : N; fh_meta : HeadMeta }.
Arguments mkFlushHead {W}.
Arguments fh_DataPath {W}.
Arguments fh_id {W}.
Arguments fh_profiles {W}.
Arguments fh_WriteIndex {W}.
Arguments fh_tables {W}.
Arguments fh_totalSeries {W}.
Arguments fh_totalProfiles {W}.
Arguments fh_totalSamples {W}.
Arguments fh_meta {W}.

Section Flush.
Context {W : Type} (os : OS W) (encode : HeadMeta → outcome content) (multierror : list string → string).

Definition close_failed (tmp : string) (e : string) : io W unit :=
  ithen (os_CloseFile os tmp) (λ _, ifail (multierror [e])) (λ e', ifail (multierror [e; e'])).

Definition WriteToFile (meta : HeadMeta) (dir : string) : io W unit :=
  let meta := with_version meta in
  let path := path_Join dir MetaFilename in
  let tmp := path +:+ ".tmp" in
  ifinally
    (ibind (os_Create os tmp) (λ _,
     ibind (lift (encode meta)) (λ jsonMeta,
     ithen (os_Write os tmp jsonMeta)
       (λ _, ithen (os_Sync os tmp)
         (λ _, ibind (os_CloseFile os tmp) (λ _, os_Replace os tmp path))
         (close_failed tmp))
       (close_failed tmp))))
    (os_RemoveAll os tmp).

(** The size of a file, zero when it is not known. *)
Definition stat_size (path : string) : io W N := ithen (os_Stat os path) iret (λ _, iret 0%N).

Fixpoint flush_tables (ts : list (Table W)) : io W (list ParquetFile) :=
  match ts with
  | [] => iret []
  | t :: ts =>
      ithen (tb_Flush t)
        (λ '(numRows, numRowGroups), ibind (flush_tables ts) (λ files, iret (mkParquetFile numRowGroups numRows :: files)))
        (λ e, ifail ("flushing of table " +:+ tb_Name t +:+ ": " +:+ e))
  end.

Definition table_file (t : Table W) : string := tb_Name t +:+ ParquetSuffix.

Fixpoint close_tables (dir : string) (ts : list (Table W)) (files : list ParquetFile) : io W (list File) :=
  match ts, files with
  | t :: ts, pq :: files =>
      ithen (tb_Close t)
        (λ _, ibind (stat_size (path_Join dir (table_file t))) (λ size,
          ibind (close_tables dir ts files) (λ fs, iret (mkFileInfo (table_file t) size (Some pq) None :: fs))))
        (λ e, ifail ("closing of table " +:+ tb_Name t +:+ ": " +:+ e))
  | _, _ => iret []
  end.

Definition file_less (a b : File) : bool := String.ltb (fi_RelPath a) (fi_RelPath b).

Definition headPath (h : FlushHead W) : string := path_Join (path_Join (fh_DataPath h) "head") (fh_id h).
Definition localRoot (h : FlushHead W) : string := path_Join (fh_DataPath h) "local".
Definition localPath (h : FlushHead W) : string := path_Join (localRoot h) (fh_id h).

Definition flush_stats (h : FlushHead W) : BlockStats :=
  mkBlockStats (fh_totalSamples h) (Z.to_N (fh_totalSeries h `mod` 2 ^ 64)) (Z.to_N (fh_totalProfiles h `mod` 2 ^ 64)).

(** The directory of [localPath] is [localRoot]. *)
Definition Flush (h : FlushHead W) : io W unit :=
  if (fh_profiles h =? 0)%nat then os_RemoveAll os (headPath h)
  else
    let indexPath := path_Join (headPath h) IndexFilename in
    ithen (fh_WriteIndex h indexPath)
      (λ _, ibind (stat_size indexPath) (λ size,
        ibind (flush_tables (fh_tables h)) (λ pqs,
        ibind (close_tables (headPath h) (fh_tables h) pqs) (λ fs,
        let files := sort_slice file_less (mkFileInfo IndexFilename size None (Some (mkTSDBFile (bs_NumSeries (flush_stats h)))) :: fs) in
        ibind (WriteToFile (with_files (fh_meta h) files (flush_stats h)) (headPath h)) (λ _,
        ibind (os_MkdirAll os (localRoot h)) (λ _,
        os_Rename os (headPath h) (localPath h)))))))
      (λ e, ifail ("flushing of index: " +:+ e)).

(** ** When a head is due *)

Definition Size (ts : list (Table W)) (w : W) : N := foldl (λ size t, u64 (size + tb_Size t w)) 0%N ts.

(** What the loop is woken by; a tick finds the tables in some state. *)
Inductive wake := ForcedTimer | Tick (w : W) | Stopped.

(** [Some true] when the loop has closed [flushCh], [Some false] when it was stopped, [None] while it goes on. *)
Fixpoint head_loop (MaxBlockBytes : N) (ts : list (Table W)) (wakes : list wake) : option bool :=
  match wakes with
  | [] => None
  | ForcedTimer :: _ => Some true
  | Tick w :: wakes => if (MaxBlockBytes <? Size ts w)%N then Some true else head_loop MaxBlockBytes ts wakes
  | Stopped :: _ => Some false
  end.

(** [Close]; closing [stopCh] a second time panics.  The loop, which is waited for, has ended by then. *)
Fixpoint close_all_tables (ts : list (Table W)) (errs : list string) : io W (list string) :=
  match ts with
  | [] => iret errs
  | t :: ts => ithen (tb_Close t) (λ _, close_all_tables ts errs) (λ e, close_all_tables ts (errs ++ [e]))
  end.

Definition HeadClose (stopped : bool) (ts : list (Table W)) : io W unit :=
  if stopped then ipanic
  else ibind (close_all_tables ts []) (λ errs, if errs is [] then iret () else ifail (multierror errs)).
End Flush.

(** ** Laws of the disk *)

(** A file or what is below a directory. *)
Definition inside (d n : string) : Prop := n = d ∨ ∃ r, n = path_Join d r.

(** Every content that a call goes through is related by [P] to the one it starts from, and its result and the content it leaves by [Q]. *)
Definition does {W A} (tr : W → list contents) (op : io W A) (P : contents → contents → Prop) (Q : contents → outcome A → contents → Prop) : Prop :=
  ∀ w r w', op w = (r, w') → r ≠ Panic ∧ (∃ l, tr w' = l ++ tr w ∧ Forall (P (hd ∅ (tr w))) l) ∧ Q (hd ∅ (tr w)) r (hd ∅ (tr w')).

(** Only the file at [p] differs. *)
Definition off (p : string) (m0 m : contents) : Prop := ∀ n, n ≠ p → m !! n = m0 !! n.

(** Only these files differ. *)
Definition off_files (ps : list string) (m0 m : contents) : Prop := ∀ n, n ∉ ps → m !! n = m0 !! n.

(** The files of the writer of an index: its two temporary files are beside it, and are gone when it ends. *)
Definition index_files (p : string) : list string := [p; p +:+ "_tmp_p"; p +:+ "_tmp_po"].

Definition dir_moved (a b : string) (m0 m : contents) : Prop :=
  (∀ r, m !! path_Join b r = m0 !! path_Join a r) ∧ (∀ n, inside a n → m !! n = None) ∧ ∀ n, ¬ inside a n → ¬ inside b n → m !! n = m0 !! n.

Definition replaced (a b : string) (m0 m : contents) : Prop := ∃ c, m0 !! a = Some c ∧ m = <[b := c]> (delete a m0).

Definition still {A} (_ : contents) (_ : outcome A) (_ : contents) : Prop := True.

(** Writing may fail at any point and leave any content in its file; the two renames are atomic, but may report an error afterwards. *)
Record os_laws {W} (os : OS W) (tr : W → list contents) : Prop := {
  osl_Create p : does tr (os_Create os p) (off p) (λ _ r m, r = Ret () → m !! p = Some []);
  osl_Write p c : does tr (os_Write os p c) (off p) (λ m0 r m, r = Ret () → m0 !! p = Some [] → m !! p = Some c);
  osl_Sync p : does tr (os_Sync os p) (λ _ _, False) still;
  osl_CloseFile p : does tr (os_CloseFile os p) (λ _ _, False) still;
  osl_RemoveAll p : does tr (os_RemoveAll os p) (λ m0 m, ∀ n, ¬ inside p n → m !! n = m0 !! n) (λ _ r m, r = Ret () → ∀ n, inside p n → m !! n = None);
  osl_Replace a b : does tr (os_Replace os a b) (replaced a b) (λ m0 r m, r = Ret () → replaced a b m0 m);
  osl_Stat p : does tr (os_Stat os p) (λ _ _, False) (λ m0 r _, ∀ n, r = Ret n → ∃ c, m0 !! p = Some c ∧ n = N.of_nat (length c));
  osl_MkdirAll p : does tr (os_MkdirAll os p) (λ _ _, False) still;
  osl_Rename a b : (∀ n, inside a n → ¬ inside b n) → does tr (os_Rename os a b) (λ m0 m, (∀ n, inside b n → m0 !! n = None) → dir_moved a b m0 m)
    (λ m0 r m, r = Ret () → (∀ n, inside b n → m0 !! n = None) → dir_moved a b m0 m) }.

(** What a table writes: its rows, and the file with its end.  The page buffers of its writer are in the directory for temporary files, which is not
    among the contents here. *)
Record written := mkWritten { wt_rows : content; wt_file : content; wt_stats : N * N }.

Record table_laws {W} (tr : W → list contents) (dir : string) (t : Table W) (x : written) : Prop := {
  tbl_Flush : does tr (tb_Flush t) (off (path_Join dir (table_file t))) (λ _ r m, ∀ s, r = Ret s → m !! path_Join dir (table_file t) = Some (wt_rows x) ∧ s = wt_stats x);
  tbl_Close : does tr (tb_Close t) (off (path_Join dir (table_file t)))
    (λ m0 r m, r = Ret () → m0 !! path_Join dir (table_file t) = Some (wt_rows x) → m !! path_Join dir (table_file t) = Some (wt_file x)) }.

(** The laws of the parts of a head; [index] is what its index writes. *)
Record head_laws {W} (tr : W → list contents) (h : FlushHead W) (index : content) (xs : list written) : Prop := {
  hl_index p : does tr (fh_WriteIndex h p) (off_files (index_files p)) (λ _ r m, r = Ret () → m !! p = Some index);
  hl_tables : Forall2 (table_laws tr (headPath h)) (fh_tables h) xs;
  hl_id : no_slash (fh_id h) = true;
  hl_names : Forall (λ n, no_slash n = true ∧ n ≠ MetaFilename ∧ n ≠ MetaFilename +:+ ".tmp") (IndexFilename :: (table_file <$> fh_tables h));
  hl_distinct : NoDup (IndexFilename :: (table_file <$> fh_tables h)) }.

(** ** Paths *)

Lemma path_Join_cancel d a b : path_Join d a = path_Join d b → a = b.
Proof. unfold path_Join. by intros ?%app_inj_str%(app_inj_str "/"). Qed.

Lemma inside_Join d n : inside d (path_Join d n).
Proof. right. by exists n. Qed.

Lemma path_Join_assoc a b c : path_Join (path_Join a b) c = path_Join a (path_Join b c).
Proof. unfold path_Join. by rewrite !app_assoc_str. Qed.

Lemma inside_below d r n : inside (path_Join d r) n → ∃ s, n = path_Join d s.
Proof. intros [->|[s ->]]; [by exists r|]. exists (path_Join r s). by rewrite path_Join_assoc. Qed.

Lemma not_inside_name d a n : no_slash n = true → no_slash a = true → n ≠ a → ¬ inside (path_Join d a) (path_Join d n).
Proof.
  intros Hn Ha Hne [?%path_Join_cancel|[r Hr]]; [done|]. rewrite path_Join_assoc in Hr. apply path_Join_cancel in Hr. subst n. clear -Hn.
  unfold path_Join in Hn. induction a as [|c a IH]; [done|]. rewrite app_cons_str in Hn. cbn in Hn. apply andb_prop in Hn as [_ Hn]. by apply IH.
Qed.

Lemma no_slash_Join a b : no_slash (path_Join a b) = false.
Proof. unfold path_Join. induction a as [|c a IH]; [done|]. rewrite app_cons_str. cbn [no_slash]. by rewrite IH, andb_false_r. Qed.

Lemma index_files_inside d f n : n ∈ index_files (path_Join d f) → inside d n.
Proof.
  intros Hn. assert (∃ s, n = path_Join d (f +:+ s)) as [s ->]; [|apply inside_Join]. unfold index_files, path_Join in *. rewrite !elem_of_cons in Hn.
  destruct Hn as [->|[->|[->|[]%not_elem_of_nil]]]; [exists ""|exists "_tmp_p"|exists "_tmp_po"]; by rewrite ?app_nil_str, ?app_assoc_str.
Qed.

Section Paths.
Context {W : Type} (h : FlushHead W).

(** Nothing of the blocks is inside the head. *)
Lemma local_outside d : ¬ inside (headPath h) (path_Join (localRoot h) d).
Proof.
  intros [s Hs]%inside_below. unfold localRoot in Hs. rewrite !path_Join_assoc in Hs. apply path_Join_cancel in Hs. by injection Hs.
Qed.

Lemma head_outside_local n : inside (headPath h) n → ¬ inside (localPath h) n.
Proof. intros Hn [s ->]%inside_below. by apply local_outside in Hn. Qed.

Lemma other_block id n : no_slash (fh_id h) = true → no_slash id = true → id ≠ fh_id h → ¬ inside (localPath h) (path_Join (path_Join (localRoot h) id) n).
Proof.
  intros Hh Hid Hne [Heq|[r Heq]]; unfold localPath in Heq; rewrite ?path_Join_assoc in Heq; apply path_Join_cancel in Heq.
  - by rewrite <- Heq, no_slash_Join in Hh.
  - apply no_slash_app_inj in Heq as [Heq _]; done.
Qed.
End Paths.

(** ** Blocks *)

Section Blocks.
Context (decode : content → outcome HeadMeta).

(** The directory of a block has its metadata and all files of it, with the sizes that are recorded. *)
Definition complete_block (dir : string) (m : contents) : Prop :=
  ∃ c hm, m !! path_Join dir MetaFilename = Some c ∧ decode c = Ret hm ∧
    ∀ f, f ∈ me_Files (hm_Meta hm) → ∃ c, m !! path_Join dir (fi_RelPath f) = Some c ∧ (fi_SizeBytes f = 0%N ∨ fi_SizeBytes f = N.of_nat (length c)).

Definition blocks_complete (root : string) (m : contents) : Prop :=
  ∀ id n, no_slash id = true → is_Some (m !! path_Join (path_Join root id) n) → complete_block (path_Join root id) m.

Lemma complete_block_same dir m m' : (∀ n, m' !! path_Join dir n = m !! path_Join dir n) → complete_block dir m → complete_block dir m'.
Proof. intros Hs (c & hm & Hc & Hd & Hf). exists c, hm. rewrite Hs. split_and!; [done|done|]. intros f Hin. rewrite Hs. by apply Hf. Qed.

Lemma blocks_complete_same root m m' : (∀ d, m' !! path_Join root d = m !! path_Join root d) → blocks_complete root m → blocks_complete root m'.
Proof.
  intros Hs Hm id n Hid Hn. eapply complete_block_same; [|apply (Hm id n Hid)].
  - intros x. by rewrite path_Join_assoc, Hs.
  - by rewrite path_Join_assoc, <- Hs, <- path_Join_assoc.
Qed.
End Blocks.

(** ** Specifications *)

Lemma triple_does {W A} (tr : W → list contents) (I : contents → Prop) m0 (op : io W A) P Q : does tr op P Q → (∀ m, I m0 → P m0 m → I m) →
  triple tr I m0 op (λ r m, r ≠ Panic ∧ Q m0 r m ∧ (m = m0 ∨ P m0 m)).
Proof.
  intros Hop HI w <- Hw r w' E. destruct (Hop w r w' E) as (Hnp & (l & Hl & HF) & HQ). split.
  - exists l. split; [done|]. eapply Forall_impl; [exact HF|]. intros m. by apply HI.
  - split_and!; [done|done|]. rewrite Hl. destruct HF; [by left|by right].
Qed.

Lemma triple_finally {W A} (tr : W → list contents) (I : contents → Prop) m0 (m : io W A) d R S :
  triple tr I m0 m R → (∀ r m1, I m1 → R r m1 → triple tr I m1 d (λ e m2, e ≠ Panic ∧ S r m2)) → triple tr I m0 (ifinally m d) S.
Proof.
  intros Hm Hd w Hw HI r w' E. unfold ifinally in E. destruct (m w) as [r1 w1] eqn:Em. destruct (d w1) as [e w2] eqn:Ed. injection E as <- <-.
  destruct (triple_last tr _ _ _ _ Hm w Hw HI _ _ Em) as ((l & Hl & HF) & HR & HI1).
  destruct (Hd _ _ HI1 HR w1 eq_refl HI1 _ _ Ed) as ((l' & Hl' & HF') & Hne & HS). split.
  - exists (l' ++ l). rewrite Hl', Hl, app_assoc. split; [done|]. by apply Forall_app.
  - by destruct e.
Qed.

Section Spec.
Context {W : Type} (os : OS W) (tr : W → list contents) (Hos : os_laws os tr).
Context (encode : HeadMeta → outcome content) (Hencode : ∀ hm, encode hm ≠ Panic) (multierror : list string → string).
Context (h : FlushHead W) (index : content) (xs : list written) (Hh : head_laws tr h index xs).

(** What the programs keep does not depend on what is in the head. *)
Context (I : contents → Prop) (Hstable : ∀ m m', I m → (∀ n, ¬ inside (headPath h) n → m' !! n = m !! n) → I m').

Lemma off_stable p m m' : inside (headPath h) p → I m → off p m m' → I m'.
Proof. intros Hp HI Ho. eapply Hstable; [done|]. intros n Hn. apply Ho. intros ->. by apply Hn. Qed.

Lemma stat_size_spec m0 p : triple tr I m0 (stat_size os p) (λ r m, r ≠ Panic ∧ m = m0 ∧ ∀ size, r = Ret size → size = 0%N ∨ ∃ c, m0 !! p = Some c ∧ size = N.of_nat (length c)).
Proof.
  unfold stat_size. eapply triple_then; [eapply triple_does; [apply (osl_Stat _ _ Hos)|done]| | |].
  - intros n m1 _ (_ & Hn & [->|[]]). apply triple_ret. intros _. split_and!; [done|done|]. intros size [= <-]. right. by apply Hn.
  - intros e m1 _ (_ & _ & [->|[]]). apply triple_ret. intros _. split_and!; [done|done|]. intros size [= <-]. by left.
  - by intros m1 _ [? _].
Qed.

Definition table_path (t : Table W) : string := path_Join (headPath h) (table_file t).
Definition elsewhere (ts : list (Table W)) (m0 m : contents) : Prop := ∀ n, (∀ t, t ∈ ts → n ≠ table_path t) → m !! n = m0 !! n.

Lemma table_path_inj t t' : table_path t = table_path t' → table_file t = table_file t'.
Proof. apply path_Join_cancel. Qed.

Definition stats_of (x : written) : ParquetFile := mkParquetFile (wt_stats x).2 (wt_stats x).1.

Lemma flush_tables_spec ts ys : Forall2 (table_laws tr (headPath h)) ts ys → NoDup (table_file <$> ts) → ∀ m0,
  triple tr I m0 (flush_tables ts) (λ r m, r ≠ Panic ∧ elsewhere ts m0 m ∧
    ∀ l, r = Ret l → l = stats_of <$> ys ∧ Forall2 (λ t x, m !! table_path t = Some (wt_rows x)) ts ys).
Proof.
  induction 1 as [|t x ts ys Ht _ IH]; intros Hnd m0; cbn [flush_tables].
  { apply triple_ret. intros _. split_and!; [done|done|]. by intros l [= <-]. }
  rewrite fmap_cons in Hnd. apply NoDup_cons in Hnd as [Hnew Hnd].
  assert (∀ t', t' ∈ ts → table_path t ≠ table_path t') as Hne by (intros t' Hin Heq%table_path_inj; apply Hnew; rewrite Heq; by apply list_elem_of_fmap_2).
  eapply triple_then; [eapply triple_does; [apply (tbl_Flush _ _ _ _ Ht)|intros m HI; apply off_stable; [apply inside_Join|done]]| | |].
  - intros [rows groups] m1 HI1 (_ & Hs & Hoff). destruct (Hs _ eq_refl) as [Hrows Hst].
    assert (off (table_path t) m0 m1) as Ho by (by destruct Hoff as [->|]). eapply triple_bind; [apply (IH Hnd)| | |].
    + intros l m2 HI2 (_ & Hel & Hl). destruct (Hl l eq_refl) as [-> Hall]. apply triple_ret. intros _. split_and!; [done| |].
      * intros n Hn. rewrite Hel by (intros t' Hin; apply Hn; by right). apply Ho, Hn. by left.
      * intros l [= <-]. cbn [fmap list_fmap]. unfold stats_of at 2. rewrite <- Hst. split; [done|]. constructor; [|done]. rewrite Hel; [done|]. by intros t' ?%Hne.
    + intros e m2 _ (_ & Hel & _). split_and!; [done| |done]. intros n Hn. rewrite Hel by (intros t' Hin; apply Hn; by right). apply Ho, Hn. by left.
    + by intros m2 _ [? _].
  - intros e m1 _ (_ & _ & Hoff). apply triple_fail. intros _. split_and!; [done| |done]. intros n Hn. destruct Hoff as [->|Ho]; [done|]. apply Ho, Hn. by left.
  - by intros m1 _ [? _].
Qed.

(** The entry of a table in the metadata. *)
Definition file_of (t : Table W) (x : written) (f : File) : Prop :=
  ∃ size, f = mkFileInfo (table_file t) size (Some (stats_of x)) None ∧ (size = 0%N ∨ size = N.of_nat (length (wt_file x))).

Lemma close_tables_spec ts ys : Forall2 (table_laws tr (headPath h)) ts ys → NoDup (table_file <$> ts) → ∀ m0,
  Forall2 (λ t x, m0 !! table_path t = Some (wt_rows x)) ts ys →
  triple tr I m0 (close_tables os (headPath h) ts (stats_of <$> ys)) (λ r m, r ≠ Panic ∧ elsewhere ts m0 m ∧
    ∀ fs, r = Ret fs → length fs = length ts ∧ (∀ i t x, ts !! i = Some t → ys !! i = Some x → m !! table_path t = Some (wt_file x) ∧ ∃ f, fs !! i = Some f ∧ file_of t x f)).
Proof.
  induction 1 as [|t x ts ys Ht _ IH]; intros Hnd m0 Hrows; cbn [close_tables fmap list_fmap].
  { apply triple_ret. intros _. split_and!; [done|done|]. by intros fs [= <-]. }
  rewrite fmap_cons in Hnd. apply NoDup_cons in Hnd as [Hnew Hnd]. apply Forall2_cons in Hrows as [Hrow Hrows].
  assert (∀ t', t' ∈ ts → table_path t' ≠ table_path t) as Hne by (intros t' Hin Heq%table_path_inj; apply Hnew; rewrite <- Heq; by apply list_elem_of_fmap_2).
  eapply triple_then; [eapply triple_does; [apply (tbl_Close _ _ _ _ Ht)|intros m HI; apply off_stable; [apply inside_Join|done]]| | |].
  - intros [] m1 HI1 (_ & Hs & Hoff). specialize (Hs eq_refl Hrow). assert (off (table_path t) m0 m1) as Ho by (by destruct Hoff as [->|]).
    assert (Forall2 (λ t x, m1 !! table_path t = Some (wt_rows x)) ts ys) as Hrows1.
    { apply Forall2_same_length_lookup. split; [by eapply Forall2_length|]. intros i t' x' Hi Hx. rewrite Ho by (apply Hne; by eapply list_elem_of_lookup_2). by eapply (Forall2_lookup_lr _ _ _ _ _ _ Hrows). }
    eapply triple_bind; [apply stat_size_spec| | |].
    + intros size m2 HI2 (_ & -> & Hsize). eapply triple_bind; [apply (IH Hnd m1 Hrows1)| | |].
      * intros fs m3 HI3 (_ & Hel & Hfs). destruct (Hfs fs eq_refl) as [Hlen Hall]. apply triple_ret. intros _. split_and!; [done| |].
        -- intros n Hn. rewrite Hel by (intros t' Hin; apply Hn; by right). apply Ho, Hn. by left.
        -- intros l [= <-]. cbn [length]. split; [by rewrite Hlen|]. intros [|i] t' x' Hi Hx; [|by apply Hall]. injection Hi as <-. injection Hx as <-.
           split; [rewrite Hel; [done|]; by intros t' ?%Hne Heq|]. eexists. split; [done|]. exists size. split; [done|].
           destruct (Hsize _ eq_refl) as [->|(c & Hc & ->)]; [by left|right]. by pose proof (eq_trans (eq_sym Hc) Hs) as [= ->].
      * intros e m3 _ (_ & Hel & _). split_and!; [done| |done]. intros n Hn. rewrite Hel by (intros t' Hin; apply Hn; by right). apply Ho, Hn. by left.
      * by intros m3 _ [? _].
    + intros e m2 _ (_ & -> & _). split_and!; [done| |done]. intros n Hn. apply Ho, Hn. by left.
    + by intros m2 _ [? _].
  - intros e m1 _ (_ & _ & Hoff). apply triple_fail. intros _. split_and!; [done| |done]. intros n Hn. destruct Hoff as [->|Ho]; [done|]. apply Ho, Hn. by left.
  - by intros m1 _ [? _].
Qed.

(** Writing the metadata: on the way only its file and the temporary one differ. *)
Definition tmpPath : string := path_Join (headPath h) (MetaFilename +:+ ".tmp").
Definition beside (m0 m : contents) : Prop := ∀ n, n ≠ path_Join (headPath h) MetaFilename → n ≠ tmpPath → m !! n = m0 !! n.

Lemma tmpPath_eq : path_Join (headPath h) MetaFilename +:+ ".tmp" = tmpPath.
Proof. unfold tmpPath, path_Join. by rewrite !app_assoc_str. Qed.

Lemma off_tmp m0 m : off tmpPath m0 m → beside m0 m.
Proof. intros Ho n _ Hn. by apply Ho. Qed.

Lemma close_failed_spec m0 e (Q : outcome unit → contents → Prop) : (∀ e', Q (Fail e') m0) → triple tr I m0 (close_failed os multierror tmpPath e) Q.
Proof.
  intros HQ. unfold close_failed. eapply triple_then; [eapply triple_does; [apply (osl_CloseFile _ _ Hos)|done]| | |].
  - intros [] m1 _ (_ & _ & [->|[]]). apply triple_fail. intros _. apply HQ.
  - intros e' m1 _ (_ & _ & [->|[]]). apply triple_fail. intros _. apply HQ.
  - by intros m1 _ [? _].
Qed.

Definition meta_written (meta : HeadMeta) (m0 : contents) (r : outcome unit) (m : contents) : Prop :=
  r ≠ Panic ∧ beside m0 m ∧ (r = Ret () → ∃ c, encode (with_version meta) = Ret c ∧ m !! path_Join (headPath h) MetaFilename = Some c).

(** From a temporary file with the text of the metadata. *)
Lemma replace_spec meta m0 m1 c : encode (with_version meta) = Ret c → beside m0 m1 → m1 !! tmpPath = Some c →
  triple tr I m1 (ithen (os_Sync os tmpPath) (λ _, ibind (os_CloseFile os tmpPath) (λ _, os_Replace os tmpPath (path_Join (headPath h) MetaFilename))) (close_failed os multierror tmpPath))
    (meta_written meta m0).
Proof.
  intros Hc Ho Htmp. assert (∀ e, meta_written meta m0 (Fail e) m1) as Hfail by (by intros e; split_and!).
  eapply triple_then; [eapply triple_does; [apply (osl_Sync _ _ Hos)|done]| | |].
  - intros [] m2 _ (_ & _ & [->|[]]). eapply triple_bind; [eapply triple_does; [apply (osl_CloseFile _ _ Hos)|done]| | |].
    + intros [] m2 _ (_ & _ & [->|[]]). assert (∀ m, replaced tmpPath (path_Join (headPath h) MetaFilename) m1 m → beside m0 m ∧ m !! path_Join (headPath h) MetaFilename = Some c) as Hrep.
      { intros m (c' & Hc' & ->). pose proof (eq_trans (eq_sym Hc') Htmp) as [= ->]. split; [|by rewrite lookup_insert_eq].
        intros n Hn Hn'. rewrite lookup_insert_ne, lookup_delete_ne by done. by apply Ho. }
      eapply triple_weaken; [eapply triple_does; [apply (osl_Replace _ _ Hos)|]|].
      * intros m HI (c' & _ & ->). eapply Hstable; [done|]. intros n Hn. rewrite lookup_insert_ne, lookup_delete_ne; [done|..]; intros <-; apply Hn, inside_Join.
      * intros r m _ (Hnp & HQ & Hm). split; [done|]. split; [destruct Hm as [->|Hm]; [done|by apply Hrep]|]. intros Hr. exists c. split; [done|]. by apply Hrep, HQ.
    + intros e m2 _ (_ & _ & [->|[]]). apply Hfail.
    + by intros m2 _ [? _].
  - intros e m2 _ (_ & _ & [->|[]]). by apply close_failed_spec.
  - by intros m2 _ [? _].
Qed.

Lemma WriteToFile_spec meta m0 : triple tr I m0 (WriteToFile os encode multierror meta (headPath h))
  (λ r m, r ≠ Panic ∧ (∀ n, n ≠ path_Join (headPath h) MetaFilename → ¬ inside tmpPath n → m !! n = m0 !! n) ∧
    (r = Ret () → ∃ c, encode (with_version meta) = Ret c ∧ m !! path_Join (headPath h) MetaFilename = Some c)).
Proof.
  unfold WriteToFile. rewrite tmpPath_eq. assert (∀ m m', I m → off tmpPath m m' → I m') as Htmp by (intros m m'; apply off_stable, inside_Join).
  eapply triple_finally with (R := meta_written meta m0).
  - eapply triple_bind; [eapply triple_does; [apply (osl_Create _ _ Hos)|intros m; apply Htmp]| | |].
    + intros [] m1 HI1 (_ & Hnew & Hoff). specialize (Hnew eq_refl). assert (off tmpPath m0 m1) as Ho by (by destruct Hoff as [->|]).
      eapply triple_bind; [apply (triple_lift tr I m1 _ (λ r m, m = m1 ∧ r = encode (with_version meta))); done| | |].
      * intros c m2 _ [-> Hc]. eapply triple_then; [eapply triple_does; [apply (osl_Write _ _ Hos)|intros m; apply Htmp]| | |].
        -- intros [] m3 _ (_ & Hw & Hoff'). eapply replace_spec; [by rewrite Hc| |by apply Hw]. apply off_tmp. intros n Hn. rewrite <- Ho by done. destruct Hoff' as [->|Ho']; [done|by apply Ho'].
        -- intros e m3 _ (_ & _ & Hoff'). apply close_failed_spec. intros e'. split_and!; [done| |done]. apply off_tmp. intros n Hn. rewrite <- Ho by done. destruct Hoff' as [->|Ho']; [done|by apply Ho'].
        -- by intros m3 _ [? _].
      * intros e m2 _ [-> _]. split_and!; [done|by apply off_tmp|done].
      * intros m2 _ [_ Hp]. by destruct (Hencode (with_version meta)).
    + intros e m1 _ (_ & _ & Hoff). split_and!; [done| |done]. apply off_tmp. destruct Hoff as [->|]; [by intros n|done].
    + by intros m1 _ [? _].
  - intros r m1 HI1 (Hnp & Hb & Hc). eapply triple_weaken; [eapply triple_does; [apply (osl_RemoveAll _ _ Hos)|]|].
    + intros m _ Hm. eapply Hstable; [exact HI1|]. intros n Hn. apply Hm. intros [s ->]%inside_below. apply Hn, inside_Join.
    + intros e m2 _ (Hnp' & _ & Hm). split; [done|]. assert (∀ n, ¬ inside tmpPath n → m2 !! n = m1 !! n) as Hout by (by destruct Hm as [->|]). split_and!; [done| |].
      * intros n Hn Hin. rewrite Hout by done. apply Hb; [done|]. intros ->. apply Hin. by left.
      * intros Hr. destruct (Hc Hr) as (c & Henc & Hread). exists c. split; [done|]. rewrite Hout; [done|]. by apply not_inside_name.
Qed.
End Spec.

(** ** The block *)

Section Written.
Context {W : Type} (encode : HeadMeta → outcome content) (h : FlushHead W) (index : content) (xs : list written).

(** The files of the metadata: those that are written, in the order of their names. *)
Definition listed (fs : list File) : Prop :=
  StronglySorted (λ a b, file_less b a = false) fs ∧ ∃ size fl,
    fs ≡ₚ mkFileInfo IndexFilename size None (Some (mkTSDBFile (bs_NumSeries (flush_stats h)))) :: fl ∧
    (size = 0%N ∨ size = N.of_nat (length index)) ∧ Forall2 (λ p f, file_of p.1 p.2 f) (zip (fh_tables h) xs) fl.

(** A whole block is in a directory. *)
Record block_in (dir : string) (m : contents) : Prop := {
  bi_meta : ∃ c fs, encode (with_version (with_files (fh_meta h) fs (flush_stats h))) = Ret c ∧ m !! path_Join dir MetaFilename = Some c ∧ listed fs;
  bi_index : m !! path_Join dir IndexFilename = Some index;
  bi_tables : Forall2 (λ t x, m !! path_Join dir (table_file t) = Some (wt_file x)) (fh_tables h) xs }.

Lemma block_in_same dir dir' m m' : (∀ n, m' !! path_Join dir' n = m !! path_Join dir n) → block_in dir m → block_in dir' m'.
Proof.
  intros Hs [(c & fs & Henc & Hc & Hl) Hi Ht]. split; [exists c, fs; by rewrite Hs|by rewrite Hs|]. eapply Forall2_impl; [exact Ht|]. intros t x. by rewrite Hs.
Qed.

Lemma block_in_complete decode dir m : (∀ hm c, encode hm = Ret c → decode c = Ret hm) → block_in dir m → complete_block decode dir m.
Proof.
  intros Hjson [(c & fs & Henc & Hc & _ & size & fl & Hp & Hsize & Hfl) Hi Ht]. eexists c, _. split; [done|]. split; [by apply Hjson|]. cbn [with_version with_files hm_Meta me_Files]. intros f Hf.
  rewrite Hp, elem_of_cons in Hf. destruct Hf as [->|Hf]; [by exists index|]. apply list_elem_of_lookup in Hf as [i Hf].
  destruct (Forall2_lookup_r _ _ _ _ _ Hfl Hf) as ([t x] & Htx & size' & -> & Hsize'). apply lookup_zip_Some in Htx as [Htt Hx]. cbn [fst snd] in *.
  pose proof (Forall2_lookup_lr _ _ _ _ _ _ Ht Htt Hx) as Hfile. by exists (wt_file x).
Qed.
End Written.

Section FlushSpec.
Context {W : Type} (os : OS W) (tr : W → list contents) (Hos : os_laws os tr).
Context (encode : HeadMeta → outcome content) (Hencode : ∀ hm, encode hm ≠ Panic) (multierror : list string → string).
Context (h : FlushHead W) (index : content) (xs : list written) (Hh : head_laws tr h index xs).
Context (m00 : contents) (Hfresh : ∀ n, inside (localPath h) n → m00 !! n = None).

(** Before the directory is moved, only the head differs; afterwards the block is there. *)
Definition unmoved (m : contents) : Prop := ∀ n, ¬ inside (headPath h) n → m !! n = m00 !! n.
Definition published (m : contents) : Prop :=
  block_in encode h index xs (localPath h) m ∧ ∀ n, ¬ inside (headPath h) n → ¬ inside (localPath h) n → m !! n = m00 !! n.
Definition at_all_times (m : contents) : Prop := unmoved m ∨ published m.

Lemma at_all_times_stable m m' : at_all_times m → (∀ n, ¬ inside (headPath h) n → m' !! n = m !! n) → at_all_times m'.
Proof.
  intros [Hm|[Hb Hm]] Hs; [left; intros n Hn; rewrite Hs by done; by apply Hm|right]. split.
  - eapply block_in_same; [|exact Hb]. intros n. apply Hs. unfold localPath. rewrite path_Join_assoc. apply local_outside.
  - intros n Hn Hn'. rewrite Hs by done. by apply Hm.
Qed.

Lemma move_published m m' : unmoved m → block_in encode h index xs (headPath h) m → dir_moved (headPath h) (localPath h) m m' → published m'.
Proof.
  intros Hu Hb (H1 & H2 & H3). split; [by eapply block_in_same|]. intros n Hn Hn'. rewrite H3 by done. by apply Hu.
Qed.

Definition flush_left (r : outcome unit) (m : contents) : Prop :=
  match r with
  | Ret _ => (∀ n, inside (headPath h) n → m !! n = None) ∧ if (fh_profiles h =? 0)%nat then unmoved m else published m
  | Fail _ => at_all_times m
  | Panic => False
  end.

Lemma rename_spec m : unmoved m → block_in encode h index xs (headPath h) m → fh_profiles h ≠ 0 →
  triple tr at_all_times m (ibind (os_MkdirAll os (localRoot h)) (λ _, os_Rename os (headPath h) (localPath h))) flush_left.
Proof.
  intros Hu Hb Hp. assert (∀ n, inside (localPath h) n → m !! n = None) as Hnew.
  { intros n Hn. rewrite Hu; [by apply Hfresh|]. intros Hin. by apply (head_outside_local _ _ Hin). }
  eapply triple_bind; [eapply triple_does; [apply (osl_MkdirAll _ _ Hos)|done]| | |].
  - intros [] m1 _ (_ & _ & [->|[]]). eapply triple_weaken; [eapply triple_does; [apply (osl_Rename _ _ Hos); apply head_outside_local|]|].
    + intros m' _ Hm. right. apply (move_published m); auto.
    + intros r m' _ (Hnp & HQ & Hm). destruct r as [[]|e|]; [|cbn|by apply Hnp].
      * cbn. specialize (HQ eq_refl Hnew). split; [apply HQ|]. apply Nat.eqb_neq in Hp as ->. by eapply move_published.
      * destruct Hm as [->|Hm]; [by left|right]. apply (move_published m); auto.
  - intros e m1 _ (_ & _ & [->|[]]). by left.
  - by intros m1 _ [? _].
Qed.

Lemma headPath_file n : inside (headPath h) (path_Join (headPath h) n).
Proof. apply inside_Join. Qed.

Lemma unmoved_elsewhere ts m m' : unmoved m → elsewhere h ts m m' → unmoved m'.
Proof. intros Hu He n Hn. rewrite He; [by apply Hu|]. intros t _ ->. by apply Hn, inside_Join. Qed.

Lemma table_names t : t ∈ fh_tables h → no_slash (table_file t) = true ∧ table_file t ≠ MetaFilename ∧ table_file t ≠ MetaFilename +:+ ".tmp".
Proof. intros Ht. pose proof (hl_names _ _ _ _ Hh) as [_ Hn]%Forall_cons. rewrite Forall_forall in Hn. apply Hn. by apply list_elem_of_fmap_2. Qed.

(** From the files to the block: the metadata is written and the directory is moved. *)
Lemma finish_spec m fs : fh_profiles h ≠ 0 → unmoved m → listed h index xs fs → m !! path_Join (headPath h) IndexFilename = Some index →
  Forall2 (λ t x, m !! path_Join (headPath h) (table_file t) = Some (wt_file x)) (fh_tables h) xs →
  triple tr at_all_times m (ibind (WriteToFile os encode multierror (with_files (fh_meta h) fs (flush_stats h)) (headPath h)) (λ _,
    ibind (os_MkdirAll os (localRoot h)) (λ _, os_Rename os (headPath h) (localPath h)))) flush_left.
Proof.
  intros Hp Hu Hl Hi Ht. pose proof (λ m', WriteToFile_spec os tr Hos encode Hencode multierror h at_all_times at_all_times_stable (with_files (fh_meta h) fs (flush_stats h)) m') as Hw.
  assert (∀ m', (∀ n, n ≠ path_Join (headPath h) MetaFilename → ¬ inside (tmpPath h) n → m' !! n = m !! n) → unmoved m') as Hu'.
  { intros m' Hs n Hn. rewrite Hs; [by apply Hu| |]; [intros ->; by apply Hn, inside_Join|]. intros [s ->]%inside_below. by apply Hn, inside_Join. }
  eapply triple_bind; [apply Hw| | |].
  - intros [] m1 _ (_ & Hs & Hc). destruct (Hc eq_refl) as (c & Henc & Hread). apply rename_spec; [by apply Hu'| |done]. split.
    + by exists c, fs.
    + rewrite Hs; [done|by intros ?%path_Join_cancel|]. by apply not_inside_name.
    + apply Forall2_same_length_lookup. split; [by eapply Forall2_length|]. intros i t x Htt Hx. destruct (table_names t) as (N1 & N2 & N3); [by eapply list_elem_of_lookup_2|].
      rewrite Hs; [by eapply (Forall2_lookup_lr _ _ _ _ _ _ Ht)|by intros ?%path_Join_cancel|]. by apply not_inside_name.
  - intros e m1 _ (_ & Hs & _). left. by apply Hu'.
  - by intros m1 _ [? _].
Qed.

Lemma file_less_sorted fs : StronglySorted (λ a b, file_less b a = false) (sort_slice file_less fs).
Proof.
  apply sort_slice_sorted; unfold file_less.
  - intros x y z. rewrite <- !str_le_ltb. intros H1 H2. by transitivity (fi_RelPath y).
  - intros x y Hxy. apply not_true_iff_false. intros Hyx. pose proof (str_ltb_trans _ _ _ Hxy Hyx) as H. by rewrite str_ltb_irrefl in H.
Qed.

(** The entries of the tables, paired with what they write. *)
Lemma entries_listed fs size : length fs = length (fh_tables h) → (size = 0%N ∨ size = N.of_nat (length index)) →
  (∀ i t x, fh_tables h !! i = Some t → xs !! i = Some x → ∃ f, fs !! i = Some f ∧ file_of t x f) →
  listed h index xs (sort_slice file_less (mkFileInfo IndexFilename size None (Some (mkTSDBFile (bs_NumSeries (flush_stats h)))) :: fs)).
Proof.
  intros Hlen Hsize Hall. split; [apply file_less_sorted|]. exists size, fs. split; [apply sort_slice_perm|]. split; [done|].
  pose proof (Forall2_length _ _ _ (hl_tables _ _ _ _ Hh)) as Hl. apply Forall2_same_length_lookup. split; [rewrite length_zip; lia|].
  intros i [t x] f (Ht & Hx)%lookup_zip_Some Hf. destruct (Hall i t x Ht Hx) as (f' & Hf' & Hfile). by simplify_eq.
Qed.

Lemma write_tables_spec m size : fh_profiles h ≠ 0 → unmoved m → m !! path_Join (headPath h) IndexFilename = Some index → (size = 0%N ∨ size = N.of_nat (length index)) →
  triple tr at_all_times m (ibind (flush_tables (fh_tables h)) (λ pqs, ibind (close_tables os (headPath h) (fh_tables h) pqs) (λ fs,
    let files := sort_slice file_less (mkFileInfo IndexFilename size None (Some (mkTSDBFile (bs_NumSeries (flush_stats h)))) :: fs) in
    ibind (WriteToFile os encode multierror (with_files (fh_meta h) files (flush_stats h)) (headPath h)) (λ _,
    ibind (os_MkdirAll os (localRoot h)) (λ _, os_Rename os (headPath h) (localPath h)))))) flush_left.
Proof.
  intros Hp Hu Hi Hsize. pose proof (hl_distinct _ _ _ _ Hh) as [Hidx Hnd]%NoDup_cons. pose proof (hl_tables _ _ _ _ Hh) as Hts.
  assert (∀ m1 m2, elsewhere h (fh_tables h) m1 m2 → m2 !! path_Join (headPath h) IndexFilename = m1 !! path_Join (headPath h) IndexFilename) as Hkeep.
  { intros m1 m2 He. apply He. intros t Ht Heq%path_Join_cancel. apply Hidx. rewrite Heq. by apply list_elem_of_fmap_2. }
  eapply triple_bind; [apply (flush_tables_spec tr h at_all_times at_all_times_stable _ xs Hts Hnd)| | |].
  - intros l m1 HI1 (_ & He1 & Hl). destruct (Hl l eq_refl) as [-> Hrows].
    eapply triple_bind; [apply (close_tables_spec os tr Hos h at_all_times at_all_times_stable _ xs Hts Hnd _ Hrows)| | |].
    + intros fs m2 HI2 (_ & He2 & Hfs). destruct (Hfs fs eq_refl) as [Hlen Hall]. cbv zeta. apply finish_spec; [done|by eapply unmoved_elsewhere, He2; eapply unmoved_elsewhere, He1| | |].
      * apply entries_listed; [done|done|]. intros i t x Ht Hx. by apply (Hall i t x Ht Hx).
      * rewrite (Hkeep _ _ He2), (Hkeep _ _ He1). exact Hi.
      * apply Forall2_same_length_lookup. split; [by eapply Forall2_length|]. intros i t x Ht Hx. apply (Hall i t x Ht Hx).
    + intros e m2 _ (_ & He2 & _). left. by eapply unmoved_elsewhere, He2; eapply unmoved_elsewhere, He1.
    + by intros m2 _ [? _].
  - intros e m1 _ (_ & He1 & _). left. by eapply unmoved_elsewhere.
  - by intros m1 _ [? _].
Qed.

Lemma Flush_spec : triple tr at_all_times m00 (Flush os encode multierror h) flush_left.
Proof.
  assert (unmoved m00) as Hu by (by intros n). unfold Flush. destruct (fh_profiles h =? 0)%nat eqn:E.
  - eapply triple_weaken; [eapply triple_does; [apply (osl_RemoveAll _ _ Hos)|]|]; [intros m _ Hm; by left|].
    intros [[]|e|] m _ (Hnp & HQ & Hm); [|left; by destruct Hm as [->|]|done]. cbn. rewrite E. split; [by apply HQ|by destruct Hm as [->|]].
  - apply Nat.eqb_neq in E. assert (∀ m m', unmoved m → off_files (index_files (path_Join (headPath h) IndexFilename)) m m' → unmoved m') as Hoff.
    { intros m m' Hm Ho n Hn. rewrite Ho; [by apply Hm|]. by intros ?%index_files_inside. }
    eapply triple_then; [eapply triple_does; [apply (hl_index _ _ _ _ Hh)|intros m _ Ho; left; by eapply Hoff]| | |].
    + intros [] m1 HI1 (_ & Hi & Ho). specialize (Hi eq_refl). assert (unmoved m1) as Hu1 by (destruct Ho as [->|Ho]; [done|by eapply Hoff]).
      eapply triple_bind; [by apply (stat_size_spec os tr Hos)| | |].
      * intros size m2 _ (_ & -> & Hsize). apply write_tables_spec; [done|done|done|]. destruct (Hsize size eq_refl) as [->|(c & Hc & ->)]; [by left|right]. by pose proof (eq_trans (eq_sym Hc) Hi) as [= ->].
      * intros e m2 _ (_ & -> & _). by left.
      * by intros m2 _ [? _].
    + intros e m1 _ (_ & _ & Ho). apply triple_fail. intros _. left. destruct Ho as [->|Ho]; [done|by eapply Hoff].
    + by intros m1 _ [? _].
Qed.
End FlushSpec.

(** C8: Flushing a head is safe at every moment.  Whatever fails and wherever the process stops, every block in the
    directory of blocks has its metadata and all the files that it lists, with the sizes that are recorded, and nothing
    but the head and its block differs.  After a success the directory of the head is gone and its block, whose
    index and tables are complete and whose metadata lists them in order, is there, or nothing if the head was empty; a failure leaves
    no block or the whole one; nothing panics. *)
Theorem Flush_correct {W} (os : OS W) tr encode decode multierror (h : FlushHead W) index xs w r w' :
  os_laws os tr → (∀ hm, encode hm ≠ Panic) → (∀ hm c, encode hm = Ret c → decode c = Ret hm) → head_laws tr h index xs →
  (∀ n, inside (localPath h) n → hd ∅ (tr w) !! n = None) → blocks_complete decode (localRoot h) (hd ∅ (tr w)) →
  Flush os encode multierror h w = (r, w') →
  (∃ l, tr w' = l ++ tr w ∧ Forall (λ m, blocks_complete decode (localRoot h) m ∧ ∀ n, ¬ inside (headPath h) n → ¬ inside (localPath h) n → m !! n = hd ∅ (tr w) !! n) l) ∧
  flush_left encode h index xs (hd ∅ (tr w)) r (hd ∅ (tr w')).
Proof.
  intros Hos Henc Hjson Hh Hfresh Hblocks Hf. set (m0 := hd ∅ (tr w)) in *.
  destruct (Flush_spec os tr Hos encode Henc multierror h index xs Hh m0 Hfresh w eq_refl (or_introl (λ _ _, eq_refl)) r w' Hf) as [(l & Hl & HF) Hr].
  split; [|done]. exists l. split; [done|]. eapply Forall_impl; [exact HF|]. intros m [Hm|[Hb Hm]].
  - split; [|intros n Hn _; by apply Hm]. eapply blocks_complete_same, Hblocks. intros d. apply Hm, local_outside.
  - split; [|done]. intros id n Hid Hn. destruct (decide (id = fh_id h)) as [->|Hne]; [by eapply block_in_complete|].
    assert (∀ x, m !! path_Join (path_Join (localRoot h) id) x = m0 !! path_Join (path_Join (localRoot h) id) x) as Hs.
    { intros x. apply Hm; [|apply other_block; [apply Hh|done|done]]. rewrite path_Join_assoc. apply local_outside. }
    eapply complete_block_same; [exact Hs|]. apply (Hblocks id n Hid). by rewrite <- Hs.
Qed.

(** ** A disk *)

Definition disk : Type := list contents.
Definition insideb (d n : string) : bool := String.eqb n d || if strip (d +:+ "/") n is Some _ then true else false.

Lemma insideb_spec d n : insideb d n = true ↔ inside d n.
Proof.
  unfold insideb, inside, path_Join. rewrite orb_true_iff, String.eqb_eq. split; intros [->|H]; [by left| |by left|]; right.
  - destruct (strip _ n) as [r|] eqn:E; [|done]. apply strip_Some in E as ->. exists r. by rewrite app_assoc_str.
  - destruct H as [r ->]. by rewrite <- app_assoc_str, strip_app.
Qed.

Definition change (f : contents → contents) : io disk unit := λ w, (Ret (), f (hd ∅ w) :: w).
Definition move_dir (a b : string) (m : contents) : contents :=
  kmap (path_Join b) (view (a +:+ "/") m) ∪ without (λ n, insideb a n || insideb b n) m.

Definition list_disk : OS disk := mkOS (λ p, change (insert p [])) (λ p c, change (insert p c)) (λ _, iret ()) (λ _, iret ())
  (λ p, change (without (insideb p)))
  (λ a b w, if hd ∅ w !! a is Some c then (Ret (), <[b := c]> (delete a (hd ∅ w)) :: w) else (Fail "no such file", w))
  (λ p w, if hd ∅ w !! p is Some c then (Ret (N.of_nat (length c)), w) else (Fail "no such file", w))
  (λ _, iret ()) (λ a b, change (move_dir a b)).

Lemma does_change (f : contents → contents) (P : contents → contents → Prop) Q : (∀ m, P m (f m)) → (∀ m, Q m (Ret ()) (f m)) → does id (change f) P Q.
Proof. intros HP HQ w r w' [= <- <-]. cbn. split; [done|]. split; [exists [f (hd ∅ w)]; split; [done|by repeat constructor]|by apply HQ]. Qed.

Lemma does_nothing {A} (a : A) P (Q : contents → outcome A → contents → Prop) : (∀ m, Q m (Ret a) m) → does id (iret (B := disk) a) P Q.
Proof. intros HQ w r w' [= <- <-]. split; [done|]. split; [by exists []|apply HQ]. Qed.

Lemma off_insert p c m : off p m (<[p := c]> m).
Proof. intros n Hn. by rewrite lookup_insert_ne. Qed.

#[local] Instance path_Join_Inj d : Inj (=) (=) (path_Join d).
Proof. intros a b. apply path_Join_cancel. Qed.

Lemma move_dir_spec a b m : (∀ n, inside a n → ¬ inside b n) → dir_moved a b m (move_dir a b m).
Proof.
  intros Hab. unfold move_dir. assert (∀ r, view (a +:+ "/") m !! r = m !! path_Join a r) as Hv by (intros r; rewrite lookup_view; unfold path_Join; by rewrite app_assoc_str).
  assert (∀ n, ¬ inside b n → (kmap (path_Join b) (view (a +:+ "/") m) : contents) !! n = None) as Hout.
  { intros n Hn. apply lookup_kmap_None; [apply _|]. intros r ->. exfalso. apply Hn, inside_Join. }
  split_and!.
  - intros r. destruct (m !! path_Join a r) as [c|] eqn:E.
    + apply lookup_union_Some_l. rewrite lookup_kmap by apply _. by rewrite Hv.
    + apply lookup_union_None. split; [rewrite lookup_kmap by apply _; by rewrite Hv|]. rewrite lookup_without. by rewrite (proj2 (insideb_spec _ _) (inside_Join b r)), orb_true_r.
  - intros n Hn. apply lookup_union_None. split; [by apply Hout, Hab|]. rewrite lookup_without. by rewrite (proj2 (insideb_spec _ _) Hn).
  - intros n Ha Hb. rewrite lookup_union_r by by apply Hout. rewrite lookup_without. rewrite <- insideb_spec in Ha, Hb. apply not_true_is_false in Ha as ->, Hb as ->. done.
Qed.

Lemma small_disk_laws : os_laws list_disk id.
Proof.
  split; intros; cbn [os_Create os_Write os_Sync os_CloseFile os_RemoveAll os_Replace os_Stat os_MkdirAll os_Rename list_disk].
  - apply does_change; intros m; [apply off_insert|intros _; by rewrite lookup_insert_eq].
  - apply does_change; intros m; [apply off_insert|intros _ _; by rewrite lookup_insert_eq].
  - by apply does_nothing.
  - by apply does_nothing.
  - apply does_change; intros m; [|intros _]; intros n Hn; rewrite lookup_without; [|by rewrite (proj2 (insideb_spec _ _) Hn)].
    rewrite <- insideb_spec in Hn. by apply not_true_is_false in Hn as ->.
  - intros w r w'. destruct (hd ∅ w !! a) as [c|] eqn:E; intros [= <- <-]; cbn; (split; [done|]); [|split; [by exists []|done]].
    split; [eexists [_]; split; [done|]; constructor; [by exists c|constructor]|intros _; by exists c].
  - intros w r w'. destruct (hd ∅ w !! p) as [c|] eqn:E; intros [= <- <-]; cbn; (split; [done|]); (split; [by exists []|]); [|done]. intros n [= <-]. by exists c.
  - by apply does_nothing.
  - apply does_change; intros m; [|intros _]; intros _; by apply move_dir_spec.
Qed.

#[global] Instance BlockStats_eq : EqDecision BlockStats.
Proof. solve_decision. Defined.
#[global] Instance HeadMeta_eq : EqDecision HeadMeta.
Proof. solve_decision. Defined.

(** A writer of an index: it fills its temporary files, makes the index of them and removes them. *)
Definition small_index (p : string) : io disk unit :=
  ibind (change (λ m, <[p +:+ "_tmp_po" := [5]%N]> (<[p +:+ "_tmp_p" := [5]%N]> m))) (λ _,
  ibind (change (insert p [5; 5]%N)) (λ _, change (λ m, delete (p +:+ "_tmp_po") (delete (p +:+ "_tmp_p") m)))).

(** A head with two tables; the index is a file of two bytes. *)
Definition small_table (name : string) (x : written) : Table disk :=
  let path := path_Join "data/head/B1" (name +:+ ParquetSuffix) in
  mkTable name (λ _, N.of_nat (length (wt_file x))) (λ w, (Ret (wt_stats x), <[path := wt_rows x]> (hd ∅ w) :: w)) (change (insert path (wt_file x))).

Definition small_written : list written := [mkWritten [1]%N [1; 9]%N (1, 1)%N; mkWritten [2; 2]%N [2; 2; 9]%N (2, 1)%N].
Definition small_tables : list (Table disk) := zip_with small_table ["strings"; "profiles"] small_written.
Definition small_head (profiles : nat) : FlushHead disk :=
  mkFlushHead "data" "B1" profiles small_index small_tables 3 2 7 (mkHeadMeta (mkMeta 1 10 20 0 [] 0) (mkBlockStats 0 0 0)).
Definition small_files : list File := [mkFileInfo "index.tsdb" 2 None (Some (mkTSDBFile 3));
  mkFileInfo "profiles.parquet" 3 (Some (mkParquetFile 1 2)) None; mkFileInfo "strings.parquet" 2 (Some (mkParquetFile 1 1)) None].
Definition small_headmeta : HeadMeta := mkHeadMeta (mkMeta 1 10 20 2 small_files 1) (mkBlockStats 7 3 2).
Definition headmeta_encode (hm : HeadMeta) : outcome content := if decide (hm = small_headmeta) then Ret [7]%N else Fail "other".
Definition headmeta_decode (c : content) : outcome HeadMeta := if decide (c = [7]%N) then Ret small_headmeta else Fail "other".

Lemma small_index_law p : does id (small_index p) (off_files (index_files p)) (λ _ r m, r = Ret () → m !! p = Some [5; 5]%N).
Proof.
  intros w r w' [= <- <-]. unfold id. cbn [hd]. assert (∀ s, s ≠ "" → p ≠ p +:+ s) as Hne.
  { intros s Hs Heq. rewrite <- (app_nil_str p) in Heq at 1. apply app_inj_str in Heq. by apply Hs. }
  split; [done|]. split.
  - eexists [_; _; _]. split; [done|]. repeat constructor; intros n Hn; unfold index_files in Hn; rewrite !not_elem_of_cons in Hn; destruct Hn as (? & ? & ? & _);
      by rewrite ?lookup_delete_ne, ?lookup_insert_ne by done.
  - intros _. rewrite !lookup_delete_ne by (apply not_eq_sym, Hne; done). by rewrite lookup_insert_eq.
Qed.

Lemma small_head_laws n : head_laws id (small_head n) [5; 5]%N small_written.
Proof.
  split; [| |done| |apply (bool_decide_unpack _); vm_compute; exact I].
  - apply small_index_law.
  - assert (∀ name x, table_laws id (headPath (small_head n)) (small_table name x) x) as H; [|apply Forall2_cons; split; [apply H|]; apply Forall2_cons; split; [apply H|]; by apply Forall2_nil].
    intros name x. split.
    + intros w r w' [= <- <-]. cbn. split; [done|]. split; [eexists [_]; split; [done|]; constructor; [apply off_insert|constructor]|]. intros s [= <-]. split; [by rewrite lookup_insert_eq|done].
    + apply does_change; intros m; [apply off_insert|intros _ _; by rewrite lookup_insert_eq].
  - repeat constructor; by apply (bool_decide_unpack _).
Qed.

Definition small_flush (profiles : nat) : outcome unit * disk := Flush list_disk headmeta_encode (λ _, "") (small_head profiles) [∅].

(** What is on disk before and after the last step: the block appears at once. *)
Lemma small_flush_steps : take 2 ((λ m : contents, (map_to_list m).*1) <$> (small_flush 1).2) =
  [["data/local/B1/strings.parquet"; "data/local/B1/meta.json"; "data/local/B1/index.tsdb"; "data/local/B1/profiles.parquet"];
   ["data/head/B1/strings.parquet"; "data/head/B1/meta.json"; "data/head/B1/index.tsdb"; "data/head/B1/profiles.parquet"]].
Proof. vm_compute. reflexivity. Qed.

Lemma Flush_correct_witness : (small_flush 1).1 = Ret () ∧ Forall (blocks_complete headmeta_decode "data/local") (small_flush 1).2 ∧
  published headmeta_encode (small_head 1) [5; 5]%N small_written ∅ (hd ∅ (small_flush 1).2).
Proof.
  assert ((small_flush 1).1 = Ret ()) as Hr by (vm_compute; reflexivity).
  assert (blocks_complete headmeta_decode "data/local" ∅) as Hempty by (intros ? n _ H; rewrite lookup_empty in H; by destruct H).
  destruct (Flush_correct list_disk id headmeta_encode headmeta_decode (λ _, "") (small_head 1) [5; 5]%N small_written [∅] (small_flush 1).1 (small_flush 1).2) as [(l & Hl & HF) Hf];
    [apply small_disk_laws|intros hm; unfold headmeta_encode; by destruct (decide _)| |apply small_head_laws|intros n _; apply lookup_empty|exact Hempty|apply surjective_pairing|].
  - intros hm c. unfold headmeta_encode, headmeta_decode. destruct (decide (hm = small_headmeta)) as [->|]; [|done]. by intros [= <-].
  - rewrite Hr in Hf. split_and!; [done| |exact (proj2 Hf)]. unfold id in Hl. rewrite Hl. apply Forall_app. split; [|by repeat constructor].
    eapply Forall_impl; [exact HF|]. by intros m [? _].
Defined.
