(* ===== verification/Heads.v ===== *)
(** * Pushes while a head is replaced (src/pkg/phlaredb/phlaredb.go, head.go)

    [PhlareDB.Flush] puts a new head in place of the old one under [headLock] and then writes the old one.  A push takes the head
    under the read lock, but adds to it afterwards.  The rows of profiles are numbers here: [Head] models what a push stores of one and [HeadFlush] how a
    head is written.  [hgo] is one operation of one goroutine. *)

From S2P Require Import Prelude Distributor.

(** A push of a profile, which has a row for each of its sample types: it is to take the head, is to go on with the rows [todo] after it has stored
    [stored] in head [h], has added row [p] to the table of profiles but not to the index, or has been acknowledged, has failed, or had no head.
    A flush: it is to replace the head, has taken the old one, has found it not to be empty, has written its index, and its tables, and has ended; or no
    new head could be made, or there was no old one. *)
Inductive hpc :=
  | PStart (ps : list nat) | PIngest (h : nat) (stored todo : list nat) | PStored (h : nat) (stored : list nat) (p : nat) (todo : list nat)
  | PAcked (h : nat) (stored : list nat) | PFailed | PPanicked
  | FStart | FSwapped (h : nat) | FWriting (h : nat) | FIndexed (h : nat) (ix : list nat) | FWritten (h : nat) (ix rows : list nat)
  | FDone (h : nat) (ok : bool) | FDropped (h : nat) | FNothing.

(** The rows and the index of every head there was, of which [hs_current] is the one in place, and the index and the rows of the blocks
    they became. *)
Record heads := mkHeads {
  hs_current : option nat; hs_rows : list (list nat); hs_index : list (list nat); hs_blocks : gmap nat (list nat * list nat); hs_threads : list hpc }.

Definition rows_of (s : heads) (h : nat) : list nat := default [] (hs_rows s !! h).
Definition index_of (s : heads) (h : nat) : list nat := default [] (hs_index s !! h).

Definition hat (i : nat) (q : hpc) (s : heads) : heads := mkHeads (hs_current s) (hs_rows s) (hs_index s) (hs_blocks s) (<[i := q]> (hs_threads s)).
Definition add_row (p h : nat) (s : heads) : heads := mkHeads (hs_current s) (alter (λ l, l ++ [p]) h (hs_rows s)) (hs_index s) (hs_blocks s) (hs_threads s).
Definition add_index (p h : nat) (s : heads) : heads := mkHeads (hs_current s) (hs_rows s) (alter (λ l, l ++ [p]) h (hs_index s)) (hs_blocks s) (hs_threads s).
Definition add_block (h : nat) (b : list nat * list nat) (s : heads) : heads := mkHeads (hs_current s) (hs_rows s) (hs_index s) (<[h := b]> (hs_blocks s)) (hs_threads s).

(** [initHead]: the head in place is a new one, or none when [NewHead] fails. *)
Definition replace_head (ok : bool) (s : heads) : heads :=
  if ok then mkHeads (Some (length (hs_rows s))) (hs_rows s ++ [[]]) (hs_index s ++ [[]]) (hs_blocks s) (hs_threads s)
  else mkHeads None (hs_rows s) (hs_index s) (hs_blocks s) (hs_threads s).

(** How an operation ends; [Skips] is [computeDelta] leaving nothing of a row. *)
Inductive hchoice := Goes | Skips | Errs.
Definition errs (c : hchoice) : bool := if c is Errs then true else false.

(** The next operation of goroutine [i]. *)
Definition hgo (i : nat) (c : hchoice) (s : heads) : option heads :=
  q ← hs_threads s !! i;
  match q with
  | PStart ps =>
      Some (hat i (if hs_current s is Some h then (if errs c then PFailed else PIngest h [] ps) else PPanicked) s)
  | PIngest h stored [] => Some (hat i (PAcked h stored) s)
  | PIngest h stored (p :: todo) =>
      Some (match c with
            | Skips => hat i (PIngest h stored todo) s
            | Errs => hat i PFailed s
            | Goes => hat i (PStored h stored p todo) (add_row p h s)
            end)
  | PStored h stored p todo => Some (hat i (PIngest h (stored ++ [p]) todo) (add_index p h s))
  | FStart =>
      Some (hat i (if hs_current s is Some h then (if errs c then FDropped h else FSwapped h) else FNothing) (replace_head (negb (errs c)) s))
  | FSwapped h => Some (hat i (if rows_of s h is [] then FDone h (negb (errs c)) else FWriting h) s)
  | FWriting h => Some (hat i (if errs c then FDone h false else FIndexed h (index_of s h)) s)
  | FIndexed h ix => Some (hat i (if errs c then FDone h false else FWritten h ix (rows_of s h)) s)
  | FWritten h ix rows => Some (if errs c then hat i (FDone h false) s else hat i (FDone h true) (add_block h (ix, rows) s))
  | _ => None
  end.

Definition hstep (s s' : heads) : Prop := ∃ i c, hgo i c s = Some s'.
Definition hstart (threads : list hpc) : heads := mkHeads (Some 0) [[]] [[]] ∅ threads.
Definition hfresh (q : hpc) : Prop := match q with PStart _ | FStart => True | _ => False end.

(** The row is in the table and in the index of the head. *)
Definition held (s : heads) (p h : nat) : Prop := p ∈ rows_of s h ∧ p ∈ index_of s h.

(** The head has been in place and is no more. *)
Definition gone (s : heads) (h : nat) : Prop := h < length (hs_rows s) ∧ hs_current s ≠ Some h.

(** What holds of a goroutine by itself. *)
Definition hpc_ok (s : heads) (q : hpc) : Prop :=
  match q with
  | PIngest h stored _ | PAcked h stored => h < length (hs_rows s) ∧ Forall (λ p, held s p h) stored
  | PStored h stored p _ => h < length (hs_rows s) ∧ Forall (λ p, held s p h) stored ∧ p ∈ rows_of s h
  | FSwapped h | FWriting h | FDone h _ | FDropped h => gone s h
  | FIndexed h ix => gone s h ∧ ix `prefix_of` index_of s h
  | FWritten h ix rows => gone s h ∧ ix `prefix_of` index_of s h ∧ rows `prefix_of` rows_of s h
  | PStart _ | PFailed | PPanicked | FStart | FNothing => True
  end.

Record hinv (s : heads) : Prop := {
  hv_index : length (hs_index s) = length (hs_rows s);
  hv_current h : hs_current s = Some h → h < length (hs_rows s);
  hv_pc : Forall (hpc_ok s) (hs_threads s);
  hv_blocks h ix rows : hs_blocks s !! h = Some (ix, rows) → gone s h ∧ ix `prefix_of` index_of s h ∧ rows `prefix_of` rows_of s h }.

(** The heads only grow, and one that is gone does not come back. *)
Record grows (s s' : heads) : Prop := {
  gr_length : length (hs_rows s) ≤ length (hs_rows s');
  gr_rows h : rows_of s h `prefix_of` rows_of s' h;
  gr_index h : index_of s h `prefix_of` index_of s' h;
  gr_gone h : gone s h → gone s' h }.

Lemma prefix_elem (l l' : list nat) p : l `prefix_of` l' → p ∈ l → p ∈ l'.
Proof. intros [k ->] ?. apply elem_of_app. by left. Qed.

Lemma grows_held s s' p h : grows s s' → held s p h → held s' p h.
Proof. intros [_ G2 G3 _] [H1 H2]. split; eapply prefix_elem; eauto. Qed.

Lemma grows_pc s s' q : grows s s' → hpc_ok s q → hpc_ok s' q.
Proof.
  intros Hg. pose proof Hg as [G1 G2 G3 G4]. assert (∀ h l, Forall (λ p, held s p h) l → Forall (λ p, held s' p h) l) as Hl.
  { intros h l Hl. eapply Forall_impl; [exact Hl|]. intros p. by apply grows_held. }
  destruct q; cbn; try done; try apply G4; intros H; destruct_and?; split_and?; try lia; eauto using prefix_elem; by etrans.
Qed.

(** An operation of a goroutine, which is at [q] afterwards. *)
Lemma hinv_at s s' i q : hinv s → grows s s' → hs_threads s' = hs_threads s → length (hs_index s') = length (hs_rows s') →
  (∀ h, hs_current s' = Some h → h < length (hs_rows s')) → hpc_ok s' q →
  (∀ h ix rows, hs_blocks s' !! h = Some (ix, rows) → hs_blocks s !! h = Some (ix, rows) ∨ gone s' h ∧ ix `prefix_of` index_of s' h ∧ rows `prefix_of` rows_of s' h) →
  hinv (hat i q s').
Proof.
  intros [_ _ H3 H4] Hg Ht Hlen Hcur Hq Hb. split; cbn [hat hs_current hs_rows hs_index hs_blocks hs_threads]; [done|done| |].
  - change (Forall (hpc_ok s') (<[i := q]> (hs_threads s'))). rewrite Ht. apply Forall_insert; [|done]. eapply Forall_impl; [exact H3|]. intros x. exact (grows_pc s s' x Hg).
  - intros h ix rows [Hold|Hnew]%Hb; [|done]. destruct (H4 _ _ _ Hold) as (B1 & B2 & B3). destruct Hg as [_ G2 G3 G4].
    split_and!; [by apply G4|by etrans; [|apply G3]|by etrans; [|apply G2]].
Qed.

Lemma rows_add_row p h s h' : h < length (hs_rows s) → rows_of (add_row p h s) h' = if decide (h' = h) then rows_of s h ++ [p] else rows_of s h'.
Proof.
  intros Hh. unfold rows_of, add_row. cbn [hs_rows]. destruct (decide (h' = h)) as [->|Hne]; [|by rewrite list_lookup_alter_ne].
  rewrite list_lookup_alter_eq. by destruct (lookup_lt_is_Some_2 _ _ Hh) as [l ->].
Qed.

Lemma index_add_index p h s h' : h < length (hs_index s) → index_of (add_index p h s) h' = if decide (h' = h) then index_of s h ++ [p] else index_of s h'.
Proof.
  intros Hh. unfold index_of, add_index. cbn [hs_index]. destruct (decide (h' = h)) as [->|Hne]; [|by rewrite list_lookup_alter_ne].
  rewrite list_lookup_alter_eq. by destruct (lookup_lt_is_Some_2 _ _ Hh) as [l ->].
Qed.

Lemma app_nil_lookup (l : list (list nat)) h : default [] ((l ++ [[]]) !! h) = default [] (l !! h).
Proof.
  destruct (decide (h < length l)); [by rewrite lookup_app_l|]. rewrite lookup_app_r by lia. rewrite (lookup_ge_None_2 l) by lia. by destruct (h - length l) as [|[]].
Qed.

Lemma grows_refl s : grows s s.
Proof. by split. Qed.

Lemma grows_hat s s' i q : grows s s' → grows s (hat i q s').
Proof. intros [G1 G2 G3 G4]. by split. Qed.

Lemma grows_row s p h : h < length (hs_rows s) → grows s (add_row p h s).
Proof.
  intros Hh. split; [by cbn; rewrite length_alter| |done|].
  - intros h'. rewrite rows_add_row by done. case_decide; [subst; by apply prefix_app_r|done].
  - intros h'. unfold gone. cbn. by rewrite length_alter.
Qed.

Lemma grows_index s p h : h < length (hs_index s) → grows s (add_index p h s).
Proof.
  intros Hh. split; [done|done| |done]. intros h'. rewrite index_add_index by done. case_decide; [subst; by apply prefix_app_r|done].
Qed.

Lemma grows_replace_head s ok : grows s (replace_head ok s).
Proof.
  destruct ok; cbn; (split; [|intros h; unfold rows_of|intros h; unfold index_of|intros h; unfold gone]); cbn; rewrite ?app_nil_lookup, ?length_app; try done; cbn; [lia| |by intros [? _]].
  intros [Hh _]. split; [lia|]. intros [= <-]. lia.
Qed.

(** What an operation does to the heads, and to the goroutine. *)
Lemma hstep_inv s s' : hstep s s' → hinv s → hinv s' ∧ grows s s'.
Proof.
  intros (i & c & Hgo) Hinv. unfold hgo in Hgo. destruct (hs_threads s !! i) as [q|] eqn:Hq; [|done]. cbn in Hgo. pose proof Hinv as [H1 H2 H3 H4].
  pose proof (proj1 (Forall_lookup _ _) H3 i q Hq) as Hok.
  assert (∀ q', hpc_ok s q' → hinv (hat i q' s) ∧ grows s (hat i q' s)) as Hmove.
  { intros q' Hq'. split; [|apply grows_hat, grows_refl]. apply (hinv_at s); [done|apply grows_refl|done|done|done|done|by left]. }
  destruct q as [ps|h stored [|p todo]|h stored p todo|h stored| | | |h|h|h ix|h ix rows|h ok|h|]; try done; cbn in Hok.
  - destruct (hs_current s) as [h|] eqn:Ecur; [|injection Hgo as <-; by apply Hmove]. destruct (errs c); injection Hgo as <-; apply Hmove; [done|]. split; [by apply H2|by constructor].
  - injection Hgo as <-. by apply Hmove.
  - destruct Hok as [Hh Hst]. destruct c; injection Hgo as <-; [|by apply Hmove|by apply Hmove]. pose proof (grows_row s p h Hh) as Hg. split; [|by apply grows_hat].
    apply (hinv_at s); [done|done|done|by cbn; rewrite length_alter|intros h'; cbn; rewrite length_alter; apply H2| |by left]. cbn [hpc_ok]. split_and!; [cbn; by rewrite length_alter| |].
    + eapply Forall_impl; [exact Hst|]. intros x. by apply grows_held.
    + rewrite rows_add_row, decide_True by done. set_solver.
  - destruct Hok as (Hh & Hst & Hp). injection Hgo as <-. pose proof (grows_index s p h ltac:(lia)) as Hg. split; [|by apply grows_hat].
    apply (hinv_at s); [done|done|done|by cbn; rewrite length_alter|done| |by left]. cbn [hpc_ok]. split; [done|]. apply Forall_app. split.
    + eapply Forall_impl; [exact Hst|]. intros x. by apply grows_held.
    + apply Forall_singleton. split; [done|]. rewrite index_add_index, decide_True by (done || lia). set_solver.
  - injection Hgo as <-. pose proof (grows_replace_head s (negb (errs c))) as Hg. split; [|by apply grows_hat]. apply (hinv_at s); [done|done|by destruct c| | | |by destruct c; left].
    + destruct c; cbn; rewrite ?length_app; cbn; lia.
    + intros h. destruct c; cbn; try done; intros [= <-]; rewrite length_app; cbn; lia.
    + destruct (hs_current s) as [h|] eqn:Ecur; [|done]. pose proof (H2 h eq_refl) as Hh. destruct c; cbn; unfold gone; cbn; rewrite ?length_app; (split; [lia|]); try done; intros [= ?]; lia.
  - injection Hgo as <-. apply Hmove. by destruct (rows_of s h).
  - injection Hgo as <-. apply Hmove. by destruct (errs c).
  - destruct Hok as [Hh Hix]. injection Hgo as <-. apply Hmove. by destruct (errs c).
  - destruct Hok as (Hh & Hix & Hrw). destruct (errs c); injection Hgo as <-; [by apply Hmove|]. split; [|by apply grows_hat].
    apply (hinv_at s); try done. intros h' ix' rows' Hb. cbn in Hb. apply lookup_insert_Some in Hb as [[<- [= <- <-]]|[_ Hb]]; [by right|by left].
Qed.

Lemma hstart_inv threads : Forall hfresh threads → hinv (hstart threads).
Proof.
  intros Ht. split; cbn; [done|intros h [= <-]; lia| |done]. eapply Forall_impl; [exact Ht|]. by intros [].
Qed.

Lemma hsteps_inv s s' : rtc hstep s s' → hinv s → hinv s' ∧ grows s s'.
Proof.
  induction 1 as [|s s1 s2 Hst _ IH]; [by split|]. intros Hinv. destruct (hstep_inv _ _ Hst Hinv) as [H1 G1]. destruct (IH H1) as [H2 G2]. split; [done|].
  destruct G1 as [L1 R1 I1 N1], G2 as [L2 R2 I2 N2]. split; [lia|intros h; by trans (rows_of s1 h)|intros h; by trans (index_of s1 h)|auto].
Qed.

(** ** What becomes of a row *)

(** The flush that has the row: it is to write it with its entry, has done so, or has failed. *)
Definition carries (s : heads) (p h : nat) (q : hpc) : Prop :=
  match q with
  | FSwapped h' | FWriting h' | FDone h' false | FDropped h' => h' = h
  | FIndexed h' ix => h' = h ∧ p ∈ ix
  | FWritten h' ix rows => h' = h ∧ p ∈ ix ∧ p ∈ rows
  | FDone h' true => h' = h ∧ ∃ ix rows, hs_blocks s !! h = Some (ix, rows) ∧ p ∈ ix ∧ p ∈ rows
  | _ => False
  end.

(** The row is in the head in place, in one that is being written, in its block with its entry in the index, or in one whose flush failed. *)
Definition kept_safe (s : heads) (p h : nat) : Prop := hs_current s = Some h ∨ ∃ q, q ∈ hs_threads s ∧ carries s p h q.

(** What a flush has read of the head has the row. *)
Definition has_row (p h : nat) (q : hpc) : Prop :=
  match q with
  | FIndexed h' ix => h' = h → p ∈ ix
  | FWritten h' ix rows => h' = h → p ∈ ix ∧ p ∈ rows
  | _ => True
  end.

Record kept (s : heads) (p h : nat) : Prop := {
  kp_held : held s p h;
  kp_safe : kept_safe s p h;
  kp_pc : Forall (has_row p h) (hs_threads s);
  kp_blocks ix rows : hs_blocks s !! h = Some (ix, rows) → p ∈ ix ∧ p ∈ rows }.

Lemma kept_at s s' i q q' p h : kept s p h → hs_threads s !! i = Some q → grows s (hat i q' s') → hs_threads s' = hs_threads s → has_row p h q' →
  (∀ ix rows, hs_blocks s' !! h = Some (ix, rows) → p ∈ ix ∧ p ∈ rows) → (is_Some (hs_blocks s !! h) → is_Some (hs_blocks s' !! h)) →
  (hs_current s = Some h → hs_current s' = Some h ∨ carries s' p h q') → (carries s p h q → carries s' p h q') → kept (hat i q' s') p h.
Proof.
  intros [K1 K2 K3 K4] Hq Hg Ht Hrow Hb Hmono Hcur Hcar. assert (i < length (hs_threads s)) as Hi by by eapply lookup_lt_Some. split; cbn [hat hs_threads hs_blocks].
  - by apply (grows_held s).
  - destruct K2 as [Hc|(x & [j Hx]%list_elem_of_lookup & Hxc)].
    + destruct (Hcur Hc) as [|Hc']; [by left|right]. exists q'. split; [|exact Hc']. cbn. rewrite Ht. apply list_elem_of_lookup. exists i. by apply list_lookup_insert_eq.
    + right. destruct (decide (j = i)) as [->|Hne].
      * exists q'. split; [cbn; rewrite Ht; apply list_elem_of_lookup; exists i; by apply list_lookup_insert_eq|]. apply Hcar. congruence.
      * exists x. split; [cbn; rewrite Ht; apply list_elem_of_lookup; exists j; by rewrite list_lookup_insert_ne|].
        destruct x as [| | | | | | | | | | |h' []| |]; try done. destruct Hxc as (-> & ix & rows & Hbx & _). split; [done|].
        destruct (Hmono ltac:(by eexists)) as [[ix' rows'] Hb']. exists ix', rows'. split; [done|by apply Hb].
  - rewrite Ht. by apply Forall_insert.
  - exact Hb.
Qed.

Lemma kept_step s s' p h : hstep s s' → hinv s → kept s p h → kept s' p h.
Proof.
  intros Hst Hinv Hk. destruct (hstep_inv _ _ Hst Hinv) as [_ Hg]. destruct Hst as (i & c & Hgo). unfold hgo in Hgo. destruct (hs_threads s !! i) as [q|] eqn:Hq; [|done].
  cbn in Hgo. pose proof Hk as [K1 K2 K3 K4]. pose proof (proj1 (Forall_lookup _ _) K3 i q Hq) as Hrow.
  assert (∀ q', has_row p h q' → (carries s p h q → carries s p h q') → kept (hat i q' s) p h) as Hmove.
  { intros q' Hr Hc. apply (kept_at s s i q); [done|done|apply grows_hat, grows_refl|done|done|exact K4|done|by left|done]. }
  destruct q as [ps|h' stored [|x todo]|h' stored x todo|h' stored| | | |h'|h'|h' ix|h' ix rows|h' ok|h'|]; try done; cbn in Hrow.
  - injection Hgo as <-. apply Hmove; destruct (hs_current s), (errs c); done.
  - injection Hgo as <-. by apply Hmove.
  - destruct c; injection Hgo as <-; [|by apply Hmove|by apply Hmove]. by apply (kept_at s (add_row x h' s) i (PIngest h' stored (x :: todo))); try done; left.
  - injection Hgo as <-. by apply (kept_at s (add_index x h' s) i (PStored h' stored x todo)); try done; left.
  - injection Hgo as <-. eapply (kept_at s (replace_head (negb (errs c)) s) i FStart); try done; [by destruct c|by destruct (hs_current s), c|by destruct c|by destruct c|].
    intros ->. right. by destruct c.
  - injection Hgo as <-. apply Hmove; [by destruct (rows_of s h')|]. cbn. intros ->. destruct K1 as [Hr _]. destruct (rows_of s h); [by apply elem_of_nil in Hr|done].
  - injection Hgo as <-. apply Hmove; destruct (errs c); cbn; try done; intros ->; [|split; [done|]]; apply K1.
  - destruct K1 as [Hr _]. injection Hgo as <-. destruct (errs c); apply Hmove; cbn; [done|by intros [-> _]| |].
    + intros Heq. split; [by apply Hrow|by rewrite Heq].
    + intros [-> Hx]. by split_and!.
  - destruct (errs c); injection Hgo as <-; [apply Hmove; [done|by intros (-> & _)]|].
    assert (∀ ix' rows', <[h' := (ix, rows)]> (hs_blocks s) !! h = Some (ix', rows') → p ∈ ix' ∧ p ∈ rows') as Hb.
    { intros ix' rows' [[-> [= <- <-]]|[_ Hb]]%lookup_insert_Some; [by apply Hrow|by apply K4 in Hb]. }
    apply (kept_at s (add_block h' (ix, rows) s) i (FWritten h' ix rows)); try done; [|by left|].
    + intros Hs. cbn. rewrite lookup_insert_is_Some'. by right.
    + cbn. intros (-> & ? & ?). split; [done|]. exists ix, rows. by rewrite lookup_insert_eq.
Qed.

(** A row that is in the head in place with its entry. *)
Lemma kept_current s p h : hinv s → hs_current s = Some h → held s p h → kept s p h.
Proof.
  intros [_ _ H3 H4] Hc Hh. split; [done|by left| |].
  - eapply Forall_impl; [exact H3|]. intros []; cbn; try done; unfold gone; [intros [[_ Hn] _] ->|intros [[_ Hn] _] ->]; done.
  - intros ix rows Hb. destruct (H4 _ _ _ Hb) as [[_ Hn] _]. done.
Qed.

Lemma kept_steps s s' p h : rtc hstep s s' → hinv s → kept s p h → kept s' p h.
Proof.
  induction 1 as [|s s1 s2 Hst _ IH]; [done|]. intros Hinv Hk. apply IH; [by apply (hstep_inv _ _ Hst)|by eapply kept_step].
Qed.

(** C9: Pushes and flushes, interleaved in any way, with a new head that may not be made.  A row that an acknowledged push has stored is in the table and
    the index of one head; a block has the rows and the entries that its head had at some moment, in their order; and if the head was still in
    place when a push was acknowledged, then ever after its rows are in the head in place, in one that is being written, or in its block with their entries in the
    index, unless the flush of that head failed.  A push that is acknowledged later has no such promise ([push_lost], [push_without_entry]). *)
Theorem acknowledged_kept threads s : Forall hfresh threads → rtc hstep (hstart threads) s →
  (∀ h stored, PAcked h stored ∈ hs_threads s → Forall (λ p, held s p h) stored) ∧
  (∀ h ix rows, hs_blocks s !! h = Some (ix, rows) → hs_current s ≠ Some h ∧ ix `prefix_of` index_of s h ∧ rows `prefix_of` rows_of s h) ∧
  (∀ s' h stored, PAcked h stored ∈ hs_threads s → hs_current s = Some h → rtc hstep s s' → Forall (λ p, held s' p h ∧ kept_safe s' p h) stored).
Proof.
  intros Ht Hs. destruct (hsteps_inv _ _ Hs (hstart_inv _ Ht)) as [Hinv _]. pose proof (proj1 (Forall_forall _ _) (hv_pc _ Hinv)) as Hpc. split_and!.
  - intros h stored Hp. exact (proj2 (Hpc _ Hp)).
  - intros h ix rows Hb. by destruct (hv_blocks _ Hinv _ _ _ Hb) as ([_ ?] & ? & ?).
  - intros s' h stored Hp Hc Hs'. destruct (Hpc _ Hp) as [_ Hst]. eapply Forall_impl; [exact Hst|]. intros p Hheld.
    destruct (kept_steps _ _ p h Hs' Hinv) as [? ? _ _]; [by apply kept_current|done].
Qed.

Definition hrace (l : list nat) (s : heads) : option heads := foldl (λ s i, s ≫= hgo i Goes) (Some s) l.

Lemma hrace_steps l s : ∀ s', hrace l s = Some s' → rtc hstep s s'.
Proof.
  revert s. unfold hrace. induction l as [|i l IH]; cbn; intros s s' H; [injection H as ->; done|]. destruct (hgo i Goes s) as [s1|] eqn:E.
  - eapply rtc_l; [by exists i, Goes|by apply IH].
  - exfalso. clear -H. induction l; [done|auto].
Qed.

(** A push with two rows is acknowledged before the head is replaced, and one after it. *)
Lemma acknowledged_kept_witness : ∃ s s', hrace [0; 0; 0; 0; 0; 0] (hstart [PStart [7; 9]; FStart; PStart [8]]) = Some s ∧
  hrace [1; 2; 2; 1; 2; 1; 1; 1] s = Some s' ∧ hs_blocks s' !! 0 = Some ([7; 9], [7; 9]) ∧ kept_safe s' 7 0 ∧ kept_safe s' 9 0.
Proof.
  destruct (hrace [0; 0; 0; 0; 0; 0] (hstart [PStart [7; 9]; FStart; PStart [8]])) as [s|] eqn:E; [|vm_compute in E; discriminate E]. exists s.
  destruct (hrace [1; 2; 2; 1; 2; 1; 1; 1] s) as [s'|] eqn:E'; [|vm_compute in E; injection E as <-; vm_compute in E'; discriminate E']. exists s'.
  assert (PAcked 0 [7; 9] ∈ hs_threads s ∧ hs_current s = Some 0 ∧ hs_blocks s' !! 0 = Some ([7; 9], [7; 9])) as (H7 & Hc & Hb).
  { vm_compute in E. injection E as <-. vm_compute in E'. injection E' as <-. split; [cbn; by left|by split]. }
  destruct (acknowledged_kept [PStart [7; 9]; FStart; PStart [8]] s) as (_ & _ & Hk); [by repeat constructor|by eapply hrace_steps|].
  pose proof (Hk s' 0 [7; 9] H7 Hc (hrace_steps _ _ _ E')) as [[_ K7] [[_ K9] _]%Forall_cons]%Forall_cons. by split_and!.
Defined.

(** The push has taken the head, which is replaced and written before it goes on: its profile is in no block. *)
Example push_lost : ∃ s, hrace [0; 0; 0; 0; 1; 2; 2; 2; 2; 2; 1; 1; 1] (hstart [PStart [7]; PStart [8]; FStart]) = Some s ∧
  PAcked 0 [8] ∈ hs_threads s ∧ hs_current s = Some 1 ∧ hs_blocks s !! 0 = Some ([7], [7]).
Proof. eexists. split; [vm_compute; reflexivity|]. cbn. split; [by right; left|done]. Qed.

(** The push adds its profile between the writing of the index and that of the table: its row has no entry, and the position that it has
    is that of another series. *)
Example push_without_entry : ∃ s, hrace [0; 0; 0; 0; 1; 2; 2; 2; 1; 2; 2; 1; 1] (hstart [PStart [7]; PStart [8]; FStart]) = Some s ∧
  PAcked 0 [8] ∈ hs_threads s ∧ hs_blocks s !! 0 = Some ([7], [7; 8]).
Proof. eexists. split; [vm_compute; reflexivity|]. cbn. split; [by right; left|done]. Qed.

(** No new head can be made: the old one is dropped with its profile, and the next push has no head. *)
Example head_dropped : ∃ s s', hrace [0; 0; 0; 0] (hstart [PStart [7]; PStart [8]; FStart]) = Some s ∧ hgo 2 Errs s ≫= hgo 1 Goes = Some s' ∧
  hs_threads s' = [PAcked 0 [7]; PPanicked; FDropped 0] ∧ hs_blocks s' = ∅.
Proof. eexists _, _. split; [vm_compute; reflexivity|]. split; vm_compute; by split. Qed.
