(* ===== verification/Ingester.v ===== *)
(** * The ingester (src/pkg/ingester/ingester.go, instance.go, src/pkg/tenant/)

    An instance per tenant, made when it is first asked for.  Requests run at the same time: the map of instances is read
    under a read lock, and asked again under the write lock before an instance is made.  [ing_go] is one operation of one
    goroutine; a state is reached by any sequence of them. *)

From S2P Require Import Prelude Labels Symbols Head Bucket Distributor.

(** ** The map of instances *)

(** Where a goroutine is: a request of a tenant in [GetOrCreateInstance], or [Flush] and [stopping] ([all]), which visit
    the instances; [Flush] returns on the first error. *)
Inductive pc :=
  | Want (id : string) | Reading (id : string) | Missed (id : string) | Waiting (id : string) | Holding (id : string)
  | Creating (id : string) | Leaving (id : string) (r : nat + string) | Got (id : string) (r : nat + string)
  | Listing (all : bool) | Visiting (all : bool) (rest seen : list nat) (errs : list string) | Listed (all : bool) (seen : list nat) (errs : list string).

(** Instances are numbered as they are made, [in_created] has their tenants.  [in_writer] is [Some false] when a writer
    waits for the readers to leave, which keeps new readers out. *)
Record ingester := mkIngester {
  in_instances : gmap string nat; in_created : list string; in_readers : nat; in_writer : option bool; in_threads : list pc }.

Section Instances.
Context (range : gmap string nat → list (string * nat)).

Definition at_pc (i : nat) (p : pc) (s : ingester) : ingester :=
  mkIngester (in_instances s) (in_created s) (in_readers s) (in_writer s) (<[i := p]> (in_threads s)).
Definition with_lock (readers : nat) (writer : option bool) (s : ingester) : ingester :=
  mkIngester (in_instances s) (in_created s) readers writer (in_threads s).
Definition with_instance (id : string) (s : ingester) : ingester :=
  mkIngester (<[id := length (in_created s)]> (in_instances s)) (in_created s ++ [id]) (in_readers s) (in_writer s) (in_threads s).

(** A visit takes the read lock, goes through the instances in the order of the range, and gives the lock back.  [stopping] collects errors,
    [Flush] ends on the first. *)
Definition begin_visit (i : nat) (all : bool) (s : ingester) : option ingester :=
  if in_writer s is None then Some (at_pc i (Visiting all (range (in_instances s)).*2 [] []) (with_lock (S (in_readers s)) None s)) else None.
Definition visit_instance (c : option string) (all : bool) (n : nat) (rest seen : list nat) (errs : list string) : pc :=
  match c with
  | None => Visiting all rest (seen ++ [n]) errs
  | Some e => Visiting all (if all then rest else []) (seen ++ [n]) (errs ++ [e])
  end.

(** The next operation of goroutine [i]; [c] is the error of [newInstance], [Flush] or [Stop] of an instance. *)
Definition ing_go (i : nat) (c : option string) (s : ingester) : option ingester :=
  p ← in_threads s !! i;
  match p with
  | Want id => if in_writer s is None then Some (at_pc i (Reading id) (with_lock (S (in_readers s)) None s)) else None
  | Reading id =>
      let s' := with_lock (pred (in_readers s)) (in_writer s) s in
      Some (at_pc i (if in_instances s !! id is Some n then Got id (inl n) else Missed id) s')
  | Missed id => if in_writer s is None then Some (at_pc i (Waiting id) (with_lock (in_readers s) (Some false) s)) else None
  | Waiting id => if in_readers s is O then Some (at_pc i (Holding id) (with_lock O (Some true) s)) else None
  | Holding id => Some (at_pc i (if in_instances s !! id is Some n then Leaving id (inl n) else Creating id) s)
  | Creating id =>
      Some (match c with
            | Some e => at_pc i (Leaving id (inr e)) s
            | None => at_pc i (Leaving id (inl (length (in_created s)))) (with_instance id s)
            end)
  | Leaving id r => Some (at_pc i (Got id r) (with_lock (in_readers s) None s))
  | Listing all => begin_visit i all s
  | Visiting all (n :: rest) seen errs => Some (at_pc i (visit_instance c all n rest seen errs) s)
  | Visiting all [] seen errs => Some (at_pc i (Listed all seen errs) (with_lock (pred (in_readers s)) (in_writer s) s))
  | Got _ _ | Listed _ _ _ => None
  end.

Definition ing_step (s s' : ingester) : Prop := ∃ i c, ing_go i c s = Some s'.

(** Requests of these tenants, and visits, at a fresh ingester. *)
Definition ing_fresh (threads : list pc) : ingester := mkIngester ∅ [] 0 None threads.
Definition at_start (p : pc) : Prop := match p with Want _ | Listing _ => True | _ => False end.
Definition at_end (p : pc) : Prop := match p with Got _ _ | Listed _ _ _ => True | _ => False end.

#[global] Instance at_end_dec p : Decision (at_end p).
Proof. destruct p; apply _. Defined.

(** *** The invariant *)

Definition reading (p : pc) : Z := match p with Reading _ | Visiting _ _ _ _ => 1 | _ => 0 end.
Definition waits (p : pc) : Z := match p with Waiting _ => 1 | _ => 0 end.
Definition writes (p : pc) : Z := match p with Holding _ | Creating _ | Leaving _ _ => 1 | _ => 0 end.
Definition settled (p : pc) : Z := match p with Leaving _ _ | Got _ _ => 1 | _ => 0 end.

(** What holds of a goroutine by itself, given the map. *)
Definition pc_ok (m : gmap string nat) (p : pc) : Prop :=
  match p with
  | Creating id => m !! id = None
  | Leaving id (inl n) | Got id (inl n) => m !! id = Some n
  | Visiting all rest seen errs => if all || bool_decide (errs = []) then seen ++ rest ≡ₚ (map_to_list m).*2 else rest = []
  | _ => True
  end.

Record ing_inv (s : ingester) : Prop := {
  ig_readers : Z.of_nat (in_readers s) = sumz reading (in_threads s);
  ig_waits : (if in_writer s is Some false then 1 else 0)%Z = sumz waits (in_threads s);
  ig_writes : (if in_writer s is Some true then 1 else 0)%Z = sumz writes (in_threads s);
  ig_excl : in_writer s = Some true → in_readers s = 0;
  ig_map : ∀ id n, in_instances s !! id = Some n ↔ in_created s !! n = Some id;
  ig_size : size (in_instances s) = length (in_created s);
  ig_count : (Z.of_nat (length (in_created s)) ≤ sumz settled (in_threads s))%Z;
  ig_pc : Forall (pc_ok (in_instances s)) (in_threads s) }.

Lemma nonneg_flags p : (0 ≤ reading p ∧ 0 ≤ waits p ∧ 0 ≤ writes p ∧ 0 ≤ settled p)%Z.
Proof. by destruct p. Qed.

Lemma sum_above (f : pc → Z) l i p : (∀ p, 0 ≤ f p)%Z → l !! i = Some p → (f p ≤ sumz f l)%Z.
Proof. intros Hf Hp. apply sumz_elem; [auto|by eapply list_elem_of_lookup_2]. Qed.

Lemma sum_two (f : pc → Z) l i j p q : (∀ p, 0 ≤ f p)%Z → i ≠ j → l !! i = Some p → l !! j = Some q → (f p + f q ≤ sumz f l)%Z.
Proof.
  intros Hf Hne Hp Hq. pose proof (take_drop_middle l i p Hp) as Hl. assert (q ∈ take i l ++ drop (S i) l) as Hin.
  { apply elem_of_app. destruct (decide (j < i)); [left|right]; apply list_elem_of_lookup.
    - exists j. by rewrite lookup_take_lt.
    - exists (j - S i). rewrite lookup_drop. by replace (S i + (j - S i)) with j by lia. }
  pose proof (sumz_elem f _ q (λ y _, Hf y) Hin) as H. rewrite <- Hl, !sumz_app. rewrite sumz_app in H. cbn. unfold sumz in *. lia.
Qed.

(** A goroutine with a property that the sum says somebody has. *)
Lemma sum_witness (f : pc → Z) l : (0 < sumz f l)%Z → ∃ i p, l !! i = Some p ∧ (0 < f p)%Z.
Proof.
  induction l as [|p l IH]; [done|]. change (sumz f (p :: l)) with (f p + sumz f l)%Z. intros H. destruct (decide (0 < f p)%Z) as [|Hp]; [by exists 0, p|]. destruct IH as (i & q & ? & ?); [lia|]. by exists (S i), q.
Qed.

Lemma pc_insert m l i p q : l !! i = Some p → Forall (pc_ok m) l → pc_ok m q → Forall (pc_ok m) (<[i := q]> l).
Proof. intros _ Hl Hq. by apply Forall_insert. Qed.

Context (range_perm : ∀ m, range m ≡ₚ map_to_list m).

(** An operation that only moves its goroutine and the lock. *)
Lemma ing_move s i p q readers writer : ing_inv s → in_threads s !! i = Some p →
  (Z.of_nat readers - Z.of_nat (in_readers s) = reading q - reading p)%Z →
  ((if writer is Some false then 1 else 0) - (if in_writer s is Some false then 1 else 0) = waits q - waits p)%Z →
  ((if writer is Some true then 1 else 0) - (if in_writer s is Some true then 1 else 0) = writes q - writes p)%Z →
  (writer = Some true → readers = 0) → (settled p ≤ settled q)%Z → pc_ok (in_instances s) q → ing_inv (at_pc i q (with_lock readers writer s)).
Proof.
  intros [H1 H2 H3 H4 H5 H6 H7 H8] Hp E1 E2 E3 Hex Hset Hok. split; cbn [at_pc with_lock in_instances in_created in_readers in_writer in_threads]; rewrite ?(sumz_insert _ _ _ _ _ Hp); [lia|lia|lia|done|done|done|lia|].
  by apply Forall_insert.
Qed.

Lemma same_lock s : with_lock (in_readers s) (in_writer s) s = s.
Proof. by destruct s. Qed.

(** The lock keeps others out while an instance is made. *)
Lemma ing_create s i id : ing_inv s → in_threads s !! i = Some (Creating id) → ing_inv (at_pc i (Leaving id (inl (length (in_created s)))) (with_instance id s)).
Proof.
  intros [H1 H2 H3 H4 H5 H6 H7 H8] Hp. pose proof (sum_above writes _ _ _ (λ p, proj1 (proj2 (proj2 (nonneg_flags p)))) Hp) as Hw.
  assert (in_writer s = Some true) as Hwr by (destruct (in_writer s) as [[]|]; cbn in Hw, H3; [done|lia|lia]). rewrite Hwr in H2, H3. pose proof (H4 Hwr) as Hr0. rewrite Hr0 in H1.
  assert (in_instances s !! id = None) as Hnew by (rewrite Forall_lookup in H8; exact (H8 _ _ Hp)).
  split; cbn [at_pc with_instance in_instances in_created in_readers in_writer in_threads]; rewrite ?(sumz_insert _ _ _ _ _ Hp), ?Hwr, ?Hr0; cbn [reading waits writes settled]; [lia|lia|lia|done| | | |].
  - intros id' n. rewrite lookup_insert_Some, H5. split.
    + intros [[<- <-]|[Hne Hn]]; [by apply list_lookup_middle|by apply lookup_app_l_Some].
    + intros [Hn|[Hle Hn]]%lookup_app_Some; [right; split; [|done]; intros ->; apply H5 in Hn; by rewrite Hnew in Hn|]. apply list_lookup_singleton_Some in Hn as [Hz ->]. left. split; [done|lia].
  - rewrite map_size_insert_None by done. rewrite length_app. cbn. lia.
  - rewrite length_app. cbn. lia.
  - rewrite Forall_lookup in H8 |- *. intros j q [(_ & <- & _)|[Hne Hq]]%list_lookup_insert_Some; [by cbn; rewrite lookup_insert_eq|]. specialize (H8 j q Hq).
    pose proof (sum_two writes _ _ _ _ _ (λ p, proj1 (proj2 (proj2 (nonneg_flags p)))) Hne Hp Hq) as Hw2. pose proof (sum_above reading _ _ _ (λ p, proj1 (nonneg_flags p)) Hq) as Hr2.
    destruct q as [| | | | |id'|id' [n|]|id' [n|]| |all rest seen errs|]; cbn in H8, Hw2, Hr2 |- *; try done; try lia.
    rewrite lookup_insert_ne; [done|]. by intros ->; rewrite H8 in Hnew.
Qed.

(** Every operation keeps the invariant. *)
Lemma ing_step_inv s s' : ing_step s s' → ing_inv s → ing_inv s'.
Proof.
  intros (i & c & Hgo) Hinv. unfold ing_go, begin_visit, visit_instance in Hgo. destruct (in_threads s !! i) as [p|] eqn:Hp; [|done]. cbn in Hgo.
  pose proof Hinv as [H1 H2 H3 H4 H5 H6 H7 H8]. pose proof (proj1 (Forall_lookup _ _) H8 i p Hp) as Hok.
  pose proof (sum_above reading _ _ _ (λ p, proj1 (nonneg_flags p)) Hp) as Hr. pose proof (sum_above writes _ _ _ (λ p, proj1 (proj2 (proj2 (nonneg_flags p)))) Hp) as Hw.
  pose proof (sum_above waits _ _ _ (λ p, proj1 (proj2 (nonneg_flags p))) Hp) as Hwt.
  destruct p as [id|id|id|id|id|id|id r|id r|all|all [|n rest] seen errs|all seen errs]; cbn in Hr, Hw, Hwt; [..|done].
  - destruct (in_writer s) eqn:Ew; [done|]. injection Hgo as <-. eapply ing_move; rewrite ?Ew; try done; cbn; lia.
  - injection Hgo as <-. eapply ing_move; try done; [destruct (in_instances s !! id); cbn; lia|destruct (in_instances s !! id); cbn; lia|destruct (in_instances s !! id); cbn; lia| | |].
    + intros Hwr. by rewrite H4.
    + destruct (in_instances s !! id); cbn; lia.
    + by destruct (in_instances s !! id) eqn:E.
  - destruct (in_writer s) eqn:Ew; [done|]. injection Hgo as <-. eapply ing_move; rewrite ?Ew; try done; cbn; lia.
  - destruct (in_readers s) eqn:Er; [|done]. injection Hgo as <-. assert (in_writer s = Some false) as Ew by (destruct (in_writer s) as [[]|]; [lia|done|lia]).
    eapply ing_move; rewrite ?Ew, ?Er; done.
  - injection Hgo as <-. rewrite <- (same_lock s) at 2. eapply ing_move; try done; try (destruct (in_instances s !! id); cbn; lia). by destruct (in_instances s !! id) eqn:E.
  - destruct c as [e|]; injection Hgo as <-; [|by apply ing_create]. rewrite <- (same_lock s). eapply ing_move; try done; cbn; lia.
  - injection Hgo as <-. assert (in_writer s = Some true) as Ew by (destruct (in_writer s) as [[]|]; [done|lia|lia]). eapply ing_move; rewrite ?Ew; try done; cbn; lia.
  - done.
  - destruct (in_writer s) eqn:Ew; [done|]. injection Hgo as <-. eapply ing_move; rewrite ?Ew; try done; cbn; [lia|]. rewrite orb_true_r. by rewrite range_perm.
  - injection Hgo as <-. eapply ing_move; try done; cbn; try lia. intros Hwr. by rewrite H4.
  - injection Hgo as <-. rewrite <- (same_lock s). destruct c as [e|]; (eapply ing_move; [done|done|cbn; lia|cbn; lia|cbn; lia|done|done|]); cbn [pc_ok] in Hok |- *.
    + rewrite bool_decide_eq_false_2, orb_false_r by (by destruct errs). destruct all; cbn in Hok |- *; [by rewrite <- (assoc_L (++))|done].
    + destruct (all || bool_decide (errs = [])); [by rewrite <- (assoc_L (++))|done].
Qed.

Lemma fresh_inv threads : Forall at_start threads → ing_inv (ing_fresh threads).
Proof.
  intros Hs. rewrite Forall_forall in Hs. assert (∀ f : pc → Z, (∀ p, at_start p → f p = 0%Z) → sumz f threads = 0%Z) as Hz by (intros f Hf; rewrite (sumz_const _ 0); [lia|auto]).
  split; cbn [ing_fresh in_instances in_created in_readers in_writer in_threads length]; rewrite ?Hz by (by intros []); try done.
  apply Forall_forall. intros p Hp. specialize (Hs p Hp). by destruct p.
Qed.

(** *** Nobody waits for ever *)

Lemma ing_progress s : ing_inv s → ¬ Forall at_end (in_threads s) → ∃ s', ing_step s s'.
Proof.
  intros [H1 H2 H3 H4 H5 H6 H7 H8] Hend. enough (∃ i s', ing_go i None s = Some s') as (i & s' & Hgo) by (by exists s', i, None).
  assert (∀ i p, in_threads s !! i = Some p → (0 < reading p)%Z → ∃ s', ing_go i None s = Some s') as Hreader.
  { intros i p Hp Hr. unfold ing_go, begin_visit, visit_instance. rewrite Hp. cbn. destruct p as [| | | | | | | | |all [|n rest] seen errs|]; cbn in Hr; try lia; by eexists. }
  destruct (in_writer s) as [[]|] eqn:Ew.
  - destruct (sum_witness writes (in_threads s)) as (i & p & Hp & Hw); [lia|]. exists i. unfold ing_go, begin_visit, visit_instance. rewrite Hp. cbn. destruct p; cbn in Hw; try lia; by eexists.
  - destruct (in_readers s) as [|r] eqn:Er.
    + destruct (sum_witness waits (in_threads s)) as (i & p & Hp & Hw); [lia|]. exists i. unfold ing_go, begin_visit, visit_instance. rewrite Hp. cbn. destruct p; cbn in Hw; try lia. rewrite Er. by eexists.
    + destruct (sum_witness reading (in_threads s)) as (i & p & Hp & Hr); [lia|]. exists i. by eapply Hreader.
  - apply not_Forall_Exists in Hend; [|apply _]. apply Exists_exists in Hend as (p & [i Hp]%list_elem_of_lookup & Hne). exists i.
    pose proof (sum_above writes _ _ _ (λ p, proj1 (proj2 (proj2 (nonneg_flags p)))) Hp) as Hw. pose proof (sum_above waits _ _ _ (λ p, proj1 (proj2 (nonneg_flags p))) Hp) as Hwt.
    destruct (decide (0 < reading p)%Z) as [Hr|Hr]; [by eapply Hreader|]. unfold ing_go, begin_visit, visit_instance. rewrite Hp. cbn. destruct p; cbn in Hr, Hw, Hwt, Hne; try lia; try done; rewrite ?Ew; by eexists.
Qed.

(** *** Every request ends *)

(** The operations a goroutine has left, when there are at most [b] instances. *)
Definition ing_work (b : Z) (p : pc) : Z :=
  match p with
  | Want _ => 7 | Reading _ => 6 | Missed _ => 5 | Waiting _ => 4 | Holding _ => 3 | Creating _ => 2 | Leaving _ _ => 1
  | Listing _ => b + 2 | Visiting _ rest _ _ => 1 + Z.of_nat (length rest) | Got _ _ | Listed _ _ _ => 0
  end.

Definition owner (p : pc) : option string :=
  match p with
  | Want id | Reading id | Missed id | Waiting id | Holding id | Creating id | Leaving id _ | Got id _ => Some id
  | _ => None
  end.

Lemma few_instances s : ing_inv s → (Z.of_nat (size (in_instances s)) ≤ Z.of_nat (length (in_threads s)))%Z.
Proof.
  intros Hinv. rewrite (ig_size _ Hinv). pose proof (ig_count _ Hinv) as Hc. pose proof (sumz_le settled (λ _, 1%Z) (in_threads s) ltac:(by intros [])) as Hle.
  rewrite (sumz_const (λ _, 1%Z) 1) in Hle by done. lia.
Qed.

(** An operation is a move of one goroutine to a later place, which belongs to the same tenant. *)
Lemma ing_step_moves s s' : ing_step s s' → ing_inv s → ∃ i p q, in_threads s !! i = Some p ∧ in_threads s' = <[i := q]> (in_threads s) ∧ owner q = owner p ∧
  (ing_work (Z.of_nat (length (in_threads s))) q < ing_work (Z.of_nat (length (in_threads s))) p)%Z.
Proof.
  intros (i & c & Hgo) Hinv. pose proof (few_instances s Hinv) as Hfew. unfold ing_go, begin_visit, visit_instance in Hgo. destruct (in_threads s !! i) as [p|] eqn:Hp; [|done]. cbn in Hgo. exists i, p.
  destruct p as [id|id|id|id|id|id|id r|id r|all|all [|n rest] seen errs|all seen errs]; try done.
  - destruct (in_writer s); [done|]. injection Hgo as <-. eexists. split_and!; [done..|cbn; lia].
  - injection Hgo as <-. eexists. split_and!; [done..| |]; destruct (in_instances s !! id); cbn; done || lia.
  - destruct (in_writer s); [done|]. injection Hgo as <-. eexists. split_and!; [done..|cbn; lia].
  - destruct (in_readers s); [|done]. injection Hgo as <-. eexists. split_and!; [done..|cbn; lia].
  - injection Hgo as <-. eexists. split_and!; [done..| |]; destruct (in_instances s !! id); cbn; done || lia.
  - destruct c; injection Hgo as <-; eexists; (split_and!; [done..|cbn; lia]).
  - injection Hgo as <-. eexists. split_and!; [done..|cbn; lia].
  - destruct (in_writer s); [done|]. injection Hgo as <-. eexists. split_and!; [done..|]. cbn. rewrite length_fmap, range_perm, length_map_to_list. lia.
  - injection Hgo as <-. eexists. split_and!; [done..|cbn; lia].
  - injection Hgo as <-. destruct c; eexists; (split_and!; [done..|]); cbn; [destruct all; cbn; lia|lia].
Qed.

Lemma ing_steps threads n s : Forall at_start threads → nsteps ing_step n (ing_fresh threads) s →
  ing_inv s ∧ owner <$> in_threads s = owner <$> threads ∧ (Z.of_nat n + sumz (ing_work (Z.of_nat (length threads))) (in_threads s) ≤ sumz (ing_work (Z.of_nat (length threads))) threads)%Z.
Proof.
  intros Hs Hn. remember (ing_fresh threads) as s0 eqn:E0. assert (ing_inv s0 ∧ length (in_threads s0) = length threads ∧ owner <$> in_threads s0 = owner <$> threads ∧
    sumz (ing_work (Z.of_nat (length threads))) (in_threads s0) = sumz (ing_work (Z.of_nat (length threads))) threads) as (Hinv & Hlen & Hown & Hw) by (subst s0; split_and!; [by apply fresh_inv|done..]).
  rewrite <- Hw, <- Hown. rewrite <- Hlen. clear E0 Hw Hown Hlen. induction Hn as [s|n s s1 s2 Hst Hn IH]; [split_and!; [done|done|lia]|].
  destruct (ing_step_moves _ _ Hst Hinv) as (i & p & q & Hp & Hq & Ho & Hlt). specialize (IH (ing_step_inv _ _ Hst Hinv)). rewrite Hq, length_insert, list_fmap_insert, (sumz_insert _ _ _ _ _ Hp) in IH.
  destruct IH as (Hinv2 & Ho2 & Hw2). split_and!; [done| |lia]. rewrite Ho2. apply list_insert_id. by rewrite list_lookup_fmap, Hp, Ho.
Qed.
End Instances.

(** What a visit of the instances goes through, while it holds the lock. *)
Lemma visited_instances (s : ingester) l : ing_inv s → l ≡ₚ (map_to_list (in_instances s)).*2 → NoDup l ∧ ∀ k, k ∈ l ↔ k < length (in_created s).
Proof.
  intros Hinv Hl. rewrite Hl. split.
  - apply NoDup_fmap_2_strong; [|apply NoDup_map_to_list]. intros [id k] [id' k'] H1%elem_of_map_to_list H2%elem_of_map_to_list Heq. cbn in Heq. subst k'.
    apply (ig_map _ Hinv) in H1, H2. congruence.
  - intros k. rewrite Hl, list_elem_of_fmap. split.
    + intros ([id k'] & -> & Hk%elem_of_map_to_list). apply (ig_map _ Hinv) in Hk. by eapply lookup_lt_Some.
    + intros [id Hid]%lookup_lt_is_Some. apply (ig_map _ Hinv) in Hid. exists (id, k). split; [done|]. by apply elem_of_map_to_list.
Qed.

(** C10: Requests of tenants, flushes and the shutdown share the map of instances safely, however they are interleaved.  No
    tenant has two instances; requests of one tenant that succeed have the same instance, made for that tenant; a visit, as long as it has not
    stopped on an error, goes through each instance there is once, and none is added meanwhile.  The locks never stop
    everybody: a state that cannot go on has only ended goroutines, and it is reached after at most [l * (l + 7)]
    operations of [l] goroutines. *)
Theorem instances_correct range threads n s : (∀ m, range m ≡ₚ map_to_list m) → Forall at_start threads → nsteps (ing_step range) n (ing_fresh threads) s →
  NoDup (in_created s) ∧
  (∀ i j id k k', in_threads s !! i = Some (Got id (inl k)) → in_threads s !! j = Some (Got id (inl k')) → k = k' ∧ in_created s !! k = Some id) ∧
  (∀ i all rest seen errs, in_threads s !! i = Some (Visiting all rest seen errs) → all = true ∨ errs = [] → NoDup (seen ++ rest) ∧ ∀ k, k ∈ seen ++ rest ↔ k < length (in_created s)) ∧
  owner <$> in_threads s = owner <$> threads ∧
  n ≤ length threads * (length threads + 7) ∧ ((∀ s', ¬ ing_step range s s') → Forall at_end (in_threads s)).
Proof.
  intros Hr Hs Hn. destruct (ing_steps range Hr threads n s Hs Hn) as (Hinv & Hown & Hwork). pose proof (proj1 (Forall_lookup _ _) (ig_pc _ Hinv)) as Hpc. split_and!; [| | |done| |].
  - apply NoDup_alt. intros k k' id Hk Hk'. apply (ig_map _ Hinv) in Hk, Hk'. congruence.
  - intros i j id k k' Hi Hj. apply Hpc in Hi, Hj. cbn in Hi, Hj. split; [congruence|]. by apply (ig_map _ Hinv).
  - intros i all rest seen errs Hi Herr. apply Hpc in Hi. cbn in Hi. apply visited_instances; [done|]. destruct Herr as [->| ->]; [done|]. by rewrite orb_true_r in Hi.
  - pose proof (sumz_nonneg (ing_work (Z.of_nat (length threads))) (in_threads s) ltac:(intros [] _; cbn; lia)) as H0.
    pose proof (sumz_le (ing_work (Z.of_nat (length threads))) (λ _, Z.of_nat (length threads) + 7)%Z threads) as Hle. rewrite (sumz_const (λ _, Z.of_nat (length threads) + 7)%Z (Z.of_nat (length threads) + 7)%Z) in Hle by done.
    rewrite Forall_forall in Hs. specialize (Hle ltac:(intros p Hp; specialize (Hs p Hp); destruct p; try done; cbn [ing_work]; lia)). lia.
  - intros Hstuck. destruct (decide (Forall at_end (in_threads s))) as [|Hne]; [done|]. destruct (ing_progress range s Hinv Hne) as [s' Hs']. by destruct (Hstuck s').
Qed.

(** Two requests of one tenant that both find no instance, and a flush. *)
Definition race (l : list (nat * option string)) (s : ingester) : option ingester := foldl (λ s x, s ≫= ing_go map_to_list x.1 x.2) (Some s) l.
Definition two_requests : list (nat * option string) := (λ i, (i, None)) <$> [0; 1; 0; 1; 0; 0; 0; 0; 0; 1; 1; 1; 1; 2; 2; 2].

Lemma race_steps l s : ∀ s', race l s = Some s' → nsteps (ing_step map_to_list) (length l) s s'.
Proof.
  revert s. unfold race. induction l as [|[i c] l IH]; cbn; intros s s' H; [injection H as ->; constructor|]. destruct (ing_go map_to_list i c s) as [s1|] eqn:E.
  - econstructor; [by exists i, c|by apply IH].
  - exfalso. clear -H. induction l; [done|auto].
Qed.

Lemma instances_correct_witness : ∃ s, race two_requests (ing_fresh [Want "a"; Want "a"; Listing false]) = Some s ∧ in_created s = ["a"] ∧
  in_threads s = [Got "a" (inl 0); Got "a" (inl 0); Listed false [0] []] ∧ 16 ≤ 3 * (3 + 7) ∧ NoDup (in_created s).
Proof.
  destruct (race two_requests (ing_fresh [Want "a"; Want "a"; Listing false])) as [s|] eqn:E; [|vm_compute in E; discriminate E]. exists s.
  assert (in_created s = ["a"] ∧ in_threads s = [Got "a" (inl 0); Got "a" (inl 0); Listed false [0] []]) as [Hc Ht] by (vm_compute in E; injection E as <-; split; reflexivity).
  destruct (instances_correct map_to_list [Want "a"; Want "a"; Listing false] 16 s) as (Hnd & _ & _ & _ & Hb & _); [done|by repeat constructor|exact (race_steps _ _ _ E)|].
  split_and!; [done|done|done|exact Hb|exact Hnd].
Defined.

(** ** An instance and its shipper *)

(** The loop of an instance: not begun, in [select], waiting for the lock of the shipper, shipping what was there at [k], and the
    same for the last run; it ends with whether that succeeded.  The first run is a goroutine of its own. *)
Inductive loop_pc := LStart | LAdded | LSelect | LLock | LShip (k : nat) | LLastLock | LLastShip (k : nat) | LDone (ok : bool).
Inductive early_pc := ENone | ELock | EShip (k : nat) | EDone.
Inductive stop_pc := SIdle | SClosed | SCancelled | SReturned.

(** Blocks on disk and blocks that were uploaded are counted; [sh_locked] is [shipperLock], [sh_wg] the wait group. *)
Record shipping := mkShipping {
  sh_local : nat; sh_uploaded : nat; sh_closed : bool; sh_cancelled : bool; sh_locked : bool; sh_wg : nat;
  sh_loop : loop_pc; sh_early : early_pc; sh_stop : stop_pc }.

Definition sh_lock (b : bool) (s : shipping) : shipping :=
  mkShipping (sh_local s) (sh_uploaded s) (sh_closed s) (sh_cancelled s) b (sh_wg s) (sh_loop s) (sh_early s) (sh_stop s).
Definition sh_at_loop (wg : nat) (l : loop_pc) (s : shipping) : shipping :=
  mkShipping (sh_local s) (sh_uploaded s) (sh_closed s) (sh_cancelled s) (sh_locked s) wg l (sh_early s) (sh_stop s).
Definition sh_at_early (e : early_pc) (s : shipping) : shipping :=
  mkShipping (sh_local s) (sh_uploaded s) (sh_closed s) (sh_cancelled s) (sh_locked s) (sh_wg s) (sh_loop s) e (sh_stop s).
Definition sh_at_stop (closed cancelled : bool) (t : stop_pc) (s : shipping) : shipping :=
  mkShipping (sh_local s) (sh_uploaded s) closed cancelled (sh_locked s) (sh_wg s) (sh_loop s) (sh_early s) t.

(** The end of a run that began with [k] blocks: a success has uploaded them ([Shipper]). *)
Definition shipped (k : nat) (ok : bool) (s : shipping) : shipping :=
  mkShipping (sh_local s) (if ok then Nat.max k (sh_uploaded s) else sh_uploaded s) (sh_closed s) (sh_cancelled s) false (sh_wg s) (sh_loop s) (sh_early s) (sh_stop s).

(** Who moves: the database, until it is closed, the goroutines of the instance, or its [Stop]. *)
Inductive actor := ABlock | ALoop (tick : bool) (ok : bool) | AEarly (ok : bool) | AStop.

Definition sh_go (a : actor) (s : shipping) : option shipping :=
  match a with
  | ABlock => if sh_closed s then None
              else Some (mkShipping (S (sh_local s)) (sh_uploaded s) (sh_closed s) (sh_cancelled s) (sh_locked s) (sh_wg s) (sh_loop s) (sh_early s) (sh_stop s))
  | ALoop tick ok =>
      match sh_loop s with
      | LStart => Some (sh_at_loop (S (sh_wg s)) LAdded s)
      | LAdded => Some (sh_at_early ELock (sh_at_loop (sh_wg s) LSelect s))
      | LSelect => if tick then Some (sh_at_loop (sh_wg s) LLock s) else if sh_cancelled s then Some (sh_at_loop (sh_wg s) LLastLock s) else None
      | LLock => if sh_locked s then None else Some (sh_lock true (sh_at_loop (sh_wg s) (LShip (sh_local s)) s))
      | LShip k => Some (shipped k ok (sh_at_loop (sh_wg s) LSelect s))
      | LLastLock => if sh_locked s then None else Some (sh_lock true (sh_at_loop (sh_wg s) (LLastShip (sh_local s)) s))
      | LLastShip k => Some (shipped k ok (sh_at_loop (pred (sh_wg s)) (LDone ok) s))
      | LDone _ => None
      end
  | AEarly ok =>
      match sh_early s with
      | ELock => if sh_locked s then None else Some (sh_lock true (sh_at_early (EShip (sh_local s)) s))
      | EShip k => Some (shipped k ok (sh_at_early EDone s))
      | ENone | EDone => None
      end
  | AStop =>
      match sh_stop s with
      | SIdle => Some (sh_at_stop true (sh_cancelled s) SClosed s)
      | SClosed => Some (sh_at_stop (sh_closed s) true SCancelled s)
      | SCancelled => if sh_wg s is O then Some (sh_at_stop (sh_closed s) (sh_cancelled s) SReturned s) else None
      | SReturned => None
      end
  end.

Definition sh_step (s s' : shipping) : Prop := ∃ a, sh_go a s = Some s'.
Definition new_instance (blocks : nat) : shipping := mkShipping blocks 0 false false false 0 LStart ENone SIdle.

Definition ships (l : loop_pc) : bool := match l with LShip _ | LLastShip _ => true | _ => false end.
Definition early_ships (e : early_pc) : bool := match e with EShip _ => true | _ => false end.
Definition counted_in (l : loop_pc) : nat := match l with LStart | LDone _ => 0 | _ => 1 end.
Definition last_run (l : loop_pc) : bool := match l with LLastLock | LLastShip _ | LDone _ => true | _ => false end.
Definition began (l : loop_pc) (e : early_pc) : nat := match l, e with LShip k, _ | LLastShip k, _ => k | _, EShip k => k | _, _ => 0 end.

Record sh_inv (s : shipping) : Prop := {
  si_lock : sh_locked s = ships (sh_loop s) || early_ships (sh_early s);
  si_one : ships (sh_loop s) && early_ships (sh_early s) = false;
  si_wg : sh_wg s = counted_in (sh_loop s);
  si_closed : sh_closed s = match sh_stop s with SIdle => false | _ => true end;
  si_cancelled : sh_cancelled s = match sh_stop s with SCancelled | SReturned => true | _ => false end;
  si_early : sh_early s ≠ ENone → match sh_loop s with LStart | LAdded => False | _ => True end;
  si_last : last_run (sh_loop s) = true → sh_cancelled s = true;
  si_uploaded : sh_uploaded s ≤ sh_local s;
  si_began : began (sh_loop s) (sh_early s) ≤ sh_local s;
  si_ship k : sh_loop s = LLastShip k → k = sh_local s;
  si_done : sh_loop s = LDone true → sh_uploaded s = sh_local s }.

Lemma new_instance_inv blocks : sh_inv (new_instance blocks).
Proof. by split; cbn; try lia. Qed.

Ltac finish_shipping H6 H9 H10 :=
  intros; simplify_eq; try done; try discriminate (H6 eq_refl); try specialize (H9 _ eq_refl); try specialize (H10 eq_refl); auto with lia.

Lemma sh_step_inv s s' : sh_step s s' → sh_inv s → sh_inv s'.
Proof.
  destruct s as [local uploaded closed cancelled locked wg loop early stop]. intros (a & Hgo) [H1 H2 H3 H4 H5 He H6 H7 H8 H9 H10]. cbn in *. subst.
  destruct a as [|tick ok|ok|]; cbn in Hgo.
  - destruct stop; [|done..]. injection Hgo as <-. destruct loop as [| | | |k| |k|[]]; split; cbn in *; finish_shipping H6 H9 H10.
  - destruct loop, early; cbn in *; try destruct tick; try destruct ok; try (destruct stop; [done|done|..]); simplify_eq; split; cbn in *; finish_shipping H6 H9 H10; by destruct He.
  - destruct early; cbn in *; [done|destruct loop|destruct loop, ok|done]; cbn in *; simplify_eq; split; cbn in *; finish_shipping H6 H9 H10.
  - destruct stop; cbn in *; [| |destruct (counted_in loop) eqn:E; [|done]|done]; simplify_eq; split; cbn in *; finish_shipping H6 H9 H10; by apply He.
Qed.

(** A call of [Stop] that waits can return: the runs that are left end. *)
Lemma stop_can_return s : sh_inv s → sh_stop s = SCancelled → ∃ s', rtc sh_step s s' ∧ sh_stop s' = SReturned.
Proof.
  assert (∀ l s s', foldl (λ o a, o ≫= sh_go a) (Some s) l = Some s' → rtc sh_step s s') as Hrun.
  { induction l as [|a l IH]; cbn; intros s0 s' H; [injection H as ->; done|]. destruct (sh_go a s0) as [s1|] eqn:E; [eapply rtc_l; [by exists a|by apply IH]|].
    exfalso. clear -H. induction l; [done|auto]. }
  intros [H1 H2 H3 H4 H5 He H6 H7 H8 H9 H10] Hs. destruct s as [local uploaded closed cancelled locked wg loop early stop]. cbn in *. subst.
  assert (∀ pre, (∃ s', foldl (λ o a, o ≫= sh_go a) (Some (mkShipping local uploaded true true (ships loop || early_ships early) (counted_in loop) loop early SCancelled)) pre = Some s' ∧ sh_stop s' = SReturned) →
    ∃ s', rtc sh_step (mkShipping local uploaded true true (ships loop || early_ships early) (counted_in loop) loop early SCancelled) s' ∧ sh_stop s' = SReturned) as Hgo.
  { intros pre (s' & Hf & Hr). exists s'. split; [by eapply Hrun|done]. }
  set (go_on := [ALoop false true; ALoop false true; ALoop false true; AStop]). destruct loop as [| | | |k| |k|ok].
  - apply (Hgo [AStop]). (eexists; split; [vm_compute; reflexivity|reflexivity]).
  - apply (Hgo (ALoop false true :: go_on)). destruct early; [eexists; split; [vm_compute; reflexivity|reflexivity]|by destruct He..].
  - destruct early as [| |k|]; [apply (Hgo go_on)|apply (Hgo go_on)|apply (Hgo (AEarly true :: go_on))|apply (Hgo go_on)]; (eexists; split; [vm_compute; reflexivity|reflexivity]).
  - destruct early as [| |k|]; [apply (Hgo (ALoop false true :: ALoop false true :: go_on))|apply (Hgo (ALoop false true :: ALoop false true :: go_on))|apply (Hgo (AEarly true :: ALoop false true :: ALoop false true :: go_on))|apply (Hgo (ALoop false true :: ALoop false true :: go_on))]; (eexists; split; [vm_compute; reflexivity|reflexivity]).
  - apply (Hgo (ALoop false true :: go_on)). destruct early; (eexists; split; [vm_compute; reflexivity|reflexivity]) || done.
  - destruct early as [| |k|]; [apply (Hgo (tail go_on))|apply (Hgo (tail go_on))|apply (Hgo (AEarly true :: tail go_on))|apply (Hgo (tail go_on))]; (eexists; split; [vm_compute; reflexivity|reflexivity]).
  - apply (Hgo (tail (tail go_on))). destruct early; (eexists; split; [vm_compute; reflexivity|reflexivity]) || done.
  - apply (Hgo [AStop]). (eexists; split; [vm_compute; reflexivity|reflexivity]).
Qed.

(** C11: The shipper of an instance runs once at a time and uploads only what is there.  When [Stop] returns, the loop has ended
    with a run that began after the database was closed, so that if it succeeded every block is uploaded, or the
    loop has not begun ([stop_misses_the_loop]).  A call of [Stop] that waits is never stuck. *)
Theorem Stop_ships blocks s : rtc sh_step (new_instance blocks) s →
  ships (sh_loop s) && early_ships (sh_early s) = false ∧ sh_uploaded s ≤ sh_local s ∧
  (∀ s', sh_go AStop s = Some s' → sh_stop s' = SReturned → sh_loop s = LStart ∨ ∃ ok, sh_loop s = LDone ok ∧ (ok = true → sh_uploaded s' = sh_local s')) ∧
  (sh_stop s = SCancelled → ∃ s', rtc sh_step s s' ∧ sh_stop s' = SReturned).
Proof.
  intros Hs. assert (sh_inv s) as Hinv.
  { assert (∀ a b, rtc sh_step a b → sh_inv a → sh_inv b) as H by (induction 1; eauto using sh_step_inv). eapply H; [exact Hs|apply new_instance_inv]. }
  split_and!; [apply Hinv|apply Hinv| |by apply stop_can_return]. intros s' Hgo Hr. cbn in Hgo. destruct (sh_stop s) eqn:Es; [injection Hgo as <-; done|injection Hgo as <-; done| |done].
  destruct (sh_wg s) eqn:Ew; [|done]. injection Hgo as <-. cbn. pose proof (si_wg _ Hinv) as Hw. rewrite Ew in Hw. destruct (sh_loop s) as [| | | | | | |ok] eqn:El; try done; [by left|right].
  exists ok. split; [done|]. intros ->. by apply (si_done _ Hinv).
Qed.

Definition sh_run (l : list actor) (s : shipping) : option shipping := foldl (λ o a, o ≫= sh_go a) (Some s) l.

Lemma sh_run_steps l : ∀ s s', sh_run l s = Some s' → rtc sh_step s s'.
Proof.
  induction l as [|a l IH]; intros s s' H; [by injection H as ->|]. cbn in H. destruct (sh_go a s) as [s1|] eqn:E; [eapply rtc_l; [by exists a|by apply IH]|].
  exfalso. clear -H. induction l; [done|auto].
Qed.

(** A run fails and one block comes before the database is closed: the last run uploads both. *)
Definition shut_down : list actor :=
  [ALoop false true; ALoop false true; AEarly true; AEarly false; ABlock; AStop; AStop; ALoop false true; ALoop false true; ALoop false true].
Definition before_return : shipping := mkShipping 2 2 true true false 0 (LDone true) EDone SCancelled.

Lemma shut_down_run : sh_run shut_down (new_instance 1) = Some before_return.
Proof. vm_compute. reflexivity. Qed.

Lemma Stop_ships_witness : ∃ s', sh_run shut_down (new_instance 1) = Some before_return ∧ sh_go AStop before_return = Some s' ∧ sh_stop s' = SReturned ∧ sh_uploaded s' = sh_local s'.
Proof.
  eexists. split; [apply shut_down_run|]. split; [reflexivity|]. split; [reflexivity|].
  destruct (Stop_ships 1 before_return) as (_ & _ & Hret & _); [eapply sh_run_steps, shut_down_run|].
  destruct (Hret _ eq_refl eq_refl) as [H|(ok & Hok & Hall)]; [discriminate H|]. apply Hall. by injection Hok as <-.
Defined.

(** [wg.Add] is in the goroutine of the loop: a [Stop] that comes first waits for nobody, and nothing is uploaded. *)
Example stop_misses_the_loop : ∃ s, sh_run [AStop; AStop; AStop] (new_instance 1) = Some s ∧ sh_stop s = SReturned ∧ sh_uploaded s = 0 ∧ sh_local s = 1.
Proof. eexists. split; [vm_compute; reflexivity|done]. Qed.

(** The first run is not waited for. *)
Example early_run_after_stop : ∃ s, sh_run [ALoop false true; ALoop false true; AStop; AStop; ALoop false true; ALoop false true; ALoop false true; AStop; AEarly true] (new_instance 1) = Some s ∧
  sh_stop s = SReturned ∧ early_ships (sh_early s) = true.
Proof. eexists. split; [vm_compute; reflexivity|done]. Qed.

(** ** Requests *)

(** The context of a request: nil, or with the tenant that was injected. *)
Definition req_ctx : Type := option (option string).

Definition DefaultTenantID : string := "anonymous".
Definition ErrNoTenantID : string := "no org id".
Definition InjectTenantID (tenantID : string) : req_ctx := Some (Some tenantID).

Section Requests.
(** What the resolver makes of a tenant; it asks the context for it, so a nil context panics. *)
Context (resolve : string → outcome string).

Definition ExtractTenantIDFromContext (ctx : req_ctx) : outcome string :=
  match ctx with
  | None => Panic
  | Some None => Fail ErrNoTenantID
  | Some (Some id) => resolve id
  end.

(** With the header of the request. *)
Definition ExtractTenantIDFromHeaders (ctx : req_ctx) (orgID : string) : string * req_ctx * option string :=
  if String.eqb orgID "" then ("", ctx, Some ErrNoTenantID)
  else match ExtractTenantIDFromContext (InjectTenantID orgID) with
       | Ret tenantID => (tenantID, InjectTenantID orgID, None)
       | Fail e => ("", None, Some e)
       | Panic => ("", None, Some "")
       end.

(** The context that the interceptor passes on. *)
Definition server_ctx (enabled : bool) (ctx : req_ctx) (orgID : string) : req_ctx :=
  if negb enabled then InjectTenantID DefaultTenantID else (ExtractTenantIDFromHeaders ctx orgID).1.2.

(** A tenant that the resolver refuses panics instead of being an invalid argument. *)
Lemma refused_tenant_panics ctx orgID e : orgID ≠ "" → resolve orgID = Fail e → ExtractTenantIDFromContext (server_ctx true ctx orgID) = Panic.
Proof. intros Hne He. unfold server_ctx, ExtractTenantIDFromHeaders. apply String.eqb_neq in Hne as ->. cbn. by rewrite He. Qed.

Context {S I : Type} (GetOrCreateInstance : string → io S I).

Definition forInstance {A} (ctx : req_ctx) (f : I → io S A) : io S A :=
  ithen (lift (ExtractTenantIDFromContext ctx))
    (λ tenantID, ithen (GetOrCreateInstance tenantID) f (λ e, ifail ("internal: " +:+ e)))
    (λ e, ifail ("invalid_argument: " +:+ e)).

(** [Push]; what the head ingests is kept when a later sample fails. *)
Context (FromBytes : list N → outcome GProfile) (uuid_Parse : string → outcome string) (Head_Ingest : I → GProfile → string → Labels → io S unit).

Definition push_sample (instance : I) (labels : Labels) (sample : RawSample) : io S unit :=
  ibind (lift (FromBytes (rw_RawProfile sample))) (λ p,
  ibind (lift (uuid_Parse (rw_ID sample))) (λ id, Head_Ingest instance p id labels)).

Definition push_all (instance : I) (series : list RawProfileSeries) : io S unit :=
  each_name (λ s, each_name (push_sample instance (rs_Labels s)) (rs_Samples s)) series.

Definition PushRequest (ctx : req_ctx) (series : list RawProfileSeries) : io S unit := forInstance ctx (λ instance, push_all instance series).

(** The samples of a request in order, with their labels. *)
Definition samples_in (series : list RawProfileSeries) : list (Labels * RawSample) := series ≫= λ s, (rs_Labels s,.) <$> rs_Samples s.

Fixpoint push_list (instance : I) (l : list (Labels * RawSample)) : io S unit :=
  match l with
  | [] => iret ()
  | (labels, sample) :: l => ibind (push_sample instance labels sample) (λ _, push_list instance l)
  end.

Lemma push_list_app instance l l' w : push_list instance (l ++ l') w = ibind (push_list instance l) (λ _, push_list instance l') w.
Proof.
  revert w. induction l as [|[labels sample] l IH]; intros w; [done|]. cbn [app push_list]. unfold ibind at 1 2 3. unfold ithen. destruct (push_sample instance labels sample w) as [[[]|e|] w1]; [|done|done].
  rewrite IH. done.
Qed.

(** A request is its samples in order. *)
Lemma push_all_list instance series : ∀ w, push_all instance series w = push_list instance (samples_in series) w.
Proof.
  unfold push_all, samples_in. induction series as [|s series IH]; intros w; [done|]. cbn [each_name mbind list_bind]. rewrite push_list_app. unfold ibind, ithen.
  assert (∀ l w, each_name (push_sample instance (rs_Labels s)) l w = push_list instance ((rs_Labels s,.) <$> l) w) as Hone.
  { induction l as [|x l IHl]; intros w'; [done|]. cbn [each_name fmap list_fmap push_list]. unfold ibind, ithen. destruct (push_sample _ _ _ w') as [[[]|e|] w1]; [apply IHl|done|done]. }
  rewrite Hone. destruct (push_list _ _ w) as [[[]|e|] w1]; [apply IH|done|done].
Qed.

(** What a push leaves: the samples before the first one that fails were ingested, and it says how that one failed. *)
Lemma push_prefix instance l : ∀ w r w', push_list instance l w = (r, w') →
  (r = Ret () ∧ ∀ labels sample, (labels, sample) ∈ l → ∃ p id, FromBytes (rw_RawProfile sample) = Ret p ∧ uuid_Parse (rw_ID sample) = Ret id) ∨
  ∃ pre labels sample post w1, l = pre ++ (labels, sample) :: post ∧ push_list instance pre w = (Ret (), w1) ∧ push_sample instance labels sample w1 = (r, w') ∧ r ≠ Ret ().
Proof.
  induction l as [|[labels sample] l IH]; intros w r w' E; [injection E as <- <-; left; split; [done|]; by intros ? ? ?%elem_of_nil|].
  cbn [push_list] in E. unfold ibind at 1, ithen in E. destruct (push_sample instance labels sample w) as [[[]|e|] w1] eqn:Es.
  - destruct (IH _ _ _ E) as [[-> Hall]|(pre & labels' & sample' & post & w2 & -> & Hpre & Hs & Hr)].
    + left. split; [done|]. intros labels' sample' [[= -> ->]|Hin]%elem_of_cons; [|by eapply Hall]. unfold push_sample, ibind, ithen, lift in Es.
      destruct (FromBytes _) as [p|e|]; [|done|done]. destruct (uuid_Parse _) as [id|e|]; [|done|done]. by exists p, id.
    + right. exists ((labels, sample) :: pre), labels', sample', post, w2. split_and!; [done| |done|done]. cbn [push_list]. unfold ibind at 1, ithen. by rewrite Es.
  - injection E as <- <-. right. exists [], labels, sample, l, w. by split_and!.
  - injection E as <- <-. right. exists [], labels, sample, l, w. by split_and!.
Qed.
End Requests.
