(* ===== verification/Agent.v ===== *)
(** * The agent (src/pkg/agent/target.go, profiles.go, config.go, agent.go)

    An agent scrapes targets that service discovery finds: their labels are completed and relabelled, the group of a job is
    brought in line with them, and each target fetches and pushes profiles in a goroutine of its own.  Libraries for labels, addresses and
    scraping are the parameters of [ScrapeLib], with what is relied on in [ScrapeLaws]. *)

From Stdlib Require Import Ascii.
From stdpp Require Import pretty.
From S2P Require Import Prelude Labels Ingester.

(** [url.Values]. *)
Abbreviation Params := (gmap string (list string)).

Definition params_Add (k v : string) (p : Params) : Params := <[k := default [] (p !! k) ++ [v]]> p.

(** [config.PprofProfilingConfig]: [Enabled] is a pointer. *)
Record PprofProfilingConfig := mkPprofConf { pc_Enabled : option bool; pc_Path : string; pc_Delta : bool }.

(** Durations in nanoseconds; [sc_Params] and [sc_Pprof] are [None] for nil maps, [sc_Relabel] stands for the rules. *)
Record ScrapeConfig := mkScrapeConfig {
  sc_JobName : string; sc_Params : option Params; sc_Interval : Z; sc_Timeout : Z; sc_Scheme : string; sc_Relabel : string;
  sc_Pprof : option (gmap string PprofProfilingConfig) }.

(** A group of targets as discovery reports it. *)
Record DGroup := mkDGroup { dg_Targets : list (gmap string string); dg_Labels : gmap string string }.

Class ScrapeLib := {
  JobLabel : string; SchemeLabel : string; AddressLabel : string; InstanceLabel : string;
  ParamLabelPrefix : string; MetaLabelPrefix : string; ProfilePath : string; ProfileName : string;
  labels_New : Labels → Labels;
  lb_Labels : Labels → list builder_op → Labels;
  relabel_Process : string → Labels → option Labels;
  SplitHostPort : string → bool;
  CheckTargetAddress : string → option string;
  value_IsValid : string → bool;
  scrape_LabelsByProfiles : Labels → option (gmap string PprofProfilingConfig) → list Labels;
  scrape_URL : Labels → Params → string;
  labels_Hash : Labels → N;
  fmt016d : N → string;
  fnv64a : string → N;
  go_range : ∀ A, gmap string A → list (string * A) }.

Arguments go_range {_ A} _.

(** ** Labels of a target *)

Section Populate.
Context `{ScrapeLib} (cfg : ScrapeConfig).

(** A builder is the labels it began with and what was done to it.  These are set first: what is missing, and the parameters. *)
Definition scrape_sets (lset : Labels) : list builder_op :=
  omap (λ '(n, v), if String.eqb (Get lset n) "" then Some (OpSet n v) else None) [(JobLabel, sc_JobName cfg); (SchemeLabel, sc_Scheme cfg)].
Definition param_sets (params : option Params) : list builder_op :=
  omap (λ '(k, vs), if vs is v :: _ then Some (OpSet (ParamLabelPrefix +:+ k) v) else None) (go_range (default ∅ params)).

Definition addPort (s : string) : bool := if SplitHostPort s then false else SplitHostPort (s +:+ ":1234").

(** The address with its port, and what that sets. *)
Definition with_port (lset : Labels) : outcome (string * list builder_op) :=
  let addr := Get lset AddressLabel in
  if addPort addr then
    let scheme := Get lset SchemeLabel in
    if String.eqb scheme "http" || String.eqb scheme "" then Ret (addr +:+ ":80", [OpSet AddressLabel (addr +:+ ":80")])
    else if String.eqb scheme "https" then Ret (addr +:+ ":443", [OpSet AddressLabel (addr +:+ ":443")])
    else Fail ("invalid scheme: " +:+ sc_Scheme cfg)
  else Ret (addr, []).

Definition meta_dels (lset : Labels) : list builder_op :=
  omap (λ l, if String.prefix MetaLabelPrefix (Name l) then Some (OpDel [Name l]) else None) lset.

(** The labels, which are absent when the target is dropped, and the labels before that. *)
Definition populateLabels (params : option Params) (lset : Labels) : outcome (option Labels * option Labels) :=
  let pre := lb_Labels lset (scrape_sets lset ++ param_sets params) in
  match relabel_Process (sc_Relabel cfg) pre with
  | None => Ret (None, Some pre)
  | Some lset =>
      if String.eqb (Get lset AddressLabel) "" then Fail "no address"
      else obind (with_port lset) (λ '(addr, port),
        match CheckTargetAddress addr with
        | Some e => Fail e
        | None =>
            let inst := if String.eqb (Get lset InstanceLabel) "" then [OpSet InstanceLabel addr] else [] in
            let res := lb_Labels lset (port ++ meta_dels lset ++ inst) in
            match List.find (λ l, negb (value_IsValid (Value l))) res with
            | Some l => Fail ("invalid label value for " +:+ Name l +:+ ": " +:+ Value l)
            | None => Ret (Some res, Some lset)
            end
        end)
  end.
End Populate.

(** ** Targets of a group *)

(** The parameters of a target: a map of its own, or the one of the configuration, which is shared by all that have it. *)
Inductive TParams := Own (p : Params) | SharedParams.

Record Target := mkTarget { ta_labels : Labels; ta_discovered : Labels; ta_params : TParams }.

Definition SetDiscoveredLabels (ls : Labels) (t : Target) : Target := mkTarget (ta_labels t) ls (ta_params t).

Section Targets.
Context `{ScrapeLib} (cfg : ScrapeConfig).

(** The map [params] holds the parameters of the configuration; it is written to while targets are made. *)
Definition own_params (params : option Params) : TParams := if params is Some _ then SharedParams else Own ∅.

Definition seconds : string := pretty (sc_Timeout cfg `quot` 1000000000 - 1)%Z.

Definition prof_type (lset : Labels) : string := foldl (λ acc l, if String.eqb (Name l) ProfileName then Value l else acc) "" lset.

Definition is_delta (lset : Labels) : bool :=
  match default ∅ (sc_Pprof cfg) !! prof_type lset with Some pcfg => pc_Delta pcfg | None => false end.

Definition add_seconds (params : option Params) : option Params * TParams :=
  match params with
  | Some p => (Some (params_Add "seconds" seconds p), SharedParams)
  | None => (None, Own (params_Add "seconds" seconds ∅))
  end.

(** The labels of a target that was dropped. *)
Definition dropped_labels (params : option Params) (lset : Labels) : Labels :=
  mkLabel AddressLabel (Get lset AddressLabel) :: mkLabel SchemeLabel (sc_Scheme cfg) :: mkLabel ProfilePath (Get lset ProfilePath) ::
  omap (λ '(k, vs), if vs is v :: _ then Some (mkLabel (ParamLabelPrefix +:+ k) v) else None) (go_range (default ∅ params)).

(** The targets and the dropped targets so far. *)
Definition Made : Type := list Target * list Target.

Definition one_lset (lset : Labels) (params : option Params) (made : Made) : option Params * outcome Made :=
  match populateLabels cfg params lset with
  | Ret (None, Some orig) => (params, Ret (made.1, made.2 ++ [mkTarget (dropped_labels params lset) orig (own_params params)]))
  | Ret (None, None) => (params, Ret made)
  | Ret (Some lbls, orig) =>
      let '(params', tp) := if is_delta lset then add_seconds params else (params, own_params params) in
      (params', Ret (made.1 ++ [mkTarget lbls (default [] orig) tp], made.2))
  | Fail e => (params, Fail e)
  | Panic => (params, Panic)
  end.

Fixpoint all_lsets (lsets : list Labels) (params : option Params) (made : Made) : option Params * outcome Made :=
  match lsets with
  | [] => (params, Ret made)
  | lset :: lsets =>
      match one_lset lset params made with
      | (params, Ret made) => all_lsets lsets params made
      | r => r
      end
  end.

(** The labels of a target of the group, one set for each profile that is scraped. *)
Definition target_lsets (g : DGroup) (tlset : gmap string string) : list Labels :=
  let lbls := go_range tlset ++ filter (λ '(ln, _), tlset !! ln = None) (go_range (dg_Labels g)) in
  scrape_LabelsByProfiles (labels_New ((λ '(n, v), mkLabel n v) <$> lbls)) (sc_Pprof cfg).

(** All of them are done with the first error. *)
Definition targetsFromGroup (g : DGroup) (params : option Params) : option Params * outcome Made :=
  all_lsets (dg_Targets g ≫= target_lsets g) params ([], []).

(** *** Bringing a group in line *)

Record TargetGroup := mkTGroup { tg_params : option Params; tg_active : gmap N Target; tg_dropped : list Target }.

(** [start] and [stop] of the target that has the hash. *)
Inductive tg_event := Started (h : N) | Stopped (h : N).

(** The hash is taken, and kept, when the target is first compared; the parameters are what they are by then. *)
Definition target_Hash (params : option Params) (t : Target) : N :=
  fnv64a (fmt016d (labels_Hash (ta_labels t)) +:+
          scrape_URL (ta_labels t) (match ta_params t with Own p => p | SharedParams => default ∅ params end)).

Fixpoint sync_groups (groups : list DGroup) (params : option Params) (actives dropped : list Target) : option Params * list Target * list Target :=
  match groups with
  | [] => (params, actives, dropped)
  | g :: groups =>
      match targetsFromGroup g params with
      | (params, Ret (ts, ds)) => sync_groups groups params (actives ++ filter (λ t, (0 <? length (ta_labels t))%nat = true) ts) (dropped ++ ds)
      | (params, _) => sync_groups groups params actives dropped
      end
  end.

Definition add_target (params : option Params) (st : gmap N Target * list tg_event) (t : Target) : gmap N Target * list tg_event :=
  let h := target_Hash params t in
  match st.1 !! h with
  | None => (<[h := t]> st.1, st.2 ++ [Started h])
  | Some old => (<[h := SetDiscoveredLabels (ta_discovered t) old]> st.1, st.2)
  end.

Definition drop_target (params : option Params) (actives : list Target) (st : gmap N Target * list tg_event) (h : N) : gmap N Target * list tg_event :=
  if existsb (λ t, (target_Hash params t =? h)%N) actives then st else (delete h st.1, st.2 ++ [Stopped h]).

(** [order] is the range over the active targets. *)
Definition tg_sync (order : gmap N Target → list N) (groups : list DGroup) (tg : TargetGroup) : TargetGroup * list tg_event :=
  let '(params, actives, dropped) := sync_groups groups (tg_params tg) [] [] in
  let '(active, evs) := foldl (add_target params) (tg_active tg, []) actives in
  let '(active, evs) := foldl (drop_target params actives) (active, evs) (order active) in
  (mkTGroup params active dropped, evs).
End Targets.

(** ** The groups of the agent *)

Section Groups.
Context `{ScrapeLib} (order : gmap N Target → list N) (cfgs : list ScrapeConfig).

Definition jobConfig (jobName : string) : ScrapeConfig :=
  default (mkScrapeConfig "" None 0 0 "" "" None) (List.find (λ c, String.eqb (sc_JobName c) jobName) cfgs).

Definition NewTargetGroup (cfg : ScrapeConfig) : TargetGroup := mkTGroup (sc_Params cfg) ∅ [].

(** What discovery sends for a job. *)
Definition update_group (st : gmap string TargetGroup * list (string * tg_event)) (u : string * list DGroup) : gmap string TargetGroup * list (string * tg_event) :=
  let '(tg, evs) := tg_sync (jobConfig u.1) order u.2 (default (NewTargetGroup (jobConfig u.1)) (st.1 !! u.1)) in
  (<[u.1 := tg]> st.1, st.2 ++ ((u.1,.) <$> evs)).

Definition update_groups (updates : list (string * list DGroup)) (groups : gmap string TargetGroup) : gmap string TargetGroup * list (string * tg_event) :=
  foldl update_group (groups, []) updates.
End Groups.

(** [ActiveTargets] and [DroppedTargets] take the read lock of every group and do not give it back; [sync] takes the lock, and
    a lock that is waited for keeps readers out. *)
Record group_lock := mkGroupLock { gl_readers : nat; gl_waiting : bool }.

Inductive lock_op := TakeRead | WantSync | DoSync.

Definition lock_go (o : lock_op) (l : group_lock) : option group_lock :=
  match o with
  | TakeRead => if gl_waiting l then None else Some (mkGroupLock (S (gl_readers l)) false)
  | WantSync => if gl_waiting l then None else Some (mkGroupLock (gl_readers l) true)
  | DoSync => if gl_waiting l && (gl_readers l =? 0)%nat then Some (mkGroupLock 0 false) else None
  end.

(** ** Scraping a target *)

Inductive Health := HEALTH_UNSPECIFIED | HEALTH_UP | HEALTH_DOWN.

Record Scraped := mkScraped {
  sd_health : Health; sd_lastError : option string; sd_lastScrape : Z; sd_lastDuration : Z; sd_size : nat; sd_req : option string }.

(** What the request for a URL gives: an error, or a status with its text, the body as far as it was read, and how reading it failed. *)
Inductive http_result := DoFailed (e : string) | Response (code : Z) (status : string) (body : list N) (readErr : option string).

Section Scrape.
Context (ProfileName : string) (NewRequest : string → option string) (Do : string → http_result) (TrimSpace : list N → string).

(** The request is made once and kept.  With the body. *)
Definition fetchProfile (url profileType : string) (req : option string) : option string * outcome (list N) :=
  match (match req with Some u => inl u | None => if NewRequest url is Some e then inr e else inl url end) with
  | inr e => (None, Fail e)
  | inl u =>
      (Some u, match Do u with
               | DoFailed e => Fail e
               | Response code status b (Some e) => Fail ("failed to read body: " +:+ e)
               | Response code status b None =>
                   if negb (Z.quot code 100 =? 2)%Z then
                     Fail ("server returned HTTP status (" +:+ pretty code +:+ ") " +:+ (if (0 <? length b)%nat then TrimSpace b else status))
                   else if (length b =? 0)%nat then Fail ("empty " +:+ profileType +:+ " profile from " +:+ u)
                   else Ret b
               end)
  end.

Definition pushed_labels (ls : Labels) : Labels :=
  filter (λ l, (String.prefix "__" (Name l) && negb (String.eqb (Name l) LabelNameMetricName)) = false) ls.

(** What is pushed: the context, the labels of the series and its only profile. *)
Definition scrape (ls : Labels) (url tenantID : string) (ctx : req_ctx) (start fetched : Z) (st : Scraped) : Scraped * option (req_ctx * Labels * list N) :=
  let profileType := if List.find (λ l, String.eqb (Name l) ProfileName) ls is Some l then Value l else "" in
  let '(req, r) := fetchProfile url profileType (sd_req st) in
  match r with
  | Ret b =>
      (mkScraped HEALTH_UP None start (fetched - start) (if (0 <? length b)%nat then length b else sd_size st) req,
       Some (if String.eqb tenantID "" then ctx else InjectTenantID tenantID, pushed_labels ls, b))
  | Fail e => (mkScraped HEALTH_DOWN (Some e) start (fetched - start) (sd_size st) req, None)
  | Panic => (st, None)
  end.
End Scrape.

(** The wait before the first scrape. *)
Definition scrape_offset (now interval : Z) (hash : N) : outcome Z :=
  if (interval =? 0)%Z then Panic
  else
    let base := Z.rem now interval in
    let off := (Z.of_N hash mod (interval mod 2 ^ 64))%Z in
    let next := i64 (base + i64 off) in
    Ret (if (interval <? next)%Z then i64 (next - interval) else next).

(** The goroutine of a target: waiting for the offset, at the top of the loop, scraping, waiting for the ticker, ended. *)
Inductive start_pc := AOffset | ATop | AScraping | ATick | AEnded.

Record scraping := mkScraping { sg_pc : start_pc; sg_cancelled : bool; sg_scrapes : nat }.

Definition sg_at (p : start_pc) (s : scraping) : scraping := mkScraping p (sg_cancelled s) (sg_scrapes s).

(** [stop], or the next operation of the goroutine, where [timer] is whether the timer or the ticker is chosen. *)
Inductive sg_actor := SgStop | SgGo (timer : bool).

Definition sg_go (a : sg_actor) (s : scraping) : option scraping :=
  match a with
  | SgStop => Some (mkScraping (sg_pc s) true (sg_scrapes s))
  | SgGo timer =>
      match sg_pc s with
      | AOffset => if timer then Some (sg_at ATop s) else if sg_cancelled s then Some (sg_at AEnded s) else None
      | ATop => Some (if sg_cancelled s then sg_at AEnded s else mkScraping AScraping false (S (sg_scrapes s)))
      | AScraping => Some (sg_at ATick s)
      | ATick => if timer || sg_cancelled s then Some (sg_at ATop s) else None
      | AEnded => None
      end
  end.

Definition start_target : scraping := mkScraping AOffset false 0.

(** ** Validation of a configuration *)

Definition pprofProcessCPU : string := "process_cpu".

(** A default profile type, with what the configuration says of it. *)
Definition merge_pprof (mine : gmap string PprofProfilingConfig) (pt : string) (pc : PprofProfilingConfig) : gmap string PprofProfilingConfig :=
  match mine !! pt with
  | None => <[pt := pc]> mine
  | Some c => <[pt := mkPprofConf (Some (default true (pc_Enabled c))) (if String.eqb (pc_Path c) "" then pc_Path pc else pc_Path c) (pc_Delta c)]> mine
  end.

(** What is missing is taken from the defaults. *)
Definition with_defaults (d c : ScrapeConfig) : ScrapeConfig :=
  mkScrapeConfig (sc_JobName c) (sc_Params c)
    (if (sc_Interval c =? 0)%Z then sc_Interval d else sc_Interval c)
    (if (sc_Timeout c =? 0)%Z then sc_Timeout d else sc_Timeout c)
    (if String.eqb (sc_Scheme c) "" then sc_Scheme d else sc_Scheme c) (sc_Relabel c)
    (match sc_Pprof c with
     | None => sc_Pprof d
     | Some mine => Some (map_fold (λ pt pc m, merge_pprof m pt pc) mine (default ∅ (sc_Pprof d)))
     end).

Definition with_timeout (timeout : Z) (c : ScrapeConfig) : ScrapeConfig :=
  mkScrapeConfig (sc_JobName c) (sc_Params c) (sc_Interval c) timeout (sc_Scheme c) (sc_Relabel c) (sc_Pprof c).

(** The configuration is changed in place, also when it is refused. *)
Definition Validate (d c : ScrapeConfig) : ScrapeConfig * outcome unit :=
  let c := with_defaults d c in
  if String.eqb (sc_JobName c) "" then (c, Fail "job_name is empty")
  else if (sc_Interval c <? sc_Timeout c)%Z then (c, Fail ("scrape timeout must be larger or equal to inverval for: " +:+ sc_JobName c))
  else
    let c := if (sc_Timeout c =? 0)%Z then with_timeout (sc_Interval c) c else c in
    match default ∅ (sc_Pprof c) !! pprofProcessCPU with
    | None => (c, Ret ())
    | Some cfg =>
        match pc_Enabled cfg with
        | None => (c, Panic)
        | Some enabled =>
            if enabled && (sc_Timeout c <? 2000000000)%Z then
              (c, Fail (pprofProcessCPU +:+ " scrape_timeout must be at least 2 seconds in " +:+ sc_JobName c))
            else (c, Ret ())
        end
    end.

(** ** Laws *)

(** What is relied on in the libraries: labels are got as they were set, and relabelling gives a set of labels. *)
Class ScrapeLaws `{ScrapeLib} := {
  lb_Labels_Get bs os n : NoDup (names bs) → Get (lb_Labels bs os) n = foldl spec_op (Get bs) os n;
  relabel_names rules ls ls' : relabel_Process rules ls = Some ls' → NoDup (names ls');
  address_kept : String.prefix MetaLabelPrefix AddressLabel = false;
  instance_kept : String.prefix MetaLabelPrefix InstanceLabel = false;
  address_instance : AddressLabel ≠ InstanceLabel;
  range_perm A (m : gmap string A) : go_range m ≡ₚ map_to_list m }.

Lemma foldl_spec_dels P ls (f : string → string) n :
  foldl spec_op f (omap (λ l, if (P (Name l) : bool) then Some (OpDel [Name l]) else None) ls) n = if bool_decide (n ∈ names ls) && P n then "" else f n.
Proof.
  revert f. induction ls as [|l ls IH]; intros f; [done|]. cbn [omap list_omap]. change (names (l :: ls)) with (Name l :: names ls). destruct (P (Name l)) eqn:E; cbn [foldl]; rewrite IH.
  - cbn [spec_op]. destruct (decide (n = Name l)) as [->|Hne].
    + rewrite (bool_decide_eq_true_2 (Name l ∈ Name l :: _)), E, decide_True by set_solver. rewrite !andb_true_r. cbn. by case_bool_decide.
    + rewrite decide_False by set_solver. replace (bool_decide (n ∈ Name l :: names ls)) with (bool_decide (n ∈ names ls)); [done|]. apply bool_decide_ext. set_solver.
  - destruct (decide (n = Name l)) as [->|Hne]; [by rewrite E, !andb_false_r|].
    replace (bool_decide (n ∈ Name l :: names ls)) with (bool_decide (n ∈ names ls)); [done|]. apply bool_decide_ext. set_solver.
Qed.

Section PopulateTheorems.
Context `{ScrapeLaws} (cfg : ScrapeConfig).

(** Labels that begin with the prefix of meta labels. *)
Abbreviation is_meta n := (String.prefix MetaLabelPrefix n).

Lemma with_port_sets lset addr port : with_port cfg lset = Ret (addr, port) → ∀ f n, foldl spec_op f port n = if decide (n = AddressLabel ∧ addr ≠ Get lset AddressLabel) then addr else f n.
Proof.
  unfold with_port. assert (∀ s : string, String.length s > 0 → Get lset AddressLabel +:+ s ≠ Get lset AddressLabel) as Hne.
  { intros s Hs He. apply (f_equal String.length) in He. rewrite str_length_app in He. lia. }
  pose proof (Hne ":80" ltac:(cbn; lia)) as H80. pose proof (Hne ":443" ltac:(cbn; lia)) as H443. clear Hne.
  destruct (addPort _); [destruct (_ || _); [|destruct (String.eqb _ "https")]|]; intros [= <- <-]; intros f n; cbn [foldl spec_op]; try destruct (decide (n = AddressLabel));
    ((rewrite decide_True by tauto) || (rewrite decide_False by tauto)); done.
Qed.

(** What a target gets: of what relabelling left, the meta labels are gone, the address has its port, and the instance is the address if there is none. *)
Lemma populate_found params lset res lset' : populateLabels cfg params lset = Ret (Some res, Some lset') →
  relabel_Process (sc_Relabel cfg) (lb_Labels lset (scrape_sets cfg lset ++ param_sets params)) = Some lset' ∧
  Forall (λ l, value_IsValid (Value l) = true) res ∧
  ∃ addr, CheckTargetAddress addr = None ∧ addr ∈ [Get lset' AddressLabel; Get lset' AddressLabel +:+ ":80"; Get lset' AddressLabel +:+ ":443"] ∧ Get lset' AddressLabel ≠ "" ∧
  ∀ n, Get res n = if decide (n = AddressLabel) then addr
                   else if decide (n = InstanceLabel) then (if String.eqb (Get lset' n) "" then addr else Get lset' n)
                   else if is_meta n then "" else Get lset' n.
Proof.
  unfold populateLabels. intros Hp. destruct (relabel_Process _ _) as [ls|] eqn:Er; [|done]. pose proof (relabel_names _ _ _ Er) as Hnd.
  destruct (String.eqb_spec (Get ls AddressLabel) "") as [|Ha]; [done|]. destruct (with_port cfg ls) as [[addr port]|e|] eqn:Ew; [|done|done]. cbn [obind] in Hp.
  destruct (CheckTargetAddress addr) eqn:Ec; [done|]. destruct (List.find _ _) eqn:Ef; [done|]. injection Hp as <- <-. split; [done|]. split.
  { apply Forall_forall. intros l Hl%list_elem_of_In. apply (List.find_none _ _ Ef l) in Hl. by apply negb_false_iff. }
  exists addr. split; [done|]. split. { unfold with_port in Ew. destruct (addPort _); [destruct (_ || _); [|destruct (String.eqb _ "https"); [|done]]|]; injection Ew as <- _; set_solver. }
  split; [done|]. intros n. rewrite lb_Labels_Get, !foldl_app by done. pose proof address_kept as Hak. pose proof instance_kept as Hik. pose proof address_instance as Hai.
  assert (∀ f, foldl spec_op f (if String.eqb (Get ls InstanceLabel) "" then [OpSet InstanceLabel addr] else []) n = if decide (n = InstanceLabel ∧ Get ls InstanceLabel = "") then addr else f n) as Hinst.
  { intros f. destruct (String.eqb_spec (Get ls InstanceLabel) ""); cbn; repeat case_decide; naive_solver. }
  rewrite Hinst. unfold meta_dels. rewrite (foldl_spec_dels (λ n, is_meta n)), (with_port_sets _ _ _ Ew).
  destruct (decide (n = AddressLabel)) as [->|Hna].
  - rewrite decide_False by naive_solver. rewrite Hak, andb_false_r. destruct (decide (addr = Get ls AddressLabel)) as [He|He]; [by rewrite decide_False by tauto|by rewrite decide_True].
  - destruct (decide (n = InstanceLabel)) as [->|Hni].
    + rewrite Hik, andb_false_r. destruct (String.eqb_spec (Get ls InstanceLabel) ""); [rewrite decide_True by done|rewrite decide_False by naive_solver]; [done|]. by rewrite decide_False by naive_solver.
    + rewrite !decide_False by naive_solver. destruct (is_meta n) eqn:Em; [|by rewrite andb_false_r]. case_bool_decide as Hin; cbn; [done|]. by apply Get_not_elem_of.
Qed.
End PopulateTheorems.

(** ** Sync *)

(** What the targets with one hash make of the one that is active. *)
Definition touch (o : option Target) (t : Target) : option Target :=
  Some (if o is Some old then SetDiscoveredLabels (ta_discovered t) old else t).

(** The hashes that have a goroutine. *)
Definition replay (running : gset N) (e : tg_event) : gset N :=
  match e with Started h => {[ h ]} ∪ running | Stopped h => running ∖ {[ h ]} end.

Lemma lookup_insert_Some_or {A} (m : gmap N A) h h' a : <[h := a]> m !! h' = if decide (h = h') then Some a else m !! h'.
Proof. destruct (decide _) as [<-|]; [by rewrite lookup_insert_eq|by rewrite lookup_insert_ne]. Qed.

Section SyncTheorems.
Context `{ScrapeLib} (params : option Params).

(** The targets that have a hash. *)
Definition hits (h : N) (ts : list Target) : list Target := filter (λ t, target_Hash params t = h) ts.

Lemma hits_app h ts t : hits h (ts ++ [t]) = hits h ts ++ (if decide (target_Hash params t = h) then [t] else []).
Proof. unfold hits. rewrite filter_app. by destruct (decide _) as [E|E]; [rewrite filter_cons_True|rewrite filter_cons_False]. Qed.

Lemma touch_some o ts : is_Some (foldl touch o ts) ↔ is_Some o ∨ ts ≠ [].
Proof. revert o. induction ts as [|t ts IH]; intros o; cbn; [naive_solver|]. rewrite IH. unfold touch. split; [by right|]. intros _. left. by eexists. Qed.

(** What a part of the work that began with the targets [m] has done: the targets now, and the operations so far. *)
Record worked (m : gmap N Target) (st : gmap N Target * list tg_event) : Prop := {
  wk_nodup : NoDup st.2;
  wk_running : foldl replay (dom m) st.2 = dom st.1 }.

Lemma worked_none m : worked m (m, []).
Proof. by split; [constructor|]. Qed.

Lemma worked_start m st h t : worked m st → st.1 !! h = None → Started h ∉ st.2 → worked m (<[h := t]> st.1, st.2 ++ [Started h]).
Proof.
  intros [W1 W2] Hn Hnot. split; cbn.
  - apply NoDup_app. split_and!; [done| |apply NoDup_singleton]. by intros e He ->%list_elem_of_singleton.
  - rewrite foldl_app, W2. cbn. by rewrite dom_insert_L.
Qed.

Lemma worked_set m st h t : worked m st → is_Some (st.1 !! h) → worked m (<[h := t]> st.1, st.2).
Proof. intros [W1 W2] Hh. split; cbn; [done|]. rewrite W2, dom_insert_L. apply elem_of_dom in Hh. set_solver. Qed.

Lemma worked_stop m st h : worked m st → Stopped h ∉ st.2 → worked m (delete h st.1, st.2 ++ [Stopped h]).
Proof.
  intros [W1 W2] Hnot. split; cbn.
  - apply NoDup_app. split_and!; [done| |apply NoDup_singleton]. by intros e He ->%list_elem_of_singleton.
  - rewrite foldl_app, W2. cbn. by rewrite dom_delete_L.
Qed.

Record targets_added (m : gmap N Target) (ts : list Target) (st : gmap N Target * list tg_event) : Prop := {
  ad_worked : worked m st;
  ad_active h : st.1 !! h = foldl touch (m !! h) (hits h ts);
  ad_started h : Started h ∈ st.2 ↔ m !! h = None ∧ hits h ts ≠ [];
  ad_stopped h : Stopped h ∉ st.2 }.

Lemma add_targets m ts : targets_added m ts (foldl (add_target params) (m, []) ts).
Proof.
  induction ts as [|t ts IH] using rev_ind.
  { split; cbn; [apply worked_none|done| |]; intros h; rewrite elem_of_nil; naive_solver. }
  rewrite foldl_app. cbn [foldl]. set (st := foldl _ _ _) in *. destruct IH as [A1 A2 A3 A4]. unfold add_target. set (h := target_Hash params t).
  assert (∀ h', hits h' (ts ++ [t]) ≠ [] ↔ hits h' ts ≠ [] ∨ h' = h) as Hhits.
  { intros h'. rewrite hits_app. destruct (decide _) as [E|E]; destruct (hits h' ts); cbn; naive_solver. }
  destruct (st.1 !! h) as [old|] eqn:Eh.
  - assert (is_Some (m !! h) ∨ hits h ts ≠ []) as Hk by (apply touch_some; rewrite <- A2, Eh; by eexists). split; cbn.
    + apply worked_set; [done|by eexists].
    + intros h'. rewrite hits_app, foldl_app, lookup_insert_Some_or, <- A2. fold h. destruct (decide (h = h')) as [<-|]; [by rewrite Eh|done].
    + intros h'. rewrite A3, Hhits. split; [naive_solver|]. intros [Hn [?| ->]]; [done|]. split; [done|]. destruct Hk as [[? Hk]|]; [by rewrite Hn in Hk|done].
    + done.
  - assert (¬ (is_Some (m !! h) ∨ hits h ts ≠ [])) as Hk by (rewrite <- touch_some, <- A2, Eh; by intros []). split; cbn.
    + apply worked_start; [done|done|]. rewrite A3. tauto.
    + intros h'. rewrite hits_app, foldl_app, lookup_insert_Some_or, <- A2. fold h. destruct (decide (h = h')) as [<-|]; [by rewrite Eh|done].
    + intros h'. rewrite elem_of_app, list_elem_of_singleton, A3, Hhits. split; [intros [?|[= ->]]|naive_solver]; [naive_solver|]. split; [|by right]. destruct (m !! h) eqn:E; [|done]. exfalso. apply Hk. left. by eexists.
    + intros h'. rewrite elem_of_app, list_elem_of_singleton. intros [Hs|Hs]; [by eapply A4|done].
Qed.

Lemma existsb_hits h ts : existsb (λ t, (target_Hash params t =? h)%N) ts = bool_decide (hits h ts ≠ []).
Proof.
  induction ts as [|t ts IH]; [done|]. cbn [existsb]. rewrite IH. unfold hits. rewrite filter_cons. destruct (N.eqb_spec (target_Hash params t) h) as [E|E].
  - by rewrite decide_True.
  - by rewrite decide_False.
Qed.

Lemma drop_targets m actives hs : ∀ st, worked m st → NoDup hs → (∀ h, h ∈ hs → Stopped h ∉ st.2) →
  let st' := foldl (drop_target params actives) st hs in
  worked m st' ∧ (∀ h, st'.1 !! h = if decide (h ∈ hs ∧ hits h actives = []) then None else st.1 !! h) ∧
  (∀ h, Stopped h ∈ st'.2 ↔ Stopped h ∈ st.2 ∨ h ∈ hs ∧ hits h actives = []) ∧ (∀ h, Started h ∈ st'.2 ↔ Started h ∈ st.2).
Proof.
  induction hs as [|h hs IH]; intros st Hw Hnd Hfresh; cbn.
  { split_and!; [done| | |done]; intros h; [rewrite decide_False by set_solver; done|set_solver]. }
  apply NoDup_cons in Hnd as [Hh Hnd]. unfold drop_target at 2 4 6 8. rewrite existsb_hits. case_bool_decide as He.
  - destruct (IH st Hw Hnd) as (I1 & I2 & I3 & I4); [set_solver|]. split_and!; [done| | |done]; intros h'.
    + rewrite I2. destruct (decide (h' ∈ hs ∧ _)) as [[]|Hn]; [by rewrite decide_True by set_solver|]. rewrite decide_False; [done|]. intros [[->|]%elem_of_cons ?]; tauto.
    + rewrite I3. set_solver.
  - destruct (IH (delete h st.1, st.2 ++ [Stopped h])) as (I1 & I2 & I3 & I4); [apply worked_stop; [done|set_solver]|done|cbn; set_solver|].
    split_and!; [done| | |]; intros h'.
    + rewrite I2. cbn. destruct (decide (h' = h)) as [->|Hne]; [rewrite lookup_delete_eq, (decide_True (P := h ∈ h :: hs ∧ _)) by set_solver; by destruct (decide _)|].
      rewrite lookup_delete_ne by done. destruct (decide (h' ∈ hs ∧ _)) as [[]|Hn]; [by rewrite decide_True by set_solver|]. rewrite decide_False; [done|]. intros [[->|]%elem_of_cons ?]; tauto.
    + rewrite I3. cbn. rewrite elem_of_app, list_elem_of_singleton. set_solver.
    + rewrite I4. cbn. set_solver.
Qed.
End SyncTheorems.

(** C26: [sync] brings the active targets in line with what discovery reports.  A hash is active exactly if a target that was found has
    it; the target that was active before stays, with the labels discovered last, and otherwise it is the first one found; exactly the new
    ones are started and exactly those that have gone are stopped, once, so that after every sync each active target has a goroutine and
    nobody else has. *)
Theorem tg_sync_correct `{ScrapeLib} cfg order groups tg : (∀ m, order m ≡ₚ (map_to_list m).*1) →
  let '(params, actives, dropped) := sync_groups cfg groups (tg_params tg) [] [] in
  let '(tg', evs) := tg_sync cfg order groups tg in
  tg_params tg' = params ∧ tg_dropped tg' = dropped ∧
  (∀ h, tg_active tg' !! h = if decide (hits params h actives = []) then None else foldl touch (tg_active tg !! h) (hits params h actives)) ∧
  (∀ h, Started h ∈ evs ↔ tg_active tg !! h = None ∧ hits params h actives ≠ []) ∧
  (∀ h, Stopped h ∈ evs ↔ is_Some (tg_active tg !! h) ∧ hits params h actives = []) ∧
  NoDup evs ∧ foldl replay (dom (tg_active tg)) evs = dom (tg_active tg').
Proof.
  intros Hr. unfold tg_sync. destruct (sync_groups _ _ _ _ _) as [[params actives] dropped]. destruct (add_targets params (tg_active tg) actives) as [A1 A2 A3 A4].
  destruct (foldl (add_target params) _ _) as [active evs]. cbn [fst snd] in *.
  assert (∀ h, h ∈ order active ↔ is_Some (active !! h)) as Hin.
  { intros h. rewrite Hr, list_elem_of_fmap. split; [intros ([k t] & -> & Ht%elem_of_map_to_list); by eexists|]. intros [t Ht]. exists (h, t). split; [done|]. by apply elem_of_map_to_list. }
  destruct (drop_targets params (tg_active tg) actives (order active) (active, evs) A1) as (D1 & D2 & D3 & D4); [rewrite Hr; apply NoDup_fst_map_to_list|intros h _; apply A4|].
  destruct (foldl (drop_target params actives) _ _) as [active' evs']. cbn [fst snd tg_params tg_active tg_dropped] in *. destruct D1 as [W1 W2]. split_and!; [done|done| | | |done|done]; intros h.
  - rewrite D2. destruct (decide (h ∈ order active ∧ _)) as [[_ E]|Hn]; [by rewrite decide_True|]. destruct (decide (hits params h actives = [])) as [E|E]; [|apply A2].
    apply eq_None_not_Some. intros Ha. by apply Hn; rewrite Hin.
  - by rewrite D4, A3.
  - rewrite D3, Hin, A2. split; [intros [Hs|[Hs E]]|intros [Hs E]; right].
    + by destruct (A4 h).
    + rewrite E in Hs. done.
    + rewrite E. done.
Qed.

(** ** A small library *)

(** Labels with the names that were there or set, in that order. *)
Definition op_names (os : list builder_op) : list string := omap (λ o, if o is OpSet n _ then Some n else None) os.
Definition small_Labels (bs : Labels) (os : list builder_op) : Labels :=
  filter (λ l, Value l ≠ "") ((λ n, mkLabel n (foldl spec_op (Get bs) os n)) <$> remove_dups (names bs ++ op_names os)).

(** Strings as numbers in base 256. *)
Definition number_of (s : string) : N := foldl (λ n a, n * 256 + Ascii.N_of_ascii a)%N 1%N (String.list_ascii_of_string s).

Definition flat_params (p : Params) : string := foldr (λ '(k, vs) acc, foldr (λ v acc, "&" +:+ k +:+ "=" +:+ v +:+ acc) acc vs) "" (map_to_list p).

(** Every profile type that is enabled is scraped; what has no address is dropped. *)
#[export] Instance small_lib : ScrapeLib := {|
  JobLabel := "job"; SchemeLabel := "__scheme__"; AddressLabel := "__address__"; InstanceLabel := "instance";
  ParamLabelPrefix := "__param_"; MetaLabelPrefix := "__meta_"; ProfilePath := "__profile_path__"; ProfileName := "__name__";
  labels_New := id; lb_Labels := small_Labels;
  relabel_Process := λ _ ls, if String.eqb (Get ls "__address__") "" then None else Some (small_Labels ls []);
  SplitHostPort := λ s, bool_decide (Ascii.ascii_of_nat 58 ∈ String.list_ascii_of_string s);
  CheckTargetAddress := λ s, if bool_decide (Ascii.ascii_of_nat 47 ∈ String.list_ascii_of_string s) then Some "not a valid hostname" else None;
  value_IsValid := λ _, true;
  scrape_LabelsByProfiles := λ ls pcs, (λ '(pt, pc), ls ++ [mkLabel "__profile_path__" (pc_Path pc); mkLabel "__name__" pt]) <$> map_to_list (default ∅ pcs);
  scrape_URL := λ ls p, Get ls "__address__" +:+ Get ls "__profile_path__" +:+ flat_params p;
  labels_Hash := λ ls, number_of (encode_labels ls); fmt016d := λ _, ""; fnv64a := number_of;
  go_range := λ A, map_to_list |}.

Lemma foldl_spec_none os n (f : string → string) : n ∉ op_names os → f n = "" → foldl spec_op f os n = "".
Proof.
  revert f. induction os as [|o os IH]; intros f Hn Hf; [done|]. destruct o as [m v|ms]; cbn in Hn |- *.
  - apply not_elem_of_cons in Hn as [Hne Hn]. apply IH; [done|]. by rewrite decide_False.
  - apply IH; [done|]. by destruct (decide _).
Qed.

Lemma small_names bs os : NoDup (names (small_Labels bs os)).
Proof.
  apply NoDup_names_filter. unfold names. rewrite <- list_fmap_compose. rewrite (list_fmap_ext _ id); [rewrite list_fmap_id; apply NoDup_remove_dups|done].
Qed.

Lemma small_Get bs os n : Get (small_Labels bs os) n = foldl spec_op (Get bs) os n.
Proof.
  destruct (decide (n ∈ names (small_Labels bs os))) as [Hin|Hin].
  - unfold names in Hin. apply list_elem_of_fmap in Hin as (l & -> & Hl). rewrite (Get_elem_of _ l); [|apply small_names|done].
    unfold small_Labels in Hl. apply list_elem_of_filter in Hl as [_ (m & -> & _)%list_elem_of_fmap]. done.
  - rewrite Get_not_elem_of by done. destruct (decide (foldl spec_op (Get bs) os n = "")) as [|Hne]; [done|]. destruct Hin. unfold names, small_Labels.
    apply list_elem_of_fmap. exists (mkLabel n (foldl spec_op (Get bs) os n)). split; [done|]. apply list_elem_of_filter. split; [done|]. apply list_elem_of_fmap. exists n. split; [done|].
    apply elem_of_remove_dups, elem_of_app. destruct (decide (n ∈ op_names os)) as [|Ho]; [by right|]. left. destruct (decide (n ∈ names bs)) as [|Hb]; [done|].
    destruct Hne. apply foldl_spec_none; [done|]. by apply Get_not_elem_of.
Qed.

#[export] Instance small_laws : ScrapeLaws.
Proof.
  split; [|intros rules ls ls' Hr|done|done|done|done].
  - intros bs os n _. apply small_Get.
  - cbn in Hr. destruct (String.eqb _ _); [done|]. injection Hr as <-. apply small_names.
Qed.

(** A job with CPU profiles, which are of a duration, and memory profiles. *)
Definition example_job (params : option Params) : ScrapeConfig :=
  mkScrapeConfig "app" params 15000000000 10000000000 "http" ""
    (Some {[ "process_cpu" := mkPprofConf (Some true) "/cpu" true; "memory" := mkPprofConf (Some true) "/heap" false ]}).
Definition example_dgroups : list DGroup := [mkDGroup [{[ "__address__" := "a"; "__meta_pod" := "p" ]}; {[ "pod" := "q" ]}] {[ "env" := "dev" ]}].
Definition by_hash (m : gmap N Target) : list N := (map_to_list m).*1.

(** How many targets are active and dropped after two syncs with the same groups, and what each of them starts and stops. *)
Definition two_syncs (params : option Params) : nat * nat * list (nat * nat) :=
  let s1 := tg_sync (example_job params) by_hash example_dgroups (NewTargetGroup (example_job params)) in
  let s2 := tg_sync (example_job params) by_hash example_dgroups s1.1 in
  let count evs := (length (omap (λ e, if e is Started h then Some h else None) evs), length (omap (λ e, if e is Stopped h then Some h else None) evs)) in
  (size (tg_active s2.1), length (tg_dropped s2.1), [count s1.2; count s2.2]).

(** The parameters are shared: each sync adds the seconds of a CPU profile to the map of the configuration once more, so that
    nothing keeps its hash and all targets are replaced; without parameters nothing happens. *)
Example targets_replaced : two_syncs None = (2, 2, [(2, 0); (0, 0)]) ∧ two_syncs (Some {["a" := ["b"]]}) = (2, 2, [(2, 0); (2, 2)]).
Proof. vm_compute. done. Qed.

Lemma tg_sync_correct_witness : ∃ tg evs, tg_sync (example_job None) by_hash example_dgroups (NewTargetGroup (example_job None)) = (tg, evs) ∧
  size (tg_active tg) = 2 ∧ length evs = 2 ∧ foldl replay ∅ evs = dom (tg_active tg).
Proof.
  pose proof (tg_sync_correct (example_job None) by_hash example_dgroups (NewTargetGroup (example_job None)) (λ m, reflexivity _)) as Hc.
  destruct (sync_groups _ _ _ _ _) as [[params actives] dropped]. destruct (tg_sync _ _ _ _) as [tg evs] eqn:E. exists tg, evs. split; [reflexivity|].
  destruct Hc as (_ & _ & _ & _ & _ & _ & Hr). assert (size (tg_active tg) = 2 ∧ length evs = 2) as [Hs Hl] by (split; [change tg with (tg, evs).1|change evs with (tg, evs).2]; rewrite <- E; vm_compute; reflexivity).
  split; [exact Hs|]. split; [exact Hl|exact Hr].
Defined.

(** What targets do to the parameters of the configuration: nothing if there are none, and otherwise the seconds are added some number of times,
    not at all if no profile is of a duration. *)
Definition params_grown `{ScrapeLib} cfg (lsets : list Labels) (params params' : option Params) : Prop :=
  match params, params' with
  | None, None => True
  | Some p, Some p' => ∃ k, p' = Nat.iter k (params_Add "seconds" (seconds cfg)) p ∧ ((∀ lset, lset ∈ lsets → is_delta cfg lset = false) → k = 0)
  | _, _ => False
  end.

Lemma one_lset_params `{ScrapeLib} cfg lset params made : params_grown cfg [lset] params (one_lset cfg lset params made).1.
Proof.
  assert (params_grown cfg [lset] params params) as Hsame by (destruct params as [p|]; [by exists 0|done]).
  unfold one_lset. destruct (populateLabels cfg params lset) as [[[ls|] [orig|]]|e|]; try exact Hsame; destruct (is_delta cfg lset) eqn:Ed; try exact Hsame;
    (destruct params as [p|]; [|done]); exists 1; (split; [done|]); intros Hall; rewrite (Hall lset) in Ed by set_solver; done.
Qed.

Lemma grown_more `{ScrapeLib} cfg lset lsets params1 params2 params3 : params_grown cfg [lset] params1 params2 → params_grown cfg lsets params2 params3 → params_grown cfg (lset :: lsets) params1 params3.
Proof.
  destruct params1 as [p1|], params2 as [p2|], params3 as [p3|]; try done. intros (k & -> & Hk) (k' & -> & Hk'). exists (k' + k). split; [by rewrite Nat.iter_add|].
  intros Hall. rewrite Hk, Hk'; [done| |]; intros; apply Hall; set_solver.
Qed.

Lemma grown_nil `{ScrapeLib} cfg lsets params : params_grown cfg lsets params params.
Proof. destruct params as [p|]; [by exists 0|done]. Qed.

Lemma all_lsets_params `{ScrapeLib} cfg lsets : ∀ params made, params_grown cfg lsets params (all_lsets cfg lsets params made).1.
Proof.
  induction lsets as [|lset lsets IH]; intros params made; cbn [all_lsets]; [apply grown_nil|]. pose proof (one_lset_params cfg lset params made) as Hone.
  destruct (one_lset cfg lset params made) as [params' [made'|e|]]; (eapply grown_more; [exact Hone|]); [apply IH|apply grown_nil..].
Qed.

(** The labels of a target.  It is dropped exactly when relabelling drops it, and then what it had before is reported; it is refused when there is no address,
    when the scheme of an address without port is unknown, when the address is not valid or when a value is not; and otherwise it has what
    relabelling left, without meta labels, with a port in the address, and with the address for an instance if there was none. *)
Theorem populateLabels_correct `{ScrapeLaws} cfg params lset :
  let pre := lb_Labels lset (scrape_sets cfg lset ++ param_sets params) in
  match populateLabels cfg params lset with
  | Ret (None, orig) => orig = Some pre ∧ relabel_Process (sc_Relabel cfg) pre = None
  | Ret (Some res, orig) =>
      ∃ lset' addr, orig = Some lset' ∧ relabel_Process (sc_Relabel cfg) pre = Some lset' ∧
        Forall (λ l, value_IsValid (Value l) = true) res ∧
        CheckTargetAddress addr = None ∧ addr ∈ [Get lset' AddressLabel; Get lset' AddressLabel +:+ ":80"; Get lset' AddressLabel +:+ ":443"] ∧ Get lset' AddressLabel ≠ "" ∧
        ∀ n, Get res n = if decide (n = AddressLabel) then addr
                         else if decide (n = InstanceLabel) then (if String.eqb (Get lset' n) "" then addr else Get lset' n)
                         else if String.prefix MetaLabelPrefix n then "" else Get lset' n
  | Fail _ =>
      ∃ lset', relabel_Process (sc_Relabel cfg) pre = Some lset' ∧
        (Get lset' AddressLabel = "" ∨
         addPort (Get lset' AddressLabel) = true ∧ Get lset' SchemeLabel ∉ ["http"; "https"; ""] ∨
         (∃ addr port e, with_port cfg lset' = Ret (addr, port) ∧ CheckTargetAddress addr = Some e) ∨
         ∃ os l, l ∈ lb_Labels lset' os ∧ value_IsValid (Value l) = false)
  | Panic => False
  end.
Proof.
  cbn zeta. destruct (populateLabels cfg params lset) as [[[res|] orig]|e|] eqn:E.
  - assert (∃ lset', orig = Some lset') as [lset' ->].
    { unfold populateLabels in E. destruct (relabel_Process _ _); [|done]. destruct (String.eqb _ _); [done|]. destruct (with_port _ _) as [[]| |]; [|done|done]. cbn in E. destruct (CheckTargetAddress _); [done|].
      destruct (List.find _ _); [done|]. injection E as <- <-. by eexists. }
    destruct (populate_found cfg _ _ _ _ E) as (Hr & Hv & addr & Hc & Hin & Hne & Hg). by exists lset', addr.
  - unfold populateLabels in E. destruct (relabel_Process _ _) as [ls|]; [|by injection E as <-]. destruct (String.eqb _ _); [done|]. destruct (with_port _ _) as [[]| |]; [|done|done]. cbn in E.
    destruct (CheckTargetAddress _); [done|]. by destruct (List.find _ _).
  - unfold populateLabels in E. destruct (relabel_Process _ _) as [ls|]; [|done]. exists ls. split; [done|]. destruct (String.eqb_spec (Get ls AddressLabel) ""); [by left|right].
    destruct (with_port cfg ls) as [[addr port]|e'|] eqn:Ew; [right| |done].
    + cbn in E. destruct (CheckTargetAddress addr) eqn:Ec; [left; by exists addr, port, s|right]. destruct (List.find _ _) as [l|] eqn:Ef; [|done].
      apply List.find_some in Ef as [Hin%list_elem_of_In Hv%negb_true_iff]. by eexists _, l.
    + left. unfold with_port in Ew. destruct (addPort _); [|done]. split; [done|]. destruct (String.eqb_spec (Get ls SchemeLabel) "http"); [done|]. destruct (String.eqb_spec (Get ls SchemeLabel) ""); [done|].
      cbn in Ew. destruct (String.eqb_spec (Get ls SchemeLabel) "https"); [done|]. set_solver.
  - unfold populateLabels in E. destruct (relabel_Process _ _) as [ls|]; [|done]. destruct (String.eqb _ _); [done|]. unfold with_port in E.
    destruct (addPort _); [destruct (_ || _); [|destruct (String.eqb _ "https")]|]; cbn in E; try done; destruct (CheckTargetAddress _); try done; by destruct (List.find _ _).
Qed.

Lemma populateLabels_correct_witness : ∃ res orig, populateLabels (example_job None) None [mkLabel "__address__" "a"; mkLabel "__meta_pod" "p"] = Ret (Some res, Some orig) ∧
  Get res "__address__" = "a:80" ∧ Get res "instance" = "a:80" ∧ Get res "job" = "app" ∧ Get res "__meta_pod" = "" ∧ Forall (λ l, value_IsValid (Value l) = true) res.
Proof.
  pose proof (populateLabels_correct (example_job None) None [mkLabel "__address__" "a"; mkLabel "__meta_pod" "p"]) as Hp. cbn zeta in Hp.
  destruct (populateLabels _ _ _) as [[[res|] [orig|]]|e|] eqn:E; try (vm_compute in E; discriminate E). exists res, orig. split; [done|]. destruct Hp as (lset' & addr & _ & _ & Hv & _).
  assert (Get res "__address__" = "a:80" ∧ Get res "instance" = "a:80" ∧ Get res "job" = "app" ∧ Get res "__meta_pod" = "") as (? & ? & ? & ?) by (vm_compute in E; injection E as <- _; vm_compute; done).
  by split_and!.
Defined.

(** ** Scraping *)

(** A scrape that gets a whole, not empty body with a status of success pushes it, with the labels that are not private; any other
    pushes nothing and keeps the error. *)
Lemma scrape_correct ProfileName NewRequest Do TrimSpace ls url tenantID ctx start fetched st :
  let '(st', push) := scrape ProfileName NewRequest Do TrimSpace ls url tenantID ctx start fetched st in
  sd_lastScrape st' = start ∧ sd_lastDuration st' = (fetched - start)%Z ∧
  match push with
  | Some (ctx', pushed, b) =>
      sd_health st' = HEALTH_UP ∧ sd_lastError st' = None ∧ b ≠ [] ∧ sd_size st' = length b ∧
      (∃ u code status, sd_req st' = Some u ∧ u = default url (sd_req st) ∧ Do u = Response code status b None ∧ (200 ≤ code < 300)%Z) ∧
      ctx' = (if String.eqb tenantID "" then ctx else InjectTenantID tenantID) ∧
      ∀ l, l ∈ pushed ↔ l ∈ ls ∧ (String.prefix "__" (Name l) = true → Name l = LabelNameMetricName)
  | None => sd_health st' = HEALTH_DOWN ∧ is_Some (sd_lastError st') ∧ sd_size st' = sd_size st
  end.
Proof.
  assert (∀ u profileType, match fetchProfile NewRequest Do TrimSpace u profileType (sd_req st) with
    | (req, Ret b) => b ≠ [] ∧ ∃ v code status, req = Some v ∧ v = default u (sd_req st) ∧ Do v = Response code status b None ∧ (200 ≤ code < 300)%Z
    | (req, Fail e) => True | (req, Panic) => False end) as Hf.
  { intros u profileType. unfold fetchProfile. destruct (match sd_req st with Some _ => _ | None => _ end) as [v|e] eqn:Ev; [|done].
    assert (v = default u (sd_req st)) as -> by (destruct (sd_req st); [by injection Ev as <-|by destruct (NewRequest u); [|injection Ev as <-]]).
    destruct (Do _) as [|code status b [e|]] eqn:Ed; [done|done|]. destruct (Z.eqb_spec (Z.quot code 100) 2) as [Hc|]; [cbn|done]. destruct b as [|x b]; [done|]. cbn.
    split; [done|]. eexists _, code, status. split_and!; [done|done|done|..]; Z.to_euclidean_division_equations; lia. }
  unfold scrape. specialize (Hf url (if List.find (λ l, String.eqb (Name l) ProfileName) ls is Some l then Value l else "")). destruct (fetchProfile _ _ _ _ _ _) as [req [b|e|]]; [|by split_and!|done].
  destruct Hf as (Hb & Hr). cbn. split_and!; try done.
  - by destruct b.
  - intros l. unfold pushed_labels. rewrite list_elem_of_filter. destruct (String.prefix "__" (Name l)); cbn; [|naive_solver]. destruct (String.eqb_spec (Name l) LabelNameMetricName); naive_solver.
Qed.

(** The wait is within the interval. *)
Lemma offset_bounds now interval hash d : (0 ≤ now ≤ max_int64)%Z → (0 < interval ≤ 2 ^ 62)%Z → scrape_offset now interval hash = Ret d →
  (0 ≤ d ≤ interval)%Z ∧ ((now + d) mod interval = (2 * now + Z.of_N hash) mod interval)%Z.
Proof.
  intros Hn Hi. unfold scrape_offset. destruct (Z.eqb_spec interval 0) as [->|]; [lia|]. intros [= <-]. rewrite (Z.mod_small interval (2 ^ 64)) by lia.
  rewrite Z.rem_mod_nonneg by lia. pose proof (Z.mod_pos_bound now interval ltac:(lia)) as H1. pose proof (Z.mod_pos_bound (Z.of_N hash) interval ltac:(lia)) as H2.
  rewrite (i64_small (Z.of_N hash mod interval)) by (unfold int64_range, min_int64, max_int64; lia). rewrite (i64_small (_ + _)) by (unfold int64_range, min_int64, max_int64; lia).
  assert (∀ k, ((now + (now mod interval + Z.of_N hash mod interval - k * interval)) mod interval = (2 * now + Z.of_N hash) mod interval)%Z) as Hm.
  { intros k. rewrite (Z.mod_eq now interval), (Z.mod_eq (Z.of_N hash) interval) by lia. rewrite <- (Z.mod_add (2 * now + Z.of_N hash) (- (now `div` interval) - Z.of_N hash `div` interval - k) interval) by lia. f_equal. ring. }
  destruct (Z.ltb_spec interval (now mod interval + Z.of_N hash mod interval)).
  - rewrite i64_small by (unfold int64_range, min_int64, max_int64; lia). split; [lia|]. rewrite <- (Hm 1%Z). f_equal. lia.
  - split; [lia|]. rewrite <- (Hm 0%Z). f_equal. lia.
Qed.

(** The first scrapes of a target are not at a fixed place of the interval: the place depends on when it was started. *)
Example offset_moves : scrape_offset 1 10 3 = Ret 4%Z ∧ scrape_offset 2 10 3 = Ret 5%Z.
Proof. done. Qed.

(** Once targets have been listed no sync ends: the goroutine that runs it waits for ever. *)
Lemma listing_blocks_sync ops : ∀ l l', 0 < gl_readers l → foldl (λ o op, o ≫= lock_go op) (Some l) ops = Some l' → lock_go DoSync l' = None ∧ DoSync ∉ ops.
Proof.
  assert (∀ ops, foldl (λ o op, o ≫= lock_go op) (None : option group_lock) ops = None) as Hnone by (clear; induction ops; done).
  induction ops as [|op ops IH]; intros l l' Hl; cbn.
  - intros [= ->]. split; [|by apply not_elem_of_nil]. destruct l' as [[|r] w]; cbn in Hl |- *; [lia|by rewrite andb_false_r].
  - destruct (lock_go op l) as [l1|] eqn:E; [|by rewrite Hnone]. intros Hf. assert (0 < gl_readers l1 ∧ op ≠ DoSync) as [H1 H2].
    { destruct l as [[|r] [|]], op; cbn in E, Hl; try done; try lia; injection E as <-; cbn; split; (lia || done). }
    destruct (IH _ _ H1 Hf) as [H3 H4]. split; [done|]. apply not_elem_of_cons. by split.
Qed.

(** *** Stopping *)

(** How many operations the goroutine has left once it is cancelled. *)
Definition sg_left (p : start_pc) : nat := match p with AScraping => 3 | AOffset | ATick => 2 | ATop => 1 | AEnded => 0 end.

Definition sg_run (acts : list sg_actor) (s : scraping) : option scraping := foldl (λ o a, o ≫= sg_go a) (Some s) acts.

Definition own_ops (acts : list sg_actor) : nat := length (omap (λ a, if a is SgGo t then Some t else None) acts).

Lemma sg_run_cons a acts s s' : sg_run (a :: acts) s = Some s' → ∃ s1, sg_go a s = Some s1 ∧ sg_run acts s1 = Some s'.
Proof.
  unfold sg_run. cbn. destruct (sg_go a s) as [s1|]; [by exists s1|]. intros H. exfalso. clear -H. induction acts; [done|auto].
Qed.

(** C32: A target that is stopped, wherever its goroutine is, begins no scrape any more, and the goroutine ends after at most three operations of its own,
    whichever of a timer and the end of the context is chosen; until then it can always go on. *)
Theorem stop_ends acts s s' : sg_cancelled s = true → sg_run acts s = Some s' →
  sg_scrapes s' = sg_scrapes s ∧ own_ops acts + sg_left (sg_pc s') ≤ sg_left (sg_pc s) ≤ 3 ∧
  (sg_pc s' = AEnded ∨ ∀ timer, is_Some (sg_go (SgGo timer) s')).
Proof.
  revert s. induction acts as [|a acts IH]; intros s Hc Hrun.
  - injection Hrun as <-. split_and!; [done|done|destruct (sg_pc s); cbn; lia|]. destruct s as [[] c n]; cbn in Hc |- *; subst c; auto; right; intros []; by eexists.
  - apply sg_run_cons in Hrun as (s1 & Hgo & Hrun). assert (sg_cancelled s1 = true ∧ sg_scrapes s1 = sg_scrapes s ∧ own_ops [a] + sg_left (sg_pc s1) ≤ sg_left (sg_pc s) ≤ 3) as (H1 & H2 & H3).
    { destruct s as [[] c n], a as [|[]]; cbn in Hc, Hgo; subst c; simplify_eq; cbn; split_and!; done || lia. }
    destruct (IH s1 H1 Hrun) as (I1 & I2 & I3). split_and!; [congruence| |lia|done]. assert (own_ops (a :: acts) = own_ops [a] + own_ops acts) as ->; [|lia].
    unfold own_ops. change (a :: acts) with ([a] ++ acts). by rewrite omap_app, length_app.
Qed.

(** A target is stopped during its second scrape; the ticker is chosen once more. *)
Lemma stop_ends_witness : ∃ s s', sg_run [SgGo true; SgGo false; SgGo false; SgGo true; SgGo false; SgStop] start_target = Some s ∧ sg_run [SgGo false; SgGo true; SgGo false] s = Some s' ∧
  sg_pc s' = AEnded ∧ sg_scrapes s' = 2.
Proof.
  exists (mkScraping AScraping true 2), (mkScraping AEnded true 2). split; [reflexivity|]. split; [reflexivity|]. split; [reflexivity|].
  destruct (stop_ends [SgGo false; SgGo true; SgGo false] (mkScraping AScraping true 2) (mkScraping AEnded true 2)) as (H & _ & _); [reflexivity|reflexivity|exact H].
Defined.

(** ** Configurations *)

Lemma with_defaults_pprof d mine pt : map_fold (λ pt pc m, merge_pprof m pt pc) mine d !! pt =
  match d !! pt, mine !! pt with
  | Some pc, Some c => Some (mkPprofConf (Some (default true (pc_Enabled c))) (if String.eqb (pc_Path c) "" then pc_Path pc else pc_Path c) (pc_Delta c))
  | Some pc, None => Some pc
  | None, o => o
  end.
Proof.
  apply (map_fold_weak_ind (λ m (d : gmap string PprofProfilingConfig), m !! pt = match d !! pt, mine !! pt with
    | Some pc, Some c => Some (mkPprofConf (Some (default true (pc_Enabled c))) (if String.eqb (pc_Path c) "" then pc_Path pc else pc_Path c) (pc_Delta c))
    | Some pc, None => Some pc | None, o => o end)); [done|].
  intros k pc d' m Hk IH. unfold merge_pprof. destruct (decide (k = pt)) as [->|Hne].
  - rewrite lookup_insert_eq. rewrite Hk in IH. rewrite IH. by destruct (mine !! pt); rewrite lookup_insert_eq.
  - rewrite lookup_insert_ne by done. destruct (m !! k); by rewrite lookup_insert_ne.
Qed.

(** A configuration that is accepted names a job, leaves time between two scrapes, scrapes the default profiles unless it says otherwise, and
    gives CPU profiles two seconds. *)
Lemma Validate_correct d c : let '(c', r) := Validate d c in r = Ret () →
  sc_JobName c' = sc_JobName c ∧ sc_JobName c' ≠ "" ∧ (sc_Timeout c' ≤ sc_Interval c')%Z ∧ (sc_Timeout c' = 0 → sc_Interval c' = 0)%Z ∧
  (∀ pt pc, default ∅ (sc_Pprof d) !! pt = Some pc → (is_Some (pc_Enabled pc) ∧ pc_Path pc ≠ "") →
     ∃ e, default ∅ (sc_Pprof c') !! pt = Some e ∧ is_Some (pc_Enabled e) ∧ pc_Path e ≠ "") ∧
  (∀ e, default ∅ (sc_Pprof c') !! pprofProcessCPU = Some e → pc_Enabled e = Some false ∨ (2000000000 ≤ sc_Timeout c')%Z).
Proof.
  unfold Validate. assert (sc_JobName (with_defaults d c) = sc_JobName c) as Hj by done.
  assert (∀ pt pc, default ∅ (sc_Pprof d) !! pt = Some pc → (is_Some (pc_Enabled pc) ∧ pc_Path pc ≠ "") →
    ∃ e, default ∅ (sc_Pprof (with_defaults d c)) !! pt = Some e ∧ is_Some (pc_Enabled e) ∧ pc_Path e ≠ "") as Hp.
  { intros pt pc Hd [He Hpath]. unfold with_defaults. cbn [sc_Pprof]. destruct (sc_Pprof c) as [mine|]; [|by exists pc]. pose proof (with_defaults_pprof (default ∅ (sc_Pprof d)) mine pt) as Hw. rewrite Hd in Hw.
    destruct (mine !! pt) as [e|]; (eexists; split; [exact Hw|]); [|done]. split; [by eexists|]. cbn. by destruct (String.eqb_spec (pc_Path e) ""). }
  destruct (String.eqb_spec (sc_JobName (with_defaults d c)) "") as [|Hne]; [done|]. destruct (Z.ltb_spec (sc_Interval (with_defaults d c)) (sc_Timeout (with_defaults d c))); [done|].
  set (c1 := if (sc_Timeout (with_defaults d c) =? 0)%Z then _ else _).
  assert (sc_JobName c1 = sc_JobName c ∧ sc_Pprof c1 = sc_Pprof (with_defaults d c) ∧ (sc_Timeout c1 ≤ sc_Interval c1)%Z ∧ (sc_Timeout c1 = 0 → sc_Interval c1 = 0)%Z) as (C1 & C2 & C3 & C4).
  { subst c1. destruct (Z.eqb_spec (sc_Timeout (with_defaults d c)) 0); cbn [with_timeout sc_JobName sc_Pprof sc_Timeout sc_Interval]; split_and!; done || lia. }
  destruct (default ∅ (sc_Pprof c1) !! pprofProcessCPU) as [e|] eqn:Ee; [destruct (pc_Enabled e) as [[]|] eqn:En; [destruct (Z.ltb_spec (sc_Timeout c1) 2000000000); [done|]|..|done]|];
    cbn [andb]; intros _; (split_and!; [done|congruence|done|done|by rewrite C2|intros e' He'; simplify_eq]); auto.
Qed.
