(* ===== verification/Seed.v ===== *)
(** * The seed of a cluster (src/pkg/usagestats/seed.go, reporter.go)

    The processes of a cluster share a seed: a leader puts one in a key-value store, which may be gossiped and so only converges, waits until what it reads of the
    store is stable, and writes it to a file in the bucket unless there is one.  The file models the merge of seeds, the wait, and what a leader and a
    follower do, for any answers of the store and of the bucket. *)

From S2P Require Import Prelude.

(** [time.Time]: the instant, and what else [==] compares: the location and the monotonic reading. *)
Record GoTime := mkTime { tm_instant : Z; tm_rest : string }.

Record ClusterSeed := mkSeed { cs_UID : string; cs_CreatedAt : GoTime; cs_Version : string }.

#[global] Instance GoTime_eq_dec : EqDecision GoTime.
Proof. solve_decision. Defined.
#[global] Instance ClusterSeed_eq_dec : EqDecision ClusterSeed.
Proof. solve_decision. Defined.

(** What a seed is seeds_merged with: a nil interface, something else, a nil seed or a seed. *)
Inductive Mergeable := NilMergeable | OtherMergeable (type : string) | NilSeed | ASeed (s : ClusterSeed).

Definition time_Before (a b : GoTime) : bool := (tm_instant a <? tm_instant b)%Z.

(** The seed afterwards, and the change. *)
Definition seed_Merge (c : ClusterSeed) (mergeable : Mergeable) : ClusterSeed * outcome (option ClusterSeed) :=
  match mergeable with
  | NilMergeable => (c, Ret None)
  | OtherMergeable type => (c, Fail ("expected *usagestats.ClusterSeed, got " +:+ type))
  | NilSeed => (c, Ret None)
  | ASeed other =>
      if time_Before (cs_CreatedAt c) (cs_CreatedAt other) then (c, Ret None)
      else if decide (cs_CreatedAt c = cs_CreatedAt other) then
        if String.ltb (cs_UID other) (cs_UID c) then (other, Ret (Some other)) else (c, Ret None)
      else (other, Ret (Some other))
  end.

(** ** The wait for a stable key *)

(** What the store answers: an error, no seed, or a seed. *)
Inductive kv_read := KvFailed | KvNone | KvSeed (s : ClusterSeed).

Definition stabilityMinimunRequired : nat := 6.

Fixpoint ensureStableKey (previous : option ClusterSeed) (stableCount : nat) (reads : list kv_read) : option ClusterSeed :=
  match reads with
  | [] => None
  | KvFailed :: reads | KvNone :: reads => ensureStableKey previous stableCount reads
  | KvSeed seed :: reads =>
      match previous with
      | None => ensureStableKey (Some seed) stableCount reads
      | Some p =>
          if negb (String.eqb (cs_UID p) (cs_UID seed)) then ensureStableKey (Some seed) 0 reads
          else if (stabilityMinimunRequired <? S stableCount)%nat then Some seed
          else ensureStableKey previous (S stableCount) reads
      end
  end.

(** The seeds among the answers, the last one first. *)
Definition seeds_read (reads : list kv_read) : list ClusterSeed := reverse (omap (λ r, if r is KvSeed s then Some s else None) reads).

(** ** Merging *)

(** Seeds of one cluster: one identifier is one seed, and two of them that are made at the same instant have equal times.  A seed that comes back from
    another process may have its time in another representation. *)
Definition one_cluster (l : list ClusterSeed) : Prop :=
  ∀ a b, a ∈ l → b ∈ l →
    (cs_UID a = cs_UID b → tm_instant (cs_CreatedAt a) = tm_instant (cs_CreatedAt b)) ∧
    (tm_instant (cs_CreatedAt a) = tm_instant (cs_CreatedAt b) → cs_UID a ≠ cs_UID b → cs_CreatedAt a = cs_CreatedAt b).

(** The older seed, or of two that are as old the one with the smaller identifier. *)
Definition seed_le (a b : ClusterSeed) : Prop :=
  (tm_instant (cs_CreatedAt a) < tm_instant (cs_CreatedAt b))%Z ∨
  tm_instant (cs_CreatedAt a) = tm_instant (cs_CreatedAt b) ∧ String.le (cs_UID a) (cs_UID b).

Definition seeds_merged (c : ClusterSeed) (l : list ClusterSeed) : ClusterSeed := foldl (λ c s, (seed_Merge c (ASeed s)).1) c l.

(** A merge keeps one of the two, and reports what it takes. *)
Lemma seed_Merge_change a b : let '(c, change) := seed_Merge a (ASeed b) in (c = a ∨ c = b) ∧ change = Ret (if decide (c = a) then None else Some c).
Proof.
  unfold seed_Merge, time_Before. destruct (Z.ltb_spec (tm_instant (cs_CreatedAt a)) (tm_instant (cs_CreatedAt b))); [rewrite decide_True by done; by split; [left|]|].
  destruct (decide (cs_CreatedAt a = cs_CreatedAt b)) as [He|Hne].
  - destruct (String.ltb (cs_UID b) (cs_UID a)) eqn:El; [|rewrite decide_True by done; by split; [left|]].
    apply str_ltb_le in El as [_ Hn]. rewrite decide_False by by intros ->. by split; [right|].
  - rewrite decide_False by by intros ->. by split; [right|].
Qed.

Lemma seed_Merge_le a b : one_cluster [a; b] → seed_le (seed_Merge a (ASeed b)).1 a ∧ seed_le (seed_Merge a (ASeed b)).1 b.
Proof.
  intros Hone. destruct (Hone a b ltac:(set_solver) ltac:(set_solver)) as [Hu Ht]. unfold seed_Merge, seed_le, time_Before.
  destruct (Z.ltb_spec (tm_instant (cs_CreatedAt a)) (tm_instant (cs_CreatedAt b))) as [Hlt|Hge]; [by split; [right|left]|].
  destruct (decide (cs_CreatedAt a = cs_CreatedAt b)) as [He|Hne]; [destruct (String.ltb (cs_UID b) (cs_UID a)) eqn:El|]; cbn [fst].
  - apply str_ltb_le in El as [Hle _]. split; right; by rewrite ?He.
  - split; right; [done|]. split; [by rewrite He|by apply str_le_ltb].
  - split; [|by right]. destruct (decide (tm_instant (cs_CreatedAt a) = tm_instant (cs_CreatedAt b))) as [Hi|]; [right|left; lia].
    destruct (decide (cs_UID a = cs_UID b)) as [->|Hn]; [by split|]. by apply Ht in Hi.
Qed.

Lemma seed_le_anti a b : seed_le a b → seed_le b a → cs_UID a = cs_UID b.
Proof. intros [H1|[H1 H2]] [H3|[H3 H4]]; try lia. by apply (anti_symm String.le). Qed.

Lemma seed_le_trans a b c : seed_le a b → seed_le b c → seed_le a c.
Proof. intros [H1|[H1 H2]] [H3|[H3 H4]]; [left; lia|left; lia|left; lia|right]. split; [lia|by etrans]. Qed.

(** The merge of several seeds is the least of them. *)
Lemma merged_least c l : one_cluster (c :: l) → seeds_merged c l ∈ c :: l ∧ ∀ s, s ∈ c :: l → seed_le (seeds_merged c l) s.
Proof.
  revert c. induction l as [|s l IH]; intros c Hone.
  { split; [by left|]. intros s ->%list_elem_of_singleton. by right. }
  unfold seeds_merged. cbn [foldl]. fold (seeds_merged (seed_Merge c (ASeed s)).1 l). pose proof (seed_Merge_change c s) as Hm.
  destruct (seed_Merge_le c s) as [H1 H2]; [intros a b Ha Hb; apply Hone; set_solver|].
  destruct (seed_Merge c (ASeed s)) as [d change]. destruct Hm as [Hd _]. cbn [fst] in *.
  destruct (IH d) as [Hin Hle]; [intros a b Ha Hb; apply Hone; set_solver|]. split; [set_solver|].
  intros x [->|[->|Hx]%elem_of_cons]%elem_of_cons; [eapply seed_le_trans; [apply Hle; by left|done]..|]. apply Hle. by right.
Qed.


Definition seed_at (t : Z) (uid : string) : ClusterSeed := mkSeed uid (mkTime t "UTC") "v".


(** Times that are the same instant but are not [==] make each of two seeds replace the other. *)
Example seeds_alternate : let a := mkSeed "a" (mkTime 1 "UTC") "v" in let b := mkSeed "b" (mkTime 1 "Local") "v" in
  seed_Merge a (ASeed b) = (b, Ret (Some b)) ∧ seed_Merge b (ASeed a) = (a, Ret (Some a)).
Proof. by vm_compute. Qed.

(** *** A stable key *)

(** The seeds that were read, the last one first, when the loop has these two variables. *)
Definition steady (previous : option ClusterSeed) (stableCount : nat) (seen : list ClusterSeed) : Prop :=
  match previous with
  | None => stableCount = 0
  | Some p => stableCount < length seen ∧ Forall (λ s, cs_UID s = cs_UID p) (take (S stableCount) seen)
  end.

Lemma seeds_read_cons r reads : seeds_read (r :: reads) = seeds_read reads ++ (if r is KvSeed s then [s] else []).
Proof. unfold seeds_read. destruct r; cbn [omap list_omap]; rewrite ?reverse_cons, ?app_nil_r; done. Qed.

(** The seed that is returned was the last one read, and it was read eight times without another one in between. *)
Lemma ensureStableKey_stable reads : ∀ previous count seen s, steady previous count seen → count ≤ 6 → ensureStableKey previous count reads = Some s →
  ∃ k, let seen' := seeds_read (take k reads) ++ seen in 8 ≤ length seen' ∧ head seen' = Some s ∧ Forall (λ s', cs_UID s' = cs_UID s) (take 8 seen').
Proof.
  induction reads as [|r reads IH]; intros previous count seen s Hst Hc; cbn [ensureStableKey]; [done|].
  assert (∀ previous count, steady previous count ((if r is KvSeed s then [s] else []) ++ seen) → count ≤ 6 → ensureStableKey previous count reads = Some s →
    ∃ k, let seen' := seeds_read (take k (r :: reads)) ++ seen in 8 ≤ length seen' ∧ head seen' = Some s ∧ Forall (λ s', cs_UID s' = cs_UID s) (take 8 seen')) as Hnext.
  { intros previous' count' Hs' Hc' He. destruct (IH _ _ _ _ Hs' Hc' He) as [k Hk]. exists (S k). cbn [take]. by rewrite seeds_read_cons, <- (assoc_L (++)). }
  destruct r as [| |seed]; cbn in Hnext; [by apply Hnext|by apply Hnext|]. destruct previous as [p|]; cbn in Hst.
  - destruct Hst as [Hlen Hall]. destruct (String.eqb_spec (cs_UID p) (cs_UID seed)) as [Hu|Hu]; cbn [negb].
    + assert (steady (Some p) (S count) (seed :: seen)) as Hs' by (split; cbn; [lia|by constructor]).
      destruct (Nat.ltb_spec stabilityMinimunRequired (S count)) as [Hlt|Hge]; [|apply Hnext; [done|unfold stabilityMinimunRequired in Hge; lia]].
      intros [= <-]. unfold stabilityMinimunRequired in Hlt. assert (count = 6) as -> by lia. exists 1. change (seeds_read (take 1 (KvSeed seed :: reads)) ++ seen) with (seed :: seen). cbn zeta. split; [cbn; lia|]. split; [done|]. cbn [take]. constructor; [done|].
      eapply Forall_impl; [exact Hall|]. cbn. intros s' ->. exact Hu.
    + apply Hnext; [|lia]. split; cbn; [lia|]. rewrite take_0. by repeat constructor.
  - subst count. apply Hnext; [|lia]. split; cbn; [lia|]. rewrite take_0. by repeat constructor.
Qed.

(** Eight answers with the same seed are enough, whatever errors are between them. *)
Lemma ensureStableKey_ends uid reads : ∀ previous count, (∀ s, KvSeed s ∈ reads → cs_UID s = uid) → (∀ p, previous = Some p → cs_UID p = uid) →
  (if previous is Some _ then 7 else 8) ≤ count + length (seeds_read reads) → count ≤ 6 → is_Some (ensureStableKey previous count reads).
Proof.
  induction reads as [|r reads IH]; intros previous count Hu Hp Hlen Hc; [destruct previous; cbn in Hlen; lia|]. rewrite seeds_read_cons, length_app in Hlen.
  assert (∀ s, KvSeed s ∈ reads → cs_UID s = uid) as Hu' by (intros; apply Hu; set_solver). destruct r as [| |seed]; cbn [ensureStableKey length] in *.
  - apply IH; [done|done|destruct previous; lia|done].
  - apply IH; [done|done|destruct previous; lia|done].
  - assert (cs_UID seed = uid) as Hs by (apply Hu; set_solver). destruct previous as [p|].
    + rewrite (Hp p eq_refl), Hs, String.eqb_refl. cbn [negb]. destruct (Nat.ltb_spec stabilityMinimunRequired (S count)) as [|Hge]; [by eexists|]. unfold stabilityMinimunRequired in Hge. apply IH; [done|done|lia|lia].
    + apply IH; [done|by intros p [= <-]|lia|done].
Qed.

(** ** A leader and a follower *)

(** What reading the file gives, and what fetching it does. *)
Inductive file_read := FileSeed (s : ClusterSeed) | FileNotFound | FileFailed.
Inductive fetched := Fetched (s : ClusterSeed) | NotFound | CtxEnded.

(** What a reporter does to the store and to the bucket. *)
Inductive seed_event := PutKey (s : ClusterSeed) | DeleteFile | UploadFile (s : ClusterSeed) (ok : bool).

Definition attemptNumber : nat := 4.

(** The answers to the reads until the context ends.  A leader goes on unless the file is not there, a follower always does. *)
Fixpoint fetchSeed (leader : bool) (readingErr : nat) (reads : list file_read) : list seed_event * fetched :=
  match reads with
  | [] => ([], CtxEnded)
  | FileSeed s :: _ => ([], Fetched s)
  | r :: reads =>
      let not_found := if r is FileNotFound then true else false in
      let readingErr := if not_found then readingErr else S readingErr in
      let '(deleted, readingErr) := if (attemptNumber <? readingErr)%nat then ([DeleteFile], 0) else ([], readingErr) in
      if leader && not_found then (deleted, NotFound)
      else let '(events, f) := fetchSeed leader readingErr reads in (deleted ++ events, f)
  end.

(** One turn of a leader: the seed that it makes, what the store has when it is put ([None]: an error), the answers while it waits for it to be stable, and those
    of the bucket. *)
Record turn := mkTurn { tn_seed : ClusterSeed; tn_cas : option (option ClusterSeed); tn_key : list kv_read; tn_file : list file_read; tn_upload : bool }.

Definition cas_seed (seed : ClusterSeed) (kvSeed : option ClusterSeed) : option ClusterSeed :=
  match kvSeed with
  | Some k => if negb (String.eqb (cs_UID k) (cs_UID seed)) then None else Some seed
  | None => Some seed
  end.

(** A leader has a seed, has given up with the empty one, or waits for a stable key for ever. *)
Inductive leader_end := Leads (s : ClusterSeed) | GaveUp | Waits.

(** The turns until the context ends. *)
Fixpoint initLeader (turns : list turn) : list seed_event * leader_end :=
  match turns with
  | [] => ([], GaveUp)
  | t :: turns =>
      match tn_cas t with
      | None => initLeader turns
      | Some kvSeed =>
          let put := if cas_seed (tn_seed t) kvSeed is Some s then [PutKey s] else [] in
          match ensureStableKey None 0 (tn_key t) with
          | None => (put, Waits)
          | Some seed =>
              let '(events, f) := fetchSeed true 0 (tn_file t) in
              match f with
              | Fetched remoteSeed => (put ++ events, Leads remoteSeed)
              | CtxEnded => (put ++ events, GaveUp)
              | NotFound =>
                  if tn_upload t then (put ++ events ++ [UploadFile seed true], Leads seed)
                  else let '(events', e) := initLeader turns in (put ++ events ++ [UploadFile seed false] ++ events', e)
              end
          end
      end
  end.

Definition emptySeed : ClusterSeed := mkSeed "" (mkTime 0 "") "".

(** [init]: the seed of the reporter; [None] when it never has one.  [client] is whether the client of the store could be made. *)
Definition reporter_init (leader client : bool) (turns : list turn) (reads : list file_read) : list seed_event * option ClusterSeed :=
  if leader then
    if client then let '(events, e) := initLeader turns in (events, match e with Leads s => Some s | GaveUp => Some emptySeed | Waits => None end)
    else ([], Some emptySeed)
  else let '(events, f) := fetchSeed false 0 reads in (events, Some (if f is Fetched s then s else emptySeed)).

(** The seed was read eight times without another one in between. *)
Definition read_stable (reads : list kv_read) (s : ClusterSeed) : Prop :=
  ∃ k, let seen := seeds_read (take k reads) in 8 ≤ length seen ∧ head seen = Some s ∧ Forall (λ s', cs_UID s' = cs_UID s) (take 8 seen).

Definition failures (reads : list file_read) : nat := length (omap (λ r, if r is FileFailed then Some () else None) reads).
Definition deletions (events : list seed_event) : nat := length (omap (λ e, if e is DeleteFile then Some () else None) events).

Lemma deletions_app l1 l2 : deletions (l1 ++ l2) = deletions l1 + deletions l2.
Proof. unfold deletions. by rewrite omap_app, length_app. Qed.

(** Fetching only deletes, and that once for five failures at most. *)
Lemma fetchSeed_spec leader reads : ∀ errs, errs ≤ attemptNumber → let '(events, f) := fetchSeed leader errs reads in
  Forall (λ e, e = DeleteFile) events ∧ 5 * deletions events ≤ errs + failures reads ∧
  match f with Fetched s => FileSeed s ∈ reads | NotFound => leader = true ∧ FileNotFound ∈ reads ∧ ∀ s, reads !! 0 ≠ Some (FileSeed s) | CtxEnded => ∀ s, FileSeed s ∉ reads end.
Proof.
  unfold attemptNumber. induction reads as [|r reads IH]; intros errs Herrs; [split_and!; [done|cbn; lia|set_solver]|]. destruct r as [s| |]; cbn [fetchSeed].
  - split_and!; [done|cbn; lia|by left].
  - rewrite (proj2 (Nat.ltb_ge _ _)) by (unfold attemptNumber; lia). rewrite andb_true_r. destruct leader.
    + split_and!; [done|cbn; lia|done|by left|done].
    + specialize (IH errs Herrs). destruct (fetchSeed false errs reads) as [events f]. destruct IH as (H1 & H2 & H3). split_and!; [done|exact H2|]. destruct f; [by right|by destruct H3|set_solver].
  - rewrite andb_false_r. unfold attemptNumber. assert (failures (FileFailed :: reads) = S (failures reads)) as Hf by done. destruct (Nat.ltb_spec 4 (S errs)) as [Hlt|Hge].
    + specialize (IH 0 ltac:(lia)). destruct (fetchSeed leader 0 reads) as [events f]. destruct IH as (H1 & H2 & H3). split_and!; [by constructor|rewrite Hf, deletions_app; change (deletions [DeleteFile]) with 1; lia|].
      destruct f; [by right|destruct H3 as (? & ? & _); split_and!; [done|by right|done]|set_solver].
    + specialize (IH (S errs) ltac:(lia)). destruct (fetchSeed leader (S errs) reads) as [events f]. destruct IH as (H1 & H2 & H3). split_and!; [done|rewrite Hf; cbn [app]; lia|].
      destruct f; [by right|destruct H3 as (? & ? & _); split_and!; [done|by right|done]|set_solver].
Qed.

(** One answer that is not a failure ends the fetching of a leader. *)
Lemma fetchSeed_ends reads : ∀ errs, Exists (λ r, r ≠ FileFailed) reads → (fetchSeed true errs reads).2 ≠ CtxEnded.
Proof.
  induction reads as [|r reads IH]; intros errs Hex; [by inversion Hex|]. destruct r as [s| |]; cbn [fetchSeed]; [done| |].
  - by destruct (attemptNumber <? errs)%nat.
  - apply Exists_cons in Hex as [|Hex]; [done|]. rewrite andb_false_r. destruct (attemptNumber <? S errs)%nat; [specialize (IH 0 Hex)|specialize (IH (S errs) Hex)]; by destruct (fetchSeed true _ reads).
Qed.

(** What a leader may do in its turns, and with which seed it ends. *)
Record leader_ok (turns : list turn) (events : list seed_event) (e : leader_end) : Prop := {
  lo_put s : PutKey s ∈ events → ∃ t, t ∈ turns ∧ s = tn_seed t ∧ (tn_cas t = Some None ∨ ∃ k, tn_cas t = Some (Some k) ∧ cs_UID k = cs_UID s);
  lo_upload s ok : UploadFile s ok ∈ events → ∃ t, t ∈ turns ∧ read_stable (tn_key t) s ∧ FileNotFound ∈ tn_file t ∧ tn_upload t = ok ∧ (ok = true → e = Leads s);
  lo_leads s : e = Leads s → ∃ t stable, t ∈ turns ∧ read_stable (tn_key t) stable ∧ (FileSeed s ∈ tn_file t ∨ s = stable ∧ last events = Some (UploadFile s true));
  lo_deletes : 5 * deletions events ≤ sum_list (failures ∘ tn_file <$> turns) }.

(** What a turn does before its last operation. *)
Definition turn_event (t : turn) (x : seed_event) : Prop :=
  match x with
  | DeleteFile => True
  | UploadFile s ok => ok = false ∧ read_stable (tn_key t) s ∧ FileNotFound ∈ tn_file t ∧ tn_upload t = false
  | PutKey s => s = tn_seed t ∧ (tn_cas t = Some None ∨ ∃ k, tn_cas t = Some (Some k) ∧ cs_UID k = cs_UID s)
  end.

Lemma sum_failures t turns : sum_list (failures ∘ tn_file <$> t :: turns) = failures (tn_file t) + sum_list (failures ∘ tn_file <$> turns).
Proof. done. Qed.

Lemma leader_more t turns events0 events e : leader_ok turns events e → Forall (turn_event t) events0 → 5 * deletions events0 ≤ failures (tn_file t) → leader_ok (t :: turns) (events0 ++ events) e.
Proof.
  intros [L1 L2 L3 L4] Hall Hdel. rewrite Forall_forall in Hall. split.
  - intros s [Hin|Hin]%elem_of_app; [exists t; split; [by left|exact (Hall _ Hin)]|]. destruct (L1 s Hin) as (t' & Ht & Hs). exists t'. split; [by right|done].
  - intros s ok [Hin|Hin]%elem_of_app.
    + destruct (Hall _ Hin) as (-> & Hs & Hf & Hu). exists t. split_and!; [by left|done|done|done|done].
    + destruct (L2 s ok Hin) as (t' & Ht & Hs). exists t'. split; [by right|done].
  - intros s He. destruct (L3 s He) as (t' & stable & Ht & Hst & Hs). exists t', stable. split_and!; [by right|done|]. destruct Hs as [|[-> Hl]]; [by left|right]. split; [done|]. by rewrite last_app, Hl.
  - rewrite deletions_app, sum_failures. lia.
Qed.

(** The last turn: its end is not a seed, or one from the file, or one that has been written. *)
Lemma leader_last t turns events0 l e : Forall (turn_event t) events0 → 5 * deletions events0 ≤ failures (tn_file t) →
  (l = [] ∧ (∀ s, e = Leads s → ∃ stable, read_stable (tn_key t) stable ∧ FileSeed s ∈ tn_file t) ∨
    ∃ s, l = [UploadFile s true] ∧ e = Leads s ∧ read_stable (tn_key t) s ∧ FileNotFound ∈ tn_file t ∧ tn_upload t = true) → leader_ok (t :: turns) (events0 ++ l) e.
Proof.
  intros Hall Hdel Hl. rewrite Forall_forall in Hall. assert (5 * deletions (events0 ++ l) ≤ sum_list (failures ∘ tn_file <$> t :: turns)) as Hsum.
  { rewrite deletions_app, sum_failures. destruct Hl as [[-> _]|(s & -> & _)]; cbn [deletions]; change (deletions []) with 0; change (deletions [UploadFile _ _]) with 0; lia. }
  split; [| | |exact Hsum].
  - intros s [Hin|Hin]%elem_of_app; [exists t; split; [by left|exact (Hall _ Hin)]|]. destruct Hl as [[-> _]|(s' & -> & _)]; [by apply elem_of_nil in Hin|by apply list_elem_of_singleton in Hin].
  - intros s ok [Hin|Hin]%elem_of_app.
    + destruct (Hall _ Hin) as (-> & Hs & Hf & Hu). exists t. split_and!; [by left|done|done|done|done].
    + destruct Hl as [[-> _]|(s' & -> & -> & Hs & Hf & Hu)]; [by apply elem_of_nil in Hin|]. apply list_elem_of_singleton in Hin as [= -> ->]. exists t. split_and!; [by left|done|done|done|done].
  - intros s ->. destruct Hl as [[-> Hl]|(s' & -> & [= <-] & Hs & Hf & Hu)].
    + destruct (Hl s eq_refl) as (stable & Hst & Hin). exists t, stable. split_and!; [by left|done|by left].
    + exists t, s. split_and!; [by left|done|right]. split; [done|]. by rewrite last_snoc.
Qed.

Lemma stable_read reads s : ensureStableKey None 0 reads = Some s → read_stable reads s.
Proof.
  intros He. destruct (ensureStableKey_stable reads None 0 [] s) as [k Hk]; [done|lia|done|]. rewrite app_nil_r in Hk. by exists k.
Qed.

Lemma initLeader_ok turns : leader_ok turns (initLeader turns).1 (initLeader turns).2.
Proof.
  induction turns as [|t turns IH]; [split; cbn; [by intros ? ?%elem_of_nil|by intros ? ? ?%elem_of_nil|done|lia]|]. cbn [initLeader].
  destruct (tn_cas t) as [kvSeed|] eqn:Ecas; [|apply (leader_more t turns [] _ _ IH); [done|cbn; lia]].
  set (put := if cas_seed (tn_seed t) kvSeed is Some s then [PutKey s] else []).
  assert (Forall (turn_event t) put ∧ deletions put = 0) as [Hput Hdel].
  { subst put. unfold cas_seed. destruct kvSeed as [k|]; [destruct (String.eqb_spec (cs_UID k) (cs_UID (tn_seed t))) as [He|]|]; cbn [negb]; (split; [|done]); try done; apply Forall_singleton; (split; [done|]); rewrite Ecas; eauto. }
  destruct (ensureStableKey None 0 (tn_key t)) as [seed|] eqn:Est; cbn [fst snd].
  2: { rewrite <- (app_nil_r put). apply leader_last; [done|lia|by left]. }
  apply stable_read in Est. pose proof (fetchSeed_spec true (tn_file t) 0 ltac:(unfold attemptNumber; lia)) as Hf. destruct (fetchSeed true 0 (tn_file t)) as [events f]. destruct Hf as (Hev & Hd & Hf).
  assert (Forall (turn_event t) (put ++ events) ∧ 5 * deletions (put ++ events) ≤ failures (tn_file t)) as [Hall Hd'].
  { rewrite deletions_app. split; [apply Forall_app; split; [done|]|lia]. eapply Forall_impl; [exact Hev|]. by intros x ->. }
  destruct f as [remote| |]; cbn [fst snd].
  - rewrite <- (app_nil_r (put ++ events)). apply leader_last; [done|done|]. left. split; [done|]. intros s [= <-]. by exists seed.
  - destruct Hf as (_ & Hf & _). destruct (tn_upload t) eqn:Eup; cbn [fst snd].
    + rewrite (assoc_L (++)). apply leader_last; [done|done|]. right. by exists seed.
    + destruct (initLeader turns) as [events' e]. cbn [fst snd] in *. rewrite !(assoc_L (++)). apply leader_more; [done| |by rewrite deletions_app, Nat.add_0_r].
      apply Forall_app. split; [done|]. by repeat constructor.
  - rewrite <- (app_nil_r (put ++ events)). apply leader_last; [done|done|by left].
Qed.


Definition eight (s : ClusterSeed) : list kv_read := KvFailed :: replicate 8 (KvSeed s).

(** A leader whose first upload fails; then another one has written the file. *)
Example leads_with_the_file : initLeader [mkTurn (seed_at 2 "b") None [] [] true; mkTurn (seed_at 3 "c") (Some None) (eight (seed_at 3 "c")) [FileFailed; FileNotFound] false;
    mkTurn (seed_at 4 "d") (Some (Some (seed_at 3 "c"))) (eight (seed_at 3 "c")) [FileSeed (seed_at 1 "a")] true] =
  ([PutKey (seed_at 3 "c"); UploadFile (seed_at 3 "c") false], Leads (seed_at 1 "a")).
Proof. reflexivity. Qed.


(** Failures of any kind make a follower delete a good file: the reads fail because the bucket cannot be reached. *)
Example good_file_deleted : fetchSeed false 0 [FileFailed; FileFailed; FileFailed; FileFailed; FileFailed; FileNotFound] = ([DeleteFile], CtxEnded).
Proof. reflexivity. Qed.
